(* ===== verification/_CoqProject ===== *)
-Q . S2P
Prelude.v
Prog.v
Calls.v
Graph.v
GoStrings.v
Segments.v
Semver.v
Depends.v
Topo.v
HookOrder.v
HookBus.v
HookOrdered.v
PluginStore.v
Breaker.v
Versions.v
Lifecycle.v
LifecycleSeq.v
Http.v
Redirects.v
Policy.v
PluginCaps.v
LoginLimit.v
Counting.v
Pool.v
Base64.v
Redis.v
Session.v
SessionSafety.v
SessionWindow.v
Hex.v
Json.v
Menus.v
MenusProps.v
Revisions.v
RevisionsProps.v
Idempotency.v
IdempotencyProps.v
GoTime.v
AuditLog.v
AuditProps.v
Outbox.v
OutboxProps.v
Webhook.v
WebhookProps.v
Cron.v
CronProps.v
Html.v
Blocks.v
CoreBlocks.v
BlocksProps.v
Fragment.v
FragmentProps.v
Reusable.v
ReusableProps.v
Shortcode.v
ShortcodeProps.v
Pat.v
PatProps.v
Totp.v
Login.v
LoginProps.v
OneTime.v
OneTimeProps.v
Csrf.v
CsrfProps.v
Collections.v
CollectionsProps.v
Shutdown.v
SafeHttp.v
Templates.v
Posts.v
PostsPages.v
PostsProps.v
