(* ===== verification/Prelude.v ===== *)
(** * GoNext: a verified model of the platform core

    GoNext (packages/go, apps/api, apps/worker) is a content platform extended
    by plugins. This development models the Go packages that decide what may run
    and in which order: the plugin system, the hook bus, the gates in front of
    the HTTP surface (redirects, policy, login throttling, sessions, idempotency
    keys, cross-site request forgery), the ways to log in (passwords, one-time
    links, TOTP and recovery codes, personal access tokens), the audit log, the
    background work (transactional outbox, webhook delivery, cron scheduler),
    content stores (posts, menus, revisions, reusable blocks, media folders),
    the rendering of block trees with its caches, the template choice of a
    theme, the guard of outbound requests, graceful shutdown, and the shortcode
    reader of the importer. All paths below are under src/packages/go/ unless
    they start with apps/.

    ** Parts and how they interact

    A plugin bundle carries a manifest. The lifecycle manager installs it, asks
    the dependency gate whether it may be activated, loads it into the runtime
    and subscribes it to hooks; the crash-loop breaker parks it again, the
    version log remembers what to roll back to, and the capability checker
    answers each of its host calls. A batch of plugins is activated in
    dependency order. Platform code fires actions and filters on the hook bus,
    which runs the handlers in constraint order and may queue an action on the
    ordered dispatcher. Calls into a plugin lease one of its instances from a
    pool. An HTTP request meets the redirect middleware, the session lookup, the
    policy gate and, unless it only reads, the check of its CSRF token; a
    request may carry a personal access token in place of a session. Login
    checks the attempt limiter, the password and a second factor before it opens
    a session; a password reset and a magic link are redeemed by a token sent by
    mail. A request that carries an Idempotency-Key runs its handler once and
    has its answer replayed; the admin handlers edit menus, tokens and media
    folders, and the editor saves posts, naming the version it replaces, and
    post revisions, which a nightly sweep thins; scheduled posts are published
    and trashed ones deleted by tasks that run beside the requests. What
    happened is written to the audit log. A signal drains the server, closer by
    closer, within one budget.

    A request that needs work later writes a row of the outbox in its own
    transaction; pollers hand the rows to the queue. Deliveries of webhooks are
    such tasks: each is signed, sent, retried on a schedule and claimed by an
    idempotency key. Requests to addresses that users supply pass the dialer
    that refuses private networks. Scheduled tasks are enqueued by the replica
    that holds the cron lease. A page is laid out by the first template of its
    hierarchy that the theme has. It is a tree of blocks: references to reusable
    blocks are spliced in, the walker renders the tree by the registered
    renderers, and the caching walker keeps rendered blocks in the fragment
    cache, which tags invalidate through an outbox table of their own. An import
    turns the shortcodes of WordPress posts into blocks.

    ** Files

    - [Prelude]: Go results, time, 64-bit integers, stable sorts, list lemmas,
      tactics, the hint database [gonext].
    - [Prog]: programs of atomic commands, for the calls that interleave
      (lifecycle manager, sessions, handlers, idempotency keys). [Calls]: calls
      side by side on one shared state, one command of one call at a time, with
      the invariants such a run keeps.
    - [Graph]: topological prefixes, shared by the two sorts below.
    - [GoStrings]: the strings and strconv functions used. [Segments]: the lemmas
      on Split, Join and the segments of a text for any separator.
    - [Semver], [Depends], [Topo]: plugins/depends (semver.go; types.go,
      resolver.go, gate.go; topo.go).
    - [HookOrder], [HookBus], [HookOrdered]: hooks (order.go; bus.go, hooks.go,
      metrics.go; ordered.go). [Do], [ApplyFilters], [ApplyBatch] are the
      methods of the same names; the ordered dispatcher is a state machine
      whose events [ostep] are the atomic actions of producers, workers and
      reaper.
    - [PluginStore], [Breaker], [Versions], [Lifecycle], [LifecycleSeq]:
      plugins/lifecycle (state.go, storage.go, memory.go; breaker.go;
      versions_memory.go; manager.go, update.go). [Storage] is the interface
      of storage.go with its laws; the manager's theorems are proved against
      it and [MemoryStorage] discharges it. A manager call is a program of
      atomic commands, any of which the database may fail, run alone
      ([LifecycleSeq]) or in a pool of concurrent calls ([Lifecycle]). The
      runtime, known by its interface, holds modules by slug and version.
    - [Http]: the response writer of net/http. [Redirects]: redirects
      (store.go, engine.go, middleware.go).
    - [Policy]: policy. [PluginCaps]: plugins/capabilities.
    - [LoginLimit]: ratelimit (auth.go, failure_store.go), with the class
      [FailureStore] for the interface and its in-memory instance.
    - [Pool]: plugins/runtime/pool (pool.go, instance.go, reaper.go) as a state
      machine; an event of [pstep] is one critical section or atomic access of
      a caller, the reaper, [Start] or [Close], the closing of a module outside
      the lock included; sleeping on the condition variable is a state of the
      caller.
    - [Session], [SessionSafety], [SessionWindow]: session (manager.go,
      token.go) as programs of Redis commands and scripts. A step of [sstep] is
      one command of one request, served, refused, or served with the reply
      lost. [Base64] is encoding/base64.
    - [Redis]: the class [Redis] of the commands the packages send and
      [RedisLaws] of their documented meaning, which an in-memory Redis
      satisfies.
    - [Idempotency], [IdempotencyProps]: jobs/idempotency (key.go, store.go,
      middleware.go). The claim script is a program on [Redis], each SQL
      statement an operation on the table, [RedisStore], [PostgresStore] and
      [TieredStore] are instances of the record [Store], and [Wrap] is proved
      against any store that keeps its contract ([Durable]). [istep] lets any
      number of requests, the prune job and losses in Redis interleave. [Hex]
      is encoding/hex.
    - [AuditLog], [AuditProps]: audit (event.go, store.go, memory.go, chain.go,
      emitter.go, middleware.go, verify.go). [AuditStore] is the class of a
      store and [AuditLaws] what it promises, which [MemoryStore] discharges;
      the theorems on the chain are proved against the laws. [Emitter_Emit] is
      the method Emit, one step because it runs under a lock. [GoTime] is the
      calendar and the RFC 3339 text of an instant.
    - [Menus], [MenusProps]: menus (model.go, memory.go, regex.go) and the
      handlers of apps/api/internal/admin/menus/handler.go as programs of
      store calls. [Json] is [json.Valid] and the string form
      of encoding/json.
    - [Revisions], [RevisionsProps]: revisions (revision.go, store.go,
      delta.go, memory.go, pruner.go and the classifier of postgres.go).
    - [Counting]: occurrences and sums over finite maps, for the conservation
      arguments of [Pool] and [OutboxProps].
    - [Outbox], [OutboxProps]: jobs/outbox. The poller is a program of atomic
      commands [ocmd]; [exec] carries one out, and a run interleaves any number
      of pollers and writers with refused commands and lost replies.
    - [Webhook], [WebhookProps]: webhooks/delivery (signer, scheduler, deliverer,
      worker). [Deliver] is a program whose commands are the claim, the secret,
      the request and the dead-letter store.
    - [Cron], [CronProps]: jobs/cron. [cstep] is one action of one replica: an
      Acquire, a renewal, a tick, a Release.
    - [Html]: the escapers of html/template and strconv. [Blocks], [CoreBlocks],
      [BlocksProps]: blocks/render. [walkBlock] is the method of that name with
      dispatchPluginBlock inside; [CacheBackend] is the interface of cache.go,
      [CachedWalker_Walk] the method Walk of CachedWalker.
    - [Fragment], [FragmentProps]: cache/fragment and cache/invalidator. Set is
      split at its two Redis commands ([Set_versions], [Set_store]); a history is
      a list of such commands and invalidations. [fragment_cache] makes it a
      [CacheBackend] for the walker.
    - [Reusable], [ReusableProps]: blocks/reusable (model.go, memory.go,
      resolve.go); [resolves] is the specification of the resolver.
    - [Pat], [PatProps]: auth/pat (token.go, store.go, middleware.go) and the
      handlers of apps/api/internal/admin/tokens. [Totp]: auth/totp (the
      secrets, codes and recovery codes).
    - [Login], [LoginProps]: the password login of
      apps/api/internal/auth/login, a program of commands on the user table, the
      limiter, argon2 (for a password and for each recovery code), the second
      factor and the session manager.
    - [OneTime], [OneTimeProps]: apps/api/internal/auth/passwordreset and
      magiclink; requests and redemptions are calls side by side on one token
      table.
    - [Csrf], [CsrfProps]: middleware/csrf.
    - [Collections], [CollectionsProps]: media/collections and the handlers of
      apps/api/internal/admin/media/collections.go; an abstract forest of folders
      is what they refine.
    - [Posts], [PostsPages], [PostsProps]: apps/api/internal/rest (posts, router),
      the restore of a revision (apps/api/internal/admin/posts and the updater
      wired in cmd/server/main.go) and jobs/scheduler. The handlers are programs over the record [Store]; the
      Postgres store sends the statements of the table, each one command, with
      the indexes, foreign keys and triggers of migration 000004; the publisher
      and the sweep change the table between any two commands.
    - [Shutdown]: shutdown. [SafeHttp]: safehttp. [Templates]: theme/templates.
    - [Shortcode], [ShortcodeProps]: migrate/shortcode. A position of the source
      is the suffix from there, a consumed length the rest that is returned.

    Definitions keep the Go names; where two packages share one, the later
    carries a suffix ([UpdateRule], [ResetPlugin], [AllowedCap]). A Go map is
    a [gmap]; where the code iterates over a map, the theorems hold for every
    order. Errors are values; a panic is an error value or an outcome.

    ** What the theorems show

    - C1, C2: a version range means what the manifest documents; the dependency
      gate admits exactly the manifests whose dependencies hold (and a refusal
      names the offenders of the most severe kind).
    - C3, C24: an honest audit chain verifies; a verified window holds no forged
      content ([AuditProps.clientIP_unforgeable]: nor a forged client address).
    - C4: the activation sort always returns; an order lists the batch once with
      dependencies first ([Topo.TopologicalSort_cycle]: it fails exactly on a
      cycle, which it names).
    - C5: the folder store, parent ids and dotted paths, refines a forest in which
      no folder lies below itself ([CollectionsProps] has the answer of every
      handler).
    - C6, C17, C29: of the requests that name one version of a post at most one
      succeeds; a client that follows the cursors of a list it may see gets every
      match once; what the requests, restores, publisher and sweep change in the
      table of posts, and the capability each handler has asked for it, which is less
      than the permission documents ask ([PostsProps.slugs_stay_unique]: slugs stay
      unique; [get_redacts]: what a reader is shown).
    - C7, C33: within one TTL the handler behind the idempotency middleware runs
      at most once per key, whatever Redis does, and every answer of the key that
      is not a rejection is the answer of that run.
    - C8, C10: no committed outbox row is lost, and the table can always be
      drained.
    - C9: passwords change and magic sessions open only by a token that was
      mailed, unexpired and never redeemed before, under every interleaving.
    - C11, C12: a webhook delivery ends as the answer to its one request calls for,
      within the schedule; the subscriber can verify each request, exactly inside the
      skew window, and read in it what was delivered
      ([WebhookProps.deliver_at_most_once]: one request per claim, so the retry of a
      failed attempt is never sent).
    - C13, C30: the address filter refuses exactly the listed prefixes; every
      connection of the safe client, redirects included, goes to a vetted address.
    - C14, C15: at most one replica is leader within its lease; a due time is
      fired once per term of office.
    - C16: the caching walker answers as the plain walker would
      ([BlocksProps.canonicalEncode_injective]: the encoding its keys hash determines
      the block).
    - C18, C32: the refusals of a password login are alike, in the answer and in the
      argon2 runs on a password, known user or not; a session needs the password
      and, if enrolled, the second factor, as long as the lookup of the enrolment does
      not fail ([outage_skips_second_factor]).
    - C19: a hit of the fragment cache is not older than the last invalidation of
      its tags.
    - C20: within the depth limit a page with reusable blocks resolves to the
      unique result of the specification, with no reference left.
    - C21: a printed shortcode scans back.
    - C22: the handler order refines the specification of a run order ([HookBus]
      has the theorems on registration, unsubscription, dispatch and batches,
      [HookOrder] that a refusal is exactly a cycle).
    - C23: a request served for a personal access token has only capabilities the
      token was given and its owner holds ([PatProps.issued_token_authenticates]: an
      issued token authenticates until it is revoked or expires).
    - C25, C26: lifecycle transitions under every interleaving and failure; runtime
      and table in step without overlap, with the calls that can break it named
      ([LifecycleSeq] and [Lifecycle] have exclusive uninstall, the outcome of
      activation, update and rollback, [Breaker] and [Versions] the threshold and the
      single active version).
    - C27: every stored revision materializes to what was saved, through any
      history of saves and sweeps.
    - C28: the ordered dispatcher loses and doubles no job in its count
      ([HookOrdered]: first-in first-out per key while no worker is retired).
    - C31: a request that may write reaches its handler only with a fresh token of
      this server that is in its cookie and its header or form, or by an exempt
      path.
    - C34: closers that mind their context keep the drain within its budget, and get
      a context that lasts ([closers_run_once]: each runs once, last registered
      first).
    - C35: exact account lockout.
    - C36, C37: the instance pool keeps its bounds, up to the modules the reaper still
      has to close, and its leases exclusive, and loses no wake-up as long as [Start]
      runs alone and modules load.
    - C38, C39: a deleted session stays dead under every interleaving and lost
      reply; a session used serially follows its sliding window and absolute
      expiry.
    - C40: a reorder request of the menu editor is all or nothing ([MenusProps]:
      the store stays well typed, and the renderer gets the items parents first).
    - Beside them: policy enforcement and capability checks with their audit
      trail, redirects answered by the rule with precedence, hits conserved and
      chains ended, the template a theme picks ([ResolveWithChild_first]), recovery codes that
      work once ([Totp.recovery_code_single_use]).

    A property with hypotheses has a witness, a closed instance evaluated on
    concrete data; the examples beside them are runs that show the limits of
    a property (concurrent activations, a rollback to an unloaded version, an
    uninstall that cannot delete, a restore by a contributor, the reaper, overflowing
    hop counts, a failing [Start] of the pool, a session index that expires first, a Redis
    flush between two retries of one key, a retention sweep of a chained log, a
    context consumer under a cached block, an invalidation between rendering and
    storing, a chain of references past the depth limit).

    ** Bounds and fuel

    Machine integers wrap at 64 bits where a value can reach the bound (hop
    counts, hit counters, failure counters, version components); the theorems
    that count events assume fewer than 2^63 of them. Kahn's loop in [Topo]
    runs on fuel of one unit more than the slugs, and [kahn_total] there
    shows that this always suffices; every other recursion is structural.
    [follow] in [Redirects] takes a number of requests and
    [redirect_chain_ends] shows that six are always enough. [materialize] has
    the code's own depth limit as fuel; the sweep of [Revisions] has as much as
    the store has revisions, and a chain longer than that is a cycle, on which
    the code does not end either. [resolveAt] has the code's depth limit as fuel;
    the loops of [Shortcode] have the length of the text, of which every round
    consumes a byte ([scan_segs]).

    ** Parameters

    golang.org/x/mod/semver (validity and comparison, with the order laws of
    semantic versions on valid strings), regexp (compile, find, expand),
    archive/zip, encoding/json and manifest validation, the plugin runtime,
    the migrator, rate-limit buckets, Redis, SHA-256 and HMAC, argon2, the RFC 6238
    comparison, the number parser of Lua, net/netip's parser, the resolver and the
    servers a client talks to, the multipart parser, mail templates and the links
    in them, the text of a metadata value, the JSON form of a session, jsondiff and
    json-patch, random bytes, new UUIDs and the clocks are arguments, as is the
    order in which Go visits a map; so are url.Parse and the time layouts of a
    Retry-After header, the cron parser, the text and the int of a float64
    ([Float64] with [Float64Laws]), decoding JSON into structs and UUID parsing ([Decoding]), the
    text Postgres keeps of a JSON document, the SVG sanitiser and the dispatcher of plugin blocks.

    ** Not modelled

    The importer and the erasure of accounts, which also write the table of posts;
    Postgres stores (SQL; the statements of the idempotency store, of the posts
    store and the ones that redeem one-time tokens are modelled, with timestamps
    at the clock's precision, not at the microsecond of a TIMESTAMPTZ),
    background goroutines that only poll, logging, metrics other than the bus
    counters, non-ASCII letters in shortcode names, the jitter of the cron
    scheduler's sleep, signal handling, and every package not named above. What
    a further extension would take first: token buckets, the audit log in
    Postgres, the plugin SQL linter and manifest validation, settings, the
    remaining authentication methods (OAuth, WebAuthn), and the hit and failure
    counters at the grain of single atomic operations. *)
From stdpp Require Export base tactics gmap strings list sorting fin_maps.
From Stdlib Require Export ZArith Lia.


Declare Scope gonext_scope.
Delimit Scope gonext_scope with gonext.
Open Scope gonext_scope.

(** ** Go results

    A Go function returning [(T, error)] is modelled by [result E T]: the
    zero value that accompanies a non-nil error is dropped, except where the
    source documents it (then the model returns a pair). *)
Inductive result (E A : Type) : Type :=
| Ok (a : A)
| Err (e : E).
Arguments Ok {E A} a.
Arguments Err {E A} e.

#[export] Instance result_eq_dec `{EqDecision E, EqDecision A} :
  EqDecision (result E A).
Proof. solve_decision. Defined.

Definition is_ok {E A} (r : result E A) : bool :=
  match r with Ok _ => true | Err _ => false end.

Notation "'let?' x ':=' e 'in' k" :=
  (match e with Ok x => k | Err err => Err err end)
    (at level 10, x pattern, e at level 100, k at level 200) : gonext_scope.

(** ** Time

    [time.Time] is an integer number of nanoseconds; Go's zero time
    (January 1 of year 1, UTC) is its own, very negative, instant, so that
    [IsZero] and [After] mean what they mean in Go. Durations are integers
    of nanoseconds. *)
Abbreviation Time := Z (only parsing).
Abbreviation Duration := Z (only parsing).

Definition second : Duration := 1000000000%Z.
Definition minute : Duration := (60 * second)%Z.
Definition hour : Duration := (60 * minute)%Z.
Definition time_zero : Time := (-62135596800 * second)%Z.

Definition is_zero (t : Time) : bool := (t =? time_zero)%Z.
Definition time_after (t u : Time) : bool := (u <? t)%Z.
Definition time_before (t u : Time) : bool := (t <? u)%Z.

(** ** Machine integers: two's complement wrap-around at 64 bits. *)
Definition int64_min : Z := (- 2 ^ 63)%Z.
Definition int64_max : Z := (2 ^ 63 - 1)%Z.
Definition wrap64 (z : Z) : Z := ((z + 2 ^ 63) mod 2 ^ 64 - 2 ^ 63)%Z.
Definition in_int64 (z : Z) : Prop := (int64_min ≤ z ≤ int64_max)%Z.

Lemma wrap64_range z : in_int64 (wrap64 z).
Proof.
  unfold in_int64, int64_min, int64_max, wrap64.
  pose proof (Z.mod_pos_bound (z + 2 ^ 63) (2 ^ 64)). lia.
Qed.

Lemma wrap64_id z : in_int64 z → wrap64 z = z.
Proof.
  unfold in_int64, int64_min, int64_max, wrap64. intros H.
  rewrite Z.mod_small; lia.
Qed.

(** ** Sorting

    [sort.Strings] sorts by byte order; [sort.SliceStable] keeps the input
    order of elements that compare equal. [sort_by lt] is the stable sort
    for a strict comparison [lt]. *)
Definition sort_strings (l : list string) : list string := merge_sort String.le l.

Section sort_by.
Context {A : Type} (lt : A → A → bool).

Fixpoint insert_by (x : A) (l : list A) : list A :=
  match l with
  | [] => [x]
  | y :: l' => if lt y x then y :: insert_by x l' else x :: y :: l'
  end.

Definition sort_by (l : list A) : list A := foldr insert_by [] l.

Lemma insert_by_Permutation x l : insert_by x l ≡ₚ x :: l.
Proof.
  induction l as [|y l IH]; simpl; [done|].
  destruct (lt y x); [|done]. rewrite IH. apply Permutation_swap.
Qed.

Lemma sort_by_Permutation l : sort_by l ≡ₚ l.
Proof.
  induction l as [|x l IH]; simpl; [done|].
  by rewrite insert_by_Permutation, IH.
Qed.

(** [not_after x y]: [x] may precede [y] in the sorted result. *)
Definition not_after (x y : A) : Prop := lt y x = false.

Context (lt_asym : ∀ x y, lt x y = true → lt y x = false).
Context (lt_cotrans : ∀ x y z, lt x z = true → lt x y = true ∨ lt y z = true).

Lemma insert_by_sorted x l :
  StronglySorted not_after l → StronglySorted not_after (insert_by x l).
Proof using lt_asym lt_cotrans.
  induction 1 as [|y l Hl IH Hy]; simpl; [by repeat constructor|].
  destruct (lt y x) eqn:E.
  - constructor; [done|]. rewrite insert_by_Permutation.
    constructor; [by apply lt_asym|done].
  - constructor; [by constructor|]. constructor; [done|].
    eapply Forall_impl; [exact Hy|]. intros z Hz. unfold not_after in *.
    destruct (lt z x) eqn:F; [|done].
    destruct (lt_cotrans z y x F); congruence.
Qed.

Lemma sort_by_sorted l : StronglySorted not_after (sort_by l).
Proof using lt_asym lt_cotrans.
  induction l; simpl; [constructor|]. by apply insert_by_sorted.
Qed.

(** A sort of an already sorted list changes nothing (stability at work). *)
Lemma sort_by_sorted_id l : StronglySorted not_after l → sort_by l = l.
Proof.
  induction 1 as [|x l Hl IH Hx]; simpl; [done|]. rewrite IH.
  destruct l as [|y l]; [done|]. simpl.
  inversion Hx as [|?? Hxy]; subst. unfold not_after in Hxy. by rewrite Hxy.
Qed.
End sort_by.

(** ** Lists *)
Lemma filter_length_le {A} (P : A → Prop) `{∀ x, Decision (P x)} (l : list A) :
  length (filter P l) ≤ length l.
Proof. apply length_filter. Qed.

Lemma filter_agree {A} (P Q : A → Prop)
    `{∀ x, Decision (P x), ∀ x, Decision (Q x)} (l : list A) :
  (∀ y, y ∈ l → P y ↔ Q y) → filter P l = filter Q l.
Proof.
  induction l as [|y l IH]; intros HPQ; [done|]. rewrite !filter_cons.
  rewrite IH by set_solver. destruct (decide (P y)) as [Hp|Hp].
  - by rewrite decide_True by (apply HPQ; set_solver).
  - by rewrite decide_False by (rewrite <-HPQ; set_solver).
Qed.

Lemma filter_none {A} (P : A → Prop) `{∀ x, Decision (P x)} (l : list A) :
  (∀ y, y ∈ l → ¬ P y) → filter P l = [].
Proof.
  intros HP. destruct (filter P l) as [|y k] eqn:E; [done|].
  assert (y ∈ filter P l) as Hy by (rewrite E; set_solver).
  apply list_elem_of_filter in Hy as [? ?]. by destruct (HP y).
Qed.

Lemma filter_all {A} (P : A → Prop) `{∀ x, Decision (P x)} (l : list A) :
  (∀ y, y ∈ l → P y) → filter P l = l.
Proof.
  induction l as [|y l IH]; intros HP; [done|]. rewrite filter_cons.
  rewrite decide_True by (apply HP; set_solver). f_equal. apply IH. set_solver.
Qed.

(** Two predicates that agree everywhere but at one element, where only the
    second holds, differ by one in what they count. *)
Lemma length_filter_plus_one {A} (P Q : A → Prop)
    `{∀ x, Decision (P x), ∀ x, Decision (Q x)} (l : list A) (x : A) :
  NoDup l → x ∈ l → ¬ P x → Q x → (∀ y, y ∈ l → y ≠ x → P y ↔ Q y) →
  length (filter Q l) = S (length (filter P l)).
Proof.
  intros Hnd Hx HP HQ Hagree. induction Hnd as [|y l Hy Hnd IH]; [set_solver|].
  rewrite !filter_cons. apply elem_of_cons in Hx as [<-|Hx].
  - rewrite decide_True, decide_False by done. simpl. do 2 f_equal.
    apply filter_agree. intros z Hz. symmetry. apply Hagree; set_solver.
  - assert (y ≠ x) by (intros ->; done).
    destruct (decide (P y)) as [Hp|Hp].
    + rewrite decide_True by (apply Hagree; set_solver). simpl.
      f_equal. apply IH; set_solver.
    + rewrite decide_False by (rewrite <-Hagree; set_solver).
      apply IH; set_solver.
Qed.

Lemma omap_agree {A B} (f g : A → option B) (l : list A) :
  (∀ x, x ∈ l → f x = g x) → omap f l = omap g l.
Proof.
  induction l as [|y l IH]; intros Hfg; [done|]. cbn [omap list_omap].
  rewrite (Hfg y) by set_solver. rewrite IH by set_solver. done.
Qed.

Lemma filter_fmap {A B} (f : A → B) (P : B → Prop) `{∀ x, Decision (P x)}
    (l : list A) :
  filter P (f <$> l) = f <$> filter (P ∘ f) l.
Proof.
  induction l as [|x l IH]; [done|]. cbn [fmap list_fmap]. rewrite !filter_cons.
  simpl. rewrite IH. by destruct (decide (P (f x))).
Qed.

Lemma omap_fmap {A B C} (f : A → B) (g : B → option C) (l : list A) :
  omap g (f <$> l) = omap (g ∘ f) l.
Proof.
  induction l as [|x l IH]; [done|]. cbn [fmap list_fmap omap list_omap].
  unfold compose at 1. by rewrite <-IH.
Qed.

(** A linear scan from 0 for the first index with [P]. *)
Lemma head_filter_seq_Some (P : nat → Prop) `{∀ x, Decision (P x)} s n i :
  head (filter P (seq s n)) = Some i →
  s ≤ i < s + n ∧ P i ∧ ∀ k, s ≤ k → k < i → ¬ P k.
Proof.
  revert s. induction n as [|n IH]; intros s; [done|]. cbn [seq].
  rewrite filter_cons. destruct (decide (P s)) as [Hp|Hp]; simpl.
  - intros [= <-]. repeat split; [lia..|done|]. intros; lia.
  - intros (? & ? & Hk)%IH. repeat split; [lia..|done|].
    intros k ? ?. destruct (decide (k = s)) as [->|]; [done|]. apply Hk; lia.
Qed.

Lemma head_filter_seq_None (P : nat → Prop) `{∀ x, Decision (P x)} s n :
  head (filter P (seq s n)) = None → ∀ k, s ≤ k < s + n → ¬ P k.
Proof.
  intros Hn k Hk Hp. assert (k ∈ filter P (seq s n)) as Hin.
  { apply list_elem_of_filter. split; [done|]. by apply elem_of_seq. }
  destruct (filter P (seq s n)); [by apply not_elem_of_nil in Hin|done].
Qed.

Lemma sort_strings_Permutation l : sort_strings l ≡ₚ l.
Proof. apply merge_sort_Permutation. Qed.

Lemma sort_strings_sorted l : Sorted String.le (sort_strings l).
Proof. apply Sorted_merge_sort; apply _. Qed.

(** The result of [sort.Strings] depends on the elements only, not on the
    order a map iteration produced them in. *)
Lemma sort_strings_perm_eq l k : l ≡ₚ k → sort_strings l = sort_strings k.
Proof.
  intros H. apply (Sorted_unique String.le).
  - apply sort_strings_sorted.
  - apply sort_strings_sorted.
  - by rewrite !sort_strings_Permutation.
Qed.

Lemma elem_of_sort_strings x l : x ∈ sort_strings l ↔ x ∈ l.
Proof. by rewrite sort_strings_Permutation. Qed.

Lemma length_sort_strings l : length (sort_strings l) = length l.
Proof. by rewrite sort_strings_Permutation. Qed.

(** ** Automation *)
Create HintDb gonext.
#[export] Hint Resolve wrap64_range sort_strings_sorted sort_strings_Permutation
  sort_by_Permutation : gonext.

(** Case analysis on every [match] of the goal or of a hypothesis, closing
    the contradictory branches. *)
Ltac split_matches :=
  repeat (case_match; simplify_eq/=; try done).
Ltac crush := simplify_eq/=; split_matches; naive_solver.
