(* ===== verification/Prog.v ===== *)
(** * Calls as programs of atomic commands

    A call that talks to shared services is a tree: at each node the command it
    sends next, below it the rest of the call for every answer. What a command
    does is given where the programs are run, so calls can be interleaved at
    the grain of single commands. *)
From S2P Require Import Prelude.

Inductive prog (C : Type → Type) (A : Type) : Type :=
| Ret (a : A)
| Call {R : Type} (c : C R) (k : R → prog C A).
Arguments Ret {C A} a.
Arguments Call {C A R} c k.

Fixpoint bind {C : Type → Type} {A B} (p : prog C A) (f : A → prog C B) : prog C B :=
  match p with
  | Ret a => f a
  | Call c k => Call c (λ r, bind (k r) f)
  end.

Notation "x <- c ;; k" := (Call c (λ x, k))
  (at level 100, c at next level, right associativity) : gonext_scope.
Notation "c ;;; k" := (Call c (λ _, k))
  (at level 100, right associativity) : gonext_scope.
Notation "'run!' x := p 'in' q" := (bind p (λ x, q))
  (at level 100, x pattern, p at next level, right associativity) : gonext_scope.

(** A program run on its own, one answer after the other from a state. *)
Section exec.
Context {C : Type → Type} {S : Type} (exec : ∀ R, nat → S → C R → S * R).

Fixpoint run_alone {A} (n : nat) (s : S) (p : prog C A) : S * A :=
  match p with
  | Ret a => (s, a)
  | Call c k => let r := exec _ n s c in run_alone (Datatypes.S n) r.1 (k r.2)
  end.

Lemma run_alone_call {A R} n s (c : C R) (k : R → prog C A) :
  run_alone n s (Call c k) = let r := exec R n s c in run_alone (Datatypes.S n) r.1 (k r.2).
Proof. done. Qed.
End exec.

(** ** What holds along every run

    The commands of a run with their answers, oldest first, and the condition
    that [pre] holds of every command when it is sent and [post] of the result,
    whatever the answers were. *)
Inductive event (C : Type → Type) : Type :=
| Ev {R : Type} (c : C R) (r : R).
Arguments Ev {C R} c r.

Section along.
Context {C : Type → Type} (pre : list (event C) → ∀ R, C R → Prop).

Fixpoint along {A} (post : list (event C) → A → Prop) (l : list (event C)) (p : prog C A) : Prop :=
  match p with
  | Ret a => post l a
  | Call c k => pre l _ c ∧ ∀ r, along post (l ++ [Ev c r]) (k r)
  end.

Lemma along_mono {A} (post post' : list (event C) → A → Prop) l p :
  (∀ l a, post l a → post' l a) → along post l p → along post' l p.
Proof.
  intros Hpost. revert l. induction p as [a|R c k IH]; intros l; cbn [along]; [apply Hpost|].
  intros [Hc Hk]. split; [done|]. intros r. apply IH, Hk.
Qed.

Lemma along_bind {A B} (post : list (event C) → B → Prop) l (p : prog C A) (f : A → prog C B) :
  along (λ l a, along post l (f a)) l p → along post l (bind p f).
Proof.
  revert l. induction p as [a|R c k IH]; intros l; cbn [along bind]; [done|].
  intros [Hc Hk]. split; [done|]. intros r. apply IH, Hk.
Qed.
End along.

(** A run of [p] to its result, with its commands. *)
Inductive runs {C A} : prog C A → list (event C) → A → Prop :=
| runs_ret a : runs (Ret a) [] a
| runs_call {R} (c : C R) k r l a : runs (k r) l a → runs (Call c k) (Ev c r :: l) a.

Lemma along_runs {C A} pre (post : list (event C) → A → Prop) l p l' a :
  along pre post l p → runs p l' a → post (l ++ l') a.
Proof.
  intros Hp Hr. revert l Hp. induction Hr as [a|R c k r l' a _ IH]; intros l; cbn [along].
  - by rewrite app_nil_r.
  - intros [_ Hk]. specialize (IH _ (Hk r)). by rewrite <-app_assoc in IH.
Qed.

(** The commands a program sends when it runs on its own, with its result. *)
Section trace.
Context {C : Type → Type} {S : Type} (exec : ∀ R, nat → S → C R → S * R).

Fixpoint trace_alone {A} (n : nat) (s : S) (p : prog C A) : list (event C) * A :=
  match p with
  | Ret a => ([], a)
  | Call c k =>
      let r := exec _ n s c in
      let t := trace_alone (Datatypes.S n) r.1 (k r.2) in (Ev c r.2 :: t.1, t.2)
  end.

Lemma trace_runs {A} n s (p : prog C A) : runs p (trace_alone n s p).1 (trace_alone n s p).2.
Proof. revert n s. induction p as [a|R c k IH]; intros n s; cbn; constructor. apply IH. Qed.
End trace.
