(* ===== verification/Calls.v ===== *)
(** * Calls side by side

    Any number of calls, each a program of atomic commands ([Prog]), interleaved
    command by command on one shared world that also changes by itself. What holds
    of every command a call sends, where facts of the world come from, and what can
    happen only once, is proved here for all of them. *)
From S2P Require Import Prelude Prog.

Section calls.
Context {C : Type → Type} {E W Q A : Type}.
Context (exec : ∀ R, E → W → C R → W * R) (body : Q → prog C A) (drift : W → W → Prop).

(** A call that arrived: what it was given, the commands it has sent with their
    answers, and what is left of it. *)
Record attempt := mkAttempt { a_in : Q; a_log : list (event C); a_rest : prog C A }.
Record config := mkConfig { the_world : W; attempts : gmap nat attempt }.

Inductive sstep : config → config → Prop :=
| Arrive id q s :
    attempts s !! id = None →
    sstep s (mkConfig (the_world s) (<[id := mkAttempt q [] (body q)]> (attempts s)))
| Advance {R} id q l (c : C R) k e s :
    attempts s !! id = Some (mkAttempt q l (Call c k)) →
    sstep s (let r := exec R e (the_world s) c in
             mkConfig r.1 (<[id := mkAttempt q (l ++ [Ev c r.2]) (k r.2)]> (attempts s)))
| Drift w s : drift (the_world s) w → sstep s (mkConfig w (attempts s)).

Inductive reachable (w0 : W) : config → Prop :=
| reach_start : reachable w0 (mkConfig w0 ∅)
| reach_step s s' : reachable w0 s → sstep s s' → reachable w0 s'.

(** [ev] is in the log of some call. *)
Definition happened (s : config) (id : nat) (a : attempt) (ev : event C) : Prop :=
  attempts s !! id = Some a ∧ ev ∈ a_log a.

(** A call keeps its input and its log only grows. *)
Lemma sstep_grows s s' id a :
  sstep s s' → attempts s !! id = Some a →
  ∃ a', attempts s' !! id = Some a' ∧ a_in a' = a_in a ∧ a_log a `prefix_of` a_log a'.
Proof.
  intros Hstep Ha. destruct Hstep as [id' q s Hid|R id' q l c k e s Hid|w s Hd]; cbn.
  - rewrite lookup_insert_ne by congruence. by exists a.
  - destruct (decide (id' = id)) as [->|Hne].
    + rewrite lookup_insert_eq. eexists. split; [done|]. rewrite Hid in Ha. injection Ha as <-. cbn.
      split; [done|by eexists].
    + rewrite lookup_insert_ne by done. by exists a.
  - by exists a.
Qed.

Lemma happened_grows s s' id a ev :
  sstep s s' → happened s id a ev → ∃ a', happened s' id a' ev.
Proof.
  intros Hstep [Ha Hev]. destruct (sstep_grows _ _ _ _ Hstep Ha) as (a' & Ha' & _ & Hl).
  exists a'. split; [done|]. by eapply elem_of_prefix.
Qed.

(** The events of a later state are the earlier ones and the one of the step. *)
Lemma sstep_log s s' id' a' :
  sstep s s' → attempts s' !! id' = Some a' →
  (∃ a, attempts s !! id' = Some a ∧ a_log a' = a_log a) ∨ a_log a' = [] ∨
  ∃ a R (c : C R) e, attempts s !! id' = Some a ∧ a_log a' = a_log a ++ [Ev c (exec R e (the_world s) c).2] ∧
    the_world s' = (exec R e (the_world s) c).1.
Proof.
  intros Hstep Ha'. destruct Hstep as [id q s Hid|R id q l c k e s Hid|w s Hd]; cbn in *.
  - apply lookup_insert_Some in Ha' as [[<- <-]|[_ Ha']]; eauto.
  - apply lookup_insert_Some in Ha' as [[<- <-]|[_ Ha']]; [|eauto].
    right; right. eexists _, R, c, e. by split_and!.
  - eauto.
Qed.

(** ** What the answer shows *)

Lemma reachable_along (needed : Q → list (event C) → ∀ R, C R → Prop) (post : Q → list (event C) → A → Prop) w0 s id a :
  (∀ q, along (needed q) (post q) [] (body q)) → reachable w0 s → attempts s !! id = Some a →
  along (needed (a_in a)) (post (a_in a)) (a_log a) (a_rest a).
Proof.
  intros Hbody Hr. revert id a. induction Hr as [|s s' _ IH Hstep]; [by intros ??; cbn; rewrite lookup_empty|].
  intros id a Ha. destruct Hstep as [id' q s Hid|R id' q l c k e s Hid|w s Hd]; cbn in *; [| |by eapply IH].
  - apply lookup_insert_Some in Ha as [[<- <-]|[_ Ha]]; [apply Hbody|by eapply IH].
  - apply lookup_insert_Some in Ha as [[<- <-]|[_ Ha]]; [|by eapply IH]. apply (IH _ _ Hid).
Qed.

(** ** Where an event stands in the history of the world *)

Lemma event_past (le : W → W → Prop) `{!PreOrder le} w0 s id a ev :
  (∀ R e w (c : C R), le w (exec R e w c).1) → (∀ w w', drift w w' → le w w') →
  reachable w0 s → happened s id a ev →
  ∃ R e w (c : C R), ev = Ev c (exec R e w c).2 ∧ le (exec R e w c).1 (the_world s).
Proof.
  intros Hexec Hdrift Hr. revert id a. induction Hr as [|s s' Hr IH Hstep]; intros id a [Ha Hev]; [by cbn in Ha; rewrite lookup_empty in Ha|].
  assert (le (the_world s) (the_world s')) as Hle by (clear -Hstep Hexec Hdrift PreOrder0; destruct Hstep; cbn; auto; reflexivity).
  destruct (sstep_log _ _ _ _ Hstep Ha) as [(a0 & Ha0 & Hl)|[Hl|(a0 & R & c & e & Ha0 & Hl & Hw)]]; rewrite Hl in Hev.
  - destruct (IH id a0) as (R & e & w & c & -> & Hpast); [by split|]. exists R, e, w, c. split; [done|]. by etrans.
  - by apply not_elem_of_nil in Hev.
  - apply elem_of_app in Hev as [Hev| ->%list_elem_of_singleton].
    + destruct (IH id a0) as (R' & e' & w & c' & -> & Hpast); [by split|]. exists R', e', w, c'. split; [done|]. by etrans.
    + exists R, e, (the_world s), c. split; [done|]. by rewrite Hw.
Qed.

(** ** Commands are sent when they may be *)

Section checked.
Context (needed : Q → list (event C) → ∀ R, C R → Prop).
Context (Hbody : ∀ q, along (needed q) (λ _ _, True) [] (body q)).
Context (sound : event C → Prop) (Hsound : ∀ R e w (c : C R), sound (Ev c (exec R e w c).2)).

Lemma reachable_safe w0 s :
  reachable w0 s → ∀ id a, attempts s !! id = Some a → along (needed (a_in a)) (λ _ _, True) (a_log a) (a_rest a).
Proof using Hbody. intros Hr id a. by apply (reachable_along needed (λ _ _ _, True) w0). Qed.

Definition of_event (P : ∀ R, C R → Prop) (ev : event C) : Prop := match ev with Ev c _ => P _ c end.

Lemma reachable_checked w0 s id a l1 l2 R (c : C R) r :
  reachable w0 s → attempts s !! id = Some a → a_log a = l1 ++ Ev c r :: l2 → needed (a_in a) l1 R c.
Proof.
  intros Hr. revert id a l1 l2. induction Hr as [|s s' Hr IH Hstep]; intros id a l1 l2; cbn; [by rewrite lookup_empty|].
  destruct Hstep as [id' q s Hid|R' id' q l c' k e s Hid|w s Hd]; cbn; [| |apply IH].
  - intros [[<- <-]|[_ Ha]]%lookup_insert_Some Hl; [by destruct l1|by eapply IH].
  - intros [[<- <-]|[_ Ha]]%lookup_insert_Some Hl; [|by eapply IH]. cbn in Hl |- *.
    destruct (reachable_safe _ _ Hr _ _ Hid) as [Hn _]. cbn in Hn.
    destruct l2 as [|ev l2 _] using rev_ind.
    + apply app_inj_tail in Hl as [-> Hev].
      change (of_event (needed q l1) (Ev c r)). rewrite <-Hev. exact Hn.
    + change (l1 ++ Ev c r :: l2 ++ [ev]) with (l1 ++ (Ev c r :: l2) ++ [ev]) in Hl. rewrite app_assoc in Hl.
      apply app_inj_tail in Hl as [-> _]. exact (IH _ _ _ _ Hid eq_refl).
Qed.

(** What was needed still holds of the whole log, if it is of the kind that lasts. *)
Lemma happened_needed w0 s id a R (c : C R) r :
  reachable w0 s → happened s id a (Ev c r) →
  ∃ l, l `prefix_of` a_log a ∧ needed (a_in a) l R c.
Proof.
  intros Hr [Ha Hev]. apply list_elem_of_split in Hev as (l1 & l2 & Hl). exists l1. split.
  - rewrite Hl. by eexists.
  - by eapply reachable_checked.
Qed.

Lemma happened_sound w0 s id a ev : reachable w0 s → happened s id a ev → sound ev.
Proof.
  intros Hr. revert id a. induction Hr as [|s s' Hr IH Hstep]; intros id a [Ha Hev]; [by cbn in Ha; rewrite lookup_empty in Ha|].
  destruct (sstep_log _ _ _ _ Hstep Ha) as [(a0 & Ha0 & Hl)|[Hl|(a0 & R & c & e & Ha0 & Hl & _)]]; rewrite Hl in Hev.
  - by apply (IH id a0).
  - by apply not_elem_of_nil in Hev.
  - apply elem_of_app in Hev as [Hev| ->%list_elem_of_singleton]; [by apply (IH id a0)|apply Hsound].
Qed.
End checked.

(** ** Facts of the world come from commands *)

Section origin.
Context {X : Type} (fact : W → X → Prop) (makes : event C → X → Prop).
Context (Hmakes : ∀ R e w (c : C R) x, fact (exec R e w c).1 x → fact w x ∨ makes (Ev c (exec R e w c).2) x).
Context (Hdrift : ∀ w w' x, drift w w' → fact w' x → fact w x).

Lemma world_origin w0 s x :
  reachable w0 s → fact (the_world s) x → fact w0 x ∨ ∃ id a ev, happened s id a ev ∧ makes ev x.
Proof.
  induction 1 as [|s s' Hr IH Hstep]; [by left|]. intros Hx.
  assert (fact (the_world s) x → fact w0 x ∨ ∃ id a ev, happened s' id a ev ∧ makes ev x) as Hold.
  { intros [H|(id & a & ev & Hh & Hm)]%IH; [by left|right].
    destruct (happened_grows _ _ _ _ _ Hstep Hh) as [a' Ha']. eauto. }
  destruct Hstep as [id q s Hid|R id q l c k e s Hid|w s Hd]; cbn in *; [auto| |eauto].
  destruct (Hmakes _ _ _ _ _ Hx) as [H|Hm]; [auto|right].
  eexists id, _, _. split; [|exact Hm]. split; [apply lookup_insert_eq|]. cbn. apply elem_of_app. right. by left.
Qed.

(** A command whose answer reports a fact found it in the world. *)
Context (reports : event C → X → Prop).
Context (Hreports : ∀ R e w (c : C R) x, reports (Ev c (exec R e w c).2) x → fact w x).

Lemma report_origin w0 s id a ev x :
  reachable w0 s → happened s id a ev → reports ev x → fact w0 x ∨ ∃ id a ev, happened s id a ev ∧ makes ev x.
Proof.
  intros Hr. revert id a. induction Hr as [|s s' Hr IH Hstep]; intros id a [Ha Hev] Hx; [by cbn in Ha; rewrite lookup_empty in Ha|].
  assert (fact w0 x ∨ (∃ id a ev, happened s id a ev ∧ makes ev x) →
    fact w0 x ∨ ∃ id a ev, happened s' id a ev ∧ makes ev x) as Hup.
  { intros [H|(id' & a' & ev' & Hh & Hm)]; [by left|right].
    destruct (happened_grows _ _ _ _ _ Hstep Hh) as [a'' Ha'']. eauto. }
  destruct (sstep_log _ _ _ _ Hstep Ha) as [(a0 & Ha0 & Hl)|[Hl|(a0 & R & c & e & Ha0 & Hl & _)]]; rewrite Hl in Hev.
  - apply Hup, (IH id a0); [by split|done].
  - by apply not_elem_of_nil in Hev.
  - apply elem_of_app in Hev as [Hev| ->%list_elem_of_singleton]; [apply Hup, (IH id a0); [by split|done]|].
    apply Hup, world_origin; [done|]. by eapply Hreports.
Qed.
End origin.

(** ** What can be taken once *)

Section once.
Context {X : Type} (spent : W → X → Prop) (takes : event C → X → Prop).
Context (Htakes : ∀ R e w (c : C R) x, takes (Ev c (exec R e w c).2) x → ¬ spent w x ∧ spent (exec R e w c).1 x).
Context (Hstays : ∀ R e w (c : C R) x, spent w x → spent (exec R e w c).1 x).
Context (Hdrift : ∀ w w' x, drift w w' → spent w x → spent w' x).

Lemma taken_spent w0 s id a ev x : reachable w0 s → happened s id a ev → takes ev x → spent (the_world s) x.
Proof.
  intros Hr. revert id a. induction Hr as [|s s' Hr IH Hstep]; intros id a [Ha Hev] Hx; [by cbn in Ha; rewrite lookup_empty in Ha|].
  assert (spent (the_world s) x → spent (the_world s') x) as Hup.
  { clear Ha Hev. destruct Hstep; cbn; eauto. }
  destruct (sstep_log _ _ _ _ Hstep Ha) as [(a0 & Ha0 & Hl)|[Hl|(a0 & R & c & e & Ha0 & Hl & Hw)]]; rewrite Hl in Hev.
  - apply Hup, (IH id a0); [by split|done].
  - by apply not_elem_of_nil in Hev.
  - apply elem_of_app in Hev as [Hev| ->%list_elem_of_singleton]; [apply Hup, (IH id a0); [by split|done]|].
    rewrite Hw. by apply Htakes.
Qed.

Theorem taken_once w0 s id1 a1 i ev1 id2 a2 j ev2 x :
  reachable w0 s →
  attempts s !! id1 = Some a1 → a_log a1 !! i = Some ev1 → takes ev1 x →
  attempts s !! id2 = Some a2 → a_log a2 !! j = Some ev2 → takes ev2 x → id1 = id2 ∧ i = j.
Proof.
  intros Hr. revert id1 a1 i ev1 id2 a2 j ev2.
  induction Hr as [|s s' Hr IH Hstep]; intros id1 a1 i ev1 id2 a2 j ev2 H1 Hi Ht1 H2 Hj Ht2; [by cbn in H1; rewrite lookup_empty in H1|].
  destruct Hstep as [id q s Hid|R id q l c k e s Hid|w s Hd]; cbn in *; [| |eauto].
  - apply lookup_insert_Some in H1 as [[<- <-]|[_ H1]]; [done|].
    apply lookup_insert_Some in H2 as [[<- <-]|[_ H2]]; [done|]. eauto.
  - (* an entry of the new state is an old one, or the new event at the end of [id] *)
    assert (∀ id0 a0 n ev0, <[id := mkAttempt q (l ++ [Ev c (exec R e (the_world s) c).2]) (k (exec R e (the_world s) c).2)]>
        (attempts s) !! id0 = Some a0 → a_log a0 !! n = Some ev0 →
      (∃ a0', attempts s !! id0 = Some a0' ∧ a_log a0' !! n = Some ev0) ∨
      (id0 = id ∧ n = length l ∧ ev0 = Ev c (exec R e (the_world s) c).2)) as Hcase.
    { intros id0 a0 n ev0 [[<- <-]|[_ Ha]]%lookup_insert_Some Hn; [|by left; exists a0]. cbn in Hn.
      apply lookup_app_Some in Hn as [Hn|[Hge Hn]]; [left; by eexists|right].
      apply list_lookup_singleton_Some in Hn as [Hn <-]. split_and!; [done|lia|done]. }
    assert (∀ id0 a0 n ev0, attempts s !! id0 = Some a0 → a_log a0 !! n = Some ev0 → takes ev0 x → spent (the_world s) x) as Hsp.
    { intros id0 a0 n ev0 Ha Hn. eapply taken_spent; [exact Hr|]. split; [exact Ha|]. by eapply list_elem_of_lookup_2. }
    destruct (Hcase _ _ _ _ H1 Hi) as [(b1 & Hb1 & Hi')|(-> & -> & ->)];
      destruct (Hcase _ _ _ _ H2 Hj) as [(b2 & Hb2 & Hj')|(-> & -> & ->)]; [by eapply IH| | |done].
    + exfalso. apply Htakes in Ht2 as [Hn _]. by apply Hn, (Hsp _ _ _ _ Hb1 Hi').
    + exfalso. apply Htakes in Ht1 as [Hn _]. by apply Hn, (Hsp _ _ _ _ Hb2 Hj').
Qed.
End once.

(** ** Schedules *)

Inductive move := MArrive (id : nat) (q : Q) | MAdvance (id : nat) (e : E).

Definition play1 (s : config) (m : move) : config :=
  match m with
  | MArrive id q =>
      match attempts s !! id with
      | None => mkConfig (the_world s) (<[id := mkAttempt q [] (body q)]> (attempts s))
      | Some _ => s
      end
  | MAdvance id e =>
      match attempts s !! id with
      | Some (mkAttempt q l (Call c k)) =>
          let r := exec _ e (the_world s) c in
          mkConfig r.1 (<[id := mkAttempt q (l ++ [Ev c r.2]) (k r.2)]> (attempts s))
      | _ => s
      end
  end.
Definition play (ms : list move) (w : W) : config := foldl play1 (mkConfig w ∅) ms.

Lemma play_reachable ms w : reachable w (play ms w).
Proof.
  unfold play. assert (∀ s, reachable w s → reachable w (foldl play1 s ms)) as Hgo; [|apply Hgo; constructor].
  induction ms as [|m ms IH]; intros s Hs; [done|]. cbn [foldl]. apply IH. destruct m as [id i|id e]; cbn [play1].
  - destruct (attempts s !! id) eqn:Hid; [done|]. eapply reach_step; [done|]. by constructor.
  - destruct (attempts s !! id) as [[i l [a|R c k]]|] eqn:Hid; [done| |done].
    eapply reach_step; [done|]. exact (Advance id i l c k e s Hid).
Qed.

(** The result of a call that has ended. *)
Definition result_at (s : config) (id : nat) : option A :=
  match attempts s !! id with Some (mkAttempt _ _ (Ret a)) => Some a | _ => None end.
End calls.
