(* ===== verification/Graph.v ===== *)
(** * Topological prefixes

    The abstract algorithm behind the two topological sorts of the platform
    (plugin activation order in packages/go/plugins/depends/topo.go, hook
    handler order in packages/go/hooks/order.go): grow a list of nodes, each
    added once all the nodes it depends on are in the list. The facts here
    are what both implementations share: what a completed list guarantees,
    and that a stuck one exhibits a cycle. *)
From S2P Require Import Prelude.

Section prefix.
Context {A : Type}.
(** [dep x d]: [x] needs [d] to come first. *)
Context (dep : relation A).

Inductive topo_prefix : list A → Prop :=
| topo_nil : topo_prefix []
| topo_snoc l x :
    topo_prefix l → x ∉ l → (∀ d, dep x d → d ∈ l) → topo_prefix (l ++ [x]).

Lemma topo_prefix_NoDup l : topo_prefix l → NoDup l.
Proof.
  induction 1 as [|l x Hl IH Hx Hd]; [constructor|].
  apply NoDup_app. split; [done|]. split; [|apply NoDup_singleton].
  intros y Hy ->%list_elem_of_singleton. done.
Qed.

(** Everything an element depends on stands to its left. *)
Lemma topo_prefix_before l l1 x l2 d :
  topo_prefix l → l = l1 ++ x :: l2 → dep x d → d ∈ l1.
Proof.
  intros Hl. revert l1 l2. induction Hl as [|l y Hl IH Hy Hd]; intros l1 l2 E Hx.
  - by destruct l1.
  - destruct (decide (l2 = [])) as [->|Hne].
    + apply app_inj_tail in E as [-> ->]. by apply Hd.
    + destruct (exists_last Hne) as (l3 & z & ->).
      rewrite app_comm_cons, app_assoc in E.
      apply app_inj_tail in E as [-> ->]. by eapply IH.
Qed.

Lemma topo_prefix_closed l x d : topo_prefix l → x ∈ l → dep x d → d ∈ l.
Proof.
  intros Hl Hx Hd. apply list_elem_of_split in Hx as (l1 & l2 & ->).
  apply elem_of_app. left. by eapply topo_prefix_before.
Qed.

Lemma topo_prefix_closed_tc l x d :
  topo_prefix l → x ∈ l → tc dep x d → d ∈ l.
Proof. intros Hl Hx Htc. induction Htc; eauto using topo_prefix_closed. Qed.

(** No element of a topological prefix lies on a cycle. *)
Lemma topo_prefix_acyclic l x : topo_prefix l → x ∈ l → ¬ tc dep x x.
Proof.
  intros Hl. revert x. induction Hl as [|l y Hl IH Hy Hd]; intros x Hx Hc.
  - by apply not_elem_of_nil in Hx.
  - apply elem_of_app in Hx as [Hx| ->%list_elem_of_singleton]; [by eapply IH|].
    assert (y ∈ l) as Hin; [|done].
    inversion Hc as [?? Hyy|?? z ? Hyz]; subst; [by apply Hd|].
    eapply topo_prefix_closed_tc; [done| |done]. by apply Hd.
Qed.

(** *** A stuck search has a cycle *)
Fixpoint path (x : A) (l : list A) : Prop :=
  match l with
  | [] => True
  | y :: l' => dep x y ∧ path y l'
  end.

Lemma path_app_tc x l1 y l2 : path x (l1 ++ y :: l2) → tc dep x y ∧ path y l2.
Proof.
  revert x. induction l1 as [|z l1 IH]; intros x; simpl.
  - intros [? ?]. split; [by apply tc_once|done].
  - intros [Hxz Hp]. apply IH in Hp as [? ?]. split; [by eapply tc_l|done].
Qed.

Lemma path_grow (P : A → Prop) :
  (∀ x, P x → ∃ y, P y ∧ dep x y) →
  ∀ n x, P x → ∃ l, length l = n ∧ path x l ∧ Forall P l.
Proof.
  intros Hstep n. induction n as [|n IH]; intros x Hx; [by exists []|].
  destruct (Hstep x Hx) as (y & Hy & Hxy).
  destruct (IH y Hy) as (l & Hlen & Hp & HP).
  exists (y :: l). simpl. split; [by rewrite Hlen|]. split; [done|by constructor].
Qed.

Lemma not_NoDup_split `{EqDecision A} (l : list A) :
  ¬ NoDup l → ∃ l1 x l2 l3, l = l1 ++ x :: l2 ++ x :: l3.
Proof.
  induction l as [|x l IH]; intros H.
  - by destruct H; constructor.
  - destruct (decide (x ∈ l)) as [Hx|Hx].
    + apply list_elem_of_split in Hx as (l2 & l3 & ->). by exists [], x, l2, l3.
    + destruct IH as (l1 & y & l2 & l3 & ->).
      { intros Hnd. by destruct H; constructor. }
      by exists (x :: l1), y, l2, l3.
Qed.

Lemma stuck_cycle `{EqDecision A} (X : list A) :
  X ≠ [] → (∀ x, x ∈ X → ∃ y, y ∈ X ∧ dep x y) → ∃ x, x ∈ X ∧ tc dep x x.
Proof.
  intros Hne Hstep. destruct X as [|x0 X0]; [done|].
  set (X := x0 :: X0) in *.
  destruct (path_grow (.∈ X) Hstep (S (length X)) x0) as (l & Hlen & Hp & HX).
  { unfold X. set_solver. }
  assert (¬ NoDup l) as Hdup.
  { intros Hnd. enough (length l ≤ length X) by lia.
    apply submseteq_length, NoDup_submseteq; [done|].
    intros y Hy. by eapply Forall_forall in HX. }
  destruct (not_NoDup_split l Hdup) as (l1 & x & l2 & l3 & ->).
  exists x. split.
  - eapply Forall_forall in HX; [exact HX|]. set_solver.
  - apply path_app_tc in Hp as [_ Hp]. by apply path_app_tc in Hp as [Hc _].
Qed.

(** A topological prefix that cannot be extended inside [X], and misses some
    of [X], leaves a cycle among the elements it misses. *)
Lemma stuck_prefix_cycle `{EqDecision A} (X l : list A) :
  (∃ x, x ∈ X ∧ x ∉ l) →
  (∀ x, x ∈ X → x ∉ l → ∃ d, d ∈ X ∧ d ∉ l ∧ dep x d) →
  ∃ x, x ∈ X ∧ x ∉ l ∧ tc dep x x.
Proof.
  intros (x0 & Hx0 & Hx0l) Hstep.
  destruct (stuck_cycle (filter (λ y, y ∉ l) X)) as (x & Hx & Hc).
  - intros E. assert (x0 ∈ filter (λ y, y ∉ l) X) as Hin
      by by apply list_elem_of_filter.
    rewrite E in Hin. by apply not_elem_of_nil in Hin.
  - intros x [Hxl Hx]%list_elem_of_filter.
    destruct (Hstep x Hx Hxl) as (d & ? & ? & ?). exists d.
    by rewrite list_elem_of_filter.
  - apply list_elem_of_filter in Hx as [? ?]. eauto.
Qed.
End prefix.

#[export] Hint Resolve topo_prefix_NoDup topo_prefix_closed : gonext.
