(* ===== verification/GoStrings.v ===== *)
(** * The part of Go's [strings] and [strconv] the platform uses

    Go strings are byte sequences, so [string] (a list of 8-bit characters)
    is their model. [TrimSpace] is modelled on ASCII white space. *)
From S2P Require Import Prelude.
From stdpp Require Export pretty.
From Stdlib Require Import Ascii.

Module strings.
(** [strings.TrimSpace] on ASCII: tab, LF, VT, FF, CR and space. *)
Fixpoint trim_left (s : string) : string :=
  match s with
  | EmptyString => EmptyString
  | String c s' => if Ascii.is_space c then trim_left s' else s
  end.

Fixpoint trim_right (s : string) : string :=
  match s with
  | EmptyString => EmptyString
  | String c s' =>
      match trim_right s' with
      | EmptyString => if Ascii.is_space c then EmptyString else String c EmptyString
      | t => String c t
      end
  end.

Definition TrimSpace (s : string) : string := trim_right (trim_left s).

(** [strings.HasPrefix(s, p)] *)
Fixpoint HasPrefix (s p : string) : bool :=
  match p, s with
  | EmptyString, _ => true
  | String a p', String b s' => bool_decide (a = b) && HasPrefix s' p'
  | String _ _, EmptyString => false
  end.

(** [s[n:]] for [n <= len(s)] *)
Fixpoint drop (n : nat) (s : string) : string :=
  match n, s with
  | O, _ => s
  | S n', String _ s' => drop n' s'
  | S _, EmptyString => EmptyString
  end.

(** [strings.Contains(s, sub)] *)
Fixpoint Contains (s sub : string) : bool :=
  HasPrefix s sub ||
  match s with
  | EmptyString => false
  | String _ s' => Contains s' sub
  end.

(** [s[:strings.IndexAny(s, chars)]], or all of [s] when no byte of
    [chars] occurs. *)
Fixpoint before_any (chars : list ascii) (s : string) : string :=
  match s with
  | EmptyString => EmptyString
  | String c s' =>
      if decide (c ∈ chars) then EmptyString else String c (before_any chars s')
  end.

(** [strings.Split(s, sep)] for a one-byte separator: never empty. *)
Fixpoint Split (sep : ascii) (s : string) : list string :=
  match s with
  | EmptyString => [EmptyString]
  | String c s' =>
      if decide (c = sep) then EmptyString :: Split sep s'
      else match Split sep s' with
           | p :: ps => String c p :: ps
           | [] => [String c EmptyString]
           end
  end.

(** [strings.Join(l, sep)] *)
Fixpoint Join (l : list string) (sep : string) : string :=
  match l with
  | [] => EmptyString
  | [s] => s
  | s :: l' => s +:+ sep +:+ Join l' sep
  end.

(** [strings.Cut(s, sep)], or nothing when [sep] does not occur. *)
Fixpoint Cut (s sep : string) : option (string * string) :=
  if HasPrefix s sep then Some ("", drop (String.length sep) s)
  else match s with
       | EmptyString => None
       | String c s' => '(a, b) ← Cut s' sep; Some (String c a, b)
       end.

Definition lower (c : ascii) : ascii :=
  let n := Ascii.nat_of_ascii c in
  if ((65 <=? n) && (n <=? 90))%nat then Ascii.ascii_of_nat (n + 32) else c.

(** [strings.ToLower] on ASCII *)
Fixpoint ToLower (s : string) : string :=
  match s with
  | EmptyString => EmptyString
  | String c s' => String (lower c) (ToLower s')
  end.
End strings.

Module strconv.
Fixpoint digits (acc : Z) (s : string) : option Z :=
  match s with
  | EmptyString => Some acc
  | String c s' =>
      match Ascii.is_nat c with
      | Some d => digits (10 * acc + Z.of_nat d)%Z s'
      | None => None
      end
  end.

(** [strconv.Atoi]: an optional sign, then decimal digits; a value outside
    [int] is an error. *)
Definition Atoi (s : string) : option Z :=
  let '(neg, body) :=
    match s with
    | String "-"%char s' => (true, s')
    | String "+"%char s' => (false, s')
    | _ => (false, s)
    end in
  match body with
  | EmptyString => None
  | _ =>
      match digits 0 body with
      | None => None
      | Some n =>
          let z := if neg then (- n)%Z else n in
          if decide (int64_min ≤ z ≤ int64_max)%Z then Some z else None
      end
  end.

(** [strconv.Itoa], and [%d] *)
Definition Itoa (z : Z) : string := pretty z.
End strconv.

(** ** Facts *)
Definition is_digit (c : ascii) : bool :=
  match Ascii.is_nat c with Some _ => true | None => false end.

Fixpoint all_chars (P : ascii → bool) (s : string) : bool :=
  match s with
  | EmptyString => true
  | String c s' => P c && all_chars P s'
  end.

Lemma all_chars_app P s t : all_chars P (s +:+ t) = all_chars P s && all_chars P t.
Proof.
  induction s as [|c s IH]; [done|]. simpl.
  change (String c s +:+ t) with (String c (s +:+ t)). simpl.
  rewrite IH. by destruct (P c).
Qed.

Lemma string_app_nil_r s : s +:+ EmptyString = s.
Proof.
  induction s as [|c s IH]; [done|].
  change (String c s +:+ EmptyString) with (String c (s +:+ EmptyString)).
  by rewrite IH.
Qed.

Lemma string_app_assoc s t u : (s +:+ t) +:+ u = s +:+ t +:+ u.
Proof.
  induction s as [|c s IH]; [done|].
  change (String c s +:+ t) with (String c (s +:+ t)).
  change (String c (s +:+ t) +:+ u) with (String c ((s +:+ t) +:+ u)).
  by rewrite IH.
Qed.

Lemma string_app_cons c s t : String c s +:+ t = String c (s +:+ t).
Proof. done. Qed.

Lemma string_length_app s t : String.length (s +:+ t) = (String.length s + String.length t)%nat.
Proof. induction s as [|c s IH]; [done|]. rewrite string_app_cons. simpl. by rewrite IH. Qed.

Lemma string_length_snoc s c : String.length (s +:+ String c "") = Datatypes.S (String.length s).
Proof. rewrite string_length_app. simpl. lia. Qed.

Lemma strings_drop_app s t : strings.drop (String.length s) (s +:+ t) = t.
Proof. induction s as [|c s IH]; [done|]. by rewrite string_app_cons. Qed.

Lemma substring_0_app s t : String.substring 0 (String.length s) (s +:+ t) = s.
Proof. induction s as [|c s IH]; [by destruct t|]. rewrite string_app_cons. simpl. by rewrite IH. Qed.

Lemma take_drop_string n s : n ≤ String.length s →
  s = String.substring 0 n s +:+ strings.drop n s ∧ String.length (String.substring 0 n s) = n.
Proof.
  revert s. induction n as [|n IH]; intros s H; [by destruct s|]. destruct s as [|c s]; simpl in H; [lia|].
  destruct (IH s ltac:(lia)) as [E1 E2]. simpl. rewrite string_app_cons, E2. split; [by rewrite <-E1|done].
Qed.

Lemma string_app_inv_l (s : string) x y : s +:+ x = s +:+ y → x = y.
Proof. induction s as [|c s IH]; simpl; [done|]. intros [= E]. auto. Qed.

Lemma string_app_nil_l t : EmptyString +:+ t = t.
Proof. done. Qed.

(** *** Decimal printing and parsing are inverse *)
Lemma is_nat_pretty_N_char n :
  (n < 10)%N → Ascii.is_nat (pretty_N_char n) = Some (N.to_nat n).
Proof.
  intros H. destruct n as [|p]; [done|].
  do 4 (destruct p as [p|p|]; try done; try lia).
Qed.

Lemma digits_app z s t :
  strconv.digits z (s +:+ t) =
    match strconv.digits z s with
    | Some y => strconv.digits y t
    | None => None
    end.
Proof.
  revert z. induction s as [|c s IH]; intros z; [done|].
  rewrite string_app_cons. simpl. destruct (Ascii.is_nat c); [apply IH|done].
Qed.

(** [pretty_N_go x s] prints [x] in front of [s]. *)
Lemma pretty_N_go_digits x s :
  ∃ t, pretty_N_go x s = t +:+ s ∧ all_chars is_digit t = true ∧
       strconv.digits 0 t = Some (Z.of_N x) ∧ ((0 < x)%N → t ≠ EmptyString).
Proof.
  revert s. induction (N.lt_wf_0 x) as [x _ IH]; intros s.
  destruct (decide (x = 0)%N) as [->|Hx].
  - exists EmptyString. rewrite pretty_N_go_0. repeat split; [done..|lia].
  - rewrite pretty_N_go_step by lia.
    destruct (IH (x `div` 10)%N) with (s := String (pretty_N_char (x `mod` 10)) s)
      as (t & Ht & Hall & Hd & _).
    { apply N.div_lt; lia. }
    assert (x `mod` 10 < 10)%N as Hlt by (apply N.mod_lt; lia).
    exists (t +:+ String (pretty_N_char (x `mod` 10)) EmptyString).
    rewrite Ht, string_app_assoc, string_app_cons, string_app_nil_l.
    split; [done|]. split; [|split].
    + rewrite all_chars_app, Hall. simpl. unfold is_digit.
      by rewrite is_nat_pretty_N_char.
    + rewrite digits_app, Hd. simpl. rewrite is_nat_pretty_N_char by done.
      f_equal. rewrite N_nat_Z.
      rewrite N2Z.inj_div, N2Z.inj_mod by lia.
      rewrite Z.add_comm. symmetry. rewrite Z.add_comm. apply Z.div_mod. lia.
    + intros _. by destruct t.
Qed.

Lemma Itoa_digits z :
  (0 ≤ z)%Z →
  all_chars is_digit (strconv.Itoa z) = true ∧
  strconv.digits 0 (strconv.Itoa z) = Some z ∧ strconv.Itoa z ≠ EmptyString.
Proof.
  intros Hz. unfold strconv.Itoa. destruct z as [|p|p]; [done| |lia].
  change (pretty (Z.pos p)) with (pretty (N.pos p)).
  unfold pretty, pretty_N. case_decide; [lia|].
  destruct (pretty_N_go_digits (N.pos p) "") as (t & Ht & ? & ? & ?).
  rewrite Ht, string_app_nil_r. split; [done|]. split; [done|]. naive_solver lia.
Qed.

Lemma Atoi_range s n : strconv.Atoi s = Some n → in_int64 n.
Proof.
  unfold strconv.Atoi. destruct (match s with String "-"%char _ => _ | _ => _ end) as [neg b].
  destruct b; [done|]. destruct (strconv.digits _ _); [|done].
  destruct (decide _) as [Hd|]; [|done]. by intros [= <-].
Qed.

(** [strconv.Atoi] reads back what [strconv.Itoa] printed. *)
Lemma Atoi_Itoa z : (0 ≤ z ≤ int64_max)%Z → strconv.Atoi (strconv.Itoa z) = Some z.
Proof.
  intros Hz. destruct (Itoa_digits z) as (Hall & Hd & Hne); [lia|].
  destruct (strconv.Itoa z) as [|c s] eqn:E; [done|]. unfold strconv.Atoi.
  assert (c ≠ "-"%char ∧ c ≠ "+"%char) as [? ?] by (split; intros ->; discriminate Hall).
  replace (match String c s with
           | String "-"%char s' => (true, s')
           | String "+"%char s' => (false, s')
           | _ => (false, String c s) end) with (false, String c s).
  2: { destruct c as [[] [] [] [] [] [] [] []]; done. }
  rewrite Hd. rewrite decide_True; [done|]. unfold int64_min. lia.
Qed.

(** *** Trimming and searching *)
Definition no_space (c : ascii) : bool := negb (Ascii.is_space c).

Lemma all_chars_impl (P Q : ascii → bool) s :
  (∀ c, P c = true → Q c = true) → all_chars P s = true → all_chars Q s = true.
Proof.
  intros HPQ. induction s as [|c s IH]; [done|]. simpl.
  intros [? ?]%andb_true_iff. rewrite HPQ by done. by apply IH.
Qed.

Lemma get_all_chars P n s c : all_chars P s = true → String.get n s = Some c → P c = true.
Proof.
  revert n. induction s as [|d s IH]; intros n; [done|]. cbn. intros [Hd Hs]%andb_true_iff.
  destruct n as [|n]; [congruence|by apply IH].
Qed.
Lemma trim_right_cons c s :
  strings.trim_right (String c s) =
    match strings.trim_right s with
    | EmptyString => if Ascii.is_space c then EmptyString else String c EmptyString
    | t => String c t
    end.
Proof. done. Qed.

Lemma trim_right_app s t :
  t ≠ EmptyString → all_chars no_space t = true →
  strings.trim_right (s +:+ t) = s +:+ t.
Proof.
  intros Hne Hall.
  assert (strings.trim_right t = t) as Ht.
  { clear s. induction t as [|c t IH]; [done|].
    apply andb_true_iff in Hall as [Hc Hall]. unfold no_space in Hc.
    rewrite trim_right_cons. destruct t as [|c' t]; simpl.
    - by destruct (Ascii.is_space c).
    - simpl in IH. by rewrite IH. }
  induction s as [|c s IH]; [done|]. rewrite string_app_cons, trim_right_cons, IH.
  destruct (s +:+ t) as [|c' u] eqn:E; [|done].
  by destruct s, t.
Qed.

Lemma TrimSpace_id s t :
  (match s with EmptyString => true | String c _ => no_space c end) = true →
  t ≠ EmptyString → all_chars no_space t = true →
  strings.TrimSpace (s +:+ t) = s +:+ t.
Proof.
  intros Hs Hne Hall. unfold strings.TrimSpace.
  assert (strings.trim_left (s +:+ t) = s +:+ t) as ->; [|by apply trim_right_app].
  destruct s as [|c s].
  - destruct t as [|c t]; [done|]. simpl in *. unfold no_space in Hall.
    rewrite string_app_nil_l. simpl. by destruct (Ascii.is_space c).
  - rewrite string_app_cons. simpl. unfold no_space in Hs.
    by destruct (Ascii.is_space c).
Qed.

Lemma TrimSpace_no_space s : all_chars no_space s = true → strings.TrimSpace s = s.
Proof.
  intros H. destruct s as [|c s]; [done|].
  apply (TrimSpace_id EmptyString); done.
Qed.

Lemma HasPrefix_app p s : strings.HasPrefix (p +:+ s) p = true.
Proof.
  induction p as [|c p IH]; [by rewrite string_app_nil_l; destruct s|].
  rewrite string_app_cons. simpl.
  by rewrite bool_decide_true, IH.
Qed.

Lemma Contains_cons_false x sub s :
  all_chars (λ c, negb (bool_decide (c = x))) s = true →
  strings.Contains s (String x sub) = false.
Proof.
  induction s as [|c s IH]; [done|]. simpl. intros [Hc Hs]%andb_true_iff.
  rewrite (IH Hs). destruct (decide (x = c)) as [->|Hne].
  - by rewrite bool_decide_true in Hc.
  - by rewrite (bool_decide_false (x = c)).
Qed.

Lemma before_any_none chars s :
  all_chars (λ c, negb (bool_decide (c ∈ chars))) s = true →
  strings.before_any chars s = s.
Proof.
  induction s as [|c s IH]; [done|]. simpl. intros [Hc Hs]%andb_true_iff.
  rewrite decide_False; [by rewrite IH|].
  intros E. by rewrite bool_decide_true in Hc.
Qed.

Lemma Split_none sep s :
  all_chars (λ c, negb (bool_decide (c = sep))) s = true →
  strings.Split sep s = [s].
Proof.
  induction s as [|c s IH]; [done|]. simpl. intros [Hc Hs]%andb_true_iff.
  rewrite decide_False; [by rewrite IH|].
  intros E. by rewrite bool_decide_true in Hc.
Qed.

Lemma Split_app sep s t :
  all_chars (λ c, negb (bool_decide (c = sep))) s = true →
  strings.Split sep (s +:+ String sep t) = s :: strings.Split sep t.
Proof.
  induction s as [|c s IH].
  - intros _. rewrite string_app_nil_l. simpl. by rewrite decide_True.
  - intros [Hc Hs]%andb_true_iff. rewrite string_app_cons. simpl.
    rewrite decide_False; [by rewrite IH|].
    intros E. by rewrite bool_decide_true in Hc.
Qed.

(** *** Byte order *)
Lemma string_ltb_cons c s d t :
  String.ltb (String c s) (String d t) =
    if (N_of_ascii c <? N_of_ascii d)%N then true
    else if (N_of_ascii c =? N_of_ascii d)%N then String.ltb s t else false.
Proof.
  unfold String.ltb. cbn [String.compare]. unfold Ascii.compare.
  rewrite N.ltb_compare, N.eqb_compare. by destruct (_ ?= _)%N.
Qed.

Lemma string_ltb_asym s t : String.ltb s t = true → String.ltb t s = false.
Proof.
  revert t. induction s as [|c s IH]; intros [|d t]; try done. rewrite !string_ltb_cons.
  destruct (N.ltb_spec (N_of_ascii c) (N_of_ascii d)), (N.ltb_spec (N_of_ascii d) (N_of_ascii c)),
    (N.eqb_spec (N_of_ascii c) (N_of_ascii d)), (N.eqb_spec (N_of_ascii d) (N_of_ascii c));
    try done; try lia; apply IH.
Qed.

Lemma string_ltb_cotrans s t u :
  String.ltb s u = true → String.ltb s t = true ∨ String.ltb t u = true.
Proof.
  revert s u. induction t as [|d t IH]; intros [|c s] [|e u]; try done; try (by left); try (by right).
  rewrite !string_ltb_cons.
  destruct (N.ltb_spec (N_of_ascii c) (N_of_ascii e)), (N.ltb_spec (N_of_ascii c) (N_of_ascii d)),
    (N.ltb_spec (N_of_ascii d) (N_of_ascii e)), (N.eqb_spec (N_of_ascii c) (N_of_ascii e)),
    (N.eqb_spec (N_of_ascii c) (N_of_ascii d)), (N.eqb_spec (N_of_ascii d) (N_of_ascii e));
    try lia; try done; auto.
Qed.

Lemma string_ltb_app s c t : String.ltb s (s +:+ String c t) = true.
Proof.
  induction s as [|d s IH]; [done|]. rewrite string_app_cons, string_ltb_cons.
  rewrite (proj2 (N.eqb_eq _ _)) by done. by destruct (_ <? _)%N.
Qed.

(** *** Digits are plain characters *)
Lemma is_digit_cases c :
  is_digit c = true →
  c ∈ ["0"; "1"; "2"; "3"; "4"; "5"; "6"; "7"; "8"; "9"]%char.
Proof.
  unfold is_digit, Ascii.is_nat. intros H.
  repeat (case_match; try discriminate); set_solver.
Qed.

Ltac digit_case H :=
  apply is_digit_cases in H; rewrite ?elem_of_cons in H;
  destruct_or! H; subst; try reflexivity; try by apply not_elem_of_nil in H.

Definition not_char (c x : ascii) : bool := negb (bool_decide (x = c)).

Lemma Cut_char c s t :
  all_chars (not_char c) s = true → strings.Cut (s +:+ String c t) (String c "") = Some (s, t).
Proof.
  induction s as [|x s IH]; intros Hs.
  - rewrite string_app_nil_l. cbn [strings.Cut strings.HasPrefix].
    rewrite bool_decide_true by done. simpl. by destruct t.
  - rewrite string_app_cons. simpl in Hs. apply andb_prop in Hs as [Hx Hs]. cbn [strings.Cut strings.HasPrefix].
    rewrite bool_decide_false; [simpl; by rewrite (IH Hs)|]. intros ->. unfold not_char in Hx.
    by rewrite bool_decide_true in Hx.
Qed.
