(* ===== verification/Segments.v ===== *)
(** * Separated texts

    A text and its segments between occurrences of a separator, as [strings.Split] and
    [strings.Join] see them: the paths of URLs and the dotted paths of trees. *)
From S2P Require Import Prelude GoStrings.
From Stdlib Require Import Ascii.

Section segments.
Context (sep : ascii).

(** A segment: no separator in it. *)
Definition segment (s : string) : Prop := all_chars (not_char sep) s = true.

Lemma Split_ne s : strings.Split sep s ≠ [].
Proof. destruct s; cbn [strings.Split]; [done|]. case_decide; [done|]. by destruct (strings.Split sep s). Qed.

Lemma Split_segments p : Forall segment (strings.Split sep p).
Proof.
  unfold segment. induction p as [|c p IH]; cbn [strings.Split]; [by constructor|].
  case_decide as Hc; [by constructor|]. destruct (strings.Split sep p) as [|s l]; cbn.
  - constructor; [|done]. cbn. unfold not_char. by rewrite bool_decide_eq_false_2.
  - apply Forall_cons in IH as [Hs Hl]. constructor; [|done]. cbn [all_chars].
    rewrite Hs. unfold not_char. by rewrite bool_decide_eq_false_2.
Qed.

Lemma Split_segment s : segment s → strings.Split sep s = [s].
Proof. apply Split_none. Qed.

Lemma Split_app_sep s t : strings.Split sep (s +:+ String sep t) = strings.Split sep s ++ strings.Split sep t.
Proof.
  induction s as [|c s IH]; [rewrite string_app_nil_l; simpl; by rewrite decide_True|].
  rewrite string_app_cons. simpl. rewrite IH. case_decide; [done|].
  destruct (strings.Split sep s) eqn:E; [by destruct (Split_ne s)|done].
Qed.

Lemma Join_cons_cons s t l :
  strings.Join (s :: t :: l) (String sep "") = s +:+ String sep (strings.Join (t :: l) (String sep "")).
Proof. reflexivity. Qed.

Lemma Join_app l k :
  l ≠ [] → k ≠ [] →
  strings.Join (l ++ k) (String sep "") = strings.Join l (String sep "") +:+ String sep (strings.Join k (String sep "")).
Proof.
  intros Hl Hk. induction l as [|s l IH]; [done|]. destruct l as [|t l].
  - destruct k as [|u k]; [done|]. reflexivity.
  - change ((s :: t :: l) ++ k) with (s :: t :: (l ++ k)). rewrite !Join_cons_cons.
    change (t :: l ++ k) with ((t :: l) ++ k). rewrite IH by done. by rewrite string_app_assoc.
Qed.

Lemma Split_Join segs : segs ≠ [] → Forall segment segs → strings.Split sep (strings.Join segs (String sep "")) = segs.
Proof.
  induction segs as [|s l IH]; [done|]. intros _ [Hs Hl]%Forall_cons. destruct l as [|t l].
  - by apply Split_none.
  - rewrite Join_cons_cons, Split_app by done. by rewrite IH.
Qed.

Lemma Join_Split p : strings.Join (strings.Split sep p) (String sep "") = p.
Proof.
  induction p as [|c p IH]; [done|]. cbn [strings.Split]. case_decide as Hc.
  - subst c. destruct (strings.Split sep p) as [|s l] eqn:E; [by destruct (Split_ne p)|].
    rewrite Join_cons_cons. by rewrite IH.
  - destruct (strings.Split sep p) as [|s l] eqn:E; [by destruct (Split_ne p)|].
    destruct l as [|t l]; [by cbn in *; subst|]. rewrite Join_cons_cons in *. rewrite string_app_cons. by rewrite IH.
Qed.

Lemma Split_inj p q : strings.Split sep p = strings.Split sep q → p = q.
Proof. intros H. by rewrite <-(Join_Split p), H, Join_Split. Qed.
End segments.
