(* ===== verification/Semver.v ===== *)
(** * Version ranges (packages/go/plugins/depends/semver.go)

    The range language of a manifest's [depends] array. The comparison of two
    versions is golang.org/x/mod/semver, a third-party package: [IsValid] and
    [Compare] are parameters of the model. *)
From S2P Require Import Prelude GoStrings.
From Stdlib Require Import Ascii.

Definition semver_error := string.

Section semver.
Context (IsValid : string → bool) (Compare : string → string → Z).

(** [asV] *)
Definition asV (s : string) : string :=
  let s := strings.TrimSpace s in
  if strings.HasPrefix s "v" || strings.HasPrefix s "V"
  then "v" +:+ strings.drop 1 s else "v" +:+ s.

(** [splitClauses]: the byte loop; [st] is the three variables it carries.
    The clause buffer [cur] holds the bytes written so far. *)
Record clause_state := ClauseState {
  clauses : list string;
  cur : string;
  expect : bool;
}.

Definition flush (st : clause_state) : clause_state :=
  let s := strings.TrimSpace (cur st) in
  ClauseState (if decide (s = "") then clauses st else clauses st ++ [s]) "" (expect st).

Definition write_byte (c : ascii) (st : clause_state) : clause_state :=
  ClauseState (clauses st) (cur st +:+ String c "") (expect st).

Definition set_expect (b : bool) (st : clause_state) : clause_state :=
  ClauseState (clauses st) (cur st) b.

Definition is_operator (c : ascii) : bool :=
  bool_decide (c ∈ [">"; "<"; "="; "~"; "^"]%char).

Definition is_blank (c : ascii) : bool := bool_decide (c ∈ [" "; "009"]%char).

Definition split_step (st : clause_state) (ch : ascii) : clause_state :=
  if is_blank ch then (if expect st then st else flush st)
  else if is_operator ch then
    let st := if negb (bool_decide (cur st = "")) && negb (expect st)
              then flush st else st in
    set_expect true (write_byte ch st)
  else set_expect false (write_byte ch st).

Fixpoint split_run (st : clause_state) (expr : string) : clause_state :=
  match expr with
  | EmptyString => st
  | String ch expr' => split_run (split_step st ch) expr'
  end.

Definition splitClauses (expr : string) : list string :=
  clauses (flush (split_run (ClauseState [] "" false) expr)).

(** [splitSemver]: the three numbers, a missing one being zero. *)
Definition get_part (parts : list string) (idx : nat) : result semver_error Z :=
  match parts !! idx with
  | None => Ok 0%Z
  | Some p =>
      match strconv.Atoi p with
      | None => Err "not a number"
      | Some n => if (n <? 0)%Z then Err "negative" else Ok n
      end
  end.

Definition splitSemver (s : string) : result semver_error (Z * Z * Z) :=
  let parts := strings.Split "."%char (strings.before_any ["-"; "+"]%char s) in
  let? major := get_part parts 0 in
  let? minor := get_part parts 1 in
  let? patch := get_part parts 2 in
  Ok (major, minor, patch).

Definition matchExact (v base : string) : result semver_error bool :=
  let b := asV base in
  if negb (IsValid b) then Err "invalid exact" else Ok (Compare v b =? 0)%Z.

Definition cmpAtLeast (v base : string) (want : Z) : result semver_error bool :=
  let b := asV base in
  if negb (IsValid b) then Err "invalid bound" else
  let c := Compare v b in
  Ok (if (want =? 0)%Z then (0 <=? c)%Z else (0 <? c)%Z).

Definition cmpAtMost (v base : string) (want : Z) : result semver_error bool :=
  let b := asV base in
  if negb (IsValid b) then Err "invalid bound" else
  let c := Compare v b in
  Ok (if (want =? 0)%Z then (c <=? 0)%Z else (c <? 0)%Z).

(** [fmt.Sprintf("v%d.%d.%d", ...)] *)
Definition version_string (a b c : Z) : string :=
  "v" +:+ strconv.Itoa a +:+ "." +:+ strconv.Itoa b +:+ "." +:+ strconv.Itoa c.

(** [matchCaret]; the successor is machine arithmetic. *)
Definition matchCaret (v base : string) : result semver_error bool :=
  let? (major, minor, _) := splitSemver base in
  let lo := asV base in
  if negb (IsValid lo) then Err "invalid caret base" else
  if (Compare v lo <? 0)%Z then Ok false else
  let hi := if (major =? 0)%Z then version_string 0 (wrap64 (minor + 1)) 0
            else version_string (wrap64 (major + 1)) 0 0 in
  Ok (Compare v hi <? 0)%Z.

Definition matchTilde (v base : string) : result semver_error bool :=
  let? (major, minor, _) := splitSemver base in
  let lo := asV base in
  if negb (IsValid lo) then Err "invalid tilde base" else
  if (Compare v lo <? 0)%Z then Ok false else
  let hi := version_string major (wrap64 (minor + 1)) 0 in
  Ok (Compare v hi <? 0)%Z.

Definition matchClause (v clause : string) : result semver_error bool :=
  if decide (clause = "") then Err "empty clause" else
  if strings.HasPrefix clause "^" then matchCaret v (strings.drop 1 clause) else
  if strings.HasPrefix clause "~" then matchTilde v (strings.drop 1 clause) else
  if strings.HasPrefix clause ">=" then cmpAtLeast v (strings.drop 2 clause) 0 else
  if strings.HasPrefix clause "<=" then cmpAtMost v (strings.drop 2 clause) 0 else
  if strings.HasPrefix clause ">" then cmpAtLeast v (strings.drop 1 clause) 1 else
  if strings.HasPrefix clause "<" then cmpAtMost v (strings.drop 1 clause) (-1) else
  if strings.HasPrefix clause "=" then matchExact v (strings.drop 1 clause) else
  matchExact v clause.

(** The loop of [matchRange]: stops at the first clause that fails. *)
Fixpoint match_clauses (v : string) (cs : list string) : result semver_error bool :=
  match cs with
  | [] => Ok true
  | c :: cs' =>
      let? ok := matchClause v c in
      if ok : bool then match_clauses v cs' else Ok false
  end.

Definition matchRange (version rangeExpr : string) : result semver_error bool :=
  if decide (version = "") then Err "empty version" else
  let rangeExpr := strings.TrimSpace rangeExpr in
  if decide (rangeExpr = "") then Err "empty range" else
  if decide (rangeExpr = "*") then
    (if negb (IsValid (asV version)) then Err "invalid version" else Ok true)
  else if strings.Contains rangeExpr "||" then Err "unsupported || in range" else
  let v := asV version in
  if negb (IsValid v) then Err "invalid version" else
  match_clauses v (splitClauses rangeExpr).
End semver.

(** ** What a range means

    Ranges in the notation the manifest documents, and their meaning on
    triples of numbers. *)
Definition version := (Z * Z * Z)%type.

Definition wf_version (v : version) : Prop :=
  let '(a, b, c) := v in (0 ≤ a ∧ 0 ≤ b ∧ 0 ≤ c)%Z.

(** Small enough for [strconv.Atoi] and for the successor not to wrap. *)
Definition small_version (v : version) : Prop :=
  let '(a, b, c) := v in
  (0 ≤ a < int64_max ∧ 0 ≤ b < int64_max ∧ 0 ≤ c < int64_max)%Z.

Definition compare3 (v w : version) : comparison :=
  let '(a, b, c) := v in let '(a', b', c') := w in
  match (a ?= a')%Z with
  | Eq => match (b ?= b')%Z with Eq => (c ?= c')%Z | r => r end
  | r => r
  end.

Definition sign (c : comparison) : Z :=
  match c with Lt => (-1)%Z | Eq => 0%Z | Gt => 1%Z end.

Inductive operator := OpCaret | OpTilde | OpGe | OpLe | OpGt | OpLt | OpEq | OpNone.

Definition operator_string (o : operator) : string :=
  match o with
  | OpCaret => "^" | OpTilde => "~" | OpGe => ">=" | OpLe => "<="
  | OpGt => ">" | OpLt => "<" | OpEq => "=" | OpNone => ""
  end.

Definition render (v : version) : string :=
  let '(a, b, c) := v in
  strconv.Itoa a +:+ "." +:+ strconv.Itoa b +:+ "." +:+ strconv.Itoa c.

Definition clause := (operator * version)%type.

Definition render_clause (c : clause) : string :=
  operator_string c.1 +:+ render c.2.

Definition render_range (cs : list clause) : string :=
  strings.Join (map render_clause cs) " ".

(** [sat v (o, w)]: version [v] satisfies the constraint [o w]. *)
Definition sat (v : version) (c : clause) : bool :=
  let '(o, w) := c in
  let '(a, b, _) := v in let '(x, y, _) := w in
  match o with
  | OpCaret =>
      bool_decide (compare3 v w ≠ Lt) &&
      (if (x =? 0)%Z then (a =? 0)%Z && (b =? y)%Z else (a =? x)%Z)
  | OpTilde => bool_decide (compare3 v w ≠ Lt) && ((a =? x)%Z && (b =? y)%Z)
  | OpGe => bool_decide (compare3 v w ≠ Lt)
  | OpLe => bool_decide (compare3 v w ≠ Gt)
  | OpGt => bool_decide (compare3 v w = Gt)
  | OpLt => bool_decide (compare3 v w = Lt)
  | OpEq | OpNone => bool_decide (compare3 v w = Eq)
  end.

(** What the model relies on about golang.org/x/mod/semver: plain
    MAJOR.MINOR.PATCH strings are valid and compared numerically, component by
    component. *)
Class SemverLaws (IsValid : string → bool) (Compare : string → string → Z) := {
  valid_plain : ∀ v, wf_version v → IsValid ("v" +:+ render v) = true;
  compare_plain : ∀ v w, wf_version v → wf_version w →
    Compare ("v" +:+ render v) ("v" +:+ render w) = sign (compare3 v w);
}.

(** ** Rendered versions are plain text *)
Definition plain (c : ascii) : bool := is_digit c || bool_decide (c = "."%char).

Lemma plain_not_special c :
  plain c = true →
  is_blank c = false ∧ is_operator c = false ∧ no_space c = true ∧
  bool_decide (c = "|"%char) = false ∧ bool_decide (c ∈ ["-"; "+"]%char) = false ∧
  bool_decide (c = "v"%char) = false ∧ bool_decide (c = "V"%char) = false ∧
  bool_decide (c = "*"%char) = false.
Proof.
  unfold plain. intros [H|H]%orb_true_iff.
  - apply is_digit_cases in H. rewrite !elem_of_cons in H.
    destruct_or! H; subst; try done. by apply not_elem_of_nil in H.
  - apply bool_decide_eq_true in H as ->. done.
Qed.

Lemma Itoa_plain z : (0 ≤ z)%Z → all_chars plain (strconv.Itoa z) = true.
Proof.
  intros Hz. destruct (Itoa_digits z Hz) as (H & _).
  eapply all_chars_impl; [|exact H]. intros c Hc. unfold plain. by rewrite Hc.
Qed.

Lemma render_plain v : wf_version v → all_chars plain (render v) = true.
Proof.
  destruct v as [[a b] c]. intros (? & ? & ?). unfold render.
  rewrite !all_chars_app, !Itoa_plain by done. done.
Qed.

(** A rendered version starts with a digit. *)
Lemma render_head v :
  wf_version v → ∃ c s, render v = String c s ∧ plain c = true.
Proof.
  intros H. pose proof (render_plain v H) as Hp.
  destruct v as [[a b] c]. destruct H as (Ha & _ & _).
  destruct (Itoa_digits a Ha) as (_ & _ & Hne). unfold render in *.
  destruct (strconv.Itoa a) as [|d s]; [done|].
  exists d. eexists. split; [by rewrite string_app_cons|].
  rewrite string_app_cons in Hp. simpl in Hp. by apply andb_true_iff in Hp as [? _].
Qed.

Lemma small_wf v : small_version v → wf_version v.
Proof. destruct v as [[a b] c]. unfold small_version, wf_version. lia. Qed.
#[export] Hint Resolve small_wf : gonext.

Lemma plain_impl (P : ascii → bool) s :
  (∀ c, plain c = true → P c = true) → all_chars plain s = true →
  all_chars P s = true.
Proof. apply all_chars_impl. Qed.

Lemma asV_render v : wf_version v → asV (render v) = "v" +:+ render v.
Proof.
  intros H. unfold asV.
  rewrite TrimSpace_no_space
    by (eapply plain_impl, render_plain, H; intros c; apply plain_not_special).
  destruct (render_head v H) as (c & s & -> & Hc).
  destruct (plain_not_special c Hc) as (_ & _ & _ & _ & _ & Hv & HV & _).
  apply bool_decide_eq_false in Hv, HV.
  simpl. rewrite !bool_decide_false by congruence. done.
Qed.

Lemma digits_not_dot z :
  (0 ≤ z)%Z →
  all_chars (λ c, negb (bool_decide (c = "."%char))) (strconv.Itoa z) = true.
Proof.
  intros Hz. eapply all_chars_impl, Itoa_digits, Hz.
  intros c Hc. digit_case Hc.
Qed.

Lemma splitSemver_render v : small_version v → splitSemver (render v) = Ok v.
Proof.
  intros H. pose proof (small_wf _ H) as Hwf. unfold splitSemver.
  rewrite before_any_none.
  2: { eapply plain_impl, render_plain, Hwf. intros c Hc.
       apply plain_not_special in Hc as (_ & _ & _ & _ & -> & _). done. }
  destruct v as [[a b] c]. destruct Hwf as (? & ? & ?). destruct H as (? & ? & ?).
  unfold render. rewrite !string_app_cons, !string_app_nil_l.
  rewrite !Split_app, Split_none by (by apply digits_not_dot).
  unfold get_part. simpl.
  rewrite !Atoi_Itoa by (unfold int64_max in *; lia).
  by rewrite !(proj2 (Z.ltb_ge _ _)) by lia.
Qed.

(** *** The clause loop on rendered text *)
Lemma split_run_app st s t :
  split_run st (s +:+ t) = split_run (split_run st s) t.
Proof.
  revert st. induction s as [|c s IH]; intros st; [done|].
  rewrite string_app_cons. simpl. apply IH.
Qed.

Lemma split_run_plain cl cu e s :
  all_chars plain s = true → s ≠ "" →
  split_run (ClauseState cl cu e) s = ClauseState cl (cu +:+ s) false.
Proof.
  revert cu e. induction s as [|c s IH]; intros cu e Hall Hs; [done|].
  simpl in Hall. apply andb_true_iff in Hall as [Hc Hall].
  destruct (plain_not_special c Hc) as (Hb & Ho & _).
  simpl. unfold split_step at 1. rewrite Hb, Ho. unfold set_expect, write_byte. simpl.
  destruct (decide (s = "")) as [->|Hne]; [done|].
  rewrite IH by done. by rewrite string_app_assoc, string_app_cons.
Qed.

Lemma split_run_clause cl c :
  wf_version c.2 →
  split_run (ClauseState cl "" false) (render_clause c) =
    ClauseState cl (render_clause c) false.
Proof.
  destruct c as [o v]. intros H. unfold render_clause. rewrite split_run_app. simpl.
  assert (∀ cu e, split_run (ClauseState cl cu e) (render v) =
            ClauseState cl (cu +:+ render v) false) as Hrun.
  { intros cu e. apply split_run_plain; [by apply render_plain|].
    by destruct (render_head v H) as (d & s & -> & _). }
  destruct o; apply Hrun.
Qed.

Lemma render_clause_no_space c :
  wf_version c.2 → all_chars no_space (render_clause c) = true.
Proof.
  intros H. unfold render_clause. rewrite all_chars_app.
  rewrite (plain_impl no_space (render c.2))
    by (intros; by apply plain_not_special || by apply render_plain).
  by destruct c.1.
Qed.

Lemma render_clause_ne c : wf_version c.2 → render_clause c ≠ "".
Proof.
  destruct c as [o v]. intros H. unfold render_clause. cbn [fst snd] in *.
  destruct (render_head v H) as (d & s & -> & _). by destruct o.
Qed.

Lemma flush_clause cl c :
  wf_version c.2 →
  flush (ClauseState cl (render_clause c) false) =
    ClauseState (cl ++ [render_clause c]) "" false.
Proof.
  intros H. unfold flush. simpl.
  rewrite TrimSpace_no_space by by apply render_clause_no_space.
  by rewrite decide_False by by apply render_clause_ne.
Qed.

Lemma split_step_blank cl cu :
  split_step (ClauseState cl cu false) " "%char = flush (ClauseState cl cu false).
Proof. done. Qed.

Lemma splitClauses_render cs :
  Forall (λ c, wf_version c.2) cs →
  splitClauses (render_range cs) = map render_clause cs.
Proof.
  unfold splitClauses, render_range. intros Hcs.
  cut (∀ cl, clauses (flush (split_run (ClauseState cl "" false)
    (strings.Join (map render_clause cs) " "))) = cl ++ map render_clause cs);
    [intros E; apply E|].
  induction Hcs as [|c cs Hc Hcs IH]; intros cl.
  - by rewrite app_nil_r.
  - destruct cs as [|c' cs]; cbn [map strings.Join] in *.
    + by rewrite split_run_clause, flush_clause.
    + rewrite split_run_app, split_run_clause by done.
      rewrite string_app_cons, string_app_nil_l. cbn [split_run].
      rewrite split_step_blank, flush_clause by done.
      etransitivity; [apply IH|]. by rewrite <- app_assoc.
Qed.

(** ** One clause *)
Lemma version_string_render a b c : version_string a b c = "v" +:+ render (a, b, c).
Proof. done. Qed.

Lemma sign_neg c : (sign c <? 0)%Z = bool_decide (c = Lt).
Proof. by destruct c. Qed.

Lemma matchClause_dispatch IsValid Compare v o w :
  wf_version w →
  matchClause IsValid Compare v (render_clause (o, w)) =
    match o with
    | OpCaret => matchCaret IsValid Compare v (render w)
    | OpTilde => matchTilde IsValid Compare v (render w)
    | OpGe => cmpAtLeast IsValid Compare v (render w) 0
    | OpLe => cmpAtMost IsValid Compare v (render w) 0
    | OpGt => cmpAtLeast IsValid Compare v (render w) 1
    | OpLt => cmpAtMost IsValid Compare v (render w) (-1)
    | OpEq | OpNone => matchExact IsValid Compare v (render w)
    end.
Proof.
  intros Hw. unfold matchClause.
  rewrite decide_False by (by apply (render_clause_ne (o, w))).
  destruct (render_head w Hw) as (d & s & E & Hd).
  apply plain_not_special in Hd as (_ & Hd & _).
  unfold is_operator in Hd. apply bool_decide_eq_false in Hd.
  rewrite !not_elem_of_cons in Hd. destruct_and! Hd.
  unfold render_clause. cbn [fst snd]. rewrite E.
  destruct o; cbn [operator_string];
    rewrite ?string_app_cons, ?string_app_nil_l; cbn -[matchCaret];
    rewrite ?(bool_decide_false (_ = d)) by congruence; done.
Qed.

Section laws.
Context {IsValid : string → bool} {Compare : string → string → Z}.
Context {Laws : SemverLaws IsValid Compare}.

Lemma valid_asV v : wf_version v → IsValid (asV (render v)) = true.
Proof. intros H. rewrite asV_render by done. by apply valid_plain. Qed.

Lemma matchCaret_render v w :
  wf_version v → small_version w →
  matchCaret IsValid Compare ("v" +:+ render v) (render w) = Ok (sat v (OpCaret, w)).
Proof.
  intros Hv Hw. unfold matchCaret. rewrite splitSemver_render by done.
  pose proof (small_wf w Hw). destruct w as [[x y] z].
  rewrite valid_asV, asV_render by done. cbn [negb].
  rewrite compare_plain by done. rewrite sign_neg.
  unfold sat. destruct v as [[a b] c].
  case_bool_decide as E; [by rewrite bool_decide_false by naive_solver|].
  rewrite bool_decide_true by done. f_equal. simpl andb.
  destruct Hv as (? & ? & ?), Hw as (? & ? & ?).
  assert (∀ n, 0 ≤ n < int64_max → wrap64 (n + 1) = n + 1)%Z as Hwrap.
  { intros n ?. apply wrap64_id. unfold in_int64, int64_min, int64_max in *. lia. }
  unfold compare3 in E.
  destruct (Z.eqb_spec x 0) as [->|Hx].
  - rewrite Hwrap, version_string_render, compare_plain by (done || (simpl; lia)).
    rewrite sign_neg. unfold compare3.
    destruct (Z.compare_spec a 0), (Z.compare_spec b y), (Z.compare_spec b (y + 1)),
      (Z.eqb_spec a 0), (Z.eqb_spec b y), (Z.compare_spec c 0); try done; lia.
  - rewrite Hwrap, version_string_render, compare_plain
      by (simpl; lia). rewrite sign_neg. unfold compare3.
    destruct (Z.compare_spec a x), (Z.compare_spec a (x + 1)), (Z.eqb_spec a x),
      (Z.compare_spec b 0), (Z.compare_spec c 0); try done; lia.
Qed.

Lemma matchTilde_render v w :
  wf_version v → small_version w →
  matchTilde IsValid Compare ("v" +:+ render v) (render w) = Ok (sat v (OpTilde, w)).
Proof.
  intros Hv Hw. unfold matchTilde. rewrite splitSemver_render by done.
  pose proof (small_wf w Hw). destruct w as [[x y] z].
  rewrite valid_asV, asV_render by done. cbn [negb].
  rewrite compare_plain by done. rewrite sign_neg.
  unfold sat. destruct v as [[a b] c].
  case_bool_decide as E; [by rewrite bool_decide_false by naive_solver|].
  rewrite bool_decide_true by done. f_equal. simpl andb.
  destruct Hv as (? & ? & ?), Hw as (? & ? & ?).
  rewrite wrap64_id by (unfold in_int64, int64_min, int64_max in *; lia).
  rewrite version_string_render, compare_plain by (simpl; lia).
  rewrite sign_neg. unfold compare3 in *.
  destruct (Z.compare_spec a x), (Z.compare_spec b y), (Z.compare_spec b (y + 1)),
    (Z.eqb_spec a x), (Z.eqb_spec b y), (Z.compare_spec c 0); try done; lia.
Qed.

Lemma matchClause_sat v c :
  wf_version v → small_version c.2 →
  matchClause IsValid Compare ("v" +:+ render v) (render_clause c) = Ok (sat v c).
Proof.
  destruct c as [o w]. cbn [snd]. intros Hv Hw.
  rewrite matchClause_dispatch by auto with gonext.
  destruct o; [by apply matchCaret_render|by apply matchTilde_render|..];
    unfold cmpAtLeast, cmpAtMost, matchExact;
    rewrite valid_asV, asV_render by auto with gonext;
    cbn [negb]; rewrite compare_plain by auto with gonext;
    unfold sat; destruct v as [[a b] c], w as [[x y] z];
    by destruct (compare3 (a, b, c) (x, y, z)).
Qed.

Lemma match_clauses_forallb v cs :
  wf_version v → Forall (λ c, small_version c.2) cs →
  match_clauses IsValid Compare ("v" +:+ render v) (map render_clause cs) =
    Ok (forallb (sat v) cs).
Proof.
  intros Hv. induction 1 as [|c cs Hc Hcs IH]; [done|]. simpl.
  rewrite matchClause_sat by done. by destruct (sat v c).
Qed.

Lemma render_range_shape cs :
  cs ≠ [] → Forall (λ c, wf_version c.2) cs →
  ∃ s t, render_range cs = s +:+ t ∧ t ≠ "" ∧ all_chars no_space t = true ∧
    (match s with EmptyString => true | String c _ => no_space c end) = true.
Proof.
  intros Hne Hcs. unfold render_range. induction Hcs as [|c cs Hc Hcs IH]; [done|].
  pose proof (render_clause_no_space c Hc) as Hns.
  pose proof (render_clause_ne c Hc) as Hcne.
  destruct cs as [|c' cs].
  - by exists "", (render_clause c).
  - destruct IH as (s & t & E & ? & ? & _); [done|].
    change (strings.Join _ _) with
      (render_clause c +:+ " " +:+ strings.Join (map render_clause (c' :: cs)) " ").
    rewrite E.
    exists (render_clause c +:+ " " +:+ s), t.
    rewrite !string_app_assoc. split; [done|]. split; [done|]. split; [done|].
    destruct (render_clause c) as [|d u]; [done|].
    rewrite string_app_cons. simpl in Hns. by apply andb_true_iff in Hns as [? _].
Qed.

Lemma render_range_no_bar cs :
  Forall (λ c, wf_version c.2) cs → strings.Contains (render_range cs) "||" = false.
Proof.
  intros Hcs. apply Contains_cons_false. unfold render_range.
  induction Hcs as [|c cs Hc Hcs IH]; [done|].
  assert (all_chars (λ d, negb (bool_decide (d = "|"%char))) (render_clause c) = true).
  { unfold render_clause. rewrite all_chars_app.
    rewrite (plain_impl _ (render c.2)); [by destruct c.1| |by apply render_plain].
    intros d Hd. by apply plain_not_special in Hd as (_ & _ & _ & -> & _). }
  destruct cs as [|c' cs]; [done|].
  change (strings.Join _ _) with
    (render_clause c +:+ " " +:+ strings.Join (map render_clause (c' :: cs)) " ").
  rewrite !all_chars_app, IH. by rewrite H.
Qed.

(** C1. on plain MAJOR.MINOR.PATCH versions, [matchRange] decides exactly
    the documented meaning of a range: a space-separated conjunction of
    clauses, where [^1.2.3] keeps the major number (the minor one when the
    major is zero), [~1.2.3] keeps major and minor, and the comparison
    operators compare numerically. Parsing the printed range never fails. *)
Theorem matchRange_sat v cs :
  wf_version v → cs ≠ [] → Forall (λ c, small_version c.2) cs →
  matchRange IsValid Compare (render v) (render_range cs) =
    Ok (forallb (sat v) cs).
Proof.
  intros Hv Hne Hcs.
  assert (Forall (λ c, wf_version c.2) cs) as Hwf
    by (eapply Forall_impl; [exact Hcs|]; simpl; auto with gonext).
  unfold matchRange. rewrite decide_False.
  2: { by destruct (render_head v Hv) as (d & s & -> & _). }
  destruct (render_range_shape cs Hne Hwf) as (s & t & E & Ht & Hns & Hs).
  rewrite E, TrimSpace_id, <- E by done.
  assert (render_range cs ≠ "" ∧ render_range cs ≠ "*") as [? ?].
  { assert (splitClauses (render_range cs) = map render_clause cs) as Hsp
      by by apply splitClauses_render.
    split; intros E'; rewrite E' in Hsp.
    - by destruct cs.
    - destruct cs as [|[o w] [|? ?]]; [done| |done].
      inversion Hwf as [|?? Hw]; subst. cbn in Hsp, Hw.
      destruct (render_head w Hw) as (d & u & Ew & Hd).
      apply plain_not_special in Hd as (_ & _ & _ & _ & _ & _ & _ & Hd).
      apply bool_decide_eq_false in Hd.
      unfold render_clause in Hsp. cbn in Hsp. rewrite Ew in Hsp.
      by destruct o; inversion Hsp. }
  rewrite !decide_False by done. rewrite render_range_no_bar by done.
  rewrite asV_render, valid_plain by done. cbn [negb].
  rewrite splitClauses_render by done. by apply match_clauses_forallb.
Qed.
End laws.

(** ** A concrete comparison satisfying the laws *)
Module PlainSemver.
Definition core (s : string) : option version :=
  if strings.HasPrefix s "v" then
    match strings.Split "."%char (strings.drop 1 s) with
    | [a; b; c] =>
        match strconv.digits 0 a, strconv.digits 0 b, strconv.digits 0 c with
        | Some x, Some y, Some z => Some (x, y, z)
        | _, _, _ => None
        end
    | _ => None
    end
  else None.

Definition IsValid (s : string) : bool :=
  match core s with Some _ => true | None => false end.

Definition Compare (s t : string) : Z :=
  match core s, core t with
  | Some v, Some w => sign (compare3 v w)
  | Some _, None => 1
  | None, Some _ => (-1)
  | None, None => 0
  end.

Lemma core_render v : wf_version v → core ("v" +:+ render v) = Some v.
Proof.
  intros Hv. unfold core. rewrite HasPrefix_app.
  change (strings.drop 1 ("v" +:+ render v)) with (render v).
  destruct v as [[a b] c]. destruct Hv as (Ha & Hb & Hc).
  unfold render. rewrite !string_app_cons, !string_app_nil_l.
  rewrite !Split_app, Split_none by (by apply digits_not_dot).
  destruct (Itoa_digits a Ha) as (_ & -> & _).
  destruct (Itoa_digits b Hb) as (_ & -> & _).
  by destruct (Itoa_digits c Hc) as (_ & -> & _).
Qed.

#[global] Instance laws : SemverLaws IsValid Compare.
Proof.
  split.
  - intros v Hv. unfold IsValid. by rewrite core_render.
  - intros v w Hv Hw. unfold Compare. by rewrite !core_render.
Qed.
End PlainSemver.

Lemma matchRange_sat_witness :
  matchRange PlainSemver.IsValid PlainSemver.Compare "1.4.2" "^1.2.0 <2.0.0" = Ok true ∧
  matchRange PlainSemver.IsValid PlainSemver.Compare "0.3.0" "^0.2.5" = Ok false.
Proof.
  split.
  - apply (matchRange_sat (1, 4, 2)%Z [(OpCaret, (1, 2, 0)%Z); (OpLt, (2, 0, 0)%Z)]);
      [repeat split; lia|done|].
    repeat constructor; unfold int64_max; simpl; lia.
  - apply (matchRange_sat (0, 3, 0)%Z [(OpCaret, (0, 2, 5)%Z)]);
      [repeat split; lia|done|].
    repeat constructor; unfold int64_max; simpl; lia.
Defined.
