(* ===== verification/Depends.v ===== *)
(** * Dependency resolution (packages/go/plugins/depends: types, resolver, gate)

    The check of a manifest's [depends] array against the plugin registry,
    and the gate the lifecycle manager consults before an activation. *)
From S2P Require Import Prelude GoStrings Semver.

Record Dependency := mkDependency { Name : string; VersionRange : string }.

Record PluginRecord := mkPluginRecord {
  Slug : string;
  Version : string;
  Active : bool;
  Depends : list Dependency;
}.

Record Mismatch := mkMismatch { mm_Name : string; mm_Got : string; mm_Want : string }.

Record Report := mkReport {
  Missing : list string;
  Inactive : list string;
  Incompatible : list Mismatch;
}.

Definition empty_report : Report := mkReport [] [] [].

(** [Report.OK] *)
Definition OK (r : Report) : bool :=
  match Missing r, Inactive r, Incompatible r with
  | [], [], [] => true
  | _, _, _ => false
  end.

Inductive DependencyKind :=
| ErrMissingDependency
| ErrInactiveDependency
| ErrVersionMismatch
| ErrCircularDependency.

#[export] Instance DependencyKind_eq_dec : EqDecision DependencyKind.
Proof. solve_decision. Defined.

(** [DependencyError]: [Plugin] is [""] for an error of the topological sort. *)
Record DependencyError := mkDependencyError {
  Plugin : string;
  Kind : DependencyKind;
  Slugs : list string;
  Mismatches : list Mismatch;
}.

#[export] Instance Mismatch_eq_dec : EqDecision Mismatch.
Proof. solve_decision. Defined.
#[export] Instance DependencyError_eq_dec : EqDecision DependencyError.
Proof. solve_decision. Defined.

(** The errors of this package: a typed failure, or malformed input. *)
Inductive depends_error :=
| EDependency (e : DependencyError)
| EMalformed (msg : string).

(** [manifest.Dependency] and the two manifest fields the gate reads. *)
Record ManifestDependency := mkManifestDependency { md_Name : string; md_Version : string }.
Record GateManifest := mkGateManifest {
  gm_Name : string;
  gm_Depends : list ManifestDependency;
}.

(** [FromManifest] *)
Definition FromManifest (l : list ManifestDependency) : list Dependency :=
  map (λ d, mkDependency (md_Name d) (md_Version d)) l.

Section depends.
Context (IsValid : string → bool) (Compare : string → string → Z).

Abbreviation Registry := (string → option PluginRecord).

Definition add_missing (r : Report) (n : string) : Report :=
  mkReport (Missing r ++ [n]) (Inactive r) (Incompatible r).
Definition add_inactive (r : Report) (n : string) : Report :=
  mkReport (Missing r) (Inactive r ++ [n]) (Incompatible r).
Definition add_incompatible (r : Report) (m : Mismatch) : Report :=
  mkReport (Missing r) (Inactive r) (Incompatible r ++ [m]).

(** The loop of [Resolver.Check]. *)
Fixpoint check_loop (reg : Registry) (out : Report) (deps : list Dependency)
    : result depends_error Report :=
  match deps with
  | [] => Ok out
  | d :: deps' =>
      if decide (Name d = "") then Err (EMalformed "empty dependency name") else
      if decide (VersionRange d = "") then Err (EMalformed "empty version range") else
      match reg (Name d) with
      | None => check_loop reg (add_missing out (Name d)) deps'
      | Some rec =>
          if negb (Active rec) then check_loop reg (add_inactive out (Name d)) deps'
          else
            let bad := mkMismatch (Name d) (Version rec) (VersionRange d) in
            match matchRange IsValid Compare (Version rec) (VersionRange d) with
            | Err _ => check_loop reg (add_incompatible out bad) deps'
            | Ok false => check_loop reg (add_incompatible out bad) deps'
            | Ok true => check_loop reg out deps'
            end
      end
  end.

Definition mm_lt (a b : Mismatch) : bool := String.ltb (mm_Name a) (mm_Name b).

(** [Resolver.Check]; a nil [Registry] is [None]. The buckets are sorted by
    name; entries of [Incompatible] with equal names, whose order
    [sort.Slice] leaves open, keep their input order here. *)
Definition Check (reg : option Registry) (deps : list Dependency)
    : result depends_error Report :=
  match reg with
  | None => Err (EMalformed "Registry is required")
  | Some reg =>
      match deps with
      | [] => Ok empty_report
      | _ =>
          let? out := check_loop reg empty_report deps in
          Ok (mkReport (sort_strings (Missing out)) (sort_strings (Inactive out))
                (sort_by mm_lt (Incompatible out)))
      end
  end.

(** [Gate.AllowActivate]: [None] is the nil error. A nil gate is [None]. *)
Definition AllowActivate (g : option Registry) (m : option GateManifest)
    : option depends_error :=
  match g, m with
  | None, _ | _, None => None
  | Some reg, Some m =>
      match gm_Depends m with
      | [] => None
      | _ =>
          match Check (Some reg) (FromManifest (gm_Depends m)) with
          | Err e => Some e
          | Ok report =>
              if OK report then None else
              match Missing report with
              | _ :: _ =>
                  Some (EDependency (mkDependencyError (gm_Name m)
                    ErrMissingDependency (Missing report) []))
              | [] =>
                  match Inactive report with
                  | _ :: _ =>
                      Some (EDependency (mkDependencyError (gm_Name m)
                        ErrInactiveDependency (Inactive report) []))
                  | [] =>
                      Some (EDependency (mkDependencyError (gm_Name m)
                        ErrVersionMismatch (map mm_Name (Incompatible report))
                        (Incompatible report)))
                  end
              end
          end
      end
  end.

(** ** Specification: the status of one dependency *)
Inductive dep_status := Satisfied | IsMissing | IsInactive | IsIncompatible.

#[export] Instance dep_status_eq_dec : EqDecision dep_status.
Proof. solve_decision. Defined.

Definition status (reg : Registry) (d : Dependency) : dep_status :=
  match reg (Name d) with
  | None => IsMissing
  | Some rec =>
      if Active rec then
        match matchRange IsValid Compare (Version rec) (VersionRange d) with
        | Ok true => Satisfied
        | _ => IsIncompatible
        end
      else IsInactive
  end.

Definition named (reg : Registry) (s : dep_status) (deps : list Dependency)
    : list string :=
  map Name (filter (λ d, status reg d = s) deps).

Definition well_formed (d : Dependency) : Prop := Name d ≠ "" ∧ VersionRange d ≠ "".

Definition mismatch_of (reg : Registry) (d : Dependency) : Mismatch :=
  mkMismatch (Name d)
    (match reg (Name d) with Some rec => Version rec | None => "" end)
    (VersionRange d).

Lemma mismatch_of_known (reg : Registry) d rec :
  reg (Name d) = Some rec →
  mismatch_of reg d = mkMismatch (Name d) (Version rec) (VersionRange d).
Proof. unfold mismatch_of. by intros ->. Qed.

(** Decide the status of [d] from what is known of it, and compute. *)
Ltac status_case r d s :=
  assert (status r d = s) as -> by
    (unfold status; repeat match goal with H : _ = _ |- _ => rewrite H end; done);
  repeat first [rewrite decide_True by done | rewrite decide_False by done];
  cbn; try match goal with
    H : _ = Some _ |- _ => rewrite (mismatch_of_known _ _ _ H) end;
  rewrite <- ?app_assoc; done.

(** *** The loop computes the three buckets *)
Lemma check_loop_spec reg deps out :
  Forall well_formed deps →
  check_loop reg out deps =
    Ok (mkReport (Missing out ++ named reg IsMissing deps)
          (Inactive out ++ named reg IsInactive deps)
          (Incompatible out ++
             map (mismatch_of reg) (filter (λ d, status reg d = IsIncompatible) deps))).
Proof.
  intros Hwf. revert out. induction Hwf as [|d deps [Hn Hv] Hwf IH]; intros out.
  { cbn. rewrite !app_nil_r. by destruct out. }
  cbn [check_loop]. rewrite !decide_False by done.
  unfold named in *. rewrite !filter_cons.
  destruct (reg (Name d)) as [rec|] eqn:Er.
  - destruct (Active rec) eqn:Ea; cbn [negb].
    + destruct (matchRange IsValid Compare (Version rec) (VersionRange d))
        as [[]|] eqn:Em; rewrite IH.
      * status_case reg d Satisfied.
      * status_case reg d IsIncompatible.
      * status_case reg d IsIncompatible.
    + rewrite IH. status_case reg d IsInactive.
  - rewrite IH. status_case reg d IsMissing.
Qed.

Lemma check_loop_malformed reg deps out :
  ¬ Forall well_formed deps → ∃ msg, check_loop reg out deps = Err (EMalformed msg).
Proof.
  revert out. induction deps as [|d deps IH]; intros out H.
  { destruct H. constructor. }
  cbn [check_loop].
  case_decide as Hn; [eauto|]. case_decide as Hv; [eauto|].
  assert (¬ Forall well_formed deps) as Hd.
  { intros Hd. apply H. by constructor. }
  repeat case_match; eauto.
Qed.

Definition offenders (reg : Registry) (s : dep_status) (deps : list Dependency)
    : list Dependency := filter (λ d, status reg d = s) deps.

Lemma offenders_nil reg s deps :
  offenders reg s deps = [] ↔ Forall (λ d, status reg d ≠ s) deps.
Proof.
  unfold offenders. rewrite Forall_forall. split.
  - intros E d Hd Hs.
    assert (d ∈ filter (λ d, status reg d = s) deps) as Hin
      by by apply list_elem_of_filter.
    rewrite E in Hin. by apply not_elem_of_nil in Hin.
  - intros H. destruct (filter _ _) as [|d l] eqn:E; [done|].
    assert (d ∈ filter (λ d, status reg d = s) deps) as Hin by (rewrite E; left).
    apply list_elem_of_filter in Hin as [? ?]. by destruct (H d).
Qed.

(** What the gate answers, given the status of every dependency. *)
Definition gate_spec (plugin : string) (reg : Registry) (deps : list Dependency)
    : option depends_error :=
  let fail k slugs mm := Some (EDependency (mkDependencyError plugin k slugs mm)) in
  match offenders reg IsMissing deps, offenders reg IsInactive deps,
        offenders reg IsIncompatible deps with
  | (_ :: _) as l, _, _ => fail ErrMissingDependency (sort_strings (map Name l)) []
  | [], (_ :: _) as l, _ => fail ErrInactiveDependency (sort_strings (map Name l)) []
  | [], [], (_ :: _) as l =>
      let mm := sort_by mm_lt (map (mismatch_of reg) l) in
      fail ErrVersionMismatch (map mm_Name mm) mm
  | [], [], [] => None
  end.

Lemma length_sort_by {A} (lt : A → A → bool) l : length (sort_by lt l) = length l.
Proof. by rewrite sort_by_Permutation. Qed.

Lemma AllowActivate_spec reg m :
  Forall well_formed (FromManifest (gm_Depends m)) →
  AllowActivate (Some reg) (Some m) =
    gate_spec (gm_Name m) reg (FromManifest (gm_Depends m)).
Proof.
  intros Hwf. unfold AllowActivate, Check, gate_spec.
  destruct (gm_Depends m) as [|d0 ds]; [done|].
  change (FromManifest (d0 :: ds)) with
    (mkDependency (md_Name d0) (md_Version d0) :: FromManifest ds) in *.
  rewrite check_loop_spec by done. unfold named.
  fold (offenders reg IsMissing (mkDependency (md_Name d0) (md_Version d0) :: FromManifest ds)).
  fold (offenders reg IsInactive (mkDependency (md_Name d0) (md_Version d0) :: FromManifest ds)).
  fold (offenders reg IsIncompatible (mkDependency (md_Name d0) (md_Version d0) :: FromManifest ds)).
  cbn [Missing Inactive Incompatible empty_report app].
  set (lm := offenders reg IsMissing _). set (li := offenders reg IsInactive _).
  set (lv := offenders reg IsIncompatible _).
  clearbody lm li lv. unfold OK. cbn [Missing Inactive Incompatible].
  assert (∀ l : list Dependency, l ≠ [] → sort_strings (map Name l) ≠ []) as Hne.
  { intros [|d l] ? E; [done|].
    by pose proof (length_sort_strings (map Name (d :: l))) as Hl; rewrite E in Hl. }
  assert (∀ l, l ≠ [] → sort_by mm_lt (map (mismatch_of reg) l) ≠ []) as Hne'.
  { intros [|d l] ? E; [done|].
    by pose proof (length_sort_by mm_lt (map (mismatch_of reg) (d :: l))) as Hl;
      rewrite E in Hl. }
  specialize (Hne lm) as Hm. specialize (Hne li) as Hi. specialize (Hne' lv) as Hv.
  destruct lm as [|d1 lm]; [|by destruct (sort_strings (map Name (d1 :: lm))); naive_solver].
  destruct li as [|d1 li]; [|by destruct (sort_strings (map Name (d1 :: li))); naive_solver].
  destruct lv as [|d1 lv]; [done|].
  by destruct (sort_by mm_lt (map (mismatch_of reg) (d1 :: lv))); naive_solver.
Qed.

Lemma AllowActivate_malformed reg m :
  ¬ Forall well_formed (FromManifest (gm_Depends m)) →
  ∃ msg, AllowActivate (Some reg) (Some m) = Some (EMalformed msg).
Proof.
  unfold AllowActivate, Check. destruct (gm_Depends m) as [|d0 ds]; intros Hwf.
  { destruct Hwf. constructor. }
  change (FromManifest (d0 :: ds)) with
    (mkDependency (md_Name d0) (md_Version d0) :: FromManifest ds) in *.
  destruct (check_loop_malformed reg _ empty_report Hwf) as (msg & ->). eauto.
Qed.

(** C2. the gate lets a plugin activate exactly when every entry of its
    [depends] array is well formed and names a plugin that is installed,
    active, and at a version inside the requested range. *)
Theorem AllowActivate_iff reg m :
  AllowActivate (Some reg) (Some m) = None ↔
    Forall (λ d, well_formed d ∧
        ∃ rec, reg (Name d) = Some rec ∧ Active rec = true ∧
          matchRange IsValid Compare (Version rec) (VersionRange d) = Ok true)
      (FromManifest (gm_Depends m)).
Proof.
  assert (∀ d, status reg d = Satisfied ↔
    ∃ rec, reg (Name d) = Some rec ∧ Active rec = true ∧
      matchRange IsValid Compare (Version rec) (VersionRange d) = Ok true) as Hst.
  { intros d. unfold status. split.
    - intros H. repeat (case_match; try done). eauto.
    - intros (rec & -> & -> & ->). done. }
  destruct (decide (Forall well_formed (FromManifest (gm_Depends m)))) as [Hwf|Hwf].
  - rewrite AllowActivate_spec by done. rewrite Forall_and.
    setoid_rewrite <- Hst. unfold gate_spec.
    pose proof (offenders_nil reg IsMissing (FromManifest (gm_Depends m))) as Hm.
    pose proof (offenders_nil reg IsInactive (FromManifest (gm_Depends m))) as Hi.
    pose proof (offenders_nil reg IsIncompatible (FromManifest (gm_Depends m))) as Hv.
    split.
    + intros E. split; [done|]. repeat (case_match; try done).
      destruct Hm as [Hm _], Hi as [Hi _], Hv as [Hv _].
      specialize (Hm eq_refl). specialize (Hi eq_refl). specialize (Hv eq_refl).
      rewrite !Forall_forall in *. intros d Hd.
      specialize (Hm d Hd). specialize (Hi d Hd). specialize (Hv d Hd).
      by destruct (status reg d).
    + intros [_ H]. rewrite (proj2 Hm), (proj2 Hi), (proj2 Hv); [done|..];
        (eapply Forall_impl; [exact H|]); simpl; congruence.
  - split.
    + destruct (AllowActivate_malformed reg m Hwf) as (msg & ->). done.
    + intros H. destruct Hwf. eapply Forall_impl; [exact H|]. by intros d [? _].
Qed.

Definition kind_status (k : DependencyKind) : dep_status :=
  match k with
  | ErrMissingDependency => IsMissing
  | ErrInactiveDependency => IsInactive
  | _ => IsIncompatible
  end.

(** The severity order of the documentation: missing, inactive, mismatch. *)
Definition rank (s : dep_status) : nat :=
  match s with IsMissing => 0 | IsInactive => 1 | IsIncompatible => 2 | Satisfied => 3 end.

Lemma map_sort_mismatch reg l x :
  x ∈ map mm_Name (sort_by mm_lt (map (mismatch_of reg) l)) ↔ x ∈ map Name l.
Proof.
  rewrite sort_by_Permutation. by rewrite map_map.
Qed.

(** When the gate refuses, the error names the plugin, its kind is the
    most severe failure among the dependencies (missing before inactive
    before version mismatch), and its slugs are exactly the dependencies
    that fail that way: at least one, and none that passed. *)
Theorem AllowActivate_priority reg m e :
  AllowActivate (Some reg) (Some m) = Some (EDependency e) →
  Plugin e = gm_Name m ∧ Kind e ≠ ErrCircularDependency ∧ Slugs e ≠ [] ∧
  (∀ n, n ∈ Slugs e ↔ ∃ d, d ∈ FromManifest (gm_Depends m) ∧ Name d = n ∧
     status reg d = kind_status (Kind e)) ∧
  (∀ d, d ∈ FromManifest (gm_Depends m) →
     rank (kind_status (Kind e)) ≤ rank (status reg d)).
Proof.
  set (deps := FromManifest (gm_Depends m)). intros E.
  destruct (decide (Forall well_formed deps)) as [Hwf|Hwf].
  2: { by destruct (AllowActivate_malformed reg m Hwf) as (msg & E'); congruence. }
  rewrite AllowActivate_spec in E by done. fold deps in E. unfold gate_spec in E.
  assert (∀ s n, n ∈ map Name (offenders reg s deps) ↔
    ∃ d, d ∈ deps ∧ Name d = n ∧ status reg d = s) as Hin.
  { intros s n. rewrite list_elem_of_fmap. unfold offenders.
    setoid_rewrite list_elem_of_filter. naive_solver. }
  assert (∀ s, offenders reg s deps = [] → ∀ d, d ∈ deps → status reg d ≠ s) as Hnone.
  { intros s Hs. apply offenders_nil in Hs. by rewrite Forall_forall in Hs. }
  pose proof (Hin IsMissing) as Hm. pose proof (Hin IsInactive) as Hi.
  pose proof (Hin IsIncompatible) as Hv.
  destruct (offenders reg IsMissing deps) as [|d1 l1] eqn:E1;
    [specialize (Hnone _ E1) as N1;
     destruct (offenders reg IsInactive deps) as [|d2 l2] eqn:E2;
     [specialize (Hnone _ E2) as N2;
      destruct (offenders reg IsIncompatible deps) as [|d3 l3] eqn:E3; [done|]|]|];
    match type of E with Some (EDependency ?r) = _ => assert (r = e) as <- by congruence end;
    cbn [Plugin Kind Slugs kind_status rank].
  - split_and!; [done|done| | |].
    + intros Hnil. apply (f_equal length) in Hnil.
      by rewrite length_map, length_sort_by in Hnil.
    + intros n. rewrite map_sort_mismatch. apply Hv.
    + intros d Hd. specialize (N1 d Hd). specialize (N2 d Hd).
      destruct (status reg d); simpl; done || lia.
  - split_and!; [done|done| | |].
    + intros Hnil. apply (f_equal length) in Hnil. by rewrite length_sort_strings in Hnil.
    + intros n. rewrite elem_of_sort_strings. apply Hi.
    + intros d Hd. specialize (N1 d Hd). destruct (status reg d); simpl; done || lia.
  - split_and!; [done|done| | |].
    + intros Hnil. apply (f_equal length) in Hnil. by rewrite length_sort_strings in Hnil.
    + intros n. rewrite elem_of_sort_strings. apply Hm.
    + intros d Hd. lia.
Qed.
End depends.

(** A registry with one inactive and no other plugin: two dependencies are
    missing, one is inactive; the missing ones are reported. *)
Definition example_registry (name : string) : option PluginRecord :=
  if decide (name = "forms") then Some (mkPluginRecord "forms" "1.0.0" false []) else None.

Definition example_manifest : GateManifest :=
  mkGateManifest "shop" [mkManifestDependency "forms" "*";
    mkManifestDependency "seo" "^1.0.0"; mkManifestDependency "cart" "*"].

Lemma AllowActivate_priority_witness :
  AllowActivate PlainSemver.IsValid PlainSemver.Compare
      (Some example_registry) (Some example_manifest) =
    Some (EDependency (mkDependencyError "shop" ErrMissingDependency ["cart"; "seo"] [])) ∧
  (∀ n, n ∈ ["cart"; "seo"] ↔ ∃ d, d ∈ FromManifest (gm_Depends example_manifest) ∧
     Name d = n ∧
     status PlainSemver.IsValid PlainSemver.Compare example_registry d = IsMissing).
Proof.
  assert (AllowActivate PlainSemver.IsValid PlainSemver.Compare
      (Some example_registry) (Some example_manifest) =
    Some (EDependency (mkDependencyError "shop" ErrMissingDependency ["cart"; "seo"] [])))
    as E by (vm_compute; reflexivity).
  split; [exact E|].
  exact (proj1 (proj2 (proj2 (proj2
    (AllowActivate_priority _ _ example_registry example_manifest _ E))))).
Defined.
