(* ===== verification/Topo.v ===== *)
(** * Activation order (packages/go/plugins/depends/topo.go)

    Kahn's algorithm over a batch of plugin slugs. Go iterates over a map in
    an unspecified order; [iter], any enumeration of a set of slugs, stands
    for that order, and the theorems hold for every [iter]. *)
From S2P Require Import Prelude Graph Depends.

(** [in[s]] of a Go [map[string]int]: a missing key reads as zero. *)
Definition get (m : gmap string Z) (s : string) : Z := default 0%Z (m !! s).
Definition get_list (m : gmap string (list string)) (s : string) : list string :=
  default [] (m !! s).

(** The inner loop: each slug that depended on the popped one loses an
    in-edge; those that reach zero are returned in [newly]. *)
Fixpoint release (ind : gmap string Z) (deps newly : list string)
    : gmap string Z * list string :=
  match deps with
  | [] => (ind, newly)
  | dep :: deps' =>
      let n := (get ind dep - 1)%Z in
      let ind := <[dep := n]> ind in
      release ind deps' (if (n =? 0)%Z then newly ++ [dep] else newly)
  end.

(** Occurrences of [x] in a list. *)
Definition occ (x : string) (l : list string) : Z :=
  Z.of_nat (length (filter (λ y, y = x) l)).

Lemma occ_cons x y l : occ x (y :: l) = ((if decide (y = x) then 1 else 0) + occ x l)%Z.
Proof. unfold occ. rewrite filter_cons. case_decide; simpl; lia. Qed.

Lemma occ_app x l k : occ x (l ++ k) = (occ x l + occ x k)%Z.
Proof. unfold occ. rewrite filter_app, length_app. lia. Qed.

Lemma occ_nonneg x l : (0 ≤ occ x l)%Z.
Proof. unfold occ. lia. Qed.

Lemma occ_pos x l : (0 < occ x l)%Z ↔ x ∈ l.
Proof.
  induction l as [|y l IH]; [by rewrite elem_of_nil|].
  rewrite occ_cons, elem_of_cons. pose proof (occ_nonneg x l).
  case_decide as E; [subst; split; [by left|lia]|].
  rewrite Z.add_0_l, IH. split; [by right|]. by intros [->|?].
Qed.

Lemma get_insert m s n x :
  get (<[s := n]> m) x = if decide (s = x) then n else get m x.
Proof. unfold get. rewrite lookup_insert. by case_decide. Qed.

Lemma get_list_insert m s l x :
  get_list (<[s := l]> m) x = if decide (s = x) then l else get_list m x.
Proof. unfold get_list. rewrite lookup_insert. by case_decide. Qed.

(** ** The inner loop *)
Lemma release_spec deps : ∀ ind newly,
  (∀ x, x ∈ deps → occ x deps ≤ get ind x)%Z →
  ∃ ind' fresh,
    release ind deps newly = (ind', newly ++ fresh) ∧
    (∀ x, get ind' x = get ind x - occ x deps)%Z ∧
    NoDup fresh ∧
    (∀ x, x ∈ fresh ↔ x ∈ deps ∧ get ind x = occ x deps).
Proof.
  induction deps as [|d deps IH]; intros ind newly Hle.
  { exists ind, []. rewrite app_nil_r. split_and!; [done| |constructor|].
    - intros x. unfold occ. simpl. lia.
    - intros x. rewrite elem_of_nil; tauto. }
  cbn [release]. set (n := (get ind d - 1)%Z).
  pose proof (Hle d ltac:(left)) as Hd. rewrite occ_cons, decide_True in Hd by done.
  pose proof (occ_nonneg d deps) as Hn.
  edestruct (IH (<[d := n]> ind)) as (ind' & fresh & Hrun & Hget & Hnd & Hfresh).
  { intros x Hx. rewrite get_insert. case_decide as E; [subst x; lia|].
    assert (x ∈ d :: deps) as Hx' by (by apply elem_of_cons; right).
    pose proof (Hle x Hx') as H. rewrite occ_cons, decide_False in H by done.
    lia. }
  rewrite Hrun. exists ind'.
  assert (∀ x, get ind' x = get ind x - occ x (d :: deps))%Z as Hget'.
  { intros x. rewrite Hget, get_insert, occ_cons.
    repeat case_decide; subst; try done; lia. }
  destruct (Z.eqb_spec n 0) as [Hn0|Hn0].
  - exists (d :: fresh). rewrite <- app_assoc. split_and!; [done|done| |].
    + constructor; [|done]. rewrite Hfresh, get_insert, decide_True by done.
      rewrite <- occ_pos. lia.
    + intros x. rewrite !elem_of_cons, Hfresh, get_insert, occ_cons.
      destruct (decide (d = x)) as [->|Hne].
      * split; [intros _; split; [by left|lia]|by left].
      * split; [intros [->|[? ?]]; [done|split; [by right|lia]]|].
        intros [[->|?] ?]; [done|]. right. split; [done|lia].
  - exists fresh. split_and!; [done|done|done|].
    intros x. rewrite elem_of_cons, Hfresh, get_insert, occ_cons.
    destruct (decide (d = x)) as [<-|Hne].
    + rewrite <- occ_pos. split; [lia|]. intros [_ ?]. lia.
    + split; [intros [? ?]; split; [by right|lia]|].
      intros [[->|?] ?]; [done|]. split; [done|lia].
Qed.


Section topo.
Context (graph : string → list string).
Context (iter : gset string → list string).

Definition want (pending : list string) : gset string := list_to_set pending.

(** The edge-building loops: [in_] counts the edges into a slug from the
    batch, [out] lists the slugs that depend on it. *)
Record edges := mkEdges { in_ : gmap string Z; out : gmap string (list string) }.

Definition add_dep (W : gset string) (s : string) (e : edges) (dep : string) : edges :=
  if decide (dep ∈ W) then
    mkEdges (<[s := (get (in_ e) s + 1)%Z]> (in_ e))
      (<[dep := get_list (out e) dep ++ [s]]> (out e))
  else e.

Definition add_slug (W : gset string) (e : edges) (s : string) : edges :=
  foldl (add_dep W s) e (graph s).

Definition zero_degrees (W : gset string) : gmap string Z :=
  foldl (λ m s, <[s := 0%Z]> m) ∅ (iter W).

Definition build (W : gset string) : edges :=
  foldl (add_slug W) (mkEdges (zero_degrees W) ∅) (iter W).

(** The main loop; [None] is out of fuel. *)
Fixpoint kahn (fuel : nat) (ind : gmap string Z) (outm : gmap string (list string))
    (ready order : list string) : option (gmap string Z * list string) :=
  match fuel with
  | O => None
  | S fuel' =>
      match ready with
      | [] => Some (ind, order)
      | s :: ready' =>
          let '(ind, newly) := release ind (get_list outm s) [] in
          let ready'' :=
            match newly with [] => ready' | _ => sort_strings (ready' ++ newly) end in
          kahn fuel' ind outm ready'' (order ++ [s])
      end
  end.

(** [TopologicalSort]; [None] would be a run that does not end within
    [length pending + 1] rounds (it never happens, see
    [kahn_total]). *)
Definition TopologicalSort (pending : list string)
    : option (result DependencyError (list string)) :=
  match pending with
  | [] => Some (Ok [])
  | _ =>
      let W := want pending in
      let e := build W in
      let ready := sort_strings (filter (λ s, get (in_ e) s = 0%Z) (iter W)) in
      match kahn (S (length pending)) (in_ e) (out e) ready [] with
      | None => None
      | Some (ind, order) =>
          if decide (length order = length pending) then Some (Ok order)
          else Some (Err (mkDependencyError "" ErrCircularDependency
                 (sort_strings (filter (λ s, (0 < get ind s)%Z) (iter W))) []))
      end
  end.

(** ** The dependency relation inside a batch *)
Definition needs (W : gset string) : relation string :=
  λ s d, s ∈ W ∧ d ∈ W ∧ d ∈ graph s.

(** In-batch dependencies of [s] not yet in [order], with multiplicity. *)
Definition missing (W : gset string) (order : list string) (s : string) : list string :=
  filter (λ d, d ∈ W ∧ d ∉ order) (graph s).

(** ** The edge maps *)
Definition indeg (W : gset string) (order : list string) (s : string) : Z :=
  Z.of_nat (length (missing W order s)).

Lemma add_dep_fold W s : ∀ ds e,
  let e' := foldl (add_dep W s) e ds in
  (∀ x, get (in_ e') x = get (in_ e) x +
     if decide (s = x) then Z.of_nat (length (filter (λ d, d ∈ W) ds)) else 0)%Z ∧
  (∀ x d, occ x (get_list (out e') d) = occ x (get_list (out e) d) +
     if decide (s = x ∧ d ∈ W) then occ d ds else 0)%Z.
Proof using. clear.
  induction ds as [|d0 ds IH]; intros e; cbn [foldl].
  { split; intros; unfold occ; repeat case_decide; simpl; lia. }
  destruct (IH (add_dep W s e d0)) as [Hin Hout]. cbn zeta in *.
  split.
  - intros x. rewrite Hin, filter_cons. unfold add_dep.
    destruct (decide (d0 ∈ W)); [|done]. cbn [in_].
    rewrite get_insert. destruct (decide (s = x)); subst; simpl; lia.
  - intros x d. rewrite Hout, occ_cons. unfold add_dep.
    destruct (decide (d0 ∈ W)) as [Hd0|Hd0]; cbn [out].
    + rewrite get_list_insert. destruct (decide (d0 = d)) as [->|Hne].
      * rewrite occ_app, occ_cons. change (occ x []) with 0%Z.
        destruct (decide (s = x)) as [->|Hx].
        -- rewrite !decide_True by done. lia.
        -- rewrite !decide_False by tauto. lia.
      * case_decide; lia.
    + destruct (decide (d0 = d)) as [->|Hne];
        [rewrite !decide_False by tauto; lia|case_decide; lia].
Qed.

Lemma add_slug_fold W : ∀ l e,
  let e' := foldl (add_slug W) e l in
  (∀ x, get (in_ e') x = get (in_ e) x + occ x l * indeg W [] x)%Z ∧
  (∀ x d, occ x (get_list (out e') d) = occ x (get_list (out e) d) +
     occ x l * if decide (d ∈ W) then occ d (graph x) else 0)%Z.
Proof using. clear.
  assert (∀ x, Z.of_nat (length (filter (λ d, d ∈ W) (graph x))) = indeg W [] x) as Hdeg.
  { intros x. unfold indeg, missing. do 2 f_equal. apply list_filter_iff.
    intros d. rewrite elem_of_nil. tauto. }
  induction l as [|s l IH]; intros e; cbn [foldl].
  { split; intros; unfold occ; simpl; lia. }
  destruct (IH (add_slug W e s)) as [Hin Hout].
  destruct (add_dep_fold W s (graph s) e) as [Hin' Hout']. cbn zeta in *.
  unfold add_slug in *. split.
  - intros x. rewrite Hin, Hin', occ_cons. case_decide; subst; rewrite ?Hdeg; lia.
  - intros x d. rewrite Hout, Hout', occ_cons.
    destruct (decide (s = x)) as [->|Hne], (decide (d ∈ W));
      rewrite ?(decide_True (P := _ ∧ _)), ?(decide_False (P := _ ∧ _)) by tauto; lia.
Qed.

Context (iter_perm : ∀ W, iter W ≡ₚ elements W).

Lemma occ_iter W x : occ x (iter W) = if decide (x ∈ W) then 1%Z else 0%Z.
Proof using iter_perm.
  unfold occ. rewrite (iter_perm W).
  assert (NoDup (elements W)) as Hnd by apply NoDup_elements.
  assert (x ∈ elements W ↔ x ∈ W) as Hin by apply elem_of_elements.
  revert Hin. generalize (elements W), Hnd. clear. intros l Hnd Hin.
  assert (Z.of_nat (length (filter (λ y, y = x) l)) =
    if decide (x ∈ l) then 1%Z else 0%Z) as ->.
  { clear Hin. induction Hnd as [|y l Hy Hnd IH]; [done|].
    rewrite filter_cons. destruct (decide (y = x)) as [->|Hne].
    - rewrite (decide_True (P := x ∈ x :: l)) by (by left).
      simpl. rewrite decide_False in IH by done. lia.
    - rewrite IH. destruct (decide (x ∈ l)).
      + by rewrite decide_True by (by right).
      + by rewrite decide_False by (by intros [->|?]%elem_of_cons). }
  destruct (decide (x ∈ l)), (decide (x ∈ W)); done || tauto.
Qed.

Lemma get_zero W x : get (zero_degrees W) x = 0%Z.
Proof using. clear.
  unfold zero_degrees. assert (get ∅ x = 0%Z) as H0 by done. revert H0.
  generalize (∅ : gmap string Z). induction (iter W) as [|s l IH]; intros m Hm; [done|].
  simpl. apply IH. rewrite get_insert. by case_decide.
Qed.

Lemma build_spec W :
  (∀ x, get (in_ (build W)) x = if decide (x ∈ W) then indeg W [] x else 0)%Z ∧
  (∀ x d, occ x (get_list (out (build W)) d) =
     if decide (x ∈ W ∧ d ∈ W) then occ d (graph x) else 0)%Z.
Proof using iter_perm.
  unfold build.
  destruct (add_slug_fold W (iter W) (mkEdges (zero_degrees W) ∅)) as [Hin Hout].
  cbn zeta in *. split.
  - intros x. rewrite Hin, occ_iter. cbn [in_]. rewrite get_zero. case_decide; lia.
  - intros x d. rewrite Hout, occ_iter. cbn [out].
    change (occ x (get_list ∅ d)) with 0%Z.
    destruct (decide (x ∈ W)), (decide (d ∈ W));
      rewrite ?(decide_True (P := _ ∧ _)), ?(decide_False (P := _ ∧ _)) by tauto; lia.
Qed.

(** ** The loop invariant *)
Record kahn_inv (W : gset string) (ind : gmap string Z)
    (outm : gmap string (list string)) (ready order : list string) : Prop := {
  inv_prefix : topo_prefix (needs W) order;
  inv_nodup : NoDup (order ++ ready);
  inv_zero : ∀ s, s ∈ order ++ ready ↔ s ∈ W ∧ indeg W order s = 0%Z;
  inv_in : ∀ s, s ∈ W → get ind s = indeg W order s;
  inv_out : ∀ x d, occ x (get_list outm d) =
    if decide (x ∈ W ∧ d ∈ W) then occ d (graph x) else 0%Z;
}.

Lemma indeg_nonneg W order x : (0 ≤ indeg W order x)%Z.
Proof using. clear. unfold indeg. lia. Qed.

Lemma indeg_zero W order x d :
  indeg W order x = 0%Z → d ∈ W → d ∈ graph x → d ∈ order.
Proof using. clear.
  unfold indeg, missing. intros H Hd Hg.
  destruct (decide (d ∈ order)); [done|].
  assert (d ∈ filter (λ d, d ∈ W ∧ d ∉ order) (graph x)) as Hin
    by by apply list_elem_of_filter.
  destruct (filter _ _); [by apply not_elem_of_nil in Hin|simpl in H; lia].
Qed.

(** Adding [s] to the order removes its occurrences. *)
Lemma indeg_snoc W order s x :
  s ∈ W → s ∉ order →
  indeg W order x = (indeg W (order ++ [s]) x + occ s (graph x))%Z.
Proof using. clear.
  intros Hs Ho. unfold indeg, missing.
  induction (graph x) as [|d ds IH]; [done|].
  rewrite !filter_cons, occ_cons. destruct (decide (d = s)) as [->|Hne].
  - rewrite decide_True by done. rewrite decide_False by set_solver. simpl. lia.
  - destruct (decide (d ∈ W ∧ d ∉ order)) as [H|H].
    + rewrite decide_True by set_solver. simpl. lia.
    + rewrite decide_False by set_solver. lia.
Qed.

Definition next_ready (ready' newly : list string) : list string :=
  match newly with [] => ready' | _ => sort_strings (ready' ++ newly) end.

Lemma next_ready_perm ready' newly : next_ready ready' newly ≡ₚ ready' ++ newly.
Proof using. clear.
  destruct newly; simpl; [by rewrite app_nil_r|apply sort_strings_Permutation].
Qed.

Lemma kahn_inv_step W ind outm s ready' order :
  kahn_inv W ind outm (s :: ready') order →
  ∃ ind' fresh,
    release ind (get_list outm s) [] = (ind', fresh) ∧
    kahn_inv W ind' outm (next_ready ready' fresh) (order ++ [s]).
Proof using. clear.
  intros [Hpre Hnd Hzero Hin Hout].
  destruct (proj1 (Hzero s) ltac:(set_solver)) as [HsW Hs0].
  assert (s ∉ order) as Hso by (apply NoDup_app in Hnd as (_ & H & _); set_solver).
  assert (∀ x, x ∈ W → occ x (get_list outm s) = occ s (graph x)) as Hocc.
  { intros x Hx. by rewrite Hout, decide_True. }
  assert (∀ x, x ∈ get_list outm s → x ∈ W) as HoutW.
  { intros x Hx. apply occ_pos in Hx. rewrite Hout in Hx. case_decide; [tauto|lia]. }
  destruct (release_spec (get_list outm s) ind []) as
    (ind' & fresh & Hrun & Hget & Hfnd & Hfresh).
  { intros x Hx. rewrite Hin, Hocc, (indeg_snoc W order s) by auto.
    pose proof (indeg_nonneg W (order ++ [s]) x). lia. }
  assert (∀ x, x ∈ fresh ↔ x ∈ W ∧ s ∈ graph x ∧ indeg W (order ++ [s]) x = 0%Z) as Hfr.
  { intros x. rewrite Hfresh. split.
    - intros [Hx Hg]. pose proof (HoutW x Hx) as HxW.
      rewrite Hin, Hocc, (indeg_snoc W order s) in Hg by auto.
      apply occ_pos in Hx. rewrite Hocc in Hx by done.
      split_and!; [done|by apply occ_pos|lia].
    - intros (HxW & Hsx & H0). apply occ_pos in Hsx.
      rewrite <- occ_pos, Hin, Hocc, (indeg_snoc W order s) by auto. lia. }
  exists ind', fresh. split; [done|]. split; [| | | |done].
  - apply topo_snoc; [done..|]. intros d (_ & Hd & Hg). by eapply indeg_zero.
  - rewrite next_ready_perm, app_assoc. apply NoDup_app.
    rewrite <- (app_assoc order). split; [exact Hnd|]. split; [|done].
    intros x Hx Hxf. apply Hzero in Hx as [_ Hx0]. apply Hfr in Hxf as (_ & Hsx & _).
    apply Hso. by eapply indeg_zero.
  - intros x. rewrite next_ready_perm, app_assoc, <- (app_assoc order), elem_of_app.
    change (order ++ [s] ++ ready') with (order ++ s :: ready').
    rewrite Hzero, Hfr. pose proof (indeg_nonneg W (order ++ [s]) x).
    pose proof (indeg_snoc W order s x HsW Hso) as Hsn.
    pose proof (occ_nonneg s (graph x)).
    split; [intros [[? ?]|(? & ? & ?)]; split; done || lia|].
    intros [HxW Hz]. destruct (decide (s ∈ graph x)) as [Hsx|Hsx]; [by right|].
    left. split; [done|]. rewrite <- occ_pos in Hsx. lia.
  - intros x HxW. rewrite Hget, Hin, Hocc, (indeg_snoc W order s) by auto. lia.
Qed.

Lemma kahn_inv_size W ind outm ready order :
  kahn_inv W ind outm ready order → length (order ++ ready) ≤ size W.
Proof using. clear.
  intros H. unfold size, set_size. simpl. apply submseteq_length, NoDup_submseteq.
  - apply H.
  - intros x Hx. apply elem_of_elements. by apply (inv_zero _ _ _ _ _ H) in Hx as [? _].
Qed.

(** Enough fuel is one unit more than the slugs left to place. *)
Lemma kahn_total W fuel : ∀ ind outm ready order,
  kahn_inv W ind outm ready order → size W < fuel + length order →
  ∃ ind' order', kahn fuel ind outm ready order = Some (ind', order') ∧
    kahn_inv W ind' outm [] order'.
Proof using. clear.
  induction fuel as [|fuel IH]; intros ind outm ready order Hinv Hf.
  { apply kahn_inv_size in Hinv. rewrite length_app in Hinv. lia. }
  destruct ready as [|s ready']; cbn [kahn]; [by eauto|].
  destruct (kahn_inv_step _ _ _ _ _ _ Hinv) as (ind' & fresh & Hrun & Hinv').
  rewrite Hrun. apply (IH ind' outm (next_ready ready' fresh)); [done|].
  rewrite length_app. simpl. lia.
Qed.

Definition first_ready (W : gset string) : list string :=
  sort_strings (filter (λ s, get (in_ (build W)) s = 0%Z) (iter W)).

Lemma kahn_inv_init W :
  kahn_inv W (in_ (build W)) (out (build W)) (first_ready W) [].
Proof using iter_perm.
  destruct (build_spec W) as [Hin Hout]. unfold first_ready. split.
  - constructor.
  - simpl. rewrite sort_strings_Permutation. apply NoDup_filter.
    rewrite iter_perm. apply NoDup_elements.
  - intros s. simpl. rewrite elem_of_sort_strings, list_elem_of_filter, iter_perm,
      elem_of_elements, Hin. case_decide; naive_solver.
  - intros s Hs. by rewrite Hin, decide_True.
  - apply Hout.
Qed.

Lemma size_want pending : size (want pending) ≤ length pending.
Proof using. clear.
  unfold want, size, set_size. simpl. apply submseteq_length, NoDup_submseteq.
  - apply NoDup_elements.
  - intros x. by rewrite elem_of_elements, elem_of_list_to_set.
Qed.

Definition finish (pending : list string) (r : gmap string Z * list string)
    : result DependencyError (list string) :=
  if decide (length r.2 = length pending) then Ok r.2
  else Err (mkDependencyError "" ErrCircularDependency
         (sort_strings (filter (λ s, (0 < get r.1 s)%Z) (iter (want pending)))) []).

(** Every run ends, in a state satisfying the invariant with nothing ready. *)
Lemma TopologicalSort_run pending :
  ∃ ind outm order,
    TopologicalSort pending = Some (finish pending (ind, order)) ∧
    kahn_inv (want pending) ind outm [] order.
Proof using iter_perm.
  destruct (kahn_total (want pending) (S (length pending)) _ _ _ _
    (kahn_inv_init (want pending))) as (ind & order & Hrun & Hinv).
  { pose proof (size_want pending). simpl. lia. }
  exists ind, (out (build (want pending))), order. split; [|done].
  unfold TopologicalSort. destruct pending as [|p ps].
  { assert (order = []) as ->; [|done].
    apply kahn_inv_size in Hinv. pose proof (size_want []) as H0.
    rewrite app_nil_r in Hinv. simpl in H0. destruct order; [done|simpl in *; lia]. }
  fold (first_ready (want (p :: ps))). cbn zeta. rewrite Hrun.
  unfold finish. cbn [fst snd]. by case_decide.
Qed.

(** What the final state says, for an answer of either kind. *)
Lemma final_order W ind outm order :
  kahn_inv W ind outm [] order →
  (∀ s, s ∈ order → s ∈ W) ∧ NoDup order ∧ topo_prefix (needs W) order ∧
  (∀ s, s ∈ W → s ∉ order → (0 < get ind s)%Z ∧
     ∃ d, d ∈ W ∧ d ∉ order ∧ needs W s d) ∧
  (∀ s, s ∈ order → get ind s = 0%Z).
Proof using. clear.
  intros [Hpre Hnd Hzero Hin _]. rewrite app_nil_r in Hnd.
  setoid_rewrite app_nil_r in Hzero. split_and!; [|done|done| |].
  - intros s Hs. by apply Hzero in Hs as [? _].
  - intros s Hs Ho. assert (indeg W order s ≠ 0%Z) as Hne by (rewrite Hzero in Ho; tauto).
    pose proof (indeg_nonneg W order s). rewrite Hin by done. split; [lia|].
    unfold indeg, missing in Hne.
    destruct (filter _ (graph s)) as [|d l] eqn:E; [done|].
    assert (d ∈ filter (λ d, d ∈ W ∧ d ∉ order) (graph s)) as Hd by (rewrite E; left).
    apply list_elem_of_filter in Hd as [[? ?] ?]. by exists d.
  - intros s Hs. apply Hzero in Hs as [Hs H0]. by rewrite Hin.
Qed.

Lemma elem_of_want (x : string) (pending : list string) : x ∈ want pending ↔ x ∈ pending.
Proof using. clear. unfold want. apply elem_of_list_to_set. Qed.

(** A complete order lists the batch, without repetition. *)
Lemma complete_order (pending order : list string) :
  (∀ s, s ∈ order → s ∈ pending) → NoDup order →
  length order = length pending → order ≡ₚ pending.
Proof using. clear.
  intros Hin Hnd Hlen. apply submseteq_length_Permutation; [|lia].
  by apply NoDup_submseteq.
Qed.

(** A cycle among the slugs of a batch. *)
Definition cyclic (pending : list string) : Prop :=
  ∃ s, s ∈ pending ∧ tc (needs (want pending)) s s.

(** C4. whatever order Go iterates its maps in, [TopologicalSort] returns;
    and when it returns a list, that list is the batch, each slug once, with
    every in-batch dependency of a slug strictly before it. *)
Theorem TopologicalSort_sound pending :
  ∃ r, TopologicalSort pending = Some r ∧
    ∀ order, r = Ok order →
      order ≡ₚ pending ∧ NoDup order ∧
      (∀ l1 s l2 d, order = l1 ++ s :: l2 → d ∈ pending → d ∈ graph s → d ∈ l1).
Proof using iter_perm.
  destruct (TopologicalSort_run pending) as (ind & outm & order & -> & Hinv).
  eexists. split; [done|]. intros order'. unfold finish. cbn [fst snd].
  case_decide as Hlen; [|done]. intros [= <-].
  destruct (final_order _ _ _ _ Hinv) as (Hsub & Hnd & Hpre & _ & _).
  setoid_rewrite elem_of_want in Hsub.
  split_and!; [by apply complete_order|done|].
  intros l1 s l2 d E Hd Hg. eapply topo_prefix_before; [done|exact E|].
  unfold needs. rewrite !elem_of_want. split_and!; [|done|done].
  apply Hsub. rewrite E. set_solver.
Qed.

(** on a batch without repeated slugs, [TopologicalSort] fails exactly
    when the batch has a dependency cycle. It then reports a non-empty,
    sorted list of slugs of the batch that contains a cycle, each of which
    has an unsatisfiable dependency in the list. *)
Theorem TopologicalSort_cycle pending :
  NoDup pending →
  (cyclic pending ↔ ∃ e, TopologicalSort pending = Some (Err e)) ∧
  (∀ e, TopologicalSort pending = Some (Err e) →
     Kind e = ErrCircularDependency ∧ Sorted String.le (Slugs e) ∧
     (∀ s, s ∈ Slugs e → s ∈ pending ∧ ∃ d, d ∈ Slugs e ∧ d ∈ graph s) ∧
     ∃ s, s ∈ Slugs e ∧ tc (needs (want pending)) s s).
Proof using iter_perm.
  intros Hp. destruct (TopologicalSort_run pending) as (ind & outm & order & -> & Hinv).
  destruct (final_order _ _ _ _ Hinv) as (Hsub & Hnd & Hpre & Hleft & Hplaced).
  setoid_rewrite elem_of_want in Hsub.
  unfold finish. cbn [fst snd]. case_decide as Hlen.
  { pose proof (complete_order pending order Hsub Hnd Hlen) as Hperm.
    split; [|naive_solver]. split; [|naive_solver].
    intros (s & Hs & Hc). exfalso. eapply topo_prefix_acyclic; [done| |exact Hc].
    by rewrite Hperm. }
  set (sl := sort_strings _).
  assert (∀ s, s ∈ sl ↔ s ∈ want pending ∧ s ∉ order) as Hsl.
  { intros s. unfold sl. rewrite elem_of_sort_strings, list_elem_of_filter,
      iter_perm, elem_of_elements. split.
    - intros [Hs ?]. split; [done|]. intros Ho. rewrite Hplaced in Hs by done. lia.
    - intros [Hs Ho]. by destruct (Hleft s Hs Ho). }
  assert (∃ s, s ∈ pending ∧ s ∉ order) as (s0 & Hs0 & Ho0).
  { destruct (decide (Forall (.∈ order) pending)) as [Hall|Hall].
    - exfalso. apply Hlen. rewrite Forall_forall in Hall.
      apply Nat.le_antisymm; apply submseteq_length, NoDup_submseteq; auto.
    - apply not_Forall_Exists in Hall; [|apply _].
      by apply Exists_exists in Hall as (s & ? & ?); exists s. }
  destruct (stuck_prefix_cycle (needs (want pending)) (elements (want pending)) order)
    as (s & Hs & Hos & Hc).
  { exists s0. by rewrite elem_of_elements, elem_of_want. }
  { intros s. rewrite elem_of_elements. intros Hs Ho.
    destruct (Hleft s Hs Ho) as (_ & d & Hd & Hdo & Hn). exists d.
    by rewrite elem_of_elements. }
  rewrite elem_of_elements in Hs. split.
  { split; [by eauto|]. intros _. exists s. by rewrite <- elem_of_want. }
  intros e [= <-]. cbn [Kind Slugs]. split_and!; [done|apply sort_strings_sorted| |].
  - intros x [Hx Ho]%Hsl. split; [by apply elem_of_want|].
    destruct (Hleft x Hx Ho) as (_ & d & Hd & Hdo & (_ & _ & Hg)). exists d.
    by rewrite Hsl.
  - exists s. by rewrite Hsl.
Qed.

(** A batch that repeats a slug is always refused as a cycle, even when
    its dependencies have none: the length of the order, one entry per
    distinct slug, is compared with the length of the input. *)
Theorem TopologicalSort_duplicate pending :
  ¬ NoDup pending →
  ∃ e, TopologicalSort pending = Some (Err e) ∧ Kind e = ErrCircularDependency ∧
    (¬ cyclic pending → Slugs e = []).
Proof using iter_perm.
  intros Hdup. destruct (TopologicalSort_run pending) as (ind & outm & order & -> & Hinv).
  destruct (final_order _ _ _ _ Hinv) as (Hsub & Hnd & _ & Hleft & Hplaced).
  setoid_rewrite elem_of_want in Hsub.
  unfold finish. cbn [fst snd]. rewrite decide_False.
  2: { intros Hlen. apply Hdup.
       by rewrite <- (complete_order pending order Hsub Hnd Hlen). }
  eexists. split; [done|]. split; [done|]. cbn [Slugs]. intros Hac.
  assert (∀ s, s ∈ want pending → s ∈ order) as Hall.
  { intros s Hs. destruct (decide (s ∈ order)) as [|Ho]; [done|]. destruct Hac.
    destruct (stuck_prefix_cycle (needs (want pending)) (elements (want pending)) order)
      as (x & Hx & _ & Hc).
    - exists s. by rewrite elem_of_elements.
    - intros x. rewrite elem_of_elements. intros Hx Hox.
      destruct (Hleft x Hx Hox) as (_ & d & Hd & Hdo & Hn). exists d.
      by rewrite elem_of_elements.
    - exists x. by rewrite elem_of_elements, elem_of_want in Hx. }
  destruct (filter _ _) as [|x l] eqn:E; [done|].
  assert (x ∈ filter (λ s, (0 < get ind s)%Z) (iter (want pending))) as Hx
    by (rewrite E; left).
  rewrite list_elem_of_filter, iter_perm, elem_of_elements in Hx. destruct Hx as [Hx HxW].
  rewrite Hplaced in Hx by auto. lia.
Qed.
End topo.

(** ** The order of map iteration does not matter *)
Section deterministic.
Context (graph : string → list string).

(** Two runs that agree on every count and on every multiset of edges. *)
Definition same_counts (ind1 ind2 : gmap string Z) : Prop :=
  ∀ x, get ind1 x = get ind2 x.
Definition same_edges (o1 o2 : gmap string (list string)) : Prop :=
  ∀ x d, occ x (get_list o1 d) = occ x (get_list o2 d).

Lemma same_edges_elem o1 o2 x d :
  same_edges o1 o2 → x ∈ get_list o1 d ↔ x ∈ get_list o2 d.
Proof. intros H. by rewrite <- !occ_pos, H. Qed.

Lemma next_ready_same ready f1 f2 : f1 ≡ₚ f2 → next_ready ready f1 = next_ready ready f2.
Proof.
  intros H. destruct f1 as [|x f1], f2 as [|y f2].
  - done.
  - by apply Permutation_nil in H.
  - by symmetry in H; apply Permutation_nil in H.
  - apply sort_strings_perm_eq. by rewrite H.
Qed.

Lemma kahn_same W fuel : ∀ ind1 ind2 o1 o2 ready order,
  kahn_inv graph W ind1 o1 ready order → kahn_inv graph W ind2 o2 ready order →
  same_counts ind1 ind2 → same_edges o1 o2 →
  match kahn fuel ind1 o1 ready order, kahn fuel ind2 o2 ready order with
  | Some (i1, r1), Some (i2, r2) => same_counts i1 i2 ∧ r1 = r2
  | None, None => True
  | _, _ => False
  end.
Proof.
  induction fuel as [|fuel IH]; intros ind1 ind2 o1 o2 ready order H1 H2 Hc He; [done|].
  destruct ready as [|s ready]; cbn [kahn]; [done|].
  destruct (kahn_inv_step _ _ _ _ _ _ _ H1) as (i1 & f1 & Hr1 & H1').
  destruct (kahn_inv_step _ _ _ _ _ _ _ H2) as (i2 & f2 & Hr2 & H2').
  assert (∀ i o, kahn_inv graph W i o (s :: ready) order →
    ∀ x, x ∈ get_list o s → (occ x (get_list o s) ≤ get i x)%Z) as Hle.
  { intros i o Hinv x Hx. destruct Hinv as [_ Hnd Hz Hin Hout].
    destruct (proj1 (Hz s) ltac:(set_solver)) as [HsW _].
    assert (s ∉ order) by (apply NoDup_app in Hnd as (_ & H & _); set_solver).
    apply occ_pos in Hx. rewrite Hout in Hx |- *. case_decide as Hd; [|lia].
    rewrite Hin, (indeg_snoc _ W order s) by tauto.
    pose proof (indeg_nonneg graph W (order ++ [s]) x). lia. }
  destruct (release_spec (get_list o1 s) ind1 [] (Hle _ _ H1))
    as (j1 & g1 & E1 & Hg1 & Hn1 & Hf1).
  destruct (release_spec (get_list o2 s) ind2 [] (Hle _ _ H2))
    as (j2 & g2 & E2 & Hg2 & Hn2 & Hf2).
  assert (j1 = i1 ∧ g1 = f1) as [-> ->] by (rewrite Hr1 in E1; by simplify_eq/=).
  assert (j2 = i2 ∧ g2 = f2) as [-> ->] by (rewrite Hr2 in E2; by simplify_eq/=).
  rewrite Hr1, Hr2.
  assert (f1 ≡ₚ f2) as Hf.
  { apply NoDup_Permutation; [done..|]. intros x.
    by rewrite Hf1, Hf2, Hc, He, (same_edges_elem o1 o2). }
  fold (next_ready ready f1). fold (next_ready ready f2).
  rewrite (next_ready_same ready f1 f2 Hf) in *.
  apply IH; [done..| |done]. intros x. by rewrite Hg1, Hg2, Hc, He.
Qed.

(** The answer, order or error, is the same for all the orders in which
    Go may iterate its maps. *)
Theorem TopologicalSort_deterministic iter1 iter2 pending :
  (∀ W, iter1 W ≡ₚ elements W) → (∀ W, iter2 W ≡ₚ elements W) →
  TopologicalSort graph iter1 pending = TopologicalSort graph iter2 pending.
Proof.
  intros H1 H2. set (W := want pending).
  assert (∀ x, get (in_ (build graph iter1 W)) x = get (in_ (build graph iter2 W)) x) as Hc.
  { intros x. by rewrite (proj1 (build_spec _ _ H1 _)), (proj1 (build_spec _ _ H2 _)). }
  assert (same_edges (out (build graph iter1 W)) (out (build graph iter2 W))) as He.
  { intros x d. by rewrite (proj2 (build_spec _ _ H1 _)), (proj2 (build_spec _ _ H2 _)). }
  assert (first_ready graph iter1 W = first_ready graph iter2 W) as Hr.
  { apply sort_strings_perm_eq. rewrite (H1 W), (H2 W).
    erewrite list_filter_iff; [done|]. intros x. by rewrite Hc. }
  pose proof (kahn_inv_init graph iter1 H1 W) as I1.
  pose proof (kahn_inv_init graph iter2 H2 W) as I2. rewrite <- Hr in I2.
  pose proof (kahn_same W (S (length pending)) _ _ _ _ _ _ I1 I2 Hc He) as Hk.
  unfold TopologicalSort. destruct pending as [|p ps]; [done|]. fold W. cbn zeta.
  fold (first_ready graph iter1 W). fold (first_ready graph iter2 W). rewrite <- Hr.
  destruct (kahn _ (in_ (build graph iter1 W)) _ _ _) as [[i1 r1]|],
    (kahn _ (in_ (build graph iter2 W)) _ _ _) as [[i2 r2]|]; try done.
  destruct Hk as [Hi ->]. case_decide; [done|]. do 3 f_equal.
  apply sort_strings_perm_eq. rewrite (H1 W), (H2 W).
  erewrite list_filter_iff; [done|]. intros x. by rewrite Hi.
Qed.
End deterministic.

(** ** Concrete batches *)
Definition example_graph (s : string) : list string :=
  if decide (s = "shop") then ["forms"; "seo"]
  else if decide (s = "forms") then ["seo"]
  else if decide (s = "a") then ["b"] else if decide (s = "b") then ["a"] else [].

Definition elements_iter (W : gset string) : list string := elements W.

Lemma elements_iter_perm W : elements_iter W ≡ₚ elements W.
Proof. done. Qed.

Lemma reverse_iter_perm (W : gset string) : reverse (elements W) ≡ₚ elements W.
Proof. apply reverse_Permutation. Qed.

Example TopologicalSort_run_example :
  TopologicalSort example_graph elements_iter ["shop"; "forms"; "seo"] =
    Some (Ok ["seo"; "forms"; "shop"]).
Proof. vm_compute. reflexivity. Qed.

Example TopologicalSort_cycle_example :
  TopologicalSort example_graph elements_iter ["shop"; "a"; "b"] =
    Some (Err (mkDependencyError "" ErrCircularDependency ["a"; "b"] [])).
Proof. vm_compute. reflexivity. Qed.

Lemma TopologicalSort_sound_witness :
  ∃ r, TopologicalSort example_graph elements_iter ["shop"; "forms"; "seo"] = Some r ∧
    ∀ order, r = Ok order → order ≡ₚ ["shop"; "forms"; "seo"].
Proof.
  destruct (TopologicalSort_sound example_graph elements_iter elements_iter_perm
    ["shop"; "forms"; "seo"]) as (r & Hr & H).
  exists r. split; [exact Hr|]. intros order E. exact (proj1 (H order E)).
Defined.

Lemma TopologicalSort_cycle_witness :
  NoDup ["shop"; "a"; "b"] ∧ cyclic example_graph ["shop"; "a"; "b"].
Proof.
  assert (NoDup ["shop"; "a"; "b"]) as Hnd
    by (apply (bool_decide_eq_true_1 _); vm_compute; reflexivity).
  split; [exact Hnd|].
  destruct (TopologicalSort_cycle example_graph elements_iter elements_iter_perm
    ["shop"; "a"; "b"] Hnd) as [[_ H] _].
  apply H. eexists. vm_compute. reflexivity.
Defined.

(** Two copies of one plugin without dependencies. *)
Lemma TopologicalSort_duplicate_witness :
  ¬ NoDup ["seo"; "seo"] ∧
  ∃ e, TopologicalSort example_graph elements_iter ["seo"; "seo"] = Some (Err e).
Proof.
  assert (¬ NoDup ["seo"; "seo"]) as Hd
    by (apply (bool_decide_eq_false_1 _); vm_compute; reflexivity).
  split; [exact Hd|].
  destruct (TopologicalSort_duplicate example_graph elements_iter elements_iter_perm
    ["seo"; "seo"] Hd) as (e & He & _). exists e. exact He.
Defined.

Lemma TopologicalSort_deterministic_witness :
  TopologicalSort example_graph elements_iter ["shop"; "a"; "b"; "seo"] =
  TopologicalSort example_graph (λ W, reverse (elements W)) ["shop"; "a"; "b"; "seo"].
Proof.
  exact (TopologicalSort_deterministic example_graph _ _ ["shop"; "a"; "b"; "seo"]
    elements_iter_perm reverse_iter_perm).
Defined.
