(* ===== verification/HookOrder.v ===== *)
(** * Handler ordering (packages/go/hooks/order.go)

    The order in which the handlers of one hook run: priority first, then the
    declarative before/after constraints, resolved by Kahn's algorithm over
    the indices of the chain. *)
From S2P Require Import Prelude Graph.

(** The function a registration runs: an action listener, a filter, or the
    per-item wrapper [RegisterBatchFilter] builds around a batch handler.
    Functions are named by an identifier. *)
Inductive handler_ref :=
| PlainHandler (id : nat)
| BatchWrapper (id : nat).

#[export] Instance handler_ref_eq_dec : EqDecision handler_ref.
Proof. solve_decision. Defined.

(** [registration]. The handler is the action or filter field; [token] is the
    registration's identity, and its [active] flag, shared by every snapshot
    of the chain, lives in the bus under the token. *)
Record registration := mkRegistration {
  token : Z;
  priority : Z;
  regOrder : Z;
  async : bool;
  handler : handler_ref;
  source : string;
  before : list string;
  after : list string;
}.

#[export] Instance registration_eq_dec : EqDecision registration.
Proof. solve_decision. Defined.

(** The registration-time errors. *)
Inductive order_error :=
| ErrSelfConstraint (src : string)
| ErrCycle (participants : list string).

#[export] Instance order_error_eq_dec : EqDecision order_error.
Proof. solve_decision. Defined.

(** [validateSelfConstraints] *)
Definition validateSelfConstraints (reg : registration) : option order_error :=
  if decide (source reg = "") then None
  else if decide (source reg ∈ before reg) then Some (ErrSelfConstraint (source reg))
  else if decide (source reg ∈ after reg) then Some (ErrSelfConstraint (source reg))
  else None.

(** [indexBySource[target]]: the indices registered by a non-empty source. *)
Definition indexBySource (subs : list registration) (target : string) : list nat :=
  filter (λ j, source <$> subs !! j = Some target ∧ target ≠ "") (seq 0 (length subs)).

(** The adjacency sets and in-degrees, and [addEdge]. *)
Record edge_state := mkEdgeState { adj : list (gset nat); indeg : list Z }.

Definition addEdge (st : edge_state) (e : nat * nat) : edge_state :=
  let '(from, to) := e in
  if decide (from = to) then st
  else if decide (to ∈ default ∅ (adj st !! from)) then st
  else mkEdgeState
         (<[from := {[to]} ∪ default ∅ (adj st !! from)]> (adj st))
         (alter (Z.add 1) to (indeg st)).

(** The edges in the order the nested loops add them. *)
Definition edges_of (subs : list registration) (i : nat) (s : registration)
    : list (nat * nat) :=
  concat (map (λ target, map (λ j, (i, j)) (indexBySource subs target)) (before s)) ++
  concat (map (λ target, map (λ j, (j, i)) (indexBySource subs target)) (after s)).

Definition all_edges (subs : list registration) : list (nat * nat) :=
  concat (imap (edges_of subs) subs).

Definition build_edges (subs : list registration) : edge_state :=
  foldl addEdge (mkEdgeState (replicate (length subs) ∅) (replicate (length subs) 0%Z))
    (all_edges subs).

(** The first index neither taken nor waiting on another handler. *)
Definition find_pick (n : nat) (taken : list bool) (ind : list Z) : option nat :=
  head (filter (λ i, taken !! i = Some false ∧ ind !! i = Some 0%Z) (seq 0 n)).

(** [for j := range adj[pick] { indeg[j]-- }] *)
Definition release_succs (out : gset nat) (ind : list Z) : list Z :=
  imap (λ j d, if decide (j ∈ out) then (d - 1)%Z else d) ind.

(** The participants named by a cycle error: "#token" for an unnamed source. *)
Definition participant (s : registration) : string :=
  if decide (source s = "") then "#" +:+ pretty.pretty (token s) else source s.

Definition survivors (subs : list registration) (taken : list bool) : list string :=
  sort_strings (map participant (map fst
    (filter (λ p, p.2 = false) (zip subs taken)))).

(** The main loop: [rem] counts the handlers still to place. *)
Fixpoint kahn_loop (subs : list registration) (st_adj : list (gset nat))
    (rem : nat) (taken : list bool) (ind : list Z) (out : list registration)
    : result order_error (list registration) :=
  match rem with
  | O => Ok out
  | S rem' =>
      match find_pick (length subs) taken ind with
      | None => Err (ErrCycle (survivors subs taken))
      | Some pick =>
          match subs !! pick with
          | None => Ok out
          | Some s =>
              kahn_loop subs st_adj rem' (<[pick := true]> taken)
                (release_succs (default ∅ (st_adj !! pick)) ind) (out ++ [s])
          end
      end
  end.

(** [topoSort] *)
Definition topoSort (subs : list registration) : result order_error (list registration) :=
  if decide (length subs ≤ 1) then Ok subs
  else
    let st := build_edges subs in
    kahn_loop subs (adj st) (length subs) (replicate (length subs) false) (indeg st) [].

(** [orderChain]: without constraints the priority order is final. *)
Definition orderChain (c : list registration) : result order_error (list registration) :=
  if decide (Exists (λ r, before r ≠ [] ∨ after r ≠ []) c) then topoSort c else Ok c.

(** The comparison of [register]'s stable sort. *)
Definition prio_lt (a b : registration) : bool :=
  if decide (priority a = priority b) then (regOrder a <? regOrder b)%Z
  else (priority a <? priority b)%Z.

(** ** Specification *)

(** Handler [i] must run before handler [j]: [i] names [j]'s source in its
    [before] list or [j] names [i]'s source in its [after] list. *)
Definition must_precede (subs : list registration) (i j : nat) : Prop :=
  i ≠ j ∧ ∃ a b, subs !! i = Some a ∧ subs !! j = Some b ∧
    ((source b ≠ "" ∧ source b ∈ before a) ∨ (source a ≠ "" ∧ source a ∈ after b)).

(** [waits subs j i]: the dependency relation, [j] waits for [i]. *)
Definition waits (subs : list registration) : relation nat :=
  λ j i, must_precede subs i j.

(** Index [i] is the smallest unplaced one whose predecessors are placed:
    every smaller unplaced index is waiting. *)
Inductive greedy (subs : list registration) : list nat → Prop :=
| greedy_nil : greedy subs []
| greedy_snoc o x :
    greedy subs o →
    (∀ y, y < x → y ∉ o → ∃ i, i ∉ o ∧ must_precede subs i y) →
    greedy subs (o ++ [x]).

(** ** The edges *)

#[export] Instance must_precede_dec subs i j : Decision (must_precede subs i j).
Proof.
  destruct (subs !! i) as [a|] eqn:Ha;
    [|right; intros (_ & a & b & ? & _); congruence].
  destruct (subs !! j) as [b|] eqn:Hb;
    [|right; intros (_ & a' & b & _ & ? & _); congruence].
  destruct (decide (i ≠ j ∧ ((source b ≠ "" ∧ source b ∈ before a) ∨
    (source a ≠ "" ∧ source a ∈ after b)))) as [[? ?]|Hn].
  - left. split; [done|]. eauto.
  - right. intros (? & a' & b' & ? & ? & ?). simplify_eq. by apply Hn.
Defined.

Lemma must_precede_lt subs i j :
  must_precede subs i j → i < length subs ∧ j < length subs.
Proof.
  intros (_ & a & b & Ha & Hb & _). split; by eapply lookup_lt_Some.
Qed.

Lemma elem_of_indexBySource subs target j :
  j ∈ indexBySource subs target ↔
  ∃ s, subs !! j = Some s ∧ source s = target ∧ target ≠ "".
Proof.
  unfold indexBySource. rewrite list_elem_of_filter, elem_of_seq. split.
  - intros [[(s & Hs & ?)%fmap_Some Ht] _]. eauto.
  - intros (s & Hs & He & Ht). pose proof (lookup_lt_Some _ _ _ Hs).
    rewrite Hs. simpl. rewrite He. split; [done|lia].
Qed.

Lemma elem_of_all_edges subs i j :
  i ≠ j → (i, j) ∈ all_edges subs ↔ must_precede subs i j.
Proof.
  intros Hij. unfold all_edges, edges_of, must_precede.
  rewrite list_elem_of_In, in_concat. setoid_rewrite <-list_elem_of_In.
  setoid_rewrite elem_of_lookup_imap. split.
  - intros (x & (k & s & -> & Hs) & Hin).
    apply elem_of_app in Hin as [Hin|Hin];
      rewrite list_elem_of_In, in_concat in Hin;
      destruct Hin as (y & (t & <- & Ht)%in_map_iff & Hin);
      apply in_map_iff in Hin as (w & ? & Hw); simplify_eq;
      rewrite <-list_elem_of_In in Hw; rewrite <-list_elem_of_In in Ht;
      apply elem_of_indexBySource in Hw as (s' & Hs' & ? & ?);
      subst; split; [done|eauto 8|done|eauto 8].
  - intros (_ & a & b & Ha & Hb & [[Hne Hin]|[Hne Hin]]).
    + eexists. split; [exists i, a; eauto|]. apply elem_of_app. left.
      rewrite list_elem_of_In, in_concat. eexists. split.
      * apply in_map_iff. exists (source b). split; [done|by apply list_elem_of_In].
      * apply in_map_iff. exists j. split; [done|].
        apply list_elem_of_In, elem_of_indexBySource. eauto.
    + eexists. split; [exists j, b; eauto|]. apply elem_of_app. right.
      rewrite list_elem_of_In, in_concat. eexists. split.
      * apply in_map_iff. exists (source a). split; [done|by apply list_elem_of_In].
      * apply in_map_iff. exists i. split; [done|].
        apply list_elem_of_In, elem_of_indexBySource. eauto.
Qed.

Lemma all_edges_lt subs i j :
  (i, j) ∈ all_edges subs → i < length subs ∧ j < length subs.
Proof.
  intros H. destruct (decide (i = j)) as [->|Hne].
  - unfold all_edges, edges_of in H.
    rewrite list_elem_of_In, in_concat in H.
    destruct H as (x & Hx & Hin). rewrite <-list_elem_of_In in Hx.
    apply elem_of_lookup_imap in Hx as (k & s & -> & Hs).
    apply lookup_lt_Some in Hs.
    apply in_app_iff in Hin as [Hin|Hin]; rewrite in_concat in Hin;
      destruct Hin as (y & (t & <- & Ht)%in_map_iff & Hin);
      apply in_map_iff in Hin as (w & ? & Hw); simplify_eq; lia.
  - by apply must_precede_lt, elem_of_all_edges.
Qed.

(** The state the edges are kept in: [adj] holds exactly the edges in [E],
    and [indeg] counts them. *)
Definition succs (st : edge_state) (i : nat) : gset nat := default ∅ (adj st !! i).

Record edges_ok (n : nat) (E : nat → nat → Prop) (st : edge_state) : Prop := {
  eo_adj_len : length (adj st) = n;
  eo_indeg_len : length (indeg st) = n;
  eo_adj i j : i < n → j ∈ succs st i ↔ E i j;
  eo_indeg j : j < n → indeg st !! j =
    Some (Z.of_nat (length (filter (λ i, j ∈ succs st i) (seq 0 n))));
}.

Lemma addEdge_ok n E st from to :
  from < n → to < n → edges_ok n E st →
  edges_ok n (λ i j, E i j ∨ (i ≠ j ∧ i = from ∧ j = to)) (addEdge st (from, to)).
Proof.
  intros Hf Ht [La Li Ha Hi]. unfold addEdge.
  destruct (decide (from = to)) as [->|Hne].
  { split; [done|done| |done]. intros i j Hin. rewrite Ha by done. naive_solver. }
  destruct (decide (to ∈ default ∅ (adj st !! from))) as [Hin|Hin].
  { split; [done|done| |done]. intros i j Hlt. rewrite Ha by done.
    fold (succs st from) in Hin. apply Ha in Hin; naive_solver. }
  set (st' := mkEdgeState _ _).
  assert (∀ i, succs st' i = if decide (i = from) then {[to]} ∪ succs st from else succs st i) as Hs.
  { intros i. unfold succs. simpl. destruct (decide (i = from)) as [->|].
    - by rewrite list_lookup_insert_eq by lia.
    - by rewrite list_lookup_insert_ne by done. }
  split; simpl.
  - by rewrite length_insert.
  - by rewrite length_alter.
  - intros i j Hlt. rewrite Hs. destruct (decide (i = from)) as [->|].
    + rewrite elem_of_union, elem_of_singleton, Ha by done. naive_solver.
    + rewrite Ha by done. naive_solver.
  - intros j Hj. destruct (decide (j = to)) as [->|Hjt].
    + rewrite list_lookup_alter_eq, Hi by done. simpl.
      enough (length (filter (λ i, to ∈ succs st' i) (seq 0 n)) =
        S (length (filter (λ i, to ∈ succs st i) (seq 0 n)))) as -> by (f_equal; lia).
      apply length_filter_plus_one with (x := from).
      * apply NoDup_seq.
      * apply elem_of_seq; lia.
      * done.
      * rewrite Hs, decide_True by done. set_solver.
      * intros y _ Hy. by rewrite Hs, decide_False by done.
    + rewrite list_lookup_alter_ne, Hi by done. do 3 f_equal.
      apply filter_agree. intros y _. rewrite Hs.
      destruct (decide (y = from)) as [->|]; [|done]. set_solver.
Qed.

Lemma foldl_addEdge_ok n es E st :
  (∀ i j, (i, j) ∈ es → i < n ∧ j < n) → edges_ok n E st →
  edges_ok n (λ i j, E i j ∨ (i ≠ j ∧ (i, j) ∈ es)) (foldl addEdge st es).
Proof.
  revert E st. induction es as [|[a b] es IH]; intros E st Hlt Hok; simpl.
  - destruct Hok as [? ? Ha ?]. split; [done|done| |done].
    intros i j Hin. rewrite Ha by done. set_solver.
  - destruct (Hlt a b) as [Hla Hlb]; [set_solver|].
    pose proof (addEdge_ok n E st a b Hla Hlb Hok) as Hok'.
    apply IH in Hok' as [? ? Ha ?]; [|intros; apply Hlt; set_solver].
    split; [done|done| |done]. intros i j Hin. rewrite Ha by done. set_solver.
Qed.

Lemma build_edges_ok subs :
  edges_ok (length subs) (must_precede subs) (build_edges subs).
Proof.
  destruct (foldl_addEdge_ok (length subs) (all_edges subs) (λ _ _, False)
    (mkEdgeState (replicate (length subs) ∅) (replicate (length subs) 0%Z)))
    as [? ? Ha ?].
  - apply all_edges_lt.
  - assert (∀ i, succs (mkEdgeState (replicate (length subs) ∅)
      (replicate (length subs) 0%Z)) i = ∅) as Hs.
    { intros i. unfold succs. simpl.
      destruct (replicate _ _ !! i) as [x|] eqn:E; [|done].
      by apply lookup_replicate in E as [-> _]. }
    split; simpl; [by rewrite length_replicate..| |].
    + intros i j _. rewrite Hs. set_solver.
    + intros j Hj. rewrite lookup_replicate_2 by done. f_equal.
      destruct (filter _ _) as [|y l] eqn:El; [done|].
      assert (y ∈ y :: l) as Hy by set_solver. rewrite <-El in Hy.
      apply list_elem_of_filter in Hy as [Hy _]. rewrite Hs in Hy. set_solver.
  - split; [done|done| |done]. intros i j Hin. unfold build_edges.
    rewrite Ha by done. destruct (decide (i = j)) as [->|Hne].
    + split; [naive_solver|]. by intros [? _].
    + rewrite elem_of_all_edges by done. naive_solver.
Qed.

(** ** The loop *)

(** The handlers at a list of indices. *)
Definition at_indices (subs : list registration) (o : list nat) : list registration :=
  omap (λ i, subs !! i) o.

(** What holds each time round: [o] is the order so far. *)
Record kahn_inv (subs : list registration) (o : list nat)
    (taken : list bool) (ind : list Z) : Prop := {
  ki_prefix : topo_prefix (waits subs) o;
  ki_greedy : greedy subs o;
  ki_lt i : i ∈ o → i < length subs;
  ki_taken i : i < length subs → taken !! i = Some (bool_decide (i ∈ o));
  ki_ind j : j < length subs → ind !! j = Some (Z.of_nat (length
    (filter (λ i, i ∉ o ∧ must_precede subs i j) (seq 0 (length subs)))));
}.

Lemma order_inv_init subs :
  kahn_inv subs [] (replicate (length subs) false) (indeg (build_edges subs)).
Proof.
  split; [constructor|constructor|set_solver| |].
  - intros i Hi. by rewrite lookup_replicate_2.
  - intros j Hj. destruct (build_edges_ok subs) as [_ _ Ha Hi].
    rewrite Hi by done. do 3 f_equal. apply filter_agree. intros i Hin.
    rewrite elem_of_seq in Hin. rewrite Ha by lia. set_solver.
Qed.

(** Nothing is counted: no predecessor is left. *)
Lemma no_predecessor subs (o : list nat) j :
  length (filter (λ i, i ∉ o ∧ must_precede subs i j) (seq 0 (length subs))) = 0 →
  ∀ i, must_precede subs i j → i ∈ o.
Proof.
  intros H i Hij. destruct (decide (i ∈ o)) as [|Hi]; [done|].
  assert (i ∈ filter (λ i, i ∉ o ∧ must_precede subs i j) (seq 0 (length subs))) as Hin.
  { apply list_elem_of_filter. split; [done|]. apply elem_of_seq.
    apply must_precede_lt in Hij. lia. }
  apply nil_length_inv in H. rewrite H in Hin. by apply not_elem_of_nil in Hin.
Qed.

Lemma some_predecessor subs (o : list nat) j :
  length (filter (λ i, i ∉ o ∧ must_precede subs i j) (seq 0 (length subs))) ≠ 0 →
  ∃ i, i ∉ o ∧ must_precede subs i j.
Proof.
  intros H. destruct (filter _ _) as [|i l] eqn:E; [done|].
  assert (i ∈ i :: l) as Hi by set_solver. rewrite <-E in Hi.
  apply list_elem_of_filter in Hi as [? _]. eauto.
Qed.

Lemma kahn_inv_blocked subs o taken ind k :
  kahn_inv subs o taken ind → k < length subs → k ∉ o →
  ¬ (taken !! k = Some false ∧ ind !! k = Some 0%Z) →
  ∃ i, i ∉ o ∧ must_precede subs i k.
Proof.
  intros Hinv Hk Hko Hn. apply some_predecessor. intros H0. apply Hn.
  rewrite (ki_taken _ _ _ _ Hinv), (ki_ind _ _ _ _ Hinv), bool_decide_false, H0 by done.
  done.
Qed.

Lemma order_inv_step subs o taken ind pick :
  kahn_inv subs o taken ind →
  find_pick (length subs) taken ind = Some pick →
  pick ∉ o ∧ pick < length subs ∧
  kahn_inv subs (o ++ [pick]) (<[pick := true]> taken)
    (release_succs (succs (build_edges subs) pick) ind).
Proof.
  intros Hinv (Hlt & [Ht H0] & Hmin)%head_filter_seq_Some.
  assert (pick < length subs) as Hp by lia.
  rewrite (ki_taken _ _ _ _ Hinv) in Ht by done. injection Ht as Ht%bool_decide_eq_false.
  rewrite (ki_ind _ _ _ _ Hinv) in H0 by done. injection H0 as H0.
  destruct (build_edges_ok subs) as [_ _ Hadj _].
  assert (pick < length taken) as Hlen.
  { apply lookup_lt_is_Some_1. rewrite (ki_taken _ _ _ _ Hinv) by done. eauto. }
  split; [done|]. split; [done|]. split.
  - constructor; [apply Hinv|done|]. intros d Hd. eapply no_predecessor; [|done]. lia.
  - constructor; [apply Hinv|]. intros y Hy Hyo.
    eapply kahn_inv_blocked; [done|lia|done|]. apply Hmin; lia.
  - intros i [Hi| ->%list_elem_of_singleton]%elem_of_app; [|done]. by apply Hinv.
  - intros i Hi. destruct (decide (i = pick)) as [->|Hne].
    + rewrite list_lookup_insert_eq by done. f_equal. symmetry.
      apply bool_decide_eq_true. set_solver.
    + rewrite list_lookup_insert_ne, (ki_taken _ _ _ _ Hinv) by done.
      f_equal. apply bool_decide_ext. set_solver.
  - intros j Hj. unfold release_succs.
    rewrite list_lookup_imap, (ki_ind _ _ _ _ Hinv) by done. simpl. f_equal.
    destruct (decide (j ∈ succs (build_edges subs) pick)) as [Hin|Hin];
      rewrite Hadj in Hin by done.
    + rewrite (length_filter_plus_one (λ i, i ∉ o ++ [pick] ∧ must_precede subs i j)
        (λ i, i ∉ o ∧ must_precede subs i j) (seq 0 (length subs)) pick);
        [lia|apply NoDup_seq|apply elem_of_seq; lia|set_solver|done|set_solver].
    + do 2 f_equal. apply filter_agree. intros y _.
      destruct (decide (y = pick)) as [->|]; set_solver.
Qed.

(** Where the loop stops. *)
Inductive kahn_outcome (subs : list registration) :
    result order_error (list registration) → Prop :=
| kahn_done o taken ind :
    kahn_inv subs o taken ind → length o = length subs →
    kahn_outcome subs (Ok (at_indices subs o))
| kahn_stuck o taken ind :
    kahn_inv subs o taken ind → length o < length subs →
    (∀ k, k < length subs → k ∉ o → ∃ i, i ∉ o ∧ must_precede subs i k) →
    kahn_outcome subs (Err (ErrCycle (survivors subs taken))).

Lemma kahn_loop_outcome subs rem o taken ind :
  kahn_inv subs o taken ind → rem + length o = length subs →
  kahn_outcome subs
    (kahn_loop subs (adj (build_edges subs)) rem taken ind (at_indices subs o)).
Proof.
  revert o taken ind. induction rem as [|rem IH]; intros o taken ind Hinv Hlen.
  - by eapply kahn_done.
  - cbn [kahn_loop]. destruct (find_pick _ _ _) as [pick|] eqn:Ep.
    + destruct (order_inv_step _ _ _ _ _ Hinv Ep) as (Hni & Hlt & Hinv').
      destruct (lookup_lt_is_Some_2 subs pick Hlt) as [s Hs]. rewrite Hs.
      replace (at_indices subs o ++ [s]) with (at_indices subs (o ++ [pick]))
        by (unfold at_indices; rewrite omap_app; simpl; by rewrite Hs).
      apply IH; [done|]. rewrite length_app. simpl. lia.
    + eapply kahn_stuck; [done|lia|]. intros k Hk Hko.
      eapply kahn_inv_blocked; [done..|].
      eapply head_filter_seq_None in Ep; [done|lia].
Qed.

(** ** The order of a chain *)

(** The specification: [o] lists every index once, predecessors first, and
    never passes over a smaller index that could have run. *)
Record run_order (c : list registration) (o : list nat) : Prop := {
  ro_perm : o ≡ₚ seq 0 (length c);
  ro_topo : topo_prefix (waits c) o;
  ro_greedy : greedy c o;
}.

Definition on_cycle (c : list registration) (i : nat) : Prop := tc (waits c) i i.

Lemma topo_prefix_snoc_inv {A} (dep : relation A) (l : list A) x :
  topo_prefix dep (l ++ [x]) →
  topo_prefix dep l ∧ x ∉ l ∧ ∀ d, dep x d → d ∈ l.
Proof.
  intros H. inversion H as [E|l' x' ? ? ? E]; [by destruct l|].
  by apply app_inj_tail in E as [-> ->].
Qed.

Lemma greedy_snoc_inv c o x :
  greedy c (o ++ [x]) →
  greedy c o ∧ ∀ y, y < x → y ∉ o → ∃ i, i ∉ o ∧ must_precede c i y.
Proof.
  intros H. inversion H as [E|l' x' ? ? E]; [by destruct o|].
  by apply app_inj_tail in E as [-> ->].
Qed.

Lemma greedy_topo_unique c o o' :
  length o = length o' → topo_prefix (waits c) o → greedy c o →
  topo_prefix (waits c) o' → greedy c o' → o = o'.
Proof.
  revert o'. induction o as [|x o IH] using rev_ind; intros o' Hlen Ht Hg Ht' Hg'.
  - by destruct o'.
  - destruct o' as [|x' o' _] using rev_ind;
      [rewrite length_app in Hlen; simpl in Hlen; lia|].
    rewrite !length_app in Hlen. simpl in Hlen.
    apply topo_prefix_snoc_inv in Ht as (Ht & Hx & Hd), Ht' as (Ht' & Hx' & Hd').
    apply greedy_snoc_inv in Hg as [Hg Hb], Hg' as [Hg' Hb'].
    assert (o = o') as -> by (apply IH; auto; lia). f_equal. f_equal.
    destruct (lt_eq_lt_dec x x') as [[Hlt|]|Hlt]; [|done|].
    + destruct (Hb' x Hlt Hx) as (i & Hi & Hp). destruct Hi. by apply Hd.
    + destruct (Hb x' Hlt Hx') as (i & Hi & Hp). destruct Hi. by apply Hd'.
Qed.

Lemma run_order_acyclic c o i : run_order c o → ¬ on_cycle c i.
Proof.
  intros [Hp Ht _] Hc. eapply topo_prefix_acyclic; [done| |done].
  rewrite Hp, elem_of_seq. assert (∃ j, waits c i j) as [j Hj].
  { inversion Hc; eauto. }
  apply must_precede_lt in Hj. lia.
Qed.

Lemma kahn_inv_perm c o taken ind :
  kahn_inv c o taken ind → length o = length c → o ≡ₚ seq 0 (length c).
Proof.
  intros Hinv Hlen. symmetry. apply Permutation_sym, NoDup_Permutation.
  - eapply topo_prefix_NoDup, Hinv.
  - apply NoDup_seq.
  - assert (o ⊆+ seq 0 (length c)) as Hsub.
    { apply NoDup_submseteq; [eapply topo_prefix_NoDup, Hinv|].
      intros i Hi. apply elem_of_seq. apply (ki_lt _ _ _ _ Hinv) in Hi. lia. }
    intros i. apply submseteq_length_Permutation in Hsub; [by rewrite Hsub|].
    rewrite length_seq. lia.
Qed.

Lemma not_unconstrained_no_edges c i j :
  ¬ Exists (λ r, before r ≠ [] ∨ after r ≠ []) c → ¬ must_precede c i j.
Proof.
  intros Hn (_ & a & b & Ha & Hb & H). apply Hn, Exists_exists.
  destruct H as [[_ H]|[_ H]].
  - exists a. split; [by eapply list_elem_of_lookup_2|]. left. intros E.
    rewrite E in H. by apply not_elem_of_nil in H.
  - exists b. split; [by eapply list_elem_of_lookup_2|]. right. intros E.
    rewrite E in H. by apply not_elem_of_nil in H.
Qed.

(** Without a backward edge the priority order is the run order. *)
Lemma run_order_seq c :
  (∀ i j, must_precede c i j → i < j) → run_order c (seq 0 (length c)).
Proof.
  intros Hf. split; [done| |]; induction (length c) as [|n IH]; try constructor;
    rewrite seq_S; constructor; try done.
  - rewrite elem_of_seq. lia.
  - intros d Hd%Hf. apply elem_of_seq. lia.
  - intros y Hy Hn. destruct Hn. apply elem_of_seq. lia.
Qed.

Lemma at_indices_seq c : at_indices c (seq 0 (length c)) = c.
Proof.
  unfold at_indices. induction c as [|x c IH] using rev_ind; [done|].
  rewrite length_app, Nat.add_comm. cbn [length Nat.add].
  rewrite seq_S, omap_app. simpl.
  rewrite lookup_app_r, Nat.sub_diag by done. simpl. f_equal.
  rewrite <-IH at 2. apply omap_agree. intros i Hi%elem_of_seq.
  apply lookup_app_l. lia.
Qed.

Lemma single_no_edge c i j : length c ≤ 1 → ¬ must_precede c i j.
Proof.
  intros Hl Hp. pose proof (must_precede_lt _ _ _ Hp). destruct Hp as [? _]. lia.
Qed.

(** How [orderChain] ends: with the run order, or with the handlers no order
    can place. *)
Lemma orderChain_outcome c :
  (∃ o, run_order c o ∧ orderChain c = Ok (at_indices c o)) ∨
  (∃ o taken ind, kahn_inv c o taken ind ∧ length o < length c ∧
    (∀ k, k < length c → k ∉ o → ∃ i, i ∉ o ∧ must_precede c i k) ∧
    orderChain c = Err (ErrCycle (survivors c taken))).
Proof.
  unfold orderChain. destruct (decide _) as [Hc|Hc].
  - unfold topoSort. destruct (decide (length c ≤ 1)) as [Hl|Hl].
    + left. exists (seq 0 (length c)). rewrite at_indices_seq. split; [|done].
      apply run_order_seq. intros i j Hij. by destruct (single_no_edge _ _ _ Hl Hij).
    + pose proof (kahn_loop_outcome c (length c) [] _ _ (order_inv_init c)
        (Nat.add_0_r _)) as Hout.
      change (at_indices c []) with (@nil registration) in Hout. cbv zeta.
      destruct Hout as [o taken ind Hinv Hlen|o taken ind Hinv Hlen Hst].
      * left. exists o. split; [|done]. split; try apply Hinv.
        by eapply kahn_inv_perm.
      * right. by exists o, taken, ind.
  - left. exists (seq 0 (length c)). rewrite at_indices_seq. split; [|done].
    apply run_order_seq. intros i j Hij.
    by destruct (not_unconstrained_no_edges _ _ _ Hc Hij).
Qed.

(** The handlers a cycle makes unplaceable: those on a cycle and those that
    wait, directly or not, for one on a cycle. *)
Definition cycle_bound (c : list registration) (k : nat) : Prop :=
  ∃ i, rtc (waits c) k i ∧ on_cycle c i.

Lemma stuck_cycle_bound c (o : list nat) k :
  (∀ k, k < length c → k ∉ o → ∃ i, i ∉ o ∧ must_precede c i k) →
  k < length c → k ∉ o → cycle_bound c k.
Proof.
  intros Hst Hk Hko.
  destruct (path_grow (waits c) (λ i, i < length c ∧ i ∉ o))
    with (n := S (length c)) (x := k) as (l & Hlen & Hp & HF).
  - intros x [Hx Hxo]. destruct (Hst x Hx Hxo) as (i & Hi & Hix).
    exists i. split; [|done]. split; [|done]. by apply must_precede_lt in Hix as [? _].
  - done.
  - assert (¬ NoDup l) as Hdup.
    { intros Hnd. enough (length l ≤ length c) by lia.
      rewrite <-(length_seq (length c) 0).
      apply submseteq_length, NoDup_submseteq; [done|].
      intros y Hy. rewrite Forall_forall in HF. apply elem_of_seq.
      destruct (HF y Hy). lia. }
    destruct (not_NoDup_split l Hdup) as (l1 & x & l2 & l3 & ->).
    apply path_app_tc in Hp as [Hkx Hp]. apply path_app_tc in Hp as [Hxx _].
    exists x. split; [|done]. by apply tc_rtc.
Qed.

Lemma placed_not_cycle_bound c o k :
  topo_prefix (waits c) o → k ∈ o → ¬ cycle_bound c k.
Proof.
  intros Ht Hk (i & Hki & Hi). eapply topo_prefix_acyclic; [done| |done].
  clear Hi. induction Hki as [|x y z Hxy _ IH]; [done|].
  apply IH. by eapply topo_prefix_closed.
Qed.

Lemma untaken_at_indices {A} (l : list A) (taken : list bool) (P : nat → Prop)
    `{∀ i, Decision (P i)} :
  (∀ i, i < length l → taken !! i = Some (bool_decide (P i))) →
  map fst (filter (λ p, p.2 = false) (zip l taken)) =
  omap (λ i, l !! i) (filter (λ i, ¬ P i) (seq 0 (length l))).
Proof.
  revert taken P H. induction l as [|x l IH]; intros taken P HP Ht; [done|].
  destruct taken as [|t taken].
  { specialize (Ht 0). simpl in Ht. ospecialize (Ht _); [lia|done]. }
  assert (t = bool_decide (P 0)) as ->.
  { specialize (Ht 0). simpl in Ht. ospecialize (Ht _); [lia|congruence]. }
  cbn [length seq zip zip_with]. rewrite <-fmap_S_seq, !filter_cons. simpl.
  rewrite filter_fmap.
  assert (map fst (filter (λ p, p.2 = false) (zip l taken)) =
    omap (λ i, (x :: l) !! i) (S <$> filter ((λ i, ¬ P i) ∘ S) (seq 0 (length l)))) as IH'.
  { rewrite (IH taken (λ i, P (S i)) _).
    - by rewrite omap_fmap.
    - intros i Hi. specialize (Ht (S i)). simpl in Ht. apply Ht. lia. }
  destruct (decide (P 0)) as [H0|H0].
  - rewrite bool_decide_true by done. simpl. by rewrite decide_False by tauto.
  - rewrite bool_decide_false by done. simpl. rewrite decide_True by done.
    simpl. by rewrite IH'.
Qed.

Lemma survivors_spec c o taken ind :
  kahn_inv c o taken ind →
  survivors c taken = sort_strings (participant <$>
    at_indices c (filter (λ k, k ∉ o) (seq 0 (length c)))).
Proof.
  intros Hinv. unfold survivors, at_indices. do 2 f_equal.
  apply untaken_at_indices, Hinv.
Qed.

Lemma exists_unplaced (o : list nat) n :
  length o < n → ∃ k, k < n ∧ k ∉ o.
Proof.
  intros Hl. destruct (decide (Exists (λ k, k ∉ o) (seq 0 n))) as [E|E].
  - apply Exists_exists in E as (k & Hk%elem_of_seq & ?). exists k. split; [lia|done].
  - rewrite <-Forall_Exists_neg, Forall_forall in E.
    enough (length (seq 0 n) ≤ length o) by (rewrite length_seq in *; lia).
    apply submseteq_length, NoDup_submseteq; [apply NoDup_seq|].
    intros k Hk. apply dec_stable. by apply E.
Qed.

Lemma orderChain_run_order_iff c out :
  orderChain c = Ok out ↔ ∃ o, run_order c o ∧ out = at_indices c o.
Proof.
  destruct (orderChain_outcome c) as [(o & Ho & ->)|(o & taken & ind & Hi & Hl & Hst & ->)].
  - split; [intros [= <-]; eauto|]. intros (o' & Ho' & ->). do 2 f_equal.
    destruct Ho as [Hp ? ?], Ho' as [Hp' ? ?]. apply greedy_topo_unique with c; try done.
    by rewrite Hp, Hp'.
  - split; [done|]. intros (o' & Ho' & _). exfalso.
    destruct (exists_unplaced o (length c) Hl) as (k & Hk & Hko).
    destruct (stuck_cycle_bound c o k) as (i & _ & Hc); [done..|].
    by eapply run_order_acyclic.
Qed.

(** C22. [orderChain] computes its specification: it returns a chain exactly
    when the chain has a run order, a permutation of the handlers in which
    every before/after constraint holds and a handler overtakes another of
    smaller (priority, registration) rank only while that one waits for an
    unplaced predecessor; the run order is unique. *)
Theorem orderChain_run_order c out :
  (orderChain c = Ok out ↔ ∃ o, run_order c o ∧ out = at_indices c o) ∧
  (∀ o o', run_order c o → run_order c o' → o = o').
Proof.
  split; [apply orderChain_run_order_iff|]. intros o o' [Hp ? ?] [Hp' ? ?].
  apply greedy_topo_unique with c; try done. by rewrite Hp, Hp'.
Qed.

Lemma orderChain_err_cycle c e : orderChain c = Err e → ∃ i, on_cycle c i.
Proof.
  intros H. destruct (orderChain_outcome c)
    as [(o & Ho & E)|(o & taken & ind & Hi & Hl & Hst & _)]; [congruence|].
  destruct (exists_unplaced o (length c) Hl) as (k & Hk & Hko).
  destruct (stuck_cycle_bound c o k) as (i & _ & Hc); [done..|eauto].
Qed.

(** A refusal is a constraint cycle and names it: [orderChain] fails
    exactly when some handler lies on a cycle, and the error lists, sorted,
    exactly the handlers that lie on a cycle or wait for one. *)
Theorem orderChain_cycle c :
  ((∃ e, orderChain c = Err e) ↔ ∃ i, on_cycle c i) ∧
  (∀ e, orderChain c = Err e → ∃ ks,
    NoDup ks ∧ (∀ k, k ∈ ks ↔ k < length c ∧ cycle_bound c k) ∧
    e = ErrCycle (sort_strings (participant <$> at_indices c ks))).
Proof.
  destruct (orderChain_outcome c) as [(o & Ho & ->)|(o & taken & ind & Hi & Hl & Hst & ->)].
  - split; [|done]. split; [by intros []|]. intros (i & Hc). exfalso.
    by eapply run_order_acyclic.
  - split; [split|].
    + intros _. destruct (exists_unplaced o (length c) Hl) as (k & Hk & Hko).
      destruct (stuck_cycle_bound c o k) as (i & _ & Hc); [done..|eauto].
    + eauto.
    + intros ? [= <-]. exists (filter (λ k, k ∉ o) (seq 0 (length c))).
      split; [apply NoDup_filter, NoDup_seq|]. split; [|by rewrite (survivors_spec _ _ _ _ Hi)].
      intros k. rewrite list_elem_of_filter, elem_of_seq. split.
      * intros [Hko Hk]. split; [lia|]. apply (stuck_cycle_bound c o); [done|lia|done].
      * intros [Hk Hc]. split; [|lia]. intros Hko.
        by eapply placed_not_cycle_bound; [apply Hi|..].
Qed.

Lemma forward_acyclic c i :
  (∀ i j, must_precede c i j → i < j) → ¬ on_cycle c i.
Proof.
  intros Hf Hc. enough (i < i) by lia. unfold on_cycle in Hc.
  assert (∀ x y, tc (waits c) x y → y < x) as Htc; [|by apply Htc].
  induction 1 as [x y H|x y z H _ IH]; apply Hf in H; lia.
Qed.

(** A chain in which every edge goes forward is its own run order. *)
Lemma orderChain_id c :
  (∀ i j, must_precede c i j → i < j) → orderChain c = Ok c.
Proof.
  intros Hf. destruct (orderChain_outcome c)
    as [(o & Ho & ->)|(o & taken & ind & Hi & Hl & Hst & ->)].
  - f_equal. rewrite <-(at_indices_seq c) at 2. f_equal.
    destruct Ho as [Hp ? ?], (run_order_seq c Hf) as [Hp' ? ?].
    apply greedy_topo_unique with c; try done. by rewrite Hp.
  - exfalso. destruct (exists_unplaced o (length c) Hl) as (k & Hk & Hko).
    destruct (stuck_cycle_bound c o k) as (i & _ & Hc); [done..|].
    by eapply forward_acyclic.
Qed.

(** Constraints that the priorities already satisfy change nothing: if
    every edge goes forward in the chain, the chain is its own run order; in
    particular a chain sorted by [register] without constraints keeps the
    priority order, ties in registration order. *)
Theorem orderChain_forward c :
  (∀ i j, must_precede c i j → i < j) → orderChain c = Ok c.
Proof. apply orderChain_id. Qed.

(** Three handlers: "audit" must follow "seo"; the others keep their rank. *)
Definition example_chain : list registration :=
  [mkRegistration 1 5 1 false (PlainHandler 0) "audit" [] ["seo"];
   mkRegistration 2 7 2 false (PlainHandler 1) "cache" [] [];
   mkRegistration 3 10 3 false (PlainHandler 2) "seo" ["unknown"] []].

Example example_chain_order :
  orderChain example_chain = Ok (at_indices example_chain [1; 2; 0]).
Proof. vm_compute. reflexivity. Qed.

Lemma orderChain_forward_witness :
  orderChain [mkRegistration 1 5 1 false (PlainHandler 0) "seo" ["audit"] [];
              mkRegistration 2 7 2 false (PlainHandler 1) "audit" [] ["seo"]] =
  Ok [mkRegistration 1 5 1 false (PlainHandler 0) "seo" ["audit"] [];
      mkRegistration 2 7 2 false (PlainHandler 1) "audit" [] ["seo"]].
Proof.
  apply orderChain_forward. intros [|[|i]] [|[|j]]; intros (? & a & b & Ha & Hb & H);
    simplify_eq/=; try lia; set_solver.
Defined.

(** A chain as published: every constraint holds between its positions. *)
Definition forward (c : list registration) : Prop :=
  ∀ i j, must_precede c i j → i < j.

Lemma lookup_at_indices c o i :
  (∀ k, k ∈ o → k < length c) → at_indices c o !! i = o !! i ≫= λ k, c !! k.
Proof.
  revert i. induction o as [|k o IH]; intros i Hlt; [done|].
  unfold at_indices. cbn [omap list_omap].
  destruct (lookup_lt_is_Some_2 c k) as [s Hs]; [apply Hlt; set_solver|].
  rewrite Hs. destruct i as [|i]; simpl; [done|]. apply IH. set_solver.
Qed.

Lemma must_precede_at_indices c o i j :
  NoDup o → (∀ k, k ∈ o → k < length c) →
  must_precede (at_indices c o) i j →
  ∃ x y, o !! i = Some x ∧ o !! j = Some y ∧ must_precede c x y.
Proof.
  intros Hnd Hlt (Hne & a & b & Ha & Hb & H).
  rewrite lookup_at_indices in Ha by done. rewrite lookup_at_indices in Hb by done.
  destruct (o !! i) as [x|] eqn:Hx; [|done]. destruct (o !! j) as [y|] eqn:Hy; [|done].
  exists x, y. split; [done|]. split; [done|]. split; [|by exists a, b].
  intros ->. apply Hne. eapply NoDup_lookup; eauto.
Qed.

(** The chain [orderChain] returns is a permutation that satisfies every
    constraint. *)
Lemma orderChain_forward_out c out :
  orderChain c = Ok out → forward out ∧ out ≡ₚ c.
Proof.
  intros H. assert (∃ o, run_order c o ∧ out = at_indices c o) as (o & [Hp Ht _] & ->).
  { destruct (orderChain_outcome c) as [(o & Ho & E)|(o & tk & i & _ & _ & _ & E)];
      rewrite E in H; [|done]. injection H as <-. eauto. }
  assert (∀ k, k ∈ o → k < length c) as Hlt.
  { intros k. rewrite Hp, elem_of_seq. lia. }
  pose proof (topo_prefix_NoDup _ _ Ht) as Hnd. split.
  - intros i j Hij.
    apply must_precede_at_indices in Hij as (x & y & Hx & Hy & Hxy); [|done..].
    pose proof (list_elem_of_split_length _ _ _ Hy) as (l1 & l2 & -> & ->).
    assert (x ∈ l1) as Hin by by eapply topo_prefix_before.
    apply list_elem_of_lookup in Hin as [k Hk].
    pose proof (lookup_lt_Some _ _ _ Hk).
    enough (i = k) by lia. eapply NoDup_lookup; [done|done|].
    by apply lookup_app_l_Some.
  - unfold at_indices. rewrite Hp. fold (at_indices c (seq 0 (length c))).
    by rewrite at_indices_seq.
Qed.

Lemma forward_sublist c c' : c' `sublist_of` c → forward c → forward c'.
Proof.
  intros Hs Hf i j (Hne & a & b & Ha & Hb & H).
  destruct (decide (i < j)) as [|Hlt]; [done|]. exfalso.
  assert (j < i) as Hji by lia.
  (* [b] stands before [a] in [c'], hence in [c], where [a] must precede [b] *)
  assert (∃ i' j', j' < i' ∧ c !! i' = Some a ∧ c !! j' = Some b)
    as (i' & j' & Hlt' & Ha' & Hb').
  { clear -Hs Ha Hb Hji. revert i j Hji Ha Hb.
    induction Hs as [|x l1 l2 Hs IH|x l1 l2 Hs IH]; intros i j Hji Ha Hb; [done| |].
    - destruct i as [|i]; [lia|]. destruct j as [|j]; simpl in *.
      + simplify_eq. apply list_elem_of_lookup_2 in Ha.
        eapply elem_of_submseteq in Ha; [|by apply sublist_submseteq].
        apply list_elem_of_lookup in Ha as [k Hk]. exists (S k), 0. split; [lia|done].
      + destruct (IH i j) as (i' & j' & ? & ? & ?); [lia|done|done|].
        exists (S i'), (S j'). split; [lia|done].
    - destruct (IH i j) as (i' & j' & ? & ? & ?); [done..|].
      exists (S i'), (S j'). split; [lia|done]. }
  assert (i' < j'); [|lia]. apply Hf. split; [lia|]. eauto.
Qed.
