(* ===== verification/HookBus.v ===== *)
(** * The hook bus (packages/go/hooks/bus.go, hooks.go)

    Registration, unsubscription and dispatch of action listeners and filters.
    Handlers are named by identifiers and interpreted by arbitrary functions
    on the bus state, so a handler may itself register, unsubscribe or fire
    hooks, and may panic. Durations, and therefore the histograms, are not
    modelled; counters are, as a log of increments. *)
From S2P Require Import Prelude HookOrder.

(** ** Errors

    [errors.Is(e, ErrShortCircuit)] walks the [Unwrap] tree. *)
Inductive gerror :=
| ErrShortCircuit
| ErrPlain (msg : string)
| ErrWrap (msg : string) (e : gerror)
| ErrJoin (es : list gerror)
| ErrPanic (hook : string) (idx : Z) (value : panic_value)
with panic_value :=
| PanicErr (e : gerror)
| PanicVal (what : string).

Fixpoint is_short_circuit (e : gerror) : bool :=
  match e with
  | ErrShortCircuit => true
  | ErrPlain _ => false
  | ErrWrap _ e' => is_short_circuit e'
  | ErrJoin es =>
      (fix any es := match es with
                     | [] => false
                     | e' :: es' => is_short_circuit e' || any es'
                     end) es
  | ErrPanic _ _ (PanicErr e') => is_short_circuit e'
  | ErrPanic _ _ (PanicVal _) => false
  end.

(** What calling a handler does: return, or panic. *)
Inductive outcome (T : Type) := Return (t : T) | Panic (v : panic_value).
Arguments Return {T} t.
Arguments Panic {T} v.

Inductive callKind := kindActionCall | kindFilterCall.

#[export] Instance callKind_eq_dec : EqDecision callKind.
Proof. solve_decision. Defined.

(** ** Metrics and log lines *)
Inductive metric :=
| metricDispatchTotal | metricHandlerError | metricHandlerPanic
| metricShortCircuit | metricSchemaRejected.

Definition labels : Type := list (string * string).

Definition labelsFor (kind hook : string) : labels := [("kind", kind); ("hook", hook)].
Definition labelsBatch (hook : string) : labels :=
  labelsFor "filter" hook ++ [("batch", "true")].
Definition labelsAsync (hook : string) : labels :=
  labelsFor "action" hook ++ [("async", "true")].

Inductive log_line :=
| LogRejected (hook src : string) (err : order_error)
| LogUnknownSource (hook src constraint target : string)
| LogPanic (hook : string) (v : panic_value)
| LogKeyFnPanic (hook : string)
| LogLengthMismatch (hook : string) (expected got : nat) (token : Z)
| LogAsyncError (hook : string) (token : Z) (err : gerror).

(** [RegisterOptions] *)
Record RegisterOptions := mkOptions {
  Source : string;
  Before : list string;
  After : list string;
  Priority : Z;
}.

(** An unsubscribe closure: [noopUnsub], or the closure of one registration;
    [RegisterBatchFilter] wraps it in one that also drops an adapter. *)
Inductive unsub :=
| noopUnsub
| Unsub (kind : callKind) (name : string) (tok : Z)
| UnsubBatch (name : string) (inner : unsub).

Section bus.
Context {V : Type}.

(** What a schema enforcer sees: the running value of a filter, or the
    argument slice of an action. *)
Inductive payload :=
| PayloadValue (v : V)
| PayloadSlice (args : list V).

(** A dispatched unit of asynchronous work: one handler in its own goroutine
    ([dispatchAsync]), or a bundle handed to the ordered dispatcher. *)
Inductive async_job :=
| GoHandler (name : string) (reg : registration) (args : list V)
| OrderedJob (name key : string) (regs : list registration) (args : list V).

(** [Bus]. A slot's chain is the current snapshot; [active] holds the tokens
    whose flag is true; [unsubscribed] the closures whose [sync.Once] fired. *)
Record Bus := mkBus {
  actions : gmap string (list registration);
  filters : gmap string (list registration);
  regSeq : Z;
  active : gset Z;
  unsubscribed : gset Z;
  batchAdapters : gmap string (gmap Z nat);
  actionOpts : gmap string nat;
  schemas : option nat;
  counters : list (metric * labels);
  logs : list log_line;
  jobs : list async_job;
}.

Definition NewBus : Bus := mkBus ∅ ∅ 0 ∅ ∅ ∅ ∅ None [] [] [].

Definition chains (b : Bus) (k : callKind) : gmap string (list registration) :=
  match k with kindActionCall => actions b | kindFilterCall => filters b end.

Definition set_chain (b : Bus) (k : callKind) (name : string) (c : list registration) : Bus :=
  match k with
  | kindActionCall => mkBus (<[name := c]> (actions b)) (filters b) (regSeq b) (active b)
      (unsubscribed b) (batchAdapters b) (actionOpts b) (schemas b) (counters b) (logs b) (jobs b)
  | kindFilterCall => mkBus (actions b) (<[name := c]> (filters b)) (regSeq b) (active b)
      (unsubscribed b) (batchAdapters b) (actionOpts b) (schemas b) (counters b) (logs b) (jobs b)
  end.

Definition set_flags (b : Bus) (seq : Z) (act uns : gset Z) : Bus :=
  mkBus (actions b) (filters b) seq act uns (batchAdapters b) (actionOpts b)
    (schemas b) (counters b) (logs b) (jobs b).

Definition set_adapters (b : Bus) (m : gmap string (gmap Z nat)) : Bus :=
  mkBus (actions b) (filters b) (regSeq b) (active b) (unsubscribed b) m (actionOpts b)
    (schemas b) (counters b) (logs b) (jobs b).

Definition count (b : Bus) (m : metric) (l : labels) : Bus :=
  mkBus (actions b) (filters b) (regSeq b) (active b) (unsubscribed b) (batchAdapters b)
    (actionOpts b) (schemas b) (counters b ++ [(m, l)]) (logs b) (jobs b).

Definition log (b : Bus) (l : list log_line) : Bus :=
  mkBus (actions b) (filters b) (regSeq b) (active b) (unsubscribed b) (batchAdapters b)
    (actionOpts b) (schemas b) (counters b) (logs b ++ l) (jobs b).

Definition spawn (b : Bus) (j : async_job) : Bus :=
  mkBus (actions b) (filters b) (regSeq b) (active b) (unsubscribed b) (batchAdapters b)
    (actionOpts b) (schemas b) (counters b) (logs b) (jobs b ++ [j]).

(** [WithSchemas], [SetActionOptions] (a [KeyFn] identifier, or none). *)
Definition WithSchemas (b : Bus) (enf : option nat) : Bus :=
  mkBus (actions b) (filters b) (regSeq b) (active b) (unsubscribed b) (batchAdapters b)
    (actionOpts b) enf (counters b) (logs b) (jobs b).

Definition SetActionOptions (b : Bus) (name : string) (keyFn : option nat) : Bus :=
  mkBus (actions b) (filters b) (regSeq b) (active b) (unsubscribed b) (batchAdapters b)
    (partial_alter (λ _, keyFn) name (actionOpts b)) (schemas b) (counters b) (logs b) (jobs b).

(** ** Registration *)

(** [warnUnknownConstraints] *)
Definition warnUnknownConstraints (hook : string) (reg : registration)
    (c : list registration) : list log_line :=
  let known := filter (λ s, s ≠ "") (source <$> c) in
  let check kind targets :=
    (λ t, LogUnknownSource hook (source reg) kind t) <$> filter (λ t, t ∉ known) targets in
  check "before" (before reg) ++ check "after" (after reg).

(** [register]. The slot is created (with an empty chain) on first use, before
    the ordering is known; a self-constraint is rejected before that. *)
Definition register (b : Bus) (name : string) (kind : callKind) (isAsync : bool)
    (h : handler_ref) (opts : RegisterOptions) : Bus * (unsub * option order_error) :=
  let token := (regSeq b + 1)%Z in
  let b := set_flags b token ({[token]} ∪ active b) (unsubscribed b) in
  let reg := mkRegistration token (Priority opts) token isAsync h
               (Source opts) (Before opts) (After opts) in
  match validateSelfConstraints reg with
  | Some e => (b, (noopUnsub, Some e))
  | None =>
      let old := default [] (chains b kind !! name) in
      let b := set_chain b kind name old in
      let next := sort_by prio_lt (filter (λ r, HookOrder.token r ∈ active b) old ++ [reg]) in
      match orderChain next with
      | Err e => (log b [LogRejected name (Source opts) e], (noopUnsub, Some e))
      | Ok ordered =>
          (set_chain (log b (warnUnknownConstraints name reg next)) kind name ordered,
           (Unsub kind name token, None))
      end
  end.

(** The unsubscribe closure [register] returns. *)
Definition unsubscribe_reg (b : Bus) (kind : callKind) (name : string) (tok : Z) : Bus :=
  if decide (tok ∈ unsubscribed b) then b
  else
    let b := set_flags b (regSeq b) (active b ∖ {[tok]}) ({[tok]} ∪ unsubscribed b) in
    let cur := default [] (chains b kind !! name) in
    let pruned := filter (λ r, token r ≠ tok ∧ token r ∈ active b) cur in
    set_chain b kind name
      match orderChain pruned with Ok ordered => ordered | Err _ => pruned end.

(** Calling an unsubscribe closure. The batch closure deletes the adapter at
    the sequence number current when it is called. *)
Fixpoint unsubscribe (b : Bus) (u : unsub) : Bus :=
  match u with
  | noopUnsub => b
  | Unsub kind name tok => unsubscribe_reg b kind name tok
  | UnsubBatch name inner =>
      let b := unsubscribe b inner in
      set_adapters b (alter (delete (regSeq b)) name (batchAdapters b))
  end.

Definition RegisterAction (b : Bus) (name : string) (priority : Z) (h : nat) : Bus * unsub :=
  let r := register b name kindActionCall false (PlainHandler h) (mkOptions "" [] [] priority) in
  (r.1, r.2.1).

Definition RegisterAsync (b : Bus) (name : string) (priority : Z) (h : nat) : Bus * unsub :=
  let r := register b name kindActionCall true (PlainHandler h) (mkOptions "" [] [] priority) in
  (r.1, r.2.1).

Definition RegisterFilter (b : Bus) (name : string) (priority : Z) (h : nat) : Bus * unsub :=
  let r := register b name kindFilterCall false (PlainHandler h) (mkOptions "" [] [] priority) in
  (r.1, r.2.1).

Definition RegisterActionWithOptions (b : Bus) (name : string) (opts : RegisterOptions)
    (h : nat) : Bus * (unsub * option order_error) :=
  register b name kindActionCall false (PlainHandler h) opts.

Definition RegisterAsyncWithOptions (b : Bus) (name : string) (opts : RegisterOptions)
    (h : nat) : Bus * (unsub * option order_error) :=
  register b name kindActionCall true (PlainHandler h) opts.

Definition RegisterFilterWithOptions (b : Bus) (name : string) (opts : RegisterOptions)
    (h : nat) : Bus * (unsub * option order_error) :=
  register b name kindFilterCall false (PlainHandler h) opts.

(** [RegisterBatchFilter] (with a non-nil handler). *)
Definition RegisterBatchFilter (b : Bus) (name : string) (priority : Z) (h : nat)
    : Bus * unsub :=
  let r := register b name kindFilterCall false (BatchWrapper h) (mkOptions "" [] [] priority) in
  let b := r.1 in
  let m := default ∅ (batchAdapters b !! name) in
  (set_adapters b (<[name := <[regSeq b := h]> m]> (batchAdapters b)),
   UnsubBatch name r.2.1).

(** [batchAdapterFor] *)
Definition batchAdapterFor (b : Bus) (name : string) (tok : Z) : option nat :=
  batchAdapters b !! name ≫= λ m, m !! tok.

(** ** Dispatch *)

(** The interpretation of the identifiers: handlers act on the bus; a batch
    handler may also overwrite the slice it is given, in place. *)
Context (run_action : nat → list V → Bus → Bus * outcome (option gerror)).
Context (run_filter : nat → V → list V → Bus → Bus * outcome (V * option gerror)).
Context (run_batch : nat → list V → list V → Bus →
           Bus * list V * outcome (list V * option gerror)).
Context (validate : nat → string → payload → option gerror).
Context (key_fn : nat → list V → outcome string).

(** The filter function of a registration: for a batch handler, the wrapper
    that applies it to a singleton slice. *)
Definition call_filter (h : handler_ref) (name : string) (v : V) (args : list V)
    (b : Bus) : Bus * outcome (V * option gerror) :=
  match h with
  | PlainHandler id => run_filter id v args b
  | BatchWrapper id =>
      let '(b, _, o) := run_batch id [v] args b in
      (b, match o with
          | Panic p => Panic p
          | Return (_, Some e) => Return (v, Some e)
          | Return ([out], None) => Return (out, None)
          | Return (_, None) => Return (v, Some (ErrPlain "hooks: batch filter length"))
          end)
  end.

Definition call_action (h : handler_ref) (args : list V) (b : Bus)
    : Bus * outcome (option gerror) :=
  match h with PlainHandler id | BatchWrapper id => run_action id args b end.

(** [invokeActionRaw] *)
Definition invokeActionRaw (b : Bus) (name : string) (idx : Z) (reg : registration)
    (args : list V) : Bus * option gerror :=
  let '(b, o) := call_action (handler reg) args b in
  match o with
  | Return None => (b, None)
  | Return (Some e) => (count b metricHandlerError (labelsFor "action" name), Some e)
  | Panic v => (log (count b metricHandlerPanic (labelsFor "action" name)) [LogPanic name v],
                Some (ErrPanic name idx v))
  end.

(** [dispatchAsync], and the goroutine it starts. *)
Definition dispatchAsync (b : Bus) (name : string) (reg : registration) (args : list V) : Bus :=
  spawn (count b metricDispatchTotal (labelsAsync name)) (GoHandler name reg args).

Definition async_body (b : Bus) (name : string) (reg : registration) (args : list V) : Bus :=
  let '(b, err) := invokeActionRaw b name (-1) reg args in
  match err with
  | Some e => log b [LogAsyncError name (token reg) e]
  | None => b
  end.

(** [safeKey] *)
Definition safeKey (b : Bus) (name : string) (fn : nat) (args : list V) : Bus * string :=
  match key_fn fn args with
  | Return key => (b, key)
  | Panic v => (log b [LogKeyFnPanic name], "")
  end.

(** The loop of [Do] over the snapshot; [i] is the position in the chain. *)
Fixpoint do_loop (b : Bus) (name : string) (hasOrdered : bool) (args : list V)
    (i : Z) (snapshot : list registration)
    : Bus * list gerror * list registration :=
  match snapshot with
  | [] => (b, [], [])
  | reg :: rest =>
      if decide (token reg ∈ active b) then
        if async reg then
          if hasOrdered then
            let '(b, errs, regs) := do_loop b name hasOrdered args (i + 1) rest in
            (b, errs, reg :: regs)
          else
            do_loop (dispatchAsync b name reg args) name hasOrdered args (i + 1) rest
        else
          let '(b, err) := invokeActionRaw b name i reg args in
          let '(b, errs, regs) := do_loop b name hasOrdered args (i + 1) rest in
          (b, match err with Some e => e :: errs | None => errs end, regs)
      else do_loop b name hasOrdered args (i + 1) rest
  end.

(** [Do]. [enqueue] is how the ordered dispatcher answers, should the event
    reach it: [None] when the job was queued. *)
Definition Do (enqueue : option gerror) (b : Bus) (name : string) (args : list V)
    : Bus * option gerror :=
  let b := count b metricDispatchTotal (labelsFor "action" name) in
  match schemas b ≫= λ enf, validate enf name (PayloadSlice args) with
  | Some e => (count b metricSchemaRejected (labelsFor "action" name), Some e)
  | None =>
      match actions b !! name with
      | None | Some [] => (b, None)
      | Some snapshot =>
          let ordered := actionOpts b !! name in
          let '(b, errs, asyncRegs) :=
            do_loop b name (bool_decide (is_Some ordered)) args 0 snapshot in
          let '(b, errs) :=
            match ordered, asyncRegs with
            | Some fn, _ :: _ =>
                let '(b, key) := safeKey b name fn args in
                match enqueue with
                | None => (spawn b (OrderedJob name key asyncRegs args), errs)
                | Some e => (b, errs ++ [e])
                end
            | _, _ => (b, errs)
            end in
          (b, match errs with [] => None | _ => Some (ErrJoin errs) end)
      end
  end.

(** [invokeFilter] *)
Definition invokeFilter (b : Bus) (name : string) (idx : Z) (reg : registration)
    (value : V) (args : list V) : Bus * (V * option gerror) :=
  let '(b, o) := call_filter (handler reg) name value args b in
  match o with
  | Return (v, None) => (b, (v, None))
  | Return (v, Some e) =>
      (if is_short_circuit e then b
       else count b metricHandlerError (labelsFor "filter" name), (v, Some e))
  | Panic p => (log (count b metricHandlerPanic (labelsFor "filter" name)) [LogPanic name p],
                (value, Some (ErrPanic name idx p)))
  end.

(** The loop of [ApplyFilters]. *)
Fixpoint filter_loop (b : Bus) (name : string) (args : list V) (i : Z)
    (snapshot : list registration) (current : V) : Bus * (V * option gerror) :=
  match snapshot with
  | [] => (b, (current, None))
  | reg :: rest =>
      if decide (token reg ∈ active b) then
        let '(b, (next, err)) := invokeFilter b name i reg current args in
        match err with
        | Some e =>
            if is_short_circuit e
            then (count b metricShortCircuit [("hook", name)], (next, None))
            else (b, (current, Some e))
        | None => filter_loop b name args (i + 1) rest next
        end
      else filter_loop b name args (i + 1) rest current
  end.

(** [ApplyFilters] *)
Definition ApplyFilters (b : Bus) (name : string) (value : V) (args : list V)
    : Bus * (V * option gerror) :=
  let b := count b metricDispatchTotal (labelsFor "filter" name) in
  match schemas b ≫= λ enf, validate enf name (PayloadValue value) with
  | Some e => (count b metricSchemaRejected (labelsFor "filter" name), (value, Some e))
  | None => filter_loop b name args 0 (default [] (filters b !! name)) value
  end.

(** The legacy path of [invokeBatch]: the per-item filter over the slice.
    Answers the slice built, or the error that stopped it. *)
Fixpoint batch_items (b : Bus) (name : string) (h : handler_ref) (args : list V)
    (items : list V) : Bus * outcome (list V * option gerror) :=
  match items with
  | [] => (b, Return ([], None))
  | v :: rest =>
      let '(b, o) := call_filter h name v args b in
      match o with
      | Panic p => (b, Panic p)
      | Return (next, Some e) =>
          if is_short_circuit e then (b, Return (next :: rest, Some ErrShortCircuit))
          else (count b metricHandlerError (labelsBatch name), Return ([], Some e))
      | Return (next, None) =>
          let '(b, o) := batch_items b name h args rest in
          (b, match o with
              | Return (out, None) => Return (next :: out, None)
              | Return (out, Some e) => Return (next :: out, Some e)
              | Panic p => Panic p
              end)
      end
  end.

(** [invokeBatch]: answers the running slice after the call (a batch handler
    may have written to it), the result and the error. *)
Definition invokeBatch (b : Bus) (name : string) (idx : Z) (reg : registration)
    (items : list V) (args : list V) : Bus * list V * (list V * option gerror) :=
  let '(b, items, o) :=
    match batchAdapterFor b name (token reg) with
    | Some h =>
        let '(b, items', o) := run_batch h items args b in
        (match o with
         | Return (_, Some e) =>
             if is_short_circuit e then b
             else count b metricHandlerError (labelsBatch name)
         | _ => b
         end, items', o)
    | None =>
        let '(b, o) := batch_items b name (handler reg) args items in
        (b, items,
         match o with
         | Return (out, Some e) =>
             Return (if is_short_circuit e then (out, Some ErrShortCircuit) else (items, Some e))
         | _ => o
         end)
    end in
  match o with
  | Return r => (b, items, r)
  | Panic p => (log (count b metricHandlerPanic (labelsBatch name)) [LogPanic name p],
                items, (items, Some (ErrPanic name idx p)))
  end.

(** The loop of [ApplyBatch]. *)
Fixpoint batch_loop (b : Bus) (name : string) (args : list V) (i : Z)
    (snapshot : list registration) (current : list V) : Bus * (list V * option gerror) :=
  match snapshot with
  | [] => (b, (current, None))
  | reg :: rest =>
      if decide (token reg ∈ active b) then
        let '(b, current, (next, err)) := invokeBatch b name i reg current args in
        match err with
        | Some e =>
            if is_short_circuit e
            then (count b metricShortCircuit [("hook", name)], (next, None))
            else (b, (current, Some e))
        | None =>
            if decide (length next = length current)
            then batch_loop b name args (i + 1) rest next
            else batch_loop
                   (log b [LogLengthMismatch name (length current) (length next) (token reg)])
                   name args (i + 1) rest current
        end
      else batch_loop b name args (i + 1) rest current
  end.

(** The first item the enforcer refuses. *)
Fixpoint validate_items (enf : nat) (name : string) (i : Z) (items : list V) : option gerror :=
  match items with
  | [] => None
  | v :: rest =>
      match validate enf name (PayloadValue v) with
      | Some e => Some (ErrWrap (pretty.pretty i) e)
      | None => validate_items enf name (i + 1) rest
      end
  end.

(** [ApplyBatch] *)
Definition ApplyBatch (b : Bus) (name : string) (items : list V) (args : list V)
    : Bus * (list V * option gerror) :=
  let b := count b metricDispatchTotal (labelsBatch name) in
  match schemas b ≫= λ enf, validate_items enf name 0 items with
  | Some e => (count b metricSchemaRejected (labelsBatch name), (items, Some e))
  | None => batch_loop b name args 0 (default [] (filters b !! name)) items
  end.
End bus.

Arguments Bus V : clear implicits.
Arguments payload V : clear implicits.
Arguments async_job V : clear implicits.

(** ** Invariant of the chains *)

Section invariant.
Context {V : Type}.
Implicit Types b : Bus V.

(** A bus and the unsubscribe closures handed out so far: the runs of
    registrations, calls of closures that exist (any number of times, in any
    order) and configuration changes. *)
Inductive bus_run : Bus V → list unsub → Prop :=
| run_new : bus_run NewBus []
| run_register b us name kind isAsync h opts :
    bus_run b us →
    bus_run (register b name kind isAsync h opts).1
            ((register b name kind isAsync h opts).2.1 :: us)
| run_batch b us name priority h :
    bus_run b us →
    bus_run (RegisterBatchFilter b name priority h).1
            ((RegisterBatchFilter b name priority h).2 :: us)
| run_unsubscribe b us u :
    bus_run b us → u ∈ us → bus_run (unsubscribe b u) us
| run_options b us name fn : bus_run b us → bus_run (SetActionOptions b name fn) us
| run_schemas b us enf : bus_run b us → bus_run (WithSchemas b enf) us.

Definition chain_at b (k : callKind) (name : string) : list registration :=
  default [] (chains b k !! name).

(** What a published chain guarantees. *)
Record chain_ok b (c : list registration) : Prop := {
  co_forward : forward c;
  co_nodup : NoDup (token <$> c);
  co_reg r : r ∈ c → (token r ≤ regSeq b)%Z ∧ regOrder r = token r;
  co_active r : r ∈ c → token r ∈ active b;
}.

Record bus_ok b : Prop := {
  bo_chain k name : chain_ok b (chain_at b k name);
  bo_active t : t ∈ active b → (t ≤ regSeq b)%Z;
  bo_disjoint k name k' name' r r' :
    r ∈ chain_at b k name → r' ∈ chain_at b k' name' → token r = token r' →
    k = k' ∧ name = name';
}.

Lemma chain_at_set b k name c k' name' :
  chain_at (set_chain b k name c) k' name' =
  if decide (k' = k ∧ name' = name) then c else chain_at b k' name'.
Proof.
  unfold chain_at. destruct (decide _) as [[-> ->]|Hne].
  - destruct k; simpl; by rewrite lookup_insert_eq.
  - destruct k, k'; simpl; try done; (rewrite lookup_insert_ne; [done|]);
      intros ->; by apply Hne.
Qed.

Lemma bus_ok_ext b b' :
  (∀ k, chains b' k = chains b k) → regSeq b' = regSeq b → active b' = active b →
  bus_ok b → bus_ok b'.
Proof.
  intros Hc Hs Ha [H1 H2 H3].
  assert (∀ k name, chain_at b' k name = chain_at b k name) as Hat.
  { intros. unfold chain_at. by rewrite Hc. }
  split.
  - intros k name. rewrite Hat. destruct (H1 k name) as [? ? Hr Hac].
    split; [done|done| |]; [by rewrite Hs|by rewrite Ha].
  - by rewrite Ha, Hs.
  - intros k name k' name' r r'. rewrite !Hat. eauto.
Qed.

(** Replacing one chain, and the flags, keeps the invariant. *)
Lemma bus_ok_set_chain b b' k name c :
  bus_ok b → (regSeq b ≤ regSeq b')%Z →
  (∀ k' name', (k', name') ≠ (k, name) → chain_at b' k' name' = chain_at b k' name') →
  chain_at b' k name = c → chain_ok b' c →
  (∀ t, t ∈ active b' → (t ≤ regSeq b')%Z) →
  (∀ k' name' r, (k', name') ≠ (k, name) → r ∈ chain_at b k' name' → token r ∈ active b') →
  (∀ k' name' r r', (k', name') ≠ (k, name) → r ∈ chain_at b k' name' → r' ∈ c →
     token r ≠ token r') →
  bus_ok b'.
Proof.
  intros [H1 H2 H3] Hseq Hother Hc Hok Hact Hoa Hdis. split; [|done|].
  - intros k' name'. destruct (decide ((k', name') = (k, name))) as [[= -> ->]|Hne];
      [by rewrite Hc|].
    rewrite Hother by done. destruct (H1 k' name') as [? ? Hr ?].
    split; [done|done| |by eauto]. intros r Hin. destruct (Hr r Hin). split; [lia|done].
  - intros k1 n1 k2 n2 r1 r2.
    destruct (decide ((k1, n1) = (k, name))) as [[= -> ->]|Hne1];
    destruct (decide ((k2, n2) = (k, name))) as [[= -> ->]|Hne2];
      rewrite ?Hc, ?Hother by done.
    + done.
    + intros Hr1 Hr2 E. by destruct (Hdis k2 n2 r2 r1 Hne2 Hr2 Hr1).
    + intros Hr1 Hr2 E. by destruct (Hdis k1 n1 r1 r2 Hne1 Hr1 Hr2).
    + apply H3.
Qed.

(** Dropping the inactive entries of a chain of the invariant drops nothing. *)
Lemma filter_active b k name :
  bus_ok b → filter (λ r, token r ∈ active b) (chain_at b k name) = chain_at b k name.
Proof.
  intros Hok. apply filter_all. intros r Hr. by apply (co_active _ _ (bo_chain _ Hok k name)).
Qed.

Lemma forward_filter (P : registration → Prop) `{∀ r, Decision (P r)} c :
  forward c → forward (filter P c).
Proof. apply forward_sublist, sublist_filter. Qed.

(** *** Registration *)

(** The row a registration adds. *)
Definition new_reg b (isAsync : bool) (h : handler_ref) (opts : RegisterOptions)
    : registration :=
  mkRegistration (regSeq b + 1) (Priority opts) (regSeq b + 1) isAsync h
    (Source opts) (Before opts) (After opts).

(** The chain ordered at a registration: the live rows and the new one, by
    priority and registration order. *)
Definition next_chain b (kind : callKind) (name : string) (reg : registration)
    : list registration :=
  sort_by prio_lt (chain_at b kind name ++ [reg]).

Lemma bus_ok_issue b :
  bus_ok b →
  bus_ok (set_flags b (regSeq b + 1) ({[(regSeq b + 1)%Z]} ∪ active b) (unsubscribed b)).
Proof.
  intros [H1 H2 H3]. split; [| |done].
  - intros k name. destruct (H1 k name) as [? ? Hr Hac].
    split; [done|done| |].
    + intros r Hin. destruct (Hr r Hin). simpl. split; [lia|done].
    + intros r Hin. simpl. specialize (Hac r Hin). set_solver.
  - simpl. intros t [->%elem_of_singleton|Ht%H2]%elem_of_union; lia.
Qed.

(** [register], with the pruning of tombstones resolved. *)
Lemma register_cases b name kind isAsync h opts :
  bus_ok b →
  let reg := new_reg b isAsync h opts in
  let b1 := set_flags b (regSeq b + 1) ({[(regSeq b + 1)%Z]} ∪ active b) (unsubscribed b) in
  register b name kind isAsync h opts =
  match validateSelfConstraints reg with
  | Some e => (b1, (noopUnsub, Some e))
  | None =>
      let b2 := set_chain b1 kind name (chain_at b kind name) in
      let next := next_chain b kind name reg in
      match orderChain next with
      | Err e => (log b2 [LogRejected name (Source opts) e], (noopUnsub, Some e))
      | Ok ordered =>
          (set_chain (log b2 (warnUnknownConstraints name reg next)) kind name ordered,
           (Unsub kind name (regSeq b + 1), None))
      end
  end.
Proof.
  intros Hok reg b1. unfold register. cbv zeta. fold (new_reg b isAsync h opts).
  change (mkRegistration (regSeq b + 1) (Priority opts) (regSeq b + 1) isAsync h
    (Source opts) (Before opts) (After opts)) with (new_reg b isAsync h opts).
  fold reg. fold b1. destruct (validateSelfConstraints reg); [done|].
  assert (default [] (chains b1 kind !! name) = chain_at b kind name) as Hold.
  { unfold chain_at. by destruct kind. }
  rewrite Hold.
  assert (active (set_chain b1 kind name (chain_at b kind name)) = active b1) as Hact
    by by destruct kind.
  rewrite Hact. pose proof (filter_active b1 kind name (bus_ok_issue _ Hok)) as Hfil.
  unfold chain_at in Hfil. rewrite Hold in Hfil. rewrite Hfil. done.
Qed.

Lemma regSeq_fresh b k name r :
  bus_ok b → r ∈ chain_at b k name → token r ≠ (regSeq b + 1)%Z.
Proof.
  intros Hok Hr. destruct (co_reg _ _ (bo_chain _ Hok k name) r Hr). lia.
Qed.

Lemma next_chain_perm b kind name reg :
  next_chain b kind name reg ≡ₚ reg :: chain_at b kind name.
Proof.
  unfold next_chain. rewrite sort_by_Permutation. apply Permutation_sym, Permutation_cons_append.
Qed.

Lemma chain_at_log b l k name : chain_at (log b l) k name = chain_at b k name.
Proof. by destruct k. Qed.

Lemma bus_ok_set_same b k name : bus_ok b → bus_ok (set_chain b k name (chain_at b k name)).
Proof.
  intros Hok. apply (bus_ok_set_chain b _ k name (chain_at b k name)); try done.
  - by destruct k.
  - intros k' name' Hne. rewrite chain_at_set. by rewrite decide_False by naive_solver.
  - by rewrite chain_at_set, decide_True.
  - destruct (bo_chain _ Hok k name) as [? ? Hr Ha]. split; [done|done| |].
    + intros r Hin. destruct (Hr r Hin). by destruct k.
    + intros r Hin. specialize (Ha r Hin). by destruct k.
  - intros t. destruct k; apply Hok.
  - intros k' name' r _ Hin. pose proof (co_active _ _ (bo_chain _ Hok k' name') r Hin).
    by destruct k.
  - intros k' name' r r' Hne Hr Hr' E.
    destruct (bo_disjoint _ Hok _ _ _ _ _ _ Hr Hr' E). naive_solver.
Qed.

Lemma bus_ok_register b name kind isAsync h opts :
  bus_ok b → bus_ok (register b name kind isAsync h opts).1.
Proof.
  intros Hok. pose proof (bus_ok_issue _ Hok) as Hok1.
  rewrite (register_cases _ _ _ _ _ _ Hok). cbv zeta.
  set (b1 := set_flags _ _ _ _) in *. set (reg := new_reg _ _ _ _).
  destruct (validateSelfConstraints reg); [done|].
  assert (∀ k n, chain_at b1 k n = chain_at b k n) as Hat1 by (intros [] ?; done).
  assert (bus_ok (set_chain b1 kind name (chain_at b kind name))) as Hok2.
  { rewrite <-Hat1. by apply bus_ok_set_same. }
  destruct (orderChain _) as [ordered|e] eqn:Ho; simpl.
  2:{ by eapply bus_ok_ext; [..|exact Hok2]. }
  apply orderChain_forward_out in Ho as [Hf Hp].
  rewrite next_chain_perm in Hp.
  assert (∀ r, r ∈ ordered → r = reg ∨ r ∈ chain_at b kind name) as Hmem.
  { intros r Hin. rewrite Hp in Hin. by apply elem_of_cons in Hin. }
  apply (bus_ok_set_chain b1 _ kind name ordered); try done.
  - by destruct kind.
  - intros k' n' Hne. rewrite chain_at_set, decide_False by naive_solver.
    rewrite chain_at_log, chain_at_set. by rewrite decide_False by naive_solver.
  - by rewrite chain_at_set, decide_True.
  - destruct (bo_chain _ Hok kind name) as [_ Hnd Hr Ha]. split.
    + done.
    + rewrite Hp. simpl. constructor; [|done].
      intros (r & E & Hin)%list_elem_of_fmap. by eapply (regSeq_fresh b kind name r).
    + intros r [->|Hin]%Hmem.
      * by destruct kind.
      * destruct (Hr r Hin). split; [destruct kind; simpl; lia|done].
    + intros r [->|Hin]%Hmem.
      * destruct kind; simpl; set_solver.
      * specialize (Ha r Hin). destruct kind; simpl; set_solver.
  - intros t. destruct kind; apply Hok1.
  - intros k' n' r _ Hin. pose proof (co_active _ _ (bo_chain _ Hok1 k' n') r Hin).
    by destruct kind.
  - intros k' n' r r' Hne Hr. rewrite Hat1 in Hr.
    intros [->|Hin]%Hmem E; [by eapply (regSeq_fresh b k' n' r)|].
    destruct (bo_disjoint _ Hok _ _ _ _ _ _ Hr Hin E). naive_solver.
Qed.

(** *** Unsubscription *)

(** The pruned chain is already in order: [orderChain] returns it unchanged. *)
Lemma orderChain_filter (P : registration → Prop) `{∀ r, Decision (P r)} c :
  forward c → orderChain (filter P c) = Ok (filter P c).
Proof.
  intros Hf. by apply orderChain_id, forward_filter.
Qed.

(** The bus after a first call of an unsubscribe closure. *)
Lemma unsubscribe_reg_cases b kind name tok :
  bus_ok b → tok ∉ unsubscribed b →
  let b1 := set_flags b (regSeq b) (active b ∖ {[tok]}) ({[tok]} ∪ unsubscribed b) in
  unsubscribe_reg b kind name tok =
    set_chain b1 kind name (filter (λ r, token r ≠ tok) (chain_at b kind name)).
Proof.
  intros Hok Hu b1. unfold unsubscribe_reg. rewrite decide_False by done.
  cbv zeta. fold b1.
  assert (filter (λ r, token r ≠ tok ∧ token r ∈ active b1) (chain_at b1 kind name) =
    filter (λ r, token r ≠ tok) (chain_at b kind name)) as E.
  { replace (chain_at b1 kind name) with (chain_at b kind name) by by destruct kind.
    apply filter_agree. intros r Hr.
    pose proof (co_active _ _ (bo_chain _ Hok kind name) r Hr). simpl. set_solver. }
  unfold chain_at at 1 in E. rewrite E.
  rewrite orderChain_filter; [done|]. apply Hok.
Qed.

Lemma chain_at_unsubscribe b kind name tok k n :
  bus_ok b → tok ∉ unsubscribed b →
  chain_at (unsubscribe_reg b kind name tok) k n =
  if decide (k = kind ∧ n = name)
  then filter (λ r, token r ≠ tok) (chain_at b k n) else chain_at b k n.
Proof.
  intros Hok Hu. rewrite unsubscribe_reg_cases by done. cbv zeta.
  rewrite chain_at_set. destruct (decide _) as [[-> ->]|]; [done|]. by destruct k.
Qed.

(** A closure's token is issued, and no row outside its slot carries it. *)
Definition owns b (kind : callKind) (name : string) (tok : Z) : Prop :=
  (tok ≤ regSeq b)%Z ∧
  ∀ k n r, r ∈ chain_at b k n → token r = tok → k = kind ∧ n = name.

Fixpoint unsub_ok b (u : unsub) : Prop :=
  match u with
  | noopUnsub => True
  | Unsub kind name tok => owns b kind name tok
  | UnsubBatch _ inner => unsub_ok b inner
  end.

Lemma bus_ok_unsubscribe_reg b kind name tok :
  bus_ok b →
  (∀ k n r, r ∈ chain_at b k n → token r = tok → k = kind ∧ n = name) →
  bus_ok (unsubscribe_reg b kind name tok).
Proof.
  intros Hok Hown. destruct (decide (tok ∈ unsubscribed b)) as [Hu|Hu].
  { unfold unsubscribe_reg. by rewrite decide_True. }
  pose proof (chain_at_unsubscribe b kind name tok) as Hat.
  assert (regSeq (unsubscribe_reg b kind name tok) = regSeq b ∧
    active (unsubscribe_reg b kind name tok) = active b ∖ {[tok]}) as [Es Ea].
  { rewrite unsubscribe_reg_cases by done. by destruct kind. }
  apply (bus_ok_set_chain b _ kind name (filter (λ r, token r ≠ tok) (chain_at b kind name)));
    rewrite ?Es, ?Ea; try done.
  - intros k' n' Hne. rewrite Hat by done. by rewrite decide_False by naive_solver.
  - rewrite Hat by done. by rewrite decide_True.
  - destruct (bo_chain _ Hok kind name) as [Hf Hnd Hr Hac]. split.
    + by apply forward_filter.
    + eapply sublist_NoDup; [exact Hnd|]. apply fmap_sublist, sublist_filter.
    + intros r [_ Hin]%list_elem_of_filter. rewrite Es. by apply Hr.
    + intros r [Hne Hin]%list_elem_of_filter. rewrite Ea.
      specialize (Hac r Hin). set_solver.
  - intros t Ht. apply (bo_active _ Hok). set_solver.
  - intros k' n' r Hne Hin. pose proof (co_active _ _ (bo_chain _ Hok k' n') r Hin).
    assert (token r ≠ tok); [|set_solver]. intros E.
    destruct (Hown _ _ _ Hin E). naive_solver.
  - intros k' n' r r' Hne Hr [_ Hr']%list_elem_of_filter E.
    destruct (bo_disjoint _ Hok _ _ _ _ _ _ Hr Hr' E). naive_solver.
Qed.

(** A registration's rows afterwards: the old ones, and on success the new
    one in its slot. *)
Lemma register_rows b name kind isAsync h opts k n r :
  bus_ok b → r ∈ chain_at (register b name kind isAsync h opts).1 k n →
  r ∈ chain_at b k n ∨
  (r = new_reg b isAsync h opts ∧ k = kind ∧ n = name).
Proof.
  intros Hok. rewrite (register_cases _ _ _ _ _ _ Hok). cbv zeta.
  destruct (validateSelfConstraints _); [by left; destruct k|].
  destruct (orderChain _) as [ordered|e] eqn:Ho; simpl.
  - rewrite chain_at_set. destruct (decide _) as [[-> ->]|].
    + apply orderChain_forward_out in Ho as [_ Hp]. intros Hr.
      rewrite Hp, next_chain_perm in Hr. apply elem_of_cons in Hr as [->|]; auto.
    + rewrite chain_at_log, chain_at_set. destruct (decide _); [tauto|].
      intros. left. by destruct k.
  - rewrite chain_at_log, chain_at_set. destruct (decide _) as [[-> ->]|]; [auto|].
    intros. left. by destruct k.
Qed.

Lemma regSeq_register b name kind isAsync h opts :
  regSeq (register b name kind isAsync h opts).1 = (regSeq b + 1)%Z.
Proof.
  unfold register. cbv zeta. destruct (validateSelfConstraints _); [done|].
  destruct (orderChain _); by destruct kind.
Qed.

Lemma owns_register b name kind isAsync h opts k n tok :
  bus_ok b → owns b k n tok → owns (register b name kind isAsync h opts).1 k n tok.
Proof.
  intros Hok [Hle Hown]. split; [rewrite regSeq_register; lia|].
  intros k' n' r [Hr|(-> & -> & ->)]%register_rows; [|simpl; lia|done]. by apply Hown.
Qed.

Lemma unsub_ok_register b name kind isAsync h opts u :
  bus_ok b → unsub_ok b u → unsub_ok (register b name kind isAsync h opts).1 u.
Proof. intros Hok. induction u; simpl; auto using owns_register. Qed.

Lemma unsub_ok_registered b name kind isAsync h opts :
  bus_ok b →
  unsub_ok (register b name kind isAsync h opts).1 (register b name kind isAsync h opts).2.1.
Proof.
  intros Hok. pose proof (regSeq_register b name kind isAsync h opts) as Hs.
  pose proof (register_rows b name kind isAsync h opts) as Hr.
  destruct (register b name kind isAsync h opts) as [b' [u e]] eqn:E.
  assert (u = noopUnsub ∨ u = Unsub kind name (regSeq b + 1)) as [->| ->]; [|done|].
  { rewrite (register_cases _ _ _ _ _ _ Hok) in E. cbv zeta in E.
    repeat case_match; simplify_eq/=; auto. }
  split; simpl in *; [lia|]. intros k n r [Hin|(-> & -> & ->)]%Hr Ht; [|done|done].
  by destruct (regSeq_fresh b k n r).
Qed.

Lemma owns_mono b b' k n tok :
  (regSeq b ≤ regSeq b')%Z →
  (∀ k n r, r ∈ chain_at b' k n → r ∈ chain_at b k n) →
  owns b k n tok → owns b' k n tok.
Proof. intros ? ? [? ?]. split; [lia|eauto]. Qed.

Lemma unsub_ok_mono b b' u :
  (regSeq b ≤ regSeq b')%Z →
  (∀ k n r, r ∈ chain_at b' k n → r ∈ chain_at b k n) →
  unsub_ok b u → unsub_ok b' u.
Proof. intros. induction u; simpl; eauto using owns_mono. Qed.

Lemma unsubscribe_rows b u :
  bus_ok b → unsub_ok b u →
  bus_ok (unsubscribe b u) ∧ regSeq (unsubscribe b u) = regSeq b ∧
  ∀ k n r, r ∈ chain_at (unsubscribe b u) k n → r ∈ chain_at b k n.
Proof.
  intros Hok. induction u as [|kind name tok|name u IH]; simpl; intros Hu.
  - done.
  - destruct (decide (tok ∈ unsubscribed b)) as [Hin|Hin].
    { unfold unsubscribe_reg. by rewrite decide_True. }
    split; [by apply bus_ok_unsubscribe_reg; [|apply Hu]|]. split.
    + rewrite unsubscribe_reg_cases by done. by destruct kind.
    + intros k n r. rewrite chain_at_unsubscribe by done.
      case_decide; [|done]. by intros [_ ?]%list_elem_of_filter.
  - destruct (IH Hu) as (? & ? & Hr). split; [|split; [done|]].
    + by eapply bus_ok_ext; [..|eassumption].
    + intros k n r Hin. apply Hr. by destruct k.
Qed.

Lemma bus_run_ok b us : bus_run b us → bus_ok b ∧ Forall (unsub_ok b) us.
Proof.
  induction 1 as [|b us name kind isAsync h opts _ [Hok Hus]
    |b us name priority h _ [Hok Hus]|b us u _ [Hok Hus] Hu
    |b us name fn _ [Hok Hus]|b us enf _ [Hok Hus]].
  - split; [|constructor]. split; [|set_solver|].
    + intros [] name; (split; [intros i j (? & a & ? & Ha & _); done|constructor|set_solver..]).
    + intros [] name k' name' r r' Hr; by apply not_elem_of_nil in Hr.
  - split; [by apply bus_ok_register|]. constructor; [by apply unsub_ok_registered|].
    eapply Forall_impl; [done|]. intros. by apply unsub_ok_register.
  - unfold RegisterBatchFilter. cbv zeta. set (o := mkOptions _ _ _ _). simpl.
    pose proof (bus_ok_register b name kindFilterCall false (BatchWrapper h) o Hok) as Hok'.
    split; [by eapply bus_ok_ext; [..|exact Hok']|].
    assert (Forall (unsub_ok (register b name kindFilterCall false (BatchWrapper h) o).1)
      ((register b name kindFilterCall false (BatchWrapper h) o).2.1 :: us)) as Hall.
    { constructor; [by apply unsub_ok_registered|].
      eapply Forall_impl; [done|]. intros. by apply unsub_ok_register. }
    apply Forall_cons in Hall as [Hu Hall]. constructor.
    + simpl. eapply unsub_ok_mono; [| |exact Hu]; [done|by intros []].
    + eapply Forall_impl; [exact Hall|]. intros u Hu'.
      eapply unsub_ok_mono; [| |exact Hu']; [done|by intros []].
  - rewrite Forall_forall in Hus. destruct (unsubscribe_rows b u Hok) as (? & Hs & Hr); [auto|].
    split; [done|]. apply Forall_forall. intros u' Hu'.
    eapply unsub_ok_mono; [|exact Hr|by apply Hus]. lia.
  - split; [by eapply bus_ok_ext; [..|exact Hok]|].
    eapply Forall_impl; [done|]. intros u Hu.
    eapply unsub_ok_mono; [| |exact Hu]; [done|by intros []].
  - split; [by eapply bus_ok_ext; [..|exact Hok]|].
    eapply Forall_impl; [done|]. intros u Hu.
    eapply unsub_ok_mono; [| |exact Hu]; [done|by intros []].
Qed.

(** Whatever registrations, unsubscriptions and configuration changes a
    bus has seen, every published chain satisfies all before/after constraints
    between its rows, names no registration twice, and holds live rows only. *)
Theorem chains_ordered b us k name :
  bus_run b us →
  forward (chain_at b k name) ∧ NoDup (token <$> chain_at b k name) ∧
  (∀ r, r ∈ chain_at b k name → token r ∈ active b).
Proof.
  intros [Hok _]%bus_run_ok. destruct (bo_chain _ Hok k name) as [? ? _ ?]. done.
Qed.

(** Calling an unsubscribe closure removes exactly its own row and keeps
    the relative order of the others (so re-running the ordering on the pruned
    chain never moves a handler), touches no other slot, and a second call
    changes nothing. *)
Theorem unsubscribe_removes b us kind name tok :
  bus_run b us → Unsub kind name tok ∈ us → tok ∉ unsubscribed b →
  let b' := unsubscribe b (Unsub kind name tok) in
  chain_at b' kind name = filter (λ r, token r ≠ tok) (chain_at b kind name) ∧
  (∀ k n, (k, n) ≠ (kind, name) → chain_at b' k n = chain_at b k n) ∧
  active b' = active b ∖ {[tok]} ∧
  unsubscribe b' (Unsub kind name tok) = b'.
Proof.
  intros [Hok _]%bus_run_ok _ Hu b'. split; [|split; [|split]].
  - simpl in b'. unfold b'. rewrite chain_at_unsubscribe by done. by rewrite decide_True.
  - intros k n Hne. simpl in b'. unfold b'. rewrite chain_at_unsubscribe by done.
    by rewrite decide_False by naive_solver.
  - simpl in b'. unfold b'. rewrite unsubscribe_reg_cases by done. by destruct kind.
  - simpl. unfold unsubscribe_reg at 1. rewrite decide_True; [done|].
    unfold b'. simpl. rewrite unsubscribe_reg_cases by done. destruct kind; simpl; set_solver.
Qed.

Lemma prio_lt_asym r1 r2 : prio_lt r1 r2 = true → prio_lt r2 r1 = false.
Proof. unfold prio_lt. repeat case_decide; rewrite ?Z.ltb_lt, ?Z.ltb_ge; lia. Qed.

Lemma prio_lt_cotrans r1 r2 r3 :
  prio_lt r1 r3 = true → prio_lt r1 r2 = true ∨ prio_lt r2 r3 = true.
Proof. unfold prio_lt. repeat case_decide; rewrite ?Z.ltb_lt; lia. Qed.

(** A registration takes effect wholly or not at all. On success the
    slot's chain is the run order of the old rows and the new one sorted by
    priority and registration order, and no other slot changes. On failure,
    which is a self-constraint or a constraint cycle, no chain changes and the
    closure returned does nothing. *)
Theorem register_atomic b us name kind isAsync h opts :
  bus_run b us →
  let reg := new_reg b isAsync h opts in
  let next := next_chain b kind name reg in
  let r := register b name kind isAsync h opts in
  StronglySorted (not_after prio_lt) next ∧ next ≡ₚ reg :: chain_at b kind name ∧
  match r.2.2 with
  | None =>
      r.2.1 = Unsub kind name (token reg) ∧
      (∃ o, run_order next o ∧ chain_at r.1 kind name = at_indices next o) ∧
      (∀ k n, (k, n) ≠ (kind, name) → chain_at r.1 k n = chain_at b k n)
  | Some e =>
      r.2.1 = noopUnsub ∧ (∀ k n, chain_at r.1 k n = chain_at b k n) ∧
      ((source reg ≠ "" ∧ source reg ∈ before reg ++ after reg) ∨ ∃ i, on_cycle next i)
  end.
Proof.
  intros [Hok _]%bus_run_ok reg next r.
  split; [apply sort_by_sorted; [apply prio_lt_asym|apply prio_lt_cotrans]|].
  split; [apply next_chain_perm|]. unfold r.
  rewrite (register_cases _ _ _ _ _ _ Hok). cbv zeta. fold reg.
  destruct (validateSelfConstraints reg) as [e|] eqn:Hs.
  - simpl. split; [done|]. split; [by intros []|]. left.
    unfold validateSelfConstraints in Hs. repeat case_decide; set_solver.
  - fold next. destruct (orderChain next) as [ordered|e] eqn:Ho; simpl.
    + split; [done|]. split.
      * rewrite chain_at_set, decide_True by done. by apply orderChain_run_order_iff.
      * intros k n Hne. rewrite chain_at_set, decide_False by naive_solver.
        rewrite chain_at_log, chain_at_set, decide_False by naive_solver. by destruct k.
    + split; [done|]. split.
      * intros k n. rewrite chain_at_log, chain_at_set.
        case_decide as Hd; [by destruct Hd as [-> ->]|by destruct k].
      * right. eapply orderChain_err_cycle; eauto.
Qed.
End invariant.


(** The bus after two registrations: "audit" runs after "seo". *)
Definition example_first : Bus Z * (unsub * option order_error) :=
  register NewBus "save" kindActionCall false (PlainHandler 0)
    (mkOptions "audit" [] ["seo"] 5).

Definition example_second : Bus Z * (unsub * option order_error) :=
  register example_first.1 "save" kindActionCall false (PlainHandler 1)
    (mkOptions "seo" [] [] 10).

Definition example_bus : Bus Z := example_second.1.

Lemma example_bus_run :
  bus_run example_bus [Unsub kindActionCall "save" 2; Unsub kindActionCall "save" 1].
Proof.
  replace [Unsub kindActionCall "save" 2; Unsub kindActionCall "save" 1]
    with [example_second.2.1; example_first.2.1] by by vm_compute.
  apply run_register, run_register. constructor.
Qed.

Lemma chains_ordered_witness :
  map token (chain_at example_bus kindActionCall "save") = [2; 1]%Z ∧
  forward (chain_at example_bus kindActionCall "save").
Proof.
  split; [by vm_compute|].
  exact (proj1 (chains_ordered _ _ kindActionCall "save" example_bus_run)).
Defined.

Lemma unsubscribe_removes_witness :
  map token (chain_at (unsubscribe example_bus (Unsub kindActionCall "save" 2))
    kindActionCall "save") = [1]%Z.
Proof.
  assert (2%Z ∉ unsubscribed example_bus) as Hu.
  { destruct (decide (2%Z ∈ unsubscribed example_bus)) as [H|H] eqn:E; [|done].
    by vm_compute in E. }
  rewrite (proj1 (unsubscribe_removes example_bus _ kindActionCall "save" 2
    example_bus_run ltac:(set_solver) Hu)).
  by vm_compute.
Defined.

(** A third handler that must run before "seo" and after "audit" is refused. *)
Lemma register_atomic_witness :
  let r := register example_bus "save" kindActionCall false (PlainHandler 2)
             (mkOptions "mid" ["audit"] ["audit"] 0) in
  (∃ e, r.2.2 = Some e) ∧
  chain_at r.1 kindActionCall "save" = chain_at example_bus kindActionCall "save".
Proof.
  pose proof (register_atomic example_bus _ "save" kindActionCall false (PlainHandler 2)
    (mkOptions "mid" ["audit"] ["audit"] 0) example_bus_run) as (_ & _ & H).
  cbv zeta. destruct (register _ _ _ _ _ _).2.2 as [e|] eqn:E; [|by vm_compute in E].
  split; [eauto|]. by destruct H as (_ & H & _).
Defined.

(** ** Dispatch

    The theorems of this section are about handlers that leave the bus alone:
    what they return, or panic with, depends on their arguments only. *)
Section dispatch.
Context {V : Type}.
Context (run_action : nat → list V → Bus V → Bus V * outcome (option gerror)).
Context (run_filter : nat → V → list V → Bus V → Bus V * outcome (V * option gerror)).
Context (run_batch : nat → list V → list V → Bus V →
           Bus V * list V * outcome (list V * option gerror)).
Context (validate : nat → string → payload V → option gerror).
Context (key_fn : nat → list V → outcome string).
Context (act : nat → list V → outcome (option gerror)).
Context (flt : nat → V → list V → outcome (V * option gerror)).
Context (bat : nat → list V → list V → outcome (list V * option gerror)).
Context (scratch : nat → list V → list V → list V).
Context (act_pure : ∀ id args b, run_action id args b = (b, act id args)).
Context (flt_pure : ∀ id v args b, run_filter id v args b = (b, flt id v args)).
Context (bat_pure : ∀ id items args b,
  run_batch id items args b = (b, scratch id items args, bat id items args)).
Context (scratch_len : ∀ id items args, length (scratch id items args) = length items).
Implicit Types b : Bus V.

(** *** Actions *)

(** The error one listener contributes, a recovered panic included. *)
Definition action_error (name : string) (args : list V) (i : Z) (r : registration)
    : option gerror :=
  match handler r with PlainHandler id | BatchWrapper id =>
    match act id args with
    | Return e => e
    | Panic v => Some (ErrPanic name i v)
    end
  end.

Definition live b (c : list registration) : list registration :=
  filter (λ r, token r ∈ active b) c.

(** The errors of the live synchronous listeners, in chain order. *)
Definition sync_errors b (name : string) (args : list V) (i : Z)
    (c : list registration) : list gerror :=
  omap id (imap (λ k r,
    if decide (token r ∈ active b ∧ async r = false)
    then action_error name args (i + Z.of_nat k) r else None) c).

Definition live_async b (c : list registration) : list registration :=
  filter (λ r, async r = true) (live b c).

Lemma sync_errors_cons b name args i r c :
  sync_errors b name args i (r :: c) =
  match (if decide (token r ∈ active b ∧ async r = false)
         then action_error name args i r else None) with
  | Some e => e :: sync_errors b name args (i + 1) c
  | None => sync_errors b name args (i + 1) c
  end.
Proof using.
  unfold sync_errors. cbn [imap]. rewrite Z.add_0_r.
  assert (imap ((λ (k : nat) (r : registration),
      if decide (token r ∈ active b ∧ async r = false)
      then action_error name args (i + Z.of_nat k) r else None) ∘ S) c =
    imap (λ (k : nat) (r : registration),
      if decide (token r ∈ active b ∧ async r = false)
      then action_error name args (i + 1 + Z.of_nat k) r else None) c) as E.
  { apply imap_ext. intros k r' _. simpl. case_decide; [|done]. f_equal. lia. }
  rewrite E. cbn [omap list_omap]. by destruct (if decide _ then _ else _).
Qed.

Lemma invokeActionRaw_pure b name i r args :
  (invokeActionRaw run_action b name i r args).2 = action_error name args i r ∧
  active (invokeActionRaw run_action b name i r args).1 = active b ∧
  jobs (invokeActionRaw run_action b name i r args).1 = jobs b.
Proof using act_pure.
  unfold invokeActionRaw, call_action, action_error.
  destruct (handler r); rewrite act_pure; by destruct (act _ _) as [[]|].
Qed.

Lemma do_loop_pure b name ho args i c :
  let '(b', errs, regs) := do_loop run_action b name ho args i c in
  errs = sync_errors b name args i c ∧
  regs = (if ho then live_async b c else []) ∧
  active b' = active b ∧
  jobs b' = jobs b ++
    (if ho then [] else (λ r, GoHandler name r args) <$> live_async b c).
Proof using act_pure.
  revert b i. induction c as [|r c IH]; intros b i; cbn [do_loop].
  { destruct ho; rewrite app_nil_r; auto. }
  rewrite sync_errors_cons. unfold live_async, live. rewrite !filter_cons.
  destruct (decide (token r ∈ active b)) as [Ha|Ha].
  2:{ rewrite decide_False by tauto. apply IH. }
  rewrite filter_cons. destruct (async r) eqn:Hasync.
  - rewrite (decide_False (P := _ ∧ _)) by naive_solver. rewrite decide_True by done.
    destruct ho.
    + specialize (IH b (i + 1)%Z).
      destruct (do_loop _ _ _ _ _ _ _) as [[b' errs] regs]. destruct IH as (-> & -> & -> & ->).
      auto.
    + specialize (IH (dispatchAsync b name r args) (i + 1)%Z).
      destruct (do_loop _ _ _ _ _ _ _) as [[b' errs] regs]. destruct IH as (-> & -> & -> & ->).
      split; [done|]. split; [done|]. split; [done|]. simpl. by rewrite <-app_assoc.
  - rewrite (decide_True (P := _ ∧ _)) by done. rewrite decide_False by done.
    destruct (invokeActionRaw_pure b name i r args) as (He & Hact & Hj).
    destruct (invokeActionRaw _ _ _ _ _ _) as [b1 err]. simpl in He, Hact, Hj. subst err.
    specialize (IH b1 (i + 1)%Z).
    destruct (do_loop _ _ _ _ _ _ _) as [[b' errs] regs]. destruct IH as (-> & -> & -> & ->).
    unfold sync_errors, live_async, live. rewrite Hact, Hj.
    by destruct (action_error _ _ _ _).
Qed.

(** [Do] runs every live listener of the chain whatever the earlier ones
    return or panic with: its error joins, in chain order, exactly the errors
    and recovered panics of the live synchronous listeners (and a refusal of
    the ordered queue), and each live asynchronous listener is handed over
    once, on its own or, for an ordered action, all in one job. *)
Theorem Do_runs_all enqueue b name args c :
  (schemas b ≫= λ enf, validate enf name (PayloadSlice args)) = None →
  actions b !! name = Some c →
  let r := Do run_action validate key_fn enqueue b name args in
  let queued := bool_decide (is_Some (actionOpts b !! name) ∧ live_async b c ≠ []) in
  let errs := sync_errors b name args 0 c ++
    (if queued then option_list enqueue else []) in
  r.2 = match errs with [] => None | _ => Some (ErrJoin errs) end ∧
  jobs r.1 = jobs b ++
    match actionOpts b !! name with
    | None => (λ g, GoHandler name g args) <$> live_async b c
    | Some fn =>
        match enqueue with
        | None => if queued then
            [OrderedJob name match key_fn fn args with Return k => k | Panic _ => "" end
               (live_async b c) args] else []
        | Some _ => []
        end
    end.
Proof using act_pure.
  intros Hval Hc r queued errs. unfold r, Do. cbv zeta.
  assert (schemas (count b metricDispatchTotal (labelsFor "action" name)) = schemas b) as Hs
    by done.
  rewrite Hs, Hval. cbn [actions actionOpts count]. rewrite Hc.
  pose proof (do_loop_pure (count b metricDispatchTotal (labelsFor "action" name)) name
    (bool_decide (is_Some (actionOpts b !! name))) args 0 c) as Hloop.
  destruct c as [|r0 c].
  { unfold errs, queued. simpl. rewrite bool_decide_false by (intros [_ []]; done).
    split; [done|]. by destruct (actionOpts b !! name), enqueue; rewrite ?app_nil_r. }
  set (c' := r0 :: c) in *.
  destruct (do_loop _ _ _ _ _ _ _) as [[b' es] regs].
  destruct Hloop as (-> & -> & Hact & Hj). unfold errs, queued. clear errs queued.
  change (sync_errors (count b _ _)) with (sync_errors b) in *.
  change (live_async (count b _ _)) with (live_async b) in *.
  change (jobs (count b _ _)) with (jobs b) in *.
  destruct (actionOpts b !! name) as [fn|] eqn:Hopt; simpl in Hj |- *.
  - rewrite app_nil_r in Hj. destruct (live_async b c') as [|r1 l] eqn:Hl.
    + rewrite bool_decide_false by naive_solver. rewrite !app_nil_r.
      split; [done|]. simpl. by destruct enqueue; rewrite app_nil_r.
    + rewrite bool_decide_true by naive_solver. unfold safeKey.
      destruct (key_fn fn args), enqueue; simpl; rewrite ?Hj, ?app_nil_r; done.
  - by rewrite ?app_nil_r.
Qed.

(** *** Filters *)

Definition pure_filter (r : registration) (v : V) (args : list V)
    : outcome (V * option gerror) :=
  match handler r with
  | PlainHandler id => flt id v args
  | BatchWrapper id =>
      match bat id [v] args with
      | Panic p => Panic p
      | Return (_, Some e) => Return (v, Some e)
      | Return ([out], None) => Return (out, None)
      | Return (_, None) => Return (v, Some (ErrPlain "hooks: batch filter length"))
      end
  end.

Lemma call_filter_pure r name v args b :
  call_filter run_filter run_batch (handler r) name v args b = (b, pure_filter r v args).
Proof using flt_pure bat_pure.
  unfold call_filter, pure_filter. destruct (handler r); [by rewrite flt_pure|].
  by rewrite bat_pure.
Qed.

(** [accepted args c v w]: the filters of [c], all succeeding, turn [v] into [w]. *)
Inductive accepted (args : list V) : list registration → V → V → Prop :=
| accepted_nil v : accepted args [] v v
| accepted_cons r c v v' w :
    pure_filter r v args = Return (v', None) → accepted args c v' w →
    accepted args (r :: c) v w.

(** How a filter can stop the chain at [v], and the answer that gives. *)
Inductive stops (name : string) (args : list V) (r : registration) (v : V)
    : V * option gerror → Prop :=
| stops_short w e :
    pure_filter r v args = Return (w, Some e) → is_short_circuit e = true →
    stops name args r v (w, None)
| stops_error w e :
    pure_filter r v args = Return (w, Some e) → is_short_circuit e = false →
    stops name args r v (v, Some e)
| stops_panic i p :
    pure_filter r v args = Panic p → is_short_circuit (ErrPanic name i p) = false →
    stops name args r v (v, Some (ErrPanic name i p))
| stops_panic_short i p :
    pure_filter r v args = Panic p → is_short_circuit (ErrPanic name i p) = true →
    stops name args r v (v, None).

Lemma filter_loop_pure b name args i c v :
  let res := (filter_loop run_filter run_batch b name args i c v).2 in
  ∃ ran rest w, live b c = ran ++ rest ∧ accepted args ran v w ∧
    match rest with
    | [] => res = (w, None)
    | r :: _ => stops name args r w res
    end.
Proof using flt_pure bat_pure.
  revert i v. induction c as [|r c IH]; intros i v; cbn [filter_loop]; cbv zeta.
  { exists [], [], v. split; [done|]. split; [constructor|done]. }
  unfold live. rewrite filter_cons. destruct (decide _) as [Ha|Ha]; [|apply IH].
  unfold invokeFilter. rewrite call_filter_pure.
  destruct (pure_filter r v args) as [[w [e|]]|p] eqn:E.
  - destruct (is_short_circuit e) eqn:Hs; simpl; exists [], (r :: live b c), v;
      (split; [done|]); (split; [constructor|]); [by eapply stops_short|by eapply stops_error].
  - destruct (IH (i + 1)%Z w) as (ran & rest & w' & Hl & Hacc & Hres).
    exists (r :: ran), rest, w'. unfold live in Hl. rewrite Hl.
    split; [done|]. split; [by econstructor|done].
  - cbn [snd]. destruct (is_short_circuit _) eqn:Hs; simpl; exists [], (r :: live b c), v;
      (split; [done|]); (split; [constructor|]);
      [by eapply stops_panic_short|by eapply stops_panic].
Qed.

(** [ApplyFilters] threads the value through the live filters in chain
    order up to the first that does not simply return: with none, the answer
    is the last value; a short circuit answers that filter's value and no
    error; an error or a panic answers the last accepted value with the error
    (but a panic whose value wraps the short-circuit sentinel passes for a
    short circuit). Filters after it do not run. *)
Theorem ApplyFilters_threads b name value args :
  (schemas b ≫= λ enf, validate enf name (PayloadValue value)) = None →
  let res := (ApplyFilters run_filter run_batch validate b name value args).2 in
  ∃ ran rest w,
    live b (chain_at b kindFilterCall name) = ran ++ rest ∧ accepted args ran value w ∧
    match rest with
    | [] => res = (w, None)
    | r :: _ => stops name args r w res
    end.
Proof using flt_pure bat_pure.
  intros Hval. unfold ApplyFilters. cbv zeta.
  change (schemas (count b _ _)) with (schemas b). rewrite Hval.
  apply (filter_loop_pure (count b metricDispatchTotal (labelsFor "filter" name))).
Qed.

(** *** Batches *)

(** The adapter table never sends a row's slice to another row's handler. *)
Definition adapters_agree b (name : string) (c : list registration) : Prop :=
  ∀ r id, r ∈ c → batchAdapterFor b name (token r) = Some id → handler r = BatchWrapper id.

(** Each filter of [c] maps values to values, and its batch form is the map. *)
Definition elementwise (args : list V) (f : registration → V → V)
    (c : list registration) : Prop :=
  ∀ r, r ∈ c →
    (∀ v, pure_filter r v args = Return (f r v, None)) ∧
    (∀ id items, handler r = BatchWrapper id →
       bat id items args = Return (f r <$> items, None)).

Lemma batch_items_map b name r args items (g : V → V) :
  (∀ v, pure_filter r v args = Return (g v, None)) →
  batch_items run_filter run_batch b name (handler r) args items =
  (b, Return (g <$> items, None)).
Proof using flt_pure bat_pure.
  intros Hg. induction items as [|v items IH]; [done|]. cbn [batch_items].
  by rewrite call_filter_pure, Hg, IH.
Qed.

Lemma invokeBatch_map b name i r items args g :
  (∀ v, pure_filter r v args = Return (g v, None)) →
  (∀ id, batchAdapterFor b name (token r) = Some id →
     bat id items args = Return (g <$> items, None)) →
  ∃ items', invokeBatch run_filter run_batch b name i r items args =
    (b, items', (g <$> items, None)) ∧ length items' = length items.
Proof using flt_pure bat_pure scratch_len.
  intros Hg Hbat. unfold invokeBatch. destruct (batchAdapterFor _ _ _) as [id|].
  - rewrite bat_pure, (Hbat id) by done. eauto.
  - rewrite (batch_items_map _ _ _ _ _ g) by done. eauto.
Qed.

Definition through (f : registration → V → V) (c : list registration) (v : V) : V :=
  foldl (λ w r, f r w) v c.

Lemma batch_loop_map b name args i c items f :
  elementwise args f (live b c) → adapters_agree b name (live b c) →
  (batch_loop run_filter run_batch b name args i c items).2 =
  (through f (live b c) <$> items, None).
Proof using flt_pure bat_pure scratch_len.
  revert i items. induction c as [|r c IH]; intros i items Hel Hag; cbn [batch_loop].
  { simpl. by rewrite list_fmap_id. }
  unfold live in *. rewrite filter_cons in *. destruct (decide _) as [Ha|Ha]; [|by apply IH].
  destruct (Hel r) as [Hg Hb]; [apply elem_of_cons; auto|].
  destruct (invokeBatch_map b name i r items args (f r)) as (items' & -> & Hlen); [done| |].
  { intros id Hid. apply Hb, Hag; [apply elem_of_cons; auto|done]. }
  rewrite decide_True by (by rewrite length_fmap).
  rewrite IH; [by rewrite <-list_fmap_compose| |].
  - intros r' Hr'. apply Hel, elem_of_cons. auto.
  - intros r' id Hr'. apply Hag, elem_of_cons. auto.
Qed.

Lemma filter_loop_map b name args i c v f :
  elementwise args f (live b c) →
  (filter_loop run_filter run_batch b name args i c v).2 = (through f (live b c) v, None).
Proof using flt_pure bat_pure.
  revert i v. induction c as [|r c IH]; intros i v Hel; cbn [filter_loop]; [done|].
  unfold live in *. rewrite filter_cons in *. destruct (decide _) as [Ha|Ha]; [|by apply IH].
  destruct (Hel r) as [Hg _]; [apply elem_of_cons; auto|].
  unfold invokeFilter. rewrite call_filter_pure, Hg. apply IH.
  intros r' Hr'. apply Hel, elem_of_cons. auto.
Qed.

(** One [ApplyBatch] over a slice answers what one [ApplyFilters] per
    item would, in order, when every item passes the schema and each live
    filter maps values to values (a batch handler mapping its slice), whichever
    rows are routed to their batch handler. *)
Theorem ApplyBatch_elementwise b name items args f :
  let c := live b (chain_at b kindFilterCall name) in
  elementwise args f c → adapters_agree b name c →
  (∀ enf v, schemas b = Some enf → validate enf name (PayloadValue v) = None) →
  (ApplyBatch run_filter run_batch validate b name items args).2 =
  ((λ v, (ApplyFilters run_filter run_batch validate b name v args).2.1) <$> items, None).
Proof using flt_pure bat_pure scratch_len.
  intros c Hel Hag Hval. unfold ApplyBatch, ApplyFilters. cbv zeta.
  change (schemas (count b _ _)) with (schemas b).
  assert ((schemas b ≫= λ enf, validate_items validate enf name 0 items) = None) as ->.
  { destruct (schemas b) as [enf|] eqn:Hs; [|done]. simpl. generalize 0%Z.
    induction items as [|v items IH]; intros i; [done|]. simpl. by rewrite Hval. }
  change (default [] (filters (count b _ _) !! name)) with (chain_at b kindFilterCall name).
  rewrite (batch_loop_map _ _ _ _ _ _ f) by done. f_equal. apply list_fmap_ext.
  intros _ v _.
  assert ((schemas b ≫= λ enf, validate enf name (PayloadValue v)) = None) as ->.
  { destruct (schemas b) as [enf|] eqn:Hs; [by apply Hval|done]. }
  by rewrite (filter_loop_map _ _ _ _ _ _ f).
Qed.
End dispatch.

(** ** Examples *)

Definition ex_act (id : nat) (args : list Z) : outcome (option gerror) :=
  match id with
  | 0 => Return (Some (ErrPlain "failed"))
  | 1 => Panic (PanicVal "boom")
  | _ => Return None
  end.
Definition ex_flt (id : nat) (v : Z) (args : list Z) : outcome (Z * option gerror) :=
  match id with
  | 0 => Return ((v + 1)%Z, None)
  | 1 => Panic (PanicErr (ErrWrap "stop" ErrShortCircuit))
  | _ => Return ((v * 10)%Z, None)
  end.
Definition ex_bat (id : nat) (items args : list Z) : outcome (list Z * option gerror) :=
  Return ((λ v, v * 100)%Z <$> items, None).
Definition ex_run_action id args (b : Bus Z) := (b, ex_act id args).
Definition ex_run_filter id v args (b : Bus Z) := (b, ex_flt id v args).
Definition ex_run_batch id items args (b : Bus Z) := (b, items, ex_bat id items args).
Definition ex_validate (enf : nat) (name : string) (p : payload Z) : option gerror := None.
Definition ex_key (fn : nat) (args : list Z) : outcome string := Return "k".

Definition ex_actions : Bus Z :=
  (RegisterAsync (RegisterAction (RegisterAction (RegisterAction NewBus
    "save" 5 0).1 "save" 3 1).1 "save" 9 2).1 "save" 1 3).1.

Lemma Do_runs_all_witness :
  (Do ex_run_action ex_validate ex_key None ex_actions "save" [7%Z]).2 =
  Some (ErrJoin [ErrPanic "save" 1 (PanicVal "boom"); ErrPlain "failed"]).
Proof.
  rewrite (proj1 (Do_runs_all ex_run_action ex_validate ex_key ex_act
    (λ _ _ _, eq_refl) None ex_actions "save" [7%Z]
    (chain_at ex_actions kindActionCall "save") eq_refl ltac:(by vm_compute))).
  by vm_compute.
Defined.

Definition ex_filters : Bus Z :=
  (RegisterBatchFilter (RegisterFilter (RegisterFilter NewBus "f" 5 2).1 "f" 3 0).1 "f" 9 0).1.

Lemma ApplyFilters_threads_witness :
  ∃ ran rest w,
    live ex_filters (chain_at ex_filters kindFilterCall "f") = ran ++ rest ∧
    accepted ex_flt ex_bat [] ran 1%Z w ∧
    match rest with
    | [] => (ApplyFilters ex_run_filter ex_run_batch ex_validate ex_filters "f" 1%Z []).2 =
              (w, None)
    | r :: _ => stops ex_flt ex_bat "f" [] r w
        (ApplyFilters ex_run_filter ex_run_batch ex_validate ex_filters "f" 1%Z []).2
    end.
Proof.
  exact (ApplyFilters_threads ex_run_filter ex_run_batch ex_validate ex_flt ex_bat
    (λ _ items _, items) (λ _ _ _ _, eq_refl) (λ _ _ _ _, eq_refl)
    ex_filters "f" 1%Z [] eq_refl).
Defined.

Lemma ApplyBatch_elementwise_witness :
  (ApplyBatch ex_run_filter ex_run_batch ex_validate ex_filters "f" [1; 2]%Z []).2 =
  ((λ v, (ApplyFilters ex_run_filter ex_run_batch ex_validate ex_filters "f" v []).2.1)
     <$> [1; 2]%Z, None) ∧
  (ApplyBatch ex_run_filter ex_run_batch ex_validate ex_filters "f" [1; 2]%Z []).2.1 =
  [2000; 3000]%Z.
Proof.
  split; [|by vm_compute].
  apply (ApplyBatch_elementwise ex_run_filter ex_run_batch ex_validate ex_flt ex_bat
    (λ _ items _, items) (λ _ _ _ _, eq_refl) (λ _ _ _ _, eq_refl) (λ _ _ _, eq_refl)
    ex_filters "f" [1; 2]%Z []
    (λ r v, match handler r with
            | PlainHandler 0 => v + 1 | PlainHandler _ => v * 10 | BatchWrapper _ => v * 100
            end)%Z).
  - replace (live ex_filters _) with
      [mkRegistration 2 3 2 false (PlainHandler 0) "" [] [];
       mkRegistration 1 5 1 false (PlainHandler 2) "" [] [];
       mkRegistration 3 9 3 false (BatchWrapper 0) "" [] []] by by vm_compute.
    intros r Hr. rewrite !elem_of_cons in Hr.
    destruct Hr as [->|[->|[->|Hr]]]; [done..|by apply not_elem_of_nil in Hr].
  - replace (live ex_filters _) with
      [mkRegistration 2 3 2 false (PlainHandler 0) "" [] [];
       mkRegistration 1 5 1 false (PlainHandler 2) "" [] [];
       mkRegistration 3 9 3 false (BatchWrapper 0) "" [] []] by by vm_compute.
    intros r id Hr. rewrite !elem_of_cons in Hr.
    destruct Hr as [->|[->|[->|Hr]]]; intros Ha; vm_compute in Ha;
      [by simplify_eq/=..|by apply not_elem_of_nil in Hr].
  - done.
Defined.

(** A filter that panics with an error wrapping the sentinel passes for a
    short circuit: no error reaches the caller. *)
Example panic_short_circuit :
  (ApplyFilters ex_run_filter ex_run_batch ex_validate
     (RegisterFilter (RegisterFilter NewBus "f" 1 1).1 "f" 2 0).1 "f" 5%Z []).2 = (5%Z, None).
Proof. by vm_compute. Qed.

(** Removing the target of a constraint leaves the constrained handler where
    the constraint had put it: "a" (priority 5) stays behind "c" (priority 7)
    although nothing orders them any more; registered afresh, "a" runs first. *)
Definition ex_stale : Bus Z :=
  let b := (register NewBus "h" kindActionCall false (PlainHandler 0)
              (mkOptions "a" [] ["b"] 5)).1 in
  let b := (register b "h" kindActionCall false (PlainHandler 1) (mkOptions "b" [] [] 10)).1 in
  let b := (register b "h" kindActionCall false (PlainHandler 2) (mkOptions "c" [] [] 7)).1 in
  unsubscribe b (Unsub kindActionCall "h" 2).

Example unsubscribe_keeps_stale_order :
  map source (chain_at ex_stale kindActionCall "h") = ["c"; "a"] ∧
  orderChain (sort_by prio_lt (chain_at ex_stale kindActionCall "h")) =
    Ok (rev (chain_at ex_stale kindActionCall "h")).
Proof. by vm_compute. Qed.

(** The batch closure drops the adapter of whichever registration is the
    latest: unsubscribing the first batch filter removes the second one's
    adapter and keeps its own. *)
Definition ex_two_batches : Bus Z * unsub :=
  let r1 := RegisterBatchFilter NewBus "f" 1 0 in
  let r2 := RegisterBatchFilter r1.1 "f" 2 1 in
  (unsubscribe r2.1 r1.2, r1.2).

Example batch_unsubscribe_wrong_adapter :
  batchAdapterFor ex_two_batches.1 "f" 1 = Some 0 ∧
  batchAdapterFor ex_two_batches.1 "f" 2 = None.
Proof. by vm_compute. Qed.
