(* ===== verification/HookOrdered.v ===== *)
(** * Ordered asynchronous dispatch (packages/go/hooks/ordered.go)

    Events of an ordered action with the same key go through one worker: a
    goroutine with a bounded channel. Producers, workers and the reaper run
    concurrently, so the dispatcher is a state machine: one event of [oevent]
    per atomic action of the code (a critical section of [d.mu], a channel
    operation, a WaitGroup update, a signal). [ostep] is a partial function:
    the events that are not enabled answer [None]. *)
From S2P Require Import Prelude HookOrder HookBus.

(** ** Options *)

(** [OrderedAsync], less its KeyFn. *)
Record OrderedAsync := mkOrderedAsync {
  BufferSize : Z;
  EnqueueTimeout : Duration;
  IdleTimeout : Duration;
}.

Definition orderedDefaultBuffer : Z := 64.
Definition orderedDefaultEnqueueTimeout : Duration := (5 * second)%Z.
Definition orderedDefaultIdleTimeout : Duration := (30 * second)%Z.

(** The defaults [dispatch] applies. *)
Definition effective (o : OrderedAsync) : OrderedAsync :=
  mkOrderedAsync
    (if (BufferSize o <=? 0)%Z then orderedDefaultBuffer else BufferSize o)
    (if (EnqueueTimeout o <=? 0)%Z then orderedDefaultEnqueueTimeout else EnqueueTimeout o)
    (if (IdleTimeout o <=? 0)%Z then orderedDefaultIdleTimeout else IdleTimeout o).

(** ** Running a job *)

Section run_job.
Context {V : Type}.
Context (run_action : nat → list V → Bus V → Bus V * outcome (option gerror)).

(** [runJob]: the job's live asynchronous handlers, one after the other. *)
Fixpoint runJob (b : Bus V) (name : string) (args : list V) (i : Z)
    (regs : list registration) : Bus V :=
  match regs with
  | [] => b
  | reg :: rest =>
      if decide (token reg ∈ active b ∧ async reg = true) then
        let '(b, err) := invokeActionRaw run_action b name i reg args in
        let b := match err with
                 | Some e => log b [LogAsyncError name (token reg) e]
                 | None => b
                 end in
        runJob b name args (i + 1) rest
      else runJob b name args (i + 1) rest
  end.
End run_job.

(** ** State *)

(** A queued event: which event it is and its ordering key. *)
Record orderedJob := mkJob { job_id : nat; job_key : string }.

#[export] Instance orderedJob_eq_dec : EqDecision orderedJob.
Proof. solve_decision. Defined.

(** Where a worker goroutine is: waiting in its select, running a job it will
    come back to the select from, draining after the stop signal (perhaps with
    a job running), or gone. *)
Inductive phase :=
| Selecting
| Running (j : orderedJob)
| Draining
| DrainRunning (j : orderedJob)
| Exited.

Record orderedWorker := mkWorker {
  w_key : string;
  w_ch : list orderedJob;
  w_cap : Z;
  w_idle : Duration;
  w_lastActive : Time;
  w_closed : bool;
  w_stop : bool;
  w_phase : phase;
}.

(** [orderedDispatcher], with the channels' producers and, for the statements,
    the jobs sent and finished so far, in order. *)
Record ostate := mkOstate {
  workers : gmap string nat;
  pool : gmap nat orderedWorker;
  next_worker : nat;
  sending : gmap nat (nat * orderedJob);
  next_job : nat;
  asyncWG : Z;
  sent : list orderedJob;
  finished_jobs : list orderedJob;
}.

Definition newOrderedDispatcher : ostate := mkOstate ∅ ∅ 0 ∅ 0 0 [] [].

Inductive oevent :=
| EvDispatch (key : string) (opts : OrderedAsync) (now : Time)  (* up to workerFor *)
| EvSend (p : nat) (now : Time)                                  (* w.ch <- job *)
| EvGiveUp (p : nat)                                             (* timeout or ctx done *)
| EvReceive (w : nat)                                            (* job := <-w.ch *)
| EvFinish (w : nat) (now : Time)                                (* runJob returned *)
| EvRetire (key : string) (now : Time)                           (* reapOnce, under the lock *)
| EvClose (w : nat)                                              (* close(w.stop) *)
| EvStop (w : nat)                                               (* <-w.stop *)
| EvExit (w : nat).                                              (* drain loop's default *)

Definition set_worker (s : ostate) (i : nat) (w : orderedWorker) : ostate :=
  mkOstate (workers s) (<[i := w]> (pool s)) (next_worker s) (sending s) (next_job s)
    (asyncWG s) (sent s) (finished_jobs s).

Definition set_ch (w : orderedWorker) (ch : list orderedJob) (ph : phase) : orderedWorker :=
  mkWorker (w_key w) ch (w_cap w) (w_idle w) (w_lastActive w) (w_closed w) (w_stop w) ph.

Definition touch (w : orderedWorker) (now : Time) : orderedWorker :=
  mkWorker (w_key w) (w_ch w) (w_cap w) (w_idle w) now (w_closed w) (w_stop w) (w_phase w).

Definition set_signals (w : orderedWorker) (cl st : bool) : orderedWorker :=
  mkWorker (w_key w) (w_ch w) (w_cap w) (w_idle w) (w_lastActive w) cl st (w_phase w).

(** [workerFor]: the key's worker unless it is closed, else a fresh one. *)
Definition workerFor (s : ostate) (key : string) (opts : OrderedAsync) (now : Time)
    : ostate * nat :=
  match workers s !! key ≫= λ i, (λ w, (i, w)) <$> pool s !! i with
  | Some (i, w) =>
      if w_closed w then
        (mkOstate (<[key := next_worker s]> (workers s))
           (<[next_worker s := mkWorker key [] (BufferSize opts) (IdleTimeout opts) now
                                 false false Selecting]> (pool s))
           (S (next_worker s)) (sending s) (next_job s) (asyncWG s) (sent s) (finished_jobs s),
         next_worker s)
      else (s, i)
  | None =>
      (mkOstate (<[key := next_worker s]> (workers s))
         (<[next_worker s := mkWorker key [] (BufferSize opts) (IdleTimeout opts) now
                               false false Selecting]> (pool s))
         (S (next_worker s)) (sending s) (next_job s) (asyncWG s) (sent s) (finished_jobs s),
       next_worker s)
  end.

(** The reaper's condition on a worker. *)
Definition reapable (w : orderedWorker) (now : Time) : bool :=
  match w_ch w with
  | _ :: _ => false
  | [] => negb (now - w_lastActive w <? w_idle w)%Z && negb (w_closed w)
  end.

(** One atomic action. *)
Definition ostep (s : ostate) (ev : oevent) : option ostate :=
  match ev with
  | EvDispatch key opts now =>
      let '(s', i) := workerFor s key (effective opts) now in
      let j := mkJob (next_job s') key in
      Some (mkOstate (workers s') (pool s') (next_worker s')
        (<[next_job s' := (i, j)]> (sending s')) (S (next_job s')) (asyncWG s' + 1)
        (sent s') (finished_jobs s'))
  | EvSend p now =>
      match sending s !! p with
      | Some (i, j) =>
          match pool s !! i with
          | Some w =>
              if (Z.of_nat (length (w_ch w)) <? w_cap w)%Z then
                Some (mkOstate (workers s)
                  (<[i := touch (set_ch w (w_ch w ++ [j]) (w_phase w)) now]> (pool s))
                  (next_worker s) (delete p (sending s)) (next_job s) (asyncWG s)
                  (sent s ++ [j]) (finished_jobs s))
              else None
          | None => None
          end
      | None => None
      end
  | EvGiveUp p =>
      match sending s !! p with
      | Some _ =>
          Some (mkOstate (workers s) (pool s) (next_worker s) (delete p (sending s))
            (next_job s) (asyncWG s - 1) (sent s) (finished_jobs s))
      | None => None
      end
  | EvReceive i =>
      match pool s !! i with
      | Some w =>
          match w_ch w, w_phase w with
          | j :: rest, Selecting => Some (set_worker s i (set_ch w rest (Running j)))
          | j :: rest, Draining => Some (set_worker s i (set_ch w rest (DrainRunning j)))
          | _, _ => None
          end
      | None => None
      end
  | EvFinish i now =>
      match pool s !! i with
      | Some w =>
          match w_phase w with
          | Running j =>
              Some (mkOstate (workers s)
                (<[i := touch (set_ch w (w_ch w) Selecting) now]> (pool s)) (next_worker s)
                (sending s) (next_job s) (asyncWG s - 1) (sent s) (finished_jobs s ++ [j]))
          | DrainRunning j =>
              Some (mkOstate (workers s) (<[i := set_ch w (w_ch w) Draining]> (pool s))
                (next_worker s) (sending s) (next_job s) (asyncWG s - 1) (sent s)
                (finished_jobs s ++ [j]))
          | _ => None
          end
      | None => None
      end
  | EvRetire key now =>
      match workers s !! key ≫= λ i, (λ w, (i, w)) <$> pool s !! i with
      | Some (i, w) =>
          if reapable w now then
            Some (mkOstate (delete key (workers s))
              (<[i := set_signals w true (w_stop w)]> (pool s)) (next_worker s) (sending s)
              (next_job s) (asyncWG s) (sent s) (finished_jobs s))
          else None
      | None => None
      end
  | EvClose i =>
      match pool s !! i with
      | Some w => if w_closed w && negb (w_stop w)
                  then Some (set_worker s i (set_signals w true true)) else None
      | None => None
      end
  | EvStop i =>
      match pool s !! i with
      | Some w => match w_phase w with
                  | Selecting => if w_stop w
                                 then Some (set_worker s i (set_ch w (w_ch w) Draining)) else None
                  | _ => None
                  end
      | None => None
      end
  | EvExit i =>
      match pool s !! i with
      | Some w => match w_ch w, w_phase w with
                  | [], Draining => Some (set_worker s i (set_ch w [] Exited))
                  | _, _ => None
                  end
      | None => None
      end
  end.

Fixpoint orun (s : ostate) (evs : list oevent) : option ostate :=
  match evs with
  | [] => Some s
  | ev :: evs' => ostep s ev ≫= λ s', orun s' evs'
  end.

(** ** Conservation *)

(** The jobs a worker holds: the one it runs, then its channel. *)
Definition held (w : orderedWorker) : list orderedJob :=
  match w_phase w with
  | Running j | DrainRunning j => j :: w_ch w
  | _ => w_ch w
  end.

Definition holds (m : gmap nat orderedWorker) : list orderedJob :=
  concat ((held ∘ snd) <$> map_to_list m).

Lemma holds_split m i w : m !! i = Some w → holds m ≡ₚ held w ++ holds (delete i m).
Proof.
  intros Hi. unfold holds. rewrite <-(map_to_list_delete m i w) by done. done.
Qed.

Lemma holds_update m i w w' :
  m !! i = Some w → held w ++ holds (<[i := w']> m) ≡ₚ held w' ++ holds m.
Proof.
  intros Hi. rewrite (holds_split m i w Hi).
  rewrite (holds_split (<[i := w']> m) i w') by apply lookup_insert_eq.
  rewrite delete_insert_eq. rewrite !app_assoc. f_equiv. apply Permutation_app_comm.
Qed.

Lemma holds_same m i w w' :
  m !! i = Some w → held w' = held w → holds (<[i := w']> m) ≡ₚ holds m.
Proof.
  intros Hi Hh. pose proof (holds_update m i w w' Hi) as H. rewrite Hh in H.
  by apply Permutation_app_inv_l in H.
Qed.

Lemma holds_fresh m i w : m !! i = None → held w = [] → holds (<[i := w]> m) ≡ₚ holds m.
Proof.
  intros Hi Hw. unfold holds. rewrite map_to_list_insert by done. simpl. by rewrite Hw.
Qed.

Record conserved (s : ostate) : Prop := {
  cv_fresh i w : pool s !! i = Some w → i < next_worker s;
  cv_sending p i j : sending s !! p = Some (i, j) → p < next_job s;
  cv_jobs : sent s ≡ₚ finished_jobs s ++ holds (pool s);
  cv_wg : asyncWG s = (Z.of_nat (size (sending s)) + Z.of_nat (length (holds (pool s))))%Z;
}.

Lemma conserved_same s i w w' :
  conserved s → pool s !! i = Some w → held w' = held w → conserved (set_worker s i w').
Proof.
  intros [Hf Hs Hj Hw] Hi Hh. pose proof (holds_same _ _ _ w' Hi Hh) as Hp. split; simpl.
  - intros k v. destruct (decide (k = i)) as [->|Hne]; [by eauto|].
    rewrite lookup_insert_ne by done. apply Hf.
  - apply Hs.
  - by rewrite Hp.
  - by rewrite Hp.
Qed.

Lemma conserved_workerFor s key opts now :
  conserved s → conserved (workerFor s key opts now).1 ∧
  next_job (workerFor s key opts now).1 = next_job s.
Proof.
  intros Hc. unfold workerFor.
  assert (∀ w, held w = [] → conserved (mkOstate (<[key := next_worker s]> (workers s))
    (<[next_worker s := w]> (pool s)) (S (next_worker s)) (sending s) (next_job s)
    (asyncWG s) (sent s) (finished_jobs s))) as Hnew.
  { intros w Hh. destruct Hc as [Hf Hs Hj Hw].
    assert (pool s !! next_worker s = None) as Hnone.
    { destruct (pool s !! next_worker s) eqn:E; [|done]. apply Hf in E. lia. }
    pose proof (holds_fresh _ _ w Hnone Hh) as Hp. split; simpl.
    - intros k v. destruct (decide (k = next_worker s)) as [->|Hne]; [lia|].
      rewrite lookup_insert_ne by done. intros Hk%Hf. lia.
    - apply Hs.
    - by rewrite Hp.
    - by rewrite Hp. }
  destruct (_ ≫= _) as [[i w]|]; [destruct (w_closed w)|]; (split; [|done]);
    [by apply Hnew|done|by apply Hnew].
Qed.

Lemma conserved_dispatch s key opts now s' :
  conserved s → ostep s (EvDispatch key opts now) = Some s' → conserved s'.
Proof.
  intros Hc. simpl. destruct (conserved_workerFor s key (effective opts) now Hc) as [Hc' Hn].
  destruct (workerFor s key (effective opts) now) as [s1 i]. simpl in *. intros [= <-].
  destruct Hc' as [Hf Hs Hj Hw].
  assert (sending s1 !! next_job s1 = None) as Hnone.
  { destruct (sending s1 !! next_job s1) as [[i' j']|] eqn:E; [|done]. apply Hs in E. lia. }
  split; simpl; [done| |done|].
  - intros p i' j'. destruct (decide (p = next_job s1)) as [->|Hne]; [lia|].
    rewrite lookup_insert_ne by done. intros Hp%Hs. lia.
  - rewrite map_size_insert_None by done. lia.
Qed.

Lemma pool_fresh_insert s i w w' :
  conserved s → pool s !! i = Some w →
  ∀ k v, <[i := w']> (pool s) !! k = Some v → k < next_worker s.
Proof.
  intros Hc Hi k v. destruct (decide (k = i)) as [->|Hne]; [by eapply cv_fresh in Hi|].
  rewrite lookup_insert_ne by done. by apply cv_fresh.
Qed.

Lemma size_delete_pred (m : gmap nat (nat * orderedJob)) p x :
  m !! p = Some x → Z.of_nat (size (delete p m)) = (Z.of_nat (size m) - 1)%Z.
Proof.
  intros Hp. rewrite map_size_delete_Some by done.
  pose proof (map_size_ne_0_lookup_2 _ _ (mk_is_Some _ _ Hp)). lia.
Qed.

Lemma conserved_send s p now s' :
  conserved s → ostep s (EvSend p now) = Some s' → conserved s'.
Proof.
  intros Hc. simpl. destruct (sending s !! p) as [[i j]|] eqn:Ep; [|done].
  destruct (pool s !! i) as [w|] eqn:Ei; [|done]. case_match; [|done]. intros [= <-].
  set (w' := touch _ _). pose proof (pool_fresh_insert _ _ _ w' Hc Ei).
  destruct Hc as [Hf Hs Hj Hw].
  assert (holds (<[i := w']> (pool s)) ≡ₚ j :: holds (pool s)) as Hp.
  { pose proof (holds_update _ _ _ w' Ei) as H1.
    assert (held w' = held w ++ [j]) as Hh by (unfold held, w'; simpl; by destruct (w_phase w)).
    rewrite Hh, <-app_assoc in H1. by apply Permutation_app_inv_l in H1. }
  split; simpl; [done| | |].
  - intros q i' j' [_ Hq]%lookup_delete_Some. by eapply Hs.
  - rewrite Hp, Hj, <-app_assoc. f_equiv. symmetry. apply Permutation_cons_append.
  - rewrite Hp, (size_delete_pred _ _ _ Ep). simpl. lia.
Qed.

Lemma conserved_giveup s p s' :
  conserved s → ostep s (EvGiveUp p) = Some s' → conserved s'.
Proof.
  intros [Hf Hs Hj Hw]. simpl.
  destruct (sending s !! p) as [[i j]|] eqn:Ep; [|done]. intros [= <-].
  split; simpl; [done| |done|].
  - intros q i' j' [_ Hq]%lookup_delete_Some. by eapply Hs.
  - rewrite (size_delete_pred _ _ _ Ep). lia.
Qed.

(** A worker puts down the job it was running. *)
Lemma conserved_put_down s i w w' j :
  conserved s → pool s !! i = Some w → held w = j :: held w' →
  conserved (mkOstate (workers s) (<[i := w']> (pool s)) (next_worker s) (sending s)
    (next_job s) (asyncWG s - 1) (sent s) (finished_jobs s ++ [j])).
Proof.
  intros Hc Ei Hh. pose proof (pool_fresh_insert _ _ _ w' Hc Ei).
  destruct Hc as [Hf Hs Hj Hw].
  assert (holds (pool s) ≡ₚ j :: holds (<[i := w']> (pool s))) as Hp.
  { pose proof (holds_update _ _ _ w' Ei) as H1. rewrite Hh in H1. simpl in H1.
    rewrite Permutation_middle in H1. by apply Permutation_app_inv_l in H1. }
  split; simpl; [done|apply Hs| |].
  - rewrite Hj, Hp. by rewrite <-app_assoc.
  - rewrite Hw, Hp. simpl. lia.
Qed.

Lemma conserved_step s ev s' : conserved s → ostep s ev = Some s' → conserved s'.
Proof.
  intros Hc. destruct ev as [key opts now|p now|p|i|i now|key now|i|i|i];
    [by apply conserved_dispatch|by apply conserved_send|by apply conserved_giveup|..]; simpl;
    [| |destruct (_ ≫= _) as [[i w]|] eqn:Ew; [|done]; case_match; [|done]; intros [= <-]|..];
    try (destruct (pool s !! i) as [w|] eqn:Ei; [|done]).
  - destruct (w_ch w) as [|j rest] eqn:Ech; [done|].
    destruct (w_phase w) eqn:Eph; try done; intros [= <-];
      (eapply conserved_same; [done|done|]); unfold held; simpl; by rewrite Eph, Ech.
  - destruct (w_phase w) as [|j| |j|] eqn:Eph; try done; intros [= <-];
      (eapply conserved_put_down; [done|done|]); unfold held; simpl; by rewrite Eph.
  - apply bind_Some in Ew as (i' & _ & Ew). apply fmap_Some in Ew as (w' & Ei & [= -> ->]).
    destruct (conserved_same s i' w' (set_signals w' true (w_stop w')) Hc Ei eq_refl)
      as [Hf Hs Hj Hw]. by split.
  - case_match; [|done]. intros [= <-]. by eapply conserved_same.
  - destruct (w_phase w) eqn:Eph; try done.
    case_match; [|done]. intros [= <-]. eapply conserved_same; [done|done|].
    unfold held. simpl. by rewrite Eph.
  - destruct (w_ch w) eqn:Ech; [|done].
    destruct (w_phase w) eqn:Eph; try done. intros [= <-]. eapply conserved_same; [done|done|].
    unfold held. simpl. by rewrite Eph, Ech.
Qed.

Lemma conserved_run evs s : orun newOrderedDispatcher evs = Some s → conserved s.
Proof.
  assert (conserved newOrderedDispatcher) as Hinit.
  { split; simpl; [intros ? ?; by rewrite lookup_empty|intros ? ? ?; by rewrite lookup_empty|..];
      unfold holds; by rewrite map_to_list_empty. }
  revert Hinit. generalize newOrderedDispatcher. induction evs as [|ev evs IH]; intros s0 H0; simpl.
  - by intros [= <-].
  - intros (s1 & H1 & Hr)%bind_Some. eapply IH; [|done]. by eapply conserved_step.
Qed.

(** C28. The dispatcher neither loses count of a job nor runs one twice,
    whatever the interleaving of producers, workers and reaper: the jobs sent
    are those finished and those still held by some worker, and the WaitGroup
    counts exactly the sends in progress and the jobs held. So when [Wait]
    returns, no send is in progress and every job sent has been run. *)
Theorem ordered_jobs_conserved evs s :
  orun newOrderedDispatcher evs = Some s →
  sent s ≡ₚ finished_jobs s ++ holds (pool s) ∧
  asyncWG s = (Z.of_nat (size (sending s)) + Z.of_nat (length (holds (pool s))))%Z ∧
  (asyncWG s = 0%Z → sending s = ∅ ∧ finished_jobs s ≡ₚ sent s).
Proof.
  intros [_ _ Hj Hw]%conserved_run. split; [done|]. split; [done|]. intros H0.
  assert (size (sending s) = 0 ∧ length (holds (pool s)) = 0) as [Hs Hl] by lia.
  split; [by apply map_size_empty_inv|]. apply nil_length_inv in Hl.
  by rewrite Hj, Hl, app_nil_r.
Qed.

(** ** Order *)

Definition of_key (k : string) (l : list orderedJob) : list orderedJob :=
  filter (λ j, job_key j = k) l.

Definition key_held (s : ostate) (k : string) : list orderedJob :=
  match workers s !! k ≫= λ i, pool s !! i with
  | Some w => held w
  | None => []
  end.

Definition retires (ev : oevent) : Prop := match ev with EvRetire _ _ => True | _ => False end.

Record in_order (s : ostate) : Prop := {
  io_worker i w : pool s !! i = Some w →
    workers s !! w_key w = Some i ∧ w_closed w = false ∧ w_stop w = false ∧
    w_phase w ≠ Draining ∧ (∀ j, w_phase w ≠ DrainRunning j) ∧
    Forall (λ j, job_key j = w_key w) (held w);
  io_key k i : workers s !! k = Some i → ∃ w, pool s !! i = Some w ∧ w_key w = k;
  io_sending p i j : sending s !! p = Some (i, j) →
    ∃ w, pool s !! i = Some w ∧ w_key w = job_key j;
  io_fresh i w : pool s !! i = Some w → i < next_worker s;
  io_order k : of_key k (sent s) = of_key k (finished_jobs s) ++ key_held s k;
}.

Lemma key_held_lookup s i w :
  in_order s → pool s !! i = Some w → key_held s (w_key w) = held w.
Proof.
  intros Hio Hi. unfold key_held. destruct (io_worker _ Hio _ _ Hi) as [-> _].
  simpl. by rewrite Hi.
Qed.

(** Replacing a worker by one of the same key affects that key's jobs only. *)
Lemma key_held_set s s' i w w' k :
  in_order s → pool s !! i = Some w → w_key w' = w_key w →
  workers s' = workers s → pool s' = <[i := w']> (pool s) →
  key_held s' k = if decide (k = w_key w) then held w' else key_held s k.
Proof.
  intros Hio Hi Hk Hws Hp. unfold key_held. rewrite Hws, Hp. case_decide as Hd.
  - subst k. destruct (io_worker _ Hio _ _ Hi) as [-> _]. simpl. by rewrite lookup_insert_eq.
  - destruct (workers s !! k) as [i'|] eqn:E; [|done]. simpl.
    assert (i' ≠ i). { intros ->. destruct (io_key _ Hio _ _ E) as (v & ? & ?). congruence. }
    by rewrite lookup_insert_ne.
Qed.

(** A worker changes: its key stays, the jobs it holds keep the key's order. *)
Lemma in_order_set s s' i w w' :
  in_order s → pool s !! i = Some w → w_key w' = w_key w →
  w_closed w' = false → w_stop w' = false → w_phase w' ≠ Draining →
  (∀ j, w_phase w' ≠ DrainRunning j) → Forall (λ j, job_key j = w_key w) (held w') →
  workers s' = workers s → pool s' = <[i := w']> (pool s) → next_worker s' = next_worker s →
  (∀ p x, sending s' !! p = Some x → sending s !! p = Some x) →
  (∀ k, of_key k (sent s') = of_key k (finished_jobs s') ++
     if decide (k = w_key w) then held w' else key_held s k) →
  in_order s'.
Proof.
  intros Hio Hi Hk Hcl Hst Hd1 Hd2 Hheld Hws Hp Hnw Hsend Hord. split.
  - intros k v. rewrite Hp, Hws. destruct (decide (k = i)) as [->|Hne].
    + rewrite lookup_insert_eq. intros [= <-]. rewrite Hk.
      destruct (io_worker _ Hio _ _ Hi) as [Hw _]. split_and!; done.
    + rewrite lookup_insert_ne by done. apply (io_worker _ Hio).
  - intros k i'. rewrite Hws, Hp. intros (v & Hv & Hkv)%(io_key _ Hio).
    destruct (decide (i' = i)) as [->|Hne].
    + exists w'. rewrite lookup_insert_eq. split; [done|]. congruence.
    + exists v. by rewrite lookup_insert_ne.
  - intros p i' j Hsj. apply Hsend in Hsj. rewrite Hp.
    destruct (io_sending _ Hio _ _ _ Hsj) as (v & Hv & Hkv).
    destruct (decide (i' = i)) as [->|Hne].
    + exists w'. rewrite lookup_insert_eq. split; [done|]. congruence.
    + exists v. by rewrite lookup_insert_ne.
  - intros k v. rewrite Hp, Hnw. destruct (decide (k = i)) as [->|Hne].
    + intros _. by eapply (io_fresh _ Hio).
    + rewrite lookup_insert_ne by done. apply (io_fresh _ Hio).
  - intros k. by rewrite (key_held_set s s' i w w' k Hio Hi Hk Hws Hp).
Qed.

Lemma of_key_app k l1 l2 : of_key k (l1 ++ l2) = of_key k l1 ++ of_key k l2.
Proof. apply filter_app. Qed.

Lemma of_key_one k j : of_key k [j] = if decide (job_key j = k) then [j] else [].
Proof. unfold of_key. rewrite filter_cons. by case_decide. Qed.

Lemma in_order_workerFor s key opts now :
  in_order s →
  in_order (workerFor s key opts now).1 ∧
  ∃ w, pool (workerFor s key opts now).1 !! (workerFor s key opts now).2 = Some w ∧
    w_key w = key.
Proof.
  intros Hio. unfold workerFor.
  destruct (workers s !! key) as [i|] eqn:Ek; simpl.
  - destruct (io_key _ Hio _ _ Ek) as (w & Hw & Hk). rewrite Hw. simpl.
    destruct (io_worker _ Hio _ _ Hw) as (_ & -> & _). split; [done|]. eauto.
  - split; [|eexists; by rewrite lookup_insert_eq].
    assert (pool s !! next_worker s = None) as Hnone.
    { destruct (pool s !! next_worker s) eqn:E; [|done]. apply (io_fresh _ Hio) in E. lia. }
    assert (∀ k i, workers s !! k = Some i → i ≠ next_worker s ∧ k ≠ key) as Hne.
    { intros k i E. split; [|congruence]. destruct (io_key _ Hio _ _ E) as (w & Hw & _).
      apply (io_fresh _ Hio) in Hw. lia. }
    split; simpl.
    + intros i w. destruct (decide (i = next_worker s)) as [->|Hi].
      * rewrite lookup_insert_eq. intros [= <-]. simpl. rewrite lookup_insert_eq.
        split_and!; first [done|by constructor].
      * rewrite lookup_insert_ne by done. intros Hw.
        destruct (io_worker _ Hio _ _ Hw) as (Hwk & Hrest). split; [|done].
        rewrite lookup_insert_ne; [done|]. intros E. by destruct (Hne _ _ Hwk).
    + intros k i. destruct (decide (k = key)) as [->|Hk].
      * rewrite lookup_insert_eq. intros [= <-]. eexists. by rewrite lookup_insert_eq.
      * rewrite lookup_insert_ne by done. intros E.
        destruct (io_key _ Hio _ _ E) as (w & Hw & ?). exists w.
        rewrite lookup_insert_ne; [done|]. by destruct (Hne _ _ E).
    + intros p i j Hp. destruct (io_sending _ Hio _ _ _ Hp) as (w & Hw & ?). exists w.
      rewrite lookup_insert_ne; [done|]. apply (io_fresh _ Hio) in Hw. lia.
    + intros i w. destruct (decide (i = next_worker s)) as [->|Hi]; [lia|].
      rewrite lookup_insert_ne by done. intros Hw%(io_fresh _ Hio). lia.
    + intros k. rewrite (io_order _ Hio k). f_equal. unfold key_held. simpl.
      destruct (decide (k = key)) as [->|Hk].
      * rewrite lookup_insert_eq, Ek. simpl. by rewrite lookup_insert_eq.
      * rewrite lookup_insert_ne by done. destruct (workers s !! k) as [i|] eqn:E; [|done].
        simpl. rewrite lookup_insert_ne; [done|]. by destruct (Hne _ _ E).
Qed.

Lemma in_order_dispatch s key opts now s' :
  in_order s → ostep s (EvDispatch key opts now) = Some s' → in_order s'.
Proof.
  intros Hio. simpl.
  destruct (in_order_workerFor s key (effective opts) now Hio) as [Hio' (w & Hw & Hk)].
  destruct (workerFor s key (effective opts) now) as [s1 i]. simpl in *. intros [= <-].
  destruct Hio' as [H1 H2 H3 H4 H5]. split; simpl; try done.
  intros p i' j. destruct (decide (p = next_job s1)) as [->|Hne].
  - rewrite lookup_insert_eq. intros [= <- <-]. eauto.
  - rewrite lookup_insert_ne by done. apply H3.
Qed.

Lemma in_order_send s p now s' :
  in_order s → ostep s (EvSend p now) = Some s' → in_order s'.
Proof.
  intros Hio. simpl. destruct (sending s !! p) as [[i j]|] eqn:Ep; [|done].
  destruct (pool s !! i) as [w|] eqn:Ei; [|done]. case_match; [|done]. intros [= <-].
  destruct (io_sending _ Hio _ _ _ Ep) as (w0 & Hw0 & Hkj). simplify_eq.
  destruct (io_worker _ Hio _ _ Ei) as (Hwk & Hcl & Hst & Hd1 & Hd2 & Hh).
  set (w' := touch _ _).
  assert (held w' = held w ++ [j]) as Hheld by (unfold held, w'; simpl; by destruct (w_phase w)).
  eapply (in_order_set s _ i w w'); try done; simpl.
  - rewrite Hheld. apply Forall_app. split; [done|]. by constructor.
  - intros q x [_ ?]%lookup_delete_Some. done.
  - intros k. rewrite of_key_app, (io_order _ Hio k), of_key_one, <-app_assoc. f_equal.
    destruct (decide (k = w_key w)) as [->|Hne].
    + rewrite decide_True by done. by rewrite (key_held_lookup _ _ _ Hio Ei), Hheld.
    + rewrite decide_False by congruence. apply app_nil_r.
Qed.

Lemma in_order_giveup s p s' :
  in_order s → ostep s (EvGiveUp p) = Some s' → in_order s'.
Proof.
  intros [H1 H2 H3 H4 H5]. simpl. destruct (sending s !! p); [|done]. intros [= <-].
  split; simpl; try done. intros q i j [_ Hq]%lookup_delete_Some. by eapply H3.
Qed.

Lemma in_order_receive s i s' :
  in_order s → ostep s (EvReceive i) = Some s' → in_order s'.
Proof.
  intros Hio. simpl. destruct (pool s !! i) as [w|] eqn:Ei; [|done].
  destruct (io_worker _ Hio _ _ Ei) as (Hwk & Hcl & Hst & Hd1 & Hd2 & Hh).
  destruct (w_ch w) as [|j rest] eqn:Ech; [done|].
  destruct (w_phase w) eqn:Eph; try done. intros [= <-].
  set (w' := set_ch w rest (Running j)).
  assert (held w' = held w) as Hheld by (unfold held, w'; simpl; by rewrite Eph, Ech).
  eapply (in_order_set s _ i w w'); try done; simpl; [by rewrite Hheld|].
  intros k. rewrite (io_order _ Hio k). f_equal. case_decide as Hd; [|done].
  subst k. by rewrite (key_held_lookup _ _ _ Hio Ei), Hheld.
Qed.

Lemma in_order_finish s i now s' :
  in_order s → ostep s (EvFinish i now) = Some s' → in_order s'.
Proof.
  intros Hio. simpl. destruct (pool s !! i) as [w|] eqn:Ei; [|done].
  destruct (io_worker _ Hio _ _ Ei) as (Hwk & Hcl & Hst & Hd1 & Hd2 & Hh).
  destruct (w_phase w) as [|j| |j|] eqn:Eph; try done; [|by destruct (Hd2 j)].
  intros [= <-]. set (w' := touch _ _).
  assert (held w = j :: held w') as Hheld by (unfold held, w'; simpl; by rewrite Eph).
  rewrite Hheld in Hh. apply Forall_cons in Hh as [Hkj Hh].
  eapply (in_order_set s _ i w w'); try done; simpl.
  intros k. rewrite (io_order _ Hio k), of_key_app, of_key_one, <-app_assoc. f_equal.
  destruct (decide (k = w_key w)) as [->|Hne].
  - rewrite decide_True by done. by rewrite (key_held_lookup _ _ _ Hio Ei), Hheld.
  - by rewrite decide_False by congruence.
Qed.

(** The reaper's signals never fire before a retirement. *)
Lemma in_order_signals s i ev :
  in_order s → ev = EvClose i ∨ ev = EvStop i ∨ ev = EvExit i → ostep s ev = None.
Proof.
  intros Hio Hev. destruct (pool s !! i) as [w|] eqn:Ei;
    [|destruct Hev as [->|[->| ->]]; simpl; by rewrite Ei].
  destruct (io_worker _ Hio _ _ Ei) as (_ & Hcl & Hst & Hd1 & _).
  destruct Hev as [->|[->| ->]]; simpl; rewrite Ei; [by rewrite Hcl|by rewrite Hst; destruct (w_phase w)|].
  by destruct (w_ch w), (w_phase w).
Qed.

Lemma in_order_step s ev s' :
  ¬ retires ev → in_order s → ostep s ev = Some s' → in_order s'.
Proof.
  intros Hev Hio Hs. destruct ev as [key opts now|p now|p|i|i now|key now|i|i|i].
  - by eapply in_order_dispatch.
  - by eapply in_order_send.
  - by eapply in_order_giveup.
  - by eapply in_order_receive.
  - by eapply in_order_finish.
  - by destruct Hev.
  - by rewrite (in_order_signals _ i _ Hio) in Hs by auto.
  - by rewrite (in_order_signals _ i _ Hio) in Hs by auto.
  - by rewrite (in_order_signals _ i _ Hio) in Hs by auto.
Qed.

Lemma in_order_run evs s :
  Forall (λ ev, ¬ retires ev) evs → orun newOrderedDispatcher evs = Some s → in_order s.
Proof.
  assert (in_order newOrderedDispatcher) as Hinit.
  { split; simpl; intros *; rewrite ?lookup_empty; done. }
  revert Hinit. generalize newOrderedDispatcher.
  induction evs as [|ev evs IH]; intros s0 H0 Hall; simpl; [by intros [= <-]|].
  inversion Hall; subst. intros (s1 & H1 & Hr)%bind_Some.
  eapply IH; [|done|done]. by eapply in_order_step.
Qed.

(** As long as the reaper has retired no worker, the events of a key are
    processed in the order they were queued, one at a time: the finished jobs
    of the key are a prefix of the queued ones, the rest being what its one
    worker still holds, and no two workers ever run jobs of the same key. *)
Theorem ordered_fifo evs s k :
  Forall (λ ev, ¬ retires ev) evs → orun newOrderedDispatcher evs = Some s →
  of_key k (sent s) = of_key k (finished_jobs s) ++ key_held s k ∧
  (∀ i i' w w' j j', pool s !! i = Some w → pool s !! i' = Some w' →
     w_phase w = Running j → w_phase w' = Running j' → job_key j = job_key j' → i = i').
Proof.
  intros Hall Hr. pose proof (in_order_run _ _ Hall Hr) as Hio.
  split; [apply Hio|]. intros i i' w w' j j' Hi Hi' Hj Hj' Hk.
  destruct (io_worker _ Hio _ _ Hi) as (Hw & _ & _ & _ & _ & Hh).
  destruct (io_worker _ Hio _ _ Hi') as (Hw' & _ & _ & _ & _ & Hh').
  unfold held in Hh, Hh'. rewrite Hj in Hh. rewrite Hj' in Hh'.
  apply Forall_cons in Hh as [Hjk _]. apply Forall_cons in Hh' as [Hjk' _].
  rewrite <-Hjk in Hw. rewrite <-Hjk', <-Hk in Hw'. congruence.
Qed.

(** ** Examples *)

Definition ex_opts : OrderedAsync := mkOrderedAsync 0 0 0.

Definition ex_fifo : list oevent :=
  [EvDispatch "p1" ex_opts 0; EvDispatch "p1" ex_opts 0; EvSend 0 1; EvReceive 0;
   EvSend 1 2; EvFinish 0 3; EvReceive 0].

Lemma ordered_jobs_conserved_witness :
  ∃ s, orun newOrderedDispatcher ex_fifo = Some s ∧ asyncWG s = 1%Z ∧
    sent s ≡ₚ finished_jobs s ++ holds (pool s).
Proof.
  destruct (orun newOrderedDispatcher ex_fifo) as [s|] eqn:E; [|by vm_compute in E].
  exists s. split; [done|]. split; [vm_compute in E; by simplify_eq|].
  exact (proj1 (ordered_jobs_conserved ex_fifo s E)).
Defined.

Lemma ordered_fifo_witness :
  ∃ s, orun newOrderedDispatcher ex_fifo = Some s ∧
    of_key "p1" (sent s) = of_key "p1" (finished_jobs s) ++ key_held s "p1" ∧
    finished_jobs s = [mkJob 0 "p1"].
Proof.
  destruct (orun newOrderedDispatcher ex_fifo) as [s|] eqn:E; [|by vm_compute in E].
  exists s. split; [done|]. split.
  - refine (proj1 (ordered_fifo ex_fifo s "p1" _ E)). repeat constructor; by intros [].
  - vm_compute in E. by simplify_eq.
Defined.

(** A producer that picked its worker just before the reaper retired it sends
    to a goroutine that has exited: the job is never run and the WaitGroup
    never returns to zero. *)
Definition ex_lost : list oevent :=
  [EvDispatch "p1" ex_opts 0; EvRetire "p1" (31 * second)%Z; EvClose 0; EvStop 0; EvExit 0;
   EvSend 0 (31 * second)%Z].

Example reaper_loses_job :
  ∃ s, orun newOrderedDispatcher ex_lost = Some s ∧ asyncWG s = 1%Z ∧
    finished_jobs s = [] ∧ w_phase <$> pool s !! 0 = Some Exited ∧
    ostep s (EvReceive 0) = None.
Proof. eexists. split; [by vm_compute|]. by vm_compute. Qed.

(** A job that runs longer than the idle timeout lets the reaper retire its
    busy worker: the next event of the key runs beside it on a new one. *)
Definition ex_overlap : list oevent :=
  [EvDispatch "p1" ex_opts 0; EvSend 0 0; EvReceive 0; EvRetire "p1" (31 * second)%Z;
   EvDispatch "p1" ex_opts (32 * second)%Z; EvSend 1 (32 * second)%Z; EvReceive 1;
   EvFinish 1 (33 * second)%Z].

Example reaper_breaks_order :
  ∃ s, orun newOrderedDispatcher ex_overlap = Some s ∧
    sent s = [mkJob 0 "p1"; mkJob 1 "p1"] ∧ finished_jobs s = [mkJob 1 "p1"] ∧
    w_phase <$> pool s !! 0 = Some (Running (mkJob 0 "p1")).
Proof. eexists. split; [by vm_compute|]. by vm_compute. Qed.
