(* ===== verification/PluginStore.v ===== *)
(** * Plugin rows and their storage
    (packages/go/plugins/lifecycle: state.go, storage.go, memory.go)

    The five lifecycle states, the plugin row, and the in-memory storage with
    its compare-and-swap state update. Each storage call holds the storage
    mutex throughout and is one atomic function on the table. Rows are copied
    in and out, so no caller aliases a stored row. *)
From S2P Require Import Prelude GoStrings.

(** ** Data *)

Inductive State :=
| StateInstalled | StateActive | StateInactive | StatePendingUninstall | StateErrored.

#[export] Instance State_eq_dec : EqDecision State.
Proof. solve_decision. Defined.

(** The state column is a string; [State.Valid] accepts the five names. *)
Definition state_name (s : State) : string :=
  match s with
  | StateInstalled => "installed"
  | StateActive => "active"
  | StateInactive => "inactive"
  | StatePendingUninstall => "pending_uninstall"
  | StateErrored => "errored"
  end.

Definition states : list State :=
  [StateInstalled; StateActive; StateInactive; StatePendingUninstall; StateErrored].

Definition Valid (s : string) : bool := existsb (λ st, String.eqb s (state_name st)) states.

(** [Plugin]. Manifest bytes are a string. *)
Record Plugin := mkPlugin {
  Slug : string;
  Version : string;
  ABIVersion : Z;
  ManifestRaw : string;
  PState : State;
  Capabilities : list string;
  LastError : string;
  ErrorAt : Time;
  InstalledAt : Time;
  ActivatedAt : Time;
  RowVersion : Z;
  UpdatedAt : Time;
}.

#[export] Instance Plugin_eq_dec : EqDecision Plugin.
Proof. solve_decision. Defined.

(** [StateUpdateFields]: a nil pointer leaves the column alone. *)
Record StateUpdateFields := mkFields {
  f_ActivatedAt : option Time;
  f_LastError : option string;
  f_ErrorAt : option Time;
}.

(** The storage sentinels. [ErrSlugRequired] is Insert's untyped error, [ErrBackend] any
    error of a database that did not carry out the call. *)
Inductive store_error :=
| ErrInvalidTransition (slug op : string) (attempted : State) (actual : option State)
| ErrNotFound (slug : string)
| ErrAlreadyExists (slug : string)
| ErrSlugRequired
| ErrBackend (why : string).

#[export] Instance store_error_eq_dec : EqDecision store_error.
Proof. solve_decision. Defined.

(** ** MemoryStorage *)

Abbreviation Table := (gmap string Plugin) (only parsing).

(** The defaults [Insert] fills in. *)
Definition with_defaults (now : Time) (p : Plugin) : Plugin :=
  mkPlugin (Slug p) (Version p) (ABIVersion p) (ManifestRaw p) (PState p) (Capabilities p)
    (LastError p) (ErrorAt p)
    (if is_zero (InstalledAt p) then now else InstalledAt p) (ActivatedAt p)
    (if (RowVersion p =? 0)%Z then 1%Z else RowVersion p)
    (if is_zero (UpdatedAt p) then now else UpdatedAt p).

Definition Insert (now : Time) (t : Table) (p : Plugin) : Table * option store_error :=
  if decide (Slug p = "") then (t, Some ErrSlugRequired)
  else match t !! Slug p with
       | Some _ => (t, Some (ErrAlreadyExists (Slug p)))
       | None => (<[Slug p := with_defaults now p]> t, None)
       end.

Definition Get (t : Table) (slug : string) : result store_error Plugin :=
  match t !! slug with
  | Some p => Ok p
  | None => Err (ErrNotFound slug)
  end.

(** [List] reads the map in any order and sorts by slug. *)
Definition slug_lt (a b : Plugin) : bool := String.ltb (Slug a) (Slug b).

Definition ListPlugins (t : Table) : list Plugin :=
  sort_by slug_lt (snd <$> map_to_list t).

(** The row a successful [UpdateState] writes. *)
Definition apply_update (now : Time) (newState : State) (f : option StateUpdateFields)
    (p : Plugin) : Plugin :=
  let f := default (mkFields None None None) f in
  mkPlugin (Slug p) (Version p) (ABIVersion p) (ManifestRaw p) newState (Capabilities p)
    (default (LastError p) (f_LastError f)) (default (ErrorAt p) (f_ErrorAt f))
    (InstalledAt p) (default (ActivatedAt p) (f_ActivatedAt f))
    (RowVersion p + 1) now.

(** [UpdateState]: the compare-and-swap. *)
Definition UpdateState (now : Time) (t : Table) (slug : string) (expectedFrom newState : State)
    (f : option StateUpdateFields) : Table * option store_error :=
  match t !! slug with
  | None => (t, Some (ErrInvalidTransition slug "UpdateState" expectedFrom None))
  | Some p =>
      if decide (PState p = expectedFrom)
      then (<[slug := apply_update now newState f p]> t, None)
      else (t, Some (ErrInvalidTransition slug "UpdateState" expectedFrom (Some (PState p))))
  end.

Definition Delete (t : Table) (slug : string) : Table * option store_error :=
  match t !! slug with
  | None => (t, Some (ErrNotFound slug))
  | Some _ => (delete slug t, None)
  end.

(** [MemoryStorage.UpdateActiveVersion] (versions_memory.go). *)
Definition apply_version (now : Time) (version manifest : string) (abi : Z) (p : Plugin)
    : Plugin :=
  mkPlugin (Slug p) version (if (0 <? abi)%Z then abi else ABIVersion p)
    (if decide (manifest = "") then ManifestRaw p else manifest) (PState p) (Capabilities p)
    (LastError p) (ErrorAt p) (InstalledAt p) (ActivatedAt p) (RowVersion p + 1) now.

Definition UpdateActiveVersion (now : Time) (t : Table) (slug version manifest : string)
    (abi : Z) : Table * option store_error :=
  match t !! slug with
  | None => (t, Some (ErrNotFound slug))
  | Some p => (<[slug := apply_version now version manifest abi p]> t, None)
  end.

(** ** The table's keys are the rows' slugs *)

Definition table_ok (t : Table) : Prop :=
  map_Forall (λ k p, Slug p = k ∧ k ≠ "" ∧ (1 ≤ RowVersion p)%Z) t.

(** One storage call. *)
Inductive store_step : Table → Table → Prop :=
| st_insert now t p : (0 ≤ RowVersion p)%Z → store_step t (Insert now t p).1
| st_update now t slug from to f : store_step t (UpdateState now t slug from to f).1
| st_version now t slug v m abi : store_step t (UpdateActiveVersion now t slug v m abi).1
| st_delete t slug : store_step t (Delete t slug).1.

Lemma table_ok_step t t' : table_ok t → store_step t t' → table_ok t'.
Proof.
  intros Ht Hs. destruct Hs as [now t p Hp|now t slug from to f|now t slug v m abi|t slug].
  - unfold Insert. case_decide; [done|]. destruct (t !! Slug p); [done|]. simpl.
    apply map_Forall_insert_2; [|done]. simpl. split; [done|]. split; [done|].
    destruct (Z.eqb_spec (RowVersion p) 0); lia.
  - unfold UpdateState. destruct (t !! slug) as [p|] eqn:E; [|done]. case_decide; [|done].
    simpl. apply map_Forall_insert_2; [|done]. destruct (Ht _ _ E) as (? & ? & ?). simpl.
    split; [done|]. split; [done|]. lia.
  - unfold UpdateActiveVersion. destruct (t !! slug) as [p|] eqn:E; [|done]. simpl.
    apply map_Forall_insert_2; [|done]. destruct (Ht _ _ E) as (? & ? & ?). simpl.
    split; [done|]. split; [done|]. lia.
  - unfold Delete. destruct (t !! slug); [|done]. simpl. by apply map_Forall_delete.
Qed.

(** A row that survives a storage call keeps its identity, and its version
    grows by one exactly when the call wrote it. *)
Lemma store_step_row t t' slug p p' :
  store_step t t' → t !! slug = Some p → t' !! slug = Some p' →
  p' = p ∨ RowVersion p' = (RowVersion p + 1)%Z.
Proof.
  intros Hs Hp Hp'. destruct Hs as [now t q ?|now t s from to f|now t s v m abi|t s].
  - unfold Insert in Hp'. case_decide; [simplify_eq/=; auto|].
    destruct (t !! Slug q) eqn:E; simpl in Hp'; [simplify_eq; auto|].
    rewrite lookup_insert_ne in Hp' by congruence. simplify_eq. auto.
  - unfold UpdateState in Hp'. destruct (t !! s) as [r|] eqn:E; [|simplify_eq/=; auto].
    case_decide; simplify_eq/=; [|auto].
    destruct (decide (s = slug)) as [->|Hne].
    + rewrite lookup_insert_eq in Hp'. simplify_eq. auto.
    + rewrite lookup_insert_ne in Hp' by done. simplify_eq. auto.
  - unfold UpdateActiveVersion in Hp'. destruct (t !! s) as [r|] eqn:E; [|simplify_eq/=; auto].
    simpl in Hp'. destruct (decide (s = slug)) as [->|Hne].
    + rewrite lookup_insert_eq in Hp'. simplify_eq. auto.
    + rewrite lookup_insert_ne in Hp' by done. simplify_eq. auto.
  - unfold Delete in Hp'. destruct (t !! s) eqn:E; [|simplify_eq/=; auto]. simpl in Hp'.
    destruct (decide (s = slug)) as [->|Hne].
    + by rewrite lookup_delete_eq in Hp'.
    + rewrite lookup_delete_ne in Hp' by done. simplify_eq. auto.
Qed.

(** ** The storage interface

    What the lifecycle manager relies on ([Storage] and [VersionedStorage] in
    storage.go and update.go): a map from slugs to rows whose every call is
    atomic, and whose state update is a compare-and-swap. The laws are those of calls that
    the backend carries out; the memory storage and the SQL of the Postgres storage, which
    rewrites the version of Active rows only, keep them. *)
Class Storage (T : Type) := {
  lookup_row : T → string → option Plugin;
  insert_row : Time → T → Plugin → T * option store_error;
  update_state : Time → T → string → State → State → option StateUpdateFields →
                 T * option store_error;
  delete_row : T → string → T * option store_error;
  update_version : Time → T → string → string → string → Z → T * option store_error;
}.

Class StorageLaws (T : Type) `{Storage T} := {
  insert_result now t p :
    (insert_row now t p).2 = None ↔ Slug p ≠ "" ∧ lookup_row t (Slug p) = None;
  insert_lookup now t p s :
    lookup_row (insert_row now t p).1 s =
    if decide ((insert_row now t p).2 = None ∧ s = Slug p)
    then Some (with_defaults now p) else lookup_row t s;
  update_result now t slug from to f :
    (update_state now t slug from to f).2 = None ↔
    PState <$> lookup_row t slug = Some from;
  update_lookup now t slug from to f s :
    lookup_row (update_state now t slug from to f).1 s =
    if decide ((update_state now t slug from to f).2 = None ∧ s = slug)
    then apply_update now to f <$> lookup_row t slug else lookup_row t s;
  delete_result t slug :
    (delete_row t slug).2 = None ↔ is_Some (lookup_row t slug);
  delete_lookup t slug s :
    lookup_row (delete_row t slug).1 s =
    if decide (s = slug) then None else lookup_row t s;
  version_result now t slug v m abi :
    PState <$> lookup_row t slug = Some StateActive → (update_version now t slug v m abi).2 = None;
  version_lookup now t slug v m abi s :
    lookup_row (update_version now t slug v m abi).1 s =
    if decide ((update_version now t slug v m abi).2 = None ∧ s = slug)
    then apply_version now v m abi <$> lookup_row t slug else lookup_row t s;
}.

#[export] Instance MemoryStorage : Storage Table := {
  lookup_row t slug := t !! slug;
  insert_row := Insert;
  update_state := UpdateState;
  delete_row := Delete;
  update_version := UpdateActiveVersion;
}.

#[export] Instance MemoryStorageLaws : StorageLaws Table.
Proof.
  split; simpl.
  - intros now t p. unfold Insert. case_decide; [naive_solver|].
    destruct (t !! Slug p); naive_solver.
  - intros now t p s. unfold Insert.
    destruct (decide (Slug p = "")); simpl; [done|].
    destruct (t !! Slug p) eqn:E; simpl; [done|].
    destruct (decide (s = Slug p)) as [->|Hne].
    + rewrite decide_True by done. by rewrite lookup_insert_eq.
    + rewrite decide_False by naive_solver. by rewrite lookup_insert_ne.
  - intros now t slug from to f. unfold UpdateState.
    destruct (t !! slug) as [p|]; simpl; [|done]. case_decide; naive_solver.
  - intros now t slug from to f s. unfold UpdateState.
    destruct (t !! slug) as [p|] eqn:E; simpl; [|done].
    destruct (decide (PState p = from)); simpl; [|done].
    destruct (decide (s = slug)) as [->|Hne].
    + rewrite decide_True by done. by rewrite lookup_insert_eq.
    + rewrite decide_False by naive_solver. by rewrite lookup_insert_ne.
  - intros t slug. unfold Delete. destruct (t !! slug); simpl; unfold is_Some; naive_solver.
  - intros t slug s. unfold Delete. destruct (t !! slug) eqn:E; simpl.
    + case_decide as Hd; [subst; by rewrite lookup_delete_eq|by rewrite lookup_delete_ne].
    + case_decide; by subst.
  - intros now t slug v m abi. unfold UpdateActiveVersion. by destruct (t !! slug).
  - intros now t slug v m abi s. unfold UpdateActiveVersion.
    destruct (t !! slug) as [p|] eqn:E; simpl; [|done].
    destruct (decide (s = slug)) as [->|Hne].
    + rewrite decide_True by done. by rewrite lookup_insert_eq.
    + rewrite decide_False by naive_solver. by rewrite lookup_insert_ne.
Qed.
