(* ===== verification/Breaker.v ===== *)
(** * The crash-loop breaker (packages/go/plugins/lifecycle/breaker.go)

    Per-plugin trip counting over a rolling window. A bucket opens at the
    threshold and only [Reset] closes it. Each call holds the breaker mutex
    and is one function on the buckets; the clock is an argument. *)
From S2P Require Import Prelude.

Inductive BreakerState := BreakerClosed | BreakerOpen | BreakerHalfOpen.

#[export] Instance BreakerState_eq_dec : EqDecision BreakerState.
Proof. solve_decision. Defined.

Record BreakerConfig := mkBreakerConfig { MaxTrips : Z; CoolDown : Duration }.

Definition defaultMaxTrips : Z := 5.
Definition defaultCoolDown : Duration := (10 * minute)%Z.

(** [NewBreaker]'s defaults. *)
Definition NewBreaker (cfg : BreakerConfig) : BreakerConfig :=
  mkBreakerConfig
    (if (MaxTrips cfg <=? 0)%Z then defaultMaxTrips else MaxTrips cfg)
    (if (CoolDown cfg <=? 0)%Z then defaultCoolDown else CoolDown cfg).

Record bucket := mkBucket { trips : list Time; open : bool }.

Abbreviation Buckets := (gmap string bucket) (only parsing).

(** How many leading trips the scan of [Trip] drops. *)
Fixpoint dropped (cutoff : Time) (i : nat) (l : list Time) : nat :=
  match l with
  | [] => 0
  | t :: rest =>
      if time_after t cutoff then i
      else match rest with
           | [] => S i
           | _ => dropped cutoff (S i) rest
           end
  end.

(** [Breaker.Trip] *)
Definition Trip (cfg : BreakerConfig) (now : Time) (b : Buckets) (slug : string)
    : Buckets * bool :=
  if decide (slug = "") then (b, false)
  else
    let bk := default (mkBucket [] false) (b !! slug) in
    let ts := trips bk ++ [now] in
    let ts := drop (dropped (now - CoolDown cfg) 0 ts) ts in
    if negb (open bk) && (MaxTrips cfg <=? Z.of_nat (length ts))%Z
    then (<[slug := mkBucket ts true]> b, true)
    else (<[slug := mkBucket ts (open bk)]> b, false).

(** [Breaker.Reset] *)
Definition Reset (b : Buckets) (slug : string) : Buckets :=
  if decide (slug = "") then b else delete slug b.

(** The pruning loop of [State]. *)
Fixpoint prune_head (cutoff : Time) (l : list Time) : list Time :=
  match l with
  | [] => []
  | t :: rest => if time_after t cutoff then l else prune_head cutoff rest
  end.

(** [Breaker.State]: reading prunes a closed bucket. *)
Definition BreakerState_of (cfg : BreakerConfig) (now : Time) (b : Buckets) (slug : string)
    : Buckets * BreakerState :=
  if decide (slug = "") then (b, BreakerClosed)
  else match b !! slug with
       | None => (b, BreakerClosed)
       | Some bk =>
           if open bk then (b, BreakerOpen)
           else (<[slug := mkBucket (prune_head (now - CoolDown cfg) (trips bk)) false]> b,
                 BreakerClosed)
       end.

(** [Breaker.TripCount] *)
Definition TripCount (b : Buckets) (slug : string) : nat :=
  if decide (slug = "") then 0
  else match b !! slug with None => 0 | Some bk => length (trips bk) end.

(** ** The window *)

Definition in_window (cfg : BreakerConfig) (now : Time) (ts : list Time) : list Time :=
  filter (λ t, now - CoolDown cfg < t)%Z ts.

Abbreviation chronological := (StronglySorted Z.le) (only parsing).

Lemma drop_dropped cutoff (ts : list Time) :
  chronological ts → drop (dropped cutoff 0 ts) ts = filter (λ t, cutoff < t)%Z ts.
Proof.
  assert (∀ i l, dropped cutoff (S i) l = if decide (l = []) then 0
    else S (dropped cutoff i l)) as Hshift.
  { intros i l. revert i. induction l as [|t l IH]; intros i; [done|].
    rewrite decide_False by done. cbn [dropped]. destruct (time_after t cutoff); [done|].
    destruct l as [|u l]; [done|]. rewrite !IH. by rewrite !decide_False. }
  induction 1 as [|t l Hl IH Ht]; [done|]. cbn [dropped]. rewrite filter_cons.
  unfold time_after. destruct (Z.ltb_spec cutoff t).
  - rewrite decide_True by done. simpl. f_equal. clear IH.
    induction Ht as [|u l Hu Hl' IH]; [done|]. rewrite filter_cons.
    rewrite decide_True by lia. f_equal. apply IH. by inversion Hl.
  - rewrite decide_False by lia. destruct l as [|u l]; [done|].
    rewrite Hshift. rewrite decide_False by done. simpl. exact IH.
Qed.

Lemma prune_head_filter cutoff (ts : list Time) :
  chronological ts → prune_head cutoff ts = filter (λ t, cutoff < t)%Z ts.
Proof.
  induction 1 as [|t l Hl IH Ht]; [done|]. cbn [prune_head]. rewrite filter_cons.
  unfold time_after. destruct (Z.ltb_spec cutoff t).
  - rewrite decide_True by done. f_equal. clear IH.
    induction Ht as [|u l Hu Hl' IH]; [done|]. rewrite filter_cons.
    rewrite decide_True by lia. f_equal. apply IH. by inversion Hl.
  - by rewrite decide_False by lia.
Qed.

(** ** Histories *)

(** What happens to one plugin's bucket: trips and status reads. *)
Inductive breaker_event := EvTrip (at_ : Time) | EvRead (at_ : Time).

Definition event_time (e : breaker_event) : Time :=
  match e with EvTrip t | EvRead t => t end.

(** The buckets and the answers of the trips, oldest first. *)
Definition breaker_apply (cfg : BreakerConfig) (slug : string)
    (st : Buckets * list bool) (e : breaker_event) : Buckets * list bool :=
  match e with
  | EvTrip t => let '(b, r) := Trip cfg t st.1 slug in (b, st.2 ++ [r])
  | EvRead t => ((BreakerState_of cfg t st.1 slug).1, st.2)
  end.

Definition breaker_run (cfg : BreakerConfig) (slug : string) (es : list breaker_event)
    : Buckets * list bool :=
  foldl (breaker_apply cfg slug) (∅, []) es.

Definition trip_times (es : list breaker_event) : list Time :=
  omap (λ e, match e with EvTrip t => Some t | EvRead _ => None end) es.

(** The [k]-th trip reaches the threshold: enough of the trips up to it lie
    within the window that ends at it. *)
Definition reaches (cfg : BreakerConfig) (ts : list Time) (k : nat) : Prop :=
  ∃ now, ts !! k = Some now ∧
    (MaxTrips cfg ≤ Z.of_nat (length (in_window cfg now (take (S k) ts))))%Z.

#[export] Instance reaches_dec cfg ts k : Decision (reaches cfg ts k).
Proof.
  destruct (ts !! k) as [now|] eqn:E; [|right; intros (? & ? & _); congruence].
  destruct (decide (MaxTrips cfg ≤ Z.of_nat (length (in_window cfg now (take (S k) ts))))%Z);
    [left; by exists now|right; intros (? & ? & ?); simplify_eq; lia].
Defined.

Definition bucket_at (b : Buckets) (slug : string) : bucket :=
  default (mkBucket [] false) (b !! slug).

Record breaker_inv (cfg : BreakerConfig) (slug : string) (es : list breaker_event)
    (b : Buckets) (outs : list bool) : Prop := {
  bi_sublist : trips (bucket_at b slug) `sublist_of` trip_times es;
  bi_window now : Forall (λ t, t ≤ now)%Z (event_time <$> es) →
    in_window cfg now (trips (bucket_at b slug)) = in_window cfg now (trip_times es);
  bi_open : open (bucket_at b slug) = true ↔ ∃ k, reaches cfg (trip_times es) k;
  bi_length : length outs = length (trip_times es);
  bi_outs k : outs !! k = Some true ↔
    reaches cfg (trip_times es) k ∧ ∀ j, j < k → ¬ reaches cfg (trip_times es) j;
}.

Lemma chronological_sublist (l k : list Time) :
  l `sublist_of` k → chronological k → chronological l.
Proof.
  intros Hs. induction Hs as [|x l k Hs IH|x l k Hs IH]; intros Hk; [done| |].
  - inversion Hk; subst. constructor; [by apply IH|].
    apply Forall_forall. intros y Hy. eapply Forall_forall; [done|].
    by eapply elem_of_sublist.
  - inversion Hk; subst. by apply IH.
Qed.

Lemma trip_times_sublist es : trip_times es `sublist_of` event_time <$> es.
Proof.
  induction es as [|[t|t] es IH]; simpl; [done| |]; by constructor.
Qed.

Lemma in_window_twice cfg now now' (ts : list Time) :
  (now ≤ now')%Z → in_window cfg now' (in_window cfg now ts) = in_window cfg now' ts.
Proof.
  intros Hle. unfold in_window. induction ts as [|t ts IH]; [done|].
  rewrite !filter_cons. destruct (decide (now - CoolDown cfg < t)%Z).
  - rewrite filter_cons. by rewrite IH.
  - rewrite IH. by rewrite decide_False by lia.
Qed.

Lemma reaches_snoc cfg (ts : list Time) now k :
  reaches cfg (ts ++ [now]) k ↔
  reaches cfg ts k ∨ (k = length ts ∧
    (MaxTrips cfg ≤ Z.of_nat (length (in_window cfg now (ts ++ [now]))))%Z).
Proof.
  unfold reaches. split.
  - intros (t & Ht & Hn). apply lookup_app_Some in Ht as [Ht|[Hle Ht]].
    + left. exists t. split; [done|]. apply lookup_lt_Some in Ht.
      rewrite take_app_le in Hn by lia. done.
    + right. apply list_lookup_singleton_Some in Ht as [Hk ->].
      assert (k = length ts) as -> by lia. split; [done|].
      rewrite take_ge in Hn; [done|]. rewrite length_app. simpl. lia.
  - intros [(t & Ht & Hn)|[-> Hn]].
    + exists t. split; [by apply lookup_app_l_Some|].
      apply lookup_lt_Some in Ht. by rewrite take_app_le by lia.
    + exists now. split; [by apply list_lookup_middle|].
      rewrite take_ge; [done|]. rewrite length_app. simpl. lia.
Qed.

Lemma reaches_lt cfg ts k : reaches cfg ts k → k < length ts.
Proof. intros (? & ? & _). by eapply lookup_lt_Some. Qed.

Lemma bucket_at_insert b slug bk : bucket_at (<[slug := bk]> b) slug = bk.
Proof. unfold bucket_at. by rewrite lookup_insert_eq. Qed.

(** The trips kept by a trip at [now] are those of the whole history inside
    the window. *)
Lemma trip_window cfg slug es b outs now :
  breaker_inv cfg slug es b outs → (0 < CoolDown cfg)%Z →
  chronological (event_time <$> es ++ [EvTrip now]) →
  let ts := trips (bucket_at b slug) ++ [now] in
  drop (dropped (now - CoolDown cfg) 0 ts) ts = in_window cfg now (trip_times es ++ [now]).
Proof.
  intros Hinv Hcd Hc ts. unfold ts.
  assert (Forall (λ t, t ≤ now)%Z (event_time <$> es)) as Hle.
  { rewrite fmap_app in Hc. clear -Hc. induction es as [|e es IH]; [constructor|].
    inversion Hc as [|?? Hc' Hf]; subst. constructor; [|by apply IH].
    rewrite Forall_app in Hf. destruct Hf as [_ Hf]. by inversion Hf. }
  rewrite drop_dropped.
  - fold (in_window cfg now (trips (bucket_at b slug) ++ [now])). unfold in_window.
    rewrite !filter_app. f_equal. by apply Hinv.
  - eapply chronological_sublist; [|exact Hc]. rewrite fmap_app.
    apply sublist_app; [|done]. etrans; [apply Hinv|apply trip_times_sublist].
Qed.

Lemma trip_times_snoc es e :
  trip_times (es ++ [e]) = trip_times es ++ match e with EvTrip t => [t] | EvRead _ => [] end.
Proof. unfold trip_times. rewrite omap_app. by destruct e. Qed.

Lemma breaker_inv_trip cfg slug es b outs now :
  slug ≠ "" → (0 < CoolDown cfg)%Z →
  chronological (event_time <$> es ++ [EvTrip now]) →
  breaker_inv cfg slug es b outs →
  breaker_inv cfg slug (es ++ [EvTrip now])
    (Trip cfg now b slug).1 (outs ++ [(Trip cfg now b slug).2]).
Proof.
  intros Hs Hcd Hc Hinv. pose proof (trip_window _ _ _ _ _ _ Hinv Hcd Hc) as Hw.
  cbv zeta in Hw. unfold Trip. rewrite decide_False by done. cbv zeta.
  fold (bucket_at b slug). rewrite Hw.
  set (w := in_window cfg now (trip_times es ++ [now])).
  set (full := (MaxTrips cfg <=? Z.of_nat (length w))%Z).
  assert (full = true ↔ (MaxTrips cfg ≤ Z.of_nat (length w))%Z) as Hfull
    by apply Z.leb_le.
  set (r := if negb (open (bucket_at b slug)) && full then _ else _).
  assert (bucket_at r.1 slug = mkBucket w (open (bucket_at b slug) || full)) as Hb'.
  { unfold r. destruct (open (bucket_at b slug)), full; simpl; by rewrite bucket_at_insert. }
  assert (r.2 = negb (open (bucket_at b slug)) && full) as Hr
    by (unfold r; by destruct (negb _ && _)).
  split; rewrite ?Hb', ?trip_times_snoc; simpl.
  - unfold w, in_window. apply sublist_filter.
  - intros now' Hnow'. rewrite fmap_app, Forall_app in Hnow'.
    destruct Hnow' as [_ Hn]. apply in_window_twice. by inversion Hn.
  - rewrite orb_true_iff, (bi_open _ _ _ _ _ Hinv), Hfull. setoid_rewrite reaches_snoc.
    naive_solver.
  - rewrite !length_app, (bi_length _ _ _ _ _ Hinv). done.
  - intros k. pose proof (bi_length _ _ _ _ _ Hinv) as Hlen.
    destruct (decide (k < length outs)) as [Hk|Hk].
    + rewrite lookup_app_l by done. rewrite (bi_outs _ _ _ _ _ Hinv).
      setoid_rewrite reaches_snoc. split.
      * intros [? Hj]. split; [auto|]. intros j Hlt [?|[-> _]]; [by eapply Hj|lia].
      * intros [[?|[-> _]] Hj]; [|lia]. split; [done|]. intros j Hlt ?. eapply Hj; eauto.
    + rewrite lookup_app_r by lia. rewrite list_lookup_singleton_Some, Hr.
      rewrite andb_true_iff, negb_true_iff, <-not_true_iff_false.
      rewrite (bi_open _ _ _ _ _ Hinv), Hfull. setoid_rewrite reaches_snoc. split.
      * intros [Hk0 [Hno Hf]]. split; [right; split; [lia|done]|].
        intros j Hlt [?|[-> _]]; [by apply Hno; exists j|lia].
      * intros [[Hr'%reaches_lt|[-> Hf]] Hj]; [lia|]. split; [lia|]. split; [|done].
        intros [j Hj']. eapply Hj; [by eapply reaches_lt|by left].
Qed.

Lemma breaker_inv_read cfg slug es b outs now :
  slug ≠ "" → (0 < CoolDown cfg)%Z →
  chronological (event_time <$> es ++ [EvRead now]) →
  breaker_inv cfg slug es b outs →
  breaker_inv cfg slug (es ++ [EvRead now]) (BreakerState_of cfg now b slug).1 outs.
Proof.
  intros Hs Hcd Hc Hinv.
  assert (chronological (trips (bucket_at b slug))) as Hch.
  { eapply chronological_sublist; [|exact Hc]. rewrite fmap_app.
    etrans; [apply Hinv|]. etrans; [apply trip_times_sublist|]. by apply sublist_inserts_r. }
  assert (open (bucket_at (BreakerState_of cfg now b slug).1 slug) = open (bucket_at b slug) ∧
    (trips (bucket_at (BreakerState_of cfg now b slug).1 slug) = trips (bucket_at b slug) ∨
     trips (bucket_at (BreakerState_of cfg now b slug).1 slug) =
       in_window cfg now (trips (bucket_at b slug)))) as [Ho Ht].
  { unfold BreakerState_of. rewrite decide_False by done. unfold bucket_at in *.
    destruct (b !! slug) as [bk|] eqn:E; simpl in *; [|rewrite E; auto].
    destruct (open bk) eqn:Hop; simpl; [rewrite E; auto|].
    rewrite lookup_insert_eq. simpl. rewrite prune_head_filter by done. auto. }
  split; rewrite ?trip_times_snoc, ?app_nil_r; rewrite ?Ho; try apply Hinv.
  - destruct Ht as [->| ->]; [apply Hinv|].
    etrans; [apply sublist_filter|apply Hinv].
  - intros now' Hn. rewrite fmap_app, Forall_app in Hn. destruct Hn as [Hn Hn'].
    inversion Hn' as [|?? Hle _]; subst. simpl in Hle.
    destruct Ht as [->| ->]; [by apply Hinv|].
    rewrite in_window_twice by done. by apply Hinv.
Qed.

Lemma breaker_run_inv cfg slug es :
  slug ≠ "" → (0 < CoolDown cfg)%Z → chronological (event_time <$> es) →
  breaker_inv cfg slug es (breaker_run cfg slug es).1 (breaker_run cfg slug es).2.
Proof.
  intros Hs Hcd. induction es as [|e es IH] using rev_ind; intros Hc.
  - split; simpl.
    + done.
    + done.
    + split; [done|]. intros [k Hk%reaches_lt]. simpl in Hk. lia.
    + done.
    + intros k. rewrite lookup_nil. split; [done|]. intros [Hk%reaches_lt _]. simpl in Hk. lia.
  - ospecialize (IH _).
    { eapply chronological_sublist; [|exact Hc]. rewrite fmap_app. by apply sublist_inserts_r. }
    unfold breaker_run in *. rewrite foldl_app. cbn [foldl].
    set (st := foldl _ _ es) in *. destruct e as [t|t]; cbn [breaker_apply].
    + pose proof (breaker_inv_trip _ _ _ _ _ t Hs Hcd Hc IH) as H.
      by destruct (Trip cfg t st.1 slug).
    + by apply breaker_inv_read.
Qed.

(** Under a clock that does not run backwards, the breaker of a plugin is
    open exactly when some trip since the last reset was at least the
    [MaxTrips]-th of the rolling window ending at it, and exactly the first
    such trip answers true; status reads in between change neither. *)
Theorem breaker_opens cfg slug es now :
  slug ≠ "" → chronological (event_time <$> es) →
  let cfg := NewBreaker cfg in
  let b := (breaker_run cfg slug es).1 in
  let outs := (breaker_run cfg slug es).2 in
  let ts := trip_times es in
  length outs = length ts ∧
  (∀ k, outs !! k = Some true ↔ reaches cfg ts k ∧ ∀ j, j < k → ¬ reaches cfg ts j) ∧
  ((BreakerState_of cfg now b slug).2 = BreakerOpen ↔ ∃ k, reaches cfg ts k) ∧
  (BreakerState_of cfg now (Reset b slug) slug).2 = BreakerClosed.
Proof.
  intros Hs Hc. cbv zeta. set (c := NewBreaker cfg).
  assert (0 < CoolDown c)%Z as Hcd.
  { unfold c, NewBreaker. simpl. destruct (Z.leb_spec (CoolDown cfg) 0); [done|lia]. }
  pose proof (breaker_run_inv c slug es Hs Hcd Hc) as Hinv.
  set (b := (breaker_run c slug es).1) in *.
  split; [apply Hinv|]. split; [apply Hinv|]. split.
  - rewrite <-(bi_open _ _ _ _ _ Hinv). unfold BreakerState_of, bucket_at.
    rewrite decide_False by done. destruct (b !! slug) as [bk|]; simpl; [|done].
    by destruct (open bk).
  - unfold BreakerState_of, Reset. rewrite !decide_False by done.
    by rewrite lookup_delete_eq.
Qed.

(** Two trips a minute apart with a threshold of two: the second one opens. *)
Lemma breaker_opens_witness :
  (breaker_run (NewBreaker (mkBreakerConfig 2 (5 * minute))) "seo"
    [EvTrip 0; EvRead minute; EvTrip minute]%Z).2 !! 1 = Some true.
Proof.
  apply (proj1 (proj2 (breaker_opens (mkBreakerConfig 2 (5 * minute)) "seo"
    [EvTrip 0; EvRead minute; EvTrip minute]%Z 0 ltac:(done)
    ltac:(repeat constructor; vm_compute; congruence)))).
  split.
  - by eapply (bool_decide_unpack _); vm_compute.
  - intros [|j] Hj; [|lia]. by eapply (bool_decide_unpack _); vm_compute.
Defined.
