(* ===== verification/Versions.v ===== *)
(** * The plugin version log
    (packages/go/plugins/lifecycle: update.go lines 40-110, versions_memory.go)

    One row per installed version of a plugin, and the moves between active,
    retiring, retained and retired. The rows of a slug are one slice, updated
    in place: a failing [AppendActive] keeps what its scan already wrote. *)
From S2P Require Import Prelude.

Inductive VersionState := VersionActive | VersionRetiring | VersionRetained | VersionRetired.

#[export] Instance VersionState_eq_dec : EqDecision VersionState.
Proof. solve_decision. Defined.

Record VersionRow := mkVersionRow {
  v_Slug : string;
  v_Version : string;
  v_ABIVersion : Z;
  v_State : VersionState;
  v_InstalledAt : Time;
  v_ActivatedAt : Time;
  v_RetiredAt : Time;
  v_RetentionEnd : Time;
}.

#[export] Instance VersionRow_eq_dec : EqDecision VersionRow.
Proof. solve_decision. Defined.

(** [VErrBackend]: a database that did not carry out the call. *)
Inductive version_error :=
| VErrBackend (why : string)
| VErrRequired
| VErrExists (version slug : string)
| VErrMissing (slug version : string)
| ErrNoRollback.

Abbreviation VersionLog := (gmap string (list VersionRow)) (only parsing).

Definition set_state (s : VersionState) (r : VersionRow) : VersionRow :=
  mkVersionRow (v_Slug r) (v_Version r) (v_ABIVersion r) s (v_InstalledAt r)
    (v_ActivatedAt r) (v_RetiredAt r) (v_RetentionEnd r).

(** Active to retiring, at [now]. *)
Definition retire (now : Time) (r : VersionRow) : VersionRow :=
  mkVersionRow (v_Slug r) (v_Version r) (v_ABIVersion r) VersionRetiring (v_InstalledAt r)
    (v_ActivatedAt r) now (v_RetentionEnd r).

Definition retain (until : Time) (r : VersionRow) : VersionRow :=
  mkVersionRow (v_Slug r) (v_Version r) (v_ABIVersion r) VersionRetained (v_InstalledAt r)
    (v_ActivatedAt r) (v_RetiredAt r) until.

Definition activate (now : Time) (r : VersionRow) : VersionRow :=
  mkVersionRow (v_Slug r) (v_Version r) (v_ABIVersion r) VersionActive (v_InstalledAt r)
    now (v_RetiredAt r) (v_RetentionEnd r).

(** The scan of [AppendActive]: the rows as it leaves them, and the row it
    retired, or [None] when it met the version already. *)
Fixpoint append_scan (row : VersionRow) (rows : list VersionRow) (previous : option VersionRow)
    : list VersionRow * option (option VersionRow) :=
  match rows with
  | [] => ([], Some previous)
  | r :: rest =>
      let '(r, previous) :=
        if decide (v_State r = VersionActive)
        then let r' := retire (v_InstalledAt row) r in (r', Some r')
        else (r, previous) in
      if decide (v_Version r = v_Version row) then (r :: rest, None)
      else let '(rest, res) := append_scan row rest previous in (r :: rest, res)
  end.

(** [AppendActive] *)
Definition AppendActive (l : VersionLog) (row : VersionRow)
    : VersionLog * result version_error (option VersionRow) :=
  if decide (v_Slug row = "" ∨ v_Version row = "") then (l, Err VErrRequired)
  else
    let row := set_state VersionActive row in
    let '(rows, res) := append_scan row (default [] (l !! v_Slug row)) None in
    match res with
    | None => (<[v_Slug row := rows]> l, Err (VErrExists (v_Version row) (v_Slug row)))
    | Some previous => (<[v_Slug row := rows ++ [row]]> l, Ok previous)
    end.

(** Update of the first row of a version. *)
Fixpoint update_first (version : string) (f : VersionRow → VersionRow)
    (rows : list VersionRow) : option (list VersionRow) :=
  match rows with
  | [] => None
  | r :: rest =>
      if decide (v_Version r = version) then Some (f r :: rest)
      else cons r <$> update_first version f rest
  end.

Definition mark (l : VersionLog) (slug version : string) (f : VersionRow → VersionRow)
    : VersionLog * option version_error :=
  match update_first version f (default [] (l !! slug)) with
  | Some rows => (<[slug := rows]> l, None)
  | None => (l, Some (VErrMissing slug version))
  end.

Definition MarkRetained (l : VersionLog) (slug version : string) (retentionEnd : Time)
    : VersionLog * option version_error := mark l slug version (retain retentionEnd).

Definition MarkRetired (l : VersionLog) (slug version : string)
    : VersionLog * option version_error := mark l slug version (set_state VersionRetired).

(** [PromoteToActive] *)
Definition PromoteToActive (now : Time) (l : VersionLog) (slug version : string)
    : VersionLog * option version_error :=
  let rows := default [] (l !! slug) in
  if decide (Exists (λ r, v_Version r = version ∧ v_State r = VersionRetained) rows)
  then (<[slug := (λ r, if decide (v_Version r = version) then activate now r
                        else if decide (v_State r = VersionActive) then retire now r
                        else r) <$> rows]> l, None)
  else (l, Some ErrNoRollback).

(** [ListRetained]: newest installation first. *)
Definition newer (a b : VersionRow) : bool := time_after (v_InstalledAt a) (v_InstalledAt b).

Definition ListRetained (l : VersionLog) (slug : string) : list VersionRow :=
  sort_by newer (filter (λ r, v_State r = VersionRetained) (default [] (l !! slug))).

(** [PurgeExpired]: one slug's kept rows, then the whole log. *)
Definition expired (now : Time) (r : VersionRow) : bool :=
  match v_State r with
  | VersionRetained => negb (is_zero (v_RetentionEnd r)) && time_after now (v_RetentionEnd r)
  | VersionRetired => true
  | _ => false
  end.

Definition keep (now : Time) (rows : list VersionRow) : list VersionRow :=
  filter (λ r, expired now r = false) rows.

Definition PurgeExpired (now : Time) (l : VersionLog) : VersionLog * Z :=
  (omap (λ rows, match keep now rows with [] => None | kept => Some kept end) l,
   map_fold (λ _ rows n, n + Z.of_nat (length rows - length (keep now rows)))%Z 0%Z l).

(** ** The invariant: distinct versions, at most one active *)

Definition active_rows (rows : list VersionRow) : list VersionRow :=
  filter (λ r, v_State r = VersionActive) rows.

Definition rows_ok (rows : list VersionRow) : Prop :=
  NoDup (v_Version <$> rows) ∧ length (active_rows rows) ≤ 1.

Definition log_ok (l : VersionLog) : Prop := map_Forall (λ _ rows, rows_ok rows) l.

Inductive version_op :=
| OpAppend (row : VersionRow)
| OpRetained (slug version : string) (until : Time)
| OpRetired (slug version : string)
| OpPromote (now : Time) (slug version : string)
| OpPurge (now : Time).

Definition apply_op (l : VersionLog) (o : version_op) : VersionLog :=
  match o with
  | OpAppend row => (AppendActive l row).1
  | OpRetained slug version until => (MarkRetained l slug version until).1
  | OpRetired slug version => (MarkRetired l slug version).1
  | OpPromote now slug version => (PromoteToActive now l slug version).1
  | OpPurge now => (PurgeExpired now l).1
  end.

Lemma log_ok_default l slug : log_ok l → rows_ok (default [] (l !! slug)).
Proof.
  intros Hl. destruct (l !! slug) as [rows|] eqn:E; simpl; [by apply (Hl slug)|].
  split; [constructor|simpl; lia].
Qed.

Lemma active_rows_cons r rows :
  active_rows (r :: rows) =
  if decide (v_State r = VersionActive) then r :: active_rows rows else active_rows rows.
Proof. unfold active_rows. by rewrite filter_cons. Qed.

(** What the scan leaves: the same versions, no new active row, none at all
    if it ran to the end, and then the version is new. *)
Lemma append_scan_spec row rows prev rows' res :
  append_scan row rows prev = (rows', res) →
  v_Version <$> rows' = v_Version <$> rows ∧
  length (active_rows rows') ≤ length (active_rows rows) ∧
  (is_Some res → active_rows rows' = [] ∧ v_Version row ∉ (v_Version <$> rows)).
Proof.
  revert prev rows' res. induction rows as [|r rows IH]; intros prev rows' res E; simpl in E.
  { simplify_eq. split; [done|]. split; [done|]. intros _. split; [done|]. set_solver. }
  rewrite active_rows_cons.
  assert (∃ r1 prev1, (if decide (v_State r = VersionActive)
      then (retire (v_InstalledAt row) r, Some (retire (v_InstalledAt row) r))
      else (r, prev)) = (r1, prev1) ∧ v_Version r1 = v_Version r ∧ v_State r1 ≠ VersionActive)
    as (r1 & prev1 & E1 & Hv & Hs).
  { case_decide; eauto. }
  rewrite E1 in E. destruct (decide (v_Version r1 = v_Version row)) as [Hdup|Hdup].
  - simplify_eq. rewrite active_rows_cons, (decide_False (P := v_State r1 = _)) by done.
    cbn [fmap list_fmap]. split; [by rewrite Hv|]. split; [case_decide; simpl; lia|].
    by intros [? ?].
  - destruct (append_scan row rows prev1) as [rest res'] eqn:E2. simplify_eq.
    destruct (IH _ _ _ E2) as (Hmap & Hlen & Hres).
    rewrite active_rows_cons, (decide_False (P := v_State r1 = _)) by done. cbn [fmap list_fmap].
    split; [by rewrite Hmap, Hv|]. split; [case_decide; simpl; lia|].
    intros [? Hnin]%Hres. split; [done|]. rewrite <-Hv.
    by apply not_elem_of_cons.
Qed.

Lemma update_first_spec version f rows rows' :
  (∀ r, v_Version (f r) = v_Version r ∧ v_State (f r) ≠ VersionActive) →
  update_first version f rows = Some rows' →
  v_Version <$> rows' = v_Version <$> rows ∧
  length (active_rows rows') ≤ length (active_rows rows).
Proof.
  intros Hf. revert rows'. induction rows as [|r rows IH]; intros rows' E; simpl in E; [done|].
  rewrite active_rows_cons. case_decide as Hd.
  - simplify_eq. destruct (Hf r) as [Hv Hs].
    rewrite active_rows_cons, (decide_False (P := v_State (f r) = _)) by done. cbn [fmap list_fmap].
    split; [by rewrite Hv|]. case_decide; simpl; lia.
  - apply fmap_Some in E as (rest & E & ->). destruct (IH _ E) as [Hm Hl].
    rewrite active_rows_cons. cbn [fmap list_fmap]. split; [by rewrite Hm|].
    case_decide; simpl; lia.
Qed.

Lemma rows_ok_le rows rows' :
  v_Version <$> rows' = v_Version <$> rows →
  length (active_rows rows') ≤ length (active_rows rows) → rows_ok rows → rows_ok rows'.
Proof. intros Hm Hl [? ?]. split; [by rewrite Hm|lia]. Qed.

Lemma log_ok_mark l slug version f :
  (∀ r, v_Version (f r) = v_Version r ∧ v_State (f r) ≠ VersionActive) →
  log_ok l → log_ok (mark l slug version f).1.
Proof.
  intros Hf Hl. unfold mark. destruct (update_first _ _ _) as [rows|] eqn:E; [|done]. simpl.
  apply map_Forall_insert_2; [|done].
  apply update_first_spec in E as [Hm Hle]; [|done].
  eapply rows_ok_le; [done|done|by apply log_ok_default].
Qed.

Definition rows_at (l : VersionLog) (slug : string) : list VersionRow :=
  default [] (l !! slug).

Lemma append_active_rows l row l' prev :
  AppendActive l row = (l', Ok prev) →
  ∃ rows, rows_at l' (v_Slug row) = rows ++ [set_state VersionActive row] ∧
    active_rows rows = [] ∧ v_Version row ∉ (v_Version <$> rows) ∧
    v_Version <$> rows = v_Version <$> rows_at l (v_Slug row) ∧
    l' = <[v_Slug row := rows ++ [set_state VersionActive row]]> l.
Proof.
  unfold AppendActive. case_decide; [done|]. cbv zeta.
  destruct (append_scan _ _ _) as [rows res] eqn:E. intros Heq.
  destruct res as [p|]; simplify_eq/=.
  apply append_scan_spec in E as (Hm & _ & Hres).
  destruct Hres as [Hnil Hnin]; [by eexists|]. simpl in *.
  exists rows. unfold rows_at at 1. rewrite lookup_insert_eq. simpl.
  split; [done|]. split; [done|]. split; [by rewrite Hm|]. done.
Qed.

Lemma rows_ok_append rows row :
  active_rows rows = [] → v_Version row ∉ (v_Version <$> rows) →
  NoDup (v_Version <$> rows) → rows_ok (rows ++ [row]).
Proof.
  intros Ha Hn Hnd. split.
  - rewrite fmap_app. apply NoDup_app. split; [done|]. split; [|apply NoDup_singleton].
    intros v Hv ->%list_elem_of_singleton. done.
  - unfold active_rows in *. rewrite filter_app, Ha, filter_cons. case_decide; simpl; lia.
Qed.

Lemma log_ok_append l row : log_ok l → log_ok (AppendActive l row).1.
Proof.
  intros Hl. pose proof (log_ok_default l (v_Slug row) Hl) as Hrows.
  destruct (AppendActive l row) as [l' [prev|e]] eqn:E; simpl.
  - destruct (append_active_rows _ _ _ _ E) as (rows & _ & Ha & Hn & Hm & ->).
    apply map_Forall_insert_2; [|done]. apply rows_ok_append; [done|done|].
    rewrite Hm. apply Hrows.
  - unfold AppendActive in E. case_decide; [by simplify_eq|]. cbv zeta in E.
    destruct (append_scan _ _ _) as [rows res] eqn:Es. destruct res; simplify_eq/=.
    apply map_Forall_insert_2; [|done].
    apply append_scan_spec in Es as (Hm & Hle & _). by eapply rows_ok_le.
Qed.

(** The rows [PromoteToActive] writes. *)
Definition promote_row (now : Time) (version : string) (r : VersionRow) : VersionRow :=
  if decide (v_Version r = version) then activate now r
  else if decide (v_State r = VersionActive) then retire now r else r.

Lemma promote_row_spec now version r :
  v_Version (promote_row now version r) = v_Version r ∧
  (v_State (promote_row now version r) = VersionActive ↔ v_Version r = version).
Proof. unfold promote_row. repeat case_decide; simpl; naive_solver. Qed.

Lemma promote_versions now version (rows : list VersionRow) :
  v_Version <$> (promote_row now version <$> rows) = v_Version <$> rows.
Proof.
  rewrite <-list_fmap_compose. apply list_fmap_ext. intros _ r _. apply promote_row_spec.
Qed.

Lemma promote_active now version (rows : list VersionRow) :
  v_Version <$> active_rows (promote_row now version <$> rows) =
  filter (λ v, v = version) (v_Version <$> rows).
Proof.
  induction rows as [|r rows IH]; [done|]. cbn [fmap list_fmap].
  rewrite active_rows_cons, filter_cons.
  destruct (promote_row_spec now version r) as [Hv Hs].
  destruct (decide (v_Version r = version)) as [He|Hne].
  - rewrite decide_True by tauto. cbn [fmap list_fmap]. by rewrite IH, Hv.
  - rewrite decide_False by tauto. exact IH.
Qed.

Lemma filter_eq_NoDup (x : string) (l : list string) :
  NoDup l → x ∈ l → filter (λ v, v = x) l = [x].
Proof.
  induction 1 as [|y l Hy Hnd IH]; intros Hx; [by apply not_elem_of_nil in Hx|].
  rewrite filter_cons. apply elem_of_cons in Hx as [<-|Hx].
  - rewrite decide_True by done. f_equal. apply filter_none. by intros z Hz ->.
  - rewrite decide_False by (intros ->; done). by apply IH.
Qed.

Lemma promote_rows now l slug version l' :
  PromoteToActive now l slug version = (l', None) →
  version ∈ (v_Version <$> rows_at l slug) ∧
  l' = <[slug := promote_row now version <$> rows_at l slug]> l.
Proof.
  unfold PromoteToActive. cbv zeta. fold (rows_at l slug). case_decide as Hex; [|done].
  intros [= <-]. split; [|done].
  apply Exists_exists in Hex as (r & Hr & <- & _). by apply list_elem_of_fmap_2.
Qed.

Lemma promote_exactly_one now l slug version l' :
  log_ok l → PromoteToActive now l slug version = (l', None) →
  v_Version <$> active_rows (rows_at l' slug) = [version].
Proof.
  intros Hl E. apply promote_rows in E as [Hin ->]. unfold rows_at at 1.
  rewrite lookup_insert_eq. simpl. rewrite promote_active.
  apply filter_eq_NoDup; [|done]. by apply (log_ok_default l slug).
Qed.

Lemma log_ok_promote now l slug version :
  log_ok l → log_ok (PromoteToActive now l slug version).1.
Proof.
  intros Hl. destruct (PromoteToActive now l slug version) as [l' [e|]] eqn:E; simpl.
  - unfold PromoteToActive in E. cbv zeta in E. case_decide; by simplify_eq.
  - pose proof (promote_exactly_one _ _ _ _ _ Hl E) as H1.
    apply promote_rows in E as [_ ->]. apply map_Forall_insert_2; [|done].
    unfold rows_at in H1 at 1. rewrite lookup_insert_eq in H1. simpl in H1. split.
    + rewrite promote_versions. by apply (log_ok_default l slug).
    + apply (f_equal length) in H1. rewrite length_fmap in H1. rewrite H1. done.
Qed.

Lemma log_ok_purge now l : log_ok l → log_ok (PurgeExpired now l).1.
Proof.
  intros Hl slug rows Hr. simpl in Hr. apply lookup_omap_Some in Hr as (rows0 & Hk & H0).
  assert (rows = keep now rows0) as -> by (by destruct (keep now rows0); simplify_eq).
  destruct (Hl _ _ H0) as [Hnd Hlen]. split.
  - eapply sublist_NoDup; [exact Hnd|]. apply fmap_sublist, sublist_filter.
  - etrans; [|exact Hlen]. apply sublist_length. unfold active_rows.
    assert (∀ (P Q : VersionRow → Prop) `{∀ r, Decision (P r), ∀ r, Decision (Q r)} (k : list VersionRow),
      filter P (filter Q k) `sublist_of` filter P k) as Hff.
    { intros P Q ? ? k. induction k as [|r k IH]; [done|]. rewrite !filter_cons.
      destruct (decide (Q r)), (decide (P r)); rewrite ?filter_cons;
        rewrite ?decide_True, ?decide_False by done; first [done|by constructor]. }
    apply Hff.
Qed.

Lemma log_ok_op l o : log_ok l → log_ok (apply_op l o).
Proof.
  intros Hl. destruct o; simpl.
  - by apply log_ok_append.
  - by apply log_ok_mark.
  - by apply log_ok_mark.
  - by apply log_ok_promote.
  - by apply log_ok_purge.
Qed.

Lemma log_ok_run ops : log_ok (foldl apply_op ∅ ops).
Proof.
  induction ops as [|o ops IH] using rev_ind; [apply map_Forall_empty|].
  rewrite foldl_app. by apply log_ok_op.
Qed.

(** Whatever calls the version log has seen, failing ones included, no
    slug has two rows of the same version or two active rows; and a successful
    append or promotion leaves exactly one, the version asked for. *)
Theorem version_log_one_active ops :
  let l := foldl apply_op ∅ ops in
  log_ok l ∧
  (∀ row l' prev, AppendActive l row = (l', Ok prev) →
     v_Version <$> active_rows (rows_at l' (v_Slug row)) = [v_Version row]) ∧
  (∀ now slug version l', PromoteToActive now l slug version = (l', None) →
     v_Version <$> active_rows (rows_at l' slug) = [version]).
Proof.
  intros l. pose proof (log_ok_run ops) as Hl. fold l in Hl. split; [done|]. split.
  - intros row l' prev E. destruct (append_active_rows _ _ _ _ E) as (rows & -> & Ha & _).
    unfold active_rows in *. by rewrite filter_app, Ha.
  - intros now slug version l' E. by eapply promote_exactly_one.
Qed.

(** A purge removes exactly the retired rows and the retained ones past
    their retention end (a zero end never expires): the active version and the
    one being drained are never lost, and every other row survives in place. *)
Theorem purge_exact now l slug :
  rows_at (PurgeExpired now l).1 slug = keep now (rows_at l slug) ∧
  ∀ r, r ∈ rows_at l slug →
    r ∈ rows_at (PurgeExpired now l).1 slug ∨
    v_State r = VersionRetired ∨
    (v_State r = VersionRetained ∧ v_RetentionEnd r ≠ time_zero ∧ (v_RetentionEnd r < now)%Z).
Proof.
  assert (rows_at (PurgeExpired now l).1 slug = keep now (rows_at l slug)) as E.
  { unfold rows_at. simpl. rewrite lookup_omap. destruct (l !! slug) as [rows|]; [|done].
    simpl. by destruct (keep now rows). }
  split; [done|]. intros r Hr. rewrite E. unfold keep. rewrite list_elem_of_filter.
  destruct (expired now r) eqn:Hx; [|auto]. right. unfold expired, is_zero, time_after in Hx.
  destruct (v_State r); try done; [|auto]. right. split; [done|].
  apply andb_true_iff in Hx as [Hz%negb_true_iff%Z.eqb_neq Hlt%Z.ltb_lt]. auto.
Qed.

(** ** Examples *)

Definition ex_row (version : string) (state : VersionState) : VersionRow :=
  mkVersionRow "seo" version 1 state 10 10 0 0.

(** After a rollback the log holds the old version, active again, and the
    newer one retained behind it. Appending the newer one again fails, but only
    after the active row was marked retiring: no active row is left. *)
Definition after_rollback : VersionLog :=
  {["seo" := [ex_row "1.0.0" VersionActive; ex_row "2.0.0" VersionRetained]]}.

Example append_duplicate_loses_active :
  is_ok (AppendActive after_rollback (ex_row "2.0.0" VersionActive)).2 = false ∧
  active_rows (rows_at (AppendActive after_rollback (ex_row "2.0.0" VersionActive)).1 "seo") = [].
Proof. by vm_compute. Qed.
