(* ===== verification/Lifecycle.v ===== *)
(** * The plugin lifecycle manager
    (packages/go/plugins/lifecycle: manager.go, update.go, breaker.go)

    Each manager call is a program: a tree of atomic commands (one storage,
    runtime, migrator, breaker, version-log or audit call each) with the code's
    control flow between them. [run] executes a program alone; [pool_step]
    interleaves any number of concurrent calls command by command. What the
    runtime, the migrator and the clock answer, and whether the database carries
    the command out, is chosen afresh at each command by an environment. The
    runtime is known by its interface only ([Load] of a row, [Unload] of a slug);
    its modules are keyed by slug and version, as update.go expects of it.
    Logging is not modelled. *)
From Stdlib Require Import Ascii.
From S2P Require Import Prelude Prog GoStrings Semver Depends PluginStore Breaker Versions.

(** ** Bundles *)

(** The part of manifest.json the manager reads. *)
Record Manifest := mkManifest {
  m_Slug : string;
  m_Version : string;
  m_ABIVersion : Z;
  m_Capabilities : list string;   (* the keys, in the order the map yields them *)
  m_Raw : string;
}.

Definition manifestFilename : string := "manifest.json".
Definition maxBundleSize : Z := (64 * 1024 * 1024)%Z.

(** [slugRegex]: [^[a-z][a-z0-9-]{2,40}$]. *)
Definition is_lower (c : ascii) : bool := (Ascii.leb "a" c && Ascii.leb c "z")%char.
Definition is_slug_char (c : ascii) : bool :=
  is_lower c || is_digit c || Ascii.eqb c "-"%char.
Definition slug_matches (s : string) : bool :=
  match s with
  | String c rest =>
      is_lower c && all_chars is_slug_char rest &&
      (2 <=? String.length rest)%nat && (String.length rest <=? 40)%nat
  | "" => false
  end.

(** The insertion sort of [sortStrings]: [s[i]] sinks to the left past every
    greater element. The sorted part is held in reverse. *)
Fixpoint sink (x : string) (rev_sorted : list string) : list string :=
  match rev_sorted with
  | [] => [x]
  | y :: rest => if String.ltb x y then y :: sink x rest else x :: y :: rest
  end.

Definition sortStrings (l : list string) : list string :=
  rev (foldl (λ acc x, sink x acc) [] l).

Definition extractCapabilityNames (caps : list string) : list string := sortStrings caps.

Inductive bundle_error :=
| BundleNil | BundleRead | BundleTooLarge | BundleNotZip | BundleNoManifest
| BundleOpenManifest | BundleParse.

Section bundle.
(** [archive/zip] and [encoding/json]: the members of an archive (a member may
    fail to open or read), and the fields of a manifest. *)
Context (unzip : string → option (list (string * option string))).
Context (unmarshal : string → option (string * string * Z * list string)).
Context (unmarshal_probe : string → option (option string)).

(** [readManifestFromBundle]; [None] is a reader that fails. *)
Definition readManifestFromBundle (bundle : option string) : result bundle_error Manifest :=
  match bundle with
  | None => Err BundleRead
  | Some buf =>
      if (maxBundleSize <? Z.of_nat (String.length buf))%Z then Err BundleTooLarge
      else match unzip buf with
           | None => Err BundleNotZip
           | Some files =>
               match list_find (λ f, f.1 = manifestFilename) files with
               | None => Err BundleNoManifest
               | Some (_, (_, None)) => Err BundleOpenManifest
               | Some (_, (_, Some bytes)) =>
                   match unmarshal bytes with
                   | None => Err BundleParse
                   | Some (slug, version, abi, caps) =>
                       Ok (mkManifest slug version abi caps bytes)
                   end
               end
           end
  end.

(** [declaresAPIVersion] *)
Definition declaresAPIVersion (raw : string) : bool :=
  if decide (raw = "") then false
  else match unmarshal_probe raw with
       | Some (Some _) => true
       | _ => false
       end.
End bundle.

(** ** Commands and programs *)

Inductive severity := SeverityInfo | SeverityWarning.

Record audit_event := mkAudit {
  a_slug : string;
  a_event : string;
  a_severity : severity;
}.

Inductive cmd : Type → Type :=
| CGet (slug : string) : cmd (result store_error Plugin)
| CInsert (p : Plugin) : cmd (option store_error)
| CUpdate (slug : string) (from to : State) (f : option StateUpdateFields)
    : cmd (option store_error)
| CDelete (slug : string) : cmd (option store_error)
| CVersion (slug version manifest : string) (abi : Z) : cmd (option store_error)
| CLoad (p : Plugin) : cmd (option string)
| CUnload (slug : string) : cmd (option string)
| CMigrateUp (p : Plugin) : cmd (option string)
| CMigrateDown (slug : string) : cmd (option string)
| CNow : cmd Time
| CBreakerState (cfg : BreakerConfig) (slug : string) : cmd BreakerState
| CBreakerTrip (cfg : BreakerConfig) (slug : string) : cmd bool
| CBreakerReset (slug : string) : cmd unit
| CGate (mf : GateManifest) : cmd (option depends_error)
| CAudit (e : audit_event) : cmd unit
| CAppendActive (row : VersionRow) : cmd (result version_error (option VersionRow))
| CMarkRetained (slug version : string) (until : Time) : cmd (option version_error)
| CPromote (slug version : string) : cmd (option version_error)
| CListRetained (slug : string) : cmd (result version_error (list VersionRow))
| CPurge (now : Time) : cmd (result version_error Z)
| CWaitDrain (slug version : string) : cmd bool.

Abbreviation prog := (Prog.prog cmd) (only parsing).

(** ** The manager *)

Inductive lifecycle_error :=
| LStore (e : store_error)
| LBundle (e : bundle_error)
| LManifestInvalid
| LInvalidSlug (slug : string)
| LVersionRequired
| LAbiVersion (abi : Z)
| LMigrateUp (why : string)
| LLoad (why : string)
| LUnload (why : string)
| LBreakerOpen
| LDepends (e : depends_error)
| LNoVersionLog
| LNotActive (s : State)
| LVersionLog (e : version_error).

(** What [NewManager] and its options fix. [validate] is
    [manifest.Validate]'s answer on raw manifest bytes. *)
Record Manager := mkManager {
  mg_breaker : option BreakerConfig;
  mg_gate : bool;
  mg_validate : string → option GateManifest;
  mg_declares : string → bool;
  mg_versioned : bool;
  mg_drain : bool;
  mg_retainFor : Duration;
}.

(** [transitionError] of an operation. *)
Definition transition_error (slug op : string) (attempted actual : State) : lifecycle_error :=
  LStore (ErrInvalidTransition slug op attempted (Some actual)).

(** [parkErrored]: failing to park is only logged. *)
Definition parkErrored (slug : string) (from : State) (reason : string) : prog unit :=
  now <- CNow ;;
  err <- CUpdate slug from StateErrored (Some (mkFields None (Some reason) (Some now))) ;;
  match err with
  | Some _ => Ret tt
  | None => CAudit (mkAudit slug "plugin.errored" SeverityWarning) ;;; Ret tt
  end.

(** The bundle checks [Install] and [Update] share. *)
Definition check_manifest (m : Manager) (mf : Manifest) : option lifecycle_error :=
  if mg_declares m (m_Raw mf) && bool_decide (mg_validate m (m_Raw mf) = None)
  then Some LManifestInvalid
  else if negb (slug_matches (m_Slug mf)) then Some (LInvalidSlug (m_Slug mf))
  else if decide (m_Version mf = "") then Some LVersionRequired
  else None.

(** [Install]; the bundle is what reading it gave. *)
Definition Install (m : Manager) (bundle : option (result bundle_error Manifest))
    : prog (result lifecycle_error string) :=
  match bundle with
  | None => Ret (Err (LBundle BundleNil))
  | Some (Err e) => Ret (Err (LBundle e))
  | Some (Ok mf) =>
      match check_manifest m mf with
      | Some e => Ret (Err e)
      | None =>
          if (m_ABIVersion mf <=? 0)%Z then Ret (Err (LAbiVersion (m_ABIVersion mf)))
          else
            now <- CNow ;;
            let plugin := mkPlugin (m_Slug mf) (m_Version mf) (m_ABIVersion mf) (m_Raw mf)
              StateInstalled (extractCapabilityNames (m_Capabilities mf)) "" time_zero now
              time_zero 0 time_zero in
            err <- CInsert plugin ;;
            match err with
            | Some e => Ret (Err (LStore e))
            | None =>
                merr <- CMigrateUp plugin ;;
                match merr with
                | Some why =>
                    run! _ := parkErrored (m_Slug mf) StateInstalled ("migrate up: " +:+ why) in
                    Ret (Err (LMigrateUp why))
                | None =>
                    CAudit (mkAudit (m_Slug mf) "plugin.installed" SeverityInfo) ;;;
                    Ret (Ok (m_Slug mf))
                end
            end
      end
  end.

(** The breaker check of [Activate]. *)
Definition breaker_open (m : Manager) (slug : string) : prog bool :=
  match mg_breaker m with
  | None => Ret false
  | Some cfg => st <- CBreakerState cfg slug ;; Ret (bool_decide (st = BreakerOpen))
  end.

(** The dependency gate of [Activate]: skipped for a manifest that is empty or
    does not validate. *)
Definition gate_check (m : Manager) (current : Plugin) : prog (option depends_error) :=
  if mg_gate m then
    if decide (ManifestRaw current = "") then Ret None
    else match mg_validate m (ManifestRaw current) with
         | None => Ret None
         | Some mf => e <- CGate mf ;; Ret e
         end
  else Ret None.

(** The last part of [Activate], once the checks have passed. *)
Definition load_and_activate (slug : string) (current : Plugin)
    : prog (result lifecycle_error unit) :=
  lerr <- CLoad current ;;
  match lerr with
  | Some why =>
      run! _ := parkErrored slug (PState current) ("runtime load: " +:+ why) in
      Ret (Err (LLoad why))
  | None =>
      now <- CNow ;;
      uerr <- CUpdate slug (PState current) StateActive
        (Some (mkFields (Some now) (Some "") (Some time_zero))) ;;
      match uerr with
      | Some e => CUnload slug ;;; Ret (Err (LStore e))
      | None => CAudit (mkAudit slug "plugin.activated" SeverityInfo) ;;; Ret (Ok tt)
      end
  end.

(** [Activate] *)
Definition Activate (m : Manager) (slug : string) : prog (result lifecycle_error unit) :=
  row <- CGet slug ;;
  match row with
  | Err e => Ret (Err (LStore e))
  | Ok current =>
      if decide (PState current ≠ StateInstalled ∧ PState current ≠ StateInactive)
      then Ret (Err (transition_error slug "Activate" StateInstalled (PState current)))
      else
        run! tripped := breaker_open m slug in
        if tripped then Ret (Err LBreakerOpen)
        else
          run! refused := gate_check m current in
          match refused with
          | Some e => Ret (Err (LDepends e))
          | None =>
              load_and_activate slug current
          end
  end.

(** [Deactivate] *)
Definition Deactivate (slug : string) : prog (result lifecycle_error unit) :=
  row <- CGet slug ;;
  match row with
  | Err e => Ret (Err (LStore e))
  | Ok current =>
      if decide (PState current ≠ StateActive)
      then Ret (Err (transition_error slug "Deactivate" StateActive (PState current)))
      else
        uerr <- CUnload slug ;;
        match uerr with
        | Some why =>
            run! _ := parkErrored slug StateActive ("runtime unload: " +:+ why) in
            Ret (Err (LUnload why))
        | None =>
            err <- CUpdate slug StateActive StateInactive None ;;
            match err with
            | Some e => Ret (Err (LStore e))
            | None => CAudit (mkAudit slug "plugin.deactivated" SeverityInfo) ;;; Ret (Ok tt)
            end
        end
  end.

(** [Uninstall]: unload and migrate-down failures are only logged. *)
Definition Uninstall (slug : string) (removeData : bool) : prog (result lifecycle_error unit) :=
  row <- CGet slug ;;
  match row with
  | Err e => Ret (Err (LStore e))
  | Ok current =>
      if decide (PState current ≠ StateInactive ∧ PState current ≠ StateErrored)
      then Ret (Err (transition_error slug "Uninstall" StateInactive (PState current)))
      else
        err <- CUpdate slug (PState current) StatePendingUninstall None ;;
        match err with
        | Some e => Ret (Err (LStore e))
        | None =>
            CUnload slug ;;;
            run! _ := (if removeData then CMigrateDown slug ;;; Ret tt else Ret tt) in
            derr <- CDelete slug ;;
            match derr with
            | Some e => Ret (Err (LStore e))
            | None => CAudit (mkAudit slug "plugin.uninstalled" SeverityWarning) ;;; Ret (Ok tt)
            end
        end
  end.

(** [Reset] *)
Definition ResetPlugin (m : Manager) (slug : string) : prog (result lifecycle_error unit) :=
  row <- CGet slug ;;
  match row with
  | Err e => Ret (Err (LStore e))
  | Ok current =>
      if decide (PState current ≠ StateErrored)
      then Ret (Err (transition_error slug "Reset" StateErrored (PState current)))
      else
        err <- CUpdate slug StateErrored StateInactive
          (Some (mkFields None (Some "") (Some time_zero))) ;;
        match err with
        | Some e => Ret (Err (LStore e))
        | None =>
            run! _ := (if mg_breaker m then CBreakerReset slug ;;; Ret tt else Ret tt) in
            CAudit (mkAudit slug "plugin.reset" SeverityInfo) ;;; Ret (Ok tt)
        end
  end.

(** [Manager.Trip] *)
Definition TripPlugin (m : Manager) (slug : string) : prog (result lifecycle_error unit) :=
  match mg_breaker m with
  | None => Ret (Ok tt)
  | Some cfg =>
      tripped <- CBreakerTrip cfg slug ;;
      if negb tripped then Ret (Ok tt)
      else
        row <- CGet slug ;;
        match row with
        | Err _ => Ret (Ok tt)
        | Ok current =>
            if decide (PState current ≠ StateActive)
            then CAudit (mkAudit slug "plugin.breaker.tripped" SeverityWarning) ;;; Ret (Ok tt)
            else
              uerr <- CUnload slug ;;
              match uerr with
              | Some why =>
                  run! _ := parkErrored slug StateActive ("breaker unload: " +:+ why) in
                  Ret (Err (LUnload why))
              | None =>
                  err <- CUpdate slug StateActive StateInactive None ;;
                  match err with
                  | Some e => Ret (Err (LStore e))
                  | None =>
                      CAudit (mkAudit slug "plugin.breaker.tripped" SeverityWarning) ;;;
                      Ret (Ok tt)
                  end
              end
        end
  end.

(** [applyActiveVersion] on a storage with the version extension. *)
Definition applyActiveVersion (slug version manifest : string) (abi : Z)
    : prog (option store_error) :=
  e <- CVersion slug version manifest abi ;; Ret e.

(** The part of [Update] that commits to a staged version. *)
Definition switch_version (m : Manager) (mf : Manifest) : prog (result lifecycle_error string) :=
  now <- CNow ;;
  prev <- CAppendActive (mkVersionRow (m_Slug mf) (m_Version mf)
    (m_ABIVersion mf) VersionActive now now time_zero time_zero) ;;
  match prev with
  | Err e => CUnload (m_Slug mf) ;;; Ret (Err (LVersionLog e))
  | Ok previous =>
      run! _ := applyActiveVersion (m_Slug mf) (m_Version mf) (m_Raw mf) (m_ABIVersion mf) in
      run! _ :=
        match previous with
        | Some pr =>
            if mg_drain m then CWaitDrain (m_Slug mf) (v_Version pr) ;;; Ret tt else Ret tt
        | None => Ret tt
        end in
      now' <- CNow ;;
      run! _ :=
        match previous with
        | Some pr =>
            CMarkRetained (m_Slug mf) (v_Version pr) (now' + mg_retainFor m) ;;; Ret tt
        | None => Ret tt
        end in
      CAudit (mkAudit (m_Slug mf) "plugin.updated" SeverityInfo) ;;;
      Ret (Ok (m_Version mf))
  end.

(** [Update] *)
Definition Update (m : Manager) (bundle : option (result bundle_error Manifest))
    : prog (result lifecycle_error string) :=
  if negb (mg_versioned m) then Ret (Err LNoVersionLog)
  else match bundle with
  | None => Ret (Err (LBundle BundleNil))
  | Some (Err e) => Ret (Err (LBundle e))
  | Some (Ok mf) =>
      match check_manifest m mf with
      | Some e => Ret (Err e)
      | None =>
          row <- CGet (m_Slug mf) ;;
          match row with
          | Err e => Ret (Err (LStore e))
          | Ok current =>
              if decide (PState current ≠ StateActive)
              then Ret (Err (LNotActive (PState current)))
              else if decide (Version current = m_Version mf)
              then CAudit (mkAudit (m_Slug mf) "plugin.update.noop" SeverityInfo) ;;;
                   Ret (Ok (m_Version mf))
              else
                let staged := mkPlugin (Slug current) (m_Version mf) (m_ABIVersion mf) (m_Raw mf)
                  (PState current) (Capabilities current) (LastError current) (ErrorAt current)
                  (InstalledAt current) (ActivatedAt current) (RowVersion current)
                  (UpdatedAt current) in
                lerr <- CLoad staged ;;
                match lerr with
                | Some why => Ret (Err (LLoad why))
                | None =>
                    switch_version m mf
                end
          end
      end
  end.

(** [Rollback] *)
Definition Rollback (m : Manager) (slug toVersion : string)
    : prog (result lifecycle_error string) :=
  if negb (mg_versioned m) then Ret (Err LNoVersionLog)
  else
    row <- CGet slug ;;
    match row with
    | Err e => Ret (Err (LStore e))
    | Ok current =>
        retained <- CListRetained slug ;;
        match retained with
        | Err e => Ret (Err (LVersionLog e))
        | Ok [] => Ret (Err (LVersionLog ErrNoRollback))
        | Ok ((first :: _) as retained) =>
            let toVersion := if decide (toVersion = "") then v_Version first else toVersion in
            match list_find (λ r, v_Version r = toVersion) retained with
            | None => Ret (Err (LVersionLog ErrNoRollback))
            | Some (_, target) =>
                if decide (v_Version target = Version current) then Ret (Ok (Version current))
                else
                  perr <- CPromote slug toVersion ;;
                  match perr with
                  | Some e => Ret (Err (LVersionLog e))
                  | None =>
                      run! _ := applyActiveVersion slug toVersion "" (v_ABIVersion target) in
                      run! _ := (if mg_drain m
                                 then CWaitDrain slug (Version current) ;;; Ret tt
                                 else Ret tt) in
                      now <- CNow ;;
                      CMarkRetained slug (Version current) (now + mg_retainFor m) ;;;
                      CAudit (mkAudit slug "plugin.rollback" SeverityWarning) ;;;
                      Ret (Ok toVersion)
                  end
            end
        end
    end.

(** [RunRetentionCleanup] *)
Definition RunRetentionCleanup (m : Manager) : prog (result lifecycle_error Z) :=
  if negb (mg_versioned m) then Ret (Err LNoVersionLog)
  else
    now <- CNow ;;
    n <- CPurge now ;;
    match n with
    | Err e => Ret (Err (LVersionLog e))
    | Ok n => Ret (Ok n)
    end.

(** ** Semantics *)

Section semantics.
Context {T : Type} `{StorageLaws T}.
Context (IsValid : string → bool) (Compare : string → string → Z).

(** The shared state. [loaded] is what the runtime holds, a module per slug and
    version: a successful load adds the one it names; [Unload] names a slug, and a
    successful one leaves no version of it. *)
Record world := mkWorld {
  store : T;
  loaded : gset (string * string);
  buckets : gmap string bucket;
  versions : gmap string (list VersionRow);
  trail : list audit_event;
}.

(** What the outside answers at one command: the clock, the runtime, the
    migrator, the plugin registry the gate reads, whether the drain wait
    ended with no request in flight, and the error of a database that does not
    carry the command out. *)
Record env := mkEnv {
  e_now : Time;
  e_load : Plugin → option string;
  e_unload : string → option string;
  e_migrate_up : Plugin → option string;
  e_migrate_down : string → option string;
  e_registry : string → option PluginRecord;
  e_drained : bool;
  e_down : option string;
}.

Definition with_store (w : world) (t : T) : world :=
  mkWorld t (loaded w) (buckets w) (versions w) (trail w).
Definition with_loaded (w : world) (l : gset (string * string)) : world :=
  mkWorld (store w) l (buckets w) (versions w) (trail w).
Definition with_buckets (w : world) (b : gmap string bucket) : world :=
  mkWorld (store w) (loaded w) b (versions w) (trail w).
Definition with_versions (w : world) (v : gmap string (list VersionRow)) : world :=
  mkWorld (store w) (loaded w) (buckets w) v (trail w).

(** A write to the plugins table, and a call of the version log. *)
Definition storage_write (e : env) (w : world) (r : T * option store_error) : world * option store_error :=
  match e_down e with
  | None => (with_store w r.1, r.2)
  | Some why => (w, Some (ErrBackend why))
  end.

Definition log_write (e : env) (w : world) (r : gmap string (list VersionRow) * option version_error)
    : world * option version_error :=
  match e_down e with
  | None => (with_versions w r.1, r.2)
  | Some why => (w, Some (VErrBackend why))
  end.

Definition log_answer {X} (e : env) (w : world) (r : gmap string (list VersionRow) * result version_error X)
    : world * result version_error X :=
  match e_down e with
  | None => (with_versions w r.1, r.2)
  | Some why => (w, Err (VErrBackend why))
  end.

Definition get_row (e : env) (w : world) (slug : string) : result store_error Plugin :=
  match e_down e with
  | None => match lookup_row (store w) slug with Some p => Ok p | None => Err (ErrNotFound slug) end
  | Some why => Err (ErrBackend why)
  end.

Definition load (p : Plugin) (l : gset (string * string)) : gset (string * string) :=
  {[(Slug p, Version p)]} ∪ l.
Definition unload (slug : string) (l : gset (string * string)) : gset (string * string) :=
  filter (λ sv, sv.1 ≠ slug) l.

Definition exec {R} (e : env) (w : world) (c : cmd R) : world * R :=
  match c in cmd R return world * R with
  | CGet slug => (w, get_row e w slug)
  | CInsert p => storage_write e w (insert_row (e_now e) (store w) p)
  | CUpdate slug from to f => storage_write e w (update_state (e_now e) (store w) slug from to f)
  | CDelete slug => storage_write e w (delete_row (store w) slug)
  | CVersion slug v mf abi => storage_write e w (update_version (e_now e) (store w) slug v mf abi)
  | CLoad p =>
      (match e_load e p with
       | None => with_loaded w (load p (loaded w))
       | Some _ => w
       end, e_load e p)
  | CUnload slug =>
      (match e_unload e slug with
       | None => with_loaded w (unload slug (loaded w))
       | Some _ => w
       end, e_unload e slug)
  | CMigrateUp p => (w, e_migrate_up e p)
  | CMigrateDown slug => (w, e_migrate_down e slug)
  | CNow => (w, e_now e)
  | CBreakerState cfg slug =>
      let r := BreakerState_of cfg (e_now e) (buckets w) slug in (with_buckets w r.1, r.2)
  | CBreakerTrip cfg slug =>
      let r := Trip cfg (e_now e) (buckets w) slug in (with_buckets w r.1, r.2)
  | CBreakerReset slug => (with_buckets w (Breaker.Reset (buckets w) slug), tt)
  | CGate mf => (w, AllowActivate IsValid Compare (Some (e_registry e)) (Some mf))
  | CAudit ev =>
      (mkWorld (store w) (loaded w) (buckets w) (versions w) (trail w ++ [ev]), tt)
  | CAppendActive row => log_answer e w (AppendActive (versions w) row)
  | CMarkRetained slug v until => log_write e w (MarkRetained (versions w) slug v until)
  | CPromote slug v => log_write e w (PromoteToActive (e_now e) (versions w) slug v)
  | CListRetained slug => log_answer e w (versions w, Ok (ListRetained (versions w) slug))
  | CPurge now => let r := PurgeExpired now (versions w) in log_answer e w (r.1, Ok r.2)
  | CWaitDrain slug v => (w, e_drained e)
  end.

(** A program run on its own; the environment may change at every command. *)
Fixpoint run {A} (es : nat → env) (n : nat) (w : world) (p : prog A) : world * A :=
  match p with
  | Ret a => (w, a)
  | Call c k => let r := exec (es n) w c in run es (S n) r.1 (k r.2)
  end.

(** The manager calls, as threads. *)
Inductive manager_call :=
| DoInstall (bundle : option (result bundle_error Manifest))
| DoActivate (slug : string)
| DoDeactivate (slug : string)
| DoUninstall (slug : string) (removeData : bool)
| DoReset (slug : string)
| DoTrip (slug : string)
| DoUpdate (bundle : option (result bundle_error Manifest))
| DoRollback (slug toVersion : string)
| DoCleanup.

(** What a call answers; of the calls without a value, the error. *)
Definition no_value {A} (r : result lifecycle_error A) : result lifecycle_error string :=
  match r with Ok _ => Ok "" | Err e => Err e end.

Definition answer (m : Manager) (c : manager_call) : prog (result lifecycle_error string) :=
  match c with
  | DoInstall b => Install m b
  | DoActivate s => run! r := Activate m s in Ret (no_value r)
  | DoDeactivate s => run! r := Deactivate s in Ret (no_value r)
  | DoUninstall s d => run! r := Uninstall s d in Ret (no_value r)
  | DoReset s => run! r := ResetPlugin m s in Ret (no_value r)
  | DoTrip s => run! r := TripPlugin m s in Ret (no_value r)
  | DoUpdate b => Update m b
  | DoRollback s v => Rollback m s v
  | DoCleanup => run! r := RunRetentionCleanup m in Ret (no_value r)
  end.

Definition body (m : Manager) (c : manager_call) : prog unit := run! _ := answer m c in Ret tt.

(** Concurrent calls: a new call arrives, or one call takes one command. *)
Inductive pool_step (m : Manager) : world * list (prog unit) → world * list (prog unit) → Prop :=
| ps_spawn w ts c : pool_step m (w, ts) (w, ts ++ [body m c])
| ps_command w ts i R (c : cmd R) k e :
    ts !! i = Some (Call c k) →
    pool_step m (w, ts) ((exec e w c).1, <[i := k (exec e w c).2]> ts).

(** ** State transitions under every interleaving *)

(** The moves between states that the manager's calls ask for; [None] is "no row". They are
    those of doc.go and of the calls' own comments, which let [Uninstall] start from
    Errored. state.go says otherwise: that the only way out of Errored is Reset, and that
    a failed cleanup leaves the row in Errored. *)
Definition allowed (from to : State) : bool :=
  match from, to with
  | StateInstalled, (StateActive | StateErrored) => true
  | StateActive, (StateInactive | StateErrored) => true
  | StateInactive, (StateActive | StateErrored | StatePendingUninstall) => true
  | StateErrored, (StateInactive | StatePendingUninstall) => true
  | _, _ => false
  end.

Definition row_state (w : world) (slug : string) : option State :=
  PState <$> lookup_row (store w) slug.


(** Program safety. [o] is the slug this call has moved to PendingUninstall
    and not deleted, if any. *)
Definition cmd_ok (o : option string) {R} (c : cmd R) : Prop :=
  match c with
  | CInsert p => PState p = StateInstalled
  | CUpdate slug from to f => allowed from to = true ∧ (to = StatePendingUninstall → o = None)
  | CDelete slug => o = Some slug
  | _ => True
  end.

Definition cmd_next (o : option string) {R} (c : cmd R) : R → option string :=
  match c in cmd R return R → option string with
  | CUpdate slug from to f => λ r,
      match r with
      | None => if decide (to = StatePendingUninstall) then Some slug else o
      | Some _ => o
      end
  | CDelete slug => λ r, match r with None => None | Some _ => o end
  | _ => λ _, o
  end.

Fixpoint safe {A} (o : option string) (p : prog A) (Q : option string → A → Prop) : Prop :=
  match p with
  | Ret a => Q o a
  | Call c k => cmd_ok o c ∧ ∀ r, safe (cmd_next o c r) (k r) Q
  end.

Lemma safe_bind {A B} o (p : prog A) (f : A → prog B) Q :
  safe o p (λ o a, safe o (f a) Q) → safe o (bind p f) Q.
Proof using.
  revert o. induction p as [a|R c k IH]; intros o; simpl; [done|].
  intros [? Hk]. split; [done|]. auto.
Qed.

Lemma safe_mono {A} o (p : prog A) (P Q : option string → A → Prop) :
  (∀ o a, P o a → Q o a) → safe o p P → safe o p Q.
Proof using.
  intros HPQ. revert o. induction p as [a|R c k IH]; intros o; simpl; [auto|].
  intros [? Hk]. split; [done|]. auto.
Qed.

(** Walks a program: each command's condition by computation, each answer by
    cases. *)
Ltac safe_walk :=
  repeat first
    [ progress cbn [bind safe cmd_ok cmd_next]
    | match goal with
      | |- _ ∧ _ => split
      | |- True => exact I
      | |- ∀ _, _ => intro
      | |- ?o = ?o => reflexivity
      end
    | progress case_decide
    | progress case_match ].

Lemma parkErrored_safe slug from reason :
  from ≠ StateErrored → from ≠ StatePendingUninstall →
  safe None (parkErrored slug from reason) (λ o _, o = None).
Proof using.
  intros. unfold parkErrored. destruct from; try done; safe_walk; done.
Qed.

Lemma body_safe m c : safe None (body m c) (λ _ _, True).
Proof using.
  clear.
  destruct c; unfold body, answer, Install, Activate, Deactivate, Uninstall, ResetPlugin, TripPlugin,
    Update, Rollback, RunRetentionCleanup, breaker_open, gate_check, applyActiveVersion,
    load_and_activate, switch_version, parkErrored; safe_walk; try done; try congruence.
  all: match goal with p : Plugin |- _ => destruct (PState p) end; try done; naive_solver.
Qed.

(** *** One command *)

Definition pending (w : world) (slug : string) : Prop :=
  row_state w slug = Some StatePendingUninstall.

Lemma row_state_insert now w p s :
  row_state (with_store w (insert_row now (store w) p).1) s =
  if decide ((insert_row now (store w) p).2 = None ∧ s = Slug p)
  then Some (PState p) else row_state w s.
Proof. unfold row_state. simpl. rewrite insert_lookup. by case_decide. Qed.

Lemma row_state_update now w slug from to f s :
  row_state (with_store w (update_state now (store w) slug from to f).1) s =
  if decide ((update_state now (store w) slug from to f).2 = None ∧ s = slug)
  then Some to else row_state w s.
Proof.
  unfold row_state. simpl. rewrite update_lookup. case_decide as Hd; [|done].
  destruct Hd as [Hr%update_result ->]. by destruct (lookup_row (store w) slug).
Qed.

Lemma row_state_delete w slug s :
  row_state (with_store w (delete_row (store w) slug).1) s =
  if decide (s = slug) then None else row_state w s.
Proof. unfold row_state. simpl. rewrite delete_lookup. by case_decide. Qed.

Lemma row_state_version now w slug v mf abi s :
  row_state (with_store w (update_version now (store w) slug v mf abi).1) s = row_state w s.
Proof.
  unfold row_state. simpl. rewrite version_lookup. case_decide as Hd; [|done]. destruct Hd as [_ ->].
  by destruct (lookup_row (store w) slug).
Qed.

(** A write is the storage's, or fails and changes nothing. *)
Lemma storage_write_cases e w r :
  storage_write e w r = (with_store w r.1, r.2) ∨ ∃ why, storage_write e w r = (w, Some (ErrBackend why)).
Proof using. unfold storage_write. destruct (e_down e); eauto. Qed.


Lemma exec_pending {R} e w o (c : cmd R) s :
  cmd_ok o c → (∀ s, o = Some s → pending w s) →
  let o' := cmd_next o c (exec e w c).2 in
  (pending (exec e w c).1 s ↔ (pending w s ∧ o ≠ Some s) ∨ o' = Some s) ∧
  (o' = Some s → o = Some s ∨ ¬ pending w s).
Proof.
  intros Hok Ho.
  assert (∀ w', (pending w' s ↔ pending w s) →
    (pending w' s ↔ (pending w s ∧ o ≠ Some s) ∨ o = Some s) ∧
    (o = Some s → o = Some s ∨ ¬ pending w s)) as Hsame.
  { intros w' ->. split; [|auto]. split.
    - intros Hp. destruct (decide (o = Some s)); auto.
    - intros [[? _]|?]; auto. }
  destruct c; simpl in Hok; cbv zeta;
    try (apply Hsame; unfold pending, row_state; simpl; unfold log_write, log_answer; by repeat case_match);
    cbn [exec];
    match goal with |- context [storage_write e w ?r] =>
      destruct (storage_write_cases e w r) as [->|[why ->]]; cbn [fst snd cmd_next]; [|by apply Hsame] end.
  - apply Hsame. unfold pending. rewrite row_state_insert.
    case_decide as Hd; [|done]. destruct Hd as [[_ Hr]%insert_result ->].
    unfold row_state. rewrite Hr, Hok. done.
  - destruct Hok as [Hal Hto].
    pose proof (row_state_update (e_now e) w slug from to f s) as Hrow.
    pose proof (update_result (e_now e) (store w) slug from to f) as Hres.
    destruct (update_state (e_now e) (store w) slug from to f) as [t r]. simpl in *.
    destruct r as [err|].
    { apply Hsame. unfold pending. by rewrite Hrow, decide_False by naive_solver. }
    assert (from ≠ StatePendingUninstall) as Hfrom by by destruct from.
    assert (row_state w slug = Some from) as Hold by by apply Hres.
    destruct (decide (to = StatePendingUninstall)) as [->|Hne].
    + rewrite (Hto eq_refl) in *. unfold pending. rewrite Hrow.
      destruct (decide (s = slug)) as [->|Hs].
      * rewrite decide_True by done. split; [|intros _; right; congruence]. naive_solver.
      * rewrite decide_False by naive_solver. split; [|naive_solver]. naive_solver.
    + apply Hsame. unfold pending. rewrite Hrow. case_decide as Hd; [|done].
      destruct Hd as [_ ->]. rewrite Hold. naive_solver.
  - assert ((delete_row (store w) slug).2 = None) as ->.
    { apply delete_result. specialize (Ho _ Hok). unfold pending, row_state in Ho.
      destruct (lookup_row (store w) slug); [by eexists|done]. }
    split; [|done]. unfold pending. rewrite row_state_delete. case_decide; subst; naive_solver.
  - apply Hsame. unfold pending. by rewrite row_state_version.
Qed.

(** *** The pool *)

Definition finished (p : prog unit) : Prop := match p with Ret _ => True | _ => False end.

(** [os] says which call holds which pending row. *)
Record pool_ok (w : world) (ts : list (prog unit)) (os : list (option string)) : Prop := {
  po_safe : Forall2 (λ o p, safe o p (λ _ _, True)) os ts;
  po_pending s : pending w s ↔ ∃ i, os !! i = Some (Some s);
  po_unique i j s : os !! i = Some (Some s) → os !! j = Some (Some s) → i = j;
}.

Lemma pool_ok_command w ts os i R (c : cmd R) k e :
  pool_ok w ts os → ts !! i = Some (Call c k) →
  ∃ o, os !! i = Some o ∧ cmd_ok o c ∧ (∀ s, o = Some s → pending w s) ∧
    pool_ok (exec e w c).1 (<[i := k (exec e w c).2]> ts)
      (<[i := cmd_next o c (exec e w c).2]> os).
Proof.
  intros [Hs Hp Hu] Hi.
  destruct (Forall2_lookup_r _ _ _ _ _ Hs Hi) as (o & Ho & Hok & Hk).
  assert (∀ s, o = Some s → pending w s) as Hown.
  { intros s ->. apply Hp. eauto. }
  assert (i < length os) as Hlt by by eapply lookup_lt_Some.
  exists o. split; [done|]. split; [done|]. split; [done|].
  pose proof (λ s, exec_pending e w o c s Hok Hown) as Hx. cbv zeta in Hx.
  set (o' := cmd_next o c (exec e w c).2) in *. split.
  - apply Forall2_insert; [done|]. apply Hk.
  - intros s. rewrite (proj1 (Hx s)), Hp. split.
    + intros [[[j Hj] Hne]|Ho'].
      * exists j. rewrite list_lookup_insert_ne; [done|]. intros ->. congruence.
      * exists i. by rewrite list_lookup_insert_eq, Ho'.
    + intros [j Hj]. destruct (decide (j = i)) as [->|Hne].
      * rewrite list_lookup_insert_eq in Hj by done. right. congruence.
      * rewrite list_lookup_insert_ne in Hj by done. left. split; [eauto|].
        intros ->. by apply Hne, (Hu j i s).
  - assert (∀ j s, os !! j = Some (Some s) → o' = Some s → j = i) as Hcross.
    { intros j s Hj Ho'. destruct (proj2 (Hx s) Ho') as [->|Hnp]; [by eapply Hu|].
      destruct Hnp. apply Hp. eauto. }
    intros j j' s Hj Hj'.
    destruct (decide (j = i)) as [->|Hji], (decide (j' = i)) as [->|Hji'];
      rewrite ?list_lookup_insert_eq, ?list_lookup_insert_ne in Hj by done;
      rewrite ?list_lookup_insert_eq, ?list_lookup_insert_ne in Hj' by done;
      simplify_eq; [done|naive_solver|naive_solver|by eapply Hu].
Qed.

Lemma pool_ok_step m w ts w' ts' os :
  pool_ok w ts os → pool_step m (w, ts) (w', ts') → ∃ os', pool_ok w' ts' os'.
Proof.
  intros Hok Hstep. inversion Hstep as [? ? c|? ? i R c k e Hi]; subst.
  - destruct Hok as [Hs Hp Hu]. exists (os ++ [None]).
    assert (∀ i s, (os ++ [None]) !! i = Some (Some s) ↔ os !! i = Some (Some s)) as Hl.
    { intros i s. rewrite lookup_app_Some. split; [|auto].
      intros [?|[_ [_ ?]%list_lookup_singleton_Some]]; done. }
    split.
    + apply Forall2_app; [done|]. constructor; [apply body_safe|constructor].
    + intros s. rewrite Hp. by setoid_rewrite Hl.
    + intros i j s. rewrite !Hl. apply Hu.
  - destruct (pool_ok_command _ _ _ _ _ _ _ e Hok Hi) as (o & _ & _ & _ & ?). eauto.
Qed.

(** The configurations concurrent manager calls can reach from a table without
    rows awaiting deletion. *)
Definition reachable (m : Manager) (w : world) (ts : list (prog unit)) : Prop :=
  ∃ w0, (∀ s, ¬ pending w0 s) ∧ rtc (pool_step m) (w0, []) (w, ts).

Lemma reachable_ok m w ts : reachable m w ts → ∃ os, pool_ok w ts os.
Proof.
  intros (w0 & Hw0 & Hrtc).
  assert (∀ c, rtc (pool_step m) (w0, []) c → ∃ os, pool_ok c.1 c.2 os) as Hall;
    [|exact (Hall (w, ts) Hrtc)].
  apply (rtc_ind_r (λ c, ∃ os, pool_ok c.1 c.2 os) (w0, [])).
  - exists []. split; [constructor| |by intros i j s Hi].
    intros s. split; [intros Hp; by destruct (Hw0 s)|]. intros [i Hi]. done.
  - intros [w1 ts1] [w2 ts2] _ Hs [os Hok]. by eapply pool_ok_step.
Qed.



(** A row awaits deletion exactly while one uninstall owns it, which is still running
    or could not delete the row: two racing uninstalls never both pass. *)
Theorem uninstall_exclusive m w ts :
  reachable m w ts →
  ∃ owner : list (option string), length owner = length ts ∧
    (∀ i slug, owner !! i = Some (Some slug) → pending w slug) ∧
    (∀ slug, pending w slug → ∃ i, owner !! i = Some (Some slug) ∧
       ∀ j, owner !! j = Some (Some slug) → j = i).
Proof.
  intros [os [Hs Hp Hu]]%reachable_ok. exists os. split; [by eapply Forall2_length|]. split.
  - intros i slug Hi. apply Hp. eauto.
  - intros slug [i Hi]%Hp. exists i. split; [done|]. intros j Hj. by eapply Hu.
Qed.

(** ** Schedules: the pool as a function *)

(** Calls arrive and threads take commands in the order of a list. *)
Inductive sched_event := Arrive (c : manager_call) | Step (i : nat) (e : env).

Definition sched (m : Manager) (c : world * list (prog unit)) (ev : sched_event)
    : world * list (prog unit) :=
  match ev with
  | Arrive call => (c.1, c.2 ++ [body m call])
  | Step i e =>
      match c.2 !! i with
      | Some (Call cm k) => ((exec e c.1 cm).1, <[i := k (exec e c.1 cm).2]> c.2)
      | _ => c
      end
  end.

Lemma sched_rtc m c evs : rtc (pool_step m) c (foldl (sched m) c evs).
Proof using.
  revert c. induction evs as [|ev evs IH]; intros [w ts]; [done|]. simpl.
  destruct ev as [call|i e]; simpl.
  - eapply rtc_l; [apply ps_spawn|apply IH].
  - destruct (ts !! i) as [[a|R cm k]|] eqn:E; [apply IH| |apply IH].
    eapply rtc_l; [by apply ps_command|apply IH].
Qed.
End semantics.

Arguments world T : clear implicits.

Arguments parkErrored : simpl never.
Arguments breaker_open : simpl never.
Arguments gate_check : simpl never.
Arguments load_and_activate : simpl never.
Arguments switch_version : simpl never.
Arguments applyActiveVersion : simpl never.

(** ** Capability names *)

Lemma sink_Permutation x l : sink x l ≡ₚ x :: l.
Proof.
  induction l as [|y l IH]; simpl; [done|]. destruct (String.ltb x y); [|done].
  rewrite IH. apply Permutation_swap.
Qed.

Lemma sink_sorted x l :
  StronglySorted (flip String.le) l → StronglySorted (flip String.le) (sink x l).
Proof.
  induction 1 as [|y l Hl IH Hy]; simpl; [by repeat constructor|].
  destruct (String.ltb x y) eqn:E.
  - constructor; [done|]. rewrite sink_Permutation. constructor; [|done].
    unfold flip, String.le, String.leb. unfold String.ltb in E.
    by destruct (String.compare x y).
  - assert (String.le y x) as Hyx.
    { unfold String.ltb in E. unfold String.le, String.leb.
      rewrite String.compare_antisym. by destruct (String.compare x y). }
    constructor; [by constructor|]. constructor; [done|].
    eapply Forall_impl; [done|]. intros z Hz. unfold flip in *. by trans y.
Qed.

Lemma StronglySorted_rev {A} (R : relation A) (l : list A) :
  StronglySorted (flip R) l → StronglySorted R (rev l).
Proof.
  induction 1 as [|x l Hl IH Hx]; simpl; [constructor|].
  apply StronglySorted_app. split; [|split; [done|by repeat constructor]].
  intros y z Hy ->%list_elem_of_singleton.
  rewrite Forall_forall in Hx. apply Hx. by rewrite <-Permutation_rev in Hy.
Qed.

(** The hand-written insertion sort of the capability names agrees with
    [sort.Strings], so the names stored with a plugin do not depend on the
    order in which the manifest's map is iterated. *)
Theorem extractCapabilityNames_sorted l k :
  extractCapabilityNames l = sort_strings l ∧
  (l ≡ₚ k → extractCapabilityNames l = extractCapabilityNames k).
Proof.
  assert (∀ l, extractCapabilityNames l = sort_strings l) as Hs.
  { intros l'. unfold extractCapabilityNames, sortStrings.
    assert (∀ acc, StronglySorted (flip String.le) acc →
      StronglySorted (flip String.le) (foldl (λ acc x, sink x acc) acc l') ∧
      foldl (λ acc x, sink x acc) acc l' ≡ₚ l' ++ acc) as Hfold.
    { induction l' as [|x l' IH]; intros acc Hacc; simpl; [done|].
      destruct (IH (sink x acc)) as [? Hp]; [by apply sink_sorted|]. split; [done|].
      rewrite Hp, sink_Permutation. symmetry. apply Permutation_middle. }
    destruct (Hfold []) as [Hsort Hperm]; [constructor|]. rewrite app_nil_r in Hperm.
    apply (Sorted_unique String.le).
    - apply StronglySorted_Sorted. by apply StronglySorted_rev.
    - apply sort_strings_sorted.
    - by rewrite <-Permutation_rev, Hperm, sort_strings_Permutation. }
  split; [apply Hs|]. intros Hlk. rewrite !Hs. by apply sort_strings_perm_eq.
Qed.
