(* ===== verification/LifecycleSeq.v ===== *)
(** * The lifecycle manager, one call at a time
    (packages/go/plugins/lifecycle: manager.go, update.go, breaker.go)

    What a manager call does when nothing runs beside it: the runtime's modules
    stay in step with the Active rows, with the exceptions named there, the outcome
    of an activation on every branch, and the update/rollback round trip. The examples at the
    end show what the exceptions, and concurrent calls, leave behind. *)
From S2P Require Import Prelude Prog GoStrings Semver Depends PluginStore Breaker Versions Lifecycle.

(** The modules of the runtime. *)
Lemma elem_of_load (p : Plugin) (s v : string) (l : gset (string * string)) :
  (s, v) ∈ load p l ↔ s = Slug p ∧ v = Version p ∨ (s, v) ∈ l.
Proof. unfold load. set_solver. Qed.

Lemma load_subseteq (p : Plugin) (l : gset (string * string)) : l ⊆ load p l.
Proof. unfold load. set_solver. Qed.

Lemma elem_of_unload (slug s v : string) (l : gset (string * string)) : (s, v) ∈ unload slug l ↔ s ≠ slug ∧ (s, v) ∈ l.
Proof. unfold unload. by rewrite elem_of_filter. Qed.

Section sequential.
Context {T : Type} `{StorageLaws T}.
Context (IsValid : string → bool) (Compare : string → string → Z).
Implicit Types w : world T.

Abbreviation exec := (Lifecycle.exec IsValid Compare) (only parsing).
Abbreviation run := (Lifecycle.run IsValid Compare) (only parsing).

(** [Q] holds at the end of [p] started in [w], whatever the environment
    answers at each command. *)
Fixpoint wp {A} (p : prog A) (w : world T) (Q : world T → A → Prop) : Prop :=
  match p with
  | Ret a => Q w a
  | Call c k => ∀ e, wp (k (exec e w c).2) (exec e w c).1 Q
  end.

Lemma wp_ret {A} (a : A) w (Q : world T → A → Prop) : Q w a → wp (Ret a) w Q.
Proof. done. Qed.

Lemma wp_call {A R} (c : cmd R) (k : R → prog A) w (Q : world T → A → Prop) :
  (∀ e, wp (k (exec e w c).2) (exec e w c).1 Q) → wp (Call c k) w Q.
Proof. done. Qed.

Lemma wp_run {A} es n w (p : prog A) Q :
  wp p w Q → Q (run es n w p).1 (run es n w p).2.
Proof using.
  revert n w. induction p as [a|R c k IH]; intros n w; cbn; [done|]. auto.
Qed.

Lemma wp_bind {A B} (p : prog A) (f : A → prog B) w Q :
  wp p w (λ w a, wp (f a) w Q) → wp (bind p f) w Q.
Proof using.
  revert w. induction p as [a|R c k IH]; intros w; cbn; [done|]. auto.
Qed.

Lemma wp_mono {A} (p : prog A) w (P Q : world T → A → Prop) :
  (∀ w a, P w a → Q w a) → wp p w P → wp p w Q.
Proof using.
  intros HPQ. revert w. induction p as [a|R c k IH]; intros w; cbn [wp]; [auto|]. auto.
Qed.

(** Rows are stored under their slug, and the version of every Active row is in the
    runtime (except possibly that of [x]). *)
Definition resident (x : option string) (w : world T) : Prop :=
  (∀ s p, lookup_row (store w) s = Some p → Slug p = s) ∧
  (∀ s p, Some s ≠ x → lookup_row (store w) s = Some p → PState p = StateActive →
     (s, Version p) ∈ loaded w).

Lemma resident_same x w w' :
  store w' = store w → loaded w ⊆ loaded w' → resident x w → resident x w'.
Proof using.
  intros Hs Hl [Hk Hr]. unfold resident in *. rewrite Hs.
  split; [done|]. intros s p Hx Hp Ha. apply Hl. by apply Hr.
Qed.

Lemma resident_insert now w p :
  PState p = StateInstalled → resident None w →
  resident None (with_store w (insert_row now (store w) p).1).
Proof.
  intros Hp [Hk Hr]. split; intros s q; cbn; [|intros _]; rewrite insert_lookup; (case_decide as Hd; [|by auto]);
    destruct Hd as [_ ->]; intros [= <-]; [done|]. cbn. congruence.
Qed.

Lemma keyed_update now w slug from to f :
  (∀ s p, lookup_row (store w) s = Some p → Slug p = s) →
  ∀ s p, lookup_row (update_state now (store w) slug from to f).1 s = Some p → Slug p = s.
Proof.
  intros Hk s p. rewrite update_lookup. case_decide as Hd; [|apply Hk].
  destruct Hd as [_ ->]. intros (q & Hq & ->)%fmap_Some. by apply (Hk slug q).
Qed.

(** A state update keeps the modules in step when it leaves Active, or when it
    enters Active with the version loaded. *)
Lemma resident_update x now w slug from to f :
  resident x w →
  (to = StateActive → ∀ p, lookup_row (store w) slug = Some p → (slug, Version p) ∈ loaded w) →
  resident x (with_store w (update_state now (store w) slug from to f).1).
Proof.
  intros [Hk Hr] Hto. split; [by apply keyed_update|]. intros s p Hx. cbn.
  rewrite update_lookup. case_decide as Hd; [|by apply Hr].
  destruct Hd as [_ ->]. intros (q & Hq & ->)%fmap_Some Ha. by apply (Hto Ha q).
Qed.

Lemma resident_restore now w slug from to f :
  resident (Some slug) w → (update_state now (store w) slug from to f).2 = None → to ≠ StateActive →
  resident None (with_store w (update_state now (store w) slug from to f).1).
Proof.
  intros [Hk Hr] Hok Hto. split; [by apply keyed_update|]. intros s p _. cbn.
  rewrite update_lookup. case_decide as Hd.
  - destruct Hd as [_ ->]. intros (q & Hq & ->)%fmap_Some Ha. cbn in Ha. congruence.
  - intros Hp. apply Hr; [|done]. intros [= ->]. by apply Hd.
Qed.

(** Unloading a slug is harmless when its row is not Active. *)
Lemma resident_unload x w slug :
  resident x w → (x = Some slug ∨ row_state w slug ≠ Some StateActive) →
  resident x (with_loaded w (unload slug (loaded w))).
Proof using.
  intros [Hk Hr] Hna. split; [done|]. intros s p Hx Hp Ha. cbn in *. apply elem_of_unload.
  split; [|by apply Hr]. intros ->. unfold row_state in Hna. rewrite Hp in Hna. cbn in Hna.
  destruct Hna as [->|Hna]; congruence.
Qed.

Lemma resident_load x w p : resident x w → resident x (with_loaded w (load p (loaded w))).
Proof using. apply resident_same; [done|]. apply load_subseteq. Qed.

Lemma resident_except x w : resident None w → resident x w.
Proof using. intros [Hk Hr]. split; [done|]. intros s p _. by apply Hr. Qed.

Lemma resident_delete w slug :
  resident None w → resident None (with_store w (delete_row (store w) slug).1).
Proof.
  intros [Hk Hr]. split; intros s p; cbn; [|intros _]; rewrite delete_lookup; (case_decide; [done|by auto]).
Qed.

(** A row may take a version that is loaded. *)
Lemma resident_version x now w slug v mf abi :
  resident x w → (slug, v) ∈ loaded w →
  resident x (with_store w (update_version now (store w) slug v mf abi).1).
Proof.
  intros [Hk Hr] Hv. split; intros s p; cbn; [|intros Hx]; rewrite version_lookup;
    (case_decide as Hd; [destruct Hd as [_ ->]|by auto]); intros (q & Hq & ->)%fmap_Some; [by apply (Hk slug q)|done].
Qed.

(** Executes the next command under an environment named [e]. *)
Tactic Notation "wp_step" ident(e) :=
  apply wp_call; intros e; cbn [Lifecycle.exec fst snd].

(** The next command is a write: the storage's ([Hok] names its result), or it fails
    and changes nothing. *)
Ltac split_write :=
  lazymatch goal with |- context [storage_write ?e ?w ?r] =>
    destruct (storage_write_cases e w r) as [->|[? ->]]; cbn [fst snd]
  end.

(** The store and the modules are as they were. *)
Definition quiet w w' : Prop := store w' = store w ∧ loaded w' = loaded w.

Lemma resident_quiet x w w' : quiet w w' → resident x w → resident x w'.
Proof using. intros [Hs Hl]. apply resident_same; [done|]. by rewrite Hl. Qed.

Lemma log_write_quiet e w r : quiet w (log_write e w r).1.
Proof using. unfold log_write. by destruct (e_down e). Qed.

Lemma log_answer_quiet {X} e w (r : _ * result version_error X) : quiet w (log_answer e w r).1.
Proof using. unfold log_answer. by destruct (e_down e). Qed.

(** Closes a branch whose last commands touch neither rows nor modules. *)
Ltac settle :=
  repeat lazymatch goal with
    | |- wp (Ret _) _ _ => apply wp_ret
    | |- wp (bind _ _) _ _ => apply wp_bind
    | |- wp (Call _ _) _ _ => apply wp_call; intros ?; cbn [Lifecycle.exec fst snd]
    end;
  try eassumption;
  try (eapply resident_quiet; [apply log_write_quiet|]; eassumption);
  try (eapply resident_same; [..|eassumption]; done).

(** A park keeps the modules in step. *)
Lemma wp_parkErrored slug from reason w (Q : world T → unit → Prop) :
  resident None w → (∀ w', resident None w' → Q w' tt) → wp (parkErrored slug from reason) w Q.
Proof.
  intros Hr HQ. unfold parkErrored. wp_step e0. wp_step e. split_write; [|by apply HQ].
  pose proof (resident_update None (e_now e) w slug from StateErrored
    (Some (mkFields None (Some reason) (Some (e_now e0)))) Hr ltac:(done)) as Hr'.
  destruct (update_state _ _ _ _ _ _).2; [by apply HQ|].
  wp_step e1. apply HQ. by eapply resident_same; [..|exact Hr'].
Qed.

Lemma wp_get {A} slug (k : result store_error Plugin → prog A) w (Q : world T → A → Prop) :
  (∀ e, wp (k (Err e)) w Q) → (∀ p, lookup_row (store w) slug = Some p → wp (k (Ok p)) w Q) →
  wp (row <- CGet slug ;; k row) w Q.
Proof using.
  intros He Hk. wp_step e. unfold get_row. destruct (e_down e); [apply He|].
  destruct (lookup_row (store w) slug) eqn:E; [by apply Hk|apply He].
Qed.

Lemma Install_resident m b w : resident None w → wp (Install m b) w (λ w' _, resident None w').
Proof.
  intros Hr. unfold Install. destruct b as [[mf|e]|]; [|done|done].
  destruct (check_manifest m mf); [done|]. case_match; [done|].
  wp_step e0. wp_step e1. set (p := mkPlugin _ _ _ _ _ _ _ _ _ _ _ _). split_write; [|done].
  pose proof (resident_insert (e_now e1) w p eq_refl Hr) as Hr'.
  destruct (insert_row _ _ _).2; [done|]. wp_step e2.
  destruct (e_migrate_up e2 p); [|settle].
  apply wp_bind, wp_parkErrored; auto.
Qed.

(** [breaker_open] and [gate_check] touch neither rows nor modules. *)
Lemma wp_breaker_open m slug w (Q : world T → bool → Prop) :
  (∀ w' b, quiet w w' → Q w' b) → wp (breaker_open m slug) w Q.
Proof. intros HQ. unfold breaker_open. destruct (mg_breaker m); cbn; intros; by apply HQ. Qed.

Lemma wp_gate_check m p w (Q : world T → option depends_error → Prop) :
  (∀ r, Q w r) → wp (gate_check m p) w Q.
Proof.
  intros HQ. unfold gate_check. destruct (mg_gate m); [|apply HQ].
  case_decide; [apply HQ|]. destruct (mg_validate m _); cbn; intros; apply HQ.
Qed.

Lemma load_and_activate_resident slug p w :
  resident None w → lookup_row (store w) slug = Some p → PState p ≠ StateActive →
  wp (load_and_activate slug p) w (λ w' _, resident None w').
Proof.
  intros Hr Hp Hna. unfold load_and_activate. wp_step e0.
  destruct (e_load e0 p); [apply wp_bind, wp_parkErrored; auto|].
  wp_step e1. wp_step e2. set (w1 := with_loaded w (load p (loaded w))). set (f := Some _).
  assert (resident None w1) as Hr1 by by apply resident_load.
  assert (row_state w slug = Some (PState p)) as Hrow by (unfold row_state; by rewrite Hp).
  split_write.
  - pose proof (update_result (e_now e2) (store w1) slug (PState p) StateActive f) as [_ Hres].
    rewrite Hres by done. wp_step e3. apply wp_ret.
    eapply resident_same; [..|apply (resident_update None (e_now e2) w1 slug (PState p) StateActive f Hr1)]; [done..|].
    intros _ q Hq. cbn in Hq. rewrite Hp in Hq. injection Hq as <-. apply elem_of_load. left.
    split; [|done]. symmetry. by apply (proj1 Hr).
  - wp_step e3. apply wp_ret. destruct (e_unload e3 slug); [done|].
    apply resident_unload; [done|]. right. unfold row_state in *. cbn. congruence.
Qed.

Lemma Activate_resident m slug w :
  resident None w → wp (Activate m slug) w (λ w' _, resident None w').
Proof.
  intros Hr. apply wp_get; [done|]. intros p Hp. case_decide as Hst; [done|].
  assert (PState p ≠ StateActive) as Hna by (intros E; rewrite E in Hst; naive_solver).
  apply wp_bind, wp_breaker_open. intros w1 [] Hq; [by eapply resident_quiet|].
  apply wp_bind, wp_gate_check. intros [e|]; [by eapply resident_quiet|].
  apply load_and_activate_resident; [by eapply resident_quiet|by rewrite (proj1 Hq)|done].
Qed.

(** Unloading an Active plugin's module, then leaving Active, as
    [Deactivate] and [Trip] do: in step unless the second fails. *)
Lemma leave_active slug ev reason w (R : string → result lifecycle_error unit) :
  resident None w → row_state w slug = Some StateActive →
  wp (uerr <- CUnload slug ;;
      match uerr with
      | Some why => run! _ := parkErrored slug StateActive (reason why) in Ret (R why)
      | None =>
          err <- CUpdate slug StateActive StateInactive None ;;
          match err with
          | Some e => Ret (Err (LStore e))
          | None => CAudit ev ;;; Ret (Ok tt)
          end
      end) w (λ w' r, (∀ e, r ≠ Err (LStore e)) → resident None w').
Proof.
  intros Hr Hrow. wp_step e1. destruct (e_unload e1 slug).
  - apply wp_bind, wp_parkErrored; auto. by intros w' ? _.
  - wp_step e2. split_write; [|by intros Hne; destruct (Hne (ErrBackend x))].
    pose proof (resident_unload (Some slug) w slug (resident_except _ _ Hr) (or_introl eq_refl)) as Hr1.
    assert ((update_state (e_now e2) (store w) slug StateActive StateInactive None).2 = None) as Hok
      by by apply update_result.
    pose proof (resident_restore (e_now e2) _ slug StateActive StateInactive None Hr1 Hok ltac:(done)) as Hr2.
    cbn [store with_loaded]. rewrite Hok. wp_step e3. intros _. by eapply resident_same; [..|exact Hr2].
Qed.

Definition unless_store (w : world T) (slug : string) (r : result lifecycle_error unit) : Prop :=
  ∀ e, r = Err (LStore e) → row_state w slug ≠ Some StateActive.

Lemma Deactivate_resident slug w :
  resident None w → wp (Deactivate slug) w (λ w' r, unless_store w slug r → resident None w').
Proof.
  intros Hr. apply wp_get; [by intros e _|]. intros p Hp.
  case_decide as Hst; [by intros _|]. assert (row_state w slug = Some StateActive) as Hrow.
  { unfold row_state. rewrite Hp. simpl. f_equal. by destruct (decide (PState p = StateActive)). }
  eapply wp_mono; [|by apply (leave_active slug _ (λ why, _) _ (λ why, _))].
  intros w' r H' Hu. apply H'. intros e He. by apply (Hu e He).
Qed.

Lemma TripPlugin_resident m slug w :
  resident None w → wp (TripPlugin m slug) w (λ w' r, unless_store w slug r → resident None w').
Proof.
  intros Hr. unfold TripPlugin. destruct (mg_breaker m) as [cfg|]; [|by intros _]. wp_step e0.
  set (w1 := with_buckets _ _).
  assert (resident None w1) as Hr1 by by eapply resident_same; [..|exact Hr].
  destruct (Trip _ _ _ _).2; [|by intros _]. apply wp_get; [by intros e _|]. intros p Hp.
  case_decide as Hst; [settle; by intros _|]. assert (row_state w slug = Some StateActive) as Hrow.
  { unfold row_state. cbn in Hp. rewrite Hp. simpl. f_equal. by destruct (decide (PState p = StateActive)). }
  eapply wp_mono; [|by apply (leave_active slug _ (λ why, _) _ (λ why, _))].
  intros w' r H' Hu. apply H'. intros e He. by apply (Hu e He).
Qed.

Lemma Uninstall_resident slug d w :
  resident None w → wp (Uninstall slug d) w (λ w' _, resident None w').
Proof.
  intros Hr. apply wp_get; [done|]. intros p Hp. case_decide as Hst; [done|]. wp_step e1.
  split_write; [|done].
  pose proof (resident_update None (e_now e1) w slug (PState p) StatePendingUninstall None Hr
    ltac:(done)) as Hr1.
  pose proof (row_state_update (e_now e1) w slug (PState p)
    StatePendingUninstall None slug) as Hrow.
  destruct (update_state _ _ _ _ _ _) as [t [err|]]; cbn [fst snd] in *; [done|].
  rewrite decide_True in Hrow by done. wp_step e2.
  set (w2 := match e_unload e2 slug with Some _ => _ | None => _ end).
  assert (resident None w2) as Hr2.
  { unfold w2. destruct (e_unload e2 slug); [done|].
    apply resident_unload; [done|]. right. by rewrite Hrow. }
  clearbody w2. apply wp_bind. apply wp_mono with (λ w' _, w' = w2).
  { intros w' _ ->. wp_step e3. split_write; [|done]. pose proof (resident_delete w2 slug Hr2).
    destruct (delete_row _ _).2; settle. }
  destruct d; [by wp_step e3|done].
Qed.

Lemma ResetPlugin_resident m slug w :
  resident None w → wp (ResetPlugin m slug) w (λ w' _, resident None w').
Proof.
  intros Hr. apply wp_get; [done|]. intros p Hp. case_decide as Hst; [done|]. wp_step e1.
  split_write; [|done]. set (f := Some _).
  pose proof (resident_update None (e_now e1) w slug StateErrored StateInactive f Hr
    ltac:(done)) as Hr1.
  destruct (update_state _ _ _ _ _ _).2; [done|]. apply wp_bind.
  destruct (mg_breaker m); settle.
Qed.

(** The row's version is rewritten, or not. *)
Lemma wp_applyActiveVersion slug v mf abi w (Q : world T → option store_error → Prop) :
  resident None w → (slug, v) ∈ loaded w → (∀ w' r, resident None w' → Q w' r) →
  wp (applyActiveVersion slug v mf abi) w Q.
Proof.
  intros Hr Hv HQ. unfold applyActiveVersion. wp_step e. apply wp_ret, HQ.
  split_write; [by apply resident_version|done].
Qed.

Lemma wp_true {A} (p : prog A) w (Q : world T → A → Prop) : (∀ w a, Q w a) → wp p w Q.
Proof using. intros HQ. revert w. induction p as [a|R c k IH]; intros w; cbn; auto. Qed.

Lemma Rollback_resident m slug v w :
  resident None w →
  wp (Rollback m slug v) w (λ w' r, (∀ v, r = Ok v → (slug, v) ∈ loaded w) → resident None w').
Proof.
  intros Hr. unfold Rollback. case_match; [by intros _|]. apply wp_get; [by intros e _|]. intros p Hp.
  wp_step e1. unfold log_answer. destruct (e_down e1); [by intros _|]. set (w0 := with_versions _ _).
  assert (resident None w0) as Hr0 by by eapply resident_same; [..|exact Hr].
  destruct (ListRetained _ _) as [|first rest]; [by intros _|]. cbn [fst snd]. cbv zeta.
  match goal with |- context [if ?d then v_Version first else v] => set (tov := if d then v_Version first else v) end.
  destruct (list_find _ _) as [[i target]|]; [|by intros _].
  case_decide; [by intros _|]. wp_step e2.
  pose proof (log_write_quiet e2 w0 (PromoteToActive (e_now e2) (versions w0) slug tov)) as Hq.
  destruct (log_write _ _ _) as [w1 [e|]]; cbn [fst snd] in *; [intros _; by eapply resident_quiet|].
  destruct (decide ((slug, tov) ∈ loaded w)) as [Hin|Hin].
  - apply wp_bind, wp_applyActiveVersion; [by eapply resident_quiet|by rewrite (proj2 Hq)|].
    intros w2 _ Hr2. apply wp_bind. destruct (mg_drain m); settle; intros _;
      (eapply resident_same; [..|eapply resident_quiet; [apply log_write_quiet|exact Hr2]]; done).
  - eapply wp_mono with (λ _ r, r = Ok tov); [by intros w' r -> Hl; destruct Hin; apply Hl|].
    apply wp_bind, wp_true. intros w2 r2. apply wp_bind, wp_true. intros w3 r3. by cbn.
Qed.

Lemma switch_version_resident m mf w :
  resident None w → (m_Slug mf, m_Version mf) ∈ loaded w →
  wp (switch_version m mf) w (λ w' r,
    (∀ e, r ≠ Err (LVersionLog e)) → resident None w').
Proof.
  intros Hr Hl. unfold switch_version. wp_step e0. wp_step e1.
  match goal with |- context [log_answer e1 w ?r] => pose proof (log_answer_quiet e1 w r) as Hq;
    destruct (log_answer e1 w r) as [w1 [previous|e]]; cbn [fst snd] in * end.
  - apply wp_bind, wp_applyActiveVersion; [by eapply resident_quiet|by rewrite (proj2 Hq)|].
    intros w2 _ Hr2. apply wp_bind.
    destruct previous as [pr|]; [destruct (mg_drain m)|]; settle; intros _;
      first [by eapply resident_same; [..|exact Hr2]
            |by eapply resident_same; [..|eapply resident_quiet; [apply log_write_quiet|exact Hr2]]].
  - wp_step e2. apply wp_ret. intros Hne. by destruct (Hne e).
Qed.

Lemma Update_resident m b w :
  resident None w →
  wp (Update m b) w (λ w' r, (∀ e, r ≠ Err (LVersionLog e)) → resident None w').
Proof.
  intros Hr. unfold Update. case_match; [by intros _|]. destruct b as [[mf|e]|]; [|by intros _|by intros _].
  destruct (check_manifest m mf); [by intros _|]. apply wp_get; [by intros e _|]. intros p Hp.
  case_decide; [by intros _|]. case_decide; [settle; intros; by eapply resident_same; [..|exact Hr]|].
  cbv zeta. wp_step e1. destruct (e_load e1 _); [by intros _|].
  apply switch_version_resident; [by apply resident_load|]. cbn. apply elem_of_load. left.
  split; [|done]. symmetry. exact (proj1 Hr _ _ Hp).
Qed.

(** *** What a call leaves alone *)

(** The plugin a call is about. *)
Definition target (c : manager_call) : option string :=
  match c with
  | DoActivate s | DoDeactivate s | DoReset s | DoTrip s | DoUninstall s _ | DoRollback s _ => Some s
  | DoInstall (Some (Ok mf)) | DoUpdate (Some (Ok mf)) => Some (m_Slug mf)
  | _ => None
  end.

Definition concerns (x : option string) {R} (c : cmd R) : Prop :=
  match c with
  | CInsert p => Some (Slug p) = x
  | CUpdate s _ _ _ | CDelete s | CVersion s _ _ _ | CUnload s => Some s = x
  | _ => True
  end.

Fixpoint only (x : option string) {A} (p : prog A) : Prop :=
  match p with Ret _ => True | Call c k => concerns x c ∧ ∀ r, only x (k r) end.

Lemma answer_only m c : only (target c) (answer m c).
Proof using.
  clear. destruct c as [b|s|s|s d|s|s|b|s v|]; try destruct b as [[mf|e]|]; unfold answer, Install, Activate, Deactivate, Uninstall,
    ResetPlugin, TripPlugin, Update, Rollback, RunRetentionCleanup, breaker_open, gate_check;
  repeat first
    [ progress unfold applyActiveVersion, load_and_activate, switch_version, parkErrored
    | progress cbn [bind only concerns target Slug]
    | match goal with |- _ ∧ _ => split | |- True => exact I | |- ∀ _, _ => intro | |- ?o = ?o => reflexivity end
    | progress case_decide | progress case_match ].
Qed.

Lemma exec_only {R} e w (c : cmd R) x : concerns x c → resident x w → resident x (exec e w c).1.
Proof.
  intros Hc Hr. destruct c; cbn in Hc; try (eapply resident_quiet; [|exact Hr]; cbn;
    first [done|apply log_write_quiet|apply log_answer_quiet]); cbn [Lifecycle.exec]; subst; try (split_write; [|done]).
  - destruct Hr as [Hk Hr]. split; intros s q; cbn; [|intros Hx]; rewrite insert_lookup; (case_decide as Hd; [|by auto]);
      destruct Hd as [_ ->]; [by intros [= <-]|done].
  - destruct Hr as [Hk Hr]. split; [by apply keyed_update|]. intros s q Hx. cbn. rewrite update_lookup.
    case_decide as Hd; [destruct Hd as [_ ->]; done|]. by apply Hr.
  - destruct Hr as [Hk Hr]. split; intros s p; cbn; [|intros Hx]; rewrite delete_lookup; (case_decide; [done|by auto]).
  - destruct Hr as [Hk Hr]. split; intros s p; cbn; [|intros Hx]; rewrite version_lookup;
      (case_decide as Hd; [destruct Hd as [_ ->]|by auto]); [intros (q & Hq & ->)%fmap_Some; by apply (Hk slug q)|done].
  - destruct (e_load e p); [done|by apply resident_load].
  - destruct (e_unload e slug); [done|]. apply resident_unload; [done|by left].
Qed.

Lemma run_only {A} es n w (p : prog A) x : only x p → resident x w → resident x (run es n w p).1.
Proof.
  revert n w. induction p as [a|R c k IH]; intros n w Hp Hr; cbn; [done|]. destruct Hp as [Hc Hk].
  apply IH; [apply Hk|]. by apply exec_only.
Qed.

(** *** The invariant *)

(** The answers of a call that promise that its own plugin is still in step: all but a
    deactivation or a trip of an Active plugin that fails in the table, an update that
    fails in the version log, and a rollback to a version that was not loaded. *)
Definition keeps (c : manager_call) (w : world T) (r : result lifecycle_error string) : Prop :=
  match c, r with
  | (DoDeactivate s | DoTrip s), Err (LStore _) => row_state w s ≠ Some StateActive
  | DoUpdate _, Err (LVersionLog _) => False
  | DoRollback s _, Ok v => (s, v) ∈ loaded w
  | _, _ => True
  end.

Lemma answer_resident m c w : resident None w → wp (answer m c) w (λ w' r, keeps c w r → resident None w').
Proof.
  intros Hr. destruct c as [b|s|s|s d|s|s|b|s v|]; cbn [answer keeps]; try apply wp_bind.
  - eapply wp_mono; [|by apply Install_resident]. by intros w' a ? _.
  - eapply wp_mono; [|by apply Activate_resident]. by intros w' a ?; apply wp_ret.
  - eapply wp_mono; [|by apply Deactivate_resident]. intros w' a Ha. apply wp_ret. intros Hk. apply Ha.
    by intros e ->.
  - eapply wp_mono; [|by apply Uninstall_resident]. by intros w' a ?; apply wp_ret.
  - eapply wp_mono; [|by apply ResetPlugin_resident]. by intros w' a ?; apply wp_ret.
  - eapply wp_mono; [|by apply TripPlugin_resident]. intros w' a Ha. apply wp_ret. intros Hk. apply Ha.
    by intros e ->.
  - eapply wp_mono; [|by apply Update_resident]. intros w' a Ha Hk. apply Ha. by intros e ->.
  - eapply wp_mono; [|by apply Rollback_resident]. intros w' a Ha Hk. apply Ha. by intros v' ->.
  - unfold RunRetentionCleanup. destruct (negb _); [by intros ?|]. wp_step e0. wp_step e1.
    match goal with |- context [log_answer e1 w ?r] => pose proof (log_answer_quiet e1 w r) as Hq;
      destruct (log_answer e1 w r) as [w1 [n|e]]; cbn [fst snd] in * end; intros _; by eapply resident_quiet.
Qed.

(** C26. A call that runs alone keeps the runtime in step with the table, whatever the
    runtime, the migrator, the database and the clock answer: when the version of every
    Active plugin is loaded before the call, it is so after it for every plugin but the
    one the call is about; and for that one too, unless the call is a deactivation or a
    trip whose write to the table fails after the unload, an update whose version log
    fails, or a rollback to a version that the runtime no longer held. *)
Theorem active_is_loaded m c es n w :
  resident None w →
  let r := run es n w (answer m c) in
  resident (target c) r.1 ∧ (keeps c w r.2 → resident None r.1).
Proof.
  intros Hr r. split.
  - apply run_only; [apply answer_only|by apply resident_except].
  - apply (wp_run es n w (answer m c) (λ w' r, keeps c w r → resident None w')). by apply answer_resident.
Qed.

(** ** The outcome of an activation *)

Definition breaker_answer (m : Manager) (e : env) w (slug : string) : bool :=
  match mg_breaker m with
  | None => false
  | Some cfg => bool_decide ((BreakerState_of cfg (e_now e) (buckets w) slug).2 = BreakerOpen)
  end.

Definition gate_answer (m : Manager) (e : env) (p : Plugin) : option depends_error :=
  if mg_gate m && negb (bool_decide (ManifestRaw p = "")) then
    match mg_validate m (ManifestRaw p) with
    | None => None
    | Some mf => AllowActivate IsValid Compare (Some (e_registry e)) (Some mf)
    end
  else None.

Lemma run_bind {A B} e n w (p : prog A) (f : A → prog B) :
  run (λ _, e) n w (bind p f) =
  run (λ _, e) n (run (λ _, e) n w p).1 (f (run (λ _, e) n w p).2).
Proof using.
  assert (∀ B n n' w (q : prog B), run (λ _, e) n w q = run (λ _, e) n' w q) as Hn.
  { clear. intros B n n' w q. revert n n' w. induction q as [a|R c k IH]; intros n n' w;
      [done|]. cbn [Lifecycle.run]. apply IH. }
  revert n w. induction p as [a|R c k IH]; intros n w; [done|].
  cbn [bind Lifecycle.run]. rewrite IH. apply Hn.
Qed.

Lemma run_breaker_open m e n w slug :
  (run (λ _, e) n w (breaker_open m slug)).2 = breaker_answer m e w slug ∧
  store (run (λ _, e) n w (breaker_open m slug)).1 = store w ∧
  loaded (run (λ _, e) n w (breaker_open m slug)).1 = loaded w ∧
  trail (run (λ _, e) n w (breaker_open m slug)).1 = trail w.
Proof using. unfold breaker_open, breaker_answer. by destruct (mg_breaker m). Qed.

Lemma run_gate_check m e n w p :
  run (λ _, e) n w (gate_check m p) = (w, gate_answer m e p).
Proof using.
  unfold gate_check, gate_answer. destruct (mg_gate m); [|done]. case_decide as Hd.
  - by rewrite bool_decide_true by done.
  - rewrite bool_decide_false by done. by destruct (mg_validate m (ManifestRaw p)).
Qed.

Definition error_fields (e : env) (reason : string) : option StateUpdateFields :=
  Some (mkFields None (Some reason) (Some (e_now e))).
Definition active_fields (e : env) : option StateUpdateFields :=
  Some (mkFields (Some (e_now e)) (Some "") (Some time_zero)).

Lemma update_state_ok now t slug p to f :
  lookup_row t slug = Some p →
  (update_state now t slug (PState p) to f).2 = None ∧
  lookup_row (update_state now t slug (PState p) to f).1 slug = Some (apply_update now to f p).
Proof.
  intros Hp. assert ((update_state now t slug (PState p) to f).2 = None) as Hr.
  { apply update_result. by rewrite Hp. }
  split; [done|]. rewrite update_lookup, decide_True by done. by rewrite Hp.
Qed.

Lemma run_parkErrored e n w slug p reason :
  e_down e = None → lookup_row (store w) slug = Some p →
  let w' := (run (λ _, e) n w (parkErrored slug (PState p) reason)).1 in
  lookup_row (store w') slug =
    Some (apply_update (e_now e) StateErrored (error_fields e reason) p) ∧
  loaded w' = loaded w ∧
  trail w' = trail w ++ [mkAudit slug "plugin.errored" SeverityWarning].
Proof.
  intros Hd Hp. destruct (update_state_ok (e_now e) (store w) slug p StateErrored
    (error_fields e reason) Hp) as [Hr Hl].
  unfold parkErrored, error_fields in *. cbn [Lifecycle.run Lifecycle.exec fst snd].
  unfold storage_write. rewrite Hd. cbn [fst snd].
  rewrite Hr. cbn [Lifecycle.run Lifecycle.exec fst snd]. done.
Qed.

(** [Activate] on every branch: a failing database is reported; an unknown slug and a row that is neither
    Installed nor Inactive are refused with nothing changed; an open breaker or
    an unmet dependency refuses and leaves the row and the modules alone; a
    failing load parks the row in Errored with its reason; otherwise the row
    becomes Active with its error cleared, its module is loaded and the
    activation is audited. *)
Theorem Activate_outcome m slug e w :
  let r := run (λ _, e) 0 w (Activate m slug) in
  match e_down e, lookup_row (store w) slug with
  | Some why, _ => r = (w, Err (LStore (ErrBackend why)))
  | None, None => r = (w, Err (LStore (ErrNotFound slug)))
  | None, Some p =>
      if decide (PState p ≠ StateInstalled ∧ PState p ≠ StateInactive)
      then r = (w, Err (transition_error slug "Activate" StateInstalled (PState p)))
      else if breaker_answer m e w slug
      then r.2 = Err LBreakerOpen ∧ store r.1 = store w ∧ loaded r.1 = loaded w
      else match gate_answer m e p, e_load e p with
      | Some refused, _ =>
          r.2 = Err (LDepends refused) ∧ store r.1 = store w ∧ loaded r.1 = loaded w
      | None, Some why =>
          r.2 = Err (LLoad why) ∧ loaded r.1 = loaded w ∧
          lookup_row (store r.1) slug = Some (apply_update (e_now e) StateErrored
            (error_fields e ("runtime load: " +:+ why)) p)
      | None, None =>
          r.2 = Ok tt ∧ loaded r.1 = load p (loaded w) ∧
          lookup_row (store r.1) slug =
            Some (apply_update (e_now e) StateActive (active_fields e) p) ∧
          trail r.1 = trail w ++ [mkAudit slug "plugin.activated" SeverityInfo]
      end
  end.
Proof.
  unfold Activate. cbn [Lifecycle.run Lifecycle.exec fst snd]. unfold get_row.
  destruct (e_down e) eqn:Hd; [done|].
  destruct (lookup_row (store w) slug) as [p|] eqn:Hp; [|done].
  destruct (decide (PState p ≠ StateInstalled ∧ PState p ≠ StateInactive)); [done|].
  rewrite run_bind. destruct (run_breaker_open m e 1 w slug) as (Hb & Hs & Hl & Ht).
  rewrite Hb. set (w1 := (run (λ _, e) 1 w (breaker_open m slug)).1) in *.
  destruct (breaker_answer m e w slug); [done|].
  rewrite run_bind, run_gate_check. cbn [fst snd].
  destruct (gate_answer m e p) as [refused|]; [done|].
  assert (lookup_row (store w1) slug = Some p) as Hp1 by by rewrite Hs.
  unfold load_and_activate. cbn [Lifecycle.run Lifecycle.exec fst snd].
  destruct (e_load e p) as [why|].
  - rewrite run_bind. cbn [Lifecycle.run fst snd].
    destruct (run_parkErrored e 2 w1 slug p ("runtime load: " +:+ why) Hd Hp1) as (H1 & H2 & _).
    rewrite H1, H2. done.
  - cbn [Lifecycle.run Lifecycle.exec fst snd store with_loaded].
    destruct (update_state_ok (e_now e) (store w1) slug p StateActive (active_fields e) Hp1)
      as [Hr Hrow].
    unfold active_fields, storage_write in *. rewrite Hd. cbn [fst snd]. rewrite Hr.
    cbn [Lifecycle.run Lifecycle.exec fst snd].
    split; [done|]. simpl. rewrite Hl, Ht. done.
Qed.

(** ** Update and rollback *)

(** Runs the next commands, which a database that is up carries out. *)
Ltac run_served Hd :=
  cbn [Lifecycle.run Lifecycle.exec fst snd];
  unfold get_row, storage_write, log_write, log_answer; rewrite ?Hd;
  cbn [Lifecycle.run Lifecycle.exec fst snd].

(** The world an update leaves when the log held the current version only. *)
Lemma run_Update m mf e w p r1 :
  e_down e = None → mg_versioned m = true → check_manifest m mf = None →
  lookup_row (store w) (m_Slug mf) = Some p → PState p = StateActive →
  Version p ≠ m_Version mf → (∀ q, e_load e q = None) →
  versions w !! m_Slug mf = Some [r1] → v_Version r1 = Version p →
  v_State r1 = VersionActive →
  let r := run (λ _, e) 0 w (Update m (Some (Ok mf))) in
  let new := mkVersionRow (m_Slug mf) (m_Version mf) (m_ABIVersion mf) VersionActive
    (e_now e) (e_now e) time_zero time_zero in
  r.2 = Ok (m_Version mf) ∧
  lookup_row (store r.1) (m_Slug mf) =
    Some (apply_version (e_now e) (m_Version mf) (m_Raw mf) (m_ABIVersion mf) p) ∧
  versions r.1 !! m_Slug mf =
    Some [retain (e_now e + mg_retainFor m) (retire (e_now e) r1); new].
Proof.
  intros Hd Hv Hcm Hp Hst Hver Hload Hlog Hr1 Hact.
  assert (m_Slug mf ≠ "" ∧ m_Version mf ≠ "") as [Hslug Hvne].
  { unfold check_manifest in Hcm. repeat case_match; try done. split; [|done].
    intros E. rewrite E in *. done. }
  unfold Update. rewrite Hv, Hcm. cbn [negb]. run_served Hd.
  rewrite Hp, decide_False by (rewrite Hst; tauto). rewrite decide_False by done.
  cbv zeta. run_served Hd. rewrite Hload.
  unfold switch_version. run_served Hd.
  set (new := mkVersionRow _ _ _ _ _ _ _ _).
  assert (AppendActive (versions w) new =
    (<[m_Slug mf := [retire (e_now e) r1; new]]> (versions w), Ok (Some (retire (e_now e) r1))))
    as Happ.
  { unfold AppendActive. rewrite decide_False by (simpl; tauto). cbv zeta.
    change (set_state VersionActive new) with new. simpl. rewrite Hlog. simpl.
    rewrite decide_True by done. simpl. by rewrite decide_False by congruence. }
  cbn [versions with_loaded]. rewrite Happ. cbn [fst snd].
  rewrite run_bind. unfold applyActiveVersion. run_served Hd.
  rewrite run_bind. set (w2 := with_store _ _).
  assert (∀ n, run (λ _, e) n w2 (if mg_drain m
    then CWaitDrain (m_Slug mf) (v_Version (retire (e_now e) r1)) ;;; Ret tt else Ret tt) =
    (w2, tt)) as -> by (intros; by destruct (mg_drain m)).
  cbn [bind]. run_served Hd. split; [done|]. split.
  - simpl. rewrite version_lookup, decide_True; [by rewrite Hp|].
    split; [|done]. apply version_result. simpl. by rewrite Hp, <-Hst.
  - simpl. unfold MarkRetained, mark. rewrite lookup_insert_eq. simpl.
    rewrite decide_True by done. simpl. by rewrite lookup_insert_eq.
Qed.

(** When the database carries them out, a rollback after an update is a round trip on
    versions: the row names
    the previous version again, which is again the log's active one, and the
    version rolled back from is retained, so that it can be promoted in turn.
    The row's manifest is not restored: it stays the newer version's. *)
Theorem update_rollback_round_trip m mf e1 e2 w p r1 :
  e_down e1 = None → e_down e2 = None → mg_versioned m = true → check_manifest m mf = None →
  lookup_row (store w) (m_Slug mf) = Some p → PState p = StateActive →
  Version p ≠ m_Version mf → (∀ q, e_load e1 q = None) →
  versions w !! m_Slug mf = Some [r1] → v_Version r1 = Version p →
  v_State r1 = VersionActive → m_Raw mf ≠ "" →
  let u := run (λ _, e1) 0 w (Update m (Some (Ok mf))) in
  let r := run (λ _, e2) 0 u.1 (Rollback m (m_Slug mf) "") in
  u.2 = Ok (m_Version mf) ∧ r.2 = Ok (Version p) ∧
  (∃ q, lookup_row (store r.1) (m_Slug mf) = Some q ∧ PState q = StateActive ∧
     Version q = Version p ∧ ManifestRaw q = m_Raw mf) ∧
  (λ v, (v_Version v, v_State v)) <$> rows_at (versions r.1) (m_Slug mf) =
    [(Version p, VersionActive); (m_Version mf, VersionRetained)].
Proof.
  intros Hd1 Hd2 Hv Hcm Hp Hst Hver Hload Hlog Hr1 Hact Hraw u r.
  destruct (run_Update m mf e1 w p r1 Hd1 Hv Hcm Hp Hst Hver Hload Hlog Hr1 Hact)
    as (Hu & Hrow & Hvers). fold u in Hu, Hrow, Hvers.
  split; [done|]. unfold r. clear r Hu. clearbody u.
  set (old := retain _ _) in *. set (new := mkVersionRow _ _ _ _ _ _ _ _) in *.
  assert (ListRetained (versions u.1) (m_Slug mf) = [old]) as Hret.
  { unfold ListRetained. rewrite Hvers. by vm_compute. }
  assert (v_Version old = Version p) as Hold by done.
  assert (PromoteToActive (e_now e2) (versions u.1) (m_Slug mf) (Version p) =
    (<[m_Slug mf := [activate (e_now e2) old; retire (e_now e2) new]]> (versions u.1), None))
    as Hprom.
  { unfold PromoteToActive. rewrite Hvers. cbn [default from_option id].
    rewrite decide_True by (constructor; done). cbn [fmap list_fmap].
    rewrite (decide_True (P := v_Version old = _)) by done.
    rewrite (decide_False (P := v_Version new = _)) by (simpl; congruence).
    by rewrite decide_True by done. }
  unfold Rollback. rewrite Hv. cbn [negb]. run_served Hd2.
  rewrite Hrow. run_served Hd2. rewrite Hret. cbv zeta.
  rewrite decide_True by done. rewrite Hold. cbn [list_find]. rewrite decide_True by done.
  rewrite Hold. rewrite decide_False by done.
  run_served Hd2. cbn [versions with_versions fst]. rewrite Hprom. cbn [fst snd].
  rewrite run_bind. unfold applyActiveVersion. run_served Hd2.
  rewrite run_bind. set (w2 := with_store _ _). set (cur := apply_version _ _ _ _ _).
  assert (∀ n, run (λ _, e2) n w2 (if mg_drain m
    then CWaitDrain (m_Slug mf) (Version cur) ;;; Ret tt else Ret tt) = (w2, tt)) as ->
    by (intros; by destruct (mg_drain m)).
  run_served Hd2. split; [done|]. split.
  - exists (apply_version (e_now e2) (Version p) "" (v_ABIVersion old) cur). split.
    + simpl. rewrite version_lookup, decide_True; [by rewrite Hrow|].
      split; [|done]. apply version_result. simpl. by rewrite Hrow, <-Hst.
    + split; [done|]. split; [done|]. simpl. by rewrite decide_False.
  - simpl. unfold rows_at, MarkRetained, mark. rewrite lookup_insert_eq. cbn [default from_option id].
    cbn [update_first]. rewrite decide_False by (simpl; congruence).
    rewrite decide_True by done. simpl. rewrite lookup_insert_eq. simpl. by rewrite Hr1.
Qed.
End sequential.

(** ** Examples *)

Definition ex_manager : Manager :=
  mkManager None false (λ _, None) (λ _, false) true true (24 * hour)%Z.

Definition ex_env : env :=
  mkEnv 100 (λ _, None) (λ _, None) (λ _, None) (λ _, None) (λ _, None) true None.

(** The database fails the command. *)
Definition ex_down : env :=
  mkEnv 100 (λ _, None) (λ _, None) (λ _, None) (λ _, None) (λ _, None) true (Some "conn closed").

Definition ex_plugin (st : State) : Plugin :=
  mkPlugin "seo" "1.0.0" 1 "{}" st [] "" time_zero 10 time_zero 1 10.

Definition ex_world (st : State) (mods : gset (string * string)) (rows : list VersionRow)
    : world (gmap string Plugin) :=
  mkWorld {["seo" := ex_plugin st]} mods ∅ {["seo" := rows]} [].

Abbreviation ex_sched := (sched PlainSemver.IsValid PlainSemver.Compare ex_manager) (only parsing).

Lemma ex_not_pending st mods rows s :
  st ≠ StatePendingUninstall → ¬ pending (ex_world st mods rows) s.
Proof.
  intros Hst. unfold pending, row_state. simpl.
  destruct (decide (s = "seo")) as [->|Hne].
  - rewrite lookup_singleton_eq. naive_solver.
  - by rewrite lookup_singleton_ne.
Qed.

(** Two uninstalls of one plugin: the first has passed its compare-and-swap. *)
Definition ex_uninstalls : world (gmap string Plugin) * list (prog unit) :=
  foldl ex_sched (ex_world StateInactive ∅ [], [])
    [Arrive (DoUninstall "seo" true); Arrive (DoUninstall "seo" false);
     Step 0 ex_env; Step 1 ex_env; Step 0 ex_env].

Lemma ex_uninstalls_reachable :
  reachable PlainSemver.IsValid PlainSemver.Compare ex_manager ex_uninstalls.1 ex_uninstalls.2.
Proof.
  exists (ex_world StateInactive ∅ []). split; [intros s; by apply ex_not_pending|].
  rewrite <-surjective_pairing. apply sched_rtc.
Qed.





Lemma uninstall_exclusive_witness :
  pending ex_uninstalls.1 "seo" ∧
  ∃ owner : list (option string), length owner = length ex_uninstalls.2.
Proof.
  split; [by vm_compute|].
  destruct (uninstall_exclusive PlainSemver.IsValid PlainSemver.Compare ex_manager
    _ _ ex_uninstalls_reachable) as (owner & Hl & _). by exists owner.
Defined.

(** A plugin whose activation failed is uninstalled without a reset. *)
Example errored_uninstalls :
  let w := (Lifecycle.run PlainSemver.IsValid PlainSemver.Compare (λ _, ex_env) 0
    (ex_world StateErrored ∅ []) (body ex_manager (DoUninstall "seo" true))).1 in
  row_state w "seo" = None.
Proof. by vm_compute. Qed.

(** When the row cannot be deleted it stays in PendingUninstall, and no call takes it
    out again. *)
Example failed_delete_strands :
  let alone c es w := Lifecycle.run PlainSemver.IsValid PlainSemver.Compare es 0 w (answer ex_manager c) in
  let w := (alone (DoUninstall "seo" false) (λ n, if n <? 3 then ex_env else ex_down)
              (ex_world StateInactive ∅ [])).1 in
  row_state w "seo" = Some StatePendingUninstall ∧
  row_state (alone (DoUninstall "seo" false) (λ _, ex_env) w).1 "seo" = Some StatePendingUninstall ∧
  row_state (alone (DoReset "seo") (λ _, ex_env) w).1 "seo" = Some StatePendingUninstall ∧
  row_state (alone (DoActivate "seo") (λ _, ex_env) w).1 "seo" = Some StatePendingUninstall.
Proof. by vm_compute. Qed.

Lemma ex_resident mods rows :
  ("seo", "1.0.0") ∈ mods → resident None (ex_world StateActive mods rows).
Proof.
  intros Hm. split; intros s p; [|intros _]; simpl; (destruct (decide (s = "seo")) as [->|Hne];
    [rewrite lookup_singleton_eq|by rewrite lookup_singleton_ne]); by intros [= <-].
Qed.

(** An update leaves the new version loaded. *)
Definition ex_manifest : Manifest := mkManifest "seo" "2.0.0" 1 [] "{2}".

Definition ex_v1 : VersionRow := mkVersionRow "seo" "1.0.0" 1 VersionActive 10 10 time_zero time_zero.

Lemma active_is_loaded_witness :
  let w := ex_world StateActive {[("seo", "1.0.0")]} [ex_v1] in
  let r := Lifecycle.run PlainSemver.IsValid PlainSemver.Compare (λ _, ex_env) 0 w
    (answer ex_manager (DoUpdate (Some (Ok ex_manifest)))) in
  (Version <$> lookup_row (store r.1) "seo") = Some "2.0.0" ∧ resident None r.1.
Proof.
  intros w r. split; [by vm_compute|].
  refine (proj2 (active_is_loaded PlainSemver.IsValid PlainSemver.Compare ex_manager
    (DoUpdate (Some (Ok ex_manifest))) (λ _, ex_env) 0 w _) _).
  - by apply ex_resident, elem_of_singleton.
  - assert (r.2 = Ok "2.0.0") as Hr by (vm_compute; reflexivity).
    change (keeps (DoUpdate (Some (Ok ex_manifest))) w r.2). by rewrite Hr.
Defined.

(** Activating an Inactive plugin. *)
Lemma Activate_outcome_witness :
  let r := Lifecycle.run PlainSemver.IsValid PlainSemver.Compare (λ _, ex_env) 0
    (ex_world StateInactive ∅ []) (Activate ex_manager "seo") in
  r.2 = Ok tt ∧ loaded r.1 = load (ex_plugin StateInactive) ∅.
Proof.
  pose proof (Activate_outcome PlainSemver.IsValid PlainSemver.Compare ex_manager "seo" ex_env
    (ex_world StateInactive ∅ [])) as H. cbv zeta in H.
  change (lookup_row (store (ex_world StateInactive ∅ [])) "seo")
    with (Some (ex_plugin StateInactive)) in H.
  destruct H as (H1 & H2 & _). done.
Defined.

Lemma update_rollback_round_trip_witness :
  let u := Lifecycle.run PlainSemver.IsValid PlainSemver.Compare (λ _, ex_env) 0
    (ex_world StateActive {[("seo", "1.0.0")]} [ex_v1]) (Update ex_manager (Some (Ok ex_manifest))) in
  u.2 = Ok "2.0.0" ∧
  (Lifecycle.run PlainSemver.IsValid PlainSemver.Compare (λ _, ex_env) 0 u.1
     (Rollback ex_manager "seo" "")).2 = Ok "1.0.0".
Proof.
  destruct (update_rollback_round_trip PlainSemver.IsValid PlainSemver.Compare ex_manager
    ex_manifest ex_env ex_env (ex_world StateActive {[("seo", "1.0.0")]} [ex_v1])
    (ex_plugin StateActive) ex_v1) as (Hu & Hr & _); try done.
Defined.

(** Two concurrent activations: the loser of the compare-and-swap unloads, by
    slug, the module the winner has just loaded. The row is Active and its
    module is gone. *)
Definition ex_race : world (gmap string Plugin) * list (prog unit) :=
  foldl ex_sched (ex_world StateInactive ∅ [], [])
    [Arrive (DoActivate "seo"); Arrive (DoActivate "seo");
     Step 0 ex_env; Step 1 ex_env;                       (* both read the row *)
     Step 0 ex_env; Step 1 ex_env;                       (* both load *)
     Step 0 ex_env; Step 1 ex_env;
     Step 0 ex_env; Step 1 ex_env;                       (* the second update loses *)
     Step 0 ex_env; Step 1 ex_env].                      (* audit; unload *)

Example concurrent_activate_unloads :
  row_state ex_race.1 "seo" = Some StateActive ∧
  elements (loaded ex_race.1) = [] ∧ Forall finished ex_race.2.
Proof.
  split; [by vm_compute|]. split; [by vm_compute|].
  repeat constructor.
Qed.

(** Calls one after the other, and the versions of the row and of the modules after
    them. *)
Definition ex_after (w : world (gmap string Plugin)) (cs : list (manager_call * (nat → env)))
    : option (State * string) * list (string * string) :=
  let w := foldl (λ w c, (Lifecycle.run PlainSemver.IsValid PlainSemver.Compare c.2 0 w (answer ex_manager c.1)).1) w cs in
  ((λ p, (PState p, Version p)) <$> lookup_row (store w) "seo", elements (loaded w)).

(** An update whose version the log already holds unloads the running version too. *)
Example refused_update_unloads :
  ex_after (ex_world StateActive {[("seo", "1.0.0")]}
      [ex_v1; mkVersionRow "seo" "2.0.0" 1 VersionRetained 20 20 30 900])
    [(DoUpdate (Some (Ok ex_manifest)), λ _, ex_env)] = (Some (StateActive, "1.0.0"), []).
Proof. by vm_compute. Qed.

(** A deactivation that unloads and then cannot write leaves the row Active. *)
Example failed_deactivate_unloads :
  ex_after (ex_world StateActive {[("seo", "1.0.0")]} [])
    [(DoDeactivate "seo", λ n, if n <? 2 then ex_env else ex_down)] = (Some (StateActive, "1.0.0"), []).
Proof. by vm_compute. Qed.

(** A plugin that is deactivated and activated after an update runs the new version only;
    the rollback promotes the old one, which it takes for loaded still. *)
Example rollback_unloaded :
  ex_after (ex_world StateActive {[("seo", "1.0.0")]} [ex_v1])
    [(DoUpdate (Some (Ok ex_manifest)), λ _, ex_env); (DoDeactivate "seo", λ _, ex_env);
     (DoActivate "seo", λ _, ex_env); (DoRollback "seo" "", λ _, ex_env)] =
  (Some (StateActive, "1.0.0"), [("seo", "2.0.0")]).
Proof. by vm_compute. Qed.

(** Without the deactivation the old version is still there. *)
Example rollback_loaded :
  ex_after (ex_world StateActive {[("seo", "1.0.0")]} [ex_v1])
    [(DoUpdate (Some (Ok ex_manifest)), λ _, ex_env); (DoRollback "seo" "", λ _, ex_env)] =
  (Some (StateActive, "1.0.0"), [("seo", "1.0.0"); ("seo", "2.0.0")]).
Proof. by vm_compute. Qed.
