(* ===== verification/Http.v ===== *)
(** * HTTP responses as handlers write them (net/http)

    The part of [net/http] the middlewares use: the header map, the moment the
    header is sent, the body, and [http.Error]. *)
From S2P Require Import Prelude GoStrings.
From Stdlib Require Import Ascii.

(** [http.Header] with one value per (canonical) name. *)
Abbreviation Header := (gmap string string) (only parsing).

(** [http.CanonicalHeaderKey]: the first letter and each letter after a hyphen upper
    case, the others lower case; a name that is not a token stays as it is. *)
Definition in_range (lo hi c : ascii) : bool := Ascii.leb lo c && Ascii.leb c hi.
Definition token_byte (c : ascii) : bool :=
  in_range "0" "9" c || in_range "a" "z" c || in_range "A" "Z" c ||
  bool_decide (c ∈ ["!"; "#"; "$"; "%"; "&"; "'"; "*"; "+"; "-"; "."; "^"; "_"; "`"; "|"; "~"]%char).
Fixpoint canonical (upper : bool) (s : string) : string :=
  match s with
  | EmptyString => ""
  | String c s =>
      let n := Ascii.nat_of_ascii c in
      let c := if upper && in_range "a" "z" c then Ascii.ascii_of_nat (n - 32)
               else if negb upper && in_range "A" "Z" c then Ascii.ascii_of_nat (n + 32) else c in
      String c (canonical (Ascii.eqb c "-") s)
  end.
Definition CanonicalHeaderKey (s : string) : string := if all_chars token_byte s then canonical true s else s.

(** A [ResponseWriter]: the header map handlers mutate, what [WriteHeader]
    sent (status and header as they were then), and the body. Changes of the
    header map after [WriteHeader] have no effect on what was sent. *)
Record Writer := mkWriter {
  hdr : Header;
  wire : option (Z * Header);
  body : string;
}.

Definition Set_ (k v : string) (w : Writer) : Writer := mkWriter (<[k := v]> (hdr w)) (wire w) (body w).
Definition Del (k : string) (w : Writer) : Writer := mkWriter (delete k (hdr w)) (wire w) (body w).
Definition header_get (k : string) (h : Header) : string := default "" (h !! k).
Definition WriteHeader (status : Z) (w : Writer) : Writer :=
  mkWriter (hdr w) (match wire w with Some x => Some x | None => Some (status, hdr w) end) (body w).

(** [Write] sends a 200 first when nothing was sent. *)
Definition WriteBody (s : string) (w : Writer) : Writer :=
  let w := WriteHeader 200 w in mkWriter (hdr w) (wire w) (body w +:+ s).

Record Request := mkRequest { req_path : string; req_header : Header }.

(** [http.Error]; the message is followed by a newline. *)
Definition HttpError (msg : string) (code : Z) (w : Writer) : Writer :=
  WriteBody (msg +:+ String (Ascii.ascii_of_nat 10) "")
    (WriteHeader code
      (Set_ "X-Content-Type-Options" "nosniff"
        (Set_ "Content-Type" "text/plain; charset=utf-8" (Del "Content-Length" w)))).

Lemma HttpError_sent msg code w :
  wire w = None →
  (∃ h, wire (HttpError msg code w) = Some (code, h)) ∧
  body (HttpError msg code w) = body w +:+ msg +:+ String (Ascii.ascii_of_nat 10) "".
Proof. intros Hw. split; [|done]. unfold HttpError. simpl. rewrite Hw. eauto. Qed.
