(* ===== verification/Redirects.v ===== *)
(** * Redirect rules (packages/go/redirects: store.go, engine.go, middleware.go)

    The rule store, the engine's index (literal paths first, then regular
    expressions in creation order), its hit counters, and the HTTP middleware.
    [regexp] is a parameter: compiling a pattern, finding a match and expanding
    a template. Rule identifiers are numbers; 0 is the nil UUID. Each store
    call holds the store mutex; engine calls are taken one at a time. *)
From S2P Require Import Prelude GoStrings Http.

(** ** Rules *)

Record Rule := mkRule {
  ID : nat;
  SourcePath : string;
  DestinationPath : string;
  Status : Z;
  IsRegex : bool;
  HitCount : Z;
  LastHitAt : Time;
  CreatedAt : Time;
  CreatedBy : option nat;
}.

#[export] Instance Rule_eq_dec : EqDecision Rule.
Proof. solve_decision. Defined.

Record HitDelta := mkHitDelta { d_RuleID : nat; d_Count : Z; d_LastHitAt : Time }.

Inductive redirect_error :=
| ErrInvalidRule (why : string)
| ErrDuplicate (source : string) (is_regex : bool)
| ErrRuleNotFound (id : nat).

Definition allowedStatuses : list Z := [301; 302; 307; 308]%Z.

(** [validateForCreate] *)
Definition validateForCreate (r : Rule) : option redirect_error :=
  if decide (SourcePath r = "") then Some (ErrInvalidRule "source_path empty")
  else if decide (DestinationPath r = "") then Some (ErrInvalidRule "destination_path empty")
  else if decide (Status r ∈ allowedStatuses) then None
  else Some (ErrInvalidRule "status").

(** ** InMemoryStore *)

Abbreviation Rules := (gmap nat Rule) (only parsing).

Definition same_source (a b : Rule) : Prop :=
  SourcePath a = SourcePath b ∧ IsRegex a = IsRegex b.

#[export] Instance same_source_dec a b : Decision (same_source a b).
Proof. unfold same_source. apply _. Defined.

(** [Create]; [id] is what [uuid.New] gives. *)
Definition Create (now : Time) (id : nat) (rules : Rules) (r : Rule)
    : Rules * result redirect_error Rule :=
  match validateForCreate r with
  | Some e => (rules, Err e)
  | None =>
      if decide (map_Exists (λ _ q, same_source q r) rules)
      then (rules, Err (ErrDuplicate (SourcePath r) (IsRegex r)))
      else
        let row := mkRule id (SourcePath r) (DestinationPath r) (Status r) (IsRegex r)
                     0 time_zero now (CreatedBy r) in
        (<[id := row]> rules, Ok row)
  end.

Definition GetRule (rules : Rules) (id : nat) : result redirect_error Rule :=
  match rules !! id with Some r => Ok r | None => Err (ErrRuleNotFound id) end.

(** [Update]: counters, creation time and author are kept. *)
Definition UpdateRule (rules : Rules) (r : Rule) : Rules * result redirect_error Rule :=
  match validateForCreate r with
  | Some e => (rules, Err e)
  | None =>
      if decide (ID r = 0) then (rules, Err (ErrInvalidRule "zero ID"))
      else match rules !! ID r with
      | None => (rules, Err (ErrRuleNotFound (ID r)))
      | Some existing =>
          if decide (map_Exists (λ id q, id ≠ ID r ∧ same_source q r) rules)
          then (rules, Err (ErrDuplicate (SourcePath r) (IsRegex r)))
          else
            let row := mkRule (ID existing) (SourcePath r) (DestinationPath r) (Status r)
                         (IsRegex r) (HitCount existing) (LastHitAt existing)
                         (CreatedAt existing) (CreatedBy existing) in
            (<[ID r := row]> rules, Ok row)
      end
  end.

Definition DeleteRule (rules : Rules) (id : nat) : Rules := delete id rules.

Definition older (a b : Rule) : bool := time_before (CreatedAt a) (CreatedAt b).
Definition newer_rule (a b : Rule) : bool := time_after (CreatedAt a) (CreatedAt b).

(** [List]: newest first, one page; a limit out of range means 50. *)
Definition ListRules (rules : Rules) (before : Time) (limit : Z) : list Rule :=
  let limit := if ((limit <=? 0) || (500 <? limit))%Z then 50%Z else limit in
  take (Z.to_nat limit) (sort_by newer_rule
    (filter (λ r, is_zero before || time_before (CreatedAt r) before)
      (snd <$> map_to_list rules))).

(** [Snapshot]: oldest first. Go's map order and [sort.Slice] leave the order
    of rules created at one instant open, so a snapshot is any such list;
    [Snapshot] is one of them. *)
Definition is_snapshot (rules : Rules) (l : list Rule) : Prop :=
  l ≡ₚ (snd <$> map_to_list rules) ∧ StronglySorted (not_after older) l.

Definition Snapshot (rules : Rules) : list Rule :=
  sort_by older (snd <$> map_to_list rules).

(** [BulkIncrementHits] *)
Definition increment (rules : Rules) (d : HitDelta) : Rules :=
  if (d_Count d <=? 0)%Z then rules
  else match rules !! d_RuleID d with
  | None => rules
  | Some r =>
      <[d_RuleID d := mkRule (ID r) (SourcePath r) (DestinationPath r) (Status r) (IsRegex r)
         (wrap64 (HitCount r + d_Count d))
         (if time_after (d_LastHitAt d) (LastHitAt r) then d_LastHitAt d else LastHitAt r)
         (CreatedAt r) (CreatedBy r)]> rules
  end.

Definition BulkIncrementHits (rules : Rules) (ds : list HitDelta) : Rules :=
  foldl increment rules ds.

(** ** Engine *)

Record Match := mkMatch {
  mt_RuleID : nat;
  mt_Destination : string;
  mt_Status : Z;
  mt_IsRegex : bool;
}.

Section engine.
Context {P M : Type}.
Context (compile : string → option P).
Context (find : P → string → option M).
Context (expand : P → string → string → M → string).

Record engineIndex := mkIndex {
  literal : gmap string Rule;
  regex : list (Rule * P);
}.

(** [pending] maps a rule to its hits since the last flush and the last one's
    time. *)
Record Engine := mkEngine {
  index : engineIndex;
  pending : gmap nat (Z * Time);
}.

Definition NewEngine : Engine := mkEngine (mkIndex ∅ []) ∅.

(** The loop of [Reload] over the snapshot. *)
Fixpoint build_index (rules : list Rule) (idx : engineIndex) : engineIndex :=
  match rules with
  | [] => idx
  | r :: rest =>
      build_index rest
        (if IsRegex r then
           match compile (SourcePath r) with
           | None => idx
           | Some p => mkIndex (literal idx) (regex idx ++ [(r, p)])
           end
         else mkIndex (<[SourcePath r := r]> (literal idx)) (regex idx))
  end.

Definition older_regex (a b : Rule * P) : bool := older a.1 b.1.

(** [Reload], [rules] being what the store's [Snapshot] answered. *)
Definition Reload (e : Engine) (rules : list Rule) : Engine :=
  let idx := build_index rules (mkIndex ∅ []) in
  mkEngine (mkIndex (literal idx) (sort_by older_regex (regex idx))) (pending e).

(** [recordHit] *)
Definition recordHit (now : Time) (e : Engine) (id : nat) : Engine :=
  mkEngine (index e)
    (<[id := (match pending e !! id with Some (n, _) => wrap64 (n + 1) | None => 1%Z end, now)]>
       (pending e)).

(** The regular-expression scan of [Match]. *)
Fixpoint scan (path : string) (l : list (Rule * P)) : option (Rule * Match) :=
  match l with
  | [] => None
  | (r, p) :: rest =>
      match find p path with
      | None => scan path rest
      | Some m => Some (r, mkMatch (ID r) (expand p (DestinationPath r) path m) (Status r) true)
      end
  end.

(** [Match] *)
Definition MatchPath (now : Time) (e : Engine) (path : string) : Engine * option Match :=
  match literal (index e) !! path with
  | Some r => (recordHit now e (ID r), Some (mkMatch (ID r) (DestinationPath r) (Status r) false))
  | None =>
      match scan path (regex (index e)) with
      | Some (r, m) => (recordHit now e (ID r), Some m)
      | None => (e, None)
      end
  end.

(** The deltas [Flush] collects, in one order of the map. *)
Definition deltas (e : Engine) : list HitDelta :=
  (λ kv : nat * (Z * Time), mkHitDelta kv.1 kv.2.1 kv.2.2) <$>
    filter (λ kv : nat * (Z * Time), (0 < kv.2.1)%Z) (map_to_list (pending e)).

(** [Flush], [ds] being the deltas in the order the map yielded them. *)
Definition Flush (e : Engine) (ds : list HitDelta) (rules : Rules) : Engine * Rules :=
  (mkEngine (index e) ∅, BulkIncrementHits rules ds).

(** [Stats]: literal rules, regex rules, pending hits. *)
Definition Stats (e : Engine) : nat * nat * Z :=
  (size (literal (index e)), length (regex (index e)),
   foldr (λ (kv : nat * (Z * Time)) n, wrap64 (n + kv.2.1)) 0%Z (map_to_list (pending e))).
End engine.

Arguments Engine P : clear implicits.
Arguments engineIndex P : clear implicits.

(** ** The store's invariant *)

(** Rows are valid and filed under their identifier, and no two rules share a
    source and kind. *)
Definition rules_ok (rules : Rules) : Prop :=
  (∀ id r, rules !! id = Some r → ID r = id ∧ validateForCreate r = None) ∧
  (∀ id id' r r', rules !! id = Some r → rules !! id' = Some r' → same_source r r' → id = id').

Lemma rules_ok_increment rules d : rules_ok rules → rules_ok (increment rules d).
Proof.
  intros [Hid Hu]. unfold increment. case_match; [done|].
  destruct (rules !! d_RuleID d) as [q|] eqn:E; [|done].
  set (row := mkRule _ _ _ _ _ _ _ _ _).
  assert (∀ id r, <[d_RuleID d := row]> rules !! id = Some r →
    ∃ q', rules !! id = Some q' ∧ ID r = ID q' ∧ same_source r q' ∧
      validateForCreate r = validateForCreate q') as Hrow.
  { intros id r. destruct (decide (id = d_RuleID d)) as [->|Hne].
    - rewrite lookup_insert_eq. intros [= <-]. exists q. done.
    - rewrite lookup_insert_ne by done. intros Hr. exists r. done. }
  split.
  - intros id r (q' & Hq & -> & _ & ->)%Hrow. by apply Hid.
  - intros id id' r r' (q1 & Hq1 & _ & [Hs1 Hx1] & _)%Hrow (q2 & Hq2 & _ & [Hs2 Hx2] & _)%Hrow [Hs Hx].
    apply (Hu id id' q1 q2 Hq1 Hq2). split; congruence.
Qed.

Lemma rules_ok_insert rules id row :
  rules_ok rules → ID row = id → validateForCreate row = None →
  (∀ id' q, id' ≠ id → rules !! id' = Some q → ¬ same_source q row) →
  rules_ok (<[id := row]> rules).
Proof.
  intros [Hid Hu] Hrow Hval Hnew. split.
  - intros id' r. destruct (decide (id' = id)) as [->|Hne].
    + rewrite lookup_insert_eq. intros [= <-]. split; [exact Hrow|exact Hval].
    + rewrite lookup_insert_ne by done. apply Hid.
  - intros i j r r'. destruct (decide (i = id)) as [->|Hi], (decide (j = id)) as [->|Hj];
      rewrite ?lookup_insert_eq, ?lookup_insert_ne by done.
    + done.
    + intros [= <-] Hr' [Hs Hx]. destruct (Hnew j r' Hj Hr'). by split.
    + intros Hr [= <-] Hs. by destruct (Hnew i r Hi Hr).
    + apply Hu.
Qed.

Lemma rules_ok_Create now id rules r :
  rules_ok rules → rules_ok (Create now id rules r).1.
Proof.
  intros Hok. unfold Create. destruct (validateForCreate r) eqn:Hv; [done|].
  case_decide as Hd; [done|].
  simpl. apply rules_ok_insert; [done|done|exact Hv|].
  intros id' q _ Hq [Hs Hx]. apply Hd. by exists id', q.
Qed.

Lemma rules_ok_Update rules r : rules_ok rules → rules_ok (UpdateRule rules r).1.
Proof.
  intros Hok. unfold UpdateRule. destruct (validateForCreate r) eqn:Hv; [done|].
  case_decide; [done|].
  destruct (rules !! ID r) as [q|] eqn:E; [|done]. case_decide as Hd; [done|].
  simpl. apply rules_ok_insert; [done|exact (proj1 (proj1 Hok _ _ E))|exact Hv|].
  intros id' q' Hne Hq [Hs Hx]. apply Hd. by exists id', q'.
Qed.

Lemma rules_ok_Delete rules id : rules_ok rules → rules_ok (DeleteRule rules id).
Proof.
  intros [Hid Hu]. unfold DeleteRule. split.
  - intros i r [_ Hr]%lookup_delete_Some. by apply Hid.
  - intros i j r r' [_ Hr]%lookup_delete_Some [_ Hr']%lookup_delete_Some. by apply Hu.
Qed.

Lemma rules_ok_hits rules ds : rules_ok rules → rules_ok (BulkIncrementHits rules ds).
Proof.
  unfold BulkIncrementHits. revert rules.
  induction ds as [|d ds IH]; intros rules Hok; [done|].
  simpl. apply IH. by apply rules_ok_increment.
Qed.

Lemma Snapshot_is_snapshot rules : is_snapshot rules (Snapshot rules).
Proof.
  split; [apply sort_by_Permutation|]. apply sort_by_sorted.
  - unfold older, time_before. lia.
  - unfold older, time_before. lia.
Qed.

Lemma elem_of_snapshot rules l r :
  is_snapshot rules l → r ∈ l ↔ ∃ id, rules !! id = Some r.
Proof.
  intros [Hl _]. assert (r ∈ l ↔ r ∈ snd <$> map_to_list rules) as -> by by rewrite Hl.
  rewrite list_elem_of_fmap. split.
  - intros ([id q] & -> & Hq). exists id. by apply elem_of_map_to_list.
  - intros [id Hr]. exists (id, r). split; [done|]. by apply elem_of_map_to_list.
Qed.

(** ** Matching *)

Section matching.
Context {P M : Type}.
Context (compile : string → option P).
Context (find : P → string → option M).
Context (expand : P → string → string → M → string).

(** What a rule says about a path, without the index: a literal rule serves its
    source only, a regex rule what its pattern finds. *)
Definition rule_answer (r : Rule) (path : string) : option Match :=
  if IsRegex r then
    p ← compile (SourcePath r);
    m ← find p path;
    Some (mkMatch (ID r) (expand p (DestinationPath r) path m) (Status r) true)
  else if decide (SourcePath r = path)
       then Some (mkMatch (ID r) (DestinationPath r) (Status r) false) else None.

Definition compiled (r : Rule) : option (Rule * P) :=
  if IsRegex r then (r,.) <$> compile (SourcePath r) else None.

Lemma build_index_regex l idx :
  regex (build_index compile l idx) = regex idx ++ omap compiled l.
Proof.
  revert idx. induction l as [|r l IH]; intros idx; simpl; [by rewrite app_nil_r|].
  rewrite IH. unfold compiled. destruct (IsRegex r); [|done].
  destruct (compile (SourcePath r)); [|done]. simpl. by rewrite <-app_assoc.
Qed.

(** The literal part holds the last literal rule of each source. *)
Lemma build_index_literal_Some l idx path r :
  literal (build_index compile l idx) !! path = Some r →
  (r ∈ l ∧ IsRegex r = false ∧ SourcePath r = path) ∨ literal idx !! path = Some r.
Proof.
  revert idx. induction l as [|q l IH]; intros idx; simpl; [by right|].
  intros [(? & ? & ?)|Hr]%IH; [left; set_solver|].
  destruct (IsRegex q) eqn:Hq; [destruct (compile (SourcePath q)); auto|].
  simpl in Hr. apply lookup_insert_Some in Hr as [[? ->]|[_ Hr]]; [left; set_solver|auto].
Qed.

Lemma build_index_literal_None l idx path :
  literal (build_index compile l idx) !! path = None →
  literal idx !! path = None ∧ ∀ r, r ∈ l → IsRegex r = false → SourcePath r ≠ path.
Proof.
  revert idx. induction l as [|q l IH]; intros idx; simpl; [set_solver|].
  intros [Hn Hl]%IH. destruct (IsRegex q) eqn:Hq.
  - assert (literal idx !! path = None) by (destruct (compile (SourcePath q)); done).
    split; [done|]. intros r [->|Hr]%elem_of_cons; [congruence|auto].
  - simpl in Hn. apply lookup_insert_None in Hn as [? ?]. split; [done|].
    intros r [->|Hr]%elem_of_cons; auto.
Qed.

Lemma compiled_sorted l :
  StronglySorted (not_after older) l →
  StronglySorted (not_after (older_regex (P := P))) (omap compiled l).
Proof.
  induction 1 as [|r l Hl IH Hr]; simpl; [constructor|].
  destruct (compiled r) as [[r' p]|] eqn:E; [|done]. constructor; [done|].
  apply Forall_forall. intros [q pq] (q' & Hq' & Hc)%list_elem_of_omap.
  assert (r' = r ∧ q = q') as [-> ->].
  { unfold compiled in *. repeat case_match; try done.
    apply fmap_Some in E as (? & ? & ?), Hc as (? & ? & ?). by simplify_eq. }
  rewrite Forall_forall in Hr. by apply Hr.
Qed.

(** The scan finds the first pattern that matches. *)
Lemma scan_spec path l :
  match scan find expand path l with
  | None => ∀ r p, (r, p) ∈ l → find p path = None
  | Some (r, m) => ∃ p l1 l2 x, l = l1 ++ (r, p) :: l2 ∧ find p path = Some x ∧
      m = mkMatch (ID r) (expand p (DestinationPath r) path x) (Status r) true ∧
      ∀ r' p', (r', p') ∈ l1 → find p' path = None
  end.
Proof.
  induction l as [|[r p] l IH]; simpl; [set_solver|].
  destruct (find p path) as [x|] eqn:E.
  - exists p, [], l, x. split_and!; [done..|set_solver].
  - destruct (scan find expand path l) as [[r' m]|].
    + destruct IH as (p' & l1 & l2 & x & -> & Hf & Hm & Hl1).
      exists p', ((r, p) :: l1), l2, x. split_and!; [done..|].
      intros q pq [?|?]%elem_of_cons; [by simplify_eq|eauto].
    + intros q pq [?|?]%elem_of_cons; [by simplify_eq|eauto].
Qed.

Lemma Reload_regex e l :
  StronglySorted (not_after older) l →
  regex (index (Reload compile e l)) = omap compiled l.
Proof.
  intros Hl. cbn [Reload index regex]. rewrite build_index_regex. simpl.
  by apply sort_by_sorted_id, compiled_sorted.
Qed.

Lemma elem_of_compiled r p (l : list Rule) :
  (r, p) ∈ omap compiled l ↔ r ∈ l ∧ IsRegex r = true ∧ compile (SourcePath r) = Some p.
Proof.
  rewrite list_elem_of_omap. unfold compiled. split.
  - intros (q & Hq & Hc). destruct (IsRegex q) eqn:Hx; [|done].
    apply fmap_Some in Hc as (? & ? & ?). by simplify_eq.
  - intros (Hr & Hx & Hc). exists r. by rewrite Hx, Hc.
Qed.

(** Which of two rules serves a path both answer: a literal rule before a regex
    one, then the one created first. *)
Definition takes_precedence (r q : Rule) : Prop :=
  r = q ∨ (IsRegex r = false ∧ IsRegex q = true) ∨
  (IsRegex r = true ∧ IsRegex q = true ∧ (CreatedAt r ≤ CreatedAt q)%Z).

Lemma Match_literal rules l path r q :
  rules_ok rules → is_snapshot rules l → r ∈ l → IsRegex r = false → SourcePath r = path →
  q ∈ l → is_Some (rule_answer q path) → takes_precedence r q.
Proof.
  intros [_ Hu] Hl Hr Hx Hp Hq [m Hm]. unfold takes_precedence.
  destruct (IsRegex q) eqn:Hxq; [by right; left|left].
  unfold rule_answer in Hm. rewrite Hxq in Hm. case_decide as Hs; [|done].
  apply (elem_of_snapshot _ _ _ Hl) in Hr as [i Hi], Hq as [j Hj].
  assert (i = j) as -> by (eapply Hu; [done..|split; congruence]). congruence.
Qed.

Lemma Match_regex l r p l1 l2 path q :
  StronglySorted (not_after older) l →
  omap compiled l = l1 ++ (r, p) :: l2 →
  (∀ r' p', (r', p') ∈ l1 → find p' path = None) →
  (∀ r', r' ∈ l → IsRegex r' = false → SourcePath r' ≠ path) →
  q ∈ l → is_Some (rule_answer q path) → takes_precedence r q.
Proof.
  intros Hs Hl Hl1 Hlit Hq [m Hm]. unfold rule_answer in Hm.
  destruct (IsRegex q) eqn:Hxq; [|case_decide; [by destruct (Hlit q)|done]].
  apply bind_Some in Hm as (pq & Hcq & (x & Hf & _)%bind_Some).
  assert ((q, pq) ∈ omap compiled l) as Hin by by apply elem_of_compiled.
  assert (IsRegex r = true) as Hxr.
  { assert ((r, p) ∈ omap compiled l) as Hr by (rewrite Hl; set_solver).
    by apply elem_of_compiled in Hr as (_ & ? & _). }
  apply compiled_sorted in Hs. rewrite Hl in Hs, Hin.
  apply elem_of_app in Hin as [Hin|[Heq|Hin]%elem_of_cons].
  - by rewrite (Hl1 q pq Hin) in Hf.
  - left. congruence.
  - right. right. split_and!; [done..|].
    apply StronglySorted_app in Hs as (_ & _ & Hs).
    apply StronglySorted_inv in Hs as [_ Hs]. rewrite Forall_forall in Hs.
    specialize (Hs _ Hin). unfold not_after, older_regex, older, time_before in Hs.
    simpl in Hs. lia.
Qed.

(** After a reload, a path is answered by the rule of the store that takes
    precedence over all rules that answer it: the literal rule for the path if
    there is one, otherwise the earliest created regex rule that compiles and
    matches. The answer is that rule's own, its hit is recorded, and there is
    no answer exactly when no rule has one. *)
Theorem Match_serves_precedent (e : Engine P) rules l now path :
  rules_ok rules → is_snapshot rules l →
  match MatchPath find expand now (Reload compile e l) path with
  | (e', Some m) =>
      e' = recordHit now (Reload compile e l) (mt_RuleID m) ∧
      ∃ r, rules !! mt_RuleID m = Some r ∧ rule_answer r path = Some m ∧
        ∀ id q, rules !! id = Some q → is_Some (rule_answer q path) → takes_precedence r q
  | (e', None) =>
      e' = Reload compile e l ∧ ∀ id r, rules !! id = Some r → rule_answer r path = None
  end.
Proof.
  intros Hok Hl. pose proof (proj2 Hl) as Hs.
  assert (∀ r, r ∈ l → rules !! ID r = Some r) as Hget.
  { intros r [id Hr]%(elem_of_snapshot _ _ _ Hl). by destruct (proj1 Hok id r Hr) as [-> _]. }
  unfold MatchPath. rewrite (Reload_regex e l Hs).
  destruct (literal (index (Reload compile e l)) !! path) as [r|] eqn:E.
  - apply build_index_literal_Some in E as [(Hr & Hx & Hp)|?]; [|done].
    split; [done|]. exists r. split_and!; [by apply Hget| |].
    + unfold rule_answer. by rewrite Hx, decide_True.
    + intros id q Hq. eapply Match_literal; [done..|]. apply (elem_of_snapshot _ _ _ Hl). eauto.
  - apply build_index_literal_None in E as [_ Hlit].
    pose proof (scan_spec path (omap compiled l)) as Hscan.
    destruct (scan _ _ _ _) as [[r m]|].
    + destruct Hscan as (p & l1 & l2 & x & Heq & Hf & -> & Hl1). simpl. split; [done|].
      assert ((r, p) ∈ omap compiled l) as Hr by (rewrite Heq; set_solver).
      apply elem_of_compiled in Hr as (Hr & Hx & Hc).
      exists r. split_and!; [by apply Hget| |].
      * unfold rule_answer. by rewrite Hx, Hc; simpl; rewrite Hf.
      * intros id q Hq. eapply Match_regex; [done..|]. apply (elem_of_snapshot _ _ _ Hl). eauto.
    + split; [done|]. intros id r Hr. unfold rule_answer.
      assert (r ∈ l) as Hin by (apply (elem_of_snapshot _ _ _ Hl); eauto).
      destruct (IsRegex r) eqn:Hx; [|by rewrite decide_False by auto].
      destruct (compile (SourcePath r)) as [p|] eqn:Hc; [|done]. simpl.
      by rewrite (Hscan r p) by by apply elem_of_compiled.
Qed.
End matching.

(** ** Hit counting *)

Section hits.
Context {P M : Type}.
Context (compile : string → option P).
Context (find : P → string → option M).
Context (expand : P → string → string → M → string).

(** The store and the engine together, with the identifiers issued so far and
    the rules that answered so far. *)
Record site := mkSite {
  st_engine : Engine P;
  st_rules : Rules;
  st_issued : list nat;
  st_answered : list nat;
}.

Definition new_site : site := mkSite NewEngine ∅ [] [].

(** The identifier a match adds to the answered ones. *)
Definition answered_by (m : option Match) : list nat :=
  match m with Some m => [mt_RuleID m] | None => [] end.

(** One call. [uuid.New] does not repeat an identifier. *)
Inductive site_step : site → site → Prop :=
| step_Create e rules ids hits now id r :
    id ∉ ids →
    site_step (mkSite e rules ids hits)
      (mkSite e (Create now id rules r).1 (id :: ids) hits)
| step_Update e rules ids hits r :
    site_step (mkSite e rules ids hits) (mkSite e (UpdateRule rules r).1 ids hits)
| step_Delete e rules ids hits id :
    site_step (mkSite e rules ids hits) (mkSite e (DeleteRule rules id) ids hits)
| step_Reload e rules ids hits l :
    is_snapshot rules l →
    site_step (mkSite e rules ids hits) (mkSite (Reload compile e l) rules ids hits)
| step_Match e rules ids hits now path e' m :
    MatchPath find expand now e path = (e', m) →
    site_step (mkSite e rules ids hits) (mkSite e' rules ids (answered_by m ++ hits))
| step_Flush e rules ids hits ds :
    ds ≡ₚ deltas e →
    site_step (mkSite e rules ids hits)
      (mkSite (Flush e ds rules).1 (Flush e ds rules).2 ids hits).

Definition pending_count (e : Engine P) (id : nat) : Z :=
  match pending e !! id with Some (n, _) => n | None => 0 end.

Definition answers (l : list nat) (id : nat) : Z :=
  Z.of_nat (length (filter (λ i, i = id) l)).

(** Every rule an index can answer with. *)
Definition indexed (e : Engine P) (r : Rule) : Prop :=
  (∃ path, literal (index e) !! path = Some r) ∨ ∃ p, (r, p) ∈ regex (index e).

Definition counts_ok (e : Engine P) (rules : Rules) (hits : list nat) : Prop :=
  (∀ id, (0 ≤ pending_count e id ≤ answers hits id)%Z) ∧
  (∀ id r, rules !! id = Some r →
     (0 ≤ HitCount r)%Z ∧ (HitCount r + pending_count e id = answers hits id)%Z).

Definition site_ok (s : site) : Prop :=
  rules_ok (st_rules s) ∧
  (∀ id r, st_rules s !! id = Some r → id ∈ st_issued s) ∧
  (∀ r, indexed (st_engine s) r → ID r ∈ st_issued s) ∧
  (∀ id, id ∈ st_answered s → id ∈ st_issued s) ∧
  counts_ok (st_engine s) (st_rules s) (st_answered s).

(** The hits a list of deltas credits to a rule. *)
Definition credited (ds : list HitDelta) (id : nat) : Z :=
  foldr (λ d n, if decide (d_RuleID d = id) then d_Count d + n else n)%Z 0%Z ds.

Lemma credited_perm ds ds' id : ds ≡ₚ ds' → credited ds id = credited ds' id.
Proof. induction 1; simpl; repeat case_decide; try lia; congruence. Qed.

Lemma credited_nonneg ds id :
  Forall (λ d, 0 < d_Count d)%Z ds → (0 ≤ credited ds id)%Z.
Proof. induction 1; simpl; repeat case_decide; lia. Qed.

Lemma credited_cons d ds id :
  credited (d :: ds) id =
    ((if decide (d_RuleID d = id) then d_Count d else 0) + credited ds id)%Z.
Proof. cbn [credited foldr]. by case_decide. Qed.

Definition delta_of (kv : nat * (Z * Time)) : HitDelta := mkHitDelta kv.1 kv.2.1 kv.2.2.

Lemma credited_list id (l : list (nat * (Z * Time))) :
  NoDup l.*1 → (∀ kv, kv ∈ l → 0 ≤ kv.2.1)%Z →
  credited (delta_of <$> filter (λ kv, (0 < kv.2.1)%Z) l) id =
    match (list_to_map l : gmap nat (Z * Time)) !! id with Some (n, _) => n | None => 0%Z end.
Proof.
  induction l as [|[i [n t]] l IH]; intros Hnd Hp; [done|].
  rewrite fmap_cons in Hnd. apply NoDup_cons in Hnd as [Hi Hnd].
  specialize (IH Hnd ltac:(set_solver)).
  assert (0 ≤ n)%Z by (apply (Hp (i, (n, t))); set_solver).
  rewrite list_to_map_cons, filter_cons. cbn [fst snd] in *.
  assert (credited (delta_of <$> (if decide (0 < n)%Z
      then (i, (n, t)) :: filter (λ kv, (0 < kv.2.1)%Z) l
      else filter (λ kv, (0 < kv.2.1)%Z) l)) id =
    (if decide (i = id) then n else 0) +
      credited (delta_of <$> filter (λ kv, (0 < kv.2.1)%Z) l) id)%Z as ->.
  { destruct (decide (0 < n)%Z); [by rewrite fmap_cons, credited_cons|].
    case_decide; lia. }
  rewrite IH. case_decide as Hd; [subst i|].
  - rewrite lookup_insert_eq, (not_elem_of_list_to_map_1 l id Hi). lia.
  - by rewrite lookup_insert_ne.
Qed.

Lemma credited_deltas e id :
  (∀ i, 0 ≤ pending_count e i)%Z → credited (deltas e) id = pending_count e id.
Proof.
  intros Hpos. unfold deltas. rewrite credited_list, list_to_map_to_list.
  - done.
  - apply NoDup_fst_map_to_list.
  - intros [i [n t]] Hi%elem_of_map_to_list. specialize (Hpos i).
    unfold pending_count in Hpos. by rewrite Hi in Hpos.
Qed.

Lemma deltas_positive (e : Engine P) : Forall (λ d, 0 < d_Count d)%Z (deltas e).
Proof.
  unfold deltas. apply Forall_fmap, Forall_forall.
  intros kv [Hkv _]%list_elem_of_filter. exact Hkv.
Qed.

(** A positive delta moves its own rule's counter and nothing else. *)
Lemma increment_lookup rules d id :
  (0 < d_Count d)%Z →
  match rules !! id with
  | None => increment rules d !! id = None
  | Some r => ∃ r', increment rules d !! id = Some r' ∧
      HitCount r' = if decide (d_RuleID d = id) then wrap64 (HitCount r + d_Count d)
                    else HitCount r
  end.
Proof.
  intros Hd. unfold increment. rewrite (proj2 (Z.leb_gt _ _) Hd).
  destruct (rules !! id) as [r|] eqn:Er, (rules !! d_RuleID d) as [q|] eqn:Eq.
  - destruct (decide (d_RuleID d = id)) as [Heq|Hne].
    + rewrite Heq in *. rewrite Er in Eq. injection Eq as <-. rewrite lookup_insert_eq. eauto.
    + rewrite lookup_insert_ne by done. eauto.
  - rewrite decide_False by congruence. eauto.
  - rewrite lookup_insert_ne by congruence. done.
  - done.
Qed.

(** Crediting deltas adds to each rule what the deltas hold for it. *)
Lemma BulkIncrementHits_lookup rules ds id :
  Forall (λ d, 0 < d_Count d)%Z ds →
  match rules !! id with
  | None => BulkIncrementHits rules ds !! id = None
  | Some r => (0 ≤ HitCount r)%Z → (HitCount r + credited ds id ≤ int64_max)%Z →
      ∃ r', BulkIncrementHits rules ds !! id = Some r' ∧
        HitCount r' = (HitCount r + credited ds id)%Z
  end.
Proof.
  unfold BulkIncrementHits. intros Hds. revert rules.
  induction Hds as [|d ds Hd Hds IH]; intros rules.
  { destruct (rules !! id) as [r|] eqn:E; [|exact E]. intros _ _. exists r. split; [exact E|].
    unfold credited. simpl. lia. }
  cbn [foldl]. specialize (IH (increment rules d)). rewrite credited_cons.
  pose proof (credited_nonneg ds id Hds) as Hnn.
  pose proof (increment_lookup rules d id Hd) as Hi.
  destruct (rules !! id) as [r|]; [|by rewrite Hi in IH].
  destruct Hi as (r1 & Hr1 & Hc1). rewrite Hr1 in IH. intros Hr Hmax.
  assert (HitCount r1 = HitCount r + if decide (d_RuleID d = id) then d_Count d else 0)%Z as Hc.
  { rewrite Hc1. case_decide; [|lia]. apply wrap64_id. unfold in_int64, int64_min. lia. }
  destruct IH as (r' & ? & ?); [case_decide; lia..|]. exists r'. split; [done|lia].
Qed.

Lemma answers_cons i l id :
  answers (i :: l) id = ((if decide (i = id) then 1 else 0) + answers l id)%Z.
Proof. unfold answers. rewrite filter_cons. case_decide; simpl; lia. Qed.

Lemma answers_none l id : id ∉ l → answers l id = 0%Z.
Proof. intros Hl. unfold answers. rewrite filter_none; [done|]. by intros y Hy ->. Qed.

Lemma answers_length l id : (answers l id ≤ Z.of_nat (length l))%Z.
Proof. unfold answers. apply Nat2Z.inj_le, length_filter. Qed.

Lemma pending_recordHit now (e : Engine P) id i :
  (0 ≤ pending_count e id < int64_max)%Z →
  pending_count (recordHit now e id) i =
    ((if decide (id = i) then 1 else 0) + pending_count e i)%Z.
Proof.
  unfold pending_count, recordHit. simpl. intros Hr. case_decide as Hd; [subst i|].
  - rewrite lookup_insert_eq. destruct (pending e !! id) as [[n t]|]; [|done].
    rewrite wrap64_id; [lia|]. unfold in_int64, int64_min. lia.
  - by rewrite lookup_insert_ne.
Qed.

(** What a match does: it answers with an indexed rule and counts it. *)
Lemma MatchPath_step now e path e' m :
  MatchPath find expand now e path = (e', m) →
  match m with
  | None => e' = e
  | Some m => ∃ r, indexed e r ∧ mt_RuleID m = ID r ∧ e' = recordHit now e (ID r)
  end.
Proof.
  unfold MatchPath. destruct (literal (index e) !! path) as [r|] eqn:E.
  - intros [= <- <-]. exists r. split_and!; [left; eauto|done..].
  - pose proof (scan_spec find expand path (regex (index e))) as Hs.
    destruct (scan _ _ _ _) as [[r m']|]; intros [= <- <-]; [|done].
    destruct Hs as (p & l1 & l2 & x & Heq & _ & -> & _). exists r.
    split_and!; [right|done..]. exists p. rewrite Heq. set_solver.
Qed.

Lemma indexed_Reload rules l e r :
  is_snapshot rules l → indexed (Reload compile e l) r → ∃ id, rules !! id = Some r.
Proof.
  intros Hl Hr. apply (elem_of_snapshot _ _ _ Hl). destruct Hr as [[path Hr]|[p Hr]].
  - by apply build_index_literal_Some in Hr as [(? & _)|?].
  - rewrite (Reload_regex compile e l (proj2 Hl)) in Hr. by apply elem_of_compiled in Hr as [? _].
Qed.

Lemma site_ok_Create now id e rules ids hits r :
  id ∉ ids → site_ok (mkSite e rules ids hits) →
  site_ok (mkSite e (Create now id rules r).1 (id :: ids) hits).
Proof.
  intros Hid (Hok & Hrules & Hidx & Hans & Hp & Hc). cbn [st_engine st_rules st_issued st_answered] in *.
  assert (answers hits id = 0%Z) as H0 by (apply answers_none; intros ?%Hans; done).
  unfold site_ok, counts_ok. cbn [st_engine st_rules st_issued st_answered].
  split_and!; [by apply rules_ok_Create|..].
  - intros i q. unfold Create. destruct (validateForCreate r); [set_solver|].
    case_decide; [set_solver|]. simpl. intros [[<- _]|[_ Hq]]%lookup_insert_Some; set_solver.
  - set_solver.
  - set_solver.
  - done.
  - intros i q. unfold Create. destruct (validateForCreate r); [apply Hc|].
    case_decide; [apply Hc|]. simpl. intros [[<- <-]|[_ Hq]]%lookup_insert_Some; [|by apply Hc].
    simpl. specialize (Hp id). lia.
Qed.

Lemma site_ok_Update e rules ids hits r :
  site_ok (mkSite e rules ids hits) → site_ok (mkSite e (UpdateRule rules r).1 ids hits).
Proof.
  intros (Hok & Hrules & Hidx & Hans & Hp & Hc). cbn [st_engine st_rules st_issued st_answered] in *.
  assert (∀ i q, (UpdateRule rules r).1 !! i = Some q →
    ∃ q', rules !! i = Some q' ∧ HitCount q = HitCount q') as Hold.
  { intros i q. unfold UpdateRule. destruct (validateForCreate r); [eauto|].
    case_decide; [eauto|]. destruct (rules !! ID r) as [q'|] eqn:E; [|eauto].
    case_decide; [eauto|]. simpl. intros [[<- <-]|[_ Hq]]%lookup_insert_Some; eauto. }
  unfold site_ok, counts_ok. cbn [st_engine st_rules st_issued st_answered].
  split_and!; [by apply rules_ok_Update| |done..|].
  - intros i q (q' & Hq' & _)%Hold. eauto.
  - intros i q (q' & Hq' & ->)%Hold. eauto.
Qed.

Lemma site_ok_Delete e rules ids hits id :
  site_ok (mkSite e rules ids hits) → site_ok (mkSite e (DeleteRule rules id) ids hits).
Proof.
  intros (Hok & Hrules & Hidx & Hans & Hp & Hc). cbn [st_engine st_rules st_issued st_answered] in *.
  unfold site_ok, counts_ok. cbn [st_engine st_rules st_issued st_answered].
  split_and!; [by apply rules_ok_Delete| |done..|]; unfold DeleteRule.
  - intros i q [_ Hq]%lookup_delete_Some. eauto.
  - intros i q [_ Hq]%lookup_delete_Some. eauto.
Qed.

Lemma site_ok_Match e rules ids hits now path e' m :
  MatchPath find expand now e path = (e', m) →
  (Z.of_nat (length (answered_by m ++ hits)) ≤ int64_max)%Z →
  site_ok (mkSite e rules ids hits) → site_ok (mkSite e' rules ids (answered_by m ++ hits)).
Proof.
  intros Hm Hmax Hsite. apply MatchPath_step in Hm.
  destruct m as [m|]; [|by subst e'].
  destruct Hm as (r & Hr & Hid & ->). cbn [answered_by app] in *. rewrite Hid in *. clear m Hid.
  destruct Hsite as (Hok & Hrules & Hidx & Hans & Hp & Hc).
  cbn [st_engine st_rules st_issued st_answered length] in *.
  pose proof (answers_length hits (ID r)). pose proof (Hp (ID r)).
  unfold site_ok, counts_ok. cbn [st_engine st_rules st_issued st_answered].
  split_and!; [done..| | |].
  - intros id [->|?]%elem_of_cons; eauto.
  - intros id. rewrite pending_recordHit, answers_cons by lia. specialize (Hp id).
    case_decide; lia.
  - intros id q Hq. rewrite pending_recordHit, answers_cons by lia.
    destruct (Hc id q Hq). case_decide; lia.
Qed.

Lemma site_ok_Flush e rules ids hits ds :
  ds ≡ₚ deltas e → (Z.of_nat (length hits) ≤ int64_max)%Z →
  site_ok (mkSite e rules ids hits) →
  site_ok (mkSite (Flush e ds rules).1 (Flush e ds rules).2 ids hits).
Proof.
  intros Hds Hmax (Hok & Hrules & Hidx & Hans & Hp & Hc).
  cbn [st_engine st_rules st_issued st_answered] in *.
  assert (∀ id, credited ds id = pending_count e id) as Hcr.
  { intros id. rewrite (credited_perm _ _ _ Hds). apply credited_deltas. intros i. apply Hp. }
  assert (Forall (λ d, 0 < d_Count d)%Z ds) as Hpos by (rewrite Hds; apply deltas_positive).
  assert (∀ id q, BulkIncrementHits rules ds !! id = Some q →
    ∃ q', rules !! id = Some q' ∧ HitCount q = answers hits id) as Hnew.
  { intros id q Hq. pose proof (BulkIncrementHits_lookup rules ds id Hpos) as Hl.
    pose proof (answers_length hits id). destruct (rules !! id) as [q'|] eqn:E; [|congruence].
    destruct (Hc id q' E). rewrite Hcr in Hl. destruct Hl as (q'' & ? & ?); [lia..|].
    exists q'. split; [done|]. simplify_eq. lia. }
  unfold site_ok, counts_ok. cbn [st_engine st_rules st_issued st_answered Flush fst snd].
  split_and!; [by apply rules_ok_hits| |done..| |].
  - intros id q (q' & ? & _)%Hnew. eauto.
  - intros id. unfold pending_count. simpl. rewrite lookup_empty. unfold answers. lia.
  - intros id q (q' & _ & ->)%Hnew. unfold pending_count. simpl. rewrite lookup_empty.
    unfold answers. lia.
Qed.

Lemma site_ok_step s s' :
  site_step s s' → (Z.of_nat (length (st_answered s')) ≤ int64_max)%Z → site_ok s → site_ok s'.
Proof.
  intros [e rules ids hits now id r Hid|e rules ids hits r|e rules ids hits id
    |e rules ids hits l Hl|e rules ids hits now path e' m Hm|e rules ids hits ds Hds] Hmax Hs.
  - by apply site_ok_Create.
  - by apply site_ok_Update.
  - by apply site_ok_Delete.
  - destruct Hs as (Hok & Hrules & Hidx & Hans & Hc). split_and!; try done.
    intros r [id Hr]%(indexed_Reload _ _ _ _ Hl). simpl.
    destruct (proj1 Hok id r Hr) as [-> _]. by apply (Hrules id r).
  - by apply (site_ok_Match _ _ _ _ _ _ _ _ Hm).
  - by apply site_ok_Flush.
Qed.

Lemma site_step_grows s s' : site_step s s' → length (st_answered s) ≤ length (st_answered s').
Proof. intros []; simpl; rewrite ?length_app; lia. Qed.

Lemma site_ok_run s :
  rtc site_step new_site s → (Z.of_nat (length (st_answered s)) ≤ int64_max)%Z → site_ok s.
Proof.
  revert s. apply (rtc_ind_r (R := site_step)
    (λ s, (Z.of_nat (length (st_answered s)) ≤ int64_max)%Z → site_ok s) new_site);
    [intros _|intros s s' Hrun Hstep IH Hmax].
  - unfold site_ok, counts_ok, indexed, rules_ok, pending_count. simpl.
    split_and!; set_solver.
  - apply (site_ok_step s); [done..|]. apply IH.
    pose proof (site_step_grows _ _ Hstep). lia.
Qed.

(** However store calls, reloads, matches and flushes follow each other,
    the stored hit count of every rule plus its pending hits is the number of
    times a match answered with it: an edit keeps the count, a flush moves it,
    a reload keeps the pending part, nothing is counted twice. (Fewer than
    2^63 answers, so that no counter wraps.) *)
Theorem hits_conserved s id r :
  rtc site_step new_site s → (Z.of_nat (length (st_answered s)) ≤ int64_max)%Z →
  st_rules s !! id = Some r →
  (HitCount r + pending_count (st_engine s) id = answers (st_answered s) id)%Z ∧
  (0 ≤ HitCount r)%Z ∧ (0 ≤ pending_count (st_engine s) id)%Z.
Proof.
  intros Hrun Hmax Hr. destruct (site_ok_run s Hrun Hmax) as (_ & _ & _ & _ & Hp & Hc).
  destruct (Hc id r Hr). destruct (Hp id). done.
Qed.
End hits.

(** ** Middleware *)

Definition MaxHops : Z := 5.
Definition HeaderHopCount : string := "X-GoNext-Redirect-Hops".
Definition LoopDetectedBody : string := "Redirect loop detected." +:+ String (Ascii.ascii_of_nat 10) "".

Definition writeLoopDetected (w : Writer) : Writer :=
  WriteBody LoopDetectedBody
    (WriteHeader 508
      (Set_ "Content-Length" (strconv.Itoa (Z.of_nat (String.length LoopDetectedBody)))
        (Set_ "Cache-Control" "no-store"
          (Set_ "Content-Type" "text/plain; charset=utf-8" w)))).

(** The hop count a request carries. *)
Definition hops_of (r : Request) : Z :=
  let v := header_get HeaderHopCount (req_header r) in
  if decide (v = "") then 0
  else match strconv.Atoi v with
       | Some n => if (0 <? n)%Z then n else 0
       | None => 0
       end.

Section middleware.
Context {E : Type}.
Context (match_path : E → string → E * option Match).

(** [Middleware]; [next] is the downstream handler. The deferred [Del] is the
    last action on every path. *)
Definition Middleware (next : E → Writer → Request → E * Writer)
    (e : E) (w : Writer) (r : Request) : E * Writer :=
  let hops := hops_of r in
  match match_path e (req_path r) with
  | (e, None) => let '(e, w) := next e w r in (e, Del HeaderHopCount w)
  | (e, Some m) =>
      let hops := wrap64 (hops + 1) in
      if (MaxHops <? hops)%Z then (e, Del HeaderHopCount (writeLoopDetected w))
      else
        let w := Set_ HeaderHopCount (strconv.Itoa hops) w in
        let w := Set_ "Location" (mt_Destination m) w in
        let w := if ((mt_Status m =? 301) || (mt_Status m =? 308))%Z then
                   if decide (header_get "Cache-Control" (hdr w) = "")
                   then Set_ "Cache-Control" "public, max-age=3600" w else w
                 else w in
        (e, Del HeaderHopCount (WriteHeader (mt_Status m) w))
  end.

(** A follow-up internal request: the sent location, the sent hop count. *)
Definition reenter (h : Header) : Request :=
  mkRequest (header_get "Location" h) {[HeaderHopCount := header_get HeaderHopCount h]}.

Inductive chain_end := Served | LoopDetected.

Definition fresh_writer : Writer := mkWriter ∅ None "".

(** Follow the redirects a request meets, [n] requests at most. *)
Fixpoint follow (next : E → Writer → Request → E * Writer) (n : nat) (e : E) (r : Request)
    : option chain_end :=
  match n with
  | 0 => None
  | S n =>
      match (match_path e (req_path r)).2 with
      | None => Some Served
      | Some _ =>
          let '(e', w) := Middleware next e fresh_writer r in
          match wire w with
          | Some (status, h) => if decide (status = 508%Z) then Some LoopDetected
                                else follow next n e' (reenter h)
          | None => None
          end
      end
  end.

(** The header a redirect sends. *)
Definition redirect_header (h : Header) (m : Match) (hops : Z) : Header :=
  let h := <["Location" := mt_Destination m]> (<[HeaderHopCount := strconv.Itoa hops]> h) in
  if decide ((mt_Status m = 301%Z ∨ mt_Status m = 308%Z) ∧ header_get "Cache-Control" h = "")
  then <["Cache-Control" := "public, max-age=3600"]> h else h.

Lemma hops_of_range r : (0 ≤ hops_of r ≤ int64_max)%Z.
Proof.
  unfold hops_of. case_decide; [unfold int64_max; lia|].
  destruct (strconv.Atoi _) as [n|] eqn:Hn; [|unfold int64_max; lia].
  apply Atoi_range in Hn. unfold in_int64, int64_max in *. destruct (0 <? n)%Z eqn:?; lia.
Qed.

(** What a match makes of a response not yet sent. *)
Lemma Middleware_match next e e1 m w r :
  wire w = None → match_path e (req_path r) = (e1, Some m) →
  (Middleware next e w r).1 = e1 ∧
  if decide (MaxHops ≤ hops_of r < int64_max)%Z then
    body (Middleware next e w r).2 = body w +:+ LoopDetectedBody ∧
    ∃ h, wire (Middleware next e w r).2 = Some (508%Z, h) ∧
      h !! "Cache-Control" = Some "no-store" ∧ h !! "Location" = hdr w !! "Location"
  else
    body (Middleware next e w r).2 = body w ∧
    wire (Middleware next e w r).2 =
      Some (mt_Status m, redirect_header (hdr w) m (wrap64 (hops_of r + 1))).
Proof.
  intros Hw Hm. unfold Middleware. rewrite Hm. pose proof (hops_of_range r) as Hr.
  assert ((MaxHops <? wrap64 (hops_of r + 1))%Z = bool_decide (MaxHops ≤ hops_of r < int64_max)%Z)
    as ->.
  { unfold MaxHops. destruct (decide (hops_of r = int64_max)) as [->|Hne]; [done|].
    rewrite wrap64_id by (unfold in_int64, int64_min; lia).
    case_bool_decide; lia. }
  case_bool_decide as Hd; (split; [done|]).
  - rewrite decide_True by done. split; [done|]. simpl. rewrite Hw. eexists. split; [done|].
    split; [by simplify_map_eq|]. by simplify_map_eq.
  - rewrite decide_False by done. split; [by repeat case_match|].
    unfold redirect_header. cbn [snd Del WriteHeader wire hdr].
    destruct ((mt_Status m =? 301) || (mt_Status m =? 308))%Z eqn:Hs.
    + assert (mt_Status m = 301%Z ∨ mt_Status m = 308%Z) by lia.
      case_decide; simpl; rewrite Hw; [by rewrite decide_True|by rewrite decide_False by tauto].
    + simpl. rewrite Hw, decide_False by lia. done.
Qed.

(** The middleware on every branch. Without a rule the downstream handler
    answers. With one, the downstream handler is not called: a request that
    already carries [MaxHops] hops gets the 508, one below that the rule's
    status and destination. The header that goes out with a redirect still
    holds the hop count: the deferred [Del] runs after it was sent. *)
Theorem Middleware_outcome next e w r :
  wire w = None →
  match match_path e (req_path r) with
  | (e1, None) => Middleware next e w r =
      ((next e1 w r).1, Del HeaderHopCount (next e1 w r).2)
  | (e1, Some m) =>
      (Middleware next e w r).1 = e1 ∧
      if decide (MaxHops ≤ hops_of r < int64_max)%Z then
        body (Middleware next e w r).2 = body w +:+ LoopDetectedBody ∧
        ∃ h, wire (Middleware next e w r).2 = Some (508%Z, h) ∧
          h !! "Cache-Control" = Some "no-store" ∧ h !! "Location" = hdr w !! "Location"
      else
        body (Middleware next e w r).2 = body w ∧
        wire (Middleware next e w r).2 =
          Some (mt_Status m, redirect_header (hdr w) m (wrap64 (hops_of r + 1))) 
  end.
Proof.
  intros Hw. destruct (match_path e (req_path r)) as [e1 [m|]] eqn:Hm.
  - by apply Middleware_match.
  - unfold Middleware. rewrite Hm. by destruct (next e1 w r).
Qed.

Lemma hops_of_reenter h m k :
  (0 < k ≤ int64_max)%Z → hops_of (reenter (redirect_header h m k)) = k.
Proof.
  intros Hk. unfold hops_of, reenter. cbn [req_header].
  assert (header_get HeaderHopCount {[HeaderHopCount :=
    header_get HeaderHopCount (redirect_header h m k)]} = strconv.Itoa k) as ->.
  { unfold header_get, redirect_header. case_decide; by simplify_map_eq. }
  destruct (Itoa_digits k) as (_ & _ & Hne); [lia|].
  rewrite decide_False by exact Hne. rewrite Atoi_Itoa by lia.
  by rewrite (proj2 (Z.ltb_lt _ _)) by lia.
Qed.

Lemma follow_mono next n k e r x :
  n ≤ k → follow next n e r = Some x → follow next k e r = Some x.
Proof.
  revert k e r. induction n as [|n IH]; intros [|k] e r Hle; [done|done|lia|]. cbn [follow].
  destruct (match_path e (req_path r)).2; [|done].
  destruct (Middleware next e fresh_writer r) as [e' w].
  destruct (wire w) as [[st h]|]; [|done]. case_decide; [done|]. apply IH. lia.
Qed.

Lemma follow_ends next n e r :
  0 < n → (MaxHops < hops_of r + Z.of_nat n)%Z → (hops_of r < int64_max)%Z →
  is_Some (follow next n e r).
Proof.
  revert e r. induction n as [|n IH]; intros e r Hpos Hn Hmax; [lia|]. cbn [follow].
  pose proof (hops_of_range r) as Hr. unfold MaxHops in *.
  destruct (match_path e (req_path r)) as [e1 [m|]] eqn:Hm; [|done]. cbn [snd].
  pose proof (Middleware_match next e e1 m fresh_writer r eq_refl Hm) as [_ Hout].
  destruct (Middleware next e fresh_writer r) as [e2 w]. cbn [snd] in Hout.
  case_decide as Hd.
  - destruct Hout as (_ & h & -> & _). by rewrite decide_True.
  - destruct Hout as [_ ->]. case_decide; [done|].
    unfold MaxHops in *. rewrite wrap64_id by (unfold in_int64, int64_min, int64_max in *; lia).
    assert (0 < hops_of r + 1 ≤ int64_max)%Z by (unfold int64_max in *; lia).
    apply IH; rewrite ?hops_of_reenter by done; unfold int64_max in *; lia.
Qed.

(** Internal re-entry always ends: whatever the rules say, a request that
    starts without a hop count meets a path without a rule or the 508 within
    [MaxHops + 1] requests, and longer patience changes nothing. *)
Theorem redirect_chain_ends next n e r :
  hops_of r = 0%Z → (MaxHops < Z.of_nat n)%Z →
  is_Some (follow next n e r) ∧ follow next n e r = follow next 6 e r.
Proof.
  intros H0 Hn. assert (is_Some (follow next 6 e r)) as H6
    by (apply follow_ends; rewrite ?H0; unfold MaxHops, int64_max; lia).
  assert (follow next n e r = follow next 6 e r) as Heq; [|by rewrite Heq].
  destruct H6 as [x Hx]. rewrite Hx. apply (follow_mono next 6); [|exact Hx].
  unfold MaxHops in Hn. lia.
Qed.
End middleware.

(** ** Concrete runs

    Patterns are prefixes here; the pattern starting with an open parenthesis
    does not compile. *)
Module Demo.
Definition compile (s : string) : option string :=
  if strings.HasPrefix s "(" then None else Some s.
Definition find (p path : string) : option unit :=
  if strings.HasPrefix path p then Some () else None.
Definition expand (p dst path : string) (m : unit) : string := dst.

Definition rule (src dst : string) (status : Z) (re : bool) : Rule :=
  mkRule 0 src dst status re 0 time_zero time_zero None.

Definition store : Rules :=
  (Create 30 3 (Create 20 2 (Create 10 1 ∅ (rule "/old" "/new" 301 false)).1
    (rule "/blog" "/news" 302 true)).1 (rule "(" "/never" 302 true)).1.

Definition engine : Engine string := Reload compile NewEngine (Snapshot store).

Lemma store_ok : rules_ok store.
Proof. repeat apply rules_ok_Create. split; intros; by simplify_map_eq. Qed.

Definition run (path : string) := (MatchPath find expand 40 engine path).2.
Definition quiet (e : Engine string) (w : Writer) (r : Request) : Engine string * Writer :=
  (e, WriteHeader 200 w).

(** A rule that points to itself. *)
Definition loop (e : unit) (path : string) : unit * option Match :=
  (e, Some (mkMatch 1 "/a" 302 false)).
Definition quiet_loop (e : unit) (w : Writer) (r : Request) : unit * Writer := (e, w).
End Demo.

Lemma Match_serves_precedent_witness :
  (Demo.run "/old" = Some (mkMatch 1 "/new" 301 false) ∧
   Demo.run "/blog/x" = Some (mkMatch 2 "/news" 302 true) ∧ Demo.run "/" = None) ∧
  ∃ r, Demo.store !! 2 = Some r ∧
    ∀ id q, Demo.store !! id = Some q →
      is_Some (rule_answer Demo.compile Demo.find Demo.expand q "/blog/x") →
      takes_precedence r q.
Proof.
  split; [vm_compute; done|].
  pose proof (Match_serves_precedent Demo.compile Demo.find Demo.expand NewEngine Demo.store
    (Snapshot Demo.store) 40 "/blog/x" Demo.store_ok (Snapshot_is_snapshot _)) as Hm.
  assert (MatchPath Demo.find Demo.expand 40 (Reload Demo.compile NewEngine (Snapshot Demo.store))
      "/blog/x" = (recordHit 40 Demo.engine 2, Some (mkMatch 2 "/news" 302 true))) as E
    by (vm_compute; reflexivity).
  rewrite E in Hm. destruct Hm as (_ & r & Hr & _ & Hq). exists r. split; [exact Hr|exact Hq].
Defined.

(** One rule, one hit, a flush, a second hit. *)
Definition Demo_site : site :=
  let e1 := (MatchPath Demo.find Demo.expand 40 Demo.engine "/old").1 in
  let f := Flush e1 (deltas e1) Demo.store in
  mkSite (MatchPath Demo.find Demo.expand 50 f.1 "/old").1 f.2 [3; 2; 1] [1; 1].

Lemma Demo_site_reachable :
  rtc (site_step Demo.compile Demo.find Demo.expand) new_site Demo_site.
Proof.
  eapply rtc_l; [apply (step_Create _ _ _ _ _ _ _ 10 1 (Demo.rule "/old" "/new" 301 false)); set_solver|].
  eapply rtc_l; [apply (step_Create _ _ _ _ _ _ _ 20 2 (Demo.rule "/blog" "/news" 302 true)); set_solver|].
  eapply rtc_l; [apply (step_Create _ _ _ _ _ _ _ 30 3 (Demo.rule "(" "/never" 302 true)); set_solver|].
  eapply rtc_l; [apply (step_Reload _ _ _ _ _ _ _ (Snapshot Demo.store)), Snapshot_is_snapshot|].
  eapply rtc_l; [apply (step_Match _ _ _ _ _ _ _ 40 "/old"), surjective_pairing|].
  eapply rtc_l; [apply step_Flush; reflexivity|].
  eapply rtc_l; [apply (step_Match _ _ _ _ _ _ _ 50 "/old"), surjective_pairing|].
  apply rtc_refl.
Qed.

Lemma hits_conserved_witness :
  ∃ r, st_rules Demo_site !! 1 = Some r ∧ HitCount r = 1%Z ∧
    (HitCount r + pending_count (st_engine Demo_site) 1 = answers (st_answered Demo_site) 1)%Z.
Proof.
  eexists. split; [vm_compute; reflexivity|]. split; [reflexivity|].
  apply (hits_conserved Demo.compile Demo.find Demo.expand Demo_site 1);
    [exact Demo_site_reachable|vm_compute; discriminate|vm_compute; reflexivity].
Defined.

Lemma Middleware_outcome_witness :
  let r := mkRequest "/old" ∅ in
  let w := (Middleware (MatchPath Demo.find Demo.expand 40) Demo.quiet Demo.engine fresh_writer r).2 in
  wire w = Some (301%Z, redirect_header ∅ (mkMatch 1 "/new" 301 false) 1) ∧
  hdr w !! HeaderHopCount = None ∧
  (∃ h, wire w = Some (301%Z, h) ∧ h !! HeaderHopCount = Some "1").
Proof.
  intros r w.
  pose proof (Middleware_outcome (MatchPath Demo.find Demo.expand 40) Demo.quiet Demo.engine
    fresh_writer r eq_refl) as Ho.
  assert (MatchPath Demo.find Demo.expand 40 Demo.engine (req_path r) =
      (recordHit 40 Demo.engine 1, Some (mkMatch 1 "/new" 301 false))) as E
    by (vm_compute; reflexivity).
  rewrite E in Ho. destruct Ho as [_ Ho].
  assert (hops_of r = 0%Z) as H0 by (vm_compute; reflexivity).
  rewrite H0, decide_False in Ho by (unfold MaxHops; lia). destruct Ho as [_ Ho].
  split; [exact Ho|]. split; [vm_compute; reflexivity|].
  eexists. split; [exact Ho|]. vm_compute. reflexivity.
Defined.

Lemma redirect_chain_ends_witness :
  follow Demo.loop Demo.quiet_loop 9 () (mkRequest "/a" ∅) = Some LoopDetected.
Proof.
  assert (hops_of (mkRequest "/a" ∅) = 0%Z) as H0 by (vm_compute; reflexivity).
  assert (MaxHops < Z.of_nat 9)%Z as H9 by reflexivity.
  destruct (redirect_chain_ends Demo.loop Demo.quiet_loop 9 () (mkRequest "/a" ∅) H0 H9)
    as [_ Heq].
  transitivity (follow Demo.loop Demo.quiet_loop 6 () (mkRequest "/a" ∅)); [exact Heq|].
  vm_compute. reflexivity.
Defined.

(** An integer's worth of hops in the request wraps and passes the loop guard. *)
Example hop_count_wraps :
  follow Demo.loop Demo.quiet_loop 1 ()
    (mkRequest "/a" {[HeaderHopCount := "9223372036854775807"]}) = None.
Proof. vm_compute. reflexivity. Qed.
