(* ===== verification/Policy.v ===== *)
(** * Roles and capabilities (packages/go/policy)

    The capability slugs, the default role table, the in-memory policy, the
    capability registry and the [Require] middleware. Registry calls hold its
    mutex and are single steps. *)
From S2P Require Import Prelude GoStrings Http.

Abbreviation Capability := string (only parsing).
Abbreviation Role := string (only parsing).
Abbreviation CapabilitySet := (gset string) (only parsing).

(** ** Slugs *)

Definition CapRead : Capability := "read".
Definition CapReadPrivatePosts : Capability := "read_private_posts".
Definition CapEditPosts : Capability := "edit_posts".
Definition CapEditPublishedPosts : Capability := "edit_published_posts".
Definition CapEditOthersPosts : Capability := "edit_others_posts".
Definition CapEditPrivatePosts : Capability := "edit_private_posts".
Definition CapDeletePosts : Capability := "delete_posts".
Definition CapDeletePublishedPosts : Capability := "delete_published_posts".
Definition CapDeleteOthersPosts : Capability := "delete_others_posts".
Definition CapDeletePrivatePosts : Capability := "delete_private_posts".
Definition CapPublishPosts : Capability := "publish_posts".
Definition CapEditPages : Capability := "edit_pages".
Definition CapEditPublishedPages : Capability := "edit_published_pages".
Definition CapEditOthersPages : Capability := "edit_others_pages".
Definition CapEditPrivatePages : Capability := "edit_private_pages".
Definition CapDeletePages : Capability := "delete_pages".
Definition CapDeletePublishedPages : Capability := "delete_published_pages".
Definition CapDeleteOthersPages : Capability := "delete_others_pages".
Definition CapDeletePrivatePages : Capability := "delete_private_pages".
Definition CapPublishPages : Capability := "publish_pages".
Definition CapReadPrivatePages : Capability := "read_private_pages".
Definition CapManageCategories : Capability := "manage_categories".
Definition CapManageTags : Capability := "manage_tags".
Definition CapUploadFiles : Capability := "upload_files".
Definition CapEditOthersMedia : Capability := "edit_others_media".
Definition CapListUsers : Capability := "list_users".
Definition CapCreateUsers : Capability := "create_users".
Definition CapEditUsers : Capability := "edit_users".
Definition CapDeleteUsers : Capability := "delete_users".
Definition CapPromoteUsers : Capability := "promote_users".
Definition CapManageOptions : Capability := "manage_options".
Definition CapManageInstall : Capability := "manage_install".
Definition CapSystemRead : Capability := "system_read".
Definition CapInstallPlugins : Capability := "install_plugins".
Definition CapManagePlugins : Capability := "manage_plugins".
Definition CapActivatePlugins : Capability := "activate_plugins".
Definition CapManagePluginSettings : Capability := "manage_plugin_settings".
Definition CapInstallThemes : Capability := "install_themes".
Definition CapManageThemes : Capability := "manage_themes".
Definition CapSwitchThemes : Capability := "switch_themes".
Definition CapEditThemes : Capability := "edit_themes".
Definition CapThemeEditParts : Capability := "theme.edit_parts".
Definition CapModerateComments : Capability := "moderate_comments".
Definition CapEditComment : Capability := "edit_comment".
Definition CapJobsAdmin : Capability := "jobs.admin".
Definition CapMediaUpload : Capability := "media.upload".
Definition CapMediaRead : Capability := "media.read".
Definition CapMediaDelete : Capability := "media.delete".
Definition CapWebhooksManage : Capability := "webhooks.manage".
Definition CapThemeCustomize : Capability := "theme.customize".

Definition RoleSubscriber : Role := "subscriber".
Definition RoleContributor : Role := "contributor".
Definition RoleAuthor : Role := "author".
Definition RoleEditor : Role := "editor".
Definition RoleAdmin : Role := "admin".
Definition RoleSuperAdmin : Role := "super_admin".

Definition BuiltinRoles : list Role :=
  [RoleSubscriber; RoleContributor; RoleAuthor; RoleEditor; RoleAdmin; RoleSuperAdmin].

(** ** Sets *)

Definition NewCapabilitySet (caps : list Capability) : CapabilitySet := list_to_set caps.
Definition Has (s : CapabilitySet) (c : Capability) : bool := bool_decide (c ∈ s).
Definition Add (s : CapabilitySet) (caps : list Capability) : CapabilitySet :=
  foldl (λ s c, {[c]} ∪ s) s caps.
Definition Union (s t : CapabilitySet) : CapabilitySet := s ∪ t.

(** ** Default roles *)

Definition subscriber_caps : CapabilitySet :=
  NewCapabilitySet
    [CapRead].

Definition contributor_caps : CapabilitySet :=
  Union subscriber_caps (NewCapabilitySet
    [CapEditPosts; CapDeletePosts]).

Definition author_caps : CapabilitySet :=
  Union contributor_caps (NewCapabilitySet
    [CapPublishPosts; CapEditPublishedPosts; CapDeletePublishedPosts; CapUploadFiles;
     CapMediaUpload; CapMediaRead]).

Definition editor_caps : CapabilitySet :=
  Union author_caps (NewCapabilitySet
    [CapEditOthersPosts; CapEditPrivatePosts; CapReadPrivatePosts; CapDeleteOthersPosts;
     CapDeletePrivatePosts; CapEditPages; CapEditPublishedPages; CapEditOthersPages;
     CapEditPrivatePages; CapReadPrivatePages; CapDeletePages; CapDeletePublishedPages;
     CapDeleteOthersPages; CapDeletePrivatePages; CapPublishPages; CapManageCategories;
     CapManageTags; CapEditOthersMedia; CapMediaDelete; CapModerateComments; CapEditComment]).

Definition admin_caps : CapabilitySet :=
  Union editor_caps (NewCapabilitySet
    [CapManageOptions; CapSystemRead; CapListUsers; CapCreateUsers; CapEditUsers;
     CapDeleteUsers; CapPromoteUsers; CapInstallPlugins; CapManagePlugins;
     CapActivatePlugins; CapManagePluginSettings; CapInstallThemes; CapManageThemes;
     CapSwitchThemes; CapEditThemes; CapThemeEditParts; CapThemeCustomize; CapJobsAdmin;
     CapWebhooksManage]).

Definition superAdmin_caps : CapabilitySet :=
  Union admin_caps (NewCapabilitySet
    [CapManageInstall]).

Definition DefaultRoleCapabilities : gmap Role CapabilitySet :=
  list_to_map
    [(RoleSubscriber, subscriber_caps); (RoleContributor, contributor_caps);
     (RoleAuthor, author_caps); (RoleEditor, editor_caps);
     (RoleAdmin, admin_caps); (RoleSuperAdmin, superAdmin_caps)].

(** ** BasicPolicy *)

Record Principal := mkPrincipal { UserID : string; Roles : list Role }.
Record PolicyDecision := mkDecision { Allowed : bool; Reason : string }.

Abbreviation BasicPolicy := (gmap string (gset string)) (only parsing).

(** The loop of [Can]. *)
Fixpoint can_loop (roleCaps : BasicPolicy) (c : Capability) (roles : list Role)
    : option Role :=
  match roles with
  | [] => None
  | r :: rest =>
      match roleCaps !! r with
      | None => can_loop roleCaps c rest
      | Some set => if Has set c then Some r else can_loop roleCaps c rest
      end
  end.

Definition Can (roleCaps : BasicPolicy) (p : Principal) (c : Capability) : PolicyDecision :=
  match Roles p with
  | [] => mkDecision false "principal has no roles"
  | roles =>
      match can_loop roleCaps c roles with
      | Some r => mkDecision true ("role " +:+ r +:+ " grants " +:+ c)
      | None => mkDecision false ("no role on principal grants " +:+ c)
      end
  end.

Definition Capabilities (roleCaps : BasicPolicy) (p : Principal) : CapabilitySet :=
  foldl (λ out r, match roleCaps !! r with None => out | Some set => out ∪ set end) ∅ (Roles p).

(** ** Registry *)

Abbreviation capRegistry := (gmap string string) (only parsing).

Inductive registry_panic :=
| PanicEmptyName
| PanicAlreadyRegistered (name : Capability).

Definition register_cap (r : capRegistry) (name : Capability) (description : string)
    : result registry_panic capRegistry :=
  if decide (name = "") then Err PanicEmptyName
  else match r !! name with
       | Some _ => Err (PanicAlreadyRegistered name)
       | None => Ok (<[name := description]> r)
       end.

Definition LookupCapability (r : capRegistry) (name : Capability) : option string := r !! name.

Definition RegisteredCapabilities (r : capRegistry) : list Capability :=
  sort_strings (map_to_list r).*1.

Definition builtinCapabilityDescriptions : list (Capability * string) :=
  [(CapRead, "Read content (logged in).");
   (CapReadPrivatePosts, "Read posts whose status is private.");
   (CapEditPosts, "Create and edit your own posts.");
   (CapEditPublishedPosts, "Edit your own posts after publication.");
   (CapEditOthersPosts, "Edit posts authored by others.");
   (CapEditPrivatePosts, "Edit posts whose status is private.");
   (CapDeletePosts, "Delete your own posts.");
   (CapDeletePublishedPosts, "Delete your own published posts.");
   (CapDeleteOthersPosts, "Delete posts authored by others.");
   (CapDeletePrivatePosts, "Delete posts whose status is private.");
   (CapPublishPosts, "Publish posts.");
   (CapEditPages, "Create and edit your own pages.");
   (CapEditPublishedPages, "Edit your own pages after publication.");
   (CapEditOthersPages, "Edit pages authored by others.");
   (CapEditPrivatePages, "Edit pages whose status is private.");
   (CapReadPrivatePages, "Read pages whose status is private.");
   (CapDeletePages, "Delete your own pages.");
   (CapDeletePublishedPages, "Delete your own published pages.");
   (CapDeleteOthersPages, "Delete pages authored by others.");
   (CapDeletePrivatePages, "Delete pages whose status is private.");
   (CapPublishPages, "Publish pages.");
   (CapManageCategories, "Create, edit, and delete categories.");
   (CapManageTags, "Create, edit, and delete tags.");
   (CapUploadFiles, "Upload files to the media library.");
   (CapEditOthersMedia, "Edit and replace media uploaded by others.");
   (CapListUsers, "List user accounts.");
   (CapCreateUsers, "Create user accounts.");
   (CapEditUsers, "Edit user accounts.");
   (CapDeleteUsers, "Delete user accounts.");
   (CapPromoteUsers, "Change a user's role.");
   (CapManageOptions, "Edit site settings.");
   (CapManageInstall, "Run migrations and manage the install on disk.");
   (CapSystemRead, "View the System Status page (DB, Redis, queues, migrations, themes, plugins, disk, build info).");
   (CapInstallPlugins, "Install new plugins.");
   (CapManagePlugins, "Update or uninstall plugins.");
   (CapActivatePlugins, "Enable or disable installed plugins.");
   (CapManagePluginSettings, "Edit plugin settings.");
   (CapInstallThemes, "Install new themes.");
   (CapManageThemes, "Update or uninstall themes.");
   (CapSwitchThemes, "Change the active theme.");
   (CapEditThemes, "Edit theme files.");
   (CapModerateComments, "Approve, mark spam, or delete comments.");
   (CapEditComment, "Edit a comment's content.");
   (CapJobsAdmin, "Inspect, replay, discard, or redact archived background jobs.");
   (CapWebhooksManage, "Create, edit, test, disable, and delete webhook subscriptions.")].

Definition newRegistry : capRegistry :=
  foldl (λ r c, <[c.1 := c.2]> r) ∅ builtinCapabilityDescriptions.

(** ** Require *)

(** [Require]; [pr] is the principal on the request context, if any. *)
Definition Require_ {S : Type} (roleCaps : BasicPolicy) (c : Capability)
    (next : S → Writer → S * Writer) (pr : option Principal) (s : S) (w : Writer) : S * Writer :=
  match pr with
  | None => (s, HttpError "unauthorized" 401 w)
  | Some pr =>
      let d := Can roleCaps pr c in
      if negb (Allowed d) then (s, HttpError (Reason d) 403 w) else next s w
  end.

(** ** Decisions *)

Lemma can_loop_spec roleCaps c roles :
  match can_loop roleCaps c roles with
  | Some r => ∃ l1 l2 set, roles = l1 ++ r :: l2 ∧ roleCaps !! r = Some set ∧ c ∈ set ∧
      ∀ r' set', r' ∈ l1 → roleCaps !! r' = Some set' → c ∉ set'
  | None => ∀ r set, r ∈ roles → roleCaps !! r = Some set → c ∉ set
  end.
Proof.
  induction roles as [|r roles IH]; simpl; [set_solver|].
  assert (∀ (P : Prop), (∀ set, roleCaps !! r = Some set → c ∉ set) →
    match can_loop roleCaps c roles with
    | Some r0 => ∃ l1 l2 set, r :: roles = l1 ++ r0 :: l2 ∧ roleCaps !! r0 = Some set ∧ c ∈ set ∧
        ∀ r' set', r' ∈ l1 → roleCaps !! r' = Some set' → c ∉ set'
    | None => ∀ r0 set, r0 ∈ r :: roles → roleCaps !! r0 = Some set → c ∉ set
    end) as Hskip.
  { intros _ Hr. destruct (can_loop roleCaps c roles) as [r0|].
    - destruct IH as (l1 & l2 & set & -> & Hr0 & Hc & Hl1). exists (r :: l1), l2, set.
      split_and!; [done..|]. intros r' set' [->|?]%elem_of_cons; eauto.
    - intros r0 set [->|?]%elem_of_cons; eauto. }
  destruct (roleCaps !! r) as [set|] eqn:E; [|apply (Hskip True); congruence].
  unfold Has. case_bool_decide as Hc; [|apply (Hskip True); congruence].
  exists [], roles, set. split_and!; [done..|set_solver].
Qed.

Lemma elem_of_Capabilities roleCaps p c :
  c ∈ Capabilities roleCaps p ↔ ∃ r set, r ∈ Roles p ∧ roleCaps !! r = Some set ∧ c ∈ set.
Proof.
  unfold Capabilities. generalize (Roles p). clear p. intros roles.
  assert (∀ acc : gset string,
    c ∈ foldl (λ out r, match roleCaps !! r with None => out | Some set => out ∪ set end) acc roles ↔
    c ∈ acc ∨ ∃ r set, r ∈ roles ∧ roleCaps !! r = Some set ∧ c ∈ set) as Hacc.
  { induction roles as [|r roles IH]; intros acc; cbn [foldl]; [set_solver|].
    rewrite IH. destruct (roleCaps !! r) as [set|] eqn:E; set_solver. }
  rewrite Hacc. set_solver.
Qed.

(** A decision is allowed exactly on a capability of the union, and its reason
    names the first role that grants it. *)
Lemma Can_spec roleCaps p c :
  (Allowed (Can roleCaps p c) = true ↔ c ∈ Capabilities roleCaps p) ∧
  (Allowed (Can roleCaps p c) = true → ∃ l1 r l2 set, Roles p = l1 ++ r :: l2 ∧
     roleCaps !! r = Some set ∧ c ∈ set ∧
     (∀ r' set', r' ∈ l1 → roleCaps !! r' = Some set' → c ∉ set') ∧
     Reason (Can roleCaps p c) = "role " +:+ r +:+ " grants " +:+ c).
Proof.
  rewrite elem_of_Capabilities. unfold Can. pose proof (can_loop_spec roleCaps c (Roles p)) as Hl.
  destruct (Roles p) as [|r0 roles] eqn:Er; [set_solver|]. rewrite <-Er in *.
  destruct (can_loop roleCaps c (Roles p)) as [r|].
  - destruct Hl as (l1 & l2 & set & Heq & Hr & Hc & Hl1). split.
    + split; [|done]. intros _. exists r, set. split_and!; [rewrite Heq; set_solver|done..].
    + intros _. by exists l1, r, l2, set.
  - simpl. split; [|done]. split; [done|]. intros (r & set & Hr & Hs & Hc).
    by destruct (Hl r set Hr Hs).
Qed.

(** [Require] runs the wrapped handler exactly when some role of the
    principal on the request grants the capability; otherwise the handler is
    not run and the response is a 401 without a principal and a 403 with the
    decision's reason with one. *)
Theorem Require_enforces {S} roleCaps c (next : S → Writer → S * Writer) pr s w :
  wire w = None →
  match pr with
  | Some p =>
      if decide (c ∈ Capabilities roleCaps p) then Require_ roleCaps c next pr s w = next s w
      else (Require_ roleCaps c next pr s w).1 = s ∧
        (∃ h, wire (Require_ roleCaps c next pr s w).2 = Some (403%Z, h)) ∧
        body (Require_ roleCaps c next pr s w).2 =
          body w +:+ Reason (Can roleCaps p c) +:+ String (Ascii.ascii_of_nat 10) ""
  | None => (Require_ roleCaps c next pr s w).1 = s ∧
      ∃ h, wire (Require_ roleCaps c next pr s w).2 = Some (401%Z, h)
  end.
Proof.
  intros Hw. destruct pr as [p|]; cbn [Require_].
  - destruct (Can_spec roleCaps p c) as [Hiff _]. case_decide as Hc.
    + by rewrite (proj2 Hiff Hc).
    + destruct (Allowed (Can roleCaps p c)) eqn:E; [by destruct Hc; apply Hiff|].
      split; [done|]. exact (HttpError_sent (Reason (Can roleCaps p c)) 403 w Hw).
  - split; [done|]. exact (proj1 (HttpError_sent "unauthorized" 401 w Hw)).
Qed.

(** ** The default roles *)

Definition caps_of (r : Role) : CapabilitySet := default ∅ (DefaultRoleCapabilities !! r).

(** The facts about the role table that evaluation settles. *)
Definition table_ok (i j : nat) : Prop :=
  match BuiltinRoles !! i, BuiltinRoles !! j with
  | Some ri, Some rj =>
      caps_of ri ⊂ caps_of rj ∧ CapManageInstall ∉ caps_of ri ∧ caps_of rj ⊆ superAdmin_caps
  | _, _ => True
  end.

#[export] Instance table_ok_dec i j : Decision (table_ok i j).
Proof. unfold table_ok. repeat case_match; apply _. Defined.

Lemma table_holds : Forall (λ ij : nat * nat, ij.1 < ij.2 → table_ok ij.1 ij.2)
  (list_prod (seq 0 6) (seq 0 6)).
Proof. apply (bool_decide_unpack _). vm_compute. exact I. Qed.

Lemma table_at i j ri rj :
  BuiltinRoles !! i = Some ri → BuiltinRoles !! j = Some rj → i < j →
  caps_of ri ⊂ caps_of rj ∧ CapManageInstall ∉ caps_of ri ∧ caps_of rj ⊆ superAdmin_caps.
Proof.
  intros Hi Hj Hlt. pose proof (lookup_lt_Some _ _ _ Hi). pose proof (lookup_lt_Some _ _ _ Hj).
  assert (table_ok i j) as Hok.
  { pose proof table_holds as Ht. rewrite Forall_forall in Ht.
    apply (Ht (i, j)); [|exact Hlt]. apply list_elem_of_In, in_prod; apply in_seq; simpl in *; lia. }
  unfold table_ok in Hok. by rewrite Hi, Hj in Hok.
Qed.

Lemma registry_in_super : dom newRegistry ⊆ superAdmin_caps.
Proof. apply (bool_decide_unpack _). vm_compute. exact I. Qed.

(** The built-in roles are a strict hierarchy: a later role of
    [BuiltinRoles] holds everything an earlier one holds and more, so a
    principal moved up keeps every permission; the last role holds every
    capability the registry starts with, and only it may manage the install. *)
Theorem role_hierarchy i j ri rj u others c :
  BuiltinRoles !! i = Some ri → BuiltinRoles !! j = Some rj → i < j →
  caps_of ri ⊂ caps_of rj ∧
  (Allowed (Can DefaultRoleCapabilities (mkPrincipal u (ri :: others)) c) = true →
   Allowed (Can DefaultRoleCapabilities (mkPrincipal u (rj :: others)) c) = true) ∧
  CapManageInstall ∉ caps_of ri ∧
  (is_Some (LookupCapability newRegistry c) → c ∈ superAdmin_caps).
Proof.
  intros Hi Hj Hlt. destruct (table_at i j ri rj Hi Hj Hlt) as (Hsub & Hno & Hall).
  split_and!; [done| |done|].
  - rewrite !(proj1 (Can_spec _ _ _)), !elem_of_Capabilities.
    intros (r & set & [->|Hr]%elem_of_cons & Hset & Hc).
    + assert (c ∈ caps_of rj) as Hcj.
      { apply Hsub. unfold caps_of. by rewrite Hset. }
      unfold caps_of in Hcj.
      destruct (DefaultRoleCapabilities !! rj) as [setj|] eqn:Ej; [|set_solver].
      exists rj, setj. set_solver.
    + exists r, set. set_solver.
  - intros Hc. apply registry_in_super. unfold LookupCapability in Hc.
    apply elem_of_dom. exact Hc.
Qed.

Lemma Require_enforces_witness :
  let next := λ (s : nat) w, (S s, WriteHeader 200 w) in
  let editor := mkPrincipal "user:17" [RoleEditor] in
  let w := mkWriter ∅ None "" in
  Require_ DefaultRoleCapabilities CapPublishPosts next (Some editor) 0 w = next 0 w ∧
  (Require_ DefaultRoleCapabilities CapManageOptions next (Some editor) 0 w).1 = 0.
Proof.
  intros next editor w. split.
  - pose proof (Require_enforces DefaultRoleCapabilities CapPublishPosts next (Some editor) 0 w
      eq_refl) as Hr. cbv beta iota in Hr. rewrite decide_True in Hr; [exact Hr|].
    apply (bool_decide_unpack _). vm_compute. exact I.
  - pose proof (Require_enforces DefaultRoleCapabilities CapManageOptions next (Some editor) 0 w
      eq_refl) as Hr. cbv beta iota in Hr. rewrite decide_False in Hr; [apply Hr|].
    apply (bool_decide_unpack _). vm_compute. exact I.
Defined.

Lemma role_hierarchy_witness :
  Allowed (Can DefaultRoleCapabilities (mkPrincipal "u" [RoleAdmin]) CapEditPosts) = true.
Proof.
  apply (role_hierarchy 1 4 RoleContributor RoleAdmin "u" [] CapEditPosts eq_refl eq_refl
    ltac:(lia)). vm_compute. reflexivity.
Defined.

(** The capabilities roles hold by default that the registry is not seeded
    with. *)
Example unregistered_defaults :
  filter (λ c, LookupCapability newRegistry c = None) (elements superAdmin_caps) ≡ₚ
    [CapThemeEditParts; CapMediaUpload; CapMediaRead; CapMediaDelete; CapThemeCustomize].
Proof. apply (bool_decide_unpack _). vm_compute. exact I. Qed.
