(* ===== verification/PluginCaps.v ===== *)
(** * Plugin capabilities (packages/go/plugins/capabilities)

    The registry of host capabilities (first registration wins), grant sets,
    and the checker every host call goes through. Each registry call holds its
    mutex. A checker's grants do not change after construction. *)
From S2P Require Import Prelude GoStrings.

(** ** Registry *)

Record CapabilityDef := mkDef {
  cap_ID : string;
  cap_Description : string;
  cap_Resource : string;
  cap_Action : string;
  cap_Sensitive : bool;
}.

Inductive cap_error :=
| ErrEmptyID
| ErrAlreadyRegistered (id : string)
| DeniedError (id : string).

#[export] Instance CapabilityDef_eq_dec : EqDecision CapabilityDef.
Proof. solve_decision. Defined.

#[export] Instance cap_error_eq_dec : EqDecision cap_error.
Proof. solve_decision. Defined.

Abbreviation Registry := (gmap string CapabilityDef) (only parsing).

Definition Register (r : Registry) (def : CapabilityDef) : Registry * option cap_error :=
  if decide (cap_ID def = "") then (r, Some ErrEmptyID)
  else match r !! cap_ID def with
       | Some _ => (r, Some (ErrAlreadyRegistered (cap_ID def)))
       | None => (<[cap_ID def := def]> r, None)
       end.

Definition GetDef (r : Registry) (id : string) : option CapabilityDef := r !! id.
Definition HasDef (r : Registry) (id : string) : bool := bool_decide (is_Some (GetDef r id)).

(** [List]: sorted by identifier. *)
Definition def_lt (a b : CapabilityDef) : bool :=
  bool_decide (String.le (cap_ID a) (cap_ID b) ∧ cap_ID a ≠ cap_ID b).
Definition ListDefs (r : Registry) : list CapabilityDef :=
  sort_by def_lt (snd <$> map_to_list r).

Definition builtinCapabilityDefs : list CapabilityDef :=
  [mkDef "posts.read" "Read post rows." "posts" "read" false;
   mkDef "posts.write" "Create, update, and delete post rows." "posts" "write" false;
   mkDef "users.read" "Read user rows (non-PII projection)." "users" "read" false;
   mkDef "email.send" "Send outbound transactional email." "email" "send" true;
   mkDef "http.fetch" "Make outbound HTTP requests." "http" "fetch" true;
   mkDef "http.serve" "Serve inbound HTTP routes under /api/plugins/{slug}/." "http" "serve" false;
   mkDef "media.read" "Read media library metadata + obtain signed URLs." "media" "read" true;
   mkDef "kv.read" "Read from the plugin key-value namespace." "kv" "read" false;
   mkDef "kv.write" "Write to the plugin key-value namespace." "kv" "write" false;
   mkDef "db.read" "Read rows from the plugin's scoped database views." "db" "read" false;
   mkDef "db.write" "Insert/update rows in the plugin's scoped database views." "db" "write" true;
   mkDef "cache.invalidate" "Invalidate cached entries by tag within the plugin's namespace." "cache" "invalidate" false;
   mkDef "hooks.subscribe" "Register a hook listener." "hooks" "subscribe" false;
   mkDef "jobs.enqueue" "Enqueue a background job." "jobs" "enqueue" false].

(** [seedBuiltins]: a refused registration panics. *)
Fixpoint seed (defs : list CapabilityDef) (r : Registry) : result cap_error Registry :=
  match defs with
  | [] => Ok r
  | d :: rest =>
      match Register r d with
      | (r', None) => seed rest r'
      | (_, Some e) => Err e
      end
  end.

Definition seedBuiltins (r : Registry) : result cap_error Registry :=
  seed builtinCapabilityDefs r.

(** ** Checker *)

Abbreviation GrantSet := (gset string) (only parsing).

Definition NewGrantSet (ids : list string) : GrantSet := list_to_set ids.
Definition IDs (g : GrantSet) : list string := sort_strings (elements g).

(** The hooks a checker may have: the audit emitter and the denial observer. *)
Record Checker := mkChecker {
  granted : GrantSet;
  has_emitter : bool;
  has_observer : bool;
}.

(** What the hooks have received. *)
Record trail := mkTrail { audited : list string; observed : list string }.

Definition AllowedCap (reg : Registry) (c : Checker) (id : string) : bool :=
  HasDef reg id && bool_decide (id ∈ granted c).

Definition emitDenial (c : Checker) (id : string) (t : trail) : trail :=
  if has_emitter c then mkTrail (audited t ++ [id]) (observed t) else t.

Definition MustAllow (reg : Registry) (c : Checker) (id : string) (t : trail)
    : trail * option cap_error :=
  if AllowedCap reg c id then (t, None)
  else
    let t := emitDenial c id t in
    let t := if has_observer c then mkTrail (audited t) (observed t ++ [id]) else t in
    (t, Some (DeniedError id)).

(** [errors.Is] on a denial: the sentinel, or a denial of the same identifier. *)
Inductive cap_target := ErrCapabilityDenied | TargetDenied (id : string).

Definition error_is (e : cap_error) (target : cap_target) : bool :=
  match e, target with
  | DeniedError _, ErrCapabilityDenied => true
  | DeniedError id, TargetDenied id' => bool_decide (id = id')
  | _, _ => false
  end.

(** ** Use over time *)

Inductive cap_event :=
| ERegister (def : CapabilityDef)
| ECheck (id : string).

(** Calls one after the other, with the errors the checks answered. *)
Fixpoint cap_run (c : Checker) (evs : list cap_event) (reg : Registry) (t : trail)
    : Registry * trail * list (option cap_error) :=
  match evs with
  | [] => (reg, t, [])
  | ERegister d :: evs => cap_run c evs (Register reg d).1 t
  | ECheck id :: evs =>
      let '(t, e) := MustAllow reg c id t in
      let '(reg, t, es) := cap_run c evs reg t in (reg, t, e :: es)
  end.

(** The checks that must be refused: the ones whose capability is not granted,
    or that nothing has registered so far. *)
Fixpoint refusals (g : GrantSet) (known : gset string) (evs : list cap_event) : list (option string) :=
  match evs with
  | [] => []
  | ERegister d :: evs =>
      refusals g (if decide (cap_ID d = "") then known else {[cap_ID d]} ∪ known) evs
  | ECheck id :: evs =>
      (if decide (id ∈ g ∧ id ∈ known) then None else Some id) :: refusals g known evs
  end.

Definition refused (g : GrantSet) (known : gset string) (evs : list cap_event) : list string :=
  omap id (refusals g known evs).

Lemma Register_dom reg d :
  dom (Register reg d).1 = if decide (cap_ID d = "") then dom reg else {[cap_ID d]} ∪ dom reg.
Proof.
  unfold Register. case_decide; [done|]. destruct (reg !! cap_ID d) eqn:E; simpl.
  - apply elem_of_dom_2 in E. set_solver.
  - by rewrite dom_insert_L.
Qed.

Lemma Register_keeps reg d id def :
  reg !! id = Some def → (Register reg d).1 !! id = Some def.
Proof.
  intros Hd. unfold Register. case_decide; [done|].
  destruct (reg !! cap_ID d) eqn:E; [done|]. simpl. rewrite lookup_insert_ne; [done|congruence].
Qed.

Lemma AllowedCap_iff reg c id : AllowedCap reg c id = true ↔ id ∈ granted c ∧ id ∈ dom reg.
Proof.
  unfold AllowedCap, HasDef, GetDef. rewrite andb_true_iff, !bool_decide_eq_true, elem_of_dom.
  tauto.
Qed.

(** Whatever the host registers and a plugin calls, in any order: a
    definition once registered never changes; a call passes exactly when its
    capability is granted and registered by then; and the audit log and the
    observer, where installed, receive exactly the refused calls, each once
    and in order. *)
Theorem checker_history c evs reg t reg' t' es :
  cap_run c evs reg t = (reg', t', es) →
  (∀ id d, reg !! id = Some d → reg' !! id = Some d) ∧
  es = map (option_map DeniedError) (refusals (granted c) (dom reg) evs) ∧
  audited t' = audited t ++ (if has_emitter c then refused (granted c) (dom reg) evs else []) ∧
  observed t' = observed t ++ (if has_observer c then refused (granted c) (dom reg) evs else []).
Proof.
  revert reg t reg' t' es. induction evs as [|[d|i] evs IH]; intros reg t reg' t' es; simpl.
  - intros [= <- <- <-]. split_and!; [done..| |]; by destruct (_ : bool); rewrite app_nil_r.
  - intros Hrun. apply IH in Hrun. rewrite Register_dom in Hrun.
    destruct Hrun as (Hk & He & Ha & Ho). split_and!; [|exact He|exact Ha|exact Ho].
    intros j def Hj. apply Hk. by apply Register_keeps.
  - unfold MustAllow. destruct (AllowedCap reg c i) eqn:E.
    + destruct (cap_run c evs reg t) as [[r1 t1] es1] eqn:Hrun. intros [= <- <- <-].
      apply IH in Hrun as (Hk & -> & Ha & Ho). apply AllowedCap_iff in E.
      unfold refused in *. simpl. rewrite decide_True by done. done.
    + destruct (cap_run c evs reg _) as [[r1 t1] es1] eqn:Hrun. intros [= <- <- <-].
      apply IH in Hrun as (Hk & -> & Ha & Ho).
      assert (¬ (i ∈ granted c ∧ i ∈ dom reg)) by (rewrite <-AllowedCap_iff; congruence).
      unfold refused in *. simpl. rewrite decide_False by done. simpl.
      split_and!; [done..| |].
      * rewrite Ha. unfold emitDenial. destruct (has_emitter c), (has_observer c); simpl;
          by rewrite <-?app_assoc.
      * rewrite Ho. unfold emitDenial. destruct (has_emitter c), (has_observer c); simpl;
          by rewrite <-?app_assoc.
Qed.

Definition demo_checker : Checker := mkChecker (NewGrantSet ["kv.read"; "ghost.cap"]) true true.

Definition demo_calls : list cap_event :=
  [ERegister (mkDef "kv.read" "Read." "kv" "read" false);
   ECheck "kv.read"; ECheck "ghost.cap"; ECheck "kv.write"].

Lemma demo_refused : refused (granted demo_checker) (dom (∅ : Registry)) demo_calls =
  ["ghost.cap"; "kv.write"].
Proof. vm_compute. reflexivity. Qed.

Lemma checker_history_witness :
  ∃ reg t es, cap_run demo_checker demo_calls ∅ (mkTrail [] []) = (reg, t, es) ∧
    audited t = ["ghost.cap"; "kv.write"].
Proof.
  destruct (cap_run demo_checker demo_calls ∅ (mkTrail [] [])) as [[reg t] es] eqn:E.
  exists reg, t, es. split; [reflexivity|].
  destruct (checker_history demo_checker demo_calls ∅ (mkTrail [] []) reg t es E)
    as (_ & _ & Ha & _).
  rewrite Ha. exact demo_refused.
Defined.

(** The seed list holds no identifier twice. *)
Example seed_ok : is_ok (seedBuiltins ∅) = true.
Proof. vm_compute. reflexivity. Qed.

(** Every denial matches the sentinel, and a specific denial only its own. *)
Example denied_is (i j : string) :
  error_is (DeniedError i) ErrCapabilityDenied = true ∧
  error_is (DeniedError i) (TargetDenied j) = bool_decide (i = j).
Proof. done. Qed.
