(* ===== verification/LoginLimit.v ===== *)
(** * Login throttling and lockout (packages/go/ratelimit: auth.go, failure_store.go)

    [Check] before a credential check, [RecordFailure] and [RecordSuccess]
    after it, [IsLocked] once the password matched. The two buckets are
    parameters (any [Limiter]); the failure counters are behind the class
    [FailureStore], which the in-memory store implements. Each call is taken as
    one step. *)
From S2P Require Import Prelude GoStrings.

(** ** Failure stores *)

Class FailureStore (F : Type) := {
  IncrementFailure : F → string → F * result string (Z * Time);
  ClearFailures : F → string → F * option string;
  GetFailures : F → string → result string (Z * Time);
  SetLockedUntil : F → string → Time → F * option string;
}.

(** What a store that answers promises: [row] is a user's counter and lock
    expiry, and each call touches its own user only. *)
Class FailureStoreLaws (F : Type) `{FailureStore F} := {
  row : F → string → Z * Time;
  get_row f u : GetFailures f u = Ok (row f u);
  inc_row f u : (IncrementFailure f u).2 = Ok (row (IncrementFailure f u).1 u) ∧
    ∀ v, row (IncrementFailure f u).1 v =
      if decide (u = v) then (wrap64 ((row f v).1 + 1), (row f v).2) else row f v;
  clear_row f u : (ClearFailures f u).2 = None ∧
    ∀ v, row (ClearFailures f u).1 v = if decide (u = v) then (0%Z, time_zero) else row f v;
  lock_row f u t : (SetLockedUntil f u t).2 = None ∧
    ∀ v, row (SetLockedUntil f u t).1 v = if decide (u = v) then ((row f v).1, t) else row f v;
}.

(** [MemoryFailureStore]: an absent row reads as zero. *)
Abbreviation MemoryFailureStore := (gmap string (Z * Z)) (only parsing).

Definition mem_row (f : MemoryFailureStore) (u : string) : Z * Time :=
  default (0%Z, time_zero) (f !! u).

Definition mem_IncrementFailure (f : MemoryFailureStore) (u : string)
    : MemoryFailureStore * result string (Z * Time) :=
  let r := mem_row f u in
  let r := (wrap64 (r.1 + 1), r.2) in
  (<[u := r]> f, Ok r).

Definition mem_ClearFailures (f : MemoryFailureStore) (u : string)
    : MemoryFailureStore * option string := (delete u f, None).

Definition mem_GetFailures (f : MemoryFailureStore) (u : string) : result string (Z * Time) :=
  Ok (mem_row f u).

Definition mem_SetLockedUntil (f : MemoryFailureStore) (u : string) (t : Time)
    : MemoryFailureStore * option string :=
  (<[u := ((mem_row f u).1, t)]> f, None).

#[export] Instance memory_failures : FailureStore MemoryFailureStore := {
  IncrementFailure := mem_IncrementFailure;
  ClearFailures := mem_ClearFailures;
  GetFailures := mem_GetFailures;
  SetLockedUntil := mem_SetLockedUntil;
}.

#[export] Program Instance memory_failures_laws : FailureStoreLaws MemoryFailureStore := {
  row := mem_row;
}.
Next Obligation. done. Qed.
Next Obligation.
  intros f u. unfold mem_IncrementFailure, mem_row. simpl.
  split; [by simplify_map_eq|]. intros v. case_decide; subst; by simplify_map_eq.
Qed.
Next Obligation.
  intros f u. unfold mem_ClearFailures, mem_row. simpl. split; [done|].
  intros v. case_decide; subst; by simplify_map_eq.
Qed.
Next Obligation.
  intros f u t. unfold mem_SetLockedUntil, mem_row. simpl. split; [done|].
  intros v. case_decide; subst; by simplify_map_eq.
Qed.

(** ** The limiter *)

Inductive limit_error := ErrMissingLimiter | ErrBucket.

Record LoginAttemptLimiter := mkLimiter {
  lockoutThreshold : Z;
  lockoutWindow : Duration;
}.

Record LoginAttemptOptions := mkOptions {
  has_IPLimiter : bool;
  has_EmailLimiter : bool;
  LockoutThreshold : Z;
  LockoutWindow : Duration;
}.

(** [NewLoginAttemptLimiter] *)
Definition NewLoginAttemptLimiter (o : LoginAttemptOptions)
    : result limit_error LoginAttemptLimiter :=
  if negb (has_IPLimiter o) then Err ErrMissingLimiter
  else if negb (has_EmailLimiter o) then Err ErrMissingLimiter
  else Ok (mkLimiter
    (if (LockoutThreshold o <=? 0)%Z then 10 else LockoutThreshold o)
    (if (LockoutWindow o <=? 0)%Z then 30 * minute else LockoutWindow o)%Z).

Definition normalizeEmail (s : string) : string := strings.ToLower (strings.TrimSpace s).

Inductive PreCheckReason := ReasonNone | ReasonIPRateLimit | ReasonEmailRateLimit.

Record PreCheckResult := mkPreCheck {
  pc_Allowed : bool;
  pc_Reason : PreCheckReason;
  pc_RetryAfter : Duration;
}.

Record CheckInput := mkInput { in_IP : string; in_Email : string; in_EmailExists : bool }.

Inductive login_audit :=
| RateLimitExceeded (key : string) (retryAfter : Duration)
| LoginLocked (user : string)
| LoginUnlocked (user : string).

Section check.
Context {L : Type}.
Context (Allow : L → string → L * result limit_error (bool * Duration)).

(** [Check]: the IP bucket, then the email bucket for a known email. *)
Definition Check_login (ip email : L) (i : CheckInput)
    : L * L * (PreCheckResult * option limit_error) * list login_audit :=
  let res := mkPreCheck true ReasonNone 0 in
  match Allow ip (in_IP i) with
  | (ip, Err e) => (ip, email, (res, Some e), [])
  | (ip, Ok (false, retry)) =>
      (ip, email, (mkPreCheck false ReasonIPRateLimit retry, None),
       [RateLimitExceeded (in_IP i) retry])
  | (ip, Ok (true, _)) =>
      if negb (bool_decide (in_Email i = "")) && in_EmailExists i then
        let key := normalizeEmail (in_Email i) in
        match Allow email key with
        | (email, Err e) => (ip, email, (res, Some e), [])
        | (email, Ok (false, retry)) =>
            (ip, email, (mkPreCheck false ReasonEmailRateLimit retry, None),
             [RateLimitExceeded key retry])
        | (email, Ok (true, _)) => (ip, email, (res, None), [])
        end
      else (ip, email, (res, None), [])
  end.

Definition PreCheck (ip email : L) (addr mail : string) :=
  Check_login ip email (mkInput addr mail (negb (bool_decide (mail = "")))).
End check.

Section lockout.
Context {F : Type} `{FailureStore F}.
Context (l : LoginAttemptLimiter).

(** [RecordFailure] *)
Definition RecordFailure (now : Time) (f : F) (u : string)
    : F * result string bool * list login_audit :=
  if decide (u = "") then (f, Ok false, [])
  else
    match IncrementFailure f u with
    | (f, Err e) => (f, Err e, [])
    | (f, Ok (count, lockedUntil)) =>
        if time_after lockedUntil now then (f, Ok false, [])
        else if (lockoutThreshold l <=? count)%Z then
          match SetLockedUntil f u (now + lockoutWindow l)%Z with
          | (f, Some e) => (f, Err e, [])
          | (f, None) => (f, Ok true, [LoginLocked u])
          end
        else (f, Ok false, [])
    end.

(** [RecordSuccess] *)
Definition RecordSuccess (now : Time) (f : F) (u : string)
    : F * option string * list login_audit :=
  if decide (u = "") then (f, None, [])
  else
    match GetFailures f u with
    | Err e => (f, Some e, [])
    | Ok (_, lockedUntil) =>
        match ClearFailures f u with
        | (f, Some e) => (f, Some e, [])
        | (f, None) => (f, None, if time_after lockedUntil now then [LoginUnlocked u] else [])
        end
    end.

(** [IsLocked] *)
Definition IsLocked (now : Time) (f : F) (u : string) : result string (bool * Time) :=
  if decide (u = "") then Ok (false, time_zero)
  else
    match GetFailures f u with
    | Err e => Err e
    | Ok (_, lockedUntil) =>
        if time_after lockedUntil now then Ok (true, lockedUntil) else Ok (false, time_zero)
    end.

Definition result_option {E A} (r : result E A) : option A :=
  match r with Ok a => Some a | Err _ => None end.

(** ** Histories

    The credential checks of an account and others, newest first, with what
    [RecordFailure] answered. *)
Inductive login_event :=
| LFailure (t : Time) (u : string)
| LSuccess (t : Time) (u : string).

Fixpoint login_run (h : list login_event) (f0 : F) : F * list (login_event * bool) :=
  match h with
  | [] => (f0, [])
  | LFailure t u :: h =>
      let '(f, tr) := login_run h f0 in
      let '(f, res, _) := RecordFailure t f u in
      (f, (LFailure t u, match res with Ok b => b | Err _ => false end) :: tr)
  | LSuccess t u :: h =>
      let '(f, tr) := login_run h f0 in
      let '(f, _, _) := RecordSuccess t f u in (f, (LSuccess t u, false) :: tr)
  end.

(** Since the user's last success: the failures, and the failures that locked. *)
Fixpoint since_success (u : string) (tr : list (login_event * bool)) : list (Time * bool) :=
  match tr with
  | [] => []
  | (LFailure t v, b) :: tr =>
      if decide (u = v) then (t, b) :: since_success u tr else since_success u tr
  | (LSuccess _ v, _) :: tr => if decide (u = v) then [] else since_success u tr
  end.

(** Some failure since the last success locked the account for a time that
    includes [now]. *)
Definition locked_at (now : Time) (l' : list (Time * bool)) : Prop :=
  Exists (λ tb, tb.2 = true ∧ now < tb.1 + lockoutWindow l)%Z l'.

#[export] Instance locked_at_dec now l' : Decision (locked_at now l').
Proof. unfold locked_at. apply _. Defined.
End lockout.

Arguments RecordFailure : simpl never.
Arguments RecordSuccess : simpl never.

(** ** Lockout *)

Section lockout_correct.
Context {F : Type} `{FailureStoreLaws F}.
Context (l : LoginAttemptLimiter).

Definition event_time (e : login_event) : Time :=
  match e with LFailure t _ | LSuccess t _ => t end.

Definition lockout_inv (u : string) (f : F) (w : list (Time * bool)) : Prop :=
  (row f u).1 = Z.of_nat (length w) ∧
  ∀ now, (time_zero ≤ now)%Z → time_after (row f u).2 now = bool_decide (locked_at l now w).

Lemma locked_at_cons now t b w :
  locked_at l now ((t, b) :: w) ↔ (b = true ∧ now < t + lockoutWindow l)%Z ∨ locked_at l now w.
Proof. unfold locked_at. rewrite Exists_cons. done. Qed.

(** What [RecordFailure] answers and leaves behind, from the counter it finds. *)
Lemma RecordFailure_step u v now f w :
  u ≠ "" → lockout_inv u f w → (Z.of_nat (S (length w)) ≤ int64_max)%Z →
  (time_zero ≤ now)%Z → (0 ≤ lockoutWindow l)%Z →
  let b := bool_decide ((lockoutThreshold l ≤ Z.of_nat (S (length w)))%Z ∧ ¬ locked_at l now w) in
  (u = v → (RecordFailure l now f v).1.2 = Ok b ∧
     (RecordFailure l now f v).2 = (if b then [LoginLocked v] else [])) ∧
  lockout_inv u (RecordFailure l now f v).1.1 (if decide (u = v) then (now, b) :: w else w).
Proof.
  intros Hu [Hc Hl] Hmax Hnow Hwin b. unfold RecordFailure.
  destruct (decide (v = "")) as [->|Hv].
  { split; [congruence|]. rewrite decide_False by done. done. }
  destruct (IncrementFailure f v) as [f1 r1] eqn:Ei.
  destruct (inc_row f v) as [Hr1 Hrows]. rewrite Ei in Hr1, Hrows. cbn [fst snd] in Hr1, Hrows.
  subst r1. destruct (row f1 v) as [cnt till] eqn:Ev.
  destruct (decide (u = v)) as [<-|Hne].
  - pose proof (Hrows u) as Hru. rewrite decide_True in Hru by done. rewrite Ev in Hru.
    assert (cnt = Z.of_nat (S (length w)) ∧ till = (row f u).2) as [-> ->].
    { injection Hru as -> ->. split; [|done]. rewrite Hc, wrap64_id; [lia|].
      unfold in_int64, int64_min. lia. }
    rewrite Hl by done. destruct (decide (locked_at l now w)) as [Hlock|Hlock].
    { rewrite bool_decide_true by done. assert (b = false) as ->
        by (apply bool_decide_false; tauto).
      split; [done|]. unfold lockout_inv. cbn [fst]. rewrite Ev. cbn [fst snd].
      split; [done|]. intros n Hn. rewrite Hl by done. apply bool_decide_ext. rewrite locked_at_cons. naive_solver. }
    rewrite bool_decide_false by done. cbn [fst snd].
    destruct (lockoutThreshold l <=? Z.of_nat (S (length w)))%Z eqn:Et.
    + assert (b = true) as -> by (apply bool_decide_true; split; [by apply Z.leb_le|done]).
      destruct (lock_row f1 u (now + lockoutWindow l)%Z) as [Hs Hsrows].
      destruct (SetLockedUntil f1 u _) as [f2 e]. cbn [fst snd] in Hs, Hsrows. subst e.
      split; [done|]. unfold lockout_inv. cbn [fst]. rewrite Hsrows, decide_True by done.
      rewrite Ev. split; [done|]. cbn [snd]. intros n Hn.
      assert (n < now + lockoutWindow l ↔ locked_at l n ((now, true) :: w))%Z as Hiff.
      { rewrite locked_at_cons. split; [by left|]. intros [[_ ?]|Hw]; [done|].
        apply (bool_decide_eq_true_2 _) in Hw. rewrite <-Hl in Hw by done.
        pose proof (Hl now Hnow) as Hln. rewrite bool_decide_false in Hln by done.
        unfold time_after in *. lia. }
      unfold time_after. case_bool_decide as Hb; rewrite <-Hiff in Hb; lia.
    + assert (b = false) as -> by (apply bool_decide_false; intros [Hle _]; apply Z.leb_gt in Et; lia).
      split; [done|]. unfold lockout_inv. cbn [fst]. rewrite Ev. cbn [fst snd].
      split; [done|]. intros n Hn. rewrite Hl by done. apply bool_decide_ext. rewrite locked_at_cons. naive_solver.
  - split; [done|]. unfold lockout_inv.
    assert (row f1 u = row f u) as Hsame by (rewrite Hrows; by rewrite decide_False).
    destruct (time_after till now); [by cbn [fst]; rewrite Hsame|].
    destruct (_ <=? _)%Z; [|by cbn [fst]; rewrite Hsame].
    destruct (lock_row f1 v (now + lockoutWindow l)%Z) as [Hs Hsrows].
    destruct (SetLockedUntil f1 v _) as [f2 e]. cbn [fst snd] in Hs, Hsrows. subst e.
    cbn [fst]. rewrite Hsrows, decide_False by done. by rewrite Hsame.
Qed.

Lemma RecordSuccess_step u v now f w :
  u ≠ "" → lockout_inv u f w →
  lockout_inv u (RecordSuccess now f v).1.1 (if decide (u = v) then [] else w).
Proof.
  intros Hu Hinv. unfold RecordSuccess.
  destruct (decide (v = "")) as [->|Hv]; [by rewrite decide_False|].
  rewrite get_row. destruct (row f v) as [cnt till].
  destruct (clear_row f v) as [Hs Hrows]. destruct (ClearFailures f v) as [f1 e].
  cbn [fst snd] in Hs, Hrows. subst e. unfold lockout_inv. cbn [fst]. rewrite Hrows.
  destruct (decide (u = v)) as [<-|Hne]; [|by rewrite decide_False].
  rewrite decide_True by done. split; [done|]. intros n Hn. cbn [snd]. unfold time_after.
  rewrite bool_decide_false by by intros Hw%Exists_nil. lia.
Qed.

Lemma length_since_success u tr : length (since_success u tr) ≤ length tr.
Proof.
  induction tr as [|[[t v|t v] b] tr IH]; simpl; [done|..]; case_decide; simpl; lia.
Qed.

Lemma login_run_length h f0 : length (login_run l h f0).2 = length h.
Proof.
  induction h as [|[t u|t u] h IH]; simpl; [done|..];
    destruct (login_run l h f0) as [f tr]; simpl in IH.
  - destruct (RecordFailure l t f u) as [[? ?] ?]. simpl. by rewrite IH.
  - destruct (RecordSuccess t f u) as [[? ?] ?]. simpl. by rewrite IH.
Qed.

Lemma login_run_inv u h f0 :
  u ≠ "" → row f0 u = (0%Z, time_zero) → (0 ≤ lockoutWindow l)%Z →
  Forall (λ e, time_zero ≤ event_time e)%Z h → (Z.of_nat (length h) ≤ int64_max)%Z →
  lockout_inv u (login_run l h f0).1 (since_success u (login_run l h f0).2).
Proof.
  intros Hu Hzero Hwin Htimes Hmax.
  induction h as [|[t v|t v] h IH]; cbn [login_run].
  - unfold lockout_inv. cbn [fst snd since_success]. rewrite Hzero. split; [done|].
    intros n Hn. cbn [snd].
    unfold time_after. rewrite bool_decide_false by by intros Hw%Exists_nil. lia.
  - inversion Htimes as [|?? Ht Htimes']; subst. cbn [event_time length] in *.
    specialize (IH Htimes' ltac:(lia)). pose proof (login_run_length h f0) as Hlen.
    destruct (login_run l h f0) as [f tr]. cbn [fst snd] in *.
    pose proof (length_since_success u tr) as Hle.
    destruct (RecordFailure_step u v t f (since_success u tr) Hu IH ltac:(lia) Ht Hwin)
      as [Hans Hinv].
    destruct (RecordFailure l t f v) as [[f1 res] aud]. cbn [fst snd since_success] in *.
    destruct (decide (u = v)) as [Huv|Huv]; [|done].
    destruct (Hans Huv) as [-> _]. exact Hinv.
  - inversion Htimes as [|?? Ht Htimes']; subst. cbn [length] in *.
    specialize (IH Htimes' ltac:(lia)).
    destruct (login_run l h f0) as [f tr]. cbn [fst snd] in *.
    pose proof (RecordSuccess_step u v t f (since_success u tr) Hu IH) as Hinv.
    destruct (RecordSuccess t f v) as [[f1 res] aud]. cbn [fst snd since_success] in *.
    exact Hinv.
Qed.

(** C35. Lockout is exact. After any history of failed and successful logins
    of any accounts, an account is locked exactly while a failure since its
    last success that locked it lies less than a window back; and a further
    failure locks it, with one audit event, exactly if it is not locked and
    the failures since the last success, this one included, reach the
    threshold. Other accounts have no influence. *)
Theorem lockout_exact u h f0 now :
  u ≠ "" → row f0 u = (0%Z, time_zero) → (0 ≤ lockoutWindow l)%Z → (time_zero ≤ now)%Z →
  Forall (λ e, time_zero ≤ event_time e)%Z h → (Z.of_nat (S (length h)) ≤ int64_max)%Z →
  let f := (login_run l h f0).1 in
  let w := since_success u (login_run l h f0).2 in
  let locks := bool_decide
    ((lockoutThreshold l ≤ Z.of_nat (S (length w)))%Z ∧ ¬ locked_at l now w) in
  fst <$> result_option (IsLocked now f u) = Some (bool_decide (locked_at l now w)) ∧
  (RecordFailure l now f u).1.2 = Ok locks ∧
  (RecordFailure l now f u).2 = (if locks then [LoginLocked u] else []).
Proof.
  intros Hu Hzero Hwin Hnow Htimes Hmax f w locks.
  pose proof (login_run_inv u h f0 Hu Hzero Hwin Htimes ltac:(lia)) as Hinv.
  pose proof (length_since_success u (login_run l h f0).2) as Hle.
  rewrite login_run_length in Hle. split.
  - unfold IsLocked. rewrite decide_False by done. rewrite get_row.
    destruct Hinv as [_ Hl]. specialize (Hl now Hnow). fold f w in Hl.
    destruct (row f u) as [cnt till]. cbn [snd] in Hl. rewrite Hl.
    by case_bool_decide.
  - apply (RecordFailure_step u u now f w Hu Hinv); [fold w in Hle; lia|done..].
Qed.
End lockout_correct.

(** Threshold 2, window 30 minutes: the second failure locks, the third during
    the lock does not lock again, and the first one after it does. *)
Definition demo_limiter : LoginAttemptLimiter := mkLimiter 2 1800.

Definition demo_logins : list login_event :=
  [LFailure 2000 "u"; LFailure 120 "u"; LFailure 110 "u"; LFailure 105 "v"; LFailure 100 "u"].

Example demo_answers :
  (login_run demo_limiter demo_logins (∅ : MemoryFailureStore)).2.*2 =
    [true; false; true; false; false].
Proof. vm_compute. reflexivity. Qed.

Lemma lockout_exact_witness :
  let f := (login_run demo_limiter demo_logins (∅ : MemoryFailureStore)).1 in
  fst <$> result_option (IsLocked 3000 f "u") = Some true ∧
  (RecordFailure demo_limiter 3000 f "u").1.2 = Ok false.
Proof.
  intros f.
  destruct (lockout_exact demo_limiter "u" demo_logins (∅ : MemoryFailureStore) 3000)
    as (Hlock & Hfail & _).
  - discriminate.
  - reflexivity.
  - simpl. lia.
  - unfold time_zero, second. lia.
  - unfold demo_logins, time_zero, second. repeat constructor; simpl; lia.
  - vm_compute. discriminate.
  - fold f in Hlock, Hfail. rewrite Hlock, Hfail. split; vm_compute; reflexivity.
Defined.

(** A known email with an exhausted bucket is told apart from an unknown one. *)
Example email_bucket_tells :
  let Allow := λ (n : nat) (k : string),
    match n with O => (0, Ok (false, 60%Z)) | S n => (n, Ok (true, 0%Z)) end in
  let answer := λ known, (Check_login Allow 5 0 (mkInput "10.0.0.1" "a@b.c" known)).1.2.1 in
  pc_Allowed (answer true) = false ∧ pc_Allowed (answer false) = true.
Proof. split; reflexivity. Qed.
