(* ===== verification/Counting.v ===== *)
(** * Counting

    The occurrences of an element in a list, and a weight added up over the values
    of a map: what a pool of callers holds, what a set of pollers has pending. *)
From S2P Require Import Prelude.

(** The occurrences of an element in a list. *)
Section occurs.
Context {A : Type} `{!EqDecision A}.
Implicit Types (i j : A) (l k : list A).

Definition occurs (i : A) (l : list A) : nat := length (filter (λ j, j = i) l).

Lemma occurs_app i l k : occurs i (l ++ k) = occurs i l + occurs i k.
Proof. unfold occurs. by rewrite filter_app, length_app. Qed.

Lemma occurs_cons i j l : occurs i (j :: l) = (if decide (j = i) then 1 else 0) + occurs i l.
Proof. unfold occurs. rewrite filter_cons. by case_decide. Qed.

Lemma occurs_nil i : occurs i [] = 0.
Proof. done. Qed.

Lemma occurs_elem i l : i ∈ l ↔ 1 ≤ occurs i l.
Proof.
  induction l as [|j l IH]; [unfold occurs; simpl; set_solver by lia|].
  rewrite occurs_cons, elem_of_cons, IH. case_decide; naive_solver lia.
Qed.

Lemma occurs_NoDup l : (∀ i, occurs i l ≤ 1) → NoDup l.
Proof.
  induction l as [|j l IH]; intros Hl; [constructor|]. constructor.
  - rewrite occurs_elem. specialize (Hl j). rewrite occurs_cons in Hl. case_decide; [lia|done].
  - apply IH. intros i. specialize (Hl i). rewrite occurs_cons in Hl. lia.
Qed.

Lemma occurs_none i l : i ∉ l → occurs i l = 0.
Proof. rewrite occurs_elem. lia. Qed.

Lemma NoDup_occurs i l : NoDup l → occurs i l ≤ 1.
Proof.
  induction 1 as [|j l Hj Hl IH]; [unfold occurs; simpl; lia|]. rewrite occurs_cons.
  case_decide as E; [|lia]. subst. rewrite occurs_none by done. lia.
Qed.
End occurs.

Section msum.
Context {A : Type}.
Implicit Types (f g : A → nat) (m : gmap nat A) (p q : A) (t : nat).

Definition msum (f : A → nat) (m : gmap nat A) : nat := map_fold (λ _ p n, f p + n) 0 m.

Lemma msum_empty f : msum f ∅ = 0.
Proof. apply map_fold_empty. Qed.

Lemma msum_delete f m t p : m !! t = Some p → msum f m = f p + msum f (delete t m).
Proof.
  intros Hp. apply (map_fold_delete_L (λ _ p n, f p + n) 0 t p m); [intros; lia|done].
Qed.

Lemma msum_new f m t p : m !! t = None → msum f (<[t := p]> m) = f p + msum f m.
Proof.
  intros Hm. apply (map_fold_insert_L (λ _ p n, f p + n) 0 t p m); [intros; lia|done].
Qed.

Lemma msum_set f m t p q : m !! t = Some q → msum f (<[t := p]> m) + f q = f p + msum f m.
Proof.
  intros Hq. rewrite <-insert_delete_eq, msum_new by apply lookup_delete_eq.
  rewrite (msum_delete f m t q Hq). lia.
Qed.

Lemma msum_fmap f (g : A → A) m : (∀ p, f (g p) = f p) → msum f (g <$> m) = msum f m.
Proof.
  intros Hg. induction m as [|t p m Hm IH] using map_ind; [by rewrite fmap_empty|].
  rewrite fmap_insert, !msum_new by (rewrite ?lookup_fmap, ?Hm; done). by rewrite Hg, IH.
Qed.

Lemma msum_le f g m : (∀ p, f p ≤ g p) → msum f m ≤ msum g m.
Proof.
  intros Hfg. induction m as [|t p m Hm IH] using map_ind; [done|].
  rewrite !msum_new by done. specialize (Hfg p). lia.
Qed.

Lemma msum_ge f m t p : m !! t = Some p → f p ≤ msum f m.
Proof. intros Hp. rewrite (msum_delete f m t p Hp). lia. Qed.

Lemma msum_zero f m : msum f m = 0 → ∀ t p, m !! t = Some p → f p = 0.
Proof. intros Hm t p Hp. pose proof (msum_ge f m t p Hp). lia. Qed.

Lemma msum_two f m t t' p q :
  t ≠ t' → m !! t = Some p → m !! t' = Some q → f p + f q ≤ msum f m.
Proof.
  intros Hne Hp Hq. rewrite (msum_delete f m t p Hp).
  assert (f q ≤ msum f (delete t m)) by (apply (msum_ge f _ t'); by rewrite lookup_delete_ne).
  lia.
Qed.

Lemma msum_pos f m : 0 < msum f m → ∃ t p, m !! t = Some p ∧ 0 < f p.
Proof.
  induction m as [|t p m Hm IH] using map_ind; [rewrite msum_empty; lia|].
  rewrite msum_new by done. intros Hpos. destruct (decide (0 < f p)).
  - exists t, p. by rewrite lookup_insert_eq.
  - destruct IH as (t' & p' & Ht & ?); [lia|]. exists t', p'.
    rewrite lookup_insert_ne by congruence. done.
Qed.
End msum.
