(* ===== verification/Pool.v ===== *)
(** * The plugin instance pool (packages/go/plugins/runtime/pool)

    Checkouts, returns, the reaper, [Start] and [Close] run concurrently on one
    mutex and one condition variable, so the pool is a state machine: one event
    of [pevent] per atomic action (a critical section, an atomic load or store,
    a module load). [pstep] answers [None] on an event that is not enabled.
    The WebAssembly runtime is the environment: each module load succeeds or
    fails as the event says. Metrics are not modelled. *)
From S2P Require Import Prelude Counting.

(** ** Configuration *)

Record Config := mkConfig {
  has_Runtime : bool;
  has_WasmBytes : bool;
  MinInstances : Z;
  MaxInstances : Z;
  MaxIdleTime : Duration;
  MaxUsesPerInstance : Z;
}.

Inductive pool_error := ErrPoolClosed | ErrCheckoutTimeout | ErrInvalidConfig (why : string) | ErrLoad.

Definition defaultMinInstances : Z := 1.
Definition defaultMaxInstances : Z := 8.
Definition defaultMaxIdleTime : Duration := (5 * minute)%Z.
Definition defaultMaxUsesPerInstance : Z := 0.

(** The checks and defaults of [NewPool]. *)
Definition validate_config (c : Config) : result pool_error Config :=
  if negb (has_Runtime c) then Err (ErrInvalidConfig "Runtime is required") else
  if negb (has_WasmBytes c) then Err (ErrInvalidConfig "WasmBytes is required") else
  if (MinInstances c <? 0)%Z then Err (ErrInvalidConfig "MinInstances must be >= 0") else
  let max := if (MaxInstances c <=? 0)%Z then defaultMaxInstances else MaxInstances c in
  let min := if (MinInstances c =? 0)%Z then defaultMinInstances else MinInstances c in
  if (max <? min)%Z then Err (ErrInvalidConfig "MinInstances > MaxInstances") else
  Ok (mkConfig true true min max
        (if (MaxIdleTime c =? 0)%Z then defaultMaxIdleTime else MaxIdleTime c)
        (if (MaxUsesPerInstance c <? 0)%Z then defaultMaxUsesPerInstance
         else MaxUsesPerInstance c)).

(** ** State *)

(** An instance whose module is loaded; closing one removes it. *)
Record instance := mkInstance { lastUsed : Time; useCount : Z; trapped : bool }.

(** Where a caller is: in the loop of [Checkout] (about to take the mutex,
    waiting on the condition, loading a module), holding a lease, or in
    [returnLease]. *)
Inductive proc :=
| CoTry
| CoWait
| CoCreate
| Held (i : nat)
| RtDecide (i : nat)
| RtRecycle (i : nat)
| RtRelease
| RtPush (i : nat)
| RtCheck.

(** [RpPass]: the tick has found the pool open and the critical section of
    [reapOnce] is next. [RpClose]: the evicted instances still to be closed and
    the slots reserved for the refill. [RpLoad]: a module of the refill loads. *)
Inductive reaper_phase :=
| RpSelect
| RpPass
| RpClose (out : list nat) (need : nat)
| RpRefill (need : nat) (created : list nat)
| RpLoad (need : nat) (created : list nat)
| RpPush (created : list nat)
| RpExited.

(** [StRollback]: a load has failed; the instances still to be closed, and how
    many there were. *)
Inductive start_phase :=
| StNone
| StCreate (needed : nat) (created : list nat)
| StRollback (created : list nat) (loaded : nat).

(** [ClClose]: the idle instances [Close] has taken and not closed yet. *)
Inductive close_phase :=
| ClNone | ClReaper | ClCheck | ClCheck2 | ClWait | ClDrain
| ClClose (l : list nat)
| ClDone (err : bool).

Record Pool := mkPool {
  insts : gmap nat instance;
  idle : list nat;
  live : Z;
  nextID : nat;
  closed : bool;
  outstanding : Z;
  doneCh : bool;
  procs : gmap nat proc;
  cancelled : gset nat;
  reaper : reaper_phase;
  starter : start_phase;
  closer : close_phase;
  answers : list (nat * option pool_error);
}.

Definition empty_pool : Pool :=
  mkPool ∅ [] 0 0 false 0 false ∅ ∅ RpSelect StNone ClNone [].

(** [NewPool] *)
Definition NewPool (c : Config) : result pool_error (Config * Pool) :=
  let? c := validate_config c in Ok (c, empty_pool).

Definition set_core (s : Pool) (im : gmap nat instance) (id : list nat) (lv : Z) (ps : gmap nat proc)
    : Pool :=
  mkPool im id lv (nextID s) (closed s) (outstanding s) (doneCh s) ps (cancelled s) (reaper s)
    (starter s) (closer s) (answers s).
Definition set_procs (s : Pool) (ps : gmap nat proc) : Pool :=
  set_core s (insts s) (idle s) (live s) ps.
Definition add_outstanding (s : Pool) (d : Z) : Pool :=
  mkPool (insts s) (idle s) (live s) (nextID s) (closed s) (outstanding s + d) (doneCh s) (procs s)
    (cancelled s) (reaper s) (starter s) (closer s) (answers s).
Definition set_reaper (s : Pool) (r : reaper_phase) : Pool :=
  mkPool (insts s) (idle s) (live s) (nextID s) (closed s) (outstanding s) (doneCh s) (procs s)
    (cancelled s) r (starter s) (closer s) (answers s).
Definition set_starter (s : Pool) (st : start_phase) : Pool :=
  mkPool (insts s) (idle s) (live s) (nextID s) (closed s) (outstanding s) (doneCh s) (procs s)
    (cancelled s) (reaper s) st (closer s) (answers s).
Definition set_closer (s : Pool) (cl : bool) (c : close_phase) : Pool :=
  mkPool (insts s) (idle s) (live s) (nextID s) cl (outstanding s) (doneCh s) (procs s)
    (cancelled s) (reaper s) (starter s) c (answers s).
Definition cancel (s : Pool) (t : nat) : Pool :=
  mkPool (insts s) (idle s) (live s) (nextID s) (closed s) (outstanding s) (doneCh s) (procs s)
    ({[t]} ∪ cancelled s) (reaper s) (starter s) (closer s) (answers s).

(** A call answers and its caller is gone. *)
Definition answer (s : Pool) (t : nat) (e : option pool_error) : Pool :=
  mkPool (insts s) (idle s) (live s) (nextID s) (closed s) (outstanding s) (doneCh s)
    (delete t (procs s)) (cancelled s) (reaper s) (starter s) (closer s) (answers s ++ [(t, e)]).

(** [createInstance], when the module loads. *)
Definition createInstance (s : Pool) : Pool * nat :=
  (mkPool (<[nextID s := mkInstance time_zero 0 false]> (insts s)) (idle s) (live s) (S (nextID s))
     (closed s) (outstanding s) (doneCh s) (procs s) (cancelled s) (reaper s) (starter s) (closer s)
     (answers s), nextID s).

Definition markCheckedOut (i : nat) (im : gmap nat instance) : gmap nat instance :=
  alter (λ x, mkInstance (lastUsed x) (useCount x + 1) (trapped x)) i im.
Definition markReturned (now : Time) (i : nat) (im : gmap nat instance) : gmap nat instance :=
  alter (λ x, mkInstance now (useCount x) (trapped x)) i im.
Definition markTrapped (i : nat) (im : gmap nat instance) : gmap nat instance :=
  alter (λ x, mkInstance (lastUsed x) (useCount x) true) i im.

(** [cond.Broadcast] wakes every waiter, [cond.Signal] one, any one. *)
Definition wake (p : proc) : proc := match p with CoWait => CoTry | _ => p end.
Definition broadcast (ps : gmap nat proc) : gmap nat proc := wake <$> ps.
Definition waiting (p : proc) : bool := match p with CoWait => true | _ => false end.
Definition signal (pick : nat) (ps : gmap nat proc) : option (gmap nat proc) :=
  if decide (filter (λ kv : nat * proc, waiting kv.2 = true) ps = ∅) then Some ps
  else match ps !! pick with Some CoWait => Some (<[pick := CoTry]> ps) | _ => None end.

(** [checkDrainComplete] *)
Definition checkDrainComplete (s : Pool) : Pool :=
  if closed s && (outstanding s =? 0)%Z then
    mkPool (insts s) (idle s) (live s) (nextID s) (closed s) (outstanding s) true (procs s)
      (cancelled s) (reaper s) (starter s) (closer s) (answers s)
  else s.

(** The eviction loop of [reapOnce]: the idle instances kept and those to close. *)
Fixpoint evict (c : Config) (now : Time) (im : gmap nat instance) (budget : Z) (l : list nat)
    : list nat * list nat :=
  match l with
  | [] => ([], [])
  | i :: rest =>
      let old := match im !! i with
                 | Some x => (MaxIdleTime c <=? now - lastUsed x)%Z
                 | None => false end in
      if (0 <? budget)%Z && old
      then let '(keep, out) := evict c now im (budget - 1)%Z rest in (keep, i :: out)
      else let '(keep, out) := evict c now im budget rest in (i :: keep, out)
  end.

(** ** Steps *)

Inductive pevent :=
| EvCheckout (t : nat)                 (* Checkout entered *)
| EvTry (t : nat)                      (* one pass of its loop, under the mutex *)
| EvCreated (t : nat)                  (* its module loaded *)
| EvCreateFailed (t : nat)             (* its module did not load *)
| EvCancel (t : nat)                   (* its context is done *)
| EvWatch (t : nat)                    (* the context watcher broadcasts *)
| EvMarkUnusable (i : nat)
| EvReturn (t : nat)                   (* Lease.Return: the guard, outstanding - 1 *)
| EvDecide (t : nat)                   (* trapped, at its use cap, pool closed? *)
| EvRecycle (t : nat)                  (* close the instance *)
| EvRelease (t : nat)                  (* give its slot back, under the mutex *)
| EvPush (t : nat) (now : Time) (pick : nat)
| EvDrainCheck (t : nat)
| EvTick                               (* reapOnce entered *)
| EvReap (now : Time)                  (* its critical section *)
| EvReapClose                          (* one evicted instance closed *)
| EvRefill                             (* the test of the refill loop *)
| EvRefilled (ok : bool) (now : Time)  (* its module has loaded, or not *)
| EvRefillPush
| EvReaperExit
| EvStart
| EvStartCreate (ok : bool)
| EvStartUndo                          (* one step of its rollback *)
| EvStartPush (now : Time)
| EvClose
| EvCloseReaped
| EvCloseCheck
| EvCloseCheck2
| EvCloseWaited (by_ctx : bool)
| EvCloseDrain                         (* the idle stack taken, under the mutex *)
| EvCloseOne.                          (* one of its instances closed *)

(** One pass of the loop of [Checkout]. *)
Definition try_checkout (c : Config) (s : Pool) (t : nat) : Pool :=
  if closed s then answer s t (Some ErrPoolClosed)
  else match last (idle s) with
  | Some i =>
      add_outstanding
        (set_core s (markCheckedOut i (insts s)) (take (length (idle s) - 1) (idle s)) (live s)
           (<[t := Held i]> (procs s))) 1
  | None =>
      if (live s <? MaxInstances c)%Z then
        set_core s (insts s) (idle s) (live s + 1) (<[t := CoCreate]> (procs s))
      else if decide (t ∈ cancelled s) then answer s t (Some ErrCheckoutTimeout)
      else set_procs s (<[t := CoWait]> (procs s))
  end.

(** What follows the critical section of [reapOnce], and the closing of each
    evicted instance. *)
Definition reaping (out : list nat) (need : nat) : reaper_phase :=
  match out, need with
  | [], 0 => RpSelect
  | [], _ => RpRefill need []
  | _, _ => RpClose out need
  end.

(** The critical section of [reapOnce]: what it evicts is off the stack and no
    longer counted, and still loaded. *)
Definition reap (c : Config) (now : Time) (s : Pool) : Pool :=
  let '(keep, out) :=
    if (0 <? MaxIdleTime c)%Z
    then evict c now (insts s) (Z.max 0 (live s - MinInstances c)) (idle s)
    else (idle s, []) in
  let lv := (live s - Z.of_nat (length out))%Z in
  let need := Z.max 0 (MinInstances c - lv) in
  set_reaper (set_core s (insts s) keep (lv + need) (procs s)) (reaping out (Z.to_nat need)).

Definition step_caller (c : Config) (s : Pool) (ev : pevent) : option Pool :=
  match ev with
  | EvCheckout t =>
      match procs s !! t with
      | Some _ => None
      | None => Some (if closed s then answer s t (Some ErrPoolClosed)
                      else set_procs s (<[t := CoTry]> (procs s)))
      end
  | EvTry t => match procs s !! t with Some CoTry => Some (try_checkout c s t) | _ => None end
  | EvCreated t =>
      match procs s !! t with
      | Some CoCreate =>
          let '(s, i) := createInstance s in
          Some (add_outstanding
            (set_core s (markCheckedOut i (insts s)) (idle s) (live s) (<[t := Held i]> (procs s))) 1)
      | _ => None
      end
  | EvCreateFailed t =>
      match procs s !! t with
      | Some CoCreate =>
          Some (answer (set_core s (insts s) (idle s) (live s - 1) (procs s)) t (Some ErrLoad))
      | _ => None
      end
  | EvCancel t => Some (cancel s t)
  | EvWatch t =>
      if decide (t ∈ cancelled s) then Some (set_procs s (broadcast (procs s))) else None
  | EvMarkUnusable i => Some (set_core s (markTrapped i (insts s)) (idle s) (live s) (procs s))
  | EvReturn t =>
      match procs s !! t with
      | Some (Held i) => Some (add_outstanding (set_procs s (<[t := RtDecide i]> (procs s))) (-1))
      | _ => None
      end
  | EvDecide t =>
      match procs s !! t with
      | Some (RtDecide i) =>
          let bad := match insts s !! i with
            | Some x => trapped x || ((0 <? MaxUsesPerInstance c) && (MaxUsesPerInstance c <=? useCount x))%Z
            | None => false end in
          Some (set_procs s (<[t := if bad || closed s then RtRecycle i else RtPush i]> (procs s)))
      | _ => None
      end
  | EvRecycle t =>
      match procs s !! t with
      | Some (RtRecycle i) =>
          Some (set_core s (delete i (insts s)) (idle s) (live s) (<[t := RtRelease]> (procs s)))
      | _ => None
      end
  | EvRelease t =>
      match procs s !! t with
      | Some RtRelease =>
          Some (set_core s (insts s) (idle s) (live s - 1) (broadcast (<[t := RtCheck]> (procs s))))
      | _ => None
      end
  | EvPush t now pick =>
      match procs s !! t with
      | Some (RtPush i) =>
          (λ ps, set_core s (markReturned now i (insts s)) (idle s ++ [i]) (live s) ps) <$>
            signal pick (<[t := RtCheck]> (procs s))
      | _ => None
      end
  | EvDrainCheck t =>
      match procs s !! t with
      | Some RtCheck => Some (answer (checkDrainComplete s) t None)
      | _ => None
      end
  | _ => None
  end.

Definition step_reaper (c : Config) (s : Pool) (ev : pevent) : option Pool :=
  match ev with
  | EvTick =>
      match reaper s with
      | RpSelect => Some (if closed s then s else set_reaper s RpPass)
      | _ => None
      end
  | EvReap now =>
      match reaper s with
      | RpPass => Some (reap c now s)
      | _ => None
      end
  | EvReapClose =>
      match reaper s with
      | RpClose (i :: out) need =>
          Some (set_reaper (set_core s (delete i (insts s)) (idle s) (live s) (procs s))
                  (reaping out need))
      | _ => None
      end
  | EvRefill =>
      match reaper s with
      | RpRefill need created =>
          Some (set_reaper s (if closed s then RpPush created else RpLoad need created))
      | _ => None
      end
  | EvRefilled ok now =>
      match reaper s with
      | RpLoad need created =>
          if ok then
            let '(s, i) := createInstance s in
            let created := created ++ [i] in
            Some (set_reaper (set_core s (markReturned now i (insts s)) (idle s) (live s) (procs s))
              (if decide (length created = need) then RpPush created else RpRefill need created))
          else Some (set_reaper
            (set_core s (insts s) (idle s) (live s - Z.of_nat (need - length created)) (procs s))
            (RpPush created))
      | _ => None
      end
  | EvRefillPush =>
      match reaper s with
      | RpPush [] => Some (set_reaper s RpSelect)
      | RpPush created =>
          Some (set_reaper
            (set_core s (insts s) (idle s ++ created) (live s) (broadcast (procs s))) RpSelect)
      | _ => None
      end
  | EvReaperExit =>
      match reaper s with RpSelect => if closed s then Some (set_reaper s RpExited) else None
                        | _ => None end
  | _ => None
  end.

Definition step_start (c : Config) (s : Pool) (ev : pevent) : option Pool :=
  match ev with
  | EvStart =>
      match starter s with
      | StNone =>
          let needed := (MinInstances c - live s)%Z in
          Some (if closed s || (needed <=? 0)%Z then s
                else set_starter s (StCreate (Z.to_nat needed) []))
      | _ => None
      end
  | EvStartCreate ok =>
      match starter s with
      | StCreate needed created =>
          if decide (length created = needed) then None
          else if ok then
            let '(s, i) := createInstance s in Some (set_starter s (StCreate needed (created ++ [i])))
          else Some (set_starter s (StRollback created (length created)))
      | _ => None
      end
  | EvStartUndo =>
      match starter s with
      | StRollback (i :: created) n =>
          Some (set_starter (set_core s (delete i (insts s)) (idle s) (live s) (procs s))
                  (StRollback created n))
      | StRollback [] n =>
          Some (set_starter (set_core s (insts s) (idle s) (live s - Z.of_nat n) (procs s)) StNone)
      | _ => None
      end
  | EvStartPush now =>
      match starter s with
      | StCreate needed created =>
          if decide (length created = needed) then
            Some (set_starter
              (set_core s (foldr (markReturned now) (insts s) created) (idle s ++ created)
                 (live s + Z.of_nat (length created)) (procs s)) StNone)
          else None
      | _ => None
      end
  | _ => None
  end.

Definition step_close (s : Pool) (ev : pevent) : option Pool :=
  match ev with
  | EvClose => Some (if closed s then s else set_closer s true ClReaper)
  | EvCloseReaped =>
      match closer s, reaper s with
      | ClReaper, RpExited =>
          Some (set_closer (set_procs s (broadcast (procs s))) (closed s) ClCheck)
      | _, _ => None
      end
  | EvCloseCheck =>
      match closer s with
      | ClCheck => Some (set_closer s (closed s) (if (0 <? outstanding s)%Z then ClCheck2 else ClDrain))
      | _ => None
      end
  | EvCloseCheck2 =>
      match closer s with
      | ClCheck2 => Some (set_closer (checkDrainComplete s) (closed s) ClWait)
      | _ => None
      end
  | EvCloseWaited by_ctx =>
      match closer s with
      | ClWait =>
          if by_ctx then Some (set_closer s (closed s) (ClDone true))
          else if doneCh s then Some (set_closer s (closed s) ClDrain) else None
      | _ => None
      end
  | EvCloseDrain =>
      match closer s with
      | ClDrain =>
          Some (set_closer (set_core s (insts s) [] 0 (procs s)) (closed s) (ClClose (idle s)))
      | _ => None
      end
  | EvCloseOne =>
      match closer s with
      | ClClose (i :: l) =>
          Some (set_closer (set_core s (delete i (insts s)) (idle s) (live s) (procs s)) (closed s)
                  (ClClose l))
      | ClClose [] => Some (set_closer s (closed s) (ClDone false))
      | _ => None
      end
  | _ => None
  end.

Definition pstep (c : Config) (s : Pool) (ev : pevent) : option Pool :=
  match ev with
  | EvTick | EvReap _ | EvReapClose | EvRefill | EvRefilled _ _ | EvRefillPush | EvReaperExit =>
      step_reaper c s ev
  | EvStart | EvStartCreate _ | EvStartUndo | EvStartPush _ => step_start c s ev
  | EvClose | EvCloseReaped | EvCloseCheck | EvCloseCheck2 | EvCloseWaited _ | EvCloseDrain
  | EvCloseOne => step_close s ev
  | _ => step_caller c s ev
  end.

Fixpoint prun (c : Config) (s : Pool) (evs : list pevent) : option Pool :=
  match evs with
  | [] => Some s
  | ev :: evs => s ← pstep c s ev; prun c s evs
  end.

(** ** Where the instances are *)

Definition inst_of (p : proc) : option nat :=
  match p with Held i | RtDecide i | RtRecycle i | RtPush i => Some i | _ => None end.
Definition holds (i : nat) (p : proc) : nat := if decide (inst_of p = Some i) then 1 else 0.
Definition occupied (p : proc) : nat := match inst_of p with Some _ => 1 | None => 0 end.
Definition creating (p : proc) : nat := match p with CoCreate => 1 | _ => 0 end.
Definition leased (p : proc) : nat := match p with Held _ => 1 | _ => 0 end.
Definition releasing (p : proc) : nat := match p with RtRelease => 1 | _ => 0 end.
Definition trying (p : proc) : nat := match p with CoTry => 1 | _ => 0 end.
Definition waiters (p : proc) : nat := if waiting p then 1 else 0.

Definition rp_created (r : reaper_phase) : list nat :=
  match r with RpRefill _ l | RpLoad _ l | RpPush l => l | _ => [] end.
Definition rp_closing (r : reaper_phase) : list nat :=
  match r with RpClose l _ => l | _ => [] end.
Definition rp_todo (r : reaper_phase) : nat :=
  match r with
  | RpClose _ need => need
  | RpRefill need l | RpLoad need l => need - length l
  | _ => 0
  end.
Definition st_created (st : start_phase) : list nat :=
  match st with StCreate _ l | StRollback l _ => l | StNone => [] end.
Definition cl_closing (cl : close_phase) : list nat :=
  match cl with ClClose l => l | _ => [] end.

(** Instances no caller has: idle, loaded by the reaper or by [Start], or about
    to be closed. *)
Definition shelf (s : Pool) : list nat :=
  idle s ++ rp_closing (reaper s) ++ rp_created (reaper s) ++ st_created (starter s) ++
  cl_closing (closer s).

Definition loaded (s : Pool) (i : nat) : nat := if decide (is_Some (insts s !! i)) then 1 else 0.

(** Each loaded instance is in one place, and nothing else is anywhere. *)
Record placed (s : Pool) : Prop := {
  pl_once i : occurs i (shelf s) + msum (holds i) (procs s) = loaded s i;
  pl_size : size (insts s) = length (shelf s) + msum occupied (procs s);
  pl_fresh i : is_Some (insts s !! i) → i < nextID s;
}.

Lemma evict_split c now im b l keep out :
  evict c now im b l = (keep, out) → (0 ≤ b)%Z →
  (∀ i, occurs i l = occurs i keep + occurs i out) ∧ (Z.of_nat (length out) ≤ b)%Z ∧
  length l = length keep + length out.
Proof.
  revert b keep out. induction l as [|j l IH]; intros b keep out; simpl.
  { intros [= <- <-] Hb. split_and!; [done|simpl; lia|done]. }
  set (old := match im !! j with Some _ => _ | None => _ end).
  destruct ((0 <? b)%Z && old) eqn:E.
  - destruct (evict c now im (b - 1) l) as [k o] eqn:E1. intros [= <- <-] Hb.
    destruct (IH _ _ _ E1) as (Hocc & Hlen & Hl); [lia|].
    split_and!; [|simpl; lia..]. intros i. rewrite !occurs_cons, Hocc. lia.
  - destruct (evict c now im b l) as [k o] eqn:E1. intros [= <- <-] Hb.
    destruct (IH _ _ _ E1 Hb) as (Hocc & Hlen & Hl).
    split_and!; [|simpl; lia..]. intros i. rewrite !occurs_cons, Hocc. lia.
Qed.

(** *** Transitions of [placed]

    Each event is one of: callers change without touching an instance, an
    instance moves between a caller and the shelf, one is loaded, some close. *)

Lemma placed_loaded s s' :
  (∀ i, is_Some (insts s' !! i) ↔ is_Some (insts s !! i)) → ∀ i, loaded s' i = loaded s i.
Proof. intros Hi i. unfold loaded. specialize (Hi i). do 2 case_decide; tauto. Qed.

Lemma size_same_dom (m m' : gmap nat instance) :
  (∀ i, is_Some (m' !! i) ↔ is_Some (m !! i)) → size m' = size m.
Proof.
  intros Hi. rewrite <-!size_dom. f_equal. apply set_eq. intros i. by rewrite !elem_of_dom.
Qed.

Lemma placed_move s s' :
  placed s →
  (∀ i, is_Some (insts s' !! i) ↔ is_Some (insts s !! i)) → nextID s' = nextID s →
  (∀ i, occurs i (shelf s') + msum (holds i) (procs s') =
        occurs i (shelf s) + msum (holds i) (procs s)) →
  length (shelf s') + msum occupied (procs s') = length (shelf s) + msum occupied (procs s) →
  placed s'.
Proof.
  intros [Ho Hs Hf] Hi Hn Hocc Hlen. split.
  - intros i. by rewrite Hocc, (placed_loaded _ _ Hi).
  - rewrite (size_same_dom _ _ Hi). lia.
  - intros i. rewrite Hi, Hn. apply Hf.
Qed.

Lemma placed_create s s' x :
  placed s →
  (∀ i, is_Some (insts s' !! i) ↔ is_Some (<[nextID s := x]> (insts s) !! i)) →
  nextID s' = S (nextID s) →
  (∀ i, occurs i (shelf s') + msum (holds i) (procs s') =
        (if decide (i = nextID s) then 1 else 0) + (occurs i (shelf s) + msum (holds i) (procs s))) →
  length (shelf s') + msum occupied (procs s') = S (length (shelf s) + msum occupied (procs s)) →
  placed s'.
Proof.
  intros [Ho Hs Hf] Hi Hn Hocc Hlen.
  assert (insts s !! nextID s = None) as Hnone.
  { destruct (insts s !! nextID s) eqn:E; [|done]. specialize (Hf (nextID s)). rewrite E in Hf.
    assert (nextID s < nextID s) by eauto. lia. }
  split.
  - intros i. rewrite Hocc, Ho. unfold loaded. destruct (decide (i = nextID s)) as [->|Hne].
    + rewrite Hnone, decide_False by (intros [? ?]; done). rewrite decide_True; [done|].
      apply Hi. rewrite lookup_insert_eq. eauto.
    + specialize (Hi i). rewrite lookup_insert_ne in Hi by done. do 2 case_decide; tauto.
  - rewrite (size_same_dom (<[nextID s := x]> (insts s)) _ Hi).
    rewrite map_size_insert_None by done. lia.
  - intros i. rewrite Hi, Hn. destruct (decide (i = nextID s)) as [->|Hne]; [lia|].
    rewrite lookup_insert_ne by done. intros ?%Hf. lia.
Qed.

Lemma size_delete_loaded (m : gmap nat instance) i :
  is_Some (m !! i) → S (size (delete i m)) = size m.
Proof.
  intros [x Hx]. rewrite map_size_delete, Hx.
  assert (size m ≠ 0); [|lia]. intros Hempty%map_size_empty_inv. by rewrite Hempty in Hx.
Qed.

Lemma placed_close s s' j :
  placed s → insts s' = delete j (insts s) → nextID s' = nextID s →
  (∀ i, (if decide (j = i) then 1 else 0) + (occurs i (shelf s') + msum (holds i) (procs s')) =
        occurs i (shelf s) + msum (holds i) (procs s)) →
  S (length (shelf s') + msum occupied (procs s')) = length (shelf s) + msum occupied (procs s) →
  placed s'.
Proof.
  intros [Ho Hs Hf] Hi Hn Hocc Hlen.
  assert (∀ i, loaded s i ≤ 1) as Hle by (intros i; unfold loaded; case_decide; lia).
  assert (is_Some (insts s !! j)) as Hj.
  { specialize (Hocc j). rewrite Ho, decide_True in Hocc by done.
    unfold loaded in Hocc. case_decide; [done|lia]. }
  split.
  - intros i. specialize (Hocc i). specialize (Hle i). rewrite Ho in Hocc. unfold loaded in *.
    rewrite Hi. destruct (decide (j = i)) as [<-|Hne].
    + rewrite lookup_delete_eq, (decide_False (P := is_Some None)) by (intros [? ?]; done).
      case_decide; lia.
    + rewrite lookup_delete_ne by done. lia.
  - pose proof (size_delete_loaded _ _ Hj). rewrite Hi. lia.
  - intros i. rewrite Hi, Hn. destruct (decide (j = i)) as [<-|Hne].
    + rewrite lookup_delete_eq. by intros [? ?].
    + rewrite lookup_delete_ne by done. apply Hf.
Qed.

Lemma msum_broadcast f ps : f CoTry = f CoWait → msum f (broadcast ps) = msum f ps.
Proof. intros Hf. apply msum_fmap. by intros []. Qed.

Lemma msum_signal f pick ps ps' :
  f CoTry = f CoWait → signal pick ps = Some ps' → msum f ps' = msum f ps.
Proof.
  intros Hf. unfold signal. case_decide; [by intros [= <-]|].
  destruct (ps !! pick) as [[]|] eqn:E; try done. intros [= <-].
  pose proof (msum_set f ps pick CoTry CoWait E). lia.
Qed.

(** Adds what [msum_set] says of the caller that moves, for the weights in the
    goal. *)
Ltac moved H :=
  repeat match goal with
  | |- context [msum ?f (<[?t := ?p]> ?m)] =>
      let E := fresh "E" in pose proof (msum_set f m t p _ H) as E;
      let k := fresh "k" in set (k := msum f (<[t := p]> m)) in *; clearbody k
  | |- context [msum ?f (delete ?t ?m)] =>
      let E := fresh "E" in pose proof (msum_delete f m t _ H) as E;
      let k := fresh "k" in set (k := msum f (delete t m)) in *; clearbody k
  end.
Ltac weigh :=
  unfold holds, occupied, creating, leased in *; cbn [inst_of] in *;
  repeat (rewrite occurs_app || rewrite occurs_cons || rewrite occurs_nil); repeat case_decide; simplify_eq; try lia.

Lemma is_Some_alter (f : instance → instance) i (m : gmap nat instance) j :
  is_Some (alter f i m !! j) ↔ is_Some (m !! j).
Proof.
  destruct (decide (i = j)) as [->|Hne].
  - rewrite lookup_alter_eq. apply fmap_is_Some.
  - by rewrite lookup_alter_ne.
Qed.

Lemma is_Some_markReturned now l m j :
  is_Some (foldr (markReturned now) m l !! j) ↔ is_Some (m !! j).
Proof. induction l as [|i l IH]; simpl; [done|]. unfold markReturned at 1. by rewrite is_Some_alter. Qed.

Lemma placed_caller c s ev s' : placed s → step_caller c s ev = Some s' → placed s'.
Proof.
  intros Hpl Hstep. destruct ev; simpl in Hstep; try discriminate Hstep.
  - (* EvCheckout *) destruct (procs s !! t) eqn:Ht; [done|]. simplify_eq.
    destruct (closed s).
    + apply (placed_move s); [done|done|done|..]; unfold shelf; simpl; rewrite ?delete_id by done;
        done.
    + apply (placed_move s); [done|done|done|..]; unfold shelf; simpl.
      * intros i. rewrite msum_new by done. weigh.
      * rewrite msum_new by done. weigh.
  - (* EvTry *) destruct (procs s !! t) as [[]|] eqn:Ht; try done. simplify_eq.
    unfold try_checkout. destruct (closed s).
    { apply (placed_move s); [done|done|done|..]; unfold shelf; simpl;
        [intros i|]; moved Ht; weigh. }
    destruct (last (idle s)) as [i|] eqn:El.
    + apply last_Some in El as [l El]. rewrite El, length_app. simpl.
      rewrite take_app_le, take_ge by (simpl; lia).
      apply (placed_move s); [done|..]; simpl; unfold shelf; simpl; rewrite ?El.
      * intros j. exact (is_Some_alter _ _ _ j).
      * done.
      * intros j. moved Ht. weigh.
      * rewrite !length_app. moved Ht. simpl. weigh.
    + destruct (live s <? MaxInstances c)%Z; [|destruct (decide (t ∈ cancelled s))];
        (apply (placed_move s); [done|done|done|..]; unfold shelf; simpl;
          [intros i|]; moved Ht; weigh).
  - (* EvCreated *) destruct (procs s !! t) as [[]|] eqn:Ht; try done. simplify_eq.
    apply (placed_create s _ (mkInstance time_zero 0 false)); [done|..]; unfold shelf; simpl.
    + intros j. exact (is_Some_alter _ _ _ j).
    + done.
    + intros j. moved Ht. weigh.
    + moved Ht. weigh.
  - (* EvCreateFailed *) destruct (procs s !! t) as [[]|] eqn:Ht; try done. simplify_eq.
    apply (placed_move s); [done|done|done|..]; unfold shelf; simpl; [intros i|]; moved Ht; weigh.
  - (* EvCancel *) simplify_eq. by apply (placed_move s).
  - (* EvWatch *) case_decide; [|done]. simplify_eq.
    apply (placed_move s); [done|done|done|..]; unfold shelf; simpl;
      intros; rewrite msum_broadcast by done; done.
  - (* EvMarkUnusable *) simplify_eq. apply (placed_move s); [done| |done..].
    intros j. exact (is_Some_alter _ _ _ j).
  - (* EvReturn *) destruct (procs s !! t) as [[]|] eqn:Ht; try done. simplify_eq.
    apply (placed_move s); [done|done|done|..]; unfold shelf; simpl; intros; moved Ht; weigh.
  - (* EvDecide *) destruct (procs s !! t) as [[]|] eqn:Ht; try done. simplify_eq.
    destruct (_ || closed s); (apply (placed_move s); [done|done|done|..];
      unfold shelf; simpl; intros; moved Ht; weigh).
  - (* EvRecycle *) destruct (procs s !! t) as [[]|] eqn:Ht; try done. simplify_eq.
    apply (placed_close s _ i); [done|done|done|..]; unfold shelf; simpl;
      intros; moved Ht; weigh.
  - (* EvRelease *) destruct (procs s !! t) as [[]|] eqn:Ht; try done. simplify_eq.
    apply (placed_move s); [done|done|done|..]; unfold shelf; simpl;
      intros; rewrite msum_broadcast by done; moved Ht; weigh.
  - (* EvPush *) destruct (procs s !! t) as [[]|] eqn:Ht; try done.
    apply fmap_Some in Hstep as (ps & Hsig & ->).
    apply (placed_move s); [done|..]; unfold shelf; simpl.
    + intros j. exact (is_Some_alter _ _ _ j).
    + done.
    + intros j. rewrite (msum_signal (holds j) _ _ _ eq_refl Hsig).
      moved Ht. weigh.
    + rewrite (msum_signal occupied _ _ _ eq_refl Hsig), !length_app. simpl. moved Ht. weigh.
  - (* EvDrainCheck *) destruct (procs s !! t) as [[]|] eqn:Ht; try done. simplify_eq.
    unfold checkDrainComplete.
    destruct (closed s && _); (apply (placed_move s); [done|done|done|..];
      unfold shelf; simpl; intros; moved Ht; weigh).
Qed.

Lemma evicts c now s keep out :
  (if (0 <? MaxIdleTime c)%Z
   then evict c now (insts s) (Z.max 0 (live s - MinInstances c)) (idle s)
   else (idle s, [])) = (keep, out) →
  (∀ i, occurs i (idle s) = occurs i keep + occurs i out) ∧
  length (idle s) = length keep + length out ∧
  (Z.of_nat (length out) ≤ Z.max 0 (live s - MinInstances c))%Z.
Proof.
  case_match.
  - intros (? & ? & ?)%evict_split; [|lia]. done.
  - intros [= <- <-]. simpl. split_and!; [|lia..]. intros. rewrite occurs_nil. lia.
Qed.

(** What [reaping] keeps: the instances to close and the slots reserved. *)
Lemma reaping_parts out need :
  rp_closing (reaping out need) = out ∧ rp_created (reaping out need) = [] ∧
  rp_todo (reaping out need) = need.
Proof. destruct out, need; simpl; split_and!; try done; lia. Qed.

Lemma placed_reaper c s ev s' : placed s → step_reaper c s ev = Some s' → placed s'.
Proof.
  intros Hpl Hstep. destruct ev; simpl in Hstep; try discriminate Hstep;
    destruct (reaper s) as [| |out need|need created|need created|created|] eqn:Hr;
    try discriminate Hstep.
  - (* EvTick *) simplify_eq. destruct (closed s); [done|].
    apply (placed_move s); [done|done|done|..]; unfold shelf; simpl; rewrite Hr; done.
  - (* EvReap *) simplify_eq. unfold reap.
    destruct (if (0 <? MaxIdleTime c)%Z then _ else _) as [keep out] eqn:E.
    apply evicts in E as (Hocc & Hlen & _).
    match goal with |- context [reaping out ?n] => destruct (reaping_parts out n) as (Hc & Hd & _) end.
    apply (placed_move s); [done|done|done|..]; unfold shelf; simpl; rewrite Hc, Hd, Hr; simpl.
    + intros i. rewrite !occurs_app, Hocc. simpl. lia.
    + rewrite !length_app, Hlen. simpl. lia.
  - (* EvReapClose *) destruct out as [|i out]; [done|]. simplify_eq.
    destruct (reaping_parts out need) as (Hc & Hd & _).
    apply (placed_close s _ i); [done|done|done|..]; unfold shelf; simpl; rewrite Hc, Hd, Hr; simpl.
    + intros j. weigh.
    + rewrite !length_app. simpl. rewrite !length_app. lia.
  - (* EvRefill *) simplify_eq.
    apply (placed_move s); [done|done|done|..]; unfold shelf; simpl; rewrite Hr;
      by destruct (closed s).
  - (* EvRefilled *) destruct ok; simplify_eq.
    + apply (placed_create s _ (mkInstance time_zero 0 false)); [done|..]; unfold shelf; simpl;
        rewrite ?Hr; simpl.
      * intros j. exact (is_Some_alter _ _ _ j).
      * done.
      * intros j. rewrite !occurs_app.
        destruct (decide _); simpl; rewrite !occurs_app; weigh.
      * rewrite !length_app. destruct (decide _); simpl; rewrite !length_app; simpl; lia.
    + apply (placed_move s); [done|done|done|..]; unfold shelf; simpl; rewrite Hr; done.
  - (* EvRefillPush *) destruct created as [|j created]; simplify_eq.
    + apply (placed_move s); [done|done|done|..]; unfold shelf; simpl; rewrite Hr; done.
    + apply (placed_move s); [done|done|done|..]; unfold shelf; simpl; rewrite Hr; simpl.
      * intros i. rewrite msum_broadcast by done. weigh.
      * rewrite msum_broadcast by done. rewrite !length_app. simpl. rewrite ?length_app. lia.
  - (* EvReaperExit *) destruct (closed s); simplify_eq.
    apply (placed_move s); [done|done|done|..]; unfold shelf; simpl; rewrite Hr; done.
Qed.

Lemma placed_start c s ev s' : placed s → step_start c s ev = Some s' → placed s'.
Proof.
  intros Hpl Hstep. destruct ev; simpl in Hstep; try discriminate Hstep;
    destruct (starter s) as [|needed created|created n] eqn:Hs; try discriminate Hstep.
  - (* EvStart *) simplify_eq. destruct (_ || _); [done|].
    apply (placed_move s); [done|done|done|..]; unfold shelf; simpl; rewrite Hs; done.
  - (* EvStartCreate *) case_decide; [done|]. destruct ok; simplify_eq.
    + apply (placed_create s _ (mkInstance time_zero 0 false)); [done|done|done|..]; unfold shelf;
        simpl; rewrite Hs; simpl.
      * intros j. weigh.
      * rewrite !length_app. simpl. rewrite ?length_app. lia.
    + apply (placed_move s); [done|done|done|..]; unfold shelf; simpl; rewrite Hs; done.
  - (* EvStartUndo *) destruct created as [|i created]; simplify_eq.
    + apply (placed_move s); [done|done|done|..]; unfold shelf; simpl; rewrite Hs; done.
    + apply (placed_close s _ i); [done|done|done|..]; unfold shelf; simpl; rewrite Hs; simpl.
      * intros j. weigh.
      * rewrite !length_app. simpl. rewrite ?length_app. lia.
  - (* EvStartPush *) case_decide; [|done]. simplify_eq.
    apply (placed_move s); [done|..]; unfold shelf; simpl; rewrite ?Hs; simpl.
    + intros j. apply is_Some_markReturned.
    + done.
    + intros j. weigh.
    + rewrite !length_app. simpl. rewrite ?length_app. lia.
Qed.

(** [Close] runs once, and closes the pool first. *)
Definition settled (s : Pool) : Prop := closer s = ClNone ∨ closed s = true.

Lemma settled_step c s ev s' : settled s → pstep c s ev = Some s' → settled s'.
Proof.
  unfold settled. intros Hst Hstep.
  destruct ev; simpl in Hstep; unfold try_checkout, reap, checkDrainComplete in Hstep;
    repeat case_match; simplify_eq; simpl; auto;
    try (apply fmap_Some in Hstep as (? & _ & ->); done);
    destruct Hst; simplify_eq; auto; left; congruence.
Qed.

Lemma placed_closer s ev s' :
  placed s → settled s → step_close s ev = Some s' → placed s'.
Proof.
  intros Hpl Hst Hstep. destruct ev; simpl in Hstep; try discriminate Hstep.
  - simplify_eq. destruct (closed s) eqn:Hcl; [done|]. destruct Hst as [Hc|?]; [|congruence].
    apply (placed_move s); [done|done|done|..]; unfold shelf; simpl; rewrite Hc; done.
  - destruct (closer s) eqn:Hc, (reaper s) eqn:Hr; simplify_eq.
    apply (placed_move s); [done|done|done|..]; unfold shelf; simpl; rewrite Hr, Hc;
      intros; rewrite msum_broadcast by done; done.
  - destruct (closer s) eqn:Hc; simplify_eq.
    apply (placed_move s); [done|done|done|..]; unfold shelf; simpl; rewrite Hc; by case_match.
  - destruct (closer s) eqn:Hc; simplify_eq. unfold checkDrainComplete.
    destruct (closed s && _); (apply (placed_move s); [done|done|done|..]; unfold shelf; simpl;
      rewrite Hc; done).
  - destruct (closer s) eqn:Hc; try done. destruct by_ctx; [|destruct (doneCh s); [|done]];
      simplify_eq; (apply (placed_move s); [done|done|done|..]; unfold shelf; simpl; rewrite Hc; done).
  - destruct (closer s) eqn:Hc; simplify_eq.
    apply (placed_move s); [done|done|done|..]; unfold shelf; simpl; rewrite Hc; simpl.
    + intros i. weigh.
    + rewrite !length_app. simpl. rewrite ?length_app. lia.
  - destruct (closer s) as [| | | | | |[|i l]|] eqn:Hc; simplify_eq.
    + apply (placed_move s); [done|done|done|..]; unfold shelf; simpl; rewrite Hc; done.
    + apply (placed_close s _ i); [done|done|done|..]; unfold shelf; simpl; rewrite Hc; simpl.
      * intros j. weigh.
      * rewrite !length_app. simpl. rewrite ?length_app. lia.
Qed.

Lemma placed_step c s ev s' : placed s → settled s → pstep c s ev = Some s' → placed s'.
Proof.
  intros Hpl Hst. destruct ev; cbn [pstep];
    first [by apply placed_caller|by apply placed_reaper|by apply placed_start
          |by apply placed_closer].
Qed.

Lemma placed_empty : placed empty_pool.
Proof.
  split; simpl.
  - intros i. unfold loaded. simpl. rewrite decide_False by (rewrite lookup_empty; intros [? ?]; done).
    by rewrite msum_empty.
  - by rewrite msum_empty, map_size_empty.
  - intros i. rewrite lookup_empty. by intros [? ?].
Qed.

(** ** The bound

    [Start] reserves nothing, so the bound needs it to run with no other call
    in progress and its module loads to succeed. *)
Definition start_event (ev : pevent) : bool :=
  match ev with EvStart | EvStartCreate _ | EvStartUndo | EvStartPush _ => true | _ => false end.

Definition undisturbed (s : Pool) (ev : pevent) : Prop :=
  ev ≠ EvStartCreate false ∧ (starter s ≠ StNone → start_event ev = true).

Definition st_todo (st : start_phase) : nat :=
  match st with StCreate needed l => needed - length l | _ => 0 end.

(** [Close] has emptied the idle stack and reset the count. *)
Definition drained (s : Pool) : bool :=
  match closer s with ClClose _ | ClDone false => true | _ => false end.

(** Slots in use: an instance loaded, being loaded, promised to the reaper or to
    [Start], or closed and not given back. *)
Definition footprint (s : Pool) : nat :=
  size (insts s) + msum creating (procs s) + msum releasing (procs s) + rp_todo (reaper s) +
  st_todo (starter s).

(** Instances the reaper has evicted and has still to close. *)
Definition evicted (s : Pool) : nat := length (rp_closing (reaper s)).

Record bounded (c : Config) (s : Pool) : Prop := {
  bd_max : (Z.of_nat (footprint s) ≤ MaxInstances c + Z.of_nat (evicted s))%Z;
  bd_evicted : (Z.of_nat (evicted s) ≤ MaxInstances c - MinInstances c)%Z;
  bd_live : closed s = false →
    (live s + Z.of_nat (st_todo (starter s) + length (st_created (starter s)) + evicted s))%Z =
      Z.of_nat (footprint s);
  bd_spare : drained s = false →
    (Z.of_nat (footprint s) ≤
      live s + Z.of_nat (st_todo (starter s) + length (st_created (starter s)) + evicted s))%Z;
  bd_cap : drained s = false →
    (live s + Z.of_nat (st_todo (starter s) + length (st_created (starter s))) ≤ MaxInstances c)%Z;
  bd_start : match starter s with
    | StNone => True
    | StCreate needed l => length l ≤ needed ∧ closed s = false
    | StRollback _ _ => False end;
  bd_refill : match reaper s with
    | RpClose out _ => out ≠ []
    | RpRefill need l | RpLoad need l => length l < need
    | _ => True end;
  bd_exited : match closer s with ClNone | ClReaper => True | _ => reaper s = RpExited end;
  bd_out : outstanding s = Z.of_nat (msum leased (procs s));
}.

Lemma held_loaded s t p i :
  placed s → procs s !! t = Some p → inst_of p = Some i → is_Some (insts s !! i).
Proof.
  intros [Ho _ _] Ht Hp. specialize (Ho i). pose proof (msum_ge (holds i) _ _ _ Ht) as Hge.
  unfold holds in Hge at 1. rewrite decide_True in Hge by done.
  unfold loaded in Ho. case_decide; [done|lia].
Qed.

Lemma size_alter (f : instance → instance) i (m : gmap nat instance) :
  size (alter f i m) = size m.
Proof. apply size_same_dom. intros j. apply is_Some_alter. Qed.

Lemma size_create s x :
  placed s → size (<[nextID s := x]> (insts s)) = S (size (insts s)).
Proof.
  intros [_ _ Hf]. apply map_size_insert_None.
  destruct (insts s !! nextID s) eqn:E; [|done].
  specialize (Hf (nextID s)). rewrite E in Hf. assert (nextID s < nextID s) by eauto. lia.
Qed.

(** Splits [bounded] of the next state and leaves the arithmetic to [lia]. *)
Ltac bound :=
  split; unfold footprint, evicted, drained, markCheckedOut, markReturned, markTrapped; simpl;
  rewrite ?size_alter.
Ltac booked :=
  try done; intros; try congruence; repeat match goal with H : ?P → _ |- _ => specialize (H ltac:(done)) end.

Lemma bounded_caller c s ev s' :
  placed s → settled s → bounded c s → starter s = StNone → step_caller c s ev = Some s' →
  bounded c s'.
Proof.
  intros Hpl Hset [Hmax Hev Hlive Hspare Hcap Hstart Hrefill Hex Hout] Hst Hstep.
  assert (closed s = false → drained s = false) as Hopen.
  { unfold drained. intros Hcl. destruct Hset as [->|]; congruence. }
  unfold footprint, evicted, drained in *. rewrite Hst in *. cbn [st_todo st_created length] in *.
  destruct ev; simpl in Hstep; try discriminate Hstep.
  - destruct (procs s !! t) eqn:Ht; [done|]. simplify_eq.
    destruct (closed s) eqn:Hcl; bound; rewrite ?Hst, ?delete_id, ?msum_new by done; simpl; booked;
      lia.
  - destruct (procs s !! t) as [[]|] eqn:Ht; try done. simplify_eq.
    unfold try_checkout. destruct (closed s) eqn:Hcl.
    { bound; rewrite ?Hst; simpl; booked; moved Ht; simpl in *; lia. }
    specialize (Hopen eq_refl). specialize (Hlive eq_refl).
    specialize (Hspare Hopen). specialize (Hcap Hopen).
    destruct (last (idle s)) as [i|] eqn:El.
    + bound; rewrite ?Hst; simpl; booked; moved Ht; simpl in *; lia.
    + destruct (live s <? MaxInstances c)%Z eqn:El'; [|destruct (decide (t ∈ cancelled s))];
        (bound; rewrite ?Hst; simpl; booked; moved Ht; simpl in *; lia).
  - destruct (procs s !! t) as [[]|] eqn:Ht; try done. simplify_eq.
    bound; rewrite ?Hst, ?(size_create s) by done; simpl; booked; moved Ht; simpl in *; lia.
  - destruct (procs s !! t) as [[]|] eqn:Ht; try done. simplify_eq.
    bound; rewrite ?Hst; simpl; booked; moved Ht; simpl in *; lia.
  - simplify_eq. bound; rewrite ?Hst; simpl; done.
  - case_decide; [|done]. simplify_eq. bound; rewrite ?Hst, ?msum_broadcast by done; simpl; done.
  - simplify_eq. bound; rewrite ?Hst; simpl; done.
  - destruct (procs s !! t) as [[]|] eqn:Ht; try done. simplify_eq.
    bound; rewrite ?Hst; simpl; booked; moved Ht; simpl in *; lia.
  - destruct (procs s !! t) as [[]|] eqn:Ht; try done. simplify_eq.
    destruct (_ || closed s); (bound; rewrite ?Hst; simpl; booked; moved Ht; simpl in *; lia).
  - destruct (procs s !! t) as [[]|] eqn:Ht; try done. simplify_eq.
    pose proof (size_delete_loaded (insts s) i (held_loaded s t _ i Hpl Ht eq_refl)).
    bound; rewrite ?Hst; simpl; booked; moved Ht; simpl in *; lia.
  - destruct (procs s !! t) as [[]|] eqn:Ht; try done. simplify_eq.
    bound; rewrite ?Hst, ?msum_broadcast by done; simpl; booked; moved Ht; simpl in *; lia.
  - destruct (procs s !! t) as [[]|] eqn:Ht; try done.
    apply fmap_Some in Hstep as (ps & Hsig & ->).
    bound; rewrite ?Hst, ?(msum_signal creating _ _ _ eq_refl Hsig),
      ?(msum_signal releasing _ _ _ eq_refl Hsig),
      ?(msum_signal leased _ _ _ eq_refl Hsig); simpl; booked; moved Ht; simpl in *; lia.
  - destruct (procs s !! t) as [[]|] eqn:Ht; try done. simplify_eq.
    unfold checkDrainComplete. destruct (closed s && _);
    (bound; rewrite ?Hst; simpl; booked; moved Ht; simpl in *; lia).
Qed.

Lemma shelf_loaded s i : placed s → i ∈ shelf s → is_Some (insts s !! i).
Proof.
  intros [Ho _ _] Hin%occurs_elem. specialize (Ho i). unfold loaded in Ho. case_decide; [done|lia].
Qed.

Lemma bounded_reaper c s ev s' :
  placed s → bounded c s → starter s = StNone → (MinInstances c ≤ MaxInstances c)%Z →
  step_reaper c s ev = Some s' → bounded c s'.
Proof.
  intros Hpl [Hmax Hev Hlive Hspare Hcap Hstart Hrefill Hex Hout] Hst Hmm Hstep.
  assert (reaper s ≠ RpExited → drained s = false) as Hopen.
  { unfold drained. destruct (closer s) as [| | | | | | |[]]; done. }
  assert (reaper s ≠ RpExited → closer s = ClNone ∨ closer s = ClReaper) as Hearly.
  { destruct (closer s); auto; done. }
  unfold footprint, evicted in *. rewrite Hst in *. cbn [st_todo st_created length] in *.
  destruct ev; simpl in Hstep; try discriminate Hstep;
    destruct (reaper s) as [| |out need|need created|need created|created|] eqn:Hr;
    try discriminate Hstep; cbn [rp_todo rp_closing length] in *;
    specialize (Hspare (Hopen ltac:(done))); specialize (Hcap (Hopen ltac:(done)));
    (assert (match closer s with ClNone | ClReaper => True | _ => False end) as Hcl
      by (destruct (Hearly ltac:(done)) as [-> | ->]; done)); clear Hopen Hearly Hex.
  - simplify_eq. destruct (closed s) eqn:?; (bound; rewrite ?Hst, ?Hr; simpl; booked; try lia;
      by destruct (closer s)).
  - simplify_eq. unfold reap.
    destruct (if (0 <? MaxIdleTime c)%Z then _ else _) as [keep out] eqn:E.
    apply evicts in E as (_ & _ & Hb).
    set (need := Z.max 0 (MinInstances c - (live s - Z.of_nat (length out)))%Z).
    assert (Z.of_nat (Z.to_nat need) = need) as Hneed by lia.
    assert (need = Z.max 0 (MinInstances c - (live s - Z.of_nat (length out)))%Z) as Hn by done.
    revert Hneed. generalize (Z.to_nat need). clearbody need. intros n Hneed.
    destruct (reaping_parts out n) as (Hc & _ & Ht).
    bound; rewrite ?Hst, ?Hc, ?Ht; simpl; booked; try lia; [|by destruct (closer s)].
    destruct out, n; simpl; done || lia.
  - destruct out as [|i out]; [done|]. simplify_eq.
    destruct (reaping_parts out need) as (Hc & _ & Ht).
    pose proof (size_delete_loaded (insts s) i) as Hsz.
    assert (is_Some (insts s !! i)) as Hi.
    { apply (shelf_loaded s i Hpl). unfold shelf. rewrite Hr. simpl. set_solver. }
    specialize (Hsz Hi). simpl in *.
    bound; rewrite ?Hst, ?Hc, ?Ht; simpl; booked; try lia; [|by destruct (closer s)].
    destruct out, need; simpl; done || lia.
  - simplify_eq. destruct (closed s) eqn:?; bound; rewrite ?Hst; simpl; booked; try lia;
      by destruct (closer s).
  - destruct ok; simplify_eq.
    + destruct (decide (length (created ++ [nextID s]) = need)) as [Hd|Hd];
        rewrite length_app in Hd; simpl in Hd;
        (bound; rewrite ?Hst, ?(size_create s) by done; simpl; rewrite ?length_app; simpl;
          booked; try lia; by destruct (closer s)).
    + bound; rewrite ?Hst; simpl; booked; try lia; by destruct (closer s).
  - destruct created; simplify_eq; (bound; rewrite ?Hst, ?msum_broadcast by done; simpl; booked;
      by destruct (closer s)).
  - destruct (closed s) eqn:?; simplify_eq. bound; rewrite ?Hst; simpl; booked; by destruct (closer s).
Qed.

Lemma bounded_start c s ev s' :
  placed s → settled s → bounded c s → (MinInstances c ≤ MaxInstances c)%Z →
  ev ≠ EvStartCreate false → step_start c s ev = Some s' → bounded c s'.
Proof.
  intros Hpl Hset [Hmax Hev Hlive Hspare Hcap Hstart Hrefill Hex Hout] Hmm Hok Hstep.
  assert (closed s = false → drained s = false) as Hopen.
  { unfold drained. intros Hcl. destruct Hset as [->|]; congruence. }
  unfold footprint, evicted in *.
  destruct ev; simpl in Hstep; try discriminate Hstep;
    destruct (starter s) as [|needed created|created n] eqn:Hs; try discriminate Hstep; try done;
    cbn [st_todo st_created] in *.
  - simplify_eq. destruct (closed s) eqn:Hcl; simpl.
    { bound; rewrite ?Hs; simpl; booked. }
    specialize (Hspare (Hopen eq_refl)). specialize (Hcap (Hopen eq_refl)). specialize (Hlive eq_refl).
    destruct (_ <=? 0)%Z eqn:E.
    { bound; rewrite ?Hs; simpl; booked. }
    bound; booked; simpl in *; try split; try done; lia.
  - destruct Hstart as [Hle Hcl]. case_decide; [done|]. destruct ok; [|done]. simplify_eq.
    specialize (Hlive Hcl). specialize (Hspare (Hopen Hcl)). specialize (Hcap (Hopen Hcl)).
    bound; rewrite ?(size_create s) by done; rewrite ?length_app; simpl; booked;
      try split; try done; lia.
  - destruct Hstart as [Hle Hcl]. case_decide; [|done]. simplify_eq. specialize (Hlive Hcl). specialize (Hspare (Hopen Hcl)). specialize (Hcap (Hopen Hcl)).
    pose proof (size_same_dom (insts s) (foldr (markReturned now) (insts s) created)
      (is_Some_markReturned now created (insts s))) as Hsize.
    revert Hsize. generalize (foldr (markReturned now) (insts s) created). intros m' Hsize.
    bound; booked; simpl; lia.
Qed.

Lemma bounded_closer c s ev s' :
  placed s → settled s → bounded c s → starter s = StNone → step_close s ev = Some s' → bounded c s'.
Proof.
  intros Hpl Hset [Hmax Hev Hlive Hspare Hcap Hstart Hrefill Hex Hout] Hst Hstep.
  unfold footprint, evicted, drained in *. rewrite Hst in *. cbn [st_todo st_created length] in *.
  destruct ev; simpl in Hstep; try discriminate Hstep.
  - simplify_eq. destruct (closed s) eqn:Hcl; [by bound; rewrite ?Hst; booked|].
    destruct Hset as [Hc|?]; [|congruence]. rewrite Hc in *.
    bound; rewrite ?Hst; simpl; booked.
  - destruct (closer s) eqn:Hc, (reaper s) eqn:Hr; simplify_eq.
    bound; rewrite ?Hst, ?Hr, ?msum_broadcast by done; simpl; booked.
  - destruct (closer s) eqn:Hc; simplify_eq. rewrite Hex in *.
    destruct (0 <? outstanding s)%Z; bound; rewrite ?Hst, ?Hex; simpl; booked.
  - destruct (closer s) eqn:Hc; simplify_eq. unfold checkDrainComplete. rewrite Hex in *.
    destruct (closed s && _); bound; rewrite ?Hst, ?Hex; simpl; booked.
  - destruct (closer s) eqn:Hc; try done. rewrite Hex in *.
    destruct by_ctx; [|destruct (doneCh s); [|done]];
      simplify_eq; bound; rewrite ?Hst, ?Hex; simpl; booked.
  - destruct (closer s) eqn:Hc; simplify_eq. rewrite Hex in *. destruct Hset as [|Hcl]; [congruence|].
    bound; rewrite ?Hst, ?Hex; simpl; booked.
  - destruct (closer s) as [| | | | | |[|i l]|] eqn:Hc; simplify_eq; rewrite Hex in *;
      (destruct Hset as [|Hcl]; [congruence|]).
    + bound; rewrite ?Hst, ?Hex; simpl; booked.
    + pose proof (size_delete_loaded (insts s) i) as Hsz.
      assert (is_Some (insts s !! i)) as Hi.
      { apply (shelf_loaded s i Hpl). unfold shelf. rewrite Hc. simpl. set_solver. }
      specialize (Hsz Hi). simpl in *. bound; rewrite ?Hst, ?Hex; simpl; booked; lia.
Qed.

Lemma bounded_step c s ev s' :
  placed s → settled s → bounded c s → (MinInstances c ≤ MaxInstances c)%Z → undisturbed s ev →
  pstep c s ev = Some s' → bounded c s'.
Proof.
  intros Hpl Hset Hb Hmm [Hok Hquiet] Hstep.
  assert (start_event ev = false → starter s = StNone) as Hst.
  { intros Hev. destruct (starter s); [done|..]; by rewrite Hquiet in Hev. }
  destruct ev; cbn [pstep] in Hstep; cbn [start_event] in Hst;
    first [by eapply bounded_caller; eauto|by eapply bounded_reaper; eauto
          |by eapply bounded_start; eauto|by eapply bounded_closer; eauto].
Qed.

Lemma bounded_empty c :
  (0 ≤ MinInstances c ≤ MaxInstances c)%Z → bounded c empty_pool.
Proof.
  intros Hmax. split; unfold footprint, evicted; simpl; rewrite ?map_size_empty, ?msum_empty; simpl;
    try done; intros; lia.
Qed.

(** ** The use cap *)

Record capped (c : Config) (s : Pool) : Prop := {
  cp_all i x : insts s !! i = Some x → (useCount x ≤ MaxUsesPerInstance c)%Z;
  cp_shelf i x : i ∈ shelf s → insts s !! i = Some x → (useCount x < MaxUsesPerInstance c)%Z;
  cp_push t i x : procs s !! t = Some (RtPush i) → insts s !! i = Some x →
    (useCount x < MaxUsesPerInstance c)%Z;
}.

Lemma lookup_broadcast ps t p :
  broadcast ps !! t = Some p → p ≠ CoTry → ps !! t = Some p.
Proof.
  unfold broadcast. rewrite lookup_fmap. intros (q & Hq & ->)%fmap_Some Hne. by destruct q.
Qed.

Lemma lookup_signal pick ps ps' t p :
  signal pick ps = Some ps' → ps' !! t = Some p → p ≠ CoTry → ps !! t = Some p.
Proof.
  unfold signal. case_decide; [by intros [= <-]|].
  destruct (ps !! pick) as [[]|]; try done. intros [= <-].
  intros [[-> <-]|[_ ?]]%lookup_insert_Some; done.
Qed.

(** The rule for the events that use no instance: counters are kept, what is on
    the shelf was there or is being pushed, and pushers were pushing. *)
Lemma capped_keep c s s' :
  capped c s →
  (∀ i x', insts s' !! i = Some x' → ∃ x, insts s !! i = Some x ∧ useCount x' = useCount x) →
  (∀ i, i ∈ shelf s' → i ∈ shelf s ∨ ∃ t, procs s !! t = Some (RtPush i)) →
  (∀ t i, procs s' !! t = Some (RtPush i) → procs s !! t = Some (RtPush i)) →
  capped c s'.
Proof.
  intros [Ha Hs Hp] Hi Hsh Hpr. split.
  - intros i x' (x & Hx & ->)%Hi. eauto.
  - intros i x' [?|[t ?]]%Hsh (x & Hx & ->)%Hi; eauto.
  - intros t i x' ?%Hpr (x & Hx & ->)%Hi. eauto.
Qed.

(** The rule for the loads: the new instance is unused. *)
Lemma capped_load c s s' y :
  (0 < MaxUsesPerInstance c)%Z → capped c s → useCount y = 0%Z →
  (∀ i x', insts s' !! i = Some x' →
     ∃ x, <[nextID s := y]> (insts s) !! i = Some x ∧ useCount x' = useCount x) →
  (∀ i, i ∈ shelf s' → i ∈ shelf s ∨ i = nextID s) →
  (∀ t i, procs s' !! t = Some (RtPush i) → procs s !! t = Some (RtPush i)) →
  capped c s'.
Proof.
  intros Hcap [Ha Hs Hp] Hy Hi Hsh Hpr. split.
  - intros i x' (x & [[<- <-]|[_ Hx]]%lookup_insert_Some & ->)%Hi; [lia|eauto].
  - intros i x' Hin (x & [[<- <-]|[Hne Hx]]%lookup_insert_Some & ->)%Hi; [lia|].
    apply Hsh in Hin as [?| ->]; [eauto|done].
  - intros t i x' ?%Hpr (x & [[<- <-]|[_ Hx]]%lookup_insert_Some & ->)%Hi; [lia|eauto].
Qed.

Lemma keep_alter (f : instance → instance) (m : gmap nat instance) j i x' :
  (∀ x, useCount (f x) = useCount x) →
  alter f j m !! i = Some x' → ∃ x, m !! i = Some x ∧ useCount x' = useCount x.
Proof.
  intros Hf. destruct (decide (j = i)) as [->|Hne].
  - rewrite lookup_alter_eq. intros (x & ? & ->)%fmap_Some. eauto.
  - rewrite lookup_alter_ne by done. eauto.
Qed.

Lemma keep_close j (m : gmap nat instance) i x' :
  delete j m !! i = Some x' → ∃ x, m !! i = Some x ∧ useCount x' = useCount x.
Proof. intros [_ ?]%lookup_delete_Some. eauto. Qed.

Lemma keep_markReturned now l m i x' :
  foldr (markReturned now) m l !! i = Some x' → ∃ x, m !! i = Some x ∧ useCount x' = useCount x.
Proof.
  revert x'. induction l as [|j l IH]; simpl; [eauto|]. intros x' Hx.
  apply keep_alter in Hx as (x & Hx & ->); [|done]. by apply IH.
Qed.

(** Checking an instance out adds a use and takes it off the shelf. *)
Lemma capped_use c s s' i :
  capped c s → placed s' →
  (∃ x, insts s !! i = Some x ∧ (useCount x < MaxUsesPerInstance c)%Z) →
  insts s' = markCheckedOut i (insts s) →
  (∃ t, procs s' !! t = Some (Held i)) →
  (∀ j, j ∈ shelf s' → j ∈ shelf s) →
  (∀ t j, procs s' !! t = Some (RtPush j) → procs s !! t = Some (RtPush j)) →
  capped c s'.
Proof.
  intros [Ha Hs Hp] Hpl (x & Hx & Hlt) Hi [t Ht] Hsh Hpr.
  assert (i ∉ shelf s' ∧ ∀ t', procs s' !! t' ≠ Some (RtPush i)) as [Hoff Hnop].
  { destruct Hpl as [Ho _ _]. specialize (Ho i).
    assert (loaded s' i ≤ 1) by (unfold loaded; case_decide; lia).
    pose proof (msum_ge (holds i) _ _ _ Ht) as Hge.
    unfold holds in Hge at 1. simpl in Hge. rewrite decide_True in Hge by done. split.
    - rewrite occurs_elem. lia.
    - intros t' Ht'. assert (t ≠ t') as Hne by congruence.
      pose proof (msum_two (holds i) _ _ _ _ _ Hne Ht Ht') as Htwo.
      unfold holds in Htwo at 1 2. simpl in Htwo. rewrite decide_True in Htwo by done. lia. }
  assert (∀ j y, insts s' !! j = Some y →
    (j = i ∧ useCount y ≤ MaxUsesPerInstance c)%Z ∨ (j ≠ i ∧ insts s !! j = Some y)) as Hy.
  { intros j y. rewrite Hi. unfold markCheckedOut. destruct (decide (i = j)) as [<-|Hne].
    - rewrite lookup_alter_eq, Hx. intros [= <-]. left. simpl. split; [done|lia].
    - rewrite lookup_alter_ne by done. auto. }
  split.
  - intros j y [[_ ?]|[_ ?]]%Hy; eauto.
  - intros j y Hin [[-> _]|[_ ?]]%Hy; [done|eauto].
  - intros t' j y Hj [[-> _]|[_ ?]]%Hy; [by destruct (Hnop t')|eauto].
Qed.

Lemma shelf_in s i :
  i ∈ shelf s ↔ i ∈ idle s ∨ i ∈ rp_closing (reaper s) ∨ i ∈ rp_created (reaper s) ∨
    i ∈ st_created (starter s) ∨ i ∈ cl_closing (closer s).
Proof. unfold shelf. set_solver. Qed.

(** Closes the side conditions of the three rules. *)
Ltac pushers :=
  intros ? ? Hps; cbn [procs set_core set_procs add_outstanding set_reaper set_starter set_closer
    answer cancel checkDrainComplete] in Hps;
  repeat first
  [ apply lookup_broadcast in Hps; [|discriminate]
  | apply lookup_delete_Some in Hps as [_ Hps]
  | apply lookup_insert_Some in Hps as [[_ [=]]|[_ Hps]] ]; exact Hps.
Ltac shelved := intros ?; rewrite !shelf_in; simpl; set_solver.
Ltac counters :=
  unfold markTrapped, markReturned; simpl; intros;
  first [ eassumption | by eauto | by (eapply keep_alter; [|eassumption]) | by eapply keep_close
        | by eapply keep_markReturned ].
Ltac kept s := apply (capped_keep _ s); [done|counters|shelved|pushers].

Lemma capped_caller c s ev s' :
  (0 < MaxUsesPerInstance c)%Z → placed s → placed s' → capped c s → step_caller c s ev = Some s' → capped c s'.
Proof.
  intros Hcap Hpl0 Hpl Hc Hstep. destruct ev; simpl in Hstep; try discriminate Hstep.
  - destruct (procs s !! t); [done|]. simplify_eq. destruct (closed s); kept s.
  - destruct (procs s !! t) as [[]|] eqn:Ht; try done. simplify_eq. revert Hpl.
    unfold try_checkout. destruct (closed s); [intros _; kept s|].
    destruct (last (idle s)) as [i|] eqn:El.
    + intros Hpl. apply last_Some in El as [l El].
      assert (i ∈ shelf s) as Hin by (rewrite shelf_in, El; set_solver).
      destruct (shelf_loaded s i Hpl0 Hin) as [x Hx].
      apply (capped_use c s _ i); [done|done| |done| | |pushers].
      * exists x. split; [done|]. by apply (cp_shelf _ _ Hc i).
      * exists t. simpl. apply lookup_insert_eq.
      * intros j. rewrite !shelf_in. simpl. rewrite El, length_app, take_app_le, take_ge
          by (simpl; lia). set_solver.
    + intros _. destruct (live s <? MaxInstances c)%Z; [|destruct (decide (t ∈ cancelled s))]; kept s.
  - destruct (procs s !! t) as [[]|] eqn:Ht; try done. simplify_eq.
    apply (capped_use c (createInstance s).1 _ (nextID s)); [|done| |done| |shelved|pushers].
    + apply (capped_load c s _ (mkInstance time_zero 0 false)); [done|done|done|simpl; eauto| |pushers].
      intros j. rewrite !shelf_in. simpl. auto.
    + simpl. rewrite lookup_insert_eq. eauto.
    + exists t. simpl. apply lookup_insert_eq.
  - destruct (procs s !! t) as [[]|] eqn:Ht; try done. simplify_eq. kept s.
  - simplify_eq. kept s.
  - case_decide; [|done]. simplify_eq. kept s.
  - simplify_eq. kept s.
  - destruct (procs s !! t) as [[]|] eqn:Ht; try done. simplify_eq. kept s.
  - destruct (procs s !! t) as [[]|] eqn:Ht; try done. simplify_eq.
    destruct Hc as [Ha Hs Hp]. split; [done|done|].
    simpl. intros t' j x [[-> Hj]|[_ Hj]]%lookup_insert_Some Hx; [|eauto].
    destruct (_ || closed s) eqn:Eb; [done|]. injection Hj as ->. rewrite Hx in Eb.
    apply orb_false_iff in Eb as [Eb _]. apply orb_false_iff in Eb as [_ Eb]. lia.
  - destruct (procs s !! t) as [[]|] eqn:Ht; try done. simplify_eq.
    kept s.
  - destruct (procs s !! t) as [[]|] eqn:Ht; try done. simplify_eq. kept s.
  - destruct (procs s !! t) as [[]|] eqn:Ht; try done.
    apply fmap_Some in Hstep as (ps & Hsig & ->).
    apply (capped_keep c s); [done|counters| |].
    + intros j. rewrite !shelf_in. simpl. rewrite elem_of_app, list_elem_of_singleton.
      intros [[?| ->]|?]; eauto.
    + simpl. intros t' j Hj. eapply lookup_signal in Hj; [|done|done].
      apply lookup_insert_Some in Hj as [[_ [=]]|[_ ?]]. done.
  - destruct (procs s !! t) as [[]|] eqn:Ht; try done. simplify_eq.
    unfold checkDrainComplete. destruct (closed s && _); kept s.
Qed.

Lemma capped_reaper c s ev s' :
  (0 < MaxUsesPerInstance c)%Z → capped c s → step_reaper c s ev = Some s' → capped c s'.
Proof.
  intros Hcap Hc Hstep. destruct ev; simpl in Hstep; try discriminate Hstep;
    destruct (reaper s) as [| |out need|need created|need created|created|] eqn:Hr;
    try discriminate Hstep.
  - simplify_eq. destruct (closed s); [done|].
    apply (capped_keep c s); [done|counters| |pushers].
    intros i. rewrite !shelf_in, Hr. simpl. auto.
  - simplify_eq. unfold reap.
    destruct (if (0 <? MaxIdleTime c)%Z then _ else _) as [keep out] eqn:E.
    apply evicts in E as (Hocc & _).
    match goal with |- context [reaping out ?n] => destruct (reaping_parts out n) as (Hc' & Hd & _) end.
    apply (capped_keep c s); [done|counters| |pushers].
    intros i. rewrite !shelf_in. simpl. rewrite Hc', Hd.
    assert (i ∈ keep ∨ i ∈ out → i ∈ idle s) as Hin.
    { rewrite !occurs_elem, Hocc. lia. }
    intros [?|[?|[?%elem_of_nil|?]]]; auto; done.
  - destruct out as [|j out]; [done|]. simplify_eq.
    destruct (reaping_parts out need) as (Hc' & Hd & _).
    apply (capped_keep c s); [done|counters| |pushers].
    intros i. rewrite !shelf_in, Hr. simpl. rewrite Hc', Hd. set_solver.
  - simplify_eq. destruct (closed s); (apply (capped_keep c s); [done|counters| |pushers]);
      intros i; rewrite !shelf_in, Hr; simpl; auto.
  - destruct ok; simplify_eq.
    + apply (capped_load c s _ (mkInstance time_zero 0 false)); [done|done|done|counters| |pushers].
      intros i. rewrite !shelf_in, Hr. simpl. case_decide; simpl; set_solver.
    + apply (capped_keep c s); [done|counters| |pushers].
      intros i. rewrite !shelf_in, Hr. simpl. auto.
  - destruct created; simplify_eq; (apply (capped_keep c s); [done|counters| |pushers]);
      intros i; rewrite !shelf_in, Hr; simpl; set_solver.
  - destruct (closed s); simplify_eq. apply (capped_keep c s); [done|counters| |pushers].
    intros i. rewrite !shelf_in, Hr. simpl. auto.
Qed.

Lemma capped_start c s ev s' :
  (0 < MaxUsesPerInstance c)%Z → capped c s → step_start c s ev = Some s' → capped c s'.
Proof.
  intros Hcap Hc Hstep. destruct ev; simpl in Hstep; try discriminate Hstep;
    destruct (starter s) as [|needed created|created n] eqn:Hs; try discriminate Hstep.
  - simplify_eq. case_match; [done|]. apply (capped_keep c s); [done|counters| |pushers].
    intros i. rewrite !shelf_in, Hs. simpl. set_solver.
  - case_decide; [done|]. destruct ok; simplify_eq.
    + apply (capped_load c s _ (mkInstance time_zero 0 false)); [done|done|done|counters| |pushers].
      intros i. rewrite !shelf_in, Hs. simpl. set_solver.
    + apply (capped_keep c s); [done|counters| |pushers].
      intros i. rewrite !shelf_in, Hs. simpl. auto.
  - destruct created; simplify_eq; (apply (capped_keep c s); [done|counters| |pushers]);
      intros i; rewrite !shelf_in, Hs; simpl; set_solver.
  - case_decide; simplify_eq. apply (capped_keep c s); [done|counters| |pushers].
    intros i. rewrite !shelf_in, Hs. simpl. set_solver.
Qed.

Lemma capped_closer c s ev s' : capped c s → step_close s ev = Some s' → capped c s'.
Proof.
  intros Hc Hstep. destruct ev; simpl in Hstep; try discriminate Hstep.
  - simplify_eq. destruct (closed s); kept s.
  - destruct (closer s), (reaper s) eqn:?; simplify_eq. kept s.
  - destruct (closer s); simplify_eq. destruct (0 <? outstanding s)%Z; kept s.
  - destruct (closer s); simplify_eq. unfold checkDrainComplete. destruct (closed s && _); kept s.
  - destruct (closer s); simplify_eq. destruct by_ctx; [|destruct (doneCh s); [|done]];
      simplify_eq; kept s.
  - destruct (closer s); simplify_eq. kept s.
  - destruct (closer s) as [| | | | | |[|i l]|] eqn:Hcl; simplify_eq;
      (apply (capped_keep c s); [done|counters| |pushers]); intros j; rewrite !shelf_in, Hcl;
      simpl; set_solver.
Qed.

Lemma capped_step c s ev s' :
  (0 < MaxUsesPerInstance c)%Z → placed s → settled s → capped c s → pstep c s ev = Some s' →
  capped c s'.
Proof.
  intros Hcap Hpl Hset Hc Hstep. pose proof (placed_step _ _ _ _ Hpl Hset Hstep) as Hpl'.
  destruct ev; cbn [pstep] in Hstep;
    first [exact (capped_caller _ _ _ _ Hcap Hpl Hpl' Hc Hstep)
          |exact (capped_reaper _ _ _ _ Hcap Hc Hstep)|exact (capped_start _ _ _ _ Hcap Hc Hstep)
          |exact (capped_closer _ _ _ _ Hc Hstep)].
Qed.

Lemma capped_empty c : capped c empty_pool.
Proof. split; simpl; intros; by rewrite lookup_empty in *. Qed.

(** ** Runs *)

(** The states reached from a new pool by events that [P] allows. *)
Inductive runs (c : Config) (P : Pool → pevent → Prop) : Pool → Prop :=
| runs_new : runs c P empty_pool
| runs_step s ev s' : runs c P s → P s ev → pstep c s ev = Some s' → runs c P s'.

(** Every module load succeeds, so [Start] rolls nothing back. *)
Definition load_ok (ev : pevent) : Prop :=
  match ev with EvCreateFailed _ | EvRefilled false _ | EvStartCreate false | EvStartUndo => False | _ => True end.

Lemma runs_weaken c (P Q : Pool → pevent → Prop) s :
  (∀ s ev, P s ev → Q s ev) → runs c P s → runs c Q s.
Proof. intros HPQ. induction 1; [constructor|econstructor; eauto]. Qed.

Lemma runs_settled c P s : runs c P s → settled s.
Proof. induction 1; [by left|by eapply settled_step]. Qed.

Lemma runs_placed c P s : runs c P s → placed s.
Proof. induction 1; [apply placed_empty|eapply placed_step; eauto using runs_settled]. Qed.

Lemma runs_capped c P s : (0 < MaxUsesPerInstance c)%Z → runs c P s → capped c s.
Proof.
  intros Hcap. induction 1; [apply capped_empty|].
  eapply capped_step; eauto using runs_placed, runs_settled.
Qed.

Lemma runs_bounded c s :
  (0 ≤ MinInstances c ≤ MaxInstances c)%Z → runs c undisturbed s → bounded c s.
Proof.
  intros Hmm. induction 1; [by apply bounded_empty|].
  eapply bounded_step; eauto using runs_placed, runs_settled. lia.
Qed.

Lemma NewPool_ok c0 c s :
  NewPool c0 = Ok (c, s) →
  s = empty_pool ∧ (0 < MinInstances c)%Z ∧ (0 < MaxInstances c)%Z ∧
  (MinInstances c ≤ MaxInstances c)%Z ∧ (0 ≤ MaxUsesPerInstance c)%Z.
Proof.
  unfold NewPool, validate_config.
  destruct (has_Runtime c0), (has_WasmBytes c0); simpl; try done.
  destruct (MinInstances c0 <? 0)%Z eqn:Emin; [done|].
  set (mx := if (MaxInstances c0 <=? 0)%Z then _ else _).
  set (mn := if (MinInstances c0 =? 0)%Z then _ else _).
  assert (0 < mx)%Z by (unfold mx, defaultMaxInstances; case_match; lia).
  assert (0 < mn)%Z by (unfold mn, defaultMinInstances; case_match; lia).
  clearbody mx mn. destruct (mx <? mn)%Z eqn:E; [done|]. intros [= <- <-]. simpl.
  split_and!; try done; try lia. unfold defaultMaxUsesPerInstance. case_match; lia.
Qed.

(** ** No wake-up is lost *)

Definition waits (s : Pool) : Prop := ∃ t, procs s !! t = Some CoWait.

(** While a caller waits, every slot a caller could take has an awake caller
    that is about to look; after [Close] only its broadcast is awaited. *)
Record awake (c : Config) (s : Pool) : Prop := {
  aw_open : closed s = false → waits s →
    (Z.of_nat (length (idle s)) + (MaxInstances c - live s) ≤ Z.of_nat (msum trying (procs s)))%Z;
  aw_closed : closed s = true → waits s → closer s = ClReaper;
  aw_closing : closer s = ClNone ∨ closed s = true;
}.

Lemma waits_broadcast s ps : procs s = broadcast ps → ¬ waits s.
Proof.
  intros Hps [t Ht]. rewrite Hps in Ht. unfold broadcast in Ht. rewrite lookup_fmap in Ht.
  apply fmap_Some in Ht as (p & _ & ?). by destruct p.
Qed.

Lemma waits_insert s s' t p :
  procs s' = <[t := p]> (procs s) → p ≠ CoWait → waits s' → waits s.
Proof.
  intros Hp Hne [t' Ht']. rewrite Hp in Ht'.
  apply lookup_insert_Some in Ht' as [[_ ?]|[_ ?]]; [done|by exists t'].
Qed.

Lemma waits_delete s s' t : procs s' = delete t (procs s) → waits s' → waits s.
Proof.
  intros Hp [t' Ht']. rewrite Hp in Ht'. apply lookup_delete_Some in Ht' as [_ ?]. by exists t'.
Qed.

Lemma awake_silent c s s' :
  awake c s → ¬ waits s' → closer s' = ClNone ∨ closed s' = true → awake c s'.
Proof. intros _ Hw Hcl. split; try done; intros; by destruct Hw. Qed.

(** The rule for the events that wake nobody and close nothing. *)
Lemma awake_keep c s s' :
  awake c s → (waits s' → waits s) → closed s' = closed s → closer s' = closer s →
  (closed s = false → waits s' →
   (Z.of_nat (length (idle s')) - live s' - Z.of_nat (msum trying (procs s'))
    ≤ Z.of_nat (length (idle s)) - live s - Z.of_nat (msum trying (procs s)))%Z) →
  awake c s'.
Proof.
  intros [Ho Hc Hcg] Hw Hcl Hcr Hle. split; rewrite Hcl, ?Hcr; [intros Hclosed Hw'..|done].
  - specialize (Ho Hclosed (Hw Hw')). specialize (Hle Hclosed Hw'). lia.
  - auto.
Qed.

Lemma signal_cases pick ps ps' :
  signal pick ps = Some ps' →
  (ps' = ps ∧ ∀ t, ps !! t ≠ Some CoWait) ∨
  (ps !! pick = Some CoWait ∧ ps' = <[pick := CoTry]> ps).
Proof.
  unfold signal. case_decide as Hnone.
  - intros [= <-]. left. split; [done|]. intros t Ht.
    assert (filter (λ kv : nat * proc, waiting kv.2 = true) ps !! t = Some CoWait) as Hf
      by (by apply map_lookup_filter_Some).
    by rewrite Hnone, lookup_empty in Hf.
  - destruct (ps !! pick) as [[]|] eqn:E; try done. intros [= <-]. by right.
Qed.

Lemma awake_caller c s ev s' :
  load_ok ev → awake c s → step_caller c s ev = Some s' → awake c s'.
Proof.
  intros Hok Ha Hstep. destruct ev; simpl in Hstep, Hok; try discriminate Hstep; try done.
  - destruct (procs s !! t) eqn:Ht; [done|]. simplify_eq. destruct (closed s) eqn:Hcl.
    + apply (awake_keep c s); try done; simpl; [by apply waits_delete with t|congruence].
    + apply (awake_keep c s); try done; simpl; [by apply waits_insert with t CoTry|].
      intros _ _. rewrite msum_new by done. simpl. lia.
  - destruct (procs s !! t) as [[]|] eqn:Ht; try done. simplify_eq. unfold try_checkout.
    destruct (closed s) eqn:Hcl.
    { apply (awake_keep c s); try done; simpl; [by apply waits_delete with t|congruence]. }
    destruct (last (idle s)) as [i|] eqn:El.
    + apply last_Some in El as [l El].
      apply (awake_keep c s); try done; simpl; [by apply waits_insert with t (Held i)|].
      intros _ _. rewrite length_take, El, length_app. simpl. moved Ht. simpl in *. lia.
    + apply last_None in El. destruct (live s <? MaxInstances c)%Z eqn:El'.
      * apply (awake_keep c s); try done; simpl; [by apply waits_insert with t CoCreate|].
        intros _ _. moved Ht. simpl in *. lia.
      * destruct Ha as [_ _ Hcg].
        destruct (decide (t ∈ cancelled s)); split; simpl; try congruence; rewrite El; simpl; lia.
  - destruct (procs s !! t) as [[]|] eqn:Ht; try done. simplify_eq.
    apply (awake_keep c s); try done; simpl; [by apply waits_insert with t (Held (nextID s))|].
    intros _ _. moved Ht. simpl in *. lia.
  - simplify_eq. by apply (awake_keep c s).
  - case_decide; [|done]. simplify_eq. by apply (awake_silent c s); [|eapply waits_broadcast|apply Ha].
  - simplify_eq. by apply (awake_keep c s).
  - destruct (procs s !! t) as [[]|] eqn:Ht; try done. simplify_eq.
    apply (awake_keep c s); try done; simpl; [by apply waits_insert with t (RtDecide i)|].
    intros _ _. moved Ht. simpl in *. lia.
  - destruct (procs s !! t) as [[]|] eqn:Ht; try done. simplify_eq.
    apply (awake_keep c s); try done; simpl.
    + eapply waits_insert; [done|by case_match].
    + intros _ _. destruct (_ || closed s); moved Ht; simpl in *; lia.
  - destruct (procs s !! t) as [[]|] eqn:Ht; try done. simplify_eq.
    apply (awake_keep c s); try done; simpl; [by apply waits_insert with t RtRelease|].
    intros _ _. moved Ht. simpl in *. lia.
  - destruct (procs s !! t) as [[]|] eqn:Ht; try done. simplify_eq.
    by apply (awake_silent c s); [|eapply waits_broadcast|apply Ha].
  - destruct (procs s !! t) as [[]|] eqn:Ht; try done.
    apply fmap_Some in Hstep as (ps & Hsig & ->).
    apply signal_cases in Hsig as [[-> Hnone]|[Hpick ->]].
    { apply (awake_silent c s); [done| |apply Ha]. intros [t' Ht']. by apply (Hnone t'). }
    apply lookup_insert_Some in Hpick as [[_ [=]]|[Hne Hpick]].
    apply (awake_keep c s); try done; simpl; [by exists pick|].
    intros _ _. rewrite length_app. simpl.
    pose proof (msum_set trying (<[t := RtCheck]> (procs s)) pick CoTry CoWait
      ltac:(by rewrite lookup_insert_ne)).
    pose proof (msum_set trying (procs s) t RtCheck _ Ht). simpl in *. lia.
  - destruct (procs s !! t) as [[]|] eqn:Ht; try done. simplify_eq. unfold checkDrainComplete.
    destruct (closed s && _); (apply (awake_keep c s); try done; simpl;
      [by apply waits_delete with t|intros _ _; moved Ht; simpl in *; lia]).
Qed.

Lemma awake_reaper c s ev s' :
  load_ok ev → awake c s → step_reaper c s ev = Some s' → awake c s'.
Proof.
  intros Hok Ha Hstep. destruct ev; simpl in Hstep; try discriminate Hstep;
    destruct (reaper s) as [| |out need|need created|need created|created|] eqn:Hr;
    try discriminate Hstep.
  - simplify_eq. destruct (closed s) eqn:Hcl; [done|]. by apply (awake_keep c s).
  - simplify_eq. unfold reap.
    destruct (if (0 <? MaxIdleTime c)%Z then _ else _) as [keep out] eqn:E.
    apply evicts in E as (_ & Hlen & _).
    apply (awake_keep c s); try done. intros _ _. simpl. lia.
  - destruct out as [|i out]; [done|]. simplify_eq. by apply (awake_keep c s).
  - simplify_eq. by apply (awake_keep c s).
  - destruct ok; [|done]. simplify_eq. by apply (awake_keep c s).
  - destruct created; simplify_eq; [by apply (awake_keep c s)|].
    by apply (awake_silent c s); [|eapply waits_broadcast|apply Ha].
  - destruct (closed s) eqn:?; simplify_eq. by apply (awake_keep c s).
Qed.

(** [Start] adds as many idle instances as it adds to the count. *)
Lemma awake_start c s ev s' :
  load_ok ev → awake c s → step_start c s ev = Some s' → awake c s'.
Proof.
  intros Hok Ha Hstep. destruct ev; simpl in Hstep; try discriminate Hstep;
    destruct (starter s) as [|needed created|created n] eqn:Hs; try discriminate Hstep; try done.
  - simplify_eq. case_match; [done|]. by apply (awake_keep c s).
  - case_decide; [done|]. destruct ok; [|done]. simplify_eq. by apply (awake_keep c s).
  - case_decide; simplify_eq. apply (awake_keep c s); try done. simpl. intros _ _.
    rewrite length_app. lia.
Qed.

Lemma awake_closer c s ev s' : awake c s → step_close s ev = Some s' → awake c s'.
Proof.
  intros Ha Hstep.
  assert (closer s ≠ ClNone → closed s = true ∧ (closer s ≠ ClReaper → ¬ waits s)) as Hcl.
  { destruct Ha as [_ Hc [?|?]]; [done|]. split; [done|]. intros Hne Hw. by apply Hne, Hc. }
  destruct ev; simpl in Hstep; try discriminate Hstep.
  - simplify_eq. destruct (closed s) eqn:?; [done|]. split; simpl; [done|done|by right].
  - destruct (closer s), (reaper s) eqn:?; simplify_eq. destruct Hcl as [? _]; [done|].
    apply (awake_silent c s); [done|by eapply waits_broadcast|by right].
  - destruct (closer s); simplify_eq. destruct Hcl as [? Hw]; [done|].
    apply (awake_silent c s); [done|by apply Hw|by right].
  - destruct (closer s); simplify_eq. destruct Hcl as [? Hw]; [done|]. unfold checkDrainComplete.
    destruct (closed s && _); (apply (awake_silent c s); [done|by apply Hw|by right]).
  - destruct (closer s); simplify_eq. destruct Hcl as [? Hw]; [done|].
    destruct by_ctx; [|destruct (doneCh s); [|done]]; simplify_eq;
      (apply (awake_silent c s); [done|by apply Hw|by right]).
  - destruct (closer s); simplify_eq. destruct Hcl as [? Hw]; [done|].
    apply (awake_silent c s); [done|by apply Hw|by right].
  - destruct (closer s) as [| | | | | |[|i l]|]; simplify_eq; (destruct Hcl as [? Hw]; [done|]);
      (apply (awake_silent c s); [done|by apply Hw|by right]).
Qed.

Lemma awake_step c s ev s' : load_ok ev → awake c s → pstep c s ev = Some s' → awake c s'.
Proof.
  intros Hok Ha Hstep. destruct ev; cbn [pstep] in Hstep;
    first [exact (awake_caller _ _ _ _ Hok Ha Hstep)|exact (awake_reaper _ _ _ _ Hok Ha Hstep)
          |exact (awake_start _ _ _ _ Hok Ha Hstep)|exact (awake_closer _ _ _ _ Ha Hstep)].
Qed.

Lemma awake_empty c : awake c empty_pool.
Proof.
  split; simpl; try done; [|by left]. intros _ [t Ht]. simpl in Ht. by rewrite lookup_empty in Ht.
Qed.

Lemma runs_awake c P s : (∀ s ev, P s ev → load_ok ev) → runs c P s → awake c s.
Proof. intros HP. induction 1; [apply awake_empty|]. eapply awake_step; eauto. Qed.

(** ** A waiting checkout can still be served

    From an open pool within its bound: the other callers finish, the returned
    slot wakes [t], and [t] leaves with a lease. *)
Definition can_serve (c : Config) (s : Pool) (t : nat) : Prop :=
  ∃ evs s' i, prun c s evs = Some s' ∧ procs s' !! t = Some (Held i).

Lemma can_serve_step c s ev s' t :
  pstep c s ev = Some s' → can_serve c s' t → can_serve c s t.
Proof.
  intros Hstep (evs & s2 & i & Hrun & Ht). exists (ev :: evs), s2, i. simpl. by rewrite Hstep.
Qed.

Definition room (c : Config) (s : Pool) : Prop := idle s ≠ [] ∨ (live s < MaxInstances c)%Z.

Lemma serve_created c s t : procs s !! t = Some CoCreate → can_serve c s t.
Proof.
  intros Ht. exists [EvCreated t]. simpl. rewrite Ht. simpl. eexists _, _. split; [done|].
  simpl. apply lookup_insert_eq.
Qed.

Lemma serve_try c s t : closed s = false → room c s → procs s !! t = Some CoTry → can_serve c s t.
Proof.
  intros Hcl Hroom Ht.
  assert (pstep c s (EvTry t) = Some (try_checkout c s t)) as Hstep by (simpl; by rewrite Ht).
  unfold try_checkout in Hstep. rewrite Hcl in Hstep. destruct (last (idle s)) as [i|] eqn:El.
  - exists [EvTry t]. cbn [prun]. rewrite Hstep. eexists _, i. split; [done|]. simpl.
    apply lookup_insert_eq.
  - apply last_None in El. destruct Hroom as [?|Hlt]; [done|].
    rewrite (proj2 (Z.ltb_lt _ _) Hlt) in Hstep. eapply can_serve_step; [done|].
    apply serve_created. simpl. apply lookup_insert_eq.
Qed.

(** What the rest of the chain keeps. *)
Record stuck (c : Config) (s : Pool) (t : nat) : Prop := {
  sk_open : closed s = false;
  sk_live : (live s ≤ MaxInstances c)%Z;
  sk_waits : procs s !! t = Some CoWait;
}.

Lemma lookup_broadcast_wait ps t : ps !! t = Some CoWait → broadcast ps !! t = Some CoTry.
Proof. intros Ht. unfold broadcast. by rewrite lookup_fmap, Ht. Qed.

Lemma serve_release c s t t' : stuck c s t → procs s !! t' = Some RtRelease → can_serve c s t.
Proof.
  intros [Hcl Hlv Ht] Ht'. eapply (can_serve_step _ _ (EvRelease t')); [simpl; by rewrite Ht'|].
  apply serve_try; [done|right; simpl; lia|]. simpl. apply lookup_broadcast_wait.
  rewrite lookup_insert_ne by congruence. done.
Qed.

Lemma serve_recycle c s t t' i : stuck c s t → procs s !! t' = Some (RtRecycle i) → can_serve c s t.
Proof.
  intros [Hcl Hlv Ht] Ht'. eapply (can_serve_step _ _ (EvRecycle t')); [simpl; by rewrite Ht'|].
  apply (serve_release _ _ _ t'); [split; simpl; try done|simpl; apply lookup_insert_eq].
  rewrite lookup_insert_ne by congruence. done.
Qed.

Lemma serve_push c s t t' i : stuck c s t → procs s !! t' = Some (RtPush i) → can_serve c s t.
Proof.
  intros [Hcl Hlv Ht] Ht'. assert (t' ≠ t) by congruence.
  assert (signal t (<[t' := RtCheck]> (procs s)) = Some (<[t := CoTry]> (<[t' := RtCheck]> (procs s))))
    as Hsig.
  { assert (<[t' := RtCheck]> (procs s) !! t = Some CoWait) as Hw by by rewrite lookup_insert_ne.
    unfold signal. rewrite decide_False, Hw; [done|]. intros Hnone.
    assert (filter (λ kv : nat * proc, waiting kv.2 = true) (<[t' := RtCheck]> (procs s)) !! t
      = Some CoWait) as Hf by (by apply map_lookup_filter_Some).
    by rewrite Hnone, lookup_empty in Hf. }
  eapply (can_serve_step _ _ (EvPush t' time_zero t)).
  { cbn [pstep step_caller]. rewrite Ht', Hsig. done. }
  apply serve_try; [done|left; simpl; by intros [_ [=]]%app_nil|]. simpl. apply lookup_insert_eq.
Qed.

Lemma serve_decide c s t t' i : stuck c s t → procs s !! t' = Some (RtDecide i) → can_serve c s t.
Proof.
  intros [Hcl Hlv Ht] Ht'.
  eapply (can_serve_step _ _ (EvDecide t')); [simpl; by rewrite Ht'|].
  match goal with |- context [<[t' := ?q]> (procs s)] => set (p := q) end.
  assert (p = RtRecycle i ∨ p = RtPush i) as Hp.
  { unfold p. case_match; auto. }
  assert (stuck c (set_procs s (<[t' := p]> (procs s))) t).
  { split; simpl; try done. rewrite lookup_insert_ne by congruence. done. }
  destruct Hp as [Hp|Hp]; [eapply serve_recycle|eapply serve_push]; try done;
    simpl; rewrite lookup_insert_eq, Hp; done.
Qed.

Lemma serve_held c s t t' i : stuck c s t → procs s !! t' = Some (Held i) → can_serve c s t.
Proof.
  intros [Hcl Hlv Ht] Ht'.
  eapply (can_serve_step _ _ (EvReturn t')); [simpl; by rewrite Ht'|].
  apply (serve_decide _ _ _ t' i); [split; simpl; try done|simpl; apply lookup_insert_eq].
  rewrite lookup_insert_ne by congruence. done.
Qed.

Lemma serve_create c s t t' : stuck c s t → procs s !! t' = Some CoCreate → can_serve c s t.
Proof.
  intros [Hcl Hlv Ht] Ht'.
  eapply (can_serve_step _ _ (EvCreated t')); [simpl; by rewrite Ht'|].
  apply (serve_held _ _ _ t' (nextID s)); [split; simpl; try done|simpl; apply lookup_insert_eq].
  rewrite lookup_insert_ne by congruence. done.
Qed.

Lemma serve_awake c s t t' :
  stuck c s t → room c s → procs s !! t' = Some CoTry → can_serve c s t.
Proof.
  intros [Hcl Hlv Ht] Hroom Ht'. assert (t' ≠ t) by congruence.
  eapply (can_serve_step _ _ (EvTry t')); [simpl; by rewrite Ht'|].
  unfold try_checkout. rewrite Hcl. destruct (last (idle s)) as [i|] eqn:El.
  - apply (serve_held _ _ _ t' i); [split; simpl; try done|simpl; apply lookup_insert_eq].
    by rewrite lookup_insert_ne.
  - apply last_None in El. destruct Hroom as [?|Hlt]; [done|].
    rewrite (proj2 (Z.ltb_lt _ _) Hlt).
    apply (serve_create _ _ _ t'); [split; simpl; try done; [lia|]|simpl; apply lookup_insert_eq].
    by rewrite lookup_insert_ne.
Qed.

Lemma serve_refill_push c s t l : stuck c s t → reaper s = RpPush l → l ≠ [] → can_serve c s t.
Proof.
  intros [Hcl Hlv Ht] Hr Hl. destruct l as [|j l]; [done|].
  eapply (can_serve_step _ _ EvRefillPush); [simpl; by rewrite Hr|].
  apply serve_try; [done|left; simpl; by intros [_ [=]]%app_nil|].
  simpl. by apply lookup_broadcast_wait.
Qed.

Lemma serve_load c s t need l :
  stuck c s t → reaper s = RpLoad need l → length l < need → can_serve c s t.
Proof.
  remember (need - length l) as k eqn:Hk. revert s l Hk.
  induction k as [|k IH]; intros s l Hk Hst Hr Hlt; [lia|].
  destruct Hst as [Hcl Hlv Ht].
  eapply (can_serve_step _ _ (EvRefilled true time_zero)); [simpl; by rewrite Hr|].
  destruct (decide (length (l ++ [nextID s]) = need)) as [Hd|Hd];
    rewrite length_app in Hd; simpl in Hd.
  - apply (serve_refill_push _ _ _ (l ++ [nextID s])); [by split|done|by intros [_ [=]]%app_nil].
  - eapply (can_serve_step _ _ EvRefill); [simpl; by rewrite Hcl|].
    eapply (IH _ (l ++ [nextID s])); rewrite ?length_app; simpl; try done; try lia.
Qed.

Lemma serve_refill c s t need l :
  stuck c s t → reaper s = RpRefill need l → length l < need → can_serve c s t.
Proof.
  intros [Hcl Hlv Ht] Hr Hlt.
  eapply (can_serve_step _ _ EvRefill); [simpl; by rewrite Hr, Hcl|].
  by apply (serve_load _ _ _ need l).
Qed.

(** The evicted instances are closed, and the refill takes over. *)
Lemma serve_close c s t out need :
  stuck c s t → reaper s = RpClose out need → out ≠ [] → 0 < need → can_serve c s t.
Proof.
  revert s. induction out as [|i out IH]; intros s [Hcl Hlv Ht] Hr Hout Hneed; [done|].
  eapply (can_serve_step _ _ EvReapClose); [simpl; by rewrite Hr|].
  destruct out as [|j out].
  - destruct need as [|need]; [lia|]. by apply (serve_refill _ _ _ (S need) []).
  - by apply IH.
Qed.

(** When every slot is taken, somebody is on the way to giving one back. *)
Lemma serve_full c s t :
  placed s → settled s → bounded c s → stuck c s t → (0 < MaxInstances c)%Z → ¬ room c s →
  can_serve c s t.
Proof.
  intros [_ Hsz _] Hset [Hmax _ Hlive _ _ _ Hrefill _ _] Hsk Hpos Hfull.
  pose proof (sk_open _ _ _ Hsk) as Hcl. pose proof (sk_live _ _ _ Hsk) as Hlv.
  assert (closer s = ClNone) as Hc by (destruct Hset; [done|congruence]).
  specialize (Hlive Hcl). unfold room in Hfull.
  assert (idle s = []) as Hidle by (destruct (idle s); [done|exfalso; apply Hfull; by left]).
  assert (¬ (live s < MaxInstances c)%Z) by tauto.
  unfold footprint, evicted, shelf in *. rewrite Hidle, Hc in Hsz. simpl in Hsz.
  rewrite !length_app in Hsz. simpl in Hsz.
  assert (0 < msum occupied (procs s) ∨ 0 < msum creating (procs s) ∨ 0 < msum releasing (procs s) ∨
    0 < length (rp_created (reaper s)) ∨ 0 < rp_todo (reaper s)) as Hsome by lia.
  clear Hsz Hmax Hlive. destruct Hsome as [Ho|[Hp|[Hp|Hr]]].
  - apply msum_pos in Ho as (t' & p & Ht' & Hp). destruct p; try (cbn in Hp; lia);
      eauto using serve_held, serve_decide, serve_recycle, serve_push.
  - apply msum_pos in Hp as (t' & p & Ht' & Hp). destruct p; try (cbn in Hp; lia).
    eauto using serve_create.
  - apply msum_pos in Hp as (t' & p & Ht' & Hp). destruct p; try (cbn in Hp; lia).
    eauto using serve_release.
  - destruct (reaper s) as [| |out need|need l|need l|l|] eqn:Er; simpl in Hr; try lia.
    + apply (serve_close _ _ _ out need); [done..|lia].
    + eauto using serve_refill.
    + eauto using serve_load.
    + apply (serve_refill_push _ _ _ l); [exact Hsk|exact Er|]. intros ->. simpl in Hr. lia.
Qed.

(** ** Properties *)

(** C36. Whatever the interleaving of checkouts, returns, reaper passes and
    [Close], as long as [Start] overlaps no other call and its module loads
    succeed: the pool never counts more than [MaxInstances] modules, and loaded
    are at most that many besides the ones the reaper has evicted and is about
    to close, [2 * MaxInstances - MinInstances] in all; no instance is idle
    twice, a leased instance is loaded, is neither idle nor evicted and has that
    one caller, no instance is used more often than [MaxUsesPerInstance], and
    [outstanding] counts the leases. *)
Theorem pool_bounds c0 c s0 s :
  NewPool c0 = Ok (c, s0) → runs c undisturbed s →
  (closed s = false → live s ≤ MaxInstances c)%Z ∧
  (Z.of_nat (size (insts s)) ≤ MaxInstances c + Z.of_nat (evicted s))%Z ∧
  (Z.of_nat (size (insts s)) ≤ 2 * MaxInstances c - MinInstances c)%Z ∧
  NoDup (idle s) ∧
  (∀ t i, procs s !! t = Some (Held i) →
     is_Some (insts s !! i) ∧ i ∉ idle s ∧ i ∉ rp_closing (reaper s) ∧
     ∀ t' p, procs s !! t' = Some p → inst_of p = Some i → t' = t) ∧
  ((0 < MaxUsesPerInstance c)%Z →
     ∀ i x, insts s !! i = Some x → (useCount x ≤ MaxUsesPerInstance c)%Z) ∧
  outstanding s = Z.of_nat (msum leased (procs s)).
Proof.
  intros (_ & Hmin & Hpos & Hmm & _)%NewPool_ok Hrun.
  pose proof (runs_placed _ _ _ Hrun) as Hpl. pose proof (runs_settled _ _ _ Hrun) as Hset.
  destruct (runs_bounded c s ltac:(lia) Hrun) as [Hmax Hev _ _ Hcap _ _ _ Hout].
  assert (∀ i, occurs i (idle s) + occurs i (rp_closing (reaper s)) + msum (holds i) (procs s) ≤ 1)
    as Honce.
  { intros i. pose proof (pl_once _ Hpl i) as Ho. unfold shelf, loaded in Ho.
    rewrite !occurs_app in Ho. case_decide; lia. }
  split_and!; [|unfold footprint in Hmax; lia..| | |intros ?; by eapply cp_all, runs_capped|done].
  - intros Hcl. unfold drained in Hcap. destruct Hset as [Hc|]; [|congruence].
    rewrite Hc in Hcap. specialize (Hcap eq_refl). lia.
  - apply occurs_NoDup. intros i. specialize (Honce i). lia.
  - intros t i Ht. specialize (Honce i).
    assert (∀ p, inst_of p = Some i → holds i p = 1) as Hone
      by (intros p Hp; unfold holds; by rewrite decide_True).
    pose proof (msum_ge (holds i) _ _ _ Ht) as Hge. rewrite Hone in Hge by done.
    split_and!; [by eapply held_loaded|rewrite occurs_elem; lia..|].
    intros t' p Ht' Hp. destruct (decide (t' = t)) as [|Hne]; [done|].
    pose proof (msum_two (holds i) _ _ _ _ _ Hne Ht' Ht) as Htwo.
    rewrite !Hone in Htwo by done. lia.
Qed.

(** C37. No wake-up is lost, as long as [Start] overlaps no other call and every
    module load succeeds: while a caller sleeps in [Checkout] every idle instance
    and every free slot has an awake caller about to take it, the sleeping caller
    can still be served, and a closed pool has sleeping callers only until the
    broadcast of [Close]. *)
Theorem no_lost_wakeup c0 c s0 s t :
  NewPool c0 = Ok (c, s0) → runs c (λ s ev, undisturbed s ev ∧ load_ok ev) s →
  procs s !! t = Some CoWait →
  if closed s then closer s = ClReaper
  else (Z.of_nat (length (idle s)) + (MaxInstances c - live s) ≤
          Z.of_nat (msum trying (procs s)))%Z ∧ can_serve c s t.
Proof.
  intros (_ & Hmin & Hpos & Hmm & _)%NewPool_ok Hrun Ht.
  destruct (runs_awake c _ s (λ _ _ HP, proj2 HP) Hrun) as [Ho Hc _].
  pose proof (runs_placed _ _ _ Hrun) as Hpl.
  assert (bounded c s) as Hb.
  { apply runs_bounded; [lia|]. eapply runs_weaken, Hrun. by intros ? ? [? _]. }
  destruct (closed s) eqn:Hcl; [apply Hc; [done|by exists t]|].
  specialize (Ho eq_refl ltac:(by exists t)). split; [done|].
  assert (stuck c s t) as Hsk.
  { split; [done| |done]. pose proof (runs_settled _ _ _ Hrun) as [Hcn|]; [|congruence].
    pose proof (bd_cap _ _ Hb) as Hcap. unfold drained in Hcap. rewrite Hcn in Hcap.
    specialize (Hcap eq_refl). lia. }
  destruct (decide (0 < Z.of_nat (length (idle s)) + (MaxInstances c - live s))%Z) as [Hroom|Hroom].
  - destruct (msum_pos trying (procs s)) as (t' & p & Ht' & Hp); [lia|].
    apply (serve_awake _ _ _ t'); [done| |destruct p; [done|cbn in Hp; lia..]].
    unfold room. destruct (idle s); [right; simpl in *; lia|by left].
  - apply serve_full; eauto using runs_settled. pose proof (sk_live _ _ _ Hsk).
    unfold room. destruct (idle s); simpl in Hroom; [intros [?|?]; [done|lia]|lia].
Qed.

(** ** Concrete runs *)

Definition quiet (s : Pool) (ev : pevent) : bool :=
  match ev with
  | EvStartCreate false | EvCreateFailed _ | EvRefilled false _ | EvStartUndo => false
  | _ => true
  end &&
  match starter s with StNone => true | _ => start_event ev end.

Fixpoint quiet_run (c : Config) (s : Pool) (evs : list pevent) : option Pool :=
  match evs with
  | [] => Some s
  | ev :: evs => if quiet s ev then s ← pstep c s ev; quiet_run c s evs else None
  end.

Lemma quiet_ok s ev : quiet s ev = true → undisturbed s ev ∧ load_ok ev.
Proof.
  unfold quiet, undisturbed. intros [Hev Hst]%andb_true_iff. split_and!.
  - by intros ->.
  - by destruct (starter s).
  - destruct ev; try done; by destruct ok.
Qed.

Lemma quiet_run_runs c s evs s' :
  runs c (λ s ev, undisturbed s ev ∧ load_ok ev) s → quiet_run c s evs = Some s' →
  runs c (λ s ev, undisturbed s ev ∧ load_ok ev) s'.
Proof.
  revert s. induction evs as [|ev evs IH]; simpl; intros s Hrun; [by intros [= <-]|].
  destruct (quiet s ev) eqn:Hq; [|done]. destruct (pstep c s ev) as [s1|] eqn:Hs; [|done].
  apply IH. eapply runs_step; [done|by apply quiet_ok|done].
Qed.

Definition demo_config (min max uses : Z) : Config := mkConfig true true min max 0 uses.
Definition demo (min max uses : Z) : Config := mkConfig true true min max defaultMaxIdleTime uses.

Definition demo_events : list pevent :=
  [EvCheckout 1; EvTry 1; EvCreated 1; EvCheckout 2; EvTry 2].
Definition demo_state : Pool :=
  default empty_pool (quiet_run (demo 1 1 3) empty_pool demo_events).

Lemma demo_runs : runs (demo 1 1 3) (λ s ev, undisturbed s ev ∧ load_ok ev) demo_state.
Proof.
  apply (quiet_run_runs _ empty_pool demo_events); [constructor|].
  unfold demo_state. destruct (quiet_run (demo 1 1 3) empty_pool demo_events) eqn:E; [done|].
  vm_compute in E. discriminate E.
Qed.

Lemma pool_bounds_witness :
  NewPool (demo_config 1 1 3) = Ok (demo 1 1 3, empty_pool) ∧
  size (insts demo_state) = 1 ∧ procs demo_state !! 1 = Some (Held 0) ∧
  (Z.of_nat (size (insts demo_state)) ≤ 1 + Z.of_nat (evicted demo_state))%Z.
Proof.
  split_and!; [done|vm_compute; reflexivity|vm_compute; reflexivity|].
  refine (proj1 (proj2 (pool_bounds (demo_config 1 1 3) (demo 1 1 3) empty_pool demo_state eq_refl _))).
  eapply runs_weaken, demo_runs. by intros ? ? [? _].
Defined.

Lemma no_lost_wakeup_witness :
  closed demo_state = false ∧ procs demo_state !! 2 = Some CoWait ∧
  can_serve (demo 1 1 3) demo_state 2.
Proof.
  split_and!; [vm_compute; reflexivity|vm_compute; reflexivity|].
  exact (proj2 (no_lost_wakeup (demo_config 1 1 3) (demo 1 1 3) empty_pool demo_state 2
    eq_refl demo_runs ltac:(vm_compute; reflexivity))).
Defined.

(** ** What the code does outside these hypotheses *)

Definition observe (s : Pool) := (live s, size (insts s), idle s, closed s, closer s).

(** The reaper gives up the slots of the instances it evicts before it closes
    them, so a checkout meanwhile loads more than [MaxInstances] modules. *)
Theorem reaper_overshoots :
  (λ s, (live s, size (insts s), reaper s)) <$> prun (demo 1 2 0) empty_pool
    ([EvCheckout 1; EvTry 1; EvCreated 1; EvCheckout 2; EvTry 2; EvCreated 2] ++
     flat_map (λ t, [EvReturn t; EvDecide t; EvPush t 0 0; EvDrainCheck t]) [1; 2] ++
     [EvTick; EvReap defaultMaxIdleTime;
      EvCheckout 3; EvTry 3; EvCheckout 4; EvTry 4; EvCreated 4])
  = Some (2%Z, 3, RpClose [0] 0).
Proof. vm_compute. reflexivity. Qed.

(** A module load that fails in [Start] takes the modules loaded before it off
    [live], which never counted them; more than [MaxInstances] are then loaded. *)
Theorem Start_failure_corrupts_live :
  observe <$> prun (demo 2 2 0) empty_pool
    ([EvStart; EvStartCreate true; EvStartCreate false; EvStartUndo; EvStartUndo] ++
     [EvCheckout 1; EvTry 1; EvCreated 1; EvCheckout 2; EvTry 2; EvCreated 2;
      EvCheckout 3; EvTry 3; EvCreated 3])
  = Some (2%Z, 3, [], false, ClNone).
Proof. vm_compute. reflexivity. Qed.

(** [Start] reserves nothing while it loads, so a checkout meanwhile takes the
    pool over [MaxInstances]. *)
Theorem Start_races_Checkout :
  observe <$> prun (demo 2 2 0) empty_pool
    [EvStart; EvCheckout 1; EvTry 1; EvCreated 1; EvStartCreate true; EvStartCreate true; EvStartPush 0]
  = Some (3%Z, 3, [1; 2], false, ClNone).
Proof. vm_compute. reflexivity. Qed.

(** [Start] stacks its instances without waking anybody: a caller that found no
    slot meanwhile sleeps on beside an idle instance. *)
Theorem Start_strands_waiter :
  (λ s, (idle s, procs s !! 2, msum trying (procs s))) <$> prun (demo 1 1 0) empty_pool
    [EvStart; EvCheckout 1; EvTry 1; EvCreated 1; EvCheckout 2; EvTry 2; EvStartCreate true;
     EvStartPush 0]
  = Some ([1], Some CoWait, 0).
Proof. vm_compute. reflexivity. Qed.

(** A module load that fails in [Checkout] gives its slot back without waking
    anybody: the caller that waits for it sleeps on beside a free slot, and a pass
    of the reaper does not wake it either. *)
Theorem failed_create_strands_waiter :
  (λ s, (live s, procs s !! 3, msum trying (procs s), reaper s)) <$> prun (demo 1 2 0) empty_pool
    [EvCheckout 1; EvTry 1; EvCreated 1; EvCheckout 2; EvTry 2; EvCheckout 3; EvTry 3;
     EvCreateFailed 2; EvTick; EvReap 0]
  = Some (1%Z, Some CoWait, 0, RpSelect).
Proof. vm_compute. reflexivity. Qed.

(** [returnLease] lowers [outstanding] before it stacks the instance, so [Close]
    can finish in between and the instance stays loaded in a closed pool. *)
Theorem Close_misses_returning_instance :
  observe <$> prun (demo 1 1 0) empty_pool
    [EvCheckout 1; EvTry 1; EvCreated 1; EvReturn 1; EvDecide 1; EvClose; EvReaperExit; EvCloseReaped;
     EvCloseCheck; EvCloseDrain; EvCloseOne; EvPush 1 0 0; EvDrainCheck 1]
  = Some (0%Z, 1, [0], true, ClDone false).
Proof. vm_compute. reflexivity. Qed.

(** A checkout that is loading its module when [Close] runs hands out a lease of
    the closed pool. *)
Theorem Checkout_outlives_Close :
  (λ s, (closed s, closer s, procs s !! 1)) <$> prun (demo 1 1 0) empty_pool
    [EvCheckout 1; EvTry 1; EvClose; EvReaperExit; EvCloseReaped; EvCloseCheck; EvCloseDrain; EvCloseOne;
     EvCreated 1]
  = Some (true, ClDone false, Some (Held 0)).
Proof. vm_compute. reflexivity. Qed.

(** A [Close] whose context ends first leaves the idle instances loaded, and a
    second [Close] does nothing. *)
Theorem Close_timeout_keeps_idle :
  observe <$> prun (demo 1 2 0) empty_pool
    [EvCheckout 1; EvTry 1; EvCreated 1; EvCheckout 2; EvTry 2; EvCreated 2; EvReturn 2; EvDecide 2;
     EvPush 2 0 0; EvDrainCheck 2; EvClose; EvReaperExit; EvCloseReaped; EvCloseCheck; EvCloseCheck2;
     EvCloseWaited true; EvReturn 1; EvDecide 1; EvRecycle 1; EvRelease 1; EvDrainCheck 1; EvClose]
  = Some (1%Z, 1, [1], true, ClDone true).
Proof. vm_compute. reflexivity. Qed.

(** [MarkUnusable] after [Return] marks the idle instance, which is closed when
    its next lease returns. *)
Theorem MarkUnusable_after_Return :
  (λ s, (insts s !! 0, procs s !! 2)) <$> prun (demo 1 1 0) empty_pool
    [EvCheckout 1; EvTry 1; EvCreated 1; EvReturn 1; EvDecide 1; EvPush 1 0 0; EvDrainCheck 1;
     EvMarkUnusable 0; EvCheckout 2; EvTry 2; EvReturn 2; EvDecide 2]
  = Some (Some (mkInstance 0 2 true), Some (RtRecycle 0)).
Proof. vm_compute. reflexivity. Qed.
