(* ===== verification/Base64.v ===== *)
(** * base64.RawURLEncoding of Go's encoding/base64

    The URL-safe alphabet without padding, as the standard library implements
    it: the decoder skips line breaks and ignores the unused low bits of the
    last character. Bytes are integers between 0 and 255. *)
From S2P Require Import Prelude.
From Stdlib Require Import Ascii.

Module base64.
Open Scope Z_scope.

Definition encodeURL : string := "ABCDEFGHIJKLMNOPQRSTUVWXYZabcdefghijklmnopqrstuvwxyz0123456789-_".

Definition char_of (v : Z) : ascii := default "A"%char (String.get (Z.to_nat v) encodeURL).

Fixpoint index_of (c : ascii) (s : string) (i : Z) : option Z :=
  match s with
  | EmptyString => None
  | String d s => if Ascii.eqb c d then Some i else index_of c s (i + 1)
  end.
Definition value_of (c : ascii) : option Z := index_of c encodeURL 0.

Definition is_newline (c : ascii) : bool := Ascii.eqb c "010" || Ascii.eqb c "013".

Fixpoint sextets (l : list Z) : list Z :=
  match l with
  | [] => []
  | [a] => [a / 4; (a mod 4) * 16]
  | [a; b] => [a / 4; (a mod 4) * 16 + b / 16; (b mod 16) * 4]
  | a :: b :: c :: r =>
      a / 4 :: (a mod 4) * 16 + b / 16 :: (b mod 16) * 4 + c / 64 :: c mod 64 :: sextets r
  end.

Fixpoint octets (l : list Z) : option (list Z) :=
  match l with
  | [] => Some []
  | [_] => None
  | [w; x] => Some [w * 4 + x / 16]
  | [w; x; y] => Some [w * 4 + x / 16; (x mod 16) * 16 + y / 4]
  | w :: x :: y :: z :: r =>
      r ← octets r;
      Some (w * 4 + x / 16 :: (x mod 16) * 16 + y / 4 :: (y mod 4) * 64 + z :: r)
  end.

Definition EncodeToString (src : list Z) : string :=
  String.string_of_list_ascii (char_of <$> sextets src).

Definition DecodeString (s : string) : option (list Z) :=
  vs ← mapM value_of (filter (λ c, is_newline c = false) (String.list_ascii_of_string s)); octets vs.

Definition EncodedLen (n : Z) : Z := n / 3 * 4 + (n mod 3 * 8 + 5) / 6.

Definition byte (b : Z) : Prop := 0 ≤ b < 256.

(** ** Round trip *)

Lemma char_value v : 0 ≤ v < 64 → value_of (char_of v) = Some v ∧ is_newline (char_of v) = false.
Proof.
  intros Hv. assert (∃ n, v = Z.of_nat n ∧ (n < 64)%nat) as (n & -> & Hn).
  { exists (Z.to_nat v). lia. }
  assert (Forall (λ n, value_of (char_of (Z.of_nat n)) = Some (Z.of_nat n) ∧
    is_newline (char_of (Z.of_nat n)) = false) (seq 0 64)) as Hall.
  { apply (bool_decide_unpack _). vm_compute. exact I. }
  rewrite Forall_forall in Hall. apply Hall. apply elem_of_seq. lia.
Qed.

Lemma list_ind3 (P : list Z → Prop) :
  P [] → (∀ a, P [a]) → (∀ a b, P [a; b]) → (∀ a b c r, P r → P (a :: b :: c :: r)) → ∀ l, P l.
Proof.
  intros H0 H1 H2 H3. fix IH 1.
  intros [|a [|b [|c r]]]; [exact H0|exact (H1 a)|exact (H2 a b)|exact (H3 a b c r (IH r))].
Qed.

Lemma sextets_range l : Forall byte l → Forall (λ v, 0 ≤ v < 64) (sextets l).
Proof.
  unfold byte. induction l as [|a|a b|a b c r IH] using list_ind3; simpl; intros Hl;
    repeat match goal with H : Forall _ (_ :: _) |- _ => apply Forall_cons in H as [? ?] end;
    repeat constructor; auto; Z.to_euclidean_division_equations; lia.
Qed.

Lemma octets_sextets l : Forall byte l → octets (sextets l) = Some l.
Proof.
  unfold byte. induction l as [|a|a b|a b c r IH] using list_ind3; simpl; intros Hl;
    repeat match goal with H : Forall _ (_ :: _) |- _ => apply Forall_cons in H as [? ?] end;
    [done|rewrite ?IH by done; simpl; repeat f_equal; Z.to_euclidean_division_equations; lia..].
Qed.

Lemma values_chars vs :
  Forall (λ v, 0 ≤ v < 64) vs →
  mapM value_of (filter (λ c, is_newline c = false) (char_of <$> vs)) = Some vs.
Proof.
  induction 1 as [|v vs Hv _ IH]; [done|]. destruct (char_value v Hv) as [Hval Hnl].
  cbn [fmap list_fmap]. rewrite filter_cons, decide_True by done. simpl. by rewrite Hval, IH.
Qed.

Lemma DecodeString_EncodeToString src :
  Forall byte src → DecodeString (EncodeToString src) = Some src.
Proof.
  intros Hs. unfold DecodeString, EncodeToString. rewrite String.list_ascii_of_string_of_list_ascii.
  rewrite values_chars by by apply sextets_range. simpl. by apply octets_sextets.
Qed.

Lemma length_EncodeToString src :
  Z.of_nat (String.length (EncodeToString src)) = EncodedLen (Z.of_nat (length src)).
Proof.
  unfold EncodeToString.
  assert (∀ l, String.length (String.string_of_list_ascii l) = length l) as ->
    by (induction l; simpl; congruence).
  rewrite length_fmap. unfold EncodedLen.
  induction src as [|a|a b|a b c r IH] using list_ind3; [done..|]. cbn [sextets length].
  Z.to_euclidean_division_equations. lia.
Qed.
End base64.
