(* ===== verification/Redis.v ===== *)
(** * Redis

    The commands the Go packages send to Redis, as a class whose laws state what
    Redis documents of each command, and an in-memory store that satisfies them.
    Redis keeps its own clock, in milliseconds. *)
From S2P Require Import Prelude.

(** What becomes of a command: carried out, carried out with the answer lost, or
    not carried out. *)
Inductive outcome := Served | ReplyLost | Refused.

(** ** Commands *)

Inductive rval := RStr (s : string) | RSet (m : gset string).
Inductive expire_mode := NX | GT.

Class Redis (R : Type) := {
  EXISTS : R → Z → string → bool;
  GET : R → Z → string → option string;
  SETPX : R → Z → string → string → Z → R;
  SETNX : R → Z → string → string → Z → R * bool;
  DEL : R → Z → string → R;
  SADD : R → Z → string → string → R;
  SREM : R → Z → string → string → R;
  SMEMBERS : R → Z → string → list string;
  EXPIRE : R → Z → string → Z → expire_mode → R;
  formatMs : Duration → Z;
  formatSec : Duration → Z;
}.

Definition entry : Type := rval * option Z.

(** An entry is there until its expiry has passed. *)
Definition live_at (now : Z) (e : option entry) : option entry :=
  match e with
  | Some (v, Some w) => if (w <? now)%Z then None else Some (v, Some w)
  | e => e
  end.

(** What [EXPIRE] does to the expiry [w] of a key: NX sets one where there is
    none, GT only moves one later. *)
Definition expire_to (now secs : Z) (m : expire_mode) (w : option Z) : option Z :=
  match m, w with
  | NX, None => Some (now + secs * 1000)%Z
  | GT, Some w => Some (Z.max w (now + secs * 1000))
  | _, w => w
  end.

(** [view] is the content of the store; a command changes the key it names. *)
Class RedisLaws (R : Type) `{Redis R} := {
  view : R → string → option entry;
  view_EXISTS r now k : EXISTS r now k = bool_decide (is_Some (live_at now (view r k)));
  view_GET r now k :
    GET r now k = match live_at now (view r k) with Some (RStr v, _) => Some v | _ => None end;
  view_SETPX r now k v px : (0 < px)%Z →
    view (SETPX r now k v px) k = Some (RStr v, Some (now + px)%Z);
  view_SETPX_ne r now k v px k' : k ≠ k' → view (SETPX r now k v px) k' = view r k';
  view_SETNX r now k v secs k' : (0 < secs)%Z →
    view (SETNX r now k v secs).1 k' =
      if decide (k = k' ∧ live_at now (view r k) = None)
      then Some (RStr v, Some (now + secs * 1000)%Z) else view r k';
  SETNX_set r now k v secs :
    (SETNX r now k v secs).2 = bool_decide (live_at now (view r k) = None);
  view_DEL r now k k' : view (DEL r now k) k' = if decide (k = k') then None else view r k';
  view_SADD r now k m k' :
    view (SADD r now k m) k' =
      if decide (k = k') then
        match live_at now (view r k) with
        | None => Some (RSet {[m]}, None)
        | Some (RSet ms, w) => Some (RSet ({[m]} ∪ ms), w)
        | e => e
        end
      else view r k';
  view_SREM r now k m k' :
    view (SREM r now k m) k' =
      if decide (k = k') then
        match live_at now (view r k) with
        | Some (RSet ms, w) =>
            if decide (ms ∖ {[m]} = ∅) then None else Some (RSet (ms ∖ {[m]}), w)
        | e => e
        end
      else view r k';
  view_SMEMBERS r now k m :
    m ∈ SMEMBERS r now k ↔
      match live_at now (view r k) with Some (RSet ms, _) => m ∈ ms | _ => False end;
  view_EXPIRE r now k secs mode : (0 < secs)%Z →
    view (EXPIRE r now k secs mode) k =
      match live_at now (view r k) with
      | Some (v, w) => Some (v, expire_to now secs mode w)
      | None => None
      end;
  view_EXPIRE_ne r now k secs mode k' : k ≠ k' → view (EXPIRE r now k secs mode) k' = view r k';
  formatMs_pos d : (0 < d)%Z → (0 < formatMs d)%Z;
  formatMs_whole d : (0 < d)%Z → (formatMs (d * 1000000) = d)%Z;
  formatSec_pos d : (0 < d)%Z → (0 < formatSec d)%Z;
}.

(** ** Redis as a map *)

Abbreviation memory_redis := (gmap string entry) (only parsing).

Definition mem_SADD (r : gmap string entry) (now : Z) (k m : string) : gmap string entry :=
  match live_at now (r !! k) with
  | None => <[k := (RSet {[m]}, None)]> r
  | Some (RSet ms, w) => <[k := (RSet ({[m]} ∪ ms), w)]> r
  | Some _ => r
  end.

Definition mem_SREM (r : gmap string entry) (now : Z) (k m : string) : gmap string entry :=
  match live_at now (r !! k) with
  | Some (RSet ms, w) =>
      if decide (ms ∖ {[m]} = ∅) then delete k r else <[k := (RSet (ms ∖ {[m]}), w)]> r
  | None => delete k r
  | Some _ => r
  end.

Definition mem_EXPIRE (r : gmap string entry) (now : Z) (k : string) (secs : Z) (m : expire_mode)
    : gmap string entry :=
  match live_at now (r !! k) with
  | Some (v, w) => <[k := (v, expire_to now secs m w)]> r
  | None => delete k r
  end.

Definition mem_SMEMBERS (r : gmap string entry) (now : Z) (k : string) : list string :=
  match live_at now (r !! k) with Some (RSet ms, _) => elements ms | _ => [] end.

#[export] Instance memory_is_redis : Redis (gmap string entry) := {
  EXISTS r now k := bool_decide (is_Some (live_at now (r !! k)));
  GET r now k := match live_at now (r !! k) with Some (RStr v, _) => Some v | _ => None end;
  SETPX r now k v px := <[k := (RStr v, Some (now + px)%Z)]> r;
  SETNX r now k v secs :=
    if decide (live_at now (r !! k) = None) then (<[k := (RStr v, Some (now + secs * 1000)%Z)]> r, true)
    else (r, false);
  DEL r now k := delete k r;
  SADD := mem_SADD;
  SREM := mem_SREM;
  SMEMBERS := mem_SMEMBERS;
  EXPIRE := mem_EXPIRE;
  formatMs d := if (Z.quot d 1000000 <? 1)%Z then 1%Z else Z.quot d 1000000;
  formatSec d := if (Z.quot d second <? 1)%Z then 1%Z else Z.quot d second;
}.

Lemma live_at_Some now e v w : live_at now e = Some (v, w) → e = Some (v, w).
Proof. unfold live_at. destruct e as [[? [?|]]|]; try done. by case_match. Qed.

#[export] Program Instance memory_redis_laws : RedisLaws (gmap string entry) := {
  view r k := r !! k;
}.
Next Obligation. done. Qed.
Next Obligation. done. Qed.
Next Obligation. intros. apply lookup_insert_eq. Qed.
Next Obligation. intros. by apply lookup_insert_ne. Qed.
Next Obligation.
  intros r now k v secs k' _. simpl. destruct (decide (live_at now (r !! k) = None)) as [E|E]; simpl.
  - destruct (decide (k = k')) as [->|Hne].
    + by rewrite lookup_insert_eq, decide_True.
    + rewrite lookup_insert_ne by done. by rewrite decide_False by naive_solver.
  - by rewrite decide_False by naive_solver.
Qed.
Next Obligation.
  intros r now k v secs. simpl. case_decide; case_bool_decide; done.
Qed.
Next Obligation. intros. apply lookup_delete. Qed.
Next Obligation.
  intros r now k m k'. simpl. unfold mem_SADD. destruct (live_at now (r !! k)) as [[[v|ms] w]|] eqn:E;
    case_decide; subst; rewrite ?lookup_insert_eq, ?lookup_insert_ne by done; try done.
  by apply live_at_Some in E.
Qed.
Next Obligation.
  intros r now k m k'. simpl. unfold mem_SREM. destruct (live_at now (r !! k)) as [[[v|ms] w]|] eqn:E.
  - case_decide; [subst|done]. by apply live_at_Some in E.
  - destruct (decide (k = k')) as [->|].
    + case_decide; [apply lookup_delete_eq|apply lookup_insert_eq].
    + case_decide; [by apply lookup_delete_ne|by apply lookup_insert_ne].
  - rewrite lookup_delete. by case_decide.
Qed.
Next Obligation.
  intros r now k m. simpl. unfold mem_SMEMBERS.
  destruct (live_at now (r !! k)) as [[[v|ms] w]|]; try (split; [apply not_elem_of_nil|done]).
  apply elem_of_elements.
Qed.
Next Obligation.
  intros r now k secs mode _. simpl. unfold mem_EXPIRE.
  destruct (live_at now (r !! k)) as [[v w]|]; [apply lookup_insert_eq|apply lookup_delete_eq].
Qed.
Next Obligation.
  intros r now k secs mode k' Hne. simpl. unfold mem_EXPIRE.
  destruct (live_at now (r !! k)) as [[v w]|]; [by apply lookup_insert_ne|by apply lookup_delete_ne].
Qed.
Next Obligation. intros d Hd. simpl. case_match; lia. Qed.
Next Obligation.
  intros d Hd. simpl. rewrite Z.quot_mul by done. case_match; lia.
Qed.
Next Obligation. intros d Hd. simpl. case_match; lia. Qed.

(** ** Keys with an expiry in milliseconds *)

Class RedisMs (R : Type) := {
  SETNXPX : R → Z → string → string → Z → R * bool;
  PEXPIRE : R → Z → string → Z → R;
}.

Class RedisMsLaws (R : Type) `{RedisLaws R} `{!RedisMs R} := {
  view_SETNXPX r now k v px k' : (0 < px)%Z →
    view (SETNXPX r now k v px).1 k' =
      if decide (k = k' ∧ live_at now (view r k) = None) then Some (RStr v, Some (now + px)%Z) else view r k';
  SETNXPX_set r now k v px : (SETNXPX r now k v px).2 = bool_decide (live_at now (view r k) = None);
  view_PEXPIRE r now k px k' : (0 < px)%Z →
    view (PEXPIRE r now k px) k' =
      if decide (k = k') then
        match live_at now (view r k) with Some (v, _) => Some (v, Some (now + px)%Z) | None => None end
      else view r k';
}.

#[export] Instance memory_redis_ms : RedisMs (gmap string entry) := {
  SETNXPX r now k v px :=
    if decide (live_at now (r !! k) = None) then (<[k := (RStr v, Some (now + px)%Z)]> r, true) else (r, false);
  PEXPIRE r now k px :=
    match live_at now (r !! k) with
    | Some (v, _) => <[k := (v, Some (now + px)%Z)]> r
    | None => delete k r
    end;
}.

#[export] Program Instance memory_redis_ms_laws : RedisMsLaws (gmap string entry) := {}.
Next Obligation.
  intros r now k v px k' _. simpl. destruct (decide (live_at now (r !! k) = None)) as [E|E]; simpl.
  - destruct (decide (k = k')) as [->|Hne].
    + by rewrite lookup_insert_eq, decide_True.
    + rewrite lookup_insert_ne by done. by rewrite decide_False by naive_solver.
  - by rewrite decide_False by naive_solver.
Qed.
Next Obligation. intros r now k v px. simpl. case_decide; case_bool_decide; done. Qed.
Next Obligation.
  intros r now k px k' _. simpl. destruct (live_at now (r !! k)) as [[v w]|];
    (destruct (decide (k = k')) as [->|Hne]; [first [apply lookup_insert_eq|apply lookup_delete_eq]|
      first [by apply lookup_insert_ne|by apply lookup_delete_ne]]).
Qed.
