(* ===== verification/Session.v ===== *)
(** * Login sessions (packages/go/session: manager.go, token.go)

    A session is a blob in Redis under [session:<token>], and each user has a
    set of tokens under [user_sessions:<user>]. The methods of [Manager] are
    programs of Redis commands, so requests interleave between any two of them.
    Redis is behind the class [Redis], whose laws state what its commands do to
    keys and expiries; its clock counts milliseconds and is not the clock of the
    process. JSON encoding is a parameter. *)
From S2P Require Import Prelude Prog Base64 Redis.
From Stdlib Require Import Ascii.

(** ** Tokens *)

Definition tokenBytes : Z := 32.

Definition validToken (s : string) : bool :=
  if (Z.of_nat (String.length s) =? base64.EncodedLen tokenBytes)%Z
  then match base64.DecodeString s with Some _ => true | None => false end
  else false.

(** [generateToken] on the bytes the random source gave. *)
Definition generateToken (buf : option (list Z)) : option string :=
  base64.EncodeToString <$> buf.

Lemma EncodeToString_valid buf :
  Forall base64.byte buf → length buf = 32 → validToken (base64.EncodeToString buf) = true.
Proof.
  intros Hb Hlen. unfold validToken. rewrite base64.length_EncodeToString, Hlen.
  by rewrite base64.DecodeString_EncodeToString.
Qed.

(** ** Scripts *)

Section scripts.
Context {R : Type} `{Redis R}.

Definition refreshIfExistsScript (r : R) (now : Z) (key blob : string) (px : Z) : R * Z :=
  if negb (EXISTS r now key) then (r, 0%Z) else (SETPX r now key blob px, 1%Z).

Definition regenerateScript (r : R) (now : Z) (oldKey newKey userKey oldToken blob : string)
    (px : Z) (newToken : string) (secs : Z) : R * Z :=
  match GET r now oldKey with
  | None => (r, 0%Z)
  | Some _ =>
      let r := SETPX r now newKey blob px in
      let r := DEL r now oldKey in
      let r := SREM r now userKey oldToken in
      let r := SADD r now userKey newToken in
      let r := EXPIRE r now userKey secs NX in
      let r := EXPIRE r now userKey secs GT in
      (r, 1%Z)
  end.

Definition deleteScript (r : R) (now : Z) (key userKey token : string) : R * Z :=
  if negb (EXISTS r now key) then (r, 0%Z)
  else
    let r := DEL r now key in
    (if decide (userKey = "") then r else SREM r now userKey token, 1%Z).
End scripts.

(** ** The manager *)

Inductive session_error :=
| ErrNotFound
| ErrInvalidToken
| ErrDataTooLarge
| ErrArgument (why : string)
| ErrEntropy
| ErrMarshal
| ErrRedis.

Definition DefaultMaxDataSize : Z := (4 * 1024)%Z.

Definition sessionKey (token : string) : string := "session:" +:+ token.
Definition userSessionsKey (userID : string) : string := "user_sessions:" +:+ userID.

(** The stored part of [Session]; [Token] is not in the blob. *)
Record Session (D : Type) := mkSession {
  UserID : string;
  CreatedAt : Time;
  LastSeenAt : Time;
  AbsoluteExpiry : Time;
  Data : D;
}.
Arguments mkSession {D} _ _ _ _ _.
Arguments UserID {D} _.
Arguments CreatedAt {D} _.
Arguments LastSeenAt {D} _.
Arguments AbsoluteExpiry {D} _.
Arguments Data {D} _.

Definition seen {D} (s : Session D) (now : Time) : Session D :=
  mkSession (UserID s) (CreatedAt s) now (AbsoluteExpiry s) (Data s).

Record SessionInfo := mkInfo {
  si_Token : string; si_UserID : string; si_CreatedAt : Time; si_LastSeenAt : Time }.

Definition effectiveMaxDataSize (v : Z) : Z := if (v <=? 0)%Z then (-1)%Z else v.
Definition too_large (cap : Z) (blob : string) : bool :=
  ((0 <=? effectiveMaxDataSize cap) && (effectiveMaxDataSize cap <? Z.of_nat (String.length blob)))%Z.

(** What a method sends, and what comes back; [None] or [false] is a Redis error.
    [CCreate] and [CDeleteAll] are transactions, [CRefresh], [CRegenerate] and
    [CDelete] are scripts, each atomic. *)
Inductive scmd : Type → Type :=
| CNow : scmd Time
| CRand : scmd (option (list Z))
| CMaxDataSize : scmd Z
| CGet (key : string) : scmd (option (option string))
| CDel (key : string) : scmd unit
| CCreate (token userID blob : string) (keyTTL ttl : Duration) : scmd bool
| CRefresh (key blob : string) (px : Z) : scmd unit
| CExpire (key : string) (ttl : Duration) (m : expire_mode) : scmd unit
| CRegenerate (oldToken newToken userID blob : string) (px secs : Z) : scmd (option Z)
| CDelete (key userKey token : string) : scmd bool
| CSMembers (key : string) : scmd (option (list string))
| CDeleteAll (userID : string) (tokens : list string) : scmd bool
| CMGet (keys : list string) : scmd (option (list (option string)))
| CSRem (key : string) (tokens : list string) : scmd unit.

Definition min_expiry {D} (s : Session D) (now : Time) (idleTTL : Duration) : Duration :=
  if negb (is_zero (AbsoluteExpiry s)) && (AbsoluteExpiry s - now <? idleTTL)%Z
  then (AbsoluteExpiry s - now)%Z else idleTTL.

(** The absolute bound has passed. *)
Definition past_bound {D} (s : Session D) (now : Time) : bool :=
  negb (is_zero (AbsoluteExpiry s)) && negb (time_before now (AbsoluteExpiry s)).

(** [Duration.Milliseconds], at least 1. *)
Definition px_of (d : Duration) : Z :=
  let ms := Z.quot d 1000000 in if (ms <? 1)%Z then 1%Z else ms.

Section manager.
Context {D : Type} (emptyData : D).
Context (marshal : Session D → option string) (unmarshal : string → option (Session D)).

Definition Create (userID : string) (data : option D) (ttl idleTTL : Duration)
    : prog scmd (result session_error string) :=
  if decide (userID = "") then Ret (Err (ErrArgument "userID is required")) else
  if (ttl <=? 0)%Z then Ret (Err (ErrArgument "ttl must be positive")) else
  if ((idleTTL <=? 0) || (ttl <? idleTTL))%Z
  then Ret (Err (ErrArgument "idleTTL must be positive and <= ttl")) else
  buf <- CRand ;;
  match generateToken buf with
  | None => Ret (Err ErrEntropy)
  | Some token =>
      now <- CNow ;;
      match marshal (mkSession userID now now (now + ttl)%Z (default emptyData data)) with
      | None => Ret (Err ErrMarshal)
      | Some blob =>
          cap <- CMaxDataSize ;;
          if too_large cap blob then Ret (Err ErrDataTooLarge) else
          let keyTTL := if (ttl <? idleTTL)%Z then ttl else idleTTL in
          ok <- CCreate token userID blob keyTTL ttl ;;
          Ret (if ok : bool then Ok token else Err ErrRedis)
      end
  end.

Definition Delete (token : string) : prog scmd (result session_error unit) :=
  if negb (validToken token) then Ret (Err ErrInvalidToken) else
  raw <- CGet (sessionKey token) ;;
  let userKey :=
    match raw with
    | Some (Some raw) =>
        if decide (raw = "") then "" else
        match unmarshal raw with
        | Some s => if decide (UserID s = "") then "" else userSessionsKey (UserID s)
        | None => ""
        end
    | _ => ""
    end in
  ok <- CDelete (sessionKey token) userKey token ;;
  Ret (if ok : bool then Ok () else Err ErrRedis).

(** The refresh of a live session. *)
Definition refresh (token : string) (s : Session D) (now : Time) (keyTTL : Duration)
    : prog scmd (result session_error (Session D)) :=
  match marshal s with
  | None => Ret (Ok s)
  | Some blob =>
      CRefresh (sessionKey token) blob (px_of keyTTL) ;;;
      let setTTL :=
        if negb (is_zero (AbsoluteExpiry s)) && (keyTTL <? AbsoluteExpiry s - now)%Z
        then (AbsoluteExpiry s - now)%Z else keyTTL in
      let setTTL := if (setTTL <? second)%Z then second else setTTL in
      CExpire (userSessionsKey (UserID s)) setTTL NX ;;;
      CExpire (userSessionsKey (UserID s)) setTTL GT ;;;
      Ret (Ok s)
  end.

Definition Get (token : string) (idleTTL : Duration) : prog scmd (result session_error (Session D)) :=
  if negb (validToken token) then Ret (Err ErrInvalidToken) else
  if (idleTTL <=? 0)%Z then Ret (Err (ErrArgument "idleTTL must be positive")) else
  raw <- CGet (sessionKey token) ;;
  match raw with
  | None => Ret (Err ErrRedis)
  | Some None => Ret (Err ErrNotFound)
  | Some (Some raw) =>
      cap <- CMaxDataSize ;;
      if too_large cap raw then CDel (sessionKey token) ;;; Ret (Err ErrNotFound) else
      match unmarshal raw with
      | None => CDel (sessionKey token) ;;; Ret (Err ErrNotFound)
      | Some s =>
          now <- CNow ;;
          if past_bound s now then run! _ := Delete token in Ret (Err ErrNotFound) else
          let keyTTL := min_expiry s now idleTTL in
          if (keyTTL <=? 0)%Z then run! _ := Delete token in Ret (Err ErrNotFound) else
          refresh token (seen s now) now keyTTL
      end
  end.

Definition Regenerate (oldToken : string) (idleTTL : Duration)
    : prog scmd (result session_error string) :=
  if negb (validToken oldToken) then Ret (Err ErrInvalidToken) else
  if (idleTTL <=? 0)%Z then Ret (Err (ErrArgument "idleTTL must be positive")) else
  raw <- CGet (sessionKey oldToken) ;;
  match raw with
  | None => Ret (Err ErrRedis)
  | Some None => Ret (Err ErrNotFound)
  | Some (Some raw) =>
      match unmarshal raw with
      | None => CDel (sessionKey oldToken) ;;; Ret (Err ErrNotFound)
      | Some s =>
          now <- CNow ;;
          if past_bound s now then run! _ := Delete oldToken in Ret (Err ErrNotFound) else
          buf <- CRand ;;
          match generateToken buf with
          | None => Ret (Err ErrEntropy)
          | Some newToken =>
              let keyTTL := min_expiry s now idleTTL in
              if (keyTTL <=? 0)%Z then run! _ := Delete oldToken in Ret (Err ErrNotFound) else
              match marshal (seen s now) with
              | None => Ret (Err ErrMarshal)
              | Some blob =>
                  cap <- CMaxDataSize ;;
                  if too_large cap blob then Ret (Err ErrDataTooLarge) else
                  let secs := Z.quot keyTTL second in
                  let secs := if (secs <? 1)%Z then 1%Z else secs in
                  res <- CRegenerate oldToken newToken (UserID s) blob (px_of keyTTL) secs ;;
                  Ret (match res with
                       | None => Err ErrRedis
                       | Some 0%Z => Err ErrNotFound
                       | Some _ => Ok newToken
                       end)
              end
          end
      end
  end.

Definition DeleteAllForUser (userID : string) : prog scmd (result session_error unit) :=
  if decide (userID = "") then Ret (Err (ErrArgument "userID is required")) else
  tokens <- CSMembers (userSessionsKey userID) ;;
  match tokens with
  | None => Ret (Err ErrRedis)
  | Some tokens =>
      ok <- CDeleteAll userID tokens ;;
      Ret (if ok : bool then Ok () else Err ErrRedis)
  end.

(** The entries of [List] and the tokens to prune. *)
Fixpoint list_infos (l : list (string * option string)) : list SessionInfo * list string :=
  match l with
  | [] => ([], [])
  | (t, v) :: l =>
      let '(out, stale) := list_infos l in
      match v ≫= unmarshal with
      | Some s => (mkInfo t (UserID s) (CreatedAt s) (LastSeenAt s) :: out, stale)
      | None => (out, t :: stale)
      end
  end.

Definition List (userID : string) : prog scmd (result session_error (list SessionInfo)) :=
  if decide (userID = "") then Ret (Err (ErrArgument "userID is required")) else
  tokens <- CSMembers (userSessionsKey userID) ;;
  match tokens with
  | None => Ret (Err ErrRedis)
  | Some [] => Ret (Ok [])
  | Some tokens =>
      vals <- CMGet (sessionKey <$> tokens) ;;
      match vals with
      | None => Ret (Err ErrRedis)
      | Some vals =>
          let '(out, stale) := list_infos (zip tokens vals) in
          match stale with
          | [] => Ret (Ok out)
          | _ => CSRem (userSessionsKey userID) stale ;;; Ret (Ok out)
          end
      end
  end.

(** ** Concurrent requests *)

Inductive session_call :=
| DoCreate (userID : string) (data : option D) (ttl idleTTL : Duration)
| DoGet (token : string) (idleTTL : Duration)
| DoRegenerate (token : string) (idleTTL : Duration)
| DoDelete (token : string)
| DoDeleteAll (userID : string)
| DoList (userID : string).

Inductive answer :=
| AToken (r : result session_error string)
| ASession (r : result session_error (Session D))
| ADone (r : result session_error unit)
| AInfos (r : result session_error (list SessionInfo)).

Definition body (c : session_call) : prog scmd answer :=
  match c with
  | DoCreate u d ttl idle => run! r := Create u d ttl idle in Ret (AToken r)
  | DoGet t idle => run! r := Get t idle in Ret (ASession r)
  | DoRegenerate t idle => run! r := Regenerate t idle in Ret (AToken r)
  | DoDelete t => run! r := Delete t in Ret (ADone r)
  | DoDeleteAll u => run! r := DeleteAllForUser u in Ret (ADone r)
  | DoList u => run! r := List u in Ret (AInfos r)
  end.

(** What the outside decides at one command: the two clocks, the random source,
    and whether Redis carries the command out and its answer arrives. *)
Record env := mkEnv {
  e_redis : Z;
  e_now : Time;
  e_rand : option (list Z);
  e_net : outcome;
}.

Section semantics.
Context {R : Type} `{Redis R}.

Record world := mkWorld { store : R; clock : Z; maxDataSize : Z }.

(** [act] is what Redis does to the store and answers, [fail] the answer of a
    failed command. *)
Definition redis {X} (e : env) (w : world) (act : R → R * X) (fail : X) : world * X :=
  let w := mkWorld (store w) (e_redis e) (maxDataSize w) in
  match e_net e with
  | Refused => (w, fail)
  | ReplyLost => (mkWorld (act (store w)).1 (clock w) (maxDataSize w), fail)
  | Served => (mkWorld (act (store w)).1 (clock w) (maxDataSize w), (act (store w)).2)
  end.

Definition exec (X : Type) (e : env) (w : world) (c : scmd X) : world * X :=
  let now := e_redis e in
  match c in scmd X return world * X with
  | CNow => (w, e_now e)
  | CRand => (w, e_rand e)
  | CMaxDataSize => (w, maxDataSize w)
  | CGet key => redis e w (λ r, (r, Some (GET r now key))) None
  | CDel key => redis e w (λ r, (DEL r now key, ())) ()
  | CCreate token userID blob keyTTL ttl =>
      redis e w (λ r,
        let r := SETPX r now (sessionKey token) blob (formatMs keyTTL) in
        let r := SADD r now (userSessionsKey userID) token in
        let r := EXPIRE r now (userSessionsKey userID) (formatSec ttl) NX in
        let r := EXPIRE r now (userSessionsKey userID) (formatSec ttl) GT in
        (r, true)) false
  | CRefresh key blob px =>
      redis e w (λ r, ((refreshIfExistsScript r now key blob px).1, ())) ()
  | CExpire key ttl m => redis e w (λ r, (EXPIRE r now key (formatSec ttl) m, ())) ()
  | CRegenerate oldToken newToken userID blob px secs =>
      redis e w (λ r,
        let '(r, n) := regenerateScript r now (sessionKey oldToken) (sessionKey newToken)
          (userSessionsKey userID) oldToken blob px newToken secs in
        (r, Some n)) None
  | CDelete key userKey token =>
      redis e w (λ r, ((deleteScript r now key userKey token).1, true)) false
  | CSMembers key => redis e w (λ r, (r, Some (SMEMBERS r now key))) None
  | CDeleteAll userID tokens =>
      redis e w (λ r,
        let r := foldl (λ r t, DEL r now (sessionKey t)) r tokens in
        (DEL r now (userSessionsKey userID), true)) false
  | CMGet keys => redis e w (λ r, (r, Some (GET r now <$> keys))) None
  | CSRem key tokens => redis e w (λ r, (foldl (λ r t, SREM r now key t) r tokens, ())) ()
  end.

(** One process or many on one Redis: a request arrives, a request in progress
    takes its next command, or the blob ceiling is reconfigured. *)
Record config := mkConfig {
  cw : world;
  calls : gmap nat (session_call * prog scmd answer);
  replies : list (nat * session_call * answer);
}.

Inductive sevent :=
| EvCall (t : nat) (c : session_call)
| EvStep (t : nat) (e : env)
| EvReply (t : nat)
| EvSetMax (n : Z).

Definition sstep (s : config) (ev : sevent) : option config :=
  match ev with
  | EvCall t c =>
      match calls s !! t with
      | Some _ => None
      | None => Some (mkConfig (cw s) (<[t := (c, body c)]> (calls s)) (replies s))
      end
  | EvStep t e =>
      if (e_redis e <? clock (cw s))%Z then None
      else match calls s !! t with
      | Some (call, Call c k) =>
          let '(w, x) := exec _ e (cw s) c in
          Some (mkConfig w (<[t := (call, k x)]> (calls s)) (replies s))
      | _ => None
      end
  | EvReply t =>
      match calls s !! t with
      | Some (call, Ret a) =>
          Some (mkConfig (cw s) (delete t (calls s)) (replies s ++ [(t, call, a)]))
      | _ => None
      end
  | EvSetMax n => Some (mkConfig (mkWorld (store (cw s)) (clock (cw s)) n) (calls s) (replies s))
  end.

Fixpoint srun (s : config) (evs : list sevent) : option config :=
  match evs with
  | [] => Some s
  | ev :: evs => s ← sstep s ev; srun s evs
  end.

(** The tokens the random source would give along a run. *)
Definition token_drawn (ev : sevent) : option string :=
  match ev with EvStep _ e => generateToken (e_rand e) | _ => None end.
Definition tokens_drawn (evs : list sevent) : list string := omap token_drawn evs.
End semantics.
End manager.
