(* ===== verification/SessionSafety.v ===== *)
(** * Deleted sessions stay deleted

    Under every interleaving of requests, with any clock readings and Redis
    failures: once a token has been handed out, no request but a later refresh
    of a session that is still there writes its blob, so a session that is gone
    stays gone. *)
From S2P Require Import Prelude Prog Base64 Redis Session.

Section safety.
Context {D : Type} (emptyData : D).
Context (marshal : Session D → option string) (unmarshal : string → option (Session D)).
Context {R : Type} `{RedisLaws R}.

Abbreviation body := (body emptyData marshal unmarshal).
Abbreviation sstep := (sstep emptyData marshal unmarshal).
Abbreviation srun := (srun emptyData marshal unmarshal).
Abbreviation program := (prog scmd (answer (D:=D))).
Abbreviation world := (world (R:=R)).
Abbreviation config := (config (D:=D) (R:=R)).

(** The session of [tok] is not in Redis. *)
Definition dead (w : world) (tok : string) : Prop :=
  live_at (clock w) (view (store w) (sessionKey tok)) = None.

Lemma sessionKey_inj t t' : sessionKey t = sessionKey t' → t = t'.
Proof. apply (inj (String.append "session:")). Qed.

Lemma sessionKey_ne_user t u : userSessionsKey u ≠ sessionKey t.
Proof. done. Qed.

Lemma live_at_mono now now' e : (now ≤ now')%Z → live_at now e = None → live_at now' e = None.
Proof.
  intros Hle. unfold live_at. destruct e as [[v [w|]]|]; try done.
  destruct (w <? now)%Z eqn:E; [|done]. intros _. by rewrite (proj2 (Z.ltb_lt _ _)) by lia.
Qed.

(** ** Programs that leave a token alone *)

Definition cmd_foreign (tok : string) {X} (c : scmd X) : Prop :=
  match c with
  | CCreate token _ _ _ _ => token ≠ tok
  | CRegenerate _ token _ _ _ _ => token ≠ tok
  | CExpire key _ _ => key ≠ sessionKey tok
  | _ => True
  end.

(** The random source does not give [tok]. *)
Definition answer_fresh (tok : string) {X} (c : scmd X) : X → Prop :=
  match c in scmd X return X → Prop with
  | CRand => λ b, generateToken b ≠ Some tok
  | _ => λ _, True
  end.

(** Whatever the answers, as long as [tok] is not drawn, the program does not
    create the session of [tok] and does not hand [tok] out. *)
Fixpoint foreign (tok : string) (p : program) : Prop :=
  match p with
  | Ret a => a ≠ AToken (Ok tok)
  | Call c k => cmd_foreign tok c ∧ ∀ x, answer_fresh tok c x → foreign tok (k x)
  end.

Ltac walk :=
  repeat first
    [ progress cbn [bind foreign cmd_foreign answer_fresh]
    | match goal with
      | |- _ ∧ _ => split
      | |- True => exact I
      | |- ∀ _, _ => intro
      end
    | progress case_decide
    | progress case_match ]; subst; try done; try congruence.

Lemma body_foreign tok c : foreign tok (body c).
Proof using.
  clear.
  destruct c; unfold Session.body, Create, Get, Regenerate, Delete, DeleteAllForUser, List, refresh; walk.
Qed.

(** ** One command *)

Definition gone (now : Z) (r : R) (k : string) : Prop := live_at now (view r k) = None.

Lemma gone_SETPX now r key v px k : key ≠ k → gone now r k → gone now (SETPX r now key v px) k.
Proof using All. intros Hne. unfold gone. by rewrite view_SETPX_ne. Qed.

Lemma gone_SADD now r key m k : key ≠ k → gone now r k → gone now (SADD r now key m) k.
Proof using All. intros Hne. unfold gone. by rewrite view_SADD, decide_False. Qed.

Lemma gone_EXPIRE now r key secs md k :
  key ≠ k → gone now r k → gone now (EXPIRE r now key secs md) k.
Proof using All. intros Hne. unfold gone. by rewrite view_EXPIRE_ne. Qed.

Lemma gone_DEL now r key k : gone now r k → gone now (DEL r now key) k.
Proof using All. unfold gone. rewrite view_DEL. by case_decide. Qed.

Lemma gone_SREM now r key m k : gone now r k → gone now (SREM r now key m) k.
Proof using All. unfold gone. rewrite view_SREM. case_decide as E; [subst|done]. by intros ->. Qed.

Lemma gone_foldl {A} (f : R → A → R) now k l r :
  (∀ r a, gone now r k → gone now (f r a) k) → gone now r k → gone now (foldl f r l) k.
Proof using. intros Hf. revert r. induction l as [|a l IH]; simpl; auto. Qed.

Lemma gone_EXISTS now r k : gone now r k → EXISTS r now k = false.
Proof using All.
  unfold gone. rewrite view_EXISTS. intros ->. apply bool_decide_eq_false. by intros [? ?].
Qed.

Hint Resolve gone_SETPX gone_SADD gone_EXPIRE gone_DEL gone_SREM sessionKey_ne_user : gone.

Lemma redis_world {X} (P : R → Prop) e (w : world) (act : R → R * X) fail :
  P (store w) → (∀ r, P r → P (act r).1) → P (store (redis e w act fail).1).
Proof using. intros Hw Hact. unfold redis. destruct (e_net e); simpl; auto. Qed.

Lemma redis_clock {X} e (w : world) (act : R → R * X) fail : clock (redis e w act fail).1 = e_redis e.
Proof using. unfold redis. by destruct (e_net e). Qed.

Lemma gone_regenerate now r old new u oldT blob px newT secs k :
  new ≠ k → u ≠ k → gone now r k →
  gone now (regenerateScript r now old new u oldT blob px newT secs).1 k.
Proof using All.
  intros. unfold regenerateScript. destruct (GET r now old); simpl; [|done]. eauto 10 with gone.
Qed.

Lemma exec_dead {X} e (w : world) (c : scmd X) tok :
  dead w tok → cmd_foreign tok c → (clock w ≤ e_redis e)%Z → dead (exec X e w c).1 tok.
Proof using All.
  intros Hdead Hc Hle. unfold dead in *.
  pose proof (live_at_mono _ _ _ Hle Hdead) as Hgone. change (gone (e_redis e) (store w) (sessionKey tok)) in Hgone.
  destruct c; cbn [exec] in *; try exact Hdead; rewrite redis_clock;
    (apply (redis_world (λ r, gone (e_redis e) r (sessionKey tok))); [exact Hgone|]); intros r Hr;
    cbn [fst]; cbn [cmd_foreign] in Hc; try assert (sessionKey token ≠ sessionKey tok)
      by (intros ?%sessionKey_inj; done); eauto 10 using gone_foldl with gone.
  - unfold refreshIfExistsScript. destruct (decide (key = sessionKey tok)) as [->|Hne].
    + by rewrite gone_EXISTS.
    + destruct (negb _); simpl; auto with gone.
  - pose proof (gone_regenerate (e_redis e) r (sessionKey oldToken) (sessionKey newToken)
      (userSessionsKey userID) oldToken blob px newToken secs (sessionKey tok)) as Hreg.
    destruct (regenerateScript _ _ _ _ _ _ _ _ _ _) as [r' n]. apply Hreg; auto with gone.
    intros ?%sessionKey_inj. done.
  - unfold deleteScript. destruct (negb _); simpl; [done|]. case_decide; auto with gone.
Qed.

Lemma exec_fresh {X} e (w : world) (c : scmd X) tok :
  generateToken (e_rand e) ≠ Some tok → answer_fresh tok c (exec X e w c).2.
Proof using. by destruct c. Qed.

(** ** Runs *)

Definition init (w : world) : config := mkConfig w ∅ [].

(** [tok] was handed out. *)
Definition issued (s : config) (tok : string) : Prop :=
  ∃ t c, (t, c, AToken (Ok tok)) ∈ replies s.

(** At most one request handles a token of its own, and none does once the
    token is out. [used] are the tokens drawn so far. *)
Record tidy (used : list string) (s : config) : Prop := {
  td_fresh t c p tok : calls s !! t = Some (c, p) → tok ∉ used → foreign tok p;
  td_one t t' c c' p p' tok :
    t ≠ t' → calls s !! t = Some (c, p) → calls s !! t' = Some (c', p') →
    foreign tok p ∨ foreign tok p';
  td_issued tok : issued s tok → tok ∈ used ∧ ∀ t c p, calls s !! t = Some (c, p) → foreign tok p;
}.

Definition used_after (used : list string) (ev : sevent (D:=D)) : list string :=
  used ++ option_list (token_drawn ev).

Lemma exec_foreign {X} e w (c : scmd X) k tok used :
  foreign tok (Call c k) → tok ∉ used ++ option_list (generateToken (e_rand e)) ∨ tok ∈ used →
  NoDup (used ++ option_list (generateToken (e_rand e))) →
  foreign tok (k (exec X e w c).2).
Proof using All.
  intros [_ Hk] Htok Hnd. apply Hk, exec_fresh. intros Heq. rewrite Heq in Htok, Hnd. simpl in *.
  apply NoDup_app in Hnd as (_ & Hnd & _). destruct Htok as [Htok|Htok]; [set_solver|].
  apply (Hnd tok); set_solver.
Qed.

Lemma tidy_init w : tidy [] (init w).
Proof using.
  split; simpl.
  - intros t c p tok Ht. by rewrite lookup_empty in Ht.
  - intros t t' c c' p p' tok _ Ht. by rewrite lookup_empty in Ht.
  - intros tok (t & c & Hin). by apply elem_of_nil in Hin.
Qed.

(** The rule for an event that keeps or extends what is known of one request. *)
Lemma tidy_step used s ev s' :
  tidy used s → sstep s ev = Some s' → NoDup (used_after used ev) → tidy (used_after used ev) s'.
Proof using All.
  intros [Hf Ho Hi] Hstep Hnd. unfold used_after in *. destruct ev; cbn [Session.sstep token_drawn] in *.
  - (* EvCall *) simpl. rewrite app_nil_r in *. destruct (calls s !! t); [done|]. simplify_eq. split; simpl.
    + intros t' c' p tok [[-> [= <- <-]]|[_ Ht']]%lookup_insert_Some ?; [apply body_foreign|eauto].
    + intros t1 t2 c1 c2 p1 p2 tok Hne Ht1 Ht2.
      apply lookup_insert_Some in Ht1 as [[-> [= <- <-]]|[_ Ht1]]; [left; apply body_foreign|].
      apply lookup_insert_Some in Ht2 as [[-> [= <- <-]]|[_ Ht2]]; [right; apply body_foreign|eauto].
    + intros tok Htok. destruct (Hi tok Htok) as [? Hall]. split; [done|].
      intros t' c' p [[-> [= <- <-]]|[_ Ht']]%lookup_insert_Some; [apply body_foreign|eauto].
  - (* EvStep *) destruct (_ <? _)%Z; [done|].
    destruct (calls s !! t) as [[call [|X c k]]|] eqn:Ht; [done| |done].
    destruct (exec X e (cw s) c) as [w x] eqn:Ex. injection Hstep as <-.
    assert (x = (exec X e (cw s) c).2) as -> by by rewrite Ex.
    assert (∀ tok, foreign tok (Call c k) →
      tok ∉ used ++ option_list (generateToken (e_rand e)) ∨ tok ∈ used →
      foreign tok (k (exec X e (cw s) c).2)) as Hk by eauto using exec_foreign.
    assert (∀ tok, tok ∉ used ++ option_list (generateToken (e_rand e)) → tok ∉ used) by set_solver.
    assert (∀ tok t' c' p', t ≠ t' → calls s !! t' = Some (c', p') →
      foreign tok (k (exec X e (cw s) c).2) ∨ foreign tok p') as Hone.
    { intros tok t' c' p' Hne Ht'. destruct (decide (tok ∈ used)) as [Hin|Hin].
      - destruct (Ho _ _ _ _ _ _ tok Hne Ht Ht'); [left; apply Hk; auto|by right].
      - right. eauto. }
    split; simpl.
    + intros t' c' p tok [[-> [= <- <-]]|[_ Ht']]%lookup_insert_Some ?; [apply Hk; eauto|eauto].
    + intros t1 t2 c1 c2 p1 p2 tok Hne Ht1 Ht2.
      apply lookup_insert_Some in Ht1 as [[-> [= <- <-]]|[_ Ht1]];
        apply lookup_insert_Some in Ht2 as [[-> [= <- <-]]|[_ Ht2]]; [done|eauto| |eauto].
      destruct (Hone tok _ _ _ (not_eq_sym Hne) Ht1); auto.
    + intros tok Htok. destruct (Hi tok Htok) as [? Hall]. split; [set_solver|].
      intros t' c' p [[-> [= <- <-]]|[_ Ht']]%lookup_insert_Some; [apply Hk; eauto|eauto].
  - (* EvReply *) simpl. rewrite app_nil_r in *.
    destruct (calls s !! t) as [[call [a|X c k]]|] eqn:Ht; [|done..]. injection Hstep as <-.
    split; simpl.
    + intros t' c' p tok [_ Ht']%lookup_delete_Some ?; eauto.
    + intros t1 t2 c1 c2 p1 p2 tok Hne [_ Ht1]%lookup_delete_Some [_ Ht2]%lookup_delete_Some. eauto.
    + intros tok (t' & c' & Hin). apply elem_of_app in Hin as [Hin|Hin].
      * destruct (Hi tok) as [? Hall]; [by exists t', c'|]. split; [done|].
        intros t2 c2 p2 [_ Ht2]%lookup_delete_Some. eauto.
      * apply list_elem_of_singleton in Hin as [= -> -> <-].
        assert (¬ foreign tok (Ret (AToken (Ok tok)))) as Hnf by (simpl; tauto).
        split.
        -- destruct (decide (tok ∈ used)); [done|]. exfalso. eauto.
        -- intros t2 c2 p2 [Hne Ht2]%lookup_delete_Some. destruct (Ho _ _ _ _ _ _ tok Hne Ht Ht2); done.
  - (* EvSetMax *) simpl. rewrite app_nil_r in *. injection Hstep as <-. by split.
Qed.

Lemma srun_app s evs1 evs2 : srun s (evs1 ++ evs2) = s' ← srun s evs1; srun s' evs2.
Proof using.
  revert s. induction evs1 as [|ev evs1 IH]; intros s; simpl; [done|].
  destruct (sstep s ev); simpl; auto.
Qed.

Lemma tokens_drawn_cons ev evs :
  tokens_drawn (D:=D) (ev :: evs) = option_list (token_drawn ev) ++ tokens_drawn evs.
Proof using. unfold tokens_drawn. cbn [omap list_omap]. by destruct (token_drawn ev). Qed.

Lemma tokens_drawn_app evs1 evs2 :
  tokens_drawn (D:=D) (evs1 ++ evs2) = tokens_drawn evs1 ++ tokens_drawn evs2.
Proof using. apply omap_app. Qed.

(** An invariant of the steps is one of the runs. *)
Lemma run_ind (P : config → Prop) used s evs s' :
  (∀ used s ev s', tidy used s → NoDup (used_after used ev) → P s → sstep s ev = Some s' → P s') →
  tidy used s → NoDup (used ++ tokens_drawn evs) → srun s evs = Some s' → P s →
  P s' ∧ tidy (used ++ tokens_drawn evs) s'.
Proof using All.
  intros HP. revert used s. induction evs as [|ev evs IH]; intros used s Ht Hnd Hrun Hs; simpl in Hrun.
  { injection Hrun as <-. simpl. by rewrite app_nil_r. }
  destruct (sstep s ev) as [s1|] eqn:Hstep; [|done]. simpl in Hrun.
  rewrite tokens_drawn_cons, app_assoc in *.
  assert (NoDup (used_after used ev)) as Hnd1 by by apply NoDup_app in Hnd as (? & _).
  eapply IH; [by eapply tidy_step|done|done|]. by eapply HP.
Qed.

Lemma replies_grow s ev s' : sstep s ev = Some s' → ∃ l, replies s' = replies s ++ l.
Proof using.
  destruct ev; simpl; intros Hstep.
  - destruct (calls s !! t); simplify_eq. exists []. by rewrite app_nil_r.
  - destruct (_ <? _)%Z; [done|]. destruct (calls s !! t) as [[call [|X c k]]|]; try done.
    destruct (exec _ _ _ _). simplify_eq. exists []. by rewrite app_nil_r.
  - destruct (calls s !! t) as [[call [|]]|]; simplify_eq. by eexists.
  - simplify_eq. exists []. by rewrite app_nil_r.
Qed.

Lemma issued_step s ev s' tok : sstep s ev = Some s' → issued s tok → issued s' tok.
Proof using.
  intros (l & Hl)%replies_grow (t & c & Hin). exists t, c. rewrite Hl. set_solver.
Qed.

Lemma dead_step used s ev s' tok :
  tidy used s → issued s tok → sstep s ev = Some s' → dead (cw s) tok → dead (cw s') tok.
Proof using All.
  intros [_ _ Hi] Htok Hstep Hdead. destruct (Hi tok Htok) as [_ Hall].
  destruct ev; cbn [Session.sstep] in Hstep.
  - destruct (calls s !! t); by simplify_eq.
  - destruct (_ <? _)%Z eqn:Hle; [done|].
    destruct (calls s !! t) as [[call [|X c k]]|] eqn:Ht; [done| |done].
    destruct (Hall _ _ _ Ht) as [Hc _].
    pose proof (exec_dead e (cw s) c tok Hdead Hc ltac:(lia)) as Hd.
    destruct (exec X e (cw s) c). by injection Hstep as <-.
  - destruct (calls s !! t) as [[call [|]]|]; by simplify_eq.
  - by simplify_eq.
Qed.

(** The life of one request [t] that starts after [n] replies: a property [P] of
    its program that its steps keep and its answer ends with. *)
Definition tracks (n t : nat) (P : session_call → program → Prop) (s : config) : Prop :=
  n ≤ length (replies s) ∧
  (∀ c p, calls s !! t = Some (c, p) → P c p) ∧
  (∀ c a, (t, c, a) ∈ drop n (replies s) → P c (Ret a)).

Lemma tracks_start s t P : calls s !! t = None → tracks (length (replies s)) t P s.
Proof using.
  intros Ht. split_and!; [done|intros c p Hp; congruence|].
  intros c a Hin. rewrite drop_all in Hin. by apply elem_of_nil in Hin.
Qed.

Lemma tracks_step n t P s ev s' :
  (∀ c, P c (body c)) →
  (∀ c X (cmd : scmd X) k e, (clock (cw s) ≤ e_redis e)%Z → calls s !! t = Some (c, Call cmd k) →
     sstep s ev = Some s' → cw s' = (exec X e (cw s) cmd).1 →
     P c (Call cmd k) → P c (k (exec X e (cw s) cmd).2)) →
  tracks n t P s → sstep s ev = Some s' → tracks n t P s'.
Proof using.
  intros Hbody Hcmd (Hn & Hp & Hr) Hstep. unfold tracks. destruct ev; cbn [Session.sstep] in *.
  - destruct (calls s !! t0); simplify_eq. simpl. split_and!; [done| |done].
    intros c' p [[-> [= <- <-]]|[_ ?]]%lookup_insert_Some; [apply Hbody|auto].
  - destruct (_ <? _)%Z eqn:Hle; [done|].
    destruct (calls s !! t0) as [[call [|X c k]]|] eqn:Ht; [done| |done].
    specialize (λ Heq, Hcmd call X c k e ltac:(lia) (eq_trans (f_equal (calls s !!.) Heq) Ht) Hstep).
    destruct (exec X e (cw s) c) as [w x] eqn:Ex. injection Hstep as <-. simpl in *.
    split_and!; [done| |done].
    intros c' p [[-> [= <- <-]]|[_ ?]]%lookup_insert_Some; auto.
  - destruct (calls s !! t0) as [[call [a|]]|] eqn:Ht; simplify_eq. simpl. rewrite length_app.
    split_and!; [lia|intros c p [_ ?]%lookup_delete_Some; auto|].
    intros c a'. rewrite drop_app_le by done. intros [Hin|Hin]%elem_of_app; [auto|].
    apply list_elem_of_singleton in Hin as [= -> -> ->]. auto.
  - simplify_eq. by split_and!.
Qed.

(** ** What a request on a dead token answers *)

Definition uses (tok : string) (c : session_call (D:=D)) : Prop :=
  match c with DoGet t _ | DoRegenerate t _ => t = tok | _ => False end.

Definition failed (a : answer (D:=D)) : Prop :=
  match a with AToken (Ok _) | ASession (Ok _) | ADone (Ok _) | AInfos (Ok _) => False | _ => True end.

Definition answer_dead (tok : string) {X} (c : scmd X) : X → Prop :=
  match c in scmd X return X → Prop with
  | CGet key => λ x, key = sessionKey tok → ∀ raw, x ≠ Some (Some raw)
  | _ => λ _, True
  end.

Fixpoint cold (tok : string) (p : program) : Prop :=
  match p with
  | Ret a => failed a
  | Call c k => ∀ x, answer_dead tok c x → cold tok (k x)
  end.

Lemma body_cold tok c : uses tok c → cold tok (body c).
Proof using.
  clear. destruct c; simpl; try done; intros ->; unfold Get, Regenerate; simpl;
    (case_match; [done|]); (case_match; [done|]); intros [[raw|]|] Hx; simpl; try done;
    by destruct (Hx eq_refl raw).
Qed.

Lemma exec_answer_dead {X} e (w : world) (c : scmd X) tok :
  dead w tok → (clock w ≤ e_redis e)%Z → answer_dead tok c (exec X e w c).2.
Proof using All.
  intros Hdead Hle. destruct c; try done. simpl. intros -> raw.
  unfold redis. destruct (e_net e); simpl; try done.
  rewrite view_GET, (live_at_mono _ _ _ Hle Hdead). done.
Qed.

(** ** What a successful [Delete] leaves *)

Definition deleted (tok : string) {X} (c : scmd X) : X → bool :=
  match c in scmd X return X → bool with
  | CDelete key _ _ => λ ok, ok && bool_decide (key = sessionKey tok)
  | _ => λ _, false
  end.

Fixpoint sure (tok : string) (p : program) : Prop :=
  match p with
  | Ret a => failed a
  | Call c k => ∀ x, deleted tok c x = false → sure tok (k x)
  end.

Lemma body_sure tok : sure tok (body (DoDelete tok)).
Proof using.
  clear. unfold Session.body, Delete. destruct (negb _); simpl; [done|]. intros raw _ [] Hx; [|done].
  by rewrite bool_decide_true in Hx by done.
Qed.

Lemma exec_deleted {X} e (w : world) (c : scmd X) tok :
  deleted tok c (exec X e w c).2 = true → dead (exec X e w c).1 tok.
Proof using All.
  destruct c; try done. simpl. unfold redis. destruct (e_net e); try done. simpl.
  intros ->%bool_decide_eq_true. unfold dead. simpl. unfold deleteScript. rewrite view_EXISTS.
  destruct (bool_decide _) eqn:E; simpl.
  - assert (gone (e_redis e) (DEL (store w) (e_redis e) (sessionKey tok)) (sessionKey tok)) as Hg.
    { unfold gone. rewrite view_DEL. by rewrite decide_True. }
    case_decide; [done|]. by apply gone_SREM.
  - apply bool_decide_eq_false in E. destruct (live_at _ _); [|done]. destruct E. eauto.
Qed.

Lemma run_dead used s evs s' tok :
  tidy used s → NoDup (used ++ tokens_drawn evs) → srun s evs = Some s' → issued s tok →
  dead (cw s) tok → dead (cw s') tok ∧ issued s' tok.
Proof using All.
  intros Ht Hnd Hrun Htok Hdead.
  apply (run_ind (λ s, dead (cw s) tok ∧ issued s tok) used s evs s'); try done.
  intros. split; [eapply dead_step|eapply issued_step]; naive_solver.
Qed.

(** The requests on a dead token fail. *)
Lemma run_fails used s evs s' tok t c a :
  tidy used s → NoDup (used ++ tokens_drawn evs) → srun s evs = Some s' → issued s tok →
  dead (cw s) tok → calls s !! t = None → (t, c, a) ∈ drop (length (replies s)) (replies s') →
  uses tok c → failed a.
Proof using All.
  intros Ht Hnd Hrun Htok Hdead Hnone Hin Huse.
  apply (run_ind (λ s', (dead (cw s') tok ∧ issued s' tok) ∧
    tracks (length (replies s)) t (λ c p, uses tok c → cold tok p) s') used s evs s') in Hrun
    as [(_ & _ & _ & Hr) _]; [by apply (Hr c a)| |done|done|split; [done|by apply tracks_start]].
  clear -H0. intros used s1 ev s2 Ht Hnd [[Hd Hi] Htr] Hstep.
  split; [split; [by eapply dead_step|by eapply issued_step]|].
  eapply tracks_step; [by intros; apply body_cold| |done|done].
  intros c0 X cmd k ev0 Hle _ _ _ Hc Huse. apply Hc; [done|]. by apply exec_answer_dead.
Qed.

(** A [Delete] that answers success left the token dead. *)
Lemma run_deletes used s evs s' tok t :
  tidy used s → NoDup (used ++ tokens_drawn evs) → srun s evs = Some s' → issued s tok →
  calls s !! t = None →
  (t, DoDelete tok, ADone (Ok ())) ∈ drop (length (replies s)) (replies s') →
  dead (cw s') tok.
Proof using All.
  intros Ht Hnd Hrun Htok Hnone Hin.
  apply (run_ind (λ s', issued s' tok ∧ (dead (cw s') tok ∨
    tracks (length (replies s)) t (λ c p, c = DoDelete tok → sure tok p) s')) used s evs s') in Hrun
    as [[_ [Hd|(_ & _ & Hr)]] _]; [done|by destruct (Hr _ _ Hin eq_refl)| |done|done|
      split; [done|right; by apply tracks_start]].
  clear -H0. intros used s1 ev s2 Ht Hnd [Hi Hcase] Hstep. split; [by eapply issued_step|].
  destruct (live_at (clock (cw s2)) (view (store (cw s2)) (sessionKey tok))) eqn:Hlive; [|by left].
  destruct Hcase as [Hd|Htr]; [left; by eapply dead_step|]. right.
  eapply tracks_step; [by intros ? ->; apply body_sure| |done|done].
  intros c0 X cmd k ev0 Hle _ _ Hcw Hc ->. apply Hc; [done|].
  destruct (deleted tok cmd _) eqn:Hdel; [|done].
  apply exec_deleted in Hdel. rewrite <-Hcw in Hdel. unfold dead in Hdel. congruence.
Qed.

(** C38. Revocation is final. Take any interleaving of requests, with any clock
    readings, random bytes and Redis failures, in which the random source never
    gives a token twice: if a [Delete] of a token that had been handed out
    answers success, then in every later state Redis holds no session under the
    token, and every [Get] or [Regenerate] of the token begun after that answer
    fails, whatever refreshes were in progress. *)
Theorem delete_is_final w evs1 s1 evs2 s2 evs3 s3 tok t :
  NoDup (tokens_drawn (evs1 ++ evs2 ++ evs3)) →
  srun (init w) evs1 = Some s1 → srun s1 evs2 = Some s2 → srun s2 evs3 = Some s3 →
  issued s1 tok → calls s1 !! t = None →
  (t, DoDelete tok, ADone (Ok ())) ∈ drop (length (replies s1)) (replies s2) →
  dead (cw s3) tok ∧
  ∀ t' c a, calls s2 !! t' = None → (t', c, a) ∈ drop (length (replies s2)) (replies s3) →
    uses tok c → failed a.
Proof using All.
  rewrite !tokens_drawn_app. intros Hnd H1 H2 H3 Htok Hnone Hin.
  assert (NoDup (tokens_drawn evs1)) as Hnd1 by by apply NoDup_app in Hnd as (? & _).
  assert (NoDup (tokens_drawn evs1 ++ tokens_drawn evs2)) as Hnd2.
  { rewrite app_assoc in Hnd. by apply NoDup_app in Hnd as (? & _). }
  destruct (run_ind (λ _, True) [] _ evs1 s1 ltac:(done) (tidy_init w) Hnd1 H1 I) as [_ Ht1].
  simpl in Ht1.
  destruct (run_ind (λ s, issued s tok) _ _ evs2 s2 (λ _ s ev s' _ _ Hi Hs, issued_step s ev s' tok Hs Hi)
    Ht1 Hnd2 H2 Htok) as [Htok2 Ht2].
  pose proof (run_deletes _ _ _ _ _ _ Ht1 Hnd2 H2 Htok Hnone Hin) as Hdead.
  rewrite app_assoc in Hnd. split; [by eapply run_dead|]. intros. by eapply run_fails.
Qed.
End safety.
