(* ===== verification/SessionWindow.v ===== *)
(** * The lifetime of a session

    Requests one after the other against Redis without failures, on one clock
    read in milliseconds: a session made by [Create] is a sliding window with an
    absolute bound. Also the in-memory model of Redis the concrete runs use. *)
From S2P Require Import Prelude Prog Base64 Redis Session SessionSafety.
From Stdlib Require Import Ascii.

(** ** One request after the other *)

Definition ms : Duration := 1000000%Z.

Section window.
Context {D : Type} (emptyData : D).
Context (marshal : Session D → option string) (unmarshal : string → option (Session D)).
Context {R : Type} `{RedisLaws R}.

Abbreviation Create := (Create emptyData marshal).
Abbreviation Get := (Get marshal unmarshal).
Abbreviation world := (world (R:=R)).

(** A request that Redis serves, all at millisecond [now]. *)
Definition request {A} (now : Z) (buf : option (list Z)) (w : world) (p : prog scmd A) : world * A :=
  run_alone (λ X _ w c, exec X (mkEnv now (now * ms) buf Served) w c) 0 w p.

(** A history of [Get]s: at each millisecond, with each idle window. *)
Fixpoint gets (w : world) (tok : string) (h : list (Z * Z)) : list (option (Session D)) :=
  match h with
  | [] => []
  | (now, idle) :: h =>
      let r := request now None w (Get tok (idle * ms)%Z) in
      match r.2 with Ok s => Some s | Err _ => None end :: gets r.1 tok h
  end.

(** The specification: the session answers while the last use is at most one
    idle window ago and the absolute bound is ahead, and each use starts the
    window again. *)
Fixpoint sliding (sess : Time → Session D) (abs last idle : Z) (h : list (Z * Z))
    : list (option (Session D)) :=
  match h with
  | [] => []
  | (now, idle') :: h =>
      if ((now <? abs) && (now - last <=? idle))%Z
      then Some (sess (now * ms)%Z) :: sliding sess abs now idle' h
      else None :: sliding sess abs last idle h
  end.

(** Times do not go back, and idle windows are positive. *)
Fixpoint ordered (last : Z) (h : list (Z * Z)) : Prop :=
  match h with
  | [] => True
  | (now, idle) :: h => (last ≤ now)%Z ∧ (0 < idle)%Z ∧ ordered now h
  end.

Section one_session.
Context (user tok : string) (created abs cap : Z) (data : D).

Definition session_at (seen : Time) : Session D :=
  mkSession user (created * ms)%Z seen (abs * ms)%Z data.

(** The codec gives back this session and its blob is within the ceiling. *)
Definition codec_ok : Prop :=
  ∀ seen, ∃ b, marshal (session_at seen) = Some b ∧ unmarshal b = Some (session_at seen) ∧
    too_large cap b = false.

(** What Redis holds at [now] of a session last used at [last]. *)
Definition holding (w : world) (now last idle : Z) : Prop :=
  maxDataSize w = cap ∧
  match live_at now (view (store w) (sessionKey tok)) with
  | Some (RStr b, Some e) =>
      unmarshal b = Some (session_at (last * ms)%Z) ∧ too_large cap b = false ∧
      (last < abs)%Z ∧ e = (last + Z.min idle (abs - last))%Z
  | Some _ => False
  | None => (now < abs → idle < now - last)%Z
  end.

Lemma holding_later w now now' last idle :
  (now ≤ now')%Z → holding w now last idle → holding w now' last idle.
Proof using.
  intros Hle [Hcap Hw]. split; [done|].
  destruct (view (store w) (sessionKey tok)) as [[[b|m] [e|]]|]; simpl in *.
  - destruct (e <? now)%Z eqn:E1; [|destruct (e <? now')%Z eqn:E2; [|done]].
    + rewrite (proj2 (Z.ltb_lt e now')) by lia. lia.
    + destruct Hw as (_ & _ & _ & ->). lia.
  - done.
  - destruct (e <? now)%Z eqn:E; [|done]. rewrite (proj2 (Z.ltb_lt e now')) by lia. lia.
  - done.
  - lia.
Qed.

Lemma px_of_ms d : (0 < d)%Z → px_of (d * ms) = d.
Proof using. unfold px_of, ms. intros ?. rewrite Z.quot_mul by done. case_match; lia. Qed.

Lemma abs_not_zero : (0 ≤ abs)%Z → is_zero (abs * ms)%Z = false.
Proof using. unfold is_zero, time_zero, second, ms. lia. Qed.

Lemma keys_differ u : userSessionsKey u ≠ sessionKey tok.
Proof using. done. Qed.

(** The refresh leaves the new blob under the session's key. *)
Lemma refresh_holds w n now idle :
  codec_ok → (0 ≤ abs)%Z → (now < abs)%Z → (0 < idle)%Z → maxDataSize w = cap →
  is_Some (live_at now (view (store w) (sessionKey tok))) →
  let r := run_alone (λ X _ w c, exec X (mkEnv now (now * ms) None Served) w c) n w
    (refresh marshal tok (session_at (now * ms)%Z) (now * ms)%Z (Z.min idle (abs - now) * ms)%Z) in
  r.2 = Ok (session_at (now * ms)%Z) ∧ holding r.1 now now idle.
Proof using All.
  intros Hcodec Habs0 Habs Hidle Hcap [e He]. destruct (Hcodec (now * ms)%Z) as (b & Hm & Hu & Hfit).
  unfold refresh. rewrite Hm. cbn [run_alone exec redis e_net fst snd].
  split; [done|]. split; [done|]. cbn [store].
  rewrite !view_EXPIRE_ne by apply keys_differ. simpl.
  unfold refreshIfExistsScript. rewrite view_EXISTS, He. rewrite bool_decide_true by eauto. simpl.
  rewrite px_of_ms by lia. rewrite view_SETPX by lia. simpl.
  rewrite (proj2 (Z.ltb_ge _ _)) by lia. split_and!; [done|done|lia|done].
Qed.

(** [Delete] of a session that is there. *)
Lemma delete_run w n now :
  validToken tok = true →
  let r := run_alone (λ X _ w c, exec X (mkEnv now (now * ms) None Served) w c) n w
    (bind (Delete unmarshal tok) (λ _, Ret (Err (A:=Session D) ErrNotFound))) in
  r.2 = Err ErrNotFound ∧ maxDataSize r.1 = maxDataSize w ∧
  live_at now (view (store r.1) (sessionKey tok)) = None.
Proof using All.
  intros Hv. unfold Delete. rewrite Hv. cbn [negb bind run_alone exec redis e_net fst snd store maxDataSize].
  split; [done|]. split; [done|]. simpl. unfold deleteScript. rewrite view_EXISTS.
  destruct (bool_decide _) eqn:E; simpl.
  - match goal with |- context [decide (?k = "")] => set (uk := k) end.
    assert (live_at now (view (DEL (store w) now (sessionKey tok)) (sessionKey tok)) = None) as Hg.
    { by rewrite view_DEL, decide_True. }
    destruct (decide (uk = "")); [done|]. rewrite view_SREM. case_decide as Hk; [|done].
    by rewrite Hk, Hg.
  - apply bool_decide_eq_false in E. destruct (live_at _ _); [|done]. destruct E. eauto.
Qed.

Lemma get_step w now last idle idle' :
  codec_ok → (0 ≤ abs)%Z → validToken tok = true → (0 < idle')%Z → holding w now last idle →
  let r := request now None w (Get tok (idle' * ms)%Z) in
  if ((now <? abs) && (now - last <=? idle))%Z
  then r.2 = Ok (session_at (now * ms)%Z) ∧ holding r.1 now now idle'
  else r.2 = Err ErrNotFound ∧ holding r.1 now last idle.
Proof using All.
  intros Hcodec Habs0 Hv Hidle [Hcap Hw]. unfold request, Session.Get. rewrite Hv. cbn [negb].
  rewrite (proj2 (Z.leb_gt (idle' * ms) 0)) by (unfold ms; lia).
  cbn [run_alone exec redis e_net e_redis fst snd store clock maxDataSize]. rewrite view_GET.
  destruct (live_at now (view (store w) (sessionKey tok))) as [[[b|m] [e|]]|] eqn:Hlive; try done.
  - destruct Hw as (Hu & Hfit & Hlast & ->).
    assert ((now - last <=? idle) = true)%Z as ->.
    { apply live_at_Some in Hlive as Hv2. rewrite Hv2 in Hlive. simpl in Hlive.
      destruct (_ <? now)%Z eqn:Elt; [done|]. lia. }
    cbn [run_alone exec fst snd maxDataSize]. rewrite Hcap, Hfit, Hu.
    cbn [run_alone exec fst snd e_now]. unfold past_bound, min_expiry, time_before. cbn [AbsoluteExpiry session_at].
    rewrite abs_not_zero by done. cbn [negb andb]. destruct (now <? abs)%Z eqn:Enow; simpl.
    + rewrite (proj2 (Z.ltb_lt (now * ms) _)) by (unfold ms; lia). cbn [negb].
      assert ((if abs * ms - now * ms <? idle' * ms then abs * ms - now * ms else idle' * ms) =
        Z.min idle' (abs - now) * ms)%Z as -> by (unfold ms; case_match; lia).
      rewrite (proj2 (Z.leb_gt (Z.min idle' (abs - now) * ms) 0)) by (unfold ms; lia).
      apply refresh_holds; simpl; try done. lia.
    + rewrite (proj2 (Z.ltb_ge (now * ms) _)) by (unfold ms; lia). cbn [negb].
      destruct (delete_run (mkWorld (store w) now cap) 3 now Hv) as (Hr & Hc & Hg). split; [exact Hr|].
      split; [exact Hc|]. rewrite Hg. lia.
  - assert (((now <? abs) && (now - last <=? idle))%Z = false) as -> by (destruct (now <? abs)%Z eqn:?; simpl; lia).
    simpl. split; [done|]. split; [done|]. simpl. by rewrite Hlive.
Qed.

Lemma gets_sliding h w now last idle :
  codec_ok → (0 ≤ abs)%Z → validToken tok = true → holding w now last idle → ordered now h →
  gets w tok h = sliding session_at abs last idle h.
Proof using All.
  intros Hcodec Habs Hv. revert w now last idle. induction h as [|[now' idle'] h IH];
    intros w now last idle Hw; simpl; [done|]. intros (Hle & Hidle & Hord).
  pose proof (get_step w now' last idle idle' Hcodec Habs Hv Hidle (holding_later _ _ _ _ _ Hle Hw)) as Hstep.
  destruct (_ && _); destruct Hstep as [-> Hnext]; f_equal; eauto.
Qed.
End one_session.

(** C39. Without Redis failures and on one millisecond clock, a session made by
    [Create] lives exactly as the sliding window with an absolute bound: [Get]
    answers the session, with [LastSeenAt] the time of the call, while the last
    use is at most an idle window ago and the absolute expiry is ahead, and from
    then on answers nothing. *)
Theorem session_lifetime w user data created ttl idle buf h :
  user ≠ "" → (0 ≤ created)%Z → (0 < idle ≤ ttl)%Z →
  Forall base64.byte buf → length buf = 32 →
  codec_ok user created (created + ttl) (maxDataSize w) (default emptyData data) →
  ordered created h →
  let tok := base64.EncodeToString buf in
  let r := request created (Some buf) w (Create user data (ttl * ms) (idle * ms)) in
  r.2 = Ok tok ∧
  gets r.1 tok h =
    sliding (session_at user created (created + ttl) (default emptyData data))
      (created + ttl) created idle h.
Proof using All.
  intros Huser Hcr Httl Hbuf Hlen Hcodec Hord tok.
  assert (validToken tok = true) as Hv by by apply EncodeToString_valid.
  assert (generateToken (Some buf) = Some tok) as Htok by done. clearbody tok. unfold request, Session.Create.
  rewrite decide_False by done.
  rewrite (proj2 (Z.leb_gt (ttl * ms) 0)), (proj2 (Z.leb_gt (idle * ms) 0)),
    (proj2 (Z.ltb_ge (ttl * ms) (idle * ms))) by (unfold ms; lia).
  cbn [orb run_alone exec fst snd e_rand e_now]. rewrite Htok. cbn [run_alone exec fst snd e_now].
  destruct (Hcodec (created * ms)%Z) as (b & Hm & Hu & Hfit).
  unfold session_at in Hm. rewrite Z.mul_add_distr_r in Hm. rewrite Hm.
  cbn [run_alone exec redis e_net fst snd]. rewrite Hfit. cbn [run_alone exec redis e_net fst snd].
  split; [done|]. apply (gets_sliding _ _ _ _ (maxDataSize w) _ _ _ created); try done; [lia|].
  split; [done|]. cbn [store].
  rewrite !view_EXPIRE_ne, view_SADD, decide_False by apply keys_differ. simpl.
  assert (∀ d, (0 < d)%Z → formatMs (R:=R) (d * ms) = d) as Hms by (intros; by apply formatMs_whole).
  rewrite Hms by lia. rewrite view_SETPX by lia. simpl.
  rewrite (proj2 (Z.ltb_ge _ _)) by lia. split_and!; [done|done|lia|lia].
Qed.
End window.

(** ** A concrete codec and concrete runs *)

Fixpoint bits (p : positive) : string :=
  match p with xH => "" | xO p => String "0"%char (bits p) | xI p => String "1"%char (bits p) end.
Fixpoint of_bits (s : string) : positive :=
  match s with
  | EmptyString => xH
  | String c s => if Ascii.eqb c "0"%char then xO (of_bits s) else xI (of_bits s)
  end.

Lemma of_bits_bits p : of_bits (bits p) = p.
Proof. by induction p as [p IH|p IH|]; simpl; rewrite ?IH. Qed.

Definition demo_marshal (s : Session unit) : option string :=
  Some (bits (encode (UserID s, CreatedAt s, LastSeenAt s, AbsoluteExpiry s))).
Definition demo_unmarshal (b : string) : option (Session unit) :=
  (λ x : string * Z * Z * Z, let '(u, c, l, a) := x in mkSession u c l a tt) <$> decode (of_bits b).

Lemma demo_codec s : demo_marshal s ≫= demo_unmarshal = Some s.
Proof.
  unfold demo_marshal, demo_unmarshal. simpl. rewrite of_bits_bits, decode_encode. simpl.
  by destruct s as [? ? ? ? []].
Qed.

Definition demo_buf (n : Z) : list Z := n :: replicate 31 7%Z.
Definition demo_token : string := base64.EncodeToString (demo_buf 1).
Definition demo_world : world (R:=gmap string entry) := mkWorld ∅ 0 0.
Definition at_ms (now : Z) (buf : option (list Z)) : env := mkEnv now (now * ms) buf Served.

Definition demo_run := srun tt demo_marshal demo_unmarshal (R:=gmap string entry).
Definition demo_create : list (sevent (D:=unit)) :=
  [EvCall 1 (DoCreate "ann" None (10 * second) (5 * second));
   EvStep 1 (at_ms 0 (Some (demo_buf 1))); EvStep 1 (at_ms 0 None); EvStep 1 (at_ms 0 None);
   EvStep 1 (at_ms 1 None); EvReply 1].
Definition demo_delete : list (sevent (D:=unit)) :=
  [EvCall 3 (DoGet demo_token (5 * second)); EvStep 3 (at_ms 2 None);
   EvCall 2 (DoDelete demo_token); EvStep 2 (at_ms 3 None); EvStep 2 (at_ms 4 None); EvReply 2].
Definition demo_after : list (sevent (D:=unit)) :=
  [EvStep 3 (at_ms 5 None); EvStep 3 (at_ms 5 None); EvStep 3 (at_ms 5 None); EvStep 3 (at_ms 6 None);
   EvStep 3 (at_ms 6 None); EvReply 3;
   EvCall 4 (DoGet demo_token (5 * second)); EvStep 4 (at_ms 7 None); EvReply 4].

Definition demo_s1 := default (init demo_world) (demo_run (init demo_world) demo_create).
Definition demo_s2 := default (init demo_world) (demo_run demo_s1 demo_delete).
Definition demo_s3 := default (init demo_world) (demo_run demo_s2 demo_after).

Definition served (o : option (config (D:=unit) (R:=gmap string entry))) : bool :=
  match o with Some _ => true | None => false end.

Lemma default_run o : served o = true → o = Some (default (init demo_world) o).
Proof. by destruct o. Qed.

Lemma demo_s1_run : demo_run (init demo_world) demo_create = Some demo_s1.
Proof. apply default_run. vm_compute. reflexivity. Qed.
Lemma demo_s2_run : demo_run demo_s1 demo_delete = Some demo_s2.
Proof. apply default_run. vm_compute. reflexivity. Qed.
Lemma demo_s3_run : demo_run demo_s2 demo_after = Some demo_s3.
Proof. apply default_run. vm_compute. reflexivity. Qed.

Lemma demo_replies :
  replies demo_s1 = [(1, DoCreate "ann" None (10 * second) (5 * second), AToken (Ok demo_token))] ∧
  drop 1 (replies demo_s2) = [(2, DoDelete demo_token, ADone (Ok ()))] ∧
  (∃ s, drop 2 (replies demo_s3) = [(3, DoGet demo_token (5 * second), ASession (Ok s));
    (4, DoGet demo_token (5 * second), ASession (Err ErrNotFound))]) ∧
  calls demo_s1 !! 2 = None ∧ calls demo_s2 !! 4 = None ∧
  tokens_drawn (demo_create ++ demo_delete ++ demo_after) = [demo_token].
Proof. split_and!; try (vm_compute; reflexivity). vm_compute. eexists. reflexivity. Qed.

Lemma delete_is_final_witness :
  issued demo_s1 demo_token ∧ dead (cw demo_s3) demo_token.
Proof.
  destruct demo_replies as (H1 & H2 & _ & Hc & _ & Ht).
  assert (issued demo_s1 demo_token) as Hi by (eexists 1, _; rewrite H1; by left).
  split; [exact Hi|].
  refine (proj1 (delete_is_final tt demo_marshal demo_unmarshal demo_world demo_create demo_s1
    demo_delete demo_s2 demo_after demo_s3 demo_token 2 _ demo_s1_run demo_s2_run demo_s3_run Hi Hc _)).
  - rewrite Ht. apply NoDup_singleton.
  - rewrite H1. simpl length. rewrite H2. by left.
Defined.

(** Four uses of a ten-second session with a five-second window. *)
Definition demo_history : list (Z * Z) := [(4000, 5000); (9000, 5000); (9999, 5000); (10000, 5000)]%Z.

Lemma session_lifetime_witness :
  (λ o, bool_decide (is_Some o)) <$>
    gets demo_marshal demo_unmarshal
      (request 0 (Some (demo_buf 1)) demo_world
        (Create tt demo_marshal "ann" None (10000 * ms) (5000 * ms))).1
      demo_token demo_history = [true; true; true; false].
Proof.
  pose proof (session_lifetime tt demo_marshal demo_unmarshal demo_world "ann" None 0 10000 5000
    (demo_buf 1) demo_history) as Hlife. cbv zeta in Hlife.
  destruct Hlife as [_ Hgets]; [done|lia|lia| |done| | |].
  - repeat constructor; unfold base64.byte; lia.
  - intros seen. eexists. split; [reflexivity|]. split; [apply demo_codec|done].
  - simpl. lia.
  - unfold demo_token. rewrite Hgets. reflexivity.
Defined.

(** ** What the comments promise and the code does not do *)

Definition demo_live (w : world (R:=gmap string entry)) (now : Z) (tok : string) : bool :=
  match GET (store w) now (sessionKey tok) with Some _ => true | None => false end.
Definition demo_index (w : world (R:=gmap string entry)) (now : Z) : list string :=
  SMEMBERS (store w) now (userSessionsKey "ann").

Definition demo_created (idle : Z) : world (R:=gmap string entry) :=
  (request 0 (Some (demo_buf 1)) demo_world
     (Create tt demo_marshal "ann" None (10000 * ms) (idle * ms))).1.

(** [Delete] of a session whose blob is gone leaves its entry in the user's set:
    the script stops at the missing blob, before the SREM. *)
Theorem Delete_keeps_orphan :
  let w := demo_created 1000 in
  let r := request 2000 None w (Delete demo_unmarshal demo_token) in
  (r.2, demo_live r.1 2000 demo_token, demo_index r.1 2000) = (Ok tt, false, [demo_token]).
Proof. vm_compute. reflexivity. Qed.

(** [Regenerate] gives the user's set the new idle window cut to whole seconds,
    so the set can be gone while the session lives, and [DeleteAllForUser] then
    leaves the session alive. *)
Theorem Regenerate_outlives_index :
  let r := request 100 (Some (demo_buf 2)) (demo_created 1500)
    (Regenerate demo_marshal demo_unmarshal demo_token (1500 * ms)) in
  let tok := base64.EncodeToString (demo_buf 2) in
  let r' := request 1200 None r.1 (DeleteAllForUser "ann") in
  (r.2, r'.2, demo_live r'.1 1200 tok, demo_index r'.1 1200) = (Ok tok, Ok tt, true, []).
Proof. vm_compute. reflexivity. Qed.

(** A [Regenerate] between the two commands of [DeleteAllForUser] keeps an old
    session alive under its new token, outside the user's set. *)
Theorem DeleteAll_misses_rotation :
  let tok := base64.EncodeToString (demo_buf 2) in
  (λ s, (replies s, demo_live (cw s) 100 tok, demo_index (cw s) 100)) <$>
    srun tt demo_marshal demo_unmarshal (init (demo_created 5000))
      [EvCall 1 (DoDeleteAll "ann"); EvStep 1 (at_ms 10 None);
       EvCall 2 (DoRegenerate demo_token (5000 * ms)); EvStep 2 (at_ms 11 None);
       EvStep 2 (at_ms 11 None); EvStep 2 (at_ms 11 (Some (demo_buf 2))); EvStep 2 (at_ms 11 None);
       EvStep 2 (at_ms 12 None); EvReply 2; EvStep 1 (at_ms 13 None); EvReply 1]
  = Some ([(2, DoRegenerate demo_token (5000 * ms), AToken (Ok tok));
           (1, DoDeleteAll "ann", ADone (Ok tt))], true, []).
Proof. vm_compute. reflexivity. Qed.
