(* ===== verification/Hex.v ===== *)
(** * encoding/hex

    [EncodeToString] writes two lower-case digits per byte; [DecodeString]
    accepts both cases and refuses odd lengths and other characters. Byte slices
    are strings. *)
From S2P Require Import Prelude.
From Stdlib Require Import Ascii.

Module hex.
Definition hextable : string := "0123456789abcdef".
Definition digit_of (n : N) : ascii := default "0"%char (String.get (N.to_nat n) hextable).

Definition value_of (c : ascii) : option N :=
  let n := N_of_ascii c in
  if Ascii.leb "0" c && Ascii.leb c "9" then Some (n - 48)%N
  else if Ascii.leb "a" c && Ascii.leb c "f" then Some (n - 87)%N
  else if Ascii.leb "A" c && Ascii.leb c "F" then Some (n - 55)%N
  else None.

Fixpoint EncodeToString (s : string) : string :=
  match s with
  | EmptyString => ""
  | String c s =>
      let n := N_of_ascii c in
      String (digit_of (n / 16)) (String (digit_of (n mod 16)) (EncodeToString s))
  end.

Fixpoint DecodeString (s : string) : option string :=
  match s with
  | EmptyString => Some ""
  | String _ EmptyString => None
  | String a (String b s) =>
      x ← value_of a; y ← value_of b; t ← DecodeString s;
      Some (String (ascii_of_N (16 * x + y)) t)
  end.

(** The bytes [DecodeString] returns, with or without an error: those before the
    first pair it cannot decode. *)
Fixpoint DecodeBytes (s : string) : string :=
  match s with
  | String a (String b s) =>
      match value_of a, value_of b with
      | Some x, Some y => String (ascii_of_N (16 * x + y)) (DecodeBytes s)
      | _, _ => ""
      end
  | _ => ""
  end.

Definition is_hex (c : ascii) : bool := match value_of c with Some _ => true | None => false end.

Lemma value_digit n : (n < 16)%N → value_of (digit_of n) = Some n.
Proof.
  intros Hn. assert (∃ k, k < 16 ∧ n = N.of_nat k) as (k & Hk & ->) by (exists (N.to_nat n); lia).
  do 16 (destruct k as [|k]; [reflexivity|]). lia.
Qed.

Lemma hex_DecodeString s : DecodeString (EncodeToString s) = Some s.
Proof.
  induction s as [|c s IH]; [done|]. cbn [EncodeToString DecodeString].
  pose proof (N_ascii_bounded c) as Hc.
  rewrite !value_digit by first [apply N.Div0.div_lt_upper_bound; lia|apply N.mod_lt; lia].
  simpl. rewrite IH. simpl. do 2 f_equal.
  rewrite <-(ascii_N_embedding c) at 3. f_equal. symmetry. apply N.div_mod. lia.
Qed.

Lemma DecodeBytes_DecodeString s t : DecodeString s = Some t → DecodeBytes s = t.
Proof.
  revert t. induction s as [s IH] using (induction_ltof1 _ String.length). unfold ltof in IH. intros t.
  destruct s as [|a [|b s]]; simpl; [by intros [= <-]|done|].
  destruct (value_of a) as [x|]; [|done]. simpl. destruct (value_of b) as [y|]; [|done]. simpl.
  intros (t' & Ht & [= <-])%bind_Some. f_equal. apply IH; [simpl; lia|done].
Qed.

Lemma EncodeToString_inj s t : EncodeToString s = EncodeToString t → s = t.
Proof.
  intros H. apply (f_equal DecodeString) in H. rewrite !hex_DecodeString in H. congruence.
Qed.
End hex.
