(* ===== verification/Json.v ===== *)
(** * json.Valid and string quoting of Go's encoding/json

    The scanner as the standard library has it: a step function on one byte and
    a stack of the objects and arrays that are open, at most 10000 deep. *)
From S2P Require Import Prelude GoStrings Hex.
From Stdlib Require Import Ascii.

Module json.
Inductive parse := parseObjectKey | parseObjectValue | parseArrayValue.

Inductive state :=
| BeginValue | BeginValueOrEmpty | BeginString | BeginStringOrEmpty | EndValue | EndTop
| InString | InStringEsc | InStringEscU (left : nat)
| Neg | Int1 | Int0 | Dot | Dot0 | E | ESign | E0
| Literal (rest : list ascii).

Record scanner := mkScanner { step : state; parseState : list parse; endTop : bool }.

Definition maxNestingDepth : nat := Z.to_nat 10000.

Definition reset : scanner := mkScanner BeginValue [] false.

Definition isSpace (c : ascii) : bool :=
  Ascii.eqb c " " || Ascii.eqb c "009" || Ascii.eqb c "010" || Ascii.eqb c "013".
Definition isDigit (c : ascii) : bool := Ascii.leb "0" c && Ascii.leb c "9".
Definition isHex (c : ascii) : bool :=
  isDigit c || (Ascii.leb "a" c && Ascii.leb c "f") || (Ascii.leb "A" c && Ascii.leb c "F").

Definition goto (st : state) (s : scanner) : option scanner :=
  Some (mkScanner st (parseState s) (endTop s)).

Definition push (st : state) (p : parse) (s : scanner) : option scanner :=
  if maxNestingDepth <? S (length (parseState s)) then None
  else Some (mkScanner st (p :: parseState s) (endTop s)).

(** [popParseState] *)
Definition pop (s : scanner) : option scanner :=
  match parseState s with
  | [] | [_] => Some (mkScanner EndTop [] true)
  | _ :: ps => Some (mkScanner EndValue ps (endTop s))
  end.

Definition end_value (s : scanner) (c : ascii) : option scanner :=
  match parseState s with
  | [] => if isSpace c then Some (mkScanner EndTop [] true) else None
  | p :: ps =>
      if isSpace c then goto EndValue s else
      match p with
      | parseObjectKey =>
          if Ascii.eqb c ":" then Some (mkScanner BeginValue (parseObjectValue :: ps) (endTop s))
          else None
      | parseObjectValue =>
          if Ascii.eqb c "," then Some (mkScanner BeginString (parseObjectKey :: ps) (endTop s))
          else if Ascii.eqb c "}" then pop s else None
      | parseArrayValue =>
          if Ascii.eqb c "," then goto BeginValue s
          else if Ascii.eqb c "]" then pop s else None
      end
  end.

Definition begin_value (s : scanner) (c : ascii) : option scanner :=
  if isSpace c then Some s else
  if Ascii.eqb c "{" then push BeginStringOrEmpty parseObjectKey s else
  if Ascii.eqb c "[" then push BeginValueOrEmpty parseArrayValue s else
  if Ascii.eqb c "034" then goto InString s else
  if Ascii.eqb c "-" then goto Neg s else
  if Ascii.eqb c "0" then goto Int0 s else
  if Ascii.eqb c "t" then goto (Literal ["r"; "u"; "e"]%char) s else
  if Ascii.eqb c "f" then goto (Literal ["a"; "l"; "s"; "e"]%char) s else
  if Ascii.eqb c "n" then goto (Literal ["u"; "l"; "l"]%char) s else
  if isDigit c then goto Int1 s else None.

Definition begin_string (s : scanner) (c : ascii) : option scanner :=
  if isSpace c then Some s else if Ascii.eqb c "034" then goto InString s else None.

Definition int0 (s : scanner) (c : ascii) : option scanner :=
  if Ascii.eqb c "." then goto Dot s
  else if Ascii.eqb c "e" || Ascii.eqb c "E" then goto E s else end_value s c.

Definition e_sign (s : scanner) (c : ascii) : option scanner :=
  if isDigit c then goto E0 s else None.

Definition step_byte (s : scanner) (c : ascii) : option scanner :=
  match step s with
  | BeginValue => begin_value s c
  | BeginValueOrEmpty =>
      if isSpace c then Some s else if Ascii.eqb c "]" then end_value s c else begin_value s c
  | BeginString => begin_string s c
  | BeginStringOrEmpty =>
      if isSpace c then Some s
      else if Ascii.eqb c "}" then
        end_value (mkScanner (step s) (parseObjectValue :: tail (parseState s)) (endTop s)) c
      else begin_string s c
  | EndValue => end_value s c
  | EndTop => if isSpace c then Some s else None
  | InString =>
      if Ascii.eqb c "034" then goto EndValue s
      else if Ascii.eqb c "\" then goto InStringEsc s
      else if Ascii.ltb c " " then None else Some s
  | InStringEsc =>
      if existsb (Ascii.eqb c) ["b"; "f"; "n"; "r"; "t"; "\"; "/"; "034"]%char then goto InString s
      else if Ascii.eqb c "u" then goto (InStringEscU 4) s else None
  | InStringEscU n =>
      if isHex c then goto (match n with 0 | 1 => InString | S n => InStringEscU n end) s else None
  | Neg => if Ascii.eqb c "0" then goto Int0 s else if isDigit c then goto Int1 s else None
  | Int1 => if isDigit c then Some s else int0 s c
  | Int0 => int0 s c
  | Dot => if isDigit c then goto Dot0 s else None
  | Dot0 =>
      if isDigit c then Some s
      else if Ascii.eqb c "e" || Ascii.eqb c "E" then goto E s else end_value s c
  | E => if Ascii.eqb c "+" || Ascii.eqb c "-" then goto ESign s else e_sign s c
  | ESign => e_sign s c
  | E0 => if isDigit c then Some s else end_value s c
  | Literal [] => None
  | Literal (d :: rest) =>
      if Ascii.eqb c d then goto (match rest with [] => EndValue | _ => Literal rest end) s else None
  end.

Fixpoint scan (s : scanner) (data : string) : option scanner :=
  match data with
  | EmptyString => Some s
  | String c data => match step_byte s c with Some s => scan s data | None => None end
  end.

(** [eof] tries a space where the value could end. *)
Definition eof (s : scanner) : bool :=
  endTop s || match step_byte s " " with Some s => endTop s | None => false end.

Definition Valid (data : string) : bool :=
  match scan reset data with Some s => eof s | None => false end.

(** The value stores write for absent metadata. *)
Lemma Valid_empty_object : Valid "{}" = true.
Proof. reflexivity. Qed.
(** [json.Marshal] of a string, HTML characters escaped; bytes from 0x80 on are
    taken to be valid UTF-8 and kept. *)
Definition escape (c : ascii) : string :=
  let n := N_of_ascii c in
  if Ascii.eqb c "034" || Ascii.eqb c "\" then String "\" (String c "")
  else if Ascii.eqb c "008" then "\b"
  else if Ascii.eqb c "012" then "\f"
  else if Ascii.eqb c "010" then "\n"
  else if Ascii.eqb c "013" then "\r"
  else if Ascii.eqb c "009" then "\t"
  else if (n <? 32)%N || Ascii.eqb c "<" || Ascii.eqb c ">" || Ascii.eqb c "&"
  then "\u00" +:+ hex.EncodeToString (String c "")
  else String c "".

Fixpoint escape_all (s : string) : string :=
  match s with EmptyString => "" | String c s => escape c +:+ escape_all s end.

Definition Quote (s : string) : string :=
  String "034" (escape_all s +:+ String "034" "").

End json.
