(* ===== verification/Menus.v ===== *)
(** * Navigation menus (packages/go/menus: model.go, memory.go, regex.go; the
    admin handlers of apps/api/internal/admin/menus/handler.go)

    The in-memory store, each method one step under its lock, and the HTTP
    handlers as programs of store calls. UUIDs are numbers, the nil UUID is 0;
    [uuid.New] and the clock are arguments. Go visits a map in any order: the
    order is the parameter [visit]. *)
From S2P Require Import Prelude Prog GoStrings Json.
From Stdlib Require Import Ascii.

Abbreviation UUID := N (only parsing).
Definition uuid_Nil : UUID := 0%N.

Record Menu := mkMenu {
  m_ID : UUID; m_Slug : string; m_Name : string; m_Attrs : string;
  m_CreatedAt : Time; m_UpdatedAt : Time }.

Record MenuItem := mkItem {
  i_ID : UUID; i_MenuID : UUID; i_Path : string; i_Label : string; i_URL : string;
  i_ObjectType : string; i_ObjectID : option UUID; i_Attrs : string;
  i_CreatedAt : Time; i_UpdatedAt : Time }.

Record MenuWithItems := mkBundle { b_Menu : Menu; b_Items : list MenuItem }.

Inductive menu_error := ErrInvalidMenu (why : string) | ErrInvalidItem (why : string) | ErrNotFound.

(** ** Validation *)

Definition slug_first (c : ascii) : bool :=
  (Ascii.leb "a" c && Ascii.leb c "z") || (Ascii.leb "0" c && Ascii.leb c "9").
Definition slug_rest (c : ascii) : bool := slug_first c || Ascii.eqb c "_" || Ascii.eqb c "-".

(** [^[a-z0-9][a-z0-9_-]*$] *)
Definition slugRe (s : string) : bool :=
  match s with String c s => slug_first c && all_chars slug_rest s | EmptyString => false end.

Definition digit (c : ascii) : bool := Ascii.leb "0" c && Ascii.leb c "9".

(** [^[0-9]{3}(\.[0-9]{3})*$] *)
Fixpoint pathRe (s : string) : bool :=
  match s with
  | String a (String b (String c rest)) =>
      digit a && digit b && digit c &&
      match rest with
      | EmptyString => true
      | String d rest => Ascii.eqb d "." && pathRe rest
      end
  | _ => false
  end.

Definition len (s : string) : Z := Z.of_nat (String.length s).

Definition validateMenu (m : Menu) : option string :=
  if ((len (m_Slug m) =? 0) || (64 <? len (m_Slug m)))%Z then Some "slug length out of range" else
  if negb (slugRe (m_Slug m)) then Some "slug must match ^[a-z0-9][a-z0-9_-]*$" else
  if ((len (m_Name m) =? 0) || (128 <? len (m_Name m)))%Z then Some "name length out of range" else
  if (0 <? len (m_Attrs m))%Z && negb (json.Valid (m_Attrs m)) then Some "attrs not valid JSON"
  else None.

Definition validateItem (mi : MenuItem) : option string :=
  if ((len (i_Label mi) =? 0) || (256 <? len (i_Label mi)))%Z then Some "label length out of range" else
  if ((len (i_Path mi) =? 0) || (256 <? len (i_Path mi)))%Z then Some "path length out of range" else
  if negb (pathRe (i_Path mi)) then Some "path must match ^[0-9]{3}(\.[0-9]{3})*$" else
  if (2048 <? len (i_URL mi))%Z then Some "url too long" else
  if negb (bool_decide (i_ObjectType mi = "")) &&
     negb (bool_decide (i_ObjectType mi ∈ ["post"; "page"; "term"; "custom"]))
  then Some "object_type must be one of post|page|term|custom" else
  if (0 <? len (i_Attrs mi))%Z && negb (json.Valid (i_Attrs mi)) then Some "attrs not valid JSON"
  else None.

(** ** The in-memory store *)

Record MemoryStore := mkStore {
  menus : gmap UUID Menu;
  items : gmap UUID (gmap UUID MenuItem) }.

Definition NewMemoryStore : MemoryStore := mkStore ∅ ∅.

Definition default_attrs (a : string) : string := if (len a =? 0)%Z then "{}" else a.

Definition name_lt (a b : Menu) : bool := String.ltb (m_Name a) (m_Name b).
Definition path_lt (a b : MenuItem) : bool := String.ltb (i_Path a) (i_Path b).

Section store.
(** The order in which a range loop visits a map. *)
Context (visit : ∀ A, gmap UUID A → list (UUID * A)).

Definition slug_taken (slug : string) (ms : gmap UUID Menu) : bool :=
  existsb (λ kv, bool_decide (m_Slug kv.2 = slug)) (visit _ ms).
Definition path_taken (path : string) (mis : gmap UUID MenuItem) : bool :=
  existsb (λ kv, bool_decide (i_Path kv.2 = path)) (visit _ mis).

Definition CreateMenu (now : Time) (new : UUID) (m : Menu) (s : MemoryStore)
    : MemoryStore * result menu_error Menu :=
  match validateMenu m with
  | Some why => (s, Err (ErrInvalidMenu why))
  | None =>
      if slug_taken (m_Slug m) (menus s) then (s, Err (ErrInvalidMenu "slug already exists"))
      else
        let id := if decide (m_ID m = uuid_Nil) then new else m_ID m in
        let m := mkMenu id (m_Slug m) (m_Name m) (default_attrs (m_Attrs m)) now now in
        (mkStore (<[id := m]> (menus s)) (<[id := ∅]> (items s)), Ok m)
  end.

Definition GetMenu (id : UUID) (s : MemoryStore) : result menu_error Menu :=
  match menus s !! id with Some m => Ok m | None => Err ErrNotFound end.

Definition GetMenuBySlug (slug : string) (s : MemoryStore) : result menu_error Menu :=
  match find (λ kv, bool_decide (m_Slug kv.2 = slug)) (visit _ (menus s)) with
  | Some (_, m) => Ok m
  | None => Err ErrNotFound
  end.

Definition UpdateMenu (now : Time) (m : Menu) (s : MemoryStore)
    : MemoryStore * result menu_error Menu :=
  match menus s !! m_ID m with
  | None => (s, Err ErrNotFound)
  | Some existing =>
      let m := mkMenu (m_ID m) (m_Slug existing) (m_Name m) (m_Attrs m) (m_CreatedAt existing)
        (m_UpdatedAt m) in
      match validateMenu m with
      | Some why => (s, Err (ErrInvalidMenu why))
      | None =>
          let m := mkMenu (m_ID m) (m_Slug m) (m_Name m) (default_attrs (m_Attrs m))
            (m_CreatedAt m) now in
          (mkStore (<[m_ID m := m]> (menus s)) (items s), Ok m)
      end
  end.

Definition DeleteMenu (id : UUID) (s : MemoryStore) : MemoryStore :=
  mkStore (delete id (menus s)) (delete id (items s)).

Definition ListMenus (s : MemoryStore) : list Menu := sort_by name_lt (visit _ (menus s)).*2.

Definition set_items (s : MemoryStore) (menu : UUID) (mis : gmap UUID MenuItem) : MemoryStore :=
  mkStore (menus s) (<[menu := mis]> (items s)).

Definition CreateItem (now : Time) (new : UUID) (mi : MenuItem) (s : MemoryStore)
    : MemoryStore * result menu_error MenuItem :=
  match validateItem mi with
  | Some why => (s, Err (ErrInvalidItem why))
  | None =>
      match items s !! i_MenuID mi with
      | None => (s, Err ErrNotFound)
      | Some mis =>
          if path_taken (i_Path mi) mis then (s, Err (ErrInvalidItem "path already in use"))
          else
            let id := if decide (i_ID mi = uuid_Nil) then new else i_ID mi in
            let mi := mkItem id (i_MenuID mi) (i_Path mi) (i_Label mi) (i_URL mi) (i_ObjectType mi)
              (i_ObjectID mi) (default_attrs (i_Attrs mi)) now now in
            (set_items s (i_MenuID mi) (<[id := mi]> mis), Ok mi)
      end
  end.

Definition UpdateItem (now : Time) (mi : MenuItem) (s : MemoryStore)
    : MemoryStore * result menu_error MenuItem :=
  match items s !! i_MenuID mi with
  | None => (s, Err ErrNotFound)
  | Some mis =>
      match mis !! i_ID mi with
      | None => (s, Err ErrNotFound)
      | Some existing =>
          match validateItem mi with
          | Some why => (s, Err (ErrInvalidItem why))
          | None =>
              let mi := mkItem (i_ID mi) (i_MenuID mi) (i_Path mi) (i_Label mi) (i_URL mi)
                (i_ObjectType mi) (i_ObjectID mi) (default_attrs (i_Attrs mi))
                (i_CreatedAt existing) now in
              (set_items s (i_MenuID mi) (<[i_ID mi := mi]> mis), Ok mi)
          end
      end
  end.

Definition DeleteItem (id : UUID) (s : MemoryStore) : MemoryStore :=
  match find (λ kv, bool_decide (is_Some (kv.2 !! id))) (visit _ (items s)) with
  | Some (menu, mis) => set_items s menu (delete id mis)
  | None => s
  end.

(** The validation loop of [ReorderItems], then its update loop. *)
Fixpoint check_reorder (mis : gmap UUID MenuItem) (l : list MenuItem) : option menu_error :=
  match l with
  | [] => None
  | mi :: l =>
      match mis !! i_ID mi with
      | None => Some ErrNotFound
      | Some _ =>
          match validateItem mi with
          | Some why => Some (ErrInvalidItem why)
          | None => check_reorder mis l
          end
      end
  end.

Definition move (now : Time) (path : string) (e : MenuItem) : MenuItem :=
  mkItem (i_ID e) (i_MenuID e) path (i_Label e) (i_URL e) (i_ObjectType e) (i_ObjectID e)
    (i_Attrs e) (i_CreatedAt e) now.

Definition ReorderItems (now : Time) (menu : UUID) (l : list MenuItem) (s : MemoryStore)
    : MemoryStore * result menu_error unit :=
  match items s !! menu with
  | None => (s, Err ErrNotFound)
  | Some mis =>
      match check_reorder mis l with
      | Some e => (s, Err e)
      | None =>
          (set_items s menu
             (foldl (λ mis mi, alter (move now (i_Path mi)) (i_ID mi) mis) mis l), Ok ())
      end
  end.

(** [GetWithItems] takes the read lock twice: the menu comes from [s], the items
    from the store [s'] at the second time. *)
Definition GetWithItems (id : UUID) (s s' : MemoryStore) : result menu_error MenuWithItems :=
  let? m := GetMenu id s in
  Ok (mkBundle m (sort_by path_lt (visit _ (default ∅ (items s' !! id))).*2)).

Definition GetWithItemsBySlug (slug : string) (s s' s'' : MemoryStore)
    : result menu_error MenuWithItems :=
  let? m := GetMenuBySlug slug s in GetWithItems (m_ID m) s' s''.
End store.

(** ** The admin handlers *)

(** A store call, or one of its halves when it locks twice. *)
Inductive mcmd : Type → Type :=
| MList : mcmd (list Menu)
| MCreate (m : Menu) : mcmd (result menu_error Menu)
| MGet (id : UUID) : mcmd (result menu_error Menu)
| MItems (id : UUID) : mcmd (list MenuItem)
| MUpdate (m : Menu) : mcmd (result menu_error Menu)
| MDelete (id : UUID) : mcmd unit
| MCreateItem (mi : MenuItem) : mcmd (result menu_error MenuItem)
| MUpdateItem (mi : MenuItem) : mcmd (result menu_error MenuItem)
| MDeleteItem (id : UUID) : mcmd unit
| MReorder (id : UUID) (l : list MenuItem) : mcmd (result menu_error unit).

Record menuRequest := mkMenuRequest { rq_Slug : string; rq_Name : string; rq_Attrs : string }.
Record itemRequest := mkItemRequest {
  rq_Path : string; rq_Label : string; rq_URL : string; rq_ObjectType : string;
  rq_ObjectID : option UUID; rq_ItemAttrs : string }.

(** What a handler writes: a status with an error code, or with a payload. *)
Inductive payload :=
| PError (code : string)
| PMenus (l : list Menu)
| PMenu (m : Menu)
| PBundle (b : MenuWithItems)
| PItem (mi : MenuItem)
| PNone.
Definition response : Type := Z * payload.

Definition writeErr (e : menu_error) : response :=
  match e with
  | ErrInvalidMenu _ | ErrInvalidItem _ => (400%Z, PError "invalid_input")
  | ErrNotFound => (404%Z, PError "not_found")
  end.

Definition bad_json : prog mcmd response := Ret (400%Z, PError "invalid_json").
Definition bad_id : prog mcmd response := Ret (400%Z, PError "invalid_id").

Definition reply_with {A} (status : Z) (f : A → payload) (r : result menu_error A) : response :=
  match r with Ok a => (status, f a) | Err e => writeErr e end.

(** Path values and bodies that do not parse are [None]. *)
Definition h_list : prog mcmd response := l <- MList ;; Ret (200%Z, PMenus l).

Definition h_create (req : option menuRequest) : prog mcmd response :=
  match req with
  | None => bad_json
  | Some req =>
      r <- MCreate (mkMenu uuid_Nil (strings.TrimSpace (rq_Slug req)) (strings.TrimSpace (rq_Name req))
             (rq_Attrs req) time_zero time_zero) ;;
      Ret (reply_with 201 PMenu r)
  end.

Definition h_get (id : option UUID) : prog mcmd response :=
  match id with
  | None => bad_id
  | Some id =>
      m <- MGet id ;;
      match m with
      | Err e => Ret (writeErr e)
      | Ok m => l <- MItems id ;; Ret (200%Z, PBundle (mkBundle m l))
      end
  end.

Definition h_update (id : option UUID) (req : option menuRequest) : prog mcmd response :=
  match id, req with
  | None, _ => bad_id
  | _, None => bad_json
  | Some id, Some req =>
      m <- MGet id ;;
      match m with
      | Err e => Ret (writeErr e)
      | Ok existing =>
          r <- MUpdate (mkMenu id (m_Slug existing) (strings.TrimSpace (rq_Name req)) (rq_Attrs req)
                 time_zero time_zero) ;;
          Ret (reply_with 200 PMenu r)
      end
  end.

Definition h_deleteMenu (id : option UUID) : prog mcmd response :=
  match id with
  | None => bad_id
  | Some id => MDelete id ;;; Ret (204%Z, PNone)
  end.

Definition item_of (id menu : UUID) (req : itemRequest) : MenuItem :=
  mkItem id menu (strings.TrimSpace (rq_Path req)) (strings.TrimSpace (rq_Label req))
    (strings.TrimSpace (rq_URL req)) (strings.TrimSpace (rq_ObjectType req)) (rq_ObjectID req)
    (rq_ItemAttrs req) time_zero time_zero.

Definition h_createItem (menu : option UUID) (req : option itemRequest) : prog mcmd response :=
  match menu, req with
  | None, _ => bad_id
  | _, None => bad_json
  | Some menu, Some req =>
      r <- MCreateItem (item_of uuid_Nil menu req) ;; Ret (reply_with 201 PItem r)
  end.

Definition h_updateItem (menu id : option UUID) (req : option itemRequest) : prog mcmd response :=
  match menu, id, req with
  | None, _, _ | _, None, _ => bad_id
  | _, _, None => bad_json
  | Some menu, Some id, Some req =>
      r <- MUpdateItem (item_of id menu req) ;; Ret (reply_with 200 PItem r)
  end.

(** The menu in the path is not looked at. *)
Definition h_deleteItem (id : option UUID) : prog mcmd response :=
  match id with
  | None => bad_id
  | Some id => MDeleteItem id ;;; Ret (204%Z, PNone)
  end.

(** The items to write; [None] when one is not of this menu. *)
Definition reorder_payload (l : list MenuItem) (req : list (UUID * string)) : option (list MenuItem) :=
  mapM (λ x : UUID * string,
    (λ mi, mkItem (i_ID mi) (i_MenuID mi) (strings.TrimSpace x.2) (i_Label mi) (i_URL mi)
       (i_ObjectType mi) (i_ObjectID mi) (i_Attrs mi) (i_CreatedAt mi) (i_UpdatedAt mi)) <$>
    find (λ mi, bool_decide (i_ID mi = x.1)) (rev l)) req.

Definition h_reorder (menu : option UUID) (req : option (list (UUID * string))) : prog mcmd response :=
  match menu, req with
  | None, _ => bad_id
  | _, None => bad_json
  | Some menu, Some req =>
      m <- MGet menu ;;
      match m with
      | Err e => Ret (writeErr e)
      | Ok _ =>
          l <- MItems menu ;;
          match reorder_payload l req with
          | None => Ret (400%Z, PError "unknown_item")
          | Some out =>
              r <- MReorder menu out ;;
              Ret (reply_with 204 (λ _ : unit, PNone) r)
          end
      end
  end.

Section exec.
Context (visit : ∀ A, gmap UUID A → list (UUID * A)).

(** A store call at [now]; [new] is what [uuid.New] gives. *)
Definition mexec (X : Type) (now : Time) (new : UUID) (s : MemoryStore) (c : mcmd X) : MemoryStore * X :=
  match c in mcmd X return MemoryStore * X with
  | MList => (s, ListMenus visit s)
  | MCreate m => CreateMenu visit now new m s
  | MGet id => (s, GetMenu id s)
  | MItems id => (s, sort_by path_lt (visit _ (default ∅ (items s !! id))).*2)
  | MUpdate m => UpdateMenu now m s
  | MDelete id => (DeleteMenu id s, ())
  | MCreateItem mi => CreateItem visit now new mi s
  | MUpdateItem mi => UpdateItem now mi s
  | MDeleteItem id => (DeleteItem visit id s, ())
  | MReorder id l => ReorderItems now id l s
  end.

(** Everything that happens to a store, in order. *)
Fixpoint mrun (s : MemoryStore) (h : list (Time * UUID * {X & mcmd X})) : MemoryStore :=
  match h with
  | [] => s
  | (now, new, existT _ c) :: h => mrun (mexec _ now new s c).1 h
  end.
End exec.
