(* ===== verification/MenusProps.v ===== *)
(** * What the menu store keeps, and what reordering and rendering do

    The invariant of the store under any history of calls, the effect of
    [ReorderItems], and the order in which the renderer gets the items. *)
From S2P Require Import Prelude Prog GoStrings Json Menus.
From Stdlib Require Import Ascii.

(** ** Validation *)

Lemma default_attrs_valid a :
  (0 <? len a)%Z && negb (json.Valid a) = false →
  json.Valid (default_attrs a) = true ∧
  (0 <? len (default_attrs a))%Z && negb (json.Valid (default_attrs a)) = false.
Proof.
  unfold default_attrs. destruct (len a =? 0)%Z eqn:E; [done|]. intros Ha. split; [|done].
  assert ((0 <? len a)%Z = true) as Hlen by (apply Z.eqb_neq in E; apply Z.ltb_lt; unfold len in *; lia).
  rewrite Hlen in Ha.
  by destruct (json.Valid a).
Qed.

Lemma validateMenu_stored m id c u :
  validateMenu m = None →
  validateMenu (mkMenu id (m_Slug m) (m_Name m) (default_attrs (m_Attrs m)) c u) = None ∧
  json.Valid (default_attrs (m_Attrs m)) = true.
Proof.
  unfold validateMenu. simpl. repeat (case_match; [done|]).
  destruct (default_attrs_valid (m_Attrs m)) as [Hv ->]; [done|]. done.
Qed.

Lemma validateItem_stored mi id menu c u :
  validateItem mi = None →
  validateItem (mkItem id menu (i_Path mi) (i_Label mi) (i_URL mi) (i_ObjectType mi) (i_ObjectID mi)
    (default_attrs (i_Attrs mi)) c u) = None ∧
  json.Valid (default_attrs (i_Attrs mi)) = true.
Proof.
  unfold validateItem. simpl. repeat (case_match; [done|]).
  destruct (default_attrs_valid (i_Attrs mi)) as [Hv ->]; [done|]. done.
Qed.

(** The path of one valid item suits another. *)
Lemma validateItem_move now mi e :
  validateItem mi = None → validateItem e = None → validateItem (move now (i_Path mi) e) = None.
Proof.
  unfold validateItem. simpl. intros Hmi. repeat (case_match; [done|]). intros _. repeat case_match; done.
Qed.

(** ** The invariant *)

Record store_ok (s : MemoryStore) : Prop := {
  so_menu id m : menus s !! id = Some m →
    m_ID m = id ∧ validateMenu m = None ∧ json.Valid (m_Attrs m) = true;
  so_slug id id' m m' : menus s !! id = Some m → menus s !! id' = Some m' →
    m_Slug m = m_Slug m' → id = id';
  so_dom id : is_Some (menus s !! id) ↔ is_Some (items s !! id);
  so_item menu mis id mi : items s !! menu = Some mis → mis !! id = Some mi →
    i_ID mi = id ∧ i_MenuID mi = menu ∧ validateItem mi = None ∧ json.Valid (i_Attrs mi) = true;
}.

Section props.
Context (visit : ∀ A, gmap UUID A → list (UUID * A)).
Context (visit_perm : ∀ A (m : gmap UUID A), visit A m ≡ₚ map_to_list m).

Lemma elem_of_visit A (m : gmap UUID A) kv : kv ∈ visit A m ↔ m !! kv.1 = Some kv.2.
Proof using visit_perm. rewrite visit_perm. destruct kv. apply elem_of_map_to_list. Qed.

Lemma slug_taken_false slug ms :
  slug_taken visit slug ms = false → ∀ id m, ms !! id = Some m → m_Slug m ≠ slug.
Proof using visit_perm.
  unfold slug_taken. intros Hn id m Hm Heq.
  assert (existsb (λ kv : UUID * Menu, bool_decide (m_Slug kv.2 = slug)) (visit _ ms) = true) as Ht.
  { apply existsb_exists. exists (id, m). rewrite <-list_elem_of_In, elem_of_visit. simpl.
    by rewrite bool_decide_true. }
  congruence.
Qed.

(** Replacing the items of a menu that is there. *)
Lemma store_ok_items s menu mis mis' :
  store_ok s → items s !! menu = Some mis →
  (∀ id mi, mis' !! id = Some mi →
     i_ID mi = id ∧ i_MenuID mi = menu ∧ validateItem mi = None ∧ json.Valid (i_Attrs mi) = true) →
  store_ok (set_items s menu mis').
Proof using.
  intros [Hm Hs Hd Hi] Hmis Hnew. split; simpl; [done|done| |].
  - intros id. rewrite Hd. destruct (decide (menu = id)) as [->|]; [|by rewrite lookup_insert_ne].
    rewrite lookup_insert_eq, Hmis. split; eauto.
  - intros menu' mis2 id mi [[<- <-]|[_ Hl]]%lookup_insert_Some; eauto.
Qed.

Lemma store_ok_CreateMenu now new m s : store_ok s → store_ok (CreateMenu visit now new m s).1.
Proof using visit_perm.
  intros [Hm Hs Hd Hi]. unfold CreateMenu. destruct (validateMenu m) eqn:Hv; [done|].
  destruct (slug_taken _ _ _) eqn:Hfree; [done|]. simpl.
  pose proof (slug_taken_false _ _ Hfree) as Hslug.
  destruct (validateMenu_stored m (if decide (m_ID m = uuid_Nil) then new else m_ID m) now now Hv) as [? ?].
  set (id := if decide _ then new else m_ID m) in *. split; simpl.
  - intros id' m' [[<- <-]|[_ Hl]]%lookup_insert_Some; [done|eauto].
  - intros i1 i2 m1 m2 [[<- <-]|[? Hl1]]%lookup_insert_Some [[<- <-]|[? Hl2]]%lookup_insert_Some;
      simpl; try done; intros Heq; [by destruct (Hslug _ _ Hl2)|by destruct (Hslug _ _ Hl1)|eauto].
  - intros id'. destruct (decide (id = id')) as [<-|].
    + rewrite !lookup_insert_eq. split; eauto.
    + rewrite !lookup_insert_ne by done. apply Hd.
  - intros menu mis i mi [[<- <-]|[_ Hl]]%lookup_insert_Some; [|eauto].
    intros Hx. by rewrite lookup_empty in Hx.
Qed.

Lemma store_ok_UpdateMenu now m s : store_ok s → store_ok (UpdateMenu now m s).1.
Proof using.
  intros [Hm Hs Hd Hi]. unfold UpdateMenu. destruct (menus s !! m_ID m) as [e|] eqn:He; [|done].
  match goal with |- context [validateMenu ?x] => destruct (validateMenu x) eqn:Hv end; [done|].
  destruct (validateMenu_stored _ (m_ID m) (m_CreatedAt e) now Hv) as [? ?]. simpl in *. split; simpl.
  - intros id' m' [[<- <-]|[_ Hl]]%lookup_insert_Some; [done|eauto].
  - intros i1 i2 m1 m2 [[<- <-]|[? Hl1]]%lookup_insert_Some [[<- <-]|[? Hl2]]%lookup_insert_Some;
      simpl; intros Heq; eauto.
  - intros id'. rewrite <-Hd. destruct (decide (m_ID m = id')) as [<-|].
    + rewrite lookup_insert_eq, He. split; eauto.
    + by rewrite lookup_insert_ne.
  - done.
Qed.

Lemma store_ok_DeleteMenu id s : store_ok s → store_ok (DeleteMenu id s).
Proof using.
  intros [Hm Hs Hd Hi]. split; simpl.
  - intros i m [_ ?]%lookup_delete_Some. eauto.
  - intros i1 i2 m1 m2 [_ ?]%lookup_delete_Some [_ ?]%lookup_delete_Some. eauto.
  - intros i. destruct (decide (id = i)) as [<-|].
    + rewrite !lookup_delete_eq. split; intros [? ?]; done.
    + rewrite !lookup_delete_ne by done. apply Hd.
  - intros menu mis i mi [_ ?]%lookup_delete_Some. eauto.
Qed.

Lemma store_ok_CreateItem now new mi s : store_ok s → store_ok (CreateItem visit now new mi s).1.
Proof using.
  intros Hok. unfold CreateItem. destruct (validateItem mi) eqn:Hv; [done|].
  destruct (items s !! i_MenuID mi) as [mis|] eqn:Hmis; [|done]. destruct (path_taken _ _ _); [done|].
  apply (store_ok_items s _ mis); [done|done|].
  intros id x [[<- <-]|[_ Hl]]%lookup_insert_Some; [|exact (so_item _ Hok _ _ _ _ Hmis Hl)]. simpl.
  split_and!; [done|done|by apply validateItem_stored|
    exact (proj2 (validateItem_stored mi uuid_Nil uuid_Nil time_zero time_zero Hv))].
Qed.

Lemma store_ok_UpdateItem now mi s : store_ok s → store_ok (UpdateItem now mi s).1.
Proof using.
  intros Hok. unfold UpdateItem. destruct (items s !! i_MenuID mi) as [mis|] eqn:Hmis; [|done].
  destruct (mis !! i_ID mi) as [e|]; [|done]. destruct (validateItem mi) eqn:Hv; [done|].
  apply (store_ok_items s _ mis); [done|done|].
  intros id x [[<- <-]|[_ Hl]]%lookup_insert_Some; [|exact (so_item _ Hok _ _ _ _ Hmis Hl)]. simpl.
  split_and!; [done|done|by apply validateItem_stored|
    exact (proj2 (validateItem_stored mi uuid_Nil uuid_Nil time_zero time_zero Hv))].
Qed.

Lemma store_ok_DeleteItem id s : store_ok s → store_ok (DeleteItem visit id s).
Proof using visit_perm.
  intros Hok. unfold DeleteItem. destruct (find _ _) as [[menu mis]|] eqn:Hf; [|done].
  apply find_some in Hf as [Hin _]. rewrite <-list_elem_of_In, elem_of_visit in Hin. simpl in Hin.
  apply (store_ok_items s _ mis); [done|done|]. intros i mi [_ Hl]%lookup_delete_Some.
  exact (so_item _ Hok _ _ _ _ Hin Hl).
Qed.

(** ** Reordering *)

Definition moves (now : Time) (l : list MenuItem) (mis : gmap UUID MenuItem) : gmap UUID MenuItem :=
  foldl (λ mis mi, alter (move now (i_Path mi)) (i_ID mi) mis) mis l.

(** The path the request gives an item: the last one that names it. *)
Definition target (l : list MenuItem) (id : UUID) : option string :=
  i_Path <$> find (λ mi, bool_decide (i_ID mi = id)) (rev l).

Lemma move_move now p q e : move now p (move now q e) = move now p e.
Proof using. done. Qed.

Lemma target_app l mi id :
  target (l ++ [mi]) id = if decide (i_ID mi = id) then Some (i_Path mi) else target l id.
Proof using.
  unfold target. rewrite rev_unit. simpl. by case_bool_decide; case_decide.
Qed.

Lemma moves_lookup now l mis id :
  moves now l mis !! id =
    match target l id with
    | Some path => move now path <$> mis !! id
    | None => mis !! id
    end.
Proof using.
  unfold moves. induction l as [|mi l IH] using rev_ind; [done|].
  rewrite foldl_app, target_app. simpl. destruct (decide (i_ID mi = id)) as [<-|Hne].
  - rewrite lookup_alter_eq, IH. destruct (target l (i_ID mi)); [|done]. by destruct (mis !! i_ID mi).
  - by rewrite lookup_alter_ne.
Qed.

Lemma check_reorder_ok mis l :
  check_reorder mis l = None ↔ Forall (λ mi, is_Some (mis !! i_ID mi) ∧ validateItem mi = None) l.
Proof using.
  induction l as [|mi l IH]; simpl; [by split|].
  rewrite Forall_cons, <-IH. destruct (mis !! i_ID mi) as [e|].
  - destruct (validateItem mi); naive_solver.
  - split; [done|]. intros [[[? ?] _] _]. done.
Qed.

Lemma target_Some l id path :
  target l id = Some path → ∃ mi, mi ∈ l ∧ i_ID mi = id ∧ i_Path mi = path.
Proof using.
  unfold target. intros (mi & Hf & ->)%fmap_Some. apply find_some in Hf as [Hin Hid].
  exists mi. rewrite <-in_rev, <-list_elem_of_In in Hin. by apply bool_decide_eq_true in Hid.
Qed.

Lemma store_ok_ReorderItems now menu l s : store_ok s → store_ok (ReorderItems now menu l s).1.
Proof using.
  intros Hok. unfold ReorderItems. destruct (items s !! menu) as [mis|] eqn:Hmis; [|done].
  destruct (check_reorder mis l) eqn:Hc; [done|]. apply check_reorder_ok in Hc.
  apply (store_ok_items s _ mis); [done|done|]. intros id x. change (foldl _ mis l) with (moves now l mis).
  rewrite moves_lookup. destruct (target l id) as [path|] eqn:Ht; [|exact (so_item _ Hok _ _ _ _ Hmis)].
  intros (e & He & ->)%fmap_Some. apply target_Some in Ht as (mi & Hin & _ & <-).
  rewrite Forall_forall in Hc. destruct (Hc mi Hin) as [_ Hv].
  destruct (so_item _ Hok _ _ _ _ Hmis He) as (? & ? & ? & ?).
  split_and!; try done. by apply validateItem_move.
Qed.

Lemma store_ok_exec X now new s (c : mcmd X) : store_ok s → store_ok (mexec visit X now new s c).1.
Proof using visit_perm.
  destruct c; simpl; auto using store_ok_CreateMenu, store_ok_UpdateMenu, store_ok_DeleteMenu,
    store_ok_CreateItem, store_ok_UpdateItem, store_ok_DeleteItem, store_ok_ReorderItems.
Qed.

Lemma store_ok_new : store_ok NewMemoryStore.
Proof using. split; simpl; try done; intros; rewrite ?lookup_empty in *; try done. Qed.

Lemma store_ok_run h s : store_ok s → store_ok (mrun visit s h).
Proof using visit_perm.
  revert s. induction h as [|[[now new] [X c]] h IH]; intros s Hok; simpl; [done|].
  by apply IH, store_ok_exec.
Qed.

(** The store is well typed after any history of calls, with any clock and
    any UUIDs: each menu and item is stored under its own ID and passes its
    validation with JSON metadata, no two menus share a slug, the menus that
    have an item table are the menus that exist, and each item names the menu
    that holds it. *)
Theorem menus_invariant h : store_ok (mrun visit NewMemoryStore h).
Proof using visit_perm.
  apply store_ok_run, store_ok_new.
Qed.

(** ** Rendering order *)

Lemma path_lt_asym a b : path_lt a b = true → path_lt b a = false.
Proof using. apply string_ltb_asym. Qed.
Lemma path_lt_cotrans a b c : path_lt a c = true → path_lt a b = true ∨ path_lt b c = true.
Proof using. apply string_ltb_cotrans. Qed.

Lemma sorted_before (l : list MenuItem) i j p q :
  StronglySorted (not_after path_lt) l → l !! i = Some p → l !! j = Some q →
  path_lt p q = true → i < j.
Proof using.
  intros Hs. revert i j. induction Hs as [|x l Hs IH Hx]; [done|].
  assert (path_lt p q = true → p = q → False) as Hirr.
  { intros Hlt ->. pose proof (path_lt_asym q q Hlt). congruence. }
  intros [|i] [|j]; simpl; intros Hp Hq Hlt; simplify_eq; [naive_solver|lia| |].
  - rewrite Forall_forall in Hx. apply list_elem_of_lookup_2 in Hp.
    specialize (Hx _ Hp). unfold not_after in Hx. congruence.
  - specialize (IH _ _ Hp Hq Hlt). lia.
Qed.

(** The renderer gets every item of the menu once, in path order, and so
    with every item before the items below it. *)
Theorem GetWithItems_parents_first id s s' b :
  GetWithItems visit id s s' = Ok b →
  b_Items b ≡ₚ (map_to_list (default ∅ (items s' !! id))).*2 ∧
  StronglySorted (not_after path_lt) (b_Items b) ∧
  ∀ i j p q below, b_Items b !! i = Some p → b_Items b !! j = Some q →
    i_Path q = i_Path p +:+ "." +:+ below → i < j.
Proof using visit_perm.
  unfold GetWithItems, GetMenu. destruct (menus s !! id); [|done]. intros [= <-]. simpl.
  assert (StronglySorted (not_after path_lt)
    (sort_by path_lt (visit _ (default ∅ (items s' !! id))).*2)) as Hs
    by (apply sort_by_sorted; [apply path_lt_asym|apply path_lt_cotrans]).
  split_and!; [by rewrite sort_by_Permutation, visit_perm|done|].
  intros i j p q below Hp Hq Hpath. apply (sorted_before _ _ _ p q Hs Hp Hq).
  unfold path_lt. rewrite Hpath. apply string_ltb_app.
Qed.

(** ** The reorder handler *)

(** A handler that runs with no other call in between. *)
Definition serve (now : Time) (s : MemoryStore) (p : prog mcmd response) : MemoryStore * response :=
  run_alone (λ X _ s c, mexec visit X now uuid_Nil s c) 0 s p.

(** The path a request gives an item. *)
Definition requested (req : list (UUID * string)) (id : UUID) : option string :=
  (λ x : UUID * string, strings.TrimSpace x.2) <$> find (λ x, bool_decide (x.1 = id)) (rev req).

Lemma requested_app req x id :
  requested (req ++ [x]) id = if decide (x.1 = id) then Some (strings.TrimSpace x.2) else requested req id.
Proof using. unfold requested. rewrite rev_unit. simpl. by case_bool_decide; case_decide. Qed.

Lemma payload_target l req out id : reorder_payload l req = Some out → target out id = requested req id.
Proof using.
  unfold reorder_payload. revert out. induction req as [|x req IH] using rev_ind; intros out Hout.
  { by injection Hout as <-. }
  apply mapM_Some in Hout. apply Forall2_app_inv_l in Hout as (out1 & out2 & H1 & H2 & ->).
  apply Forall2_cons_inv_l in H2 as (mi & ? & Hmi & Hnil & ->). apply Forall2_nil_inv_l in Hnil as ->.
  apply mapM_Some in H1. rewrite target_app, requested_app, (IH out1 H1).
  apply fmap_Some in Hmi as (e & He & ->). simpl.
  apply find_some in He as [_ He]. apply bool_decide_eq_true in He. by rewrite He.
Qed.

Lemma payload_known l req out x :
  reorder_payload l req = Some out → x ∈ req → ∃ mi, mi ∈ l ∧ i_ID mi = x.1.
Proof using.
  unfold reorder_payload. intros Hout%mapM_Some Hin.
  apply list_elem_of_lookup in Hin as [k Hk].
  destruct (Forall2_lookup_l _ _ _ _ _ Hout Hk) as (y & _ & Hy).
  apply fmap_Some in Hy as (e & He & _). apply find_some in He as [Hin He].
  exists e. rewrite <-in_rev, <-list_elem_of_In in Hin. by apply bool_decide_eq_true in He.
Qed.

(** C40. Drag and drop is all or nothing: a reorder request that is served alone
    either answers 204, every item it names is in the menu and has the last
    (trimmed) path the request gives it, with everything else in the store as
    before, or answers an error and the store is as before. *)
Theorem reorder_atomic now menu req s :
  store_ok s →
  let r := serve now s (h_reorder (Some menu) (Some req)) in
  if decide (r.2.1 = 204%Z) then
    menus r.1 = menus s ∧
    ∃ mis mis', items s !! menu = Some mis ∧ items r.1 = <[menu := mis']> (items s) ∧
      (∀ x, x ∈ req → is_Some (mis !! x.1)) ∧
      ∀ id, mis' !! id = match requested req id with
                         | Some path => move now path <$> mis !! id
                         | None => mis !! id end
  else r.1 = s.
Proof using visit_perm.
  intros Hok. unfold serve, h_reorder. cbn [run_alone mexec fst snd]. unfold GetMenu.
  destruct (menus s !! menu) as [m|]; cbn [run_alone mexec fst snd]; [|done].
  destruct (reorder_payload _ req) as [out|] eqn:Hout; cbn [run_alone mexec fst snd]; [|done].
  unfold ReorderItems. destruct (items s !! menu) as [mis|] eqn:Hmis; [|done].
  destruct (check_reorder mis out) as [e|] eqn:Hc; [by destruct e|]. simpl.
  split; [done|]. exists mis, (moves now out mis). split_and!; [done|done| |].
  - intros x Hx. destruct (payload_known _ _ _ _ Hout Hx) as (mi & Hin & <-).
    rewrite sort_by_Permutation in Hin. simpl in Hin.
    apply list_elem_of_fmap in Hin as (kv & -> & Hin).
    rewrite elem_of_visit in Hin.
    destruct (so_item _ Hok _ _ _ _ Hmis Hin) as [-> _]. eauto.
  - intros id. by rewrite moves_lookup, (payload_target _ _ _ id Hout).
Qed.
End props.

(** ** Concrete stores *)

Definition in_order A (m : gmap UUID A) : list (UUID * A) := map_to_list m.
Lemma in_order_perm A (m : gmap UUID A) : in_order A m ≡ₚ map_to_list m.
Proof. done. Qed.

Definition new_menu (slug : string) : Menu := mkMenu uuid_Nil slug "Main" "" time_zero time_zero.
Definition new_item (menu : UUID) (path label : string) : MenuItem :=
  mkItem uuid_Nil menu path label "/" "" None "" time_zero time_zero.
Definition demo_history : list (Time * UUID * {X & mcmd X}) :=
  [(1%Z, 10%N, existT _ (MCreate (new_menu "main")));
   (2%Z, 21%N, existT _ (MCreateItem (new_item 10 "002" "About")));
   (3%Z, 22%N, existT _ (MCreateItem (new_item 10 "001" "Home")));
   (4%Z, 23%N, existT _ (MCreateItem (new_item 10 "002.001" "Team")))].
Definition demo_store : MemoryStore := mrun in_order NewMemoryStore demo_history.
Definition demo_labels (r : result menu_error MenuWithItems) : list (string * string) :=
  match r with Ok b => (λ mi, (i_Path mi, i_Label mi)) <$> b_Items b | Err _ => [] end.

Lemma menus_invariant_witness : size (menus demo_store) = 1 ∧ store_ok demo_store.
Proof.
  split; [vm_compute; reflexivity|]. apply (menus_invariant in_order in_order_perm demo_history).
Defined.

Lemma GetWithItems_parents_first_witness :
  ∃ b, GetWithItems in_order 10 demo_store demo_store = Ok b ∧
    demo_labels (Ok b) = [("001", "Home"); ("002", "About"); ("002.001", "Team")] ∧
    StronglySorted (not_after path_lt) (b_Items b).
Proof.
  destruct (GetWithItems in_order 10 demo_store demo_store) as [b|e] eqn:E; [|vm_compute in E; discriminate E].
  exists b. split; [reflexivity|]. split.
  - rewrite <-E. vm_compute. reflexivity.
  - exact (proj1 (proj2 (GetWithItems_parents_first in_order in_order_perm 10 demo_store demo_store b E))).
Defined.

Lemma reorder_atomic_witness :
  let r := serve in_order 9 demo_store
    (h_reorder (Some 10%N) (Some [(21%N, " 001 "); (22%N, "002")])) in
  r.2.1 = 204%Z ∧ menus r.1 = menus demo_store ∧
  demo_labels (GetWithItems in_order 10 r.1 r.1) = [("001", "About"); ("002", "Home"); ("002.001", "Team")].
Proof.
  cbv zeta. split; [vm_compute; reflexivity|]. split; [|vm_compute; reflexivity].
  pose proof (reorder_atomic in_order in_order_perm 9 10 [(21%N, " 001 "); (22%N, "002")] demo_store
    (store_ok_run in_order in_order_perm demo_history _ store_ok_new)) as Hr.
  cbv zeta in Hr. rewrite decide_True in Hr by (vm_compute; reflexivity). exact (proj1 Hr).
Defined.

(** ** Where the store is weaker than the table *)

(** [menu_items] has UNIQUE (menu_id, path); [UpdateItem] and [ReorderItems] of
    the memory store accept a path that another item has. *)
Theorem UpdateItem_takes_used_path :
  let r := UpdateItem 9 (mkItem 21 10 "001" "About" "/" "" None "" time_zero time_zero) demo_store in
  is_ok r.2 = true ∧
  demo_labels (GetWithItems in_order 10 r.1 r.1) = [("001", "Home"); ("001", "About"); ("002.001", "Team")].
Proof. vm_compute. split; reflexivity. Qed.

Theorem ReorderItems_takes_used_path :
  let r := serve in_order 9 demo_store (h_reorder (Some 10%N) (Some [(21%N, "001")])) in
  r.2 = (204%Z, PNone) ∧
  demo_labels (GetWithItems in_order 10 r.1 r.1) = [("001", "Home"); ("001", "About"); ("002.001", "Team")].
Proof. vm_compute. split; reflexivity. Qed.

(** [CreateMenu] keeps an ID the caller supplies: a menu that has it is replaced
    and its items are gone. *)
Theorem CreateMenu_replaces :
  let m := mkMenu 10 "other" "Other" "" time_zero time_zero in
  let r := CreateMenu in_order 9 11 m demo_store in
  is_ok r.2 = true ∧ is_ok (GetMenuBySlug in_order "main" r.1) = false ∧
  demo_labels (GetWithItems in_order 10 r.1 r.1) = [].
Proof. vm_compute. repeat split. Qed.
