(* ===== verification/Revisions.v ===== *)
(** * Post revisions (packages/go/revisions: revision.go, store.go, delta.go,
    memory.go; the classifier of postgres.go; pruner.go)

    A revision is stored whole (a snapshot) or as a JSON patch of the revision
    before it. The in-memory store, one step per method under its lock, and the
    retention sweeps. UUIDs are numbers with 0 for the nil UUID (their string
    order is the order of the numbers). jsondiff and json-patch are parameters. *)
From S2P Require Import Prelude GoStrings Json.

Abbreviation ID := N (only parsing).
Definition Nil : ID := 0%N.

Inductive RevisionKind := Autosave | Manual | Publish | UnknownKind.
#[export] Instance RevisionKind_eq_dec : EqDecision RevisionKind.
Proof. solve_decision. Defined.
Definition Valid (k : RevisionKind) : bool := match k with UnknownKind => false | _ => true end.

Record Revision := mkRevision {
  r_ID : ID;
  r_PostID : ID;
  r_AuthorID : ID;
  r_Kind : RevisionKind;
  r_CreatedAt : Time;
  r_Title : string;
  r_Excerpt : string;
  r_ContentBlocks : string;
  r_Hash : string;
  r_DeltaFrom : ID;
  r_Delta : string;
  r_Snapshot : string;
  r_Comment : string;
  r_IsPermanent : bool;
}.

(** The fields that [Save] fills in. *)
Definition persisted (r : Revision) (id : ID) (at_ : Time) (blocks : string) (from : ID)
    (delta snapshot : string) : Revision :=
  mkRevision id (r_PostID r) (r_AuthorID r) (r_Kind r) at_ (r_Title r) (r_Excerpt r) blocks (r_Hash r)
    from delta snapshot (r_Comment r) (r_IsPermanent r).

Definition isSnapshot (r : Revision) : bool := negb (bool_decide (r_Snapshot r = "")).
Definition isDelta (r : Revision) : bool := negb (bool_decide (r_Delta r = "")).

Inductive revision_error :=
| ErrInvalidRevision (why : string) | ErrNotFound | ErrCorruptChain | ErrInvalidDelta (why : string).

Definition maxChainDepth : nat := Z.to_nat 1024.
Definition defaultSnapshotEveryN : Z := 20.
Definition defaultMaxSnapshotAgeSec : Z := (24 * 60 * 60)%Z.
Definition memoryDefaultLimit : Z := 100.

Record SaveOptions := mkSaveOptions {
  SnapshotEveryN : Z; MaxSnapshotAge : Z; ForceSnapshot : bool }.

Definition snapshotEveryN (o : SaveOptions) : Z :=
  if (SnapshotEveryN o <=? 0)%Z then defaultSnapshotEveryN else SnapshotEveryN o.
Definition maxSnapshotAgeSec (o : SaveOptions) : Z :=
  if (MaxSnapshotAge o =? 0)%Z then defaultMaxSnapshotAgeSec else MaxSnapshotAge o.

Definition validateForSave (r : Revision) : option revision_error :=
  if decide (r_PostID r = Nil) then Some (ErrInvalidRevision "PostID is required") else
  if negb (Valid (r_Kind r)) then Some (ErrInvalidRevision "unknown Kind") else
  if decide (r_ContentBlocks r = "") then Some (ErrInvalidRevision "ContentBlocks is required") else
  if negb (json.Valid (r_ContentBlocks r))
  then Some (ErrInvalidRevision "ContentBlocks is not valid JSON") else None.

Record RetentionPolicy := mkRetention {
  MaxAutosavesPerAuthor : Z; MaxManual : Z; MaxPublish : Z;
  MaxAgeAutosave : Duration; MinKeepAll : Duration }.

(** [RetentionPolicy.normalize] clamps negative fields. *)
Definition normalize (p : RetentionPolicy) : RetentionPolicy :=
  let pos z := if (z <? 0)%Z then 0%Z else z in
  mkRetention (pos (MaxAutosavesPerAuthor p)) (pos (MaxManual p)) (pos (MaxPublish p))
    (pos (MaxAgeAutosave p)) (pos (MinKeepAll p)).

Record MemoryStore := mkStore {
  revisions : gmap ID Revision;
  byPost : gmap ID (list ID) }.

Definition NewMemoryStore : MemoryStore := mkStore ∅ ∅.
Definition post_ids (s : MemoryStore) (post : ID) : list ID := default [] (byPost s !! post).

Section deltas.
(** jsondiff: an encoded patch, [Some None] for no difference; json-patch:
    decode and apply. *)
Context (CompareJSON : string → string → option (option string)).
Context (patch_Apply : string → string → option string).

Definition ComputeDelta (a b : string) : result revision_error string :=
  if negb (json.Valid a) then Err (ErrInvalidDelta "a is not valid JSON") else
  if negb (json.Valid b) then Err (ErrInvalidDelta "b is not valid JSON") else
  match CompareJSON a b with
  | None => Err (ErrInvalidDelta "jsondiff")
  | Some None => Ok "[]"
  | Some (Some encoded) => Ok encoded
  end.

Definition ApplyDelta (base delta : string) : result revision_error string :=
  if negb (json.Valid base) then Err (ErrInvalidDelta "base is not valid JSON") else
  if decide (delta = "") then Ok base else
  match patch_Apply base delta with
  | Some applied => Ok applied
  | None => Err (ErrInvalidDelta "patch")
  end.

(** [materializeLocked] at a depth [fuel] below [maxChainDepth]. *)
Fixpoint materialize (rs : gmap ID Revision) (fuel : nat) (id : ID) : result revision_error string :=
  match fuel with
  | 0 => Err ErrCorruptChain
  | S fuel =>
      match rs !! id with
      | None => Err ErrCorruptChain
      | Some r =>
          if isSnapshot r then Ok (r_Snapshot r)
          else if decide (r_DeltaFrom r = Nil) then Err ErrCorruptChain
          else let? parent := materialize rs fuel (r_DeltaFrom r) in ApplyDelta parent (r_Delta r)
      end
  end.

Definition Materialize (id : ID) (s : MemoryStore) : result revision_error string :=
  materialize (revisions s) maxChainDepth id.

(** The index of the last snapshot of the list. *)
Fixpoint last_snapshot (rs : gmap ID Revision) (ids : list ID) : option nat :=
  match ids with
  | [] => None
  | id :: ids =>
      match last_snapshot rs ids with
      | Some i => Some (S i)
      | None => if match rs !! id with Some r => isSnapshot r | None => false end then Some 0 else None
      end
  end.

(** [persistedFromInput]; [at_] is the revision's time. *)
Definition persistedFromInput (s : MemoryStore) (r : Revision) (id : ID) (at_ : Time)
    (prior : list ID) (o : SaveOptions) : result revision_error Revision :=
  let snapshot := persisted r id at_ "" Nil "" (r_ContentBlocks r) in
  let snapshot_keep := persisted r id at_ "" (r_DeltaFrom r) (r_Delta r) (r_ContentBlocks r) in
  if ForceSnapshot o then Ok snapshot else
  match last prior with
  | None => Ok snapshot
  | Some parentID =>
      match last_snapshot (revisions s) prior with
      | None => Ok snapshot_keep
      | Some idx =>
          let since := Z.of_nat (length prior - idx) in
          if (snapshotEveryN o <=? since)%Z then Ok snapshot_keep else
          let maxAge := maxSnapshotAgeSec o in
          let snap_at := match prior !! idx ≫= λ i, revisions s !! i with
            | Some x => r_CreatedAt x | None => time_zero end in
          if (0 <? maxAge)%Z && (wrap64 (maxAge * second) <=? at_ - snap_at)%Z then Ok snapshot_keep else
          match Materialize parentID s with
          | Err _ => Ok snapshot
          | Ok parent =>
              let? delta := ComputeDelta parent (r_ContentBlocks r) in
              Ok (persisted r id at_ "" parentID delta "")
          end
      end
  end.

Definition Save (now : Time) (new : ID) (o : SaveOptions) (r : Revision) (s : MemoryStore)
    : MemoryStore * result revision_error ID :=
  match validateForSave r with
  | Some e => (s, Err e)
  | None =>
      let id := if decide (r_ID r = Nil) then new else r_ID r in
      let at_ := if is_zero (r_CreatedAt r) then now else r_CreatedAt r in
      let prior := post_ids s (r_PostID r) in
      match persistedFromInput s r id at_ prior o with
      | Err e => (s, Err e)
      | Ok p => (mkStore (<[id := p]> (revisions s)) (<[r_PostID r := prior ++ [id]]> (byPost s)), Ok id)
      end
  end.
End deltas.

Definition Get (id : ID) (s : MemoryStore) : result revision_error Revision :=
  match revisions s !! id with Some r => Ok r | None => Err ErrNotFound end.

Record Filter := mkFilter {
  f_Start : Time; f_End : Time; f_AuthorID : ID; f_Kind : option RevisionKind; f_Limit : Z }.

Definition matchFilter (r : Revision) (f : Filter) : bool :=
  negb (negb (is_zero (f_Start f)) && time_before (r_CreatedAt r) (f_Start f)) &&
  negb (negb (is_zero (f_End f)) && time_after (r_CreatedAt r) (f_End f)) &&
  negb (negb (bool_decide (f_AuthorID f = Nil)) && negb (bool_decide (r_AuthorID r = f_AuthorID f))) &&
  match f_Kind f with Some k => bool_decide (r_Kind r = k) | None => true end.

(** What a Go map gives for an absent id. *)
Definition no_revision : Revision :=
  mkRevision Nil Nil Nil UnknownKind time_zero "" "" "" "" Nil "" "" "" false.

Definition newer (a b : Revision) : bool :=
  if (r_CreatedAt a =? r_CreatedAt b)%Z then (r_ID b <? r_ID a)%N
  else time_after (r_CreatedAt a) (r_CreatedAt b).

Definition List (post : ID) (f : Filter) (s : MemoryStore) : list Revision :=
  let out := sort_by newer
    (filter (λ r, matchFilter r f = true) (default no_revision ∘ (revisions s !!.) <$> post_ids s post)) in
  let limit := if (f_Limit f <=? 0)%Z then memoryDefaultLimit else f_Limit f in
  if (limit <? Z.of_nat (length out))%Z then take (Z.to_nat limit) out else out.

Definition Latest (post : ID) (kind : RevisionKind) (s : MemoryStore) : result revision_error Revision :=
  if negb (Valid kind) then Err (ErrInvalidRevision "unknown Kind") else
  let best := foldl (λ best id,
    match revisions s !! id with
    | Some r =>
        if negb (bool_decide (r_Kind r = kind)) then best else
        match best with
        | None => Some r
        | Some b => if time_after (r_CreatedAt r) (r_CreatedAt b) then Some r else best
        end
    | None => best
    end) None (rev (post_ids s post)) in
  match best with Some r => Ok r | None => Err ErrNotFound end.

(** ** Retention

    [pruneCandidate]: what the classifier reads of a revision. *)
Record pruneCandidate := mkCandidate {
  c_id : ID; c_author : ID; c_at : Time; c_kind : RevisionKind; c_snapshot : bool; c_from : ID;
  c_permanent : bool }.

(** [classifyDrop], [markOldestForDrop]: all but the last [keep] are marked. *)
Definition classifyDrop (ids : list ID) (keep : Z) (out : gset ID) : gset ID :=
  if (Z.of_nat (length ids) <=? keep)%Z then out
  else list_to_set (take (length ids - Z.to_nat keep) ids) ∪ out.

(** The count caps look at candidates that are not pinned and not recent. *)
Definition counted (p : RetentionPolicy) (now : Time) (c : pruneCandidate) : bool :=
  negb (c_permanent c) && negb ((0 <? MinKeepAll p)%Z && (now - c_at c <? MinKeepAll p)%Z).

Definition of_kind (p : RetentionPolicy) (now : Time) (k : RevisionKind) (l : list pruneCandidate)
    : list pruneCandidate :=
  filter (λ c, counted p now c = true ∧ c_kind c = k) l.

Definition autosavesByAuthor (p : RetentionPolicy) (now : Time) (l : list pruneCandidate)
    : gmap ID (list ID) :=
  foldl (λ m c, <[c_author c := default [] (m !! c_author c) ++ [c_id c]]> m) ∅ (of_kind p now Autosave l).

(** The marks before the reachability sweep. *)
Definition marks (p : RetentionPolicy) (now : Time) (l : list pruneCandidate) : gset ID :=
  let m : gset ID := ∅ in
  let m := if (0 <? MaxAutosavesPerAuthor p)%Z
    then map_fold (λ _ ids m, classifyDrop ids (MaxAutosavesPerAuthor p) m) m (autosavesByAuthor p now l)
    else m in
  let m := if (0 <? MaxManual p)%Z
    then classifyDrop (c_id <$> of_kind p now Manual l) (MaxManual p) m else m in
  let m := if (0 <? MaxPublish p)%Z
    then classifyDrop (c_id <$> of_kind p now Publish l) (MaxPublish p) m else m in
  if (0 <? MaxAgeAutosave p)%Z
  then list_to_set (c_id <$> filter (λ c, c_kind c = Autosave ∧ c_permanent c = false ∧
         (MaxAgeAutosave p ≤ now - c_at c)%Z) l) ∪ m
  else m.

(** The walk from a kept revision to its snapshot takes the marks off; [has]
    says whether a revision leads on, [lookup] finds the parent. *)
Section sweep.
Context {A : Type} (lookup : ID → option A) (from : A → option ID).

Fixpoint unmark (fuel : nat) (cur : A) (m : gset ID) : gset ID :=
  match fuel with
  | 0 => m
  | S fuel =>
      match from cur with
      | None => m
      | Some parent =>
          let m := m ∖ {[parent]} in
          match lookup parent with Some x => unmark fuel x m | None => m end
      end
  end.

Definition sweep (fuel : nat) (l : list (ID * A)) (m : gset ID) : gset ID :=
  foldl (λ m c, if decide (c.1 ∈ m) then m else unmark fuel c.2 m) m l.
End sweep.

(** [classifyForPrune]; the walk ends within as many steps as there are
    candidates, or does not end in the code either. *)
Definition candidate_from (c : pruneCandidate) : option ID :=
  if negb (c_snapshot c) && negb (bool_decide (c_from c = Nil)) then Some (c_from c) else None.

Definition classifyForPrune (l : list pruneCandidate) (p : RetentionPolicy) (now : Time) : list ID :=
  let byID : gmap ID pruneCandidate := foldl (λ m c, <[c_id c := c]> m) ∅ l in
  let m := sweep (λ id, byID !! id) candidate_from (length l) ((λ c, (c_id c, c)) <$> l) (marks p now l) in
  filter (λ id, id ∈ m) (c_id <$> l).

Definition candidate_of (id : ID) (r : Revision) : pruneCandidate :=
  mkCandidate id (r_AuthorID r) (r_CreatedAt r) (r_Kind r) (isSnapshot r) (r_DeltaFrom r)
    (r_IsPermanent r).

Definition revision_from (r : Revision) : option ID :=
  if isDelta r && negb (bool_decide (r_DeltaFrom r = Nil)) then Some (r_DeltaFrom r) else None.

(** [MemoryStore.Prune]. *)
Definition Prune (now : Time) (post : ID) (retention : RetentionPolicy) (s : MemoryStore)
    : MemoryStore * Z :=
  let p := normalize retention in
  let ids := post_ids s post in
  let rs := omap (λ id, (λ r, (id, r)) <$> revisions s !! id) ids in
  let m := marks p now ((λ x, candidate_of x.1 x.2) <$> rs) in
  let m := sweep (λ id, revisions s !! id) revision_from (size (revisions s)) rs m in
  if decide (filter (λ id, id ∈ m) ids = []) then (s, 0%Z)
  else
    (mkStore (foldr delete (revisions s) (filter (λ id, id ∈ m) ids))
       (<[post := filter (λ id, id ∉ m) ids]> (byPost s)),
     Z.of_nat (length (filter (λ id, id ∈ m) ids))).

(** ** The sweep over all posts (pruner.go) *)

Record Policy := mkPolicy { KeepLast : Z; KeepWithin : Duration }.
Definition policy_normalize (p : Policy) : Policy :=
  mkPolicy (if (KeepLast p <? 0)%Z then 0%Z else KeepLast p)
    (if (KeepWithin p <? 0)%Z then 0%Z else KeepWithin p).

Definition retention_of (p : Policy) : RetentionPolicy :=
  if (0 <? KeepLast p)%Z then mkRetention (KeepLast p) (KeepLast p) (KeepLast p) 0 (KeepWithin p)
  else mkRetention 0 0 0 0 (KeepWithin p).

Definition dryRunClassify (revs : list Revision) (p : Policy) (now : Time) : list ID :=
  classifyForPrune ((λ r, candidate_of (r_ID r) r) <$> rev revs) (normalize (retention_of p)) now.

Record Stats := mkStats { Scanned : Z; Deleted : Z; Skipped : Z; PostsScanned : Z; Notes : bool }.

Definition prunePost (now : Time) (p : Policy) (dry : bool) (post : ID) (s : MemoryStore)
    : MemoryStore * (Z * Z * Z) :=
  let revs := List post (mkFilter time_zero time_zero Nil None 1000) s in
  let pinned := Z.of_nat (length (filter (λ r, r_IsPermanent r = true) revs)) in
  let scanned := Z.of_nat (length revs) in
  if dry then (s, (scanned, Z.of_nat (length (dryRunClassify revs p now)), pinned))
  else let '(s, n) := Prune now post (retention_of p) s in (s, (scanned, n, pinned)).

(** [Pruner.Run] on the posts the lister gives. *)
Definition Run (now : Time) (policy : Policy) (dry : bool) (batch : Z) (posts : list ID) (s : MemoryStore)
    : MemoryStore * Stats :=
  let p := policy_normalize policy in
  if (KeepLast p =? 0)%Z && (KeepWithin p =? 0)%Z then (s, mkStats 0 0 0 0 true) else
  let limit := if (0 <? batch)%Z && (batch <? Z.of_nat (length posts))%Z then Z.to_nat batch
               else length posts in
  foldl (λ x post,
    let '(s, st) := x : MemoryStore * Stats in
    let '(s, (sc, de, sk)) := prunePost now p dry post s in
    (s, mkStats (Scanned st + sc) (Deleted st + de) (Skipped st + sk) (PostsScanned st + 1) (Notes st)))
    (s, mkStats 0 0 0 0 false) (take limit posts).
