(* ===== verification/RevisionsProps.v ===== *)
(** * Revisions come back as they were saved

    Through any history of saves and retention sweeps every revision the store
    still has materializes to the content it was saved with. *)
From S2P Require Import Prelude GoStrings Json Revisions.

Section chains.
Context (patch_Apply : string → string → option string).
(** JSON documents that differ in layout only. *)
Context (same : string → string → Prop).

Abbreviation materialize := (materialize patch_Apply).

Lemma elem_of_rev {A} (x : A) l : x ∈ rev l ↔ x ∈ l.
Proof using. rewrite !list_elem_of_In. symmetry. apply in_rev. Qed.

(** ** Well-formed chains

    [wf n b l]: [l] is a post's list with the newest first, each delta's parent is
    the revision before it, and the head is [n - 1] patches from a snapshot and
    materializes to [b]. [log] is what was saved. *)
Inductive wf (log : gmap ID string) (rs : gmap ID Revision) : nat → string → list ID → Prop :=
| wf_nil : wf log rs 0 "" []
| wf_snap id r c n b l :
    rs !! id = Some r → isSnapshot r = true → isDelta r = false → json.Valid (r_Snapshot r) = true →
    log !! id = Some c → same (r_Snapshot r) c → wf log rs n b l →
    wf log rs 1 (r_Snapshot r) (id :: l)
| wf_delta id r c n b b' l :
    rs !! id = Some r → isSnapshot r = false → isDelta r = true → r_DeltaFrom r ≠ Nil →
    head l = Some (r_DeltaFrom r) → S n ≤ maxChainDepth →
    ApplyDelta patch_Apply b (r_Delta r) = Ok b' → json.Valid b' = true →
    log !! id = Some c → same b' c → wf log rs n b l →
    wf log rs (S n) b' (id :: l).

Lemma wf_length log rs n b l : wf log rs n b l → n ≤ length l ∧ n ≤ maxChainDepth ∧ (l ≠ [] → 0 < n).
Proof using.
  assert (1 ≤ maxChainDepth) by (apply (bool_decide_unpack _); vm_compute; exact I).
  induction 1; simpl in *; split_and!; try lia; done.
Qed.

Lemma wf_known log rs n b l id : wf log rs n b l → id ∈ l → is_Some (rs !! id) ∧ is_Some (log !! id).
Proof using.
  induction 1; [by intros ?%elem_of_nil| |]; intros [->|Hin]%elem_of_cons; eauto.
Qed.

(** Changes elsewhere in the store do not matter. *)
Lemma wf_frame log log' rs rs' n b l :
  (∀ id, id ∈ l → rs' !! id = rs !! id) → (∀ id, id ∈ l → log' !! id = log !! id) →
  wf log rs n b l → wf log' rs' n b l.
Proof using.
  intros Hrs Hlog Hwf. induction Hwf; [constructor| |];
    (econstructor; try eassumption; [rewrite Hrs by set_solver; done| |];
     try (rewrite Hlog by set_solver; done); apply IHHwf; intros; [apply Hrs|apply Hlog]; set_solver).
Qed.

Lemma wf_materialize log rs n b id l :
  wf log rs n b (id :: l) → ∃ c, materialize rs n id = Ok b ∧ log !! id = Some c ∧ same b c ∧ json.Valid b = true.
Proof using.
  intros Hwf. remember (id :: l) as k eqn:Hk. revert id l Hk.
  induction Hwf as [|id r c n b l Hr Hs Hd Hv Hlog Hsame Hwf IH
    |id r c n b b' l Hr Hs Hd Hne Hhd Hn Happ Hv Hlog Hsame Hwf IH]; intros id0 l0 [= <- <-].
  - exists c. simpl. by rewrite Hr, Hs.
  - exists c. simpl. rewrite Hr, Hs. rewrite decide_False by done.
    destruct l as [|p l]; [done|]. injection Hhd as ->.
    destruct (IH _ _ eq_refl) as (_ & -> & _). done.
Qed.

Lemma materialize_mono rs n m id b : n ≤ m → materialize rs n id = Ok b → materialize rs m id = Ok b.
Proof using.
  revert m id b. induction n as [|n IH]; intros m id b Hle; [done|].
  destruct m as [|m]; [lia|]. simpl. destruct (rs !! id) as [r|]; [|done].
  destruct (isSnapshot r); [done|]. case_decide; [done|].
  destruct (materialize rs n (r_DeltaFrom r)) as [p|] eqn:Hp; [|done].
  by rewrite (IH m _ p ltac:(lia) Hp).
Qed.

(** [n] is what [Save] counts as the revisions since the last snapshot. *)
Lemma last_snapshot_app rs ids id :
  last_snapshot rs (ids ++ [id]) =
    if match rs !! id with Some r => isSnapshot r | None => false end then Some (length ids)
    else last_snapshot rs ids.
Proof using.
  induction ids as [|i ids IH]; simpl; [by case_match|]. rewrite IH.
  destruct (match rs !! id with Some _ => _ | None => _ end); [done|].
  destruct (last_snapshot rs ids); [done|]. done.
Qed.

Lemma wf_since log rs n b l :
  wf log rs n b l → l ≠ [] → last_snapshot rs (rev l) = Some (length l - n) .
Proof using.
  induction 1 as [|id r c n b l Hr Hs _ _ _ _ Hwf IH|id r c n b b' l Hr Hs _ _ Hhd _ _ _ _ _ Hwf IH];
    [done|intros _..]; simpl; rewrite last_snapshot_app, Hr, Hs.
  - rewrite length_rev. f_equal. lia.
  - apply IH. by destruct l.
Qed.

(** A sweep that keeps the parent of every delta it keeps. *)
Lemma wf_filter log rs n b l (P : ID → Prop) `{∀ x, Decision (P x)} :
  wf log rs n b l →
  (∀ id r p, id ∈ l → P id → rs !! id = Some r → revision_from r = Some p → P p) →
  ∃ n' b', wf log rs n' b' (filter P l) ∧
    (∀ id l', l = id :: l' → P id → n' = n ∧ b' = b ∧ head (filter P l) = Some id).
Proof using.
  intros Hwf. induction Hwf as [|id r c n b l Hr Hs Hd Hv Hlog Hsame Hwf IH
    |id r c n b b' l Hr Hs Hd Hne Hhd Hn Happ Hv Hlog Hsame Hwf IH]; intros Hkeep.
  - exists 0, "". split; [constructor|done].
  - destruct IH as (n' & b' & Hf & _); [intros; eapply Hkeep; eauto; set_solver|].
    rewrite filter_cons. destruct (decide (P id)).
    + exists 1, (r_Snapshot r). split; [by econstructor|]. by intros ? ? [= -> ->].
    + exists n', b'. split; [done|]. by intros ? ? [= -> ->].
  - destruct IH as (n' & b0 & Hf & Hhead); [intros; eapply Hkeep; eauto; set_solver|].
    rewrite filter_cons. destruct (decide (P id)) as [Hp|Hp].
    + destruct l as [|p l]; [done|]. injection Hhd as ->.
      assert (P (r_DeltaFrom r)) as Hparent.
      { eapply Hkeep; [|exact Hp|exact Hr|]; [set_solver|]. unfold revision_from.
        by rewrite Hd, bool_decide_false. }
      destruct (Hhead _ _ eq_refl Hparent) as (-> & -> & Hh).
      exists (S n), b'. split; [|by intros ? ? [= -> ->]].
      by apply (wf_delta _ _ _ r c n b).
    + exists n', b0. split; [done|]. by intros ? ? [= -> ->].
Qed.

(** ** The reachability sweep *)

Fixpoint ancs (rs : gmap ID Revision) (fuel : nat) (cur : Revision) : list ID :=
  match fuel with
  | 0 => []
  | S fuel =>
      match revision_from cur with
      | None => []
      | Some p => p :: match rs !! p with Some x => ancs rs fuel x | None => [] end
      end
  end.

Lemma unmark_ancs rs fuel cur m :
  unmark (λ id, rs !! id) revision_from fuel cur m = m ∖ list_to_set (ancs rs fuel cur).
Proof using.
  revert cur m. induction fuel as [|fuel IH]; intros cur m; simpl; [set_solver|].
  destruct (revision_from cur) as [p|]; [|set_solver].
  destruct (rs !! p) as [x|]; [rewrite IH; set_solver|set_solver].
Qed.

Lemma wf_from log rs n b id l r :
  wf log rs n b (id :: l) → rs !! id = Some r →
  match revision_from r with
  | Some p => ∃ b', wf log rs (n - 1) b' l ∧ head l = Some p ∧ 2 ≤ n
  | None => True
  end.
Proof using.
  intros Hwf Hr. inversion Hwf; simplify_eq.
  - unfold revision_from. match goal with H : isDelta r = false |- _ => by rewrite H end.
  - unfold revision_from. match goal with H : isDelta r = true |- _ => rewrite H end.
    rewrite bool_decide_false by done. simpl. rewrite Nat.sub_0_r.
    match goal with H : wf _ _ ?m ?b l |- _ => exists b; pose proof (wf_length _ _ _ _ _ H) as (_ & _ & Hpos) end.
    split_and!; [done|done|]. destruct l; [done|]. assert (l ≠ [] ∨ True) by auto. specialize (Hpos ltac:(done)). lia.
Qed.

(** The ancestors the walk visits contain the parents of each of them. *)
Lemma ancs_closed log rs n b id l r fuel :
  wf log rs n b (id :: l) → rs !! id = Some r → n ≤ S fuel →
  (∀ p, revision_from r = Some p → p ∈ ancs rs fuel r) ∧
  ∀ x y p, x ∈ ancs rs fuel r → rs !! x = Some y → revision_from y = Some p → p ∈ ancs rs fuel r.
Proof using.
  revert n b id l r. induction fuel as [|fuel IH]; intros n b id l r Hwf Hr Hle;
    pose proof (wf_from _ _ _ _ _ _ _ Hwf Hr) as Hf; simpl.
  - destruct (revision_from r) as [p|]; [destruct Hf as (? & _ & _ & ?); lia|].
    split; [done|]. intros ? ? ? Hx. by apply elem_of_nil in Hx.
  - destruct (revision_from r) as [p|]; [|split; [done|intros ? ? ? Hx; by apply elem_of_nil in Hx]].
    destruct Hf as (b' & Hwf' & Hhd & Hn). destruct l as [|p' l]; [done|]. injection Hhd as ->.
    destruct (wf_known _ _ _ _ _ p Hwf' ltac:(set_solver)) as [[rp Hrp] _]. rewrite Hrp.
    destruct (IH _ _ _ _ _ Hwf' Hrp ltac:(lia)) as [Hfst Hrest].
    split; [intros ? [= <-]; set_solver|].
    intros x y q [->|Hx]%elem_of_cons Hy Hq; simplify_eq; apply elem_of_cons; right; eauto.
Qed.

(** Taking the chain apart at any member. *)
Lemma wf_suffix log rs n b l1 id l2 :
  wf log rs n b (l1 ++ id :: l2) → ∃ n' b', wf log rs n' b' (id :: l2).
Proof using.
  revert n b. induction l1 as [|x l1 IH]; intros n b Hwf; simpl in *; [eauto|].
  inversion Hwf; simplify_eq; eauto.
Qed.

(** After the sweep no kept delta has lost its parent. *)
Lemma sweep_closed log rs n b l fuel m0 :
  wf log rs n b (rev l) → length l ≤ S fuel →
  let m := sweep (λ id, rs !! id) revision_from fuel (omap (λ id, (λ r, (id, r)) <$> rs !! id) l) m0 in
  m ⊆ m0 ∧ ∀ id r p, id ∈ l → id ∉ m → rs !! id = Some r → revision_from r = Some p → p ∉ m.
Proof using.
  intros Hwf Hfuel. unfold sweep.
  assert (∀ k, k `prefix_of` l → ∃ m,
    foldl (λ m c, if decide (c.1 ∈ m) then m else unmark (λ id, rs !! id) revision_from fuel c.2 m) m0
      (omap (λ id, (λ r, (id, r)) <$> rs !! id) k) = m ∧ m ⊆ m0 ∧
    ∀ id r p, id ∈ l → id ∉ m → id ∈ m0 ∨ id ∈ k → rs !! id = Some r → revision_from r = Some p → p ∉ m)
    as Hall.
  { intros k. induction k as [|c k IH] using rev_ind; intros Hpre.
    { exists m0. split; [done|]. split; [done|]. set_solver. }
    destruct IH as (m & Hm & Hsub & HJ); [by eapply prefix_app_l|].
    rewrite omap_app, foldl_app, Hm. simpl.
    assert (c ∈ l) as Hcl by (destruct Hpre as [t ->]; set_solver).
    destruct (wf_known _ _ _ _ _ c Hwf ltac:(by apply elem_of_rev)) as [[rc Hrc] _].
    rewrite Hrc. simpl.
    destruct (decide (c ∈ m)) as [Hcm|Hcm].
    - exists m. split; [done|]. split; [done|]. intros id r p Hid Hidm [?|Hk] Hr Hp; [eauto|].
      apply elem_of_app in Hk as [?|Hk]; [eauto|]. apply list_elem_of_singleton in Hk as ->. done.
    - eexists. split; [done|]. rewrite unmark_ancs. split; [set_solver|].
      assert (∃ n' b' l2, wf log rs n' b' (c :: l2) ∧ n' ≤ length l) as (n' & b' & l2 & Hc & Hn').
      { assert (c ∈ rev l) as Hin by by apply elem_of_rev.
        apply list_elem_of_split in Hin as (l1 & l2 & Hsplit).
        rewrite Hsplit in Hwf. apply wf_suffix in Hwf as (n' & b' & Hc). exists n', b', l2. split; [done|].
        pose proof (wf_length _ _ _ _ _ Hc) as (? & _ & _).
        pose proof (f_equal length Hsplit) as Hl. rewrite length_rev, length_app in Hl. simpl in *. lia. }
      destruct (ancs_closed _ _ _ _ _ _ _ fuel Hc Hrc ltac:(lia)) as [Hfst Hrest].
      intros id r p Hid Hidm Hor Hr Hp. rewrite elem_of_difference, elem_of_list_to_set.
      intros [Hpm Hpa]. destruct (decide (id ∈ ancs rs fuel rc)) as [Hanc|Hanc]; [by eapply Hpa, Hrest|].
      destruct (decide (id = c)) as [->|Hne]; [simplify_eq; by apply Hpa, Hfst|].
      assert (id ∉ m) as Hidm' by (rewrite elem_of_difference, elem_of_list_to_set in Hidm; tauto).
      apply (HJ id r p Hid Hidm'); try done. destruct Hor as [?|Hk]; [by left|].
      apply elem_of_app in Hk as [?|Hk]; [by right|]. by apply list_elem_of_singleton in Hk. }
  destruct (Hall l ltac:(done)) as (m & -> & Hsub & HJ). split; [done|]. intros. eapply HJ; eauto.
Qed.
End chains.

Lemma filter_rev {A} (P : A → Prop) `{∀ x, Decision (P x)} l : filter P (rev l) = rev (filter P l).
Proof.
  induction l as [|x l IH]; [done|]. cbn [rev]. rewrite filter_app, IH, !filter_cons, filter_nil.
  case_decide; simpl; [done|]. by rewrite app_nil_r.
Qed.

Lemma lookup_foldr_delete (l : list ID) (m : gmap ID Revision) id :
  foldr delete m l !! id = if decide (id ∈ l) then None else m !! id.
Proof.
  induction l as [|i l IH]; cbn [foldr]; [by rewrite decide_False by set_solver|].
  destruct (decide (i = id)) as [->|Hne].
  - rewrite lookup_delete_eq, decide_True by set_solver. done.
  - rewrite lookup_delete_ne, IH by done. do 2 case_decide; set_solver.
Qed.

Section history.
Context (CompareJSON : string → string → option (option string)).
Context (patch_Apply : string → string → option string).
Context (same : string → string → Prop) `{Hequiv : Equivalence string same}.
Context (delta_roundtrip : ∀ a b d, ComputeDelta CompareJSON a b = Ok d →
  d ≠ "" ∧ ∃ b', ApplyDelta patch_Apply a d = Ok b' ∧ json.Valid b' = true ∧ same b' b).

Abbreviation Save := (Save CompareJSON patch_Apply).
Abbreviation Materialize := (Materialize patch_Apply).
Abbreviation wf := (wf patch_Apply same).

(** Every post's list is a well-formed chain of that post's revisions, and no
    revision is anywhere else. *)
Record store_ok (log : gmap ID string) (s : MemoryStore) : Prop := {
  ok_wf post : ∃ n b, wf log (revisions s) n b (rev (post_ids s post));
  ok_in id r : revisions s !! id = Some r → id ∈ post_ids s (r_PostID r);
  ok_post post id : id ∈ post_ids s post → ∃ r, revisions s !! id = Some r ∧ r_PostID r = post;
  ok_nodup post : NoDup (post_ids s post);
  ok_nil : revisions s !! Nil = None;
}.

Lemma ok_log log s id r : store_ok log s → revisions s !! id = Some r → is_Some (log !! id).
Proof using.
  intros Hok Hr. destruct (ok_wf _ _ Hok (r_PostID r)) as (n & b & Hwf).
  apply (wf_known _ _ _ _ _ _ _ id Hwf). apply elem_of_rev. by eapply ok_in.
Qed.

(** What [Save] persists: the content whole, or a patch of the newest revision. *)
Lemma persisted_cases s r id at_ prior o p :
  r_Delta r = "" →
  persistedFromInput CompareJSON patch_Apply s r id at_ prior o = Ok p →
  r_PostID p = r_PostID r ∧
  ((r_Snapshot p = r_ContentBlocks r ∧ r_Delta p = "") ∨
   ∃ parent idx base, last prior = Some parent ∧ last_snapshot (revisions s) prior = Some idx ∧
     (Z.of_nat (length prior - idx) < snapshotEveryN o)%Z ∧ Materialize parent s = Ok base ∧
     ComputeDelta CompareJSON base (r_ContentBlocks r) = Ok (r_Delta p) ∧
     r_Snapshot p = "" ∧ r_DeltaFrom p = parent).
Proof using.
  intros Hd. unfold persistedFromInput. destruct (ForceSnapshot o); [intros [= <-]; auto|].
  destruct (last prior) as [parent|] eqn:Hl; [|intros [= <-]; auto].
  destruct (last_snapshot (revisions s) prior) as [idx|]; [|intros [= <-]; auto].
  destruct (snapshotEveryN o <=? Z.of_nat (length prior - idx))%Z eqn:Hn; [intros [= <-]; auto|].
  destruct (_ && _); [intros [= <-]; auto|].
  destruct (Revisions.Materialize patch_Apply parent s) as [base|] eqn:Hm; [|intros [= <-]; auto].
  destruct (ComputeDelta CompareJSON base (r_ContentBlocks r)) as [d|] eqn:Hc; [|done].
  intros [= <-]. simpl. split; [done|]. right. exists parent, idx, base.
  split_and!; try done. by apply Z.leb_gt.
Qed.

Lemma post_ids_insert s rs post post' ids :
  post_ids (mkStore rs (<[post := ids]> (byPost s))) post' = if decide (post = post') then ids else post_ids s post'.
Proof using.
  unfold post_ids. simpl. case_decide; [subst; by rewrite lookup_insert_eq|by rewrite lookup_insert_ne].
Qed.

(** The saves a caller makes as the documentation asks, under a new UUID. *)
Definition proper_save (log : gmap ID string) (new : ID) (o : SaveOptions) (r : Revision) : Prop :=
  r_ID r = Nil ∧ r_Delta r = "" ∧ new ≠ Nil ∧ log !! new = None ∧
  (snapshotEveryN o ≤ Z.of_nat maxChainDepth)%Z.

Lemma store_ok_Save log s now new o r s' id :
  store_ok log s → proper_save log new o r → Save now new o r s = (s', Ok id) →
  id = new ∧ store_ok (<[new := r_ContentBlocks r]> log) s'.
Proof using All.
  intros Hok (Hid & Hd & Hnew & Hfresh & HN). unfold Revisions.Save.
  destruct (validateForSave r) eqn:Hv; [done|]. rewrite Hid, decide_True by done.
  set (prior := post_ids s (r_PostID r)). destruct (persistedFromInput _ _ _ _ _ _ _ _) as [p|] eqn:Hp; [|done].
  intros [= <- <-]. split; [done|].
  assert (revisions s !! new = None) as Hnone.
  { destruct (revisions s !! new) eqn:E; [|done]. destruct (ok_log _ _ _ _ Hok E). congruence. }
  assert (∀ post, new ∉ post_ids s post) as Hout.
  { intros post Hin. destruct (ok_post _ _ Hok _ _ Hin) as (? & ? & _). congruence. }
  assert (json.Valid (r_ContentBlocks r) = true ∧ r_ContentBlocks r ≠ "") as [Hvalid Hne].
  { unfold validateForSave in Hv. repeat (case_decide; [done|]). destruct (negb (Valid _)); [done|].
    case_decide; [done|]. by destruct (json.Valid _). }
  apply persisted_cases in Hp as [Hpost Hcases]; [|done].
  set (log' := <[new := r_ContentBlocks r]> log). set (rs' := <[new := p]> (revisions s)).
  assert (∀ post n b, wf log (revisions s) n b (rev (post_ids s post)) → wf log' rs' n b (rev (post_ids s post))) as Hframe.
  { intros post n b. apply wf_frame; intros id Hin; rewrite elem_of_rev in Hin; unfold rs', log';
      rewrite lookup_insert_ne; try done; intros ->; exact (Hout _ Hin). }
  assert (∃ n b, wf log' rs' n b (new :: rev prior)) as Hnewwf.
  { destruct (ok_wf _ _ Hok (r_PostID r)) as (n & b & Hwf). pose proof (Hframe _ _ _ Hwf) as Hwf'.
    destruct Hcases as [[Hsnap Hdel]|(parent & idx & base & Hlast & Hidx & Hlt & Hmat & Hcd & Hsnap & Hfrom)].
    - eexists 1, _. apply (wf_snap _ _ _ _ new p (r_ContentBlocks r) n b); try done.
      + apply lookup_insert_eq.
      + unfold isSnapshot. by rewrite Hsnap, bool_decide_false.
      + unfold isDelta. by rewrite Hdel, bool_decide_true.
      + by rewrite Hsnap.
      + apply lookup_insert_eq.
      + by rewrite Hsnap.
    - apply last_Some in Hlast as [l Hprior]. fold prior in Hwf, Hwf'.
      rewrite Hprior, rev_unit in Hwf, Hwf'.
      pose proof (wf_since _ _ _ _ _ _ _ Hwf ltac:(done)) as Hsince.
      pose proof (wf_length _ _ _ _ _ _ _ Hwf) as (Hn & _ & Hn0).
      rewrite <-rev_unit, rev_involutive, <-Hprior, length_rev, Hidx in Hsince. injection Hsince as ->.
      rewrite <-rev_unit, <-Hprior, length_rev in Hn.
      destruct (wf_materialize _ _ _ _ _ _ _ _ Hwf) as (c & Hm & _).
      unfold Revisions.Materialize in Hmat.
      assert (base = b) as ->.
      { assert (n ≤ maxChainDepth) as Hle by apply (wf_length _ _ _ _ _ _ _ Hwf).
        pose proof (materialize_mono _ _ _ _ _ _ Hle Hm). congruence. }
      destruct (delta_roundtrip _ _ _ Hcd) as (Hdne & b' & Happ & Hvb & Hsame).
      exists (S n), b'. rewrite Hprior, rev_unit.
      apply (wf_delta _ _ _ _ new p (r_ContentBlocks r) n b); try done.
      + apply lookup_insert_eq.
      + unfold isSnapshot. by rewrite Hsnap, bool_decide_true.
      + unfold isDelta. by rewrite bool_decide_false.
      + rewrite Hfrom. intros ->. assert (Nil ∈ prior) as Hin by (rewrite Hprior; set_solver).
        destruct (ok_post _ _ Hok _ _ Hin) as (x & Hx & _). rewrite (ok_nil _ _ Hok) in Hx. done.
      + by rewrite Hfrom.
      + lia.
      + apply lookup_insert_eq. }
  subst rs' log'. split; cbn [revisions].
  - intros post. rewrite post_ids_insert. case_decide as Hdec.
    + rewrite rev_unit. exact Hnewwf.
    + destruct (ok_wf _ _ Hok post) as (n & b & Hwf). exists n, b. by apply Hframe.
  - intros i x [[<- <-]|[_ Hi]]%lookup_insert_Some; rewrite post_ids_insert.
    + case_decide; [set_solver|congruence].
    + pose proof (ok_in _ _ Hok _ _ Hi). case_decide as Hdec; [|done]. unfold prior. rewrite Hdec. set_solver.
  - intros post i. rewrite post_ids_insert. intros Hin.
    assert (i = new ∧ post = r_PostID r ∨ i ∈ post_ids s post) as [[-> ->]|Hold].
    { case_decide as Hdec; [|by right]. subst. apply elem_of_app in Hin as [?|Hin]; [by right|].
      left. by apply list_elem_of_singleton in Hin. }
    + exists p. by rewrite lookup_insert_eq.
    + destruct (ok_post _ _ Hok _ _ Hold) as (x & Hx & Hpx). exists x. split; [|done].
      rewrite lookup_insert_ne; [done|]. intros ->. exact (Hout _ Hold).
  - intros post. rewrite post_ids_insert. case_decide; [|apply Hok].
    apply NoDup_app. split; [apply Hok|]. split; [|apply NoDup_singleton].
    intros i Hi ->%list_elem_of_singleton. exact (Hout _ Hi).
  - rewrite lookup_insert_ne by done. apply Hok.
Qed.

Lemma ids_bound log s post : store_ok log s → length (post_ids s post) ≤ size (revisions s).
Proof using.
  intros Hok. rewrite <-size_dom, <-(size_list_to_set (C := gset ID)) by apply Hok.
  apply subseteq_size. intros id. rewrite elem_of_list_to_set, elem_of_dom.
  intros (r & Hr & _)%(ok_post _ _ Hok). eauto.
Qed.

Lemma store_ok_Prune log s now post retention : store_ok log s → store_ok log (Prune now post retention s).1.
Proof using.
  intros Hok. unfold Prune. case_decide as Hnone; [done|].
  set (m := sweep _ _ _ _ _) in *. simpl. clear Hnone.
  destruct (ok_wf _ _ Hok post) as (n & b & Hwf).
  pose proof (sweep_closed _ _ _ _ _ _ (post_ids s post) (size (revisions s)) (marks (normalize retention) now
    ((λ x, candidate_of x.1 x.2) <$> omap (λ id, (λ r, (id, r)) <$> revisions s !! id) (post_ids s post)))
    Hwf ltac:(pose proof (ids_bound _ _ post Hok); lia)) as [_ Hclosed].
  fold m in Hclosed. clearbody m.
  set (gone := filter (λ id, id ∈ m) (post_ids s post)).
  assert (∀ id, id ∈ gone ↔ id ∈ m ∧ id ∈ post_ids s post) as Hgone
    by (intros id; unfold gone; by rewrite list_elem_of_filter).
  assert (∀ id, id ∉ gone → foldr delete (revisions s) gone !! id = revisions s !! id) as Hkept.
  { intros id Hid. by rewrite lookup_foldr_delete, decide_False. }
  assert (∀ id r, foldr delete (revisions s) gone !! id = Some r → id ∉ gone ∧ revisions s !! id = Some r) as Hleft.
  { intros id r. rewrite lookup_foldr_delete. by case_decide. }
  split; cbn [revisions].
  - intros post'. rewrite post_ids_insert. case_decide as Hdec.
    + destruct (wf_filter _ _ _ _ _ _ _ (λ id, id ∉ m) Hwf) as (n' & b' & Hf & _).
      { intros id r p Hin Hid Hr Hp. rewrite elem_of_rev in Hin. by apply (Hclosed id r p). }
      exists n', b'. rewrite <-filter_rev. eapply wf_frame, Hf; [|done]. intros id Hin.
      apply list_elem_of_filter in Hin as [Hid _]. apply Hkept. rewrite Hgone. tauto.
    + destruct (ok_wf _ _ Hok post') as (n' & b' & Hwf'). exists n', b'.
      eapply wf_frame, Hwf'; [|done]. intros id Hin. rewrite elem_of_rev in Hin. apply Hkept.
      rewrite Hgone. intros [_ Hin']. destruct (ok_post _ _ Hok _ _ Hin) as (r & Hr & <-).
      destruct (ok_post _ _ Hok _ _ Hin') as (r' & Hr' & <-). congruence.
  - intros id r [Hid Hr]%Hleft. rewrite post_ids_insert. pose proof (ok_in _ _ Hok _ _ Hr) as Hin.
    case_decide as Hdec; [|done]. subst. apply list_elem_of_filter. split; [|done].
    intros Hm. apply Hid. by apply Hgone.
  - intros post' id. rewrite post_ids_insert. intros Hin.
    assert (id ∈ post_ids s post' ∧ id ∉ gone) as [Hin' Hid].
    { case_decide as Hdec; [subst; apply list_elem_of_filter in Hin as [? ?]; split; [done|]; rewrite Hgone; tauto|].
      split; [done|]. rewrite Hgone. intros [_ Hin']. destruct (ok_post _ _ Hok _ _ Hin) as (r & Hr & <-).
      destruct (ok_post _ _ Hok _ _ Hin') as (r' & Hr' & <-). congruence. }
    rewrite Hkept by done. by apply (ok_post _ _ Hok).
  - intros post'. rewrite post_ids_insert. case_decide; [|apply Hok]. apply NoDup_filter, Hok.
  - rewrite lookup_foldr_delete. case_decide; [done|]. apply Hok.
Qed.

(** ** Histories *)

Inductive revision_event :=
| EvSave (now : Time) (new : ID) (o : SaveOptions) (r : Revision)
| EvPrune (now : Time) (post : ID) (retention : RetentionPolicy).

(** The store and what was saved under each UUID. *)
Inductive history : MemoryStore → gmap ID string → Prop :=
| hist_new : history NewMemoryStore ∅
| hist_save s log now new o r s' id :
    history s log → proper_save log new o r → Save now new o r s = (s', Ok id) →
    history s' (<[id := r_ContentBlocks r]> log)
| hist_refused s log now new o r s' e :
    history s log → Save now new o r s = (s', Err e) → history s' log
| hist_prune s log now post retention :
    history s log → history (Prune now post retention s).1 log.

Lemma history_ok s log : history s log → store_ok log s.
Proof using All.
  induction 1 as [|s log now new o r s' id _ IH Hp Hs|s log now new o r s' e _ IH Hs|s log now post ret _ IH].
  - split; simpl; try done.
    + intros post. exists 0, "". unfold post_ids. simpl. rewrite lookup_empty. constructor.
    + intros post id. unfold post_ids. simpl. rewrite lookup_empty. simpl. by intros ?%elem_of_nil.
    + intros post. unfold post_ids. simpl. rewrite lookup_empty. constructor.
  - destruct (store_ok_Save _ _ _ _ _ _ _ _ IH Hp Hs) as [-> ?]. done.
  - unfold Revisions.Save in Hs. destruct (validateForSave r); [by simplify_eq|].
    destruct (persistedFromInput _ _ _ _ _ _ _ _); by simplify_eq.
  - by apply store_ok_Prune.
Qed.

(** C27. Whatever saves and retention sweeps a store went through, every revision
    it still has materializes, to a document equal to the one it was saved with:
    no sweep breaks the chain of a revision it keeps. The saves are as documented
    (no ID and no delta from the caller, new UUIDs) with a snapshot at least
    every 1024 revisions. *)
Theorem revision_roundtrip s log id r :
  history s log → revisions s !! id = Some r →
  ∃ content b, log !! id = Some content ∧ Materialize id s = Ok b ∧ same b content.
Proof using All.
  intros Hok%history_ok Hr. destruct (ok_wf _ _ Hok (r_PostID r)) as (n & b & Hwf).
  pose proof (ok_in _ _ Hok _ _ Hr) as Hin. rewrite <-elem_of_rev in Hin.
  apply list_elem_of_split in Hin as (l1 & l2 & Hl). rewrite Hl in Hwf.
  apply wf_suffix in Hwf as (n' & b' & Hwf').
  destruct (wf_materialize _ _ _ _ _ _ _ _ Hwf') as (c & Hm & Hc & Hsame & _).
  exists c, b'. split_and!; [done| |done]. apply (materialize_mono _ _ n'); [|done].
  apply (wf_length _ _ _ _ _ _ _ Hwf').
Qed.
End history.

(** ** Concrete histories *)

(** A patch that replaces the whole document. *)
Definition replace_all (a b : string) : option (option string) := Some (Some b).
Definition apply_replace (base delta : string) : option string := Some delta.

Lemma replace_roundtrip a b d : ComputeDelta replace_all a b = Ok d →
  d ≠ "" ∧ ∃ b', ApplyDelta apply_replace a d = Ok b' ∧ json.Valid b' = true ∧ b' = b.
Proof.
  unfold ComputeDelta, ApplyDelta, replace_all, apply_replace.
  destruct (json.Valid a); [|done]. destruct (json.Valid b) eqn:Hb; [|done]. intros [= <-]. simpl.
  assert (b ≠ "") by (intros ->; vm_compute in Hb; discriminate Hb).
  split; [done|]. exists b. by rewrite decide_False.
Qed.

Definition demo_rev (kind : RevisionKind) (content : string) : Revision :=
  mkRevision Nil 7 1 kind time_zero "" "" content "" Nil "" "" "" false.
Definition demo_options : SaveOptions := mkSaveOptions 0 0 false.
Definition demo_save (new : ID) (content : string) (s : MemoryStore) : MemoryStore :=
  (Save replace_all apply_replace 100 new demo_options (demo_rev Manual content) s).1.

Definition demo_saved : MemoryStore :=
  demo_save 3 "[1,2,3]" (demo_save 2 "[1,2]" (demo_save 1 "[1]" NewMemoryStore)).
Definition demo_log : gmap ID string := <[3%N := "[1,2,3]"]> (<[2%N := "[1,2]"]> (<[1%N := "[1]"]> ∅)).
Definition demo_pruned : MemoryStore := (Prune 200 7 (mkRetention 0 1 0 0 0) demo_saved).1.

Lemma hist_saved s log new content :
  history replace_all apply_replace s log → new ≠ Nil → log !! new = None →
  (Save replace_all apply_replace 100 new demo_options (demo_rev Manual content) s).2 = Ok new →
  history replace_all apply_replace (demo_save new content s) (<[new := content]> log).
Proof.
  intros Hs Hnew Hlog Hok. eapply (hist_save _ _ s log 100 new demo_options (demo_rev Manual content)); [done| |].
  - split_and!; done.
  - rewrite <-Hok. apply surjective_pairing.
Qed.

Lemma demo_history_ok : history replace_all apply_replace demo_pruned demo_log.
Proof.
  apply hist_prune. unfold demo_saved, demo_log.
  repeat (apply hist_saved; [|done|vm_compute; reflexivity|vm_compute; reflexivity]). constructor.
Qed.

(** With a cap of one manual revision the sweep keeps the whole chain of the last. *)
Lemma revision_roundtrip_witness :
  post_ids demo_pruned 7 = [1; 2; 3]%N ∧
  ∃ r content b, revisions demo_pruned !! 3%N = Some r ∧ isDelta r = true ∧
    demo_log !! 3%N = Some content ∧ Materialize apply_replace 3 demo_pruned = Ok b ∧ b = content.
Proof.
  split; [vm_compute; reflexivity|].
  destruct (revisions demo_pruned !! 3%N) as [r|] eqn:Hr; [|vm_compute in Hr; discriminate Hr].
  destruct (revision_roundtrip replace_all apply_replace eq replace_roundtrip demo_pruned demo_log 3 r
    demo_history_ok Hr) as (content & b & Hlog & Hm & Hsame).
  exists r, content, b. split_and!; try assumption; [reflexivity|].
  vm_compute in Hr. injection Hr as <-. reflexivity.
Defined.

(** ** Where the sweeps and the documentation part *)

(** The locked sweep of Postgres reads no pinned revisions, so it does not see
    that a pinned delta still needs its snapshot, and drops it. *)
Definition demo_candidates : list pruneCandidate :=
  [mkCandidate 1 1 0 Manual true Nil false; mkCandidate 2 1 1 Manual false 1 true;
   mkCandidate 3 1 2 Manual true Nil false].

Theorem PruneLocked_breaks_pinned :
  classifyForPrune demo_candidates (mkRetention 0 1 0 0 0) 100 = [] ∧
  classifyForPrune (filter (λ c, c_permanent c = false) demo_candidates) (mkRetention 0 1 0 0 0) 100
    = [1%N].
Proof. vm_compute. split; reflexivity. Qed.

Lemma unmark_empty {A} (lk : ID → option A) from fuel x : unmark lk from fuel x ∅ = ∅.
Proof.
  revert x. induction fuel as [|fuel IH]; intros x; simpl; [done|]. destruct (from x) as [p|]; [|done].
  replace ((∅ : gset ID) ∖ {[p]}) with (∅ : gset ID) by set_solver. destruct (lk p); [apply IH|done].
Qed.

Lemma sweep_empty {A} (lk : ID → option A) from fuel k : sweep lk from fuel k ∅ = ∅.
Proof.
  unfold sweep. induction k as [|c k IH]; [done|]. simpl.
  rewrite decide_False by apply not_elem_of_empty. by rewrite unmark_empty.
Qed.

(** A policy with [KeepWithin] alone deletes nothing, whatever its age. *)
Theorem KeepWithin_alone_keeps_all now post within s :
  Prune now post (retention_of (mkPolicy 0 within)) s = (s, 0%Z).
Proof.
  unfold Prune. set (l := omap _ _).
  assert (marks (normalize (retention_of (mkPolicy 0 within))) now ((λ x, candidate_of x.1 x.2) <$> l) = ∅)
    as -> by done.
  rewrite sweep_empty. rewrite decide_True; [done|]. apply filter_none. intros id _. apply not_elem_of_empty.
Qed.

(** [Run] with a batch size never reaches the posts behind the first batch. *)
Theorem Run_batch_stops now policy s post1 post2 :
  (Run now policy false 1 [post1; post2] s).1 = (Run now policy false 1 [post1] s).1.
Proof. unfold Run. by destruct (_ && _). Qed.

(** [Materialize] of an unknown revision reports a corrupt chain, not
    [ErrNotFound]. *)
Theorem Materialize_unknown apply id s :
  revisions s !! id = None → Materialize apply id s = Err ErrCorruptChain.
Proof. intros Hn. unfold Materialize. change maxChainDepth with (S 1023). simpl. by rewrite Hn. Qed.
