(* ===== verification/Idempotency.v ===== *)
(** * Idempotency keys (packages/go/jobs/idempotency: key.go, store.go,
    middleware.go)

    A request with an Idempotency-Key claims the key in Redis (a script) and in
    Postgres (one row per key), runs its handler once, and stores the response
    for replays. The stores' methods and the middleware are programs of commands;
    an SQL statement is one command on the table. Redis is the class of the file
    Redis; sha256 and Lua's tonumber are parameters. *)
From S2P Require Import Prelude GoStrings Prog Http Hex Json Redis.
From Stdlib Require Import Ascii.

(** ** Keys (key.go) *)

Definition DefaultTTL : Duration := (24 * (60 * minute))%Z.
Definition MaxKeyLength : Z := 255.
Definition MinKeyLength : Z := 1.
Definition DefaultMaxBodySize : Z := 1048576.

Inductive Status := StatusInProgress | StatusSucceeded | StatusFailed.
#[export] Instance Status_eq_dec : EqDecision Status.
Proof. solve_decision. Defined.

Definition status_name (s : Status) : string :=
  match s with
  | StatusInProgress => "in_progress" | StatusSucceeded => "succeeded" | StatusFailed => "failed"
  end.
(** [Status(s)] when it is [Valid]. *)
Definition parse_status (s : string) : option Status :=
  find (λ st, bool_decide (status_name st = s)) [StatusInProgress; StatusSucceeded; StatusFailed].

Record Key := mkKey { Value : string; RequestHash : string }.
#[export] Instance Key_eq_dec : EqDecision Key.
Proof. solve_decision. Defined.

Inductive key_error := ErrInvalidKey (msg : string) | ErrBodyTooLarge | ErrReadBody (msg : string).
Definition key_error_text (e : key_error) : string :=
  match e with
  | ErrInvalidKey msg => "idempotency: invalid key: " +:+ msg
  | ErrBodyTooLarge => "idempotency: body exceeds max size"
  | ErrReadBody msg => "idempotency: read body: " +:+ msg
  end.

Fixpoint control_byte (i : Z) (v : string) : option (ascii * Z) :=
  match v with
  | EmptyString => None
  | String c v =>
      if (N_of_ascii c <? 32)%N || Ascii.eqb c "127" then Some (c, i) else control_byte (i + 1) v
  end.

Definition ValidateKeyValue (v : string) : option key_error :=
  let n := Z.of_nat (String.length v) in
  if (n <? MinKeyLength)%Z then Some (ErrInvalidKey "empty") else
  if (MaxKeyLength <? n)%Z
  then Some (ErrInvalidKey ("length " +:+ strconv.Itoa n +:+ " > " +:+ strconv.Itoa MaxKeyLength)) else
  if negb (bool_decide (strings.TrimSpace v = v)) then Some (ErrInvalidKey "surrounding whitespace") else
  match control_byte 0 v with
  | Some (c, i) =>
      Some (ErrInvalidKey ("control byte 0x" +:+ hex.EncodeToString (String c "") +:+
                           " at offset " +:+ strconv.Itoa i))
  | None => None
  end.

(** A request as the middleware sees it: [None] for a nil body, [Err] for a body
    whose reading fails. *)
Record ApiRequest := mkApiRequest {
  rq_Method : string; rq_URI : string; rq_Key : string; rq_Body : option (result string string) }.

Definition readAndReplaceBody (r : ApiRequest) (maxBodySize : Z) : result key_error string :=
  match rq_Body r with
  | None => Ok ""
  | Some (Err e) => Err (ErrReadBody e)
  | Some (Ok b) => if (maxBodySize <? Z.of_nat (String.length b))%Z then Err ErrBodyTooLarge else Ok b
  end.

Definition newline : string := String "010" "".

(** ** Records of a finished request (store.go) *)

Record Result := mkResult { Code : Z; Body : string }.
Definition no_result : Result := mkResult 0 "".

Inductive ClaimOutcome := ClaimNew | ClaimReplay | ClaimMismatch | ClaimPending.
Inductive store_error := ErrNotFound | ErrKey (e : key_error) | ErrBackend (why : string).

Definition redisKey (value : string) : string := "idempotency:" +:+ value.

(** The text up to the first [sep] and after it. *)
Fixpoint cut (sep : ascii) (s : string) : option (string * string) :=
  match s with
  | EmptyString => None
  | String c s =>
      if Ascii.eqb c sep then Some ("", s)
      else match cut sep s with Some (a, b) => Some (String c a, b) | None => None end
  end.

Definition payload (hash st : string) (code : Z) (body : string) : string :=
  hash +:+ "|" +:+ st +:+ "|" +:+ strconv.Itoa code +:+ "|" +:+ body.

Definition splitFour (raw : string) : option (string * string * string * string) :=
  x ← cut "|" raw; y ← cut "|" x.2; z ← cut "|" y.2; Some (x.1, y.1, z.1, z.2).

(** What the claim script replies. *)
Record claim_reply := mkReply { cr_outcome : Z; cr_status : string; cr_code : Z; cr_body : string }.

Section script.
Context {R : Type} `{Redis R} (tonumber : string → option Z).

(** The end of [claimScript], on an entry that is there. [None] is a script
    error: with fewer than two separators Lua adds 1 to nil. *)
Definition claim_existing (r : R) (now : Z) (key hash existing : string) : R * option claim_reply :=
  match cut "|" existing with
  | None => (r, None)
  | Some (existingHash, rest) =>
      match cut "|" rest with
      | None => (r, None)
      | Some (existingStatus, rest) =>
          match cut "|" rest with
          | None => (DEL r now key, Some (mkReply 0 "" 0 ""))
          | Some (existingCode, existingBody) =>
              let code := default 0%Z (tonumber existingCode) in
              (r, Some
                (if negb (bool_decide (existingHash = hash)) then mkReply 3 existingStatus code existingBody
                 else if bool_decide (existingStatus = "in_progress") then mkReply 1 existingStatus 0 ""
                 else mkReply 2 existingStatus code existingBody))
          end
      end
  end.

Definition claimScript (r : R) (now : Z) (key hash : string) (ttl : Z) : R * option claim_reply :=
  match GET r now key with
  | Some existing => claim_existing r now key hash existing
  | None =>
      let '(r, ok) := SETNX r now key (hash +:+ "|in_progress|0|") ttl in
      if ok : bool then (r, Some (mkReply 0 "in_progress" 0 ""))
      else match GET r now key with
           | None => (r, Some (mkReply 1 "in_progress" 0 ""))
           | Some existing => claim_existing r now key hash existing
           end
  end.
End script.

(** The JSONB column: [wrapBody] keeps the raw bytes, and the document too when
    they are one; [SText] is a row written otherwise. *)
Inductive stored := SNull | SWrapped (raw : string) (doc : option string) | SText (text : string).

Definition wrapBody (body : string) : stored :=
  if decide (body = "") then SNull
  else SWrapped body (if json.Valid body then Some body else None).
Definition unwrapBody (s : stored) : string :=
  match s with SNull => "" | SWrapped raw _ => raw | SText t => t end.

(** A row of [idempotency_keys] (migration 000014). *)
Record row := mkRow {
  request_hash : string; row_status : Status; result_code : option Z; result_body : stored;
  created_at : Time; expires_at : Time }.

(** ** The handler behind the middleware *)

(** What it does with its ResponseWriter, and whether it returns or panics. *)
Inductive wop := OpHeader (k v : string) | OpStatus (status : Z) | OpWrite (s : string).
Inductive handled := Returned (ops : list wop) | Panicked (ops : list wop).

(** ** Commands *)

Inductive icmd : Type → Type :=
| CNow : icmd Time
| CClaim (key hash : string) (ttlSec : Z) : icmd (option claim_reply)
| CSet (key value : string) (ttl : Duration) : icmd bool
| CGet (key : string) : icmd (option (option string))
| CInsert (key hash : string) (created expires : Time) : icmd (option bool)
| CSelect (key : string) : icmd (option (option row))
| CUpdate (key : string) (st : Status) (code : Z) (body : stored) (expires : Time) : icmd bool
| CDeleteExpired (now : Time) : icmd (option Z)
| CServe (k : Key) : icmd handled
| CPass : icmd handled.

(** [Store]: what the middleware needs of a tier. *)
Record Store := mkStore {
  Claim : Key → Duration → prog icmd (result store_error (ClaimOutcome * Result));
  Finish : Key → Status → Result → Duration → prog icmd (result store_error unit);
  Get : Key → prog icmd (result store_error (Status * Result));
}.

(** ** RedisStore *)

Definition redis_outcome (rep : claim_reply) (body : string) : result store_error (ClaimOutcome * Result) :=
  if (cr_outcome rep =? 0)%Z then Ok (ClaimNew, no_result)
  else if (cr_outcome rep =? 1)%Z then Ok (ClaimPending, no_result)
  else if (cr_outcome rep =? 2)%Z then Ok (ClaimReplay, mkResult (cr_code rep) body)
  else if (cr_outcome rep =? 3)%Z then Ok (ClaimMismatch, no_result)
  else Err (ErrBackend "unknown outcome").

Definition redis_Claim (k : Key) (ttl : Duration) : prog icmd (result store_error (ClaimOutcome * Result)) :=
  match ValidateKeyValue (Value k) with
  | Some e => Ret (Err (ErrKey e))
  | None =>
      if decide (RequestHash k = "") then Ret (Err (ErrBackend "empty request hash")) else
      let ttlSec := Z.quot ttl second in
      let ttlSec := if (ttlSec <? 1)%Z then 1%Z else ttlSec in
      res <- CClaim (redisKey (Value k)) (hex.EncodeToString (RequestHash k)) ttlSec ;;
      Ret (match res with
           | None => Err (ErrBackend "redis claim")
           | Some rep =>
               if decide (cr_body rep = "") then redis_outcome rep ""
               else match hex.DecodeString (cr_body rep) with
                    | None => Ok (ClaimNew, no_result)
                    | Some body => redis_outcome rep body
                    end
           end)
  end.

Definition redis_Finish (k : Key) (st : Status) (res : Result) (ttl : Duration)
    : prog icmd (result store_error unit) :=
  if decide (st = StatusInProgress) then Ret (Err (ErrBackend "Finish requires terminal status")) else
  ok <- CSet (redisKey (Value k))
         (payload (hex.EncodeToString (RequestHash k)) (status_name st) (Code res)
            (hex.EncodeToString (Body res))) ttl ;;
  Ret (if ok : bool then Ok () else Err (ErrBackend "redis finish")).

(** Digits without an overflow check. *)
Fixpoint parse_code (acc : Z) (s : string) : option Z :=
  match s with
  | EmptyString => Some acc
  | String c s =>
      if is_digit c then parse_code (wrap64 (acc * 10 + (Z.of_N (N_of_ascii c) - 48))) s else None
  end.

Definition parseRedisPayload (raw : string) : result store_error (Status * Result) :=
  match splitFour raw with
  | None => Err (ErrBackend "corrupt redis payload")
  | Some (_, st, code, body) =>
      match parse_status st with
      | None => Err (ErrBackend "unknown status")
      | Some StatusInProgress => Err ErrNotFound
      | Some st =>
          match parse_code 0 code with
          | None => Err (ErrBackend "bad code")
          | Some code =>
              if decide (body = "") then Ok (st, mkResult code "")
              else match hex.DecodeString body with
                   | None => Err (ErrBackend "bad body hex")
                   | Some b => Ok (st, mkResult code b)
                   end
          end
      end
  end.

Definition redis_Get (k : Key) : prog icmd (result store_error (Status * Result)) :=
  raw <- CGet (redisKey (Value k)) ;;
  Ret (match raw with
       | None => Err (ErrBackend "redis get")
       | Some None => Err ErrNotFound
       | Some (Some raw) => parseRedisPayload raw
       end).

Definition RedisStore : Store := mkStore redis_Claim redis_Finish redis_Get.

(** ** PostgresStore *)

Definition code_of (r : row) : Z := default 0%Z (result_code r).

Definition pg_Claim (k : Key) (ttl : Duration) : prog icmd (result store_error (ClaimOutcome * Result)) :=
  match ValidateKeyValue (Value k) with
  | Some e => Ret (Err (ErrKey e))
  | None =>
      if decide (RequestHash k = "") then Ret (Err (ErrBackend "empty request hash")) else
      now <- CNow ;;
      inserted <- CInsert (Value k) (RequestHash k) now (now + ttl)%Z ;;
      match inserted with
      | None => Ret (Err (ErrBackend "pg claim insert"))
      | Some true => Ret (Ok (ClaimNew, no_result))
      | Some false =>
          existing <- CSelect (Value k) ;;
          Ret (match existing with
               | None => Err (ErrBackend "pg claim select")
               | Some None => Ok (ClaimNew, no_result)
               | Some (Some r) =>
                   if negb (time_after (expires_at r) now) then Ok (ClaimNew, no_result)
                   else if negb (bool_decide (request_hash r = RequestHash k))
                   then Ok (ClaimMismatch, no_result)
                   else match row_status r with
                        | StatusInProgress => Ok (ClaimPending, no_result)
                        | _ => Ok (ClaimReplay, mkResult (code_of r) (unwrapBody (result_body r)))
                        end
               end)
      end
  end.

Definition pg_Finish (k : Key) (st : Status) (res : Result) (ttl : Duration)
    : prog icmd (result store_error unit) :=
  if decide (st = StatusInProgress) then Ret (Err (ErrBackend "Finish requires terminal status")) else
  now <- CNow ;;
  ok <- CUpdate (Value k) st (Code res) (wrapBody (Body res)) (now + ttl)%Z ;;
  Ret (if ok : bool then Ok () else Err (ErrBackend "pg finish")).

Definition pg_Get (k : Key) : prog icmd (result store_error (Status * Result)) :=
  r <- CSelect (Value k) ;;
  match r with
  | None => Ret (Err (ErrBackend "pg get"))
  | Some None => Ret (Err ErrNotFound)
  | Some (Some r) =>
      now <- CNow ;;
      Ret (if negb (time_after (expires_at r) now) then Err ErrNotFound
           else match row_status r with
                | StatusInProgress => Err ErrNotFound
                | st => Ok (st, mkResult (code_of r) (unwrapBody (result_body r)))
                end)
  end.

Definition PostgresStore : Store := mkStore pg_Claim pg_Finish pg_Get.

Definition Prune : prog icmd (result store_error Z) :=
  now <- CNow ;;
  n <- CDeleteExpired now ;;
  Ret (match n with Some n => Ok n | None => Err (ErrBackend "pg prune") end).

(** ** TieredStore; a tier may be nil *)

Section tiered.
Context (tier_redis tier_pg : option Store).

Definition pg_or_none (k : Key) (ttl : Duration) : prog icmd (result store_error (ClaimOutcome * Result)) :=
  match tier_pg with
  | None => Ret (Err (ErrBackend "no store available"))
  | Some pg => Claim pg k ttl
  end.

Definition tiered_Claim (k : Key) (ttl : Duration) : prog icmd (result store_error (ClaimOutcome * Result)) :=
  match tier_redis with
  | None => pg_or_none k ttl
  | Some redis =>
      run! r := Claim redis k ttl in
      match r with
      | Err _ => pg_or_none k ttl
      | Ok (out, res) =>
          match out, tier_pg with
          | ClaimNew, Some pg =>
              run! p := Claim pg k ttl in
              Ret (match p with
                   | Err e => Err e
                   | Ok (ClaimNew, _) => Ok (out, res)
                   | Ok pr => Ok pr
                   end)
          | _, _ => Ret (Ok (out, res))
          end
      end
  end.

Definition tiered_Finish (k : Key) (st : Status) (res : Result) (ttl : Duration)
    : prog icmd (result store_error unit) :=
  let on_redis := match tier_redis with
    | None => Ret (Ok ())
    | Some redis => run! _ := Finish redis k st res ttl in Ret (Ok ())
    end in
  match tier_pg with
  | None => on_redis
  | Some pg =>
      run! r := Finish pg k st res ttl in
      match r with Err e => Ret (Err e) | Ok _ => on_redis end
  end.

Definition tiered_Get (k : Key) : prog icmd (result store_error (Status * Result)) :=
  let on_pg := match tier_pg with None => Ret (Err ErrNotFound) | Some pg => Get pg k end in
  match tier_redis with
  | None => on_pg
  | Some redis =>
      run! r := Get redis k in
      match r with Ok x => Ret (Ok x) | Err _ => on_pg end
  end.

Definition TieredStore : Store := mkStore tiered_Claim tiered_Finish tiered_Get.
End tiered.

(** ** The middleware (middleware.go) *)

(** [captureWriter]: the client's writer, and what is kept of the response. A
    status outside 100..999 makes net/http panic. *)
Record captureWriter := mkCapture { under : Writer; status : Z; captured : string; wroteHeader : bool }.

Definition capture_WriteHeader (z : Z) (c : captureWriter) : option captureWriter :=
  if wroteHeader c then Some c
  else if (100 <=? z)%Z && (z <=? 999)%Z
  then Some (mkCapture (WriteHeader z (under c)) z (captured c) true) else None.

Definition capture_Write (s : string) (c : captureWriter) : option captureWriter :=
  c ← capture_WriteHeader 200 c;
  Some (mkCapture (WriteBody s (under c)) (status c) (captured c +:+ s) (wroteHeader c)).

Definition capture_op (c : captureWriter) (op : wop) : option captureWriter :=
  match op with
  | OpHeader k v => Some (mkCapture (Set_ k v (under c)) (status c) (captured c) (wroteHeader c))
  | OpStatus z => capture_WriteHeader z c
  | OpWrite s => capture_Write s c
  end.

Definition capture (w : Writer) (ops : list wop) : option captureWriter :=
  foldl (λ c op, c ← c; capture_op c op) (Some (mkCapture w 200 "" false)) ops.

(** The handler on the client's own writer. *)
Definition raw_op (w : Writer) (op : wop) : option Writer :=
  match op with
  | OpHeader k v => Some (Set_ k v w)
  | OpStatus z => match wire w with
                  | Some _ => Some w
                  | None => if (100 <=? z)%Z && (z <=? 999)%Z then Some (WriteHeader z w) else None
                  end
  | OpWrite s => Some (WriteBody s w)
  end.
Definition raw (w : Writer) (ops : list wop) : option Writer :=
  foldl (λ w op, w ← w; raw_op w op) (Some w) ops.

Definition final_status (code : Z) : Status :=
  if ((code <? 200) || (300 <=? code))%Z then StatusFailed else StatusSucceeded.
Definition result_of (c : captureWriter) : Result := mkResult (status c) (captured c).

(** What becomes of a request: a response, or a panic that net/http recovers. *)
Inductive reply := Answered (w : Writer) | Aborted.

Definition error_json (errCode msg : string) : string :=
  "{" +:+ json.Quote "error_code" +:+ ":" +:+ json.Quote errCode +:+ "," +:+
  json.Quote "message" +:+ ":" +:+ json.Quote msg +:+ "}".

Definition writeError (w : Writer) (code : Z) (errCode msg : string) : Writer :=
  WriteBody (error_json errCode msg)
    (WriteHeader code (Set_ "Content-Type" "application/json; charset=utf-8" w)).

Definition rejectInvalid (w : Writer) (e : key_error) : Writer :=
  match e with
  | ErrBodyTooLarge => writeError w 413 "idempotency_body_too_large"
      "request body exceeds the idempotency buffering limit"
  | e => writeError w 400 "idempotency_key_invalid" (key_error_text e)
  end.
Definition rejectMismatch (w : Writer) : Writer :=
  writeError w 422 "idempotency_key_reused"
    "the Idempotency-Key was previously used for a different request".
Definition rejectPending (w : Writer) : Writer :=
  writeError (Set_ "Retry-After" "1" w) 409 "idempotency_key_pending"
    "a request with this Idempotency-Key is still in progress; retry shortly".
Definition rejectBackend (w : Writer) : Writer :=
  writeError w 503 "idempotency_backend_unavailable" "idempotency store is temporarily unavailable".

Definition replay (w : Writer) (res : Result) : Writer :=
  let w := Set_ "Idempotency-Replayed" "true" w in
  let w := if decide (header_get "Content-Type" (hdr w) = "")
           then Set_ "Content-Type" "application/json" w else w in
  let code := if (Code res =? 0)%Z then 200%Z else Code res in
  let w := WriteHeader code w in
  if decide (Body res = "") then w else WriteBody (Body res) w.

Record Config := mkConfig { cfg_TTL : Duration; cfg_MaxBodySize : Z; cfg_Methods : list string }.
Record Middleware := mkMiddleware { mw_ttl : Duration; maxBody : Z; methods : gset string }.

Definition New (cfg : Config) : Middleware :=
  mkMiddleware
    (if (cfg_TTL cfg <=? 0)%Z then DefaultTTL else cfg_TTL cfg)
    (if (cfg_MaxBodySize cfg <=? 0)%Z then DefaultMaxBodySize else cfg_MaxBodySize cfg)
    (list_to_set (match cfg_Methods cfg with [] => ["POST"; "PUT"; "PATCH"; "DELETE"] | l => l end)).

Definition methodApplies (m : Middleware) (method : string) : bool :=
  bool_decide ("*" ∈ methods m) || bool_decide (method ∈ methods m).

Section middleware.
Context (sha256 : string → string).

Definition HashRequest (method path body : string) : string :=
  sha256 (method +:+ newline +:+ path +:+ newline +:+ body).

(** [None] without the header. *)
Definition NewKeyFromRequest (r : ApiRequest) (maxBodySize : Z) : option (result key_error Key) :=
  if decide (rq_Key r = "") then None else
  Some (match ValidateKeyValue (rq_Key r) with
        | Some e => Err e
        | None =>
            let? body := readAndReplaceBody r maxBodySize in
            Ok (mkKey (rq_Key r) (HashRequest (rq_Method r) (rq_URI r) body))
        end).

Context (store : Store) (m : Middleware).

(** [dispatch]; the answer of [Finish] is only logged. *)
Definition dispatch (w : Writer) (k : Key) : prog icmd reply :=
  h <- CServe k ;;
  match h with
  | Panicked _ => Ret Aborted
  | Returned ops =>
      match capture w ops with
      | None => Ret Aborted
      | Some cw =>
          run! _ := Finish store k (final_status (status cw)) (result_of cw) (mw_ttl m) in
          Ret (Answered (under cw))
      end
  end.

Definition pass_through (w : Writer) : prog icmd reply :=
  h <- CPass ;;
  Ret (match h with
       | Panicked _ => Aborted
       | Returned ops => match raw w ops with Some w => Answered w | None => Aborted end
       end).

Definition Wrap (w : Writer) (r : ApiRequest) : prog icmd reply :=
  if negb (methodApplies m (rq_Method r)) then pass_through w else
  match NewKeyFromRequest r (maxBody m) with
  | None => pass_through w
  | Some (Err e) => Ret (Answered (rejectInvalid w e))
  | Some (Ok k) =>
      run! c := Claim store k (mw_ttl m) in
      match c with
      | Err _ => Ret (Answered (rejectBackend w))
      | Ok (ClaimReplay, res) => Ret (Answered (replay w res))
      | Ok (ClaimMismatch, _) => Ret (Answered (rejectMismatch w))
      | Ok (ClaimPending, _) => Ret (Answered (rejectPending w))
      | Ok (ClaimNew, _) => dispatch w k
      end
  end.
End middleware.

(** ** Concurrent requests *)

Section semantics.
Context {R : Type} `{Redis R} (tonumber : string → option Z).

(** What the outside decides at one command: the clocks of Redis and of the
    process, what becomes of the command, and what the handler does. *)
Record env := mkEnv { e_redis : Z; e_now : Time; e_net : outcome; e_handler : handled }.

(** [served] is the log of the protected runs of the handler. *)
Record world := mkWorld {
  w_redis : R; table : gmap string row; served : list (Key * handled) }.

Definition on_redis {X} (e : env) (w : world) (act : R → R * X) (fail : X) : world * X :=
  match e_net e with
  | Refused => (w, fail)
  | ReplyLost => (mkWorld (act (w_redis w)).1 (table w) (served w), fail)
  | Served => (mkWorld (act (w_redis w)).1 (table w) (served w), (act (w_redis w)).2)
  end.

Definition on_table {X} (e : env) (w : world) (act : gmap string row → gmap string row * X) (fail : X)
    : world * X :=
  match e_net e with
  | Refused => (w, fail)
  | ReplyLost => (mkWorld (w_redis w) (act (table w)).1 (served w), fail)
  | Served => (mkWorld (w_redis w) (act (table w)).1 (served w), (act (table w)).2)
  end.

Definition expired (now : Time) (r : row) : bool := time_before (expires_at r) now.
Definition prune_table (now : Time) (t : gmap string row) : gmap string row :=
  filter (λ kv, expired now kv.2 = false) t.

Definition finish_row (st : Status) (code : Z) (body : stored) (expires : Time) (r : row) : row :=
  if decide (row_status r = StatusInProgress)
  then mkRow (request_hash r) st (Some code) body (created_at r) expires else r.

Definition insert_row (key hash : string) (created expires : Time) (t : gmap string row)
    : gmap string row * option bool :=
  match t !! key with
  | Some _ => (t, Some false)
  | None => (<[key := mkRow hash StatusInProgress None SNull created expires]> t, Some true)
  end.

Definition exec (X : Type) (e : env) (w : world) (c : icmd X) : world * X :=
  match c in icmd X return world * X with
  | CNow => (w, e_now e)
  | CClaim key hash ttl => on_redis e w (λ r, claimScript tonumber r (e_redis e) key hash ttl) None
  | CSet key value ttl => on_redis e w (λ r, (SETPX r (e_redis e) key value (formatMs ttl), true)) false
  | CGet key => on_redis e w (λ r, (r, Some (GET r (e_redis e) key))) None
  | CInsert key hash created expires => on_table e w (insert_row key hash created expires) None
  | CSelect key => on_table e w (λ t, (t, Some (t !! key))) None
  | CUpdate key st code body expires =>
      on_table e w (λ t, (alter (finish_row st code body expires) key t, true)) false
  | CDeleteExpired now =>
      on_table e w (λ t, (prune_table now t,
        Some (Z.of_nat (size t) - Z.of_nat (size (prune_table now t)))%Z)) None
  | CServe k => (mkWorld (w_redis w) (table w) (served w ++ [(k, e_handler e)]), e_handler e)
  | CPass => (w, e_handler e)
  end.
End semantics.

(** Requests in progress, with the request each serves, and the answers given.
    The cleanup job and losses or changes in Redis happen in between. *)
Section system.
Context {R : Type} `{Redis R} (tonumber : string → option Z).
Context (sha256 : string → string) (store : Store) (m : Middleware).

Record system := mkSystem {
  sw : world (R:=R);
  calls : gmap nat (ApiRequest * prog icmd reply);
  replies : list (ApiRequest * reply);
}.

Inductive ievent :=
| EvRequest (t : nat) (r : ApiRequest)
| EvStep (t : nat) (e : env)
| EvReply (t : nat)
| EvPrune (now : Time)
| EvRedis (r : R).

Definition fresh_writer : Writer := mkWriter ∅ None "".

Definition istep (s : system) (ev : ievent) : option system :=
  match ev with
  | EvRequest t r =>
      match calls s !! t with
      | Some _ => None
      | None => Some (mkSystem (sw s) (<[t := (r, Wrap sha256 store m fresh_writer r)]> (calls s)) (replies s))
      end
  | EvStep t e =>
      match calls s !! t with
      | Some (r, Call c k) =>
          let '(w, x) := exec tonumber _ e (sw s) c in
          Some (mkSystem w (<[t := (r, k x)]> (calls s)) (replies s))
      | _ => None
      end
  | EvReply t =>
      match calls s !! t with
      | Some (r, Ret a) => Some (mkSystem (sw s) (delete t (calls s)) (replies s ++ [(r, a)]))
      | _ => None
      end
  | EvPrune now =>
      Some (mkSystem (mkWorld (w_redis (sw s)) (prune_table now (table (sw s))) (served (sw s)))
        (calls s) (replies s))
  | EvRedis r => Some (mkSystem (mkWorld r (table (sw s)) (served (sw s))) (calls s) (replies s))
  end.

Fixpoint irun (s : system) (evs : list ievent) : option system :=
  match evs with
  | [] => Some s
  | ev :: evs => s ← istep s ev; irun s evs
  end.
End system.
