(* ===== verification/IdempotencyProps.v ===== *)
(** * One run per idempotency key

    Any number of concurrent requests, whatever fails: within one TTL the handler
    runs at most once for a key, and every answer that is not a rejection carries
    the status and body of that run. The proofs follow what a program may still do
    in a weakest precondition over the growing log of runs. *)
From stdpp Require Import functions.
From S2P Require Import Prelude GoStrings Prog Http Hex Json Redis Idempotency.
From Stdlib Require Import Ascii.

(** ** Payloads *)

Definition not_bar (c : ascii) : bool := negb (Ascii.eqb c "|").

Lemma cut_app a b : all_chars not_bar a = true → cut "|" (a +:+ "|" +:+ b) = Some (a, b).
Proof.
  induction a as [|c a IH]; [done|]. simpl. intros [Hc Ha]%andb_true_iff.
  unfold not_bar in Hc. destruct (Ascii.eqb c "|"); [done|].
  change (String "|" b) with ("|" +:+ b). by rewrite IH.
Qed.

Lemma hex_no_bar s : all_chars not_bar (hex.EncodeToString s) = true.
Proof.
  assert (∀ n, (n < 16)%N → not_bar (hex.digit_of n) = true) as Hd.
  { intros n Hn. pose proof (hex.value_digit n Hn) as Hv. unfold not_bar.
    destruct (Ascii.eqb_spec (hex.digit_of n) "|") as [E|]; [|done].
    rewrite E in Hv. vm_compute in Hv. discriminate Hv. }
  induction s as [|c s IH]; [done|]. cbn [hex.EncodeToString all_chars].
  pose proof (N_ascii_bounded c) as Hc.
  rewrite IH, !Hd by first [apply N.Div0.div_lt_upper_bound; lia|apply N.mod_lt; lia]. done.
Qed.

Lemma Itoa_no_bar z : (0 ≤ z)%Z → all_chars not_bar (strconv.Itoa z) = true.
Proof.
  intros Hz. apply (all_chars_impl is_digit).
  - intros c Hc. unfold not_bar. destruct (Ascii.eqb_spec c "|") as [->|]; [|done]. vm_compute in Hc. done.
  - by apply Itoa_digits.
Qed.

Lemma status_name_no_bar st : all_chars not_bar (status_name st) = true.
Proof. by destruct st. Qed.

Lemma splitFour_payload hash st code body :
  (0 ≤ code)%Z →
  splitFour (payload (hex.EncodeToString hash) (status_name st) code body) =
    Some (hex.EncodeToString hash, status_name st, strconv.Itoa code, body).
Proof.
  intros Hc. unfold splitFour, payload. rewrite cut_app by apply hex_no_bar. simpl.
  rewrite cut_app by apply status_name_no_bar. simpl. by rewrite cut_app by by apply Itoa_no_bar.
Qed.

(** ** What the client gets *)

Definition sent (w : Writer) : Z * string := (default 200%Z (fst <$> wire w), body w).

(** What the capturing writer knows agrees with what it passed on. *)
Definition faithful (c : captureWriter) : Prop :=
  (100 ≤ status c ≤ 999)%Z ∧ sent (under c) = (status c, captured c) ∧
  (wroteHeader c = true ↔ is_Some (wire (under c))).

Lemma faithful_WriteHeader z c c' : capture_WriteHeader z c = Some c' → faithful c → faithful c'.
Proof.
  unfold capture_WriteHeader. intros Hc Hf.
  destruct (wroteHeader c) eqn:Hwc; [by simplify_eq|]. destruct Hf as (Hs & Hsent & Hw).
  destruct (wire (under c)) eqn:E.
  { rewrite Hwc in Hw. by specialize (proj2 Hw (ex_intro _ _ eq_refl)). }
  destruct ((100 <=? z) && (z <=? 999))%Z eqn:Hz; [|done]. simplify_eq. unfold faithful, sent in *.
  simpl. rewrite E in *. simpl in *. injection Hsent as Hst Hb. rewrite Hb. split_and!; [lia..|done|].
  split; eauto.
Qed.

Lemma faithful_op c op c' : capture_op c op = Some c' → faithful c → faithful c'.
Proof.
  destruct op as [k v|z|b]; simpl.
  - intros [= <-] (Hs & Hsent & Hw). unfold faithful, sent in *. simpl. done.
  - apply faithful_WriteHeader.
  - unfold capture_Write. intros Hc Hf. apply bind_Some in Hc as (d & Hd & [= <-]).
    pose proof (faithful_WriteHeader _ _ _ Hd Hf) as (Hs & Hsent & Hw).
    assert (wroteHeader d = true) as Hwd.
    { unfold capture_WriteHeader in Hd. destruct (wroteHeader c) eqn:E; [by simplify_eq|].
      simpl in Hd. by simplify_eq. }
    destruct (proj1 Hw Hwd) as [x Hx]. unfold faithful, sent in *. simpl. rewrite Hx in *. simpl in *.
    injection Hsent as Hst Hb. rewrite Hb. split_and!; [lia..|by rewrite Hst|split; eauto].
Qed.

Lemma capture_faithful ops cw : capture fresh_writer ops = Some cw → faithful cw.
Proof.
  unfold capture. revert cw.
  induction ops as [|op ops IH] using rev_ind; intros cw.
  - intros [= <-]. unfold faithful, sent. simpl. split_and!; [lia|lia|done|]. split; [done|by intros [? ?]].
  - rewrite foldl_app. simpl. intros Hc. apply bind_Some in Hc as (d & Hd & Hop).
    by eapply faithful_op, IH.
Qed.

Lemma sent_replay res : (100 ≤ Code res)%Z → sent (replay fresh_writer res) = (Code res, Body res).
Proof.
  intros Hc. unfold replay, sent. simpl. rewrite (proj2 (Z.eqb_neq _ _)) by lia.
  case_decide as Hb; simpl; [by rewrite Hb|]. done.
Qed.

(** ** What a program may still do

    [lo] and [hi] bound the clock readings, [honest] says that Redis only loses
    entries. The log of runs only grows, so a program is judged for every later
    log. *)
Abbreviation log := (list (Key * handled)) (only parsing).

(** The key was run, and this is what was kept of it. *)
Definition recorded (L : log) (k : Key) (res : Result) : Prop :=
  ∃ ops cw, (k, Returned ops) ∈ L ∧ capture fresh_writer ops = Some cw ∧ result_of cw = res.

Inductive phase := Idle | Lost (key : string) | Claimed (k : Key).

Section wp.
Context (lo hi : Time) (honest : Prop).

Definition row_ok (L : log) (key : string) (r : row) : Prop :=
  (hi ≤ expires_at r)%Z ∧
  (row_status r ≠ StatusInProgress →
   ∃ res, recorded L (mkKey key (request_hash r)) res ∧
     result_code r = Some (Code res) ∧ unwrapBody (result_body r) = Body res).

Definition cmd_ok (L : log) (ph : phase) {X} (c : icmd X) : Prop :=
  match c with
  | CClaim key hash ttl => (∃ k, key = redisKey (Value k) ∧ hash = hex.EncodeToString (RequestHash k)) ∧ (0 < ttl)%Z
  | CSet key value ttl =>
      (0 < ttl)%Z ∧ ∃ k res st, recorded L k res ∧ st ≠ StatusInProgress ∧ key = redisKey (Value k) ∧
        value = payload (hex.EncodeToString (RequestHash k)) (status_name st) (Code res)
                  (hex.EncodeToString (Body res))
  | CInsert _ _ _ expires => (hi ≤ expires)%Z ∧ ph = Idle
  | CUpdate key st code body expires =>
      (hi ≤ expires)%Z ∧ ∃ hash res, recorded L (mkKey key hash) res ∧ code = Code res ∧
        unwrapBody body = Body res
  | CDeleteExpired _ => False
  | CServe k => ph = Claimed k
  | _ => True
  end.

Definition answer_ok (L : log) (ph : phase) {X} (c : icmd X) : X → Prop :=
  match c in icmd X return X → Prop with
  | CNow => λ now, (lo ≤ now < hi)%Z
  | CClaim key hash _ => λ rep, honest → ∀ x, rep = Some x → cr_outcome x = 2%Z →
      ∀ k, key = redisKey (Value k) → hash = hex.EncodeToString (RequestHash k) →
      ∃ res, recorded L k res ∧ cr_code x = Code res ∧ cr_body x = hex.EncodeToString (Body res)
  | CSelect key => λ x,
      match x with
      | None => True
      | Some None => ph ≠ Lost key
      | Some (Some r) => row_ok L key r
      end
  | CServe k => λ h, (k, h) ∈ L
  | _ => λ _, True
  end.

Definition next (ph : phase) {X} (c : icmd X) : X → phase :=
  match c in icmd X return X → phase with
  | CInsert key hash _ _ => λ x,
      match x with Some true => Claimed (mkKey key hash) | Some false => Lost key | None => ph end
  | CServe _ => λ _, Idle
  | _ => λ _, ph
  end.

Fixpoint wp {A} (L : log) (ph : phase) (p : prog icmd A) (Q : log → phase → A → Prop) : Prop :=
  match p with
  | Ret a => Q L ph a
  | Call c k =>
      cmd_ok L ph c ∧ ∀ L' x, L ⊆ L' → answer_ok L' ph c x → wp L' (next ph c x) (k x) Q
  end.

Lemma recorded_mono L L' k res : L ⊆ L' → recorded L k res → recorded L' k res.
Proof. intros HL (ops & cw & Hin & ?). exists ops, cw. auto. Qed.

Lemma row_ok_mono L L' key r : L ⊆ L' → row_ok L key r → row_ok L' key r.
Proof.
  intros HL [? Hr]. split; [done|]. intros Hst. destruct (Hr Hst) as (res & ? & ?).
  exists res. split; [by eapply recorded_mono|done].
Qed.

Lemma cmd_ok_mono L L' ph {X} (c : icmd X) : L ⊆ L' → cmd_ok L ph c → cmd_ok L' ph c.
Proof.
  intros HL. destruct c; simpl; try done.
  - intros [? (k & res & st & ? & ?)]. split; [done|]. exists k, res, st.
    split; [by eapply recorded_mono|done].
  - intros [? (hash & res & ? & ?)]. split; [done|]. exists hash, res.
    split; [by eapply recorded_mono|done].
Qed.

Lemma wpi_mono {A} L L' ph (p : prog icmd A) (P Q : log → phase → A → Prop) :
  L ⊆ L' → (∀ L1 L2 ph' a, L ⊆ L1 → L1 ⊆ L2 → P L1 ph' a → Q L2 ph' a) →
  wp L ph p P → wp L' ph p Q.
Proof.
  revert L L' ph. induction p as [a|X c k IH]; simpl; intros L L' ph HL HPQ.
  - by apply HPQ.
  - intros [Hc Hk]. split; [by eapply cmd_ok_mono|]. intros L'' x HL'' Ha.
    assert (L ⊆ L'') as HLL by (by trans L').
    apply (IH x L'' L''); [done| |by apply Hk].
    intros L1 L2 ph' a HL1 HL2. apply HPQ; [by trans L''|done].
Qed.

Lemma wpi_bind {A B} L ph (p : prog icmd A) (f : A → prog icmd B) Q :
  wp L ph p (λ L' ph' a, wp L' ph' (f a) Q) → wp L ph (bind p f) Q.
Proof.
  revert L ph. induction p as [a|X c k IH]; simpl; intros L ph; [done|].
  intros [Hc Hk]. split; [done|]. intros L' x HL Ha. apply IH. by apply Hk.
Qed.

Lemma wp_impl {A} L ph (p : prog icmd A) (P Q : log → phase → A → Prop) :
  wp L ph p P → (∀ L' ph' a, L ⊆ L' → P L' ph' a → Q L' ph' a) → wp L ph p Q.
Proof.
  revert L ph. induction p as [a|X c k IH]; simpl; intros L ph Hp HPQ; [by apply HPQ|].
  destruct Hp as [Hc Hk]. split; [done|]. intros L' x HL Ha. apply IH; [by apply Hk|].
  intros L'' ph' a HL'. apply HPQ. by trans L'.
Qed.

(** ** What the tiers promise *)

Definition replayed (L : log) (k : Key) (r : result store_error (ClaimOutcome * Result)) : Prop :=
  match r with Ok (ClaimReplay, res) => honest → recorded L k res | _ => True end.

(** A tier that gives a key to one claimer only. *)
Class Durable (s : Store) (ttl : Duration) := {
  durable_Claim L k : wp L Idle (Claim s k ttl) (λ L' ph r,
    replayed L' k r ∧ match r with Ok (ClaimNew, _) => ph = Claimed k | _ => True end);
  durable_Finish L k res : recorded L k res →
    wp L Idle (Finish s k (final_status (Code res)) res ttl) (λ _ ph _, ph = Idle);
}.

(** A tier that may forget. *)
Class Cache (s : Store) (ttl : Duration) := {
  cache_Claim L k : wp L Idle (Claim s k ttl) (λ L' ph r, replayed L' k r ∧ ph = Idle);
  cache_Finish L k res : recorded L k res →
    wp L Idle (Finish s k (final_status (Code res)) res ttl) (λ _ ph _, ph = Idle);
}.

Context (ttl : Duration) (ttl_pos : (0 < ttl)%Z) (window : (hi ≤ lo + ttl)%Z).

Lemma final_status_done z : final_status z ≠ StatusInProgress.
Proof. unfold final_status. by case_match. Qed.

#[export] Instance Postgres_durable : Durable PostgresStore ttl.
Proof using ttl_pos window.
  split.
  - intros L k. simpl. unfold pg_Claim. destruct (ValidateKeyValue _); [done|]. case_decide; [done|].
    simpl. split; [done|]. intros L1 now HL1 [Hlo Hhi]. split; [split; [lia|done]|].
    intros L2 [[]|] HL2 _; simpl; [by destruct k| |done]. split; [done|].
    intros L3 [[r|]|] HL3; simpl; [|done..]. intros [Hexp Hr].
    unfold time_after. rewrite (proj2 (Z.ltb_lt _ _)) by lia. simpl. case_bool_decide as Hh; simpl; [|done].
    destruct (row_status r) eqn:Hst; simpl; [done| |];
      (destruct Hr as (res & Hrec & Hcode & Hbody); [done|]; split; [|done]; intros _;
       unfold code_of; rewrite Hcode, Hbody, Hh in *; destruct k, res; exact Hrec).
  - intros L k res Hrec. simpl. unfold pg_Finish. rewrite decide_False by apply final_status_done.
    simpl. split; [done|]. intros L1 now HL1 [Hlo Hhi]. split; [|by intros ? [] ? ?].
    split; [lia|]. exists (RequestHash k), res. split_and!; [destruct k; by eapply recorded_mono|done|].
    unfold wrapBody. by case_decide as E; [rewrite E|].
Qed.

Lemma hex_empty s : hex.EncodeToString s = "" → s = "".
Proof. by destruct s. Qed.

#[export] Instance Redis_cache : Cache RedisStore ttl.
Proof using ttl_pos.
  split.
  - intros L k. simpl. unfold redis_Claim. destruct (ValidateKeyValue _); [done|]. case_decide; [done|].
    simpl. split; [split; [by exists k|by case_match; lia]|].
    intros L1 [rep|] HL1 Ha; simpl; [|done]. split; [|done].
    unfold redis_outcome, replayed. simpl in Ha.
    assert (honest → cr_outcome rep = 2%Z → ∃ res, recorded L1 k res ∧ cr_code rep = Code res ∧
      cr_body rep = hex.EncodeToString (Body res)) as Hrep by (intros; by eapply Ha).
    case_decide as Hb; repeat case_match; simplify_eq; try done; intros Hon;
      destruct Hrep as ([code b] & Hrec & Hcode & Hbody); try (done || lia); simpl in *; subst.
    + rewrite Hbody in Hb. apply hex_empty in Hb. by subst.
    + rewrite Hbody, hex.hex_DecodeString in *. by simplify_eq.
  - intros L k res Hrec. simpl. unfold redis_Finish. rewrite decide_False by apply final_status_done.
    simpl. split; [|by intros ? [] ? ?]. split; [done|]. exists k, res, (final_status (Code res)).
    split_and!; [done|apply final_status_done|done..].
Qed.

#[export] Instance Tiered_durable redis pg :
  Durable pg ttl → (∀ s, redis = Some s → Cache s ttl) → Durable (TieredStore redis (Some pg)) ttl.
Proof.
  intros Hpg Hredis. split.
  - intros L k. simpl. unfold tiered_Claim. destruct redis as [s|]; [|apply durable_Claim].
    pose proof (Hredis s eq_refl). apply wpi_bind. eapply wp_impl; [apply cache_Claim|].
    intros L1 ph [[out res]|e] HL1 [Hr ->]; simpl in *; [|apply durable_Claim].
    destruct out; simpl; try done. apply wpi_bind. eapply wp_impl; [apply durable_Claim|].
    intros L2 ph [[out2 res2]|e] HL2 [Hr2 Hph]; simpl in *; [|done]. by destruct out2.
  - intros L k res Hrec. simpl. unfold tiered_Finish. apply wpi_bind.
    eapply wp_impl; [by apply durable_Finish|]. intros L1 ph [[]|e] HL1 ->; simpl; [|done].
    destruct redis as [s|]; [|done]. pose proof (Hredis s eq_refl). apply wpi_bind.
    eapply wp_impl; [apply cache_Finish; by eapply recorded_mono|]. done.
Qed.

(** ** A request *)

Context (sha256 : string → string) (m : Middleware).

(** The key of a request the middleware protects. *)
Definition protected (r : ApiRequest) : option Key :=
  if methodApplies m (rq_Method r) then
    match NewKeyFromRequest sha256 r (maxBody m) with Some (Ok k) => Some k | _ => None end
  else None.

Definition rejection (w : Writer) : Prop :=
  w = rejectMismatch fresh_writer ∨ w = rejectPending fresh_writer ∨ w = rejectBackend fresh_writer.

(** A protected request is rejected or gets the response of the run of its key. *)
Definition well_answered (L : log) (r : ApiRequest) (a : reply) : Prop :=
  honest → ∀ k w, protected r = Some k → a = Answered w →
    rejection w ∨ ∃ res, recorded L k res ∧ sent w = (Code res, Body res).

Lemma well_answered_mono L L' r a : L ⊆ L' → well_answered L r a → well_answered L' r a.
Proof.
  intros HL Ha Hon k w Hk Hw. destruct (Ha Hon k w Hk Hw) as [?|(res & ? & ?)]; [by left|].
  right. exists res. split; [by eapply recorded_mono|done].
Qed.

Lemma wp_Wrap store r L :
  Durable store (mw_ttl m) → wp L Idle (Wrap sha256 store m fresh_writer r) (λ L' _ a, well_answered L' r a).
Proof.
  intros Hs. unfold Wrap.
  destruct (methodApplies m (rq_Method r)) eqn:Hm; simpl;
    [|split; [done|]; intros ? ? ? ? ? k w Hk; unfold protected in Hk; by rewrite Hm in Hk].
  assert (∀ L a, (∀ k, NewKeyFromRequest sha256 r (maxBody m) ≠ Some (Ok k)) → well_answered L r a) as Hun.
  { intros L' a Hno Hon k w Hk. unfold protected in Hk. rewrite Hm in Hk.
    destruct (NewKeyFromRequest _ _ _) as [[k'|e]|]; [by destruct (Hno k')|done..]. }
  destruct (NewKeyFromRequest sha256 r (maxBody m)) as [[k|e]|] eqn:Hk; simpl;
    [|by apply Hun|split; [done|]; intros; by apply Hun].
  assert (protected r = Some k) as Hp by (unfold protected; by rewrite Hm, Hk).
  apply wpi_bind. eapply wp_impl; [apply durable_Claim|].
  intros L1 ph [[[] res]|e] HL1 [Hr Hph]; simpl;
    try (intros Hon k' w Hk' [= <-]; left; unfold rejection; by eauto).
  - subst ph. split; [done|]. intros L2 [ops|ops] HL2 Hin; simpl; [|by intros ? ? ? ?].
    destruct (capture fresh_writer ops) as [cw|] eqn:Hcw; simpl; [|by intros ? ? ? ?].
    assert (recorded L2 k (result_of cw)) as Hrec by (exists ops, cw; done).
    apply wpi_bind. eapply wp_impl; [apply (durable_Finish _ _ _ Hrec)|].
    intros L3 ph _ HL3 _ Hon k' w Hk' [= <-]. right. simplify_eq. exists (result_of cw).
    split; [by eapply recorded_mono|]. by destruct (capture_faithful _ _ Hcw) as (_ & ? & _).
  - intros Hon k' w Hk' [= <-]. right. simplify_eq. exists res. specialize (Hr Hon). split; [done|].
    destruct Hr as (ops & cw & _ & Hcw & <-). apply sent_replay.
    by destruct (capture_faithful _ _ Hcw) as ([? ?] & _).
Qed.
End wp.

(** ** Every reachable state *)

Section reachable.
Context {R : Type} `{RedisLaws R} (tonumber : string → option Z) (sha256 : string → string).
Context (tonumber_Itoa : ∀ z, (100 ≤ z ≤ 999)%Z → tonumber (strconv.Itoa z) = Some z).
Context (store : Store) (m : Middleware) (lo hi : Time) (honest : Prop).
Context `{!Durable lo hi honest store (mw_ttl m)}.

Abbreviation world := (world (R:=R)).
Abbreviation wp := (wp lo hi honest).
Abbreviation well_answered := (well_answered honest sha256 m).

Definition entry_ok (L : log) (kv : string) (e : option entry) : Prop :=
  match e with
  | None => True
  | Some (RSet _, _) => False
  | Some (RStr p, _) =>
      (∃ hash, p = hex.EncodeToString hash +:+ "|in_progress|0|") ∨
      ∃ hash res st, recorded L (mkKey kv hash) res ∧ st ≠ StatusInProgress ∧
        p = payload (hex.EncodeToString hash) (status_name st) (Code res) (hex.EncodeToString (Body res))
  end.

Definition redis_ok (L : log) (r : R) : Prop := honest → ∀ kv, entry_ok L kv (view r (redisKey kv)).

Lemma entry_ok_mono L L' kv e : L ⊆ L' → entry_ok L kv e → entry_ok L' kv e.
Proof.
  intros HL. destruct e as [[[p|] w]|]; simpl; try done. intros [?|(hash & res & st & ? & ?)]; [by left|].
  right. exists hash, res, st. split; [by eapply recorded_mono|done].
Qed.

Lemma redisKey_inj v v' : redisKey v = redisKey v' → v = v'.
Proof. apply (inj (String.append "idempotency:")). Qed.

Lemma recorded_code L k res : recorded L k res → (100 ≤ Code res ≤ 999)%Z.
Proof. intros (ops & cw & _ & Hcw & <-). by destruct (capture_faithful _ _ Hcw) as [? _]. Qed.

Definition reply_ok (L : log) (k : Key) (rep : claim_reply) : Prop :=
  cr_outcome rep = 2%Z →
  ∃ res, recorded L k res ∧ cr_code rep = Code res ∧ cr_body rep = hex.EncodeToString (Body res).

Lemma claim_existing_ok L r now k p w :
  view r (redisKey (Value k)) = Some (RStr p, w) → entry_ok L (Value k) (Some (RStr p, w)) →
  let out := claim_existing tonumber r now (redisKey (Value k)) (hex.EncodeToString (RequestHash k)) p in
  out.1 = r ∧ ∃ rep, out.2 = Some rep ∧ reply_ok L k rep.
Proof using tonumber_Itoa.
  intros Hv [[hash ->]|(hash & res & st & Hrec & Hst & ->)]; unfold claim_existing.
  - rewrite (cut_app _ "in_progress|0|") by apply hex_no_bar. simpl. split; [done|].
    eexists. split; [done|]. intros Ho. by repeat case_bool_decide.
  - assert (0 ≤ Code res)%Z as Hc by (apply recorded_code in Hrec; lia).
    unfold payload. rewrite cut_app by apply hex_no_bar. rewrite cut_app by apply status_name_no_bar.
    rewrite cut_app by by apply Itoa_no_bar. simpl. split; [done|]. eexists. split; [done|].
    rewrite tonumber_Itoa by by eapply recorded_code. simpl. intros Ho. exists res.
    case_bool_decide as Hh; simpl in Ho |- *; [|done]. case_bool_decide; simpl in Ho |- *; [done|].
    apply hex.EncodeToString_inj in Hh. subst. by destruct k.
Qed.

Lemma claimScript_ok L r now k secs :
  honest → redis_ok L r → (0 < secs)%Z →
  let out := claimScript tonumber r now (redisKey (Value k)) (hex.EncodeToString (RequestHash k)) secs in
  redis_ok L out.1 ∧ ∀ rep, out.2 = Some rep → reply_ok L k rep.
Proof using tonumber_Itoa.
  intros Hon Hr Hs. unfold claimScript. rewrite view_GET. pose proof (Hr Hon (Value k)) as He.
  destruct (live_at now (view r (redisKey (Value k)))) as [[[p|ms] w]|] eqn:E.
  - apply live_at_Some in E as Ev. rewrite Ev in He.
    destruct (claim_existing_ok L r now k p w Ev He) as (E1 & rep & E2 & Hrep). simpl.
    rewrite E1, E2. split; [done|]. by intros ? [= <-].
  - apply live_at_Some in E. by rewrite E in He.
  - pose proof (view_SETNX r now (redisKey (Value k))
      (hex.EncodeToString (RequestHash k) +:+ "|in_progress|0|") secs) as Hv.
    pose proof (SETNX_set r now (redisKey (Value k))
      (hex.EncodeToString (RequestHash k) +:+ "|in_progress|0|") secs) as Hset.
    rewrite E, bool_decide_true in Hset by done.
    destruct (SETNX r now _ _ secs) as [r' ok]. simpl in Hv, Hset. subst ok. simpl. split.
    + intros _ kv. rewrite Hv by done. case_decide as Hd; [|by apply Hr]. simpl. left. by eexists.
    + by intros ? [= <-].
Qed.

Lemma redis_ok_SET L r now k res st px :
  redis_ok L r → (0 < px)%Z → recorded L k res → st ≠ StatusInProgress →
  redis_ok L (SETPX r now (redisKey (Value k))
    (payload (hex.EncodeToString (RequestHash k)) (status_name st) (Code res)
       (hex.EncodeToString (Body res))) px).
Proof.
  intros Hr Hpx Hrec Hst Hon kv. destruct (decide (redisKey (Value k) = redisKey kv)) as [Hk|Hk].
  - apply redisKey_inj in Hk as <-. rewrite view_SETPX by done. right.
    exists (RequestHash k), res, st. by destruct k.
  - rewrite view_SETPX_ne by done. by apply Hr.
Qed.

(** The claim of a key is its row: who holds it, who ran, and what the row keeps. *)
Record ledger (ph : nat → phase) (w : world) : Prop := {
  lg_claimed t k : ph t = Claimed k →
    (∃ x, table w !! Value k = Some x ∧ request_hash x = RequestHash k) ∧
    ∀ k' h, (k', h) ∈ served w → Value k' ≠ Value k;
  lg_once t t' k k' : ph t = Claimed k → ph t' = Claimed k' → Value k = Value k' → t = t';
  lg_lost t key : ph t = Lost key → is_Some (table w !! key);
  lg_nodup : NoDup (Value <$> (served w).*1);
  lg_served k h : (k, h) ∈ served w →
    ∃ x, table w !! Value k = Some x ∧ request_hash x = RequestHash k;
  lg_rows key x : table w !! key = Some x → row_ok hi (served w) key x;
  lg_redis : redis_ok (served w) (w_redis w);
}.

Lemma ledger_ext ph ph' w : (∀ t, ph' t = ph t) → ledger ph w → ledger ph' w.
Proof.
  intros E []. split; try done; intros *; rewrite ?E; eauto.
Qed.

Lemma ledger_same ph t w : ledger ph w → ledger (<[t := ph t]> ph) w.
Proof.
  apply ledger_ext. intros t'. destruct (decide (t' = t)) as [->|]; [by rewrite fn_lookup_insert|].
  by rewrite fn_lookup_insert_ne.
Qed.

(** A request that forgets its claim. *)
Lemma ledger_idle ph t w : ledger ph w → ledger (<[t := Idle]> ph) w.
Proof.
  assert (∀ t' p, (<[t := Idle]> ph) t' = p → p ≠ Idle → ph t' = p) as Hp.
  { intros t' p. destruct (decide (t' = t)) as [->|]; [rewrite fn_lookup_insert; congruence|].
    by rewrite fn_lookup_insert_ne. }
  intros []. split; try done.
  - intros t' k E%Hp; [eauto|done].
  - intros t1 t2 k k' E1%Hp E2%Hp; [eauto|done..].
  - intros t' key E%Hp; [eauto|done].
Qed.

(** A table that keeps every row's key and hash. *)
Lemma ledger_table ph w tb :
  (∀ key x, table w !! key = Some x → ∃ y, tb !! key = Some y ∧ request_hash y = request_hash x) →
  (∀ key y, tb !! key = Some y → row_ok hi (served w) key y) →
  ledger ph w → ledger ph (mkWorld (w_redis w) tb (served w)).
Proof.
  intros Hkeep Hok []. split; simpl; try done.
  - intros t k Hph. destruct (lg_claimed0 t k Hph) as [(x & Hx & Hh) ?]. split; [|done].
    destruct (Hkeep _ _ Hx) as (y & ? & ?). exists y. split; congruence.
  - intros t key Hph. destruct (lg_lost0 t key Hph) as [x Hx]. destruct (Hkeep _ _ Hx) as (y & ? & _). eauto.
  - intros k h Hin. destruct (lg_served0 k h Hin) as (x & Hx & Hh).
    destruct (Hkeep _ _ Hx) as (y & ? & ?). exists y. split; congruence.
Qed.

Lemma ledger_new_row ph w key hash created expires :
  (hi ≤ expires)%Z → table w !! key = None → ledger ph w →
  ledger ph
    (mkWorld (w_redis w) (<[key := mkRow hash StatusInProgress None SNull created expires]> (table w)) (served w)).
Proof.
  intros Hexp Hnone Hl. apply ledger_table; [..|done].
  - intros key' x Hx. exists x. rewrite lookup_insert_ne by congruence. done.
  - intros key' y Hy. destruct (decide (key = key')) as [<-|].
    + rewrite lookup_insert_eq in Hy. injection Hy as <-. by split.
    + rewrite lookup_insert_ne in Hy by done. by apply (lg_rows _ _ Hl).
Qed.

Lemma ledger_insert ph t w key hash created expires :
  (hi ≤ expires)%Z → table w !! key = None → ledger ph w →
  ledger (<[t := Claimed (mkKey key hash)]> ph)
    (mkWorld (w_redis w) (<[key := mkRow hash StatusInProgress None SNull created expires]> (table w)) (served w)).
Proof.
  intros Hexp Hnone Hl.
  destruct (ledger_new_row ph w key hash created expires Hexp Hnone Hl).
  assert (∀ k t', ph t' = Claimed k → Value k ≠ key) as Hne.
  { intros k t' Hph. destruct (lg_claimed _ _ Hl t' k Hph) as [(x & Hx & _) _]. congruence. }
  split; try done; simpl.
  - intros t' k. destruct (decide (t' = t)) as [->|]; [|rewrite fn_lookup_insert_ne by done; eauto].
    rewrite fn_lookup_insert. intros [= <-]. simpl. rewrite lookup_insert_eq. split; [by eexists|].
    intros k' h Hin <-. destruct (lg_served _ _ Hl k' h Hin) as (x & Hx & _). congruence.
  - intros t1 t2 k k'. destruct (decide (t1 = t)) as [->|], (decide (t2 = t)) as [->|];
      rewrite ?fn_lookup_insert, ?fn_lookup_insert_ne by done; [done| | |eauto].
    + intros [= <-] Hph Hv. simpl in Hv. by destruct (Hne k' t2).
    + intros Hph [= <-] Hv. simpl in Hv. by destruct (Hne k t1).
  - intros t' key'. destruct (decide (t' = t)) as [->|]; [|rewrite fn_lookup_insert_ne by done; eauto].
    by rewrite fn_lookup_insert.
Qed.

Lemma ledger_serve ph t w k h :
  ph t = Claimed k → ledger ph w →
  ledger (<[t := Idle]> ph) (mkWorld (w_redis w) (table w) (served w ++ [(k, h)])).
Proof.
  intros Hph Hl. destruct (lg_claimed _ _ Hl t k Hph) as [Hrow Hfresh].
  assert (served w ⊆ served w ++ [(k, h)]) as Hsub by (intros x Hx; apply elem_of_app; by left).
  pose proof (ledger_idle ph t w Hl) as Hi. destruct Hl. split; simpl.
  - intros t' k' Hph'. destruct (lg_claimed _ _ Hi t' k' Hph') as [? Hf]. split; [done|].
    intros k'' h' [Hin|[= -> ->]%list_elem_of_singleton]%elem_of_app; [by eapply Hf|]. intros Hv.
    destruct (decide (t' = t)) as [->|Hne]; [by rewrite fn_lookup_insert in Hph'|].
    rewrite fn_lookup_insert_ne in Hph' by done. by destruct Hne; eapply lg_once0.
  - apply (lg_once _ _ Hi).
  - apply (lg_lost _ _ Hi).
  - rewrite !fmap_app. simpl. apply NoDup_app. split; [done|]. split; [|apply NoDup_singleton].
    intros v Hv ->%list_elem_of_singleton. apply list_elem_of_fmap in Hv as (k' & Hv & Hin).
    apply list_elem_of_fmap in Hin as ([k'' h'] & -> & Hin). by eapply Hfresh.
  - intros k' h' [Hin|[= -> ->]%list_elem_of_singleton]%elem_of_app; [by eapply lg_served0|done].
  - intros key x Hx. eapply row_ok_mono; [done|]. by apply lg_rows0.
  - intros Hon kv. eapply entry_ok_mono; [done|]. by apply lg_redis0.
Qed.

Lemma ledger_redis ph w r :
  redis_ok (served w) r → ledger ph w → ledger ph (mkWorld r (table w) (served w)).
Proof. intros Hr []. by split. Qed.

Lemma finish_row_ok L key hash res st expires x :
  recorded L (mkKey key hash) res → (∀ h, (mkKey key hash, h) ∈ L → request_hash x = hash) →
  (hi ≤ expires)%Z → row_ok hi L key x → ∀ body, unwrapBody body = Body res →
  row_ok hi L key (finish_row st (Code res) body expires x).
Proof.
  intros Hrec Hh Hexp Hx body Hb. unfold finish_row. case_decide; [|done]. split; [done|]. intros _. simpl.
  exists res. split; [|done]. destruct Hrec as (ops & cw & Hin & Hcw). rewrite (Hh _ Hin). by exists ops, cw.
Qed.

Definition step_ok (ph : nat → phase) (t : nat) (w w' : world) {X} (c : icmd X) (x : X) : Prop :=
  ledger (<[t := next (ph t) c x]> ph) w' ∧ served w ⊆ served w' ∧
  answer_ok lo hi honest (served w') (ph t) c x.

Lemma world_eta (w : world) : mkWorld (w_redis w) (table w) (served w) = w.
Proof. by destruct w. Qed.

Lemma claim_ok ph t w e key hash secs w' x :
  ledger ph w → cmd_ok hi (served w) (ph t) (CClaim key hash secs) →
  exec tonumber _ e w (CClaim key hash secs) = (w', x) → step_ok ph t w w' (CClaim key hash secs) x.
Proof using tonumber_Itoa.
  intros Hl [(k & -> & ->) Hs] He. simpl in He. unfold on_redis in He. unfold step_ok. simpl.
  assert (∀ r, redis_ok (served w) r → ledger (<[t := ph t]> ph) (mkWorld r (table w) (served w))) as Hw.
  { intros r Hr. apply (ledger_same ph t). by apply ledger_redis. }
  assert (redis_ok (served w) (claimScript tonumber (w_redis w) (e_redis e) (redisKey (Value k))
    (hex.EncodeToString (RequestHash k)) secs).1) as Hr'.
  { intros Hon. exact (proj1 (claimScript_ok _ _ _ _ _ Hon (lg_redis _ _ Hl) Hs) Hon). }
  destruct (e_net e); simplify_eq; simpl; (split; [first [by apply Hw|by rewrite <-world_eta; apply Hw, Hl]|]);
    (split; [done|]); intros Hon rep Hrep Ho; try done.
  intros k' [= Hk]%redisKey_inj Hh%hex.EncodeToString_inj.
  replace k' with k by (destruct k, k'; simpl in *; congruence).
  exact (proj2 (claimScript_ok _ _ (e_redis e) k _ Hon (lg_redis _ _ Hl) Hs) _ Hrep Ho).
Qed.

Lemma set_ok ph t w e key value ttl w' x :
  ledger ph w → cmd_ok hi (served w) (ph t) (CSet key value ttl) →
  exec tonumber _ e w (CSet key value ttl) = (w', x) → step_ok ph t w w' (CSet key value ttl) x.
Proof.
  intros Hl [Hpos (k & res & st & Hrec & Hst & -> & ->)] He. simpl in He. unfold on_redis in He.
  unfold step_ok. simpl.
  assert (∀ r, redis_ok (served w) r → ledger (<[t := ph t]> ph) (mkWorld r (table w) (served w))) as Hw.
  { intros r Hr. apply (ledger_same ph t). by apply ledger_redis. }
  pose proof (formatMs_pos ttl Hpos).
  destruct (e_net e); simplify_eq; simpl; split; try done;
    first [by apply Hw, redis_ok_SET; [apply Hl|..]|by rewrite <-world_eta; apply Hw, Hl].
Qed.

Lemma insert_ok ph t w e key hash created expires w' x :
  ledger ph w → cmd_ok hi (served w) (ph t) (CInsert key hash created expires) →
  exec tonumber _ e w (CInsert key hash created expires) = (w', x) →
  step_ok ph t w w' (CInsert key hash created expires) x.
Proof.
  intros Hl [Hexp Hidle] He. simpl in He. unfold on_table, insert_row in He. unfold step_ok. simpl.
  assert (ledger (<[t := ph t]> ph) w) as Hsame by by apply ledger_same.
  destruct (table w !! key) as [y|] eqn:Hy, (e_net e); simplify_eq; simpl; rewrite ?world_eta;
    (split; [|done]); try exact Hsame.
  - split; try apply Hl.
    + intros t' k. destruct (decide (t' = t)) as [->|]; [by rewrite fn_lookup_insert|].
      rewrite fn_lookup_insert_ne by done. apply Hl.
    + intros t1 t2 k k'. destruct (decide (t1 = t)) as [->|], (decide (t2 = t)) as [->|];
        rewrite ?fn_lookup_insert, ?fn_lookup_insert_ne by done; try done. apply Hl.
    + intros t' key'. destruct (decide (t' = t)) as [->|].
      * rewrite fn_lookup_insert. intros [= <-]. eauto.
      * rewrite fn_lookup_insert_ne by done. apply Hl.
  - by apply ledger_insert.
  - apply (ledger_same ph t). by apply ledger_new_row.
Qed.

Lemma update_ok ph t w e key st code body expires w' x :
  ledger ph w → cmd_ok hi (served w) (ph t) (CUpdate key st code body expires) →
  exec tonumber _ e w (CUpdate key st code body expires) = (w', x) →
  step_ok ph t w w' (CUpdate key st code body expires) x.
Proof.
  intros Hl [Hexp (hash & res & Hrec & -> & Hb)] He. simpl in He. unfold on_table in He. unfold step_ok. simpl.
  assert (ledger ph (mkWorld (w_redis w)
    (alter (finish_row st (Code res) body expires) key (table w)) (served w))) as Hup.
  { apply ledger_table; [..|done].
    - intros key' y Hy. destruct (decide (key = key')) as [<-|].
      + rewrite lookup_alter_eq, Hy. eexists. split; [done|]. unfold finish_row. by case_decide.
      + rewrite lookup_alter_ne by done. by exists y.
    - intros key' y. destruct (decide (key = key')) as [<-|].
      + rewrite lookup_alter_eq. intros (z & Hz & ->)%fmap_Some.
        apply (finish_row_ok _ _ hash res); try done; [|by apply (lg_rows _ _ Hl)].
        intros h Hin. destruct (lg_served _ _ Hl _ _ Hin) as (z' & Hz' & Hh). simpl in *. congruence.
      + rewrite lookup_alter_ne by done. apply (lg_rows _ _ Hl). }
  destruct (e_net e); simplify_eq; simpl; (split; [|done]); by apply (ledger_same ph t).
Qed.

Lemma exec_ok ph t w e X (c : icmd X) w' x :
  ledger ph w → cmd_ok hi (served w) (ph t) c → (lo ≤ e_now e < hi)%Z →
  exec tonumber X e w c = (w', x) → step_ok ph t w w' c x.
Proof using tonumber_Itoa.
  intros Hl Hc Hnow He.
  destruct c; [|by eapply claim_ok|by eapply set_ok| |by eapply insert_ok| |by eapply update_ok|done|..];
    unfold step_ok; simpl in *.
  - simplify_eq. split; [by apply ledger_same|done].
  - unfold on_redis in He. destruct (e_net e); simplify_eq; simpl; rewrite ?world_eta;
      (split; [by apply (ledger_same ph t)|done]).
  - unfold on_table in He. destruct (e_net e); simplify_eq; simpl; rewrite ?world_eta;
      (split; [by apply (ledger_same ph t)|]); split; try done.
    destruct (table w !! key) as [r|] eqn:Hr; [by apply (lg_rows _ _ Hl)|].
    intros Hlost. destruct (lg_lost _ _ Hl t key Hlost) as [? ?]. congruence.
  - simplify_eq. simpl. split; [by eapply ledger_serve|].
    split; [intros y Hy|]; apply elem_of_app; [by left|right]. by apply list_elem_of_singleton.
  - simplify_eq. split; [by apply ledger_same|done].
Qed.

(** ** The invariant *)

Abbreviation system := (system (R:=R)).
Abbreviation istep := (istep tonumber sha256 store m).
Abbreviation irun := (irun tonumber sha256 store m).

(** All clock readings are in the window, and Redis changes only as allowed. *)
Definition in_window (s : system) (ev : ievent (R:=R)) : Prop :=
  match ev with
  | EvStep _ e => (lo ≤ e_now e < hi)%Z
  | EvPrune now => (now < hi)%Z
  | EvRedis r => honest → ∀ kv, view r (redisKey kv) = view (w_redis (sw s)) (redisKey kv) ∨
                               view r (redisKey kv) = None
  | _ => True
  end.

Record inv (ph : nat → phase) (s : system) : Prop := {
  iv_ledger : ledger ph (sw s);
  iv_calls t r p : calls s !! t = Some (r, p) →
    wp (served (sw s)) (ph t) p (λ L' _ a, well_answered L' r a);
  iv_replies r a : (r, a) ∈ replies s → well_answered (served (sw s)) r a;
}.

Lemma wp_later L L' ph r (p : prog icmd reply) :
  L ⊆ L' → wp L ph p (λ L' _ a, well_answered L' r a) → wp L' ph p (λ L' _ a, well_answered L' r a).
Proof.
  intros HL. apply wpi_mono; [done|]. intros L1 L2 _ a _ HL2. by apply well_answered_mono.
Qed.

Lemma prune_nothing L tb now :
  (now < hi)%Z → (∀ key x, tb !! key = Some x → row_ok hi L key x) → prune_table now tb = tb.
Proof.
  intros Hnow Hrows. apply map_filter_id. intros key x Hx. destruct (Hrows key x Hx) as [Hexp _].
  unfold expired, time_before. simpl. lia.
Qed.

Lemma inv_step ph s ev s' :
  inv ph s → in_window s ev → istep s ev = Some s' → ∃ ph', inv ph' s'.
Proof using tonumber_Itoa Durable0.
  intros [Hl Hcalls Hreps] Hw Hs. destruct ev as [t r|t e|t|now|r]; simpl in Hs.
  - destruct (calls s !! t) eqn:Ht; [done|]. injection Hs as <-. exists (<[t := Idle]> ph).
    split; simpl; [by apply ledger_idle| |done].
    intros t' r' p. destruct (decide (t = t')) as [<-|].
    + rewrite lookup_insert_eq, fn_lookup_insert. intros [= <- <-]. by apply wp_Wrap.
    + rewrite lookup_insert_ne, fn_lookup_insert_ne by done. apply Hcalls.
  - destruct (calls s !! t) as [[r [a|X c k]]|] eqn:Ht; [done| |done].
    destruct (exec tonumber X e (sw s) c) as [w x] eqn:He. injection Hs as <-.
    destruct (Hcalls _ _ _ Ht) as [Hc Hk].
    destruct (exec_ok ph t _ e X c w x Hl Hc Hw He) as (Hl' & HL & Ha).
    exists (<[t := next (ph t) c x]> ph). split; simpl; [done| |].
    + intros t' r' p. destruct (decide (t = t')) as [<-|].
      * rewrite lookup_insert_eq, fn_lookup_insert. intros [= <- <-]. by apply Hk.
      * rewrite lookup_insert_ne, fn_lookup_insert_ne by done. intros Hp. by eapply wp_later, Hcalls.
    + intros r' a Hin. by eapply well_answered_mono, Hreps.
  - destruct (calls s !! t) as [[r [a|X c k]]|] eqn:Ht; [|done..]. injection Hs as <-. exists ph.
    split; simpl; [done| |].
    + intros t' r' p [_ Hp]%lookup_delete_Some. by apply Hcalls.
    + intros r' a' [Hin|[= -> ->]%list_elem_of_singleton]%elem_of_app; [by apply Hreps|].
      by apply (Hcalls _ _ _ Ht).
  - injection Hs as <-. exists ph. rewrite (prune_nothing (served (sw s)));
      [|done|apply (lg_rows _ _ Hl)]. rewrite world_eta. by split.
  - injection Hs as <-. exists ph. split; simpl; try done. apply ledger_redis; [|done].
    intros Hon kv. destruct (Hw Hon kv) as [->| ->]; [by apply (lg_redis _ _ Hl)|done].
Qed.

(** Runs from an empty table and a Redis without entries. *)
Fixpoint windowed (s : system) (evs : list (ievent (R:=R))) : Prop :=
  match evs with
  | [] => True
  | ev :: evs => in_window s ev ∧ ∀ s', istep s ev = Some s' → windowed s' evs
  end.

Definition start (r : R) : system := mkSystem (mkWorld r ∅ []) ∅ [].

Lemma inv_start r : (honest → ∀ kv, view r (redisKey kv) = None) → inv (λ _, Idle) (start r).
Proof.
  intros Hr. split; simpl; [|by intros ???; rewrite lookup_empty|by intros ? ? ?%elem_of_nil].
  split; simpl; try done.
  - apply NoDup_nil_2.
  - by intros ? ? ?%elem_of_nil.
  - intros Hon kv. by rewrite Hr.
Qed.

Lemma inv_run ph s evs s' : inv ph s → windowed s evs → irun s evs = Some s' → ∃ ph', inv ph' s'.
Proof using tonumber_Itoa Durable0.
  revert ph s. induction evs as [|ev evs IH]; simpl; intros ph s Hi Hw Hs.
  - simplify_eq. by exists ph.
  - apply bind_Some in Hs as (s1 & Hs1 & Hs). destruct Hw as [Hev Hw].
    destruct (inv_step ph s ev s1 Hi Hev Hs1) as [ph1 Hi1]. by eapply IH; [..|exact Hs]; eauto.
Qed.

(** What does not depend on the state. *)
Definition in_window_static (ev : ievent (R:=R)) : Prop :=
  match ev with
  | EvStep _ e => (lo ≤ e_now e < hi)%Z
  | EvPrune now => (now < hi)%Z
  | EvRedis _ => ¬ honest
  | _ => True
  end.

Lemma windowed_static s evs : Forall in_window_static evs → windowed s evs.
Proof.
  revert s. induction evs as [|ev evs IH]; [done|]. intros s [Hev Hevs]%Forall_cons. split; [|auto].
  destruct ev; try done. intros Hon. by destruct Hev.
Qed.

Lemma recorded_same L k k' res res' :
  NoDup (Value <$> L.*1) → recorded L k res → recorded L k' res' → Value k = Value k' → k = k' ∧ res = res'.
Proof.
  intros Hnd (ops & cw & Hin & Hcw & <-) (ops' & cw' & Hin' & Hcw' & <-) Hv.
  apply list_elem_of_lookup in Hin as [j Hj]. apply list_elem_of_lookup in Hin' as [j' Hj'].
  assert (j = j') as <-.
  { eapply (NoDup_lookup _ _ _ (Value k)); [exact Hnd|..]; rewrite !list_lookup_fmap;
      [by rewrite Hj|by rewrite Hj', Hv]. }
  rewrite Hj in Hj'. injection Hj' as <- <-. split; [done|]. congruence.
Qed.
End reachable.

(** ** Properties *)

(** The deployments: Postgres, with or without Redis in front. *)
Definition deployment (redis : bool) : Store :=
  TieredStore (if redis then Some RedisStore else None) (Some PostgresStore).

Lemma New_ttl_pos cfg : (0 < mw_ttl (New cfg))%Z.
Proof. unfold New. simpl. case_match; [done|lia]. Qed.

Lemma deployment_durable lo cfg honest redis :
  Durable lo (lo + mw_ttl (New cfg)) honest (deployment redis) (mw_ttl (New cfg)).
Proof.
  pose proof (New_ttl_pos cfg). apply Tiered_durable; [apply Postgres_durable; [done|lia]|].
  intros s Hs. destruct redis; simplify_eq. by apply Redis_cache.
Qed.

Section properties.
Context {R : Type} `{RedisLaws R} (tonumber : string → option Z) (sha256 : string → string).
Context (tonumber_Itoa : ∀ z, (100 ≤ z ≤ 999)%Z → tonumber (strconv.Itoa z) = Some z).

(** C7. Within one TTL the handler behind the middleware runs at most once per
    Idempotency-Key: for any number of concurrent requests, whatever Redis holds
    or answers at any moment, whatever commands are refused or lose their reply,
    and whatever the handler does, as long as the clock readings of the run are
    less than a TTL apart. *)
Theorem at_most_once cfg redis lo (r : R) evs s key :
  windowed tonumber sha256 (deployment redis) (New cfg) lo (lo + mw_ttl (New cfg)) False (start r) evs →
  irun tonumber sha256 (deployment redis) (New cfg) (start r) evs = Some s →
  length (filter (λ x, Value x.1 = key) (served (sw s))) ≤ 1.
Proof using tonumber_Itoa.
  intros Hw Hs. pose proof (deployment_durable lo cfg False redis).
  destruct (inv_run tonumber sha256 tonumber_Itoa (deployment redis) (New cfg) lo _ False (λ _, Idle)
    (start r) evs s) as [ph Hi]; [by apply inv_start|exact Hw|exact Hs|].
  pose proof (lg_nodup _ _ _ _ (iv_ledger _ _ _ _ _ _ _ Hi)) as Hnd. clear -Hnd.
  induction (served (sw s)) as [|x l IH]; [simpl; lia|]. apply NoDup_cons in Hnd as [Hx Hnd].
  rewrite filter_cons. case_decide as Hk; [|by apply IH]. simpl. rewrite filter_none; [simpl; lia|].
  intros y Hy Hyk. apply Hx. rewrite Hk, <-Hyk. by apply list_elem_of_fmap_2, list_elem_of_fmap_2.
Qed.

(** C33. One key, one answer: within one TTL, with a Redis that may lose entries
    at any time, all protected requests of one key that are not rejected (409,
    422 or 503) came with the same request and get the same status and body, the
    one that ran the handler and all replays alike. *)
Theorem one_answer cfg redis lo (r : R) evs s k1 k2 r1 r2 w1 w2 :
  (∀ kv, view r (redisKey kv) = None) →
  windowed tonumber sha256 (deployment redis) (New cfg) lo (lo + mw_ttl (New cfg)) True (start r) evs →
  irun tonumber sha256 (deployment redis) (New cfg) (start r) evs = Some s →
  (r1, Answered w1) ∈ replies s → (r2, Answered w2) ∈ replies s →
  protected sha256 (New cfg) r1 = Some k1 → protected sha256 (New cfg) r2 = Some k2 →
  Value k1 = Value k2 → ¬ rejection w1 → ¬ rejection w2 →
  k1 = k2 ∧ sent w1 = sent w2.
Proof using tonumber_Itoa.
  intros Hempty Hw Hs H1 H2 Hp1 Hp2 Hv Hr1 Hr2. pose proof (deployment_durable lo cfg True redis).
  destruct (inv_run tonumber sha256 tonumber_Itoa (deployment redis) (New cfg) lo _ True (λ _, Idle)
    (start r) evs s) as [ph Hi]; [by apply inv_start|exact Hw|exact Hs|].
  pose proof (lg_nodup _ _ _ _ (iv_ledger _ _ _ _ _ _ _ Hi)) as Hnd.
  destruct (iv_replies _ _ _ _ _ _ _ Hi _ _ H1 I k1 w1) as [|(res1 & Hrec1 & ->)]; [done..|].
  destruct (iv_replies _ _ _ _ _ _ _ Hi _ _ H2 I k2 w2) as [|(res2 & Hrec2 & ->)]; [done..|].
  destruct (recorded_same _ _ _ _ _ Hnd Hrec1 Hrec2 Hv) as [-> ->]. done.
Qed.
End properties.

(** ** Runs on the in-memory Redis *)

Definition demo_cfg : Config := mkConfig 0 0 [].
Definition demo_sha (s : string) : string := s.
Definition demo_run (redis : bool) (s : system (R:=gmap string entry)) (evs : list ievent) :=
  irun strconv.Atoi demo_sha (deployment redis) (New demo_cfg) s evs.
Definition demo_req (body : string) : ApiRequest := mkApiRequest "POST" "/pay" "key-1" (Some (Ok body)).
Definition demo_env (now : Z) (net : outcome) (body : string) : env :=
  mkEnv now (now * 1000000) net (Returned [OpStatus 201; OpWrite body]).
Definition steps (n t : nat) (e : env) : list (ievent (R:=gmap string entry)) := replicate n (EvStep t e).

(** A request that needs [n] commands, alone. *)
Definition alone (n t : nat) (r : ApiRequest) (e : env) : list (ievent (R:=gmap string entry)) :=
  EvRequest t r :: steps n t e ++ [EvReply t].

(** The runs of the handler and the answers. *)
Definition summary (s : system (R:=gmap string entry)) : nat * list (Z * string) :=
  (length (served (sw s)),
   omap (λ x, match x.2 with Answered w => Some (sent w) | Aborted => None end) (replies s)).

Definition demo_events : list (ievent (R:=gmap string entry)) :=
  let e := demo_env 5 Served "paid" in
  EvRequest 1 (demo_req "{}") :: steps 2 1 e ++ EvRequest 2 (demo_req "{}") :: steps 1 2 e ++
  EvReply 2 :: steps 5 1 e ++ EvReply 1 :: alone 1 3 (demo_req "{}") e.
Definition demo_final : system (R:=gmap string entry) :=
  default (start ∅) (demo_run true (start ∅) demo_events).

Lemma Atoi_status z : (100 ≤ z ≤ 999)%Z → strconv.Atoi (strconv.Itoa z) = Some z.
Proof. intros Hz. apply Atoi_Itoa. unfold int64_max. lia. Qed.

Lemma demo_windowed honest :
  windowed strconv.Atoi demo_sha (deployment true) (New demo_cfg) 0 (0 + mw_ttl (New demo_cfg)) honest
    (start ∅) demo_events.
Proof.
  apply windowed_static. unfold demo_events, alone, steps. simpl.
  repeat first [apply Forall_nil|apply Forall_cons; split]; simpl; try done;
    change (mw_ttl (New demo_cfg)) with DefaultTTL; unfold DefaultTTL, minute, second; lia.
Qed.

Lemma demo_served : summary demo_final = (1, [(409%Z, error_json "idempotency_key_pending"
  "a request with this Idempotency-Key is still in progress; retry shortly"); (201%Z, "paid"); (201%Z, "paid")]).
Proof. vm_compute. reflexivity. Qed.

Lemma demo_run_final : demo_run true (start ∅) demo_events = Some demo_final.
Proof.
  unfold demo_final. destruct (demo_run true (start ∅) demo_events) as [s|] eqn:E; [done|].
  assert (match demo_run true (start ∅) demo_events with Some _ => true | None => false end = true) as Hs
    by (vm_compute; reflexivity).
  by rewrite E in Hs.
Qed.

Lemma at_most_once_witness :
  length (served (sw demo_final)) = 1 ∧
  length (filter (λ x, Value x.1 = "key-1") (served (sw demo_final))) ≤ 1.
Proof.
  split; [vm_compute; reflexivity|].
  apply (at_most_once strconv.Atoi demo_sha Atoi_status demo_cfg true 0 ∅ demo_events);
    [apply demo_windowed|apply demo_run_final].
Defined.

Definition demo_writer (i : nat) : Writer :=
  match replies demo_final !! i with Some (_, Answered w) => w | _ => fresh_writer end.

Lemma demo_answered i : i = 1 ∨ i = 2 → (demo_req "{}", Answered (demo_writer i)) ∈ replies demo_final.
Proof.
  intros Hi. apply list_elem_of_lookup_2 with i. destruct Hi as [-> | ->]; vm_compute; reflexivity.
Qed.

Lemma created_not_rejected w : (sent w).1 = 201%Z → ¬ rejection w.
Proof. by intros Hs [->|[->| ->]]. Qed.

Lemma demo_accepted i : i = 1 ∨ i = 2 → ¬ rejection (demo_writer i).
Proof.
  intros Hi. apply created_not_rejected. destruct Hi as [-> | ->]; vm_compute; reflexivity.
Qed.

Definition demo_key : Key := mkKey "key-1" (HashRequest demo_sha "POST" "/pay" "{}").

Lemma one_answer_witness :
  sent (demo_writer 1) = sent (demo_writer 2) ∧ sent (demo_writer 2) = (201%Z, "paid") ∧
  header_get "Idempotency-Replayed" (hdr (demo_writer 2)) = "true".
Proof.
  split; [|split; vm_compute; reflexivity].
  assert (protected demo_sha (New demo_cfg) (demo_req "{}") = Some demo_key) as Hp by (vm_compute; reflexivity).
  exact (proj2 (one_answer strconv.Atoi demo_sha Atoi_status demo_cfg true 0 ∅ demo_events demo_final
    demo_key demo_key (demo_req "{}") (demo_req "{}") (demo_writer 1) (demo_writer 2)
    (λ _, eq_refl) (demo_windowed True) demo_run_final (demo_answered 1 (or_introl eq_refl))
    (demo_answered 2 (or_intror eq_refl)) Hp Hp eq_refl (demo_accepted 1 (or_introl eq_refl))
    (demo_accepted 2 (or_intror eq_refl)))).
Defined.

(** ** Where the tiers and the comments part *)

(** After a Redis flush the first retry is replayed from Postgres; Redis is left
    with the claim that retry planted, so every later retry is refused as pending. *)
Theorem flush_stops_replays :
  let e := demo_env 5 Served "paid" in
  summary <$> demo_run true (start ∅)
    (alone 7 1 (demo_req "{}") e ++ [EvRedis ∅] ++ alone 4 2 (demo_req "{}") e ++ alone 1 3 (demo_req "{}") e)
  = Some (1, [(201%Z, "paid"); (201%Z, "paid"); (409%Z, error_json "idempotency_key_pending"
      "a request with this Idempotency-Key is still in progress; retry shortly")]).
Proof. vm_compute. reflexivity. Qed.

(** After a flush a reuse of the key with another body, which is refused, plants
    its own hash in Redis: the rightful client is then refused too. *)
Theorem flush_hands_key_over :
  let e := demo_env 5 Served "paid" in
  summary <$> demo_run true (start ∅)
    (alone 7 1 (demo_req "{}") e ++ [EvRedis ∅] ++ alone 4 2 (demo_req "[]") e ++ alone 1 3 (demo_req "{}") e)
  = Some (1, (201%Z, "paid") :: replicate 2 (422%Z, error_json "idempotency_key_reused"
      "the Idempotency-Key was previously used for a different request")).
Proof. vm_compute. reflexivity. Qed.

Definition day : Z := 86400000%Z.

(** Postgres answers a claim on an expired row with "new" and leaves the row: until
    the next prune every concurrent retry runs the handler, and none of the results
    is kept. *)
Theorem expired_row_runs_all :
  let e := demo_env (day + 6) Served "paid again" in
  summary <$> demo_run false (start ∅)
    (alone 5 1 (demo_req "{}") (demo_env 5 Served "paid") ++
     EvRequest 2 (demo_req "{}") :: steps 3 2 e ++ EvRequest 3 (demo_req "{}") :: steps 3 3 e ++
     steps 3 2 e ++ steps 3 3 e ++ [EvReply 2; EvReply 3])
  = Some (3, [(201%Z, "paid"); (201%Z, "paid again"); (201%Z, "paid again")]).
Proof. vm_compute. reflexivity. Qed.

(** A handler that outlives its TTL finishes into the row of whoever claimed the
    key since: the other request, still running, is answered with this result. *)
Theorem late_finish_answers_another :
  let late := demo_env (day + 7) Served "first" in
  summary <$> demo_run false (start ∅)
    (EvRequest 1 (demo_req "{}") :: steps 2 1 (demo_env 5 Served "first") ++
     [EvPrune ((day + 6) * 1000000)%Z] ++
     EvRequest 2 (demo_req "[]") :: steps 2 2 (demo_env (day + 6) Served "second") ++
     steps 3 1 late ++ [EvReply 1] ++ alone 3 3 (demo_req "[]") late)
  = Some (1, [(201%Z, "first"); (201%Z, "first")]).
Proof. vm_compute. reflexivity. Qed.

(** An entry without separators is a script error, not a missing entry: the key
    is answered 503 as long as Redis alone serves it. *)
Theorem corrupt_entry_is_an_error :
  (claimScript strconv.Atoi (<["idempotency:k" := (RStr "garbage", None)]> ∅ : gmap string entry) 0
     "idempotency:k" "6b" 60).2 = None.
Proof. vm_compute. reflexivity. Qed.
