(* ===== verification/GoTime.v ===== *)
(** * Calendar dates and RFC 3339 text (time)

    [time.Time.UTC().Format("2006-01-02T15:04:05.999999999Z07:00")]: the date of
    an instant in the proleptic Gregorian calendar, and its text, which has no
    fraction on a whole second and no trailing zero in a fraction. Two instants
    of the years 0 to 9999 have different texts. *)
From S2P Require Import Prelude GoStrings.
From Stdlib Require Import Ascii.
Local Open Scope Z_scope.

Module time.
(** Years begin in March here, so the leap day is the last of its year: [doe]
    counts the days of a 400-year era, [yoe] its years, [doy] the days of the
    year, [mp] its months. *)
Definition yoe_of (doe : Z) : Z := (doe - doe / 1460 + doe / 36524 - doe / 146096) / 365.
Definition doy_of (doe : Z) : Z := let y := yoe_of doe in doe - (365 * y + y / 4 - y / 100).

(** Year, month and day of the day [z] after 1 January 1970. *)
Definition Date (z : Z) : Z * Z * Z :=
  let era := (z + 719468) / 146097 in
  let doe := (z + 719468) mod 146097 in
  let mp := (5 * doy_of doe + 2) / 153 in
  let m := if mp <? 10 then mp + 3 else mp - 9 in
  (yoe_of doe + era * 400 + (if m <=? 2 then 1 else 0), m, doy_of doe - (153 * mp + 2) / 5 + 1).

(** The day of a date. *)
Definition days_of (y m d : Z) : Z :=
  let y := if m <=? 2 then y - 1 else y in
  let mp := if 2 <? m then m - 3 else m + 9 in
  let yoe := y mod 400 in
  (y / 400) * 146097 + (365 * yoe + yoe / 4 - yoe / 100) + ((153 * mp + 2) / 5 + d - 1) - 719468.

Definition digit (n : Z) : ascii := ascii_of_N (Z.to_N (48 + n mod 10)).

(** The last [w] decimal digits. *)
Fixpoint pad (w : nat) (n : Z) : string :=
  match w with O => "" | S w => pad w (n / 10) +:+ String (digit n) "" end.

(** A number of at least [w] digits. *)
Definition appendInt (x : Z) (w : nat) : string :=
  (if x <? 0 then "-" else "") +:+
  (if Z.abs x <? 10 ^ Z.of_nat w then pad w (Z.abs x) else strconv.Itoa (Z.abs x)).

Fixpoint trim_zeros (s : string) : string :=
  match s with
  | EmptyString => ""
  | String c s =>
      match trim_zeros s with
      | EmptyString => if Ascii.eqb c "0" then "" else String c ""
      | t => String c t
      end
  end.

Definition fraction (ns : Z) : string :=
  if ns =? 0 then "" else String "." (trim_zeros (pad 9 ns)).

Definition clock_text (s : Z) : string :=
  pad 2 (s / 3600) +:+ ":" +:+ pad 2 (s / 60 mod 60) +:+ ":" +:+ pad 2 (s mod 60).

Definition RFC3339Nano (t : Time) : string :=
  let sec := t / second in
  let '(y, m, d) := Date (sec / 86400) in
  appendInt y 4 +:+ "-" +:+ pad 2 m +:+ "-" +:+ pad 2 d +:+ "T" +:+
  clock_text (sec mod 86400) +:+ fraction (t mod second) +:+ "Z".

(** [time.Unix(n, 0)], [t.Unix()] and [t.Sub(u)]: seconds are kept in 64 bits from
    the year 1, and a difference out of range saturates. *)
Definition unixToInternal : Z := 62135596800.
Definition FromUnix (n : Z) : Time := (wrap64 (n + unixToInternal) - unixToInternal) * second.
Definition Unix (t : Time) : Z := wrap64 (t / second).
Definition Sub (t u : Time) : Duration :=
  if decide (int64_min ≤ t - u ≤ int64_max) then t - u else if t <? u then int64_min else int64_max.
End time.

Example Date_epoch : time.Date 0 = (1970, 1, 1). Proof. reflexivity. Qed.
Example Date_leap : time.Date 19782 = (2024, 2, 29). Proof. reflexivity. Qed.
Example Format_zero : time.RFC3339Nano time_zero = "0001-01-01T00:00:00Z".
Proof. reflexivity. Qed.
Example Format_fraction : time.RFC3339Nano (second * 1700000000 + 120000) = "2023-11-14T22:13:20.00012Z".
Proof. reflexivity. Qed.

(** ** Dates *)

Lemma yoe_range doe : 0 ≤ doe < 146097 → 0 ≤ time.yoe_of doe < 400.
Proof.
  intros Hd. unfold time.yoe_of.
  pose proof (Z.div_le_upper_bound doe 36524 4). Z.div_mod_to_equations. lia.
Qed.

Lemma doy_range doe : 0 ≤ doe < 146097 → 0 ≤ time.doy_of doe ≤ 365.
Proof.
  intros Hd. unfold time.doy_of. pose proof (yoe_range doe Hd). unfold time.yoe_of in *.
  cbv zeta. Z.div_mod_to_equations. lia.
Qed.

Lemma Date_range z :
  let '(y, m, d) := time.Date z in 1 ≤ m ≤ 12 ∧ 1 ≤ d ≤ 31.
Proof.
  unfold time.Date. cbv zeta. set (doe := (z + 719468) mod 146097).
  pose proof (doy_range doe) as Hr. generalize dependent (time.doy_of doe). intros doy Hr.
  assert (0 ≤ doy ≤ 365) as Hd by (apply Hr, Z.mod_pos_bound; lia). clear Hr.
  assert (0 ≤ (5 * doy + 2) / 153 ≤ 11) as Hm by (Z.div_mod_to_equations; lia).
  split; [destruct (Z.ltb_spec ((5 * doy + 2) / 153) 10); lia|].
  Z.div_mod_to_equations; lia.
Qed.

Lemma days_of_Date z : let '(y, m, d) := time.Date z in time.days_of y m d = z.
Proof.
  unfold time.Date. cbv zeta. set (doe := (z + 719468) mod 146097).
  assert (0 ≤ doe < 146097) as Hdoe by (apply Z.mod_pos_bound; lia).
  pose proof (yoe_range doe Hdoe) as Hy. pose proof (doy_range doe Hdoe) as Hd.
  assert (time.doy_of doe = doe - (365 * time.yoe_of doe + time.yoe_of doe / 4 - time.yoe_of doe / 100))
    as Hdoy by done.
  generalize dependent (time.doy_of doe). generalize dependent (time.yoe_of doe).
  intros yoe Hy doy Hd Hdoy.
  set (mp := (5 * doy + 2) / 153). assert (0 ≤ mp ≤ 11) as Hm by (unfold mp; Z.div_mod_to_equations; lia).
  assert (∃ m, m = (if mp <? 10 then mp + 3 else mp - 9)) as [m Em] by eauto. rewrite <-Em.
  assert ((if 2 <? m then m - 3 else m + 9) = mp) as Emp.
  { subst m. destruct (Z.ltb_spec mp 10); case_match; lia. }
  unfold time.days_of. rewrite Emp.
  assert ((if m <=? 2 then yoe + (z + 719468) / 146097 * 400 + (if m <=? 2 then 1 else 0) - 1
           else yoe + (z + 719468) / 146097 * 400 + (if m <=? 2 then 1 else 0))
          = yoe + (z + 719468) / 146097 * 400) as -> by (destruct (m <=? 2); lia).
  rewrite Z.div_add, Z.mod_add, (Z.div_small yoe), (Z.mod_small yoe) by lia.
  pose proof (Z.div_mod (z + 719468) 146097). fold doe in H. lia.
Qed.

Lemma Date_inj z z' : time.Date z = time.Date z' → z = z'.
Proof.
  intros H. pose proof (days_of_Date z) as Hz. pose proof (days_of_Date z') as Hz'.
  rewrite H in Hz. destruct (time.Date z') as [[y m] d]. congruence.
Qed.

(** ** Digits *)

Lemma digit_nat n : Ascii.is_nat (time.digit n) = Some (Z.to_nat (n mod 10)).
Proof.
  unfold time.digit. pose proof (Z.mod_pos_bound n 10).
  assert (∃ k, (k < 10)%nat ∧ n mod 10 = Z.of_nat k) as (k & Hk & ->) by (exists (Z.to_nat (n mod 10)); lia).
  rewrite Nat2Z.id. do 10 (destruct k as [|k]; [reflexivity|]). lia.
Qed.

Lemma length_pad w n : String.length (time.pad w n) = w.
Proof.
  revert n. induction w as [|w IH]; intros n; [done|]. cbn [time.pad].
  rewrite string_length_app, IH. simpl. lia.
Qed.

Lemma pad_digits w n : 0 ≤ n < 10 ^ Z.of_nat w → strconv.digits 0 (time.pad w n) = Some n.
Proof.
  revert n. induction w as [|w IH]; intros n Hn.
  { simpl in *. f_equal. lia. }
  cbn [time.pad]. rewrite digits_app, IH.
  - cbn [strconv.digits]. rewrite digit_nat. pose proof (Z.mod_pos_bound n 10). f_equal.
    rewrite Z2Nat.id by lia. rewrite (Z.div_mod n 10) at 3; lia.
  - rewrite Nat2Z.inj_succ, Z.pow_succ_r in Hn by lia. Z.div_mod_to_equations; lia.
Qed.

Lemma pad_inj w n n' :
  0 ≤ n < 10 ^ Z.of_nat w → 0 ≤ n' < 10 ^ Z.of_nat w → time.pad w n = time.pad w n' → n = n'.
Proof.
  intros Hn Hn' H. apply (f_equal (strconv.digits 0)) in H. rewrite !pad_digits in H by done. congruence.
Qed.

Lemma string_app_inj s s' t t' :
  String.length s = String.length s' → s +:+ t = s' +:+ t' → s = s' ∧ t = t'.
Proof.
  revert s'. induction s as [|c s IH]; intros [|c' s'] Hl H; try done.
  rewrite !string_app_cons in H. injection H as -> H. injection Hl as Hl.
  destruct (IH s' Hl H) as [-> ->]. done.
Qed.

(** The digits that [trim_zeros] drops are zeros. *)
Lemma trim_zeros_spec s : ∃ k, s = time.trim_zeros s +:+ time.pad k 0.
Proof.
  assert (∀ k, String "0" (time.pad k 0) = time.pad (S k) 0) as Hpad.
  { induction k as [|k IH]; [done|].
    change (time.pad (S (S k)) 0) with (time.pad (S k) 0 +:+ String (time.digit 0) "").
    rewrite <-IH. rewrite string_app_cons. f_equal. exact IH. }
  induction s as [|c s [k IH]]; [by exists 0%nat|]. simpl.
  destruct (time.trim_zeros s) as [|c' t].
  - destruct (Ascii.eqb_spec c "0") as [->|].
    + exists (S k). rewrite string_app_nil_l, <-Hpad. f_equal. exact IH.
    + exists k. rewrite string_app_cons. f_equal. exact IH.
  - exists k. rewrite string_app_cons. by f_equal.
Qed.

Lemma trim_zeros_inj s s' :
  String.length s = String.length s' → time.trim_zeros s = time.trim_zeros s' → s = s'.
Proof.
  intros Hl Ht. destruct (trim_zeros_spec s) as [k Hk], (trim_zeros_spec s') as [k' Hk'].
  rewrite Hk, Hk', !string_length_app, !length_pad, Ht in Hl.
  rewrite Hk, Hk', Ht. do 2 f_equal. lia.
Qed.

(** ** The text of an instant *)

(** The years RFC 3339 has a text for. *)
Definition in_years (t : Time) : Prop :=
  let '(y, _, _) := time.Date (t / second / 86400) in 0 ≤ y ≤ 9999.

Lemma clock_inj s s' t t' :
  0 ≤ s < 86400 → 0 ≤ s' < 86400 →
  time.clock_text s +:+ t = time.clock_text s' +:+ t' → s = s' ∧ t = t'.
Proof.
  intros Hs Hs' H. apply string_app_inj in H as [H ->].
  2: { unfold time.clock_text. by rewrite !string_length_app, !length_pad. }
  split; [|done]. unfold time.clock_text in H.
  apply string_app_inj in H as [Hh H]; [|by rewrite !length_pad].
  apply string_app_inj in H as [_ H]; [|done].
  apply string_app_inj in H as [Hm H]; [|by rewrite !length_pad].
  apply string_app_inj in H as [_ Hsec]; [|done].
  apply pad_inj in Hh; [|change (10 ^ Z.of_nat 2) with 100; Z.div_mod_to_equations; lia..].
  apply pad_inj in Hm; [|change (10 ^ Z.of_nat 2) with 100; Z.div_mod_to_equations; lia..].
  apply pad_inj in Hsec; [|change (10 ^ Z.of_nat 2) with 100; Z.div_mod_to_equations; lia..].
  Z.div_mod_to_equations; lia.
Qed.

Lemma app_one_inj s s' c : s +:+ String c "" = s' +:+ String c "" → s = s'.
Proof.
  intros H. pose proof (f_equal String.length H) as Hl. rewrite !string_length_app in Hl. simpl in Hl.
  apply string_app_inj in H as [? _]; [done|lia].
Qed.

Lemma String_tail c s s' : String c s = String c s' → s = s'.
Proof. congruence. Qed.

Lemma fraction_inj ns ns' :
  0 ≤ ns < second → 0 ≤ ns' < second → time.fraction ns = time.fraction ns' → ns = ns'.
Proof.
  unfold second, time.fraction. intros Hn Hn' H.
  destruct (Z.eqb_spec ns 0), (Z.eqb_spec ns' 0); subst; try done.
  apply String_tail in H. apply trim_zeros_inj in H; [|by rewrite !length_pad].
  by apply pad_inj in H.
Qed.

Lemma appendInt_4 y : 0 ≤ y ≤ 9999 → time.appendInt y 4 = time.pad 4 y.
Proof.
  intros Hy. unfold time.appendInt. rewrite Z.abs_eq by lia. change (10 ^ Z.of_nat 4) with 10000.
  destruct (Z.ltb_spec y 0), (Z.ltb_spec y 10000); try lia. apply string_app_nil_l.
Qed.

Lemma RFC3339Nano_inj t t' :
  in_years t → in_years t' → time.RFC3339Nano t = time.RFC3339Nano t' → t = t'.
Proof.
  unfold in_years, time.RFC3339Nano. intros Hy Hy' H.
  pose proof (Date_range (t / second / 86400)) as Hr.
  pose proof (Date_range (t' / second / 86400)) as Hr'.
  destruct (time.Date (t / second / 86400)) as [[y m] d] eqn:E,
    (time.Date (t' / second / 86400)) as [[y' m'] d'] eqn:E'.
  rewrite !appendInt_4 in H by done.
  apply string_app_inj in H as [H1 H]; [|by rewrite !length_pad].
  apply string_app_inj in H as [_ H]; [|done].
  apply string_app_inj in H as [H2 H]; [|by rewrite !length_pad].
  apply string_app_inj in H as [_ H]; [|done].
  apply string_app_inj in H as [H3 H]; [|by rewrite !length_pad].
  apply string_app_inj in H as [_ H]; [|done].
  apply pad_inj in H1; [|simpl; lia..]. apply pad_inj in H2; [|simpl; lia..].
  apply pad_inj in H3; [|simpl; lia..]. subst y' m' d'.
  apply clock_inj in H as [Hs H]; [|apply Z.mod_pos_bound; lia..].
  apply app_one_inj, fraction_inj in H; [|apply Z.mod_pos_bound; done..].
  rewrite <-E' in E. apply Date_inj in E.
  rewrite (Z.div_mod t second), (Z.div_mod t' second) by done.
  rewrite (Z.div_mod (t / second) 86400), (Z.div_mod (t' / second) 86400) by done. congruence.
Qed.

(** Every character of the text is one of these. *)
Definition date_char (c : ascii) : bool := is_digit c || bool_decide (c ∈ ["-"; ":"; "."; "T"; "Z"]%char).

Lemma digit_date n : date_char (time.digit n) = true.
Proof. unfold date_char, is_digit. by rewrite digit_nat. Qed.

Lemma pad_chars w n : all_chars date_char (time.pad w n) = true.
Proof.
  revert n. induction w as [|w IH]; intros n; [done|]. cbn [time.pad].
  rewrite all_chars_app, IH. cbn [all_chars]. by rewrite digit_date.
Qed.

Lemma trim_zeros_chars P s : all_chars P s = true → all_chars P (time.trim_zeros s) = true.
Proof.
  destruct (trim_zeros_spec s) as [k Hk]. rewrite Hk at 1. rewrite all_chars_app.
  by intros [? _]%andb_true_iff.
Qed.

Lemma RFC3339Nano_chars t : all_chars date_char (time.RFC3339Nano t) = true.
Proof.
  unfold time.RFC3339Nano. destruct (time.Date _) as [[y m] d].
  rewrite !all_chars_app, !pad_chars. unfold time.clock_text. rewrite !all_chars_app, !pad_chars.
  assert (all_chars date_char (time.appendInt y 4) = true) as ->.
  { unfold time.appendInt. rewrite all_chars_app. apply andb_true_iff. split; [by case_match|].
    case_match; [apply pad_chars|].
    destruct (Itoa_digits (Z.abs y)) as [Hd _]; [lia|].
    apply (all_chars_impl is_digit); [|done]. unfold date_char. by intros c ->. }
  unfold time.fraction. case_match; [done|]. cbn [all_chars].
  by rewrite trim_zeros_chars by apply pad_chars.
Qed.

Lemma RFC3339Nano_ne t : time.RFC3339Nano t ≠ "".
Proof.
  unfold time.RFC3339Nano. destruct (time.Date _) as [[y m] d]. intros H.
  apply (f_equal String.length) in H. rewrite !string_length_app in H. simpl in H. lia.
Qed.
