(* ===== verification/AuditLog.v ===== *)
(** * The audit log and its hash chain (packages/go/audit: event.go, store.go,
    memory.go, chain.go, emitter.go, middleware.go, verify.go)

    Every privileged action leaves an event. The emitter fills in who, from where
    and, when the chain is on, the MAC of the event before; [VerifyChain] walks a
    store's listing and compares. A store is the class [AuditStore] with the laws
    [AuditLaws]. Metadata values (Go's [any]) are a type [V] with [fmt_v], their
    text under %v; HMAC-SHA256 and the parser of network addresses (net/netip)
    are parameters. *)
From S2P Require Import Prelude GoStrings GoTime Hex.
From Stdlib Require Import Ascii.

(** ** Events (event.go) *)

Definition SeverityInfo : string := "info".
Definition SeverityWarning : string := "warning".
Definition SeverityCritical : string := "critical".
Definition Severity_Valid (s : string) : bool :=
  bool_decide (s ∈ [SeverityInfo; SeverityWarning; SeverityCritical]).

Record Event {V : Type} := mkEvent {
  ev_ID : string; ev_Time : Time; ActorUserID : string; ActorPluginSlug : string;
  EventType : string; ResourceType : string; ResourceID : string; ev_IP : string;
  ev_UserAgent : string; Metadata : gmap string V; Severity : string; PrevHash : string }.
Arguments Event : clear implicits.

Definition zero_event {V} : Event V := mkEvent V "" time_zero "" "" "" "" "" "" "" ∅ "" "".

(** The setters of single fields. *)
Definition set_ID {V} (v : string) (e : Event V) : Event V :=
  mkEvent V v (ev_Time e) (ActorUserID e) (ActorPluginSlug e) (EventType e) (ResourceType e)
    (ResourceID e) (ev_IP e) (ev_UserAgent e) (Metadata e) (Severity e) (PrevHash e).
Definition set_PrevHash {V} (v : string) (e : Event V) : Event V :=
  mkEvent V (ev_ID e) (ev_Time e) (ActorUserID e) (ActorPluginSlug e) (EventType e) (ResourceType e)
    (ResourceID e) (ev_IP e) (ev_UserAgent e) (Metadata e) (Severity e) v.

Definition userAgentMax : nat := 1024.

Definition normalize {V} (now : Time) (e : Event V) : Event V :=
  mkEvent V (ev_ID e) (if is_zero (ev_Time e) then now else ev_Time e) (ActorUserID e)
    (ActorPluginSlug e) (EventType e) (ResourceType e) (ResourceID e) (ev_IP e)
    (if userAgentMax <? String.length (ev_UserAgent e)
     then String.substring 0 userAgentMax (ev_UserAgent e) else ev_UserAgent e)
    (Metadata e) (if decide (Severity e = "") then SeverityInfo else Severity e) (PrevHash e).

(** ** Stores (store.go) *)

Inductive audit_error := ErrEventType | ErrSeverity (s : string) | ErrStore (why : string).

Definition validateForEmit {V} (e : Event V) : option audit_error :=
  if decide (EventType e = "") then Some ErrEventType
  else if decide (Severity e ≠ "" ∧ Severity_Valid (Severity e) = false) then Some (ErrSeverity (Severity e))
  else None.

Record Filter := mkFilter {
  f_Start : Time; f_End : Time; f_ActorUserID : string; f_PluginSlug : string;
  f_EventType : string; f_Severity : string; f_Limit : Z }.
Definition limit_filter (n : Z) : Filter := mkFilter time_zero time_zero "" "" "" "" n.

Definition matchFilter {V} (e : Event V) (f : Filter) : bool :=
  (is_zero (f_Start f) || negb (time_before (ev_Time e) (f_Start f))) &&
  (is_zero (f_End f) || negb (time_after (ev_Time e) (f_End f))) &&
  (bool_decide (f_ActorUserID f = "") || bool_decide (ActorUserID e = f_ActorUserID f)) &&
  (bool_decide (f_PluginSlug f = "") || bool_decide (ActorPluginSlug e = f_PluginSlug f)) &&
  (bool_decide (f_EventType f = "") || bool_decide (EventType e = f_EventType f)) &&
  (bool_decide (f_Severity f = "") || bool_decide (Severity e = f_Severity f)).

(** The operations of a store; [MostRecent] is what the chain is wired to. *)
Class AuditStore (V S : Type) := {
  Emit : S → Time → Event V → S * option audit_error;
  List : S → Filter → result string (list (Event V));
  MostRecent : S → result string (Event V);
}.

(** What a store promises: [rows] in the order of insertion; a call to [Emit]
    stores the normalized event or nothing; a listing is the newest first in the
    order [newer] of the store, cut at the limit. *)
Class AuditLaws (V S : Type) `{AuditStore V S} := {
  rows : S → list (Event V);
  newer : Event V → Event V → bool;
  newer_asym x y : newer x y = true → newer y x = false;
  newer_time x y : (ev_Time y < ev_Time x)%Z → newer x y = true;
  Emit_law s now e :
    (rows (Emit s now e).1 = rows s ∧ is_Some (Emit s now e).2) ∨
    (validateForEmit e = None ∧ (Emit s now e).2 = None ∧
     ∃ id, rows (Emit s now e).1 = rows s ++ [set_ID id (normalize now e)]);
  List_law s n : (0 < n)%Z →
    List s (limit_filter n) = Ok (take (Z.to_nat n) (sort_by newer (rows s)));
  MostRecent_law s : MostRecent s = Ok (default zero_event (last (rows s)));
}.

(** ** MemoryStore (memory.go) *)

Definition memoryDefaultLimit : Z := 100.

Record MemoryStore {V : Type} := mkMemoryStore { events : list (Event V); nextID : Z }.
Arguments MemoryStore : clear implicits.
Definition NewMemoryStore {V} : MemoryStore V := mkMemoryStore V [] 0.

Definition memory_MostRecent {V} (s : MemoryStore V) : result string (Event V) :=
  Ok (default zero_event (last (events s))).

Definition memory_Emit {V} (s : MemoryStore V) (now : Time) (e : Event V)
    : MemoryStore V * option audit_error :=
  match validateForEmit e with
  | Some err => (s, Some err)
  | None =>
      let normalized := normalize now e in
      let '(next, normalized) :=
        if decide (ev_ID normalized = "")
        then let n := wrap64 (nextID s + 1) in (n, set_ID ("mem-" +:+ strconv.Itoa n) normalized)
        else (nextID s, normalized) in
      (mkMemoryStore V (events s ++ [normalized]) next, None)
  end.

Definition memory_newer {V} (x y : Event V) : bool :=
  if (ev_Time x =? ev_Time y)%Z then String.ltb (ev_ID y) (ev_ID x) else time_after (ev_Time x) (ev_Time y).

Definition memory_List {V} (s : MemoryStore V) (f : Filter) : result string (list (Event V)) :=
  let filtered := sort_by memory_newer (filter (λ e, matchFilter e f = true) (events s)) in
  let limit := if (f_Limit f <=? 0)%Z then memoryDefaultLimit else f_Limit f in
  Ok (take (Z.to_nat limit) filtered).

#[export] Instance memory_store {V} : AuditStore V (MemoryStore V) := {
  Emit := memory_Emit; List := memory_List; MostRecent := memory_MostRecent }.

(** ** The chain (chain.go) *)

Definition minHMACKeyBytes : nat := 32.

Inductive key_error := ErrUnset | ErrShort (n : nat) | ErrEmptyKey.

Definition HMACKeyFromEnv (env : string) : result key_error string :=
  let raw := strings.TrimSpace env in
  if decide (raw = "") then Err ErrUnset else
  let fallback := if String.length raw <? minHMACKeyBytes then Err (ErrShort (String.length raw)) else Ok raw in
  match hex.DecodeString raw with
  | Some decoded => if minHMACKeyBytes <=? String.length decoded then Ok decoded else fallback
  | None => fallback
  end.

Definition unit_sep : ascii := "031".

Section chain.
Context {V : Type} (fmt_v : V → string) (hmac : string → string → string).

Definition canonicalMetadata (m : gmap string V) : string :=
  foldr (λ k b, k +:+ "=" +:+ default "" (fmt_v <$> m !! k) +:+ ";" +:+ b) ""
    (sort_strings (map fst (map_to_list m))).

Definition CanonicalBytes (e : Event V) : string :=
  let sep := String unit_sep "" in
  EventType e +:+ sep +:+ ActorUserID e +:+ sep +:+ ActorPluginSlug e +:+ sep +:+
  ResourceType e +:+ sep +:+ ResourceID e +:+ sep +:+ ev_IP e +:+ sep +:+ ev_UserAgent e +:+ sep +:+
  Severity e +:+ sep +:+ (if is_zero (ev_Time e) then "" else time.RFC3339Nano (ev_Time e)) +:+ sep +:+
  canonicalMetadata (Metadata e).

Definition ChainHash (key : string) (prev : Event V) : string :=
  if decide (EventType prev = "" ∧ is_zero (ev_Time prev) = true ∧ Metadata prev = ∅) then ""
  else hmac key (CanonicalBytes prev).

(** ** Verification (verify.go) *)

Inductive verify_error :=
| VerifyKey (e : key_error) | VerifyList (why : string)
| NoPrevHash (cur prev : string) | PrevHashMismatch (cur prev : string).

Fixpoint walk (key : string) (prev : Event V) (window : list (Event V)) : option verify_error :=
  match window with
  | [] => None
  | cur :: window =>
      let expected := ChainHash key prev in
      if decide (PrevHash cur = "" ∧ expected = "") then walk key cur window
      else if decide (PrevHash cur = "") then Some (NoPrevHash (ev_ID cur) (ev_ID prev))
      else if decide (expected = PrevHash cur) then walk key cur window
      else Some (PrevHashMismatch (ev_ID cur) (ev_ID prev))
  end.

Definition in_window (fromID toID : string) (e : Event V) : bool :=
  negb (negb (bool_decide (fromID = "")) && negb (bool_decide (fromID = "0")) && String.ltb (ev_ID e) fromID) &&
  negb (negb (bool_decide (toID = "")) && String.ltb toID (ev_ID e)).

Definition verify_window (key : string) (window : list (Event V)) : option verify_error :=
  match window with [] => None | prev :: window => walk key prev window end.

Definition VerifyChain {S : Type} `{AuditStore V S} (s : S) (key fromID toID : string) : option verify_error :=
  if decide (key = "") then Some (VerifyKey ErrEmptyKey) else
  match List s (limit_filter 1000) with
  | Err why => Some (VerifyList why)
  | Ok es => verify_window key (filter (λ e, in_window fromID toID e = true) (reverse es))
  end.
End chain.

(** ** The emitter (emitter.go) *)

(** A request as the emitter and the middleware read it: [hr_XFF] are the values
    of the X-Forwarded-For lines, in order. *)
Record AuditRequest := mkAuditRequest {
  hr_Method : string; hr_Path : string; hr_RemoteAddr : string; hr_XFF : list string;
  hr_UserAgent : string; hr_RequestID : string }.

(** [net.SplitHostPort]: the host, or nothing on a malformed address. *)
Module net.
Fixpoint last_index (sep : ascii) (s : string) : option (string * string) :=
  match s with
  | EmptyString => None
  | String c s =>
      match last_index sep s with
      | Some (a, b) => Some (String c a, b)
      | None => if Ascii.eqb c sep then Some ("", s) else None
      end
  end.

Fixpoint first_index (sep : ascii) (s : string) : option (string * string) :=
  match s with
  | EmptyString => None
  | String c s =>
      if Ascii.eqb c sep then Some ("", s)
      else match first_index sep s with Some (a, b) => Some (String c a, b) | None => None end
  end.

Definition has (c : ascii) (s : string) : bool := negb (all_chars (λ d, negb (Ascii.eqb d c)) s).

Definition SplitHostPort (hostport : string) : option (string * string) :=
  match last_index ":" hostport with
  | None => None
  | Some (before, port) =>
      match hostport with
      | String "[" rest =>
          match first_index "]" rest with
          | Some (host, String ":" after) =>
              if decide (after = port) then
                if has "[" rest || has "]" after then None else Some (host, port)
              else None
          | _ => None
          end
      | _ =>
          if has ":" before || has "[" hostport || has "]" hostport then None else Some (before, port)
      end
  end.
End net.

Section emitter.
Context {V S Addr Prefix : Type} `{AuditStore V S}.
Context (fmt_v : V → string) (hmac : string → string → string) (str : string → V).
Context (ParseAddr : string → option Addr) (PrefixContains : Prefix → Addr → bool).

Record ChainConfig := mkChainConfig {
  Key : string; PrevFetcher : option (S → result string (Event V)) }.

(** A nil configuration or a short key turns the chain off. *)
Definition Chain_Valid (c : option ChainConfig) : bool :=
  match c with
  | None => false
  | Some c => (minHMACKeyBytes <=? String.length (Key c)) &&
      match PrevFetcher c with Some _ => true | None => false end
  end.

Record Emitter := mkEmitter {
  actorUserID : string; pluginSlug : string; em_ip : string; em_userAgent : string;
  trustedProxies : list Prefix; chain : option ChainConfig }.

Definition NewEmitter : Emitter := mkEmitter "" "" "" "" [] None.
Definition WithChain (c : option ChainConfig) (e : Emitter) : Emitter :=
  mkEmitter (actorUserID e) (pluginSlug e) (em_ip e) (em_userAgent e) (trustedProxies e) c.
Definition WithTrustedProxies (ps : list Prefix) (e : Emitter) : Emitter :=
  mkEmitter (actorUserID e) (pluginSlug e) (em_ip e) (em_userAgent e) ps (chain e).
Definition WithActor (userID : string) (e : Emitter) : Emitter :=
  mkEmitter userID (pluginSlug e) (em_ip e) (em_userAgent e) (trustedProxies e) (chain e).
Definition WithPlugin (slug : string) (e : Emitter) : Emitter :=
  mkEmitter (actorUserID e) slug (em_ip e) (em_userAgent e) (trustedProxies e) (chain e).

Definition addrInPrefixes (a : Addr) (ps : list Prefix) : bool := existsb (λ p, PrefixContains p a) ps.

(** The hops from the last one back. *)
Fixpoint walk_hops (trusted : list Prefix) (host : string) (hops : list string) : string :=
  match hops with
  | [] => host
  | hop :: hops =>
      let candidate := strings.TrimSpace hop in
      if decide (candidate = "") then walk_hops trusted host hops else
      match ParseAddr candidate with
      | None => candidate
      | Some a => if negb (addrInPrefixes a trusted) then candidate else walk_hops trusted host hops
      end
  end.

Definition clientIP (e : Emitter) (r : AuditRequest) : string :=
  let host := match net.SplitHostPort (hr_RemoteAddr r) with Some (h, _) => h | None => hr_RemoteAddr r end in
  match trustedProxies e with
  | [] => host
  | _ =>
      match ParseAddr host with
      | None => host
      | Some peer =>
          if negb (addrInPrefixes peer (trustedProxies e)) then host else
          let xff := default "" (head (hr_XFF r)) in
          if decide (xff = "") then host
          else walk_hops (trustedProxies e) host (reverse (strings.Split "," xff))
      end
  end.

Definition WithHTTP (r : AuditRequest) (e : Emitter) : Emitter :=
  mkEmitter (actorUserID e) (pluginSlug e) (clientIP e r) (hr_UserAgent r) (trustedProxies e) (chain e).
Definition WithRequest (base : Emitter) (r : AuditRequest) (actor : string) : Emitter :=
  WithHTTP r (WithActor actor base).

(** *** Options *)

Definition EmitOption : Type := Event V → Event V.
Definition WithTarget (kind id : string) : EmitOption := λ e,
  mkEvent V (ev_ID e) (ev_Time e) (ActorUserID e) (ActorPluginSlug e) (EventType e) kind id
    (ev_IP e) (ev_UserAgent e) (Metadata e) (Severity e) (PrevHash e).
Definition WithSeverity (s : string) : EmitOption := λ e,
  mkEvent V (ev_ID e) (ev_Time e) (ActorUserID e) (ActorPluginSlug e) (EventType e) (ResourceType e)
    (ResourceID e) (ev_IP e) (ev_UserAgent e) (Metadata e) s (PrevHash e).
Definition WithMetadata (m : gmap string V) : EmitOption := λ e,
  mkEvent V (ev_ID e) (ev_Time e) (ActorUserID e) (ActorPluginSlug e) (EventType e) (ResourceType e)
    (ResourceID e) (ev_IP e) (ev_UserAgent e) (m ∪ Metadata e) (Severity e) (PrevHash e).
Definition WithActorOverride (userID : string) : EmitOption := λ e,
  mkEvent V (ev_ID e) (ev_Time e) userID (ActorPluginSlug e) (EventType e) (ResourceType e)
    (ResourceID e) (ev_IP e) (ev_UserAgent e) (Metadata e) (Severity e) (PrevHash e).
Definition WithIP (ip : string) : EmitOption := λ e,
  mkEvent V (ev_ID e) (ev_Time e) (ActorUserID e) (ActorPluginSlug e) (EventType e) (ResourceType e)
    (ResourceID e) ip (ev_UserAgent e) (Metadata e) (Severity e) (PrevHash e).

(** The event an emitter builds from its captured context and the options. *)
Definition draft (e : Emitter) (eventType : string) (opts : list EmitOption) : Event V :=
  foldl (λ ev opt, opt ev)
    (mkEvent V "" time_zero (actorUserID e) (pluginSlug e) eventType "" "" (em_ip e) (em_userAgent e)
       ∅ "" "") opts.

(** With the chain on, the whole body runs under [chainMu]; a failed fetch leaves
    the hash as it is. *)
Definition Emitter_Emit (e : Emitter) (s : S) (now : Time) (eventType : string) (opts : list EmitOption)
    : S * option audit_error :=
  if decide (eventType = "") then (s, Some ErrEventType) else
  let evt := draft e eventType opts in
  let evt :=
    match chain e with
    | Some (mkChainConfig key (Some fetch)) =>
        if Chain_Valid (chain e) then
          match fetch s with Ok prev => set_PrevHash (ChainHash fmt_v hmac key prev) evt | Err _ => evt end
        else evt
    | _ => evt
    end in
  Emit s now evt.

(** ** The middleware (middleware.go) *)

Definition isStateChanging (method : string) : bool :=
  bool_decide (method ∈ ["POST"; "PUT"; "PATCH"; "DELETE"]).

Record failureCounter := mkFailures { byKey : gmap string Z; total : Z }.
Definition IncEmitFailure (eventType : string) (c : failureCounter) : failureCounter :=
  let key := if decide (eventType = "") then "_unset" else eventType in
  mkFailures (<[key := wrap64 (default 0%Z (byKey c !! key) + 1)]> (byKey c)) (wrap64 (total c + 1)).
Definition DefaultEmitFailureCount (c : failureCounter) (eventType : string) : Z :=
  if decide (eventType = "") then total c else default 0%Z (byKey c !! eventType).

Definition Middleware {A} (emitter : Emitter) (next : S * failureCounter → A)
    (s : S) (f : failureCounter) (now : Time) (r : AuditRequest) : A :=
  if negb (isStateChanging (hr_Method r)) then next (s, f) else
  let e := WithHTTP r emitter in
  let meta := <["method" := str (hr_Method r)]> {["path" := str (hr_Path r)]} in
  let meta := if decide (hr_RequestID r = "") then meta else <["request_id" := str (hr_RequestID r)]> meta in
  let '(s, err) := Emitter_Emit e s now "http.request" [WithMetadata meta] in
  next (s, match err with Some _ => IncEmitFailure "http.request" f | None => f end).
End emitter.

(** ** Retention (postgres.go) *)

(** The DELETE of [PostgresStore.Sweep] on the rows of the table. *)
Definition Sweep {V} (now : Time) (retention : Duration) (l : list (Event V)) : list (Event V) * Z :=
  if (retention <=? 0)%Z then (l, 0%Z) else
  let kept := filter (λ e, negb (time_before (ev_Time e) (now - retention)
                                 && bool_decide (Severity e = SeverityInfo)) = true) l in
  (kept, (Z.of_nat (length l) - Z.of_nat (length kept))%Z).
