(* ===== verification/AuditProps.v ===== *)
(** * What the audit chain guarantees

    A chain emitted through any store verifies; a verified listing holds no event
    that was not emitted, its newest row apart; the recorded client address cannot
    be chosen by the client. The examples at the end show what the chain does not
    protect and where it cries wolf. *)
From S2P Require Import Prelude GoStrings Segments GoTime Hex AuditLog.
From Stdlib Require Import Ascii.

(** ** Listings *)

Lemma insert_by_last {A} (lt : A → A → bool) x l :
  Forall (λ y, lt y x = true) l → insert_by lt x l = l ++ [x].
Proof. induction 1 as [|y l Hy Hl IH]; [done|]. simpl. by rewrite Hy, IH. Qed.

Lemma sort_by_reverse {A} (lt : A → A → bool) l :
  StronglySorted (λ x y, lt y x = true) l → sort_by lt l = reverse l.
Proof.
  induction 1 as [|x l Hl IH Hx]; [done|]. simpl. rewrite IH, reverse_cons.
  apply insert_by_last. by rewrite reverse_Permutation.
Qed.

Lemma memory_newer_asym {V} (x y : Event V) : memory_newer x y = true → memory_newer y x = false.
Proof.
  unfold memory_newer, time_after. rewrite (Z.eqb_sym (ev_Time y)).
  destruct (Z.eqb_spec (ev_Time x) (ev_Time y)) as [E|E]; [apply string_ltb_asym|].
  intros H%Z.ltb_lt. apply Z.ltb_ge. lia.
Qed.

#[export] Program Instance memory_laws {V} : AuditLaws V (MemoryStore V) := {
  rows := events; newer := memory_newer }.
Next Obligation. intros V x y. apply memory_newer_asym. Qed.
Next Obligation.
  intros V x y H. unfold memory_newer, time_after. destruct (Z.eqb_spec (ev_Time x) (ev_Time y)); [lia|].
  by apply Z.ltb_lt.
Qed.
Next Obligation.
  intros V s now e. simpl. unfold memory_Emit. destruct (validateForEmit e) as [err|] eqn:E; [left; eauto|].
  right. split; [done|]. case_decide; split; simpl; [done|eauto|done|].
  exists (ev_ID (normalize now e)). by destruct e.
Qed.
Next Obligation.
  intros V s n Hn. simpl. unfold memory_List. simpl. destruct (Z.leb_spec n 0); [lia|].
  rewrite filter_all; [done|]. intros e _. done.
Qed.
Next Obligation. done. Qed.

(** ** Honest chains *)

Section honest.
Context {V S Addr Prefix : Type} `{AuditLaws V S}.
Context (fmt_v : V → string) (hmac : string → string → string).

Fixpoint linked (key : string) (prev : Event V) (l : list (Event V)) : Prop :=
  match l with
  | [] => True
  | e :: l => PrevHash e = ChainHash fmt_v hmac key prev ∧ linked key e l
  end.

Lemma linked_snoc key prev l e :
  linked key prev (l ++ [e]) ↔
  linked key prev l ∧ PrevHash e = ChainHash fmt_v hmac key (default prev (last l)).
Proof.
  revert prev. induction l as [|x l IH]; intros prev; simpl; [tauto|].
  rewrite IH, last_cons. destruct (last l); simpl; tauto.
Qed.

Lemma walk_linked key prev l : walk fmt_v hmac key prev l = None ↔ linked key prev l.
Proof.
  revert prev. induction l as [|e l IH]; intros prev; [done|]. simpl. rewrite <-IH.
  repeat case_decide; intuition congruence.
Qed.

Lemma linked_drop key prev l k : linked key prev l → verify_window fmt_v hmac key (drop k l) = None.
Proof.
  revert prev k. induction l as [|e l IH]; intros prev k; [by destruct k|].
  intros [_ Hl]. destruct k as [|k]; simpl; [by apply walk_linked|by apply (IH e)].
Qed.

(** Calls of [Emit] in a row, each by an emitter of its own. *)
Record emission := mkEmission {
  by_ : @Emitter V S Prefix; at_ : Time; type_ : string; with_ : list (@EmitOption V) }.
Definition emit_all (s : S) (l : list emission) : S :=
  foldl (λ s x, (Emitter_Emit fmt_v hmac (by_ x) s (at_ x) (type_ x) (with_ x)).1) s l.

Definition chained (key : string) (x : emission) : Prop :=
  chain (by_ x) = Some (mkChainConfig key (Some MostRecent)).

Lemma emit_linked key s x :
  (minHMACKeyBytes ≤ String.length key)%nat → chained key x →
  linked key zero_event (rows s) → linked key zero_event (rows (emit_all s [x])).
Proof.
  unfold chained. simpl. intros Hk Hc Hl. unfold Emitter_Emit. rewrite Hc. case_decide; [done|].
  assert (Chain_Valid (Some (mkChainConfig key (Some MostRecent))) = true) as ->.
  { apply andb_true_iff. split; [by apply Nat.leb_le|done]. }
  rewrite MostRecent_law.
  match goal with |- context [Emit s ?now ?e] =>
    destruct (Emit_law s now e) as [[-> _]|(_ & _ & id & ->)]; [done|] end.
  apply linked_snoc. split; [done|]. done.
Qed.

Lemma chain_linked key s l :
  (minHMACKeyBytes ≤ String.length key)%nat → Forall (chained key) l →
  linked key zero_event (rows s) → linked key zero_event (rows (emit_all s l)).
Proof.
  intros Hk Hl. revert s. induction Hl as [|x l Hx Hl IH]; intros s Hs; [done|].
  apply IH. by apply (emit_linked key s x).
Qed.
End honest.

(** ** What the canonical bytes determine *)

Definition lacks (c : ascii) (s : string) : bool := all_chars (λ d, negb (Ascii.eqb d c)) s.

Lemma cut_inj c s s' t t' :
  lacks c s = true → lacks c s' = true → s +:+ String c t = s' +:+ String c t' → s = s' ∧ t = t'.
Proof.
  unfold lacks. revert s'. induction s as [|d s IH]; intros [|d' s']; simpl.
  - intros _ _ H. rewrite !string_app_nil_l in H. by injection H.
  - intros _ [Hd _]%andb_true_iff H. rewrite string_app_nil_l, string_app_cons in H. injection H as -> _.
    by rewrite Ascii.eqb_refl in Hd.
  - intros [Hd _]%andb_true_iff _ H. rewrite string_app_nil_l, string_app_cons in H. injection H as -> _.
    by rewrite Ascii.eqb_refl in Hd.
  - intros [_ Hs]%andb_true_iff [_ Hs']%andb_true_iff H. rewrite !string_app_cons in H.
    injection H as -> H. destruct (IH s' Hs Hs' H) as [-> ->]. done.
Qed.

Section content.
Context {V : Type} (fmt_v : V → string).

(** An event whose text can be cut up again. *)
Record plain (e : Event V) : Prop := {
  plain_type : EventType e ≠ "";
  plain_fields : Forall (λ s, lacks unit_sep s = true)
    [EventType e; ActorUserID e; ActorPluginSlug e; ResourceType e; ResourceID e; ev_IP e;
     ev_UserAgent e; Severity e];
  plain_time : in_years (ev_Time e);
  plain_metadata : map_Forall (λ k v, lacks "=" k = true ∧ lacks ";" (fmt_v v) = true)
    (Metadata e) }.

(** The content the chain protects: everything but the ID and the link. *)
Definition same_content (e a : Event V) : Prop :=
  EventType e = EventType a ∧ ActorUserID e = ActorUserID a ∧ ActorPluginSlug e = ActorPluginSlug a ∧
  ResourceType e = ResourceType a ∧ ResourceID e = ResourceID a ∧ ev_IP e = ev_IP a ∧
  ev_UserAgent e = ev_UserAgent a ∧ Severity e = Severity a ∧ ev_Time e = ev_Time a ∧
  fmt_v <$> Metadata e = fmt_v <$> Metadata a.

Fixpoint pairs_text (l : list (string * string)) : string :=
  match l with [] => "" | (k, v) :: l => k +:+ "=" +:+ v +:+ ";" +:+ pairs_text l end.

Definition plain_pair (kv : string * string) : Prop :=
  lacks "=" kv.1 = true ∧ lacks ";" kv.2 = true.

Lemma string_app_cons_ne s c t : s +:+ String c t ≠ "".
Proof. destruct s; discriminate. Qed.

Lemma pairs_text_inj l l' :
  Forall plain_pair l → Forall plain_pair l' → pairs_text l = pairs_text l' → l = l'.
Proof.
  intros Hl. revert l'. induction Hl as [|[k v] l [Hk Hv] Hl IH]; intros l' Hl'.
  { destruct Hl' as [|[k v] l' _ _]; [done|]. intros H. symmetry in H. by apply string_app_cons_ne in H. }
  destruct Hl' as [|[k' v'] l' [Hk' Hv'] Hl']; [intros H; by apply string_app_cons_ne in H|].
  intros H. cbn [pairs_text] in H. simpl in *.
  apply cut_inj in H as [-> H]; [|done..]. apply cut_inj in H as [-> H]; [|done..].
  by rewrite (IH l').
Qed.

Definition sorted_keys (m : gmap string V) : list string := sort_strings (map fst (map_to_list m)).
Definition value_text (m : gmap string V) (k : string) : string := default "" (fmt_v <$> m !! k).

Lemma canonicalMetadata_pairs m :
  canonicalMetadata fmt_v m = pairs_text (map (λ k, (k, value_text m k)) (sorted_keys m)).
Proof.
  unfold canonicalMetadata, value_text. fold (sorted_keys m).
  induction (sorted_keys m) as [|k ks IH]; [done|]. simpl. by rewrite IH.
Qed.

Lemma elem_of_sorted_keys m k : k ∈ sorted_keys m ↔ is_Some (m !! k).
Proof.
  unfold sorted_keys. rewrite elem_of_sort_strings. split.
  - intros ([k' v] & -> & Hv)%list_elem_of_fmap. apply elem_of_map_to_list in Hv. eauto.
  - intros [v Hv]. apply list_elem_of_fmap. exists (k, v). split; [done|]. by apply elem_of_map_to_list.
Qed.

Lemma plain_pairs m :
  map_Forall (λ k v, lacks "=" k = true ∧ lacks ";" (fmt_v v) = true) m →
  Forall plain_pair (map (λ k, (k, value_text m k)) (sorted_keys m)).
Proof.
  intros Hm. apply Forall_forall. intros kv (k & -> & Hk)%list_elem_of_fmap.
  apply elem_of_sorted_keys in Hk as [v Hv]. destruct (Hm k v Hv) as [He Hs].
  split; [done|]. simpl. unfold value_text. by rewrite Hv.
Qed.

Lemma canonicalMetadata_inj m m' :
  map_Forall (λ k v, lacks "=" k = true ∧ lacks ";" (fmt_v v) = true) m →
  map_Forall (λ k v, lacks "=" k = true ∧ lacks ";" (fmt_v v) = true) m' →
  canonicalMetadata fmt_v m = canonicalMetadata fmt_v m' → fmt_v <$> m = fmt_v <$> m'.
Proof.
  intros Hm Hm'. rewrite !canonicalMetadata_pairs. intros H.
  apply pairs_text_inj in H; [|by apply plain_pairs..].
  assert (sorted_keys m = sorted_keys m') as Hks.
  { apply (f_equal (map fst)) in H. by rewrite !map_map, !map_id in H. }
  rewrite <-Hks in H. apply map_eq. intros k. rewrite !lookup_fmap.
  destruct (decide (k ∈ sorted_keys m)) as [Hk|Hk].
  - apply ext_in_map with (a := k) in H; [|by apply list_elem_of_In]. injection H as Hv.
    unfold value_text in Hv. pose proof Hk as Hk'. rewrite Hks in Hk'.
    apply elem_of_sorted_keys in Hk as [v Ev], Hk' as [v' Ev']. rewrite Ev, Ev' in *. simpl in *. congruence.
  - pose proof Hk as Hk'. rewrite Hks in Hk'. rewrite elem_of_sorted_keys, <-eq_None_not_Some in Hk, Hk'.
    by rewrite Hk, Hk'.
Qed.

Lemma time_text_lacks t :
  lacks unit_sep (if is_zero t then "" else time.RFC3339Nano t) = true.
Proof.
  case_match; [done|]. apply (all_chars_impl date_char); [|apply RFC3339Nano_chars].
  intros c Hc. apply negb_true_iff. apply Ascii.eqb_neq. intros ->. done.
Qed.

Lemma time_text_inj t t' :
  in_years t → in_years t' →
  (if is_zero t then "" else time.RFC3339Nano t) = (if is_zero t' then "" else time.RFC3339Nano t') → t = t'.
Proof.
  intros Ht Ht'. unfold is_zero. destruct (Z.eqb_spec t time_zero), (Z.eqb_spec t' time_zero); intros H.
  - congruence.
  - symmetry in H. by apply RFC3339Nano_ne in H.
  - by apply RFC3339Nano_ne in H.
  - by apply RFC3339Nano_inj.
Qed.

Lemma CanonicalBytes_inj e a :
  plain e → plain a → CanonicalBytes fmt_v e = CanonicalBytes fmt_v a → same_content e a.
Proof.
  intros [_ He Het Hem] [_ Ha Hat Ham] H. unfold CanonicalBytes in H. rewrite !Forall_cons in He, Ha.
  destruct He as (?&?&?&?&?&?&?&?&_), Ha as (?&?&?&?&?&?&?&?&_).
  do 8 (apply cut_inj in H as [? H]; [|done..]).
  apply cut_inj in H as [Ht H]; [|apply time_text_lacks..].
  apply time_text_inj in Ht; [|done..]. apply canonicalMetadata_inj in H; [|done..].
  unfold same_content. tauto.
Qed.
End content.

(** ** Forged listings *)

Section forged.
Context {V : Type} (fmt_v : V → string) (hmac : string → string → string).

Lemma window_pairs key l i e next :
  verify_window fmt_v hmac key l = None → l !! i = Some e → l !! S i = Some next →
  PrevHash next = ChainHash fmt_v hmac key e.
Proof.
  destruct l as [|prev l]; [done|]. simpl. rewrite walk_linked. intros Hl.
  revert prev i Hl. induction l as [|cur l IH]; intros prev i Hl He Hn; [done|].
  destruct Hl as [Hc Hl], i as [|i]; [by simplify_eq/=|]. by apply (IH cur i).
Qed.
End forged.

(** ** The client address *)

Section address.
Context {V S Addr Prefix : Type} `{AuditStore V S}.
Context (ParseAddr : string → option Addr) (PrefixContains : Prefix → Addr → bool).

Definition peer_of (r : AuditRequest) : string :=
  match net.SplitHostPort (hr_RemoteAddr r) with Some (h, _) => h | None => hr_RemoteAddr r end.

(** A hop that is the address of a trusted proxy. *)
Definition trusted (ps : list Prefix) (hop : string) : bool :=
  match ParseAddr hop with Some a => addrInPrefixes PrefixContains a ps | None => false end.

(** The hops of a header line that are there and not trusted proxies. *)
Definition strangers (ps : list Prefix) (xff : string) : list string :=
  filter (λ h, h ≠ "" ∧ trusted ps h = false) (strings.TrimSpace <$> strings.Split "," xff).

Lemma walk_hops_spec ps host hops :
  walk_hops ParseAddr PrefixContains ps host hops =
    default host (head (filter (λ h, h ≠ "" ∧ trusted ps h = false) (strings.TrimSpace <$> hops))).
Proof.
  induction hops as [|hop hops IH]; [done|]. cbn [walk_hops fmap list_fmap]. rewrite filter_cons.
  assert (match ParseAddr (strings.TrimSpace hop) with
          | None => strings.TrimSpace hop
          | Some a => if negb (addrInPrefixes PrefixContains a ps) then strings.TrimSpace hop
                      else walk_hops ParseAddr PrefixContains ps host hops end
          = if trusted ps (strings.TrimSpace hop) then walk_hops ParseAddr PrefixContains ps host hops
            else strings.TrimSpace hop) as ->.
  { unfold trusted. destruct (ParseAddr _) as [a|]; [|done]. by destruct (addrInPrefixes _ _ _). }
  rewrite IH. destruct (decide (strings.TrimSpace hop = "")) as [E|E], (trusted ps _) eqn:Et;
    case_decide; naive_solver.
Qed.

Lemma head_reverse {A} (l : list A) : head (reverse l) = last l.
Proof. induction l as [|x l IH] using rev_ind; [done|]. by rewrite reverse_snoc, last_snoc. Qed.

Lemma strangers_last ps xff :
  head (filter (λ h, h ≠ "" ∧ trusted ps h = false) (strings.TrimSpace <$> reverse (strings.Split "," xff)))
  = last (strangers ps xff).
Proof. by rewrite fmap_reverse, filter_reverse, head_reverse. Qed.

Lemma clientIP_spec (e : @Emitter V S Prefix) r :
  clientIP ParseAddr PrefixContains e r =
    if trusted (trustedProxies e) (peer_of r)
    then default (peer_of r) (last (strangers (trustedProxies e) (default "" (head (hr_XFF r)))))
    else peer_of r.
Proof.
  unfold clientIP. fold (peer_of r). unfold trusted. destruct (trustedProxies e) as [|p ps] eqn:E.
  { by destruct (ParseAddr (peer_of r)). }
  rewrite <-E. destruct (ParseAddr (peer_of r)) as [a|]; [|done].
  destruct (addrInPrefixes PrefixContains a (trustedProxies e)); [|done]. simpl.
  case_decide as Hx; [by rewrite Hx|]. by rewrite walk_hops_spec, strangers_last.
Qed.
End address.

(** ** Properties *)

Section properties.
Context {V S Addr Prefix : Type} `{AuditLaws V S}.
Context (fmt_v : V → string) (hmac : string → string → string).

(** C3. A log that only chained emitters wrote verifies: whatever the store, the
    events, the options and the clocks, however many rows there are and whichever
    calls were refused, [VerifyChain] over the whole log finds no break, as long
    as the store lists the rows in the order they were written. *)
Theorem honest_chain_verifies key (s : S) (l : list (emission (Prefix:=Prefix))) from_ :
  (minHMACKeyBytes ≤ String.length key)%nat → rows s = [] → Forall (chained key) l →
  from_ = "" ∨ from_ = "0" →
  StronglySorted (λ x y, newer y x = true) (rows (emit_all fmt_v hmac s l)) →
  VerifyChain fmt_v hmac (emit_all fmt_v hmac s l) key from_ "" = None.
Proof.
  intros Hk Hs Hl Hf Hsort. unfold VerifyChain. rewrite decide_False by (by intros ->; unfold minHMACKeyBytes in Hk; simpl in Hk; lia).
  rewrite List_law, sort_by_reverse, take_reverse, reverse_involutive by done.
  rewrite filter_all by (intros e _; by destruct Hf as [-> | ->]).
  apply (linked_drop fmt_v hmac key zero_event). apply chain_linked; [done..|]. by rewrite Hs.
Qed.

(** C24. No forged content in a verified window: whoever rewrites the table
    without the key can only reuse MACs that were issued, so in a window that
    verifies every row but the newest has the content (type, actor, plugin,
    target, address, agent, severity, time, metadata) of an event whose MAC was
    issued, provided HMAC has no collision between the two and separators occur in
    no field. *)
Theorem verified_rows_authentic key (s : S) (issued es : list (Event V)) from_ to_ i e next :
  List s (limit_filter 1000) = Ok es →
  (∀ m, hmac key m ≠ "") →
  (∀ x a, x ∈ es → a ∈ issued →
     hmac key (CanonicalBytes fmt_v x) = hmac key (CanonicalBytes fmt_v a) →
     CanonicalBytes fmt_v x = CanonicalBytes fmt_v a) →
  (∀ x, x ∈ es → PrevHash x = "" ∨ ∃ a, a ∈ issued ∧ PrevHash x = hmac key (CanonicalBytes fmt_v a)) →
  (∀ x, x ∈ es ∨ x ∈ issued → plain fmt_v x) →
  VerifyChain fmt_v hmac s key from_ to_ = None →
  let window := filter (λ x, in_window from_ to_ x = true) (reverse es) in
  window !! i = Some e → window !! Datatypes.S i = Some next →
  ∃ a, a ∈ issued ∧ same_content fmt_v e a.
Proof.
  intros Hes Hne Hcol Hmac Hplain Hv window He Hn. unfold VerifyChain in Hv. case_decide; [done|].
  rewrite Hes in Hv. pose proof (window_pairs fmt_v hmac key _ i e next Hv He Hn) as Hnext.
  assert (∀ x, x ∈ window → x ∈ es) as Hin.
  { intros x [_ Hx]%list_elem_of_filter. by rewrite reverse_Permutation in Hx. }
  apply list_elem_of_lookup_2, Hin in He as Hee. apply list_elem_of_lookup_2, Hin in Hn as Hen.
  pose proof (Hplain e (or_introl Hee)) as Hpe.
  unfold ChainHash in Hnext. rewrite decide_False in Hnext by (intros [Ht _]; by apply (plain_type _ _ Hpe)).
  destruct (Hmac next Hen) as [E|(a & Ha & E)]; [rewrite E in Hnext; by destruct (Hne _ (eq_sym Hnext))|].
  exists a. split; [done|]. apply CanonicalBytes_inj; [done|by apply Hplain; right|].
  apply Hcol; [done..|]. congruence.
Qed.

Context (ParseAddr : string → option Addr) (PrefixContains : Prefix → Addr → bool).

(** The recorded address cannot be chosen by the client: without a trusted
    peer the header is not read at all; behind a trusted peer nothing that stands
    before a hop that is no trusted proxy has any influence, and the answer is the
    last such hop; otherwise it is the peer itself. *)
Theorem clientIP_unforgeable (e : @Emitter V S Prefix) r :
  let ps := trustedProxies e in
  let ip := clientIP ParseAddr PrefixContains e r in
  (trusted ParseAddr PrefixContains ps (peer_of r) = false → ip = peer_of r) ∧
  (trusted ParseAddr PrefixContains ps (peer_of r) = true →
   ∀ spoof tail lines hop,
     hr_XFF r = (spoof +:+ "," +:+ tail) :: lines →
     last (strangers ParseAddr PrefixContains ps tail) = Some hop → ip = hop) ∧
  (ip = peer_of r ∨ (ip ≠ "" ∧ trusted ParseAddr PrefixContains ps ip = false)).
Proof.
  intros ps ip. unfold ip. rewrite clientIP_spec. fold ps. split; [by intros ->|]. split.
  - intros -> spoof tail lines hop -> Hhop. simpl. unfold strangers in *.
    change (spoof +:+ "," +:+ tail) with (spoof +:+ String "," tail).
    rewrite Split_app_sep, fmap_app, filter_app, last_app, Hhop. done.
  - destruct (trusted _ _ ps (peer_of r)); [|by left].
    destruct (last _) as [hop|] eqn:E; [right|by left]. simpl.
    apply last_Some_elem_of, list_elem_of_filter in E as [? _]. done.
Qed.
End properties.

(** ** Runs *)

Definition demo_key : string := "kkkkkkkkkkkkkkkkkkkkkkkkkkkkkkkk".
Definition demo_fmt (v : string) : string := v.
Definition demo_mac (key msg : string) : string := "#" +:+ key +:+ msg.
Abbreviation demo_store := (MemoryStore string) (only parsing).

(** A toy address parser: addresses are digits and dots, prefixes are texts. *)
Definition demo_addr (s : string) : option string :=
  if all_chars (λ c, is_digit c || Ascii.eqb c ".") s then Some s else None.
Definition demo_contains (p a : string) : bool := strings.HasPrefix a p.

Definition demo_emitter : @Emitter string demo_store string := NewEmitter.
Definition demo_chained : @Emitter string demo_store string :=
  WithChain (Some (mkChainConfig demo_key (Some MostRecent))) demo_emitter.
Definition demo_emission (sec : Z) (type : string) (opts : list (@EmitOption string)) :
    emission (V:=string) (S:=demo_store) (Prefix:=string) :=
  mkEmission (WithActor "alice" demo_chained) ((1700000000 + sec) * second) type opts.
Definition demo_run (l : list (emission (V:=string) (S:=demo_store) (Prefix:=string))) : demo_store :=
  emit_all demo_fmt demo_mac NewMemoryStore l.
Definition demo_verify (s : demo_store) (from_ to_ : string) : option verify_error :=
  VerifyChain demo_fmt demo_mac s demo_key from_ to_.

Definition demo_log : list (emission (V:=string) (S:=demo_store) (Prefix:=string)) :=
  [ demo_emission 1 "auth.login.success" [WithMetadata {["method" := "password"]}];
    demo_emission 2 "" [];
    demo_emission 3 "settings.updated" [WithTarget "setting" "title"; WithSeverity "warning"];
    demo_emission 4 "plugin.activated" [WithSeverity "loud"];
    demo_emission 5 "policy.denied" [WithTarget "post" "7"] ].

Lemma demo_chained_all : Forall (chained demo_key) demo_log.
Proof. by repeat constructor. Qed.

Lemma demo_ids : map ev_ID (events (demo_run demo_log)) = ["mem-1"; "mem-2"; "mem-3"].
Proof. vm_compute. reflexivity. Qed.

Lemma demo_ascending :
  StronglySorted (λ x y : Event string, memory_newer y x = true) (events (demo_run demo_log)).
Proof. apply (bool_decide_unpack _). vm_compute. exact I. Qed.

Lemma honest_chain_verifies_witness :
  length (events (demo_run demo_log)) = 3 ∧ demo_verify (demo_run demo_log) "" "" = None.
Proof.
  split; [vm_compute; reflexivity|].
  apply (honest_chain_verifies demo_fmt demo_mac demo_key NewMemoryStore demo_log "");
    [vm_compute; lia|done|exact demo_chained_all|by left|exact demo_ascending].
Defined.

Lemma demo_mac_inj k m m' : demo_mac k m = demo_mac k m' → m = m'.
Proof.
  unfold demo_mac. intros H. apply string_app_inj in H as [_ H]; [|done].
  by apply string_app_inj in H as [_ H].
Qed.

Definition demo_rows : list (Event string) := events (demo_run demo_log).

Definition plain_check (e : Event string) : bool :=
  bool_decide (EventType e ≠ "") &&
  forallb (lacks unit_sep) [EventType e; ActorUserID e; ActorPluginSlug e; ResourceType e;
    ResourceID e; ev_IP e; ev_UserAgent e; Severity e] &&
  (let '(y, _, _) := time.Date (ev_Time e / second / 86400) in (0 <=? y) && (y <=? 9999))%Z &&
  bool_decide (map_Forall (λ k v, lacks "=" k = true ∧ lacks ";" (demo_fmt v) = true) (Metadata e)).

Lemma plain_checked e : plain_check e = true → plain demo_fmt e.
Proof.
  unfold plain_check. rewrite !andb_true_iff. intros [[[Ht Hf] Hy] Hm].
  split; [by apply bool_decide_eq_true in Ht| | |by apply bool_decide_eq_true in Hm].
  - apply List.Forall_forall. by apply forallb_forall.
  - unfold in_years. destruct (time.Date _) as [[y m] d]. apply andb_true_iff in Hy as [?%Z.leb_le ?%Z.leb_le]. lia.
Qed.

Lemma demo_plain e : e ∈ reverse demo_rows ∨ e ∈ take 2 demo_rows → plain demo_fmt e.
Proof.
  intros He. apply plain_checked. assert (e ∈ demo_rows) as Hr.
  { destruct He as [He|He]; [by rewrite reverse_Permutation in He|by apply elem_of_take in He as (?&?&_); eapply list_elem_of_lookup_2]. }
  assert (forallb plain_check demo_rows = true) as Hall by (vm_compute; reflexivity).
  rewrite forallb_forall in Hall. by apply Hall, list_elem_of_In.
Qed.

Lemma demo_issued e : e ∈ reverse demo_rows →
  PrevHash e = "" ∨ ∃ a, a ∈ take 2 demo_rows ∧ PrevHash e = demo_mac demo_key (CanonicalBytes demo_fmt a).
Proof.
  assert (Forall (λ e, PrevHash e = "" ∨
    Exists (λ a, PrevHash e = demo_mac demo_key (CanonicalBytes demo_fmt a)) (take 2 demo_rows))
    (reverse demo_rows)) as Hall by (apply (bool_decide_unpack _); vm_compute; exact I).
  rewrite Forall_forall in Hall. intros He. destruct (Hall e He) as [?|Hx]; [by left|right].
  by apply Exists_exists in Hx.
Qed.

Definition demo_row (i : nat) : Event string := default zero_event (demo_rows !! i).

Lemma demo_window i : i ≤ 1 →
  filter (λ x, in_window "" "" x = true) (reverse (reverse demo_rows)) !! i = Some (demo_row i) ∧
  filter (λ x, in_window "" "" x = true) (reverse (reverse demo_rows)) !! S i = Some (demo_row (S i)).
Proof. intros Hi. destruct i as [|[|]]; [split; vm_compute; reflexivity..|lia]. Qed.

Lemma demo_listing : List (demo_run demo_log) (limit_filter 1000) = Ok (reverse demo_rows).
Proof. vm_compute. reflexivity. Qed.

Lemma verified_rows_authentic_witness :
  EventType (demo_row 1) = "settings.updated" ∧
  ∃ a, a ∈ take 2 demo_rows ∧ same_content demo_fmt (demo_row 1) a.
Proof.
  split; [vm_compute; reflexivity|].
  apply (verified_rows_authentic demo_fmt demo_mac demo_key (demo_run demo_log) (take 2 demo_rows)
    (reverse demo_rows) "" "" 1 (demo_row 1) (demo_row 2));
    [exact demo_listing|done|intros x a _ _; apply demo_mac_inj|exact demo_issued|exact demo_plain
    |vm_compute; reflexivity|exact (proj1 (demo_window 1 (le_n 1)))|exact (proj2 (demo_window 1 (le_n 1)))].
Defined.

Definition demo_request (xff : list string) : AuditRequest :=
  mkAuditRequest "POST" "/login" "10.0.0.1:443" xff "curl" "".
Definition demo_proxied : @Emitter string demo_store string := WithTrustedProxies ["10."] demo_emitter.

Lemma clientIP_unforgeable_witness :
  peer_of (demo_request []) = "10.0.0.1" ∧
  clientIP demo_addr demo_contains demo_proxied (demo_request ["6.6.6.6,1.2.3.4, 10.0.0.7"]) = "1.2.3.4".
Proof.
  split; [vm_compute; reflexivity|].
  destruct (clientIP_unforgeable demo_addr demo_contains demo_proxied
    (demo_request ["6.6.6.6,1.2.3.4, 10.0.0.7"])) as (_ & Hproxied & _).
  apply (Hproxied eq_refl "6.6.6.6" "1.2.3.4, 10.0.0.7" []); vm_compute; reflexivity.
Defined.

(** ** What the chain does not protect, and false alarms *)

Definition demo_ticks (n : nat) (gap : Z) : list (emission (V:=string) (S:=demo_store) (Prefix:=string)) :=
  map (λ i, demo_emission (gap * Z.of_nat i) ("tick." +:+ strconv.Itoa (Z.of_nat i)) []) (seq 0 n).

(** Ten events of one instant: the tie is broken by the text of the IDs, so the
    tenth is listed second. *)
Example equal_times_break_chain :
  demo_verify (demo_run (demo_ticks 9 0)) "" "" = None ∧
  demo_verify (demo_run (demo_ticks 10 0)) "" "" = Some (PrevHashMismatch "mem-10" "mem-1").
Proof. split; vm_compute; reflexivity. Qed.

(** The bounds of the window are compared as texts: the window up to mem-2 holds
    mem-10 too, and is reported broken. *)
Example toID_compares_text :
  demo_verify (demo_run (demo_ticks 10 1)) "" "" = None ∧
  demo_verify (demo_run (demo_ticks 10 1)) "" "mem-2" = Some (PrevHashMismatch "mem-10" "mem-2").
Proof. split; vm_compute; reflexivity. Qed.

(** Two rows written before the chain was on are reported as a break. *)
Example pre_chain_rows_fail :
  demo_verify (emit_all demo_fmt demo_mac NewMemoryStore
    [mkEmission demo_emitter (second * 1700000001) "a" []; mkEmission demo_emitter (second * 1700000002) "b" []])
    "" "" = Some (NoPrevHash "mem-2" "mem-1").
Proof. vm_compute. reflexivity. Qed.

(** An emitter derived before [WithChain] keeps writing without a link. *)
Example derived_before_chain_unlinked :
  let derived := WithActor "bob" demo_emitter in
  demo_verify (demo_run [demo_emission 1 "a" []; mkEmission derived (second * 1700000002) "b" []]) "" ""
  = Some (NoPrevHash "mem-2" "mem-1").
Proof. vm_compute. reflexivity. Qed.

(** Retention deletes old rows of severity info only; an old warning then precedes
    a row that links to a deleted one. *)
Example Sweep_breaks_chain :
  let s := demo_run [demo_emission 1 "a" [WithSeverity "warning"]; demo_emission 2 "b" [];
                     demo_emission 1000 "c" []] in
  let '(kept, n) := Sweep ((1700000000 + 1000) * second) (100 * second) (events s) in
  demo_verify s "" "" = None ∧ n = 1%Z ∧
  demo_verify (mkMemoryStore string kept (nextID s)) "" "" = Some (PrevHashMismatch "mem-3" "mem-1").
Proof. vm_compute. done. Qed.

(** The MAC covers the content of the row before, not its link: a row can be
    deleted if its link is copied to the next row. *)
Example deleted_row_unnoticed :
  let rows := demo_rows in
  let forged := [demo_row 0; set_PrevHash (PrevHash (demo_row 1)) (demo_row 2)] in
  demo_verify (mkMemoryStore string rows 3) "" "" = None ∧
  demo_verify (mkMemoryStore string forged 3) "" "" = None.
Proof. split; vm_compute; reflexivity. Qed.

(** Nothing protects the newest row. *)
Example newest_row_unprotected :
  let forged := [demo_row 0; demo_row 1; WithTarget "post" "8" (demo_row 2)] in
  demo_verify (mkMemoryStore string forged 3) "" "" = None.
Proof. vm_compute. reflexivity. Qed.

(** Fields are not checked for the separator, nor metadata for theirs. *)
Example separator_moves_boundary :
  CanonicalBytes demo_fmt (WithTarget (String "a" (String unit_sep "b")) "c" zero_event) =
  CanonicalBytes demo_fmt (WithTarget "a" (String "b" (String unit_sep "c")) zero_event).
Proof. vm_compute. reflexivity. Qed.

Example metadata_not_injective :
  canonicalMetadata demo_fmt {["a" := "1;b=2"]} =
  canonicalMetadata demo_fmt (<["b" := "2"]> {["a" := "1"]}).
Proof. vm_compute. reflexivity. Qed.

(** The 32 hexadecimal digits of a 16-byte key pass as a 32-byte key. *)
Example short_hex_key_accepted :
  HMACKeyFromEnv "00112233445566778899aabbccddeeff" = Ok "00112233445566778899aabbccddeeff".
Proof. vm_compute. reflexivity. Qed.

(** Only the first X-Forwarded-For line is read: behind a proxy that adds a line
    of its own the client chooses the address. *)
Example first_header_line_spoofs :
  clientIP demo_addr demo_contains demo_proxied (demo_request ["6.6.6.6"; "1.2.3.4"]) = "6.6.6.6".
Proof. vm_compute. reflexivity. Qed.
