(* ===== verification/Outbox.v ===== *)
(** * The transactional outbox (packages/go/jobs/outbox: store.go, poller.go,
    recover.go)

    A handler writes the tasks it wants to enqueue into a table, inside its own
    transaction; pollers claim rows of the table, hand them to the queue and
    delete them; a sweep releases claims whose lease is over. [RunOnce] is a
    program of commands: each transaction or single SQL statement on the table is
    one command, and so is one call of the enqueuer. Any number of transactions,
    pollers and sweeps interleave; a command may be refused or lose its reply and
    a poller may die between two of them. A payload is kept as the text that was
    written; a JSONB column keeps the document, not its spelling. *)
From S2P Require Import Prelude GoStrings Prog Redis Json.

(** ** Writing (store.go) *)

(** What a caller passes as payload: nothing, bytes, or a value with the result
    [json.Marshal] has on it. *)
Inductive Payload := PNil | PBytes (raw : string) | PValue (marshalled : result string string).
Record Entry := mkEntry { TaskName : string; Queue : string; e_Payload : Payload }.

Inductive write_error := ErrInvalidEntry (what : string) | ErrMarshal (why : string).

Definition validateEntry (e : Entry) : option write_error :=
  if decide (TaskName e = "") then Some (ErrInvalidEntry "task_name required")
  else if decide (Queue e = "") then Some (ErrInvalidEntry "queue required")
  else match e_Payload e with PNil => Some (ErrInvalidEntry "payload required") | _ => None end.

Definition marshalPayload (p : Payload) : result string string :=
  match p with
  | PBytes raw => if json.Valid raw then Ok raw else Err "payload is not valid JSON"
  | PValue m => m
  | PNil => Ok "null"
  end.

(** A row of the table [outbox] (migration 000013), without its key. *)
Record row := mkRow {
  task_name : string; payload : string; queue : string; created_at : Time;
  claimed_at : option Time; claimed_by : option string; attempts : Z; last_error : option string }.

Definition Write (created : Time) (e : Entry) : result write_error row :=
  match validateEntry e with
  | Some err => Err err
  | None =>
      match marshalPayload (e_Payload e) with
      | Err why => Err (ErrMarshal why)
      | Ok p => Ok (mkRow (TaskName e) p (Queue e) created None None 0 None)
      end
  end.

(** ** Polling (poller.go) *)

Definition DefaultBatchSize : Z := 64.
Definition DefaultClaimLeaseSec : Z := 60.
Definition DefaultBackoffMin : Duration := second.
Definition DefaultBackoffMax : Duration := (5 * minute)%Z.

Record Poller := mkPoller {
  has_Pool : bool; has_Enqueuer : bool; WorkerID : string; BatchSize : Z;
  BackoffMin : Duration; BackoffMax : Duration }.

Definition validate (p : Poller) : option string :=
  if negb (has_Pool p) then Some "outbox.Poller: Pool is required"
  else if negb (has_Enqueuer p) then Some "outbox.Poller: Enqueuer is required"
  else if decide (WorkerID p = "") then Some "outbox.Poller: WorkerID is required" else None.

Definition batchSize (p : Poller) : Z := if (BatchSize p <=? 0)%Z then DefaultBatchSize else BatchSize p.

Fixpoint doubled (n : nat) (top d : Duration) : option Duration :=
  match n with
  | O => Some d
  | S n =>
      let d := wrap64 (d * 2) in
      if (top <=? d)%Z || (d <=? 0)%Z then None else doubled n top d
  end.

Definition backoffFor (p : Poller) (prevAttempts : Z) : Duration :=
  let low := if (BackoffMin p <=? 0)%Z then DefaultBackoffMin else BackoffMin p in
  let top := if (BackoffMax p <=? 0)%Z then DefaultBackoffMax else BackoffMax p in
  let top := if (top <? low)%Z then low else top in
  match doubled (Z.to_nat prevAttempts) top low with
  | None => top
  | Some d => if (d <? low)%Z then low else d
  end.

Record claimedRow := mkClaimed { ID : Z; c_TaskName : string; c_Queue : string; c_Payload : string }.
Definition claimed_of (id : Z) (r : row) : claimedRow := mkClaimed id (task_name r) (queue r) (payload r).

(** [CEnqueue] carries the row for the log of deliveries; the enqueuer sees its
    queue, task name and payload. *)
Inductive ocmd : Type → Type :=
| CNow : ocmd Time
| CAlive : ocmd (option string)
| CClaim (now : Time) (batch : Z) (worker : string) : ocmd (result string (list claimedRow))
| CEnqueue (r : claimedRow) : ocmd (option string)
| CDelete (id : Z) : ocmd (option string)
| CRelease (p : Poller) (id : Z) (now : Time) (cause : string) : ocmd (option string)
| CDrained (worker : string) : ocmd unit.

Definition releaseFailed (p : Poller) (id : Z) (cause : string) : prog ocmd (option string) :=
  now <- CNow ;; e <- CRelease p id now cause ;; Ret e.

Definition claim (p : Poller) : prog ocmd (result string (list claimedRow)) :=
  now <- CNow ;; r <- CClaim now (batchSize p) (WorkerID p) ;; Ret r.

Fixpoint poll_loop (p : Poller) (rows : list claimedRow) (handled : Z) : prog ocmd (Z * option string) :=
  match rows with
  | [] => Ret (handled, None)
  | r :: rest =>
      done <- CAlive ;;
      match done with
      | Some e => Ret (handled, Some e)
      | None =>
          eqErr <- CEnqueue r ;;
          match eqErr with
          | Some cause => run! _ := releaseFailed p (ID r) cause in poll_loop p rest handled
          | None =>
              delErr <- CDelete (ID r) ;;
              match delErr with
              | Some _ => poll_loop p rest handled
              | None => CDrained (WorkerID p) ;;; poll_loop p rest (handled + 1)
              end
          end
      end
  end.

Definition RunOnce (p : Poller) : prog ocmd (Z * option string) :=
  match validate p with
  | Some e => Ret (0%Z, Some e)
  | None =>
      run! r := claim p in
      match r with
      | Err e => Ret (0%Z, Some e)
      | Ok rows => poll_loop p rows 0
      end
  end.

(** ** SQL on the table *)

Definition unclaimed (t : gmap Z row) (id : Z) : bool :=
  match t !! id with Some r => match claimed_at r with None => true | Some _ => false end | None => false end.

Definition created_of (t : gmap Z row) (id : Z) : Time := match t !! id with Some r => created_at r | None => 0%Z end.

(** The rows the SELECT of a claim picks when the database visits the keys in the
    order [scan] and skips the [locked] ones: the oldest [batch] unclaimed ones. *)
Definition next_ids (scan : list Z) (locked : gset Z) (batch : Z) (t : gmap Z row) : list Z :=
  let ready := filter (λ id, (id ∉ locked) ∧ unclaimed t id = true) (remove_dups scan) in
  take (Z.to_nat batch) (sort_by (λ i j, created_of t i <? created_of t j)%Z ready).

Definition set_claim (at_ : option Time) (by_ : option string) (r : row) : row :=
  mkRow (task_name r) (payload r) (queue r) (created_at r) at_ by_ (attempts r) (last_error r).

(** The claim transaction; the UPDATE answers its rows in the order it visits them. *)
Definition claim_rows (scan : list Z) (locked : gset Z) (batch : Z) (now : Time) (worker : string)
    (t : gmap Z row) : gmap Z row * list claimedRow :=
  let next := next_ids scan locked batch t in
  (foldr (alter (set_claim (Some now) (Some worker))) t next,
   omap (λ id, claimed_of id <$> t !! id) (filter (λ id, id ∈ next) (remove_dups scan))).

(** The transaction of [releaseFailed]. *)
Definition release_row (p : Poller) (id : Z) (now : Time) (cause : string) (t : gmap Z row)
    : gmap Z row * option string :=
  match t !! id with
  | None => (t, Some "no rows in result set")
  | Some r =>
      (<[id := mkRow (task_name r) (payload r) (queue r) (created_at r)
                 (Some (now + backoffFor p (attempts r))%Z) (claimed_by r) (attempts r + 1) (Some cause)]> t,
       None)
  end.

(** ** The recovery sweep (recover.go) *)

Definition leaseSec (claimLeaseSec : Z) : Z :=
  if (claimLeaseSec <=? 0)%Z then DefaultClaimLeaseSec else claimLeaseSec.

(** Whether a claim is older than the threshold of a sweep at [now]. *)
Definition lease_over (claimLeaseSec : Z) (now : Time) (r : row) : bool :=
  match claimed_at r with
  | Some c => time_before c (now - wrap64 (leaseSec claimLeaseSec * second))
  | None => false
  end.

Definition SweepOnce (claimLeaseSec : Z) (now : Time) (t : gmap Z row) : gmap Z row * Z :=
  ((λ r, if lease_over claimLeaseSec now r then set_claim None None r else r) <$> t,
   Z.of_nat (size (filter (λ kv, lease_over claimLeaseSec now kv.2 = true) t))).

(** ** Pollers, transactions and sweeps together *)

(** What the outside decides at one command: the clock, what becomes of the
    command, the error text, whether the context is done, and how the database
    visits the table. *)
Record env := mkEnv {
  e_now : Time; e_net : outcome; e_err : string; e_done : option string;
  e_scan : list Z; e_locked : gset Z }.

(** The table with its sequence, and what has happened so far: the rows that were
    committed, the calls the enqueuer carried out and the claims sweeps released. *)
Record world := mkWorld {
  table : gmap Z row; nextval : Z; drained : gmap string Z;
  committed : gmap Z claimedRow; delivered : list claimedRow; released : list Z }.

Definition set_table (t : gmap Z row) (w : world) : world :=
  mkWorld t (nextval w) (drained w) (committed w) (delivered w) (released w).

Definition on_table {X} (e : env) (w : world) (act : gmap Z row → gmap Z row * X) (fail : X) : world * X :=
  match e_net e with
  | Refused => (w, fail)
  | ReplyLost => (set_table (act (table w)).1 w, fail)
  | Served => (set_table (act (table w)).1 w, (act (table w)).2)
  end.

Definition exec (X : Type) (e : env) (w : world) (c : ocmd X) : world * X :=
  match c in ocmd X return world * X with
  | CNow => (w, e_now e)
  | CAlive => (w, e_done e)
  | CClaim now batch worker =>
      on_table e w (λ t, let c := claim_rows (e_scan e) (e_locked e) batch now worker t in (c.1, Ok c.2))
        (Err (e_err e))
  | CEnqueue r =>
      let w' := mkWorld (table w) (nextval w) (drained w) (committed w) (delivered w ++ [r]) (released w) in
      match e_net e with
      | Refused => (w, Some (e_err e))
      | ReplyLost => (w', Some (e_err e))
      | Served => (w', None)
      end
  | CDelete id => on_table e w (λ t, (delete id t, None)) (Some (e_err e))
  | CRelease p id now cause => on_table e w (release_row p id now cause) (Some (e_err e))
  | CDrained worker =>
      (mkWorld (table w) (nextval w)
         (<[worker := wrap64 (default 0%Z (drained w !! worker) + 1)]> (drained w))
         (committed w) (delivered w) (released w), tt)
  end.

Record system := mkSystem {
  sw : world;
  txs : gmap nat (list (Z * row));
  calls : gmap nat (prog ocmd (Z * option string)) }.

Inductive oevent :=
| EvBegin (t : nat)
| EvWrite (t : nat) (created : Time) (e : Entry)
| EvCommit (t : nat)
| EvRollback (t : nat)
| EvPoll (t : nat) (p : Poller)
| EvStep (t : nat) (e : env)
| EvEnd (t : nat)
| EvSweep (claimLeaseSec : Z) (now : Time).

Definition commit_rows (l : list (Z * row)) (w : world) : world :=
  mkWorld (foldr (λ kr t, <[kr.1 := kr.2]> t) (table w) l) (nextval w) (drained w)
    (foldr (λ kr c, <[kr.1 := claimed_of kr.1 kr.2]> c) (committed w) l) (delivered w) (released w).

Definition sweep_world (claimLeaseSec : Z) (now : Time) (w : world) : world :=
  mkWorld (SweepOnce claimLeaseSec now (table w)).1 (nextval w) (drained w) (committed w) (delivered w)
    (released w ++ map fst (map_to_list (filter (λ kv, lease_over claimLeaseSec now kv.2 = true) (table w)))).

Definition step_call (e : env) (w : world) (m : prog ocmd (Z * option string))
    : option (world * prog ocmd (Z * option string)) :=
  match m with
  | Ret _ => None
  | Call c k => let r := exec _ e w c in Some (r.1, k r.2)
  end.

(** [EvEnd] is the return of a finished call as well as the death of a poller. *)
Definition ostep (s : system) (ev : oevent) : option system :=
  match ev with
  | EvBegin t =>
      match txs s !! t with Some _ => None | None => Some (mkSystem (sw s) (<[t := []]> (txs s)) (calls s)) end
  | EvWrite t created e =>
      l ← txs s !! t;
      match Write created e with
      | Err _ => Some s
      | Ok r =>
          let w := sw s in
          Some (mkSystem (mkWorld (table w) (nextval w + 1) (drained w) (committed w) (delivered w) (released w))
                  (<[t := l ++ [(nextval w, r)]]> (txs s)) (calls s))
      end
  | EvCommit t => l ← txs s !! t; Some (mkSystem (commit_rows l (sw s)) (delete t (txs s)) (calls s))
  | EvRollback t => _ ← txs s !! t; Some (mkSystem (sw s) (delete t (txs s)) (calls s))
  | EvPoll t p =>
      match calls s !! t with
      | Some _ => None
      | None => Some (mkSystem (sw s) (txs s) (<[t := RunOnce p]> (calls s)))
      end
  | EvStep t e =>
      m ← calls s !! t;
      r ← step_call e (sw s) m;
      Some (mkSystem r.1 (txs s) (<[t := r.2]> (calls s)))
  | EvEnd t => match calls s !! t with
      | Some _ => Some (mkSystem (sw s) (txs s) (delete t (calls s))) | None => None end
  | EvSweep lease now => Some (mkSystem (sweep_world lease now (sw s)) (txs s) (calls s))
  end.

Fixpoint orun (s : system) (evs : list oevent) : option system :=
  match evs with
  | [] => Some s
  | ev :: evs => s ← ostep s ev; orun s evs
  end.

Definition empty_system : system := mkSystem (mkWorld ∅ 1 ∅ ∅ [] []) ∅ ∅.
