(* ===== verification/OutboxProps.v ===== *)
(** * What the outbox guarantees

    A committed row is never lost, and is handed to the enqueuer at most once more
    than sweeps have released its claim, whatever fails and however pollers,
    transactions and sweeps interleave; and from every reachable state one sweep
    and enough successful cycles deliver every row. The proofs follow which rows a
    program may still hand over ([polls]). *)
From S2P Require Import Prelude GoStrings Prog Redis Json Counting Outbox.

(** ** What a poller may still do *)

(** [polls L rows m]: the program [m], which knows that the rows of [L] were
    delivered, hands over at most the pending [rows], in order, and deletes only
    delivered rows. *)
Definition cmd_polls {R} (c : ocmd R) (L : gset Z) (rows : list claimedRow)
    (post : gset Z → list claimedRow → R → Prop) : Prop :=
  match c in ocmd R return (gset Z → list claimedRow → R → Prop) → Prop with
  | CClaim _ _ _ => λ post, rows = [] ∧ ∀ x, post L (match x with Ok rows => rows | Err _ => [] end) x
  | CEnqueue r => λ post, ∃ rest, rows = r :: rest ∧ post ({[ID r]} ∪ L) rest None ∧
                          ∀ e, post L rest (Some e)
  | CDelete id => λ post, id ∈ L ∧ ∀ x, post L rows x
  | CNow | CAlive | CRelease _ _ _ _ | CDrained _ => λ post, ∀ x, post L rows x
  end post.

Fixpoint polls {A} (L : gset Z) (rows : list claimedRow) (m : prog ocmd A) : Prop :=
  match m with
  | Ret _ => True
  | Call c k => cmd_polls c L rows (λ L rows x, polls L rows (k x))
  end.

Lemma polls_loop p L rows handled : polls L rows (poll_loop p rows handled).
Proof.
  revert L handled. induction rows as [|r rows IH]; intros L handled; [done|]. simpl.
  intros [e|]; [done|]. exists rows. split; [done|]. split.
  - split; [set_solver|]. intros [e|]; simpl; [apply IH|intros _; apply IH].
  - intros e. simpl. intros now x. apply IH.
Qed.

Lemma polls_RunOnce p : polls ∅ [] (RunOnce p).
Proof.
  unfold RunOnce. destruct (validate p); [done|]. simpl. intros now. split; [done|].
  intros [rows|e]; [apply polls_loop|done].
Qed.

(** ** The table *)

Definition free (id : Z) (t : gmap Z row) : nat := if unclaimed t id then 1 else 0.
Definition times (id : Z) (rows : list claimedRow) : nat := occurs id (map ID rows).

Lemma lookup_set_claims a b l (t : gmap Z row) id :
  foldr (alter (set_claim a b)) t l !! id = if decide (id ∈ l) then set_claim a b <$> t !! id else t !! id.
Proof.
  induction l as [|j l IH]; [by rewrite decide_False by set_solver|]. cbn [foldr].
  destruct (decide (id = j)) as [->|Hne].
  - rewrite lookup_alter_eq, IH, (decide_True (P:=j ∈ j :: l)) by (by left).
    case_decide; [|done]. by destruct (t !! j).
  - rewrite lookup_alter_ne, IH by done.
    destruct (decide (id ∈ l)); [rewrite decide_True by (by right)|rewrite decide_False by set_solver]; done.
Qed.

Lemma next_ids_spec scan locked batch t id :
  id ∈ next_ids scan locked batch t → id ∈ scan ∧ (id ∉ locked) ∧ unclaimed t id = true.
Proof.
  unfold next_ids. intros Hid. apply elem_of_take in Hid as (i & Hi & _).
  apply list_elem_of_lookup_2 in Hi. rewrite sort_by_Permutation in Hi.
  apply list_elem_of_filter in Hi as [[? ?] Hs]. rewrite elem_of_remove_dups in Hs. done.
Qed.

Definition next_of scan locked batch (t : gmap Z row) : list Z :=
  filter (λ id, id ∈ next_ids scan locked batch t) (remove_dups scan).

Lemma claimed_ids scan locked batch now worker t :
  map ID (claim_rows scan locked batch now worker t).2 = next_of scan locked batch t.
Proof.
  unfold claim_rows, next_of. cbn [snd]. pose proof (next_ids_spec scan locked batch t) as Hspec.
  induction (remove_dups scan) as [|id l IH]; [done|]. rewrite filter_cons. case_decide as Hid; [|done].
  cbn [omap list_omap]. apply Hspec in Hid as (_ & _ & Hu). unfold unclaimed in Hu.
  destruct (t !! id) as [r|]; [|done]. simpl. by rewrite IH.
Qed.

Lemma claim_rows_elem scan locked batch now worker t r :
  r ∈ (claim_rows scan locked batch now worker t).2 → ∃ row, t !! ID r = Some row ∧ r = claimed_of (ID r) row.
Proof.
  unfold claim_rows. cbn [snd]. intros (id & Hid & (row & Hrow & ->)%fmap_Some_1)%list_elem_of_omap.
  by exists row.
Qed.

Lemma claim_count scan locked batch now worker t id :
  times id (claim_rows scan locked batch now worker t).2 + free id (claim_rows scan locked batch now worker t).1
    ≤ free id t.
Proof.
  unfold times. rewrite claimed_ids. unfold free, unclaimed. unfold claim_rows at 1. cbn [fst].
  rewrite lookup_set_claims. destruct (decide (id ∈ next_ids scan locked batch t)) as [Hid|Hid].
  - apply next_ids_spec in Hid as (_ & _ & Hu). unfold unclaimed in Hu.
    destruct (t !! id) as [r|]; [|done]. simpl. destruct (claimed_at r); [done|].
    assert (occurs id (next_of scan locked batch t) ≤ 1); [|lia].
    apply NoDup_occurs, NoDup_filter, NoDup_remove_dups.
  - rewrite (occurs_none id); [lia|]. unfold next_of. by intros [? _]%list_elem_of_filter.
Qed.

(** ** The world *)

(** [pending id] counts the rows of that key which pollers still hold. *)
Record world_ok (w : world) (pending : Z → nat) : Prop := {
  wk_rows id r : table w !! id = Some r → committed w !! id = Some (claimed_of id r);
  wk_delivered r : r ∈ delivered w → committed w !! ID r = Some r;
  wk_kept id r : committed w !! id = Some r → is_Some (table w !! id) ∨ r ∈ delivered w;
  wk_next id r : committed w !! id = Some r → (id < nextval w)%Z;
  wk_count id : times id (delivered w) + pending id + free id (table w) ≤ 1 + occurs id (released w) }.

(** Nothing that was committed or delivered is forgotten by a command. *)
Definition grows (w w' : world) : Prop :=
  committed w' = committed w ∧ nextval w' = nextval w ∧ ∀ r, r ∈ delivered w → r ∈ delivered w'.

Definition knows (w : world) (L : gset Z) (rows : list claimedRow) : Prop :=
  (∀ id, id ∈ L → id ∈ map ID (delivered w)) ∧ (∀ r, r ∈ rows → committed w !! ID r = Some r).

Lemma knows_grows w w' L rows : grows w w' → knows w L rows → knows w' L rows.
Proof.
  intros (Hc & _ & Hd) [HL Hr]. split; [|by rewrite Hc].
  intros id (r & -> & H)%HL%list_elem_of_fmap. apply list_elem_of_fmap. eauto.
Qed.

Lemma grows_table t w : grows w (set_table t w).
Proof. by repeat split. Qed.

Lemma times_app id l k : times id (l ++ k) = times id l + times id k.
Proof. unfold times. by rewrite map_app, occurs_app. Qed.

Lemma times_one id r : times id [r] = if decide (ID r = id) then 1 else 0.
Proof. unfold times. simpl. rewrite occurs_cons. unfold occurs. simpl. case_decide; lia. Qed.

(** A command that changes the table only. *)
Lemma ok_table t w pending pending' :
  world_ok w pending →
  (∀ id, pending' id + free id t ≤ pending id + free id (table w)) →
  (∀ id r, t !! id = Some r → ∃ r0, table w !! id = Some r0 ∧ claimed_of id r = claimed_of id r0) →
  (∀ id, is_Some (table w !! id) → is_Some (t !! id) ∨ id ∈ map ID (delivered w)) →
  world_ok (set_table t w) pending'.
Proof.
  intros Hw Hcount Hrows Hkept. split; simpl.
  - intros id r (r0 & Hr0 & ->)%Hrows. by apply (wk_rows _ _ Hw).
  - apply (wk_delivered _ _ Hw).
  - intros id r Hr. destruct (wk_kept _ _ Hw id r Hr) as [H|?]; [|by right].
    apply Hkept in H as [?|(x & -> & Hx)%list_elem_of_fmap]; [by left|right].
    pose proof (wk_delivered _ _ Hw x Hx). congruence.
  - apply (wk_next _ _ Hw).
  - intros id. pose proof (wk_count _ _ Hw id). specialize (Hcount id). lia.
Qed.

Lemma world_ok_le w pending pending' :
  world_ok w pending → (∀ id, pending' id ≤ pending id) → world_ok w pending'.
Proof. intros [] Hle. split; [done..|]. intros id. specialize (Hle id). specialize (wk_count0 id). lia. Qed.

Lemma claimed_of_set_claim id a b r : claimed_of id (set_claim a b r) = claimed_of id r.
Proof. done. Qed.

Lemma ok_claim scan locked batch now worker w pending :
  world_ok w pending →
  world_ok (set_table (claim_rows scan locked batch now worker (table w)).1 w)
    (λ id, times id (claim_rows scan locked batch now worker (table w)).2 + pending id).
Proof.
  intros Hw. apply (ok_table _ _ _ _ Hw).
  - intros id. pose proof (claim_count scan locked batch now worker (table w) id). lia.
  - intros id r. unfold claim_rows. cbn [fst]. rewrite lookup_set_claims. case_decide; [|by exists r].
    intros (r0 & Hr0 & ->)%fmap_Some_1. by exists r0.
  - intros id Hid. left. unfold claim_rows. cbn [fst]. rewrite lookup_set_claims.
    case_decide; [by apply fmap_is_Some|done].
Qed.

Lemma ok_enqueue r rest w pending :
  committed w !! ID r = Some r → world_ok w (λ id, times id (r :: rest) + pending id) →
  world_ok (mkWorld (table w) (nextval w) (drained w) (committed w) (delivered w ++ [r]) (released w))
    (λ id, times id rest + pending id).
Proof.
  intros Hr Hw. split; simpl.
  - apply (wk_rows _ _ Hw).
  - intros x [Hx| ->%list_elem_of_singleton]%elem_of_app; [by apply (wk_delivered _ _ Hw)|done].
  - intros id x Hx. destruct (wk_kept _ _ Hw id x Hx); [by left|right]. apply elem_of_app. by left.
  - apply (wk_next _ _ Hw).
  - intros id. pose proof (wk_count _ _ Hw id) as Hc. change (r :: rest) with ([r] ++ rest) in Hc.
    cbv beta in Hc. rewrite times_app in Hc |- *. lia.
Qed.

Lemma ok_delete id w pending :
  id ∈ map ID (delivered w) → world_ok w pending → world_ok (set_table (delete id (table w)) w) pending.
Proof.
  intros Hid Hw. apply (ok_table _ _ _ _ Hw).
  - intros j. unfold free, unclaimed. destruct (decide (id = j)) as [->|Hne].
    + rewrite lookup_delete_eq. lia.
    + by rewrite lookup_delete_ne.
  - intros j r [_ Hr]%lookup_delete_Some. by exists r.
  - intros j Hj. destruct (decide (id = j)) as [->|Hne]; [by right|left]. by rewrite lookup_delete_ne.
Qed.

Lemma ok_release p id now cause w pending :
  world_ok w pending → world_ok (set_table (release_row p id now cause (table w)).1 w) pending.
Proof.
  intros Hw. unfold release_row. destruct (table w !! id) as [r|] eqn:E; [|by destruct w].
  apply (ok_table _ _ _ _ Hw); simpl.
  - intros j. unfold free, unclaimed. destruct (decide (id = j)) as [->|Hne].
    + rewrite lookup_insert_eq. simpl. lia.
    + by rewrite lookup_insert_ne.
  - intros j r' [[<- <-]|[_ Hr]]%lookup_insert_Some; [by exists r|by exists r'].
  - intros j Hj. left. destruct (decide (id = j)) as [->|Hne].
    + rewrite lookup_insert_eq. eauto.
    + by rewrite lookup_insert_ne.
Qed.

#[local] Arguments claim_rows : simpl never.
#[local] Arguments release_row : simpl never.

Lemma exec_polls {R} e w (c : ocmd R) L rows (post : gset Z → list claimedRow → R → Prop) pending :
  world_ok w (λ id, times id rows + pending id) → knows w L rows → cmd_polls c L rows post →
  ∃ L' rows', post L' rows' (exec R e w c).2 ∧ knows (exec R e w c).1 L' rows' ∧
    world_ok (exec R e w c).1 (λ id, times id rows' + pending id) ∧ grows w (exec R e w c).1.
Proof.
  intros Hw Hk Hc. assert (grows w w) as Hg by done.
  destruct c as [| |now batch worker|r|id|p id now cause|worker]; simpl in *.
  - exists L, rows. done.
  - exists L, rows. done.
  - destruct Hc as [-> Hpost]. unfold on_table.
    pose proof (ok_claim (e_scan e) (e_locked e) batch now worker w pending Hw) as Hok.
    pose proof (claim_rows_elem (e_scan e) (e_locked e) batch now worker (table w)) as Hel.
    set (cr := claim_rows (e_scan e) (e_locked e) batch now worker (table w)) in *.
    assert (knows w L []) as Hk0 by exact Hk.
    destruct (e_net e); simpl.
    + exists L, cr.2. split; [apply (Hpost (Ok cr.2))|]. split; [|by auto using grows_table].
      split; [apply Hk|]. intros r (row & Hrow & ->)%Hel. by apply (wk_rows _ _ Hw).
    + exists L, []. split; [apply (Hpost (Err (e_err e)))|]. split; [apply Hk0|]. split; [|apply grows_table].
      apply (world_ok_le _ _ _ Hok). unfold times, occurs. simpl. lia.
    + exists L, []. split; [apply (Hpost (Err (e_err e)))|]. done.
  - destruct Hc as (rest & -> & Hsent & Hfail).
    assert (committed w !! ID r = Some r) as Hr by (apply Hk; by left).
    assert (knows w L rest) as Hrest by (split; [apply Hk|]; intros x Hx; apply Hk; by right).
    pose proof (ok_enqueue r rest w pending Hr Hw) as Hok.
    set (w' := mkWorld _ _ _ _ _ _) in *.
    assert (grows w w') as Hg' by (repeat split; intros x Hx; apply elem_of_app; by left).
    destruct (e_net e); simpl.
    + exists ({[ID r]} ∪ L), rest. split; [exact Hsent|]. split; [|done]. split; [|apply Hrest].
      intros id Hid. simpl. rewrite map_app, elem_of_app. simpl.
      apply elem_of_union in Hid as [->%elem_of_singleton|Hid]; [right; by left|left; by apply Hk].
    + exists L, rest. split; [apply Hfail|]. split; [by apply (knows_grows w)|done].
    + exists L, rest. split; [apply Hfail|]. split; [done|]. split; [|done].
      apply (world_ok_le _ _ _ Hw). intros id. change (r :: rest) with ([r] ++ rest). rewrite times_app. lia.
  - destruct Hc as [Hid Hpost]. exists L, rows. split; [apply Hpost|]. unfold on_table.
    pose proof (ok_delete id w _ (proj1 Hk id Hid) Hw). destruct (e_net e); auto using grows_table.
  - exists L, rows. split; [apply Hc|]. unfold on_table.
    pose proof (ok_release p id now cause w _ Hw). destruct (e_net e); auto using grows_table.
  - exists L, rows. split; [apply Hc|]. split; [done|]. split; [|done]. by destruct Hw.
Qed.

(** ** Every execution *)

Lemma knows_mono w w' L rows :
  (∀ id r, committed w !! id = Some r → committed w' !! id = Some r) → delivered w' = delivered w →
  knows w L rows → knows w' L rows.
Proof. intros Hc Hd [HL Hr]. split; [by rewrite Hd|]. auto. Qed.

(** The keys that open transactions have drawn are new, and each belongs to one of
    them. *)
Definition fresh_txs (s : system) : Prop :=
  ∀ t l id, txs s !! t = Some l → id ∈ map fst l →
    (id < nextval (sw s))%Z ∧ committed (sw s) !! id = None ∧
    ∀ t' l', txs s !! t' = Some l' → id ∈ map fst l' → t = t'.

Definition polling (w : world) (pend : gmap nat (list claimedRow))
    (cs : gmap nat (prog ocmd (Z * option string))) : Prop :=
  map_Forall2 (λ _ rows m, ∃ L, knows w L rows ∧ polls L rows m) pend cs.

Definition pending (pend : gmap nat (list claimedRow)) (id : Z) : nat := msum (times id) pend.

Definition oinv (s : system) : Prop :=
  fresh_txs s ∧ ∃ pend, world_ok (sw s) (pending pend) ∧ polling (sw s) pend (calls s).

Lemma polling_grows w w' pend cs :
  (∀ L rows, knows w L rows → knows w' L rows) → polling w pend cs → polling w' pend cs.
Proof.
  intros Hw H. apply (map_Forall2_impl _ _ _ _ H). intros t rows m (L & Hk & Hp). exists L. auto.
Qed.

(** A key that is not committed is not with any poller. *)
Lemma pending_new w pend cs id : polling w pend cs → committed w !! id = None → pending pend id = 0.
Proof.
  intros H Hid. unfold pending. destruct (msum (times id) pend) eqn:E; [done|exfalso].
  destruct (msum_pos (times id) pend) as (t & rows & Ht & Hpos); [lia|]. specialize (H t). rewrite Ht in H.
  inversion H as [? m (L & [_ Hk] & _)|]; subst. apply occurs_elem in Hpos.
  apply list_elem_of_fmap in Hpos as (r & -> & Hr). apply Hk in Hr. congruence.
Qed.

Lemma delivered_new w p id : world_ok w p → committed w !! id = None → times id (delivered w) = 0.
Proof.
  intros Hw Hid. apply occurs_none. intros (r & -> & Hr)%list_elem_of_fmap.
  apply (wk_delivered _ _ Hw) in Hr. congruence.
Qed.

Lemma commit_lookup l w id :
  ((id ∉ map fst l) ∧ table (commit_rows l w) !! id = table w !! id ∧
     committed (commit_rows l w) !! id = committed w !! id) ∨
  (id ∈ map fst l ∧ ∃ r, table (commit_rows l w) !! id = Some r ∧
     committed (commit_rows l w) !! id = Some (claimed_of id r)).
Proof.
  unfold commit_rows. simpl. induction l as [|[j r] l IH]; simpl; [left; set_solver|].
  destruct (decide (j = id)) as [->|Hne].
  - right. split; [by left|]. exists r. by rewrite !lookup_insert_eq.
  - rewrite !lookup_insert_ne by done. set_solver.
Qed.

Lemma commit_kept l w :
  (∀ id, id ∈ map fst l → committed w !! id = None) →
  ∀ id r, committed w !! id = Some r → committed (commit_rows l w) !! id = Some r.
Proof.
  intros Hl id r Hr. destruct (commit_lookup l w id) as [(_ & _ & ->)|[Hid _]]; [done|].
  rewrite (Hl id Hid) in Hr. done.
Qed.

Lemma ok_commit l w pend cs :
  (∀ id, id ∈ map fst l → (id < nextval w)%Z ∧ committed w !! id = None) → polling w pend cs →
  world_ok w (pending pend) → world_ok (commit_rows l w) (pending pend).
Proof.
  intros Hl Hp Hw. assert (∀ id r, committed w !! id = Some r →
    committed (commit_rows l w) !! id = Some r) as Hkept by (apply commit_kept; intros; by apply Hl). split.
  - intros id r. destruct (commit_lookup l w id) as [(_ & -> & ->)|(_ & r0 & -> & ->)]; [by apply (wk_rows _ _ Hw)|].
    congruence.
  - intros r Hr. apply Hkept, (wk_delivered _ _ Hw), Hr.
  - intros id r. destruct (commit_lookup l w id) as [(_ & -> & ->)|(_ & r0 & Ht & Hc)]; [by apply (wk_kept _ _ Hw)|].
    intros _. left. eauto.
  - intros id r. destruct (commit_lookup l w id) as [(_ & _ & ->)|(Hid & _)]; [by apply (wk_next _ _ Hw)|].
    intros _. by apply Hl.
  - intros id. pose proof (wk_count _ _ Hw id) as Hc.
    change (delivered (commit_rows l w)) with (delivered w). change (released (commit_rows l w)) with (released w).
    destruct (commit_lookup l w id) as [(_ & Ht & _)|(Hid & _)].
    + unfold free, unclaimed in *. by rewrite Ht.
    + apply Hl in Hid as [_ Hid]. rewrite (pending_new w pend cs id Hp Hid), (delivered_new w _ id Hw Hid).
      unfold free. case_match; lia.
Qed.

Lemma ok_sweep lease now w p : world_ok w p → world_ok (sweep_world lease now w) p.
Proof.
  intros Hw. split; simpl.
  - intros id r. rewrite lookup_fmap. intros (r0 & Hr0 & ->)%fmap_Some_1.
    rewrite (wk_rows _ _ Hw id r0 Hr0). by case_match.
  - apply (wk_delivered _ _ Hw).
  - intros id r Hr. rewrite lookup_fmap, fmap_is_Some. by apply (wk_kept _ _ Hw).
  - apply (wk_next _ _ Hw).
  - intros id. pose proof (wk_count _ _ Hw id) as Hc. rewrite occurs_app.
    unfold free, unclaimed in *. rewrite lookup_fmap.
    destruct (table w !! id) as [r|] eqn:E; simpl in *; [|lia].
    destruct (lease_over lease now r) eqn:El; [|by destruct (claimed_at r); lia]. simpl.
    assert (claimed_at r ≠ None) by (unfold lease_over in El; by destruct (claimed_at r)).
    assert (1 ≤ occurs id (map fst (map_to_list (filter (λ kv, lease_over lease now kv.2 = true) (table w))))).
    { apply occurs_elem. change map with (@fmap list _). apply list_elem_of_fmap. exists (id, r).
      split; [done|]. apply elem_of_map_to_list, map_lookup_filter_Some. done. }
    destruct (claimed_at r); lia.
Qed.

Lemma fresh_shrinks s s' :
  fresh_txs s → committed (sw s') = committed (sw s) → nextval (sw s') = nextval (sw s) →
  (∀ t l, txs s' !! t = Some l → txs s !! t = Some l ∨ l = []) → fresh_txs s'.
Proof.
  intros Hf Hc Hn Htx t l id [Ht| ->]%Htx Hid; [|by apply elem_of_nil in Hid].
  destruct (Hf t l id Ht Hid) as (? & ? & Hu). rewrite Hn, Hc. split; [done|]. split; [done|].
  intros t' l' [Ht'| ->]%Htx Hid'; [eauto|by apply elem_of_nil in Hid'].
Qed.

Lemma fresh_write s t l created r :
  (∀ id x, committed (sw s) !! id = Some x → (id < nextval (sw s))%Z) → fresh_txs s → txs s !! t = Some l →
  let w := sw s in
  fresh_txs (mkSystem (mkWorld (table w) (nextval w + 1) (drained w) (committed w) (delivered w) (released w))
               (<[t := l ++ [(nextval w, r)]]> (txs s)) created).
Proof.
  intros Hnext Hf Ht w t1 l1 id. simpl. intros Ht1 Hid.
  assert (id = nextval w ∧ t1 = t ∨ ∃ l0, txs s !! t1 = Some l0 ∧ id ∈ map fst l0) as Hcase.
  { apply lookup_insert_Some in Ht1 as [[<- <-]|[Hne Ht1]]; [|eauto].
    rewrite map_app, elem_of_app in Hid. destruct Hid as [Hid|Hid%list_elem_of_singleton]; eauto. }
  assert (∀ t2 l2, <[t := l ++ [(nextval w, r)]]> (txs s) !! t2 = Some l2 → id ∈ map fst l2 →
            id = nextval w ∧ t2 = t ∨ ∃ l0, txs s !! t2 = Some l0 ∧ id ∈ map fst l0) as Hcase2.
  { intros t2 l2 [[<- <-]|[Hne Ht2]]%lookup_insert_Some Hid2; [|eauto].
    rewrite map_app, elem_of_app in Hid2. destruct Hid2 as [Hid2|Hid2%list_elem_of_singleton]; eauto. }
  destruct Hcase as [[-> ->]|(l0 & Hl0 & Hid0)].
  - split; [lia|]. split.
    + destruct (committed w !! nextval w) as [x|] eqn:E; [|done]. apply Hnext in E. fold w in E. lia.
    + intros t2 l2 Ht2 Hid2. destruct (Hcase2 t2 l2 Ht2 Hid2) as [[_ ->]|(l0 & Hl0 & Hid0)]; [done|].
      destruct (Hf t2 l0 _ Hl0 Hid0) as [Hlt _]. fold w in Hlt. lia.
  - destruct (Hf t1 l0 id Hl0 Hid0) as (Hlt & Hc & Hu). fold w in Hlt. split; [lia|]. split; [done|].
    intros t2 l2 Ht2 Hid2. destruct (Hcase2 t2 l2 Ht2 Hid2) as [[-> _]|(l3 & Hl3 & Hid3)]; [lia|eauto].
Qed.

Lemma fresh_commit s t l :
  fresh_txs s → txs s !! t = Some l →
  fresh_txs (mkSystem (commit_rows l (sw s)) (delete t (txs s)) (calls s)).
Proof.
  intros Hf Ht t1 l1 id. simpl. intros [Hne Ht1]%lookup_delete_Some Hid.
  destruct (Hf t1 l1 id Ht1 Hid) as (Hlt & Hc & Hu). split; [done|]. split.
  - destruct (commit_lookup l (sw s) id) as [(_ & _ & Heq)|(Hid' & _)]; [etrans; [apply Heq|done]|].
    by rewrite (Hu t l Ht Hid') in Hne.
  - intros t2 l2 [_ Ht2]%lookup_delete_Some. eauto.
Qed.

#[local] Arguments exec : simpl never.

Lemma pending_out pend t rows id :
  pend !! t = Some rows → pending pend id = times id rows + pending (delete t pend) id.
Proof. apply (msum_delete (times id)). Qed.

Lemma pending_in pend t rows id :
  pending (<[t := rows]> pend) id = times id rows + pending (delete t pend) id.
Proof. unfold pending. by rewrite <-insert_delete_eq, msum_new by apply lookup_delete_eq. Qed.

Lemma polling_at w pend cs t m :
  polling w pend cs → cs !! t = Some m → ∃ rows L, pend !! t = Some rows ∧ knows w L rows ∧ polls L rows m.
Proof.
  intros H Ht. specialize (H t). rewrite Ht in H. inversion H as [rows m' (L & ? & ?)|]; subst. eauto.
Qed.

Lemma step_oinv {X} s t e (c : ocmd X) k pend :
  fresh_txs s → world_ok (sw s) (pending pend) → polling (sw s) pend (calls s) →
  calls s !! t = Some (Call c k) →
  let r := exec _ e (sw s) c in oinv (mkSystem r.1 (txs s) (<[t := k r.2]> (calls s))).
Proof.
  intros Hf Hw Hp Ht r. destruct (polling_at _ _ _ _ _ Hp Ht) as (rows & L & Hpt & Hk & Hpoll).
  assert (world_ok (sw s) (λ id, times id rows + pending (delete t pend) id)) as Hw'
    by (apply (world_ok_le _ _ _ Hw); intros id; by rewrite (pending_out _ _ _ _ Hpt)).
  destruct (exec_polls e (sw s) c L rows _ _ Hw' Hk Hpoll) as (L' & rows' & Hpost & Hk' & Hok & Hg).
  fold r in Hpost, Hk', Hok, Hg. split.
  - apply (fresh_shrinks s); [done|apply Hg|apply Hg|by left].
  - exists (<[t := rows']> pend). split.
    + apply (world_ok_le _ _ _ Hok). intros id. by rewrite pending_in.
    + apply map_Forall2_insert_2; [eauto|]. apply (polling_grows (sw s)); [|done].
      intros ? ?. by apply knows_grows.
Qed.

Lemma ostep_oinv s ev s' : ostep s ev = Some s' → oinv s → oinv s'.
Proof.
  intros Hs (Hf & pend & Hw & Hp). destruct ev as [t|t created e|t|t|t p|t e|t|lease now]; simpl in Hs.
  - destruct (txs s !! t) eqn:E; simplify_eq. split; [|by exists pend].
    apply (fresh_shrinks s); [done..|]. simpl. intros t' l [[_ <-]|[_ ?]]%lookup_insert_Some; auto.
  - destruct (txs s !! t) as [l|] eqn:E; simplify_eq/=. destruct (Write created e) as [r|]; simplify_eq/=.
    + split; [by apply fresh_write; [apply (wk_next _ _ Hw)|..]|]. exists pend. split.
      * destruct Hw. split; [done..| |done]. intros id x Hx. apply wk_next0 in Hx. simpl. lia.
      * by apply (polling_grows (sw s)).
    + split; [done|by exists pend].
  - destruct (txs s !! t) as [l|] eqn:E; simplify_eq/=. split; [by apply fresh_commit|]. exists pend.
    assert (∀ id, id ∈ map fst l → (id < nextval (sw s))%Z ∧ committed (sw s) !! id = None) as Hl
      by (intros id Hid; destruct (Hf t l id E Hid) as (? & ? & _); done).
    split; [by eapply ok_commit|]. apply (polling_grows (sw s)); [|done]. intros L rows.
    apply knows_mono; [|done]. apply commit_kept. intros. by apply Hl.
  - destruct (txs s !! t) as [l|] eqn:E; simplify_eq/=. split; [|by exists pend].
    apply (fresh_shrinks s); [done..|]. simpl. intros t' l' [_ ?]%lookup_delete_Some. auto.
  - destruct (calls s !! t) eqn:E; simplify_eq. split; [by apply (fresh_shrinks s); auto|].
    exists (<[t := []]> pend). split.
    + apply (world_ok_le _ _ _ Hw). intros id. rewrite pending_in. specialize (Hp t). rewrite E in Hp.
      inversion Hp as [|Hn]. by rewrite delete_id.
    + apply map_Forall2_insert_2; [|done]. exists ∅. split; [|apply polls_RunOnce].
      split; intros ? []%elem_of_nil || set_solver.
  - destruct (calls s !! t) as [[|Y c k]|] eqn:E; simplify_eq/=.
    exact (step_oinv s t e c k pend Hf Hw Hp E).
  - destruct (calls s !! t) as [m|] eqn:E; simplify_eq. split; [by apply (fresh_shrinks s); auto|].
    exists (delete t pend). split; [|by apply map_Forall2_delete].
    destruct (polling_at _ _ _ _ _ Hp E) as (rows & L & Hpt & _).
    apply (world_ok_le _ _ _ Hw). intros id. rewrite (pending_out _ _ _ _ Hpt). lia.
  - simplify_eq. split; [by apply (fresh_shrinks s); auto|]. exists pend.
    split; [by apply ok_sweep|]. by apply (polling_grows (sw s)).
Qed.

Lemma empty_oinv : oinv empty_system.
Proof.
  split; [by intros t l id [=]|]. exists ∅. split; [|apply map_Forall2_empty].
  split; [done|by intros ? ?%elem_of_nil|done..|]. intros id. unfold times, occurs, pending. simpl.
  rewrite msum_empty. unfold free. case_match; lia.
Qed.

Lemma orun_oinv evs s s' : orun s evs = Some s' → oinv s → oinv s'.
Proof.
  revert s. induction evs as [|ev evs IH]; intros s; simpl; [by intros [= ->]|].
  intros (s1 & Hs1 & Hrun)%bind_Some Hs. eauto using ostep_oinv.
Qed.

Lemma reachable_oinv evs s : orun empty_system evs = Some s → oinv s.
Proof. intros H. apply (orun_oinv evs _ _ H empty_oinv). Qed.

(** ** One successful cycle *)

Definition serve (p : Poller) (w : world) (r : claimedRow) : world :=
  mkWorld (delete (ID r) (table w)) (nextval w)
    (<[WorkerID p := wrap64 (default 0%Z (drained w !! WorkerID p) + 1)]> (drained w))
    (committed w) (delivered w ++ [r]) (released w).

(** The clock, nothing refused, the context open, no row locked. *)
Definition calm (now : Time) (scan : list Z) : env := mkEnv now Served "" None scan ∅.

(** The events of one cycle of a poller that claims [n] rows. *)
Definition cycle (t : nat) (p : Poller) (e : env) (n : nat) : list oevent :=
  EvPoll t p :: replicate (2 + 4 * n) (EvStep t e) ++ [EvEnd t].

Lemma orun_app s evs1 evs2 : orun s (evs1 ++ evs2) = s' ← orun s evs1; orun s' evs2.
Proof.
  revert s. induction evs1 as [|ev evs1 IH]; intros s; [done|]. simpl. destruct (ostep s ev); simpl; auto.
Qed.

Lemma estep {X} s t e (c : ocmd X) k :
  calls s !! t = Some (Call c k) →
  ostep s (EvStep t e) =
    Some (mkSystem (exec X e (sw s) c).1 (txs s) (<[t := k (exec X e (sw s) c).2]> (calls s))).
Proof. intros Ht. unfold ostep. rewrite Ht. done. Qed.

Lemma serve_loop t p now scan rows s h :
  calls s !! t = Some (poll_loop p rows h) →
  orun s (replicate (4 * length rows) (EvStep t (calm now scan))) =
    Some (mkSystem (fold_left (serve p) rows (sw s)) (txs s)
            (<[t := Ret ((h + Z.of_nat (length rows))%Z, None)]> (calls s))).
Proof.
  revert s h. induction rows as [|r rows IH]; intros s h Ht.
  - simpl in *. rewrite Z.add_0_r. rewrite insert_id by done. by destruct s.
  - replace (4 * length (r :: rows)) with (4 + 4 * length rows) by (simpl; lia).
    cbn [poll_loop] in Ht. cbn [Nat.add replicate orun].
    rewrite (estep s t _ _ _ Ht). cbn [mbind option_bind sw calls txs].
    do 3 (erewrite estep by apply lookup_insert_eq; cbn [mbind option_bind sw calls txs]).
    rewrite (IH _ (h + 1)%Z) by apply lookup_insert_eq. cbn [sw calls txs]. rewrite !insert_insert_eq.
    do 5 f_equal. simpl length. lia.
Qed.

Lemma fold_serve p rows w :
  delivered (fold_left (serve p) rows w) = delivered w ++ rows ∧
  committed (fold_left (serve p) rows w) = committed w ∧
  ∀ id, table (fold_left (serve p) rows w) !! id = if decide (id ∈ map ID rows) then None else table w !! id.
Proof.
  revert w. induction rows as [|r rows IH]; intros w; simpl.
  - rewrite app_nil_r. by repeat split.
  - destruct (IH (serve p w r)) as (-> & -> & Hrest). simpl. rewrite <-app_assoc. repeat split.
    intros id. rewrite Hrest. simpl. destruct (decide (id = ID r)) as [->|Hne].
    + rewrite lookup_delete_eq, (decide_True (P:=ID r ∈ ID r :: _)) by (by left). by case_decide.
    + rewrite lookup_delete_ne by done. repeat case_decide; set_solver.
Qed.

(** The state when a cycle is over: [n] rows were claimed, handed over and deleted. *)
Lemma cycle_run s t p now scan :
  validate p = None → calls s !! t = None →
  let cr := claim_rows scan ∅ (batchSize p) now (WorkerID p) (table (sw s)) in
  orun s (cycle t p (calm now scan) (length cr.2)) =
    Some (mkSystem (fold_left (serve p) cr.2 (set_table cr.1 (sw s))) (txs s) (calls s)).
Proof.
  intros Hv Ht cr. unfold cycle. cbn [orun]. unfold ostep at 1. rewrite Ht. cbn [mbind option_bind].
  rewrite orun_app. change (2 + 4 * length cr.2) with (Datatypes.S (Datatypes.S (4 * length cr.2))).
  cbn [replicate orun].
  assert (RunOnce p = Call CNow (λ now, Call (CClaim now (batchSize p) (WorkerID p)) (λ r,
    match r with Err e => Ret (0%Z, Some e) | Ok rows => poll_loop p rows 0 end))) as Hrun
    by (unfold RunOnce; by rewrite Hv).
  rewrite Hrun. do 2 (erewrite estep by apply lookup_insert_eq; cbn [mbind option_bind sw calls txs]).
  rewrite (serve_loop _ p now scan cr.2 _ 0) by apply lookup_insert_eq. cbn [mbind option_bind sw calls txs].
  unfold ostep. cbn [calls sw txs]. rewrite lookup_insert_eq. cbn [mbind option_bind orun].
  rewrite !insert_insert_eq, delete_insert_id by done. done.
Qed.

Lemma batchSize_pos p : (0 < batchSize p)%Z.
Proof. unfold batchSize, DefaultBatchSize. destruct (Z.leb_spec (BatchSize p) 0); lia. Qed.

Lemma next_ids_some scan batch t id :
  (0 < batch)%Z → id ∈ scan → unclaimed t id = true → ∃ id', id' ∈ next_ids scan ∅ batch t.
Proof.
  intros Hb Hscan Hu. unfold next_ids. set (ready := filter _ _).
  assert (id ∈ sort_by (λ i j, (created_of t i <? created_of t j)%Z) ready) as Hid.
  { rewrite sort_by_Permutation. apply list_elem_of_filter. rewrite elem_of_remove_dups. set_solver. }
  destruct (sort_by _ ready) as [|id' l]; [by apply elem_of_nil in Hid|]. exists id'.
  destruct (Z.to_nat batch) eqn:E; [lia|]. by left.
Qed.

(** From a state where every row is free, a cycle removes some rows and frees none
    that it keeps. *)
Definition all_free (t : gmap Z row) : Prop := ∀ id r, t !! id = Some r → claimed_at r = None.

Lemma cycle_progress p now scan w :
  let cr := claim_rows scan ∅ (batchSize p) now (WorkerID p) (table w) in
  let w' := fold_left (serve p) cr.2 (set_table cr.1 w) in
  all_free (table w) → (∀ id, is_Some (table w !! id) → id ∈ scan) → table w ≠ ∅ →
  all_free (table w') ∧ (∀ id, is_Some (table w' !! id) → id ∈ scan) ∧ size (table w') < size (table w).
Proof.
  intros cr w' Hfree Hscan Hne.
  assert (∀ id, table w' !! id = if decide (id ∈ next_of scan ∅ (batchSize p) (table w)) then None
            else table w !! id) as Ht.
  { intros id. destruct (fold_serve p cr.2 (set_table cr.1 w)) as (_ & _ & Ht). fold w' in Ht. rewrite Ht.
    unfold cr. rewrite claimed_ids. case_decide as Hid; [done|]. unfold claim_rows. simpl.
    rewrite lookup_set_claims, decide_False; [done|]. intros Hn. apply Hid. unfold next_of.
    apply list_elem_of_filter. split; [done|]. apply elem_of_remove_dups. by apply next_ids_spec in Hn as [? _]. }
  split; [|split].
  - intros id r. rewrite Ht. case_decide; [done|apply Hfree].
  - intros id. rewrite Ht. case_decide; [by intros []|apply Hscan].
  - apply map_subset_size. apply map_choose in Hne as (id & r & Hr).
    destruct (next_ids_some scan (batchSize p) (table w) id) as [id0 Hid0];
      [apply batchSize_pos|by apply Hscan; eauto|unfold unclaimed; by rewrite Hr, (Hfree id r Hr)|].
    pose proof (next_ids_spec _ _ _ _ _ Hid0) as (Hin & _ & Hu).
    apply strict_spec. split.
    + apply map_subseteq_spec. intros j x. rewrite Ht. by case_decide.
    + rewrite map_subseteq_spec. intros Hsub. unfold unclaimed in Hu.
      destruct (table w !! id0) as [r0|] eqn:E; [|done]. apply Hsub in E. rewrite Ht, decide_True in E; [done|].
      apply list_elem_of_filter. by rewrite elem_of_remove_dups.
Qed.

#[local] Arguments cycle : simpl never.

(** The cycles that empty the table: at most as many as it has rows. *)
Lemma cycles_drain p now scan t n s :
  size (table (sw s)) ≤ n → validate p = None → calls s !! t = None →
  all_free (table (sw s)) → (∀ id, is_Some (table (sw s) !! id) → id ∈ scan) →
  ∃ ks s', length ks ≤ n ∧ orun s (flat_map (cycle t p (calm now scan)) ks) = Some s' ∧ table (sw s') = ∅.
Proof.
  intros Hn Hv. revert s Hn. induction n as [|n IH]; intros s Hn Ht Hfree Hscan.
  - exists [], s. split; [simpl; lia|]. split; [done|]. apply map_size_empty_inv. lia.
  - destruct (decide (table (sw s) = ∅)) as [He|Hne]; [exists [], s; split; [simpl; lia|done]|].
    destruct (cycle_progress p now scan (sw s) Hfree Hscan Hne) as (Hfree' & Hscan' & Hlt).
    pose proof (cycle_run s t p now scan Hv Ht) as Hrun. cbv zeta in Hrun.
    set (s1 := mkSystem _ (txs s) (calls s)) in Hrun.
    destruct (IH s1) as (ks & s' & Hks & Hrun' & He); [unfold s1; simpl in *; lia|done..|].
    eexists (_ :: ks), s'. split; [simpl; lia|]. split; [|done]. cbn [flat_map].
    rewrite orun_app, Hrun. exact Hrun'.
Qed.

(** ** The properties *)

(** C8. Whatever fails and however transactions, pollers, dying pollers and sweeps
    interleave, every row that a transaction committed is still in the table, with
    the task, queue and payload it was written with, or the enqueuer was handed it,
    and the enqueuer is never handed anything that was not committed: the rows of a
    transaction that rolled back are never seen. *)
Theorem outbox_no_loss evs s :
  orun empty_system evs = Some s →
  (∀ id r, committed (sw s) !! id = Some r →
     (∃ x, table (sw s) !! id = Some x ∧ claimed_of id x = r) ∨ r ∈ delivered (sw s)) ∧
  (∀ r, r ∈ delivered (sw s) → committed (sw s) !! ID r = Some r) ∧
  (∀ t l id, txs s !! t = Some l → id ∈ map fst l →
     table (sw s) !! id = None ∧ id ∉ map ID (delivered (sw s))).
Proof.
  intros (Hf & pend & Hw & _)%reachable_oinv. split; [|split].
  - intros id r Hr. destruct (wk_kept _ _ Hw id r Hr) as [[x Hx]|Hd]; [left|by right]. exists x.
    pose proof (wk_rows _ _ Hw id x Hx) as Hc. split; [done|congruence].
  - apply (wk_delivered _ _ Hw).
  - intros t l id Ht Hid. destruct (Hf t l id Ht Hid) as (_ & Hc & _). split.
    + destruct (table (sw s) !! id) as [x|] eqn:E; [|done]. apply (wk_rows _ _ Hw) in E. congruence.
    + intros (r & -> & Hr)%list_elem_of_fmap. apply (wk_delivered _ _ Hw) in Hr. congruence.
Qed.

(** A row is handed to the enqueuer at most once more than sweeps have released
    its claim: without a released lease, never twice, however many pollers run and
    whatever they lose. *)
Theorem outbox_few_duplicates evs s id :
  orun empty_system evs = Some s →
  occurs id (map ID (delivered (sw s))) ≤ 1 + occurs id (released (sw s)).
Proof.
  intros (_ & pend & Hw & _)%reachable_oinv. pose proof (wk_count _ _ Hw id) as H. unfold times in H. lia.
Qed.

(** C10. From every reachable state, one sweep that finds all leases over, and then at
    most as many undisturbed cycles of one poller as the table has rows, hand every
    committed row to the enqueuer and leave the table empty. *)
Theorem outbox_can_drain evs s p t now scan lease :
  orun empty_system evs = Some s → validate p = None → calls s !! t = None →
  (∀ id r, table (sw s) !! id = Some r → claimed_at r = None ∨ lease_over lease now r = true) →
  (∀ id, is_Some (table (sw s) !! id) → id ∈ scan) →
  ∃ ks s', length ks ≤ size (table (sw s)) ∧
    orun s (EvSweep lease now :: flat_map (cycle t p (calm now scan)) ks) = Some s' ∧
    table (sw s') = ∅ ∧ ∀ id r, committed (sw s') !! id = Some r → r ∈ delivered (sw s').
Proof.
  intros Hrun Hv Ht Hover Hscan. set (s1 := mkSystem (sweep_world lease now (sw s)) (txs s) (calls s)).
  assert (ostep s (EvSweep lease now) = Some s1) as Hstep by done.
  destruct (cycles_drain p now scan t (size (table (sw s))) s1) as (ks & s' & Hks & Hrun' & He); try done.
  - unfold s1. simpl. by rewrite map_size_fmap.
  - unfold s1. simpl. intros id r. rewrite lookup_fmap. intros (r0 & Hr0 & ->)%fmap_Some_1.
    destruct (Hover id r0 Hr0) as [Hn| ->]; [|done]. by case_match.
  - unfold s1. simpl. intros id. rewrite lookup_fmap, fmap_is_Some. apply Hscan.
  - exists ks, s'. split; [done|]. split; [by cbn [orun]; rewrite Hstep|]. split; [done|]. intros id r Hr.
    assert (oinv s') as (_ & pend & Hw & _)
      by (apply (orun_oinv _ s1 s' Hrun'), (ostep_oinv s _ s1 Hstep), (reachable_oinv evs s Hrun)).
    destruct (wk_kept _ _ Hw id r Hr) as [[x Hx]|]; [|done]. by rewrite He, lookup_empty in Hx.
Qed.

(** ** Backoff *)

Lemma wrap64_double d : (0 < d < 2 ^ 63)%Z → wrap64 (d * 2) = (d * 2)%Z ∨ (wrap64 (d * 2) <= 0)%Z.
Proof.
  intros Hd. unfold wrap64. destruct (Z_lt_le_dec (d * 2) (2 ^ 63)).
  - left. rewrite Z.mod_small; lia.
  - right. replace (d * 2 + 2 ^ 63)%Z with (d * 2 - 2 ^ 63 + 1 * 2 ^ 64)%Z by lia.
    rewrite Z.mod_add, Z.mod_small; lia.
Qed.

Lemma doubled_bounds n top d d' :
  (0 < d)%Z → (top < 2 ^ 63)%Z → (d <= top)%Z → doubled n top d = Some d' → (d <= d' <= top)%Z.
Proof.
  revert d. induction n as [|n IH]; intros d Hd Ht Hle; simpl; [intros [= ->]; lia|].
  destruct (wrap64_double d) as [E|E]; [lia| |].
  - rewrite E. destruct (Z.leb_spec top (d * 2)); [done|]. destruct (Z.leb_spec (d * 2) 0); [lia|]. simpl.
    intros H1%IH; lia.
  - apply Z.leb_le in E. by rewrite E, orb_true_r.
Qed.

(** The wait after a failure never leaves its bounds, the doublings that overflow
    included. *)
Lemma backoffFor_bounds p n :
  (0 < BackoffMin p <= BackoffMax p)%Z → (BackoffMax p < 2 ^ 63)%Z →
  (BackoffMin p <= backoffFor p n <= BackoffMax p)%Z.
Proof.
  intros Hmin Hmax. unfold backoffFor. repeat rewrite (proj2 (Z.leb_gt _ _)) by lia.
  rewrite (proj2 (Z.ltb_ge _ _)) by lia. destruct (doubled _ _ _) as [d|] eqn:E; [|lia].
  apply doubled_bounds in E; [|lia..]. rewrite (proj2 (Z.ltb_ge _ _)) by lia. lia.
Qed.

(** ** A run *)

Definition worker (id : string) : Poller := mkPoller true true id 10 second (5 * minute).
Definition entry (task : string) : Entry := mkEntry task "webhooks" (PBytes "{}").
Definition ready (now : Time) : env := calm now [1; 2; 3]%Z.
Definition refused (now : Time) : env := mkEnv now Refused "connection reset" None [1; 2; 3]%Z ∅.

(** Two rows are committed and a third is rolled back; the enqueuer refuses the
    first row, which is released with a time in the future. *)
Definition first_events : list oevent :=
  [EvBegin 0; EvWrite 0 5 (entry "a"); EvBegin 1; EvWrite 0 6 (entry "b"); EvWrite 1 7 (entry "c");
   EvRollback 1; EvCommit 0; EvPoll 2 (worker "w1");
   EvStep 2 (ready 10); EvStep 2 (ready 10); EvStep 2 (ready 10); EvStep 2 (refused 10);
   EvStep 2 (ready 10); EvStep 2 (ready 10);
   EvStep 2 (ready 10); EvStep 2 (ready 10); EvStep 2 (ready 10); EvStep 2 (ready 10); EvEnd 2].

Definition summary (s : system) : list (Z * option Time * Z) * list Z * list Z :=
  (map (λ kv, (kv.1, claimed_at kv.2, attempts kv.2)) (map_to_list (table (sw s))),
   map ID (delivered (sw s)), released (sw s)).

Example first_run :
  summary <$> orun empty_system first_events = Some ([(1, Some (10 + second), 1)], [2], [])%Z.
Proof. vm_compute. reflexivity. Qed.

(** A later cycle does not pick the failed row up, however late; only a sweep frees
    it, its lease after the time of the retry. *)
Lemma failed_row_waits p id now cause t :
  unclaimed (release_row p id now cause t).1 id = false.
Proof.
  unfold release_row, unclaimed. destruct (t !! id) eqn:E; simpl; [by rewrite lookup_insert_eq|by rewrite E].
Qed.

Example failed_row_needs_sweep :
  let late := (10 + 100 * hour)%Z in
  summary <$> orun empty_system (first_events ++ cycle 2 (worker "w1") (ready late) 0) =
    Some ([(1, Some (10 + second), 1)], [2], [])%Z.
Proof. vm_compute. reflexivity. Qed.

(** A poller that works on its batch for longer than the lease: the sweep frees the
    rows it has not reached, and they are handed over twice although nothing failed. *)
Definition slow_events : list oevent :=
  [EvBegin 0; EvWrite 0 5 (entry "a"); EvWrite 0 6 (entry "b"); EvCommit 0; EvPoll 1 (worker "w1");
   EvStep 1 (ready 10); EvStep 1 (ready 10); EvStep 1 (ready 10); EvStep 1 (ready 10);
   EvStep 1 (ready 10); EvStep 1 (ready 10); EvSweep 60 (11 + minute)%Z] ++
  cycle 2 (worker "w2") (ready (11 + minute)) 1 ++
  [EvStep 1 (ready (12 + minute)); EvStep 1 (ready (12 + minute)); EvStep 1 (ready (12 + minute))].

Lemma slow_batch_twice : summary <$> orun empty_system slow_events = Some ([], [1; 2; 2], [2])%Z.
Proof. vm_compute. reflexivity. Qed.

Lemma outbox_no_loss_witness : ∃ s, orun empty_system first_events = Some s ∧
  ((∃ x, table (sw s) !! 1%Z = Some x ∧ claimed_of 1%Z x = mkClaimed 1 "a" "webhooks" "{}") ∨
   mkClaimed 1 "a" "webhooks" "{}" ∈ delivered (sw s)).
Proof.
  destruct (orun empty_system first_events) as [s|] eqn:E; [|vm_compute in E; discriminate].
  exists s. split; [reflexivity|]. apply (proj1 (outbox_no_loss first_events s E)).
  vm_compute in E. injection E as <-. vm_compute. reflexivity.
Defined.

Lemma outbox_few_duplicates_witness : ∃ s, orun empty_system slow_events = Some s ∧
  occurs 2%Z (map ID (delivered (sw s))) ≤ 1 + occurs 2%Z (released (sw s)) ∧
  occurs 2%Z (map ID (delivered (sw s))) = 2.
Proof.
  destruct (orun empty_system slow_events) as [s|] eqn:E; [|vm_compute in E; discriminate].
  exists s. split; [reflexivity|]. split; [apply (outbox_few_duplicates slow_events s 2%Z E)|].
  vm_compute in E. injection E as <-. vm_compute. reflexivity.
Defined.

Lemma first_row_left s :
  orun empty_system first_events = Some s →
  calls s !! 7 = None ∧ map_Forall (λ id r, id ∈ [1; 2; 3]%Z ∧ lease_over 60 (hour) r = true) (table (sw s)).
Proof.
  intros E. vm_compute in E. injection E as <-. split; [vm_compute; reflexivity|].
  apply (bool_decide_unpack _). vm_compute. exact I.
Qed.

Lemma outbox_can_drain_witness : ∃ s, orun empty_system first_events = Some s ∧ ∃ ks s',
  length ks ≤ size (table (sw s)) ∧
  orun s (EvSweep 60 hour :: flat_map (cycle 7 (worker "w2") (calm hour [1; 2; 3]%Z)) ks) = Some s' ∧
  table (sw s') = ∅ ∧ ∀ id r, committed (sw s') !! id = Some r → r ∈ delivered (sw s').
Proof.
  destruct (orun empty_system first_events) as [s|] eqn:E; [|vm_compute in E; discriminate].
  exists s. split; [reflexivity|]. destruct (first_row_left s E) as [Hc Ht].
  apply (outbox_can_drain first_events s (worker "w2") 7 hour [1; 2; 3]%Z 60 E); [reflexivity|exact Hc|..].
  - intros id r Hr. right. exact (proj2 (Ht id r Hr)).
  - intros id [r Hr]. exact (proj1 (Ht id r Hr)).
Defined.
