(* ===== verification/Webhook.v ===== *)
(** * Webhook delivery (packages/go/webhooks/delivery: signer.go, types.go,
    retry.go, deadletter.go, client.go, task.go)

    One call of [Deliver] claims the (subscription, event) pair in the idempotency
    store, signs the body, sends one request and classifies the answer; failures
    are retried on a schedule until the attempts are used up, then dead-lettered.
    [Deliver] is a program of commands to its collaborators: the claim store, the
    secret store, the clock, the random source, the HTTP client, the audit recorder
    and the subscription store. HMAC-SHA256, [url.Parse] and the date layouts of
    [time.Parse] are parameters. *)
From S2P Require Import Prelude GoStrings GoTime Prog Hex Http.
From Stdlib Require Import Ascii.

(** ** Signatures (signer.go) *)

Definition SignatureHeader : string := "X-GoNext-Signature".
Definition EventIDHeader : string := "X-GoNext-Event-Id".
Definition DeliveryIDHeader : string := "X-GoNext-Delivery-Id".
Definition TimestampHeader : string := "X-GoNext-Timestamp".
Definition AttemptHeader : string := "X-GoNext-Attempt".
Definition EventTypeHeader : string := "X-GoNext-Event-Type".
Definition SubscriptionIDHeader : string := "X-GoNext-Subscription-Id".
Definition reservedHeaders : list string :=
  [SignatureHeader; EventIDHeader; DeliveryIDHeader; TimestampHeader; AttemptHeader; EventTypeHeader;
   SubscriptionIDHeader; "Content-Type"].

Record SignaturePair := mkPair { Timestamp : Time; V1Hex : string }.
Inductive malformed := MEmpty | MNoEquals | MNotInt | MMissingT.
Inductive verify_error := ErrMalformedSignature (why : malformed) | OutsideSkew (delta : Duration) | V1Missing | V1Mismatch.

Fixpoint parse_parts (parts : list string) (out : SignaturePair) (tsSet : bool) : result malformed (SignaturePair * bool) :=
  match parts with
  | [] => Ok (out, tsSet)
  | part :: parts =>
      match strings.Cut (strings.TrimSpace part) "=" with
      | None => Err MNoEquals
      | Some (k, v) =>
          if decide (k = "t") then
            match strconv.Atoi v with
            | None => Err MNotInt
            | Some n => parse_parts parts (mkPair (time.FromUnix n) (V1Hex out)) true
            end
          else if decide (k = "v1") then parse_parts parts (mkPair (Timestamp out) (strings.ToLower v)) tsSet
          else parse_parts parts out tsSet
      end
  end.

Definition ParseSignature (header : string) : result malformed SignaturePair :=
  if decide (header = "") then Err MEmpty
  else match parse_parts (strings.Split "," header) (mkPair time_zero "") false with
       | Err e => Err e
       | Ok (out, true) => Ok out
       | Ok (_, false) => Err MMissingT
       end.

Section signer.
Context (hmac : string → string → string).

Definition signed_string (unix : Z) (body : string) : string := strconv.Itoa unix +:+ "." +:+ body.

Definition Sign (secret : string) (ts : Time) (body : string) : string :=
  let sum := hmac secret (signed_string (time.Unix ts) body) in
  "t=" +:+ strconv.Itoa (time.Unix ts) +:+ ",v1=" +:+ hex.EncodeToString sum.

Definition Verify (secret body header : string) (now : Time) (maxSkew : Duration) : option verify_error :=
  match ParseSignature header with
  | Err e => Some (ErrMalformedSignature e)
  | Ok sig =>
      let delta := time.Sub now (Timestamp sig) in
      let delta := if (delta <? 0)%Z then wrap64 (- delta) else delta in
      if ((0 <? maxSkew) && (maxSkew <? delta))%Z then Some (OutsideSkew delta)
      else
        let expected := Sign secret (Timestamp sig) body in
        let v1 := match strings.Cut expected ",v1=" with Some (_, v1) => v1 | None => "" end in
        if decide (V1Hex sig = "") then Some V1Missing
        else if decide (hex.DecodeBytes (V1Hex sig) = hex.DecodeBytes v1) then None else Some V1Mismatch
  end.
End signer.

(** ** Errors (types.go) *)

Inductive sentinel := ErrPermanent | ErrTransient | ErrExhausted | ErrInvalidPayload | ErrInvalidSubscription.
#[export] Instance sentinel_eq : EqDecision sentinel.
Proof. solve_decision. Defined.

Definition sentinel_text (s : sentinel) : string :=
  match s with
  | ErrPermanent => "webhook delivery: permanent failure"
  | ErrTransient => "webhook delivery: transient failure"
  | ErrExhausted => "webhook delivery: retry schedule exhausted"
  | ErrInvalidPayload => "webhook delivery: invalid payload"
  | ErrInvalidSubscription => "webhook delivery: invalid subscription"
  end.

(** An error is its text and the sentinels [errors.Is] finds in it. *)
Record error := mkError { error_text : string; wraps : list sentinel }.
Definition sentinel_error (s : sentinel) : error := mkError (sentinel_text s) [s].
Definition prefixed (prefix : string) (e : error) : error := mkError (prefix +:+ e.(error_text)) (wraps e).
Definition Join (e f : error) : error :=
  mkError (error_text e +:+ String (ascii_of_nat 10) (error_text f)) (wraps e ++ wraps f).
Definition invalid (s : sentinel) (what : string) : error := mkError (sentinel_text s +:+ ": " +:+ what) [s].

Record Payload := mkPayload {
  SubscriptionID : string; EventID : string; EventType : string; Body : string;
  Headers : list (string * string); Attempt : Z }.
Record Subscription := mkSubscription { sub_ID : string; URL : string; SecretID : string }.

Inductive Status := StatusSuccess | StatusRetry | StatusDeadletter.
#[export] Instance Status_eq : EqDecision Status.
Proof. solve_decision. Defined.

Record Result := mkResult {
  res_Status : Status; HTTPStatus : Z; Latency : Duration; res_Attempt : Z; NextDelay : Duration; Err_ : option error }.

Record DeadletterEvent := mkDeadletterEvent {
  dl_SubscriptionID : string; dl_EventID : string; dl_EventType : string; dl_URL : string; Attempts : Z;
  LastStatus : Z; LastError : string; Reason : string; OccurredAt : Time }.

(** ** Commands to the collaborators *)

Record Request := mkRequest { req_URL : string; req_Header : gmap string string; req_Body : string; ContentLength : Z }.

(** What [http.Client.Do] fails with: the error, what [errors.Is] and [errors.As]
    find in it, and what the context says afterwards. *)
Inductive ctx_error := Canceled | DeadlineExceeded.
Record do_error := mkDoError {
  do_err : error; is_redirect : bool; is_blocked : bool; net_timeout : option bool; ctx_Err : option ctx_error }.
Record Response := mkResponse { StatusCode : Z; RetryAfter : string }.

(** [WNext] asks a scheduler from outside the package; [WDo] carries the claim's key
    for the log of requests. *)
Inductive wcmd : Type → Type :=
| WClaim (key : string) (ttl : Duration) : wcmd (result error bool)
| WResolve (secretID : string) : wcmd (result error string)
| WNow : wcmd Time
| WDeliveryID : wcmd string
| WRand (n : Z) : wcmd Z
| WNext (attempt : Z) : wcmd (Duration * bool)
| WDo (key : string) (r : Request) : wcmd (result do_error Response)
| WRecord (evt : DeadletterEvent) : wcmd (option error)
| WMark (subscriptionID reason : string) : wcmd (option error).

(** ** Retries (retry.go) *)

Definition DefaultRetrySchedule : list Duration :=
  [30 * second; 5 * minute; 30 * minute; 2 * hour; 6 * hour; 24 * hour]%Z.
Definition MaxDeliveryAttempts : Z := 7.

Record Schedule := mkSchedule { delays : list Duration; jitter : bool }.
Definition NewSchedule (ds : option (list Duration)) : Schedule := mkSchedule (default DefaultRetrySchedule ds) true.
Definition WithoutJitter (s : Schedule) : Schedule := mkSchedule (delays s) false.

Definition Schedule_NextDelay (s : Schedule) (attempt : Z) : prog wcmd (Duration * bool) :=
  let attempt := if (attempt <? 1)%Z then 1%Z else attempt in
  match delays s !! Z.to_nat (attempt - 1) with
  | None => Ret (0%Z, true)
  | Some d =>
      if negb (jitter s) then Ret (d, false)
      else if (d <=? 0)%Z then Ret (0%Z, false)
      else jittered <- WRand d ;; Ret (jittered, false)
  end.

(** A [RetryScheduler]: the two of the package, or another one. *)
Inductive RetryScheduler := ListSchedule (s : Schedule) | ConstantSchedule (d : Duration) | OtherSchedule.

Definition next_delay (s : RetryScheduler) (attempt : Z) : prog wcmd (Duration * bool) :=
  match s with
  | ListSchedule s => Schedule_NextDelay s attempt
  | ConstantSchedule d => Ret (d, false)
  | OtherSchedule => r <- WNext attempt ;; Ret r
  end.

(** ** Dead letters (deadletter.go) *)

Definition ReasonScheduleExhausted : string := "schedule_exhausted".
Definition ReasonPermanent4xx : string := "permanent_4xx".
Definition ReasonURLGone : string := "url_gone".
Definition ReasonRedirectRejected : string := "redirect_rejected".

Record deadletterPipeline := mkPipeline { audit : bool; subscriptions : bool; has_now : bool }.

Definition trigger (d : option deadletterPipeline) (sub : Subscription) (p : Payload) (last : Result) (reason : string)
    : prog wcmd (list error) :=
  match d with
  | None => Ret []
  | Some d =>
      now <- WNow ;;
      run! now := (if has_now d then (n <- WNow ;; Ret n) else Ret now) in
      run! errs :=
        (if audit d then
           e <- WRecord (mkDeadletterEvent (sub_ID sub) (EventID p) (EventType p) (URL sub) (res_Attempt last)
                  (HTTPStatus last) (match Err_ last with Some e => error_text e | None => "" end) reason now) ;;
           Ret (match e with Some e => [e] | None => [] end)
         else Ret []) in
      run! errs :=
        (if subscriptions d then
           e <- WMark (sub_ID sub) reason ;; Ret (match e with Some e => errs ++ [e] | None => errs end)
         else Ret errs) in
      Ret errs
  end.

Definition classifyHTTPStatus (code : Z) : Status * string :=
  if ((200 <=? code) && (code <? 300))%Z then (StatusSuccess, "")
  else if ((code =? 408) || (code =? 429))%Z then (StatusRetry, "")
  else if (code =? 410)%Z then (StatusDeadletter, ReasonURLGone)
  else if ((400 <=? code) && (code <? 500))%Z then (StatusDeadletter, ReasonPermanent4xx)
  else if ((500 <=? code) && (code <? 600))%Z then (StatusRetry, "")
  else (StatusRetry, "").

Definition capRetryAfter (d : Duration) : Duration :=
  if (24 * hour <? d)%Z then (24 * hour)%Z else if (d <? 0)%Z then 0%Z else d.

Definition date_layouts : list string :=
  ["Mon, 02 Jan 2006 15:04:05 MST"; "Mon, 02 Jan 2006 15:04:05 -0700"; "Monday, 02-Jan-06 15:04:05 MST";
   "Mon Jan _2 15:04:05 2006"].

(** ** The client (client.go) *)

Record ClientConfig := mkClientConfig {
  ConnectTimeout : Duration; RequestTimeout : Duration; TLSHandshakeTimeout : Duration; IdleConnTimeout : Duration;
  MaxIdleConnsPerHost : Z; MaxResponseBytes : Z; DisableSSRFGuard : bool }.

Definition applyDefaults (c : ClientConfig) : ClientConfig :=
  mkClientConfig
    (if (ConnectTimeout c <=? 0)%Z then 5 * second else ConnectTimeout c)%Z
    (if (RequestTimeout c <=? 0)%Z then 30 * second else RequestTimeout c)%Z
    (if (TLSHandshakeTimeout c <=? 0)%Z then 5 * second else TLSHandshakeTimeout c)%Z
    (if (IdleConnTimeout c <=? 0)%Z then 90 * second else IdleConnTimeout c)%Z
    (if (MaxIdleConnsPerHost c <=? 0)%Z then 4 else MaxIdleConnsPerHost c)%Z
    (if (MaxResponseBytes c <=? 0)%Z then 64 * 1024 else MaxResponseBytes c)%Z
    (DisableSSRFGuard c).

Definition netClass (e : do_error) : Status :=
  if is_redirect e then StatusDeadletter
  else if is_blocked e then StatusDeadletter
  else match ctx_Err e with
       | Some Canceled => StatusRetry
       | Some DeadlineExceeded => StatusRetry
       | None => match net_timeout e with Some true => StatusRetry | _ => StatusRetry end
       end.

(** ** The deliverer (task.go) *)

Inductive client := Supplied | Built (cfg : ClientConfig).

(** A store, resolver or client that is nil is [false] or [None]. *)
Record Deliverer := mkDeliverer {
  httpClient : option client; scheduler : RetryScheduler; secrets : bool; idempotency : bool;
  deadletter : option deadletterPipeline; maxAttempts : Z; allowedSchemes : gset string; idempotencyTTL : Duration;
  userAgent : string }.

Inductive Option_ :=
| WithHTTPClient (nonnil : bool) | WithClientConfig (cfg : ClientConfig) | WithScheduler (s : RetryScheduler)
| WithSecretResolver (nonnil : bool) | WithIdempotency (nonnil : bool) (ttl : Duration)
| WithAuditRecorder (nonnil : bool) | WithSubscriptions (nonnil : bool) | WithClock | WithDeliveryIDFactory
| WithMaxAttempts (n : Z) | WithAllowedSchemes (schemes : list string) | WithUserAgent (ua : string).

Definition pipeline_of (d : Deliverer) : deadletterPipeline := default (mkPipeline false false false) (deadletter d).

Definition set_pipeline (dl : option deadletterPipeline) (d : Deliverer) : Deliverer :=
  mkDeliverer (httpClient d) (scheduler d) (secrets d) (idempotency d) dl (maxAttempts d) (allowedSchemes d)
    (idempotencyTTL d) (userAgent d).

Definition apply_option (o : Option_) (d : Deliverer) : Deliverer :=
  match d with
  | mkDeliverer c s sec idem dl mx schemes ttl ua =>
      match o with
      | WithHTTPClient b => mkDeliverer (if b then Some Supplied else None) s sec idem dl mx schemes ttl ua
      | WithClientConfig cfg =>
          mkDeliverer (match c with None => Some (Built (applyDefaults cfg)) | Some _ => c end) s sec idem dl mx schemes ttl ua
      | WithScheduler s => mkDeliverer c s sec idem dl mx schemes ttl ua
      | WithSecretResolver b => mkDeliverer c s b idem dl mx schemes ttl ua
      | WithIdempotency b t => mkDeliverer c s sec b dl mx schemes (if (0 <? t)%Z then t else ttl) ua
      | WithAuditRecorder b =>
          set_pipeline (Some (mkPipeline b (subscriptions (pipeline_of d)) (has_now (pipeline_of d)))) d
      | WithSubscriptions b =>
          set_pipeline (Some (mkPipeline (audit (pipeline_of d)) b (has_now (pipeline_of d)))) d
      | WithClock => set_pipeline ((λ p, mkPipeline (audit p) (subscriptions p) true) <$> dl) d
      | WithDeliveryIDFactory => d
      | WithMaxAttempts n => mkDeliverer c s sec idem dl n schemes ttl ua
      | WithAllowedSchemes l => mkDeliverer c s sec idem dl mx (list_to_set l) ttl ua
      | WithUserAgent u => mkDeliverer c s sec idem dl mx schemes ttl u
      end
  end.

Definition New (opts : list Option_) : Deliverer :=
  let d := mkDeliverer None (ListSchedule (NewSchedule None)) false false None MaxDeliveryAttempts {["https"]}
             (7 * 24 * hour)%Z "GoNext-Webhooks/1" in
  let d := foldl (λ d o, apply_option o d) d opts in
  let c := match httpClient d with
           | None => Some (Built (applyDefaults (mkClientConfig 0 0 0 0 0 0 false)))
           | c => c
           end in
  let mx := match scheduler d with
            | ListSchedule s =>
                if (Z.of_nat (length (delays s)) + 1 <? maxAttempts d)%Z then (Z.of_nat (length (delays s)) + 1)%Z
                else maxAttempts d
            | _ => maxAttempts d
            end in
  mkDeliverer c (scheduler d) (secrets d) (idempotency d) (deadletter d) mx (allowedSchemes d) (idempotencyTTL d)
    (userAgent d).

Definition validatePayload (p : Payload) : option error :=
  if decide (SubscriptionID p = "") then Some (invalid ErrInvalidPayload "SubscriptionID is empty")
  else if decide (EventID p = "") then Some (invalid ErrInvalidPayload "EventID is empty")
  else if decide (Body p = "") then Some (invalid ErrInvalidPayload "Body is empty")
  else None.

Definition idempotencyKey (subscriptionID eventID : string) : string :=
  "webhook.deliver:" +:+ subscriptionID +:+ ":" +:+ eventID.

Section deliver.
Context (hmac : string → string → string).
(** [url.Parse]: the scheme and the host; [time.Parse layout value]. *)
Context (url_Parse : string → option (string * string)) (time_Parse : string → string → option Time).
(** The text of [%q], and the error of [url.Parse]. *)
Context (quoted : string → string) (parse_error : string → error).

Fixpoint parse_date (layouts : list string) (value : string) : option Time :=
  match layouts with
  | [] => None
  | l :: layouts => match time_Parse l value with Some t => Some t | None => parse_date layouts value end
  end.

Definition parseRetryAfter (value : string) (now : Time) : Duration :=
  if decide (value = "") then 0%Z
  else
    let value := strings.TrimSpace value in
    let date := match parse_date date_layouts value with
                | Some t => if time_after t now then capRetryAfter (time.Sub t now) else 0%Z
                | None => 0%Z
                end in
    match strconv.Atoi value with
    | Some n => if (0 <=? n)%Z then capRetryAfter (wrap64 (n * second)) else date
    | None => date
    end.

Definition validateSubscription (d : Deliverer) (s : Subscription) : option error :=
  if decide (sub_ID s = "") then Some (invalid ErrInvalidSubscription "ID is empty")
  else if decide (SecretID s = "") then Some (invalid ErrInvalidSubscription "SecretID is empty")
  else if decide (URL s = "") then Some (invalid ErrInvalidSubscription "URL is empty")
  else match url_Parse (URL s) with
       | Some (scheme, host) =>
           if decide (host = "") then Some (invalid ErrInvalidSubscription "URL not parseable")
           else if decide (scheme ∈ allowedSchemes d) then
             if secrets d then None else Some (invalid ErrInvalidSubscription "no SecretResolver wired")
           else Some (invalid ErrInvalidSubscription ("scheme " +:+ quoted scheme +:+ " not allowed"))
       | None => Some (invalid ErrInvalidSubscription "URL not parseable")
       end.

(** [req.Header.Set], and the headers of one request: [extra] is the order in which
    the map of custom headers is visited. *)
Definition header_set (k v : string) (h : gmap string string) : gmap string string := <[CanonicalHeaderKey k := v]> h.

Definition custom_headers (extra : list (string * string)) : gmap string string :=
  foldl (λ h kv, if decide (CanonicalHeaderKey kv.1 ∈ reservedHeaders) then h else header_set kv.1 kv.2 h) ∅ extra.

Definition all_headers (d : Deliverer) (p : Payload) (sub : Subscription) (secret : string) (attempt : Z) (now : Time)
    (deliveryID : string) : gmap string string :=
  let h := custom_headers (Headers p) in
  let h := header_set "Content-Type" "application/json" h in
  let h := header_set "User-Agent" (userAgent d) h in
  let h := header_set SignatureHeader (Sign hmac secret now (Body p)) h in
  let h := header_set TimestampHeader (strconv.Itoa (time.Unix now)) h in
  let h := header_set EventIDHeader (EventID p) h in
  let h := header_set DeliveryIDHeader deliveryID h in
  let h := header_set AttemptHeader (strconv.Itoa attempt) h in
  let h := if decide (EventType p = "") then h else header_set EventTypeHeader (EventType p) h in
  header_set SubscriptionIDHeader (sub_ID sub) h.

Definition buildRequest (d : Deliverer) (p : Payload) (sub : Subscription) (secret : string) (attempt : Z)
    : prog wcmd (result error Request) :=
  match url_Parse (URL sub) with
  | None => Ret (Err (parse_error (URL sub)))
  | Some _ =>
      now <- WNow ;; deliveryID <- WDeliveryID ;;
      Ret (Ok (mkRequest (URL sub) (all_headers d p sub secret attempt now deliveryID) (Body p)
                 (Z.of_nat (String.length (Body p)))))
  end.

Definition exhaust (d : Deliverer) (sub : Subscription) (p : Payload) (last : Result) : prog wcmd Result :=
  let err := match Err_ last with
             | Some e => mkError (sentinel_text ErrExhausted +:+ ": " +:+ error_text e) (ErrExhausted :: wraps e)
             | None => sentinel_error ErrExhausted
             end in
  let last := mkResult StatusDeadletter (HTTPStatus last) (Latency last) (res_Attempt last) 0 (Some err) in
  run! _ := trigger (deadletter d) sub p last ReasonScheduleExhausted in Ret last.

(** The retry of every transient failure: the result, or its exhaustion. *)
Definition retry_or_exhaust (d : Deliverer) (sub : Subscription) (p : Payload) (attempt : Z) (exhausted : bool)
    (res : Result) : prog wcmd Result :=
  if exhausted || (maxAttempts d <=? attempt)%Z then exhaust d sub p res else Ret res.

Definition status_text (code : Z) : string := "http status " +:+ strconv.Itoa code +:+ ": ".

(** What follows the claim. *)
Definition send (d : Deliverer) (p : Payload) (sub : Subscription) (attempt : Z) (key : string) : prog wcmd Result :=
  secret <- WResolve (SecretID sub) ;;
  match secret with
  | Err err =>
      run! (delay, exhausted) := next_delay (scheduler d) attempt in
      retry_or_exhaust d sub p attempt exhausted
        (mkResult StatusRetry 0 0 attempt delay
           (Some (prefixed "resolve secret: " (Join err (sentinel_error ErrTransient)))))
  | Ok secret =>
      run! req := buildRequest d p sub secret attempt in
      match req with
      | Err err =>
          Ret (mkResult StatusDeadletter 0 0 attempt 0
                 (Some (prefixed "build request: " (Join err (sentinel_error ErrPermanent)))))
      | Ok req =>
          start <- WNow ;; resp <- WDo key req ;; stop <- WNow ;;
          let latency := time.Sub stop start in
          match resp with
          | Err e =>
              if decide (netClass e = StatusDeadletter) then
                let res := mkResult StatusDeadletter 0 latency attempt 0
                             (Some (prefixed "http: " (Join (do_err e) (sentinel_error ErrPermanent)))) in
                run! _ := trigger (deadletter d) sub p res ReasonRedirectRejected in Ret res
              else
                run! (delay, exhausted) := next_delay (scheduler d) attempt in
                retry_or_exhaust d sub p attempt exhausted
                  (mkResult StatusRetry 0 latency attempt delay
                     (Some (prefixed "http: " (Join (do_err e) (sentinel_error ErrTransient)))))
          | Ok resp =>
              let (status, reason) := classifyHTTPStatus (StatusCode resp) in
              match status with
              | StatusSuccess => Ret (mkResult StatusSuccess (StatusCode resp) latency attempt 0 None)
              | StatusDeadletter =>
                  let res := mkResult StatusDeadletter (StatusCode resp) latency attempt 0
                               (Some (prefixed (status_text (StatusCode resp)) (sentinel_error ErrPermanent))) in
                  run! _ := trigger (deadletter d) sub p res reason in Ret res
              | StatusRetry =>
                  run! (delay, exhausted) := next_delay (scheduler d) attempt in
                  now <- WNow ;;
                  let ra := parseRetryAfter (RetryAfter resp) now in
                  let delay := if (delay <? ra)%Z then ra else delay in
                  retry_or_exhaust d sub p attempt exhausted
                    (mkResult StatusRetry (StatusCode resp) latency attempt delay
                       (Some (prefixed (status_text (StatusCode resp)) (sentinel_error ErrTransient))))
              end
          end
      end
  end.

Definition Deliver (d : Deliverer) (p : Payload) (sub : Subscription) : prog wcmd Result :=
  match validatePayload p with
  | Some err => Ret (mkResult StatusDeadletter 0 0 (Z.max 1 (Attempt p)) 0 (Some err))
  | None =>
      match validateSubscription d sub with
      | Some err => Ret (mkResult StatusDeadletter 0 0 (Z.max 1 (Attempt p)) 0 (Some err))
      | None =>
          let attempt := if (Attempt p <? 1)%Z then 1%Z else Attempt p in
          let key := idempotencyKey (sub_ID sub) (EventID p) in
          if idempotency d then
            c <- WClaim key (idempotencyTTL d) ;;
            match c with
            | Err err =>
                run! (delay, exhausted) := next_delay (scheduler d) attempt in
                retry_or_exhaust d sub p attempt exhausted
                  (mkResult StatusRetry 0 0 attempt delay
                     (Some (prefixed "idempotency claim: " (Join err (sentinel_error ErrTransient)))))
            | Ok false => Ret (mkResult StatusSuccess 0 0 attempt 0 None)
            | Ok true => send d p sub attempt key
            end
          else send d p sub attempt key
      end
  end.
End deliver.

(** ** Deliveries that share a claim store *)

(** What the claim store promises: a claim is won exactly when no earlier one is
    live, and then lives for its TTL. *)
Class ClaimStore (S : Type) := { Claim : S → Time → string → Duration → S * bool }.

Definition claim_free (e : option Time) (now : Time) : bool :=
  match e with Some x => (x <=? now)%Z | None => true end.

Class ClaimLaws (S : Type) `{ClaimStore S} := {
  expiry : S → string → option Time;
  Claim_won s now k ttl : (Claim s now k ttl).2 = claim_free (expiry s k) now;
  Claim_expiry s now k ttl k' :
    expiry (Claim s now k ttl).1 k' =
      if decide (k' = k ∧ claim_free (expiry s k) now = true) then Some (now + ttl)%Z else expiry s k' }.

#[export] Instance memory_claims : ClaimStore (gmap string Time) := {
  Claim s now k ttl := if claim_free (s !! k) now then (<[k := (now + ttl)%Z]> s, true) else (s, false) }.

#[export] Program Instance memory_claim_laws : ClaimLaws (gmap string Time) := { expiry s k := s !! k }.
Next Obligation. intros s now k ttl. simpl. by destruct (claim_free _ _). Qed.
Next Obligation.
  intros s now k ttl k'. simpl. destruct (claim_free (s !! k) now) eqn:E; simpl.
  - destruct (decide (k' = k)) as [->|Hne].
    + by rewrite lookup_insert_eq, decide_True.
    + by rewrite lookup_insert_ne, decide_False by naive_solver.
  - by rewrite decide_False by naive_solver.
Qed.

(** What the outside answers at one command. *)
Record answers := mkAnswers {
  a_now : Time; a_net : bool; a_lost : bool; a_err : error; a_secret : result error string; a_id : string; a_rand : Z;
  a_next : Duration * bool; a_response : result do_error Response; a_record : option error; a_mark : option error }.

Section system.
Context {S : Type} `{ClaimStore S}.

(** The store, the calls under way, the claims that were won and the requests that
    were sent. *)
Record wsystem := mkWSystem {
  store : S; deliveries : gmap nat (prog wcmd Result); won : list (string * Time); sent : list (string * Request) }.

(** The claim is carried out unless [a_net] says it was refused; [a_lost] loses the
    reply. *)
Definition wexec (R : Type) (a : answers) (s : wsystem) (c : wcmd R) : wsystem * R :=
  match c in wcmd R return wsystem * R with
  | WClaim key ttl =>
      let r := Claim (store s) (a_now a) key ttl in
      if a_net a then
        (mkWSystem r.1 (deliveries s) (if r.2 then won s ++ [(key, a_now a)] else won s) (sent s),
         if a_lost a then Err (a_err a) else Ok r.2)
      else (s, Err (a_err a))
  | WResolve _ => (s, a_secret a)
  | WNow => (s, a_now a)
  | WDeliveryID => (s, a_id a)
  | WRand _ => (s, a_rand a)
  | WNext _ => (s, a_next a)
  | WDo key r => (mkWSystem (store s) (deliveries s) (won s) (sent s ++ [(key, r)]), a_response a)
  | WRecord _ => (s, a_record a)
  | WMark _ _ => (s, a_mark a)
  end.

Inductive wevent := EvDeliver (t : nat) (call : prog wcmd Result) | EvAnswer (t : nat) (a : answers) | EvReturn (t : nat).

Definition set_call (t : nat) (m : prog wcmd Result) (s : wsystem) : wsystem :=
  mkWSystem (store s) (<[t := m]> (deliveries s)) (won s) (sent s).

Definition answer_call (t : nat) (a : answers) (s : wsystem) (m : prog wcmd Result) : option wsystem :=
  match m with
  | Ret _ => None
  | Call c k => let r := wexec _ a s c in Some (set_call t (k r.2) r.1)
  end.

Definition wstep (s : wsystem) (ev : wevent) : option wsystem :=
  match ev with
  | EvDeliver t call => match deliveries s !! t with Some _ => None | None => Some (set_call t call s) end
  | EvAnswer t a => m ← deliveries s !! t; answer_call t a s m
  | EvReturn t =>
      match deliveries s !! t with
      | Some _ => Some (mkWSystem (store s) (delete t (deliveries s)) (won s) (sent s))
      | None => None
      end
  end.

Fixpoint wrun (s : wsystem) (evs : list wevent) : option wsystem :=
  match evs with
  | [] => Some s
  | ev :: evs => s ← wstep s ev; wrun s evs
  end.
End system.
Arguments wsystem : clear implicits.
