(* ===== verification/WebhookProps.v ===== *)
(** * What webhook delivery guarantees

    The signature round trip and what an accepted signature means; the outcome of
    [Deliver] on every branch, with its dead letter; the headers a subscription can
    not forge; and at most one request per claim, however deliveries interleave. *)
From S2P Require Import Prelude GoStrings GoTime Prog Hex Http Counting Webhook.
From Stdlib Require Import Ascii.

(** ** Signatures *)

(** A byte of a decimal number or of hexadecimal text: no space, comma or equals
    sign, and no upper-case letter. *)
Definition plain_char (c : ascii) : bool :=
  bool_decide (c ∈ ["-"; "0"; "1"; "2"; "3"; "4"; "5"; "6"; "7"; "8"; "9"; "a"; "b"; "c"; "d"; "e"; "f"]%char).

Lemma plain_cases (P : ascii → bool) s :
  forallb P ["-"; "0"; "1"; "2"; "3"; "4"; "5"; "6"; "7"; "8"; "9"; "a"; "b"; "c"; "d"; "e"; "f"]%char = true →
  all_chars plain_char s = true → all_chars P s = true.
Proof.
  intros HP. apply all_chars_impl. intros c Hc. apply bool_decide_eq_true in Hc.
  rewrite forallb_forall in HP. apply HP. by apply list_elem_of_In.
Qed.

Lemma Itoa_plain_char z : all_chars plain_char (strconv.Itoa z) = true.
Proof.
  assert (∀ z, (0 ≤ z)%Z → all_chars plain_char (strconv.Itoa z) = true) as Hpos.
  { intros n Hn. destruct (Itoa_digits n Hn) as (Hd & _ & _). revert Hd. apply all_chars_impl.
    intros c Hc. digit_case Hc. }
  destruct z as [|p|p]; [done|by apply Hpos|]. unfold strconv.Itoa.
  change (pretty (Z.neg p)) with (String "-" (pretty (Z.pos p))). simpl. apply (Hpos (Z.pos p)). lia.
Qed.

Lemma digit_plain n : (n < 16)%N → plain_char (hex.digit_of n) = true.
Proof.
  intros Hn. assert (∃ k, k < 16 ∧ n = N.of_nat k) as (k & Hk & ->) by (exists (N.to_nat n); lia).
  do 16 (destruct k as [|k]; [vm_compute; reflexivity|]). lia.
Qed.

Lemma hex_plain s : all_chars plain_char (hex.EncodeToString s) = true.
Proof.
  induction s as [|c s IH]; [done|]. cbn [hex.EncodeToString all_chars]. pose proof (N_ascii_bounded c).
  rewrite !digit_plain by first [apply N.Div0.div_lt_upper_bound; lia|apply N.mod_lt; lia]. done.
Qed.

Lemma ToLower_plain s : all_chars plain_char s = true → strings.ToLower s = s.
Proof.
  intros Hs. apply (plain_cases (λ c, bool_decide (strings.lower c = c))) in Hs; [|reflexivity].
  induction s as [|c s IH]; [done|]. simpl in *. apply andb_prop in Hs as [Hc Hs].
  apply bool_decide_eq_true in Hc. by rewrite Hc, IH.
Qed.

Lemma Cut_v1 s t :
  all_chars (not_char ",") s = true → strings.Cut (s +:+ ",v1=" +:+ t) ",v1=" = Some (s, t).
Proof.
  induction s as [|x s IH]; intros Hs.
  - rewrite string_app_nil_l. change (",v1=" +:+ t) with (String "," (String "v" (String "1" (String "=" t)))).
    cbn [strings.Cut strings.HasPrefix]. rewrite !bool_decide_true by done. simpl. by destruct t.
  - rewrite string_app_cons. simpl in Hs. apply andb_prop in Hs as [Hx Hs]. cbn [strings.Cut strings.HasPrefix].
    rewrite bool_decide_false; [simpl; by rewrite (IH Hs)|]. intros <-. discriminate Hx.
Qed.

Lemma Unix_FromUnix n : in_int64 n → time.Unix (time.FromUnix n) = n.
Proof.
  unfold time.Unix, time.FromUnix. intros Hn. rewrite Z.div_mul by done.
  unfold in_int64, int64_min, int64_max, wrap64, time.unixToInternal in *.
  replace ((n + 62135596800 + 2 ^ 63) mod 2 ^ 64 - 2 ^ 63 - 62135596800 + 2 ^ 63)%Z
    with ((n + 62135596800 + 2 ^ 63) mod 2 ^ 64 - 62135596800)%Z by lia.
  rewrite Zminus_mod_idemp_l.
  replace (n + 62135596800 + 2 ^ 63 - 62135596800)%Z with (n + 2 ^ 63)%Z by lia. rewrite Z.mod_small; lia.
Qed.

Section signatures.
Context (hmac : string → string → string).

(** The text of a signature, parsed. *)
Lemma sign_parts ts secret body :
  Sign hmac secret ts body = ("t=" +:+ strconv.Itoa (time.Unix ts)) +:+ ",v1=" +:+
    hex.EncodeToString (hmac secret (signed_string (time.Unix ts) body)).
Proof. unfold Sign. by rewrite string_app_assoc. Qed.

Lemma expected_v1 ts secret body :
  strings.Cut (Sign hmac secret ts body) ",v1=" =
    Some ("t=" +:+ strconv.Itoa (time.Unix ts),
          hex.EncodeToString (hmac secret (signed_string (time.Unix ts) body))).
Proof.
  rewrite sign_parts. apply Cut_v1. rewrite all_chars_app. simpl. apply plain_cases; [reflexivity|apply Itoa_plain_char].
Qed.

Lemma ParseSignature_Sign secret ts body :
  (0 ≤ time.Unix ts)%Z →
  ParseSignature (Sign hmac secret ts body) =
    Ok (mkPair (time.FromUnix (time.Unix ts))
          (hex.EncodeToString (hmac secret (signed_string (time.Unix ts) body)))).
Proof.
  intros Hts. rewrite sign_parts. set (u := time.Unix ts) in *. set (x := hex.EncodeToString _).
  assert (in_int64 u) as Hu by apply wrap64_range.
  unfold ParseSignature. rewrite decide_False by done.
  change (",v1=" +:+ x) with (String "," ("v1=" +:+ x)).
  assert (∀ P, P "t"%char = true → P "="%char = true →
    forallb P ["-"; "0"; "1"; "2"; "3"; "4"; "5"; "6"; "7"; "8"; "9"; "a"; "b"; "c"; "d"; "e"; "f"]%char = true →
    all_chars P ("t=" +:+ strconv.Itoa u) = true) as Hall.
  { intros P H1 H2 H3. rewrite all_chars_app. simpl. rewrite H1, H2. simpl. apply plain_cases; [done|apply Itoa_plain_char]. }
  assert (all_chars plain_char x = true) as Hx by apply hex_plain.
  rewrite Split_app, Split_none; [|rewrite all_chars_app; simpl; by apply plain_cases|by apply Hall].
  cbn [parse_parts]. rewrite !TrimSpace_no_space;
    [|rewrite all_chars_app; simpl; by apply plain_cases|by apply Hall].
  change ("t=" +:+ strconv.Itoa u) with ("t" +:+ String "=" (strconv.Itoa u)).
  change ("v1=" +:+ x) with ("v1" +:+ String "=" x).
  rewrite !Cut_char by done. cbn iota. rewrite decide_True by done.
  rewrite Atoi_Itoa by (unfold in_int64, int64_max in *; lia). rewrite decide_False, decide_True by done.
  by rewrite ToLower_plain.
Qed.

(** The skew test: besides the window it lets through what is more than 2^63
    nanoseconds in the future, because the least duration is its own negation. *)
Lemma skew_check now t maxSkew :
  (maxSkew < int64_max)%Z →
  let delta := time.Sub now t in
  let delta := if (delta <? 0)%Z then wrap64 (- delta) else delta in
  ((0 <? maxSkew) && (maxSkew <? delta))%Z = false ↔
    (maxSkew ≤ 0 ∨ - maxSkew ≤ now - t ≤ maxSkew ∨ now - t ≤ int64_min)%Z.
Proof.
  intros Hm delta delta'.
  assert (delta' = if decide (now - t ≤ int64_min)%Z then int64_min else
                   if decide (int64_max < now - t)%Z then int64_max else Z.abs (now - t)) as ->.
  { unfold delta', delta, time.Sub, int64_min, int64_max in *. clear delta delta'.
    repeat case_decide; repeat case_match; rewrite ?Z.ltb_lt, ?Z.ltb_ge in *; try lia; unfold wrap64.
    - replace (now - t)%Z with (- 2 ^ 63)%Z by lia. reflexivity.
    - rewrite Z.mod_small; lia.
    - reflexivity. }
  rewrite andb_false_iff, !Z.ltb_ge. unfold int64_min, int64_max in *. repeat case_decide; lia.
Qed.

Lemma parse_parts_time parts out tsSet out' :
  (tsSet = true → ∃ n, in_int64 n ∧ Timestamp out = time.FromUnix n) →
  parse_parts parts out tsSet = Ok (out', true) → ∃ n, in_int64 n ∧ Timestamp out' = time.FromUnix n.
Proof.
  revert out tsSet. induction parts as [|part parts IH]; intros out tsSet Hts; simpl; [by intros [= -> ->]; auto|].
  destruct (strings.Cut _ _) as [[k v]|]; [|done]. case_decide.
  - destruct (strconv.Atoi v) as [n|] eqn:E; [|done]. apply IH. intros _. exists n. split; [|done].
    by apply Atoi_range in E.
  - case_decide; apply IH; done.
Qed.

Lemma ParseSignature_time header sig :
  ParseSignature header = Ok sig → ∃ n, in_int64 n ∧ Timestamp sig = time.FromUnix n.
Proof.
  unfold ParseSignature. case_decide; [done|].
  destruct (parse_parts _ _ _) as [[out [|]]|] eqn:E; try done. intros [= <-]. refine (parse_parts_time _ _ _ _ _ E). done.
Qed.

Lemma Verify_accepts secret body header now maxSkew :
  (maxSkew < int64_max)%Z → (∀ k m, hmac k m ≠ "") →
  Verify hmac secret body header now maxSkew = None ↔
  ∃ n v1, in_int64 n ∧ ParseSignature header = Ok (mkPair (time.FromUnix n) v1) ∧
    hex.DecodeBytes v1 = hmac secret (signed_string n body) ∧
    (maxSkew ≤ 0 ∨ - maxSkew ≤ now - time.FromUnix n ≤ maxSkew ∨ now - time.FromUnix n ≤ int64_min)%Z.
Proof.
  intros Hm Hmac. unfold Verify. destruct (ParseSignature header) as [[t v1]|e] eqn:E.
  2: { split; [done|]. by intros (n & v1 & _ & ? & _). }
  destruct (ParseSignature_time _ _ E) as (n & Hn & Ht). simpl in Ht. subst t. cbn [Timestamp V1Hex].
  pose proof (skew_check now (time.FromUnix n) maxSkew Hm) as Hskew. cbv zeta in Hskew.
  rewrite expected_v1, Unix_FromUnix by done. cbn iota.
  rewrite (hex.DecodeBytes_DecodeString _ _ (hex.hex_DecodeString _)).
  assert (∀ n' v1', Ok (E:=malformed) (mkPair (time.FromUnix n) v1) = Ok (mkPair (time.FromUnix n') v1') → in_int64 n' →
            n' = n ∧ v1' = v1) as Hinj.
  { intros n' v1' [= Hn' ->] Hr. split; [|done]. apply (f_equal time.Unix) in Hn'.
    by rewrite !Unix_FromUnix in Hn'. }
  destruct ((0 <? maxSkew) && _)%Z.
  - split; [done|]. intros (n' & v1' & Hr & Heq & _ & Hw). apply Hinj in Heq as [-> ->]; [|done].
    apply Hskew in Hw. done.
  - case_decide as Hv; [|case_decide as Hd].
    + split; [done|]. intros (n' & v1' & Hr & Heq & Hd & _). apply Hinj in Heq as [-> ->]; [|done].
      subst v1. simpl in Hd. by destruct (Hmac secret (signed_string n body)).
    + split; [|done]. intros _. exists n, v1. split; [done|]. split; [done|]. split; [done|]. by apply Hskew.
    + split; [done|]. intros (n' & v1' & Hr & Heq & Hd' & _). by apply Hinj in Heq as [-> ->].
Qed.
End signatures.

(** A subscriber that checks a delivery with the shared secret accepts it exactly
    when the clock is within the skew window around the second the delivery was
    signed: [Verify] undoes [Sign], whatever the body, and reads back the timestamp. *)
Theorem Verify_Sign hmac secret ts body now maxSkew :
  (0 ≤ ts < 2 ^ 62)%Z → (∀ k m, hmac k m ≠ "") → (maxSkew < int64_max)%Z → (- 2 ^ 62 < now)%Z →
  Verify hmac secret body (Sign hmac secret ts body) now maxSkew = None ↔
  (maxSkew ≤ 0 ∨ - maxSkew ≤ now - (ts / second) * second ≤ maxSkew)%Z.
Proof.
  intros Hts Hmac Hm Hnow. assert (second = 1000000000)%Z as Hs by done.
  pose proof (Z.div_pos ts second). pose proof (Z.mul_div_le ts second).
  assert (time.Unix ts = ts / second)%Z as Hu.
  { unfold time.Unix. apply wrap64_id. unfold in_int64, int64_min, int64_max.
    pose proof (Z.div_le_upper_bound ts second (2 ^ 62)). lia. }
  assert (in_int64 (ts / second)) as Hin by (rewrite <-Hu; apply wrap64_range).
  assert (time.FromUnix (ts / second) = ts / second * second)%Z as Hf.
  { unfold time.FromUnix, time.unixToInternal. rewrite wrap64_id; [lia|].
    unfold in_int64, int64_min, int64_max in *. pose proof (Z.div_lt_upper_bound ts second (2 ^ 61)). lia. }
  rewrite Verify_accepts by done. rewrite ParseSignature_Sign by lia. rewrite Hu.
  split.
  - intros (n & v1 & Hn & [= Heq <-] & _ & Hw). rewrite <-Heq, Hf in Hw. unfold int64_min in Hw. lia.
  - intros Hw. eexists _, _. split; [exact Hin|]. split; [done|]. rewrite Hf.
    split; [apply hex.DecodeBytes_DecodeString, hex.hex_DecodeString|]. lia.
Qed.

(** ** Everything a call may do *)













(** ** The outcome of a call *)

Section outcome.
Context (hmac : string → string → string) (url_Parse : string → option (string * string)).
Context (time_Parse : string → string → option Time) (quoted : string → string) (parse_error : string → error).
Abbreviation Deliver := (Deliver hmac url_Parse time_Parse quoted parse_error).
Abbreviation send := (send hmac url_Parse time_Parse parse_error).

Lemma capRetryAfter_bounds d : (0 ≤ capRetryAfter d ≤ 24 * hour)%Z.
Proof.
  unfold capRetryAfter. destruct (Z.ltb_spec (24 * hour) d); [|destruct (Z.ltb_spec d 0)];
    unfold hour, minute, second in *; lia.
Qed.

Lemma parseRetryAfter_bounds value now : (0 ≤ parseRetryAfter time_Parse value now ≤ 24 * hour)%Z.
Proof.
  assert (0 ≤ 0 ≤ 24 * hour)%Z by (unfold hour, minute, second; lia).
  unfold parseRetryAfter. case_decide; [done|]. cbv zeta.
  repeat case_match; auto using capRetryAfter_bounds.
Qed.























End outcome.

(** ** Headers *)




(** The reserved names are compared with a canonical name but are not canonical
    themselves ("X-Gonext-Event-Type"), so only "Content-Type" is ever skipped; and
    with no event type of its own a delivery carries a subscription's. *)
Example forged_event_type :
  let p := mkPayload "s" "e" "" "{}" [("X-GoNext-Event-Type", "post.published")] 1 in
  all_headers (λ _ _, "m") (New []) p (mkSubscription "s" "https://x" "k") "key" 1 0 "id"
    !! CanonicalHeaderKey EventTypeHeader = Some "post.published".
Proof. vm_compute. reflexivity. Qed.

Example reserved_names_unmatched :
  filter (λ k, CanonicalHeaderKey k ∈ reservedHeaders) reservedHeaders = ["Content-Type"].
Proof. vm_compute. reflexivity. Qed.

(** ** Who may send *)

(** [may_send held m]: the program [m], which holds the claim [held] if any, claims for
    [ttl] and sends only under a claim it holds, once. *)
Definition cmd_send {R} (ttl : Duration) (c : wcmd R) : option string → (option string → R → Prop) → Prop :=
  match c in wcmd R return option string → (option string → R → Prop) → Prop with
  | WClaim k t => λ held post, held = None ∧ t = ttl ∧ ∀ x, post (match x with Ok true => Some k | _ => None end) x
  | WDo k _ => λ held post, held = Some k ∧ ∀ x, post None x
  | WResolve _ | WNow | WDeliveryID | WRand _ | WNext _ | WRecord _ | WMark _ _ => λ held post, ∀ x, post held x
  end.

Fixpoint may_send {A} (ttl : Duration) (held : option string) (m : prog wcmd A) : Prop :=
  match m with
  | Ret _ => True
  | Call c k => cmd_send ttl c held (λ held x, may_send ttl held (k x))
  end.

(** Neither claims nor sends. *)
Fixpoint quiet {A} (m : prog wcmd A) : Prop :=
  match m with
  | Ret _ => True
  | Call c k => (match c with WClaim _ _ | WDo _ _ => False | _ => True end) ∧ ∀ x, quiet (k x)
  end.

Lemma quiet_bind {A B} (m : prog wcmd A) (f : A → prog wcmd B) ttl held :
  quiet m → (∀ a, may_send ttl held (f a)) → may_send ttl held (bind m f).
Proof.
  intros Hm Hf. induction m as [a|R c k IH]; simpl; [apply Hf|]. destruct Hm as [Hc Hk]. by destruct c; simpl; auto.
Qed.

Lemma quiet_next_delay s attempt : quiet (next_delay s attempt).
Proof.
  destruct s as [s|d|]; simpl; [|done|done]. unfold Schedule_NextDelay.
  destruct (delays s !! _) as [d|]; [|done]. destruct (negb (jitter s)); [done|]. by destruct (d <=? 0)%Z.
Qed.

Lemma quiet_trigger d sub p last reason : quiet (trigger d sub p last reason).
Proof.
  destruct d as [d|]; [|done]. unfold trigger. split; [done|]. intros now.
  destruct (has_now d), (audit d), (subscriptions d); simpl; auto 10.
Qed.

Section at_most_once.
Context (hmac : string → string → string) (url_Parse : string → option (string * string)).
Context (time_Parse : string → string → option Time) (quoted : string → string) (parse_error : string → error).

Lemma retry_sends d sub p attempt exhausted res ttl held :
  may_send ttl held (retry_or_exhaust d sub p attempt exhausted res).
Proof.
  unfold retry_or_exhaust. destruct (_ || _); [|done]. unfold exhaust. apply quiet_bind; [apply quiet_trigger|done].
Qed.

Lemma schedule_sends d attempt ttl held (f : Duration * bool → prog wcmd Result) :
  (∀ x, may_send ttl held (f x)) → may_send ttl held (bind (next_delay (scheduler d) attempt) f).
Proof. apply quiet_bind, quiet_next_delay. Qed.

Lemma send_sends d p sub attempt key ttl : may_send ttl (Some key) (send hmac url_Parse time_Parse parse_error d p sub attempt key).
Proof.
  intros [secret|err]; simpl.
  2: { apply schedule_sends. intros [delay exhausted]. apply retry_sends. }
  unfold buildRequest. destruct (url_Parse (URL sub)); [|done]. simpl. intros now id start. split; [done|].
  intros [resp|e] stop; simpl.
  - destruct (classifyHTTPStatus (StatusCode resp)) as [[| |] reason]; [done| |].
    + apply schedule_sends. intros [delay exhausted]. simpl. intros now'. apply retry_sends.
    + apply quiet_bind; [apply quiet_trigger|done].
  - case_decide; [apply quiet_bind; [apply quiet_trigger|done]|].
    apply schedule_sends. intros [delay exhausted]. apply retry_sends.
Qed.

Lemma Deliver_sends d p sub :
  idempotency d = true → may_send (idempotencyTTL d) None (Deliver hmac url_Parse time_Parse quoted parse_error d p sub).
Proof.
  intros Hd. unfold Deliver. destruct (validatePayload p); [done|].
  destruct (validateSubscription url_Parse quoted d sub); [done|]. rewrite Hd. split; [done|]. split; [done|].
  intros [[|]|err]; [apply send_sends|done|]. apply schedule_sends. intros [delay exhausted]. apply retry_sends.
Qed.

(** ** Deliveries together *)

Context {S : Type} `{ClaimLaws S}.
Implicit Types (s : wsystem S).

Definition holds (k : string) (h : option string) : nat := if decide (h = Some k) then 1 else 0.

Lemma holds_None k : holds k None = 0.
Proof. done. Qed.

Lemma holds_Some k k' : holds k (Some k') = if decide (k' = k) then 1 else 0.
Proof. unfold holds. repeat case_decide; naive_solver. Qed.

(** Claims of one key are won a TTL apart, and the store remembers the last. *)
Definition spaced (ttl : Duration) (l : list (string * Time)) : Prop :=
  ∀ i j k ti tj, i < j → l !! i = Some (k, ti) → l !! j = Some (k, tj) → (ti + ttl ≤ tj)%Z.

Record winv (ttl : Duration) s : Prop := {
  wi_spaced : spaced ttl (won s);
  wi_store k t : (k, t) ∈ won s → ∃ x, expiry (store s) k = Some x ∧ (t + ttl ≤ x)%Z;
  wi_calls : ∃ held, map_Forall2 (λ _ h m, may_send ttl h m) held (deliveries s) ∧
    ∀ k, occurs k (map fst (sent s)) + msum (holds k) held ≤ occurs k (map fst (won s)) }.

Lemma claim_expiry_le s now k ttl k' x :
  (0 < ttl)%Z → expiry (store s) k' = Some x → ∃ x', expiry (Claim (store s) now k ttl).1 k' = Some x' ∧ (x ≤ x')%Z.
Proof.
  intros Httl Hx. rewrite Claim_expiry. case_decide as Hd; [|eauto with lia]. destruct Hd as [-> Hf].
  rewrite Hx in Hf. apply Z.leb_le in Hf. eexists. split; [done|lia].
Qed.

Lemma spaced_win ttl s now k :
  spaced ttl (won s) → (∀ t, (k, t) ∈ won s → ∃ x, expiry (store s) k = Some x ∧ (t + ttl ≤ x)%Z) →
  claim_free (expiry (store s) k) now = true → spaced ttl (won s ++ [(k, now)]).
Proof.
  intros Hs Hst Hf i j k' ti tj Hij Hi Hj.
  apply lookup_app_Some in Hj as [Hj|[Hlen Hj]].
  - rewrite lookup_app_l in Hi by (apply lookup_lt_Some in Hj; lia). by eapply Hs.
  - apply list_lookup_singleton_Some in Hj as [Hj0 [= <- <-]].
    rewrite lookup_app_l in Hi by lia. apply list_elem_of_lookup_2, Hst in Hi as (x & Hx & Hle).
    rewrite Hx in Hf. apply Z.leb_le in Hf. lia.
Qed.

Lemma wexec_winv {R} ttl a s (c : wcmd R) (held : gmap nat (option string)) h t (post : option string → R → Prop) :
  (0 < ttl)%Z → spaced ttl (won s) →
  (∀ k t, (k, t) ∈ won s → ∃ x, expiry (store s) k = Some x ∧ (t + ttl ≤ x)%Z) →
  held !! t = Some h →
  (∀ k, occurs k (map fst (sent s)) + msum (holds k) held ≤ occurs k (map fst (won s))) →
  cmd_send ttl c h post →
  let r := wexec R a s c in
  deliveries r.1 = deliveries s ∧ spaced ttl (won r.1) ∧
  (∀ k t, (k, t) ∈ won r.1 → ∃ x, expiry (store r.1) k = Some x ∧ (t + ttl ≤ x)%Z) ∧
  ∃ h', post h' r.2 ∧
    ∀ k, occurs k (map fst (sent r.1)) + msum (holds k) (<[t := h']> held) ≤ occurs k (map fst (won r.1)).
Proof.
  intros Httl Hsp Hst Ht Hc Hcmd.
  assert (∀ h' k, msum (holds k) (<[t := h']> held) + holds k h = holds k h' + msum (holds k) held) as Hset
    by (intros; by apply msum_set).
  assert (∀ k, occurs k (map fst (sent s)) + msum (holds k) (<[t := h]> held) ≤ occurs k (map fst (won s))) as Hsame
    by (intros k; rewrite insert_id by done; apply Hc).
  destruct c as [key ttl'|id| | |n|n|key r|evt|sid reason]; simpl in *;
    try (split; [done|]; split; [done|]; split; [done|]; exists h; auto; fail).
  - destruct Hcmd as (-> & -> & Hpost). destruct (a_net a); simpl.
    2: { split; [done|]; split; [done|]; split; [done|]. exists None. split; [apply (Hpost (Err _))|done]. }
    rewrite (Claim_won (store s) (a_now a) key ttl). destruct (claim_free _ _) eqn:Ef.
    + split; [done|]. split; [apply spaced_win; auto|]. split.
      * intros k u [Hu|[= -> ->]%list_elem_of_singleton]%elem_of_app.
        -- destruct (Hst k u Hu) as (x & Hx & Hle).
           destruct (claim_expiry_le s (a_now a) key ttl k x Httl Hx) as (x' & Hx' & ?). exists x'. split; [done|lia].
        -- rewrite Claim_expiry, decide_True by done. eauto with lia.
      * exists (if a_lost a then None else Some key).
        split; [destruct (a_lost a); [apply (Hpost (Err _))|apply (Hpost (Ok true))]|].
        intros k. rewrite map_app, occurs_app. simpl. rewrite occurs_cons, occurs_nil. specialize (Hc k).
        specialize (Hset (if a_lost a then None else Some key) k). rewrite holds_None in Hset.
        destruct (a_lost a); rewrite ?holds_None, ?holds_Some in Hset; case_decide; lia.
    + split; [done|]. split; [done|]. split.
      * intros k u Hu. destruct (Hst k u Hu) as (x & Hx & Hle).
        destruct (claim_expiry_le s (a_now a) key ttl k x Httl Hx) as (x' & Hx' & ?). exists x'. split; [done|lia].
      * exists None. split; [destruct (a_lost a); [apply (Hpost (Err _))|apply (Hpost (Ok false))]|done].
  - destruct Hcmd as [-> Hpost]. split; [done|]. split; [done|]. split; [done|]. exists None. split; [apply Hpost|].
    intros k. rewrite map_app, occurs_app. simpl. rewrite occurs_cons, occurs_nil. specialize (Hc k).
    specialize (Hset None k). rewrite holds_None, holds_Some in Hset. case_decide; lia.
Qed.

Lemma wstep_winv d s ev s' :
  (0 < idempotencyTTL d)%Z → idempotency d = true →
  match ev with
  | EvDeliver _ call => ∃ p sub, call = Deliver hmac url_Parse time_Parse quoted parse_error d p sub
  | _ => True
  end →
  wstep s ev = Some s' → winv (idempotencyTTL d) s → winv (idempotencyTTL d) s'.
Proof.
  intros Httl Hd Hev Hs [Hsp Hst (held & Hf & Hc)]. destruct ev as [t call|t a|t]; simpl in Hs.
  - destruct (deliveries s !! t) eqn:E; simplify_eq. destruct Hev as (p & sub & ->). split; [done..|].
    exists (<[t := None]> held). split.
    + apply map_Forall2_insert_2; [by apply Deliver_sends|done].
    + intros k. simpl. specialize (Hf t). rewrite E in Hf. rewrite msum_new by (by inversion Hf).
      rewrite holds_None. apply Hc.
  - destruct (deliveries s !! t) as [[|R c k]|] eqn:E; simplify_eq/=.
    pose proof (Hf t) as Hft. rewrite E in Hft. inversion Hft as [h m Hm Hh|]; subst. symmetry in Hh. simpl in Hm.
    pose proof (wexec_winv (idempotencyTTL d) a s c held h t _ Httl Hsp Hst Hh Hc Hm) as Hw. cbv zeta in Hw.
    set (r := wexec R a s c) in *. destruct Hw as (Hdel & Hsp' & Hst' & h' & Hk & Hc').
    split; [done..|]. exists (<[t := h']> held). split; [|done]. simpl. rewrite Hdel. by apply map_Forall2_insert_2.
  - destruct (deliveries s !! t) as [m|] eqn:E; simplify_eq. split; [done..|]. exists (delete t held).
    split; [by apply map_Forall2_delete|]. intros k. specialize (Hc k). simpl.
    pose proof (Hf t) as Hft. rewrite E in Hft. inversion Hft as [h m' Hm Hh|]; subst. symmetry in Hh.
    rewrite (msum_delete (holds k) held t h Hh) in Hc. lia.
Qed.

Definition all_deliver (d : Deliverer) (evs : list wevent) : Prop :=
  Forall (λ ev, match ev with
    | EvDeliver _ call => ∃ p sub, call = Deliver hmac url_Parse time_Parse quoted parse_error d p sub
    | _ => True end) evs.

Lemma wrun_winv d evs s s' :
  (0 < idempotencyTTL d)%Z → idempotency d = true → all_deliver d evs →
  wrun s evs = Some s' → winv (idempotencyTTL d) s → winv (idempotencyTTL d) s'.
Proof.
  intros Httl Hd. revert s. induction evs as [|ev evs IH]; intros s Hall; simpl; [by intros [= ->]|].
  apply Forall_cons in Hall as [Hev Hall]. intros (s1 & Hs1 & Hrun)%bind_Some Hs. eauto using wstep_winv.
Qed.

Lemma empty_winv ttl (s0 : S) : winv ttl (mkWSystem s0 ∅ [] []).
Proof.
  split; [done|by intros ? ? ?%elem_of_nil|]. exists ∅. split; [apply map_Forall2_empty|].
  intros k. rewrite msum_empty. done.
Qed.

Lemma occurs_one (l : list (string * Time)) ttl k t0 :
  spaced ttl l → (∀ t, (k, t) ∈ l → t0 ≤ t < t0 + ttl)%Z → occurs k (map fst l) ≤ 1.
Proof.
  intros Hs Hw. induction l as [|[k' t'] l IH]; [unfold occurs; simpl; lia|]. simpl. rewrite occurs_cons.
  case_decide as Hk.
  - subst. rewrite occurs_none; [lia|]. intros ([k2 t2] & -> & Hin)%list_elem_of_fmap.
    apply list_elem_of_lookup in Hin as Hj. destruct Hj as [j Hj].
    pose proof (Hs 0 (Datatypes.S j) k2 t' t2 ltac:(lia) eq_refl Hj).
    assert (t0 ≤ t' < t0 + ttl)%Z by (apply Hw; by left).
    assert (t0 ≤ t2 < t0 + ttl)%Z by (apply Hw; by right). lia.
  - apply IH; [|intros t Ht; apply Hw; by right]. intros i j k0 ti tj Hij Hi Hj.
    apply (Hs (Datatypes.S i) (Datatypes.S j) k0); [lia|done..].
Qed.

(** However many deliveries of one event to one subscription run, are retried and
    interleave, and whatever the claim store answers or loses, each request was paid
    for by a claim that was won, claims of the pair are a TTL apart, and so within one
    TTL the subscriber receives at most one request. *)
Theorem deliver_at_most_once d evs (s0 : S) s k :
  (0 < idempotencyTTL d)%Z → idempotency d = true → all_deliver d evs →
  wrun (mkWSystem s0 ∅ [] []) evs = Some s →
  occurs k (map fst (sent s)) ≤ occurs k (map fst (won s)) ∧ spaced (idempotencyTTL d) (won s) ∧
  ∀ t0, (∀ t, (k, t) ∈ won s → t0 ≤ t < t0 + idempotencyTTL d)%Z → occurs k (map fst (sent s)) ≤ 1.
Proof.
  intros Httl Hd Hall Hrun. destruct (wrun_winv d evs _ s Httl Hd Hall Hrun (empty_winv _ s0)) as [Hsp _ (held & _ & Hc)].
  specialize (Hc k). split; [lia|]. split; [done|]. intros t0 Hw.
  pose proof (occurs_one (won s) _ k t0 Hsp Hw). lia.
Qed.
End at_most_once.

(** ** A run *)

Definition run_hmac (k m : string) : string := "m".
Definition run_url (u : string) : option (string * string) := Some ("https", "hooks.example").
Definition run_date (layout value : string) : option Time := None.
Definition run_deliverer : Deliverer := New [WithSecretResolver true; WithIdempotency true 0; WithAuditRecorder true].
Definition run_call (attempt : Z) : prog wcmd Result :=
  Deliver run_hmac run_url run_date id (λ _, mkError "parse" []) run_deliverer
    (mkPayload "s" "e" "post.published" "{}" [] attempt) (mkSubscription "s" "https://hooks.example" "k").

(** The subscriber answers with [code]; everything else works. *)
Definition answering (now : Time) (code : Z) : answers :=
  mkAnswers now true false (mkError "" []) (Ok "key") "id" 7 (0%Z, false) (Ok (mkResponse code "")) None None.

Definition run_events (first second_ : Z) : list wevent :=
  EvDeliver 0 (run_call 1) :: replicate 9 (EvAnswer 0 (answering 0 first)) ++
  EvDeliver 1 (run_call 2) :: [EvAnswer 1 (answering (30 * second)%Z second_)].

Definition result_of {S} (t : nat) (s : wsystem S) : option (Status * Z) :=
  match deliveries s !! t with Some (Ret r) => Some (res_Status r, HTTPStatus r) | _ => None end.

Definition run_summary (s : wsystem (gmap string Time)) : list string * option (Status * Z) * option (Status * Z) :=
  (map fst (sent s), result_of 0 s, result_of 1 s).

(** The first attempt fails with a 503 and asks for a retry. The retry finds the claim
    of the first attempt and reports success without a request: the event is lost. *)
Example retry_loses_event :
  run_summary <$> wrun (mkWSystem ∅ ∅ [] []) (run_events 503 200) =
    Some (["webhook.deliver:s:e"], Some (StatusRetry, 503%Z), Some (StatusSuccess, 0%Z)).
Proof. vm_compute. reflexivity. Qed.

Lemma run_won s : wrun (mkWSystem (∅ : gmap string Time) ∅ [] []) (run_events 503 200) = Some s →
  won s = [("webhook.deliver:s:e", 0%Z)].
Proof.
  intros H. assert (won <$> wrun (mkWSystem (∅ : gmap string Time) ∅ [] []) (run_events 503 200) =
    Some [("webhook.deliver:s:e", 0%Z)]) as H' by (vm_compute; reflexivity).
  rewrite H in H'. simpl in H'. congruence.
Qed.

Lemma run_delivers :
  all_deliver run_hmac run_url run_date id (λ _, mkError "parse" []) run_deliverer (run_events 503 200).
Proof. repeat constructor; do 2 eexists; reflexivity. Qed.

Lemma run_exists : is_Some (wrun (mkWSystem (∅ : gmap string Time) ∅ [] []) (run_events 503 200)).
Proof. eexists. vm_compute. reflexivity. Qed.

Lemma deliver_at_most_once_witness : ∃ s,
  wrun (mkWSystem (∅ : gmap string Time) ∅ [] []) (run_events 503 200) = Some s ∧
  occurs "webhook.deliver:s:e" (map fst (sent s)) ≤ 1.
Proof.
  destruct run_exists as [s Hs]. exists s. split; [exact Hs|].
  apply (deliver_at_most_once run_hmac run_url run_date id (λ _, mkError "parse" []) run_deliverer
           (run_events 503 200) (∅ : gmap string Time) s "webhook.deliver:s:e") with (t0 := 0%Z);
    [reflexivity|reflexivity|apply run_delivers|exact Hs|].
  intros t Ht. rewrite (run_won s Hs) in Ht. apply list_elem_of_singleton in Ht. injection Ht as ->.
  split; [reflexivity|]. vm_compute. reflexivity.
Defined.

(** A timestamp more than 2^63 nanoseconds ahead passes every skew window, and bytes
    after the last whole pair of hexadecimal digits are ignored. *)
Example far_future_accepted :
  Verify run_hmac "key" "{}" (Sign run_hmac "key" (2 ^ 64) "{}" +:+ "zz") 0 (5 * minute) = None.
Proof. vm_compute. reflexivity. Qed.

Example huge_retry_after : parseRetryAfter run_date "18446744074" 0 = 290448384%Z.
Proof. vm_compute. reflexivity. Qed.

(** The zero value of [Schedule] is exhausted at once. *)
Example zero_schedule : next_delay (ListSchedule (mkSchedule [] false)) 1 = Ret (0%Z, true).
Proof. reflexivity. Qed.


Lemma Verify_Sign_witness :
  (0 ≤ 5 * second < 2 ^ 62)%Z ∧ (5 * minute < int64_max)%Z ∧
  Verify run_hmac "key" "{}" (Sign run_hmac "key" (5 * second) "{}") (10 * second) (5 * minute) = None.
Proof.
  split; [split; [intros H; discriminate H|reflexivity]|]. split; [reflexivity|].
  apply (Verify_Sign run_hmac "key" (5 * second)%Z "{}" (10 * second)%Z (5 * minute)%Z).
  - split; [intros H; discriminate H|reflexivity].
  - intros k m H. discriminate H.
  - reflexivity.
  - reflexivity.
  - right. split; intros H; vm_compute in H; discriminate H.
Defined.
