(* ===== verification/Cron.v ===== *)
(** * The leader-elected cron scheduler (packages/go/jobs/cron: cron.go, lease.go,
    scheduler.go, seed.go)

    Every replica of the worker runs a scheduler; the one that holds a Redis lease
    fires the schedules. A replica acquires the lease, renews it, and as leader
    checks at every tick which schedules are due. The steps of any number of
    replicas interleave; a Redis command is carried out, carried out with its reply
    lost, or refused. The parser of cron expressions and the [Next] of a parsed
    schedule are parameters, and so is what the queue answers. *)
From S2P Require Import Prelude GoStrings Redis.

(** ** The registry (cron.go) *)

Inductive cron_error :=
| ErrEmptyName | ErrEmptySchedule | ErrEmptyTaskName | ErrInvalidSchedule (expr why : string) | ErrAlreadyRegistered (name : string).

Record CronSpec := mkCronSpec { Name : string; Schedule : string; TaskName : string; Payload : option string }.

Section registry.
Context {Sched : Type} (parse : string → result string Sched) (Next : Sched → Time → Time).

Record Registry := mkRegistry { specs : gmap string CronSpec; schedules : gmap string Sched }.
Definition NewRegistry : Registry := mkRegistry ∅ ∅.

Definition Register (r : Registry) (spec : CronSpec) : Registry * option cron_error :=
  if decide (Name spec = "") then (r, Some ErrEmptyName)
  else if decide (Schedule spec = "") then (r, Some ErrEmptySchedule)
  else if decide (TaskName spec = "") then (r, Some ErrEmptyTaskName)
  else match parse (Schedule spec) with
       | Err why => (r, Some (ErrInvalidSchedule (Schedule spec) why))
       | Ok parsed =>
           match specs r !! Name spec with
           | Some _ => (r, Some (ErrAlreadyRegistered (Name spec)))
           | None => (mkRegistry (<[Name spec := spec]> (specs r)) (<[Name spec := parsed]> (schedules r)), None)
           end
       end.

Definition Get (r : Registry) (name : string) : option CronSpec := specs r !! name.
Definition Has (r : Registry) (name : string) : bool := bool_decide (is_Some (Get r name)).

(** [names] is the map in the order it is visited. *)
Definition Names (names : list string) : list string := sort_by String.ltb names.

Record schedule := mkScheduleRow { spec : CronSpec; cron : Sched; next : Time }.

(** The rows of a snapshot, [names] being the order in which the map is visited. *)
Definition snapshot (r : Registry) (names : list string) (now : Time) : list schedule :=
  omap (λ name, sp ← specs r !! name; sch ← schedules r !! name; Some (mkScheduleRow sp sch (Next sch now))) names.

(** ** The lease (lease.go) *)

Inductive lease_error := ErrEmptyKey | ErrEmptyOwner | ErrInvalidTTL.
Record Lease := mkLease { key : string; owner : string; ttl : Duration }.

Definition NewLease (key owner : string) (ttl : Duration) : result lease_error Lease :=
  if decide (key = "") then Err ErrEmptyKey
  else if decide (owner = "") then Err ErrEmptyOwner
  else if (ttl <=? 0)%Z then Err ErrInvalidTTL
  else Ok (mkLease key owner ttl).

Definition pxMs (l : Lease) : Z := let ms := Z.quot (ttl l) 1000000 in if (ms <? 1)%Z then 1%Z else ms.

Context {R : Type} `{!Redis R, !RedisMs R}.

(** One command: its effect and its answer, or a transport error. *)
Definition send {A} (net : outcome) (f : R → R * A) (r : R) : R * option A :=
  match net with
  | Served => let x := f r in (x.1, Some x.2)
  | ReplyLost => ((f r).1, None)
  | Refused => (r, None)
  end.

Definition renewScript (at_ : Z) (l : Lease) (r : R) : R * Z :=
  match GET r at_ (key l) with
  | None => (r, 0%Z)
  | Some cur => if decide (cur ≠ owner l) then (r, 0%Z) else (PEXPIRE r at_ (key l) (pxMs l), 1%Z)
  end.

Definition releaseScript (at_ : Z) (l : Lease) (r : R) : R * Z :=
  match GET r at_ (key l) with
  | None => (r, 0%Z)
  | Some cur => if decide (cur ≠ owner l) then (r, 0%Z) else (DEL r at_ (key l), 1%Z)
  end.

Definition Acquire (net : outcome) (at_ : Z) (l : Lease) (r : R) : R * option bool :=
  send net (λ r, SETNXPX r at_ (key l) (owner l) (pxMs l)) r.

(** Held, [ErrNotLeader], or a transport error. *)
Inductive held := Held | ErrNotLeader | Transport.
Definition held_of (x : option Z) : held :=
  match x with None => Transport | Some n => if (n =? 1)%Z then Held else ErrNotLeader end.

Definition Renew (net : outcome) (at_ : Z) (l : Lease) (r : R) : R * held :=
  let x := send net (renewScript at_ l) r in (x.1, held_of x.2).
Definition Release (net : outcome) (at_ : Z) (l : Lease) (r : R) : R * held :=
  let x := send net (releaseScript at_ l) r in (x.1, held_of x.2).
Definition CurrentOwner (at_ : Z) (l : Lease) (r : R) : option string := GET r at_ (key l).

(** ** The scheduler (scheduler.go) *)

Definition DefaultLeaseKey : string := "gonext:cron:leader".
Definition DefaultLeaseTTL : Duration := (15 * second)%Z.

Record Config := mkConfig {
  has_Redis : bool; has_AsynqClient : bool; has_TaskRegistry : bool; has_CronRegistry : bool;
  LeaseKey : string; LeaseTTL : Duration; Owner : string }.

Definition validate (c : Config) : option string :=
  if negb (has_Redis c) then Some "cron: Config.Redis is required"
  else if negb (has_AsynqClient c) then Some "cron: Config.AsynqClient is required"
  else if negb (has_TaskRegistry c) then Some "cron: Config.TaskRegistry is required"
  else if negb (has_CronRegistry c) then Some "cron: Config.CronRegistry is required"
  else if decide (Owner c = "") then Some "cron: Config.Owner is required" else None.

(** Where the loop of [Run] is: before an [Acquire], in [runAsLeader] with its map of
    due times, or over. *)
Inductive phase := Idle | Leader (next : gmap string Time) | Stopped.

Record Scheduler := mkScheduler {
  lease : Lease; ph : phase; lastFiredAt : gmap string Time; fireCounters : gmap string Z }.

Definition isLeader (s : Scheduler) : bool := match ph s with Leader _ => true | _ => false end.

Definition NewScheduler (c : Config) : result string Scheduler :=
  match validate c with
  | Some e => Err e
  | None =>
      let k := if decide (LeaseKey c = "") then DefaultLeaseKey else LeaseKey c in
      let t := if (LeaseTTL c <=? 0)%Z then DefaultLeaseTTL else LeaseTTL c in
      match NewLease k (Owner c) t with
      | Err _ => Err "cron: lease"
      | Ok l => Ok (mkScheduler l Idle ∅ ∅)
      end
  end.

Definition set_phase (p : phase) (s : Scheduler) : Scheduler := mkScheduler (lease s) p (lastFiredAt s) (fireCounters s).

(** What the task registry knows and the queue answers for one schedule. *)
Definition fire (known : string → bool) (enqueued : string → bool) (sp : CronSpec) (now : Time) (s : Scheduler)
    : Scheduler * bool :=
  if negb (known (TaskName sp)) then (s, false)
  else if negb (enqueued (Name sp)) then (s, false)
  else (mkScheduler (lease s) (ph s) (<[Name sp := now]> (lastFiredAt s))
          (<[Name sp := ((default 0 (fireCounters s !! Name sp) + 1) mod 2 ^ 64)%Z]> (fireCounters s)), true).

(** One row of a tick: what is fired, and the map of due times afterwards. *)
Definition tick_row (known enqueued : string → bool) (now : Time)
    (acc : Scheduler * gmap string Time * list (string * Time)) (row : schedule)
    : Scheduler * gmap string Time * list (string * Time) :=
  let '(s, due, fired) := acc in
  let n := Name (spec row) in
  match due !! n with
  | None => (s, <[n := next row]> due, fired)
  | Some d =>
      if time_before now d then acc
      else let f := fire known enqueued (spec row) now s in
           (f.1, <[n := Next (cron row) now]> due, if f.2 then fired ++ [(n, now)] else fired)
  end.

Definition tick (known enqueued : string → bool) (reg : Registry) (names : list string) (now : Time)
    (s : Scheduler) (due : gmap string Time) : Scheduler * list (string * Time) :=
  let '(s, due, fired) := foldl (tick_row known enqueued now) (s, due, []) (snapshot reg names now) in
  (set_phase (Leader due) s, fired).

Definition first_due (reg : Registry) (names : list string) (now : Time) : gmap string Time :=
  foldl (λ due row, <[Name (spec row) := next row]> due) ∅ (snapshot reg names now).

(** ** Replicas together *)

(** [at_] is the time, in milliseconds, at which Redis carries a command out; [now]
    the clock of the replica. *)
Inductive cevent :=
| EvSpawn (i : nat) (c : Config)
| EvRegister (sp : CronSpec)
| EvAcquire (i : nat) (net : outcome) (at_ : Z) (now : Time) (names : list string)
| EvRenew (i : nat) (net : outcome) (at_ : Z)
| EvTick (i : nat) (at_ : Z) (now : Time) (names : list string) (known enqueued : string → bool)
| EvStop (i : nat) (net : outcome) (at_ : Z).

(** [fires] logs the replica, its term of office, the schedule and the time of every
    task that was enqueued; [until] is, of each replica, until when its last
    successful command gave it the lease; [term] counts its terms. *)
Record csystem := mkCSystem {
  redis : R; registry : Registry; replicas : gmap nat Scheduler; clock : Z; until : gmap nat Z; terms : gmap nat nat;
  fires : list (nat * nat * string * Time) }.

Definition put (i : nat) (s : Scheduler) (y : csystem) : csystem :=
  mkCSystem (redis y) (registry y) (<[i := s]> (replicas y)) (clock y) (until y) (terms y) (fires y).
Definition on_redis (r : R) (at_ : Z) (y : csystem) : csystem :=
  mkCSystem r (registry y) (replicas y) at_ (until y) (terms y) (fires y).
Definition term_of (y : csystem) (i : nat) : nat := default 0 (terms y !! i).

Definition take_lease (i : nat) (s : Scheduler) (at_ : Z) (y : csystem) : csystem :=
  mkCSystem (redis y) (registry y) (<[i := s]> (replicas y)) (clock y) (<[i := (at_ + pxMs (lease s))%Z]> (until y))
    (<[i := Datatypes.S (term_of y i)]> (terms y)) (fires y).
Definition keep_lease (i : nat) (s : Scheduler) (at_ : Z) (y : csystem) : csystem :=
  mkCSystem (redis y) (registry y) (replicas y) (clock y) (<[i := (at_ + pxMs (lease s))%Z]> (until y)) (terms y) (fires y).
Definition log_fires (i : nat) (l : list (string * Time)) (y : csystem) : csystem :=
  mkCSystem (redis y) (registry y) (replicas y) (clock y) (until y) (terms y)
    (fires y ++ map (λ nt, (i, term_of y i, nt.1, nt.2)) l).

Definition cstep (y : csystem) (ev : cevent) : option csystem :=
  match ev with
  | EvSpawn i c =>
      match replicas y !! i, NewScheduler c with None, Ok s => Some (put i s y) | _, _ => None end
  | EvRegister sp =>
      Some (mkCSystem (redis y) (Register (registry y) sp).1 (replicas y) (clock y) (until y) (terms y) (fires y))
  | EvAcquire i net at_ now names =>
      s ← replicas y !! i;
      match ph s with
      | Idle =>
          if (at_ <? clock y)%Z then None
          else
            let x := Acquire net at_ (lease s) (redis y) in
            let y' := on_redis x.1 at_ y in
            match x.2 with
            | Some true => Some (take_lease i (set_phase (Leader (first_due (registry y) names now)) s) at_ y')
            | _ => Some y'
            end
      | _ => None
      end
  | EvRenew i net at_ =>
      s ← replicas y !! i;
      match ph s with
      | Leader _ =>
          if (at_ <? clock y)%Z then None
          else
            let x := Renew net at_ (lease s) (redis y) in
            let y' := on_redis x.1 at_ y in
            match x.2 with
            | Held => Some (keep_lease i s at_ y')
            | ErrNotLeader => Some (put i (set_phase Idle s) y')
            | Transport => Some y'
            end
      | _ => None
      end
  | EvTick i at_ now names known enqueued =>
      s ← replicas y !! i;
      match ph s with
      | Leader due =>
          if (at_ <? clock y)%Z then None
          else
            let x := tick known enqueued (registry y) names now s due in
            Some (log_fires i x.2 (put i x.1 (on_redis (redis y) at_ y)))
      | _ => None
      end
  | EvStop i net at_ =>
      s ← replicas y !! i;
      match ph s with
      | Stopped => None
      | _ =>
          if (at_ <? clock y)%Z then None
          else
            let x := Release net at_ (lease s) (redis y) in
            Some (put i (set_phase Stopped s) (on_redis x.1 at_ y))
      end
  end.

Fixpoint crun (y : csystem) (evs : list cevent) : option csystem :=
  match evs with
  | [] => Some y
  | ev :: evs => y ← cstep y ev; crun y evs
  end.

Definition empty_csystem (r : R) (at_ : Z) : csystem := mkCSystem r NewRegistry ∅ at_ ∅ ∅ [].

(** ** Seeding (seed.go) *)

Definition TaskNameRevisionsPurge : string := "revisions.purge".
Definition ScheduleRevisionsPurgeDaily : string := "revisions.purge.daily".
Definition defaults : list CronSpec := [mkCronSpec ScheduleRevisionsPurgeDaily "0 3 * * *" TaskNameRevisionsPurge None].

Fixpoint seed (reg : Registry) (l : list CronSpec) : Registry * option cron_error :=
  match l with
  | [] => (reg, None)
  | sp :: l => let x := Register reg sp in match x.2 with Some e => (x.1, Some e) | None => seed x.1 l end
  end.

Definition SeedDefaults (reg : Registry) : Registry * option cron_error := seed reg defaults.
End registry.
Arguments Registry : clear implicits.
Arguments schedule : clear implicits.
Arguments csystem : clear implicits.
