(* ===== verification/CronProps.v ===== *)
(** * What the cron scheduler guarantees

    While Redis has not outlived the lease a replica last obtained, no other replica
    leads under that key; and within one term of office a schedule is fired at most
    once per due time. *)
From S2P Require Import Prelude GoStrings Redis Cron.

(** ** The lease *)

Section exclusion.
Context {Sched R : Type} (parse : string → result string Sched) (Next : Sched → Time → Time).
Context `{RedisMsLaws R}.
Implicit Types (y : csystem Sched R) (r : R).
Abbreviation cstep := (cstep (R:=R) parse Next).
Abbreviation crun := (crun (R:=R) parse Next).

Lemma pxMs_pos l : (0 < pxMs l)%Z.
Proof. unfold pxMs. cbv zeta. case_match eqn:E; [lia|]. apply Z.ltb_ge in E. lia. Qed.

(** The key of [l] holds its owner until [u] at least. *)
Definition holds_until (r : R) (l : Lease) (u : Z) : Prop :=
  ∃ w, view r (key l) = Some (RStr (owner l), Some w) ∧ (u ≤ w)%Z.

Lemma holds_live r l u at_ : holds_until r l u → (at_ ≤ u)%Z → ∃ w, live_at at_ (view r (key l)) = Some (RStr (owner l), Some w).
Proof.
  intros (w & -> & Hw) Hu. exists w. simpl. by rewrite (proj2 (Z.ltb_ge _ _)) by lia.
Qed.

Lemma holds_GET r l u at_ : holds_until r l u → (at_ ≤ u)%Z → GET r at_ (key l) = Some (owner l).
Proof. intros Hh Hu. destruct (holds_live r l u at_ Hh Hu) as [w Hw]. by rewrite view_GET, Hw. Qed.

Lemma holds_send {A} net (f : R → R * A) r l u :
  holds_until r l u → holds_until (f r).1 l u → holds_until (send net f r).1 l u.
Proof. by destruct net. Qed.

(** A command of another lease leaves a lease alone that is not over. *)
Lemma other_Acquire net at_ l l' r u :
  holds_until r l u → (at_ ≤ u)%Z → holds_until (Acquire net at_ l' r).1 l u.
Proof.
  intros Hh Hu. apply holds_send; [done|]. destruct Hh as (w & Hw & Hle). exists w. split; [|done].
  rewrite view_SETNXPX by apply pxMs_pos. rewrite decide_False; [done|]. intros [Hk Hn].
  rewrite Hk, Hw in Hn. simpl in Hn. rewrite (proj2 (Z.ltb_ge _ _)) in Hn by lia. done.
Qed.

Lemma other_script at_ l l' r u (f : R → R) :
  holds_until r l u → (at_ ≤ u)%Z → owner l' ≠ owner l →
  (∀ r, key l ≠ key l' → view (f r) (key l) = view r (key l)) →
  let x := match GET r at_ (key l') with
           | None => (r, 0%Z)
           | Some cur => if decide (cur ≠ owner l') then (r, 0%Z) else (f r, 1%Z)
           end in
  holds_until x.1 l u.
Proof.
  intros Hh Hu Ho Hf. destruct (GET r at_ (key l')) as [cur|] eqn:E; [|done].
  case_decide as Hc; [done|]. subst cur.
  assert (key l ≠ key l') as Hk.
  { intros Hk. rewrite <-Hk in E. rewrite (holds_GET r l u) in E by done. congruence. }
  destruct Hh as (w & Hw & Hle). exists w. simpl. by rewrite Hf.
Qed.

Lemma other_Renew net at_ l l' r u :
  holds_until r l u → (at_ ≤ u)%Z → owner l' ≠ owner l → holds_until (Renew net at_ l' r).1 l u.
Proof.
  intros Hh Hu Ho. apply holds_send; [done|]. apply (other_script at_ l l' r u (λ r, PEXPIRE r at_ (key l') (pxMs l'))); try done.
  intros r' Hk. rewrite view_PEXPIRE by apply pxMs_pos. by rewrite decide_False.
Qed.

Lemma other_Release net at_ l l' r u :
  holds_until r l u → (at_ ≤ u)%Z → owner l' ≠ owner l → holds_until (Release net at_ l' r).1 l u.
Proof.
  intros Hh Hu Ho. apply holds_send; [done|]. apply (other_script at_ l l' r u (λ r, DEL r at_ (key l'))); try done.
  intros r' Hk. rewrite view_DEL. by rewrite decide_False.
Qed.

(** The commands of the lease itself. *)
Lemma Acquire_won net at_ l r :
  (Acquire net at_ l r).2 = Some true → holds_until (Acquire net at_ l r).1 l (at_ + pxMs l).
Proof.
  unfold Acquire, send. destruct net; simpl; [|done..]. intros [= Hw]. rewrite SETNXPX_set in Hw.
  apply bool_decide_eq_true in Hw. exists (at_ + pxMs l)%Z. split; [|done].
  rewrite view_SETNXPX by apply pxMs_pos. by rewrite decide_True.
Qed.

Lemma renewScript_holds at_ l r :
  (renewScript at_ l r).2 = 1%Z → holds_until (renewScript at_ l r).1 l (at_ + pxMs l).
Proof.
  unfold renewScript. destruct (GET r at_ (key l)) as [cur|] eqn:E; [|done]. case_decide as Hc; [done|].
  subst cur. intros _. simpl. exists (at_ + pxMs l)%Z. split; [|done].
  rewrite view_PEXPIRE by apply pxMs_pos. rewrite decide_True by done. rewrite view_GET in E.
  destruct (live_at at_ (view r (key l))) as [[[v|ms] w]|]; naive_solver.
Qed.

Lemma own_Renew net at_ l r u :
  holds_until r l u → (at_ ≤ u ≤ at_ + pxMs l)%Z → holds_until (Renew net at_ l r).1 l u.
Proof.
  intros Hh Hu. apply holds_send; [done|].
  destruct (renewScript_holds at_ l r) as (w & Hw & Hle); [|exists w; split; [done|lia]].
  unfold renewScript. rewrite (holds_GET r l u) by (done || lia). by rewrite decide_False by tauto.
Qed.

Lemma Renew_held net at_ l r : (Renew net at_ l r).2 = Held → holds_until (Renew net at_ l r).1 l (at_ + pxMs l).
Proof.
  unfold Renew, send. destruct net; simpl; [|done..]. case_match eqn:E; [|done]. intros _.
  apply renewScript_holds. by apply Z.eqb_eq.
Qed.

(** ** Replicas *)

Context (evs0 : list cevent).
Definition owners_differ : Prop := ∀ i c j c',
  EvSpawn i c ∈ evs0 → EvSpawn j c' ∈ evs0 → Owner c = Owner c' → i = j.

Definition spawned y : Prop := ∀ i s, replicas y !! i = Some s → ∃ c, EvSpawn i c ∈ evs0 ∧ Owner c = owner (lease s).

Definition leads y : Prop := ∀ i s, replicas y !! i = Some s → isLeader s = true →
  ∃ u, until y !! i = Some u ∧ (u ≤ clock y + pxMs (lease s))%Z ∧
    ((clock y ≤ u)%Z → holds_until (redis y) (lease s) u).

Lemma NewScheduler_owner c s : NewScheduler c = Ok s → owner (lease s) = Owner c ∧ ph s = Idle.
Proof.
  unfold NewScheduler, NewLease. destruct (validate c); [done|]. cbv zeta.
  repeat case_match; intros; simplify_eq/=; done.
Qed.

(** A command of replica [i] at [at_], which leaves it with [s'] and the store with
    [r]. *)
Lemma leads_command y i s s' at_ r (un : gmap nat Z) :
  leads y → replicas y !! i = Some s → lease s' = lease s → (clock y ≤ at_)%Z →
  (∀ j, i ≠ j → un !! j = until y !! j) →
  (∀ j sj u, i ≠ j → replicas y !! j = Some sj → holds_until (redis y) (lease sj) u → (at_ ≤ u)%Z →
     holds_until r (lease sj) u) →
  (isLeader s' = true → ∃ u, un !! i = Some u ∧ (u ≤ at_ + pxMs (lease s))%Z ∧ ((at_ ≤ u)%Z → holds_until r (lease s) u)) →
  ∀ reg tm fs, leads (mkCSystem r reg (<[i := s']> (replicas y)) at_ un tm fs).
Proof.
  intros Hl Hi Hls Hat Hun Hother Hown reg tm fs j sj Hj Hlead. simpl in *.
  apply lookup_insert_Some in Hj as [[<- <-]|[Hne Hj]]; [rewrite Hls; auto|].
  destruct (Hl j sj Hj Hlead) as (u & Hu & Hle & Hh). exists u. rewrite Hun by done. split; [done|].
  split; [lia|]. intros Hatu. apply (Hother j); [done..| |done]. apply Hh. lia.
Qed.

Lemma tick_row_lease known enqueued now acc row :
  lease (tick_row (Sched:=Sched) Next known enqueued now acc row).1.1 = lease acc.1.1.
Proof.
  destruct acc as [[s due] fired]. unfold tick_row. destruct (due !! _); [|done].
  destruct (time_before now _); [done|]. unfold fire. repeat case_match; done.
Qed.

Lemma tick_lease known enqueued reg names now s due :
  lease (tick (Sched:=Sched) Next known enqueued reg names now s due).1 = lease s ∧
  ∃ due', ph (tick (Sched:=Sched) Next known enqueued reg names now s due).1 = Leader due'.
Proof.
  unfold tick. set (rows := snapshot Next reg names now).
  assert (∀ acc, lease (foldl (tick_row Next known enqueued now) acc rows).1.1 = lease acc.1.1) as Hl.
  { induction rows as [|row rows IH]; intros acc; [done|]. simpl. by rewrite IH, tick_row_lease. }
  specialize (Hl (s, due, [])). destruct (foldl _ _ _) as [[s' due'] fired]. simpl in *. split; [done|by exists due'].
Qed.

Lemma spawned_put y i s s' r reg c un tm fs :
  spawned y → replicas y !! i = Some s → lease s' = lease s →
  spawned (mkCSystem r reg (<[i := s']> (replicas y)) c un tm fs).
Proof.
  intros Hs Hi Hl j sj. simpl. intros [[<- <-]|[_ Hj]]%lookup_insert_Some; [rewrite Hl; by apply Hs|by apply Hs].
Qed.

Lemma spawned_owner y i j s t :
  owners_differ → spawned y → replicas y !! i = Some s → replicas y !! j = Some t → i ≠ j →
  owner (lease s) ≠ owner (lease t).
Proof.
  intros Hd Hs Hi Hj Hne Ho. destruct (Hs i s Hi) as (c & Hc & Hoc), (Hs j t Hj) as (c' & Hc' & Hoc').
  apply Hne, (Hd i c j c'); congruence.
Qed.

#[local] Arguments Acquire : simpl never.
#[local] Arguments Renew : simpl never.
#[local] Arguments Release : simpl never.
#[local] Arguments tick : simpl never.

Lemma cstep_inv y ev y' :
  owners_differ → ev ∈ evs0 → cstep y ev = Some y' → spawned y ∧ leads y → spawned y' ∧ leads y'.
Proof.
  intros Hd Hev Hstep [Hs Hl]. destruct ev as [i c|sp|i net at_ now names|i net at_|i at_ now names known enqueued|i net at_];
    simpl in Hstep.
  - destruct (replicas y !! i) eqn:Ei; [done|]. destruct (NewScheduler c) as [s|] eqn:Es; simplify_eq.
    apply NewScheduler_owner in Es as [Ho Hph]. split.
    + intros j sj. simpl. intros [[<- <-]|[_ Hj]]%lookup_insert_Some; [eauto|by apply Hs].
    + intros j sj. simpl. intros [[<- <-]|[_ Hj]]%lookup_insert_Some; [unfold isLeader; by rewrite Hph|by apply Hl].
  - simplify_eq. done.
  - destruct (replicas y !! i) as [s|] eqn:Ei; simplify_eq/=. destruct (ph s) eqn:Eph; simplify_eq.
    destruct (Z.ltb_spec at_ (clock y)); simplify_eq.
    assert (∀ j sj u, i ≠ j → replicas y !! j = Some sj → holds_until (redis y) (lease sj) u → (at_ ≤ u)%Z →
      holds_until (Acquire net at_ (lease s) (redis y)).1 (lease sj) u) as Hother by (intros; by apply other_Acquire).
    pose proof (Acquire_won net at_ (lease s) (redis y)) as Hwon.
    destruct (Acquire net at_ (lease s) (redis y)) as [r x]. simpl in *. destruct x as [[|]|]; simplify_eq.
    + split; [by apply (spawned_put y i s)|]. apply (leads_command y i s); try done.
      * intros j Hj. simpl. by rewrite lookup_insert_ne.
      * intros _. simpl. rewrite lookup_insert_eq. eauto with lia.
    + split; [exact Hs|]. unfold on_redis, keep_lease. simpl. rewrite <-(insert_id _ _ _ Ei) at 1. apply (leads_command y i s); try done.
      unfold isLeader. by rewrite Eph.
    + split; [exact Hs|]. unfold on_redis, keep_lease. simpl. rewrite <-(insert_id _ _ _ Ei) at 1. apply (leads_command y i s); try done.
      unfold isLeader. by rewrite Eph.
  - destruct (replicas y !! i) as [s|] eqn:Ei; simplify_eq/=. destruct (ph s) eqn:Eph; simplify_eq.
    destruct (Z.ltb_spec at_ (clock y)); simplify_eq.
    assert (∀ j sj u, i ≠ j → replicas y !! j = Some sj → holds_until (redis y) (lease sj) u → (at_ ≤ u)%Z →
      holds_until (Renew net at_ (lease s) (redis y)).1 (lease sj) u) as Hother
      by (intros; apply other_Renew; [done..|]; by eapply spawned_owner).
    assert (isLeader s = true) as Hlead by (unfold isLeader; by rewrite Eph).
    destruct (Hl i s Ei Hlead) as (u & Hu & Hle & Hh).
    assert ((at_ ≤ u)%Z → holds_until (Renew net at_ (lease s) (redis y)).1 (lease s) u) as Hown.
    { intros Hat. apply own_Renew; [|lia]. apply Hh. lia. }
    pose proof (Renew_held net at_ (lease s) (redis y)) as Hheld.
    unfold Renew in Hother, Hown, Hheld. cbv zeta in *.
    destruct (send net (renewScript at_ (lease s)) (redis y)) as [r x]. simpl in *. destruct (held_of x); simplify_eq.
    + split; [exact Hs|]. unfold on_redis, keep_lease. simpl. rewrite <-(insert_id _ _ _ Ei) at 1. apply (leads_command y i s); try done.
      * intros j Hj. simpl. by rewrite lookup_insert_ne.
      * intros _. rewrite lookup_insert_eq. eauto with lia.
    + split; [by apply (spawned_put y i s)|]. by apply (leads_command y i s).
    + split; [exact Hs|]. unfold on_redis, keep_lease. simpl. rewrite <-(insert_id _ _ _ Ei) at 1. apply (leads_command y i s); try done.
      intros _. exists u. split; [done|]. split; [lia|done].
  - destruct (replicas y !! i) as [s|] eqn:Ei; simplify_eq/=. destruct (ph s) as [|due|] eqn:Eph; simplify_eq.
    destruct (Z.ltb_spec at_ (clock y)); simplify_eq.
    destruct (tick_lease known enqueued (registry y) names now s due) as [Hls [due' Hph]].
    assert (isLeader s = true) as Hlead by (unfold isLeader; by rewrite Eph).
    destruct (Hl i s Ei Hlead) as (u & Hu & Hle & Hh).
    split; [by apply (spawned_put y i s)|]. apply (leads_command y i s); try done.
    intros _. exists u. split; [done|]. simpl. split; [lia|]. intros Hat. apply Hh. lia.
  - destruct (replicas y !! i) as [s|] eqn:Ei; simplify_eq/=.
    assert (∀ j sj u, i ≠ j → replicas y !! j = Some sj → holds_until (redis y) (lease sj) u → (at_ ≤ u)%Z →
      holds_until (Release net at_ (lease s) (redis y)).1 (lease sj) u) as Hother
      by (intros; apply other_Release; [done..|]; by eapply spawned_owner).
    assert ((clock y ≤ at_)%Z ∧ y' = put i (set_phase Stopped s) (on_redis (Release net at_ (lease s) (redis y)).1 at_ y))
      as [Hat ->] by (destruct (ph s), (Z.ltb_spec at_ (clock y)); simplify_eq; done).
    split; [by apply (spawned_put y i s)|]. apply (leads_command y i s); try done.
Qed.

Lemma crun_inv evs y y' :
  owners_differ → (∀ ev, ev ∈ evs → ev ∈ evs0) → crun y evs = Some y' → spawned y ∧ leads y → spawned y' ∧ leads y'.
Proof.
  intros Hd. revert y. induction evs as [|ev evs IH]; intros y Hsub; simpl; [by intros [= ->]|].
  intros (y1 & Hy1 & Hrun)%bind_Some Hinv. apply (IH y1); [|done|].
  - intros. apply Hsub. by right.
  - apply (cstep_inv y ev); [done| |done..]. apply Hsub. by left.
Qed.
End exclusion.

(** C14. Replicas with different owners lead one at a time: at any moment of any
    interleaving, with commands refused and replies lost, among the replicas that
    still count themselves leader under a key at most one is within the time its own
    last successful Acquire or Renew gave it. *)
Theorem one_leader {Sched R} (parse : string → result string Sched) Next `{RedisMsLaws R} (evs : list cevent) r0 t0
    (y : csystem Sched R) i j s t u v :
  owners_differ evs → crun parse Next (empty_csystem r0 t0) evs = Some y →
  replicas y !! i = Some s → replicas y !! j = Some t → isLeader s = true → isLeader t = true →
  key (lease s) = key (lease t) → until y !! i = Some u → until y !! j = Some v →
  (clock y ≤ u)%Z → (clock y ≤ v)%Z → i = j.
Proof.
  intros Hd Hrun Hi Hj Hli Hlj Hk Hu Hv Hcu Hcv.
  destruct (crun_inv parse Next evs evs _ y Hd (λ ev H, H) Hrun) as [Hs Hl]; [done|].
  destruct (decide (i = j)) as [|Hne]; [done|]. exfalso.
  apply (spawned_owner evs y i j s t Hd Hs Hi Hj Hne).
  destruct (Hl i s Hi Hli) as (u' & Hu' & _ & Hh), (Hl j t Hj Hlj) as (v' & Hv' & _ & Hh').
  destruct Hh as (w & Hw & _); [congruence|]. destruct Hh' as (w' & Hw' & _); [congruence|].
  rewrite Hk in Hw. congruence.
Qed.

(** ** Fires *)

Section fires.
Context {Sched R : Type} (parse : string → result string Sched) (Next : Sched → Time → Time).
Context `{Redis R, !RedisMs R}.
Implicit Types (y : csystem Sched R).

(** The schedule has a next time after every instant. *)
Definition recurs (sch : Sched) : Prop := ∀ t, (t < Next sch t)%Z.

(** The fires of one schedule in one term of one replica. *)
Definition mine (i k : nat) (n : string) (log : list (nat * nat * string * Time)) : list Time :=
  omap (λ f, if decide (f.1.1 = (i, k) ∧ f.1.2 = n) then Some f.2 else None) log.

(** One due time at least lies between a fire and the next. *)
Definition apart (sch : Sched) (l : list Time) : Prop :=
  ∀ m t t', l !! m = Some t → l !! Datatypes.S m = Some t' → (Next sch t ≤ t')%Z.

(** The due time of a schedule is past the times it was fired. *)
Definition due_after (sch : Sched) (n : string) (due : gmap string Time) (l : list Time) : Prop :=
  ∀ t, last l = Some t → ∃ d, due !! n = Some d ∧ (Next sch t ≤ d)%Z.

Lemma apart_snoc sch l t : apart sch l → (∀ t', last l = Some t' → Next sch t' ≤ t)%Z → apart sch (l ++ [t]).
Proof.
  intros Hl Ht m a b Ha Hb. apply lookup_app_Some in Hb as [Hb|[Hlen Hb]].
  - rewrite lookup_app_l in Ha by (apply lookup_lt_Some in Hb; lia). by apply (Hl m).
  - apply list_lookup_singleton_Some in Hb as [Hm <-].
    rewrite lookup_app_l in Ha by lia. apply Ht. rewrite last_lookup. rewrite <-Ha. f_equal.
    apply lookup_lt_Some in Ha. lia.
Qed.

Definition times_of (n : string) (fired : list (string * Time)) : list Time :=
  omap (λ nt, if decide (nt.1 = n) then Some nt.2 else None) fired.

Lemma mine_app i k n log log' : mine i k n (log ++ log') = mine i k n log ++ mine i k n log'.
Proof. apply omap_app. Qed.

Lemma mine_cons i k n f log :
  mine i k n (f :: log) = (if decide (f.1.1 = (i, k) ∧ f.1.2 = n) then [f.2] else []) ++ mine i k n log.
Proof. unfold mine. simpl. by case_decide. Qed.

Lemma times_of_cons n x fired : times_of n (x :: fired) = (if decide (x.1 = n) then [x.2] else []) ++ times_of n fired.
Proof. unfold times_of. simpl. by case_decide. Qed.

Lemma mine_fires i j k k' n log fired :
  mine i k n (log ++ map (λ nt : string * Time, (j, k', nt.1, nt.2)) fired) =
    mine i k n log ++ (if decide (j = i ∧ k' = k) then times_of n fired else []).
Proof.
  rewrite mine_app. f_equal. induction fired as [|[n' t] fired IH]; [by case_decide|].
  cbn [map]. rewrite mine_cons, IH, times_of_cons. simpl. repeat case_decide; naive_solver.
Qed.

(** One row of a tick. *)
Lemma tick_row_apart sch n l known enqueued now s due fired row :
  recurs sch → (Name (spec row) = n → cron row = sch) →
  apart sch (l ++ times_of n fired) → due_after sch n due (l ++ times_of n fired) →
  let x := tick_row Next known enqueued now (s, due, fired) row in
  apart sch (l ++ times_of n x.2) ∧ due_after sch n x.1.2 (l ++ times_of n x.2).
Proof.
  intros Hrec Hrow Hap Hdue x. unfold x, tick_row. clear x.
  destruct (due !! Name (spec row)) as [d|] eqn:Ed; simpl.
  2: { split; [done|]. intros t Ht. destruct (Hdue t Ht) as (d & Hd & Hle). exists d.
       rewrite lookup_insert_ne by congruence. done. }
  unfold time_before. destruct (Z.ltb_spec now d); [done|]. simpl.
  assert (apart sch (l ++ times_of n fired) ∧
    due_after sch n (<[Name (spec row) := Next (cron row) now]> due) (l ++ times_of n fired)) as Hskip.
  { split; [done|]. intros t Ht. destruct (Hdue t Ht) as (d' & Hd' & Hle).
    destruct (decide (Name (spec row) = n)) as [Hn|Hn].
    - exists (Next (cron row) now). rewrite Hn, lookup_insert_eq. split; [done|].
      rewrite Hrow by done. specialize (Hrec now). rewrite Hn in Ed. simplify_eq. lia.
    - exists d'. by rewrite lookup_insert_ne. }
  destruct (fire known enqueued (spec row) now s).2; [|done]. simpl.
  unfold times_of. rewrite omap_app. simpl. destruct (decide (Name (spec row) = n)) as [Hn|Hn];
    [|rewrite app_nil_r; exact Hskip].
  fold (times_of n fired). rewrite app_assoc. split.
  - apply apart_snoc; [done|]. intros t' Ht'. destruct (Hdue t' Ht') as (d' & Hd' & Hle).
    rewrite Hn in Ed. simplify_eq. lia.
  - intros t. rewrite last_snoc. intros [= <-]. exists (Next (cron row) now).
    rewrite Hn, lookup_insert_eq. split; [done|]. rewrite Hrow by done. lia.
Qed.

Lemma tick_apart sch n l known enqueued reg names now s due :
  recurs sch → (∀ row, row ∈ snapshot Next reg names now → Name (spec row) = n → cron row = sch) →
  apart sch l → due_after sch n due l →
  let x := tick Next known enqueued reg names now s due in
  apart sch (l ++ times_of n x.2) ∧
  ∀ due', ph x.1 = Leader due' → due_after sch n due' (l ++ times_of n x.2).
Proof.
  intros Hrec Hrow Hap Hdue. unfold tick.
  assert (∀ rows acc, (∀ row, row ∈ rows → Name (spec row) = n → cron row = sch) →
    apart sch (l ++ times_of n acc.2) → due_after sch n acc.1.2 (l ++ times_of n acc.2) →
    let x := foldl (tick_row Next known enqueued now) acc rows in
    apart sch (l ++ times_of n x.2) ∧ due_after sch n x.1.2 (l ++ times_of n x.2)) as Hfold.
  { induction rows as [|row rows IH]; intros acc Hr Ha Hd; [done|]. simpl.
    destruct acc as [[s0 due0] fired0]. simpl in Ha, Hd.
    destruct (tick_row_apart sch n l known enqueued now s0 due0 fired0 row Hrec (Hr row ltac:(by left)) Ha Hd) as [Ha' Hd'].
    apply IH; [|done|done]. intros r Hin. apply Hr. by right. }
  specialize (Hfold (snapshot Next reg names now) (s, due, []) Hrow). simpl in Hfold.
  rewrite app_nil_r in Hfold. specialize (Hfold Hap Hdue).
  destruct (foldl _ _ _) as [[s' due'] fired]. simpl in *. split; [apply Hfold|]. intros ? [= <-]. apply Hfold.
Qed.

Lemma tick_names n t known enqueued reg names now s due :
  (n, t) ∈ (tick Next known enqueued reg names now s due).2 →
  ∃ row : schedule Sched, row ∈ snapshot Next reg names now ∧ Name (spec row) = n.
Proof.
  unfold tick. assert (∀ rows acc, (n, t) ∈ (foldl (tick_row Next known enqueued now) acc rows).2 →
    (n, t) ∈ acc.2 ∨ ∃ row : schedule Sched, row ∈ rows ∧ Name (spec row) = n) as Hfold.
  { induction rows as [|row rows IH]; intros acc; simpl; [by left|].
    intros [Hin|(r & Hr & Hname)]%IH; [|right; exists r; split; [by right|done]].
    destruct acc as [[s0 due0] fired0]. unfold tick_row in Hin.
    destruct (due0 !! _); [|by left]. destruct (time_before now _); [by left|]. simpl in Hin.
    destruct (fire known enqueued (spec row) now s0).2; [|by left]. apply elem_of_app in Hin as [?|Hin]; [by left|right].
    apply list_elem_of_singleton in Hin as [= -> _]. exists row. split; [by left|done]. }
  specialize (Hfold (snapshot Next reg names now) (s, due, [])).
  destruct (foldl _ _ _) as [[s' due'] fired]. simpl in *. intros [[]%elem_of_nil|?]%Hfold; done.
Qed.

Definition named (r : @Registry Sched) : Prop :=
  (∀ n sp, specs r !! n = Some sp → Name sp = n) ∧ ∀ n, is_Some (schedules r !! n) → is_Some (specs r !! n).

Lemma snapshot_row r names now row :
  named r → row ∈ snapshot Next r names now → schedules r !! Name (spec row) = Some (cron row).
Proof.
  intros [Hn _] (n & Hin & (sp & Hsp & (sch & Hsch & [= <-])%bind_Some)%bind_Some)%list_elem_of_omap. simpl.
  by rewrite (Hn n sp Hsp).
Qed.

Lemma Register_grows r sp :
  named r → named (Register parse r sp).1 ∧
  ∀ n sch, schedules r !! n = Some sch → schedules (Register parse r sp).1 !! n = Some sch.
Proof.
  intros [Hn Hs]. unfold Register. repeat case_decide; try done. destruct (parse (Schedule sp)) as [parsed|]; [|done].
  destruct (specs r !! Name sp) eqn:E; [done|]. simpl. split.
  - split; simpl.
    + intros n sp' [[<- <-]|[_ ?]]%lookup_insert_Some; [done|by apply Hn].
    + intros n. destruct (decide (Name sp = n)) as [<-|Hne]; [rewrite !lookup_insert_eq; eauto|].
      rewrite !lookup_insert_ne by done. apply Hs.
  - intros n sch Hsch. rewrite lookup_insert_ne; [done|]. intros <-.
    destruct (Hs (Name sp)) as [? ?]; [eauto|]. congruence.
Qed.

(** What every reachable state keeps. *)
Record finv y : Prop := {
  fi_named : named (registry y);
  fi_known i k n t : (i, k, n, t) ∈ fires y → is_Some (schedules (registry y) !! n) ∧ k ≤ term_of y i;
  fi_apart i k n sch : schedules (registry y) !! n = Some sch → recurs sch → apart sch (mine i k n (fires y));
  fi_due i s due n sch : replicas y !! i = Some s → ph s = Leader due →
    schedules (registry y) !! n = Some sch → recurs sch → due_after sch n due (mine i (term_of y i) n (fires y)) }.

Abbreviation cstep := (cstep (R:=R) parse Next).
Abbreviation crun := (crun (R:=R) parse Next).

Lemma mine_known i k n log : mine i k n log ≠ [] → ∃ t, (i, k, n, t) ∈ log.
Proof.
  induction log as [|[[[i' k'] n'] t] log IH]; [done|]. rewrite mine_cons. simpl.
  destruct (decide ((i', k') = (i, k) ∧ n' = n)) as [[[= -> ->] ->]|]; [intros _; exists t; by left|].
  intros (t' & Ht')%IH. exists t'. by right.
Qed.

(** A step that changes no registry and logs no fire. *)
Lemma finv_quiet y r rs c un :
  finv y → (∀ i s due, rs !! i = Some s → ph s = Leader due → replicas y !! i = Some s) →
  finv (mkCSystem r (registry y) rs c un (terms y) (fires y)).
Proof.
  intros [Hn Hk Ha Hd] Hrs. split; [done..|]. intros i s due n sch Hi Hp. simpl. apply (Hd i s); [by eapply Hrs|done].
Qed.

Lemma finv_register y sp : finv y →
  finv (mkCSystem (redis y) (Register parse (registry y) sp).1 (replicas y) (clock y) (until y) (terms y) (fires y)).
Proof.
  intros [Hn Hk Ha Hd]. destruct (Register_grows (registry y) sp Hn) as [Hn' Hg].
  assert (∀ i k n sch, schedules (Register parse (registry y) sp).1 !! n = Some sch →
    mine i k n (fires y) = [] ∨ schedules (registry y) !! n = Some sch) as Hold.
  { intros i k n sch Hsch. destruct (decide (mine i k n (fires y) = [])) as [|Hne]; [by left|right].
    apply mine_known in Hne as (t & Ht). apply Hk in Ht as [[sch' Hs'] _]. rewrite <-Hsch, Hs'. symmetry. by apply Hg. }
  split; simpl; [done|..].
  - intros i k n t Ht. destruct (Hk i k n t Ht) as [[sch Hs] ?]. split; [eauto|done].
  - intros i k n sch Hsch Hrec. destruct (Hold i k n sch Hsch) as [->|Hs]; [by intros ? ? ?|by apply Ha].
  - intros i s due n sch Hi Hp Hsch Hrec.
    destruct (Hold i (term_of y i) n sch Hsch) as [He|Hs]; [|by apply (Hd i s)].
    unfold term_of in *. simpl. rewrite He. by intros t.
Qed.

Lemma finv_take y i s at_ r c due :
  finv y → ph s = Leader due →
  finv (take_lease i s at_ (mkCSystem r (registry y) (replicas y) c (until y) (terms y) (fires y))).
Proof.
  intros [Hn Hk Ha Hd] Hph. unfold take_lease, term_of in *. split; simpl; [done| |done|].
  - intros j k n t Ht. destruct (Hk j k n t Ht) as [? Hle]. split; [done|]. unfold term_of in *. simpl in *.
    destruct (decide (i = j)) as [->|Hne]. { rewrite lookup_insert_eq. simpl. lia. } by rewrite lookup_insert_ne.
  - intros j sj due' n sch Hj Hp Hsch Hrec t Ht. unfold term_of in *. simpl in *.
    apply lookup_insert_Some in Hj as [[<- <-]|[Hne Hj]].
    + rewrite lookup_insert_eq in Ht. simpl in Ht.
      destruct (mine i _ n (fires y)) as [|a l] eqn:E; [done|].
      destruct (mine_known i (Datatypes.S (default 0 (terms y !! i))) n (fires y)) as (t' & Ht'); [by rewrite E|].
      apply Hk in Ht' as [_ Hle]. lia.
    + rewrite lookup_insert_ne in Ht by done. by apply (Hd j sj due' n sch).
Qed.

Lemma finv_tick y i s at_ now names known enqueued due :
  finv y → replicas y !! i = Some s → ph s = Leader due →
  let x := tick Next known enqueued (registry y) names now s due in
  finv (log_fires i x.2 (put i x.1 (on_redis (redis y) at_ y))).
Proof.
  intros [Hn Hk Ha Hd] Hi Hph x.
  assert (∀ n sch, schedules (registry y) !! n = Some sch → recurs sch →
    apart sch (mine i (term_of y i) n (fires y) ++ times_of n x.2) ∧
    ∀ due', ph x.1 = Leader due' → due_after sch n due' (mine i (term_of y i) n (fires y) ++ times_of n x.2)) as Htick.
  { intros n sch Hsch Hrec. apply tick_apart; [done| |by apply Ha|by apply (Hd i s)].
    intros row Hrow Hname. apply (snapshot_row _ _ _ _ Hn) in Hrow. rewrite Hname in Hrow. congruence. }
  assert (∀ n t, (n, t) ∈ x.2 → is_Some (schedules (registry y) !! n)) as Hknown.
  { intros n t Hin. apply tick_names in Hin as (row & Hrow & <-). apply (snapshot_row _ _ _ _ Hn) in Hrow. eauto. }
  split; simpl; [done|..].
  - intros j k n t [Ht|([n' t'] & [= -> -> -> ->] & Hin)%list_elem_of_fmap]%elem_of_app; [by eapply Hk|].
    split; [by eapply Hknown|done].
  - intros j k n sch Hsch Hrec. rewrite mine_fires. case_decide as E; [|rewrite app_nil_r; by apply Ha].
    destruct E as [<- <-]. by apply Htick.
  - intros j sj due' n sch Hj Hp Hsch Hrec. rewrite mine_fires.
    apply lookup_insert_Some in Hj as [[<- <-]|[Hne Hj]].
    + rewrite decide_True by done. by apply Htick.
    + rewrite decide_False, app_nil_r by naive_solver. by apply (Hd j sj).
Qed.

Lemma cstep_finv y ev y' : cstep y ev = Some y' → finv y → finv y'.
Proof.
  intros Hstep Hf. destruct ev as [i c|sp|i net at_ now names|i net at_|i at_ now names known enqueued|i net at_];
    unfold Cron.cstep in Hstep.
  - destruct (replicas y !! i) eqn:Ei; [done|]. destruct (NewScheduler c) as [s|] eqn:Es; simplify_eq.
    apply NewScheduler_owner in Es as [_ Hph]. apply (finv_quiet y); [done|].
    intros j sj due [[<- <-]|[_ ?]]%lookup_insert_Some; [by rewrite Hph|done].
  - simplify_eq. by apply finv_register.
  - destruct (replicas y !! i) as [s|] eqn:Ei; simplify_eq/=. destruct (ph s) eqn:Eph; simplify_eq.
    destruct (Z.ltb_spec at_ (clock y)); simplify_eq.
    destruct (Acquire net at_ (lease s) (redis y)) as [r x]. simpl in *. destruct x as [[|]|]; simplify_eq.
    + eapply (finv_take y); [done|]. done.
    + apply (finv_quiet y); [done|]. intros ? ? ? Hq _. exact Hq.
    + apply (finv_quiet y); [done|]. intros ? ? ? Hq _. exact Hq.
  - destruct (replicas y !! i) as [s|] eqn:Ei; simplify_eq/=. destruct (ph s) eqn:Eph; simplify_eq.
    destruct (Z.ltb_spec at_ (clock y)); simplify_eq.
    destruct (send net (renewScript at_ (lease s)) (redis y)) as [r x]. simpl in *. destruct (held_of x); simplify_eq.
    + apply (finv_quiet y); [done|]. intros ? ? ? Hq _. exact Hq.
    + apply (finv_quiet y); [done|]. intros j sj due [[<- <-]|[_ ?]]%lookup_insert_Some; done.
    + apply (finv_quiet y); [done|]. intros ? ? ? Hq _. exact Hq.
  - destruct (replicas y !! i) as [s|] eqn:Ei; simplify_eq/=. destruct (ph s) as [|due|] eqn:Eph; simplify_eq.
    destruct (Z.ltb_spec at_ (clock y)); simplify_eq. by apply finv_tick.
  - destruct (replicas y !! i) as [s|] eqn:Ei; simplify_eq/=.
    assert (y' = put i (set_phase Stopped s) (on_redis (Release net at_ (lease s) (redis y)).1 at_ y)) as ->
      by (destruct (ph s), (Z.ltb_spec at_ (clock y)); simplify_eq; done).
    apply (finv_quiet y); [done|]. intros j sj due [[<- <-]|[_ ?]]%lookup_insert_Some; done.
Qed.

Lemma crun_finv evs y y' : crun y evs = Some y' → finv y → finv y'.
Proof.
  revert y. induction evs as [|ev evs IH]; intros y; simpl; [by intros [= ->]|].
  intros (y1 & Hy1 & Hrun)%bind_Some Hf. eauto using cstep_finv.
Qed.

Lemma empty_finv r at_ : finv (empty_csystem r at_).
Proof.
  split; simpl; [split; [done|by intros n [? ?]]|by intros ? ? ? ? ?%elem_of_nil|done|done].
Qed.
End fires.

(** C15. Within one term of office a schedule is never fired twice for one due time:
    between a fire and the next lies at least one time of the schedule, however slow
    the ticks are, whatever is registered meanwhile and whichever fires fail. *)
Theorem fires_apart {Sched R} (parse : string → result string Sched) Next `{Redis R, !RedisMs R} (evs : list cevent)
    r0 t0 (y : csystem Sched R) i k n sch m t t' :
  crun parse Next (empty_csystem r0 t0) evs = Some y → schedules (registry y) !! n = Some sch → recurs Next sch →
  mine i k n (fires y) !! m = Some t → mine i k n (fires y) !! Datatypes.S m = Some t' →
  (t < Next sch t ≤ t')%Z.
Proof.
  intros Hrun Hsch Hrec Ht Ht'. pose proof (crun_finv parse Next evs _ y Hrun (empty_finv Next r0 t0)) as Hf.
  split; [apply Hrec|]. by apply (fi_apart Next y Hf i k n sch Hsch Hrec m).
Qed.

(** ** A run *)

(** A schedule of every [p] nanoseconds; 0 stands for one that has no time. *)
Definition every (expr : string) : result string Z :=
  match strconv.Atoi expr with Some p => Ok p | None => Err "expected number" end.
Definition next_every (p : Z) (t : Time) : Time := if (p <=? 0)%Z then time_zero else ((t / p + 1) * p)%Z.

Definition run_config (owner : string) : Config := mkConfig true true true true "" 0 owner.
Definition sweep : CronSpec := mkCronSpec "sweep" "60" "revisions.purge" None.
Definition yes (_ : string) : bool := true.

(** Replica 0 leads and fires at 60 and, late, at 150; it is then cut off from the
    lease, and replica 1 takes over when the lease is over. *)
Definition run_events : list cevent :=
  [EvRegister sweep; EvSpawn 0 (run_config "a"); EvSpawn 1 (run_config "b");
   EvAcquire 0 Served 0 0 ["sweep"]; EvAcquire 1 Served 1 1 ["sweep"];
   EvTick 0 2 59 ["sweep"] yes yes; EvTick 0 3 60 ["sweep"] yes yes; EvRenew 0 ReplyLost 5000;
   EvTick 0 5001 150 ["sweep"] yes yes; EvRenew 0 Refused 10000; EvRenew 0 Refused 15000;
   EvAcquire 1 Served 20001 200 ["sweep"]].

Definition run_cron (evs : list cevent) : option (csystem Z (gmap string entry)) :=
  crun every next_every (empty_csystem ∅ 0) evs.
Definition cron_summary (y : csystem Z (gmap string entry)) : list (nat * nat * string * Time) * list (nat * bool) :=
  (fires y, map (λ is_, (is_.1, isLeader is_.2)) (map_to_list (replicas y))).

Definition run_fires (evs : list cevent) : option (list (nat * nat * string * Time)) :=
  match run_cron evs with Some y => Some (fires y) | None => None end.

(** The transport errors of its renewals do not end the term of replica 0: beside the
    new leader it goes on firing the same due times. *)
Example cut_off_leader_fires :
  cron_summary <$> run_cron (run_events ++ [EvTick 0 20010 240 ["sweep"] yes yes; EvTick 1 20010 240 ["sweep"] yes yes]) =
    Some ([(0, 1, "sweep", 60%Z); (0, 1, "sweep", 150%Z); (0, 1, "sweep", 240%Z); (1, 1, "sweep", 240%Z)],
          [(1, true); (0, true)]).
Proof. vm_compute. reflexivity. Qed.

(** A replica that takes over computes the due times from its own clock: a time that
    came due in between is never fired. *)
Example takeover_skips_due_time :
  run_fires
    [EvRegister sweep; EvSpawn 0 (run_config "a"); EvSpawn 1 (run_config "b"); EvAcquire 0 Served 0 50 ["sweep"];
     EvStop 0 Served 10; EvAcquire 1 Served 11 61 ["sweep"]; EvTick 1 12 119 ["sweep"] yes yes] = Some [].
Proof. vm_compute. reflexivity. Qed.

(** A fire that the queue refuses is not tried again before the next due time. *)
Example failed_fire_not_retried :
  run_fires
    [EvRegister sweep; EvSpawn 0 (run_config "a"); EvAcquire 0 Served 0 0 ["sweep"];
     EvTick 0 1 60 ["sweep"] yes (λ _, false); EvTick 0 2 61 ["sweep"] yes yes; EvTick 0 3 119 ["sweep"] yes yes] = Some [].
Proof. vm_compute. reflexivity. Qed.

(** A schedule without a next time, whose [Next] is the zero time, is fired at every
    tick. *)
Example impossible_schedule_fires_always :
  length <$> run_fires
    [EvRegister (mkCronSpec "never" "0" "t" None); EvSpawn 0 (run_config "a"); EvAcquire 0 Served 0 0 ["never"];
     EvTick 0 1 1 ["never"] yes yes; EvTick 0 2 2 ["never"] yes yes; EvTick 0 3 3 ["never"] yes yes] = Some 3.
Proof. vm_compute. reflexivity. Qed.

(** An Acquire whose reply is lost leaves the lease taken and nobody leading. *)
Example lost_acquire_leaves_no_leader :
  cron_summary <$> run_cron
    [EvSpawn 0 (run_config "a"); EvSpawn 1 (run_config "b"); EvAcquire 0 ReplyLost 0 0 []; EvAcquire 0 Served 7500 0 [];
     EvAcquire 1 Served 14999 0 []] = Some ([], [(1, false); (0, false)]).
Proof. vm_compute. reflexivity. Qed.

Lemma run_owners : owners_differ run_events.
Proof.
  intros i c j c' Hi Hj. unfold run_events in *. rewrite !elem_of_cons in Hi, Hj.
  destruct_or! Hi; simplify_eq; destruct_or! Hj; simplify_eq; try done; by apply elem_of_nil in Hi || by apply elem_of_nil in Hj.
Qed.

Lemma run_second y : run_cron run_events = Some y → ∃ s,
  replicas y !! 1 = Some s ∧ isLeader s = true ∧ until y !! 1 = Some 35001%Z ∧ (clock y ≤ 35001)%Z.
Proof.
  intros E. vm_compute in E. injection E as <-. eexists. split; [vm_compute; reflexivity|].
  split; [reflexivity|]. split; [vm_compute; reflexivity|]. vm_compute. intros Hx. discriminate Hx.
Qed.

Lemma one_leader_witness : ∃ y s, run_cron run_events = Some y ∧ replicas y !! 1 = Some s ∧ isLeader s = true ∧ 1 = 1.
Proof.
  destruct (run_cron run_events) as [y|] eqn:E; [|vm_compute in E; discriminate E].
  destruct (run_second y E) as (s & Hs & Hl & Hu & Hc). exists y, s. split; [reflexivity|]. split; [exact Hs|].
  split; [exact Hl|].
  exact (one_leader every next_every run_events (∅ : gmap string entry) 0 y 1 1 s s _ _ run_owners E Hs Hs Hl Hl eq_refl
           Hu Hu Hc Hc).
Defined.

Lemma recurs_60 : recurs next_every 60%Z.
Proof.
  intros t. unfold next_every. simpl. pose proof (Z.mul_succ_div_gt t 60 ltac:(lia)). lia.
Qed.

Lemma fires_apart_witness : ∃ y, run_cron run_events = Some y ∧ (60 < next_every 60 60 ≤ 150)%Z.
Proof.
  destruct (run_cron run_events) as [y|] eqn:E; [|vm_compute in E; discriminate E]. exists y. split; [reflexivity|].
  pose proof (fires_apart every next_every run_events (∅ : gmap string entry) 0 y 0 1 "sweep" 60%Z 0 60%Z 150%Z E) as H.
  vm_compute in E. injection E as <-.
  apply H; [vm_compute; reflexivity|exact recurs_60|vm_compute; reflexivity|vm_compute; reflexivity].
Defined.
