(* ===== verification/Html.v ===== *)
(** * Escaping for HTML output

    [template.HTMLEscapeString] of html/template, [strconv.Quote] (what [%q]
    writes), and the [escapeText] of blocks/render. Strings are byte strings;
    bytes from 0x80 on are taken to be printable UTF-8 and kept by [Quote]. *)
From S2P Require Import Prelude GoStrings Hex.
From Stdlib Require Import Ascii.

(** The bytes of [s], each replaced by a string: the shape of the escapers. *)
Fixpoint concat_map (f : ascii → string) (s : string) : string :=
  match s with EmptyString => "" | String c s => f c +:+ concat_map f s end.

Module template.
Definition escape (c : ascii) : string :=
  if Ascii.eqb c "000" then String "239" (String "191" (String "189" ""))
  else if Ascii.eqb c "034" then "&#34;"
  else if Ascii.eqb c "'" then "&#39;"
  else if Ascii.eqb c "&" then "&amp;"
  else if Ascii.eqb c "<" then "&lt;"
  else if Ascii.eqb c ">" then "&gt;"
  else String c "".

Definition HTMLEscapeString (s : string) : string := concat_map escape s.
End template.

Module strconvq.
(** [%q] of one byte *)
Definition quote_byte (c : ascii) : string :=
  let n := N_of_ascii c in
  if Ascii.eqb c "034" || Ascii.eqb c "\" then String "\" (String c "")
  else if Ascii.eqb c "007" then "\a"
  else if Ascii.eqb c "008" then "\b"
  else if Ascii.eqb c "012" then "\f"
  else if Ascii.eqb c "010" then "\n"
  else if Ascii.eqb c "013" then "\r"
  else if Ascii.eqb c "009" then "\t"
  else if Ascii.eqb c "011" then "\v"
  else if (n <? 32)%N || (n =? 127)%N then "\x" +:+ hex.EncodeToString (String c "")
  else String c "".

Definition Quote (s : string) : string :=
  String "034" (concat_map quote_byte s +:+ String "034" "").
End strconvq.

(** ** Escaping removes the characters that end a text or an attribute *)

Definition free_of (bad : ascii → bool) (s : string) : bool :=
  all_chars (λ c, negb (bad c)) s.

Lemma free_of_concat_map bad f s :
  (∀ c, free_of bad (f c) = true) → free_of bad (concat_map f s) = true.
Proof.
  intros Hf. induction s as [|c s IH]; [done|].
  unfold free_of in *. simpl concat_map. by rewrite all_chars_app, Hf, IH.
Qed.

(** Every byte of a 256-element table. *)
Lemma all_ascii (P : ascii → bool) :
  forallb (λ n, P (ascii_of_nat n)) (seq 0 256) = true → ∀ c, P c = true.
Proof.
  intros H c. rewrite forallb_forall in H. rewrite <-(ascii_nat_embedding c). apply H.
  apply in_seq. pose proof (nat_ascii_bounded c). lia.
Qed.

(** The bytes that open a tag, an entity aside, or end a quoted attribute. *)
Definition markup (c : ascii) : bool :=
  Ascii.eqb c "<" || Ascii.eqb c ">" || Ascii.eqb c "034" || Ascii.eqb c "'".

Lemma HTMLEscapeString_no_markup s : free_of markup (template.HTMLEscapeString s) = true.
Proof. apply free_of_concat_map. by apply all_ascii. Qed.
