(* ===== verification/Blocks.v ===== *)
(** * Block trees and their rendering (blocks/render)

    The registry, the walker with its plugin dispatcher, the canonical encoding
    and the caching walker; the core renderers are in CoreBlocks.v. A Go
    [map[string]any] inside a block is the list of its entries in key order; a
    context is a finite map. JSON numbers are [float64]s, given by the interface
    [Float64]: the text encoding/json writes and the conversion to [int]. *)
From S2P Require Import Prelude GoStrings Hex Json Html.
From Stdlib Require Import Ascii.

Class Float64 (Num : Type) := {
  float64_text : Num → string;
  float64_int : Num → Z;
}.

Inductive value {Num : Type} :=
| VNull | VBool (b : bool) | VNum (n : Num) | VStr (s : string)
| VList (l : list value) | VMap (m : list (string * value)).
Arguments value : clear implicits.

Inductive Block {Num : Type} := mkBlock {
  Type_ : string;
  Attributes : list (string * value Num);
  InnerBlocks : list Block;
  ClientID : string;
}.
Arguments Block : clear implicits.
Arguments mkBlock {Num}.

(** [m[k]] of a map given by its entries. *)
Fixpoint get {A} (k : string) (m : list (string * A)) : option A :=
  match m with
  | [] => None
  | (k', v) :: m => if decide (k = k') then Some v else get k m
  end.

(** ** The canonical encoding of a block subtree *)
Module canonical.
Section canonical.
Context {Num : Type} `{Float64 Num}.
Implicit Types v : value Num.

(** the entries [m], already encoded, in ascending key order *)
Definition sortEntries (m : list (string * string)) : list (string * string) :=
  sort_by (λ x y, String.ltb x.1 y.1) m.

Definition writeEntry (e : string * string) : string := json.Quote e.1 +:+ ":" +:+ e.2.

Fixpoint writeSortedValue v : string :=
  match v with
  | VNull => "null"
  | VMap m =>
      "{" +:+ strings.Join (map writeEntry (sortEntries
        (map (λ e, (e.1, writeSortedValue e.2)) m))) "," +:+ "}"
  | VList l => "[" +:+ strings.Join (map writeSortedValue l) "," +:+ "]"
  | VBool b => if b then "true" else "false"
  | VNum n => float64_text n
  | VStr s => json.Quote s
  end.

(** a fixed key of an object, with its colon *)
Definition field (k : string) : string := String "034" (k +:+ String "034" ":").

Fixpoint canonicalEncode (b : Block Num) : string :=
  "{" +:+ field "t" +:+ json.Quote (Type_ b) +:+ "," +:+ field "a" +:+
  writeSortedValue (VMap (Attributes b)) +:+
  match InnerBlocks b with
  | [] => ""
  | l => "," +:+ field "i" +:+ "[" +:+ strings.Join (map canonicalEncode l) "," +:+ "]"
  end +:+ "}".
End canonical.
End canonical.

Module render.
Abbreviation HTML := string (only parsing).

Section render.
Context {Num : Type}.
Notation Block := (Block Num).
Notation value := (value Num).

Definition Context : Type := gmap string value.
Definition BlockTree : Type := list Block.

(** [Renderer]: the rendered block, or the text of its error. *)
Definition Renderer : Type := Block → HTML → Context → result string HTML.

Record BlockSpec := mkBlockSpec {
  Render : Renderer;
  ProvidesContext : list string;
  UsesContext : list string;
}.

(** ** Registry

    A registered spec has a renderer: [Register] refuses a nil one, which is
    [None] in its argument. *)
Definition Registry : Type := gmap string BlockSpec.

Inductive RegisterError := ErrBlockTypeRequired | ErrRenderNil | ErrDuplicateBlockType.

Definition NewRegistry : Registry := ∅.

Definition Register (blockType : string) (rend : option Renderer) (provides uses : list string)
    (r : Registry) : Registry * option RegisterError :=
  if decide (blockType = "") then (r, Some ErrBlockTypeRequired) else
  match rend with
  | None => (r, Some ErrRenderNil)
  | Some rend =>
      match r !! blockType with
      | Some _ => (r, Some ErrDuplicateBlockType)
      | None => (<[blockType := mkBlockSpec rend provides uses]> r, None)
      end
  end.

Definition Get (blockType : string) (r : Registry) : option BlockSpec := r !! blockType.
Definition Has (blockType : string) (r : Registry) : bool := bool_decide (is_Some (r !! blockType)).

Definition Unregister (blockType : string) (r : Registry) : Registry * bool :=
  match r !! blockType with
  | None => (r, false)
  | Some _ => (delete blockType r, true)
  end.

Definition Names (r : Registry) : list string := sort_strings (map fst (map_to_list r)).
Definition Len (r : Registry) : nat := size r.

(** ** Walker *)
Inductive error :=
| ErrUnknownBlockType (blockType : string)
| ErrRenderer (msg : string).

Definition error_text (e : error) : string :=
  match e with
  | ErrUnknownBlockType t => "render: unknown block type: " +:+ strconvq.Quote t
  | ErrRenderer m => m
  end.

Record WalkError := mkWalkError { Path : string; BlockType : string; Err_ : error }.

(** [WalkError.Error] *)
Definition Error (e : WalkError) : string :=
  "render: " +:+ Path e +:+ ": " +:+
  (if decide (BlockType e = "") then "" else BlockType e +:+ ": ") +:+ error_text (Err_ e).

Record WalkResult := mkWalkResult { HTML_ : HTML; Errors : list WalkError }.

Record PluginBlockRequest := mkPluginBlockRequest {
  req_BlockType : string;
  req_Attributes : list (string * value);
  req_Inner : string;
  req_Context : Context;
}.

(** [PluginBlockDispatcher.Dispatch slug handler req] *)
Definition PluginBlockDispatcher : Type := string → string → PluginBlockRequest → result string HTML.

Record Walker := mkWalker { registry : Registry; pluginDispatcher : option PluginBlockDispatcher }.

Definition New (reg : Registry) : Walker := mkWalker reg None.
Definition WithPluginDispatcher (d : PluginBlockDispatcher) (w : Walker) : Walker :=
  mkWalker (registry w) (Some d).

Definition parsePluginBlockType (blockType : string) : option (string * string) :=
  if strings.HasPrefix blockType "plugin/" then
    match strings.Cut (strings.drop 7 blockType) "/" with
    | None => None
    | Some (slug, handler) => if decide (slug = "" ∨ handler = "") then None else Some (slug, handler)
    end
  else None.

Definition mergeProvidedContext (inherited : Context) (b : Block) (keys : list string) : Context :=
  foldl (λ merged k, match get k (Attributes b) with Some v => <[k := v]> merged | None => merged end)
    inherited keys.

Definition filterConsumedContext (inherited : Context) (keys : list string) : Context :=
  foldl (λ out k, match inherited !! k with Some v => <[k := v]> out | None => out end) ∅ keys.

Definition unknownBlockHTML (blockType : string) : HTML :=
  let safe := template.HTMLEscapeString blockType in
  "<div class=" +:+ String "034" ("gn-block-unknown" +:+ String "034" " role=") +:+
  String "034" ("alert" +:+ String "034" " data-block-type=") +:+ strconvq.Quote blockType +:+ ">" +:+
  "<!-- gn:unknown-block " +:+ safe +:+ " -->Unknown block: <code>" +:+ safe +:+ "</code></div>".

Definition renderErrorHTML (blockType : string) (err : string) : HTML :=
  let safeType := template.HTMLEscapeString blockType in
  let safeErr := template.HTMLEscapeString err in
  "<div class=" +:+ String "034" ("gn-block-error" +:+ String "034" " role=") +:+
  String "034" ("alert" +:+ String "034" " data-block-type=") +:+ strconvq.Quote blockType +:+ ">" +:+
  "<!-- gn:render-error " +:+ safeType +:+ ": " +:+ safeErr +:+
  " -->Render error in <code>" +:+ safeType +:+ "</code></div>".

(** The loop over sibling blocks: their HTML concatenated, their errors in
    order; [path i] locates the [i]-th. *)
Definition walkSiblings (walk : Block → string → HTML * list WalkError) (path : nat → string) :
    nat → list Block → HTML * list WalkError :=
  fix go i l :=
    match l with
    | [] => ("", [])
    | child :: l =>
        let (out, errs) := walk child (path i) in
        let (html, errs') := go (S i) l in
        (out +:+ html, errs ++ errs')
    end.

Definition childPath (path : string) (i : nat) : string :=
  path +:+ "/innerBlocks/" +:+ strconv.Itoa (Z.of_nat i).
Definition rootPath (i : nat) : string := "/" +:+ strconv.Itoa (Z.of_nat i).

(** [walkBlock], with [dispatchPluginBlock] on its fast path. *)
Fixpoint walkBlock (w : Walker) (b : Block) (inherited : Context) (path : string) :
    HTML * list WalkError :=
  let inner ctx := walkSiblings (λ child p, walkBlock w child ctx p) (childPath path) 0 (InnerBlocks b) in
  let finish (errs : list WalkError) (r : result string HTML) :=
    match r with
    | Ok out => (out, errs)
    | Err e => (renderErrorHTML (Type_ b) e, errs ++ [mkWalkError path (Type_ b) (ErrRenderer e)])
    end in
  match parsePluginBlockType (Type_ b), pluginDispatcher w with
  | Some (slug, handler), Some dispatch =>
      let (innerHTML, errs) := inner inherited in
      finish errs (dispatch slug handler
        (mkPluginBlockRequest (Type_ b) (Attributes b) innerHTML inherited))
  | _, _ =>
      match Get (Type_ b) (registry w) with
      | None =>
          (unknownBlockHTML (Type_ b),
           [mkWalkError path (Type_ b) (ErrUnknownBlockType (Type_ b))])
      | Some spec =>
          let (innerHTML, errs) := inner (mergeProvidedContext inherited b (ProvidesContext spec)) in
          finish errs (Render spec b innerHTML (filterConsumedContext inherited (UsesContext spec)))
      end
  end.

Definition Walk (w : Walker) (tree : BlockTree) (ctx : Context) : WalkResult :=
  let (html, errs) := walkSiblings (λ b p, walkBlock w b ctx p) rootPath 0 tree in
  mkWalkResult html errs.
End render.
End render.

(** ** The byte cache behind the caching walker

    [cache_Get] gives the bytes, whether they are a hit, and a transport error;
    [holds c k v]: [v] may be given for [k]. Entries may disappear at any time. *)
Class CacheBackend (C : Type) := {
  cache_Get : C → string → list string → (string * bool * option string) * C;
  cache_Set : C → string → string → list string → Duration → option string * C;
}.

Class CacheBackendLaws (C : Type) `{CacheBackend C} := {
  holds : C → string → string → Prop;
  Get_hit c k tags : (cache_Get c k tags).1.1.2 = true → holds c k (cache_Get c k tags).1.1.1;
  Get_holds c k tags k' v' : holds (cache_Get c k tags).2 k' v' → holds c k' v';
  Set_holds c k v tags ttl k' v' :
    holds (cache_Set c k v tags ttl).2 k' v' → holds c k' v' ∨ k' = k ∧ v' = v;
}.

(** A map in memory; it ignores tags and never evicts. *)
#[export] Instance memory_cache : CacheBackend (gmap string string) := {
  cache_Get c k _ := (match c !! k with Some v => (v, true, None) | None => ("", false, None) end, c);
  cache_Set c k v _ _ := (None, <[k := v]> c);
}.

#[export] Program Instance memory_cache_laws : CacheBackendLaws (gmap string string) := {
  holds c k v := c !! k = Some v;
}.
Next Obligation. intros c k tags. simpl. by destruct (c !! k). Qed.
Next Obligation. done. Qed.
Next Obligation.
  intros c k v tags ttl k' v'. simpl. rewrite lookup_insert_Some. intros [[-> ->]|[_ E]]; auto.
Qed.

Module cachedrender.
Import render.
Section cached.
Context {Num : Type} `{Float64 Num}.
Notation Block := (Block Num).
(** [sha256.Sum256] *)
Context (sha256 : string → string).
Context {C : Type} `{CacheBackend C}.

Definition DefaultCacheTTL : Duration := hour.
Definition KeyPrefix : string := "br:".

(** The counters are 64-bit. *)
Definition uint64_add1 (n : Z) : Z := ((n + 1) mod 2 ^ 64)%Z.

Record Metrics := mkMetrics { hits : Z; misses : Z; stores : Z; bypasses : Z }.

Record CachedWalkerOptions := mkOptions {
  opt_Cache : option C;
  opt_Version : string;
  opt_TTL : Duration;
  opt_ExtraTags : list string;
}.

Record CachedWalker := mkCached {
  walker : Walker (Num := Num);
  cache : C;
  version : string;
  ttl : Duration;
  extraTags : list string;
  metrics : Metrics;
}.

Definition NewCached (reg : Registry (Num := Num)) (opts : CachedWalkerOptions) :
    result string CachedWalker :=
  match opt_Cache opts with
  | None => Err "render: NewCached: opts.Cache is required"
  | Some c =>
      Ok (mkCached (New reg) c (opt_Version opts)
            (if (opt_TTL opts <=? 0)%Z then DefaultCacheTTL else opt_TTL opts)
            (opt_ExtraTags opts) (mkMetrics 0 0 0 0))
  end.

Definition set_cache (c : C) (cw : CachedWalker) : CachedWalker :=
  mkCached (walker cw) c (version cw) (ttl cw) (extraTags cw) (metrics cw).
Definition set_metrics (f : Metrics → Metrics) (cw : CachedWalker) : CachedWalker :=
  mkCached (walker cw) (cache cw) (version cw) (ttl cw) (extraTags cw) (f (metrics cw)).

Definition add_hit (m : Metrics) := mkMetrics (uint64_add1 (hits m)) (misses m) (stores m) (bypasses m).
Definition add_miss (m : Metrics) := mkMetrics (hits m) (uint64_add1 (misses m)) (stores m) (bypasses m).
Definition add_store (m : Metrics) := mkMetrics (hits m) (misses m) (uint64_add1 (stores m)) (bypasses m).
Definition add_bypass (m : Metrics) := mkMetrics (hits m) (misses m) (stores m) (uint64_add1 (bypasses m)).

Definition isCacheable (spec : BlockSpec (Num := Num)) : bool :=
  bool_decide (UsesContext spec = []) && bool_decide (ProvidesContext spec = []).

Definition cacheKey (cw : CachedWalker) (b : Block) : string :=
  KeyPrefix +:+ version cw +:+ ":" +:+ Type_ b +:+ ":" +:+
  hex.EncodeToString (sha256 (canonical.canonicalEncode b)).

Definition cacheTags (cw : CachedWalker) (b : Block) : list string :=
  ("br:type:" +:+ Type_ b) :: extraTags cw.

Definition walkBlockCached (b : Block) (inherited : Context) (path : string) (cw : CachedWalker) :
    (HTML * list WalkError) * CachedWalker :=
  match Get (Type_ b) (registry (walker cw)) with
  | None => (walkBlock (walker cw) b inherited path, cw)
  | Some spec =>
      if negb (isCacheable spec) then
        (walkBlock (walker cw) b inherited path, set_metrics add_bypass cw)
      else
        let key := cacheKey cw b in
        let tags := cacheTags cw b in
        let '(cached, hit, _, c) := cache_Get (cache cw) key tags in
        let cw := set_cache c cw in
        if (hit : bool) then ((cached, []), set_metrics add_hit cw) else
        let cw := set_metrics add_miss cw in
        let (out, errs) := walkBlock (walker cw) b inherited path in
        match errs with
        | _ :: _ => ((out, errs), cw)
        | [] =>
            let (err, c) := cache_Set (cache cw) key out tags (ttl cw) in
            let cw := set_cache c cw in
            ((out, errs), match err with Some _ => cw | None => set_metrics add_store cw end)
        end
  end.

Fixpoint walkRoots (i : nat) (tree : BlockTree) (ctx : Context) (cw : CachedWalker) :
    (HTML * list WalkError) * CachedWalker :=
  match tree with
  | [] => (("", []), cw)
  | b :: tree =>
      let '((out, errs), cw) := walkBlockCached b ctx (rootPath i) cw in
      let '((html, errs'), cw) := walkRoots (S i) tree ctx cw in
      ((out +:+ html, errs ++ errs'), cw)
  end.

(** [CachedWalker.Walk] *)
Definition CachedWalker_Walk (tree : BlockTree) (ctx : Context) (cw : CachedWalker) : WalkResult * CachedWalker :=
  let '((html, errs), cw) := walkRoots 0 tree ctx cw in (mkWalkResult html errs, cw).

(** [CachedWalker.Metrics], and the hit rate as a fraction. *)
Definition HitRate (m : Metrics) : Z * Z :=
  (let total := (hits m + misses m) mod 2 ^ 64 in
   if total =? 0 then (0, 1) else (hits m, total))%Z.

(** Requests served one after the other by the same walker. *)
Fixpoint serve (reqs : list (BlockTree * Context)) (cw : CachedWalker) :
    list (WalkResult) * CachedWalker :=
  match reqs with
  | [] => ([], cw)
  | (tree, ctx) :: reqs =>
      let (r, cw) := CachedWalker_Walk tree ctx cw in
      let (rs, cw) := serve reqs cw in (r :: rs, cw)
  end.
End cached.
End cachedrender.
