(* ===== verification/CoreBlocks.v ===== *)
(** * The core block renderers (blocks/render: renderer.go, core_renderers.go)

    The attribute readers, the attribute writers and the renderer of each core
    block. [core/html] pipes its content through safehtml.SanitizeSVG, which is
    the argument [SanitizeSVG] here. *)
From S2P Require Import Prelude GoStrings Hex Json Html Blocks.
From Stdlib Require Import Ascii.
Import render.

(** [s] between double quotes, as the format strings have it. *)
Definition dquote (s : string) : string := String "034" (s +:+ String "034" "").

(** [escapeText]: strings.NewReplacer looks at each byte once. *)
Definition escapeText_byte (c : ascii) : string :=
  if Ascii.eqb c "&" then "&amp;"
  else if Ascii.eqb c "<" then "&lt;"
  else if Ascii.eqb c ">" then "&gt;"
  else if Ascii.eqb c "034" then "&quot;"
  else if Ascii.eqb c "'" then "&#39;"
  else String c "".
Definition escapeText (s : string) : string := concat_map escapeText_byte s.

Module core.
Section core.
Context {Num : Type} `{Float64 Num}.
Notation Attrs := (list (string * value Num)).
Notation Block := (Block Num).

Definition attrString (attrs : Attrs) (key fallback : string) : string :=
  match get key attrs with Some (VStr s) => s | _ => fallback end.

(** Of the number types the code accepts, JSON gives [float64]. *)
Definition attrInt (attrs : Attrs) (key : string) (fallback : Z) : Z :=
  match get key attrs with Some (VNum n) => float64_int n | _ => fallback end.

Definition attrBool (attrs : Attrs) (key : string) (fallback : bool) : bool :=
  match get key attrs with Some (VBool b) => b | _ => fallback end.

Definition classAttr (classes : list string) : string :=
  match filter (λ c, strings.TrimSpace c ≠ "") classes with
  | [] => ""
  | out => " class=" +:+ strconvq.Quote (strings.Join out " ")
  end.

Definition idAttr (id : string) : string :=
  let id := strings.TrimSpace id in
  if decide (id = "") then "" else " id=" +:+ strconvq.Quote (template.HTMLEscapeString id).

Definition hrefAttr (href : string) : string :=
  let href := strings.TrimSpace href in
  if decide (href = "") then "" else " href=" +:+ strconvq.Quote (template.HTMLEscapeString href).

(** [append(classes, prefix+v)] unless [v] is empty *)
Definition class_if (v prefix : string) : list string := if decide (v = "") then [] else [prefix +:+ v].
Definition flag_if (b : bool) (c : string) : list string := if b then [c] else [].

Definition renderParagraph : Renderer (Num := Num) := λ b _ _,
  let attrs := Attributes b in
  let classes := ["gn-block-paragraph"] ++ class_if (attrString attrs "align" "") "has-text-align-" ++
    flag_if (attrBool attrs "dropCap" false) "has-drop-cap" in
  Ok ("<p" +:+ classAttr classes +:+ ">" +:+ escapeText (attrString attrs "content" "") +:+ "</p>").

Definition renderHeading : Renderer (Num := Num) := λ b _ _,
  let attrs := Attributes b in
  let level := attrInt attrs "level" 2 in
  let level := if (level <? 1)%Z || (6 <? level)%Z then 2%Z else level in
  let classes := ["gn-block-heading"; "gn-block-heading--level-" +:+ strconv.Itoa level] ++
    class_if (attrString attrs "align" "") "has-text-align-" in
  let tag := "h" +:+ strconv.Itoa level in
  Ok ("<" +:+ tag +:+ idAttr (attrString attrs "anchor" "") +:+ classAttr classes +:+ ">" +:+
      escapeText (attrString attrs "content" "") +:+ "</" +:+ tag +:+ ">").

(** [strings.Builder] writes of a loop *)
Definition writeAll {A} (f : A → string) (l : list A) : string := foldr (λ a s, f a +:+ s) "" l.

Definition renderList : Renderer (Num := Num) := λ b _ _,
  let attrs := Attributes b in
  let tag := if attrBool attrs "ordered" false then "ol" else "ul" in
  let items := match get "values" attrs with
    | Some (VList l) => writeAll (λ v, match v with
        | VStr s => "<li>" +:+ escapeText s +:+ "</li>"
        | _ => "" end) l
    | _ => ""
    end in
  Ok ("<" +:+ tag +:+ classAttr ["gn-block-list"] +:+ ">" +:+ items +:+ "</" +:+ tag +:+ ">").

Definition img (src alt : string) : string :=
  "<img src=" +:+ strconvq.Quote (template.HTMLEscapeString src) +:+
  " alt=" +:+ strconvq.Quote (template.HTMLEscapeString alt) +:+ "/>".

Definition renderImage : Renderer (Num := Num) := λ b _ _,
  let attrs := Attributes b in
  let src := attrString attrs "src" "" in
  let caption := attrString attrs "caption" "" in
  if decide (src = "") then
    Ok ("<figure class=" +:+ dquote "gn-block-image gn-block-image--empty" +:+ "></figure>")
  else
    let classes := ["gn-block-image"] ++ class_if (attrString attrs "align" "") "has-align-" in
    Ok ("<figure" +:+ classAttr classes +:+ ">" +:+ img src (attrString attrs "alt" "") +:+
        (if decide (caption = "") then "" else "<figcaption>" +:+ escapeText caption +:+ "</figcaption>") +:+
        "</figure>").

Definition renderQuote : Renderer (Num := Num) := λ b _ _,
  let attrs := Attributes b in
  let citation := attrString attrs "citation" "" in
  Ok ("<blockquote" +:+ classAttr ["gn-block-quote"] +:+ ">" +:+
      "<p>" +:+ escapeText (attrString attrs "content" "") +:+ "</p>" +:+
      (if decide (citation = "") then "" else "<cite>" +:+ escapeText citation +:+ "</cite>") +:+
      "</blockquote>").

Definition renderCode : Renderer (Num := Num) := λ b _ _,
  let attrs := Attributes b in
  let classes := ["gn-block-code"] ++ class_if (attrString attrs "language" "") "language-" in
  Ok ("<pre" +:+ classAttr classes +:+ "><code>" +:+
      escapeText (attrString attrs "content" "") +:+ "</code></pre>").

Definition renderSeparator : Renderer (Num := Num) := λ b _ _,
  let style := attrString (Attributes b) "style" "default" in
  Ok ("<hr" +:+ classAttr ["gn-block-separator"; "gn-block-separator--" +:+ style] +:+ "/>").

Definition renderSpacer : Renderer (Num := Num) := λ b _ _,
  let height := attrInt (Attributes b) "height" 24 in
  let height := if (height <? 0)%Z then 0%Z else height in
  Ok ("<div" +:+ classAttr ["gn-block-spacer"] +:+ " style=" +:+
      dquote ("height:" +:+ strconv.Itoa height +:+ "px") +:+ " aria-hidden=" +:+ dquote "true" +:+ "></div>").

Definition renderColumns : Renderer (Num := Num) := λ b inner _,
  let attrs := Attributes b in
  let classes := ["gn-block-columns";
      "gn-block-columns--cols-" +:+ strconv.Itoa (attrInt attrs "columns" 2)] ++
    flag_if (attrBool attrs "isStackedOnMobile" true) "is-stacked-on-mobile" ++
    class_if (attrString attrs "verticalAlignment" "") "is-vertically-aligned-" in
  Ok ("<div" +:+ classAttr classes +:+ ">" +:+ inner +:+ "</div>").

Definition groupTags : list string :=
  ["div"; "section"; "header"; "footer"; "article"; "aside"; "main"; "nav"].

Definition renderGroup : Renderer (Num := Num) := λ b inner _,
  let attrs := Attributes b in
  let tagName := attrString attrs "tagName" "div" in
  let tagName := if decide (tagName ∈ groupTags) then tagName else "div" in
  let classes := ["gn-block-group"] ++ class_if (attrString attrs "layout" "") "gn-block-group--" in
  Ok ("<" +:+ tagName +:+ classAttr classes +:+ ">" +:+ inner +:+ "</" +:+ tagName +:+ ">").

Definition renderTable : Renderer (Num := Num) := λ b _ _,
  let attrs := Attributes b in
  let caption := attrString attrs "caption" "" in
  let classes := ["gn-block-table"] ++ flag_if (attrBool attrs "striped" false) "is-style-stripes" in
  let cell (v : value Num) := match v with
    | VStr s => "<td>" +:+ escapeText s +:+ "</td>" | _ => "" end in
  let row (v : value Num) := match v with
    | VList cells => "<tr>" +:+ writeAll cell cells +:+ "</tr>" | _ => "" end in
  Ok ("<table" +:+ classAttr classes +:+ ">" +:+
      (if decide (caption = "") then "" else "<caption>" +:+ escapeText caption +:+ "</caption>") +:+
      match get "body" attrs with
      | Some (VList rows) => "<tbody>" +:+ writeAll row rows +:+ "</tbody>"
      | _ => ""
      end +:+ "</table>").

Definition renderGallery : Renderer (Num := Num) := λ b _ _,
  let attrs := Attributes b in
  let classes := ["gn-block-gallery";
    "gn-block-gallery--cols-" +:+ strconv.Itoa (attrInt attrs "columns" 3)] in
  let item (v : value Num) := match v with
    | VMap m =>
        let src := attrString m "src" "" in
        if decide (src = "") then "" else
        "<figure class=" +:+ dquote "gn-block-gallery__item" +:+ ">" +:+
        img src (attrString m "alt" "") +:+ "</figure>"
    | _ => ""
    end in
  Ok ("<div" +:+ classAttr classes +:+ ">" +:+
      match get "images" attrs with Some (VList l) => writeAll item l | _ => "" end +:+ "</div>").

Definition renderVideo : Renderer (Num := Num) := λ b _ _,
  let attrs := Attributes b in
  let src := attrString attrs "src" "" in
  if decide (src = "") then
    Ok ("<figure class=" +:+ dquote "gn-block-video gn-block-video--empty" +:+ "></figure>")
  else
    let flags := flag_if (attrBool attrs "autoplay" false) "autoplay" ++
      flag_if (attrBool attrs "loop" false) "loop" ++
      flag_if (attrBool attrs "muted" false) "muted" ++
      flag_if (attrBool attrs "controls" true) "controls" ++
      flag_if (attrBool attrs "playsInline" false) "playsinline" in
    Ok ("<figure" +:+ classAttr ["gn-block-video"] +:+ "><video src=" +:+
        strconvq.Quote (template.HTMLEscapeString src) +:+
        match flags with [] => "" | _ => " " +:+ strings.Join flags " " end +:+ "></video></figure>").

Definition renderButton : Renderer (Num := Num) := λ b _ _,
  let attrs := Attributes b in
  let classes := ["gn-block-button"] ++ class_if (attrString attrs "style" "") "gn-block-button--" in
  Ok ("<a" +:+ hrefAttr (attrString attrs "url" "") +:+ classAttr classes +:+ ">" +:+
      escapeText (attrString attrs "text" "") +:+ "</a>").

Definition renderFile : Renderer (Num := Num) := λ b _ _,
  let attrs := Attributes b in
  let url := attrString attrs "href" "" in
  if decide (url = "") then
    Ok ("<div class=" +:+ dquote "gn-block-file gn-block-file--empty" +:+ "></div>")
  else
    Ok ("<div" +:+ classAttr ["gn-block-file"] +:+ "><a href=" +:+
        strconvq.Quote (template.HTMLEscapeString url) +:+ " download>" +:+
        escapeText (attrString attrs "fileName" "") +:+ "</a></div>").

Definition renderHTML (SanitizeSVG : string → result string string) : Renderer (Num := Num) := λ b _ _,
  let content := attrString (Attributes b) "content" "" in
  if decide (strings.TrimSpace content = "") then
    Ok ("<div class=" +:+ dquote "gn-block-html gn-block-html--empty" +:+ "></div>")
  else
    match SanitizeSVG content with
    | Err _ => Ok ("<div class=" +:+ dquote "gn-block-html gn-block-html--error" +:+ "></div>")
    | Ok clean => Ok ("<div class=" +:+ dquote "gn-block-html" +:+ ">" +:+ clean +:+ "</div>")
    end.

Definition renderEmbed : Renderer (Num := Num) := λ b _ _,
  let attrs := Attributes b in
  let classes := ["gn-block-embed"] ++ class_if (attrString attrs "provider" "") "gn-block-embed--" in
  Ok ("<figure" +:+ classAttr classes +:+ " data-embed-url=" +:+
      strconvq.Quote (template.HTMLEscapeString (attrString attrs "url" "")) +:+ "></figure>").

Definition entries (SanitizeSVG : string → result string string) : list (string * Renderer (Num := Num)) :=
  [("core/paragraph", renderParagraph); ("core/heading", renderHeading); ("core/list", renderList);
   ("core/image", renderImage); ("core/quote", renderQuote); ("core/code", renderCode);
   ("core/separator", renderSeparator); ("core/spacer", renderSpacer); ("core/columns", renderColumns);
   ("core/group", renderGroup); ("core/table", renderTable); ("core/gallery", renderGallery);
   ("core/video", renderVideo); ("core/button", renderButton); ("core/file", renderFile);
   ("core/embed", renderEmbed); ("core/html", renderHTML SanitizeSVG)].

(** The loop of [RegisterCoreBlocks]: it stops at the first error. *)
Fixpoint registerAll (l : list (string * Renderer (Num := Num))) (reg : Registry (Num := Num)) :
    Registry (Num := Num) * option RegisterError :=
  match l with
  | [] => (reg, None)
  | (name, rend) :: l =>
      match Register name (Some rend) [] [] reg with
      | (reg, Some e) => (reg, Some e)
      | (reg, None) => registerAll l reg
      end
  end.

Definition RegisterCoreBlocks (SanitizeSVG : string → result string string) (reg : Registry (Num := Num)) :
    Registry (Num := Num) * option RegisterError :=
  registerAll (entries SanitizeSVG) reg.
End core.
End core.
