(* ===== verification/BlocksProps.v ===== *)
(** * Properties of block rendering

    The canonical encoding determines the block; the caching walker serves what
    the walker renders; the errors of a walk are the blocks it could not render. *)
From S2P Require Import Prelude GoStrings Hex Json Html Blocks CoreBlocks.
From Stdlib Require Import Ascii.

(** ** Prefix codes

    [f] is a prefix code when no code word starts another. A sequence of code
    words closed by a byte [q] that starts none can be read back. *)
Fixpoint prefixb (s t : string) : bool :=
  match s, t with
  | EmptyString, _ => true
  | String c s, String d t => Ascii.eqb c d && prefixb s t
  | _, _ => false
  end.

Lemma app_prefix s t x y : s +:+ x = t +:+ y → prefixb s t = true ∨ prefixb t s = true.
Proof.
  revert t; induction s as [|c s IH]; intros [|d t]; simpl; [auto..|].
  intros [= <- E]. rewrite Ascii.eqb_refl. simpl. by apply IH.
Qed.

Definition prefix_code (f : ascii → string) : bool :=
  forallb (λ n, forallb (λ m,
    (n =? m) || negb (prefixb (f (ascii_of_nat n)) (f (ascii_of_nat m)))) (seq 0 256)) (seq 0 256).

Lemma prefix_code_spec f c d :
  prefix_code f = true → prefixb (f c) (f d) = true → c = d.
Proof.
  unfold prefix_code. intros H E.
  assert (∀ c, In (nat_of_ascii c) (seq 0 256)) as Hin
    by (intros a; apply in_seq; pose proof (nat_ascii_bounded a); lia).
  rewrite forallb_forall in H. specialize (H _ (Hin c)).
  rewrite forallb_forall in H. specialize (H _ (Hin d)).
  rewrite !ascii_nat_embedding, E, orb_false_r in H.
  apply Nat.eqb_eq in H. rewrite <-(ascii_nat_embedding c), H. apply ascii_nat_embedding.
Qed.

(** [q] starts no code word, and none is empty. *)
Definition closes (f : ascii → string) (q : ascii) : bool :=
  forallb (λ n, match f (ascii_of_nat n) with
                | EmptyString => false
                | String d _ => negb (Ascii.eqb d q)
                end) (seq 0 256).

Lemma closes_spec f q c x :
  closes f q = true → ∃ d w, f c = String d w ∧ d ≠ q ∧ f c +:+ x = String d (w +:+ x).
Proof.
  unfold closes. intros H. pose proof (all_ascii
    (λ c, match f c with EmptyString => false | String d _ => negb (Ascii.eqb d q) end) H c) as Hc.
  simpl in Hc. destruct (f c) as [|d w]; [done|]. exists d, w.
  split_and!; [done| |done]. intros ->. by rewrite Ascii.eqb_refl in Hc.
Qed.

Lemma concat_map_read f q s t x y :
  prefix_code f = true → closes f q = true →
  concat_map f s +:+ String q x = concat_map f t +:+ String q y → s = t ∧ x = y.
Proof.
  intros Hp Hq. revert t; induction s as [|c s IH]; intros [|d t]; simpl.
  - by intros [= ->].
  - destruct (closes_spec f q d (concat_map f t +:+ String q y) Hq) as (e & w & _ & He & E).
    rewrite string_app_assoc, E. by intros [= ->].
  - destruct (closes_spec f q c (concat_map f s +:+ String q x) Hq) as (e & w & _ & He & E).
    rewrite string_app_assoc, E. by intros [= ->].
  - rewrite !string_app_assoc. intros E.
    assert (c = d) as ->.
    { destruct (app_prefix _ _ _ _ E) as [P|P]; [|symmetry]; by apply (prefix_code_spec f). }
    apply string_app_inv_l in E. by destruct (IH _ E) as [-> ->].
Qed.

(** A JSON string can be read back from the text that starts with it. *)
Lemma json_escape_code : prefix_code json.escape = true ∧ closes json.escape "034" = true.
Proof. split; vm_compute; reflexivity. Qed.

Lemma escape_all_concat_map s : json.escape_all s = concat_map json.escape s.
Proof. by induction s as [|c s IH]; simpl; [|rewrite IH]. Qed.

Lemma Quote_read s t x y : json.Quote s +:+ x = json.Quote t +:+ y → s = t ∧ x = y.
Proof.
  unfold json.Quote. rewrite !escape_all_concat_map, !string_app_cons, !string_app_assoc.
  intros [= E]. destruct json_escape_code. eapply concat_map_read; eauto.
Qed.

Lemma Quote_starts s x : ∃ w, json.Quote s +:+ x = String "034" w.
Proof. unfold json.Quote. simpl. eauto. Qed.

(** ** Values *)

(** What encoding/json writes for a finite [float64]: only these characters, at
    least one, and a different text for a different number. *)
Definition num_char (c : ascii) : bool :=
  is_digit c || Ascii.eqb c "-" || Ascii.eqb c "+" || Ascii.eqb c "." ||
  Ascii.eqb c "e" || Ascii.eqb c "E".

Class Float64Laws (Num : Type) `{Float64 Num} := {
  float64_text_inj n n' : float64_text n = float64_text n' → n = n';
  float64_text_chars n : all_chars num_char (float64_text n) = true;
  float64_text_start n : float64_text n ≠ "";
}.

Section value_ind.
Context {Num : Type} (P : value Num → Prop).
Context (HNull : P VNull) (HBool : ∀ b, P (VBool b)) (HNum : ∀ n, P (VNum n)) (HStr : ∀ s, P (VStr s)).
Context (HList : ∀ l, Forall P l → P (VList l)).
Context (HMap : ∀ m, Forall (λ e, P e.2) m → P (VMap m)).

Fixpoint value_ind' (v : value Num) : P v :=
  match v with
  | VNull => HNull
  | VBool b => HBool b
  | VNum n => HNum n
  | VStr s => HStr s
  | VList l => HList l ((fix go l : Forall P l :=
      match l with [] => Forall_nil_2 P | v :: l => Forall_cons_2 P v l (value_ind' v) (go l) end) l)
  | VMap m => HMap m ((fix go m : Forall (λ e, P e.2) m :=
      match m with
      | [] => Forall_nil_2 _
      | e :: m => Forall_cons_2 (λ e, P e.2) e m (value_ind' e.2) (go m)
      end) m)
  end.
End value_ind.

(** A map lists its entries by ascending key, all the way down. *)
Fixpoint ascending (l : list string) : bool :=
  match l with [] => true | x :: l => forallb (String.ltb x) l && ascending l end.

Fixpoint wf_value {Num} (v : value Num) : bool :=
  match v with
  | VList l => forallb wf_value l
  | VMap m => ascending (map fst m) && forallb (λ e, wf_value e.2) m
  | _ => true
  end.

Fixpoint wf_block {Num} (b : Block Num) : bool :=
  wf_value (VMap (Attributes b)) && bool_decide (ClientID b = "") && forallb wf_block (InnerBlocks b).

(** What follows an encoded value: nothing, or a byte that ends it. *)
Definition ends (x : string) : Prop :=
  match x with EmptyString => True | String c _ => c = ","%char ∨ c = "]"%char ∨ c = "}"%char end.

(** [f a] can be read back in front of any end. *)
Definition readable {A} (P : A → Prop) (f : A → string) (a : A) : Prop :=
  ∀ b x y, P b → ends x → ends y → f a +:+ x = f b +:+ y → a = b ∧ x = y.

Definition starts_not {A} (f : A → string) (q : ascii) : Prop :=
  ∀ a, match f a with EmptyString => False | String c _ => c ≠ q end.

Lemma Join_cons {A} (f : A → string) a l z :
  strings.Join (map f (a :: l)) "," +:+ z =
  f a +:+ match l with [] => z | _ => String "," (strings.Join (map f l) "," +:+ z) end.
Proof. destruct l as [|b l]; [done|]. simpl map. by rewrite <-string_app_cons, <-!string_app_assoc. Qed.

Lemma Join_read {A} (P : A → Prop) f (q : ascii) l k x y :
  q = "]"%char ∨ q = "}"%char → starts_not f q →
  Forall (readable P f) l → Forall P k →
  strings.Join (map f l) "," +:+ String q x = strings.Join (map f k) "," +:+ String q y →
  l = k ∧ x = y.
Proof.
  intros Hq Hs Hl. revert k; induction Hl as [|a l Ha Hl IH]; intros k Hk.
  - destruct Hk as [|b k Hb Hk]; [by intros [= ->]|]. rewrite Join_cons. specialize (Hs b).
    destruct (f b); [done|]. intros [= -> _]. done.
  - destruct Hk as [|b k Hb Hk].
    { rewrite Join_cons. specialize (Hs a). destruct (f a); [done|]. intros [= <- _]. done. }
    assert (∀ l' z, ends (match l' with [] => String q z | _ => String "," (strings.Join (map f l') "," +:+ String q z) end))
      as Hends by (intros [|? ?] z; destruct Hq; simpl; auto).
    rewrite !Join_cons. intros E. apply Ha in E as [-> E]; [|done|apply Hends..].
    destruct l as [|a' l], k as [|b' k].
    + by injection E as ->.
    + injection E as E _. destruct Hq; congruence.
    + injection E as E _. destruct Hq; congruence.
    + injection E as E. by destruct (IH _ Hk E) as [-> ->].
Qed.

Section encoding.
Context {Num : Type} `{Float64Laws Num}.
Implicit Types v : value Num.
Import canonical.

Lemma ascending_sorted (m : list (string * string)) :
  ascending (map fst m) = true → sortEntries m = m.
Proof.
  intros Hm. apply sort_by_sorted_id. induction m as [|e m IH]; [constructor|].
  simpl in Hm. apply andb_true_iff in Hm as [He Hm]. constructor; [auto|].
  rewrite forallb_forall in He. apply Forall_forall. intros e' He'.
  apply string_ltb_asym, He, in_map, list_elem_of_In, He'.
Qed.

(** The first byte of an encoded value tells its constructor. *)
Definition tag (c : ascii) : nat :=
  if Ascii.eqb c "n" then 0 else if Ascii.eqb c "t" then 1 else if Ascii.eqb c "f" then 2
  else if Ascii.eqb c "034" then 3 else if Ascii.eqb c "[" then 4 else if Ascii.eqb c "{" then 5
  else if num_char c then 6 else 7.

Definition kind v : nat :=
  match v with
  | VNull => 0 | VBool true => 1 | VBool false => 2 | VStr _ => 3 | VList _ => 4 | VMap _ => 5
  | VNum _ => 6
  end.

Lemma num_char_tag c : num_char c = true → tag c = 6.
Proof.
  intros Hc. pose proof (all_ascii (λ c, negb (num_char c) || (tag c =? 6))) as Ht.
  specialize (Ht ltac:(vm_compute; reflexivity) c). simpl in Ht. rewrite Hc in Ht.
  by apply Nat.eqb_eq in Ht.
Qed.

Lemma writeSortedValue_head v : ∃ c w, writeSortedValue v = String c w ∧ tag c = kind v.
Proof.
  destruct v as [|[]|n|s|l|m]; simpl; [by repeat eexists..| |by repeat eexists|by repeat eexists|by repeat eexists].
  pose proof (float64_text_start n) as Hn. pose proof (float64_text_chars n) as Hc.
  destruct (float64_text n) as [|c w]; [done|]. exists c, w. split; [done|].
  simpl in Hc. apply andb_true_iff in Hc as [Hc _]. by apply num_char_tag.
Qed.

Lemma kind_read v v' x y : writeSortedValue v +:+ x = writeSortedValue v' +:+ y → kind v = kind v'.
Proof.
  destruct (writeSortedValue_head v) as (c & w & -> & <-).
  destruct (writeSortedValue_head v') as (c' & w' & -> & <-). by intros [= -> _].
Qed.

(** A maximal run of number characters. *)
Lemma num_read s t x y :
  all_chars num_char s = true → all_chars num_char t = true → ends x → ends y →
  s +:+ x = t +:+ y → s = t ∧ x = y.
Proof.
  intros Hs Ht Hx Hy. revert t Ht; induction s as [|c s IH]; intros [|d t] Ht E; simpl in Hs, Ht;
    rewrite ?string_app_nil_l, ?string_app_cons in E.
  - done.
  - subst x. simpl in Hx. apply andb_true_iff in Ht as [Ht _]. by destruct Hx as [->|[->| ->]].
  - subst y. simpl in Hy. apply andb_true_iff in Hs as [Hs _]. by destruct Hy as [->|[->| ->]].
  - injection E as -> E. apply andb_true_iff in Hs as [_ Hs], Ht as [_ Ht].
    by destruct (IH Hs t Ht E) as [-> ->].
Qed.

Lemma starts_not_value (q : ascii) : tag q = 7 → starts_not writeSortedValue q.
Proof.
  intros Hq v. destruct (writeSortedValue_head v) as (c & w & -> & Hc). intros ->.
  rewrite Hq in Hc. by destruct v as [|[]| | | |].
Qed.

Definition writeMember (e : string * value Num) : string := writeEntry (e.1, writeSortedValue e.2).

Lemma starts_not_member (q : ascii) : q ≠ "034"%char → starts_not writeMember q.
Proof. intros Hq e. done. Qed.

Lemma writeSortedValue_map m :
  ascending (map fst m) = true →
  writeSortedValue (VMap m) = "{" +:+ strings.Join (map writeMember m) "," +:+ "}".
Proof.
  intros Hm. simpl. rewrite ascending_sorted; [by rewrite map_map|].
  rewrite map_map. exact Hm.
Qed.

Lemma member_readable e :
  readable (λ v, wf_value v = true) writeSortedValue e.2 →
  readable (λ e, wf_value e.2 = true) writeMember e.
Proof.
  destruct e as [k v]. simpl. intros IH [k' v'] x y Hv Hx Hy. simpl in Hv. unfold writeMember, writeEntry. simpl.
  rewrite !string_app_assoc. intros E. apply Quote_read in E as [-> E].
  injection E as E. by apply IH in E as [-> ->].
Qed.

Lemma value_readable v : wf_value v = true → readable (λ v, wf_value v = true) writeSortedValue v.
Proof.
  induction v as [|b|n|s|l IH|m IH] using value_ind'; intros Hv v' x y Hv' Hx Hy E;
    pose proof (kind_read _ _ _ _ E) as K.
  - destruct v' as [|[]| | | |]; try done. by injection E.
  - destruct b, v' as [|[]| | | |]; try done; by injection E.
  - destruct v' as [|[]| | | |]; try done. simpl in E.
    apply num_read in E as [E ->]; [|apply float64_text_chars..|done|done].
    by apply float64_text_inj in E as ->.
  - destruct v' as [|[]| | | |]; try done. by apply Quote_read in E as [-> ->].
  - destruct v' as [|[]| | |l'|]; try done. simpl in E, Hv, Hv'. injection E as E.
    rewrite !string_app_assoc, !string_app_cons, !string_app_nil_l in E.
    apply (Join_read (λ v, wf_value v = true)) in E as [-> ->]; [done|auto|by apply starts_not_value| |].
    + rewrite forallb_forall in Hv. rewrite Forall_forall in IH |- *. intros v Hin.
      apply IH; [done|]. by apply Hv, list_elem_of_In.
    + rewrite forallb_forall in Hv'. apply Forall_forall. intros v Hin. by apply Hv', list_elem_of_In.
  - destruct v' as [|[]| | | |m']; try done. cbn [wf_value] in Hv, Hv'.
    apply andb_true_iff in Hv as [Hm Hv], Hv' as [Hm' Hv'].
    rewrite !writeSortedValue_map in E by done. rewrite !string_app_cons in E.
    injection E as E. rewrite !string_app_nil_l, !string_app_assoc, !string_app_cons, !string_app_nil_l in E.
    apply (Join_read (λ e, wf_value e.2 = true)) in E as [-> ->]; [done|auto|by apply starts_not_member| |].
    + rewrite forallb_forall in Hv. rewrite Forall_forall in IH |- *. intros e Hin.
      apply member_readable, IH; [done|]. by apply Hv, list_elem_of_In.
    + rewrite forallb_forall in Hv'. apply Forall_forall. intros e Hin. by apply Hv', list_elem_of_In.
Qed.
End encoding.

(** ** Blocks *)
Section block_ind.
Context {Num : Type} (P : Block Num → Prop).
Context (HB : ∀ t a l c, Forall P l → P (mkBlock t a l c)).

Fixpoint block_ind' (b : Block Num) : P b :=
  match b with
  | mkBlock t a l c => HB t a l c ((fix go l : Forall P l :=
      match l with [] => Forall_nil_2 P | b :: l => Forall_cons_2 P b l (block_ind' b) (go l) end) l)
  end.
End block_ind.

Section blocks.
Context {Num : Type} `{Float64Laws Num}.
Import canonical.
Local Notation wf b := (wf_block (Num := Num) b = true).

Lemma canonicalEncode_readable (b : Block Num) : wf b → readable (λ b, wf b) canonicalEncode b.
Proof.
  induction b as [t a l c IH] using block_ind'. intros Hb [t' a' l' c'] x y Hb' Hx Hy E.
  cbn [wf_block Attributes InnerBlocks ClientID] in Hb, Hb'.
  rewrite !andb_true_iff, !bool_decide_eq_true in Hb, Hb'.
  destruct Hb as [[Ha ->] Hl], Hb' as [[Ha' ->] Hl'].
  cbn [canonicalEncode Type_ Attributes InnerBlocks] in E.
  rewrite !string_app_assoc in E. apply string_app_inv_l, string_app_inv_l in E.
  apply Quote_read in E as [-> E]. apply string_app_inv_l, string_app_inv_l in E.
  apply value_readable in E as [[= ->] E]; [|done..| |]; [|by destruct l; simpl; auto|by destruct l'; simpl; auto].
  assert (starts_not (A := Block Num) canonicalEncode "]") as Hs by (by intros [????]).
  destruct l as [|b l], l' as [|b' l'].
  - by apply (string_app_inv_l "}") in E as ->.
  - discriminate E.
  - discriminate E.
  - rewrite !string_app_assoc in E. do 3 apply string_app_inv_l in E.
    apply (Join_read (λ b, wf b)) in E as [-> E]; [|auto|done| |].
    + by apply (string_app_inv_l "}") in E as ->.
    + rewrite forallb_forall in Hl. rewrite Forall_forall in IH |- *. intros b0 Hin.
      apply IH; [done|]. by apply Hl, list_elem_of_In.
    + rewrite forallb_forall in Hl'. apply Forall_forall. intros b0 Hin. by apply Hl', list_elem_of_In.
Qed.

Lemma canonicalEncode_eq (b b' : Block Num) : wf b → wf b' → canonicalEncode b = canonicalEncode b' → b = b'.
Proof.
  intros Hb Hb' E. destruct (canonicalEncode_readable b Hb b' "" "" Hb' I I) as [-> _]; [|done].
  by rewrite E.
Qed.
End blocks.

(** ** The walk *)
Import render.

Section walks.
Context {Num : Type}.
Implicit Types (b : Block Num) (ctx : Context (Num := Num)) (w : Walker (Num := Num)).

(** Same HTML, and as many errors: what a walk at another path gives. *)
Definition same (r r' : HTML * list WalkError) : Prop := r.1 = r'.1 ∧ length r.2 = length r'.2.

Lemma walkSiblings_ext (walk walk' : Block Num → string → HTML * list WalkError) pf i l :
  Forall (λ b, ∀ p, walk b p = walk' b p) l → walkSiblings walk pf i l = walkSiblings walk' pf i l.
Proof.
  intros Hl. revert i; induction Hl as [|b l Hb Hl IH]; intros i; [done|]. simpl. by rewrite Hb, IH.
Qed.

Lemma walkSiblings_same (walk : Block Num → string → HTML * list WalkError) pf qf i l :
  Forall (λ b, ∀ p q, same (walk b p) (walk b q)) l →
  same (walkSiblings walk pf i l) (walkSiblings walk qf i l).
Proof.
  intros Hl. revert i; induction Hl as [|b l Hb Hl IH]; intros i; [done|]. simpl.
  specialize (Hb (pf i) (qf i)). specialize (IH (S i)). unfold same in *.
  destruct (walk b (pf i)), (walk b (qf i)), (walkSiblings walk pf _ l), (walkSiblings walk qf _ l).
  simpl in *. rewrite !length_app. destruct Hb as [-> ->], IH as [-> ->]. done.
Qed.

(** The path only locates the errors. *)
Lemma walkBlock_path w b ctx p q : same (walkBlock w b ctx p) (walkBlock w b ctx q).
Proof.
  revert ctx p q. induction b as [t a l c IH] using block_ind'. intros ctx p q. simpl.
  assert (∀ ctx, same
    (walkSiblings (λ child p, walkBlock w child ctx p) (childPath p) 0 l)
    (walkSiblings (λ child p, walkBlock w child ctx p) (childPath q) 0 l)) as Hl.
  { intros ctx'. apply walkSiblings_same. eapply Forall_impl; [exact IH|]. intros b Hb p' q'. apply Hb. }
  destruct (parsePluginBlockType t) as [[slug handler]|], (pluginDispatcher w) as [d|];
    [specialize (Hl ctx); revert Hl|..];
    try (destruct (Get t (registry w)) as [spec|]; [|done];
         specialize (Hl (mergeProvidedContext ctx (mkBlock t a l c) (ProvidesContext spec))); revert Hl);
    (destruct (walkSiblings _ (childPath p) 0 l) as [h e], (walkSiblings _ (childPath q) 0 l) as [h' e'];
     intros [E1 E2]; simpl in E1, E2; subst h'; unfold same;
     match goal with |- context [match ?r with Ok _ => _ | Err _ => _ end] => destruct r end;
     simpl; rewrite ?length_app; simpl; auto).
Qed.

(** No block of the tree that the walk renders reads the context. *)
Fixpoint context_free (reg : Registry (Num := Num)) b : bool :=
  match reg !! Type_ b with
  | None => true
  | Some spec => bool_decide (UsesContext spec = []) && forallb (context_free reg) (InnerBlocks b)
  end.

Lemma filterConsumedContext_nil ctx : filterConsumedContext ctx [] = ∅.
Proof. done. Qed.

Lemma walkBlock_context_free w b ctx ctx' p :
  pluginDispatcher w = None → context_free (registry w) b = true →
  walkBlock w b ctx p = walkBlock w b ctx' p.
Proof.
  intros Hw. revert ctx ctx' p. induction b as [t a l c IH] using block_ind'. intros ctx ctx' p Hb.
  simpl. rewrite Hw. cbn [context_free Type_ InnerBlocks] in Hb.
  destruct (parsePluginBlockType t) as [[slug handler]|];
    (unfold Get; destruct (registry w !! t) as [spec|]; [|done];
     apply andb_true_iff in Hb as [Hu Hb]; apply bool_decide_eq_true in Hu; rewrite Hu;
     rewrite (walkSiblings_ext _ (λ child p, walkBlock w child
       (mergeProvidedContext ctx' (mkBlock t a l c) (ProvidesContext spec)) p)); [done|];
     rewrite forallb_forall in Hb; rewrite Forall_forall in IH |- *; intros b Hin p';
     apply IH; [done|]; by apply Hb, list_elem_of_In).
Qed.
End walks.

(** ** The caching walker *)
Lemma digit_not_colon n : (n < 16)%N → hex.digit_of n ≠ ":"%char.
Proof. intros Hn E. pose proof (hex.value_digit n Hn) as Hv. by rewrite E in Hv. Qed.

Definition not_colon (c : ascii) : bool := negb (Ascii.eqb c ":").

Lemma hex_no_colon s : all_chars not_colon (hex.EncodeToString s) = true.
Proof.
  induction s as [|c s IH]; [done|]. cbn [hex.EncodeToString all_chars].
  pose proof (N_ascii_bounded c) as Hc. unfold not_colon at 1 2.
  rewrite IH, andb_true_r. apply andb_true_intro.
  split; apply negb_true_iff, Ascii.eqb_neq, digit_not_colon.
  - apply N.Div0.div_lt_upper_bound. lia.
  - by apply N.mod_lt.
Qed.

(** The text after the last colon. *)
Lemma after_last_colon s t x y :
  all_chars not_colon x = true → all_chars not_colon y = true →
  s +:+ String ":" x = t +:+ String ":" y → x = y.
Proof.
  assert (∀ s x, all_chars not_colon (s +:+ String ":" x) = false) as Hno.
  { intros s' x'. rewrite all_chars_app. simpl. apply andb_false_r. }
  intros Hx Hy. revert t; induction s as [|c s IH]; intros [|d t];
    rewrite ?string_app_nil_l, ?string_app_cons.
  - by intros [= ->].
  - intros [= _ ->]. by rewrite Hno in Hx.
  - intros [= _ <-]. by rewrite Hno in Hy.
  - intros [= _ E]. eauto.
Qed.

Import cachedrender.

Section cached.
Context {Num : Type} `{Float64Laws Num}.
Context (sha256 : string → string).
Context {C : Type} `{CacheBackendLaws C}.
Implicit Types (b : Block Num) (ctx : Context (Num := Num)).
Local Notation CW := (CachedWalker (Num := Num) (C := C)).
Implicit Types cw : CW.

(** The hash has no collision among the blocks that are rendered. *)
Definition no_collision (D : list (Block Num)) : Prop :=
  ∀ b b', b ∈ D → b' ∈ D →
    sha256 (canonical.canonicalEncode b) = sha256 (canonical.canonicalEncode b') →
    canonical.canonicalEncode b = canonical.canonicalEncode b'.

(** A stored block: in normal form, and no block of it reads the context. *)
Definition plain (reg : Registry (Num := Num)) b : bool := wf_block b && context_free reg b.

Lemma cacheKey_block D cw b b' :
  no_collision D → b ∈ D → b' ∈ D → wf_block b = true → wf_block b' = true →
  cacheKey sha256 cw b = cacheKey sha256 cw b' → b = b'.
Proof.
  intros HD Hb Hb' Hw Hw' E. unfold cacheKey in E.
  apply canonicalEncode_eq; [done..|]. apply (HD b b' Hb Hb').
  apply hex.EncodeToString_inj.
  eapply (after_last_colon (KeyPrefix +:+ version cw +:+ ":" +:+ Type_ b)
            (KeyPrefix +:+ version cw +:+ ":" +:+ Type_ b')); [apply hex_no_colon..|].
  repeat rewrite string_app_assoc. exact E.
Qed.

(** Every entry the cache may return is the rendering of its block. *)
Definition cache_ok (D : list (Block Num)) cw : Prop :=
  ∀ b v, b ∈ D → is_Some (registry (walker cw) !! Type_ b) →
    holds (cache cw) (cacheKey sha256 cw b) v → ∀ ctx p, walkBlock (walker cw) b ctx p = (v, []).

(** What stays as it is while the walker serves. *)
Definition config cw := (walker cw, version cw, ttl cw, extraTags cw).

Lemma cache_ok_weaken D cw cw' :
  cache_ok D cw → config cw' = config cw →
  (∀ k v, holds (cache cw') k v → holds (cache cw) k v) → cache_ok D cw'.
Proof.
  intros Hok [= E1 E2 E3 E4] Hh b v Hb Hs Hv ctx p. rewrite E1 in Hs |- *.
  eapply Hok; [done..|]. apply Hh. unfold cacheKey in *. by rewrite <-E2.
Qed.

Lemma walkBlockCached_ok D cw b ctx p :
  pluginDispatcher (walker cw) = None → no_collision D →
  (∀ b, b ∈ D → plain (registry (walker cw)) b = true) → b ∈ D → cache_ok D cw →
  (walkBlockCached sha256 b ctx p cw).1 = walkBlock (walker cw) b ctx p ∧
  cache_ok D (walkBlockCached sha256 b ctx p cw).2 ∧
  config (walkBlockCached sha256 b ctx p cw).2 = config cw.
Proof.
  intros Hw HD Hplain Hb Hok. unfold walkBlockCached.
  destruct (Get (Type_ b) (registry (walker cw))) as [spec|] eqn:Hspec; [|done].
  destruct (negb (isCacheable spec)); [done|].
  pose proof (Get_hit (cache cw) (cacheKey sha256 cw b) (cacheTags cw b)) as Hhit.
  pose proof (Get_holds (cache cw) (cacheKey sha256 cw b) (cacheTags cw b)) as Hget.
  destruct (cache_Get _ _ _) as [[[cached hit] err] c]. simpl in Hhit, Hget.
  assert (is_Some (registry (walker cw) !! Type_ b)) as Hreg by (exists spec; exact Hspec).
  assert (cache_ok D (set_cache c cw)) as Hok' by (by eapply cache_ok_weaken).
  destruct hit.
  { simpl. rewrite (Hok b cached Hb Hreg (Hhit eq_refl) ctx p). split_and!; [done| |done].
    by eapply cache_ok_weaken. }
  simpl. destruct (walkBlock (walker cw) b ctx p) as [out errs] eqn:Hout.
  destruct errs as [|e errs]; [|split_and!; [done| |done]; by eapply cache_ok_weaken].
  pose proof (Set_holds c (cacheKey sha256 cw b) out (cacheTags cw b) (ttl cw)) as Hset.
  destruct (cache_Set _ _ _ _ _) as [err' c']. simpl in Hset.
  set (cw1 := set_cache c' (set_metrics add_miss (set_cache c cw))).
  assert (cache_ok D cw1) as Hok1.
  { intros b' v Hb' Hreg' Hv ctx' p'. apply Hset in Hv as [Hv|[Hk ->]].
    { by apply (Hok' b' v). }
    change (cacheKey sha256 cw1 b') with (cacheKey sha256 cw b') in Hk. change (walker cw1) with (walker cw).
    pose proof (Hplain b' Hb') as Hp'. pose proof (Hplain b Hb) as Hp.
    apply andb_true_iff in Hp as [Hwf Hfree], Hp' as [Hwf' _].
    apply (cacheKey_block D) in Hk as ->; [|done..].
    rewrite (walkBlock_context_free _ _ ctx' ctx) by done.
    destruct (walkBlock_path (walker cw) b ctx p' p) as [E1 E2].
    rewrite Hout in E1, E2. simpl in E1, E2.
    destruct (walkBlock (walker cw) b ctx p') as [out' [|]]; simpl in *; [by subst|done]. }
  destruct err'; simpl; split_and!; [done| |done|done| |done]; [done|].
  by eapply cache_ok_weaken.
Qed.

Lemma walkRoots_ok D cw tree ctx i :
  pluginDispatcher (walker cw) = None → no_collision D →
  (∀ b, b ∈ D → plain (registry (walker cw)) b = true) → tree ⊆ D → cache_ok D cw →
  (walkRoots sha256 i tree ctx cw).1 =
    walkSiblings (λ b p, walkBlock (walker cw) b ctx p) rootPath i tree ∧
  cache_ok D (walkRoots sha256 i tree ctx cw).2 ∧
  config (walkRoots sha256 i tree ctx cw).2 = config cw.
Proof.
  revert i cw. induction tree as [|b tree IH]; intros i cw Hw HD Hplain Htree Hok; [done|].
  simpl.
  destruct (walkBlockCached_ok D cw b ctx (rootPath i) Hw HD Hplain ltac:(set_solver) Hok) as (E & Hok' & Hc).
  destruct (walkBlockCached _ _ _ _ cw) as [[out errs] cw']. simpl in E, Hok', Hc. rewrite <-E.
  injection Hc as Ew Ev Et Ex.
  destruct (IH (S i) cw') as (E' & Hok'' & Hc'); rewrite ?Ew; [done..|set_solver|done|].
  rewrite Ew in E'. rewrite <-E'. destruct (walkRoots _ _ _ _ cw') as [[html errs'] cw'']. simpl in *.
  split_and!; [done..|]. rewrite Hc'. unfold config. by rewrite Ew, Ev, Et, Ex.
Qed.

Lemma serve_ok D cw reqs :
  pluginDispatcher (walker cw) = None → no_collision D →
  (∀ b, b ∈ D → plain (registry (walker cw)) b = true) → cache_ok D cw →
  (∀ req, req ∈ reqs → req.1 ⊆ D) →
  (serve sha256 reqs cw).1 = map (λ req, render.Walk (walker cw) req.1 req.2) reqs.
Proof.
  intros Hw HD Hplain. revert cw Hw Hplain. induction reqs as [|[tree ctx] reqs IH]; intros cw Hw Hplain Hok Hreqs; [done|].
  simpl. unfold CachedWalker_Walk.
  destruct (walkRoots_ok D cw tree ctx 0 Hw HD Hplain) as (E & Hok' & Hc); [by apply (Hreqs (tree, ctx)); left|done|].
  destruct (walkRoots _ _ _ _ cw) as [[html errs] cw']. simpl in E, Hok', Hc. injection Hc as Ew _ _ _.
  specialize (IH cw'). rewrite Ew in IH. specialize (IH Hw Hplain Hok' ltac:(intros; apply Hreqs; by right)).
  destruct (serve _ _ cw') as [rs cw'']. simpl in IH. simpl. rewrite IH. unfold render.Walk.
  by rewrite <-E.
Qed.
End cached.

(** C16. A caching walker, whatever it has served before, answers every request
    with the HTML and the errors the walker itself would give, as long as no
    block reads the context and the hash has no collision among the blocks. *)
Theorem cached_walks_agree {Num} `{Float64Laws Num} (sha256 : string → string)
    {C} `{CacheBackendLaws C} (reg : Registry (Num := Num)) (opts : CachedWalkerOptions (C := C)) cw
    (reqs : list (BlockTree (Num := Num) * Context (Num := Num))) :
  NewCached reg opts = Ok cw →
  (∀ k v, ¬ holds (cache cw) k v) →
  (∀ req b, req ∈ reqs → b ∈ req.1 → plain reg b = true) →
  no_collision sha256 (concat (map fst reqs)) →
  (serve sha256 reqs cw).1 = map (λ req, render.Walk (New reg) req.1 req.2) reqs.
Proof.
  unfold NewCached. destruct (opt_Cache opts) as [c|]; [|done]. intros [= <-] Hempty Hplain HD.
  apply (serve_ok sha256 (concat (map fst reqs))); [done|done| | |].
  - intros b Hb. apply list_elem_of_In, in_concat in Hb as (tree & Ht & Hb).
    apply in_map_iff in Ht as (req & <- & Hr).
    by apply (Hplain req); apply list_elem_of_In.
  - intros b v _ _ Hv. by apply Hempty in Hv.
  - intros req Hr b Hb. apply list_elem_of_In, in_concat. exists req.1.
    split; [by apply in_map, list_elem_of_In|by apply list_elem_of_In].
Qed.

(** The canonical encoding, which the cache key hashes, determines the block
    tree: types, attributes at every depth and inner blocks. *)
Theorem canonicalEncode_injective {Num} `{Float64Laws Num} (b b' : Block Num) :
  wf_block b = true → wf_block b' = true →
  canonical.canonicalEncode b = canonical.canonicalEncode b' ↔ b = b'.
Proof. intros Hb Hb'. split; [by apply canonicalEncode_eq|by intros ->]. Qed.

(** ** What a walk reports

    [visited w pf l p b]: the walk over the siblings [l] gets to [b], at the path
    [p]; it goes below the blocks it dispatches to a plugin or finds registered. *)
Section reports.
Context {Num : Type}.
Implicit Types (b : Block Num) (w : Walker (Num := Num)).

Definition dispatched w (t : string) : bool :=
  match parsePluginBlockType t, pluginDispatcher w with Some _, Some _ => true | _, _ => false end.

Definition known w (t : string) : bool := dispatched w t || Has t (registry w).

Inductive visited w : (nat → string) → list (Block Num) → string → Block Num → Prop :=
| visit_here pf l i b : l !! i = Some b → visited w pf l (pf i) b
| visit_below pf l i b p c :
    l !! i = Some b → known w (Type_ b) = true →
    visited w (childPath (pf i)) (InnerBlocks b) p c → visited w pf l p c.

(** The error the walk reports for a block of unknown type at [p]. *)
Definition unknown_error (p t : string) : WalkError := mkWalkError p t (ErrUnknownBlockType t).

(** The walk of [b] at [p] reports exactly its unknown blocks. *)
Definition reports w (r : list WalkError) (P : string → Block Num → Prop) : Prop :=
  ∀ q t, unknown_error q t ∈ r ↔ ∃ c, P q c ∧ Type_ c = t ∧ known w t = false.

Definition visited_from w p b (q : string) (c : Block Num) : Prop :=
  q = p ∧ c = b ∨ known w (Type_ b) = true ∧ visited w (childPath p) (InnerBlocks b) q c.

Lemma visited_cons w pf i b l q c :
  visited w (λ n, pf (i + n)) (b :: l) q c ↔
  visited_from w (pf i) b q c ∨ visited w (λ n, pf (S i + n)) l q c.
Proof.
  assert (∀ l0 p0 c0, visited w (λ n, pf (S i + n)) l0 p0 c0 →
    ∀ b0, visited w (λ n, pf (i + n)) (b0 :: l0) p0 c0) as Hshift.
  { intros l0 p0 c0 Hv b0. remember (λ n, pf (S i + n)) as pf' eqn:Hpf.
    destruct Hv as [pf' l' n b' Hn|pf' l' n b' p' c' Hn Hk Hv]; subst pf'.
    - replace (S i + n) with (i + S n) by lia. by apply (visit_here w (λ n, pf (i + n)) (b0 :: l') (S n)).
    - apply (visit_below w (λ n, pf (i + n)) _ (S n) b'); [done..|].
      replace (i + S n) with (S i + n) by lia. done. }
  split.
  - intros Hv. remember (λ n, pf (i + n)) as pf' eqn:Hpf. remember (b :: l) as l' eqn:Hl.
    destruct Hv as [pf' l' n b' Hn|pf' l' n b' p' c' Hn Hk Hv]; subst pf' l'; destruct n as [|n]; simpl in Hn.
    + injection Hn as <-. left; left. by rewrite Nat.add_0_r.
    + right. replace (i + S n) with (S i + n) by lia.
      apply (visit_here w (λ n, pf (S i + n))). exact Hn.
    + injection Hn as <-. left; right. rewrite Nat.add_0_r in Hv. done.
    + right. apply (visit_below w (λ n, pf (S i + n)) _ n b'); [done..|].
      replace (S i + n) with (i + S n) by lia. done.
  - intros [[[-> ->]|[Hk Hv]]|Hv]; [| |by apply Hshift].
    + replace (pf i) with (pf (i + 0)) by (f_equal; lia). by apply (visit_here w (λ n, pf (i + n)) (b :: l) 0).
    + apply (visit_below w (λ n, pf (i + n)) _ 0 b); [done..|]. by rewrite Nat.add_0_r.
Qed.

Lemma visited_nil w pf q c : ¬ visited w pf [] q c.
Proof. intros Hv. remember [] as l eqn:Hl. by destruct Hv; subst. Qed.

Lemma walkSiblings_reports w (walk : Block Num → string → HTML * list WalkError) pf i l :
  Forall (λ b, ∀ p, reports w (walk b p).2 (visited_from w p b)) l →
  reports w (walkSiblings walk pf i l).2 (visited w (λ n, pf (i + n)) l).
Proof.
  intros Hl. revert i; induction Hl as [|b l Hb Hl IH]; intros i q t.
  - simpl. split; [by intros ?%not_elem_of_nil|]. intros (c & Hv & _). by apply visited_nil in Hv.
  - simpl. specialize (Hb (pf i) q t). specialize (IH (S i) q t).
    destruct (walk b (pf i)) as [out errs], (walkSiblings walk pf (S i) l) as [html errs'].
    simpl in *. rewrite elem_of_app, Hb, IH. setoid_rewrite visited_cons. naive_solver.
Qed.

Lemma visited_pf w (pf pf' : nat → string) l q c :
  (∀ n, pf n = pf' n) → visited w pf l q c ↔ visited w pf' l q c.
Proof.
  assert (∀ pf pf' : nat → string, (∀ n, pf n = pf' n) → visited w pf l q c → visited w pf' l q c) as Hdir.
  { intros f f' E Hv. destruct Hv as [f l i b Hi|f l i b p c Hi Hk Hv].
    - rewrite E. by apply visit_here.
    - rewrite E in Hv. by eapply visit_below. }
  intros E. split; apply Hdir; auto.
Qed.

Lemma reports_ext w r (P Q : string → Block Num → Prop) :
  (∀ q c, P q c ↔ Q q c) → reports w r P → reports w r Q.
Proof. intros E HP q t. rewrite (HP q t). by setoid_rewrite E. Qed.

Lemma walkBlock_reports w b ctx p : reports w (walkBlock w b ctx p).2 (visited_from w p b).
Proof.
  revert ctx p. induction b as [t a l c IH] using block_ind'. intros ctx p.
  assert (∀ ctx, reports w
    (walkSiblings (λ child p, walkBlock w child ctx p) (childPath p) 0 l).2
    (visited w (childPath p) l)) as Hl.
  { intros ctx'. eapply reports_ext;
      [|apply (walkSiblings_reports w _ (childPath p) 0); eapply Forall_impl; [exact IH|auto]].
    intros q c'. by apply visited_pf. }
  assert (∀ errs h r, reports w errs (visited w (childPath p) l) → known w t = true →
    reports w (match r with
      | Ok out => (out, errs) : HTML * list WalkError
      | Err e => (h e, errs ++ [mkWalkError p t (ErrRenderer e)])
      end).2 (visited_from w p (mkBlock t a l c))) as Hfin.
  { intros errs h r He Hk q t'. unfold visited_from. simpl.
    assert (unknown_error q t' ∈ errs ↔ ∃ c0,
      (q = p ∧ c0 = mkBlock t a l c ∨ known w t = true ∧ visited w (childPath p) l q c0) ∧
      Type_ c0 = t' ∧ known w t' = false) as He'.
    { rewrite (He q t'). split; [naive_solver|]. intros (c0 & [[-> ->]|[_ Hv]] & <- & Hn); [|eauto].
      simpl in Hn. congruence. }
    destruct r as [out|e]; simpl; [done|]. rewrite elem_of_app, He', list_elem_of_singleton.
    split; [intros [?|[=]]; done|auto]. }
  simpl. unfold known, dispatched, Has, Get in *. simpl in Hfin.
  destruct (parsePluginBlockType t) as [[slug handler]|] eqn:Ep, (pluginDispatcher w) as [d|] eqn:Ed;
    [specialize (Hl ctx);
     destruct (walkSiblings _ (childPath p) 0 l) as [h e]; apply Hfin; [exact Hl|done]|..];
    (destruct (registry w !! t) as [spec|] eqn:Hs;
    [specialize (Hl (mergeProvidedContext ctx (mkBlock t a l c) (ProvidesContext spec)));
     destruct (walkSiblings _ (childPath p) 0 l) as [h e]; apply Hfin; [exact Hl|done]|]);
    (intros q t'; simpl; rewrite list_elem_of_singleton; unfold visited_from, known, dispatched, Has; simpl;
     rewrite ?Ep, ?Ed, ?Hs; split;
     [intros [= -> ->]; exists (mkBlock t a l c); rewrite ?Ep, ?Ed, ?Hs; auto
     |intros (c0 & [[-> ->]|[[=] _]] & <- & _); done]).
Qed.
End reports.

(** The unknown blocks of a tree are reported exactly: an error for an unknown
    type stands at a path if and only if the walk gets there and the type is
    neither registered nor dispatched to a plugin. *)
Theorem Walk_reports_unknown {Num} (w : Walker (Num := Num)) tree ctx p t :
  mkWalkError p t (ErrUnknownBlockType t) ∈ Errors (render.Walk w tree ctx) ↔
  ∃ b, visited w rootPath tree p b ∧ Type_ b = t ∧ known w t = false.
Proof.
  assert (reports w (Errors (render.Walk w tree ctx)) (visited w rootPath tree)) as Hr; [|apply Hr].
  unfold render.Walk.
  pose proof (walkSiblings_reports w (λ b p, walkBlock w b ctx p) rootPath 0 tree) as Hr.
  destruct (walkSiblings _ rootPath 0 tree) as [html errs]. apply Hr.
  apply Forall_forall. intros b _ q. apply walkBlock_reports.
Qed.

(** ** The core blocks *)

(** Integers as JSON numbers, for the examples. *)
#[export] Instance Z_float64 : Float64 Z := { float64_text := strconv.Itoa; float64_int z := z }.

Lemma Itoa_text z : all_chars num_char (strconv.Itoa z) = true ∧ strconv.Itoa z ≠ "".
Proof.
  destruct (decide (0 ≤ z)%Z) as [Hz|Hz].
  - destruct (Itoa_digits z Hz) as (Hd & _ & Hn). split; [|done].
    apply (all_chars_impl is_digit); [|done]. intros c Hc. unfold num_char. by rewrite Hc.
  - destruct z as [|p|p]; [lia..|]. change (strconv.Itoa (Z.neg p)) with (String "-" (strconv.Itoa (Z.pos p))).
    split; [|done]. cbn [all_chars]. destruct (Itoa_digits (Z.pos p) ltac:(lia)) as (Hd & _ & _).
    simpl. apply (all_chars_impl is_digit); [|done]. intros c Hc. unfold num_char. by rewrite Hc.
Qed.

#[export] Instance Z_float64_laws : Float64Laws Z.
Proof.
  split.
  - intros n n'. unfold float64_text. simpl. unfold strconv.Itoa. by intros ?%(inj _).
  - intros n. apply Itoa_text.
  - intros n. apply Itoa_text.
Qed.

Section core.
Context {Num : Type} `{Float64 Num} (SanitizeSVG : string → result string string).
Implicit Types reg : Registry (Num := Num).

(** The registry a start-up seeds. *)
Definition core_registry : Registry (Num := Num) := (core.RegisterCoreBlocks SanitizeSVG NewRegistry).1.

Lemma core_registers : (core.RegisterCoreBlocks SanitizeSVG NewRegistry (Num := Num)).2 = None.
Proof. vm_compute. reflexivity. Qed.

Lemma registerAll_specs l reg t spec :
  (core.registerAll l reg).1 !! t = Some spec →
  reg !! t = Some spec ∨ UsesContext spec = [] ∧ ProvidesContext spec = [] ∧ (t, Render spec) ∈ l.
Proof.
  revert reg; induction l as [|[name rend] l IH]; intros reg; simpl; [auto|].
  unfold Register. destruct (decide (name = "")); [simpl; auto|].
  destruct (reg !! name) as [s|]; [simpl; auto|].
  intros Ht. apply IH in Ht as [Ht|(? & ? & ?)]; [|right; split_and!; [done..|by right]].
  apply (lookup_insert_Some (M := gmap string)) in Ht as [[<- <-]|[_ Ht]]; [|auto]. right. split_and!; [done..|left].
Qed.

Lemma core_spec t spec : core_registry !! t = Some spec → UsesContext spec = [] ∧ ProvidesContext spec = [] ∧ (t, Render spec) ∈ core.entries SanitizeSVG.
Proof.
  intros Ht. apply registerAll_specs in Ht as [Ht|?]; [|done].
  discriminate Ht.
Qed.

(** No core block reads the context. *)
Lemma core_context_free b : context_free core_registry b = true.
Proof.
  induction b as [t a l c IH] using block_ind'. cbn [context_free Type_ InnerBlocks].
  destruct (core_registry !! t) as [spec|] eqn:E; [|done]. apply core_spec in E as (-> & _ & _). simpl.
  apply forallb_forall. rewrite Forall_forall in IH. intros b Hb. by apply IH, list_elem_of_In.
Qed.

(** No core renderer fails. *)
Lemma core_renders name rend b inner ctx :
  (name, rend) ∈ core.entries SanitizeSVG → ∃ html, rend b inner ctx = Ok html.
Proof.
  unfold core.entries. intros Hin.
  repeat (apply elem_of_cons in Hin as [[= -> ->]|Hin];
    [cbv beta delta [core.renderParagraph core.renderHeading core.renderList core.renderImage core.renderQuote
       core.renderCode core.renderSeparator core.renderSpacer core.renderColumns core.renderGroup
       core.renderTable core.renderGallery core.renderVideo core.renderButton core.renderFile
       core.renderEmbed core.renderHTML] zeta; repeat (case_decide || case_match); eauto|]).
  by apply not_elem_of_nil in Hin.
Qed.
End core.

(** ** Examples *)
Definition para (t : string) : Block Z := mkBlock "core/paragraph" [("content", VStr t)] [] "".
Definition grp (l : list (Block Z)) : Block Z := mkBlock "core/group" [("layout", VStr "flow")] l "".

Definition no_svg : string → result string string := Err.
Definition core_reg : Registry (Num := Z) := core_registry no_svg.

Definition opts0 : CachedWalkerOptions (C := gmap string string) := mkOptions (Some ∅) "v1" 0 ["site"].
Definition cw0 : CachedWalker (Num := Z) (C := gmap string string) :=
  match NewCached core_reg opts0 with Ok cw => cw | Err _ => mkCached (New ∅) ∅ "" 0 [] (mkMetrics 0 0 0 0) end.

Definition post : list (Block Z) := [para "a"; grp [para "b"; para "a"]; mkBlock "x/y" [] [] ""; para "a"].
Definition reqs0 : list (BlockTree (Num := Z) * Context (Num := Z)) := [(post, ∅); (post, {[ "id" := VNum 3%Z ]})].

(** The identity has no collision. *)
Lemma cached_walks_agree_witness :
  (serve (λ s, s) reqs0 cw0).1 = map (λ req, render.Walk (New core_reg) req.1 req.2) reqs0.
Proof.
  apply (cached_walks_agree (λ s, s) core_reg opts0 cw0 reqs0).
  - unfold cw0, NewCached, opts0. simpl. reflexivity.
  - intros k v Hk. unfold cw0, NewCached, opts0 in Hk. simpl in Hk.
    discriminate Hk.
  - intros req b Hr Hb. unfold plain. unfold core_reg. rewrite core_context_free, andb_true_r.
    assert (Forall (λ r, Forall (λ b, wf_block b = true) r.1) reqs0) as Hall
      by (repeat constructor).
    rewrite Forall_forall in Hall. specialize (Hall req Hr). rewrite Forall_forall in Hall. auto.
  - intros b b' _ _ E. exact E.
Defined.

(** A repeated paragraph and the second request are served from the cache. *)
Lemma cached_walks_hits :
  metrics (serve (λ s, s) reqs0 cw0).2 = mkMetrics 4 2 2 0.
Proof. vm_compute. reflexivity. Qed.

Lemma canonicalEncode_injective_witness :
  canonical.canonicalEncode (grp [para "b"]) = canonical.canonicalEncode (grp [para "b"]) ↔
  grp [para "b"] = grp [para "b"].
Proof. apply canonicalEncode_injective; vm_compute; reflexivity. Defined.

(** A wrapper that neither provides nor uses context, around a block that uses
    it: the caching walker serves the second page the text of the first. *)
Definition wrap_spec : BlockSpec (Num := Z) := mkBlockSpec (λ _ inner _, Ok inner) [] [].
Definition id_spec : BlockSpec (Num := Z) :=
  mkBlockSpec (λ _ _ ctx, Ok (match ctx !! "id" with Some (VStr s) => s | _ => "" end)) [] ["id"].
Definition ctx_reg : Registry (Num := Z) := <["wrap" := wrap_spec]> (<["id" := id_spec]> ∅).
Definition page : list (Block Z) := [mkBlock "wrap" [] [mkBlock "id" [] [] ""] ""].
Definition page_reqs : list (BlockTree (Num := Z) * Context (Num := Z)) :=
  [(page, {[ "id" := VStr "one" ]}); (page, {[ "id" := VStr "two" ]})].

Lemma cached_walk_stale :
  map HTML_ (serve (λ s, s) page_reqs (mkCached (New ctx_reg) (∅ : gmap string string) "v1" hour [] (mkMetrics 0 0 0 0))).1 =
    ["one"; "one"] ∧
  map (λ req, HTML_ (render.Walk (New ctx_reg) req.1 req.2)) page_reqs = ["one"; "two"].
Proof. vm_compute. done. Qed.

(** [%q] is not HTML quoting: the backslash before a quote does not keep the
    attribute open. *)
Lemma classAttr_breakout :
  core.renderParagraph (mkBlock "core/paragraph" [("align", VStr (String "034" " onclick=alert(1) x="))] [] "" : Block Z) "" ∅ =
  Ok ("<p class=" +:+ String "034" ("gn-block-paragraph has-text-align-\" +:+
      String "034" (" onclick=alert(1) x=" +:+ String "034" "></p>"))).
Proof. vm_compute. reflexivity. Qed.
