(* ===== verification/Fragment.v ===== *)
(** * The fragment cache and its invalidation (cache/fragment, cache/invalidator)

    A fragment is stored with the versions its tags had; invalidating a tag
    counts its version up. The bytes of the entries are strings, the tag
    counters decimal numbers in Redis. *)
From S2P Require Import Prelude GoStrings Redis.
From Stdlib Require Import Ascii.

(** [INCR]: nothing for a value that is no decimal number. *)
Class RedisCounters (R : Type) := { INCR : R → Z → string → option R }.

Definition incr_entry (e : option entry) : option entry :=
  match e with
  | None => Some (RStr "1", None)
  | Some (RStr s, w) =>
      match strconv.Atoi s with
      | Some n => if (n <? int64_max)%Z then Some (RStr (strconv.Itoa (n + 1)), w) else None
      | None => None
      end
  | Some _ => None
  end.

Class RedisCountersLaws (R : Type) `{RedisLaws R} `{!RedisCounters R} := {
  view_INCR r now k :
    match INCR r now k, incr_entry (live_at now (view r k)) with
    | Some r', Some e => ∀ k', view r' k' = if decide (k = k') then Some e else view r k'
    | None, None => True
    | _, _ => False
    end;
}.

#[export] Instance memory_counters : RedisCounters (gmap string Redis.entry) := {
  INCR r now k :=
    match incr_entry (live_at now (r !! k)) with Some e => Some (<[k := e]> r) | None => None end;
}.

#[export] Instance memory_counters_laws : RedisCountersLaws (gmap string Redis.entry).
Proof.
  split. intros r now k. simpl. destruct (incr_entry _) as [e|]; [|done].
  intros k'. destruct (decide (k = k')) as [->|Hne]; [apply lookup_insert_eq|by apply lookup_insert_ne].
Qed.

Module fragment.
(** [binary.LittleEndian.PutUint32] and [PutUint64]: [n] bytes. *)
Fixpoint PutUint (n : nat) (z : Z) : string :=
  match n with
  | O => ""
  | S n => String (ascii_of_N (Z.to_N (z mod 256))) (PutUint n (z / 256))
  end.

Fixpoint Uint (s : string) : Z :=
  match s with EmptyString => 0 | String c s => Z.of_N (N_of_ascii c) + 256 * Uint s end.

Definition KeyPrefix : string := "gnf:f:".
Definition TagVersionPrefix : string := "gnf:tv:".
Definition DefaultTTL : Duration := hour.
Definition MaxTagsPerEntry : nat := 32.
Definition MaxValueBytes : nat := Z.to_nat (2 ^ 20).

Definition headerSize : nat := 4.
Definition versionSize : nat := 8.

Definition encodeEntry (versions : list Z) (value : string) : string :=
  PutUint headerSize (Z.of_nat (length versions) mod 2 ^ 32) +:+
  foldr (λ v s, PutUint versionSize (v mod 2 ^ 64) +:+ s) value versions.

Definition decodeEntry (raw : string) : option (list Z * string) :=
  if String.length raw <? headerSize then None else
  let n := Uint (String.substring 0 headerSize raw) in
  if (Z.of_nat MaxTagsPerEntry <? n)%Z then None else
  let n := Z.to_nat n in
  let need := headerSize + n * versionSize in
  if String.length raw <? need then None else
  Some (map (λ i, wrap64 (Uint (String.substring (headerSize + i * versionSize) versionSize raw))) (seq 0 n),
        strings.drop need raw).

Inductive error :=
| ErrKeyRequired | ErrValueTooLarge | ErrTooManyTags | ErrRedis | ErrNoOutbox | ErrOutbox.

Section fragment.
Context {R : Type} `{Redis R} `{!RedisCounters R}.

(** The counter parsed digit by digit; anything else reads as 0. *)
Fixpoint parseVersion (n : Z) (s : string) : Z :=
  match s with
  | EmptyString => n
  | String c s =>
      match Ascii.is_nat c with
      | Some d => parseVersion (wrap64 (wrap64 (n * 10) + Z.of_nat d)) s
      | None => 0%Z
      end
  end.

(** [readTagVersions]: one MGET; a missing counter is 0. [up]: Redis answers. *)
Definition readTagVersions (up : bool) (now : Z) (tags : list string) (r : R) : result error (list Z) :=
  if decide (tags = []) then Ok [] else
  if up then
    Ok (map (λ t, match GET r now (TagVersionPrefix +:+ t) with
                  | None => 0%Z | Some s => parseVersion 0 s end) tags)
  else Err ErrRedis.

(** [Get]: [Ok None] is a clean miss. [up1], [up2]: Redis answers the GET and
    the MGET. *)
Definition Get (up1 up2 : bool) (now : Z) (key : string) (tags : list string) (r : R) :
    result error (option string) :=
  if decide (key = "") then Err ErrKeyRequired else
  if negb up1 then Err ErrRedis else
  match GET r now (KeyPrefix +:+ key) with
  | None => Ok None
  | Some raw =>
      match decodeEntry raw with
      | None => Ok None
      | Some (captured, value) =>
          if decide (length captured ≠ length tags) then Ok None else
          if decide (tags = []) then Ok (Some value) else
          match readTagVersions up2 now tags r with
          | Err e => Err e
          | Ok live => if decide (captured = live) then Ok (Some value) else Ok None
          end
      end
  end.

(** [Set] up to the tag versions, and from there: other commands may come
    between the two. *)
Definition Set_versions (up : bool) (now : Z) (key value : string) (tags : list string) (r : R) :
    result error (list Z) :=
  if decide (key = "") then Err ErrKeyRequired else
  if MaxValueBytes <? String.length value then Err ErrValueTooLarge else
  if MaxTagsPerEntry <? length tags then Err ErrTooManyTags else
  readTagVersions up now tags r.

Definition Set_store (up : bool) (now : Z) (key value : string) (versions : list Z) (ttl : Duration) (r : R) :
    R * option error :=
  let ttl := if (ttl <=? 0)%Z then DefaultTTL else ttl in
  if up then (SETPX r now (KeyPrefix +:+ key) (encodeEntry versions value) (formatMs ttl), None)
  else (r, Some ErrRedis).

Definition Set_ (up1 up2 : bool) (now : Z) (key value : string) (tags : list string) (ttl : Duration) (r : R) :
    R * option error :=
  match Set_versions up1 now key value tags r with
  | Err e => (r, Some e)
  | Ok versions => Set_store up2 now key value versions ttl r
  end.

(** [ApplyInvalidation] *)
Definition ApplyInvalidation (up : bool) (now : Z) (tag : string) (r : R) : R * option error :=
  let tag := strings.TrimSpace tag in
  if decide (tag = "") then (r, None) else
  if up then
    match INCR r now (TagVersionPrefix +:+ tag) with
    | Some r => (r, None)
    | None => (r, Some ErrRedis)
    end
  else (r, Some ErrRedis).
End fragment.

(** ** Purge and the outbox table *)
Record row := mkRow { row_id : Z; plugin_slug : string; row_tag : string; consumed_at : option Time }.

(** The tags [Purge] writes: trimmed, non-empty, each once, in order. *)
Definition purge_tags (tags : list string) : list string :=
  reverse (foldl (λ acc t, let t := strings.TrimSpace t in
    if decide (t = "" ∨ t ∈ acc) then acc else t :: acc) [] tags).

(** [PgOutboxWriter.WriteInvalidations]: one row per tag, ids from [next]. *)
Definition WriteInvalidations (up : bool) (slug : string) (tags : list string) (rows : list row) (next : Z) :
    list row * option error :=
  if decide (slug = "") then (rows, Some ErrOutbox) else
  if decide (tags = []) then (rows, None) else
  if up then
    (rows ++ zip_with (λ i t, mkRow (next + Z.of_nat i) slug t None) (seq 0 (length tags)) tags, None)
  else (rows, Some ErrOutbox).

(** [outbox]: one is configured. *)
Definition Purge (outbox up : bool) (tags : list string) (rows : list row) (next : Z) : list row * option error :=
  if negb outbox then (rows, Some ErrNoOutbox) else
  if decide (tags = []) then (rows, None) else
  match purge_tags tags with
  | [] => (rows, None)
  | filtered => WriteInvalidations up "gnf" filtered rows next
  end.
End fragment.

(** ** The worker that drains the outbox, and the subscriber *)
Module invalidator.
Import fragment.

Definition DefaultBatchSize : nat := 256.

Definition payload (p : row) : string := plugin_slug p +:+ ":" +:+ row_tag p.

(** [SELECT … WHERE consumed_at IS NULL ORDER BY id LIMIT n FOR UPDATE SKIP
    LOCKED]; [locked]: another worker has the row. *)
Definition select_pending (locked : Z → bool) (batchSize : nat) (rows : list row) : list row :=
  take batchSize (sort_by (λ x y, (row_id x <? row_id y)%Z)
    (filter (λ p, consumed_at p = None ∧ locked (row_id p) = false) rows)).

Definition mark (now : Time) (ids : list Z) (rows : list row) : list row :=
  map (λ p, if decide (row_id p ∈ ids) then mkRow (row_id p) (plugin_slug p) (row_tag p) (Some now) else p) rows.

(** One transaction of [drainOnce]. [published id]: PUBLISH succeeds for the
    row; [commit]: the UPDATE and the COMMIT do. The messages go out in any
    case; the rows are marked only on commit. *)
Definition drainOnce (locked published : Z → bool) (commit : bool) (now : Time) (batchSize : nat) (rows : list row) :
    (list row * list string) * option nat :=
  let batch := select_pending locked batchSize rows in
  let sent := filter (λ p, published (row_id p) = true) batch in
  let msgs := map payload sent in
  if decide (batch = []) then ((rows, []), Some 0)
  else if commit then ((mark now (map row_id sent) rows, msgs), Some (length sent))
  else ((rows, msgs), None).

(** [splitPayload] cuts at the first colon. *)
Definition splitPayload (p : string) : option (string * string) := strings.Cut p ":".

(** [dispatch]: every handler, in order of registration; an error of one is
    logged and the next still runs. *)
Definition dispatch {W} (handlers : list (string → string → W → W * option error)) (p : string) (w : W) : W :=
  match splitPayload p with
  | None => w
  | Some (slug, tag) => foldl (λ w h, (h slug tag w).1) w handlers
  end.
End invalidator.
