(* ===== verification/FragmentProps.v ===== *)
(** * Properties of the fragment cache

    Entries decode to what was stored; a hit is never older than the last
    invalidation of its tags; the cache is a byte cache of the block walker. *)
From S2P Require Import Prelude GoStrings Redis Fragment Blocks.
From Stdlib Require Import Ascii.
Import fragment.

(** ** Entries *)
Lemma length_PutUint n z : String.length (PutUint n z) = n.
Proof. revert z; induction n as [|n IH]; intros z; simpl; auto. Qed.

Lemma Uint_PutUint n z : (0 ≤ z < 256 ^ Z.of_nat n)%Z → Uint (PutUint n z) = z.
Proof.
  revert z; induction n as [|n IH]; intros z Hz; [simpl in *; lia|].
  rewrite Nat2Z.inj_succ, Z.pow_succ_r in Hz by lia. simpl.
  pose proof (Z.mod_pos_bound z 256 ltac:(lia)) as Hm.
  rewrite N_ascii_embedding, Z2N.id by (try apply N2Z.inj_lt; rewrite ?Z2N.id; lia).
  rewrite IH; [pose proof (Z.div_mod z 256); lia|].
  split; [apply Z.div_pos; lia|]. apply Z.div_lt_upper_bound; lia.
Qed.

Lemma wrap64_mod z : in_int64 z → wrap64 (z mod 2 ^ 64) = z.
Proof.
  unfold wrap64, in_int64, int64_min, int64_max. intros Hz.
  rewrite Zplus_mod_idemp_l. rewrite Z.mod_small by lia. lia.
Qed.

Lemma substring_app_l s t : String.substring 0 (String.length s) (s +:+ t) = s.
Proof.
  induction s as [|c s IH]; simpl; [by destruct t|]. rewrite ?string_app_cons. simpl. by rewrite IH.
Qed.

Lemma substring_app_r s t i n :
  String.substring (String.length s + i) n (s +:+ t) = String.substring i n t.
Proof. induction s as [|c s IH]; simpl; [done|]. by rewrite ?string_app_cons. Qed.

Lemma drop_plus_app s t n : strings.drop (String.length s + n) (s +:+ t) = strings.drop n t.
Proof. induction s as [|c s IH]; simpl; [done|]. by rewrite ?string_app_cons. Qed.

Definition versions_of (n i : nat) (raw : string) : list Z :=
  map (λ i, wrap64 (Uint (String.substring (i * versionSize) versionSize raw))) (seq i n).

Lemma read_versions vs v :
  Forall in_int64 vs →
  let raw := foldr (λ v s, PutUint versionSize (v mod 2 ^ 64) +:+ s) v vs in
  versions_of (length vs) 0 raw = vs ∧ strings.drop (length vs * versionSize) raw = v ∧
  String.length raw = length vs * versionSize + String.length v.
Proof.
  induction 1 as [|x vs Hx Hvs IH]; [done|]. cbn [foldr length] in IH |- *.
  destruct IH as (IH1 & IH2 & IH3). set (raw := foldr _ v vs) in *.
  set (hd := PutUint versionSize (x mod 2 ^ 64)).
  assert (String.length hd = versionSize) as Hlen by apply length_PutUint.
  assert (Uint hd = (x mod 2 ^ 64)%Z) as Hhd by (apply Uint_PutUint, Z.mod_pos_bound; lia).
  rewrite Nat.mul_succ_l, Nat.add_comm, string_length_app, IH3, Hlen.
  split_and!; [|by rewrite <-Hlen, drop_plus_app|lia].
  unfold versions_of. cbn [seq map]. f_equal.
  - rewrite Nat.mul_0_l, <-Hlen, substring_app_l, Hhd. by apply wrap64_mod.
  - rewrite <-IH1 at 2. unfold versions_of. rewrite <-seq_shift, map_map. apply map_ext. intros i.
    rewrite Nat.mul_succ_l, Nat.add_comm, <-Hlen. by rewrite substring_app_r.
Qed.

(** A stored entry reads back as it was written. *)
Lemma decode_encode vs v :
  Forall in_int64 vs → length vs ≤ MaxTagsPerEntry → decodeEntry (encodeEntry vs v) = Some (vs, v).
Proof.
  intros Hvs Hn. unfold encodeEntry, decodeEntry, MaxTagsPerEntry in *.
  destruct (read_versions vs v Hvs) as (E1 & E2 & E3). set (raw := foldr _ v vs) in *.
  set (hd := PutUint headerSize (Z.of_nat (length vs) mod 2 ^ 32)).
  assert (String.length hd = headerSize) as Hhd by apply length_PutUint.
  assert (Uint (String.substring 0 headerSize (hd +:+ raw)) = Z.of_nat (length vs)) as Hcount.
  { rewrite <-Hhd at 1. rewrite substring_app_l. unfold hd. rewrite Uint_PutUint; [apply Z.mod_small; lia|].
    apply Z.mod_pos_bound. lia. }
  rewrite Hcount, string_length_app, Hhd, E3.
  destruct (Nat.ltb_spec (headerSize + (length vs * versionSize + String.length v)) headerSize); [lia|].
  destruct (Z.ltb_spec (Z.of_nat 32) (Z.of_nat (length vs))); [lia|].
  rewrite Nat2Z.id.
  destruct (Nat.ltb_spec (headerSize + (length vs * versionSize + String.length v))
    (headerSize + length vs * versionSize)); [lia|].
  do 2 f_equal.
  - rewrite <-E1 at 2. unfold versions_of. apply map_ext. intros i.
    rewrite <-Hhd at 1. by rewrite substring_app_r.
  - by rewrite <-Hhd, drop_plus_app.
Qed.

(** ** Counters *)
Lemma digits_ge acc s z : (0 ≤ acc)%Z → strconv.digits acc s = Some z → (acc ≤ z)%Z.
Proof.
  revert acc; induction s as [|c s IH]; intros acc Hacc; simpl; [by intros [= ->]|].
  destruct (Ascii.is_nat c) as [d|]; [|done]. intros Hz. apply IH in Hz; lia.
Qed.

Lemma parseVersion_digits acc s z :
  (0 ≤ acc)%Z → strconv.digits acc s = Some z → (z ≤ int64_max)%Z → parseVersion acc s = z.
Proof.
  revert acc; induction s as [|c s IH]; intros acc Hacc; simpl; [by intros [= ->]|].
  destruct (Ascii.is_nat c) as [d|]; [|done]. intros Hz Hmax.
  pose proof (digits_ge (10 * acc + Z.of_nat d) s z ltac:(lia) Hz) as Hge. unfold int64_max in Hmax.
  rewrite (wrap64_id (acc * 10)) by (unfold in_int64, int64_min, int64_max; lia).
  rewrite wrap64_id by (unfold in_int64, int64_min, int64_max; lia).
  apply IH; [lia| |done]. rewrite <-Hz. f_equal. lia.
Qed.

Lemma parseVersion_Itoa z : (0 ≤ z ≤ int64_max)%Z → parseVersion 0 (strconv.Itoa z) = z.
Proof.
  intros Hz. destruct (Itoa_digits z) as (_ & Hd & _); [lia|]. apply parseVersion_digits; [lia|done|lia].
Qed.

Lemma parseVersion_int64 acc s : in_int64 acc → in_int64 (parseVersion acc s).
Proof.
  revert acc; induction s as [|c s IH]; intros acc Hacc; simpl; [done|].
  destruct (Ascii.is_nat c); [apply IH, wrap64_range|unfold in_int64, int64_min, int64_max; lia].
Qed.

(** ** Histories

    The commands of a history come from any number of Set calls, each in its two
    parts, and invalidations, interleaved in any way; [up] tells whether Redis
    answers. The newest command is first. *)
Inductive cmd :=
| CBegin (id : nat) (up : bool) (now : Z) (key value : string) (tags : list string)
| CFinish (id : nat) (up : bool) (now : Z) (ttl : Duration)
| CInvalidate (up : bool) (now : Z) (tag : string).

(** The Set calls that have read their versions: key, value, versions. *)
Definition pending : Type := gmap nat (string * string * list Z).

Section histories.
Context {R : Type} `{RedisCountersLaws R} (r0 : R).

Definition step (c : cmd) (w : R * pending) : R * pending :=
  let (r, p) := w in
  match c with
  | CBegin id up now key value tags =>
      match Set_versions up now key value tags r with
      | Ok vs => (r, <[id := (key, value, vs)]> p)
      | Err _ => (r, delete id p)
      end
  | CFinish id up now ttl =>
      match p !! id with
      | Some (key, value, vs) => ((Set_store up now key value vs ttl r).1, delete id p)
      | None => (r, p)
      end
  | CInvalidate up now tag => ((ApplyInvalidation up now tag r).1, p)
  end.

Definition run (h : list cmd) : R * pending := foldr step (r0, ∅) h.

(** How often [tag] was invalidated. *)
Definition invalidates (tag : string) (c : cmd) : Prop :=
  match c with
  | CInvalidate up _ t => up = true ∧ strings.TrimSpace t = tag ∧ tag ≠ ""
  | _ => False
  end.
#[export] Instance invalidates_dec tag c : Decision (invalidates tag c).
Proof. destruct c; simpl; apply _. Defined.

Definition count (tag : string) (h : list cmd) : nat := length (filter (invalidates tag) h).
Definition counts (tags : list string) (h : list cmd) : list Z := map (λ t, Z.of_nat (count t h)) tags.

Lemma count_app tag h k : count tag (h ++ k) = count tag h + count tag k.
Proof. unfold count. by rewrite filter_app, length_app. Qed.

Lemma count_le tag h : count tag h ≤ length h.
Proof. apply length_filter. Qed.

(** The stored counters count. *)
Definition counters_ok (r : R) (h : list cmd) : Prop :=
  ∀ tag, view r (TagVersionPrefix +:+ tag) =
    if decide (count tag h = 0) then None else Some (RStr (strconv.Itoa (Z.of_nat (count tag h))), None).

(** [vs] are the versions [tags] had when the Set of [v] under [key] read them. *)
Definition captured (h : list cmd) (key v : string) (vs : list Z) : Prop :=
  ∃ new old id up now tags, h = new ++ CBegin id up now key v tags :: old ∧
    vs = counts tags old ∧ length tags ≤ MaxTagsPerEntry.

Definition entries_ok (r : R) (h : list cmd) : Prop :=
  ∀ key raw w, view r (KeyPrefix +:+ key) = Some (RStr raw, w) →
    ∃ vs v, raw = encodeEntry vs v ∧ captured h key v vs.

Definition pending_ok (p : pending) (h : list cmd) : Prop :=
  ∀ id key v vs, p !! id = Some (key, v, vs) → captured h key v vs.

Lemma captured_cons h c key v vs : captured h key v vs → captured (c :: h) key v vs.
Proof.
  intros (new & old & id & up & now & tags & -> & ? & ?). by exists (c :: new), old, id, up, now, tags.
Qed.

Lemma prefixes_differ a b : TagVersionPrefix +:+ a ≠ KeyPrefix +:+ b.
Proof. by intros [=]. Qed.

Lemma live_version (r : R) h tags now :
  counters_ok r h → (Z.of_nat (length h) ≤ int64_max)%Z →
  map (λ t, match GET r now (TagVersionPrefix +:+ t) with
            | None => 0%Z | Some s => parseVersion 0 s end) tags = counts tags h.
Proof.
  intros Hc Hlen. apply map_ext. intros t. rewrite view_GET, (Hc t).
  pose proof (count_le t h). case_decide as E; simpl; [by rewrite E|].
  apply parseVersion_Itoa. lia.
Qed.

Lemma readTagVersions_counts (r : R) h up now tags vs :
  counters_ok r h → (Z.of_nat (length h) ≤ int64_max)%Z →
  readTagVersions up now tags r = Ok vs → vs = counts tags h.
Proof.
  intros Hc Hlen. unfold readTagVersions. case_decide as E; [by subst; intros [= <-]|].
  destruct up; [|done]. rewrite (live_version r h) by done. by intros [= <-].
Qed.

Lemma counters_ok_irrelevant (r : R) h c :
  (∀ tag, ¬ invalidates tag c) → counters_ok r h → counters_ok r (c :: h).
Proof.
  intros Hn Hc tag. rewrite Hc. unfold count. rewrite filter_cons_False by done. done.
Qed.

Lemma incr_counter n :
  (Z.of_nat n < int64_max)%Z →
  incr_entry (if decide (n = 0) then None else Some (RStr (strconv.Itoa (Z.of_nat n)), None)) =
  Some (RStr (strconv.Itoa (Z.of_nat (S n))), None).
Proof.
  intros Hn. case_decide as E; [by rewrite E|]. cbn [incr_entry]. rewrite Atoi_Itoa by lia.
  destruct (Z.ltb_spec (Z.of_nat n) int64_max); [|lia].
  by replace (Z.of_nat n + 1)%Z with (Z.of_nat (S n)) by lia.
Qed.

Lemma live_counter (n : nat) now :
  live_at now (if decide (n = 0) then None else Some (RStr (strconv.Itoa (Z.of_nat n)), None)) =
  if decide (n = 0) then None else Some (RStr (strconv.Itoa (Z.of_nat n)), None).
Proof. by case_decide. Qed.

Lemma step_invalidate (r : R) h up now tag p :
  counters_ok r h → entries_ok r h → pending_ok p h → (Z.of_nat (length h) < int64_max)%Z →
  let c := CInvalidate up now tag in
  counters_ok (ApplyInvalidation up now tag r).1 (c :: h) ∧
  entries_ok (ApplyInvalidation up now tag r).1 (c :: h) ∧ pending_ok p (c :: h).
Proof.
  intros Hc He Hp Hlen c. split_and!; [| |intros id key v vs Hid; by eapply captured_cons, Hp].
  - unfold ApplyInvalidation. remember (strings.TrimSpace tag) as t eqn:Ht0.
    case_decide as Ht; [apply counters_ok_irrelevant; [|done]; intros t' (_ & E & ?); congruence|].
    destruct up; [|apply counters_ok_irrelevant; [|done]; by intros t' (? & _)].
    pose proof (view_INCR r now (TagVersionPrefix +:+ t)) as Hv. pose proof (count_le t h).
    rewrite Hc, live_counter, incr_counter in Hv by lia.
    destruct (INCR r now _) as [r'|]; [|done]. simpl. intros t'. rewrite Hv.
    unfold count. destruct (decide (t = t')) as [<-|Hne].
    + rewrite decide_True by done. rewrite filter_cons_True by (simpl; auto). done.
    + rewrite decide_False by (intros E; by apply string_app_inv_l in E).
      rewrite filter_cons_False by (intros (_ & E & _); congruence). apply Hc.
  - intros key raw w Hv. destruct (He key raw w) as (vs & v & -> & Hcap); [|by exists vs, v; eauto using captured_cons].
    revert Hv. unfold ApplyInvalidation. case_decide; [done|]. destruct up; [|done].
    set (t := strings.TrimSpace tag).
    pose proof (view_INCR r now (TagVersionPrefix +:+ t)) as Hi. pose proof (count_le t h).
    rewrite Hc, live_counter, incr_counter in Hi by lia.
    destruct (INCR r now _) as [r'|]; [|done]. simpl. rewrite Hi.
    by rewrite decide_False by apply prefixes_differ.
Qed.

Lemma ttl_pos ttl : (0 < if (ttl <=? 0)%Z then DefaultTTL else ttl)%Z.
Proof. destruct (Z.leb_spec ttl 0); [vm_compute; reflexivity|lia]. Qed.

Lemma step_store (r : R) h up now ttl id key v vs p :
  counters_ok r h → entries_ok r h → pending_ok p h → captured h key v vs →
  let c := CFinish id up now ttl in
  counters_ok (Set_store up now key v vs ttl r).1 (c :: h) ∧
  entries_ok (Set_store up now key v vs ttl r).1 (c :: h) ∧ pending_ok (delete id p) (c :: h).
Proof.
  intros Hc He Hp Hcap c. subst c. split_and!.
  - apply counters_ok_irrelevant; [by intros ? []|]. intros tag. unfold Set_store. destruct up; [|apply Hc]. simpl.
    rewrite view_SETPX_ne; [apply Hc|]. intros E. by apply (prefixes_differ tag key).
  - intros key' raw w. unfold Set_store. destruct up; simpl.
    2: { intros Hv. destruct (He _ _ _ Hv) as (vs' & v' & -> & ?). exists vs', v'. eauto using captured_cons. }
    destruct (decide (key = key')) as [<-|Hne].
    + rewrite view_SETPX by apply formatMs_pos, ttl_pos.
      intros [= <- _]. exists vs, v. eauto using captured_cons.
    + rewrite view_SETPX_ne by (intros E; by apply string_app_inv_l in E).
      intros Hv. destruct (He _ _ _ Hv) as (vs' & v' & -> & ?). exists vs', v'. eauto using captured_cons.
  - intros id' key' v' vs' Hid. apply lookup_delete_Some in Hid as [_ Hid]. by eapply captured_cons, Hp.
Qed.

Lemma Set_versions_Ok (r : R) up now key value tags vs :
  Set_versions up now key value tags r = Ok vs →
  readTagVersions up now tags r = Ok vs ∧ length tags ≤ MaxTagsPerEntry.
Proof.
  unfold Set_versions. case_decide; [done|]. destruct (_ <? String.length _); [done|].
  destruct (Nat.ltb_spec MaxTagsPerEntry (length tags)); [done|]. auto.
Qed.

Lemma step_begin (r : R) h id up now key value tags p :
  counters_ok r h → entries_ok r h → pending_ok p h → (Z.of_nat (length h) ≤ int64_max)%Z →
  let c := CBegin id up now key value tags in
  counters_ok r (c :: h) ∧ entries_ok r (c :: h) ∧ pending_ok (step c (r, p)).2 (c :: h).
Proof.
  intros Hc He Hp Hlen c. subst c. split_and!.
  - apply counters_ok_irrelevant; [by intros ? []|done].
  - intros key' raw w Hv. destruct (He _ _ _ Hv) as (vs' & v' & -> & ?). exists vs', v'. eauto using captured_cons.
  - simpl. destruct (Set_versions up now key value tags r) as [vs|e] eqn:Hr; simpl; intros id' key' v' vs' Hid.
    2: { apply lookup_delete_Some in Hid as [_ Hid]. by eapply captured_cons, Hp. }
    apply lookup_insert_Some in Hid as [[<- [= <- <- <-]]|[_ Hid]]; [|by eapply captured_cons, Hp].
    apply Set_versions_Ok in Hr as [Hr Hn]. apply (readTagVersions_counts _ h) in Hr as ->; [|done..].
    by exists [], h, id, up, now, tags.
Qed.

Lemma run_ok h :
  (∀ k, view r0 k = None) → (Z.of_nat (length h) ≤ int64_max)%Z →
  counters_ok (run h).1 h ∧ entries_ok (run h).1 h ∧ pending_ok (run h).2 h.
Proof.
  intros H0'. induction h as [|c h IH]; intros Hlen.
  - split_and!; [by intros tag; simpl; rewrite H0'|intros key raw w; simpl; by rewrite H0'|done].
  - cbn [run foldr]. fold (run h). simpl in Hlen. destruct IH as (Hc & He & Hp); [lia|].
    destruct (run h) as [r p]. simpl in Hc, He, Hp. destruct c as [id up now key value tags|id up now ttl|up now tag].
    + destruct (step_begin r h id up now key value tags p) as (?&?&?); [done|done|done|lia|].
      simpl in *. destruct (Set_versions up now key value tags r); done.
    + simpl. destruct (p !! id) as [[[key v] vs]|] eqn:Hid; [apply step_store; eauto|]. simpl. split_and!.
      * apply counters_ok_irrelevant; [by intros ? []|done].
      * intros key raw w Hv. destruct (He _ _ _ Hv) as (vs' & v' & -> & ?). exists vs', v'. eauto using captured_cons.
      * intros id' key' v' vs' Hid'. by eapply captured_cons, Hp.
    + apply step_invalidate; [done|done|done|lia].
Qed.

Lemma int64_counts tags h : (Z.of_nat (length h) ≤ int64_max)%Z → Forall in_int64 (counts tags h).
Proof.
  intros Hlen. apply Forall_forall. intros z Hz. apply list_elem_of_In, in_map_iff in Hz as (t & <- & _).
  pose proof (count_le t h). unfold in_int64, int64_min in *. lia.
Qed.

Lemma live_str now e :
  match live_at now e with Some (RStr v, _) => Some v | _ => None end = None ∨
  ∃ raw w, e = Some (RStr raw, w) ∧ match live_at now e with Some (RStr v, _) => Some v | _ => None end = Some raw.
Proof.
  destruct e as [[[raw|ms] [w|]]|]; simpl; [destruct (w <? now)%Z|..|destruct (w <? now)%Z| |]; auto;
    right; by exists raw; eexists.
Qed.

Lemma Get_hit_view (r : R) up1 up2 now key tags v :
  Get up1 up2 now key tags r = Ok (Some v) →
  ∃ raw w captured, view r (KeyPrefix +:+ key) = Some (RStr raw, w) ∧ decodeEntry raw = Some (captured, v) ∧
    length captured = length tags ∧ (tags ≠ [] → readTagVersions up2 now tags r = Ok captured).
Proof.
  unfold Get. case_decide; [done|]. destruct up1; [cbn [negb]|done]. rewrite view_GET.
  destruct (live_str now (view r (KeyPrefix +:+ key))) as [->|(raw & w & -> & ->)]; [done|].
  destruct (decodeEntry raw) as [[vs value]|] eqn:Hd; [|done].
  case_decide as Hl; [done|].
  case_decide as Ht; [intros [= <-]; by exists raw, w, vs|].
  destruct (readTagVersions up2 now tags r) as [live|] eqn:Hr; [|done].
  case_decide; [|done]. intros [= <-]. subst. by exists raw, w, live.
Qed.

Lemma count_old new c old tag :
  count tag old = count tag (new ++ c :: old) → ∀ d, d ∈ new → ¬ invalidates tag d.
Proof.
  rewrite count_app. unfold count at 3. intros E d Hd Hi.
  assert (count tag new = 0) as Hz by (revert E; rewrite filter_cons; case_decide; simpl; unfold count; lia).
  unfold count in Hz. apply length_zero_iff_nil in Hz.
  assert (d ∈ filter (invalidates tag) new) as Hin by by apply list_elem_of_filter.
  rewrite Hz in Hin. by apply not_elem_of_nil in Hin.
Qed.

Lemma hit_fresh h up1 up2 now key tags v :
  (∀ k, view r0 k = None) → (Z.of_nat (length h) ≤ int64_max)%Z →
  Get up1 up2 now key tags (run h).1 = Ok (Some v) →
  ∃ new id up t tags' old, h = new ++ CBegin id up t key v tags' :: old ∧ length tags' = length tags ∧
    (tags' = tags → ∀ tag c, tag ∈ tags → c ∈ new → ¬ invalidates tag c).
Proof.
  intros H0' Hlen HG. destruct (run_ok h H0' Hlen) as (Hc & He & _).
  apply Get_hit_view in HG as (raw & w & cap & Hv & Hd & Hn & Hr).
  apply He in Hv as (vs & v' & -> & new & old & id & up & t & tags' & -> & -> & Hmax).
  rewrite decode_encode in Hd; [| |by unfold counts; rewrite length_map].
  2: { apply int64_counts. rewrite length_app in Hlen. simpl in Hlen. lia. }
  injection Hd as <- <-. exists new, id, up, t, tags', old. unfold counts in Hn. rewrite length_map in Hn.
  split_and!; [done..|]. intros -> tag c Htag.
  destruct (decide (tags = [])) as [->|Hne]; [by apply not_elem_of_nil in Htag|].
  specialize (Hr Hne). apply (readTagVersions_counts _ _ up2 now tags _ Hc Hlen) in Hr.
  apply (count_old new (CBegin id up t key v' tags) old). apply list_elem_of_lookup in Htag as [i Hi].
  apply (f_equal (λ l : list Z, l !! i)) in Hr. unfold counts in Hr.
  rewrite !list_lookup_fmap, Hi in Hr. injection Hr as Hr. by apply Nat2Z.inj.
Qed.
End histories.

(** C19. A fragment is never served stale: whatever Set calls and invalidations are
    interleaved, a hit gives the value of a Set of that key, with as many tags;
    and when the tags are the same, none of them has been invalidated since
    that Set read their versions. *)
Theorem fragment_fresh {R} `{RedisCountersLaws R} (r0 : R) h up1 up2 now key tags v :
  (∀ k, view r0 k = None) → (Z.of_nat (length h) ≤ int64_max)%Z →
  Get up1 up2 now key tags (run r0 h).1 = Ok (Some v) →
  ∃ new id up t tags' old, h = new ++ CBegin id up t key v tags' :: old ∧ length tags' = length tags ∧
    (tags' = tags → ∀ tag c, tag ∈ tags → c ∈ new → ¬ invalidates tag c).
Proof. apply hit_fresh. Qed.

Definition h0 : list cmd :=
  [CFinish 0 true 5 0; CInvalidate true 4 "menu"; CBegin 0 true 3 "k" "html" ["site"]; CInvalidate true 1 " site "].

Lemma fragment_fresh_witness :
  ∃ new id up t tags' old, h0 = new ++ CBegin id up t "k" "html" tags' :: old ∧ length tags' = 1 ∧
    (tags' = ["site"] → ∀ tag c, tag ∈ ["site"] → c ∈ new → ¬ invalidates tag c).
Proof.
  apply (fragment_fresh (∅ : gmap string Redis.entry) h0 true true 6 "k" ["site"] "html").
  - intros k. reflexivity.
  - vm_compute. discriminate.
  - vm_compute. reflexivity.
Defined.

(** The entry expires, and an invalidation after the versions were read makes
    the stored entry stale at once; with the other order the old value passes
    for fresh. *)
Lemma set_after_invalidation :
  let get h := Get true true 6 "k" ["site"] (run (∅ : gmap string Redis.entry) h).1 in
  get [CFinish 0 true 5 0; CInvalidate true 4 "site"; CBegin 0 true 3 "k" "old" ["site"]] = Ok None ∧
  get [CFinish 0 true 5 0; CBegin 0 true 4 "k" "old" ["site"]; CInvalidate true 3 "site"] = Ok (Some "old").
Proof. vm_compute. done. Qed.

(** A Get with other tags is a hit when their versions agree. *)
Lemma other_tags_hit :
  Get true true 6 "k" ["b"] (run (∅ : gmap string Redis.entry)
    [CFinish 0 true 5 0; CBegin 0 true 4 "k" "v" ["a"]]).1 = Ok (Some "v").
Proof. vm_compute. done. Qed.

(** ** The byte cache of the block walker

    One connection: the store, and how many commands were sent; [clock] gives the
    time of each in milliseconds and [up] whether it is answered. *)
Record conn (R : Type) := mkConn { store : R; sent : nat }.
Arguments mkConn {R}.
Arguments store {R}.
Arguments sent {R}.

Section backend.
Context {R : Type} `{RedisCountersLaws R} (clock : nat → Z) (up : nat → bool).

Definition error_text (e : error) : string :=
  match e with
  | ErrKeyRequired => "fragment: key is required"
  | ErrValueTooLarge => "fragment: value exceeds MaxValueBytes"
  | ErrTooManyTags => "fragment: tag count exceeds MaxTagsPerEntry"
  | ErrRedis => "fragment: redis"
  | ErrNoOutbox => "fragment: Purge: no outbox writer configured"
  | ErrOutbox => "fragment: WriteInvalidations"
  end.

Definition fragment_cache : CacheBackend (conn R) := {|
  cache_Get c key tags :=
    let n := sent c in
    (match Get (up n) (up (S n)) (clock n) key tags (store c) with
     | Ok (Some v) => (v, true, None)
     | Ok None => ("", false, None)
     | Err e => ("", false, Some (error_text e))
     end, mkConn (store c) (S (S n)));
  cache_Set c key v tags ttl :=
    let n := sent c in
    let (r, err) := Set_ (up n) (up (S n)) (clock n) key v tags ttl (store c) in
    (option_map error_text err, mkConn r (S (S n)));
|}.

(** The values an entry of the key decodes to. *)
Definition fragment_holds (c : conn R) (key v : string) : Prop :=
  ∃ raw w vs, view (store c) (KeyPrefix +:+ key) = Some (RStr raw, w) ∧ decodeEntry raw = Some (vs, v).

Lemma readTagVersions_int64 b now tags (r : R) vs :
  readTagVersions b now tags r = Ok vs → Forall in_int64 vs ∧ length vs = length tags.
Proof.
  unfold readTagVersions. case_decide as E; [subst; by intros [= <-]|]. destruct b; [|done].
  intros [= <-]. rewrite length_map. split; [|done]. apply Forall_forall. intros z Hz.
  apply list_elem_of_In, in_map_iff in Hz as (t & <- & _).
  destruct (GET r now _); [apply parseVersion_int64|]; unfold in_int64, int64_min, int64_max; lia.
Qed.

#[export] Instance fragment_cache_laws : @CacheBackendLaws (conn R) fragment_cache.
Proof.
  refine (@Build_CacheBackendLaws _ fragment_cache fragment_holds _ _ _).
  - intros c key tags. simpl. destruct (Get _ _ _ key tags (store c)) as [[v|]|e] eqn:E; [|done..].
    intros _. apply Get_hit_view in E as (raw & w & vs & ? & ? & _). by exists raw, w, vs.
  - intros c key tags k v. simpl. done.
  - intros c key v tags ttl k' v'. simpl. unfold Set_.
    destruct (Set_versions _ _ key v tags (store c)) as [vs|e] eqn:E; [|by left].
    apply Set_versions_Ok in E as [E Hn]. apply readTagVersions_int64 in E as [Hvs Hl].
    unfold Set_store. destruct (up (S (sent c))); [|by left].
    intros (raw & w & vs' & Hv & Hd). simpl in Hv. destruct (decide (key = k')) as [<-|Hne].
    + rewrite view_SETPX in Hv by apply formatMs_pos, ttl_pos. injection Hv as <- <-.
      rewrite decode_encode in Hd by (done || by rewrite Hl). injection Hd as <- <-. by right.
    + rewrite view_SETPX_ne in Hv by (intros E; by apply string_app_inv_l in E).
      left. by exists raw, w, vs'.
Qed.
End backend.

(** ** The invalidation outbox *)
Import invalidator.


Lemma select_pending_In locked n rows p :
  p ∈ select_pending locked n rows → p ∈ rows ∧ consumed_at p = None ∧ locked (row_id p) = false.
Proof.
  unfold select_pending. intros Hp.
  assert (p ∈ sort_by (λ x y, (row_id x <? row_id y)%Z)
    (filter (λ p, consumed_at p = None ∧ locked (row_id p) = false) rows)) as Hq.
  { revert Hp. set (l := sort_by _ _). rewrite <-(take_drop n l) at 2. rewrite elem_of_app. auto. }
  rewrite sort_by_Permutation in Hq. apply list_elem_of_filter in Hq as [? ?]. tauto.
Qed.

(** A drain consumes nothing it has not published, and a committed drain consumes
    whatever it published: every invalidation is published at least once. *)
Lemma drainOnce_delivers locked published commit now n rows rows' msgs res :
  NoDup (map row_id rows) →
  drainOnce locked published commit now n rows = ((rows', msgs), res) →
  length rows' = length rows ∧
  ∀ i p p', rows !! i = Some p → rows' !! i = Some p' →
    (p' = p ∨ payload p ∈ msgs ∧ p' = mkRow (row_id p) (plugin_slug p) (row_tag p) (Some now)) ∧
    (commit = true → p ∈ select_pending locked n rows → published (row_id p) = true →
     consumed_at p' = Some now).
Proof.
  intros Hnd. unfold drainOnce. set (batch := select_pending locked n rows).
  set (out := filter (λ p, published (row_id p) = true) batch).
  case_decide as Hb.
  { intros [= <- <- _]. split; [done|]. intros i p p' Hp Hp'. simplify_eq. split; [auto|].
    rewrite Hb. by intros _ ?%not_elem_of_nil. }
  destruct commit; intros [= <- <- _]; (split; [unfold mark; by rewrite ?length_map|]); intros i p p' Hp Hp'.
  2: { simplify_eq. split; [auto|done]. }
  unfold mark in Hp'. rewrite list_lookup_fmap, Hp in Hp'. injection Hp' as <-.
  assert (∀ q, q ∈ out → q ∈ rows) as Hin.
  { intros q Hq. apply list_elem_of_filter in Hq as [_ Hq]. by apply select_pending_In in Hq as []. }
  case_decide as Hid.
  - split; [|done]. right. split; [|done].
    apply list_elem_of_In, in_map_iff in Hid as (q & Eq & Hq). apply list_elem_of_In in Hq.
    pose proof (Hin q Hq) as Hq'. apply list_elem_of_lookup in Hq' as [j Hj].
    assert (i = j) as <-.
    { eapply (NoDup_lookup _ _ _ (row_id p)); [exact Hnd|by rewrite list_lookup_fmap, Hp|].
      rewrite list_lookup_fmap, Hj. simpl. by rewrite Eq. }
    simplify_eq. by apply list_elem_of_In, in_map, list_elem_of_In.
  - split; [by left|]. intros _ Hp' Hpub. exfalso. apply Hid.
    apply list_elem_of_In, in_map, list_elem_of_In, list_elem_of_filter. done.
Qed.

(** The subscriber gets back the slug and the tag, colons of the tag included. *)
Lemma splitPayload_payload p :
  all_chars (not_char ":") (plugin_slug p) = true →
  splitPayload (payload p) = Some (plugin_slug p, row_tag p).
Proof. intros Hs. by apply Cut_char. Qed.
