(* ===== verification/Reusable.v ===== *)
(** * Reusable blocks (blocks/reusable)

    The in-memory store of entries and the resolver that splices referenced
    entries into a page. Decoding JSON into a struct and parsing a UUID are the
    interface [Decoding]; raw JSON stays a string. *)
From S2P Require Import Prelude GoStrings Json.
From Stdlib Require Import Ascii.

Module reusable.
Definition RefBlockType : string := "core/block".
Definition MissingBlockType : string := "core/missing".

Inductive BlockNode := mkNode {
  Type_ : string;
  Attributes : string;
  InnerBlocks : list BlockNode;
  ClientID : string;
}.

(** [ref_member attrs]: the [ref] string of a JSON object, empty when absent,
    nothing when it does not decode; [content] decodes an array of blocks. *)
Class Decoding (UUID : Type) := {
  Nil : UUID;
  Parse : string → option UUID;
  String_ : UUID → string;
  ref_member : string → option string;
  content : string → option (list BlockNode);
}.

Section reusable.
Context {UUID : Type} `{Countable UUID} `{Decoding UUID}.

Record Entry := mkEntry {
  ID : UUID;
  Name : string;
  Attrs : string;
  Content : string;
  CreatedAt : Time;
  UpdatedAt : Time;
}.

Record ListFilter := mkFilter { NameContains : string; Limit : Z; Before : Time }.

Inductive error := ErrInvalidEntry | ErrNotFound | ErrStore.

(** ** The memory store *)
Definition MemoryStore : Type := gmap UUID Entry.

Definition validate (e : Entry) : bool :=
  negb (bool_decide (Name e = "")) && (String.length (Name e) <=? 256) &&
  (bool_decide (Attrs e = "") || json.Valid (Attrs e)) &&
  (bool_decide (Content e = "") || json.Valid (Content e)).

(** [fresh] is what [uuid.New] returns, [now] the clock. *)
Definition Create (fresh : UUID) (now : Time) (e : Entry) (s : MemoryStore) : MemoryStore * result error Entry :=
  if negb (validate e) then (s, Err ErrInvalidEntry) else
  let id := if decide (ID e = Nil) then fresh else ID e in
  let e := mkEntry id (Name e)
    (if decide (Attrs e = "") then "{}" else Attrs e)
    (if decide (Content e = "") then "[]" else Content e)
    (if is_zero (CreatedAt e) then now else CreatedAt e) now in
  (<[id := e]> s, Ok e).

Definition Get (id : UUID) (s : MemoryStore) : result error Entry :=
  match s !! id with Some e => Ok e | None => Err ErrNotFound end.

Definition Update (now : Time) (e : Entry) (s : MemoryStore) : MemoryStore * result error Entry :=
  if negb (validate e) then (s, Err ErrInvalidEntry) else
  if decide (ID e = Nil) then (s, Err ErrInvalidEntry) else
  match s !! ID e with
  | None => (s, Err ErrNotFound)
  | Some x =>
      let x := mkEntry (ID x) (Name e)
        (if decide (Attrs e = "") then Attrs x else Attrs e)
        (if decide (Content e = "") then Content x else Content e)
        (CreatedAt x) now in
      (<[ID e := x]> s, Ok x)
  end.

Definition Delete (id : UUID) (s : MemoryStore) : MemoryStore := delete id s.

(** The bytes of [p] in front of [s], letters folded. *)
Fixpoint foldPrefix (s p : string) : bool :=
  match p, s with
  | EmptyString, _ => true
  | String b p, String a s => Ascii.eqb (strings.lower a) (strings.lower b) && foldPrefix s p
  | _, EmptyString => false
  end.

Fixpoint containsFold (s sub : string) : bool :=
  foldPrefix s sub || match s with EmptyString => false | String _ s => containsFold s sub end.

(** The order of [List]: latest first, then by the text of the id. *)
Definition listed_before (x y : Entry) : bool :=
  if (CreatedAt x =? CreatedAt y)%Z then String.ltb (String_ (ID x)) (String_ (ID y))
  else time_after (CreatedAt x) (CreatedAt y).

Definition matches (f : ListFilter) (e : Entry) : bool :=
  (bool_decide (NameContains f = "") || containsFold (Name e) (NameContains f)) &&
  (is_zero (Before f) || time_before (CreatedAt e) (Before f)).

Definition List_ (f : ListFilter) (s : MemoryStore) : list Entry :=
  let out := sort_by listed_before (filter (λ e, matches f e = true) (map snd (map_to_list s))) in
  let limit := if (Limit f <=? 0)%Z then 50%Z else Limit f in
  let limit := if (200 <? limit)%Z then 200%Z else limit in
  take (Z.to_nat limit) out.

Definition GetMany (ids : list UUID) (s : MemoryStore) : list Entry :=
  omap (λ id, s !! id) ids.

(** ** The resolver *)
Definition maxResolveDepth : nat := 64.

Definition extractRef (attrs : string) : option UUID :=
  if decide (attrs = "") then None else
  match ref_member attrs with
  | None => None
  | Some ref => if decide (ref = "") then None else Parse ref
  end.

Definition missingNode (reason : string) : BlockNode :=
  mkNode MissingBlockType
    ("{" +:+ json.Quote "reason" +:+ ":" +:+ json.Quote reason +:+ "}") [] "".

Definition is_ref (n : BlockNode) : bool := bool_decide (Type_ n = RefBlockType).

(** The ids to fetch for one frame: each once, in order, not the visited ones. *)
Definition collect_refs (visited : gset UUID) (tree : list BlockNode) : list UUID :=
  (foldl (λ '(refs, seen) n,
    if is_ref n then
      match extractRef (Attributes n) with
      | None => (refs, seen)
      | Some id =>
          if decide (id ∈ seen) then (refs, seen)
          else (if decide (id ∈ visited) then refs else refs ++ [id], {[id]} ∪ seen)
      end
    else (refs, seen)) ([], ∅ : gset UUID) tree).1.

Definition index (es : list Entry) : gmap UUID Entry :=
  foldl (λ m e, <[ID e := e]> m) ∅ es.

(** The second loop of [resolveAt]: the nodes of a frame in order, [resolve] the
    recursive call. The mutable [visited] is put back after each call, so it is
    an argument. *)
Definition resolveNodes (resolve : list BlockNode → gset UUID → result error (list BlockNode))
    (fetched : gmap UUID Entry) (visited : gset UUID) : list BlockNode → result error (list BlockNode) :=
  fix go l :=
    match l with
    | [] => Ok []
    | node :: l =>
        let? nodes :=
          (if is_ref node then
             match extractRef (Attributes node) with
             | None => Ok [missingNode "invalid_ref"]
             | Some id =>
                 if decide (id ∈ visited) then Ok [missingNode "cycle"] else
                 match fetched !! id with
                 | None => Ok [missingNode "not_found"]
                 | Some entry =>
                     match content (Content entry) with
                     | None => Ok [missingNode "invalid_content"]
                     | Some inner => resolve inner ({[id]} ∪ visited)
                     end
                 end
             end
           else
             match InnerBlocks node with
             | [] => Ok [node]
             | inner =>
                 let? resolved := resolve inner visited in
                 Ok [mkNode (Type_ node) (Attributes node) resolved (ClientID node)]
             end) in
        let? rest := go l in Ok (nodes ++ rest)
    end.

(** [resolveAt], [budget] calls above the depth limit; [get_many] is the store's
    GetMany, which may fail. *)
Fixpoint resolveAt (get_many : list UUID → result error (list Entry)) (budget : nat)
    (tree : list BlockNode) (visited : gset UUID) : result error (list BlockNode) :=
  match budget with
  | O => Ok tree
  | S budget =>
      let refs := collect_refs visited tree in
      let? fetched := (if decide (refs = []) then Ok ∅
                       else let? es := get_many refs in Ok (index es)) in
      resolveNodes (resolveAt get_many budget) fetched visited tree
  end.

Definition ResolveRefs (get_many : list UUID → result error (list Entry)) (tree : list BlockNode) :
    result error (list BlockNode) :=
  match tree with
  | [] => Ok tree
  | _ => resolveAt get_many maxResolveDepth tree ∅
  end.

End reusable.
End reusable.
