(* ===== verification/ReusableProps.v ===== *)
(** * Properties of reusable blocks

    What the resolver should give, without the depth limit, as a relation; the
    code gives it whenever the entries are few and flat enough. *)
From S2P Require Import Prelude GoStrings Json Reusable.
From Stdlib Require Import Ascii.
Import reusable.

Section resolve.
Context {UUID : Type} `{Countable UUID} `{Decoding UUID}.
Context (rows : gmap UUID (Entry (UUID := UUID))).
Implicit Types (tree out : list BlockNode) (visited : gset UUID).

(** [resolves visited tree out]: [out] is [tree] with its references replaced,
    inside the entries [visited]. *)
Inductive resolves : gset UUID → list BlockNode → list BlockNode → Prop :=
| resolves_nil visited : resolves visited [] []
| resolves_invalid visited n tree out :
    is_ref n = true → extractRef (UUID := UUID) (Attributes n) = None →
    resolves visited tree out → resolves visited (n :: tree) (missingNode "invalid_ref" :: out)
| resolves_cycle visited n id tree out :
    is_ref n = true → extractRef (Attributes n) = Some id → id ∈ visited →
    resolves visited tree out → resolves visited (n :: tree) (missingNode "cycle" :: out)
| resolves_not_found visited n id tree out :
    is_ref n = true → extractRef (Attributes n) = Some id → id ∉ visited → rows !! id = None →
    resolves visited tree out → resolves visited (n :: tree) (missingNode "not_found" :: out)
| resolves_invalid_content visited n id e tree out :
    is_ref n = true → extractRef (Attributes n) = Some id → id ∉ visited → rows !! id = Some e →
    content (UUID := UUID) (Content e) = None →
    resolves visited tree out → resolves visited (n :: tree) (missingNode "invalid_content" :: out)
| resolves_ref visited n id e inner resolved tree out :
    is_ref n = true → extractRef (Attributes n) = Some id → id ∉ visited → rows !! id = Some e →
    content (UUID := UUID) (Content e) = Some inner → resolves ({[id]} ∪ visited) inner resolved →
    resolves visited tree out → resolves visited (n :: tree) (resolved ++ out)
| resolves_node visited n inner tree out :
    is_ref n = false → resolves visited (InnerBlocks n) inner →
    resolves visited tree out →
    resolves visited (n :: tree) (mkNode (Type_ n) (Attributes n) inner (ClientID n) :: out).

Lemma resolves_det visited tree out out' :
  resolves visited tree out → resolves visited tree out' → out = out'.
Proof.
  intros Hr. revert out'. induction Hr; intros out' Hr'; inversion Hr'; simplify_eq; try congruence;
    f_equal; auto; f_equal; auto.
Qed.

(** No reference is left, at any depth. *)
Fixpoint no_ref (n : BlockNode) : bool := negb (is_ref n) && forallb no_ref (InnerBlocks n).

Lemma resolves_no_ref visited tree out : resolves visited tree out → forallb no_ref out = true.
Proof.
  induction 1 as [|?????? _ IH|??????? _ _ IH|??????? _ _ _ IH|???????? _ _ _ _ IH
                 |?????????? _ _ _ _ IH1 _ IH2|? n ??? Hn _ IH1 _ IH2]; simpl; [done..| |].
  - by rewrite forallb_app, IH1, IH2.
  - unfold is_ref in Hn |- *. simpl. by rewrite Hn, IH1, IH2.
Qed.

(** How deep blocks nest: 0 for no block at all. *)
Fixpoint node_height (n : BlockNode) : nat :=
  match InnerBlocks n with [] => 0 | l => S (foldr (λ n h, node_height n `max` h) 0 l) end.
Definition height tree : nat :=
  match tree with [] => 0 | l => S (foldr (λ n h, node_height n `max` h) 0 l) end.

Lemma node_height_inner n : node_height n = height (InnerBlocks n).
Proof. by destruct n as [t a [|n l] c]. Qed.

Lemma height_In n tree : n ∈ tree → height (InnerBlocks n) < height tree.
Proof.
  rewrite <-node_height_inner. intros Hn. unfold height. destruct tree as [|m tree]; [by apply not_elem_of_nil in Hn|].
  induction Hn as [m' l|m' m'' l Hn IH]; simpl in *; lia.
Qed.

(** ** The references of a frame are fetched *)
Lemma collect_spec visited tree refs (seen : gset UUID) :
  (∀ id, id ∈ seen → id ∉ visited → id ∈ refs) →
  let r := foldl (λ '(refs, seen) n,
    if is_ref n then
      match extractRef (Attributes n) with
      | None => (refs, seen)
      | Some id =>
          if decide (id ∈ seen) then (refs, seen)
          else (if decide (id ∈ visited) then refs else refs ++ [id], {[id]} ∪ seen)
      end
    else (refs, seen)) (refs, seen) tree in
  (∀ id, id ∈ refs → id ∈ r.1) ∧
  ∀ n id, n ∈ tree → is_ref n = true → extractRef (Attributes n) = Some id → id ∉ visited → id ∈ r.1.
Proof.
  revert refs seen. induction tree as [|m tree IH]; intros refs seen Hs; simpl.
  { split; [done|]. by intros n id ?%not_elem_of_nil. }
  assert (∀ refs' (seen' : gset UUID), (∀ id, id ∈ refs → id ∈ refs') →
    (∀ id, id ∈ seen' → id ∉ visited → id ∈ refs') →
    (∀ id, is_ref m = true → extractRef (Attributes m) = Some id → id ∉ visited → id ∈ refs') →
    let r := foldl (λ '(refs, seen) n,
      if is_ref n then
        match extractRef (Attributes n) with
        | None => (refs, seen)
        | Some id =>
            if decide (id ∈ seen) then (refs, seen)
            else (if decide (id ∈ visited) then refs else refs ++ [id], {[id]} ∪ seen)
        end
      else (refs, seen)) (refs', seen') tree in
    (∀ id, id ∈ refs → id ∈ r.1) ∧
    ∀ n id, n ∈ m :: tree → is_ref n = true → extractRef (Attributes n) = Some id → id ∉ visited → id ∈ r.1) as Hgo.
  { intros refs' seen' Hsub Hs' Hm. destruct (IH refs' seen' Hs') as [H1 H2]. split; [auto|].
    intros n id [->|Hn]%elem_of_cons; eauto. }
  destruct (is_ref m) eqn:Hm; [|apply Hgo; auto; done].
  destruct (extractRef (Attributes m)) as [id|] eqn:Hid; [|apply Hgo; auto; done].
  case_decide as Hseen; [apply Hgo; auto; intros ? _ [= <-] ?; auto|].
  case_decide as Hvis; apply Hgo.
  - auto.
  - intros id' [->%elem_of_singleton|?]%elem_of_union ?; [done|auto].
  - by intros ? _ [= <-] ?.
  - intros. apply elem_of_app. auto.
  - intros id' [->%elem_of_singleton|?]%elem_of_union ?; apply elem_of_app; [right; by left|auto].
  - intros ? _ [= <-] ?. apply elem_of_app. right. by left.
Qed.

Lemma collect_refs_In visited tree n id :
  n ∈ tree → is_ref n = true → extractRef (Attributes n) = Some id → id ∉ visited →
  id ∈ collect_refs visited tree.
Proof. intros. unfold collect_refs. eapply collect_spec; [set_solver|eauto..]. Qed.

(** ** The resolver *)
Context (get_many : list UUID → result error (list (Entry (UUID := UUID)))).

(** [GetMany] answers with the stored entries of the ids. *)
Definition answers : Prop :=
  ∀ ids, ∃ es, get_many ids = Ok es ∧ ∀ id, id ∈ ids → index es !! id = rows !! id.

(** Every entry's blocks nest at most [h] deep. *)
Definition flat (h : nat) : Prop :=
  ∀ id e inner, rows !! id = Some e → content (UUID := UUID) (Content e) = Some inner → height inner ≤ h.

Lemma size_visit visited id e :
  rows !! id = Some e → id ∉ visited →
  S (size (dom rows ∖ ({[id]} ∪ visited))) ≤ size (dom rows ∖ visited).
Proof.
  intros He Hid. set (X := dom rows ∖ ({[id]} ∪ visited)).
  assert (size ({[id]} ∪ X) = S (size X)) as <- by (rewrite size_union, size_singleton by set_solver; done).
  apply subseteq_size. apply elem_of_dom_2 in He. set_solver.
Qed.

Lemma resolveAt_resolves h budget tree visited :
  answers → flat h → height tree + size (dom rows ∖ visited) * h ≤ budget →
  ∃ out, resolveAt get_many budget tree visited = Ok out ∧ resolves visited tree out.
Proof.
  intros Hans Hflat. revert tree visited. induction budget as [|budget IH]; intros tree visited Hle.
  { destruct tree; [|simpl in Hle; lia]. exists []. split; [done|constructor]. }
  simpl. set (refs := collect_refs visited tree).
  assert (∃ fetched : gmap UUID Entry,
    (if decide (refs = []) then Ok ∅ else let? es := get_many refs in Ok (index es)) = Ok fetched ∧
    ∀ id, id ∈ refs → fetched !! id = rows !! id) as (fetched & -> & Hf).
  { case_decide as Hr; [exists ∅; split; [done|]; rewrite Hr; by intros id ?%not_elem_of_nil|].
    destruct (Hans refs) as (es & -> & Hes). eauto. }
  assert (∀ l, (∀ n, n ∈ l → n ∈ tree) → ∃ out,
    resolveNodes (resolveAt get_many budget) fetched visited l = Ok out ∧ resolves visited l out) as Hl;
    [|by apply Hl].
  induction l as [|n l IHl]; intros Hsub; [exists []; split; [done|constructor]|]. simpl.
  destruct IHl as (rest & -> & Hrest); [intros; apply Hsub; by right|].
  assert (n ∈ tree) as Hn by (apply Hsub; by left).
  pose proof (height_In n tree Hn) as Hh. clear Hsub.
  destruct (is_ref n) eqn:Href.
  - destruct (extractRef (Attributes n)) as [id|] eqn:Hid; [|eexists; split; [done|by constructor]].
    case_decide as Hvis; [eexists; split; [done|by eapply resolves_cycle]|].
    rewrite Hf by (by eapply collect_refs_In).
    destruct (rows !! id) as [e|] eqn:He; [|eexists; split; [done|by eapply resolves_not_found]].
    destruct (content (Content e)) as [inner|] eqn:Hc; [|eexists; split; [done|by eapply resolves_invalid_content]].
    destruct (IH inner ({[id]} ∪ visited)) as (resolved & -> & Hres).
    { pose proof (size_visit visited id e He Hvis). pose proof (Hflat _ _ _ He Hc). nia. }
    eexists; split; [done|by eapply resolves_ref].
  - destruct (InnerBlocks n) as [|m inner] eqn:Hinner.
    + eexists; split; [done|]. destruct n as [t a ib c]. simpl in Hinner. subst ib.
      apply (resolves_node visited (mkNode t a [] c) []); [done|constructor|done].
    + destruct (IH (m :: inner) visited) as (resolved & -> & Hres); [lia|].
      eexists; split; [done|]. apply resolves_node; [done| |done]. by rewrite Hinner.
Qed.
End resolve.

(** ** The memory store *)
Section memory.
Context {UUID : Type} `{Countable UUID} `{Decoding UUID}.
Implicit Types s : MemoryStore (UUID := UUID).

(** Every row is stored under its own id. *)
Definition keyed s : Prop := ∀ id e, s !! id = Some e → ID e = id.

Lemma foldl_index es (m : gmap UUID (Entry (UUID := UUID))) s id :
  (∀ e, e ∈ es → s !! ID e = Some e) → m !! id = s !! id ∨ id ∈ map ID es →
  foldl (λ m e, <[ID e := e]> m) m es !! id = s !! id.
Proof.
  revert m. induction es as [|e es IH]; intros m He Hm; simpl.
  { destruct Hm as [Hm|Hm]; [done|]. by apply not_elem_of_nil in Hm. }
  apply IH; [intros e' ?; apply He; by right|].
  destruct (decide (ID e = id)) as [<-|Hne].
  - left. rewrite lookup_insert_eq. symmetry. apply He. by left.
  - rewrite lookup_insert_ne by done. destruct Hm as [Hm|[Hid|Hid]%elem_of_cons]; [by left|congruence|by right].
Qed.

Lemma GetMany_answers s : keyed s → answers s (λ ids, Ok (GetMany ids s)).
Proof.
  intros Hk ids. eexists; split; [done|]. intros id Hid. unfold index, GetMany.
  assert (∀ e, e ∈ omap (λ id, s !! id) ids → s !! ID e = Some e) as Hes.
  { intros e (i & _ & Hi)%list_elem_of_omap. by rewrite (Hk _ _ Hi). }
  apply foldl_index; [done|].
  destruct (s !! id) as [e|] eqn:He; [right|].
  - apply list_elem_of_fmap. exists e. split; [by rewrite (Hk _ _ He)|]. apply list_elem_of_omap. eauto.
  - left. by rewrite lookup_empty.
Qed.

Lemma Create_keyed fresh now e s : keyed s → keyed (Create fresh now e s).1.
Proof.
  intros Hk. unfold Create. destruct (negb _); [done|]. simpl. intros id x Hx.
  apply (lookup_insert_Some (M := gmap UUID)) in Hx as [[<- <-]|[_ Hx]]; [done|by apply Hk].
Qed.

Lemma Update_keyed now e s : keyed s → keyed (Update now e s).1.
Proof.
  intros Hk. unfold Update. destruct (negb _); [done|]. case_decide; [done|].
  destruct (s !! ID e) as [x|] eqn:Hx; [|done]. simpl. intros id y Hy.
  apply (lookup_insert_Some (M := gmap UUID)) in Hy as [[<- <-]|[_ Hy]]; [by apply Hk in Hx|by apply Hk].
Qed.

Lemma Delete_keyed id s : keyed s → keyed (Delete id s).
Proof. intros Hk i x Hx. unfold Delete in Hx. apply (lookup_delete_Some (M := gmap UUID)) in Hx as [_ Hx]. by apply Hk. Qed.
End memory.

(** C20. A page is resolved in full: when the entries are few and flat enough for
    the depth limit, the references of the page and of the entries are replaced
    by the entries' blocks, cycles and dangling references by placeholders, in
    the one way the relation [resolves] allows, and no reference is left. *)
Theorem ResolveRefs_complete {UUID} `{Countable UUID} `{Decoding UUID} (s : MemoryStore (UUID := UUID)) h tree :
  keyed s → flat s h → height tree ≤ h → S (size s) * h ≤ maxResolveDepth →
  ∃ out, ResolveRefs (λ ids, Ok (GetMany ids s)) tree = Ok out ∧ forallb no_ref out = true ∧
    ∀ out', resolves s ∅ tree out' ↔ out' = out.
Proof.
  intros Hk Hf Hh Hb.
  destruct (resolveAt_resolves s (λ ids, Ok (GetMany ids s)) h maxResolveDepth tree ∅) as (out & Hr & Hout).
  - by apply GetMany_answers.
  - done.
  - rewrite difference_empty_L, size_dom. rewrite Nat.mul_succ_l in Hb.
    etransitivity; [|exact Hb]. rewrite Nat.add_comm. by apply Nat.add_le_mono_l.
  - exists out. split_and!.
    + unfold ResolveRefs. destruct tree; [|done]. inversion Hout. done.
    + by eapply resolves_no_ref.
    + intros out'. split; [intros; by eapply resolves_det|by intros ->].
Qed.

(** ** Examples

    Ids are numbers; the attributes of a reference are the number, the content
    of an entry the ids it refers to. *)
#[export] Instance toy_decoding : Decoding nat := {
  Nil := 0;
  Parse s := Z.to_nat <$> strconv.Atoi s;
  String_ n := strconv.Itoa (Z.of_nat n);
  ref_member s := Some s;
  content s :=
    match s with
    | EmptyString => None
    | _ => Some (map (λ w, if decide (w = "p") then mkNode "core/paragraph" "" [] ""
                           else mkNode RefBlockType w [] "") (strings.Split " " s))
    end;
}.

Definition toy (l : list (nat * string)) : MemoryStore (UUID := nat) :=
  list_to_map (map (λ '(id, c), (id, mkEntry id "n" "{}" c 0%Z 0%Z)) l).

Definition ref (w : string) : BlockNode := mkNode RefBlockType w [] "".

(** 1 has a paragraph, 2 and itself; 2 refers to 1 and to nothing. *)
Definition toy_store : MemoryStore (UUID := nat) := toy [(1, "p 2 1"); (2, "1 9")].
Definition toy_page : list BlockNode := [mkNode "core/group" "" [ref "1"] ""; ref "x"].

Lemma toy_flat : keyed toy_store ∧ flat toy_store 2.
Proof.
  assert (map_Forall (λ id e, (ID e =? id) &&
    match content (UUID := nat) (Content e) with Some inner => height inner <=? 2 | None => true end = true) (toy_store : gmap nat (Entry (UUID := nat))))
    as Hall by (apply (bool_decide_unpack _); vm_compute; exact I).
  split.
  - intros id e He. pose proof (map_Forall_lookup_1 _ _ _ _ Hall He) as [Hi _]%andb_true_iff. by apply Nat.eqb_eq.
  - intros id e inner He Hc. pose proof (map_Forall_lookup_1 _ _ _ _ Hall He) as [_ Hx]%andb_true_iff.
    rewrite Hc in Hx. by apply Nat.leb_le.
Qed.

Lemma ResolveRefs_complete_witness :
  ∃ out, ResolveRefs (λ ids, Ok (GetMany ids toy_store)) toy_page = Ok out ∧ forallb no_ref out = true ∧
    ∀ out', resolves toy_store ∅ toy_page out' ↔ out' = out.
Proof.
  apply (ResolveRefs_complete toy_store 2 toy_page).
  - apply toy_flat.
  - apply toy_flat.
  - vm_compute. lia.
  - vm_compute. lia.
Defined.

Lemma toy_resolved :
  ResolveRefs (λ ids, Ok (GetMany ids toy_store)) toy_page =
  Ok [mkNode "core/group" ""
        [mkNode "core/paragraph" "" [] ""; missingNode "cycle"; missingNode "not_found"; missingNode "cycle"] "";
      missingNode "invalid_ref"].
Proof. vm_compute. reflexivity. Qed.

(** A chain of 70 entries: the reference at the depth limit is left as it is. *)
Definition chain : MemoryStore (UUID := nat) :=
  toy (map (λ i, (i, strconv.Itoa (Z.of_nat (S i)))) (seq 1 70)).

Lemma deep_reference_left :
  ResolveRefs (λ ids, Ok (GetMany ids chain)) [ref "1"] = Ok [ref "65"].
Proof. vm_compute. reflexivity. Qed.

(** Ten entries, each twice the next: a thousand blocks. *)
Definition doubling : MemoryStore (UUID := nat) :=
  toy ((10, "p p") :: map (λ i, let w := strconv.Itoa (Z.of_nat (S i)) in (i, w +:+ " " +:+ w)) (seq 1 9)).

Lemma doubling_size :
  option_map length (match ResolveRefs (λ ids, Ok (GetMany ids doubling)) [ref "1"] with
                     | Ok l => Some l | Err _ => None end) = Some 1024.
Proof. vm_compute. reflexivity. Qed.

(** Create keeps an id it is given, and overwrites the entry stored there. *)
Lemma Create_overwrites :
  Content <$> ((Create 7 5 (mkEntry 1 "new" "" "[]" 0%Z 0%Z) toy_store).1 !! 1) = Some "[]".
Proof. vm_compute. reflexivity. Qed.

(** Paging by creation time skips the entries that share the last one's. *)
Definition same_time : MemoryStore (UUID := nat) := toy [(1, "p"); (2, "p"); (3, "p")].
Lemma List_pages_lose :
  map ID (List_ (mkFilter "" 2 time_zero) same_time) = [1; 2] ∧
  map ID (List_ (mkFilter "" 2 0%Z) same_time) = [].
Proof. vm_compute. done. Qed.
