(* ===== verification/Shortcode.v ===== *)
(** * WordPress shortcodes (migrate/shortcode)

    The scanner, the registry of translators and the processor of the importer.
    Text is ASCII: [strings.ToLower] and [unicode.IsLetter] are those of ASCII.
    A position [pos] of the source is its suffix [src[pos:]]. *)
From S2P Require Import Prelude GoStrings.
From Stdlib Require Import Ascii.

(** [html2blocks.Block] as the translators build it: a name and attributes. *)
Inductive attr := AStr (s : string) | AList (l : list string) | ABool (b : bool).
Record block := mkBlock { Name_ : string; Attrs_ : list (string * attr) }.

Module shortcode.
Definition isBlank (c : ascii) : bool := Ascii.eqb c " " || Ascii.eqb c "009".

(** [strings.TrimLeft(s, blank)] and [strings.TrimRight(s, blank)] *)
Fixpoint trimLeft (s : string) : string :=
  match s with String c s' => if isBlank c then trimLeft s' else s | EmptyString => "" end.
Fixpoint trimRight (s : string) : string :=
  match s with
  | EmptyString => ""
  | String c s => match trimRight s with
                  | EmptyString => if isBlank c then "" else String c ""
                  | s => String c s
                  end
  end.

Record Shortcode := mkShortcode {
  Name : string;
  Attrs : gmap string string;
  Inner : string;
  SelfClosing : bool;
  Raw : string;
}.

Inductive scanToken := literalToken (text : string) | shortcodeToken (code : Shortcode).

(** [findTagClose]: what is before and after the unquoted bracket. *)
Fixpoint findTagClose (quote : option ascii) (s : string) : option (string * string) :=
  match s with
  | EmptyString => None
  | String c s =>
      let next q := '(body, after) ← findTagClose q s; Some (String c body, after) in
      match quote with
      | Some d => if Ascii.eqb c d then next None else next quote
      | None =>
          if Ascii.eqb c "034" || Ascii.eqb c "'" then next (Some c)
          else if Ascii.eqb c "]" then Some ("", s)
          else if Ascii.eqb c "010" then None
          else next None
      end
  end.

Fixpoint splitNameAttrs (body : string) : string * string :=
  match body with
  | EmptyString => ("", "")
  | String c s =>
      if isBlank c then ("", trimLeft body)
      else let (name, rest) := splitNameAttrs s in (String c name, rest)
  end.

Definition isLetter (c : ascii) : bool :=
  (Ascii.leb "a" c && Ascii.leb c "z") || (Ascii.leb "A" c && Ascii.leb c "Z").
Definition name_char (c : ascii) : bool :=
  isLetter c || is_digit c || Ascii.eqb c "_" || Ascii.eqb c "-".

Definition isShortcodeName (s : string) : bool :=
  match s with
  | EmptyString => false
  | String c _ => (isLetter c || Ascii.eqb c "_") && all_chars name_char s
  end.

(** The bytes up to the first one that satisfies [stop]. *)
Fixpoint span (stop : ascii → bool) (s : string) : string * string :=
  match s with
  | EmptyString => ("", "")
  | String c s' => if stop c then ("", s) else let (a, b) := span stop s' in (String c a, b)
  end.

(** [readAttrValue]: the value and what is left. *)
Definition readAttrValue (s : string) : string * string :=
  match s with
  | EmptyString => ("", "")
  | String q s' =>
      if Ascii.eqb q "034" || Ascii.eqb q "'" then
        match strings.Cut s' (String q "") with Some (v, rest) => (v, rest) | None => (s', "") end
      else span isBlank s
  end.

Definition last_byte (s : string) : option ascii := String.get (Nat.pred (String.length s)) s.

(** [unquote]: one pair of equal quotes around the text. *)
Definition unquote (s : string) : string :=
  match s with
  | String q (String _ _ as s') =>
      if (Ascii.eqb q "034" || Ascii.eqb q "'") && bool_decide (last_byte s = Some q)
      then String.substring 0 (Nat.pred (String.length s')) s'
      else s
  | _ => s
  end.

(** The loop of [parseAttrs]: [pos] counts the positional values. *)
Fixpoint attrs_from (fuel : nat) (s : string) (pos : nat) (out : gmap string string) : gmap string string :=
  match fuel with
  | O => out
  | S fuel =>
      match trimLeft s with
      | EmptyString => out
      | s =>
          let (tok, rest) := span (λ c, Ascii.eqb c "=" || isBlank c) s in
          if strings.HasPrefix rest "=" then
            let (val, rest) := readAttrValue (strings.drop 1 rest) in
            attrs_from fuel rest pos (<[strings.ToLower tok := val]> out)
          else attrs_from fuel rest (S pos) (<[strconv.Itoa (Z.of_nat pos) := unquote tok]> out)
      end
  end.

Definition parseAttrs (s : string) : gmap string string := attrs_from (String.length s) s 0 ∅.

(** What the search for the closing tag of [name] ends with; [Found] has the
    text before it, the tag itself and the rest. *)
Inductive closing := NotFound | Unclosed | Found (inner tag rest : string).

Definition prepend (p : string) (c : closing) : closing :=
  match c with Found inner tag rest => Found (p +:+ inner) tag rest | c => c end.

Definition opener_follows (name s : string) : bool :=
  strings.HasPrefix (strings.ToLower s) ("[" +:+ name) &&
  match String.get (1 + String.length name) s with
  | Some c => isBlank c || Ascii.eqb c "/" || Ascii.eqb c "]"
  | None => false
  end.

Fixpoint findCloser (fuel : nat) (name : string) (depth : nat) (s : string) : closing :=
  match fuel with
  | O => NotFound
  | S fuel =>
      match s with
      | EmptyString => NotFound
      | String c s' =>
          let closer := "[/" +:+ name +:+ "]" in
          if opener_follows name s then
            match findTagClose None s' with
            | None => Unclosed
            | Some (body, after) =>
                prepend (String c (body +:+ "]")) (findCloser fuel name (S depth) after)
            end
          else if strings.HasPrefix (strings.ToLower s) closer then
            let n := String.length closer in
            let tag := String.substring 0 n s in
            if depth =? 1 then Found "" tag (strings.drop n s)
            else prepend tag (findCloser fuel name (Nat.pred depth) (strings.drop n s))
          else prepend (String c "") (findCloser fuel name depth s')
      end
  end.

(** [tryParseShortcode]: the shortcode at the start of the text, and the rest. *)
Definition tryParseShortcode (s : string) : option (Shortcode * string) :=
  match s with
  | EmptyString => None
  | String c s' =>
      if negb (Ascii.eqb c "[") then None else
      match findTagClose None s' with
      | None => None
      | Some (body, after) =>
          if bool_decide (body = "") || strings.HasPrefix body "/" then None else
          let selfClosing := bool_decide (last_byte body = Some "/"%char) in
          let inner_body :=
            if selfClosing then trimRight (String.substring 0 (Nat.pred (String.length body)) body) else body in
          let (name, attrStr) := splitNameAttrs inner_body in
          if negb (isShortcodeName name) then None else
          let raw := String c (body +:+ "]") in
          let code inner self raw := mkShortcode (strings.ToLower name) (parseAttrs attrStr) inner self raw in
          if selfClosing then Some (code "" true raw, after) else
          match findCloser (String.length after) (strings.ToLower name) 1 after with
          | Unclosed => None
          | Found inner tag rest => Some (code inner false (raw +:+ inner +:+ tag), rest)
          | NotFound => Some (code "" true raw, after)
          end
      end
  end.

Definition flushLiteral (buf : string) : list scanToken :=
  match buf with EmptyString => [] | _ => [literalToken buf] end.

(** The loop of [scanShortcodes]; [buf] is the literal text so far. *)
Fixpoint scan_from (fuel : nat) (s buf : string) : list scanToken :=
  match fuel with
  | O => flushLiteral buf
  | S fuel =>
      match s with
      | EmptyString => flushLiteral buf
      | String c s' =>
          if negb (Ascii.eqb c "[") then scan_from fuel s' (buf +:+ String c "") else
          if strings.HasPrefix s' "[" then
            match strings.Cut (strings.drop 1 s') "]]" with
            | None => scan_from fuel s' (buf +:+ "[")
            | Some (text, rest) => scan_from fuel rest (buf +:+ "[" +:+ text +:+ "]")
            end
          else
            match tryParseShortcode s with
            | None => scan_from fuel s' (buf +:+ "[")
            | Some (sc, rest) => flushLiteral buf ++ shortcodeToken sc :: scan_from fuel rest ""
            end
      end
  end.

Definition scanShortcodes (src : string) : list scanToken := scan_from (String.length src) src "".
End shortcode.

(** ** Translators *)
Module translate.
Import shortcode.

Definition Translator : Type := Shortcode → list block.

(** [Registry]; a nil one is [None]. *)
Definition Registry : Type := gmap string Translator.

Definition key (name : string) : string := strings.ToLower (strings.TrimSpace name).
Definition Register (name : string) (t : option Translator) (r : Registry) : Registry :=
  match t with None => r | Some t => <[key name := t]> r end.
Definition Lookup (name : string) (r : option Registry) : option Translator :=
  match r with None => None | Some r => r !! key name end.

(** [sc.Attrs[k]], the empty string when absent. *)
Definition att (sc : Shortcode) (k : string) : string := default "" (Attrs sc !! k).

(** [if v != "" { attrs[k] = v }] *)
Definition set_if (k v : string) : list (string * attr) := if decide (v = "") then [] else [(k, AStr v)].
Definition pass (sc : Shortcode) (k : string) : list (string * attr) := set_if k (att sc k).

(** [strings.Index(s, sub)] and the text from there, when at a positive index. *)
Definition cut_after (s sub : string) : option (string * string) :=
  match strings.Cut s sub with
  | Some (EmptyString, _) | None => None
  | Some (before, rest) => Some (before, rest)
  end.

Definition caption_text (inner : string) : string :=
  let caption := strings.TrimSpace inner in
  match cut_after caption "</a>" with
  | Some (_, rest) => strings.TrimSpace rest
  | None =>
      match cut_after caption "/>" with
      | Some (_, rest) => strings.TrimSpace rest
      | None =>
          match cut_after caption ">" with
          | Some (before, rest) =>
              if strings.Contains (before +:+ ">") "<img" then strings.TrimSpace rest else caption
          | None => caption
          end
      end
  end.

Definition translateCaption : Translator := λ sc,
  [mkBlock "core/image" (pass sc "src" ++ pass sc "alt" ++ set_if "caption" (caption_text (Inner sc)) ++
     pass sc "align" ++ pass sc "width")].

Definition translateGallery : Translator := λ sc,
  let parts := filter (λ p, p ≠ "") (map strings.TrimSpace (strings.Split "," (att sc "ids"))) in
  [mkBlock "core/gallery"
     ((if decide (att sc "ids" = "" ∨ parts = []) then [] else [("ids", AList parts)]) ++
      pass sc "columns" ++ pass sc "size" ++ pass sc "link")].

(** the first attribute with a value *)
Definition first_source (sc : Shortcode) (keys : list string) : string :=
  default "" (head (filter (λ v, v ≠ "") (map (att sc) keys))).

Definition truthy (v : string) : bool := bool_decide (v = "1" ∨ v = "true" ∨ v = "on").
Definition flag (sc : Shortcode) (k : string) : list (string * attr) :=
  if decide (att sc k = "") then [] else [(k, ABool (truthy (att sc k)))].

Definition translateVideo : Translator := λ sc,
  let src := first_source sc ["src"; "mp4"; "m4v"; "webm"; "ogv"; "wmv"] in
  if decide (src = "") then [] else
  [mkBlock "core/video" ([("src", AStr src)] ++ pass sc "poster" ++ flag sc "loop" ++ flag sc "autoplay")].

Definition translateAudio : Translator := λ sc,
  let src := first_source sc ["src"; "mp3"; "m4a"; "ogg"; "wav"; "wma"] in
  if decide (src = "") then [] else [mkBlock "core/audio" [("src", AStr src)]].

Definition translateEmbed : Translator := λ sc,
  let url := strings.TrimSpace (Inner sc) in
  let url := if decide (url = "") then first_source sc ["src"; "0"] else url in
  if decide (url = "") then [] else
  [mkBlock "core/embed" ([("url", AStr url)] ++ pass sc "width" ++ pass sc "height")].

Definition translateContactForm7 : Translator := λ sc,
  [mkBlock "core/shortcode" ([("plugin", AStr "contact-form-7"); ("raw", AStr (Raw sc))] ++
     set_if "formId" (att sc "id") ++ pass sc "title")].

Definition RegisterDefaults (r : Registry) : Registry :=
  foldl (λ r '(name, t), Register name (Some t) r) r
    [("caption", translateCaption); ("gallery", translateGallery); ("video", translateVideo);
     ("audio", translateAudio); ("embed", translateEmbed); ("contact-form-7", translateContactForm7)].
End translate.

(** ** Processing *)
Module process.
Import shortcode translate.

Inductive Mode := ModeMap | ModePreserve | ModeStrip.

Definition ParseMode (s : string) : Mode * bool :=
  let s := strings.ToLower (strings.TrimSpace s) in
  if decide (s = "" ∨ s = "map") then (ModeMap, true)
  else if decide (s = "preserve") then (ModePreserve, true)
  else if decide (s = "strip") then (ModeStrip, true)
  else (ModeMap, false).

Record Result := mkResult {
  Blocks : list block;
  ProcessedCount : nat;
  MappedCount : nat;
  FellBackCount : nat;
  StrippedCount : nat;
}.

Inductive processedKind := processedMapped | processedFellBack | processedStripped.

Definition paragraph (text : string) : block := mkBlock "core/paragraph" [("content", AStr text)].
Definition preserved (sc : Shortcode) : block := mkBlock "core/html" [("content", AStr (Raw sc))].

Definition processOne (mode : Mode) (r : option Registry) (sc : Shortcode) : list block * processedKind :=
  match mode with
  | ModeStrip =>
      if SelfClosing sc || bool_decide (strings.TrimSpace (Inner sc) = "") then ([], processedStripped)
      else ([paragraph (Inner sc)], processedStripped)
  | ModePreserve => ([preserved sc], processedFellBack)
  | ModeMap =>
      match Lookup (Name sc) r with
      | Some t => (t sc, processedMapped)
      | None => ([preserved sc], processedFellBack)
      end
  end.

Definition count (k : processedKind) (res : Result) : Result :=
  let '(mkResult b p m f s) := res in
  match k with
  | processedMapped => mkResult b (S p) (S m) f s
  | processedFellBack => mkResult b (S p) m (S f) s
  | processedStripped => mkResult b (S p) m f (S s)
  end.

Definition append (bs : list block) (res : Result) : Result :=
  let '(mkResult b p m f s) := res in mkResult (b ++ bs) p m f s.

Definition process_token (mode : Mode) (r : option Registry) (res : Result) (t : scanToken) : Result :=
  match t with
  | literalToken "" => res
  | literalToken text => append [paragraph text] res
  | shortcodeToken sc =>
      let (bs, kind) := processOne mode r sc in append bs (count kind res)
  end.

Definition Process (mode : Mode) (r : option Registry) (src : string) : Result :=
  foldl (process_token mode r) (mkResult [] 0 0 0 0) (scanShortcodes src).
End process.
