(* ===== verification/ShortcodeProps.v ===== *)
(** * Properties of the shortcode scanner

    Nothing of the source is lost, the counters add up, and a printed shortcode
    scans back. *)
From S2P Require Import Prelude GoStrings Shortcode.
From Stdlib Require Import Ascii.
Import shortcode translate process.

(** ** The scanner splits its input *)
Lemma substring_drop n s : String.substring 0 n s +:+ strings.drop n s = s.
Proof.
  revert s; induction n as [|n IH]; intros [|c s]; [done..|].
  simpl. rewrite string_app_cons. by rewrite IH.
Qed.

Lemma Cut_split s sep a b : strings.Cut s sep = Some (a, b) → s = a +:+ sep +:+ b.
Proof.
  revert a b; induction s as [|c s IH]; intros a b; cbn [strings.Cut].
  - destruct (strings.HasPrefix "" sep) eqn:E; [|done]. destruct sep; [|done]. by intros [= <- <-].
  - destruct (strings.HasPrefix (String c s) sep) eqn:E.
    + intros [= <- <-]. rewrite string_app_nil_l. revert E. generalize (String c s) as t. clear.
      induction sep as [|d sep IH]; intros [|c t]; simpl; try done.
      rewrite string_app_cons. intros [Hc Ht]%andb_true_iff. apply bool_decide_eq_true in Hc as ->.
      by rewrite <-IH.
    + destruct (strings.Cut s sep) as [[x y]|]; [|done]. simpl. intros [= <- <-].
      rewrite string_app_cons. by rewrite <-IH.
Qed.

Lemma findTagClose_split q s body after :
  findTagClose q s = Some (body, after) → s = body +:+ "]" +:+ after.
Proof.
  revert q body after; induction s as [|c s IH]; intros q body after; [done|]. cbn [findTagClose].
  assert (∀ q', ('(b, a) ← findTagClose q' s; Some (String c b, a)) = Some (body, after) →
    String c s = body +:+ "]" +:+ after) as Hn.
  { intros q'. destruct (findTagClose q' s) as [[b a]|] eqn:E; [|done]. simpl. intros [= <- <-].
    rewrite string_app_cons. by rewrite <-(IH _ _ _ E). }
  destruct q as [d|]; [destruct (Ascii.eqb c d); apply Hn|].
  destruct (_ || _); [apply Hn|]. destruct (Ascii.eqb_spec c "]"); [intros [= <- <-]; by subst|].
  destruct (Ascii.eqb c "010"); [done|apply Hn].
Qed.

Lemma prepend_Found p r inner tag rest :
  prepend p r = Found inner tag rest → ∃ i, r = Found i tag rest ∧ inner = p +:+ i.
Proof. destruct r; simpl; [done..|]. intros [= <- <- <-]. eauto. Qed.

Lemma findCloser_split fuel name d s inner tag rest :
  findCloser fuel name d s = Found inner tag rest → s = inner +:+ tag +:+ rest.
Proof.
  revert d s inner tag rest; induction fuel as [|fuel IH]; intros d [|c s] inner tag rest; [done..|].
  cbn [findCloser]. set (closer := "[/" +:+ name +:+ "]").
  destruct (opener_follows name (String c s)).
  - destruct (findTagClose None s) as [[body after]|] eqn:E; [|done].
    intros (i & Hi & ->)%prepend_Found. apply IH in Hi. apply findTagClose_split in E.
    repeat rewrite string_app_cons || rewrite string_app_assoc. rewrite E, Hi. by rewrite string_app_cons.
  - destruct (strings.HasPrefix _ closer).
    + destruct (d =? 1).
      * intros [= <- <- <-]. symmetry. exact (substring_drop (String.length closer) (String c s)).
      * intros (i & Hi & ->)%prepend_Found. apply IH in Hi.
        rewrite string_app_assoc, <-Hi. symmetry. exact (substring_drop (String.length closer) (String c s)).
    + intros (i & Hi & ->)%prepend_Found. apply IH in Hi. rewrite string_app_assoc, <-Hi. done.
Qed.

Lemma tryParse_split s sc rest : tryParseShortcode s = Some (sc, rest) → s = Raw sc +:+ rest ∧ Raw sc ≠ "".
Proof.
  destruct s as [|c s]; [done|]. unfold tryParseShortcode. destruct (negb _); [done|].
  destruct (findTagClose None s) as [[body after]|] eqn:E; [|done]. apply findTagClose_split in E.
  assert (∀ x r, after = x +:+ r → String c s = (String c (body +:+ "]") +:+ x) +:+ r) as Hraw.
  { intros x r ->. rewrite E. repeat rewrite string_app_cons || rewrite string_app_assoc. done. }
  destruct (_ || _); [done|]. destruct (splitNameAttrs _) as [name attrStr].
  destruct (negb _); [done|]. destruct (bool_decide (last_byte body = _)).
  { intros [= <- <-]. split; [|done]. simpl. rewrite (Hraw "" after) by done. by rewrite string_app_nil_r. }
  destruct (findCloser _ _ _ after) as [| |inner tag rest'] eqn:Hc; [|done|]; intros [= <- <-]; (split; [|done]); simpl.
  - rewrite (Hraw "" after) by done. by rewrite string_app_nil_r.
  - apply findCloser_split in Hc. rewrite (Hraw (inner +:+ tag) rest'); [done|]. by rewrite string_app_assoc.
Qed.

(** ** The scan *)

(** What a scan passes over: a byte of text, an escaped tag, a shortcode. *)
Inductive seg := SText (c : ascii) | SEscaped (text : string) | SCode (sc : Shortcode).

Definition source (g : seg) : string :=
  match g with
  | SText c => String c ""
  | SEscaped t => "[[" +:+ t +:+ "]]"
  | SCode sc => Raw sc
  end.

Fixpoint concat_str (l : list string) : string :=
  match l with [] => "" | s :: l => s +:+ concat_str l end.

Fixpoint tokens_of (segs : list seg) (buf : string) : list scanToken :=
  match segs with
  | [] => flushLiteral buf
  | SText c :: segs => tokens_of segs (buf +:+ String c "")
  | SEscaped t :: segs => tokens_of segs (buf +:+ "[" +:+ t +:+ "]")
  | SCode sc :: segs => flushLiteral buf ++ shortcodeToken sc :: tokens_of segs ""
  end.

Lemma HasPrefix_byte s c : strings.HasPrefix s (String c "") = true → ∃ s', s = String c s'.
Proof.
  destruct s as [|d s]; [done|]. simpl. intros [Hd _]%andb_true_iff.
  apply bool_decide_eq_true in Hd as <-. eauto.
Qed.

Lemma drop_1 c s : strings.drop 1 (String c s) = s.
Proof. by destruct s. Qed.

Lemma scan_segs fuel s buf :
  String.length s ≤ fuel →
  ∃ segs, concat_str (map source segs) = s ∧ scan_from fuel s buf = tokens_of segs buf.
Proof.
  revert s buf; induction fuel as [|fuel IH]; intros [|c s] buf Hlen; [by exists []|simpl in Hlen; lia|by exists []|].
  simpl in Hlen. cbn [scan_from].
  assert (∀ c', c' = c → ∃ segs, concat_str (map source segs) = String c s ∧
    scan_from fuel s (buf +:+ String c' "") = tokens_of segs buf) as Htext.
  { intros c' ->. destruct (IH s (buf +:+ String c "") ltac:(lia)) as (segs & <- & ->). by exists (SText c :: segs). }
  destruct (Ascii.eqb_spec c "[") as [->|Hc]; [|by apply Htext]. cbn [negb].
  destruct (strings.HasPrefix s "[") eqn:Hp.
  - destruct (strings.Cut _ "]]") as [[t rest]|] eqn:E; [|by apply Htext].
    apply HasPrefix_byte in Hp as [s' ->]. rewrite drop_1 in E.
    apply Cut_split in E as ->. assert (String.length rest ≤ fuel) as Hr.
    { simpl in Hlen. rewrite !string_length_app in Hlen. simpl in Hlen. lia. }
    destruct (IH rest (buf +:+ "[" +:+ t +:+ "]") Hr) as (segs & Hs & ->).
    exists (SEscaped t :: segs). split; [|done]. simpl. rewrite Hs.
    repeat rewrite string_app_cons || rewrite string_app_assoc. done.
  - destruct (tryParseShortcode (String "[" s)) as [[sc rest]|] eqn:E; [|by apply Htext].
    apply tryParse_split in E as [E Hne].
    assert (String.length rest ≤ fuel) as Hr.
    { apply (f_equal String.length) in E. rewrite string_length_app in E. simpl in E.
      destruct (Raw sc); [done|]. simpl in E. lia. }
    destruct (IH rest "" Hr) as (segs & Hs & ->). exists (SCode sc :: segs). split; [|done]. simpl. by rewrite Hs.
Qed.

Lemma scanShortcodes_segs src :
  ∃ segs, concat_str (map source segs) = src ∧ scanShortcodes src = tokens_of segs "".
Proof. by apply scan_segs. Qed.

(** ** Preserving *)
Definition token_text (t : scanToken) : string :=
  match t with literalToken s => s | shortcodeToken sc => Raw sc end.

(** What is left of a segment after the scan. *)
Definition kept (g : seg) : string :=
  match g with SEscaped t => "[" +:+ t +:+ "]" | g => source g end.

Lemma flush_text buf : concat_str (map token_text (flushLiteral buf)) = buf.
Proof. destruct buf as [|c buf]; [done|]. exact (string_app_nil_r (String c buf)). Qed.

Lemma concat_str_app l k : concat_str (l ++ k) = concat_str l +:+ concat_str k.
Proof. induction l as [|s l IH]; [done|]. simpl. by rewrite IH, string_app_assoc. Qed.

Lemma tokens_text segs buf :
  concat_str (map token_text (tokens_of segs buf)) = buf +:+ concat_str (map kept segs).
Proof.
  revert buf; induction segs as [|[c|t|sc] segs IH]; intros buf; simpl.
  - by rewrite flush_text, string_app_nil_r.
  - by rewrite IH, string_app_assoc.
  - rewrite IH. repeat rewrite string_app_assoc. done.
  - rewrite map_app, concat_str_app, flush_text. simpl. by rewrite IH.
Qed.

Lemma Contains_app x sub y : strings.Contains (x +:+ sub +:+ y) sub = true.
Proof.
  induction x as [|c x IH].
  - rewrite string_app_nil_l. pose proof (HasPrefix_app sub y) as Hp.
    destruct (sub +:+ y); cbn [strings.Contains]; by rewrite Hp.
  - rewrite string_app_cons. simpl. rewrite IH. apply orb_true_r.
Qed.

Lemma kept_source segs :
  strings.Contains (concat_str (map source segs)) "[[" = false →
  map kept segs = map source segs.
Proof.
  induction segs as [|g segs IH]; [done|]. simpl. intros Hc.
  assert (strings.Contains (concat_str (map source segs)) "[[" = false) as Hc'.
  { revert Hc. generalize (source g) as x. induction x as [|c x IHx]; [done|].
    rewrite string_app_cons. simpl. intros [_ Hx]%orb_false_iff. auto. }
  rewrite (IH Hc'). f_equal. destruct g as [c|t|sc]; [done| |done].
  pose proof (Contains_app "" "[[" ((t +:+ "]]") +:+ concat_str (map source segs))) as Hin.
  exfalso. revert Hc. unfold source at 1. rewrite string_app_assoc. rewrite string_app_nil_l in Hin. congruence.
Qed.

Definition content (b : block) : string :=
  match Attrs_ b with [(_, AStr s)] => s | _ => "" end.

Lemma process_blocks r tokens res :
  Blocks (foldl (process_token ModePreserve r) res tokens) = Blocks res ++
    flat_map (λ t, match t with
      | literalToken "" => []
      | literalToken s => [paragraph s]
      | shortcodeToken sc => [preserved sc] end) tokens.
Proof.
  revert res; induction tokens as [|t tokens IH]; intros res; simpl; [by rewrite app_nil_r|].
  rewrite IH. destruct t as [[|c s]|sc], res as [b p m f st]; simpl; by rewrite <-?app_assoc.
Qed.

Lemma preserved_text tokens :
  concat_str (map content (flat_map (λ t, match t with
      | literalToken "" => []
      | literalToken s => [paragraph s]
      | shortcodeToken sc => [preserved sc] end) tokens)) = concat_str (map token_text tokens).
Proof.
  induction tokens as [|t tokens IH]; [done|]. simpl. rewrite map_app, concat_str_app, IH.
  destruct t as [[|c s]|sc]; simpl; by rewrite ?string_app_nil_r.
Qed.

(** Preserving loses nothing: for a text without an escaped tag, the contents
    of the emitted blocks, one after the other, are the text. *)
Theorem Process_preserve_lossless r src :
  strings.Contains src "[[" = false →
  concat_str (map content (Blocks (Process ModePreserve r src))) = src.
Proof.
  intros Hc. unfold Process. rewrite process_blocks. simpl. rewrite preserved_text.
  destruct (scanShortcodes_segs src) as (segs & Hs & ->).
  rewrite tokens_text, string_app_nil_l, kept_source by (by rewrite Hs). done.
Qed.

Definition is_code (t : scanToken) : bool := match t with shortcodeToken _ => true | _ => false end.

(** Every shortcode is counted once. *)
Lemma Process_counts mode r src :
  let res := Process mode r src in
  ProcessedCount res = MappedCount res + FellBackCount res + StrippedCount res ∧
  ProcessedCount res = length (filter (λ t, is_code t = true) (scanShortcodes src)).
Proof.
  unfold Process. set (tokens := scanShortcodes src).
  assert (∀ res, ProcessedCount res = MappedCount res + FellBackCount res + StrippedCount res →
    let res' := foldl (process_token mode r) res tokens in
    ProcessedCount res' = MappedCount res' + FellBackCount res' + StrippedCount res' ∧
    ProcessedCount res' = ProcessedCount res +
      length (filter (λ t, is_code t = true) tokens)) as H.
  { induction tokens as [|t tokens IH]; intros res Hres; simpl; [lia|].
    destruct (IH (process_token mode r res t)) as [H1 H2].
    { destruct res as [b p m f s], t as [[|c x]|sc]; simpl in *; [done..|].
      destruct (processOne mode r sc) as [bs []]; simpl; lia. }
    split; [exact H1|]. rewrite H2. destruct res as [b p m f s], t as [[|c x]|sc]; simpl in *; [done..|].
    destruct (processOne mode r sc) as [bs []]; simpl; lia. }
  destruct (H (mkResult [] 0 0 0 0) eq_refl) as [H1 H2]. auto.
Qed.

(** ** Printing and scanning *)
Definition print_attr (a : string * string) : string :=
  " " +:+ a.1 +:+ "=" +:+ String "034" (a.2 +:+ String "034" "").
Definition print_open (name : string) (attrs : list (string * string)) : string :=
  name +:+ concat_str (map print_attr attrs).
Definition print (name : string) (attrs : list (string * string)) (inner : string) : string :=
  "[" +:+ print_open name attrs +:+ "]" +:+ inner +:+ "[/" +:+ name +:+ "]".

(** Bytes of a name, in lower case. *)
Definition lower_name_char (c : ascii) : bool := name_char c && Ascii.eqb (strings.lower c) c.
Definition key_ok (k : string) : bool := negb (bool_decide (k = "")) && all_chars lower_name_char k.
Definition name_ok (n : string) : bool := isShortcodeName n && all_chars lower_name_char n.
Definition attr_ok (a : string * string) : bool := key_ok a.1 && all_chars (not_char "034") a.2.

Lemma ascii_imp (P Q : ascii → bool) :
  forallb (λ n, implb (P (ascii_of_nat n)) (Q (ascii_of_nat n))) (seq 0 256) = true → ∀ c, P c = true → Q c = true.
Proof.
  intros H c Hc. rewrite forallb_forall in H. specialize (H (nat_of_ascii c)).
  rewrite ascii_nat_embedding, Hc in H. apply H, in_seq. pose proof (nat_ascii_bounded c). lia.
Qed.

Definition tag_char (c : ascii) : bool :=
  negb (Ascii.eqb c "034") && negb (Ascii.eqb c "'") && negb (Ascii.eqb c "]") && negb (Ascii.eqb c "010").

Lemma findTagClose_plain s x :
  all_chars tag_char s = true →
  findTagClose None (s +:+ x) = '(b, a) ← findTagClose None x; Some (s +:+ b, a).
Proof.
  induction s as [|c s IH]; intros Hs.
  - rewrite string_app_nil_l. by destruct (findTagClose None x) as [[b a]|].
  - simpl in Hs. apply andb_true_iff in Hs as [Hc Hs]. rewrite string_app_cons. cbn [findTagClose].
    unfold tag_char in Hc. rewrite !andb_true_iff, !negb_true_iff in Hc. destruct Hc as [[[-> ->] ->] ->]. simpl.
    rewrite (IH Hs). by destruct (findTagClose None x) as [[b a]|].
Qed.

Lemma findTagClose_quoted q s x :
  all_chars (not_char q) s = true →
  findTagClose (Some q) (s +:+ String q x) = '(b, a) ← findTagClose None x; Some (s +:+ String q b, a).
Proof.
  induction s as [|c s IH]; intros Hs.
  - rewrite string_app_nil_l. cbn [findTagClose]. rewrite Ascii.eqb_refl.
    by destruct (findTagClose None x) as [[b a]|].
  - simpl in Hs. apply andb_true_iff in Hs as [Hc Hs]. rewrite string_app_cons. cbn [findTagClose].
    unfold not_char in Hc. apply negb_true_iff, bool_decide_eq_false in Hc.
    destruct (Ascii.eqb_spec c q); [done|]. rewrite (IH Hs). by destruct (findTagClose None x) as [[b a]|].
Qed.

Lemma name_tag s : all_chars lower_name_char s = true → all_chars tag_char s = true.
Proof. apply all_chars_impl. apply ascii_imp. vm_compute. reflexivity. Qed.

Lemma findTagClose_attrs attrs x :
  forallb attr_ok attrs = true →
  findTagClose None (concat_str (map print_attr attrs) +:+ "]" +:+ x) = Some (concat_str (map print_attr attrs), x).
Proof.
  induction attrs as [|[k v] attrs IH]; [done|]. intros [Ha Hattrs]%andb_true_iff.
  apply andb_true_iff in Ha as [Hk Hv]. apply andb_true_iff in Hk as [_ Hk]. cbn [fst snd] in Hk, Hv.
  cbn [map concat_str]. unfold print_attr at 1 3. cbn [fst snd].
  assert (all_chars tag_char (" " +:+ k +:+ "=") = true) as Ht
    by (rewrite !all_chars_app, (name_tag k) by done; done).
  replace ((" " +:+ k +:+ "=" +:+ String "034" (v +:+ String "034" "")) +:+ concat_str (map print_attr attrs))
    with ((" " +:+ k +:+ "=") +:+ String "034" (v +:+ String "034" (concat_str (map print_attr attrs))))
    by (repeat rewrite string_app_cons || rewrite string_app_assoc || rewrite string_app_nil_l; done).
  rewrite (string_app_assoc (" " +:+ k +:+ "=")), findTagClose_plain by done.
  rewrite (string_app_cons "034" (v +:+ _)). cbn [findTagClose]. simpl (_ || _). cbn iota.
  rewrite (string_app_assoc v), (string_app_cons "034"), findTagClose_quoted by done.
  rewrite (IH Hattrs). done.
Qed.

Lemma splitNameAttrs_print name rest :
  all_chars (λ c, negb (isBlank c)) name = true → splitNameAttrs (name +:+ rest) =
    match rest with
    | EmptyString => (name, "")
    | String c _ => if isBlank c then (name, trimLeft rest) else (name +:+ (splitNameAttrs rest).1, (splitNameAttrs rest).2)
    end.
Proof.
  induction name as [|c name IH]; intros Hn.
  - rewrite string_app_nil_l. destruct rest as [|c rest]; [done|]. cbn [splitNameAttrs].
    destruct (isBlank c); [done|]. by destruct (splitNameAttrs rest).
  - simpl in Hn. apply andb_true_iff in Hn as [Hc Hn]. apply negb_true_iff in Hc.
    rewrite string_app_cons. cbn [splitNameAttrs]. rewrite Hc, (IH Hn).
    destruct rest as [|d rest]; [done|]. by destruct (isBlank d).
Qed.

Definition insert_attrs (attrs : list (string * string)) (out : gmap string string) : gmap string string :=
  foldl (λ m a, <[a.1 := a.2]> m) out attrs.

Lemma trimLeft_idem s : trimLeft (trimLeft s) = trimLeft s.
Proof.
  induction s as [|c s IH]; [done|]. simpl. destruct (isBlank c) eqn:E; [done|]. simpl. by rewrite E.
Qed.

Lemma attrs_from_trim fuel s pos out : attrs_from fuel (trimLeft s) pos out = attrs_from fuel s pos out.
Proof. destruct fuel as [|fuel]; [done|]. cbn [attrs_from]. by rewrite trimLeft_idem. Qed.

Lemma ToLower_id s : all_chars lower_name_char s = true → strings.ToLower s = s.
Proof.
  induction s as [|c s IH]; [done|]. simpl. intros [Hc Hs]%andb_true_iff.
  unfold lower_name_char in Hc. apply andb_true_iff in Hc as [_ Hc]. apply Ascii.eqb_eq in Hc.
  by rewrite Hc, IH.
Qed.

Lemma span_app stop s c x :
  all_chars (λ c, negb (stop c)) s = true → stop c = true → span stop (s +:+ String c x) = (s, String c x).
Proof.
  intros Hs Hc. induction s as [|d s IH]; [rewrite string_app_nil_l; simpl; by rewrite Hc|].
  simpl in Hs. apply andb_true_iff in Hs as [Hd Hs]. rewrite string_app_cons. simpl.
  apply negb_true_iff in Hd. by rewrite Hd, (IH Hs).
Qed.

Lemma attrs_from_print attrs fuel pos out :
  forallb attr_ok attrs = true → length attrs ≤ fuel →
  attrs_from fuel (concat_str (map print_attr attrs)) pos out = insert_attrs attrs out.
Proof.
  revert fuel out; induction attrs as [|[k v] attrs IH]; intros fuel out Hok Hlen; [by destruct fuel|].
  destruct fuel as [|fuel]; [simpl in Hlen; lia|].
  apply andb_true_iff in Hok as [Ha Hattrs]. apply andb_true_iff in Ha as [Hk Hv].
  apply andb_true_iff in Hk as [Hne Hk]. cbn [fst snd] in Hne, Hk, Hv.
  set (rest := concat_str (map print_attr attrs)).
  assert (concat_str (map print_attr ((k, v) :: attrs)) =
    String " " (k +:+ String "=" (String "034" (v +:+ String "034" rest)))) as ->.
  { cbn [map concat_str]. unfold print_attr at 1. cbn [fst snd].
    repeat rewrite string_app_cons || rewrite string_app_assoc || rewrite string_app_nil_l. done. }
  cbn [attrs_from].
  set (text := k +:+ String "=" (String "034" (v +:+ String "034" rest))).
  assert (∃ c s, trimLeft (String " " text) = String c s ∧ String c s = text) as (c & s & -> & Htext).
  { unfold text. destruct k as [|c k]; [done|]. simpl in Hk. apply andb_true_iff in Hk as [Hc _].
    rewrite string_app_cons. simpl. eexists _, _. split; [|done].
    assert (negb (isBlank c) = true) as Hb by (revert Hc; apply (ascii_imp lower_name_char (λ c, negb (isBlank c))); vm_compute; reflexivity).
    apply negb_true_iff in Hb. by rewrite Hb. }
  rewrite Htext. unfold text. rewrite span_app; [| |done].
  2: { revert Hk. apply all_chars_impl, ascii_imp. vm_compute. reflexivity. }
  cbn [strings.HasPrefix]. rewrite bool_decide_true by done. cbn [andb]. rewrite drop_1. cbn [readAttrValue].
  rewrite Ascii.eqb_refl. cbn [orb]. rewrite Cut_char by done. rewrite ToLower_id by done.
  rewrite IH; [done|done|simpl in Hlen; lia].
Qed.

Lemma length_print_attrs attrs : length attrs ≤ Nat.pred (String.length (concat_str (map print_attr attrs))).
Proof.
  assert (length attrs * 2 ≤ String.length (concat_str (map print_attr attrs))) as H; [|destruct attrs; simpl in *; lia].
  induction attrs as [|[k v] attrs IH]; [done|]. cbn [map concat_str]. unfold print_attr at 1.
  rewrite !string_length_app. simpl. lia.
Qed.

Lemma last_byte_snoc s c : last_byte (s +:+ String c "") = Some c.
Proof.
  unfold last_byte. rewrite string_length_app. simpl. rewrite Nat.add_comm. simpl.
  induction s as [|d s IH]; [done|]. rewrite string_app_cons. simpl. exact IH.
Qed.

Lemma print_open_last name attrs :
  all_chars name_char name = true → last_byte (print_open name attrs) ≠ Some "/"%char.
Proof.
  intros Hn. unfold print_open. destruct attrs as [|a attrs] using rev_ind.
  - simpl. rewrite string_app_nil_r. intros Hl. by apply (get_all_chars name_char) in Hl.
  - destruct a as [k v].
    assert (name +:+ concat_str (map print_attr (attrs ++ [(k, v)])) =
      (name +:+ concat_str (map print_attr attrs) +:+ " " +:+ k +:+ "=" +:+ String "034" v) +:+ String "034" "") as ->;
      [|by rewrite last_byte_snoc].
    rewrite map_app, concat_str_app. cbn [map concat_str]. rewrite string_app_nil_r. unfold print_attr at 2. cbn [fst snd].
    repeat rewrite string_app_cons || rewrite string_app_assoc || rewrite string_app_nil_l. done.
Qed.

Lemma substring_all s : String.substring 0 (String.length s) s = s.
Proof. induction s as [|c s IH]; [done|]. simpl. by rewrite IH. Qed.

Lemma drop_all s : strings.drop (String.length s) s = "".
Proof. induction s as [|c s IH]; [done|]. exact IH. Qed.

Lemma lower_bracket c : strings.lower c = "["%char → c = "["%char.
Proof.
  pose proof (ascii_imp (λ c, Ascii.eqb (strings.lower c) "[") (λ c, Ascii.eqb c "[")
    ltac:(vm_compute; reflexivity) c) as H. intros E. apply Ascii.eqb_eq, H. by rewrite E.
Qed.

Lemma findCloser_print fuel name inner :
  name_ok name = true → all_chars (not_char "[") inner = true →
  String.length (inner +:+ "[/" +:+ name +:+ "]") ≤ fuel →
  findCloser fuel name 1 (inner +:+ "[/" +:+ name +:+ "]") = Found inner ("[/" +:+ name +:+ "]") "".
Proof.
  intros Hname. revert fuel; induction inner as [|c inner IH]; intros fuel Hin Hlen.
  - destruct fuel as [|fuel]; [simpl in Hlen; lia|]. rewrite string_app_nil_l.
    apply andb_true_iff in Hname as [Hsn Hlow].
    change ("[/" +:+ name +:+ "]") with (String "[" ("/" +:+ name +:+ "]")) at 1. cbn [findCloser].
    assert (opener_follows name (String "[" ("/" +:+ name +:+ "]")) = false) as ->.
    { unfold opener_follows. destruct name as [|d name]; [done|]. simpl in Hsn.
      simpl. apply andb_true_iff in Hsn as [Hd _]. rewrite (bool_decide_false (d = _)); [done|].
      intros ->. discriminate Hd. }
    assert (strings.ToLower (String "[" ("/" +:+ name +:+ "]")) = "[/" +:+ name +:+ "]") as ->.
    { change ("[/" +:+ name +:+ "]") with (String "[" (String "/" (name +:+ "]"))). simpl. do 2 f_equal.
      rewrite string_app_nil_l. clear Hsn Hlen. induction name as [|d name IHn]; [done|].
      simpl in Hlow. apply andb_true_iff in Hlow as [Hd Hlow]. rewrite string_app_cons. simpl. rewrite (IHn Hlow).
      unfold lower_name_char in Hd. apply andb_true_iff in Hd as [_ Hd]. apply Ascii.eqb_eq in Hd. rewrite Hd. done. }
    rewrite <-(string_app_nil_r ("[/" +:+ name +:+ "]")) at 1. rewrite HasPrefix_app. cbn [Nat.eqb].
    f_equal; [exact (substring_all ("[/" +:+ name +:+ "]"))|exact (drop_all ("[/" +:+ name +:+ "]"))].
  - simpl in Hin. apply andb_true_iff in Hin as [Hc Hin]. rewrite string_app_cons in Hlen |- *.
    destruct fuel as [|fuel]; [simpl in Hlen; lia|]. cbn [findCloser].
    assert (∀ p, strings.HasPrefix (strings.ToLower (String c (inner +:+ "[/" +:+ name +:+ "]"))) (String "[" p) = false) as Hno.
    { intros p. cbn [strings.ToLower strings.HasPrefix]. rewrite bool_decide_false; [done|].
      intros E. symmetry in E. apply lower_bracket in E as ->. done. }
    assert (opener_follows name (String c (inner +:+ "[/" +:+ name +:+ "]")) = false) as ->
      by (unfold opener_follows; by rewrite (Hno name : strings.HasPrefix _ ("[" +:+ name) = false)).
    rewrite (Hno ("/" +:+ name +:+ "]") : strings.HasPrefix _ ("[/" +:+ name +:+ "]") = false).
    simpl in Hlen. rewrite IH by (done || lia). done.
Qed.

Lemma name_ok_parts name : name_ok name = true →
  ∃ c n, name = String c n ∧ c ≠ "["%char ∧ c ≠ "/"%char ∧ isShortcodeName name = true ∧
    all_chars lower_name_char name = true ∧ all_chars name_char name = true ∧
    all_chars (λ c, negb (isBlank c)) name = true.
Proof.
  intros [Hs Hl]%andb_true_iff. destruct name as [|c n]; [done|]. exists c, n.
  split_and!; [done| | |done|done| |].
  - intros ->. discriminate Hs.
  - intros ->. discriminate Hs.
  - revert Hl. apply all_chars_impl, ascii_imp. vm_compute. reflexivity.
  - revert Hl. apply all_chars_impl, ascii_imp. vm_compute. reflexivity.
Qed.

Lemma split_print name attrs :
  name_ok name = true → splitNameAttrs (print_open name attrs) = (name, trimLeft (concat_str (map print_attr attrs))).
Proof.
  intros Hn. destruct (name_ok_parts name Hn) as (c & n & _ & _ & _ & _ & _ & _ & Hb).
  unfold print_open. rewrite splitNameAttrs_print by done. destruct attrs as [|[k v] attrs]; done.
Qed.

Lemma findTagClose_print name attrs x :
  name_ok name = true → forallb attr_ok attrs = true →
  findTagClose None (print_open name attrs +:+ "]" +:+ x) = Some (print_open name attrs, x).
Proof.
  intros Hn Ha. destruct (name_ok_parts name Hn) as (c & n & _ & _ & _ & _ & Hl & _ & _).
  unfold print_open. rewrite string_app_assoc, findTagClose_plain by (by apply name_tag).
  by rewrite findTagClose_attrs.
Qed.

Lemma parse_printed_attrs attrs :
  forallb attr_ok attrs = true → parseAttrs (trimLeft (concat_str (map print_attr attrs))) = insert_attrs attrs ∅.
Proof.
  intros Ha. unfold parseAttrs. rewrite attrs_from_trim. apply attrs_from_print; [done|].
  destruct attrs as [|[k v] attrs]; [simpl; lia|].
  pose proof (length_print_attrs ((k, v) :: attrs)) as Hl.
  assert (Nat.pred (String.length (concat_str (map print_attr ((k, v) :: attrs)))) ≤
    String.length (trimLeft (concat_str (map print_attr ((k, v) :: attrs))))); [|lia].
  apply andb_true_iff in Ha as [Ha _]. apply andb_true_iff in Ha as [Hk _]. apply andb_true_iff in Hk as [Hne Hk].
  cbn [fst] in Hne, Hk. cbn [map concat_str]. unfold print_attr at 1 3. cbn [fst snd].
  destruct k as [|c k]; [done|]. simpl in Hk. apply andb_true_iff in Hk as [Hc _].
  assert (negb (isBlank c) = true) as Hb
    by (revert Hc; apply (ascii_imp lower_name_char (λ c, negb (isBlank c))); vm_compute; reflexivity).
  apply negb_true_iff in Hb. simpl. rewrite Hb. simpl. lia.
Qed.

Lemma tryParse_print name attrs inner :
  name_ok name = true → forallb attr_ok attrs = true → all_chars (not_char "[") inner = true →
  tryParseShortcode (print name attrs inner) =
  Some (mkShortcode name (insert_attrs attrs ∅) inner false (print name attrs inner), "").
Proof.
  intros Hn Ha Hi. destruct (name_ok_parts name Hn) as (c & n & Ename & Hc1 & Hc2 & Hsn & Hl & Hnc & _).
  unfold tryParseShortcode, print at 1. rewrite string_app_cons. rewrite Ascii.eqb_refl. cbn [negb].
  rewrite string_app_nil_l, findTagClose_print by done.
  assert (∃ s, print_open name attrs = String c s) as [s Es].
  { unfold print_open. rewrite Ename, string_app_cons. eauto. }
  assert (bool_decide (print_open name attrs = "") || strings.HasPrefix (print_open name attrs) "/" = false) as ->.
  { rewrite Es. simpl. rewrite (bool_decide_false ("/"%char = c)) by congruence. done. }
  rewrite (bool_decide_false (last_byte (print_open name attrs) = _)) by (by apply print_open_last).
  rewrite split_print by done. rewrite Hsn. cbn [negb]. rewrite ToLower_id by done.
  rewrite findCloser_print by done. rewrite parse_printed_attrs by done.
  do 2 f_equal. unfold print. f_equal. rewrite string_app_cons, !string_app_assoc. done.
Qed.

(** C21. A printed shortcode scans back: name, attributes and inner text, for every
    lower-case name, attributes with double-quoted values, and an inner text
    without a bracket. *)
Theorem print_scans name attrs inner :
  name_ok name = true → forallb attr_ok attrs = true → all_chars (not_char "[") inner = true →
  scanShortcodes (print name attrs inner) =
  [shortcodeToken (mkShortcode name (insert_attrs attrs ∅) inner false (print name attrs inner))].
Proof.
  intros Hn Ha Hi. pose proof (tryParse_print name attrs inner Hn Ha Hi) as Hp.
  destruct (name_ok_parts name Hn) as (c & n & Ename & Hc1 & _).
  unfold scanShortcodes. assert (∃ s, print name attrs inner = String "[" (String c s)) as [s Es].
  { unfold print, print_open. rewrite Ename. rewrite !string_app_cons, string_app_nil_l. eauto. }
  rewrite Es in Hp |- *. cbn [String.length scan_from]. rewrite Ascii.eqb_refl. cbn [negb].
  assert (strings.HasPrefix (String c s) "[" = false) as ->.
  { cbn [strings.HasPrefix]. by rewrite bool_decide_false by congruence. }
  rewrite Hp. cbn [flushLiteral app]. done.
Qed.

Definition caption_attrs : list (string * string) := [("id", "att_1"); ("alt", "a ] b")].

Lemma print_scans_witness :
  scanShortcodes (print "caption" caption_attrs "my text") =
  [shortcodeToken (mkShortcode "caption" (insert_attrs caption_attrs ∅) "my text" false
     (print "caption" caption_attrs "my text"))].
Proof. apply print_scans; vm_compute; reflexivity. Defined.

Lemma Process_preserve_lossless_witness :
  concat_str (map content (Blocks (Process ModePreserve None "a [b x=1]c[b]d[/b][/b] [ [/e] [f /]"))) =
  "a [b x=1]c[b]d[/b][/b] [ [/e] [f /]".
Proof. apply Process_preserve_lossless. vm_compute. reflexivity. Defined.

(** A self-closing tag of the same name inside counts as an opener, so the closing
    tag is not found and the content is cut loose. *)
Lemma self_closing_inside :
  map token_text (scanShortcodes "[row]a[row /]b[/row]") = ["[row]"; "a"; "[row /]"; "b[/row]"].
Proof. vm_compute. reflexivity. Qed.

(** A bare value that ends in a slash makes the tag self-closing. *)
Lemma bare_url_closes :
  scanShortcodes "[embed url=http://a/]x[/embed]" =
  [shortcodeToken (mkShortcode "embed" {["url" := "http://a"]} "" true "[embed url=http://a/]");
   literalToken "x[/embed]"].
Proof. vm_compute. reflexivity. Qed.
