(* ===== verification/Pat.v ===== *)
(** * Personal access tokens (packages/go/auth/pat: token.go, scopes.go, store.go,
    middleware.go; apps/api/internal/admin/tokens/handler.go)

    A token is the namespace and 32 random base-62 characters; the table keeps a
    salted argon2id hash of it. A request that carries a token runs with the
    capabilities that are both in the token's scopes and held by its owner. The
    stores are behind the class [PatStore], with the in-memory and the Postgres
    store as instances; each store call is one step (a mutex, or one statement on
    the table). argon2, the clock, the random bytes and new row ids are arguments;
    byte slices are strings. *)
From S2P Require Import Prelude GoStrings GoTime Http Policy.
From Stdlib Require Import Ascii.

(** ** Tokens (token.go) *)

Definition Namespace : string := "gnp_".
Definition suffixLen : nat := 32.
Definition PrefixLen : nat := 8.
Definition MinTokenLen : nat := String.length Namespace + suffixLen.
Definition base62Alphabet : string := "0123456789ABCDEFGHIJKLMNOPQRSTUVWXYZabcdefghijklmnopqrstuvwxyz".

Inductive pat_error :=
| ErrInvalid | ErrExpired | ErrRevoked | ErrNotFound
| ErrOther (what : string).
#[export] Instance pat_error_eq : EqDecision pat_error.
Proof. solve_decision. Defined.

(** The Go field names, with the prefix [p_]. *)
Record PAT := mkPAT {
  p_ID : string; p_UserID : string; p_Name : string; p_Prefix : string; p_Scopes : list string;
  p_CreatedAt : Time; p_LastUsedAt : option Time; p_ExpiresAt : option Time; p_RevokedAt : option Time }.

Record argon2Params := mkParams { memory : Z; iterations : Z; parallelism : Z; saltLen : nat; keyLen : nat }.
Definition productionArgon2Params : argon2Params := mkParams (64 * 1024) 3 2 16 32.

(** [b] is a base-62 digit of a token tail. *)
Definition base62 (c : ascii) : bool := in_range "0" "9" c || in_range "A" "Z" c || in_range "a" "z" c.

Definition ValidShape (s : string) : bool :=
  if String.length s <? MinTokenLen then false
  else if negb (strings.HasPrefix s Namespace) then false
  else
    let tail := strings.drop (String.length Namespace) s in
    if negb (String.length tail =? suffixLen) then false else all_chars base62 tail.

Definition PrefixOf (s : string) : string :=
  if negb (ValidShape s) then "" else String.substring (String.length Namespace) PrefixLen s.

(** [strings.EqualFold] is used on the seven bytes of "Bearer " only, none of
    whose letters folds to a letter outside ASCII. *)
Definition ParseBearer (header : string) : option string :=
  let prefix := "Bearer " in
  if String.length header <=? String.length prefix then None
  else if negb (bool_decide (strings.ToLower (String.substring 0 (String.length prefix) header) = strings.ToLower prefix))
  then None
  else Some (strings.drop (String.length prefix) header).

(** The loop over one buffer of [randomBase62], and the loop over the reads:
    [None] when the reads given do not suffice. *)
Definition base62_digit (b : Z) : ascii := default "0"%char (String.get (Z.to_nat (b mod 62)) base62Alphabet).

Fixpoint fill_base62 (n : nat) (out : string) (buf : list Z) : string :=
  match buf with
  | [] => out
  | b :: buf =>
      if (248 <=? b)%Z then fill_base62 n out buf
      else
        let out := out +:+ String (base62_digit b) "" in
        if String.length out =? n then out else fill_base62 n out buf
  end.

Fixpoint randomBase62_from (n : nat) (out : string) (reads : list (result string (list Z)))
    : option (result string string) :=
  if String.length out <? n then
    match reads with
    | [] => None
    | Err e :: _ => Some (Err e)
    | Ok buf :: reads => randomBase62_from n (fill_base62 n out buf) reads
    end
  else Some (Ok out).
Definition randomBase62 (n : nat) (reads : list (result string (list Z))) : option (result string string) :=
  randomBase62_from n "" reads.

Section argon2.
(** [argon2.IDKey]: password, salt, time, memory, threads, key length. *)
Context (IDKey : string → string → Z → Z → Z → nat → string).
Context (params : argon2Params).

Definition key_of (plaintext salt : string) : string :=
  IDKey plaintext salt (iterations params) (memory params) (parallelism params) (keyLen params).

Definition Hash (salt : result string string) (plaintext : string) : result string string :=
  match salt with
  | Err e => Err ("pat: read salt: " +:+ e)
  | Ok salt => Ok (salt +:+ key_of plaintext salt)
  end.

Definition VerifyHash (stored candidate : string) : bool :=
  if negb (String.length stored =? saltLen params + keyLen params) then false
  else
    let salt := String.substring 0 (saltLen params) stored in
    let want := strings.drop (saltLen params) stored in
    bool_decide (want = key_of candidate salt).

(** [New]: the plaintext, the row without its id, and the hash. [None] while the
    random source has to be read again. *)
Definition New (reads : list (result string (list Z))) (salt : result string string) (now : Time)
    (userID name : string) (scopes : list string) (expiresAt : option Time)
    : option (result string (string * PAT * string)) :=
  if decide (userID = "") then Some (Err "pat: userID is required")
  else if decide (strings.TrimSpace name = "") then Some (Err "pat: name must be non-empty")
  else
    match randomBase62 suffixLen reads with
    | None => None
    | Some (Err e) => Some (Err ("pat: random suffix: " +:+ e))
    | Some (Ok suffix) =>
        let plaintext := Namespace +:+ suffix in
        match Hash salt plaintext with
        | Err e => Some (Err ("pat: hash: " +:+ e))
        | Ok hash =>
            Some (Ok (plaintext,
              mkPAT "" userID (strings.TrimSpace name) (String.substring 0 PrefixLen suffix) scopes now None expiresAt None,
              hash))
        end
    end.

(** ** Stores (store.go) *)

Record memoryRow := mkRow { r_pat : PAT; r_hash : string }.

Definition with_ID (id : string) (p : PAT) : PAT :=
  mkPAT id (p_UserID p) (p_Name p) (p_Prefix p) (p_Scopes p) (p_CreatedAt p) (p_LastUsedAt p) (p_ExpiresAt p) (p_RevokedAt p).
Definition revoked_at (t : Time) (p : PAT) : PAT :=
  mkPAT (p_ID p) (p_UserID p) (p_Name p) (p_Prefix p) (p_Scopes p) (p_CreatedAt p) (p_LastUsedAt p) (p_ExpiresAt p) (Some t).
Definition used_at (t : Time) (p : PAT) : PAT :=
  mkPAT (p_ID p) (p_UserID p) (p_Name p) (p_Prefix p) (p_Scopes p) (p_CreatedAt p) (Some t) (p_ExpiresAt p) (p_RevokedAt p).
Definition on_pat (f : PAT → PAT) (r : memoryRow) : memoryRow := mkRow (f (r_pat r)) (r_hash r).

(** The checks both stores end [Lookup] with. *)
Definition verdict (now : Time) (p : PAT) : result pat_error PAT :=
  match p_RevokedAt p with
  | Some _ => Err ErrRevoked
  | None =>
      match p_ExpiresAt p with
      | Some e => if negb (time_after e now) then Err ErrExpired else Ok p
      | None => Ok p
      end
  end.

(** The loop of [Lookup]: no break, so the last match is kept. *)
Fixpoint match_rows (plaintext : string) (matched : option PAT) (rows : list memoryRow) : option PAT :=
  match rows with
  | [] => matched
  | r :: rows => match_rows plaintext (if VerifyHash (r_hash r) plaintext then Some (r_pat r) else matched) rows
  end.

(** What the surroundings answer during one call: the clock, the id of a new row,
    and whether its statements are refused or executed with the reply lost. *)
Inductive fault := Served | Refused (e : string) | Lost (e : string).
Record env := mkEnv { now : Time; fresh : string; fault1 : fault; fault2 : fault }.

Class PatStore (T : Type) := {
  st_Issue : env → T → PAT → string → T * result pat_error PAT;
  st_Lookup : env → T → string → result pat_error PAT;
  st_List : env → T → string → result pat_error (list PAT);
  st_Revoke : env → T → string → string → T * option pat_error;
  st_TouchUsed : env → T → string → Time → T * option pat_error;
}.

(** *** The in-memory store *)

Record MemoryStore := mkStore { rows : list memoryRow; nextID : Z }.
Definition NewMemoryStore : MemoryStore := mkStore [] 0.

(** [%012d] *)
Definition pad12 (n : Z) : string :=
  let s := strconv.Itoa n in
  String.concat "" (replicate (12 - String.length s) "0") +:+ s.
Definition memory_id (n : Z) : string := "00000000-0000-7000-8000-" +:+ pad12 n.

Definition mem_Issue (m : MemoryStore) (row : PAT) (hash : string) : MemoryStore * result pat_error PAT :=
  if String.length hash =? 0 then (m, Err (ErrOther "pat: Issue requires a non-empty hash"))
  else
    let next := ((nextID m + 1) mod 2 ^ 64)%Z in
    let row := with_ID (memory_id next) row in
    (mkStore (rows m ++ [mkRow row hash]) next, Ok row).

Definition mem_Lookup (now : Time) (m : MemoryStore) (plaintext : string) : result pat_error PAT :=
  if negb (ValidShape plaintext) then Err ErrInvalid
  else match match_rows plaintext None (rows m) with
       | None => Err ErrNotFound
       | Some p => verdict now p
       end.

Definition mem_List (m : MemoryStore) (userID : string) : result pat_error (list PAT) :=
  Ok (rev (filter (λ p, p_UserID p = userID ∧ p_RevokedAt p = None) (r_pat <$> rows m))).

Fixpoint revoke_rows (now : Time) (userID id : string) (l : list memoryRow) : result pat_error (list memoryRow) :=
  match l with
  | [] => Err ErrNotFound
  | r :: l =>
      if decide (p_ID (r_pat r) = id) then
        if decide (p_UserID (r_pat r) = userID) then
          match p_RevokedAt (r_pat r) with
          | Some _ => Ok (r :: l)
          | None => Ok (on_pat (revoked_at now) r :: l)
          end
        else Err ErrNotFound
      else let? l' := revoke_rows now userID id l in Ok (r :: l')
  end.

Definition mem_Revoke (now : Time) (m : MemoryStore) (userID id : string) : MemoryStore * option pat_error :=
  match revoke_rows now userID id (rows m) with
  | Ok l => (mkStore l (nextID m), None)
  | Err e => (m, Some e)
  end.

Fixpoint touch_rows (id : string) (t : Time) (l : list memoryRow) : option (list memoryRow) :=
  match l with
  | [] => None
  | r :: l =>
      if decide (p_ID (r_pat r) = id) then Some (on_pat (used_at t) r :: l)
      else l' ← touch_rows id t l; Some (r :: l')
  end.

Definition mem_TouchUsed (m : MemoryStore) (id : string) (t : Time) : MemoryStore * option pat_error :=
  match touch_rows id t (rows m) with
  | Some l => (mkStore l (nextID m), None)
  | None => (m, Some ErrNotFound)
  end.

#[export] Instance memory_pats : PatStore MemoryStore := {
  st_Issue := λ _, mem_Issue;
  st_Lookup := λ e, mem_Lookup (now e);
  st_List := λ _, mem_List;
  st_Revoke := λ e, mem_Revoke (now e);
  st_TouchUsed := λ _, mem_TouchUsed;
}.

(** *** The Postgres store

    [scan] is the order in which a query meets the rows. *)
Record PostgresStore := mkPgStore { table : list memoryRow; tokens : gmap string Time }.
Definition touchThrottle : Duration := (60 * second)%Z.

Section postgres.
Context (scan : list memoryRow → list memoryRow).

(** A statement: refused, served, or executed without an answer. *)
Definition statement {A : Type} (f : fault) (what : string) (t t' : list memoryRow) (a : result string A)
    : list memoryRow * result pat_error A :=
  match f with
  | Refused e => (t, Err (ErrOther (what +:+ e)))
  | Lost e => (t', Err (ErrOther (what +:+ e)))
  | Served => match a with Ok a => (t', Ok a) | Err e => (t, Err (ErrOther (what +:+ e))) end
  end.

(** [CHAR(8)] *)
Definition char8 (s : string) : string := s +:+ String.concat "" (replicate (8 - String.length s) " ").
Fixpoint btrim_empty (s : string) : bool :=
  match s with EmptyString => true | String c s => Ascii.eqb c " " && btrim_empty s end.

(** The constraints of the table: its primary key, [UNIQUE (hash)] and checks. *)
Definition insert_pat (t : list memoryRow) (row : PAT) (hash : string) : result string (list memoryRow) :=
  if existsb (λ r, bool_decide (p_ID (r_pat r) = p_ID row) || bool_decide (r_hash r = hash)) t then Err "duplicate key"
  else if btrim_empty (p_Name row) then Err "check constraint"
  else if PrefixLen <? String.length (p_Prefix row) then Err "value too long"
  else Ok (t ++ [mkRow (mkPAT (p_ID row) (p_UserID row) (p_Name row) (char8 (p_Prefix row)) (p_Scopes row)
                          (p_CreatedAt row) None (p_ExpiresAt row) None) hash]).

Definition pg_Issue (e : env) (s : PostgresStore) (row : PAT) (hash : string) : PostgresStore * result pat_error PAT :=
  let row := with_ID (fresh e) row in
  let r := insert_pat (table s) row hash in
  let t' := match r with Ok t => t | Err _ => table s end in
  let '(t, a) := statement (fault1 e) "pat: insert: " (table s) t' (let? _ := r in Ok row) in
  (mkPgStore t (tokens s), a).

Definition pg_Lookup (e : env) (s : PostgresStore) (plaintext : string) : result pat_error PAT :=
  if negb (ValidShape plaintext) then Err ErrInvalid
  else
    let prefix := String.substring (String.length Namespace) PrefixLen plaintext in
    let cands := scan (filter (λ r, p_Prefix (r_pat r) = prefix) (table s)) in
    match (statement (fault1 e) "pat: lookup: " (table s) (table s) (Ok cands)).2 with
    | Err err => Err err
    | Ok cands =>
        match match_rows plaintext None cands with
        | None => Err ErrNotFound
        | Some p => verdict (now e) p
        end
    end.

Definition active (t : Time) (p : PAT) : Prop :=
  p_RevokedAt p = None ∧ match p_ExpiresAt p with None => True | Some e => (t < e)%Z end.
#[export] Instance active_dec t p : Decision (active t p).
Proof. unfold active. destruct (p_ExpiresAt p); apply _. Defined.

Definition pg_List (e : env) (s : PostgresStore) (userID : string) : result pat_error (list PAT) :=
  let l := sort_by (λ p q, (p_CreatedAt q <? p_CreatedAt p)%Z)
             (filter (λ p, p_UserID p = userID ∧ active (now e) p) (r_pat <$> scan (table s))) in
  (statement (fault1 e) "pat: list: " (table s) (table s) (Ok l)).2.

Definition of_user (userID id : string) (p : PAT) : bool := bool_decide (p_ID p = id ∧ p_UserID p = userID).
Definition revocable (userID id : string) (p : PAT) : bool := of_user userID id p && bool_decide (p_RevokedAt p = None).
Definition revoke_row (t : Time) (userID id : string) (r : memoryRow) : memoryRow :=
  if revocable userID id (r_pat r) then on_pat (revoked_at t) r else r.

Definition pg_Revoke (e : env) (s : PostgresStore) (userID id : string) : PostgresStore * option pat_error :=
  let affected := existsb (λ r, revocable userID id (r_pat r)) (table s) in
  let '(t, a) := statement (fault1 e) "pat: revoke: " (table s) (revoke_row (now e) userID id <$> table s) (Ok affected) in
  let s := mkPgStore t (tokens s) in
  match a with
  | Err err => (s, Some err)
  | Ok true => (s, None)
  | Ok false =>
      match (statement (fault2 e) "pat: revoke exists: " t t (Ok (existsb (λ r, of_user userID id (r_pat r)) t))).2 with
      | Err err => (s, Some err)
      | Ok found => (s, if negb found then Some ErrNotFound else None)
      end
  end.

(** The cache of [TouchUsed] is written before the statement, whatever becomes of it. *)
Definition touch_row (id : string) (t : Time) (r : memoryRow) : memoryRow :=
  if decide (p_ID (r_pat r) = id) then on_pat (used_at t) r else r.

Definition pg_TouchUsed (e : env) (s : PostgresStore) (id : string) (t : Time) : PostgresStore * option pat_error :=
  if match tokens s !! id with Some last => (time.Sub t last <? touchThrottle)%Z | None => false end then (s, None)
  else
    let '(tbl, a) := statement (fault1 e) "pat: touch: " (table s) (touch_row id t <$> table s) (Ok tt) in
    (mkPgStore tbl (<[id := t]> (tokens s)), match a with Ok _ => None | Err err => Some err end).

Definition postgres_pats : PatStore PostgresStore := {|
  st_Issue := pg_Issue;
  st_Lookup := pg_Lookup;
  st_List := pg_List;
  st_Revoke := pg_Revoke;
  st_TouchUsed := pg_TouchUsed;
|}.
End postgres.

(** ** Requests (scopes.go, middleware.go)

    [reqctx] is what the context of a request carries for these packages. *)
Record reqctx := mkCtx { c_principal : option Principal; c_caps : option CapabilitySet; c_token : option string }.

Definition Intersect (scopes : list string) (userCaps : CapabilitySet) : CapabilitySet :=
  foldl (λ out s, if Has userCaps s then {[s]} ∪ out else out) ∅ scopes.

Section middleware.
Context {T S : Type} `{PatStore T}.
Context (UserCaps : string → result string CapabilitySet).

(** The handler with the store and its own state; the second component is the
    write of last_used_at left to a goroutine. *)
Abbreviation handler := (T → S → reqctx → Writer → S * Writer) (only parsing).

Definition Middleware (e : env) (touch_at : Time) (next : handler) (authorization : string)
    (t : T) (s : S) (ctx : reqctx) (w : Writer) : S * Writer * option (string * Time) :=
  match ParseBearer authorization with
  | None => (next t s ctx w, None)
  | Some candidate =>
      if negb (ValidShape candidate) then (next t s ctx w, None)
      else
        match st_Lookup e t candidate with
        | Err (ErrOther _) => (s, HttpError "internal server error" 500 w, None)
        | Err _ => (s, HttpError "unauthorized" 401 w, None)
        | Ok row =>
            match UserCaps (p_UserID row) with
            | Err _ => (s, HttpError "internal server error" 500 w, None)
            | Ok userCaps =>
                let effective := Intersect (p_Scopes row) userCaps in
                let ctx := mkCtx (Some (mkPrincipal (p_UserID row) [])) (Some effective) (Some (p_ID row)) in
                (next t s ctx w, Some (p_ID row, touch_at))
            end
        end
  end.

(** [pat.Require] *)
Definition Require_pat (roleCaps : BasicPolicy) (c : Capability) (next : handler) : handler := λ t s ctx w,
  match c_caps ctx with
  | Some caps =>
      if Has caps c then next t s ctx w
      else (s, HttpError ("token scope does not grant " +:+ c) 403 w)
  | None => Require_ roleCaps c (λ s w, next t s ctx w) (c_principal ctx) s w
  end.
End middleware.

(** ** The token routes (apps/api/internal/admin/tokens/handler.go)

    [body] is the decoded request body, if it decodes; [order] the order in which
    Go visits a set. *)
Record TokenView := mkView {
  v_ID : string; v_Name : string; v_Prefix : string; v_Scopes : list string; v_CreatedAt : Time;
  v_LastUsedAt : option Time; v_ExpiresAt : option Time }.
Inductive response :=
| RError (status : Z) (code msg : string)
| RList (data : list TokenView)
| RIssued (view : TokenView) (plaintext : string) (effective_scopes : list string) (save_now : bool)
| RNoContent.

Definition toView (p : PAT) : TokenView :=
  mkView (p_ID p) (p_Name p) (p_Prefix p) (p_Scopes p) (p_CreatedAt p) (p_LastUsedAt p) (p_ExpiresAt p).

Record IssueRequest := mkIssue { i_Name : string; i_Scopes : list string; i_ExpiresIn : string }.

Definition presetExpiry (s : string) (now : Time) : option (option Time) :=
  let s := strings.TrimSpace s in
  if decide (s = "" ∨ s = "never") then Some None
  else if decide (s = "30d") then Some (Some (now + 30 * 24 * hour)%Z)
  else if decide (s = "90d") then Some (Some (now + 90 * 24 * hour)%Z)
  else if decide (s = "1y") then Some (Some (now + 365 * 24 * hour)%Z)
  else None.

Fixpoint dedup_from (seen : gset string) (l : list string) : list string :=
  match l with
  | [] => []
  | s :: l =>
      let s := strings.TrimSpace s in
      if decide (s = "") then dedup_from seen l
      else if decide (s ∈ seen) then dedup_from seen l
      else s :: dedup_from ({[s]} ∪ seen) l
  end.
Definition dedupScopes (l : list string) : list string := dedup_from ∅ l.

Section routes.
Context {T : Type} `{PatStore T}.
Context (UserCaps : string → result string CapabilitySet) (order : CapabilitySet → list string).

Definition gate {A : Type} (unauthenticated : A) (next : Principal → A) (ctx : reqctx) : A :=
  match c_principal ctx with
  | Some pr => if decide (UserID pr = "") then unauthenticated else next pr
  | None => unauthenticated
  end.
Definition unauthenticated : response := RError 401 "unauthenticated" "authentication required".

Definition list_tokens (e : env) (t : T) (pr : Principal) : response :=
  match st_List e t (UserID pr) with
  | Err _ => RError 500 "internal_error" "failed to list tokens"
  | Ok rows => RList (toView <$> rows)
  end.

Definition issue (e : env) (reads : list (result string (list Z))) (salt : result string string) (handler_now : Time)
    (body : option IssueRequest) (t : T) (pr : Principal) : option (T * response) :=
  match body with
  | None => Some (t, RError 400 "invalid_body" "request body is not valid JSON")
  | Some req =>
      if decide (strings.TrimSpace (i_Name req) = "") then Some (t, RError 400 "invalid_name" "name is required")
      else if length (i_Scopes req) =? 0 then Some (t, RError 400 "invalid_scopes" "at least one scope is required")
      else
        let scopes := dedupScopes (i_Scopes req) in
        match presetExpiry (i_ExpiresIn req) handler_now with
        | None => Some (t, RError 400 "invalid_expires_in" "expires_in must be one of: never, 30d, 90d, 1y")
        | Some expiresAt =>
            match New reads salt (now e) (UserID pr) (i_Name req) scopes expiresAt with
            | None => None
            | Some (Err _) => Some (t, RError 500 "internal_error" "failed to mint token")
            | Some (Ok (plaintext, row, hash)) =>
                match st_Issue e t row hash with
                | (t, Err _) => Some (t, RError 500 "internal_error" "failed to persist token")
                | (t, Ok stored) =>
                    let caps := match UserCaps (UserID pr) with Ok caps => caps | Err _ => ∅ end in
                    Some (t, RIssued (toView stored) plaintext (order (Intersect scopes caps)) true)
                end
            end
        end
  end.

Definition revoke_token (e : env) (id : string) (t : T) (pr : Principal) : T * response :=
  if decide (id = "") then (t, RError 400 "missing_id" "token id is required")
  else
    match st_Revoke e t (UserID pr) id with
    | (t, None) => (t, RNoContent)
    | (t, Some ErrNotFound) => (t, RError 404 "not_found" "token not found")
    | (t, Some _) => (t, RError 500 "internal_error" "failed to revoke token")
    end.
End routes.
End argon2.
