(* ===== verification/PatProps.v ===== *)
(** * Personal access tokens: what the stores promise and what requests may do

    The laws of [PatStore] and their two instances; random tokens; histories of
    store calls, and the theorem that a request runs only with what was granted
    and not revoked. *)
From S2P Require Import Prelude GoStrings GoTime Http Policy Pat.
From Stdlib Require Import Ascii.

(** ** Random tails *)

Lemma base62_digit_ok b : (0 ≤ b)%Z → base62 (base62_digit b) = true.
Proof.
  intros Hb. unfold base62_digit. pose proof (Z.mod_pos_bound b 62 ltac:(lia)).
  assert (∃ k, (k < 62)%nat ∧ (b mod 62)%Z = Z.of_nat k) as (k & Hk & ->) by (exists (Z.to_nat (b mod 62)); lia).
  rewrite Nat2Z.id. do 62 (destruct k as [|k]; [reflexivity|]). lia.
Qed.

Definition accepted (buf : list Z) : nat := length (filter (λ b, (b < 248)%Z) buf).

Lemma fill_base62_spec n buf : ∀ out,
  Forall (λ b, (0 ≤ b)%Z) buf → all_chars base62 out = true → String.length out < n →
  all_chars base62 (fill_base62 n out buf) = true ∧
  String.length (fill_base62 n out buf) = Nat.min n (String.length out + accepted buf).
Proof.
  unfold accepted. induction buf as [|b buf IH]; intros out Hb Hout Hlen; [split; [done|simpl; lia]|].
  apply Forall_cons in Hb as [H0 Hb]. cbn [fill_base62].
  destruct (248 <=? b)%Z eqn:E.
  - rewrite filter_cons_False by lia. by apply IH.
  - rewrite filter_cons_True by lia. cbn [length].
    assert (all_chars base62 (out +:+ String (base62_digit b) "") = true) as Hnew.
    { rewrite all_chars_app, Hout. cbn [all_chars]. by rewrite base62_digit_ok. }
    destruct (String.length (out +:+ String (base62_digit b) "") =? n)%nat eqn:En; rewrite string_length_snoc in En.
    + apply Nat.eqb_eq in En. split; [done|]. rewrite string_length_snoc. lia.
    + apply Nat.eqb_neq in En. destruct (IH (out +:+ String (base62_digit b) "") Hb Hnew) as [? Hl].
      { rewrite string_length_snoc. lia. }
      split; [done|]. rewrite Hl, string_length_snoc. lia.
Qed.

Lemma randomBase62_from_spec n reads : ∀ out bufs,
  reads = Ok <$> bufs → Forall (Forall (λ b, (0 ≤ b)%Z)) bufs → all_chars base62 out = true → String.length out ≤ n →
  n ≤ String.length out + sum_list_with accepted bufs →
  ∃ s, randomBase62_from n out reads = Some (Ok s) ∧ String.length s = n ∧ all_chars base62 s = true.
Proof.
  induction reads as [|r reads IH]; intros out bufs Hr Hb Hout Hlen Hsum;
    (destruct bufs as [|buf bufs]; [|]); simplify_eq/=.
  - exists out. case_match eqn:E; [apply Nat.ltb_lt in E; lia|]. split_and!; [done|lia|done].
  - apply Forall_cons in Hb as [Hb Hbs]. case_match eqn:E.
    + apply Nat.ltb_lt in E. destruct (fill_base62_spec n buf out Hb Hout E) as [H1 H2].
      apply (IH _ bufs); [done..|lia|lia].
    + apply Nat.ltb_ge in E. exists out. split_and!; [done|lia|done].
Qed.

(** [randomBase62] ends as soon as the buffers hold enough bytes below 248, with
    the requested number of base-62 characters. *)
Lemma randomBase62_total n bufs :
  Forall (Forall (λ b, (0 ≤ b)%Z)) bufs → n ≤ sum_list_with accepted bufs →
  ∃ s, randomBase62 n (Ok <$> bufs) = Some (Ok s) ∧ String.length s = n ∧ all_chars base62 s = true.
Proof. intros. apply (randomBase62_from_spec n _ "" bufs); simpl; auto; lia. Qed.

(** The rejection leaves four bytes for every character of the alphabet, and no
    byte for any other character. *)
Lemma base62_uniform :
  Forall (λ c, length (filter (λ b, base62_digit (Z.of_nat b) = c) (seq 0 248)) = 4%nat) (String.list_ascii_of_string base62Alphabet) ∧
  Forall (λ b, base62_digit (Z.of_nat b) ∈ String.list_ascii_of_string base62Alphabet) (seq 0 248).
Proof. split; apply (bool_decide_unpack _); vm_compute; exact I. Qed.

(** ** Shapes *)

Lemma ValidShape_new suffix :
  String.length suffix = suffixLen → all_chars base62 suffix = true → ValidShape (Namespace +:+ suffix) = true.
Proof.
  intros Hl Ha. unfold ValidShape. rewrite string_length_app, Hl.
  replace (_ <? MinTokenLen) with false by (symmetry; by apply Nat.ltb_ge).
  rewrite HasPrefix_app, strings_drop_app, Hl. simpl. done.
Qed.

Section laws.
Context (IDKey : string → string → Z → Z → Z → nat → string) (params : argon2Params).
Abbreviation VerifyHash := (VerifyHash IDKey params).

(** A hash verifies the token it was made from. *)
Lemma VerifyHash_Hash salt plaintext hash :
  (∀ pw salt t m p n, String.length (IDKey pw salt t m p n) = n) →
  String.length salt = saltLen params → Hash IDKey params (Ok salt) plaintext = Ok hash → VerifyHash hash plaintext = true.
Proof.
  intros IDKey_length Hs [= <-]. unfold Pat.VerifyHash, key_of. rewrite string_length_app, IDKey_length, Hs, Nat.eqb_refl. simpl.
  rewrite <-Hs, strings_drop_app, substring_0_app. by apply bool_decide_eq_true.
Qed.

Lemma match_rows_spec tok rows : ∀ acc,
  match match_rows IDKey params tok acc rows with
  | Some p => Some p = acc ∨ ∃ r, r ∈ rows ∧ r_pat r = p ∧ VerifyHash (r_hash r) tok = true
  | None => acc = None ∧ ∀ r, r ∈ rows → VerifyHash (r_hash r) tok = false
  end.
Proof.
  induction rows as [|r rows IH]; intros acc; cbn [match_rows].
  - destruct acc; [by left|]. split; [done|]. intros r []%elem_of_nil.
  - specialize (IH (if VerifyHash (r_hash r) tok then Some (r_pat r) else acc)).
    destruct (match_rows _ _ _ _ _) as [p|].
    + destruct (VerifyHash (r_hash r) tok) eqn:E.
      * destruct IH as [[= ->]|(r' & ? & ?)]; right; [exists r|exists r']; set_solver.
      * destruct IH as [->|(r' & ? & ?)]; [by left|right; exists r'; set_solver].
    + destruct (VerifyHash (r_hash r) tok) eqn:E; [by destruct IH|]. destruct IH as [-> Hno].
      split; [done|]. intros r' [->|?]%elem_of_cons; auto.
Qed.

(** A token that one stored row verifies, and no other, finds that row. *)
Lemma match_rows_unique tok rows r :
  r ∈ rows → VerifyHash (r_hash r) tok = true →
  (∀ r', r' ∈ rows → VerifyHash (r_hash r') tok = true → r_pat r' = r_pat r) →
  match_rows IDKey params tok None rows = Some (r_pat r).
Proof.
  intros Hr Hv Hu. pose proof (match_rows_spec tok rows None) as Hm.
  destruct (match_rows _ _ _ _ _) as [p|].
  - destruct Hm as [|(r' & Hr' & <- & Hv')]; [done|]. by rewrite (Hu r').
  - destruct Hm as [_ Hno]. rewrite Hno in Hv; done.
Qed.

(** ** What a store promises *)

Definition ids (l : list memoryRow) : list string := (λ r, p_ID (r_pat r)) <$> l.
(** The part of a row that the calls after its insertion leave alone. *)
Definition grant (p : PAT) : string * list string * option Time := (p_UserID p, p_Scopes p, p_ExpiresAt p).

(** [pat_rows] lists the stored rows; [room] is the number of rows from which on
    the ids of new rows repeat. *)
Class PatLaws (T : Type) (I : PatStore T) := {
  pat_rows : T → list memoryRow;
  pat_ok : T → Prop;
  room : T → Prop;
  ok_ids t : pat_ok t → NoDup (ids (pat_rows t));
  issue_law e t row h : pat_ok t → room t → p_RevokedAt row = None →
    let '(t', a) := st_Issue e t row h in
    pat_ok t' ∧
    (pat_rows t' = pat_rows t ∧ (∃ err, a = Err err) ∨
     ∃ r, pat_rows t' = pat_rows t ++ [r] ∧ r_hash r = h ∧ grant (r_pat r) = grant row ∧ p_RevokedAt (r_pat r) = None ∧
       (String.length (p_Prefix row) = PrefixLen → p_Prefix (r_pat r) = p_Prefix row) ∧
       match a with Ok p => p_ID p = p_ID (r_pat r) ∧ grant p = grant row | Err _ => True end);
  lookup_sound e t tok p : pat_ok t → st_Lookup e t tok = Ok p →
    ∃ r, r ∈ pat_rows t ∧ r_pat r = p ∧ VerifyHash (r_hash r) tok = true ∧ verdict (now e) p = Ok p;
  lookup_complete e t tok r : pat_ok t → fault1 e = Served → ValidShape tok = true → r ∈ pat_rows t →
    VerifyHash (r_hash r) tok = true → p_Prefix (r_pat r) = PrefixOf tok →
    (∀ r', r' ∈ pat_rows t → VerifyHash (r_hash r') tok = true → r_pat r' = r_pat r) →
    st_Lookup e t tok = verdict (now e) (r_pat r);
  revoke_law e t u id : pat_ok t →
    let '(t', a) := st_Revoke e t u id in
    pat_ok t' ∧
    (pat_rows t' = revoke_row (now e) u id <$> pat_rows t ∨
     pat_rows t' = pat_rows t ∧ ∃ err, a = Some err);
  touch_law e t id when : pat_ok t →
    let '(t', a) := st_TouchUsed e t id when in
    pat_ok t' ∧ (pat_rows t' = touch_row id when <$> pat_rows t ∨ pat_rows t' = pat_rows t);
}.

Lemma verdict_Ok now p q : verdict now p = Ok q → q = p ∧ p_RevokedAt p = None ∧
  ∀ t, p_ExpiresAt p = Some t → (now < t)%Z.
Proof.
  unfold verdict, time_after. destruct (p_RevokedAt p); [done|]. destruct (p_ExpiresAt p) as [t|].
  - destruct (Z.ltb_spec now t); [|done]. intros [= ->]. split_and!; [done..|]. by intros ? [= <-].
  - intros [= ->]. by split_and!.
Qed.

Lemma ids_map f l : (∀ r, p_ID (r_pat (f r)) = p_ID (r_pat r)) → ids (f <$> l) = ids l.
Proof. intros Hf. unfold ids. rewrite <-list_fmap_compose. apply list_fmap_ext. intros i r _. apply Hf. Qed.

Lemma revoke_row_ID t u id r : p_ID (r_pat (revoke_row t u id r)) = p_ID (r_pat r).
Proof. unfold revoke_row. by destruct (revocable _ _ _). Qed.
Lemma touch_row_ID id t r : p_ID (r_pat (touch_row id t r)) = p_ID (r_pat r).
Proof. unfold touch_row. by case_decide. Qed.
(** ** The in-memory store keeps the promise *)

Lemma digits_pad12 n : (0 ≤ n)%Z → strconv.digits 0 (pad12 n) = Some n.
Proof.
  intros Hn. unfold pad12. generalize (12 - String.length (strconv.Itoa n)). intros k.
  destruct (Itoa_digits n Hn) as (_ & Hd & _). induction k as [|k IH]; [exact Hd|].
  destruct k as [|k]; [exact Hd|]. exact IH.
Qed.

Lemma memory_id_inj m n : (0 ≤ m)%Z → (0 ≤ n)%Z → memory_id m = memory_id n → m = n.
Proof.
  intros Hm Hn H. apply string_app_inv_l in H.
  pose proof (digits_pad12 m Hm) as H1. rewrite H, digits_pad12 in H1 by done. congruence.
Qed.

Definition mem_ok (m : MemoryStore) : Prop :=
  nextID m = Z.of_nat (length (rows m)) ∧ (nextID m < 2 ^ 64)%Z ∧
  ids (rows m) = (λ k, memory_id (Z.of_nat k)) <$> seq 1 (length (rows m)).
Definition mem_room (m : MemoryStore) : Prop := (nextID m + 1 < 2 ^ 64)%Z.

Lemma mem_ok_ids m : mem_ok m → NoDup (ids (rows m)).
Proof.
  intros (_ & _ & ->). apply NoDup_fmap_2_strong; [|apply NoDup_seq].
  intros i j _ _ H. apply memory_id_inj in H; lia.
Qed.

Lemma mem_issue m row h : mem_ok m → mem_room m → p_RevokedAt row = None →
  let '(t', a) := mem_Issue m row h in
  mem_ok t' ∧
  (rows t' = rows m ∧ (∃ err, a = Err err) ∨
   ∃ r, rows t' = rows m ++ [r] ∧ r_hash r = h ∧ grant (r_pat r) = grant row ∧ p_RevokedAt (r_pat r) = None ∧
     (String.length (p_Prefix row) = PrefixLen → p_Prefix (r_pat r) = p_Prefix row) ∧
     match a with Ok p => p_ID p = p_ID (r_pat r) ∧ grant p = grant row | Err _ => True end).
Proof.
  intros (Hn & Hlt & Hids) Hroom Hrev. unfold mem_Issue. destruct (_ =? 0); [split; [done|left; eauto]|].
  unfold mem_room in Hroom. rewrite Z.mod_small by lia. split.
  - split_and!; simpl; [rewrite length_app; simpl; lia|lia|].
    unfold ids in *. rewrite fmap_app, Hids, length_app. simpl. rewrite Nat.add_1_r, seq_S, fmap_app. simpl.
    by rewrite Hn, Nat2Z.inj_succ, <-Z.add_1_r.
  - right. eexists. split_and!; try done.
Qed.

Lemma revoke_row_hit t u id r : p_ID (r_pat r) = id → p_UserID (r_pat r) = u →
  revoke_row t u id r = match p_RevokedAt (r_pat r) with Some _ => r | None => on_pat (revoked_at t) r end.
Proof.
  intros ? ?. unfold revoke_row, revocable, of_user. rewrite (bool_decide_eq_true_2 (_ ∧ _)) by done. simpl.
  destruct (p_RevokedAt _) eqn:E; by case_bool_decide.
Qed.
Lemma revoke_row_miss t u id r : ¬ (p_ID (r_pat r) = id ∧ p_UserID (r_pat r) = u) → revoke_row t u id r = r.
Proof. intros ?. unfold revoke_row, revocable, of_user. by rewrite (bool_decide_eq_false_2 (_ ∧ _)). Qed.

Lemma map_miss (f : memoryRow → memoryRow) id r l :
  (∀ r, p_ID (r_pat r) ≠ id → f r = r) → NoDup (ids (r :: l)) → p_ID (r_pat r) = id → f <$> l = l.
Proof.
  intros Hf [Hr _]%NoDup_cons Hid. rewrite <-(list_fmap_id l) at 2.
  apply list_fmap_ext. intros i r' H'%list_elem_of_lookup_2. apply Hf. intros E. apply Hr. rewrite Hid, <-E.
  by apply (list_elem_of_fmap_2 (λ r, p_ID (r_pat r))).
Qed.

Lemma revoke_rows_spec t u id l : NoDup (ids l) →
  match revoke_rows t u id l with
  | Ok l' => l' = revoke_row t u id <$> l
  | Err _ => True
  end.
Proof.
  induction l as [|r l IH]; [done|]. intros Hnd. cbn [revoke_rows].
  case_decide as Hid; [case_decide as Hu|]; [|done|].
  - cbn [fmap list_fmap]. rewrite revoke_row_hit by done.
    assert (revoke_row t u id <$> l = l) as Htl.
    { apply (map_miss _ id r); [|done..]. intros r' ?. apply revoke_row_miss. by intros []. }
    destruct (p_RevokedAt (r_pat r)); f_equal; exact (eq_sym Htl).
  - specialize (IH (NoDup_cons_1_2 _ _ Hnd)). destruct (revoke_rows _ _ _ l); [|done]. subst. cbn [fmap list_fmap].
    f_equal. symmetry. apply revoke_row_miss. by intros [].
Qed.

Lemma touch_rows_spec id t l : NoDup (ids l) →
  match touch_rows id t l with
  | Some l' => l' = touch_row id t <$> l
  | None => True
  end.
Proof.
  induction l as [|r l IH]; [done|]. intros Hnd. cbn [touch_rows]. case_decide as Hid.
  - cbn [fmap list_fmap]. unfold touch_row at 1. rewrite decide_True by done. f_equal. symmetry.
    apply (map_miss _ id r); [|done..]. intros r' ?. unfold touch_row. by rewrite decide_False.
  - specialize (IH (NoDup_cons_1_2 _ _ Hnd)). destruct (touch_rows _ _ l); [|done]. simpl. subst. cbn [fmap list_fmap].
    f_equal. unfold touch_row. by rewrite decide_False.
Qed.

Lemma mem_ok_map m f : (∀ r, p_ID (r_pat (f r)) = p_ID (r_pat r)) → mem_ok m → mem_ok (mkStore (f <$> rows m) (nextID m)).
Proof. intros Hf (Hn & Hlt & Hids). split_and!; simpl; rewrite ?ids_map, ?length_fmap; done. Qed.

#[export] Program Instance memory_pats_laws : PatLaws MemoryStore (memory_pats IDKey params) := {
  pat_rows := rows; pat_ok := mem_ok; room := mem_room;
}.
Next Obligation. intros m. apply mem_ok_ids. Qed.
Next Obligation. intros e m row h. apply mem_issue. Qed.
Next Obligation.
  intros e m tok p _ H. cbn in H. unfold mem_Lookup in H. destruct (negb _); [done|].
  pose proof (match_rows_spec tok (rows m) None) as Hm. destruct (match_rows _ _ _ _ _) as [q|]; [|done].
  destruct (verdict_Ok _ _ _ H) as [-> _]. destruct Hm as [|(r & ? & ? & ?)]; [done|]. by exists r.
Qed.
Next Obligation.
  intros e m tok r _ _ Hs Hr Hv _ Hu. cbn. unfold mem_Lookup. rewrite Hs. cbn.
  by rewrite (match_rows_unique tok _ r).
Qed.
Next Obligation.
  intros e m u id Hok. cbn. unfold mem_Revoke. pose proof (revoke_rows_spec (now e) u id _ (mem_ok_ids _ Hok)) as Hs.
  destruct (revoke_rows _ _ _ _) as [l|]; [|split; [done|right; eauto]]. subst.
  split; [apply mem_ok_map; [apply revoke_row_ID|done]|by left].
Qed.
Next Obligation.
  intros e m id t Hok. cbn. unfold mem_TouchUsed. pose proof (touch_rows_spec id t _ (mem_ok_ids _ Hok)) as Hs.
  destruct (touch_rows _ _ _) as [l|]; [|by split; [|right]]. subst.
  split; [apply mem_ok_map; [apply touch_row_ID|done]|by left].
Qed.

(** ** The Postgres store keeps it too *)

Section postgres.
Context (scan : list memoryRow → list memoryRow) (scan_perm : ∀ l, scan l ≡ₚ l).

(** A statement leaves the table alone and fails, or leaves the new table; an
    answer comes with the new table only. *)
Lemma statement_cases {A} f what t t' (a : result string A) :
  (∃ e, statement f what t t' a = (t, Err e)) ∨
  (∃ x, a = Ok x ∧ statement f what t t' a = (t', Ok x)) ∨
  ∃ e, statement f what t t' a = (t', Err e).
Proof. destruct f; destruct a; simpl; eauto. Qed.

Lemma char8_id s : String.length s = PrefixLen → char8 s = s.
Proof. intros H. unfold char8. rewrite H. apply string_app_nil_r. Qed.

Lemma insert_pat_spec t row h t' : insert_pat t row h = Ok t' → NoDup (ids t) →
  NoDup (ids t') ∧ ∃ r, t' = t ++ [r] ∧ r_hash r = h ∧ grant (r_pat r) = grant row ∧ p_RevokedAt (r_pat r) = None ∧
    (String.length (p_Prefix row) = PrefixLen → p_Prefix (r_pat r) = p_Prefix row) ∧ p_ID (r_pat r) = p_ID row.
Proof.
  unfold insert_pat. destruct (existsb _ t) eqn:E; [done|]. destruct (btrim_empty _); [done|].
  destruct (PrefixLen <? _) eqn:El; [done|]. intros [= <-] Hnd. split.
  - unfold ids. rewrite fmap_app. apply NoDup_app. split_and!; [done| |apply NoDup_singleton].
    intros x Hx ->%list_elem_of_singleton. apply (list_elem_of_fmap_1 _ _ _) in Hx as (r & Hr & Hin).
    assert (existsb (λ r, bool_decide (p_ID (r_pat r) = p_ID row) || bool_decide (r_hash r = h)) t = true) as Ht; [|congruence].
    apply existsb_exists. exists r. split; [by apply list_elem_of_In|]. apply orb_true_iff. left. apply bool_decide_eq_true. simpl in Hr. done.
  - eexists. split_and!; try done. intros ?. apply char8_id. done.
Qed.

Lemma pg_issue e s row h : NoDup (ids (table s)) → p_RevokedAt row = None →
  let '(s', a) := pg_Issue e s row h in
  NoDup (ids (table s')) ∧
  (table s' = table s ∧ (∃ err, a = Err err) ∨
   ∃ r, table s' = table s ++ [r] ∧ r_hash r = h ∧ grant (r_pat r) = grant row ∧ p_RevokedAt (r_pat r) = None ∧
     (String.length (p_Prefix row) = PrefixLen → p_Prefix (r_pat r) = p_Prefix row) ∧
     match a with Ok p => p_ID p = p_ID (r_pat r) ∧ grant p = grant row | Err _ => True end).
Proof.
  intros Hnd Hrev. unfold pg_Issue.
  destruct (insert_pat (table s) (with_ID (fresh e) row) h) as [t'|err] eqn:Ei.
  - destruct (insert_pat_spec _ _ _ _ Ei Hnd) as (Hnd' & r & -> & Hh & Hg & Hr & Hp & Hid).
    destruct (statement_cases (fault1 e) "pat: insert: " (table s) (table s ++ [r]) (Ok (with_ID (fresh e) row)))
      as [(x & Hx)|[(x & [= <-] & Hx)|(x & Hx)]]; rewrite Hx; simpl.
    + split; [done|left; eauto].
    + split; [done|]. right. exists r. by split_and!.
    + split; [done|]. right. exists r. by split_and!.
  - destruct (statement_cases (fault1 e) "pat: insert: " (table s) (table s) (@Err string PAT err))
      as [(x & Hx)|[(x & ? & Hx)|(x & Hx)]]; rewrite ?Hx; [|done|]; (split; [done|left; eauto]).
Qed.

#[export] Program Instance postgres_pats_laws : PatLaws PostgresStore (postgres_pats IDKey params scan) := {
  pat_rows := table; pat_ok := λ s, NoDup (ids (table s)); room := λ _, True;
}.
Next Obligation. done. Qed.
Next Obligation. intros e s row h Hok _. by apply pg_issue. Qed.
Next Obligation.
  intros e s tok p _ H. cbn in H. unfold pg_Lookup in H. destruct (negb _); [done|].
  remember (scan (filter _ _)) as cands eqn:Hc. destruct (fault1 e); cbn in H; [|done..].
  pose proof (match_rows_spec tok cands None) as Hm. destruct (match_rows _ _ _ _ _) as [q|]; [|done].
  destruct (verdict_Ok _ _ _ H) as [-> _]. destruct Hm as [|(r & Hr & ? & ?)]; [done|]. exists r.
  split_and!; [|done..]. subst cands. rewrite scan_perm in Hr. by apply list_elem_of_filter in Hr as [_ ?].
Qed.
Next Obligation.
  intros e s tok r _ Hf Hs Hr Hv Hp Hu. cbn. unfold pg_Lookup. rewrite Hs, Hf. cbn.
  rewrite (match_rows_unique tok _ r); [done| |done|].
  - rewrite scan_perm. apply list_elem_of_filter. split; [|done]. rewrite Hp. unfold PrefixOf. by rewrite Hs.
  - intros r' Hr'. rewrite scan_perm in Hr'. apply list_elem_of_filter in Hr' as [_ ?]. by apply Hu.
Qed.
Next Obligation.
  intros e s u id Hok. cbn. unfold pg_Revoke.
  set (t' := revoke_row _ _ _ <$> _).
  assert (NoDup (ids t')) as Hok' by (unfold t'; rewrite ids_map; [done|apply revoke_row_ID]).
  match goal with |- context [statement (fault1 e) ?w ?t ?t' ?a] =>
    destruct (statement_cases (fault1 e) w t t' a) as [(x & Hx)|[(x & Ha & Hx)|(x & Hx)]]; rewrite Hx end.
  - split; [done|right; eauto].
  - destruct x; [by split; [|left]|]. destruct (statement (fault2 e) _ _ _ _).2 as [found|]; by split; [|left].
  - by split; [|left].
Qed.
Next Obligation.
  intros e s id t Hok. cbn. unfold pg_TouchUsed.
  destruct (match tokens s !! id with Some last => _ | None => false end); [by split; [|right]|].
  match goal with |- context [statement (fault1 e) ?w ?t ?t' ?a] =>
    destruct (statement_cases (fault1 e) w t t' a) as [(x & Hx)|[(x & Ha & Hx)|(x & Hx)]]; rewrite Hx end.
  - by split; [|right].
  - split; [simpl; rewrite ids_map; [done|apply touch_row_ID]|by left].
  - split; [simpl; rewrite ids_map; [done|apply touch_row_ID]|by left].
Qed.
End postgres.

(** ** Histories *)

Section history.
Context {T : Type} {I : PatStore T} {L : PatLaws T I}.

Inductive event :=
| Issued (row : PAT) (h : string) (a : result pat_error PAT)
| Revoked (userID id : string) (a : option pat_error)
| Touched.

(** A store that started empty, after a history of calls. *)
Inductive reach : T → list event → Prop :=
| reach_init t : pat_ok t → pat_rows t = [] → reach t []
| reach_issue t l e row h : reach t l → room t → p_RevokedAt row = None →
    reach (st_Issue e t row h).1 (l ++ [Issued row h (st_Issue e t row h).2])
| reach_revoke t l e u id : reach t l → reach (st_Revoke e t u id).1 (l ++ [Revoked u id (st_Revoke e t u id).2])
| reach_touch t l e id when : reach t l → reach (st_TouchUsed e t id when).1 (l ++ [Touched]).

(** The row came from a call of the history, and an unrevoked row was not revoked
    since. *)
Definition accounted (l : list event) (r : memoryRow) : Prop :=
  ∃ l1 row a l2, l = l1 ++ Issued row (r_hash r) a :: l2 ∧ grant (r_pat r) = grant row ∧
    (∀ p, a = Ok p → p_ID p = p_ID (r_pat r)) ∧
    (p_RevokedAt (r_pat r) = None → Revoked (p_UserID row) (p_ID (r_pat r)) None ∉ l2).

Lemma accounted_snoc l ev r r' :
  r_hash r' = r_hash r → grant (r_pat r') = grant (r_pat r) → p_ID (r_pat r') = p_ID (r_pat r) →
  (p_RevokedAt (r_pat r') = None → p_RevokedAt (r_pat r) = None ∧ ev ≠ Revoked (p_UserID (r_pat r)) (p_ID (r_pat r)) None) →
  accounted l r → accounted (l ++ [ev]) r'.
Proof.
  intros Hh Hg Hid Hrev (l1 & row & a & l2 & -> & Hgr & Ha & Hl2).
  exists l1, row, a, (l2 ++ [ev]). rewrite Hh, Hg, Hid. split_and!; [by rewrite <-app_assoc|done..|].
  intros Hn. destruct (Hrev Hn) as [Hn' Hev]. rewrite elem_of_app, list_elem_of_singleton. intros [?|<-]; [by apply Hl2|].
  apply Hev. unfold grant in Hgr. congruence.
Qed.

Lemma reach_accounted t l : reach t l → pat_ok t ∧ ∀ r, r ∈ pat_rows t → accounted l r.
Proof using L.
  induction 1 as [t Hok Hr|t l e row h _ [Hok IH] Hroom Hrev|t l e u id _ [Hok IH]|t l e id when _ [Hok IH]].
  - split; [done|]. rewrite Hr. by intros r ?%elem_of_nil.
  - pose proof (issue_law e t row h Hok Hroom Hrev) as Hl. destruct (st_Issue e t row h) as [t' a]. simpl.
    destruct Hl as [Hok' Hcase]. split; [done|]. intros r Hr.
    assert (r ∈ pat_rows t → accounted (l ++ [Issued row h a]) r) as Hold by (intros ?; apply (accounted_snoc l _ r); auto).
    destruct Hcase as [[Heq _]|(r0 & Heq & Hh & Hg & Hn & _ & Ha)]; rewrite Heq in Hr; [auto|].
    apply elem_of_app in Hr as [?| ->%list_elem_of_singleton]; [auto|].
    exists l, row, a, []. rewrite Hh. split_and!; [done..| |].
    + intros p ->. by destruct Ha.
    + intros _ []%elem_of_nil.
  - pose proof (revoke_law e t u id Hok) as Hl. destruct (st_Revoke e t u id) as [t' a]. simpl.
    destruct Hl as [Hok' Hcase]. split; [done|]. intros r Hr. destruct Hcase as [Heq|[Heq [err ->]]]; rewrite Heq in Hr.
    + apply list_elem_of_fmap_1 in Hr as (r0 & -> & Hr0).
      destruct (decide (p_ID (r_pat r0) = id ∧ p_UserID (r_pat r0) = u)) as [[Hi Hu]|Hne].
      * rewrite revoke_row_hit by done. destruct (p_RevokedAt (r_pat r0)) eqn:E; apply (accounted_snoc l _ r0); auto; simpl; congruence.
      * rewrite revoke_row_miss by done. apply (accounted_snoc l _ r0); auto. intros ?. split; [done|]. naive_solver.
    + apply (accounted_snoc l _ r); auto.
  - pose proof (touch_law e t id when Hok) as Hl. destruct (st_TouchUsed e t id when) as [t' a]. simpl.
    destruct Hl as [Hok' Hcase]. split; [done|]. intros r Hr. destruct Hcase as [Heq|Heq]; rewrite Heq in Hr.
    + apply list_elem_of_fmap_1 in Hr as (r0 & -> & Hr0). unfold touch_row.
      case_decide; apply (accounted_snoc l _ r0); auto.
    + apply (accounted_snoc l _ r); auto.
Qed.

Lemma elem_of_Intersect scopes caps c : c ∈ Intersect scopes caps ↔ c ∈ scopes ∧ c ∈ caps.
Proof.
  unfold Intersect. assert (∀ acc : CapabilitySet,
    c ∈ foldl (λ out s, if Has caps s then {[s]} ∪ out else out) acc scopes ↔ c ∈ acc ∨ c ∈ scopes ∧ c ∈ caps) as Hacc.
  { induction scopes as [|s scopes IH]; intros acc; cbn [foldl]; [set_solver|]. rewrite IH. unfold Has.
    case_bool_decide; set_solver. }
  rewrite Hacc. set_solver.
Qed.

Lemma Has_iff (caps : CapabilitySet) c : Has caps c = true ↔ c ∈ caps.
Proof. unfold Has. apply bool_decide_eq_true. Qed.

(** C23. A request with a token is refused, or runs the guarded handler
    with the principal and the intersected capabilities of a token that the history
    issued, that nobody revoked since and that is not expired: the capability is in
    the token's scopes and held by its owner. A request without a token is left to
    the policy. *)
Theorem pat_authorised {S} (UserCaps : string → result string CapabilitySet) roleCaps c
    (next : T → S → reqctx → Writer → S * Writer) header t l e ta s ctx w :
  reach t l →
  let run := Middleware UserCaps e ta (Require_pat roleCaps c next) header t s ctx w in
  match ParseBearer header with
  | Some tok =>
      if ValidShape tok then
        (∃ status msg touch, run = (s, HttpError msg status w, touch) ∧ status ∈ [401; 403; 500]%Z) ∨
        ∃ l1 row h a l2 id caps,
          l = l1 ++ Issued row h a :: l2 ∧ VerifyHash h tok = true ∧
          (∀ p, a = Ok p → p_ID p = id) ∧ Revoked (p_UserID row) id None ∉ l2 ∧
          (∀ x, p_ExpiresAt row = Some x → (now e < x)%Z) ∧
          UserCaps (p_UserID row) = Ok caps ∧ c ∈ p_Scopes row ∧ c ∈ caps ∧
          run = (next t s (mkCtx (Some (mkPrincipal (p_UserID row) [])) (Some (Intersect (p_Scopes row) caps)) (Some id)) w,
                 Some (id, ta))
      else run = (Require_pat roleCaps c next t s ctx w, None)
  | None => run = (Require_pat roleCaps c next t s ctx w, None)
  end.
Proof using L.
  intros Hreach run. subst run. unfold Middleware. destruct (ParseBearer header) as [tok|]; [|done].
  destruct (ValidShape tok); [|done]. cbn [negb].
  destruct (reach_accounted t l Hreach) as [Hok Hacc].
  destruct (st_Lookup e t tok) as [p|err] eqn:El.
  2: { left. destruct err; do 3 eexists; (split; [reflexivity|set_solver]). }
  destruct (UserCaps (p_UserID p)) as [caps|err] eqn:Ec.
  2: { left. do 3 eexists. split; [reflexivity|set_solver]. }
  unfold Require_pat. cbn [c_caps]. destruct (Has (Intersect (p_Scopes p) caps) c) eqn:Eh.
  2: { left. do 3 eexists. split; [reflexivity|set_solver]. }
  right. apply Has_iff, elem_of_Intersect in Eh as [Hsc Hcap].
  destruct (lookup_sound e t tok p Hok El) as (r & Hr & <- & Hv & Hvd).
  destruct (verdict_Ok _ _ _ Hvd) as (_ & Hrev & Hexp).
  destruct (Hacc r Hr) as (l1 & row & a & l2 & -> & Hg & Ha & Hl2).
  unfold grant in Hg. injection Hg as Hu Hs Hx. rewrite Hu, Hs, Hx in *.
  exists l1, row, (r_hash r), a, l2, (p_ID (r_pat r)), caps. split_and!; auto.
Qed.

(** ** A token that was issued works *)

Lemma randomBase62_from_sound n reads : ∀ out s,
  Forall (λ r, match r with Ok b => Forall (λ b, (0 ≤ b)%Z) b | Err _ => True end) reads →
  all_chars base62 out = true → String.length out ≤ n → randomBase62_from n out reads = Some (Ok s) →
  String.length s = n ∧ all_chars base62 s = true.
Proof.
  induction reads as [|r reads IH]; intros out s Hr Ho Hl; cbn [randomBase62_from];
    (destruct (_ <? n) eqn:E; [apply Nat.ltb_lt in E|apply Nat.ltb_ge in E; intros [= <-]; split; [lia|done]]).
  - done.
  - apply Forall_cons in Hr as [Hb Hr]. destruct r as [buf|err]; [|done].
    destruct (fill_base62_spec n buf out Hb Ho E) as [H1 H2]. apply IH; [done..|lia].
Qed.

Lemma ParseBearer_Bearer s : 0 < String.length s → ParseBearer ("Bearer " +:+ s) = Some s.
Proof.
  intros Hs. unfold ParseBearer. rewrite string_length_app.
  replace (_ <=? _) with false by (symmetry; apply Nat.leb_gt; lia).
  rewrite substring_0_app, strings_drop_app. by rewrite bool_decide_eq_true_2.
Qed.

Definition byte_reads (reads : list (result string (list Z))) : Prop :=
  Forall (λ r, match r with Ok b => Forall (λ b, (0 ≤ b)%Z) b | Err _ => True end) reads.

Lemma New_Ok reads salt n u name scopes x plaintext row hash :
  byte_reads reads → New IDKey params reads salt n u name scopes x = Some (Ok (plaintext, row, hash)) →
  ValidShape plaintext = true ∧ p_Prefix row = PrefixOf plaintext ∧ String.length (p_Prefix row) = PrefixLen ∧
  p_RevokedAt row = None ∧ grant row = (u, scopes, x) ∧ Hash IDKey params salt plaintext = Ok hash.
Proof.
  intros Hb. unfold New. do 2 (case_decide; [done|]).
  destruct (randomBase62 suffixLen reads) as [[suffix|]|] eqn:Er; [|done..].
  destruct (randomBase62_from_sound suffixLen reads "" suffix Hb eq_refl ltac:(simpl; lia) Er) as [Hl Ha].
  destruct (Hash _ _ _ _) as [h|] eqn:Eh; [|done]. intros [= <- <- <-].
  pose proof (ValidShape_new suffix Hl Ha) as Hv. split_and!; [done| | |done..|exact Eh].
  - unfold PrefixOf. by rewrite Hv.
  - simpl. do 32 (destruct suffix as [|? suffix]; [done|]). done.
Qed.

(** The round trip of a token: the plaintext in the answer of the issue route,
    sent back as a bearer token before it expires and before it is revoked,
    authenticates its owner, and a guarded handler runs exactly when its capability
    is among the scopes that were asked for and held by the owner. *)
Theorem issued_token_authenticates {S} (UserCaps : string → result string CapabilitySet) order roleCaps c
    (next : T → S → reqctx → Writer → S * Writer) t e reads salt hn body pr t' view plaintext eff sn e' ta s ctx w caps :
  (∀ pw salt t m p n, String.length (IDKey pw salt t m p n) = n) →
  pat_ok t → room t → byte_reads reads → (∀ x, salt = Ok x → String.length x = saltLen params) →
  issue IDKey params UserCaps order e reads salt hn body t pr = Some (t', RIssued view plaintext eff sn) →
  (∀ r, r ∈ pat_rows t → VerifyHash (r_hash r) plaintext = false) →
  fault1 e' = Served → (∀ x, v_ExpiresAt view = Some x → (now e' < x)%Z) → UserCaps (UserID pr) = Ok caps →
  ∃ req, body = Some req ∧
  let run := Middleware UserCaps e' ta (Require_pat roleCaps c next) ("Bearer " +:+ plaintext) t' s ctx w in
  if decide (c ∈ dedupScopes (i_Scopes req) ∧ c ∈ caps) then
    run = (next t' s (mkCtx (Some (mkPrincipal (UserID pr) []))
                        (Some (Intersect (dedupScopes (i_Scopes req)) caps)) (Some (v_ID view))) w, Some (v_ID view, ta))
  else run = (s, HttpError ("token scope does not grant " +:+ c) 403 w, Some (v_ID view, ta)).
Proof using L.
  intros Hlen Hok Hroom Hb Hsalt Hi Hno Hf Hexp Hcaps. unfold issue in Hi. destruct body as [req|]; [|done].
  exists req. split; [done|]. case_decide; [done|]. destruct (_ =? 0); [done|].
  destruct (presetExpiry _ _) as [x|]; [|done].
  destruct (New _ _ _ _ _ _ _ _ _) as [[[[pl row] hash]|]|] eqn:En; [|done..].
  destruct (New_Ok _ _ _ _ _ _ _ _ _ _ Hb En) as (Hv & Hp & Hpl & Hrev & Hg & Hh).
  pose proof (issue_law e t row hash Hok Hroom Hrev) as Hlaw.
  destruct (st_Issue e t row hash) as [t1 [stored|err]]; [|done]. injection Hi as <- <- <- <- <-.
  destruct Hlaw as [Hok' [[_ [err [=]]]|(r & Hrows & Hrh & Hrg & Hrr & Hrp & Hid & Hsg)]].
  assert (VerifyHash hash pl = true) as Hver.
  { destruct salt as [sl|]; [|done]. by apply (VerifyHash_Hash sl); [|apply Hsalt|]. }
  assert (st_Lookup e' t1 pl = Ok (r_pat r)) as Hlook.
  { rewrite (lookup_complete e' t1 pl r); [|done|done|done|rewrite Hrows; set_solver|by rewrite Hrh| |].
    - unfold verdict. rewrite Hrr. cbn in Hexp. unfold grant in Hsg, Hrg. assert (p_ExpiresAt stored = p_ExpiresAt (r_pat r)) as Hx by congruence.
      rewrite Hx in Hexp. destruct (p_ExpiresAt (r_pat r)) as [x0|]; [|done]. unfold time_after.
      destruct (Z.ltb_spec (now e') x0) as [|Hge]; [done|]. specialize (Hexp x0 eq_refl). lia.
    - rewrite Hrp by done. exact Hp.
    - intros r' Hr' Hv'. rewrite Hrows in Hr'. apply elem_of_app in Hr' as [Hr'| ->%list_elem_of_singleton]; [|done].
      rewrite Hno in Hv'; done. }
  cbv zeta. unfold Middleware. rewrite ParseBearer_Bearer.
  2: { unfold ValidShape in Hv. destruct (String.length pl); [done|lia]. }
  rewrite Hv. cbn [negb]. rewrite Hlook. rewrite Hg in Hrg. unfold grant in Hrg. injection Hrg as Hu Hs Hx.
  rewrite Hu, Hs, Hcaps, <-Hid. unfold Require_pat. cbn [c_caps toView v_ID].
  case_decide as Hd.
  - rewrite (proj2 (Has_iff _ c)); [done|by apply elem_of_Intersect].
  - destruct (Has _ c) eqn:E; [|done]. by apply Has_iff, elem_of_Intersect in E.
Qed.
End history.
End laws.

(** ** Concrete runs

    [toy_key] stands for argon2: the part of the password behind the namespace, cut
    or filled to the length. *)
Fixpoint fit (n : nat) (s : string) : string :=
  match n, s with
  | O, _ => ""
  | S n, EmptyString => String "=" (fit n "")
  | S n, String c s => String c (fit n s)
  end.
Definition toy_key (pw salt : string) (t m p : Z) (n : nat) : string := fit n (strings.drop 4 pw).
Lemma length_toy_key pw salt t m p n : String.length (toy_key pw salt t m p n) = n.
Proof. unfold toy_key. generalize (strings.drop 4 pw). induction n as [|n IH]; intros [|c s]; simpl; [done..| |]; by rewrite IH. Qed.

Definition toy_env (n : Z) : env := mkEnv (n * second) "" Served Served.
Definition toy_reads : list (result string (list Z)) := [Ok (Z.of_nat <$> seq 230 26); Ok (Z.of_nat <$> seq 0 40)].
Definition toy_caps (u : string) : result string CapabilitySet := Ok ({["posts.read"]} ∪ {["posts.write"]}).
Definition toy_salt : result string string := Ok "0123456789abcdef".
Definition toy_request (scopes : list string) : IssueRequest := mkIssue "ci" scopes "30d".
Definition alice : Principal := mkPrincipal "u1" [RoleEditor].
Definition toy_issue (ctx : reqctx) (scopes : list string) : option (MemoryStore * response) :=
  gate None (issue toy_key productionArgon2Params (H := memory_pats toy_key productionArgon2Params) toy_caps elements
    (toy_env 100) toy_reads toy_salt (100 * second) (Some (toy_request scopes)) NewMemoryStore) ctx.
Definition toy_ctx : reqctx := mkCtx (Some alice) None None.
Definition the_token : string := "gnp_ijklmnopqrstuvwxyz0123456789ABCD".

Definition the_row : PAT :=
  mkPAT "" "u1" "ci" "ijklmnop" ["posts.read"] (100 * second) None (Some ((100 + 30 * 24 * 3600) * second))%Z None.
Definition the_hash : string := "0123456789abcdef" +:+ strings.drop 4 the_token.

Example toy_issue_run :
  match toy_issue toy_ctx ["posts.read"] with
  | Some (m, RIssued v tok eff _) =>
      tok = the_token ∧ rows m = [mkRow (with_ID "00000000-0000-7000-8000-000000000001" the_row) the_hash] ∧ eff = ["posts.read"]
  | _ => False
  end.
Proof. vm_compute. done. Qed.


Lemma pat_authorised_witness :
  let I := memory_pats toy_key productionArgon2Params in
  let t := (mem_Issue NewMemoryStore the_row the_hash).1 in
  let next := λ (_ : MemoryStore) (s : nat) (_ : reqctx) w, (S s, WriteHeader 200 w) in
  let run := Middleware toy_caps (toy_env 200) (200 * second) (Require_pat ∅ "posts.read" next) ("Bearer " +:+ the_token)
               t 0 (mkCtx None None None) (mkWriter ∅ None "") in
  run.1.1 = 1 ∧
  ((∃ status msg touch, run = (0, HttpError msg status (mkWriter ∅ None ""), touch) ∧ status ∈ [401; 403; 500]%Z) ∨
   ∃ id, run.2 = Some (id, (200 * second)%Z)).
Proof.
  intros I t next run. split; [vm_compute; reflexivity|].
  pose proof (pat_authorised toy_key productionArgon2Params (I := I)
    (L := memory_pats_laws toy_key productionArgon2Params)
    toy_caps ∅ "posts.read" next ("Bearer " +:+ the_token) t
    [Issued the_row the_hash (mem_Issue NewMemoryStore the_row the_hash).2]
    (toy_env 200) (200 * second)%Z 0 (mkCtx None None None) (mkWriter ∅ None "")) as H.
  cbv zeta in H. rewrite ParseBearer_Bearer in H by (vm_compute; lia).
  replace (ValidShape the_token) with true in H by (vm_compute; reflexivity).
  destruct H as [H|H].
  - apply (reach_issue toy_key productionArgon2Params (I := I)
      (L := memory_pats_laws toy_key productionArgon2Params) NewMemoryStore [] (toy_env 100) the_row the_hash).
    + apply reach_init; [split_and!; [done| |done]|done]. vm_compute. reflexivity.
    + vm_compute. reflexivity.
    + reflexivity.
  - left. exact H.
  - right. destruct H as (l1 & row & h & a & l2 & id & caps & _ & _ & _ & _ & _ & _ & _ & _ & Hr).
    exists id. unfold run, I in *. rewrite Hr. reflexivity.
Defined.

Lemma issued_token_authenticates_witness :
  let I := memory_pats toy_key productionArgon2Params in
  let next := λ (_ : MemoryStore) (s : nat) (_ : reqctx) w, (S s, WriteHeader 200 w) in
  let t' := mkStore [mkRow (with_ID "00000000-0000-7000-8000-000000000001" the_row) the_hash] 1 in
  (Middleware toy_caps (toy_env 200) (200 * second) (Require_pat ∅ "posts.read" next) ("Bearer " +:+ the_token)
    t' 0 (mkCtx None None None) (mkWriter ∅ None "")).1.1 = 1 ∧
  (Middleware toy_caps (toy_env 200) (200 * second) (Require_pat ∅ "posts.write" next) ("Bearer " +:+ the_token)
    t' 0 (mkCtx None None None) (mkWriter ∅ None "")).1.1 = 0.
Proof.
  intros I next t'.
  pose (view := toView (with_ID "00000000-0000-7000-8000-000000000001" the_row)).
  pose proof (λ c, issued_token_authenticates toy_key productionArgon2Params (I := I)
    (L := memory_pats_laws toy_key productionArgon2Params) toy_caps elements ∅ c next NewMemoryStore (toy_env 100)
    toy_reads toy_salt (100 * second)%Z (Some (toy_request ["posts.read"])) alice t' view the_token ["posts.read"] true
    (toy_env 200) (200 * second)%Z 0 (mkCtx None None None) (mkWriter ∅ None "") ({["posts.read"]} ∪ {["posts.write"]})
    length_toy_key) as H.
  pose proof (λ c, H c
    ltac:(split_and!; [done|vm_compute; reflexivity|done]) ltac:(vm_compute; reflexivity) ltac:(repeat constructor; lia)
    ltac:(by intros x [= <-]) ltac:(vm_compute; reflexivity) ltac:(by intros r ?%elem_of_nil) ltac:(done)
    ltac:(intros x [= <-]; vm_compute; reflexivity) ltac:(reflexivity)) as H'.
  split.
  - destruct (H' "posts.read") as (req & [= <-] & Hr). cbv zeta in Hr. rewrite decide_True in Hr.
    + rewrite Hr. reflexivity.
    + apply (bool_decide_unpack _). vm_compute. exact Logic.I.
  - destruct (H' "posts.write") as (req & [= <-] & Hr). cbv zeta in Hr. rewrite decide_False in Hr.
    + rewrite Hr. reflexivity.
    + apply (bool_decide_unpack _). vm_compute. exact Logic.I.
Defined.

(** A token limited to reading may mint a token that writes: the route asks for a
    principal only, and the new scopes are checked against the owner's
    capabilities, not against those of the token. *)
Example narrow_token_mints_wide :
  let narrow := mkCtx (Some (mkPrincipal "u1" [])) (Some {["posts.read"]}) (Some "00000000-0000-7000-8000-000000000009") in
  match toy_issue narrow ["posts.write"] with
  | Some (m, RIssued v tok eff _) => tok = the_token ∧ v_Scopes v = ["posts.write"] ∧ eff = ["posts.write"]
  | _ => False
  end.
Proof. vm_compute. done. Qed.

(** The check that a scope is given comes before blanks are dropped. *)
Example blank_scopes_accepted :
  match toy_issue toy_ctx [" "] with
  | Some (m, RIssued v tok eff _) => v_Scopes v = []
  | _ => False
  end.
Proof. vm_compute. done. Qed.

(** The two stores disagree about expired tokens in a list. *)
Example expired_listed :
  let old := with_ID "t1" (mkPAT "" "u1" "ci" "ijklmnop" [] 0 None (Some (5 * second)%Z) None) in
  st_List (PatStore := memory_pats toy_key productionArgon2Params) (toy_env 100) (mkStore [mkRow old "h"] 1) "u1" = Ok [old] ∧
  st_List (PatStore := postgres_pats toy_key productionArgon2Params id) (toy_env 100) (mkPgStore [mkRow old "h"] ∅) "u1" = Ok [].
Proof. split; vm_compute; reflexivity. Qed.

(** A failed write still closes the window: the next minute of uses writes nothing. *)
Example refused_touch_throttles :
  let old := with_ID "t1" (mkPAT "" "u1" "ci" "ijklmnop" [] 0 None None None) in
  let s := mkPgStore [mkRow old "h"] ∅ in
  let r1 := pg_TouchUsed (mkEnv 0 "" (Refused "down") Served) s "t1" (100 * second) in
  let r2 := pg_TouchUsed (toy_env 130) r1.1 "t1" (130 * second) in
  r1.2 = Some (ErrOther "pat: touch: down") ∧ r2 = (r1.1, None) ∧ table r2.1 = table s.
Proof. vm_compute. done. Qed.
