(* ===== verification/Totp.v ===== *)
(** * One-time passwords and recovery codes (packages/go/auth/totp: totp.go,
    recovery.go)

    The code and label checks, the base-32 secrets (encoding/base32 without
    padding), and the recovery codes: how they are drawn, normalised and matched.
    The RFC 6238 comparison of github.com/pquerna/otp, password hashing and the
    random bytes are arguments; texts are ASCII. *)
From S2P Require Import Prelude GoStrings Http.
From Stdlib Require Import Ascii.

(** ** Secrets (totp.go) *)

Definition secretBytes : nat := 20.
Definition stepSeconds : Z := 30.
Definition skewSteps : Z := 1.

Inductive totp_error := ErrInvalidSecret (why : string) | ErrInvalidIssuer (why : string) | ErrRandom (what : string).

Module base32.
Local Open Scope Z_scope.
Definition alphabet : string := "ABCDEFGHIJKLMNOPQRSTUVWXYZ234567".
Definition char_of (v : Z) : ascii := default "A"%char (String.get (Z.to_nat v) alphabet).
Fixpoint index_of (c : ascii) (s : string) (i : Z) : option Z :=
  match s with
  | EmptyString => None
  | String d s => if Ascii.eqb c d then Some i else index_of c s (i + 1)
  end.
Definition value_of (c : ascii) : option Z := index_of c alphabet 0.

(** Five-bit groups of a byte string, most significant bit first; the last group
    is filled with zeros. *)
Fixpoint quintets (l : list Z) : list Z :=
  match l with
  | [] => []
  | [a] => [a / 8; a mod 8 * 4]
  | [a; b] => [a / 8; a mod 8 * 4 + b / 64; b / 2 mod 32; b mod 2 * 16]
  | [a; b; c] => [a / 8; a mod 8 * 4 + b / 64; b / 2 mod 32; b mod 2 * 16 + c / 16; c mod 16 * 2]
  | [a; b; c; d] =>
      [a / 8; a mod 8 * 4 + b / 64; b / 2 mod 32; b mod 2 * 16 + c / 16; c mod 16 * 2 + d / 128; d / 4 mod 32; d mod 4 * 8]
  | a :: b :: c :: d :: e :: r =>
      a / 8 :: a mod 8 * 4 + b / 64 :: b / 2 mod 32 :: b mod 2 * 16 + c / 16 :: c mod 16 * 2 + d / 128 ::
      d / 4 mod 32 :: d mod 4 * 8 + e / 32 :: e mod 32 :: quintets r
  end.

(** Eight digits back to five bytes; a last group of two, four, five or seven digits
    gives the bytes it holds in full, one of another length none. *)
Fixpoint octets (l : list Z) : list Z :=
  match l with
  | s :: t :: u :: v :: w :: x :: y :: z :: r =>
      s * 8 + t / 4 :: t mod 4 * 64 + u * 2 + v / 16 :: v mod 16 * 16 + w / 2 :: w mod 2 * 128 + x * 4 + y / 8 ::
      y mod 8 * 32 + z :: octets r
  | [s; t; u; v; w; x; y] =>
      [s * 8 + t / 4; t mod 4 * 64 + u * 2 + v / 16; v mod 16 * 16 + w / 2; w mod 2 * 128 + x * 4 + y / 8]
  | [s; t; u; v; w] => [s * 8 + t / 4; t mod 4 * 64 + u * 2 + v / 16; v mod 16 * 16 + w / 2]
  | [s; t; u; v] => [s * 8 + t / 4; t mod 4 * 64 + u * 2 + v / 16]
  | [s; t] => [s * 8 + t / 4]
  | _ => []
  end.

Definition EncodeToString (src : list Z) : string := String.string_of_list_ascii (char_of <$> quintets src).
Definition is_newline (c : ascii) : bool := Ascii.eqb c "010" || Ascii.eqb c "013".
Definition DecodeString (s : string) : option (list Z) :=
  vs ← mapM value_of (filter (λ c, is_newline c = false) (String.list_ascii_of_string s)); Some (octets vs).
End base32.

Definition upper (c : ascii) : ascii := if in_range "a" "z" c then ascii_of_nat (nat_of_ascii c - 32) else c.
Fixpoint ToUpper (s : string) : string := match s with EmptyString => "" | String c s => String (upper c) (ToUpper s) end.

Definition validateCode (s : string) : bool := (String.length s =? 6) && all_chars is_digit s.

Definition validateLabel (issuer account : string) : option totp_error :=
  if decide (issuer = "" ∨ account = "") then Some (ErrInvalidIssuer "empty")
  else if strings.Contains issuer ":" || strings.Contains account ":" then Some (ErrInvalidIssuer "contains ':'")
  else if negb (bool_decide (strings.TrimSpace issuer = issuer)) || negb (bool_decide (strings.TrimSpace account = account))
  then Some (ErrInvalidIssuer "leading or trailing whitespace")
  else None.

Definition decodeSecret (s : string) : result totp_error (list Z) :=
  if decide (s = "") then Err (ErrInvalidSecret "empty")
  else
    match base32.DecodeString (ToUpper s) with
    | None => Err (ErrInvalidSecret "base32 decode")
    | Some raw => if (length raw <? secretBytes) && (length raw <? 10) then Err (ErrInvalidSecret "below minimum") else Ok raw
    end.

Definition Generate (random : result string (list Z)) (issuer account : string) : result totp_error string :=
  match validateLabel issuer account with
  | Some e => Err e
  | None =>
      match random with
      | Err e => Err (ErrRandom ("totp: generate secret: " +:+ e))
      | Ok raw => Ok (base32.EncodeToString raw)
      end
  end.

(** [totp.ValidateCustom]: code, secret, time, period, skew; it may fail. *)
Definition Verify_totp (ValidateCustom : string → string → Time → Z → Z → result string bool) (now : Time)
    (base32Secret code : string) : bool :=
  if negb (validateCode code) then false
  else
    match decodeSecret base32Secret with
    | Err _ => false
    | Ok _ => match ValidateCustom code base32Secret now stepSeconds skewSteps with Err _ => false | Ok ok => ok end
    end.

(** ** Recovery codes (recovery.go) *)

Definition recoveryGroupLen : nat := 4.
Definition recoveryTotalLen : nat := 9.
Definition recoveryMaxN : Z := 100.
Definition recoveryAlphabet : string := "abcdefghjkmnpqrstvwxyz23456789".

Inductive recovery_error :=
| ErrInvalidRecoveryCount (n : Z)
| ErrInvalidRecoveryCode (why : string)
| ErrRecoveryRandom (what : string)
| ErrRecoveryHash (what : string).

Fixpoint string_mem (c : ascii) (s : string) : bool :=
  match s with EmptyString => false | String d s => Ascii.eqb c d || string_mem c s end.
Definition code_char (c : ascii) : bool := string_mem c recoveryAlphabet.

Fixpoint strip (s : string) : string :=
  match s with
  | EmptyString => ""
  | String c s => if bool_decide (c ∈ [" "; "009"; "010"; "013"]%char) then strip s else String c (strip s)
  end.

Definition canonicaliseRecoveryCode (s : string) : result recovery_error string :=
  let t := strings.ToLower (strip s) in
  let? t :=
    (if String.length t =? recoveryTotalLen then
       if negb (bool_decide (String.get recoveryGroupLen t = Some "-"%char)) then Err (ErrInvalidRecoveryCode "missing hyphen")
       else Ok t
     else if String.length t =? 2 * recoveryGroupLen then
       Ok (String.substring 0 recoveryGroupLen t +:+ "-" +:+ strings.drop recoveryGroupLen t)
     else Err (ErrInvalidRecoveryCode "length")) in
  if all_chars code_char (String.substring 0 recoveryGroupLen t) && all_chars code_char (strings.drop (recoveryGroupLen + 1) t)
  then Ok t else Err (ErrInvalidRecoveryCode "char not in alphabet").

(** One character of a code: bytes from 240 on are drawn again. The random source
    is the list of bytes it yields, ending in an error if a read fails; [None] when
    the bytes given do not suffice. *)
Definition threshold : Z := 240.
Fixpoint draw_char (bytes : list (result string Z)) : option (result string ascii * list (result string Z)) :=
  match bytes with
  | [] => None
  | Err e :: bytes => Some (Err e, bytes)
  | Ok b :: bytes =>
      if (b <? threshold)%Z then Some (Ok (default "a"%char (String.get (Z.to_nat (b mod 30)) recoveryAlphabet)), bytes)
      else draw_char bytes
  end.

(** [n] positions from [pos] on. *)
Fixpoint draw_code (n pos : nat) (out : string) (bytes : list (result string Z))
    : option (result string string * list (result string Z)) :=
  match n with
  | O => Some (Ok out, bytes)
  | S n =>
      let out := if pos =? recoveryGroupLen then out +:+ "-" else out in
      match draw_char bytes with
      | None => None
      | Some (Err e, bytes) => Some (Err e, bytes)
      | Some (Ok c, bytes) => draw_code n (S pos) (out +:+ String c "") bytes
      end
  end.
Definition generateRecoveryCode (bytes : list (result string Z)) : option (result string string * list (result string Z)) :=
  draw_code (2 * recoveryGroupLen) 0 "" bytes.

(** The loop that draws [n] distinct codes; [fuel] bounds its rounds. *)
Fixpoint distinct_codes (fuel n : nat) (plain : list string) (bytes : list (result string Z))
    : option (result string (list string)) :=
  if length plain <? n then
    match fuel with
    | O => None
    | S fuel =>
        match generateRecoveryCode bytes with
        | None => None
        | Some (Err e, _) => Some (Err e)
        | Some (Ok code, bytes) =>
            if decide (code ∈ plain) then distinct_codes fuel n plain bytes
            else distinct_codes fuel n (plain ++ [code]) bytes
        end
    end
  else Some (Ok plain).

Section codes.
(** [password.Hash] with the salt it drew, and [password.Verify], without pepper. *)
Context (hash : string → result string string) (verify : string → string → result string (bool * bool)).

Definition RecoveryCodes (n : Z) (bytes : list (result string Z))
    : option (result recovery_error (list string * list string)) :=
  if ((n <=? 0) || (recoveryMaxN <? n))%Z then Some (Err (ErrInvalidRecoveryCount n))
  else
    match distinct_codes (length bytes) (Z.to_nat n) [] bytes with
    | None => None
    | Some (Err e) => Some (Err (ErrRecoveryRandom e))
    | Some (Ok plain) =>
        match mapM (λ c, match hash c with Ok h => Some h | Err _ => None end) plain with
        | Some hashed => Some (Ok (plain, hashed))
        | None => Some (Err (ErrRecoveryHash "totp: hash recovery code"))
        end
    end.

Fixpoint match_code (code : string) (i : Z) (hashes : list string) : Z * bool :=
  match hashes with
  | [] => (-1, false)%Z
  | h :: hashes =>
      if String.length h =? 0 then match_code code (i + 1) hashes
      else
        match verify code h with
        | Ok (true, _) => (i, true)
        | _ => match_code code (i + 1) hashes
        end
  end.

Definition VerifyRecoveryCode (plaintextCode : string) (storedHashes : list string) : Z * bool :=
  match canonicaliseRecoveryCode plaintextCode with
  | Err _ => (-1, false)%Z
  | Ok code => match_code code 0 storedHashes
  end.
End codes.

(** ** Secrets round trip *)

Module base32_facts.
Local Open Scope Z_scope.
Definition byte (b : Z) : Prop := 0 ≤ b < 256.

Lemma list_ind5 (P : list Z → Prop) :
  P [] → (∀ a, P [a]) → (∀ a b, P [a; b]) → (∀ a b c, P [a; b; c]) → (∀ a b c d, P [a; b; c; d]) →
  (∀ a b c d e r, P r → P (a :: b :: c :: d :: e :: r)) → ∀ l, P l.
Proof.
  intros H0 H1 H2 H3 H4 H5. fix IH 1.
  intros [|a [|b [|c [|d [|e r]]]]];
    [exact H0|exact (H1 a)|exact (H2 a b)|exact (H3 a b c)|exact (H4 a b c d)|exact (H5 a b c d e r (IH r))].
Qed.

Ltac bytes H := repeat match type of H with Forall _ (_ :: _) => apply Forall_cons in H as [? H] end.

Lemma quintets_range l : Forall byte l → Forall (λ v, 0 ≤ v < 32) (base32.quintets l).
Proof.
  unfold byte. induction l as [|a|a b|a b c|a b c d|a b c d e r IH] using list_ind5; cbn [base32.quintets]; intros Hl;
    bytes Hl; repeat (apply Forall_cons; split; [Z.to_euclidean_division_equations; lia|]); auto.
Qed.

Lemma octets_quintets l : Forall byte l → base32.octets (base32.quintets l) = l.
Proof.
  unfold byte. induction l as [|a|a b|a b c|a b c d|a b c d e r IH] using list_ind5; cbn [base32.quintets]; intros Hl;
    bytes Hl; cbn [base32.octets];
    repeat (apply (f_equal2 cons); [Z.to_euclidean_division_equations; lia|]); auto.
Qed.

Lemma digit_value v : 0 ≤ v < 32 →
  base32.value_of (base32.char_of v) = Some v ∧ base32.is_newline (base32.char_of v) = false ∧
  upper (base32.char_of v) = base32.char_of v.
Proof.
  intros Hv. assert (∃ n, v = Z.of_nat n ∧ (n < 32)%nat) as (n & -> & Hn) by (exists (Z.to_nat v); lia).
  assert (Forall (λ n, base32.value_of (base32.char_of (Z.of_nat n)) = Some (Z.of_nat n) ∧
    base32.is_newline (base32.char_of (Z.of_nat n)) = false ∧
    upper (base32.char_of (Z.of_nat n)) = base32.char_of (Z.of_nat n)) (seq 0 32)) as Hall.
  { apply (bool_decide_unpack _). vm_compute. exact I. }
  rewrite Forall_forall in Hall. apply Hall. apply elem_of_seq. lia.
Qed.

Lemma values_digits vs : Forall (λ v, 0 ≤ v < 32) vs →
  mapM base32.value_of (filter (λ c, base32.is_newline c = false)
    (String.list_ascii_of_string (ToUpper (String.string_of_list_ascii (base32.char_of <$> vs))))) = Some vs.
Proof.
  induction 1 as [|v vs Hv _ IH]; [done|]. destruct (digit_value v Hv) as (Hval & Hnl & Hup).
  cbn [fmap list_fmap String.string_of_list_ascii ToUpper]. rewrite Hup. cbn [String.list_ascii_of_string]. rewrite filter_cons, decide_True by done. cbn [mapM].
  by rewrite Hval, IH.
Qed.
End base32_facts.

(** A generated secret is accepted again, with the bytes it was made from. *)
Lemma Generate_decodes raw issuer account secret :
  Forall base32_facts.byte raw → length raw = secretBytes →
  Generate (Ok raw) issuer account = Ok secret → decodeSecret secret = Ok raw.
Proof.
  intros Hb Hl. unfold Generate. destruct (validateLabel _ _); [done|]. intros [= <-].
  unfold decodeSecret, base32.EncodeToString, base32.DecodeString. case_decide as He.
  { destruct raw as [|a [|b [|c [|d [|e r]]]]]; simplify_eq/=. }
  rewrite base32_facts.values_digits by by apply base32_facts.quintets_range. cbn.
  rewrite base32_facts.octets_quintets by done. by rewrite Hl.
Qed.

(** ** Recovery codes *)

(** Two groups of four characters of the alphabet. *)
Definition canonical (a b : string) : Prop :=
  String.length a = recoveryGroupLen ∧ String.length b = recoveryGroupLen ∧
  all_chars code_char a = true ∧ all_chars code_char b = true.

(** What a user may type for a code: any case, white space anywhere, with or without the
    hyphen. *)
Lemma canonicalise_spec s t :
  canonicaliseRecoveryCode s = Ok t ↔
  ∃ a b, canonical a b ∧ t = a +:+ "-" +:+ b ∧ strings.ToLower (strip s) ∈ [a +:+ "-" +:+ b; a +:+ b].
Proof.
  unfold canonicaliseRecoveryCode, recoveryTotalLen, recoveryGroupLen.
  assert (∀ c1 c2 c3 c4 u, String.substring 0 4 (String c1 (String c2 (String c3 (String c4 u)))) =
    String c1 (String c2 (String c3 (String c4 "")))) as H4 by by intros ???? [].
  generalize (strings.ToLower (strip s)). intros u. split.
  - destruct (String.length u =? 9) eqn:E9; [|destruct (String.length u =? 2 * 4) eqn:E8; [|done]].
    + apply Nat.eqb_eq in E9. case_bool_decide as Hg; [|done]. cbn [negb].
      destruct u as [|c1 [|c2 [|c3 [|c4 [|c5 u]]]]]; simpl in E9; try lia. injection Hg as ->.
      rewrite H4. change (strings.drop _ _) with u.
      destruct (_ && _) eqn:Ea; [|done]. intros [= <-]. apply andb_true_iff in Ea as [Ha Hb].
      exists (String c1 (String c2 (String c3 (String c4 "")))), u.
      split_and!; [split_and!; [done|unfold recoveryGroupLen; lia|exact Ha|exact Hb]|done|left].
    + apply Nat.eqb_eq in E8.
      destruct u as [|c1 [|c2 [|c3 [|c4 u]]]]; simpl in E8; try lia. rewrite H4.
      change (strings.drop 4 _) with u. rewrite !string_app_cons, !string_app_nil_l, H4. change (strings.drop _ _) with u.
      destruct (_ && _) eqn:Ea; [|done]. intros [= <-]. apply andb_true_iff in Ea as [Ha Hb].
      exists (String c1 (String c2 (String c3 (String c4 "")))), u.
      split_and!; [split_and!; [done|unfold recoveryGroupLen; lia|exact Ha|exact Hb]|done|right; left].
  - intros (a & b & (Ha & Hb & Hca & Hcb) & -> & Hu). unfold recoveryGroupLen in *.
    destruct a as [|c1 [|c2 [|c3 [|c4 [|]]]]]; try done.
    apply elem_of_cons in Hu as [->| ->%list_elem_of_singleton].
    + replace (String.length _ =? 9) with true by (symmetry; apply Nat.eqb_eq; rewrite !string_length_app; simpl; lia).
      rewrite bool_decide_eq_true_2 by done. cbn [negb].
      rewrite !string_app_cons, string_app_nil_l, H4. change (strings.drop _ _) with b. by rewrite Hca, Hcb.
    + replace (String.length _ =? 9) with false by (symmetry; apply Nat.eqb_neq; rewrite !string_length_app; simpl; lia).
      replace (String.length _ =? 2 * 4) with true by (symmetry; apply Nat.eqb_eq; rewrite !string_length_app; simpl; lia).
      rewrite !string_app_cons, !string_app_nil_l, H4. change (strings.drop 4 _) with b.
      rewrite !string_app_cons, !string_app_nil_l, H4. change (strings.drop _ _) with b. by rewrite Hca, Hcb.
Qed.

(** One position of a code: a character of the alphabet, at the cost of at least a byte. *)
Lemma draw_char_ok bytes c rest :
  draw_char bytes = Some (Ok c, rest) → Forall (λ r, ∀ b, r = Ok b → base32_facts.byte b) bytes →
  code_char c = true ∧ length rest < length bytes ∧ Forall (λ r, ∀ b, r = Ok b → base32_facts.byte b) rest.
Proof.
  induction bytes as [|[b|e] bytes IH]; cbn [draw_char]; [done| |done].
  intros Hd [Hb Hbs]%Forall_cons. specialize (Hb b eq_refl). destruct (b <? threshold)%Z eqn:Et.
  - injection Hd as <- <-. split_and!; [|simpl; lia|done]. unfold base32_facts.byte in Hb.
    assert (∃ k, (b mod 30)%Z = Z.of_nat k ∧ k < 30) as (k & -> & Hk).
    { exists (Z.to_nat (b mod 30)). Z.to_euclidean_division_equations. lia. }
    rewrite Nat2Z.id.
    assert (Forall (λ k, code_char (default "a"%char (String.get k recoveryAlphabet)) = true) (seq 0 30)) as Hall.
    { apply (bool_decide_unpack _). vm_compute. exact I. }
    rewrite Forall_forall in Hall. apply Hall, elem_of_seq. lia.
  - destruct (IH Hd Hbs) as (? & ? & ?). simpl. split_and!; [done|lia|done].
Qed.

Definition canonical_code (t : string) : Prop := ∃ a b, canonical a b ∧ t = a +:+ "-" +:+ b.

Lemma generate_canonical bytes t rest :
  generateRecoveryCode bytes = Some (Ok t, rest) → Forall (λ r, ∀ b, r = Ok b → base32_facts.byte b) bytes →
  canonical_code t ∧ length rest < length bytes ∧ Forall (λ r, ∀ b, r = Ok b → base32_facts.byte b) rest.
Proof.
  unfold generateRecoveryCode, recoveryGroupLen. cbn [Nat.mul Nat.add draw_code Nat.eqb].
  intros Hd Hb.
  do 8 (match type of Hd with context [draw_char ?bs] => destruct (draw_char bs) as [[[?c|?e] ?bs']|] eqn:?Hc end;
    [|discriminate Hd|discriminate Hd];
    match goal with Hc : draw_char _ = Some (Ok _, _), Hf : Forall _ _ |- _ =>
      destruct (draw_char_ok _ _ _ Hc Hf) as (?Hcc & ?Hl & ?Hf'); clear Hc Hf end).
  injection Hd as <- <-. split_and!; [|lia|done].
  eexists (String c (String c0 (String c1 (String c2 "")))), (String c3 (String c4 (String c5 (String c6 "")))).
  split; [|done]. unfold canonical. cbn [all_chars]. by rewrite Hcc, Hcc0, Hcc1, Hcc2, Hcc3, Hcc4, Hcc5, Hcc6.
Qed.

(** The codes drawn: as many as asked for, pairwise distinct, each of the canonical form. *)
Lemma distinct_codes_ok fuel n plain bytes out :
  distinct_codes fuel n plain bytes = Some (Ok out) → Forall (λ r, ∀ b, r = Ok b → base32_facts.byte b) bytes →
  length plain ≤ n → NoDup plain → Forall canonical_code plain →
  length out = n ∧ NoDup out ∧ Forall canonical_code out.
Proof.
  revert plain bytes. induction fuel as [|fuel IH]; intros plain bytes; cbn [distinct_codes];
    (destruct (length plain <? n) eqn:El; [apply Nat.ltb_lt in El|apply Nat.ltb_ge in El]);
    [done|intros [= <-] ????; split_and!; [lia|done|done]| |intros [= <-] ????; split_and!; [lia|done|done]].
  destruct (generateRecoveryCode bytes) as [[[t|e] rest]|] eqn:Eg; [|done|done]. intros Hd Hb Hl Hn Hc.
  destruct (generate_canonical _ _ _ Eg Hb) as (Ht & _ & Hr). case_decide as Hin.
  - by apply (IH plain rest).
  - apply (IH (plain ++ [t]) rest); [done|done|rewrite length_app; simpl; lia| |by apply Forall_app_2; [|apply Forall_singleton]].
    apply NoDup_app. split_and!; [done|set_solver|apply NoDup_singleton].
Qed.

(** The number of bytes is fuel enough: every round reads at least one. *)
Lemma distinct_codes_fuel f1 f2 n plain bytes :
  Forall (λ r, ∀ b, r = Ok b → base32_facts.byte b) bytes → length bytes ≤ f1 → length bytes ≤ f2 →
  distinct_codes f1 n plain bytes = distinct_codes f2 n plain bytes.
Proof.
  revert f2 plain bytes. induction f1 as [|f1 IH]; intros [|f2] plain bytes Hb H1 H2; cbn [distinct_codes]; [done| | |];
    (destruct (length plain <? n); [|done]).
  1,2: destruct bytes; [done|simpl in H1, H2; lia].
  destruct (generateRecoveryCode bytes) as [[[t|e] rest]|] eqn:Eg; [|done|done].
  destruct (generate_canonical _ _ _ Eg Hb) as (_ & Hl & Hr). case_decide; apply IH; auto; lia.
Qed.

(** ** A code is accepted once *)

(** [s] is the code [c] as a user may type it. *)
Definition typed_as (c s : string) : Prop :=
  ∃ a b, canonical a b ∧ c = a +:+ "-" +:+ b ∧ strings.ToLower (strip s) ∈ [a +:+ "-" +:+ b; a +:+ b].

Section matching.
Context (verify : string → string → result string (bool * bool)).

(** What [password.Verify] accepts in a slot. *)
Definition accepts (code h : string) : Prop := h ≠ "" ∧ ∃ r, verify code h = Ok (true, r).

Lemma match_code_none code k hashes :
  Forall (λ h, ¬ accepts code h) hashes → match_code verify code k hashes = (-1, false)%Z.
Proof.
  intros Hf. revert k. induction Hf as [|h hashes Hh _ IH]; intros k; [done|]. cbn [match_code].
  destruct h as [|c h]; [exact (IH _)|]. cbn [String.length Nat.eqb].
  destruct (verify code _) as [[[] r]|e] eqn:Ev; [|exact (IH _)|exact (IH _)].
  exfalso. apply Hh. split; [done|by exists r].
Qed.

Lemma match_code_first code k hashes i h :
  hashes !! i = Some h → accepts code h → (∀ j g, j < i → hashes !! j = Some g → ¬ accepts code g) →
  match_code verify code k hashes = (k + Z.of_nat i, true)%Z.
Proof.
  revert k i. induction hashes as [|g hashes IH]; intros k i; [done|]. destruct i as [|i]; cbn [lookup list_lookup match_code].
  - intros [= ->] [Hh [r Hr]] _. destruct h as [|c h]; [done|]. cbn [String.length Nat.eqb]. rewrite Hr. f_equal. lia.
  - intros Hi Ha Hf. pose proof (Hf 0 g ltac:(lia) eq_refl) as Hg.
    assert (match_code verify code (k + 1) hashes = (k + Z.of_nat (S i), true)%Z) as IH'.
    { rewrite (IH (k + 1)%Z i Hi Ha); [f_equal; lia|]. intros j x Hj Hx. apply (Hf (S j)); [lia|done]. }
    destruct g as [|c g]; [exact IH'|]. cbn [String.length Nat.eqb].
    destruct (verify code _) as [[[] r]|e] eqn:Ev; [|exact IH'|exact IH'].
    exfalso. apply Hg. split; [done|by exists r].
Qed.
End matching.

(** What the codes and hashes of a set are. *)
Lemma RecoveryCodes_ok hash n bytes plain hashed :
  RecoveryCodes hash n bytes = Some (Ok (plain, hashed)) → Forall (λ r, ∀ b, r = Ok b → base32_facts.byte b) bytes →
  Z.of_nat (length plain) = n ∧ NoDup plain ∧ Forall canonical_code plain ∧
  Forall2 (λ c h, hash c = Ok h) plain hashed.
Proof.
  unfold RecoveryCodes. destruct ((n <=? 0) || (recoveryMaxN <? n))%Z eqn:En; [done|]. apply orb_false_iff in En as [En _].
  destruct (distinct_codes _ _ _ _) as [[out|e]|] eqn:Ed; [|done|done].
  destruct (mapM _ out) as [hs|] eqn:Em; [|done]. intros [= <- <-] Hb.
  destruct (distinct_codes_ok _ _ _ _ _ Ed Hb) as (Hl & Hn & Hc); [simpl; lia|constructor|constructor|].
  split_and!; [lia|done|done|]. apply mapM_Some_1 in Em. eapply Forall2_impl; [exact Em|].
  intros c h. simpl. destruct (hash c); congruence.
Qed.

(** A code of a generated set is accepted however the user types it, at its own position,
    and not any more once that position has been blanked. *)
Theorem recovery_code_single_use hash verify n bytes plain hashed i c s :
  (∀ c h, hash c = Ok h → accepts verify c h ∧ ∀ d, accepts verify d h → d = c) →
  RecoveryCodes hash n bytes = Some (Ok (plain, hashed)) →
  Forall (λ r, ∀ b, r = Ok b → base32_facts.byte b) bytes →
  plain !! i = Some c → typed_as c s →
  Z.of_nat (length plain) = n ∧
  VerifyRecoveryCode verify s hashed = (Z.of_nat i, true) ∧
  VerifyRecoveryCode verify s (<[i := ""]> hashed) = (-1, false)%Z.
Proof.
  intros Hhash Hr Hb Hi Ht. destruct (RecoveryCodes_ok _ _ _ _ _ Hr Hb) as (Hn & Hnd & _ & Hf).
  split; [done|].
  assert (canonicaliseRecoveryCode s = Ok c) as Hcan by by apply canonicalise_spec.
  unfold VerifyRecoveryCode. rewrite Hcan. destruct (Forall2_lookup_l _ _ _ _ _ Hf Hi) as (h & Hh & Hch).
  assert (∀ j g, j ≠ i → hashed !! j = Some g → ¬ accepts verify c g) as Hother.
  { intros j g Hj Hg Ha. destruct (Forall2_lookup_r _ _ _ _ _ Hf Hg) as (d & Hd & Hdg).
    destruct (Hhash _ _ Hdg) as [_ Hu]. pose proof (Hu _ Ha) as <-. apply Hj, (NoDup_lookup _ _ _ _ Hnd Hd Hi). }
  destruct (Hhash _ _ Hch) as [Ha _]. split.
  - rewrite (match_code_first verify c 0 hashed i h); [done|done|done|]. intros j g Hj. apply Hother. lia.
  - apply match_code_none, Forall_lookup. intros j g. destruct (decide (i = j)) as [<-|Hj].
    + rewrite list_lookup_insert_eq; [|by eapply lookup_lt_Some]. intros [= <-] [[] _]. done.
    + rewrite list_lookup_insert_ne by done. by apply Hother.
Qed.

(** Two codes from sixteen bytes, under a password hash that prefixes a mark. *)
Definition mark (c : string) : result string string := Ok ("h:" +:+ c).
Definition unmark (c h : string) : result string (bool * bool) := Ok (bool_decide (h = "h:" +:+ c), false).
Definition sixteen : list (result string Z) := Ok <$> [0; 1; 2; 3; 250; 4; 5; 6; 7; 29; 28; 27; 26; 55; 54; 53; 52]%Z.

Lemma recovery_code_single_use_witness :
  VerifyRecoveryCode unmark "9876-543"%string ["h:abcd-efgh"; "h:9876-5432"] = (-1, false)%Z ∧
  VerifyRecoveryCode unmark "9876 5 4 3 2"%string (<[1 := ""]> ["h:abcd-efgh"; "h:9876-5432"]) = (-1, false)%Z.
Proof.
  split; [by vm_compute|].
  refine (proj2 (proj2 (recovery_code_single_use mark unmark 2 sixteen ["abcd-efgh"; "9876-5432"] ["h:abcd-efgh"; "h:9876-5432"]
    1 "9876-5432" "9876 5 4 3 2" _ _ _ _ _))).
  - intros c h [= <-]. unfold accepts, unmark. split; [split; [done|exists false]; by rewrite bool_decide_eq_true_2|].
    intros d [_ [r [= Hd _]]]. apply bool_decide_eq_true in Hd. by simplify_eq.
  - vm_compute. reflexivity.
  - repeat (apply Forall_cons; split; [intros b [= <-]; unfold base32_facts.byte; lia|]). constructor.
  - vm_compute. reflexivity.
  - exists "9876", "5432". split_and!; [vm_compute; tauto|done|right; left].
Defined.
