(* ===== verification/Login.v ===== *)
(** * Password login (apps/api/internal/auth/login: deps.go, service.go,
    intermediate.go, dummy_hash.go, handler.go)

    A login attempt as a program of commands: the user and second-factor lookups,
    the limiter, argon2, the intermediate tokens, the session and the audit log,
    each one step, so attempts interleave between any two of them. Argon2 and the
    RFC 6238 comparison are arguments; texts are ASCII. *)
From S2P Require Import Prelude Prog GoStrings GoTime Base64 Hex Redis LoginLimit AuditLog Http Totp.
From Stdlib Require Import Ascii.

(** ** Wiring (deps.go) *)

Record UserRecord := mkUserRecord { u_ID : string; u_Email : string; u_Hash : string; u_Status : string }.
Record TOTPRecord := mkTOTPRecord { Enabled : bool; SecretBase32 : string; RecoveryHashes : list string }.

Inductive lookup_error := ErrUserNotFound | ErrLookup (e : string).
Inductive totp_lookup_error := ErrTOTPNotEnabled | ErrTOTPLookup (e : string).

Record Deps := mkDeps {
  has_Lookup : bool; has_TOTPLookup : bool; has_Rehash : bool; has_Sessions : bool;
  has_Limiter : bool; has_AuditEmitter : bool; has_Intermediate : bool;
  SessionAbsoluteTTL : Duration; SessionIdleTTL : Duration; IntermediateTTL : Duration;
  Insecure : bool; CookieDomain : string; CookieName : string;
}.

Definition deps_validate (d : Deps) : option string :=
  if negb (has_Lookup d) then Some "login.Deps: Lookup is required"
  else if negb (has_Sessions d) then Some "login.Deps: Sessions is required"
  else if (SessionAbsoluteTTL d <=? 0)%Z then Some "login.Deps: SessionAbsoluteTTL must be > 0"
  else if ((SessionIdleTTL d <=? 0) || (SessionAbsoluteTTL d <? SessionIdleTTL d))%Z
  then Some "login.Deps: SessionIdleTTL must be in (0, SessionAbsoluteTTL]"
  else if negb (has_Limiter d) then Some "login.Deps: Limiter is required"
  else if negb (has_AuditEmitter d) then Some "login.Deps: AuditEmitter is required"
  else if has_TOTPLookup d && negb (has_Intermediate d)
  then Some "login.Deps: Intermediate is required when TOTPLookup is set"
  else None.

Definition defaults (d : Deps) : Deps :=
  mkDeps (has_Lookup d) (has_TOTPLookup d) (has_Rehash d) (has_Sessions d) (has_Limiter d)
    (has_AuditEmitter d) (has_Intermediate d) (SessionAbsoluteTTL d) (SessionIdleTTL d)
    (if (IntermediateTTL d <=? 0)%Z then (5 * minute)%Z else IntermediateTTL d)
    (Insecure d) (CookieDomain d) (CookieName d).

Definition NewService (d : Deps) : result string Deps :=
  match deps_validate d with Some e => Err e | None => Ok (defaults d) end.

(** ** Calls and answers (service.go, errors.go) *)

Record Input := mkInput {
  Email : string; Password : string; TOTPCode : string; RecoveryCode : string;
  IntermediateToken : string; IP : string; UserAgent : string;
}.

Definition trim_email (i : Input) : Input :=
  mkInput (strings.TrimSpace (Email i)) (Password i) (TOTPCode i) (RecoveryCode i) (IntermediateToken i)
    (IP i) (UserAgent i).

Record Result := mkResult {
  r_UserID : string; r_Token : string; r_ExpiresAt : Time; RequiresTOTP : bool; r_IntermediateToken : string }.

(** Errors, with the wait a [retryAfterError] carries. *)
Inductive login_error :=
| ErrInvalidCredentials
| ErrLocked (wait : Duration)
| ErrRateLimited (wait : Duration)
| ErrTOTPInvalid
| ErrIntermediateExpired
| EInternal (msg : string).

Definition retryAfter (e : login_error) : Duration :=
  match e with ErrLocked w | ErrRateLimited w => w | _ => 0%Z end.

Inductive inter_error := ErrIntermediateNotFound | ErrInter (e : string).

(** What the service sends to its collaborators, and what comes back. Each run of
    [password.Verify] is a command: [CVerify] for passwords, [CVerifyCode], without
    a pepper, for recovery codes. *)
Inductive cmd : Type → Type :=
| CLookup (email : string) : cmd (result lookup_error UserRecord)
| CTOTPLookup (userID : string) : cmd (result totp_lookup_error TOTPRecord)
| CRehash (userID newHash : string) : cmd (option string)
| CCheck (i : CheckInput) : cmd (result limit_error PreCheckResult)
| CRecordFailure (userID : string) : cmd (result string bool)
| CRecordSuccess (userID : string) : cmd (option string)
| CIsLocked (userID : string) : cmd (result string (bool * Time))
| CVerify (plaintext hash : string) : cmd (result string (bool * bool))
| CHash (plaintext : string) : cmd (result string string)
| CDummyHash : cmd (result string string)
| CVerifyTOTP (secret code : string) : cmd bool
| CVerifyCode (code hash : string) : cmd (result string (bool * bool))
| CRand : cmd (result string (list Z))
| CStore (token userID : string) (ttl : Duration) : cmd (option string)
| CLoad (token : string) : cmd (result inter_error string)
| CDelete (token : string) : cmd (option string)
| CCreate (userID : string) (ttl idleTTL : Duration) : cmd (result string string)
| CNow : cmd Time
| CEmit (actor eventType : string) (opts : list (EmitOption (V := string))) : cmd unit.

Definition generateIntermediateToken (random : result string (list Z)) : result string string :=
  match random with
  | Err e => Err ("login: generate intermediate token: " +:+ e)
  | Ok b => Ok (base64.EncodeToString b)
  end.

(** *** Audit events *)

Definition baseOpts (i : Input) : list EmitOption :=
  (if decide (IP i = "") then [] else [WithIP (IP i)]) ++
  (if decide (UserAgent i = "") then [] else [WithMetadata {["user_agent" := UserAgent i]}]).

Definition emitAttempt (i : Input) (userID : string) : cmd unit :=
  CEmit userID "auth.login.attempt"
    (baseOpts i ++ [WithSeverity SeverityInfo; WithMetadata {["email" := Email i]}]).
Definition emitSuccess (i : Input) (userID : string) : cmd unit :=
  CEmit userID "auth.login.success"
    (baseOpts i ++ [WithSeverity SeverityInfo; WithTarget "user" userID]).
Definition emitFailed (i : Input) (userID reason : string) : cmd unit :=
  CEmit userID "auth.login.failed"
    (baseOpts i ++ [WithSeverity SeverityWarning; WithMetadata {["email" := Email i; "reason" := reason]}]).
Definition RFC3339 (t : Time) : string := time.RFC3339Nano (t / second * second).
Definition emitLocked (i : Input) (userID : string) (lockedUntil : Time) : cmd unit :=
  CEmit userID "auth.login.locked"
    (baseOpts i ++ [WithSeverity SeverityWarning; WithTarget "user" userID;
                    WithMetadata {["locked_until" := RFC3339 lockedUntil]}]).

(** ** The service *)

Section service.
Context (d : Deps).

Definition lookup (email : string) : prog cmd (result lookup_error UserRecord) :=
  r <- CLookup email ;;
  Ret (match r with
       | Err e => Err e
       | Ok u => if decide (u_ID u = "") then Err ErrUserNotFound else Ok u
       end).

Definition loadTOTP (userID : string) : prog cmd (option TOTPRecord) :=
  if negb (has_TOTPLookup d) then Ret None
  else
    r <- CTOTPLookup userID ;;
    Ret (match r with
         | Err _ => None
         | Ok rec => if negb (Enabled rec) then None else Some rec
         end).

Definition verifyAgainst (plaintext hash : string) : prog cmd bool :=
  r <- CVerify plaintext hash ;;
  Ret (match r with Err _ => false | Ok (ok, _) => ok end).

Definition verifyDummy (plaintext : string) : prog cmd bool :=
  h <- CDummyHash ;;
  match h with Err _ => Ret false | Ok h => verifyAgainst plaintext h end.

(** [totp.VerifyRecoveryCode]: one argon2 comparison for each stored hash, up to the
    first that matches. *)
Fixpoint match_codes (code : string) (hashes : list string) : prog cmd bool :=
  match hashes with
  | [] => Ret false
  | h :: hashes =>
      if String.length h =? 0 then match_codes code hashes
      else
        r <- CVerifyCode code h ;;
        match r with
        | Ok (true, _) => Ret true
        | _ => match_codes code hashes
        end
  end.

Definition verifyRecovery (plaintextCode : string) (storedHashes : list string) : prog cmd bool :=
  match canonicaliseRecoveryCode plaintextCode with
  | Err _ => Ret false
  | Ok code => match_codes code storedHashes
  end.

Definition verifyTOTPOrRecovery (i : Input) (rec : TOTPRecord) : prog cmd bool :=
  if negb (bool_decide (TOTPCode i = "")) then ok <- CVerifyTOTP (SecretBase32 rec) (TOTPCode i) ;; Ret ok
  else if negb (bool_decide (RecoveryCode i = ""))
  then verifyRecovery (RecoveryCode i) (RecoveryHashes rec)
  else Ret false.

Definition completeLogin (i : Input) (userID : string) : prog cmd (result login_error Result) :=
  r <- CCreate userID (SessionAbsoluteTTL d) (SessionIdleTTL d) ;;
  match r with
  | Err e => Ret (Err (EInternal ("login: create session: " +:+ e)))
  | Ok token =>
      CRecordSuccess userID ;;;
      now <- CNow ;;
      emitSuccess i userID ;;;
      Ret (Ok (mkResult userID token (now + SessionAbsoluteTTL d)%Z false ""))
  end.

Definition finalizeTOTP (i : Input) : prog cmd (result login_error Result) :=
  r <- CLoad (IntermediateToken i) ;;
  match r with
  | Err ErrIntermediateNotFound =>
      emitFailed i "" "intermediate_expired" ;;; Ret (Err ErrIntermediateExpired)
  | Err (ErrInter e) => Ret (Err (EInternal ("login: load intermediate: " +:+ e)))
  | Ok userID =>
      run! tot := loadTOTP userID in
      match tot with
      | None => CDelete (IntermediateToken i) ;;; completeLogin i userID
      | Some rec =>
          run! ok := verifyTOTPOrRecovery i rec in
          if negb ok then
            CRecordFailure userID ;;;
            emitFailed i userID "wrong_totp" ;;;
            Ret (Err ErrTOTPInvalid)
          else CDelete (IntermediateToken i) ;;; completeLogin i userID
      end
  end.

(** The rest of a first call once the password has matched and the account was not
    found locked. *)
Definition secondFactor (i : Input) (userID : string) : prog cmd (result login_error Result) :=
  run! tot := loadTOTP userID in
  match tot with
  | None => completeLogin i userID
  | Some rec =>
      if negb (bool_decide (TOTPCode i = "")) || negb (bool_decide (RecoveryCode i = "")) then
        run! ok := verifyTOTPOrRecovery i rec in
        if negb ok then
          CRecordFailure userID ;;;
          emitFailed i userID "wrong_totp" ;;;
          Ret (Err ErrTOTPInvalid)
        else completeLogin i userID
      else
        r <- CRand ;;
        match generateIntermediateToken r with
        | Err e => Ret (Err (EInternal ("login: " +:+ e)))
        | Ok token =>
            s <- CStore token userID (IntermediateTTL d) ;;
            match s with
            | Some e => Ret (Err (EInternal ("login: store intermediate: " +:+ e)))
            | None => Ret (Ok (mkResult userID "" time_zero true token))
            end
        end
  end.

Definition rehash (i : Input) (userID : string) (needsRehash : bool) : prog cmd unit :=
  if needsRehash && has_Rehash d then
    h <- CHash (Password i) ;;
    match h with
    | Err _ => Ret ()
    | Ok newHash => CRehash userID newHash ;;; Ret ()
    end
  else Ret ().

(** What follows once the password was compared. *)
Definition checkPassword (i : Input) (user : UserRecord) : prog cmd (result login_error Result) :=
  v <- CVerify (Password i) (u_Hash user) ;;
  match v with
  | Err _ => emitFailed i (u_ID user) "hash_error" ;;; Ret (Err ErrInvalidCredentials)
  | Ok (false, _) =>
      CRecordFailure (u_ID user) ;;;
      emitFailed i (u_ID user) "wrong_password" ;;;
      Ret (Err ErrInvalidCredentials)
  | Ok (true, needsRehash) =>
      l <- CIsLocked (u_ID user) ;;
      match l with
      | Ok (true, lockedUntil) =>
          emitLocked i (u_ID user) lockedUntil ;;;
          now <- CNow ;;
          let retry := time.Sub lockedUntil now in
          Ret (Err (ErrLocked (if (retry <? 0)%Z then 0%Z else retry)))
      | _ =>
          run! _ := rehash i (u_ID user) needsRehash in
          secondFactor i (u_ID user)
      end
  end.

Definition Authenticate (i0 : Input) : prog cmd (result login_error Result) :=
  let i := trim_email i0 in
  if negb (bool_decide (IntermediateToken i = "")) then finalizeTOTP i
  else if decide (Email i = "") then
    run! _ := verifyDummy (Password i) in
    emitAttempt i "" ;;;
    emitFailed i "" "missing_email" ;;;
    Ret (Err ErrInvalidCredentials)
  else
    run! found := lookup (Email i) in
    let userID := match found with Ok u => u_ID u | Err _ => "" end in
    emitAttempt i userID ;;;
    pre <- CCheck (LoginLimit.mkInput (IP i) (Email i) (match found with Ok _ => true | Err _ => false end)) ;;
    match pre with
    | Err e => emitFailed i userID "ratelimit_error" ;;; Ret (Err (EInternal "login: rate limit"))
    | Ok pre =>
        if negb (pc_Allowed pre) then
          emitFailed i userID "rate_limited" ;;; Ret (Err (ErrRateLimited (pc_RetryAfter pre)))
        else
          match found with
          | Ok user =>
              if negb (bool_decide (u_Status user = "active")) then
                run! _ := verifyDummy (Password i) in
                emitFailed i userID "unknown_or_inactive" ;;;
                Ret (Err ErrInvalidCredentials)
              else checkPassword i user
          | Err _ =>
              run! _ := verifyDummy (Password i) in
              emitFailed i userID "unknown_or_inactive" ;;;
              Ret (Err ErrInvalidCredentials)
          end
    end.
End service.

(** ** Intermediate tokens (intermediate.go) *)

(** What the surroundings decide at one command: the process clock and Redis' clock
    (milliseconds), the random bytes drawn, and what becomes of a request to a
    service. *)
Record env := mkEnv {
  now : Time; redis_now : Z; random : result string (list Z); salt : list Z; net : outcome }.

Class IntermediateStore (I : Type) := {
  is_Store : env → I → string → string → Duration → I * option string;
  is_Load : env → I → string → I * result inter_error string;
  is_Delete : env → I → string → I * option string;
}.

(** A store never answers with a user that was not stored under the token, and a
    token that was deleted is not answered. *)
Class IntermediateLaws (I : Type) `{IntermediateStore I} := {
  holds : I → string → string → Prop;
  Store_holds e s t u ttl t' u' :
    holds (is_Store e s t u ttl).1 t' u' → holds s t' u' ∨ (t' = t ∧ u' = u);
  Load_holds e s t u : (is_Load e s t).2 = Ok u → holds s t u;
  Load_keeps e s t t' u' : holds (is_Load e s t).1 t' u' → holds s t' u';
  Delete_keeps e s t t' u' : holds (is_Delete e s t).1 t' u' → holds s t' u';
  Delete_gone e s t u : (is_Delete e s t).2 = None → ¬ holds (is_Delete e s t).1 t u;
}.

Definition memory_tokens : Type := gmap string (string * Time).

Definition memory_Store (e : env) (s : memory_tokens) (token userID : string) (ttl : Duration)
    : memory_tokens * option string :=
  if decide (token = "" ∨ userID = "") then (s, Some "login: memoryIntermediateStore.Store: token and userID required")
  else if (ttl <=? 0)%Z then (s, Some "login: memoryIntermediateStore.Store: ttl must be > 0")
  else (<[token := (userID, now e + ttl)%Z]> (s : gmap string (string * Time)), None).

Definition memory_Load (e : env) (s : memory_tokens) (token : string) : memory_tokens * result inter_error string :=
  match (s : gmap string (string * Time)) !! token with
  | None => (s, Err ErrIntermediateNotFound)
  | Some (userID, expiresAt) =>
      if negb (time_before (now e) expiresAt)
      then (delete token (s : gmap string (string * Time)), Err ErrIntermediateNotFound)
      else (s, Ok userID)
  end.

Definition memory_Delete (e : env) (s : memory_tokens) (token : string) : memory_tokens * option string :=
  (delete token (s : gmap string (string * Time)), None).

#[export] Instance memory_intermediate : IntermediateStore memory_tokens := {
  is_Store := memory_Store; is_Load := memory_Load; is_Delete := memory_Delete }.

#[export] Program Instance memory_intermediate_laws : IntermediateLaws memory_tokens := {
  holds s t u := ∃ x, (s : gmap string (string * Time)) !! t = Some (u, x) }.
Next Obligation.
  intros e s t u ttl t' u'. cbn. unfold memory_Store. case_decide; [by left|]. destruct (ttl <=? 0)%Z; [by left|].
  cbn. intros [x Hx]. apply lookup_insert_Some in Hx as [[<- [= <- <-]]|[_ Hx]]; [by right|left; by exists x].
Qed.
Next Obligation.
  intros e s t u. cbn. unfold memory_Load. destruct (_ !! t) as [[v x]|] eqn:Ht; [|done].
  destruct (negb _); [done|]. intros [= ->]. by exists x.
Qed.
Next Obligation.
  intros e s t t' u'. cbn. unfold memory_Load. destruct (_ !! t) as [[v x]|] eqn:Ht; [|done].
  destruct (negb _); [|done]. intros [y Hy]. cbn in Hy. apply lookup_delete_Some in Hy as [_ Hy]. by exists y.
Qed.
Next Obligation. intros e s t t' u' [x Hx]. cbn in Hx. apply lookup_delete_Some in Hx as [_ Hx]. by exists x. Qed.
Next Obligation. intros e s t u _ [x Hx]. cbn in Hx. by rewrite lookup_delete_eq in Hx. Qed.

Section redis_store.
Context {R : Type} `{RedisLaws R}.

Definition intermediateKey (token : string) : string := "login_intermediate:" +:+ token.

Definition redis_Store (e : env) (r : R) (token userID : string) (ttl : Duration) : R * option string :=
  if decide (token = "" ∨ userID = "") then (r, Some "login: redisIntermediateStore.Store: token and userID required")
  else if (ttl <=? 0)%Z then (r, Some "login: redisIntermediateStore.Store: ttl must be > 0")
  else
    let r' := SETPX r (redis_now e) (intermediateKey token) userID (formatMs ttl) in
    match net e with
    | Served => (r', None)
    | ReplyLost => (r', Some "login: persist intermediate")
    | Refused => (r, Some "login: persist intermediate")
    end.

Definition redis_Load (e : env) (r : R) (token : string) : R * result inter_error string :=
  match net e with
  | Served =>
      (r, match GET r (redis_now e) (intermediateKey token) with
          | Some v => Ok v
          | None => Err ErrIntermediateNotFound
          end)
  | _ => (r, Err (ErrInter "login: load intermediate"))
  end.

Definition redis_Delete (e : env) (r : R) (token : string) : R * option string :=
  match net e with
  | Served => (DEL r (redis_now e) (intermediateKey token), None)
  | ReplyLost => (DEL r (redis_now e) (intermediateKey token), Some "login: delete intermediate")
  | Refused => (r, Some "login: delete intermediate")
  end.

Instance redis_intermediate : IntermediateStore R := {
  is_Store := redis_Store; is_Load := redis_Load; is_Delete := redis_Delete }.

Definition redis_holds (r : R) (t u : string) : Prop := ∃ x, view r (intermediateKey t) = Some (RStr u, x).

Lemma intermediateKey_inj t u : intermediateKey t = intermediateKey u → t = u.
Proof. unfold intermediateKey. by intros [=]. Qed.

Lemma redis_SETPX_holds e r t u ttl t' u' : (0 < ttl)%Z →
  redis_holds (SETPX r (redis_now e) (intermediateKey t) u (formatMs ttl)) t' u' →
  redis_holds r t' u' ∨ (t' = t ∧ u' = u).
Proof.
  intros Httl [x Hx]. destruct (decide (t = t')) as [<-|Hne].
  - rewrite view_SETPX in Hx by by apply formatMs_pos. injection Hx as <- _. by right.
  - rewrite view_SETPX_ne in Hx by by intros Heq%intermediateKey_inj. left. by exists x.
Qed.

Lemma redis_DEL_holds e r t t' u' :
  redis_holds (DEL r (redis_now e) (intermediateKey t)) t' u' → t' ≠ t ∧ redis_holds r t' u'.
Proof.
  intros [x Hx]. rewrite view_DEL in Hx. case_decide as Hk; [done|]. split; [by intros ->|by exists x].
Qed.

Program Definition redis_intermediate_laws : IntermediateLaws R := {| holds := redis_holds |}.
Next Obligation.
  intros e r t u ttl t' u'. cbn. unfold redis_Store. case_decide; [by left|].
  destruct (ttl <=? 0)%Z eqn:Et; [by left|]. apply Z.leb_gt in Et.
  destruct (net e); [by apply redis_SETPX_holds..|by left].
Qed.
Next Obligation.
  intros e r t u. cbn. unfold redis_Load. destruct (net e); [|done..]. cbn. rewrite view_GET.
  unfold redis_holds. destruct (view r (intermediateKey t)) as [[[v|m] [x|]]|]; cbn; try done.
  - destruct (_ <? _)%Z; [done|]. intros [= ->]. by exists (Some x).
  - intros [= ->]. by exists None.
  - by destruct (_ <? _)%Z.
Qed.
Next Obligation. intros e r t t' u'. cbn. unfold redis_Load. by destruct (net e). Qed.
Next Obligation.
  intros e r t t' u'. cbn. unfold redis_Delete. destruct (net e); cbn; [|..|done]; by intros [_ ?]%redis_DEL_holds.
Qed.
Next Obligation.
  intros e r t u. cbn. unfold redis_Delete. destruct (net e); cbn; [|done..]. by intros _ [? _]%redis_DEL_holds.
Qed.
End redis_store.

(** ** The collaborators *)

Definition text_of (b : list Z) : string := String.string_of_list_ascii ((λ x, ascii_of_nat (Z.to_nat x)) <$> b).

Section exec.
(** Argon2 with the pepper ([Hash] with the salt it drew) and, for recovery codes,
    without one, the RFC 6238 comparison, and the two rate-limit buckets. *)
Context (Hash : list Z → string → result string string).
Context (Verify verify_nil : string → string → result string (bool * bool)).
Context (ValidateCustom : string → string → Time → Z → Z → result string bool).
Context {L : Type} (Allow : L → string → L * result limit_error (bool * Duration)).
Context {F : Type} `{FailureStore F} (limiter : LoginAttemptLimiter).
Context {I : Type} `{IntermediateStore I}.
Context {S Prefix : Type} `{AuditStore string S} (hmac : string → string → string).
Context (emitter : Emitter (V := string) (S := S) (Prefix := Prefix)).

(** [dummy] is what the first construction of the dummy hash left behind; [sessions]
    are the sessions created so far, token and user. *)
Record world := mkWorld {
  users : gmap string UserRecord; totps : gmap string TOTPRecord; inter : I; failures : F;
  ip_bucket : L; email_bucket : L; dummy : option (result string string);
  sessions : list (string * string); audit : S }.

Definition set_users v w := mkWorld v (totps w) (inter w) (failures w) (ip_bucket w) (email_bucket w) (dummy w) (sessions w) (audit w).
Definition set_totps v w := mkWorld (users w) v (inter w) (failures w) (ip_bucket w) (email_bucket w) (dummy w) (sessions w) (audit w).
Definition set_inter v w := mkWorld (users w) (totps w) v (failures w) (ip_bucket w) (email_bucket w) (dummy w) (sessions w) (audit w).
Definition set_failures v w := mkWorld (users w) (totps w) (inter w) v (ip_bucket w) (email_bucket w) (dummy w) (sessions w) (audit w).
Definition set_buckets v v' w := mkWorld (users w) (totps w) (inter w) (failures w) v v' (dummy w) (sessions w) (audit w).
Definition set_dummy v w := mkWorld (users w) (totps w) (inter w) (failures w) (ip_bucket w) (email_bucket w) v (sessions w) (audit w).
Definition set_sessions v w := mkWorld (users w) (totps w) (inter w) (failures w) (ip_bucket w) (email_bucket w) (dummy w) v (audit w).
Definition set_audit v w := mkWorld (users w) (totps w) (inter w) (failures w) (ip_bucket w) (email_bucket w) (dummy w) (sessions w) v.

(** A request to a service that is refused leaves it as it was; when the reply is
    lost it has been carried out. *)
Definition served {X} (e : env) (w : world) (act : world * X) (fail : X) : world * X :=
  match net e with Served => act | ReplyLost => (act.1, fail) | Refused => (w, fail) end.

(** [getDummyHash]: made once, for the whole process. *)
Definition getDummyHash (e : env) (w : world) : world * result string string :=
  match dummy w with
  | Some r => (w, r)
  | None =>
      let r := match random e with Err err => Err err | Ok secret => Hash (salt e) (hex.EncodeToString (text_of secret)) end in
      (set_dummy (Some r) w, r)
  end.

Definition row_for_email (w : world) (email : string) : result lookup_error UserRecord :=
  match users w !! email with Some u => Ok u | None => Err ErrUserNotFound end.
Definition row_for_totp (w : world) (userID : string) : result totp_lookup_error TOTPRecord :=
  match totps w !! userID with Some r => Ok r | None => Err ErrTOTPNotEnabled end.

Definition session_create (e : env) (w : world) (userID : string) (ttl idleTTL : Duration) : world * result string string :=
  if decide (userID = "") then (w, Err "userID is required")
  else if ((ttl <=? 0) || (idleTTL <=? 0) || (ttl <? idleTTL))%Z then (w, Err "ttl must be positive")
  else
    match random e with
    | Err err => (w, Err err)
    | Ok b =>
        let token := base64.EncodeToString b in
        served e w (set_sessions (sessions w ++ [(token, userID)]) w, Ok token) (Err "redis")
    end.

Definition exec (X : Type) (e : env) (w : world) (c : cmd X) : world * X :=
  match c in cmd X return world * X with
  | CLookup email => served e w (w, row_for_email w email) (Err (ErrLookup "query"))
  | CTOTPLookup userID => served e w (w, row_for_totp w userID) (Err (ErrTOTPLookup "query"))
  | CRehash userID newHash =>
      served e w (set_users ((λ u, if decide (u_ID u = userID)
                                   then mkUserRecord (u_ID u) (u_Email u) newHash (u_Status u) else u) <$> users w) w, None)
        (Some "update")
  | CCheck i =>
      let '(ip, email, (pre, err), _) := Check_login Allow (ip_bucket w) (email_bucket w) i in
      (set_buckets ip email w, match err with Some e => Err e | None => Ok pre end)
  | CRecordFailure userID =>
      let r := RecordFailure limiter (now e) (failures w) userID in (set_failures r.1.1 w, r.1.2)
  | CRecordSuccess userID =>
      let r := RecordSuccess (now e) (failures w) userID in (set_failures r.1.1 w, r.1.2)
  | CIsLocked userID => (w, IsLocked (now e) (failures w) userID)
  | CVerify plaintext hash => (w, Verify plaintext hash)
  | CHash plaintext => (w, Hash (salt e) plaintext)
  | CDummyHash => getDummyHash e w
  | CVerifyCode code hash => (w, verify_nil code hash)
  | CVerifyTOTP secret code => (w, Verify_totp ValidateCustom (now e) secret code)
  | CRand => (w, random e)
  | CStore token userID ttl => let r := is_Store e (inter w) token userID ttl in (set_inter r.1 w, r.2)
  | CLoad token => let r := is_Load e (inter w) token in (set_inter r.1 w, r.2)
  | CDelete token => let r := is_Delete e (inter w) token in (set_inter r.1 w, r.2)
  | CCreate userID ttl idleTTL => session_create e w userID ttl idleTTL
  | CNow => (w, now e)
  | CEmit actor eventType opts =>
      let em := if decide (actor = "") then emitter else WithActor actor emitter in
      (set_audit (Emitter_Emit (λ s, s) hmac em (audit w) (now e) eventType opts).1 w, ())
  end.

(** Between two commands someone else may change accounts, enrolments and failure
    counters. *)
Definition drift (w w' : world) : Prop := ∃ us ts fs, w' = set_failures fs (set_totps ts (set_users us w)).
End exec.

(** ** The route (handler.go, session/cookie.go) *)

Definition maxBodyBytes : nat := 4 * 1024.

Record requestBody := mkBody {
  b_Email : string; b_Password : string; b_TOTPCode : string; b_RecoveryCode : string; b_IntermediateToken : string }.

Record LoginRequest := mkLoginRequest { l_Method : string; l_Body : string; l_RemoteAddr : string; l_UserAgent : string }.

Definition json_space (c : ascii) : bool := bool_decide (c ∈ [" "; "009"; "010"; "013"]%char).

(** [Decode] is encoding/json's decoder for [requestBody] with unknown fields refused:
    the value and what follows it. A body over the limit fails in the first or in the
    second read. *)
Definition decodeRequest (Decode : string → result string (requestBody * string)) (raw : string) : result string requestBody :=
  match Decode (String.substring 0 maxBodyBytes raw) with
  | Err e => Err e
  | Ok (b, tail) =>
      if all_chars json_space tail && (String.length raw <=? maxBodyBytes) then Ok b
      else Err "login: trailing data after JSON body"
  end.

Definition clientIP (r : LoginRequest) : string :=
  match net.SplitHostPort (l_RemoteAddr r) with Some (host, _) => host | None => l_RemoteAddr r end.

Record Cookie := mkCookie {
  ck_Name : string; ck_Value : string; ck_Domain : string; ck_Secure : bool; ck_MaxAge : Z; ck_Expires : Time }.
Record CookieOptions := mkCookieOptions { co_Name : string; co_Domain : string; co_MaxAge : Duration; co_Insecure : bool }.

(** [session.SetCookie]; the path is / and the cookie is HttpOnly and SameSite=Lax. *)
Definition SetCookie (now : Time) (token : string) (o : CookieOptions) : Cookie :=
  let name := if decide (co_Name o = "") then "sid" else co_Name o in
  let c := mkCookie name token (co_Domain o) (negb (co_Insecure o)) in
  if (0 <? co_MaxAge o)%Z then c (Z.quot (co_MaxAge o) second) (now + co_MaxAge o)%Z
  else if (co_MaxAge o <? 0)%Z then c (-1)%Z 0%Z
  else c 0%Z time_zero.

Inductive payload :=
| PError (code : string)
| PSuccess (userID : string) (expiresAt : Time)
| PTOTPRequired (token : string) (requires : list string).

Record reply := mkReply {
  status : Z; allow : option string; retry_header : option string; cookie : option Cookie; payload_of : payload }.

Definition writeError (code : Z) (msg : string) : reply :=
  mkReply code None None None (PError (if decide (msg = "") then "error" else msg)).

Definition retry_seconds (wait : Duration) : Z :=
  let seconds := Z.quot wait second in
  let seconds := if (seconds * second <? wait)%Z then (seconds + 1)%Z else seconds in
  if (seconds <? 1)%Z then 1%Z else seconds.
Definition setRetryAfter (wait : Duration) (r : reply) : reply :=
  if (wait <=? 0)%Z then r
  else mkReply (status r) (allow r) (Some (strconv.Itoa (retry_seconds wait))) (cookie r) (payload_of r).

Definition writeAuthError (e : login_error) : reply :=
  match e with
  | ErrInvalidCredentials | ErrTOTPInvalid | ErrIntermediateExpired => writeError 401 "invalid_credentials"
  | ErrLocked wait => setRetryAfter wait (writeError 423 "account_locked")
  | ErrRateLimited wait => setRetryAfter wait (writeError 429 "rate_limited")
  | EInternal _ => writeError 500 "internal_error"
  end.

Definition input_of (r : LoginRequest) (b : requestBody) : Input :=
  mkInput (b_Email b) (b_Password b) (b_TOTPCode b) (b_RecoveryCode b) (b_IntermediateToken b) (clientIP r) (l_UserAgent r).

Section route.
Context (d : Deps).
Context (Decode : string → result string (requestBody * string)).

Definition answer_of (a : result login_error Result) : prog cmd reply :=
  match a with
  | Err e => Ret (writeAuthError e)
  | Ok res =>
      if RequiresTOTP res then Ret (mkReply 200 None None None (PTOTPRequired (r_IntermediateToken res) ["totp"]))
      else
        now <- CNow ;;
        Ret (mkReply 200 None None
          (Some (SetCookie now (r_Token res)
             (mkCookieOptions (CookieName d) (CookieDomain d) (SessionAbsoluteTTL d) (Insecure d))))
          (PSuccess (r_UserID res) (r_ExpiresAt res)))
  end.

Definition ServeHTTP (r : LoginRequest) : prog cmd reply :=
  if negb (bool_decide (l_Method r = "POST")) then
    Ret (mkReply 405 (Some "POST") None None (PError "method_not_allowed"))
  else
    match decodeRequest Decode (l_Body r) with
    | Err _ => Ret (writeError 400 "invalid_request")
    | Ok b => run! a := Authenticate d (input_of r b) in answer_of a
    end.
End route.
