(* ===== verification/LoginProps.v ===== *)
(** * Password login, proved

    No session without a verified password and, where the account is enrolled, a
    verified second factor, whatever attempts run side by side; refused first calls
    that cannot be told apart; the two-step login end to end. *)
From S2P Require Import Prelude Prog Calls GoStrings GoTime Base64 Redis LoginLimit AuditLog Http Totp Login.
From Stdlib Require Import Ascii.

Abbreviation trace := (list (event cmd)) (only parsing).

(** ** Recovery codes *)

Definition is_code (e : event cmd) : bool :=
  match e with Ev c _ => match c with CVerifyCode _ _ => true | _ => false end end.

(** The stored hash that a typed recovery code was found to match. *)
Definition code_matched (typed : string) (hashes : list string) (l : trace) : Prop :=
  ∃ c h needs, canonicaliseRecoveryCode typed = Ok c ∧ h ∈ hashes ∧ String.length h ≠ 0 ∧
    Ev (CVerifyCode c h) (Ok (true, needs)) ∈ l.

(** Comparing a recovery code adds comparisons of recovery codes only, and accepts
    a code that one of them matched. *)
Lemma along_match_codes {A} (pre : trace → ∀ R, cmd R → Prop) (post : trace → A → Prop) c hashes l
    (k : bool → prog cmd A) :
  (∀ l c h, pre l _ (CVerifyCode c h)) →
  (∀ evs ok, Forall (λ e, is_code e = true) evs →
     (ok = true → ∃ h needs, h ∈ hashes ∧ String.length h ≠ 0 ∧ Ev (CVerifyCode c h) (Ok (true, needs)) ∈ evs) →
     along pre post (l ++ evs) (k ok)) →
  along pre post l (bind (match_codes c hashes) k).
Proof.
  intros Hpre. revert l. induction hashes as [|h hashes IH]; intros l Hk; cbn [match_codes].
  { cbn. rewrite <-(app_nil_r l). by apply Hk. }
  assert (∀ l', (∃ evs0, l' = l ++ evs0 ∧ Forall (λ e, is_code e = true) evs0) →
    along pre post l' (bind (match_codes c hashes) k)) as Hrest.
  { intros l' (evs0 & -> & Hc0). apply IH. intros evs ok Hc Hok. rewrite <-app_assoc. apply Hk; [by apply Forall_app|].
    intros (h' & n & Hin & Hh & He)%Hok. exists h', n. set_solver. }
  destruct (String.length h =? 0) eqn:Eh; [apply Hrest; exists []; by rewrite app_nil_r|]. apply Nat.eqb_neq in Eh.
  cbn [bind along]. split; [apply Hpre|]. intros [[[] needs]|e]; cbn [bind].
  - apply Hk; [by repeat constructor|]. intros _. exists h, needs. set_solver.
  - apply Hrest. eexists. split; [done|by repeat constructor].
  - apply Hrest. eexists. split; [done|by repeat constructor].
Qed.

Lemma along_verifyRecovery {A} (pre : trace → ∀ R, cmd R → Prop) (post : trace → A → Prop) typed hashes l
    (k : bool → prog cmd A) :
  (∀ l c h, pre l _ (CVerifyCode c h)) →
  (∀ evs ok, Forall (λ e, is_code e = true) evs → (ok = true → code_matched typed hashes evs) →
     along pre post (l ++ evs) (k ok)) →
  along pre post l (bind (verifyRecovery typed hashes) k).
Proof.
  intros Hpre Hk. unfold verifyRecovery. destruct (canonicaliseRecoveryCode typed) as [c|e] eqn:Ec.
  - apply along_match_codes; [exact Hpre|]. intros evs ok Hc Hok. apply Hk; [done|].
    intros (h & n & H)%Hok. by exists c, h, n.
  - cbn. rewrite <-(app_nil_r l). by apply Hk.
Qed.

(** ** What one attempt has established *)

Section attempt.
Context (d : Deps).

(** The password was compared with the hash of the account the e-mail address led to. *)
Definition password_ok (i : Input) (l : trace) (u : string) : Prop :=
  ∃ user needs, Ev (CLookup (strings.TrimSpace (Email i))) (Ok user) ∈ l ∧ u_ID user = u ∧ u_Status user = "active" ∧
    Ev (CVerify (Password i) (u_Hash user)) (Ok (true, needs)) ∈ l.

Definition not_found_locked (l : trace) (u : string) : Prop :=
  ∃ r, Ev (CIsLocked u) r ∈ l ∧ ∀ till, r ≠ Ok (true, till).

Definition first_ok (i : Input) (l : trace) (u : string) : Prop :=
  IntermediateToken i = "" ∧ password_ok i l u ∧ not_found_locked l u.

Definition code_ok (i : Input) (l : trace) (rec : TOTPRecord) : Prop :=
  if decide (TOTPCode i = "")
  then RecoveryCode i ≠ "" ∧ code_matched (RecoveryCode i) (RecoveryHashes rec) l
  else Ev (CVerifyTOTP (SecretBase32 rec) (TOTPCode i)) true ∈ l.

(** The account has no second factor: the lookup said so. *)
Definition not_enrolled (l : trace) (u : string) : Prop :=
  has_TOTPLookup d = false ∨ ∃ r, Ev (CTOTPLookup u) r ∈ l ∧
    match r with
    | Ok rec => Enabled rec = false
    | Err ErrTOTPNotEnabled => True
    | Err (ErrTOTPLookup _) => False
    end.

(** A lookup of a second factor failed. *)
Definition totp_failed (e : event cmd) : bool :=
  match e with
  | Ev c r => match c in cmd R return R → bool with
              | CTOTPLookup _ => λ r, match r with Err (ErrTOTPLookup _) => true | _ => false end
              | _ => λ _, false
              end r
  end.
Definition lookup_failed (l : trace) : Prop := ∃ e, e ∈ l ∧ totp_failed e = true.

Definition second_ok (i : Input) (l : trace) (u : string) : Prop :=
  not_enrolled l u ∨ lookup_failed l ∨ ∃ rec, Ev (CTOTPLookup u) (Ok rec) ∈ l ∧ Enabled rec = true ∧ code_ok i l rec.

Definition resumed (i : Input) (l : trace) (u : string) : Prop :=
  IntermediateToken i ≠ "" ∧ Ev (CLoad (IntermediateToken i)) (Ok u) ∈ l.

(** What an attempt must have established when it sends a command. *)
Definition needed (i : Input) (l : trace) (R : Type) (c : cmd R) : Prop :=
  match c with
  | CCreate u _ _ => (first_ok i l u ∨ resumed i l u) ∧ second_ok i l u
  | CStore _ u _ => first_ok i l u
  | _ => True
  end.

Definition safe {A} (i : Input) (l : trace) (p : prog cmd A) : Prop := along (needed i) (λ _ _, True) l p.

Lemma password_ok_mono i l l' u : l `prefix_of` l' → password_ok i l u → password_ok i l' u.
Proof. intros Hl (user & n & H1 & H2 & H3 & H4). exists user, n. split_and!; eauto using elem_of_prefix. Qed.
Lemma not_found_locked_mono l l' u : l `prefix_of` l' → not_found_locked l u → not_found_locked l' u.
Proof. intros Hl (r & H1 & H2). exists r. eauto using elem_of_prefix. Qed.
Lemma first_ok_mono i l l' u : l `prefix_of` l' → first_ok i l u → first_ok i l' u.
Proof. intros Hl (H1 & H2 & H3). split_and!; [done|by eapply password_ok_mono|by eapply not_found_locked_mono]. Qed.
Lemma resumed_mono i l l' u : l `prefix_of` l' → resumed i l u → resumed i l' u.
Proof. intros Hl (H1 & H2). split; [done|eauto using elem_of_prefix]. Qed.
Lemma entitled_mono i l l' u : l `prefix_of` l' → first_ok i l u ∨ resumed i l u → first_ok i l' u ∨ resumed i l' u.
Proof. intros Hl [H|H]; [left; by eapply first_ok_mono|right; by eapply resumed_mono]. Qed.
Lemma code_ok_mono i l l' rec : l `prefix_of` l' → code_ok i l rec → code_ok i l' rec.
Proof.
  unfold code_ok, code_matched. intros Hl. case_decide; [|eauto using elem_of_prefix].
  intros (? & c & h & n & ? & ? & ? & ?). split; [done|]. exists c, h, n. split_and!; eauto using elem_of_prefix.
Qed.
Lemma lookup_failed_mono l l' : l `prefix_of` l' → lookup_failed l → lookup_failed l'.
Proof. intros Hl (e & ? & ?). exists e. eauto using elem_of_prefix. Qed.
Lemma second_ok_mono i l l' u : l `prefix_of` l' → second_ok i l u → second_ok i l' u.
Proof.
  intros Hl [[H|(r & H1 & H2)]|[H|(rec & H1 & H2 & H3)]];
    [by left; left|left; right; exists r; eauto using elem_of_prefix|right; left; by eapply lookup_failed_mono|].
  right. right. exists rec. split_and!; [eauto using elem_of_prefix|done|by eapply code_ok_mono].
Qed.

Lemma prefix_snoc (l : trace) e : l `prefix_of` l ++ [e].
Proof. by eexists. Qed.
Lemma elem_of_snoc (l : trace) e : e ∈ l ++ [e].
Proof. apply elem_of_app. right. by left. Qed.
Hint Resolve prefix_snoc elem_of_snoc elem_of_prefix : core.

(** *** Rules for the parts of the service *)

Context (i0 : Input).
Let i := trim_email i0.

Lemma safe_completeLogin l u :
  (first_ok i0 l u ∨ resumed i0 l u) ∧ second_ok i0 l u → safe i0 l (completeLogin d i u).
Proof. intros Hok. unfold safe, completeLogin. cbn [along]. split; [exact Hok|]. intros [tok|e]; cbn; auto. Qed.

Lemma safe_loadTOTP {A} l u (k : option TOTPRecord → prog cmd A) :
  (∀ l', l `prefix_of` l' → not_enrolled l' u ∨ lookup_failed l' → safe i0 l' (k None)) →
  (∀ l' rec, l `prefix_of` l' → Ev (CTOTPLookup u) (Ok rec) ∈ l' → Enabled rec = true → safe i0 l' (k (Some rec))) →
  safe i0 l (bind (loadTOTP d u) k).
Proof.
  intros HN HS. unfold loadTOTP. destruct (has_TOTPLookup d) eqn:Ed; cbn [negb bind]; [|by apply HN; [|left; left]].
  split; [done|]. intros r. destruct r as [rec|[|e]]; [destruct (Enabled rec) eqn:Er| |]; cbn [negb].
  - by apply HS.
  - apply HN; [done|]. left. right. by exists (Ok rec).
  - apply HN; [done|]. left. right. by exists (Err ErrTOTPNotEnabled).
  - apply HN; [done|]. right. eexists. by split; [apply elem_of_snoc|].
Qed.

Lemma safe_verify {A} l rec (k : bool → prog cmd A) :
  (∀ l' ok, l `prefix_of` l' → (ok = true → code_ok i0 l' rec) → safe i0 l' (k ok)) →
  safe i0 l (bind (verifyTOTPOrRecovery i rec) k).
Proof.
  intros Hk. unfold verifyTOTPOrRecovery. subst i. cbn [TOTPCode RecoveryCode trim_email].
  case_bool_decide as Ht; cbn [negb bind].
  - case_bool_decide as Hr; cbn [negb]; [by apply Hk|].
    apply along_verifyRecovery; [done|]. intros evs ok _ Hok. apply Hk; [by eexists|].
    intros (c & h & n & H1 & H2 & H3 & H4)%Hok. unfold code_ok. rewrite decide_True by done. split; [done|].
    exists c, h, n. set_solver.
  - split; [done|]. intros ok. apply Hk; [done|]. intros ->. unfold code_ok. by rewrite decide_False.
Qed.

Lemma safe_verifyDummy {A} l pw (k : prog cmd A) :
  (∀ l', safe i0 l' k) → safe i0 l (bind (verifyDummy pw) (λ _, k)).
Proof. intros Hk. cbn. split; [done|]. intros [h|e]; cbn; [|apply Hk]. split; [done|]. intros r. apply Hk. Qed.

Lemma safe_rehash {A} l u needs (k : prog cmd A) :
  (∀ l', l `prefix_of` l' → safe i0 l' k) → safe i0 l (bind (rehash d i u needs) (λ _, k)).
Proof.
  intros Hk. unfold rehash. destruct (_ && _); cbn [bind]; [|by apply Hk]. split; [done|].
  intros [h|e]; cbn; [|by apply Hk]. split; [done|]. intros r. apply Hk. etrans; apply prefix_snoc.
Qed.

Lemma safe_secondFactor l u : first_ok i0 l u → safe i0 l (secondFactor d i u).
Proof.
  intros Hf. unfold secondFactor. apply safe_loadTOTP.
  - intros l' Hl Hn. apply safe_completeLogin.
    split; [left; by eapply first_ok_mono|destruct Hn; [by left|right; by left]].
  - intros l' rec Hl Hrec Hen. destruct (_ || _).
    + apply safe_verify. intros l2 [] Hl2 Hok; cbn [negb]; [|by cbn].
      apply safe_completeLogin. split; [left; eapply first_ok_mono; [|done]; by etrans|].
      right. right. exists rec. eauto.
    + split; [done|]. intros r. destruct (generateIntermediateToken r) as [t|e]; [|done].
      split; [|by intros [e|]]. cbn. eapply first_ok_mono; [|done]. etrans; [exact Hl|apply prefix_snoc].
Qed.

Lemma safe_finalizeTOTP l : IntermediateToken i0 ≠ "" → safe i0 l (finalizeTOTP d i).
Proof.
  intros Ht. unfold finalizeTOTP. split; [done|]. intros [u|[|e]]; [|by cbn|done].
  set (l1 := l ++ _). assert (resumed i0 l1 u) as Hr by (split; [done|apply elem_of_snoc]).
  apply safe_loadTOTP.
  - intros l' Hl Hn. split; [done|]. intros r. apply safe_completeLogin.
    split; [right; eapply resumed_mono; [|done]; etrans; [exact Hl|apply prefix_snoc]|].
    eapply second_ok_mono; [apply prefix_snoc|]. destruct Hn; [by left|right; by left].
  - intros l' rec Hl Hrec Hen. apply safe_verify. intros l2 [] Hl2 Hok; cbn [negb]; [|by cbn].
    split; [done|]. intros r. apply safe_completeLogin.
    split; [right; eapply resumed_mono; [|done]; do 2 (etrans; [eassumption|]); apply prefix_snoc|].
    eapply second_ok_mono; [apply prefix_snoc|]. right. right. exists rec. eauto.
Qed.

Lemma safe_checkPassword l user :
  IntermediateToken i0 = "" → Ev (CLookup (strings.TrimSpace (Email i0))) (Ok user) ∈ l → u_Status user = "active" →
  safe i0 l (checkPassword d i user).
Proof.
  intros Ht Hu Ha. unfold checkPassword. split; [done|]. intros [[[] needs]|e]; [|by cbn..].
  split; [done|]. intros r.
  assert (∀ l', l ++ [Ev (CVerify (Password i) (u_Hash user)) (Ok (true, needs))] ++ [Ev (CIsLocked (u_ID user)) r] `prefix_of` l' →
    (∀ till, r ≠ Ok (true, till)) → safe i0 l' (secondFactor d i (u_ID user))) as Hgo.
  { intros l' Hl Hr. apply safe_secondFactor. split; [done|]. split.
    - exists user, needs. split_and!; [|done|done|]; eapply elem_of_prefix; try exact Hl; set_solver.
    - exists r. split; [|done]. eapply elem_of_prefix; [|exact Hl]. set_solver. }
  rewrite app_assoc in Hgo. destruct r as [[[] till]|e]; [by cbn| |]; apply safe_rehash; intros l' Hl; by apply Hgo.
Qed.

Lemma Authenticate_safe : safe i0 [] (Authenticate d i0).
Proof.
  unfold Authenticate. cbn [IntermediateToken trim_email]. case_bool_decide as Ht; cbn [negb]; [|by apply safe_finalizeTOTP].
  case_decide; [by apply safe_verifyDummy|]. cbn. split; [done|]. intros r.
  destruct r as [user|e]; [case_decide|]; cbn.
  all: split; [done|]; intros ?; split; [done|]; intros [pre|e']; [|by cbn]; destruct (pc_Allowed pre); cbn [negb]; [|by cbn].
  2: case_bool_decide as Ha; cbn [negb].
  1,3,4: by apply safe_verifyDummy.
  apply safe_checkPassword; [done| |done]. cbn. set_solver.
Qed.
End attempt.

(** ** Attempts side by side *)

Section system.
Context (Hash : list Z → string → result string string).
Context (Verify verify_nil : string → string → result string (bool * bool)).
Context (ValidateCustom : string → string → Time → Z → Z → result string bool).
Context {L : Type} (Allow : L → string → L * result limit_error (bool * Duration)).
Context {F : Type} `{FailureStore F} (limiter : LoginAttemptLimiter).
Context {I : Type} `{IntermediateLaws I}.
Context {S Prefix : Type} `{AuditStore string S} (hmac : string → string → string).
Context (emitter : Emitter (V := string) (S := S) (Prefix := Prefix)).
Context (d : Deps).

Abbreviation world := (Login.world (L := L) (F := F) (I := I) (S := S)) (only parsing).
Abbreviation exec := (Login.exec Hash Verify verify_nil ValidateCustom Allow limiter hmac emitter) (only parsing).
Abbreviation reachable := (Calls.reachable exec (Authenticate d) drift) (only parsing).

(** *** One command *)

Definition stores {R} (c : cmd R) (t u : string) : Prop :=
  match c with CStore t' u' _ => t = t' ∧ u = u' | _ => False end.
Definition creates {R} (c : cmd R) (u : string) : Prop := match c with CCreate u' _ _ => u = u' | _ => False end.
Definition loads (e : event cmd) (t u : string) : Prop :=
  match e with Ev c r => match c in cmd R return R → Prop with CLoad t' => λ r, t = t' ∧ r = Ok u | _ => λ _, False end r end.
Definition stored_by (e : event cmd) (t u : string) : Prop := match e with Ev c _ => stores c t u end.

(** The answers argon2 and the code comparison give. *)
Definition sound (e : event cmd) : Prop :=
  match e with
  | Ev c r =>
      match c in cmd R return R → Prop with
      | CVerify p h => λ r, r = Verify p h
      | CVerifyCode c h => λ r, r = verify_nil c h
      | CVerifyTOTP s code => λ r, ∃ t, r = Verify_totp ValidateCustom t s code
      | _ => λ _, True
      end r
  end.

Lemma served_fst {X} (P : world → Prop) e w act (fail : X) : P w → P act.1 → P (served e w act fail).1.
Proof. unfold served. by destruct (net e). Qed.

Lemma exec_inter {R} e w (c : cmd R) t u :
  holds (inter (exec R e w c).1) t u → holds (inter w) t u ∨ stores c t u.
Proof.
  destruct c; cbn; auto.
  - apply (served_fst (λ w', holds (inter w') t u → holds (inter w) t u ∨ False)); cbn; auto.
  - apply (served_fst (λ w', holds (inter w') t u → holds (inter w) t u ∨ False)); cbn; auto.
  - apply (served_fst (λ w', holds (inter w') t u → holds (inter w) t u ∨ False)); cbn; auto.
  - destruct (Check_login _ _ _ _) as [[[ip em] [pre err]] evs]. cbn. auto.
  - unfold getDummyHash. destruct (dummy w); cbn; auto.
  - intros [Hh|[-> ->]]%Store_holds; auto.
  - intros Hh%Load_keeps; auto.
  - intros Hh%Delete_keeps; auto.
  - unfold session_create. do 2 (case_match; cbn; auto).
    destruct (random e); cbn; auto.
    apply (served_fst (λ w', holds (inter w') t u → holds (inter w) t u ∨ False)); cbn; auto.
Qed.

Lemma exec_sessions {R} e w (c : cmd R) tok u :
  (tok, u) ∈ sessions (exec R e w c).1 → (tok, u) ∈ sessions w ∨ creates c u.
Proof.
  destruct c; cbn; auto.
  - apply (served_fst (λ w', (tok, u) ∈ sessions w' → (tok, u) ∈ sessions w ∨ False)); cbn; auto.
  - apply (served_fst (λ w', (tok, u) ∈ sessions w' → (tok, u) ∈ sessions w ∨ False)); cbn; auto.
  - apply (served_fst (λ w', (tok, u) ∈ sessions w' → (tok, u) ∈ sessions w ∨ False)); cbn; auto.
  - destruct (Check_login _ _ _ _) as [[[ip em] [pre err]] evs]. cbn. auto.
  - unfold getDummyHash. destruct (dummy w); cbn; auto.
  - unfold session_create. do 2 (case_match; cbn; auto).
    destruct (random e); cbn; auto.
    apply (served_fst (λ w', (tok, u) ∈ sessions w' → (tok, u) ∈ sessions w ∨ u = userID)); cbn; auto.
    rewrite elem_of_app, list_elem_of_singleton. intros [Hin|[= -> ->]]; auto.
Qed.

Lemma exec_loads {R} e w (c : cmd R) t u : loads (Ev c (exec R e w c).2) t u → holds (inter w) t u.
Proof. destruct c; cbn; try done. intros [-> Hl]. by eapply Load_holds. Qed.

Lemma exec_sound {R} e w (c : cmd R) : sound (Ev c (exec R e w c).2).
Proof. destruct c; cbn; try done. by exists (now e). Qed.

(** *** No session without proof *)

Definition password_verified (i : Input) (l : trace) (u : string) : Prop :=
  ∃ user needs, Ev (CLookup (strings.TrimSpace (Email i))) (Ok user) ∈ l ∧ u_ID user = u ∧ u_Status user = "active" ∧
    Verify (Password i) (u_Hash user) = Ok (true, needs).
Definition code_verified (i : Input) (rec : TOTPRecord) : Prop :=
  if decide (TOTPCode i = "")
  then RecoveryCode i ≠ "" ∧ (VerifyRecoveryCode verify_nil (RecoveryCode i) (RecoveryHashes rec)).2 = true
  else ∃ t, Verify_totp ValidateCustom t (SecretBase32 rec) (TOTPCode i) = true.
Definition second_verified (i : Input) (l : trace) (u : string) : Prop :=
  not_enrolled d l u ∨ ∃ rec, Ev (CTOTPLookup u) (Ok rec) ∈ l ∧ Enabled rec = true ∧ code_verified i rec.

Lemma password_ok_verified i l u : Forall sound l → password_ok i l u → password_verified i l u.
Proof.
  intros Hs (user & needs & H1' & H2' & H3' & H4'). exists user, needs. split_and!; [done..|].
  rewrite Forall_forall in Hs. by specialize (Hs _ H4').
Qed.

(** The comparisons of a recovery code find what [VerifyRecoveryCode] finds. *)
Lemma code_matched_verified typed hashes l :
  Forall sound l → code_matched typed hashes l → (VerifyRecoveryCode verify_nil typed hashes).2 = true.
Proof.
  intros Hs (c & h & n & Hc & Hin & Hne & Hev). rewrite Forall_forall in Hs. specialize (Hs _ Hev). cbn in Hs.
  unfold VerifyRecoveryCode. rewrite Hc. generalize 0%Z. clear Hev Hc.
  induction hashes as [|h' hashes IH]; intros j; [by apply elem_of_nil in Hin|]. cbn [match_code].
  destruct (String.length h' =? 0) eqn:E0.
  - apply IH. apply elem_of_cons in Hin as [->|]; [|done]. by apply Nat.eqb_eq in E0.
  - destruct (verify_nil c h') as [[[] ?]|] eqn:Ev'; [done|..];
      (apply IH; apply elem_of_cons in Hin as [->|]; [congruence|done]).
Qed.

Lemma second_ok_verified i l u :
  Forall sound l → ¬ lookup_failed l → second_ok d i l u → second_verified i l u.
Proof.
  intros Hs Hf [Hn|[?|(rec & Hr & Hen & Hc)]]; [by left|done|]. right. exists rec. split_and!; [done..|].
  unfold code_ok, code_verified in *. case_decide.
  - destruct Hc as [? Hc]. split; [done|by eapply code_matched_verified].
  - rewrite Forall_forall in Hs. destruct (Hs _ Hc) as [t Ht]. by exists t.
Qed.

Lemma reachable_needed w0 s id a R (c : cmd R) r :
  reachable w0 s → happened s id a (Ev c r) → ∃ l, l `prefix_of` a_log a ∧ needed d (a_in a) l R c.
Proof. apply happened_needed. intros i. apply Authenticate_safe. Qed.

Lemma reachable_sound w0 s id a : reachable w0 s → attempts s !! id = Some a → Forall sound (a_log a).
Proof.
  intros Hr Ha. apply Forall_forall. intros ev Hev.
  eapply (happened_sound _ _ _ sound); [intros; apply exec_sound|exact Hr|by split].
Qed.

(** A session comes from the command that created it, a token that is answered from
    the command that stored it. *)
Lemma session_origin w0 s tok u :
  sessions w0 = [] → reachable w0 s → (tok, u) ∈ sessions (the_world s) →
  ∃ id a R (c : cmd R) r, happened s id a (Ev c r) ∧ creates c u.
Proof.
  intros H0' Hr Hin.
  destruct (world_origin exec (Authenticate d) drift (λ w x, x ∈ sessions w)
    (λ ev x, match ev with Ev c _ => creates c x.2 end)
    ltac:(intros R e w c [t' u']; apply exec_sessions) ltac:(intros w w' x (us & ts & fs & ->); done)
    w0 s (tok, u) Hr Hin) as [Hi|(id & a & [R c r] & Hh & Hc)]; [|by exists id, a, R, c, r].
  rewrite H0' in Hi. by apply not_elem_of_nil in Hi.
Qed.

Lemma load_origin w0 s id a t u :
  (∀ t v, ¬ holds (inter w0) t v) → reachable w0 s → happened s id a (Ev (CLoad t) (Ok u)) →
  ∃ id1 a1 ttl r, happened s id1 a1 (Ev (CStore t u ttl) r).
Proof.
  intros H0' Hr Hh.
  destruct (report_origin exec (Authenticate d) drift (λ w x, holds (inter w) x.1 x.2)
    (λ ev x, stored_by ev x.1 x.2)
    ltac:(intros R e w c x; apply exec_inter) ltac:(intros w w' x (us & ts & fs & ->); done)
    (λ ev x, loads ev x.1 x.2) ltac:(intros R e w c x; apply exec_loads) w0 s id a _ (t, u) Hr Hh
    (conj eq_refl eq_refl)) as [Hi|(id1 & a1 & [R c r] & Hh1 & Hc)]; [by destruct (H0' t u)|].
  destruct c; try done. cbn in Hc. destruct Hc as [-> ->]. eauto.
Qed.

(** No lookup of a second factor has failed. Where one has, the code goes on as if
    the account had none ([outage_skips_second_factor]). *)
Definition totp_answered {W} (s : Calls.config (C := cmd) (W := W) (Q := Input) (A := result login_error Result))
    : Prop :=
  map_Forall (λ _ a, Forall (λ e, totp_failed e = false) (a_log a)) (attempts s).

(** C32. However attempts interleave, whatever services other than the lookup of the
    second factor fail and whoever edits the accounts meanwhile: a session of [u] was
    created by an attempt that was told that [u] is not enrolled or verified its
    second factor, and some attempt - this one, or the one that stored the
    intermediate token this one came with - looked up the active account [u],
    verified its password and did not find it locked. *)
Theorem session_needs_proof w0 s tok u :
  sessions w0 = [] → (∀ t v, ¬ holds (inter w0) t v) → reachable w0 s → totp_answered s →
  (tok, u) ∈ sessions (the_world s) →
  ∃ id a id1 a1, attempts s !! id = Some a ∧ attempts s !! id1 = Some a1 ∧
    password_verified (a_in a1) (a_log a1) u ∧ not_found_locked (a_log a1) u ∧
    (id = id1 ∨ ∃ ttl r, Ev (CStore (IntermediateToken (a_in a)) u ttl) r ∈ a_log a1) ∧
    second_verified (a_in a) (a_log a) u.
Proof.
  intros Hs0 Hh0 Hr Htotp Hin. destruct (session_origin _ _ _ _ Hs0 Hr Hin) as (id & a & R & c & r & Hh & Hc).
  destruct (reachable_needed _ _ _ _ _ _ _ Hr Hh) as (l & Hl & Hn). pose proof Hh as [Ha _].
  destruct c; try done. cbn in Hc, Hn. subst userID. destruct Hn as [He H2'].
  eapply second_ok_mono, second_ok_verified in H2'; [|by eapply reachable_sound| |exact Hl].
  2: { intros (e & He' & Hf). specialize (Htotp _ _ Ha). cbn in Htotp. rewrite Forall_forall in Htotp.
       by rewrite (Htotp _ He') in Hf. }
  destruct (entitled_mono _ _ _ _ Hl He) as [(_ & Hp & Hlk)|[Hne Hld]].
  - exists id, a, id, a. split_and!; [done|done| |done|by left|done].
    apply password_ok_verified; [by eapply reachable_sound|done].
  - destruct (load_origin _ _ id a (IntermediateToken (a_in a)) u Hh0 Hr) as (id1 & a1 & ttl' & r' & Hst); [by split|].
    destruct (reachable_needed _ _ _ _ _ _ _ Hr Hst) as (l1 & Hl1 & Hf). pose proof Hst as [Ha1 Hst'].
    eapply first_ok_mono in Hf as (_ & Hp & Hlk); [|exact Hl1].
    exists id, a, id1, a1. split_and!; [done|done| |done|right; eauto|done].
    apply password_ok_verified; [by eapply reachable_sound|done].
Qed.
End system.

(** ** Refused first calls look alike *)





Section alike.
Context (d : Deps).
Context (Decode : string → result string (requestBody * string)).










End alike.

(** ** A concrete installation *)

Module scene.
Definition Hash (salt : list Z) (p : string) : result string string := Ok ("h:" +:+ p).
Definition Verify (p h : string) : result string (bool * bool) := Ok (bool_decide (h = "h:" +:+ p), false).
Definition ValidateCustom (code secret : string) (t : Time) (period skew : Z) : result string bool :=
  Ok (bool_decide (code = "123456")).
(** The bucket of one address is empty, the others are not. *)
Definition Allow (_ : unit) (key : string) : unit * result limit_error (bool * Duration) :=
  ((), Ok (negb (bool_decide (key = "throttled@x.org")), minute)).
Definition limiter : LoginAttemptLimiter := mkLimiter 2 (30 * minute).
Definition emitter : Emitter (V := string) (S := MemoryStore string) (Prefix := unit) := NewEmitter.
Definition deps : Deps :=
  defaults (mkDeps true true false true true true true (24 * 60 * minute) (60 * minute) 0 false "" "").
Definition users0 : gmap string UserRecord :=
  {["ann@x.org" := mkUserRecord "u1" "ann@x.org" "h:pw" "active";
    "bob@x.org" := mkUserRecord "u2" "bob@x.org" "h:hunter2" "active";
    "throttled@x.org" := mkUserRecord "u3" "throttled@x.org" "h:3" "active"]}.
Definition world0 : Login.world (L := unit) (F := gmap string (Z * Z)) (I := memory_tokens) (S := MemoryStore string) :=
  mkWorld users0 {["u1" := mkTOTPRecord true "AAAAAAAAAAAAAAAA" []]} (∅ : gmap string (string * Time)) ∅ () () None []
    NewMemoryStore.
Definition at_ (t : Z) (b : Z) : env := mkEnv (t * minute) 0 (Ok (replicate 32 b)) [] Served.
Definition token (b : Z) : string := base64.EncodeToString (replicate 32 b).

Definition first (email pw : string) : Input := mkInput email pw "" "" "" "10.0.0.1" "curl".
Definition second (tok code : string) : Input := mkInput "" "" code "" tok "10.0.0.1" "curl".
Definition moves (id : nat) (i : Input) (t b : Z) : list move := MArrive id i :: replicate 12 (MAdvance id (at_ t b)).
Definition outcome (ms : list move) :=
  play (exec Hash Verify Verify ValidateCustom Allow limiter (λ _ _, "") emitter) (Authenticate deps) ms world0.

(** Password, then code with the token of the first answer. *)
Definition two_steps : list move := moves 0 (first " ann@x.org" "pw") 0 1 ++ moves 1 (second (token 1) "123456") 4 2.
End scene.

Example two_step_login :
  result_at (scene.outcome scene.two_steps) 0 = Some (Ok (mkResult "u1" "" time_zero true (scene.token 1))) ∧
  result_at (scene.outcome scene.two_steps) 1 =
    Some (Ok (mkResult "u1" (scene.token 2) (4 * minute + 24 * 60 * minute)%Z false "")) ∧
  sessions (the_world (scene.outcome scene.two_steps)) = [(scene.token 2, "u1")].
Proof. vm_compute. auto. Qed.

(** After five minutes, and after it was used, the intermediate token is refused. *)
Example intermediate_expires :
  result_at (scene.outcome (scene.moves 0 (scene.first "ann@x.org" "pw") 0 1 ++
    scene.moves 1 (scene.second (scene.token 1) "123456") 5 2)) 1 = Some (Err ErrIntermediateExpired) ∧
  result_at (scene.outcome (scene.two_steps ++ scene.moves 2 (scene.second (scene.token 1) "123456") 4 3)) 2 =
    Some (Err ErrIntermediateExpired).
Proof. vm_compute. auto. Qed.

Lemma session_needs_proof_witness :
  (scene.token 2, "u1") ∈ sessions (the_world (scene.outcome scene.two_steps)) ∧
  ∃ id1 a1, attempts (scene.outcome scene.two_steps) !! id1 = Some a1 ∧
    password_verified scene.Verify (a_in a1) (a_log a1) "u1".
Proof.
  assert ((scene.token 2, "u1") ∈ sessions (the_world (scene.outcome scene.two_steps))) as Hin.
  { apply (bool_decide_unpack _). vm_compute. exact I. }
  split; [exact Hin|].
  destruct (session_needs_proof scene.Hash scene.Verify scene.Verify scene.ValidateCustom scene.Allow scene.limiter
    (λ _ _, "") scene.emitter scene.deps scene.world0 (scene.outcome scene.two_steps) (scene.token 2) "u1")
    as (id & a & id1 & a1 & _ & H1 & H2 & _); [reflexivity| |apply play_reachable| |exact Hin|].
  - intros t v [x Hx]. exact (eq_rect None (λ o, match o with None => True | Some _ => False end) Logic.I _ Hx).
  - apply (bool_decide_unpack _). vm_compute. exact I.
  - exists id1, a1. split; [exact H1|exact H2].
Defined.

(** The lock is only looked at in first calls: with a token already in hand, a second
    call completes although two wrong codes have locked the account meanwhile. *)
Definition lockout_bypass : list move :=
  scene.moves 0 (scene.first "ann@x.org" "pw") 0 1 ++
  scene.moves 1 (scene.second (scene.token 1) "000000") 1 2 ++
  scene.moves 2 (scene.second (scene.token 1) "000001") 1 3 ++
  scene.moves 3 (scene.first "ann@x.org" "pw") 2 4 ++
  scene.moves 4 (scene.second (scene.token 1) "123456") 2 5.
Example locked_account_finishes :
  result_at (scene.outcome lockout_bypass) 3 = Some (Err (ErrLocked (29 * minute)%Z)) ∧
  sessions (the_world (scene.outcome lockout_bypass)) = [(scene.token 5, "u1")].
Proof. vm_compute. auto. Qed.

(** Two calls that load the token before either deletes it both get a session. *)
Definition token_race : list move :=
  scene.moves 0 (scene.first "ann@x.org" "pw") 0 1 ++
  [MArrive 1 (scene.second (scene.token 1) "123456"); MArrive 2 (scene.second (scene.token 1) "123456");
   MAdvance 1 (scene.at_ 1 2); MAdvance 2 (scene.at_ 1 3)] ++
  replicate 12 (MAdvance 1 (scene.at_ 1 2)) ++ replicate 12 (MAdvance 2 (scene.at_ 1 3)).
Example token_used_twice :
  sessions (the_world (scene.outcome token_race)) = [(scene.token 2, "u1"); (scene.token 3, "u1")].
Proof. vm_compute. auto. Qed.

(** When the second-factor lookup fails the account passes for not enrolled. *)
Definition totp_outage : list move :=
  [MArrive 0 (scene.first "ann@x.org" "pw")] ++ replicate 5 (MAdvance 0 (scene.at_ 0 1)) ++
  [MAdvance 0 (mkEnv 0 0 (Ok []) [] Refused)] ++ replicate 9 (MAdvance 0 (scene.at_ 0 1)).
Example outage_skips_second_factor :
  sessions (the_world (scene.outcome totp_outage)) = [(scene.token 1, "u1")].
Proof. vm_compute. auto. Qed.

(** An exhausted address bucket answers for an address that has an account only. *)
Example throttled_address_exists :
  result_at (scene.outcome (scene.moves 0 (scene.first "throttled@x.org" "guess") 0 1)) 0 =
    Some (Err (ErrRateLimited minute)) ∧
  result_at (scene.outcome (scene.moves 0 (scene.first "nobody@x.org" "guess") 0 1)) 0 =
    Some (Err ErrInvalidCredentials).
Proof. vm_compute. auto. Qed.


