(* ===== verification/OneTime.v ===== *)
(** * Password reset and magic links (apps/api/internal/auth/passwordreset and
    apps/api/internal/auth/magiclink: token.go, store.go, handler.go; the tables of
    migrations 000033 and 000034)

    Both flows mail a random token, keep its hash, and redeem it once. A request is
    a program of commands; the UPDATE that redeems a token is one step. SHA-256,
    argon2, net/url and the mail templates are arguments; texts are ASCII. *)
From S2P Require Import Prelude Prog GoStrings GoTime Base64 Hex Redis LoginLimit AuditLog Http Login.
From Stdlib Require Import Ascii.

Inductive flow := Reset | Link.
#[export] Instance flow_eq_dec : EqDecision flow. Proof. solve_decision. Defined.

(** ** Tokens (token.go) *)

Definition tokenBytes : nat := 32.
Definition hexLen : nat := tokenBytes * 2.

Definition generateToken (random : result string (list Z)) : result string string :=
  match random with
  | Err e => Err ("passwordreset: read entropy: " +:+ e)
  | Ok buf => Ok (hex.EncodeToString (text_of buf))
  end.

Section hash.
Context (sha256 : string → string).
Definition hashToken (plain : string) : string := hex.EncodeToString (sha256 plain).
End hash.

Definition validToken (s : string) : bool :=
  if negb (String.length s =? hexLen) then false
  else match hex.DecodeString s with None => false | Some _ => true end.

(** ** Rows (store.go) *)

Inductive token_error := ErrTokenNotFound | ErrTokenStore (e : string).
Inductive user_error := ErrNoUser | ErrUserStore (e : string).

(** A row, by its hash (UNIQUE). *)
Record token_row := mkTokenRow { t_user : string; t_expires : Time; t_used : option Time }.
Abbreviation token_table := (gmap string token_row) (only parsing).

Record user_row := mkUserRow { us_ID : string; us_Email : string; us_Status : string }.

(** The INSERT. *)
Definition save_token (t : token_table) (hash userID : string) (expiresAt : Time) : token_table * option string :=
  if decide (hash = "") then (t, Some "passwordreset: tokenHash is required")
  else if decide (userID = "") then (t, Some "passwordreset: userID is required")
  else if is_zero expiresAt then (t, Some "passwordreset: expiresAt is required")
  else
    match t !! hash with
    | Some _ => (t, Some "passwordreset: insert token")
    | None => (<[hash := mkTokenRow userID expiresAt None]> t, None)
    end.

(** The UPDATE ... RETURNING. *)
Definition consume_row (t : token_table) (hash : string) (now : Time) : token_table * result token_error string :=
  match t !! hash with
  | Some r =>
      match t_used r with
      | None =>
          if time_after (t_expires r) now
          then (<[hash := mkTokenRow (t_user r) (t_expires r) (Some now)]> t, Ok (t_user r))
          else (t, Err ErrTokenNotFound)
      | Some _ => (t, Err ErrTokenNotFound)
      end
  | None => (t, Err ErrTokenNotFound)
  end.

(** [LookupIDByEmail]; addresses are citext. *)
Definition lookup_email (us : list user_row) (email : string) : result user_error string :=
  let email := strings.TrimSpace email in
  if decide (email = "") then Err ErrNoUser
  else
    match filter (λ u, strings.ToLower (us_Email u) = strings.ToLower email ∧ us_Status u ≠ "deleted") us with
    | u :: _ => Ok (us_ID u)
    | [] => Err ErrNoUser
    end.

(** The upsert; the user id is a foreign key. *)
Definition upsert_password (us : list user_row) (p : gmap string string) (userID newHash : string)
    : gmap string string * option user_error :=
  if decide (userID = "") then (p, Some ErrNoUser)
  else if decide (newHash = "") then (p, Some (ErrUserStore "passwordreset: newHash is required"))
  else if decide (userID ∈ us_ID <$> us) then (<[userID := newHash]> p, None)
  else (p, Some (ErrUserStore "passwordreset: update password")).

(** ** Requests and replies (handler.go) *)

Definition MinPasswordLength : nat := 12.

(** The wiring of a flow; [o_URL] is ResetURL or LinkURL. *)
Record Options := mkOptions {
  has_Tokens : bool; has_Users : bool; has_Sessions : bool; has_Sender : bool; o_URL : string;
  has_Limiter : bool; o_has_Audit : bool; o_Subject : string; o_TTL : Duration; o_SuccessRedirect : string;
  o_SessionAbsoluteTTL : Duration; o_SessionIdleTTL : Duration;
  o_Insecure : bool; o_CookieDomain : string; o_CookieName : string;
}.

Definition with_defaults (o : Options) (ttl : Duration) (subject redirect : string) : Options :=
  mkOptions (has_Tokens o) (has_Users o) (has_Sessions o) (has_Sender o) (o_URL o) (has_Limiter o) (o_has_Audit o)
    (if decide (o_Subject o = "") then subject else o_Subject o)
    (if (o_TTL o <=? 0)%Z then ttl else o_TTL o)
    (if decide (o_SuccessRedirect o = "") then redirect else o_SuccessRedirect o)
    (o_SessionAbsoluteTTL o) (o_SessionIdleTTL o) (o_Insecure o) (o_CookieDomain o) (o_CookieName o).

Definition reset_New (o : Options) : result string Options :=
  if negb (has_Tokens o) then Err "passwordreset: Options.Tokens is required"
  else if negb (has_Users o) then Err "passwordreset: Options.Users is required"
  else if negb (has_Sessions o) then Err "passwordreset: Options.Sessions is required"
  else if negb (has_Sender o) then Err "passwordreset: Options.Sender is required"
  else if decide (o_URL o = "") then Err "passwordreset: Options.ResetURL is required"
  else if negb (has_Limiter o) then Err "passwordreset: Options.Limiter is required"
  else Ok (with_defaults o (60 * minute)%Z "Reset your password" (o_SuccessRedirect o)).

Definition link_New (o : Options) : result string Options :=
  if negb (has_Tokens o) then Err "magiclink: Options.Tokens is required"
  else if negb (has_Users o) then Err "magiclink: Options.Users is required"
  else if negb (has_Sessions o) then Err "magiclink: Options.Sessions is required"
  else if negb (has_Sender o) then Err "magiclink: Options.Sender is required"
  else if decide (o_URL o = "") then Err "magiclink: Options.LinkURL is required"
  else if negb (has_Limiter o) then Err "magiclink: Options.Limiter is required"
  else if (o_SessionAbsoluteTTL o <=? 0)%Z then Err "magiclink: Options.SessionAbsoluteTTL must be > 0"
  else if ((o_SessionIdleTTL o <=? 0) || (o_SessionAbsoluteTTL o <? o_SessionIdleTTL o))%Z
  then Err "magiclink: Options.SessionIdleTTL must be > 0 and <= SessionAbsoluteTTL"
  else Ok (with_defaults o (15 * minute)%Z "Your sign-in link" "/").

Inductive response :=
| ROk
| RError (code : Z) (msg : string)
| RDetail (code : Z) (msg detail : string)
| RRetry (seconds : Z)
| RConfirmed (userID : string)
| RRedirect (cookie : Cookie) (url : string).

Record confirmBody := mkConfirm { c_Token : string; c_NewPassword : string }.

Inductive call :=
| Request (fl : flow) (r : AuditRequest) (body : string)
| Confirm (r : AuditRequest) (body : string)
| Verify (r : AuditRequest) (token : string).

Inductive ocmd : Type → Type :=
| KAllow (key : string) : ocmd (result string (bool * Duration))
| KLookup (email : string) : ocmd (result user_error string)
| KRand : ocmd (result string (list Z))
| KNow : ocmd Time
| KSave (fl : flow) (hash userID : string) (expiresAt : Time) : ocmd (option string)
| KSend (to link : string) : ocmd (option string)
| KConsume (fl : flow) (hash : string) (now : Time) : ocmd (result token_error string)
| KHash (password : string) : ocmd (result string string)
| KUpdatePassword (userID newHash : string) : ocmd (option user_error)
| KDeleteAll (userID : string) : ocmd (option string)
| KCreate (userID : string) (ttl idleTTL : Duration) : ocmd (result string string)
| KEmit (r : AuditRequest) (eventType : string) (opts : list (EmitOption (V := string))) : ocmd unit.

Definition clientIP (r : AuditRequest) : string :=
  match net.SplitHostPort (hr_RemoteAddr r) with Some (host, _) => host | None => hr_RemoteAddr r end.

Definition maskEmail (addr : string) : string :=
  match net.last_index "@" addr with
  | Some (local, domain) =>
      if decide (local = "") then addr
      else if String.length local =? 1 then "*" +:+ String "@" domain
      else String.substring 0 1 local +:+ "***" +:+ String "@" domain
  | None => addr
  end.

(** One of the body decoders: a value, then nothing but white space, in at most
    [maxBodyBytes]. *)
Definition decodeBody {A} (Decode : string → result string (A * string)) (raw : string) : result string A :=
  match Decode (String.substring 0 maxBodyBytes raw) with
  | Err e => Err e
  | Ok (b, tail) =>
      if all_chars json_space tail && (String.length raw <=? maxBodyBytes) then Ok b
      else Err "passwordreset: trailing data after JSON body"
  end.

Definition checkPasswordStrength (p : string) : option string :=
  if String.length p <? MinPasswordLength then Some "Password must be at least 12 characters." else None.

Section handlers.
Context (sha256 : string → string) (buildLink : flow → string → string).
(** [buildMessage] with the templates: it may fail. *)
Context (buildMessage : flow → string → string → result string string).
Context (DecodeEmail : string → result string (string * string)).
Context (DecodeConfirm : string → result string (confirmBody * string)).
Context (os : flow → Options).

Definition emitAudit (fl : flow) (r : AuditRequest) (evt sev : string) (meta : gmap string string) : prog ocmd unit :=
  if negb (o_has_Audit (os fl)) then Ret ()
  else KEmit r evt [WithSeverity sev; WithMetadata meta] ;;; Ret ().

(** [int(retryAfter.Seconds())], at least one. *)
Definition retry_of (wait : Duration) : Z := let s := Z.quot wait second in if (s <? 1)%Z then 1%Z else s.

(** The bucket; a limiter that fails lets the request pass. *)
Definition checkRateLimit (key : string) (k : prog ocmd response) : prog ocmd response :=
  a <- KAllow key ;;
  match a with
  | Err _ => k
  | Ok (allowed, retryAfter) => if negb allowed then Ret (RRetry (retry_of retryAfter)) else k
  end.

(** *** Password reset *)

Definition reset_handleRequest (r : AuditRequest) (raw : string) : prog ocmd response :=
  checkRateLimit ("passwordreset:request:" +:+ clientIP r)
    match decodeBody DecodeEmail raw with
    | Err _ => Ret (RError 400 "invalid_request")
    | Ok addr =>
        let emailAddr := strings.TrimSpace addr in
        if decide (emailAddr = "") then Ret ROk
        else
          u <- KLookup emailAddr ;;
          match u with
          | Err ErrNoUser =>
              run! _ := emitAudit Reset r "auth.password_reset.requested" SeverityInfo
                          {["recipient" := maskEmail emailAddr; "outcome" := "no_user"]} in
              Ret ROk
          | Err (ErrUserStore _) => Ret ROk
          | Ok userID =>
              b <- KRand ;;
              match generateToken b with
              | Err _ => Ret ROk
              | Ok plain =>
                  now <- KNow ;;
                  e <- KSave Reset (hashToken sha256 plain) userID (now + o_TTL (os Reset))%Z ;;
                  match e with
                  | Some _ => Ret ROk
                  | None =>
                      match buildMessage Reset emailAddr (buildLink Reset plain) with
                      | Err _ => Ret ROk
                      | Ok link =>
                          e <- KSend emailAddr link ;;
                          match e with
                          | Some _ => Ret ROk
                          | None =>
                              run! _ := emitAudit Reset r "auth.password_reset.requested" SeverityInfo
                                          {["actor_user_id" := userID; "recipient" := maskEmail emailAddr; "outcome" := "issued"]} in
                              Ret ROk
                          end
                      end
                  end
              end
          end
    end.

Definition gone : response := RError 410 "invalid_or_expired_token".

(** What follows the redemption. *)
Definition applyReset (r : AuditRequest) (userID newPassword : string) : prog ocmd response :=
  h <- KHash newPassword ;;
  match h with
  | Err _ => Ret (RError 500 "internal_error")
  | Ok newHash =>
      e <- KUpdatePassword userID newHash ;;
      match e with
      | Some ErrNoUser => Ret gone
      | Some (ErrUserStore _) => Ret (RError 500 "internal_error")
      | None =>
          d <- KDeleteAll userID ;;
          run! _ := match d with
                    | None => Ret ()
                    | Some err => emitAudit Reset r "auth.password_reset.session_revoke_failed" SeverityWarning
                                    {["actor_user_id" := userID; "err" := err]}
                    end in
          run! _ := emitAudit Reset r "auth.password_reset.completed" SeverityInfo {["actor_user_id" := userID]} in
          Ret (RConfirmed userID)
      end
  end.

(** The comparison of the hash with itself always succeeds. *)
Definition handleConfirm (r : AuditRequest) (raw : string) : prog ocmd response :=
  checkRateLimit ("passwordreset:confirm:" +:+ clientIP r)
    match decodeBody DecodeConfirm raw with
    | Err _ => Ret (RError 400 "invalid_request")
    | Ok body =>
        if negb (validToken (c_Token body)) then
          run! _ := emitAudit Reset r "auth.password_reset.confirm.invalid" SeverityWarning {["reason" := "malformed"]} in
          Ret gone
        else
          match checkPasswordStrength (c_NewPassword body) with
          | Some detail => Ret (RDetail 422 "weak_password" detail)
          | None =>
              now <- KNow ;;
              u <- KConsume Reset (hashToken sha256 (c_Token body)) now ;;
              match u with
              | Err ErrTokenNotFound =>
                  run! _ := emitAudit Reset r "auth.password_reset.confirm.invalid" SeverityWarning
                              {["reason" := "not_found_or_expired"]} in
                  Ret gone
              | Err (ErrTokenStore _) => Ret (RError 500 "internal_error")
              | Ok userID => applyReset r userID (c_NewPassword body)
              end
          end
    end.

(** *** Magic links *)

Definition link_handleRequest (r : AuditRequest) (raw : string) : prog ocmd response :=
  checkRateLimit ("magiclink:request:" +:+ clientIP r)
    match decodeBody DecodeEmail raw with
    | Err _ => Ret (RError 400 "invalid_request")
    | Ok addr =>
        let emailAddr := strings.TrimSpace addr in
        if decide (emailAddr = "") then Ret ROk
        else
          u <- KLookup emailAddr ;;
          match u with
          | Err ErrNoUser =>
              run! _ := emitAudit Link r "auth.magic_link.requested" SeverityInfo
                          {["recipient" := maskEmail emailAddr; "outcome" := "no_user"]} in
              Ret ROk
          | Err (ErrUserStore _) => Ret ROk
          | Ok userID =>
              b <- KRand ;;
              match generateToken b with
              | Err _ => Ret ROk
              | Ok plain =>
                  now <- KNow ;;
                  e <- KSave Link (hashToken sha256 plain) userID (now + o_TTL (os Link))%Z ;;
                  match e with
                  | Some _ => Ret ROk
                  | None =>
                      match buildMessage Link emailAddr (buildLink Link plain) with
                      | Err _ => Ret ROk
                      | Ok link =>
                          e <- KSend emailAddr link ;;
                          match e with
                          | Some _ => Ret ROk
                          | None =>
                              run! _ := emitAudit Link r "auth.magic_link.requested" SeverityInfo
                                          {["actor_user_id" := userID; "recipient" := maskEmail emailAddr; "outcome" := "issued"]} in
                              Ret ROk
                          end
                      end
                  end
              end
          end
    end.

Definition handleVerify (r : AuditRequest) (plain : string) : prog ocmd response :=
  if negb (validToken plain) then
    run! _ := emitAudit Link r "auth.magic_link.invalid" SeverityWarning {["reason" := "malformed"]} in
    Ret gone
  else
    now <- KNow ;;
    u <- KConsume Link (hashToken sha256 plain) now ;;
    match u with
    | Err ErrTokenNotFound =>
        run! _ := emitAudit Link r "auth.magic_link.invalid" SeverityWarning {["reason" := "not_found_or_expired"]} in
        Ret gone
    | Err (ErrTokenStore _) => Ret (RError 500 "internal_error")
    | Ok userID =>
        s <- KCreate userID (o_SessionAbsoluteTTL (os Link)) (o_SessionIdleTTL (os Link)) ;;
        match s with
        | Err _ => Ret (RError 500 "internal_error")
        | Ok sessToken =>
            now <- KNow ;;
            let cookie := SetCookie now sessToken
              (mkCookieOptions (o_CookieName (os Link)) (o_CookieDomain (os Link)) (o_SessionAbsoluteTTL (os Link)) (o_Insecure (os Link))) in
            run! _ := emitAudit Link r "auth.magic_link.consumed" SeverityInfo {["actor_user_id" := userID]} in
            Ret (RRedirect cookie (o_SuccessRedirect (os Link)))
        end
    end.

Definition serve (c : call) : prog ocmd response :=
  match c with
  | Request Reset r body => reset_handleRequest r body
  | Request Link r body => link_handleRequest r body
  | Confirm r body => handleConfirm r body
  | Verify r token => handleVerify r token
  end.
End handlers.

(** ** The collaborators *)

Section exec.
Context (sha256 : string → string) (buildLink : flow → string → string).
Context (buildMessage : flow → string → string → result string string).
Context (DecodeEmail : string → result string (string * string)).
Context (DecodeConfirm : string → result string (confirmBody * string)).
Context (os : flow → Options).
(** Argon2 with the pepper and the salt it drew, and the bucket. *)
Context (Hash : list Z → string → result string string).
Context {L : Type} (Allow : L → string → L * result string (bool * Duration)).
Context {S Addr Prefix : Type} `{AuditStore string S} (hmac : string → string → string).
Context (ParseAddr : string → option Addr) (PrefixContains : Prefix → Addr → bool).
Context (emitter : Emitter (V := string) (S := S) (Prefix := Prefix)).

(** [passwords] is user_passwords, [live] the sessions that are valid, [mail] what
    was sent. *)
Record world := mkWorld {
  users : list user_row; resets : token_table; links : token_table;
  passwords : gmap string string; live : list (string * string);
  mail : list (string * string); bucket : L; audit : S }.

Definition table (fl : flow) (w : world) : token_table := match fl with Reset => resets w | Link => links w end.
Definition set_table (fl : flow) (t : token_table) (w : world) : world :=
  match fl with
  | Reset => mkWorld (users w) t (links w) (passwords w) (live w) (mail w) (bucket w) (audit w)
  | Link => mkWorld (users w) (resets w) t (passwords w) (live w) (mail w) (bucket w) (audit w)
  end.
Definition set_users v w := mkWorld v (resets w) (links w) (passwords w) (live w) (mail w) (bucket w) (audit w).
Definition set_passwords v w := mkWorld (users w) (resets w) (links w) v (live w) (mail w) (bucket w) (audit w).
Definition set_live v w := mkWorld (users w) (resets w) (links w) (passwords w) v (mail w) (bucket w) (audit w).
Definition set_mail v w := mkWorld (users w) (resets w) (links w) (passwords w) (live w) v (bucket w) (audit w).
Definition set_bucket v w := mkWorld (users w) (resets w) (links w) (passwords w) (live w) (mail w) v (audit w).
Definition set_audit v w := mkWorld (users w) (resets w) (links w) (passwords w) (live w) (mail w) (bucket w) v.

Definition served {X} (e : env) (w : world) (act : world * X) (fail : X) : world * X :=
  match net e with Served => act | ReplyLost => (act.1, fail) | Refused => (w, fail) end.

Definition session_create (e : env) (w : world) (userID : string) (ttl idleTTL : Duration) : world * result string string :=
  if decide (userID = "") then (w, Err "userID is required")
  else if ((ttl <=? 0) || (idleTTL <=? 0) || (ttl <? idleTTL))%Z then (w, Err "ttl must be positive")
  else
    match random e with
    | Err err => (w, Err err)
    | Ok b =>
        let token := base64.EncodeToString b in
        served e w (set_live (live w ++ [(token, userID)]) w, Ok token) (Err "redis")
    end.

Definition exec (X : Type) (e : env) (w : world) (c : ocmd X) : world * X :=
  match c in ocmd X return world * X with
  | KAllow key => let r := Allow (bucket w) key in (set_bucket r.1 w, r.2)
  | KLookup email => served e w (w, lookup_email (users w) email) (Err (ErrUserStore "passwordreset: lookup user"))
  | KRand => (w, random e)
  | KNow => (w, now e)
  | KSave fl hash userID expiresAt =>
      let r := save_token (table fl w) hash userID expiresAt in
      served e w (set_table fl r.1 w, r.2) (Some "passwordreset: insert token")
  | KSend to link => served e w (set_mail (mail w ++ [(to, link)]) w, None) (Some "smtp")
  | KConsume fl hash now =>
      if decide (hash = "") then (w, Err ErrTokenNotFound)
      else
        let r := consume_row (table fl w) hash now in
        served e w (set_table fl r.1 w, r.2) (Err (ErrTokenStore "passwordreset: consume token"))
  | KHash password => (w, Hash (salt e) password)
  | KUpdatePassword userID newHash =>
      let r := upsert_password (users w) (passwords w) userID newHash in
      served e w (set_passwords r.1 w, r.2) (Some (ErrUserStore "passwordreset: update password"))
  | KDeleteAll userID => served e w (set_live (filter (λ s, s.2 ≠ userID) (live w)) w, None) (Some "redis")
  | KCreate userID ttl idleTTL => session_create e w userID ttl idleTTL
  | KEmit r eventType opts =>
      (set_audit (Emitter_Emit (λ s, s) hmac (WithHTTP ParseAddr PrefixContains r emitter) (audit w) (now e) eventType opts).1 w, ())
  end.

(** Accounts, passwords and sessions also change elsewhere. *)
Definition drift (w w' : world) : Prop := ∃ us ps ss, w' = set_live ss (set_passwords ps (set_users us w)).
End exec.
