(* ===== verification/OneTimeProps.v ===== *)
(** * Password reset and magic links, proved

    A password is changed and a magic-link session created only by redeeming, once
    and in time, a token that was made for that user and mailed to an address of
    that user; a completed reset has revoked the sessions; requests answer alike for
    known and unknown addresses. *)
From S2P Require Import Prelude Prog Calls GoStrings GoTime Base64 Hex Redis LoginLimit AuditLog Http Login OneTime.
From Stdlib Require Import Ascii.

Abbreviation otrace := (list (event ocmd)) (only parsing).

Section one_time.
Context (sha256 : string → string) (buildLink : flow → string → string).
Context (buildMessage : flow → string → string → result string string).
Context (DecodeEmail : string → result string (string * string)).
Context (DecodeConfirm : string → result string (confirmBody * string)).
Context (os : flow → Options).

Abbreviation serve := (OneTime.serve sha256 buildLink buildMessage DecodeEmail DecodeConfirm os) (only parsing).
Abbreviation hashed := (hashToken sha256) (only parsing).

(** ** What a call has established when it sends a command *)

(** The token a call redeems. *)
Definition redeems (c : call) (fl : flow) (tok : string) : Prop :=
  match c with
  | Request _ _ _ => False
  | Confirm _ raw => fl = Reset ∧ ∃ b, decodeBody DecodeConfirm raw = Ok b ∧ tok = c_Token b
  | Verify _ t => fl = Link ∧ tok = t
  end.

Definition new_password (c : call) : option string :=
  match c with
  | Confirm _ raw => match decodeBody DecodeConfirm raw with Ok b => Some (c_NewPassword b) | Err _ => None end
  | _ => None
  end.

(** The random bytes became a token for [u], whom the address looked up led to. *)
Definition issued (c : call) (l : otrace) (fl : flow) (email plain u : string) (expires : Time) : Prop :=
  (∃ r raw, c = Request fl r raw) ∧ Ev (KLookup email) (Ok u) ∈ l ∧
  (∃ b, Ev KRand (Ok b) ∈ l ∧ plain = hex.EncodeToString (text_of b)) ∧
  ∃ t, Ev KNow t ∈ l ∧ expires = (t + o_TTL (os fl))%Z.

Definition needed (c : call) (l : otrace) (R : Type) (k : ocmd R) : Prop :=
  match k with
  | KSave fl h u expires => ∃ email plain, h = hashed plain ∧ issued c l fl email plain u expires
  | KSend to link =>
      ∃ fl plain u expires, issued c l fl to plain u expires ∧ Ev (KSave fl (hashed plain) u expires) None ∈ l ∧
        buildMessage fl to (buildLink fl plain) = Ok link
  | KConsume fl h t => ∃ tok, redeems c fl tok ∧ h = hashed tok ∧ Ev KNow t ∈ l
  | KUpdatePassword u h =>
      ∃ tok t p, redeems c Reset tok ∧ Ev (KConsume Reset (hashed tok) t) (Ok u) ∈ l ∧
        new_password c = Some p ∧ MinPasswordLength ≤ String.length p ∧ Ev (KHash p) (Ok h) ∈ l
  | KDeleteAll u => ∃ h, Ev (KUpdatePassword u h) None ∈ l
  | KCreate u _ _ => ∃ tok t, redeems c Link tok ∧ Ev (KConsume Link (hashed tok) t) (Ok u) ∈ l
  | _ => True
  end.

Definition safe {A} (c : call) (l : otrace) (p : prog ocmd A) : Prop := along (needed c) (λ _ _, True) l p.

Lemma issued_mono c l l' fl email plain u x :
  l `prefix_of` l' → issued c l fl email plain u x → issued c l' fl email plain u x.
Proof.
  intros Hl (Hc & H1 & (b & H2 & Hp) & t & H3 & Hx).
  split_and!; [done|by eapply elem_of_prefix|exists b; split; [by eapply elem_of_prefix|done]|exists t; split; [by eapply elem_of_prefix|done]].
Qed.

Ltac member := repeat first [apply elem_of_app; right; by left|apply elem_of_app; left].

Lemma safe_emitAudit {A} c l fl r evt sev meta (k : prog ocmd A) :
  (∀ l', l `prefix_of` l' → safe c l' k) → safe c l (bind (emitAudit os fl r evt sev meta) (λ _, k)).
Proof.
  intros Hk. unfold emitAudit. destruct (negb _); cbn [bind]; [by apply Hk|]. split; [done|]. intros ?. apply Hk. by eexists.
Qed.

Lemma safe_limited c l key p : (∀ l', safe c l' p) → safe c l (checkRateLimit key p).
Proof. intros Hp. unfold checkRateLimit. split; [done|]. intros [[[] w]|e]; cbn [negb]; [apply Hp|done|apply Hp]. Qed.

(** The two request handlers. *)
Ltac request := 
  apply safe_limited; intros ?; destruct (decodeBody _ _) as [addr|e]; [|done];
  case_decide; [done|]; split; [done|]; intros [u|[|e]]; [|by apply safe_emitAudit|done];
  split; [done|]; intros [b|e]; cbn [generateToken]; [|done]; split; [done|]; intros t;
  match goal with |- along (needed ?c) _ ?l' (Call (KSave ?fl _ ?u' ?x) _) =>
    assert (issued c l' fl (strings.TrimSpace addr) (hex.EncodeToString (text_of b)) u' x)
      by (split_and!; [by eexists _, _|member|eexists; split; [member|done]|eexists; split; [member|done]])
  end;
  split; [by eexists _, _|]; intros [e|]; [done|];
  destruct (buildMessage _ _ _) as [link|e] eqn:?; [|done];
  split; [eexists _, _, _, _; split_and!; [match goal with H : issued _ _ _ _ _ _ _ |- _ => eapply issued_mono; [|exact H]; by eexists end|member|eassumption]|];
  intros [e|]; [done|]; by apply safe_emitAudit.

Lemma safe_reset_request r raw l : safe (Request Reset r raw) l (serve (Request Reset r raw)).
Proof. cbn [OneTime.serve]. unfold reset_handleRequest. request. Qed.

Lemma safe_link_request r raw l : safe (Request Link r raw) l (serve (Request Link r raw)).
Proof. cbn [OneTime.serve]. unfold link_handleRequest. request. Qed.

Lemma safe_applyReset r raw b l t u :
  decodeBody DecodeConfirm raw = Ok b → MinPasswordLength ≤ String.length (c_NewPassword b) →
  Ev (KConsume Reset (hashed (c_Token b)) t) (Ok u) ∈ l →
  safe (Confirm r raw) l (applyReset os r u (c_NewPassword b)).
Proof.
  intros Hb Hlen Hl. unfold applyReset. split; [done|]. intros [h|e]; [|done]. split.
  - exists (c_Token b), t, (c_NewPassword b). cbn. rewrite Hb.
    split_and!; [done|by eauto|apply elem_of_app; by left|done|done|member].
  - intros [[|e]|]; [done|done|]. split; [eexists; member|]. intros [e|]; cbn [bind].
    + apply safe_emitAudit. intros. by apply safe_emitAudit.
    + by apply safe_emitAudit.
Qed.

Lemma safe_confirm r raw l : safe (Confirm r raw) l (serve (Confirm r raw)).
Proof.
  cbn [OneTime.serve]. unfold handleConfirm. apply safe_limited. intros l'.
  destruct (decodeBody _ _) as [b|e] eqn:Hb; [|done]. destruct (negb _); [by apply safe_emitAudit|].
  destruct (checkPasswordStrength _) eqn:Hs; [done|].
  assert (MinPasswordLength ≤ String.length (c_NewPassword b)) as Hlen.
  { revert Hs. unfold checkPasswordStrength. destruct (_ <? _) eqn:Hlt; [done|]. intros _. by apply Nat.ltb_ge. }
  split; [done|]. intros t. split.
  - exists (c_Token b). split_and!; [split; by eauto|done|member].
  - intros [u|[|e]]; [|by apply safe_emitAudit|done]. eapply safe_applyReset; [done|done|member].
Qed.

Lemma safe_verify_call r tok l : safe (Verify r tok) l (serve (Verify r tok)).
Proof.
  cbn [OneTime.serve]. unfold handleVerify. destruct (negb _); [by apply safe_emitAudit|].
  split; [done|]. intros t. split; [exists tok; split_and!; [done..|member]|].
  intros [u|[|e]]; [|by apply safe_emitAudit|done].
  split; [exists tok, t; split_and!; [done..|member]|]. intros [s|e]; [|done].
  split; [done|]. intros now. by apply safe_emitAudit.
Qed.

Lemma serve_safe c : safe c [] (serve c).
Proof. destruct c as [[] r raw|r raw|r tok]; [apply safe_reset_request|apply safe_link_request|apply safe_confirm|apply safe_verify_call]. Qed.

(** ** The token tables *)

Section system.
Context (Hash : list Z → string → result string string).
Context {L : Type} (Allow : L → string → L * result string (bool * Duration)).
Context {S Addr Prefix : Type} `{AuditStore string S} (hmac : string → string → string).
Context (ParseAddr : string → option Addr) (PrefixContains : Prefix → Addr → bool).
Context (emitter : Emitter (V := string) (S := S) (Prefix := Prefix)).

Abbreviation world := (OneTime.world (L := L) (S := S)) (only parsing).
Abbreviation exec := (OneTime.exec Hash Allow hmac ParseAddr PrefixContains emitter) (only parsing).
Abbreviation reachable := (Calls.reachable exec serve drift) (only parsing).

(** A row: flow, hash, user, expiry. *)
Definition row_at (w : world) (x : flow * string * string * Time) : Prop :=
  ∃ used, table x.1.1.1 w !! x.1.1.2 = Some (mkTokenRow x.1.2 x.2 used).
Definition spent (w : world) (x : flow * string) : Prop :=
  ∃ r, table x.1 w !! x.2 = Some r ∧ t_used r ≠ None.

Definition saves (ev : event ocmd) (x : flow * string * string * Time) : Prop :=
  match ev with Ev c _ => match c with KSave fl h u e => x = (fl, h, u, e) | _ => False end end.
(** The redemption of a token. *)
Definition takes (ev : event ocmd) (x : flow * string) : Prop :=
  match ev with Ev c r =>
    match c in ocmd R return R → Prop with KConsume fl h t => λ r, (∃ u, r = Ok u) ∧ x = (fl, h) | _ => λ _, False end r
  end.

Lemma table_set fl fl' t (w : world) : table fl' (set_table fl t w) = if decide (fl = fl') then t else table fl' w.
Proof. by destruct fl, fl'. Qed.

Lemma served_after {X} (P : world → Prop) e w act (fail : X) : P w → P act.1 → P (served e w act fail).1.
Proof. unfold served. by destruct (net e). Qed.

Lemma consume_row_at t h now h' u x used :
  (consume_row t h now).1 !! h' = Some (mkTokenRow u x used) → ∃ used', t !! h' = Some (mkTokenRow u x used').
Proof.
  unfold consume_row. destruct (t !! h) as [r|] eqn:Hr; [|by eauto]. destruct (t_used r) eqn:Hu; [by eauto|].
  destruct (time_after _ _); [|by eauto]. cbn. intros [[<- [= <- <- <-]]|[_ Ht]]%lookup_insert_Some; [|by eauto].
  destruct r; by eauto.
Qed.

Lemma save_token_at t h u x h' u' x' used :
  (save_token t h u x).1 !! h' = Some (mkTokenRow u' x' used) →
  t !! h' = Some (mkTokenRow u' x' used) ∨ (h' = h ∧ u' = u ∧ x' = x).
Proof.
  unfold save_token. do 2 (case_decide; [by left|]). destruct (is_zero x); [by left|].
  destruct (t !! h) eqn:Ht; [by left|]. cbn. intros [[<- [= <- <- <-]]|[_ Hh]]%lookup_insert_Some; auto.
Qed.

Lemma exec_rows {R} e w (c : ocmd R) x : row_at (exec R e w c).1 x → row_at w x ∨ saves (Ev c (exec R e w c).2) x.
Proof.
  destruct x as [[[fl h] u] t]. destruct c; cbn; auto.
  - apply (served_after (λ w', row_at w' (fl, h, u, t) → row_at w (fl, h, u, t) ∨ False)); auto.
  - apply (served_after (λ w', row_at w' (fl, h, u, t) → row_at w (fl, h, u, t) ∨ (fl, h, u, t) = (fl0, hash, userID, expiresAt))); auto.
    unfold row_at. cbn. rewrite table_set. intros [used Hu]. case_decide as Hf; [subst fl0|by eauto].
    apply save_token_at in Hu as [Hu|(-> & -> & ->)]; eauto.
  - apply (served_after (λ w', row_at w' (fl, h, u, t) → row_at w (fl, h, u, t) ∨ False)); auto.
  - case_decide; [by auto|].
    apply (served_after (λ w', row_at w' (fl, h, u, t) → row_at w (fl, h, u, t) ∨ False)); auto.
    unfold row_at. cbn. rewrite table_set. intros [used Hu]. case_decide as Hf; [subst fl0|by eauto].
    apply consume_row_at in Hu as [used' Hu]; eauto.
  - apply (served_after (λ w', row_at w' (fl, h, u, t) → row_at w (fl, h, u, t) ∨ False)); auto.
  - apply (served_after (λ w', row_at w' (fl, h, u, t) → row_at w (fl, h, u, t) ∨ False)); auto.
  - unfold session_create. do 2 (case_match; cbn; auto). destruct (random e); cbn; auto.
    apply (served_after (λ w', row_at w' (fl, h, u, t) → row_at w (fl, h, u, t) ∨ False)); auto.
Qed.

(** A redemption finds its row unused and in time, and leaves it used. *)
Lemma consume_ok t h now u :
  (consume_row t h now).2 = Ok u →
  ∃ x, t !! h = Some (mkTokenRow u x None) ∧ (now < x)%Z ∧
    (consume_row t h now).1 = <[h := mkTokenRow u x (Some now)]> t.
Proof.
  unfold consume_row. destruct (t !! h) as [[u' x used]|]; [|done]. cbn. destruct used; [done|].
  destruct (time_after x now) eqn:Ht; [|done]. cbn. intros [= ->]. exists x. split_and!; [done| |done].
  unfold time_after in Ht. lia.
Qed.

Lemma exec_consume_ok e w fl h now u :
  (exec _ e w (KConsume fl h now)).2 = Ok u →
  ∃ x, table fl w !! h = Some (mkTokenRow u x None) ∧ (now < x)%Z ∧
    table fl (exec _ e w (KConsume fl h now)).1 !! h = Some (mkTokenRow u x (Some now)).
Proof.
  cbn. case_decide; [done|]. unfold served. destruct (net e); [|done..]. cbn. intros (x & Hx & Hn & ->)%consume_ok.
  exists x. split_and!; [done|done|]. rewrite table_set, decide_True by done. by rewrite lookup_insert_eq.
Qed.

Lemma exec_takes {R} e w (c : ocmd R) x :
  takes (Ev c (exec R e w c).2) x → ¬ spent w x ∧ spent (exec R e w c).1 x.
Proof.
  destruct c; try done. intros [[u Hu] ->]. change ((exec _ e w (KConsume fl hash now)).2 = Ok u) in Hu.
  apply exec_consume_ok in Hu as (x & Hx & _ & Hx'). unfold spent. cbn [fst snd]. split.
  - intros (r & Hr & Hne). rewrite Hx in Hr. by injection Hr as <-.
  - by eexists.
Qed.

Lemma consume_row_used t h now h' r :
  t !! h' = Some r → t_used r ≠ None → (consume_row t h now).1 !! h' = Some r.
Proof.
  intros Hr Hu. unfold consume_row. destruct (t !! h) as [r'|] eqn:Hr'; [|done]. destruct (t_used r') eqn:Hu'; [done|].
  destruct (time_after _ _); [|done]. cbn. rewrite lookup_insert_ne; [done|]. congruence.
Qed.

Lemma save_token_used t h u x h' r : t !! h' = Some r → (save_token t h u x).1 !! h' = Some r.
Proof.
  intros Hr. unfold save_token. do 2 (case_decide; [done|]). destruct (is_zero x); [done|].
  destruct (t !! h) eqn:Ht; [done|]. cbn. rewrite lookup_insert_ne; [done|]. congruence.
Qed.

Lemma exec_spent {R} e w (c : ocmd R) x : spent w x → spent (exec R e w c).1 x.
Proof.
  destruct x as [fl h]. intros Hs. destruct c; cbn; try exact Hs;
    try (apply (served_after (λ w', spent w' (fl, h))); [exact Hs|]; try exact Hs).
  - destruct Hs as (r & Hr & Hu). exists r. split; [|done]. cbn in *. rewrite table_set.
    case_decide as Hf; [subst fl0|done]. by apply save_token_used.
  - case_decide; [exact Hs|]. apply (served_after (λ w', spent w' (fl, h))); [exact Hs|].
    destruct Hs as (r & Hr & Hu). exists r. split; [|done]. cbn in *. rewrite table_set.
    case_decide as Hf; [subst fl0|done]. by apply consume_row_used.
  - unfold session_create. do 2 (case_match; cbn; auto). destruct (random e); cbn; auto.
    by apply (served_after (λ w', spent w' (fl, h))).
Qed.

Lemma drift_row (w w' : world) x : drift w w' → row_at w' x → row_at w x.
Proof. destruct x as [[[[] h] u] t]. by intros (us & ps & ss & ->). by intros (us & ps & ss & ->). Qed.
Lemma drift_spent (w w' : world) x : drift w w' → spent w x → spent w' x.
Proof. destruct x as [[] h]; by intros (us & ps & ss & ->). Qed.

(** ** Every effect of a token is authorised *)

(** [id] redeemed [tok] for [u], nobody else did, and before [tok] expired it had
    been made by a request for an address of [u]. *)
Definition authorised (s : Calls.config (C := ocmd) (W := world) (Q := call) (A := response))
    (id : nat) (fl : flow) (tok u : string) : Prop :=
  ∃ a t, attempts s !! id = Some a ∧ redeems (a_in a) fl tok ∧ Ev (KConsume fl (hashed tok) t) (Ok u) ∈ a_log a ∧
    (∀ id' a' ev, happened s id' a' ev → takes ev (fl, hashed tok) → id' = id) ∧
    ∃ id1 a1 email plain x, attempts s !! id1 = Some a1 ∧ hashed plain = hashed tok ∧
      issued (a_in a1) (a_log a1) fl email plain u x ∧ (t < x)%Z.

Lemma reachable_ready w0 s id a R (c : ocmd R) r :
  reachable w0 s → happened s id a (Ev c r) → ∃ l, l `prefix_of` a_log a ∧ needed (a_in a) l R c.
Proof. apply happened_needed. intros c'. apply serve_safe. Qed.

(** C9. The event redeems this row's token for its user at this time. *)
Definition redeemed (ev : event ocmd) (y : flow * string * string * Time) : Prop :=
  match ev with Ev c r =>
    match c in ocmd R return R → Prop with
    | KConsume fl h t => λ r, y.1.1 = (fl, h) ∧ y.2 = t ∧ r = Ok y.1.2
    | _ => λ _, False
    end r
  end.

Lemma consume_origin w0 s id a fl h t u :
  (∀ x, ¬ row_at w0 x) → reachable w0 s → happened s id a (Ev (KConsume fl h t) (Ok u)) →
  ∃ id1 a1 x r, happened s id1 a1 (Ev (KSave fl h u x) r) ∧ (t < x)%Z.
Proof.
  intros H0 Hr Hh.
  destruct (report_origin exec serve drift
    (λ w y, ∃ x, row_at w (y.1.1.1, y.1.1.2, y.1.2, x) ∧ (y.2 < x)%Z)
    (λ ev y, ∃ x, saves ev (y.1.1.1, y.1.1.2, y.1.2, x) ∧ (y.2 < x)%Z)
    ltac:(intros R e w c y (x & [Hx|Hx]%exec_rows & Hlt); eauto)
    ltac:(intros w w' y Hd (x & Hx & Hlt); exists x; split; [by eapply drift_row|done])
    redeemed)
    with (w0 := w0) (s := s) (id := id) (a := a) (ev := Ev (KConsume fl h t) (Ok u)) (x := (fl, h, u, t))
    as [(x & Hx & _)|(id1 & a1 & [R c r] & Hh1 & x & Hs & Hlt)]; [|done|done|done|by destruct (H0 _ Hx)|].
  - intros R e w c [[[fl' h'] u'] t'] Hev.
    destruct c; try done. cbn [redeemed fst snd] in Hev. destruct Hev as ([= -> ->] & -> & Hok).
    apply exec_consume_ok in Hok as (x & Hx & Hlt & _). exists x. split; [by eexists|done].
  - destruct c; try done. cbn in Hs. injection Hs as -> -> -> ->. eauto 8.
Qed.

Lemma authorised_intro w0 s id a fl tok t u :
  (∀ x, ¬ row_at w0 x) → reachable w0 s → redeems (a_in a) fl tok → happened s id a (Ev (KConsume fl (hashed tok) t) (Ok u)) →
  authorised s id fl tok u.
Proof.
  intros H0 Hr Hred Hh. pose proof Hh as [Ha Hev]. exists a, t. split_and!; [done|done|done| |].
  - intros id' a' ev [Ha' Hev'] Ht. apply list_elem_of_lookup in Hev as [i Hi]. apply list_elem_of_lookup in Hev' as [j Hj].
    exact (proj1 (taken_once exec serve drift spent takes (λ R e w c x, exec_takes e w c x)
      (λ R e w c x, exec_spent e w c x) (λ w w' x, drift_spent w w' x) w0 s id' a' j ev id a i _ _ Hr Ha' Hj Ht Ha Hi
      (conj (ex_intro _ u eq_refl) eq_refl))).
  - destruct (consume_origin _ _ _ _ _ _ _ _ H0 Hr Hh) as (id1 & a1 & x & r & Hs & Hlt).
    destruct (reachable_ready _ _ _ _ _ _ _ Hr Hs) as (l & Hl & email & plain & Hp & Hi).
    exists id1, a1, email, plain, x. split_and!; [by destruct Hs|done|by eapply issued_mono|done].
Qed.

Theorem redemption_authorised w0 s :
  (∀ x, ¬ row_at w0 x) → reachable w0 s →
  (∀ id a u h r, happened s id a (Ev (KUpdatePassword u h) r) →
     ∃ tok p, authorised s id Reset tok u ∧ new_password (a_in a) = Some p ∧ MinPasswordLength ≤ String.length p) ∧
  (∀ id a u ttl idle r, happened s id a (Ev (KCreate u ttl idle) r) → ∃ tok, authorised s id Link tok u) ∧
  (∀ id a to link r, happened s id a (Ev (KSend to link) r) →
     ∃ fl plain u x, issued (a_in a) (a_log a) fl to plain u x ∧ buildMessage fl to (buildLink fl plain) = Ok link).
Proof.
  intros H0 Hr. split_and!.
  - intros id a u h r Hh. destruct (reachable_ready _ _ _ _ _ _ _ Hr Hh) as (l & Hl & tok & t & p & Hred & Hc & Hp & Hlen & _).
    exists tok, p. split; [|done]. eapply authorised_intro; [done|done|exact Hred|].
    split; [by destruct Hh|by eapply elem_of_prefix].
  - intros id a u ttl idle r Hh. destruct (reachable_ready _ _ _ _ _ _ _ Hr Hh) as (l & Hl & tok & t & Hred & Hc).
    exists tok. eapply authorised_intro; [done|done|exact Hred|]. split; [by destruct Hh|by eapply elem_of_prefix].
  - intros id a to link r Hh. destruct (reachable_ready _ _ _ _ _ _ _ Hr Hh) as (l & Hl & fl & plain & u & x & Hi & _ & Hm).
    exists fl, plain, u, x. split; [by eapply issued_mono|done].
Qed.
End system.

(** ** Answers *)

(** What a request is answered, from the bucket and the body alone. *)
Definition request_answer (raw : string) (bucket : result string (bool * Duration)) : response :=
  match bucket with
  | Ok (false, wait) => RRetry (retry_of wait)
  | _ => match decodeBody DecodeEmail raw with Err _ => RError 400 "invalid_request" | Ok _ => ROk end
  end.

Definition answered_by_bucket (raw : string) (l : otrace) (rep : response) : Prop :=
  ∃ key a l', l = Ev (KAllow key) a :: l' ∧ rep = request_answer raw a.

Ltac walk := repeat (cbn [bind along negb generateToken]; match goal with
  | |- _ ∧ _ => split; [exact I|intros ?]
  | |- along _ _ _ (if negb ?b then _ else _) => is_var b; destruct b
  | |- along _ _ _ (match ?x with _ => _ end) => destruct x eqn:?
  | |- along _ _ _ (bind (match ?x with _ => _ end) _) => destruct x eqn:?
  end).

(** A request is answered the same whether the address has an account, whether its
    mail could be sent, and whatever else went wrong. *)
Lemma request_uniform fl r raw l rep :
  runs (serve (Request fl r raw)) l rep → answered_by_bucket raw l rep.
Proof.
  intros Hr. enough (along (λ _ _ _, True) (answered_by_bucket raw) [] (serve (Request fl r raw))) as Ha
    by exact (along_runs _ _ _ _ _ _ Ha Hr).
  destruct fl; cbn [OneTime.serve]; unfold reset_handleRequest, link_handleRequest, checkRateLimit, emitAudit; walk.
  all: eexists _, _, _; split; [cbn; reflexivity|]; subst; unfold request_answer;
    repeat match goal with H : ?x = _ |- context [?x] => rewrite H end; reflexivity.
Qed.

(** A reset that is confirmed has written the new password and then asked for all of
    the user's sessions to be deleted. *)
Lemma confirmed_revokes r raw l u :
  runs (serve (Confirm r raw)) l (RConfirmed u) →
  ∃ h d, Ev (KUpdatePassword u h) None ∈ l ∧ Ev (KDeleteAll u) d ∈ l.
Proof.
  intros Hr. assert (along (λ _ _ _, True) (λ l rep, ∀ u, rep = RConfirmed u →
    ∃ h d, Ev (KUpdatePassword u h) None ∈ l ∧ Ev (KDeleteAll u) d ∈ l) [] (serve (Confirm r raw))) as Ha.
  { cbn [OneTime.serve]. unfold handleConfirm, checkRateLimit, applyReset, emitAudit, gone. walk.
    all: intros u' [= <-]; eexists _, _; split; member. }
  exact (along_runs _ _ _ _ _ _ Ha Hr u eq_refl).
Qed.
End one_time.

(** ** A concrete installation *)

Module mailroom.
(** Sixty-four characters are their own digest here; a body is the address, or the
    token followed by the new password. *)
Definition sha256 (s : string) : string := "#" +:+ s.
Definition buildLink (fl : flow) (t : string) : string := "https://x.org/?token=" +:+ t.
Definition buildMessage (fl : flow) (to link : string) : result string string := Ok link.
Definition DecodeEmail (s : string) : result string (string * string) := Ok (s, "").
Definition DecodeConfirm (s : string) : result string (confirmBody * string) :=
  Ok (mkConfirm (String.substring 0 64 s) (strings.drop 64 s), "").
Definition opts (fl : flow) : Options :=
  mkOptions true true true true "https://x.org/" true true "" (match fl with Reset => 60 * minute | Link => 15 * minute end)%Z
    "/" (24 * 60 * minute)%Z (60 * minute)%Z false "" "".
Definition Hash (salt : list Z) (p : string) : result string string :=
  match salt with [] => Ok ("h:" +:+ p) | _ => Err "entropy" end.
Definition Allow (u : unit) (key : string) : unit * result string (bool * Duration) := (u, Ok (true, 0%Z)).
Definition exec := OneTime.exec Hash Allow (λ _ _, "") (λ _, None) (λ (_ : unit) (_ : unit), false)
  (NewEmitter : Emitter (V := string) (S := MemoryStore string) (Prefix := unit)).
Definition world0 : OneTime.world (L := unit) (S := MemoryStore string) :=
  mkWorld [mkUserRow "u1" "ann@x.org" "active"; mkUserRow "u2" "bob@x.org" "suspended"; mkUserRow "u3" "cy@x.org" "deleted"]
    ∅ ∅ {["u1" := "h:old"]} [("tok", "u1")] [] () NewMemoryStore.
Definition req : AuditRequest := mkAuditRequest "POST" "/" "10.0.0.1:4711" [] "curl" "".
Definition at_ (t : Z) (b : Z) : env := mkEnv (t * minute) 0 (Ok (replicate 32 b)) [] Served.
Definition token (b : Z) : string := hex.EncodeToString (text_of (replicate 32 b)).
Definition moves (id : nat) (c : call) (t b : Z) : list move := MArrive id c :: replicate 10 (MAdvance id (at_ t b)).
Definition outcome (w : OneTime.world) (ms : list move) :=
  play exec (OneTime.serve sha256 buildLink buildMessage DecodeEmail DecodeConfirm opts) ms w.
Definition confirm (b : Z) (pw : string) : call := Confirm req (token b +:+ pw).
End mailroom.

Definition reset_twice : list move :=
  mailroom.moves 0 (Request Reset mailroom.req "ann@x.org") 0 1 ++
  mailroom.moves 1 (mailroom.confirm 1 "correct horse") 59 2 ++
  mailroom.moves 2 (mailroom.confirm 1 "battery staple") 59 3.

Example reset_works_once :
  result_at (mailroom.outcome mailroom.world0 reset_twice) 1 = Some (RConfirmed "u1") ∧
  result_at (mailroom.outcome mailroom.world0 reset_twice) 2 = Some (RError 410 "invalid_or_expired_token") ∧
  passwords (the_world (mailroom.outcome mailroom.world0 reset_twice)) !! "u1" = Some "h:correct horse" ∧
  live (the_world (mailroom.outcome mailroom.world0 reset_twice)) = [].
Proof. vm_compute. auto. Qed.

(** Call [id] wrote a password of [u]. *)
Definition updates (u : string) (ev : event ocmd) : bool :=
  match ev with Ev c _ => match c with KUpdatePassword u' _ => String.eqb u u' | _ => false end end.
Lemma updates_happened {W Q A} (s : Calls.config (C := ocmd) (W := W) (Q := Q) (A := A)) id u :
  match attempts s !! id with Some a => existsb (updates u) (a_log a) | None => false end = true →
  ∃ a h r, happened s id a (Ev (KUpdatePassword u h) r).
Proof.
  destruct (attempts s !! id) as [a|] eqn:Ha; [|done]. intros ([R c r] & Hin & Hu)%existsb_exists.
  destruct c; try done. apply String.eqb_eq in Hu as <-. exists a, newHash, r. split; [done|]. by apply list_elem_of_In.
Qed.

Lemma redemption_authorised_witness :
  ∃ tok, authorised mailroom.sha256 mailroom.DecodeConfirm mailroom.opts
    (mailroom.outcome mailroom.world0 reset_twice) 1 Reset tok "u1".
Proof.
  assert (∃ a h r, happened (mailroom.outcome mailroom.world0 reset_twice) 1 a (Ev (KUpdatePassword "u1" h) r))
    as (a & h & r & Ha) by (apply updates_happened; vm_compute; reflexivity).
  destruct (redemption_authorised mailroom.sha256 mailroom.buildLink mailroom.buildMessage mailroom.DecodeEmail
    mailroom.DecodeConfirm mailroom.opts mailroom.Hash mailroom.Allow (λ _ _, "") (λ _, None) (λ (_ : unit) (_ : unit), false)
    NewEmitter mailroom.world0 (mailroom.outcome mailroom.world0 reset_twice)) as [Hu _].
  - intros [[[[] h0] u] t] [used Hx]; vm_compute in Hx; discriminate Hx.
  - apply play_reachable.
  - destruct (Hu _ _ _ _ _ Ha) as (tok & p & Hau & _). exists tok. exact Hau.
Defined.

(** A second reset link of the same user stays good after the first was used. *)
Example older_link_survives :
  let s := mailroom.outcome mailroom.world0 (mailroom.moves 0 (Request Reset mailroom.req "ann@x.org") 0 1 ++
    mailroom.moves 1 (Request Reset mailroom.req "ann@x.org") 1 2 ++
    mailroom.moves 2 (mailroom.confirm 2 "correct horse") 2 3 ++
    mailroom.moves 3 (mailroom.confirm 1 "somebody else") 3 4) in
  result_at s 3 = Some (RConfirmed "u1") ∧ passwords (the_world s) !! "u1" = Some "h:somebody else".
Proof. vm_compute. auto. Qed.

(** The token is spent before the password is written: when that fails, the link is
    gone and the password is the old one. *)
Example failed_reset_burns_token :
  let s := mailroom.outcome mailroom.world0 (mailroom.moves 0 (Request Reset mailroom.req "ann@x.org") 0 1 ++
    [MArrive 1 (mailroom.confirm 1 "correct horse")] ++
    replicate 10 (MAdvance 1 (mkEnv minute 0 (Ok []) [1%Z] Served)) ++
    mailroom.moves 2 (mailroom.confirm 1 "correct horse") 2 3) in
  result_at s 1 = Some (RError 500 "internal_error") ∧ result_at s 2 = Some (RError 410 "invalid_or_expired_token") ∧
  passwords (the_world s) !! "u1" = Some "h:old".
Proof. vm_compute. auto. Qed.

(** A suspended user gets a session by magic link. *)
Example suspended_user_signs_in :
  let s := mailroom.outcome mailroom.world0 (mailroom.moves 0 (Request Link mailroom.req "bob@x.org") 0 1 ++
    mailroom.moves 1 (Verify mailroom.req (mailroom.token 1)) 2 3) in
  live (the_world s) = [("tok", "u1"); (base64.EncodeToString (replicate 32 3%Z), "u2")].
Proof. vm_compute. auto. Qed.

(** A user soft-deleted after the request still resets the password. *)
Example deleted_user_resets :
  let w := set_table Reset {[hashToken mailroom.sha256 (mailroom.token 1) := mkTokenRow "u3" (60 * minute)%Z None]} mailroom.world0 in
  result_at (mailroom.outcome w (mailroom.moves 0 (mailroom.confirm 1 "correct horse") 1 2)) 0 = Some (RConfirmed "u3").
Proof. vm_compute. auto. Qed.
