(* ===== verification/Csrf.v ===== *)
(** * CSRF protection (packages/go/middleware/csrf/csrf.go)

    The double-submit middleware: the path check, the tokens with their HMAC and
    age, the cookie, and the guard in front of a handler. HMAC-SHA256 (32 bytes for a
    key and a text) and net/http's multipart parser are arguments; texts are ASCII. *)
From S2P Require Import Prelude GoStrings GoTime Base64 Hex Http.
From Stdlib Require Import Ascii.

(** ** path.Clean *)

Module path.
Definition clean_step (rooted : bool) (stack : list string) (seg : string) : list string :=
  if decide (seg = "" ∨ seg = ".") then stack
  else if decide (seg = "..") then
    match stack with
    | top :: rest => if decide (top = "..") then ".." :: stack else rest
    | [] => if rooted then [] else [".."]
    end
  else seg :: stack.

(** The segments that are left, innermost first. *)
Definition clean_segments (p : string) : list string :=
  foldl (clean_step (strings.HasPrefix p "/")) [] (strings.Split "/" p).

Definition Clean (p : string) : string :=
  let body := strings.Join (rev (clean_segments p)) "/" in
  if strings.HasPrefix p "/" then "/" +:+ body else if decide (body = "") then "." else body.
End path.

(** ** net/url.ParseQuery *)

Module url.
Fixpoint QueryUnescape (s : string) : option string :=
  match s with
  | EmptyString => Some ""
  | String "%" s =>
      match s with
      | String a (String b s) =>
          x ← hex.value_of a; y ← hex.value_of b; t ← QueryUnescape s;
          Some (String (Ascii.ascii_of_N (16 * x + y)) t)
      | _ => None
      end
  | String "+" s => String " " <$> QueryUnescape s
  | String c s => String c <$> QueryUnescape s
  end.

(** The pairs in order; an error in any of them is an error of the whole. *)
Definition ParsePair (kv : string) : option (option (string * string)) :=
  if strings.Contains kv ";" then None
  else if decide (kv = "") then Some None
  else
    let '(k, v) := match strings.Cut kv "=" with Some kv => kv | None => (kv, "") end in
    k ← QueryUnescape k; v ← QueryUnescape v; Some (Some (k, v)).
Definition ParseQuery (s : string) : option (list (string * string)) :=
  omap id <$> mapM ParsePair (strings.Split "&" s).
Definition Values_Get (vs : list (string * string)) (k : string) : string :=
  match filter (λ kv, kv.1 = k) vs with (_, v) :: _ => v | [] => "" end.
End url.

(** ** Configuration *)

Record Options := mkOptions {
  TTL : Duration; CookieName : string; HeaderName : string; FormField : string;
  SkipPaths : list string; TrustProxyHeaders : bool; MaxFormBodyBytes : Z }.

Definition defaultTTL : Duration := (60 * minute)%Z.
Definition cookieIDBytes : nat := 32.

Definition with_defaults (o : Options) : Options :=
  mkOptions (if (TTL o =? 0)%Z then defaultTTL else TTL o)
    (if decide (CookieName o = "") then "csrf" else CookieName o)
    (if decide (HeaderName o = "") then "X-CSRF-Token" else HeaderName o)
    (if decide (FormField o = "") then "csrf_token" else FormField o)
    (SkipPaths o) (TrustProxyHeaders o)
    (if (MaxFormBodyBytes o =? 0)%Z then (64 * 1024)%Z else MaxFormBodyBytes o).

(** What [New] panics on. *)
Definition New_panics (secret : string) (o : Options) : bool := (String.length secret <? 16) || (TTL o <? 0)%Z.

Inductive csrf_error :=
| errMissingToken | errMissingCookie | errMalformedToken | errInvalidHMAC | errExpiredToken | errTokenCookieDiff.

(** ** Paths *)

Definition ends_slash (p : string) : bool := bool_decide (String.get (String.length p - 1) p = Some "/"%char).

Definition isNonCanonicalPath (p : string) : bool :=
  if decide (p = "") then false
  else
    let cleaned := path.Clean p in
    if decide (cleaned = p) then false
    else negb (ends_slash p && negb (bool_decide (cleaned = "/")) && bool_decide (cleaned +:+ "/" = p)).

Definition isSkippedPath (p : string) (prefixes : list string) : bool :=
  existsb (λ prefix, negb (bool_decide (prefix = "")) && strings.HasPrefix p prefix) prefixes.

(** ** Tokens *)

Section tokens.
Context (hmac : string → string → list Z).

Definition computeSig (key cookieID tsStr : string) : list Z := hmac key (cookieID +:+ ":" +:+ tsStr).

Definition mintToken (key : string) (random : result string (list Z)) (now : Time) : result string string :=
  match random with
  | Err e => Err ("mintToken: read entropy: " +:+ e)
  | Ok idRaw =>
      let cookieID := base64.EncodeToString idRaw in
      let tsStr := strconv.Itoa (time.Unix now) in
      Ok (cookieID +:+ "." +:+ tsStr +:+ "." +:+ base64.EncodeToString (computeSig key cookieID tsStr))
  end.

Definition verifyToken (key : string) (ttl : Duration) (now : Time) (tok : string) : result csrf_error string :=
  if decide (tok = "") then Err errMissingToken
  else
    match strings.Cut tok "." with
    | None | Some ("", _) => Err errMalformedToken
    | Some (cookieID, rest) =>
        match strings.Cut rest "." with
        | None | Some ("", _) | Some (_, "") => Err errMalformedToken
        | Some (tsStr, sigStr) =>
            match strconv.Atoi tsStr with
            | None => Err errMalformedToken
            | Some ts =>
                match base64.DecodeString sigStr with
                | None => Err errMalformedToken
                | Some gotSig =>
                    if negb (bool_decide (gotSig = computeSig key cookieID tsStr)) then Err errInvalidHMAC
                    else
                      let age := time.Sub now (time.FromUnix ts) in
                      if (age <? - minute)%Z then Err errExpiredToken
                      else if (ttl <? age)%Z then Err errExpiredToken
                      else Ok cookieID
                end
            end
        end
    end.
End tokens.

(** ** The middleware *)

(** A request: [q_Cookie] answers for the cookie jar, [q_multipart] is what
    [ParseMultipartForm] makes of a bounded body, [None] if it fails. *)
Record CsrfRequest := mkCsrfRequest {
  q_Method : string; q_Path : string; q_TLS : bool; q_Header : Header;
  q_Cookie : string → option string; q_Body : string; q_RawQuery : string }.

Definition set_body (b : string) (r : CsrfRequest) : CsrfRequest :=
  mkCsrfRequest (q_Method r) (q_Path r) (q_TLS r) (q_Header r) (q_Cookie r) b (q_RawQuery r).

Definition TokenFromCookie (r : CsrfRequest) (name : string) : string :=
  default "" (q_Cookie r (if decide (name = "") then "csrf" else name)).
Definition Token (r : CsrfRequest) : string := default "" (q_Cookie r "csrf").

Record CsrfCookie := mkCsrfCookie { k_Name : string; k_Value : string; k_MaxAge : Z; k_Secure : bool }.

Section middleware.
Context (hmac : string → string → list Z).
(** [ParseMultipartForm] of a body of at most so many bytes: the form's pairs. *)
Context (ParseMultipart : option Z → string → string → option (list (string * string))).
Context (key : string) (cfg : Options).

Definition isTLS (r : CsrfRequest) : bool :=
  q_TLS r || TrustProxyHeaders cfg && bool_decide (header_get "X-Forwarded-Proto" (q_Header r) = "https").

Definition safeMethod (m : string) : bool := bool_decide (m ∈ ["GET"; "HEAD"; "OPTIONS"]).

(** What the response is given, if anything. *)
Definition ensureCookie (random : result string (list Z)) (now : Time) (r : CsrfRequest) : option CsrfCookie :=
  let fresh :=
    match mintToken hmac key random now with
    | Err _ => None
    | Ok tok => Some (mkCsrfCookie (CookieName cfg) tok (Z.quot (TTL cfg) second) (isTLS r))
    end in
  match q_Cookie r (CookieName cfg) with
  | None | Some "" => fresh
  | Some v => match verifyToken hmac key (TTL cfg) now v with Ok _ => None | Err _ => fresh end
  end.

(** The form's token, and the request as the handler sees it; [FormValue] looks at the
    query before the multipart form. *)
Definition tokenFromForm (r : CsrfRequest) : string * CsrfRequest :=
  let ct := header_get "Content-Type" (q_Header r) in
  let kind := match strings.Cut ct ";" with Some (t, _) => strings.TrimSpace t | None => ct end in
  if decide (kind = "application/x-www-form-urlencoded") then
    let raw := if (0 <=? MaxFormBodyBytes cfg)%Z
               then String.substring 0 (Z.to_nat (MaxFormBodyBytes cfg + 1)) (q_Body r) else q_Body r in
    let r := set_body raw r in
    if ((0 <=? MaxFormBodyBytes cfg) && (MaxFormBodyBytes cfg <? Z.of_nat (String.length raw)))%Z then ("", r)
    else
      match url.ParseQuery raw with
      | None => ("", r)
      | Some vals => (url.Values_Get vals (FormField cfg), r)
      end
  else if decide (kind = "multipart/form-data") then
    let limit := if (0 <=? MaxFormBodyBytes cfg)%Z then Some (MaxFormBodyBytes cfg) else None in
    match url.ParseQuery (q_RawQuery r), ParseMultipart limit ct (q_Body r) with
    | Some query, Some form => (url.Values_Get (query ++ form) (FormField cfg), set_body "" r)
    | _, _ => ("", set_body "" r)
    end
  else ("", r).

Definition verifyRequest (now : Time) (r : CsrfRequest) : option csrf_error * CsrfRequest :=
  match q_Cookie r (CookieName cfg) with
  | None | Some "" => (Some errMissingCookie, r)
  | Some cookie =>
      let presented := header_get (CanonicalHeaderKey (HeaderName cfg)) (q_Header r) in
      let '(presented, r) := if decide (presented = "") then tokenFromForm r else (presented, r) in
      if decide (presented = "") then (Some errMissingToken, r)
      else
        match verifyToken hmac key (TTL cfg) now presented with
        | Err e => (Some e, r)
        | Ok _ => if decide (presented = cookie) then (None, r) else (Some errTokenCookieDiff, r)
        end
  end.

(** A handler with its state; the cookie is set on the response before it runs. *)
Definition csrf_handler (S : Type) : Type := S → CsrfRequest → option CsrfCookie → Writer → S * Writer.

Definition Middleware {S} (next : csrf_handler S) (random : result string (list Z)) (now : Time)
    (s : S) (r : CsrfRequest) (w : Writer) : S * Writer :=
  if isNonCanonicalPath (q_Path r) then (s, HttpError "Bad Request" 400 w)
  else if isSkippedPath (q_Path r) (SkipPaths cfg) then next s r (ensureCookie random now r) w
  else if safeMethod (q_Method r) then next s r (ensureCookie random now r) w
  else
    match verifyRequest now r with
    | (Some _, _) => (s, HttpError "Forbidden" 403 w)
    | (None, r) => next s r None w
    end.
End middleware.
