(* ===== verification/CsrfProps.v ===== *)
(** * CSRF protection, proved

    Tokens verify again while they are fresh, and what verifies is a signed token;
    canonical paths climb nowhere; a state-changing request runs its handler exactly
    with such a token, the one of its cookie; a cookie set on a first GET opens the
    following POST. *)
From S2P Require Import Prelude GoStrings GoTime Base64 Hex Http Segments Csrf.
From Stdlib Require Import Ascii.

(** ** Tokens *)

Lemma base64_no_dot src : all_chars (not_char ".") (base64.EncodeToString src) = true.
Proof.
  unfold base64.EncodeToString. induction (base64.sextets src) as [|v l IH]; [done|].
  cbn [fmap list_fmap String.string_of_list_ascii all_chars]. rewrite IH, andb_true_r. unfold base64.char_of.
  destruct (String.get _ base64.encodeURL) as [c|] eqn:Hg; [|done]. by apply (get_all_chars (not_char ".") _ base64.encodeURL _ eq_refl Hg).
Qed.

Lemma digits_no_dot s : all_chars is_digit s = true → all_chars (not_char ".") s = true.
Proof.
  apply all_chars_impl. intros c Hc. unfold not_char. destruct (bool_decide_reflect (c = "."%char)) as [->|]; [done|done].
Qed.

Lemma EncodeToString_ne src : src ≠ [] → base64.EncodeToString src ≠ "".
Proof. unfold base64.EncodeToString. by destruct src as [|a [|b [|c r]]]. Qed.

Section tokens.
Context (hmac : string → string → list Z) (key : string).

(** Fresh: not from more than a minute ahead, not older than the TTL. *)
Definition fresh (ttl : Duration) (now : Time) (ts : Z) : Prop :=
  (- minute ≤ time.Sub now (time.FromUnix ts) ≤ ttl)%Z.
#[export] Instance fresh_dec ttl now ts : Decision (fresh ttl now ts).
Proof. unfold fresh. apply _. Defined.

(** A token with its parts: the id, the time as written and read, and a signature of
    both that decodes to the HMAC. *)
Definition signed (tok id : string) (ts : Z) : Prop :=
  ∃ tsStr sig, tok = id +:+ "." +:+ tsStr +:+ "." +:+ sig ∧ id ≠ "" ∧ strconv.Atoi tsStr = Some ts ∧
    base64.DecodeString sig = Some (computeSig hmac key id tsStr).

(** What [verifyToken] decides once the three parts are found. *)
Definition verify_parts (ttl : Duration) (now : Time) (id tsStr sig : string) : result csrf_error string :=
  match strconv.Atoi tsStr, base64.DecodeString sig with
  | Some ts, Some got =>
      if negb (bool_decide (got = computeSig hmac key id tsStr)) then Err errInvalidHMAC
      else if decide (fresh ttl now ts) then Ok id else Err errExpiredToken
  | _, _ => Err errMalformedToken
  end.

Lemma verifyToken_parts ttl now id tsStr sig :
  id ≠ "" → tsStr ≠ "" → sig ≠ "" →
  all_chars (not_char ".") id = true → all_chars (not_char ".") tsStr = true →
  verifyToken hmac key ttl now (id +:+ "." +:+ tsStr +:+ "." +:+ sig) = verify_parts ttl now id tsStr sig.
Proof.
  intros Hid Hts Hsig Hi Ht. unfold verifyToken.
  change (id +:+ "." +:+ tsStr +:+ "." +:+ sig) with (id +:+ String "." (tsStr +:+ String "." sig)).
  rewrite decide_False by by destruct id. rewrite (Cut_char "."), (Cut_char ".") by done.
  destruct id as [|c i]; [done|]. destruct tsStr as [|t ts]; [done|]. destruct sig as [|s sg]; [done|].
  unfold verify_parts. destruct (strconv.Atoi _) as [n|]; [|done]. destruct (base64.DecodeString _); [|done].
  destruct (negb _); [done|]. unfold fresh.
  destruct (_ <? _)%Z eqn:Ha; [rewrite decide_False by lia; done|].
  destruct (ttl <? _)%Z eqn:Hb; [rewrite decide_False by lia; done|]. by rewrite decide_True by lia.
Qed.

Lemma Cut_dot s a b : strings.Cut s "." = Some (a, b) → s = a +:+ "." +:+ b ∧ all_chars (not_char ".") a = true.
Proof.
  revert a. induction s as [|c s IH]; intros a; cbn [strings.Cut strings.HasPrefix]; [done|].
  destruct (bool_decide_reflect ("."%char = c)) as [<-|Hne]; cbn.
  - assert (strings.HasPrefix s "" = true) as -> by by destruct s. by intros [= <- <-].
  - destruct (strings.Cut s ".") as [[a' b']|] eqn:Hs; cbn; [|done]. intros [= <- <-].
    destruct (IH a') as [-> Ha]; [done|]. split; [done|]. cbn [all_chars]. rewrite Ha, andb_true_r.
    unfold not_char. by rewrite bool_decide_eq_false_2.
Qed.

Lemma verifyToken_signed ttl now tok id :
  verifyToken hmac key ttl now tok = Ok id → ∃ ts, signed tok id ts ∧ fresh ttl now ts.
Proof.
  intros Hv. assert (∃ tsStr sig, tok = id +:+ "." +:+ tsStr +:+ "." +:+ sig ∧ id ≠ "" ∧ tsStr ≠ "" ∧ sig ≠ "" ∧
    all_chars (not_char ".") id = true ∧ all_chars (not_char ".") tsStr = true) as (tsStr & sig & -> & ? & ? & ? & ? & ?).
  { revert Hv. unfold verifyToken. case_decide; [done|].
    destruct (strings.Cut tok ".") as [[i rest]|] eqn:H1; [|done]. apply Cut_dot in H1 as [-> ?].
    destruct i as [|c i]; [done|]. destruct (strings.Cut rest ".") as [[t sg]|] eqn:H2; [|done].
    apply Cut_dot in H2 as [-> ?]. destruct t as [|t ts]; [done|]. destruct sg as [|s sg]; [done|].
    destruct (strconv.Atoi _); [|done]. destruct (base64.DecodeString _); [|done]. destruct (negb _); [done|].
    destruct (_ <? _)%Z; [done|]. destruct (_ <? _)%Z; [done|]. intros [= <-]. by exists (String t ts), (String s sg). }
  rewrite verifyToken_parts in Hv by done. unfold verify_parts in Hv.
  destruct (strconv.Atoi tsStr) as [ts|] eqn:Hts; [|done]. destruct (base64.DecodeString sig) as [got|] eqn:Hg; [|done].
  case_bool_decide as Hs; cbn [negb] in Hv; [|done]. case_decide; [|done]. exists ts. split; [|done].
  exists tsStr, sig. by subst got.
Qed.

(** A minted token verifies as long as it is fresh, and only so long. *)
Lemma mint_verifies ttl raw t0 t1 tok :
  (∀ m, hmac key m ≠ [] ∧ Forall base64.byte (hmac key m)) →
  raw ≠ [] → (0 ≤ time.Unix t0 ≤ int64_max)%Z → mintToken hmac key (Ok raw) t0 = Ok tok →
  verifyToken hmac key ttl t1 tok =
    if decide (fresh ttl t1 (time.Unix t0)) then Ok (base64.EncodeToString raw) else Err errExpiredToken.
Proof.
  intros Hh Hraw Ht [= <-]. destruct (Itoa_digits (time.Unix t0)) as (Hd & _ & Hts); [lia|].
  rewrite verifyToken_parts; [|by apply EncodeToString_ne|done|apply EncodeToString_ne, Hh|
    apply base64_no_dot|by apply digits_no_dot].
  unfold verify_parts. rewrite Atoi_Itoa by lia. rewrite base64.DecodeString_EncodeToString by apply Hh.
  by rewrite bool_decide_eq_true_2.
Qed.
End tokens.

(** ** Paths *)

Definition no_slash : string → Prop := segment "/".
Definition plain (seg : string) : Prop := seg ≠ "" ∧ seg ≠ "." ∧ seg ≠ "..".

Lemma clean_plain rooted body acc : Forall plain body → foldl (path.clean_step rooted) acc body = rev body ++ acc.
Proof.
  revert acc. induction body as [|s l IH]; intros acc; [done|]. intros [(? & ? & ?) Hl]%Forall_cons. cbn [foldl].
  rewrite IH by done. unfold path.clean_step. rewrite decide_False by by intros [->| ->].
  rewrite decide_False by done. cbn [rev]. by rewrite <-app_assoc.
Qed.

Lemma clean_step_plain stack seg :
  no_slash seg → Forall (λ s, plain s ∧ no_slash s) stack →
  Forall (λ s, plain s ∧ no_slash s) (path.clean_step true stack seg).
Proof.
  intros Hn Hs. unfold path.clean_step. case_decide as H1; [done|]. case_decide as H2.
  - destruct Hs as [|top rest [(_ & _ & Ht) _] Hr]; [done|]. by rewrite decide_False.
  - constructor; [|done]. split; [|done]. unfold plain. naive_solver.
Qed.

Lemma clean_segments_plain p :
  strings.HasPrefix p "/" = true → Forall (λ s, plain s ∧ no_slash s) (rev (path.clean_segments p)).
Proof.
  intros Hp. apply Forall_rev. unfold path.clean_segments. rewrite Hp.
  pose proof (Split_segments "/" p) as Hs. revert Hs. generalize (Forall_nil_2 (λ s, plain s ∧ no_slash s)).
  generalize (@nil string). induction (strings.Split "/" p) as [|s l IH]; intros acc Ha; [done|].
  intros [? ?]%Forall_cons. cbn [foldl]. apply IH; [by apply clean_step_plain|done].
Qed.

(** Rooted, and no segment is empty, ["."] or [".."], but for one empty one at the end. *)
Definition canonical (p : string) : Prop :=
  ∃ body, Forall plain body ∧
    (strings.Split "/" p = "" :: body ++ [""] ∨ (body ≠ [] ∧ strings.Split "/" p = "" :: body)).

Lemma ends_slash_app x : ends_slash (x +:+ "/") = true.
Proof.
  unfold ends_slash. apply bool_decide_eq_true_2. induction x as [|c x IH]; [done|]. rewrite string_app_cons.
  assert (∀ y, String.length (y +:+ "/") = S (String.length y)) as Hl.
  { intros y. induction y as [|d y IHy]; [done|]. rewrite string_app_cons. cbn [String.length]. by rewrite IHy. }
  cbn [String.length]. rewrite Hl in *. cbn [Nat.sub] in *. rewrite Nat.sub_0_r in *. exact IH.
Qed.

Lemma Clean_rooted p body :
  strings.HasPrefix p "/" = true → path.clean_segments p = rev body →
  path.Clean p = strings.Join (if decide (body = []) then [""; ""] else "" :: body) "/".
Proof.
  intros Hp Hb. unfold path.Clean. rewrite Hp, Hb, rev_involutive. by destruct body.
Qed.

(** What the path guard lets through, of the rooted paths: the canonical ones. *)
Lemma isNonCanonicalPath_spec p :
  strings.HasPrefix p "/" = true → isNonCanonicalPath p = false ↔ canonical p.
Proof.
  intros Hp. assert (p ≠ "") as Hne by by intros ->. unfold isNonCanonicalPath. rewrite decide_False by done. split.
  - pose proof (clean_segments_plain p Hp) as Hf. set (body := rev (path.clean_segments p)) in Hf.
    assert (Forall plain body ∧ Forall no_slash body) as [Hpl Hns] by by apply Forall_and.
    assert (path.clean_segments p = rev body) as Hb by (unfold body; by rewrite rev_involutive).
    rewrite (Clean_rooted p body) by done. clearbody body. intros Hc. exists body. split; [done|].
    assert (Forall no_slash ["" : string]) as Hnil by by constructor. case_decide as H1.
    + case_decide as H2.
      * left. by rewrite <-H1, H2.
      * right. split; [done|]. rewrite <-H1. apply Split_Join; [done|by constructor].
    + case_decide as H2; [cbn in Hc; by rewrite andb_false_r in Hc|].
      left. apply negb_false_iff, andb_true_iff in Hc as [_ Hc%bool_decide_eq_true_1].
      change (strings.Join ("" :: body) "/" +:+ "/") with (strings.Join ("" :: body) "/" +:+ String "/" (strings.Join [""] "/")) in Hc.
      rewrite <-Join_app in Hc by done. rewrite <-Hc. apply Split_Join; [done|].
      constructor; [done|]. by apply Forall_app.
  - intros (body & Hpl & Hs).
    assert (path.clean_segments p = rev body) as Hb.
    { unfold path.clean_segments. rewrite Hp. destruct Hs as [-> | [_ ->]]; cbn [foldl].
      - rewrite foldl_app, (clean_plain _ body) by done. cbn [foldl]. unfold path.clean_step. cbn. by rewrite app_nil_r.
      - rewrite (clean_plain _ body) by done. cbn. by rewrite app_nil_r. }
    rewrite (Clean_rooted p body) by done. destruct Hs as [Hs | [Hbn Hs]].
    + rewrite <-(Join_Split "/" p), Hs. destruct body as [|s l]; [done|].
      rewrite (decide_False (P := s :: l = [])) by done.
      change ("" :: (s :: l) ++ [""]) with (("" :: s :: l) ++ [""]). rewrite (Join_app "/" ("" :: s :: l) [""]) by done.
      assert (strings.Join ("" :: s :: l) "/" ≠ "/") as Hj.
      { apply Forall_cons in Hpl as [[Hs0 _] _]. cbn. by destruct s, l. }
      case_decide; [done|]. rewrite ends_slash_app, (bool_decide_eq_false_2 _ Hj). by rewrite bool_decide_eq_true_2.
    + rewrite (decide_False (P := body = [])) by done. rewrite <-Hs, Join_Split. by rewrite decide_True.
Qed.

(** ** The guard *)

Section guard.
Context (hmac : string → string → list Z).
Context (ParseMultipart : option Z → string → string → option (list (string * string))).
Context (key : string) (cfg : Options).
Let verifyRequest := verifyRequest hmac ParseMultipart key cfg.

(** The token a request presents: the header's, else the form's. *)
Definition presented (r : CsrfRequest) : string :=
  let h := header_get (CanonicalHeaderKey (HeaderName cfg)) (q_Header r) in
  if decide (h = "") then (tokenFromForm ParseMultipart cfg r).1 else h.

(** Double submit: the token presented is the cookie's, signed with this key, fresh. *)
Definition double_submit (now : Time) (r : CsrfRequest) : Prop :=
  ∃ tok id ts, q_Cookie r (CookieName cfg) = Some tok ∧ presented r = tok ∧
    signed hmac key tok id ts ∧ fresh (TTL cfg) now ts.

Lemma verifyRequest_none now r r' : verifyRequest now r = (None, r') → double_submit now r.
Proof.
  unfold verifyRequest, Csrf.verifyRequest, double_submit, presented.
  destruct (q_Cookie r _) as [c|]; [|done]. destruct (decide (c = "")) as [->|Hc]; [done|].
  set (h := header_get _ _). intros H.
  assert (∃ id, verifyToken hmac key (TTL cfg) now c = Ok id ∧
    (if decide (h = "") then (tokenFromForm ParseMultipart cfg r).1 else h) = c) as (id & Hv & Hp).
  { destruct c as [|x c]; [done|]. destruct (tokenFromForm ParseMultipart cfg r) as [t r0].
    case_decide as Hh; cbn; (case_decide; [done|]);
      (destruct (verifyToken _ _ _ _ _) eqn:Hv; [|done]); (case_decide as Heq; [|done]); rewrite <-Heq; eauto. }
  apply verifyToken_signed in Hv as (ts & ? & ?). by exists c, id, ts.
Qed.

(** The request reaches the handler unchanged but for its body, which only a form's loses. *)
Lemma verifyRequest_request now r e r' :
  verifyRequest now r = (e, r') → r' = set_body (q_Body r') r.
Proof.
  assert (r = set_body (q_Body r) r) as Hr by by destruct r.
  unfold verifyRequest, Csrf.verifyRequest, tokenFromForm. repeat case_match; intros; simplify_eq; try done;
    by destruct r.
Qed.

Definition guarded (r : CsrfRequest) : Prop :=
  isSkippedPath (q_Path r) (SkipPaths cfg) = false ∧ safeMethod (q_Method r) = false.

(** ** A GET, then a POST *)

(** The request of a page that read its cookie into the header. *)
Definition echoes (tok : string) (r : CsrfRequest) : Prop :=
  q_Cookie r (CookieName cfg) = Some tok ∧ header_get (CanonicalHeaderKey (HeaderName cfg)) (q_Header r) = tok.

Lemma ensureCookie_minted random now r ck :
  ensureCookie hmac key cfg random now r = Some ck →
  ∃ raw, random = Ok raw ∧ mintToken hmac key (Ok raw) now = Ok (k_Value ck) ∧ k_Name ck = CookieName cfg.
Proof.
  unfold ensureCookie, mintToken. destruct random as [raw|e]; intros H.
  - exists raw. repeat case_match; simplify_eq; done.
  - repeat case_match; simplify_eq; done.
Qed.

Lemma echo_passes now tok id r :
  tok ≠ "" → verifyToken hmac key (TTL cfg) now tok = Ok id → echoes tok r → verifyRequest now r = (None, r).
Proof.
  intros Hne Hv [Hc Hh]. unfold verifyRequest, Csrf.verifyRequest. rewrite Hc, Hh.
  destruct tok as [|c tok]; [done|]. rewrite !decide_False by done. rewrite Hv. by rewrite decide_True.
Qed.

(** The cookie the middleware set on one response, sent back with its header while it
    is fresh, lets a state-changing request through to its handler. *)
Theorem get_then_post {S} (next : csrf_handler S) raw random t0 t1 get post ck (s : S) w :
  (∀ m, hmac key m ≠ [] ∧ Forall base64.byte (hmac key m)) →
  List.length raw = cookieIDBytes → (0 ≤ time.Unix t0 ≤ int64_max)%Z → fresh (TTL cfg) t1 (time.Unix t0) →
  ensureCookie hmac key cfg (Ok raw) t0 get = Some ck → echoes (k_Value ck) post →
  isNonCanonicalPath (q_Path post) = false → guarded post →
  Middleware hmac ParseMultipart key cfg next random t1 s post w = next s post None w.
Proof.
  intros Hh Hraw Ht Hf Hc He Hp [Hk Hm]. apply ensureCookie_minted in Hc as (raw' & [= <-] & Hmint & _).
  assert (raw ≠ []) as Hne by by intros ->.
  pose proof (mint_verifies hmac key (TTL cfg) raw t0 t1 _ Hh Hne Ht Hmint) as Hv. rewrite decide_True in Hv by done.
  assert (k_Value ck ≠ "") as Htok by by intros E; rewrite E in Hv.
  unfold Middleware. rewrite Hp, Hk, Hm. pose proof (echo_passes t1 _ _ post Htok Hv He) as Hq.
  unfold verifyRequest in Hq. by rewrite Hq.
Qed.
End guard.

(** C31. The CSRF middleware in front of any handler: the handler runs once or not at
    all. A path that is not canonical is refused with 400, and a state-changing request
    off the exempt paths without a double-submitted, signed and fresh token with 403,
    in both cases with the handler's state untouched; what the handler gets otherwise
    is the request itself, all but the body of a form, on a path that climbs nowhere. *)
Theorem csrf_guarded hmac ParseMultipart key cfg {S} (next : csrf_handler S) random now (s : S) r w s' w' :
  Middleware hmac ParseMultipart key cfg next random now s r w = (s', w') →
  (isNonCanonicalPath (q_Path r) = true ∧ s' = s ∧ w' = HttpError "Bad Request" 400 w) ∨
  (guarded cfg r ∧ s' = s ∧ w' = HttpError "Forbidden" 403 w) ∨
  (∃ b ck, (s', w') = next s (set_body b r) ck w ∧
     (strings.HasPrefix (q_Path r) "/" = true → canonical (q_Path r)) ∧
     (guarded cfg r → double_submit hmac ParseMultipart key cfg now r)).
Proof.
  assert (r = set_body (q_Body r) r) as Hr by by destruct r.
  unfold Middleware. destruct (isNonCanonicalPath _) eqn:Hp; [intros [= <- <-]; by left|]. intros H. right. revert H.
  assert (strings.HasPrefix (q_Path r) "/" = true → canonical (q_Path r)) as Hcan.
  { intros Hroot. by apply isNonCanonicalPath_spec. }
  destruct (isSkippedPath _ _) eqn:Hk; [|destruct (safeMethod _) eqn:Hm].
  - intros <-. right. eexists (q_Body r), _. rewrite <-Hr. split; [done|]. split; [done|]. by intros [? ?]; congruence.
  - intros <-. right. eexists (q_Body r), _. rewrite <-Hr. split; [done|]. split; [done|]. by intros [? ?]; congruence.
  - destruct (verifyRequest _ _ _ _ _ _) as [[e|] r'] eqn:Hv; [intros [= <- <-]; by left|]. intros <-. right.
    exists (q_Body r'), None. rewrite <-(verifyRequest_request _ _ _ _ _ _ _ _ Hv). split; [done|]. split; [done|].
    intros _. by eapply verifyRequest_none.
Qed.

(** ** A run *)

Module demo.
(** A keyed checksum in place of the HMAC, and no multipart forms. *)
Definition mac (k m : string) : list Z := [Z.of_nat (String.length k + String.length m) mod 256; 7]%Z.
Definition no_multipart (_ : option Z) (_ _ : string) : option (list (string * string)) := None.
Definition key : string := "0123456789abcdef".
Definition cfg : Options := with_defaults (mkOptions 0 "" "" "" ["/webhooks/"] false 0).
Definition count : csrf_handler nat := λ s _ _ w, (S s, w).
Definition request (m p : string) (cookie : option string) (h : Header) (body : string) : CsrfRequest :=
  mkCsrfRequest m p false h (λ n, if decide (n = "csrf") then cookie else None) body "".
Definition t0 : Time := time.FromUnix 1700000000.
Definition raw : list Z := [1; 2; 3]%Z.
Definition tok : string := match mintToken mac key (Ok raw) t0 with Ok t => t | Err _ => "" end.
Definition run (now : Time) (r : CsrfRequest) : nat * Z :=
  let '(n, w) := Middleware mac no_multipart key cfg count (Err "dry") now 0 r (mkWriter ∅ None "") in
  (n, match wire w with Some (code, _) => code | None => 200%Z end).
Definition form (body : string) : CsrfRequest :=
  request "POST" "/admin/users" (Some tok) {["Content-Type" := "application/x-www-form-urlencoded; charset=utf-8"]} body.
End demo.

Definition demo_header (tok : string) : Header := {["X-Csrf-Token" := tok]}.
Definition demo_post (p : string) : CsrfRequest := demo.request "POST" p (Some demo.tok) (demo_header demo.tok) "".

Example echo_in_time : demo.run (demo.t0 + 60 * minute) (demo_post "/admin/users") = (1, 200%Z).
Proof. by vm_compute. Qed.
Example echo_too_late : demo.run (demo.t0 + 60 * minute + 1) (demo_post "/admin/users") = (0, 403%Z).
Proof. by vm_compute. Qed.
Example cookie_alone : demo.run demo.t0 (demo.request "POST" "/admin/users" (Some demo.tok) ∅ "") = (0, 403%Z).
Proof. by vm_compute. Qed.
Example token_in_form :
  demo.run demo.t0 (demo.form ("name=a%20b&csrf_token=" +:+ demo.tok)) = (1, 200%Z) ∧
  demo.run demo.t0 (demo.form ("name=%zz&csrf_token=" +:+ demo.tok)) = (0, 403%Z).
Proof. by vm_compute. Qed.
Example exempt_and_climbing :
  demo.run demo.t0 (demo.request "POST" "/webhooks/stripe" None ∅ "") = (1, 200%Z) ∧
  demo.run demo.t0 (demo_post "/webhooks/../admin/users") = (0, 400%Z).
Proof. by vm_compute. Qed.

(** A token that is still fresh is not refreshed by a GET: a page opened now may hold
    one with no time left. *)
Example get_keeps_cookie :
  ensureCookie demo.mac demo.key demo.cfg (Ok [9%Z]) (demo.t0 + 60 * minute)
    (demo.request "GET" "/" (Some demo.tok) ∅ "") = None.
Proof. by vm_compute. Qed.

(** The token of a multipart form may stand in the query. *)
Example token_in_query :
  let r := mkCsrfRequest "POST" "/media" false {["Content-Type" := "multipart/form-data; boundary=x"]}
             (λ _, Some demo.tok) "" ("csrf_token=" +:+ demo.tok) in
  (Middleware demo.mac (λ _ _ _, Some []) demo.key demo.cfg demo.count (Err "dry") demo.t0 0 r (mkWriter ∅ None "")).1 = 1.
Proof. by vm_compute. Qed.

Lemma csrf_guarded_witness :
  ∃ b ck, (1, mkWriter ∅ None "") = demo.count 0 (set_body b (demo_post "/admin/users")) ck (mkWriter ∅ None "") ∧
    canonical "/admin/users" ∧ double_submit demo.mac demo.no_multipart demo.key demo.cfg demo.t0 (demo_post "/admin/users").
Proof.
  destruct (csrf_guarded demo.mac demo.no_multipart demo.key demo.cfg demo.count (Err "dry") demo.t0 0
    (demo_post "/admin/users") (mkWriter ∅ None "") 1 (mkWriter ∅ None "") ltac:(vm_compute; reflexivity))
    as [(_ & Hs & _) | [(_ & Hs & _) | (b & ck & He & Hc & Hd)]]; [discriminate Hs|discriminate Hs|].
  exists b, ck. split; [exact He|]. split; [apply Hc; reflexivity|]. apply Hd. split; vm_compute; reflexivity.
Defined.
