(* ===== verification/Collections.v ===== *)
(** * Media folders (packages/go/media/collections, apps/api/internal/admin/media/collections.go)

    The folder tree kept twice, as parent ids and as dotted paths: the in-memory store
    (the one the server wires) with every operation, and the handlers above it. Clock
    and id generator are inputs of the operations; the order in which a Go map is
    visited is an input where the answer shows it. Texts are ASCII. *)
From S2P Require Import Prelude GoStrings Policy.
From Stdlib Require Import Ascii.

(** ** model.go *)

Definition MaxNameBytes : nat := 256.
Definition MaxSlugBytes : nat := 64.
Definition MaxDepth : nat := 12.

Inductive coll_error := ErrNotFound | ErrSlugConflict | ErrInvalidSlug | ErrInvalidName | ErrCycle | ErrTooDeep.
#[export] Instance coll_error_eq_dec : EqDecision coll_error.
Proof. solve_decision. Defined.

Record Collection := mkCollection {
  c_ID : string; c_Slug : string; c_Name : string; c_Path : string;
  c_ParentID : option string; c_CreatedAt : Time; c_UpdatedAt : Time }.

(** [strings.Count(s, c)] for one byte. *)
Fixpoint count_byte (c : ascii) (s : string) : nat :=
  match s with
  | EmptyString => 0
  | String d s => (if decide (d = c) then 1 else 0) + count_byte c s
  end.

Definition Depth (c : Collection) : nat := if decide (c_Path c = "") then 0 else count_byte "." (c_Path c).

Definition slug_first (c : ascii) : bool := is_digit c || (("a" <=? c)%char && (c <=? "z")%char).
Definition slug_char (c : ascii) : bool := slug_first c || bool_decide (c = "_"%char) || bool_decide (c = "-"%char).
Definition slugPattern (s : string) : bool :=
  match s with String c s => slug_first c && all_chars slug_char s | EmptyString => false end.

Definition validateSlug (s : string) : option coll_error :=
  if bool_decide (s = "") || (MaxSlugBytes <? String.length s) then Some ErrInvalidSlug
  else if negb (slugPattern s) then Some ErrInvalidSlug
  else None.

Definition validateName (n : string) : option coll_error :=
  let n := strings.TrimSpace n in
  if bool_decide (n = "") || (MaxNameBytes <? String.length n) then Some ErrInvalidName else None.

Record CreateInput := mkCreateInput { ci_Slug : string; ci_Name : string; ci_ParentID : option string }.
Record UpdateInput := mkUpdateInput { ui_Slug : option string; ui_Name : option string }.

(** ** store_memory.go *)

(** [strings.LastIndex] of one byte; nothing for -1. *)
Fixpoint LastIndex (c : ascii) (s : string) : option nat :=
  match s with
  | EmptyString => None
  | String d s =>
      match LastIndex c s with
      | Some n => Some (S n)
      | None => if decide (d = c) then Some 0 else None
      end
  end.

(** [strings.EqualFold] on ASCII. *)
Definition EqualFold (s t : string) : bool := bool_decide (strings.ToLower s = strings.ToLower t).

(** [path] is [at_] or lies below it. *)
Definition below (at_ path : string) : bool := bool_decide (path = at_) || strings.HasPrefix path (at_ +:+ ".").

Definition rows_any (P : Collection → bool) (m : gmap string Collection) : bool := existsb P (map_to_list m).*2.

Definition set_path (p : string) (now : Time) (r : Collection) : Collection :=
  mkCollection (c_ID r) (c_Slug r) (c_Name r) p (c_ParentID r) (c_CreatedAt r) now.

(** The prefix [old] of the path replaced by [new]. *)
Definition rewrite_path (old new : string) (now : Time) (r : Collection) : Collection :=
  set_path (new +:+ strings.drop (String.length old) (c_Path r)) now r.

Section store.
Context (now : Time).

Definition Create (id : string) (i : CreateInput) (m : gmap string Collection)
    : result coll_error (Collection * gmap string Collection) :=
  match validateSlug (ci_Slug i), validateName (ci_Name i) with
  | Some e, _ => Err e
  | None, Some e => Err e
  | None, None =>
      let parent :=
        match ci_ParentID i with
        | None => Ok ""
        | Some p =>
            match m !! p with
            | None => Err ErrNotFound
            | Some parent => if MaxDepth - 1 <=? Depth parent then Err ErrTooDeep else Ok (c_Path parent)
            end
        end in
      match parent with
      | Err e => Err e
      | Ok parentPath =>
          if rows_any (λ row, bool_decide (c_ParentID row = ci_ParentID i) && EqualFold (c_Slug row) (ci_Slug i)) m
          then Err ErrSlugConflict
          else
            let path := if decide (parentPath = "") then ci_Slug i else parentPath +:+ "." +:+ ci_Slug i in
            let row := mkCollection id (ci_Slug i) (strings.TrimSpace (ci_Name i)) path (ci_ParentID i) now now in
            Ok (row, <[id := row]> m)
      end
  end.

Definition GetByID (id : string) (m : gmap string Collection) : result coll_error Collection :=
  match m !! id with Some row => Ok row | None => Err ErrNotFound end.

(** [visit]: the rows in the order the range over the map meets them. *)
Definition GetByPath (visit : list Collection) (path : string) : result coll_error Collection :=
  match filter (λ row, c_Path row = path) visit with row :: _ => Ok row | [] => Err ErrNotFound end.
Definition path_lt (a b : Collection) : bool := String.ltb (c_Path a) (c_Path b).
Definition name_lt (a b : Collection) : bool := String.ltb (c_Name a) (c_Name b).
Definition List (visit : list Collection) : list Collection := sort_by path_lt visit.
Definition Children (visit : list Collection) (parentID : option string) : list Collection :=
  sort_by name_lt (filter (λ row, c_ParentID row = parentID) visit).
Definition Descendants (visit : list Collection) (path : string) : list Collection :=
  sort_by path_lt (filter (λ row, path = "" ∨ below path (c_Path row) = true) visit).

(** Both fields absent: the zero Collection and no error, whatever the id. *)
Definition zero_collection : Collection := mkCollection "" "" "" "" None time_zero time_zero.

Definition Rename (id : string) (i : UpdateInput) (m : gmap string Collection)
    : result coll_error (Collection * gmap string Collection) :=
  if decide (ui_Slug i = None ∧ ui_Name i = None) then Ok (zero_collection, m)
  else
    match ui_Slug i ≫= validateSlug, ui_Name i ≫= validateName with
    | Some e, _ => Err e
    | None, Some e => Err e
    | None, None =>
        match m !! id with
        | None => Err ErrNotFound
        | Some row =>
            let oldPath := c_Path row in
            let newSlug := default (c_Slug row) (ui_Slug i) in
            let changed := negb (bool_decide (newSlug = c_Slug row)) in
            if changed && rows_any (λ other, negb (bool_decide (c_ID other = c_ID row))
                 && bool_decide (c_ParentID other = c_ParentID row) && EqualFold (c_Slug other) newSlug) m
            then Err ErrSlugConflict
            else
              let newPath :=
                if negb changed then oldPath
                else if strings.Contains oldPath "."
                then String.substring 0 (default 0 (LastIndex "." oldPath)) oldPath +:+ "." +:+ newSlug
                else newSlug in
              let m' :=
                if decide (newPath = oldPath) then m
                else (λ other, if below oldPath (c_Path other) then rewrite_path oldPath newPath now other else other) <$> m in
              let row' := default row (m' !! id) in
              let row'' := mkCollection (c_ID row') newSlug
                             (match ui_Name i with Some n => strings.TrimSpace n | None => c_Name row' end)
                             (c_Path row') (c_ParentID row') (c_CreatedAt row') now in
              Ok (row'', <[id := row'']> m')
        end
    end.

Definition Move (id : string) (newParent : option string) (m : gmap string Collection)
    : result coll_error (Collection * gmap string Collection) :=
  match m !! id with
  | None => Err ErrNotFound
  | Some row =>
      let oldPath := c_Path row in
      let cyclic :=
        match newParent with
        | None => false
        | Some p => bool_decide (p = c_ID row)
                    || rows_any (λ other, below oldPath (c_Path other) && bool_decide (c_ID other = p)) m
        end in
      if cyclic then Err ErrCycle
      else
        let parent :=
          match newParent with
          | None => Ok ("", 0)
          | Some p => match m !! p with
                      | None => Err ErrNotFound
                      | Some parent => Ok (c_Path parent, S (Depth parent))
                      end
          end in
        match parent with
        | Err e => Err e
        | Ok (newParentPath, newParentDepth) =>
            if rows_any (λ other, below oldPath (c_Path other)
                 && (MaxDepth - 1 <? newParentDepth + (Depth other - Depth row))) m then Err ErrTooDeep
            else if rows_any (λ other, negb (bool_decide (c_ID other = c_ID row))
                 && bool_decide (c_ParentID other = newParent) && EqualFold (c_Slug other) (c_Slug row)) m
            then Err ErrSlugConflict
            else
              let newPath := if decide (newParentPath = "") then c_Slug row else newParentPath +:+ "." +:+ c_Slug row in
              let m' := (λ other, if negb (bool_decide (c_ID other = c_ID row)) && below oldPath (c_Path other)
                                  then rewrite_path oldPath newPath now other else other) <$> m in
              let row' := mkCollection (c_ID row) (c_Slug row) (c_Name row) newPath newParent (c_CreatedAt row) now in
              Ok (row', <[id := row']> m')
        end
  end.

Definition Delete (id : string) (m : gmap string Collection) : result coll_error (gmap string Collection) :=
  match m !! id with
  | None => Err ErrNotFound
  | Some row => Ok (filter (λ kv, below (c_Path row) (c_Path kv.2) = false) m)
  end.
End store.

(** ** The handlers *)

(** The media row as far as folders go (admin/media/store_memory.go). *)
Record Asset := mkAsset { a_CollectionID : option string; a_UpdatedAt : Time; a_deleted : bool }.

Record library := mkLibrary { folders : gmap string Collection; assets : gmap string Asset }.

Definition SetCollection (now : Time) (id : string) (collectionID : option string) (m : gmap string Asset)
    : result coll_error (gmap string Asset) :=
  match m !! id with
  | None => Err ErrNotFound
  | Some row => if a_deleted row then Err ErrNotFound else Ok (<[id := mkAsset collectionID now false]> m)
  end.

Inductive payload :=
| PList (l : list Collection)
| PCollection (c : Collection)
| PMoved (moved : nat) (failed : gmap string string).
Inductive c_answer :=
| WriteJSON (status : Z) (p : payload)
| WriteError (status : Z) (code detail : string)
| NoContent.

Definition writeCollectionError (e : coll_error) : c_answer :=
  match e with
  | ErrNotFound => WriteError 404 "not_found" "collection not found"
  | ErrSlugConflict => WriteError 409 "slug_conflict" "slug conflicts with a sibling"
  | ErrInvalidSlug => WriteError 400 "invalid_slug" "slug is invalid"
  | ErrInvalidName => WriteError 400 "invalid_name" "name is invalid"
  | ErrCycle => WriteError 400 "cycle" "move would create a cycle"
  | ErrTooDeep => WriteError 400 "too_deep" "collection depth exceeds maximum"
  end.

Definition set_folders (l : library) (m : gmap string Collection) : library := mkLibrary m (assets l).

Record updateBody := mkUpdateBody {
  ub_Slug : option string; ub_Name : option string; ub_ParentID : option string; ub_MoveParent : bool }.
Record moveMediaBody := mkMoveMediaBody { mb_IDs : list string; mb_CollectionID : option string }.

Definition MaxBulkSize : nat := 500.

(** Bodies come decoded, or with the decoder's error. *)
Section handlers.
Context (now : Time).

Definition bad_body (e : string) : c_answer := WriteError 400 "invalid_body" ("could not parse json: " +:+ e).

Definition list_ (visit : list Collection) (l : library) : c_answer * library := (WriteJSON 200 (PList (List visit)), l).

Definition create (id : string) (body : result string CreateInput) (l : library) : c_answer * library :=
  match body with
  | Err e => (bad_body e, l)
  | Ok b =>
      match Create now id b (folders l) with
      | Err e => (writeCollectionError e, l)
      | Ok (c, m) => (WriteJSON 201 (PCollection c), set_folders l m)
      end
  end.

Definition missing_id : c_answer := WriteError 400 "missing_id" "collection id is required".

Definition get (id : string) (l : library) : c_answer * library :=
  if decide (id = "") then (missing_id, l)
  else match GetByID id (folders l) with
       | Err e => (writeCollectionError e, l)
       | Ok c => (WriteJSON 200 (PCollection c), l)
       end.

Definition update (id : string) (body : result string updateBody) (l : library) : c_answer * library :=
  if decide (id = "") then (missing_id, l)
  else
    match body with
    | Err e => (bad_body e, l)
    | Ok b =>
        if decide (ub_Slug b = None ∧ ub_Name b = None ∧ ub_MoveParent b = false)
        then (WriteError 400 "empty_update" "supply slug, name, or move_parent", l)
        else
          let moved :=
            if ub_MoveParent b then
              match Move now id (ub_ParentID b) (folders l) with
              | Err e => Err e
              | Ok (_, m) => Ok (set_folders l m)
              end
            else Ok l in
          match moved with
          | Err e => (writeCollectionError e, l)
          | Ok l =>
              if decide (ub_Slug b = None ∧ ub_Name b = None) then
                match GetByID id (folders l) with
                | Err e => (writeCollectionError e, l)
                | Ok c => (WriteJSON 200 (PCollection c), l)
                end
              else
                match Rename now id (mkUpdateInput (ub_Slug b) (ub_Name b)) (folders l) with
                | Err e => (writeCollectionError e, l)
                | Ok (c, m) => (WriteJSON 200 (PCollection c), set_folders l m)
                end
          end
    end.

Definition delete (id : string) (l : library) : c_answer * library :=
  if decide (id = "") then (missing_id, l)
  else match Delete id (folders l) with
       | Err e => (writeCollectionError e, l)
       | Ok m => (NoContent, set_folders l m)
       end.

Fixpoint move_loop (ids : list string) (target : option string) (moved : nat) (failed : gmap string string)
    (m : gmap string Asset) : nat * gmap string string * gmap string Asset :=
  match ids with
  | [] => (moved, failed, m)
  | id :: ids =>
      match SetCollection now id target m with
      | Err _ => move_loop ids target moved (<[id := "not_found"]> failed) m
      | Ok m => move_loop ids target (S moved) failed m
      end
  end.

Definition moveMedia (body : result string moveMediaBody) (l : library) : c_answer * library :=
  match body with
  | Err e => (bad_body e, l)
  | Ok b =>
      if decide (mb_IDs b = []) then (WriteError 400 "empty_ids" "ids must be non-empty", l)
      else if MaxBulkSize <? length (mb_IDs b) then (WriteError 400 "too_many_ids" "ids exceeds bulk size limit", l)
      else
        let missing := match mb_CollectionID b with
                       | Some c => negb (is_ok (GetByID c (folders l)))
                       | None => false
                       end in
        if missing then (WriteError 404 "collection_not_found" "target collection not found", l)
        else
          let '(moved, failed, m) := move_loop (mb_IDs b) (mb_CollectionID b) 0 ∅ (assets l) in
          (WriteJSON 200 (PMoved moved failed), mkLibrary (folders l) m)
  end.
End handlers.

(** [gate]: the principal of the context, if any, and the policy. *)
Definition gate (roleCaps : gmap string (gset string)) (cap : Capability)
    (next : library → c_answer * library) (principal : option Principal) (l : library) : c_answer * library :=
  match principal with
  | None => (WriteError 401 "unauthenticated" "authentication required", l)
  | Some p =>
      let d := Can roleCaps p cap in
      if Allowed d then next l else (WriteError 403 "forbidden" (Reason d), l)
  end.

(** [MountCollections]: the route of a request, its capability and its handler. *)
Inductive c_request :=
| GetList (visit : list Collection)
| PostCreate (id : string) (body : result string CreateInput)
| GetOne (id : string)
| PutUpdate (id : string) (body : result string updateBody)
| DeleteOne (id : string)
| PostMove (body : result string moveMediaBody).

Definition route (now : Time) (r : c_request) : Capability * (library → c_answer * library) :=
  match r with
  | GetList visit => (CapMediaRead, list_ visit)
  | PostCreate id body => (CapMediaUpload, create now id body)
  | GetOne id => (CapMediaRead, get id)
  | PutUpdate id body => (CapMediaUpload, update now id body)
  | DeleteOne id => (CapMediaDelete, delete id)
  | PostMove body => (CapMediaUpload, moveMedia now body)
  end.

Definition handle (roleCaps : gmap string (gset string)) (now : Time) (principal : option Principal) (r : c_request)
    (l : library) : c_answer * library := let '(cap, next) := route now r in gate roleCaps cap next principal l.
