(* ===== verification/CollectionsProps.v ===== *)
(** * Media folders, proved

    The two encodings of the tree agree: a store reached by any operations is a forest
    of parent ids whose paths are the slugs along them, so the prefix tests on paths are
    the subtree tests. Each operation is one on the forest, and fails for reasons of the
    forest alone. *)
From S2P Require Import Prelude GoStrings Segments Policy Collections.
From Stdlib Require Import Ascii.

Abbreviation segs := (strings.Split ".").

(** ** Paths as segments *)

Lemma slug_char_lower c : slug_char c = true → strings.lower c = c ∧ not_char "." c = true.
Proof. destruct c as [[] [] [] [] [] [] [] []]; vm_compute; (done || by intros [=]). Qed.

Lemma slug_chars s : validateSlug s = None → all_chars slug_char s = true ∧ s ≠ "".
Proof.
  unfold validateSlug. destruct (_ || _) eqn:H; [done|]. destruct (slugPattern s) eqn:Hp; [|done]. intros _.
  apply orb_false_iff in H as [H%bool_decide_eq_false_1 _]. split; [|done]. destruct s as [|c s]; [done|].
  cbn in Hp |- *. apply andb_true_iff in Hp as [Hc ->]. unfold slug_char. by rewrite Hc.
Qed.

Lemma slug_segment s : validateSlug s = None → segment "." s.
Proof. intros [H _]%slug_chars. revert H. apply all_chars_impl. by intros c [_ ?]%slug_char_lower. Qed.

Lemma slug_ToLower s : validateSlug s = None → strings.ToLower s = s.
Proof.
  intros [H _]%slug_chars. induction s as [|c s IH]; [done|]. cbn in *. apply andb_true_iff in H as [[-> _]%slug_char_lower ?].
  by rewrite IH.
Qed.

Lemma EqualFold_slugs s t : validateSlug s = None → validateSlug t = None → EqualFold s t = true ↔ s = t.
Proof. intros Hs Ht. unfold EqualFold. rewrite !slug_ToLower by done. by rewrite bool_decide_eq_true. Qed.

Lemma HasPrefix_split s p : strings.HasPrefix s p = true → ∃ t, s = p +:+ t.
Proof.
  revert s. induction p as [|a p IH]; intros s; [by exists s|]. destruct s as [|b s]; [done|]. cbn.
  intros [->%bool_decide_eq_true_1 [t ->]%IH]%andb_true_iff. by exists t.
Qed.

Lemma below_cases a p : below a p = true ↔ p = a ∨ ∃ t, p = a +:+ String "." t.
Proof.
  unfold below. rewrite orb_true_iff, bool_decide_eq_true. apply or_iff_compat_l. split.
  - intros [t ->]%HasPrefix_split. exists t. by rewrite string_app_assoc.
  - intros [t ->]. change (String "." t) with ("." +:+ t). rewrite <-string_app_assoc. apply HasPrefix_app.
Qed.

Lemma below_segs a p : below a p = true ↔ segs a `prefix_of` segs p.
Proof.
  rewrite below_cases. split.
  - intros [->|[t ->]]; [done|]. rewrite Split_app_sep. by exists (segs t).
  - intros [k Hk]. destruct k as [|s k]; [left; by apply (Split_inj "."); rewrite Hk, app_nil_r|]. right.
    exists (strings.Join (s :: k) "."). rewrite <-(Join_Split "." p), Hk.
    rewrite (Join_app "." (segs a) (s :: k)) by (apply Split_ne || done). by rewrite (Join_Split "." a).
Qed.

Lemma segs_rewritten a b p :
  below a p = true → segs (b +:+ strings.drop (String.length a) p) = segs b ++ drop (length (segs a)) (segs p).
Proof.
  intros [->|[t ->]]%below_cases.
  - replace (strings.drop (String.length a) a) with "".
    + rewrite string_app_nil_r, drop_all. by rewrite app_nil_r.
    + pose proof (strings_drop_app a "") as H. by rewrite string_app_nil_r in H.
  - rewrite strings_drop_app, !Split_app_sep. by rewrite drop_app_length.
Qed.

Lemma count_segs p : S (count_byte "." p) = length (segs p).
Proof.
  induction p as [|c p IH]; [done|]. cbn. case_decide; cbn; [by rewrite IH|].
  pose proof (Split_ne "." p). destruct (segs p); [done|]. cbn in *. lia.
Qed.

Lemma Depth_segs r : S (Depth r) = length (segs (c_Path r)).
Proof. unfold Depth. case_decide as E; [by rewrite E|apply count_segs]. Qed.

Lemma LastIndex_none s : segment "." s → LastIndex "." s = None.
Proof.
  unfold segment. induction s as [|c s IH]; [done|]. cbn. intros [Hc Hs]%andb_true_iff. rewrite IH by done.
  unfold not_char in Hc. case_decide as E; [|done]. by rewrite bool_decide_eq_true_2 in Hc.
Qed.

Lemma LastIndex_app p s : segment "." s → LastIndex "." (p +:+ String "." s) = Some (String.length p).
Proof.
  intros Hs. induction p as [|c p IH].
  - rewrite string_app_nil_l. cbn [LastIndex]. by rewrite LastIndex_none.
  - rewrite string_app_cons. cbn [LastIndex]. by rewrite IH.
Qed.

Lemma Contains_dot_app p s : strings.Contains (p +:+ String "." s) "." = true.
Proof.
  induction p as [|c p IH].
  - rewrite string_app_nil_l. cbn. by destruct s.
  - rewrite string_app_cons. cbn [strings.Contains]. rewrite IH. apply orb_true_r.
Qed.

Lemma Contains_dot_none s : segment "." s → strings.Contains s "." = false.
Proof.
  unfold segment. induction s as [|c s IH]; [done|]. cbn. intros [Hc Hs]%andb_true_iff. rewrite IH by done.
  unfold not_char in Hc. destruct (bool_decide_reflect (c = "."%char)) as [->|E]; [done|].
  rewrite bool_decide_eq_false_2 by congruence. done.
Qed.

(** The path with its last segment replaced, as [Rename] computes it. *)
Definition renamed_path (p s : string) : string :=
  if strings.Contains p "." then String.substring 0 (default 0 (LastIndex "." p)) p +:+ "." +:+ s else s.

Lemma renamed_segs p q s t : segs p = q ++ [s] → segment "." t → segs (renamed_path p t) = q ++ [t].
Proof.
  intros Hp Ht. pose proof (Split_segments "." p) as Hall. rewrite Hp in Hall.
  apply Forall_app in Hall as [Hq Hs]. apply Forall_inv in Hs.
  assert (p = strings.Join (q ++ [s]) ".") as -> by by rewrite <-Hp, Join_Split. clear Hp. unfold renamed_path.
  destruct q as [|u q].
  - cbn [app strings.Join]. rewrite Contains_dot_none by done. by apply Split_segment.
  - rewrite (Join_app "." (u :: q) [s]) by done. generalize (Split_Join "." (u :: q) ltac:(done) Hq).
    generalize (strings.Join (u :: q) "."). cbn [strings.Join]. intros P HP.
    rewrite Contains_dot_app, LastIndex_app by done. cbn [default from_option id].
    rewrite substring_0_app. change ("." +:+ t) with (String "." t). rewrite Split_app_sep, (Split_segment "." t) by done.
    by rewrite HP.
Qed.

(** ** The forest of parent ids *)

Record node := mkNode { n_slug : string; n_name : string; n_parent : option string }.
Definition node_of (r : Collection) : node := mkNode (c_Slug r) (c_Name r) (c_ParentID r).
Definition forest_of (m : gmap string Collection) : gmap string node := node_of <$> m.

(** [x] is [a] or a descendant of it. *)
Inductive under (f : gmap string node) (a : string) : string → Prop :=
| under_refl : under f a a
| under_child x p n : f !! x = Some n → n_parent n = Some p → under f a p → under f a x.

(** The slugs from the root down. *)
Inductive slugs (f : gmap string node) : string → list string → Prop :=
| slugs_root x n : f !! x = Some n → n_parent n = None → slugs f x [n_slug n]
| slugs_child x n p l : f !! x = Some n → n_parent n = Some p → slugs f p l → slugs f x (l ++ [n_slug n]).

(** The tree invariant: both encodings agree, siblings differ, the depth is bounded. *)
Record tree_ok (m : gmap string Collection) : Prop := {
  tree_key : ∀ x r, m !! x = Some r → c_ID r = x;
  tree_slug : ∀ x r, m !! x = Some r → validateSlug (c_Slug r) = None;
  tree_path : ∀ x r, m !! x = Some r →
    match c_ParentID r with
    | None => segs (c_Path r) = [c_Slug r]
    | Some p => ∃ pr, m !! p = Some pr ∧ segs (c_Path r) = segs (c_Path pr) ++ [c_Slug r]
    end;
  tree_sib : ∀ x y r s, m !! x = Some r → m !! y = Some s →
    c_ParentID r = c_ParentID s → c_Slug r = c_Slug s → x = y;
  tree_depth : ∀ x r, m !! x = Some r → length (segs (c_Path r)) ≤ MaxDepth }.

Lemma forest_lookup m x n : forest_of m !! x = Some n ↔ ∃ r, m !! x = Some r ∧ n = node_of r.
Proof. unfold forest_of. rewrite lookup_fmap_Some. naive_solver. Qed.

Lemma tree_slugs m : tree_ok m → ∀ x r, m !! x = Some r → slugs (forest_of m) x (segs (c_Path r)).
Proof.
  intros Hm x r. remember (length (segs (c_Path r))) as k eqn:Hk. revert x r Hk.
  induction k as [k IH] using lt_wf_ind. intros x r -> Hx. pose proof (tree_path m Hm x r Hx) as Hp.
  assert (forest_of m !! x = Some (node_of r)) as Hf by by apply forest_lookup; eauto.
  destruct (c_ParentID r) as [p|] eqn:Hpar.
  - destruct Hp as (pr & Hpr & Heq). rewrite Heq. apply (slugs_child _ x (node_of r) p); [done|done|].
    apply (IH (length (segs (c_Path pr)))); [rewrite Heq, length_app; cbn; lia|done|done].
  - rewrite Hp. by apply (slugs_root _ x (node_of r)).
Qed.

(** The path a row has is the one its ancestors give it. *)
Lemma slugs_det f x l k : slugs f x l → slugs f x k → l = k.
Proof.
  intros Hl. revert k. induction Hl as [x n Hx Hn|x n p l Hx Hn Hl IH]; intros k Hk; inversion Hk; simplify_eq; [done|].
  f_equal. by apply IH.
Qed.

Lemma path_inj m : tree_ok m → ∀ x y r s,
  m !! x = Some r → m !! y = Some s → segs (c_Path r) = segs (c_Path s) → x = y.
Proof.
  intros Hm x y r. remember (length (segs (c_Path r))) as k eqn:Hk. revert x y r Hk.
  induction k as [k IH] using lt_wf_ind. intros x y r -> s Hx Hy Heq.
  pose proof (tree_path m Hm x r Hx) as Hp. pose proof (tree_path m Hm y s Hy) as Hq.
  destruct (c_ParentID r) as [p|] eqn:Ep, (c_ParentID s) as [q|] eqn:Eq.
  - destruct Hp as (pr & Hpr & Hp), Hq as (qs & Hqs & Hq). rewrite Hp, Hq in Heq. apply app_inj_tail in Heq as [Hpp Hss].
    assert (p = q) as ->.
    { apply (IH (length (segs (c_Path pr))) ltac:(rewrite Hp, length_app; cbn; lia) p q pr eq_refl qs); done. }
    apply (tree_sib m Hm x y r s); congruence.
  - destruct Hp as (pr & Hpr & Hp). rewrite Hp, Hq in Heq.
    destruct (segs (c_Path pr)) as [|? [|]] eqn:E; [by destruct (Split_ne "." (c_Path pr))|done|done].
  - destruct Hq as (qs & Hqs & Hq). rewrite Hp, Hq in Heq.
    destruct (segs (c_Path qs)) as [|? [|]] eqn:E; [by destruct (Split_ne "." (c_Path qs))|done|done].
  - apply (tree_sib m Hm x y r s); congruence.
Qed.

Lemma prefix_snoc_inv (l k : list string) s : l `prefix_of` k ++ [s] → l = k ++ [s] ∨ l `prefix_of` k.
Proof.
  intros [t Ht]. destruct t as [|u t _] using rev_ind; [left; by rewrite app_nil_r in Ht|].
  right. rewrite app_assoc in Ht. apply app_inj_tail in Ht as [-> _]. by exists t.
Qed.

(** The prefix test on the paths is the subtree test on the ids. *)
Lemma below_under m : tree_ok m → ∀ a x ra rx,
  m !! a = Some ra → m !! x = Some rx → below (c_Path ra) (c_Path rx) = true ↔ under (forest_of m) a x.
Proof.
  intros Hm a x ra rx Ha Hx. rewrite below_segs. split.
  - remember (length (segs (c_Path rx))) as k eqn:Hk. revert x rx Hk Hx.
    induction k as [k IH] using lt_wf_ind. intros x rx -> Hx Hpre.
    pose proof (tree_path m Hm x rx Hx) as Hp. destruct (c_ParentID rx) as [p|] eqn:Ep.
    + destruct Hp as (pr & Hpr & Hp). rewrite Hp in Hpre. apply prefix_snoc_inv in Hpre as [Heq|Hpre].
      * rewrite <-Hp in Heq. rewrite (path_inj m Hm a x ra rx) by done. constructor.
      * apply (under_child _ _ x p (node_of rx)); [apply forest_lookup; eauto|done|].
        apply (IH (length (segs (c_Path pr))) ltac:(rewrite Hp, length_app; cbn; lia) p pr); done.
    + rewrite Hp in Hpre. apply (prefix_snoc_inv _ []) in Hpre as [Heq|Hpre].
      * cbn in Heq. rewrite (path_inj m Hm a x ra rx) by congruence. constructor.
      * apply prefix_nil_inv in Hpre. by destruct (Split_ne "." (c_Path ra)).
  - intros Hu. revert rx Hx. induction Hu as [|x p n Hn Hpar Hu IH]; intros rx Hx; [by simplify_eq|].
    apply forest_lookup in Hn as (r & Hr & ->). simplify_eq. cbn in Hpar.
    pose proof (tree_path m Hm x r Hr) as Hp. rewrite Hpar in Hp. destruct Hp as (pr & Hpr & ->).
    apply prefix_app_r. by apply IH.
Qed.

(** ** Grafting a subtree *)

(** [r'] is [r] at the path its subtree gets when [old] is moved to [new]. *)
Record follows (old new : string) (r r' : Collection) : Prop := {
  follows_ID : c_ID r' = c_ID r;
  follows_node : node_of r' = node_of r;
  follows_path : segs (c_Path r') =
    if below old (c_Path r) then segs new ++ drop (length (segs old)) (segs (c_Path r)) else segs (c_Path r) }.

Lemma follows_rewrite old new now r :
  follows old new r (if below old (c_Path r) then rewrite_path old new now r else r).
Proof.
  destruct (below old (c_Path r)) eqn:E; constructor; try done; rewrite E; [|done]. by apply segs_rewritten.
Qed.

Lemma follows_self old r : follows old old r r.
Proof.
  constructor; try done. destruct (below old _) eqn:E; [|done]. apply below_segs in E as [k ->]. by rewrite drop_app_length.
Qed.

(** The rows of [m], the one of [id] replaced by [row'], the subtree of [row] along with it. *)
Record grafted (m : gmap string Collection) (row row' : Collection) (m' : gmap string Collection) : Prop := {
  grafted_row : m' !! c_ID row = Some row';
  grafted_ID : c_ID row' = c_ID row;
  grafted_rest : ∀ x, x ≠ c_ID row → option_relation (follows (c_Path row) (c_Path row')) (λ _, False) (λ _, False) (m !! x) (m' !! x) }.

Section graft.
Context (m : gmap string Collection) (row row' : Collection) (m' : gmap string Collection).
Hypothesis Hm : tree_ok m.
Hypothesis Hrow : m !! c_ID row = Some row.
Hypothesis Hg : grafted m row row' m'.

Lemma grafted_back x r' : m' !! x = Some r' → x ≠ c_ID row → ∃ r, m !! x = Some r ∧ follows (c_Path row) (c_Path row') r r'.
Proof using Hg.
  intros Hx Hne. pose proof (grafted_rest _ _ _ _ Hg x Hne) as H. rewrite Hx in H.
  destruct (m !! x) as [r|]; [by exists r|done].
Qed.

Lemma grafted_forth x r : m !! x = Some r → x ≠ c_ID row → ∃ r', m' !! x = Some r' ∧ follows (c_Path row) (c_Path row') r r'.
Proof using Hg.
  intros Hx Hne. pose proof (grafted_rest _ _ _ _ Hg x Hne) as H. rewrite Hx in H.
  destruct (m' !! x) as [r'|]; [by exists r'|done].
Qed.

Lemma grafted_forest : forest_of m' = <[c_ID row := node_of row']> (forest_of m).
Proof using Hg.
  apply map_eq. intros x. unfold forest_of. destruct (decide (x = c_ID row)) as [->|Hne].
  - rewrite lookup_fmap, (grafted_row _ _ _ _ Hg). by rewrite lookup_insert_eq.
  - rewrite lookup_insert_ne, !lookup_fmap by done. pose proof (grafted_rest _ _ _ _ Hg x Hne) as H.
    destruct (m !! x), (m' !! x); cbn in *; try done. by rewrite (follows_node _ _ _ _ H).
Qed.

(** What keeps the tree a tree: a valid slug, a parent outside the subtree (or none)
    with the path to match, no namesake there, and room below. *)
Hypothesis Hslug : validateSlug (c_Slug row') = None.
Hypothesis Hpath :
  match c_ParentID row' with
  | None => segs (c_Path row') = [c_Slug row']
  | Some p => ∃ pr, m !! p = Some pr ∧ below (c_Path row) (c_Path pr) = false ∧
                segs (c_Path row') = segs (c_Path pr) ++ [c_Slug row']
  end.
Hypothesis Hsib : ∀ y s, m !! y = Some s → y ≠ c_ID row → c_ParentID s = c_ParentID row' → c_Slug s = c_Slug row' → False.
Hypothesis Hdepth : ∀ x r, m !! x = Some r → below (c_Path row) (c_Path r) = true →
  length (segs (c_Path row')) + (length (segs (c_Path r)) - length (segs (c_Path row))) ≤ MaxDepth.

Lemma grafted_path x r r' : m !! x = Some r → x ≠ c_ID row → follows (c_Path row) (c_Path row') r r' →
  match c_ParentID r' with
  | None => segs (c_Path r') = [c_Slug r']
  | Some p => ∃ pr, m' !! p = Some pr ∧ segs (c_Path r') = segs (c_Path pr) ++ [c_Slug r']
  end.
Proof using Hm Hrow Hg.
  intros Hx Hne Hf. pose proof (tree_path m Hm x r Hx) as Hp. pose proof (follows_path _ _ _ _ Hf) as Hq.
  pose proof (follows_node _ _ _ _ Hf) as Hn. injection Hn as -> _ ->.
  assert (segs (c_Path row) ≠ segs (c_Path r)) as Hdiff by (intros E; by destruct Hne; eapply path_inj; [exact Hm|..]).
  rewrite Hq. clear Hq. destruct (below (c_Path row) (c_Path r)) eqn:Hb, (c_ParentID r) as [p|].
  - destruct Hp as (pr & Hpr & Hp). apply below_segs in Hb. rewrite Hp in Hb, Hdiff.
    apply prefix_snoc_inv in Hb as [?|Hb]; [done|]. pose proof (prefix_length _ _ Hb). rewrite Hp.
    rewrite drop_app_le, app_assoc by done. destruct (decide (p = c_ID row)) as [->|Hpne].
    + exists row'. split; [apply Hg|]. assert (pr = row) as -> by congruence. by rewrite drop_all, app_nil_r.
    + destruct (grafted_forth p pr Hpr Hpne) as (pr' & Hpr' & Hf'). exists pr'. split; [done|].
      rewrite (follows_path _ _ _ _ Hf'). by rewrite (proj2 (below_segs _ _) Hb).
  - apply below_segs in Hb. rewrite Hp in Hb, Hdiff. apply (prefix_snoc_inv _ []) in Hb as [?|Hb]; [done|].
    apply prefix_nil_inv in Hb. by destruct (Split_ne "." (c_Path row)).
  - destruct Hp as (pr & Hpr & Hp). assert (below (c_Path row) (c_Path pr) = false) as Hb'.
    { apply not_true_iff_false. intros H%below_segs. apply not_true_iff_false in Hb. apply Hb, below_segs.
      rewrite Hp. by apply prefix_app_r. }
    assert (p ≠ c_ID row) as Hpne.
    { intros ->. assert (pr = row) as -> by congruence. apply not_true_iff_false in Hb'. by apply Hb', below_segs. }
    destruct (grafted_forth p pr Hpr Hpne) as (pr' & Hpr' & Hf'). exists pr'. split; [done|].
    rewrite (follows_path _ _ _ _ Hf'), Hb'. exact Hp.
  - exact Hp.
Qed.

Lemma grafted_ok : tree_ok m'.
Proof using All.
  assert (∀ x r', m' !! x = Some r' → x = c_ID row ∧ r' = row' ∨
    x ≠ c_ID row ∧ ∃ r, m !! x = Some r ∧ follows (c_Path row) (c_Path row') r r') as Hcases.
  { intros x r' Hx. destruct (decide (x = c_ID row)) as [->|Hne].
    - left. rewrite (grafted_row _ _ _ _ Hg) in Hx. by simplify_eq.
    - right. split; [done|]. by apply grafted_back. }
  constructor.
  - intros x r' [[-> ->]|(Hne & r & Hx & Hf)]%Hcases; [apply Hg|]. rewrite (follows_ID _ _ _ _ Hf). by apply (tree_key m Hm).
  - intros x r' [[-> ->]|(Hne & r & Hx & Hf)]%Hcases; [done|]. pose proof (follows_node _ _ _ _ Hf) as Hn.
    injection Hn as -> _ _. by apply (tree_slug m Hm x).
  - intros x r' [[-> ->]|(Hne & r & Hx & Hf)]%Hcases; [|by apply (grafted_path x r)].
    destruct (c_ParentID row') as [p|]; [|done]. destruct Hpath as (pr & Hpr & Hb & Hp).
    assert (p ≠ c_ID row) as Hpne.
    { intros ->. assert (pr = row) as -> by congruence. apply not_true_iff_false in Hb. by apply Hb, below_segs. }
    destruct (grafted_forth p pr Hpr Hpne) as (pr' & Hpr' & Hf). exists pr'. split; [done|].
    by rewrite (follows_path _ _ _ _ Hf), Hb.
  - intros x y r' s' Hx Hy Hpar Hsl.
    apply Hcases in Hx as [[-> ->]|(Hne & r & Hx & Hf)]; apply Hcases in Hy as [[-> ->]|(Hne' & s & Hy & Hf')]; [done| | |].
    + pose proof (follows_node _ _ _ _ Hf') as Hn. injection Hn as H1 _ H2. destruct (Hsib y s); congruence.
    + pose proof (follows_node _ _ _ _ Hf) as Hn. injection Hn as H1 _ H2. destruct (Hsib x r); congruence.
    + pose proof (follows_node _ _ _ _ Hf) as Hn. injection Hn as H1 _ H2.
      pose proof (follows_node _ _ _ _ Hf') as Hn'. injection Hn' as H1' _ H2'. apply (tree_sib m Hm x y r s); congruence.
  - intros x r' [[-> ->]|(Hne & r & Hx & Hf)]%Hcases.
    + specialize (Hdepth (c_ID row) row Hrow (proj2 (below_segs _ _) (reflexivity _))). lia.
    + rewrite (follows_path _ _ _ _ Hf). destruct (below _ _) eqn:Hb; [|by apply (tree_depth m Hm x)].
      rewrite length_app, length_drop. by apply (Hdepth x).
Qed.
End graft.

(** ** The store refines the forest *)

Inductive op :=
| OCreate (id : string) (i : CreateInput)
| ORename (id : string) (i : UpdateInput)
| OMove (id : string) (parent : option string)
| ODelete (id : string).

Definition perform (now : Time) (o : op) (m : gmap string Collection) : result coll_error (gmap string Collection) :=
  match o with
  | OCreate id i => match Create now id i m with Ok (_, m) => Ok m | Err e => Err e end
  | ORename id i => match Rename now id i m with Ok (_, m) => Ok m | Err e => Err e end
  | OMove id p => match Move now id p m with Ok (_, m) => Ok m | Err e => Err e end
  | ODelete id => Delete id m
  end.

(** The id generator does not repeat itself. *)
Definition fresh_id (o : op) (m : gmap string Collection) : Prop :=
  match o with OCreate id _ => m !! id = None | _ => True end.

(** What an operation does to the forest. *)
Definition does (o : op) (f f' : gmap string node) : Prop :=
  match o with
  | OCreate id i => f' = <[id := mkNode (ci_Slug i) (strings.TrimSpace (ci_Name i)) (ci_ParentID i)]> f
  | ORename id i =>
      f' = alter (λ n, mkNode (default (n_slug n) (ui_Slug i)) (default (n_name n) (strings.TrimSpace <$> ui_Name i)) (n_parent n)) id f
  | OMove id p => f' = alter (λ n, mkNode (n_slug n) (n_name n) p) id f
  | ODelete id => ∀ x n, f' !! x = Some n ↔ f !! x = Some n ∧ ¬ under f id x
  end.

(** A node other than [id] has the parent and the slug. *)
Definition namesake (f : gmap string node) (id : option string) (parent : option string) (slug : string) : Prop :=
  ∃ y n, Some y ≠ id ∧ f !! y = Some n ∧ n_parent n = parent ∧ n_slug n = slug.

Definition level (f : gmap string node) (parent : option string) (k : nat) : Prop :=
  match parent with None => k = 0 | Some p => ∃ l, slugs f p l ∧ length l = k end.

(** Why an operation is refused. *)
Definition refuses (o : op) (f : gmap string node) (e : coll_error) : Prop :=
  match o, e with
  | OCreate _ i, ErrInvalidSlug => validateSlug (ci_Slug i) ≠ None
  | OCreate _ i, ErrInvalidName => validateName (ci_Name i) ≠ None
  | OCreate _ i, ErrNotFound => ∃ p, ci_ParentID i = Some p ∧ f !! p = None
  | OCreate _ i, ErrTooDeep => ∃ k, level f (ci_ParentID i) k ∧ MaxDepth ≤ k
  | OCreate _ i, ErrSlugConflict => namesake f None (ci_ParentID i) (ci_Slug i)
  | OCreate _ _, ErrCycle => False
  | ORename id i, e =>
      (ui_Slug i ≠ None ∨ ui_Name i ≠ None) ∧
      match e with
      | ErrInvalidSlug => ui_Slug i ≫= validateSlug ≠ None
      | ErrInvalidName => ui_Name i ≫= validateName ≠ None
      | ErrNotFound => f !! id = None
      | ErrSlugConflict => ∃ s n, ui_Slug i = Some s ∧ f !! id = Some n ∧ namesake f (Some id) (n_parent n) s
      | _ => False
      end
  | OMove id p, ErrNotFound => f !! id = None ∨ ∃ q, p = Some q ∧ f !! q = None
  | OMove id p, ErrCycle => f !! id ≠ None ∧ ∃ q, p = Some q ∧ under f id q
  | OMove id p, ErrTooDeep =>
      ∃ x k l l', under f id x ∧ level f p k ∧ slugs f id l ∧ slugs f x l' ∧ MaxDepth < k + 1 + (length l' - length l)
  | OMove id p, ErrSlugConflict => ∃ n, f !! id = Some n ∧ namesake f (Some id) p (n_slug n)
  | OMove _ _, _ => False
  | ODelete id, ErrNotFound => f !! id = None
  | ODelete _, _ => False
  end.

Lemma rows_any_spec P m : rows_any P m = true ↔ ∃ x r, m !! x = Some r ∧ P r = true.
Proof.
  unfold rows_any. rewrite existsb_exists. setoid_rewrite <-list_elem_of_In. setoid_rewrite list_elem_of_fmap. split.
  - intros (r & ([x r'] & -> & Hx%elem_of_map_to_list) & HP). by exists x, r'.
  - intros (x & r & Hx & HP). exists r. split; [|done]. exists (x, r). split; [done|]. by apply elem_of_map_to_list.
Qed.

Lemma rows_any_none P m : rows_any P m = false ↔ ∀ x r, m !! x = Some r → P r = false.
Proof.
  rewrite <-not_true_iff_false, rows_any_spec. split.
  - intros H x r Hx. apply not_true_iff_false. intros HP. apply H. by exists x, r.
  - intros H (x & r & Hx & HP). by rewrite (H x r Hx) in HP.
Qed.

Definition pathstr (parentPath slug : string) : string :=
  if decide (parentPath = "") then slug else parentPath +:+ "." +:+ slug.

Lemma pathstr_root s : validateSlug s = None → segs (pathstr "" s) = [s].
Proof. intros Hs. unfold pathstr. rewrite decide_True by done. by apply Split_segment, slug_segment. Qed.

Lemma path_ne m x r : tree_ok m → m !! x = Some r → c_Path r ≠ "".
Proof.
  intros Hm Hx E. pose proof (tree_path m Hm x r Hx) as Hp. destruct (slug_chars _ (tree_slug m Hm x r Hx)) as [_ Hs].
  rewrite E in Hp. cbn in Hp. destruct (c_ParentID r); [|congruence]. destruct Hp as (pr & _ & Hp).
  destruct (segs (c_Path pr)) as [|? [|]] eqn:E2; [by destruct (Split_ne "." (c_Path pr))|done|done].
Qed.

Lemma pathstr_child m x r s :
  tree_ok m → m !! x = Some r → validateSlug s = None → segs (pathstr (c_Path r) s) = segs (c_Path r) ++ [s].
Proof.
  intros Hm Hx Hs. unfold pathstr. rewrite decide_False by by eapply path_ne.
  change ("." +:+ s) with (String "." s). rewrite Split_app_sep. by rewrite (Split_segment "." s) by by apply slug_segment.
Qed.

Lemma level_tree m p pr : tree_ok m → m !! p = Some pr → level (forest_of m) (Some p) (length (segs (c_Path pr))).
Proof. intros Hm Hp. exists (segs (c_Path pr)). split; [by apply tree_slugs|done]. Qed.

Lemma forest_row m x r : m !! x = Some r → forest_of m !! x = Some (node_of r).
Proof. intros Hx. apply forest_lookup. by exists r. Qed.
Lemma forest_none m x : m !! x = None → forest_of m !! x = None.
Proof. intros Hx. unfold forest_of. by rewrite lookup_fmap, Hx. Qed.

(** Done as on the forest, in a tree again, and without a reason not to - or refused for one. *)
Definition refined (o : op) (m : gmap string Collection) (res : result coll_error (gmap string Collection)) : Prop :=
  match res with
  | Ok m' => tree_ok m' ∧ does o (forest_of m) (forest_of m') ∧ ∀ e, ¬ refuses o (forest_of m) e
  | Err e => refuses o (forest_of m) e
  end.

Lemma level_det f p k l : level f p k → level f p l → k = l.
Proof.
  destruct p as [p|]; cbn; [|congruence]. intros (lk & Hk & <-) (ll & Hl & <-). by rewrite (slugs_det _ _ _ _ Hk Hl).
Qed.

(** Where a row with no namesake may be added. *)
Lemma tree_ok_insert m id row :
  tree_ok m → m !! id = None → c_ID row = id → validateSlug (c_Slug row) = None →
  match c_ParentID row with
  | None => segs (c_Path row) = [c_Slug row]
  | Some p => ∃ pr, m !! p = Some pr ∧ segs (c_Path row) = segs (c_Path pr) ++ [c_Slug row]
  end →
  (∀ y s, m !! y = Some s → c_ParentID s = c_ParentID row → c_Slug s = c_Slug row → False) →
  length (segs (c_Path row)) ≤ MaxDepth → tree_ok (<[id := row]> m).
Proof.
  intros Hm Hid HID Hslug Hpath Hsib Hdepth. constructor.
  - intros x r. rewrite lookup_insert_Some. intros [[<- <-]|[_ Hx]]; [done|by apply (tree_key m Hm)].
  - intros x r. rewrite lookup_insert_Some. intros [[<- <-]|[_ Hx]]; [done|by apply (tree_slug m Hm x)].
  - intros x r. rewrite lookup_insert_Some. intros Hx.
    assert (match c_ParentID r with
      | None => segs (c_Path r) = [c_Slug r]
      | Some p => ∃ pr, m !! p = Some pr ∧ segs (c_Path r) = segs (c_Path pr) ++ [c_Slug r] end) as Hp.
    { destruct Hx as [[<- <-]|[_ Hx]]; [done|by apply (tree_path m Hm x)]. }
    destruct (c_ParentID r) as [p|]; [|done]. destruct Hp as (pr & Hpr & Hp). exists pr. split; [|done].
    rewrite lookup_insert_ne; [done|congruence].
  - intros x y r s. rewrite !lookup_insert_Some. intros [[<- <-]|[_ Hx]] [[<- <-]|[_ Hy]] Hp Hs; [done| | |].
    + destruct (Hsib y s); congruence.
    + destruct (Hsib x r); congruence.
    + by apply (tree_sib m Hm x y r s).
  - intros x r. rewrite lookup_insert_Some. intros [[<- <-]|[_ Hx]]; [done|by apply (tree_depth m Hm x)].
Qed.

Lemma validateSlug_err s e : validateSlug s = Some e → e = ErrInvalidSlug.
Proof. unfold validateSlug. repeat case_match; congruence. Qed.
Lemma validateName_err s e : validateName s = Some e → e = ErrInvalidName.
Proof. unfold validateName. repeat case_match; congruence. Qed.

Lemma Create_refined now id i m : tree_ok m → m !! id = None → refined (OCreate id i) m (perform now (OCreate id i) m).
Proof.
  intros Hm Hid. unfold perform, Create. destruct (validateSlug (ci_Slug i)) as [e|] eqn:Hs.
  { pose proof (validateSlug_err _ _ Hs) as ->. cbn. by rewrite Hs. }
  destruct (validateName (ci_Name i)) as [e|] eqn:Hn.
  { pose proof (validateName_err _ _ Hn) as ->. cbn. by rewrite Hn. }
  destruct (match ci_ParentID i with None => Ok "" | Some _ => _ end) as [pp|e] eqn:Hpar.
  2:{ destruct (ci_ParentID i) as [p|] eqn:Ep; [|done]. destruct (m !! p) as [pr|] eqn:Hpr.
      - destruct (Nat.leb_spec (MaxDepth - 1) (Depth pr)) as [Hd|Hd]; simplify_eq. cbn. rewrite Ep.
        exists (length (segs (c_Path pr))). split; [by apply level_tree|]. rewrite <-Depth_segs. lia.
      - simplify_eq. cbn. exists p. split; [done|by apply forest_none]. }
  destruct (rows_any _ m) eqn:Hany.
  { apply rows_any_spec in Hany as (y & s & Hy & H). apply andb_true_iff in H as [H1%bool_decide_eq_true_1 H2].
    cbn. exists y, (node_of s). split; [done|]. split; [by apply forest_row|]. split; [done|].
    apply (EqualFold_slugs _ _ (tree_slug m Hm y s Hy) Hs) in H2. done. }
  pose proof (proj1 (rows_any_none _ _) Hany) as Hnone. fold (pathstr pp (ci_Slug i)).
  assert (∀ y s, m !! y = Some s → c_ParentID s = ci_ParentID i → c_Slug s = ci_Slug i → False) as Hsib.
  { intros y s Hy H1 H2. specialize (Hnone y s Hy). cbn in Hnone. rewrite bool_decide_eq_true_2 in Hnone by done.
    apply not_true_iff_false in Hnone. apply Hnone. by apply (EqualFold_slugs _ _ (tree_slug m Hm y s Hy) Hs). }
  assert (∃ k, level (forest_of m) (ci_ParentID i) k ∧ k < MaxDepth ∧ length (segs (pathstr pp (ci_Slug i))) = S k ∧
    match ci_ParentID i with
    | None => segs (pathstr pp (ci_Slug i)) = [ci_Slug i]
    | Some p => ∃ pr, m !! p = Some pr ∧ segs (pathstr pp (ci_Slug i)) = segs (c_Path pr) ++ [ci_Slug i]
    end) as (k & Hk & Hkd & Hlen & Hpath).
  { destruct (ci_ParentID i) as [p|].
    - destruct (m !! p) as [pr|] eqn:Hpr; [|done]. destruct (Nat.leb_spec (MaxDepth - 1) (Depth pr)) as [Hd|Hd]; simplify_eq.
      exists (length (segs (c_Path pr))). rewrite (pathstr_child m p pr) by done. split; [by apply level_tree|].
      split; [rewrite <-Depth_segs; lia|]. split; [rewrite length_app; cbn; lia|]. by exists pr.
    - simplify_eq. exists 0. rewrite pathstr_root by done. split; [done|]. split; [unfold MaxDepth; lia|done]. }
  cbn. split; [|split].
  - apply tree_ok_insert; try done. cbn. lia.
  - unfold forest_of. by rewrite fmap_insert.
  - intros [] H; try done.
    + destruct H as (p & Hp & Hf). rewrite Hp in Hpath. destruct Hpath as (pr & Hpr & _).
      by rewrite (forest_row _ _ _ Hpr) in Hf.
    + destruct H as (y & n & _ & Hy & H1 & H2). apply forest_lookup in Hy as (s & Hy & ->). by apply (Hsib y s).
    + destruct H as (k' & Hk' & ?). rewrite (level_det _ _ _ _ Hk Hk') in *. lia.
Qed.

(** The sibling check is the namesake test. *)
Lemma conflict_namesake m id parent slug :
  tree_ok m → validateSlug slug = None →
  rows_any (λ other, negb (bool_decide (c_ID other = id)) && bool_decide (c_ParentID other = parent)
                     && EqualFold (c_Slug other) slug) m = true ↔ namesake (forest_of m) (Some id) parent slug.
Proof.
  intros Hm Hs. rewrite rows_any_spec. unfold namesake. setoid_rewrite forest_lookup. split.
  - intros (y & s & Hy & [[H1%negb_true_iff%bool_decide_eq_false_1 H2%bool_decide_eq_true_1]%andb_true_iff H3]%andb_true_iff).
    apply (EqualFold_slugs _ _ (tree_slug m Hm y s Hy) Hs) in H3. rewrite (tree_key m Hm y s Hy) in H1.
    exists y, (node_of s). split; [congruence|]. split; [by exists s|done].
  - intros (y & n & Hne & (s & Hy & ->) & Hp & H3). exists y, s. split; [done|].
    rewrite (tree_key m Hm y s Hy), (bool_decide_eq_false_2 (y = id)), (bool_decide_eq_true_2 (_ = parent)) by (done || congruence).
    by apply (EqualFold_slugs _ _ (tree_slug m Hm y s Hy) Hs).
Qed.

Lemma no_namesake m id parent slug :
  ¬ namesake (forest_of m) (Some id) parent slug →
  ∀ y s, m !! y = Some s → y ≠ id → c_ParentID s = parent → c_Slug s = slug → False.
Proof.
  intros Hn y s Hy Hne Hp Hs. apply Hn. exists y, (node_of s). split; [congruence|]. by split; [apply forest_row|].
Qed.

(** A map of the other rows and a new row for [id] is a graft. *)
Lemma grafted_fmap m (row row' : Collection) g :
  c_ID row' = c_ID row →
  (∀ x r, m !! x = Some r → x ≠ c_ID row → follows (c_Path row) (c_Path row') r (g r)) →
  grafted m row row' (<[c_ID row := row']> (g <$> m)).
Proof.
  intros HID Hf. constructor; [by rewrite lookup_insert_eq|done|]. intros x Hne. rewrite lookup_insert_ne, lookup_fmap by done.
  destruct (m !! x) as [r|] eqn:Hx; [|done]. cbn. by apply (Hf x).
Qed.

Lemma forest_alter m row (f : node → node) :
  m !! c_ID row = Some row → <[c_ID row := f (node_of row)]> (forest_of m) = alter f (c_ID row) (forest_of m).
Proof.
  intros Hrow. apply map_eq. intros x. destruct (decide (x = c_ID row)) as [->|Hne].
  - by rewrite lookup_insert_eq, lookup_alter_eq, (forest_row _ _ _ Hrow).
  - by rewrite lookup_insert_ne, lookup_alter_ne.
Qed.

(** The parent's path is the row's without its last segment. *)
Lemma parent_above m x r p pr :
  tree_ok m → m !! x = Some r → c_ParentID r = Some p → m !! p = Some pr → below (c_Path r) (c_Path pr) = false.
Proof.
  intros Hm Hx Hp Hpr. pose proof (tree_path m Hm x r Hx) as H. rewrite Hp in H. destruct H as (pr' & Hpr' & H). simplify_eq.
  apply not_true_iff_false. intros Hb%below_segs. apply prefix_length in Hb. rewrite H, length_app in Hb. cbn in Hb. lia.
Qed.

(** The rows [Rename] leaves before it sets the fields of the renamed one. *)
Definition moved_rows (now : Time) (old new : string) (r : Collection) : Collection :=
  if decide (new = old) then r else if below old (c_Path r) then rewrite_path old new now r else r.

Lemma moved_follows now old new r : follows old new r (moved_rows now old new r).
Proof. unfold moved_rows. case_decide as E; [rewrite E; apply follows_self|apply follows_rewrite]. Qed.

Lemma moved_fmap now old new (m : gmap string Collection) :
  (if decide (new = old) then m
   else (λ r, if below old (c_Path r) then rewrite_path old new now r else r) <$> m) = moved_rows now old new <$> m.
Proof.
  unfold moved_rows. case_decide as E; [|done]. apply map_eq. intros x. rewrite lookup_fmap. by destruct (m !! x).
Qed.

Lemma moved_path now new r : c_Path (moved_rows now (c_Path r) new r) = new.
Proof.
  unfold moved_rows. case_decide as E; [done|]. rewrite (proj2 (below_segs _ _)) by done. cbn.
  pose proof (strings_drop_app (c_Path r) "") as H. rewrite string_app_nil_r in H. by rewrite H, string_app_nil_r.
Qed.

Lemma path_snoc m x r : tree_ok m → m !! x = Some r → ∃ q, segs (c_Path r) = q ++ [c_Slug r].
Proof.
  intros Hm Hx. pose proof (tree_path m Hm x r Hx) as Hp. destruct (c_ParentID r); [|by exists []].
  destruct Hp as (pr & _ & ->). by eexists.
Qed.

(** The effect of [Rename] once its checks have passed. *)
Lemma rename_graft now m row slug name newPath :
  tree_ok m → m !! c_ID row = Some row → validateSlug slug = None →
  (∀ y s, m !! y = Some s → y ≠ c_ID row → c_ParentID s = c_ParentID row → c_Slug s = slug → False) →
  newPath = (if decide (slug = c_Slug row) then c_Path row else renamed_path (c_Path row) slug) →
  let row' := moved_rows now (c_Path row) newPath row in
  let row'' := mkCollection (c_ID row') slug name (c_Path row') (c_ParentID row') (c_CreatedAt row') now in
  let m' := <[c_ID row := row'']> (moved_rows now (c_Path row) newPath <$> m) in
  tree_ok m' ∧ forest_of m' = <[c_ID row := mkNode slug name (c_ParentID row)]> (forest_of m).
Proof.
  intros Hm Hrow Hslug Hsib Hnew row' row'' m'. pose proof (moved_follows now (c_Path row) newPath row) as Hf.
  pose proof (follows_ID _ _ _ _ Hf) as HID. pose proof (follows_node _ _ _ _ Hf) as Hnode. fold row' in HID, Hnode.
  injection Hnode as _ _ Hparent. pose proof (moved_path now newPath row : c_Path row' = newPath) as Hpath.
  assert (grafted m row row'' m') as Hg.
  { apply grafted_fmap; [done|]. intros x r _ _. cbn. rewrite Hpath. apply moved_follows. }
  destruct (path_snoc m _ row Hm Hrow) as [q Hq]. assert (segs newPath = q ++ [slug]) as Hq'.
  { rewrite Hnew. case_decide as E; [by rewrite E|]. apply (renamed_segs _ q (c_Slug row)); [done|by apply slug_segment]. }
  split; [|rewrite (grafted_forest _ _ _ _ Hg); unfold node_of, row''; cbn; by rewrite Hparent].
  apply (grafted_ok m row row''); try done; cbn; rewrite ?Hpath, ?Hparent.
  - pose proof (tree_path m Hm (c_ID row) row Hrow) as Hp. destruct (c_ParentID row) as [p|] eqn:Ep.
    + destruct Hp as (pr & Hpr & Hp). exists pr. split; [done|]. split; [by eapply parent_above|].
      rewrite Hp in Hq. apply app_inj_tail in Hq as [-> _]. done.
    + rewrite Hp in Hq. apply (app_inj_tail []) in Hq as [<- _]. done.
  - exact Hsib.
  - intros x r Hx Hb. pose proof (tree_depth m Hm x r Hx). apply below_segs, prefix_length in Hb.
    rewrite Hq', Hq in *. rewrite !length_app in *. cbn in *. lia.
Qed.

Lemma Rename_refined now id i m : tree_ok m → refined (ORename id i) m (perform now (ORename id i) m).
Proof.
  intros Hm. unfold perform, Rename. case_decide as Hboth.
  { destruct Hboth as [H1 H2]. cbn. rewrite H1, H2. cbn. split; [done|]. split; [|naive_solver].
    symmetry. apply alter_id. by intros []. }
  assert (ui_Slug i ≠ None ∨ ui_Name i ≠ None) as Hsome by (destruct (ui_Slug i), (ui_Name i); naive_solver).
  destruct (ui_Slug i ≫= validateSlug) as [e|] eqn:Hs.
  { assert (e = ErrInvalidSlug) as ->; [|cbn; split; [done|by rewrite Hs]].
    destruct (ui_Slug i); [|done]. by eapply validateSlug_err. }
  destruct (ui_Name i ≫= validateName) as [e|] eqn:Hn.
  { assert (e = ErrInvalidName) as ->; [|cbn; split; [done|by rewrite Hn]].
    destruct (ui_Name i); [|done]. by eapply validateName_err. }
  destruct (m !! id) as [row|] eqn:Hrow; [|cbn; split; [done|by apply forest_none]].
  pose proof (tree_key m Hm id row Hrow) as <-. set (slug := default (c_Slug row) (ui_Slug i)).
  assert (validateSlug slug = None) as Hslug.
  { unfold slug. destruct (ui_Slug i); [done|]. by apply (tree_slug m Hm (c_ID row)). }
  destruct (_ && rows_any _ m) eqn:Hany.
  { apply andb_true_iff in Hany as [Hch Hany%conflict_namesake]; [|done..].
    cbn. split; [done|]. apply negb_true_iff, bool_decide_eq_false_1 in Hch. unfold slug in *.
    destruct (ui_Slug i) as [s'|]; [|done]. exists s', (node_of row). split; [done|]. by split; [apply forest_row|]. }
  assert (¬ namesake (forest_of m) (Some (c_ID row)) (c_ParentID row) slug) as Hsib.
  { destruct (decide (slug = c_Slug row)) as [E|E].
    - intros (y & n & Hne & (s & Hy & ->)%forest_lookup & H1 & H2). destruct Hne. f_equal.
      eapply (tree_sib m Hm y (c_ID row)); [done|done|done|]. cbn in H2. congruence.
    - rewrite (bool_decide_eq_false_2 _ E) in Hany. rewrite <-conflict_namesake by done. by apply not_true_iff_false. }
  set (newPath := if negb (negb (bool_decide (slug = c_Slug row))) then c_Path row else _).
  assert (newPath = if decide (slug = c_Slug row) then c_Path row else renamed_path (c_Path row) slug) as Hnew.
  { unfold newPath, renamed_path. case_decide as E; [by rewrite bool_decide_eq_true_2|]. by rewrite bool_decide_eq_false_2. }
  clearbody newPath. rewrite moved_fmap, lookup_fmap, Hrow. cbn [fmap option_fmap option_map default from_option id].
  pose proof (moved_follows now (c_Path row) newPath row) as [_ Hnode _]. injection Hnode as _ Hname _. rewrite Hname.
  destruct (rename_graft now m row slug (match ui_Name i with Some n => strings.TrimSpace n | None => c_Name row end) newPath)
    as [Hok Hforest]; [done|done|done|by apply no_namesake|done|]. split; [exact Hok|]. cbn [does refuses]. rewrite Hforest. split.
  - rewrite <-(forest_alter m row) by done. f_equal. unfold node_of. cbn. f_equal. by destruct (ui_Name i).
  - intros [] [_ H]; try done; [by rewrite (forest_row _ _ _ Hrow) in H|].
    destruct H as (s & n & Hsi & Hf' & H). rewrite (forest_row _ _ _ Hrow) in Hf'. simplify_eq.
    apply Hsib. unfold slug. by rewrite Hsi.
Qed.

(** The parent [Move] has settled on: its level, the new path, and that it is not below. *)
Definition settled (m : gmap string Collection) (row : Collection) (p : option string) (pp : string) (depth : nat) : Prop :=
  level (forest_of m) p depth ∧ length (segs (pathstr pp (c_Slug row))) = S depth ∧
  (∀ q, p = Some q → ¬ under (forest_of m) (c_ID row) q ∧ m !! q ≠ None) ∧
  match p with
  | None => segs (pathstr pp (c_Slug row)) = [c_Slug row]
  | Some q => ∃ pr, m !! q = Some pr ∧ below (c_Path row) (c_Path pr) = false ∧
              segs (pathstr pp (c_Slug row)) = segs (c_Path pr) ++ [c_Slug row]
  end.

Lemma settled_root m row : tree_ok m → m !! c_ID row = Some row → settled m row None "" 0.
Proof.
  intros Hm Hrow. unfold settled. rewrite pathstr_root by by apply (tree_slug m Hm (c_ID row)). done.
Qed.

Lemma settled_child m row q pr :
  tree_ok m → m !! c_ID row = Some row → m !! q = Some pr →
  rows_any (λ other, below (c_Path row) (c_Path other) && bool_decide (c_ID other = q)) m = false →
  settled m row (Some q) (c_Path pr) (S (Depth pr)).
Proof.
  intros Hm Hrow Hq Hany. unfold settled. rewrite (pathstr_child m q pr) by (done || by apply (tree_slug m Hm (c_ID row))).
  rewrite Depth_segs. assert (below (c_Path row) (c_Path pr) = false) as Hb.
  { pose proof (proj1 (rows_any_none _ _) Hany q pr Hq) as H. cbn in H.
    rewrite (tree_key m Hm q pr Hq), (bool_decide_eq_true_2 (q = q)) in H by done. by rewrite andb_true_r in H. }
  split; [by apply level_tree|]. split; [rewrite length_app; cbn; lia|]. split; [|by exists pr].
  intros ? [= <-]. split; [|congruence]. intros Hu. apply not_true_iff_false in Hb.
  by apply Hb, (below_under m Hm (c_ID row) q row pr).
Qed.

(** The effect of [Move] once its checks have passed. *)
Lemma move_graft now m row p pp depth :
  tree_ok m → m !! c_ID row = Some row → settled m row p pp depth →
  (∀ y s, m !! y = Some s → y ≠ c_ID row → c_ParentID s = p → c_Slug s = c_Slug row → False) →
  (∀ x r, m !! x = Some r → below (c_Path row) (c_Path r) = true → depth + (Depth r - Depth row) < MaxDepth) →
  let newPath := pathstr pp (c_Slug row) in
  let row' := mkCollection (c_ID row) (c_Slug row) (c_Name row) newPath p (c_CreatedAt row) now in
  let m' := <[c_ID row := row']> ((λ other, if negb (bool_decide (c_ID other = c_ID row)) && below (c_Path row) (c_Path other)
                                            then rewrite_path (c_Path row) newPath now other else other) <$> m) in
  tree_ok m' ∧ forest_of m' = <[c_ID row := mkNode (c_Slug row) (c_Name row) p]> (forest_of m).
Proof.
  intros Hm Hrow (_ & Hlen & _ & Hpath) Hsib Hshallow newPath row' m'. assert (grafted m row row' m') as Hg.
  { apply grafted_fmap; [done|]. intros x r Hx Hne. rewrite (tree_key m Hm x r Hx), bool_decide_eq_false_2 by done.
    apply follows_rewrite. }
  split; [|apply (grafted_forest _ _ _ _ Hg)]. apply (grafted_ok m row row'); try done.
  - by apply (tree_slug m Hm (c_ID row) row).
  - intros x r Hx Hb. specialize (Hshallow x r Hx Hb). cbn [c_Path row']. unfold newPath. rewrite Hlen, <-!Depth_segs. lia.
Qed.

Lemma Move_refined now id p m : tree_ok m → refined (OMove id p) m (perform now (OMove id p) m).
Proof.
  intros Hm. unfold perform, Move. destruct (m !! id) as [row|] eqn:Hrow; [|cbn; left; by apply forest_none].
  pose proof (tree_key m Hm id row Hrow) as <-. pose proof (forest_row _ _ _ Hrow) as Hfrow.
  destruct (match p with None => false | Some _ => _ end) eqn:Hcyc.
  { destruct p as [q|]; [|done]. cbn. split; [by rewrite Hfrow|]. exists q. split; [done|].
    apply orb_true_iff in Hcyc as [->%bool_decide_eq_true_1|Hany]; [constructor|].
    apply rows_any_spec in Hany as (y & s & Hy & [Hb <-%bool_decide_eq_true_1]%andb_true_iff).
    rewrite (tree_key m Hm y s Hy). by apply (below_under m Hm _ y row s). }
  destruct (match p with None => Ok ("", 0) | Some _ => _ end) as [[pp depth]|e] eqn:Hpar.
  2:{ destruct p as [q|]; [|done]. destruct (m !! q) eqn:Hq; simplify_eq. cbn. right. exists q. by split; [|apply forest_none]. }
  assert (settled m row p pp depth) as Hset.
  { destruct p as [q|]; [|simplify_eq; by apply settled_root]. destruct (m !! q) eqn:Hq; simplify_eq.
    apply orb_false_iff in Hcyc as [_ Hany]. by apply settled_child. }
  pose proof Hset as (Hlevel & _ & Hnot & _). fold (pathstr pp (c_Slug row)). destruct (rows_any _ m) eqn:Hdeep.
  { apply rows_any_spec in Hdeep as (y & s & Hy & [Hb Hd%Nat.ltb_lt]%andb_true_iff).
    cbn. exists y, depth, (segs (c_Path row)), (segs (c_Path s)). split; [by apply (below_under m Hm _ _ row s)|].
    split; [done|]. split; [by apply tree_slugs|]. split; [by apply tree_slugs|].
    rewrite <-!Depth_segs. unfold MaxDepth in *. lia. }
  destruct (rows_any _ m) eqn:Hany in |- *.
  { apply conflict_namesake in Hany; [|done|by apply (tree_slug m Hm (c_ID row) row)]. by exists (node_of row). }
  assert (¬ namesake (forest_of m) (Some (c_ID row)) p (c_Slug row)) as Hsib.
  { rewrite <-conflict_namesake by (done || by apply (tree_slug m Hm (c_ID row) row)). by apply not_true_iff_false. }
  assert (∀ x r, m !! x = Some r → below (c_Path row) (c_Path r) = true → depth + (Depth r - Depth row) < MaxDepth) as Hshallow.
  { intros x r Hx Hb. pose proof (proj1 (rows_any_none _ _) Hdeep x r Hx) as H. cbv beta in H. rewrite Hb in H. unfold MaxDepth.
    apply andb_false_iff in H as [?|H%Nat.ltb_ge]; [done|]. unfold MaxDepth in H. lia. }
  destruct (move_graft now m row p pp depth) as [Hok Hforest]; [done|done|done|by apply no_namesake|done|]. split; [exact Hok|]. cbn [does]. rewrite Hforest.
  split; [by rewrite <-(forest_alter m row)|]. intros [] H; cbn in H; try done.
  - destruct H as [H|(q & -> & H)]; [by rewrite Hfrow in H|]. destruct (Hnot q eq_refl) as [_ Hq].
    destruct (m !! q) eqn:E; [|done]. by rewrite (forest_row _ _ _ E) in H.
  - destruct H as (n & Hn & H). rewrite Hfrow in Hn. by simplify_eq.
  - destruct H as [_ (q & -> & Hu)]. by destruct (Hnot q eq_refl).
  - destruct H as (x & k & l & l' & Hu & Hk & Hl & Hl' & Hd). rewrite (level_det _ _ _ _ Hk Hlevel) in Hd.
    assert (∃ r, m !! x = Some r) as [r Hx].
    { inversion Hl' as [? ? Hx|? ? ? ? Hx]; apply forest_lookup in Hx as (r & Hx & _); by exists r. }
    specialize (Hshallow x r Hx (proj2 (below_under m Hm _ x row r Hrow Hx) Hu)).
    rewrite (slugs_det _ _ _ _ Hl (tree_slugs m Hm _ _ Hrow)), (slugs_det _ _ _ _ Hl' (tree_slugs m Hm _ _ Hx)) in Hd.
    rewrite <-!Depth_segs in Hd. lia.
Qed.

Lemma Delete_refined now id m : tree_ok m → refined (ODelete id) m (perform now (ODelete id) m).
Proof.
  intros Hm. unfold perform, Delete. destruct (m !! id) as [row|] eqn:Hrow; [|by apply forest_none].
  assert (∀ x r, filter (λ kv, below (c_Path row) (c_Path kv.2) = false) m !! x = Some r ↔
    m !! x = Some r ∧ ¬ under (forest_of m) id x) as Hf.
  { intros x r. rewrite map_lookup_filter_Some. cbn. split; intros [Hx H]; (split; [done|]);
      rewrite <-(below_under m Hm id x row r Hrow Hx) in *; by apply not_true_iff_false. }
  cbn. split; [|split].
  - constructor; intros x; intros; repeat match goal with H : filter _ m !! _ = Some _ |- _ => apply Hf in H as [? ?] end.
    + by apply (tree_key m Hm).
    + by apply (tree_slug m Hm x).
    + pose proof (tree_path m Hm x r ltac:(done)) as Hp. destruct (c_ParentID r) as [p|] eqn:Ep; [|done].
      destruct Hp as (pr & Hpr & Hp). exists pr. split; [|done]. apply Hf. split; [done|]. intros Hu.
      match goal with H : ¬ under _ _ x |- _ => apply H end.
      by apply (under_child _ _ x p (node_of r)); [apply forest_row| |].
    + by eapply (tree_sib m Hm).
    + by apply (tree_depth m Hm x).
  - intros x n. rewrite !forest_lookup. setoid_rewrite Hf. naive_solver.
  - intros [] H; try done. by rewrite (forest_row _ _ _ Hrow) in H.
Qed.

(** ** Stores in use *)

Inductive reachable : gmap string Collection → Prop :=
| reachable_empty : reachable ∅
| reachable_op now o m m' : reachable m → fresh_id o m → perform now o m = Ok m' → reachable m'.

Lemma op_refined now o m : tree_ok m → fresh_id o m → refined o m (perform now o m).
Proof.
  intros Hm Hf. destruct o; [by apply Create_refined|by apply Rename_refined|by apply Move_refined|by apply Delete_refined].
Qed.

Lemma reachable_tree m : reachable m → tree_ok m.
Proof.
  induction 1 as [|now o m m' _ IH Hf Hp]; [by (constructor; intros x; intros; rewrite lookup_empty in *)|].
  pose proof (op_refined now o m IH Hf) as H. rewrite Hp in H. apply H.
Qed.

(** C5. Every store reached through the API is the forest its parent ids draw: an
    operation that succeeds does to the forest what its name says and nothing else, in
    a store whose paths again spell the slugs from the root, siblings differ and no path
    is deeper than twelve; it fails exactly when the forest gives a reason, with the
    error of one. *)
Theorem folders_refine_forest now o m :
  reachable m → fresh_id o m →
  match perform now o m with
  | Ok m' => does o (forest_of m) (forest_of m') ∧ tree_ok m' ∧ ∀ e, ¬ refuses o (forest_of m) e
  | Err e => refuses o (forest_of m) e
  end.
Proof.
  intros Hm Hf. pose proof (op_refined now o m (reachable_tree m Hm) Hf) as H. unfold refined in H.
  destruct (perform now o m); [by destruct H as (? & ? & ?)|done].
Qed.

(** Reads, whatever order the range over the map took: a path names at most one row,
    and the subtree listed is the subtree, in path order. *)
Lemma GetByPath_spec m visit path r :
  tree_ok m → visit ≡ₚ (map_to_list m).*2 → GetByPath visit path = Ok r ↔ m !! c_ID r = Some r ∧ c_Path r = path.
Proof.
  intros Hm Hv. unfold GetByPath.
  assert (∀ s, s ∈ filter (λ row, c_Path row = path) visit ↔ m !! c_ID s = Some s ∧ c_Path s = path) as Hin.
  { intros s. rewrite list_elem_of_filter, Hv, list_elem_of_fmap. split.
    - intros (Hp & [x s'] & -> & Hx%elem_of_map_to_list). cbn in *. by rewrite (tree_key m Hm x s' Hx).
    - intros (Hx & Hp). split; [done|]. exists (c_ID s, s). split; [done|]. by apply elem_of_map_to_list. }
  destruct (filter _ visit) as [|s l]; [split; [done|]; intros H%Hin; by apply not_elem_of_nil in H|].
  assert (m !! c_ID s = Some s ∧ c_Path s = path) as [Hs Hp] by (apply Hin; constructor).
  split; [intros [= <-]; done|]. intros [Hr Hp']. f_equal.
  assert (c_ID s = c_ID r) as E by (apply (path_inj m Hm _ _ s r Hs Hr); congruence). congruence.
Qed.

Lemma Descendants_spec m visit a ra :
  tree_ok m → visit ≡ₚ (map_to_list m).*2 → m !! a = Some ra →
  StronglySorted (not_after path_lt) (Descendants visit (c_Path ra)) ∧
  ∀ x rx, m !! x = Some rx → rx ∈ Descendants visit (c_Path ra) ↔ under (forest_of m) a x.
Proof.
  intros Hm Hv Ha. split.
  - apply sort_by_sorted; intros r s *; [apply string_ltb_asym|apply string_ltb_cotrans].
  - intros x rx Hx. unfold Descendants. rewrite sort_by_Permutation, list_elem_of_filter, Hv.
    rewrite <-(below_under m Hm a x ra rx Ha Hx). split; [intros [[H|H] _]; [by destruct (path_ne m a ra Hm Ha)|done]|].
    intros Hb. split; [by right|]. apply list_elem_of_fmap. exists (x, rx). split; [done|]. by apply elem_of_map_to_list.
Qed.

(** ** The handlers *)

Definition fresh_request (r : c_request) (l : library) : Prop :=
  match r with PostCreate id _ => folders l !! id = None | _ => True end.

Lemma update_tree now id body l : tree_ok (folders l) → tree_ok (folders (update now id body l).2).
Proof.
  intros Hl. unfold update. case_decide as Hid; [done|]. destruct body as [b|]; [|done]. case_decide as Hnil; [done|].
  destruct (if ub_MoveParent b then _ else _) as [l'|e] eqn:Hmv; [|done].
  assert (tree_ok (folders l')) as Hl'.
  { destruct (ub_MoveParent b); [|by simplify_eq]. pose proof (Move_refined now id (ub_ParentID b) (folders l) Hl) as H.
    unfold perform in H. destruct (Move _ _ _ _) as [[c m]|]; simplify_eq. apply H. }
  case_decide as Hmv2; [by destruct (GetByID _ _)|].
  pose proof (Rename_refined now id (mkUpdateInput (ub_Slug b) (ub_Name b)) (folders l') Hl') as H.
  unfold perform in H. destruct (Rename _ _ _ _) as [[c m]|]; [apply H|done].
Qed.

(** A request keeps the tree, and the folders and media of one without the capability
    stay as they are. *)
Lemma handle_tree roleCaps now principal r l :
  tree_ok (folders l) → fresh_request r l → tree_ok (folders (handle roleCaps now principal r l).2).
Proof.
  intros Hl Hf. unfold handle. destruct (route now r) as [cap next] eqn:Hr. unfold gate.
  destruct principal as [p|]; [|done]. destruct (Allowed _); [|done].
  destruct r as [visit|id body|id|id body|id|body]; simplify_eq/=; [done| |unfold get| |unfold delete|unfold moveMedia].
  - unfold create. destruct body as [b|]; [|done]. pose proof (Create_refined now id b (folders l) Hl Hf) as H.
    unfold perform in H. destruct (Create _ _ _ _) as [[c m]|]; [apply H|done].
  - case_decide; [done|]. by destruct (GetByID _ _).
  - by apply update_tree.
  - case_decide as Hid; [done|]. pose proof (Delete_refined now id (folders l) Hl) as H. unfold perform in H.
    destruct (Delete _ _); [apply H|done].
  - destruct body as [b|]; [|done]. repeat case_match; simplify_eq; done.
Qed.

Lemma handle_refused roleCaps now principal r l :
  (∀ pr, principal = Some pr → Allowed (Can roleCaps pr (route now r).1) = false) →
  (handle roleCaps now principal r l).2 = l.
Proof.
  intros Hp. unfold handle. destruct (route now r) as [cap next]. cbn in Hp. unfold gate.
  destruct principal as [p|]; [|done]. by rewrite Hp.
Qed.

(** [POST /move] files the live media of the list, each once, and reports the others. *)
Definition live (m : gmap string Asset) (id : string) : bool :=
  match m !! id with Some a => negb (a_deleted a) | None => false end.

Lemma SetCollection_live now id target m :
  SetCollection now id target m =
    if live m id then Ok (<[id := mkAsset target now false]> m) else Err ErrNotFound.
Proof. unfold SetCollection, live. destruct (m !! id) as [a|]; [|done]. by destruct (a_deleted a). Qed.

Lemma live_set now target m x y : live m x = true → live (<[x := mkAsset target now false]> m) y = live m y.
Proof.
  intros Hx. unfold live in *. destruct (decide (x = y)) as [<-|Hne]; [by rewrite lookup_insert_eq, Hx|].
  by rewrite lookup_insert_ne.
Qed.

Local Ltac filed :=
  repeat case_decide; rewrite ?elem_of_cons in *; (done || (destruct_and?; destruct_or?; subst; naive_solver congruence)).

Lemma move_loop_spec now ids target moved failed m moved' failed' m' :
  move_loop now ids target moved failed m = (moved', failed', m') →
  moved' = moved + length (filter (λ id, live m id = true) ids) ∧
  (∀ id, m' !! id = if decide (id ∈ ids ∧ live m id = true) then Some (mkAsset target now false) else m !! id) ∧
  (∀ id, failed' !! id = if decide (id ∈ ids ∧ live m id = false) then Some "not_found" else failed !! id).
Proof.
  revert moved failed m. induction ids as [|i ids IH]; intros moved failed m; cbn [move_loop].
  - intros [= <- <- <-]. split; [cbn; lia|]. split; intros id; by rewrite decide_False by by intros [H%not_elem_of_nil _].
  - rewrite SetCollection_live. rewrite filter_cons. destruct (live m i) eqn:Hi; intros H; apply IH in H as (-> & Hm & Hfl).
    + rewrite decide_True by done.
      assert (filter (λ id, live (<[i:=mkAsset target now false]> m) id = true) ids = filter (λ id, live m id = true) ids) as ->.
      { apply list_filter_iff. intros x. by rewrite live_set. }
      split; [cbn; lia|]. split; intros id; [rewrite Hm|rewrite Hfl]; rewrite (live_set _ _ _ _ _ Hi); clear Hm Hfl.
      * destruct (decide (i = id)) as [<-|Hne]; [rewrite lookup_insert_eq|rewrite lookup_insert_ne by done];
          filed.
      * filed.
    + rewrite decide_False by congruence. split; [done|]. split; intros id; [rewrite Hm|rewrite Hfl]; clear Hm Hfl.
      * filed.
      * destruct (decide (i = id)) as [<-|Hne]; [rewrite lookup_insert_eq|rewrite lookup_insert_ne by done];
          filed.
Qed.

(** ** Runs *)

Definition run (l : list (Time * op)) (m : gmap string Collection) : gmap string Collection :=
  foldl (λ m '(t, o), match perform t o m with Ok m' => m' | Err _ => m end) m l.

Fixpoint fresh_run (l : list (Time * op)) (m : gmap string Collection) : bool :=
  match l with
  | [] => true
  | (t, o) :: l =>
      match o with OCreate id _ => bool_decide (m !! id = None) | _ => true end &&
      fresh_run l (match perform t o m with Ok m' => m' | Err _ => m end)
  end.

Lemma run_reachable l m : reachable m → fresh_run l m = true → reachable (run l m).
Proof.
  revert m. induction l as [|[t o] l IH]; intros m Hm; [done|]. cbn [fresh_run]. intros [Hf Hl]%andb_true_iff.
  unfold run. cbn [foldl]. apply IH; [|done]. destruct (perform t o m) as [m'|] eqn:Hp; [|done].
  apply (reachable_op t o m); [done| |done]. destruct o; try done. by apply bool_decide_eq_true_1 in Hf.
Qed.

Module shelf.
Definition new (id slug : string) (parent : option string) : op := OCreate id (mkCreateInput slug slug parent).
Definition ops : list (Time * op) :=
  [(1%Z, new "p" "photos" None); (2%Z, new "r" "raw" (Some "p")); (3%Z, new "y" "2026" (Some "r"));
   (4%Z, new "q" "photos-2" None)].
Definition rows : gmap string Collection := run ops ∅.
Definition paths (m : gmap string Collection) : list string := c_Path <$> List (map_to_list m).*2.
End shelf.

Example shelf_reachable : reachable shelf.rows.
Proof. apply run_reachable; [constructor|]. by vm_compute. Qed.

(** A folder moved takes its subtree along; under itself it does not go. *)
Example subtree_moves :
  (match Move 5%Z "r" (Some "q") shelf.rows with Ok (_, m) => shelf.paths m | Err _ => [] end)
    = ["photos"; "photos-2"; "photos-2.raw"; "photos-2.raw.2026"] ∧
  perform 5%Z (OMove "p" (Some "y")) shelf.rows = Err ErrCycle.
Proof. by vm_compute. Qed.

(** The list is in path order, which is not depth first: a hyphen sorts before the dot,
    so [photos-2] comes between [photos] and what is in it. *)
Example list_not_preorder : shelf.paths shelf.rows = ["photos"; "photos-2"; "photos.raw"; "photos.raw.2026"].
Proof. by vm_compute. Qed.

(** A request with both a parent and a slug is not rejected, and when the rename fails
    the move stays. *)
Example half_done_update :
  let '(a, l) := update 5%Z "q" (Ok (mkUpdateBody (Some "raw") None (Some "p") true)) (mkLibrary shelf.rows ∅) in
  a = WriteError 409 "slug_conflict" "slug conflicts with a sibling" ∧
  shelf.paths (folders l) = ["photos"; "photos.photos-2"; "photos.raw"; "photos.raw.2026"].
Proof. by vm_compute. Qed.

(** Deleting a folder leaves its media filed under the id that is gone. *)
Example media_of_deleted_folder :
  let '(a, l) := delete "p" (mkLibrary shelf.rows {["img" := mkAsset (Some "r") 3 false]}) in
  a = NoContent ∧ shelf.paths (folders l) = ["photos-2"] ∧ a_CollectionID <$> assets l !! "img" = Some (Some "r").
Proof. by vm_compute. Qed.

Lemma folders_refine_forest_witness :
  ∃ m', perform 5 (OMove "r" (Some "q")) shelf.rows = Ok m' ∧ tree_ok m' ∧
    does (OMove "r" (Some "q")) (forest_of shelf.rows) (forest_of m').
Proof.
  pose proof (folders_refine_forest 5 (OMove "r" (Some "q")) shelf.rows shelf_reachable I) as H.
  destruct (perform 5 (OMove "r" (Some "q")) shelf.rows) as [m'|e] eqn:E.
  - exists m'. destruct H as (H1 & H2 & _). split; [reflexivity|]. split; [exact H2|exact H1].
  - vm_compute in E. discriminate E.
Defined.
