(* ===== verification/Shutdown.v ===== *)
(** * Graceful shutdown (packages/go/shutdown/orchestrator.go)

    Registration, the drain with its time budget, and what they promise: every accepted
    closer is called once, last registered first, whatever the others do, and closers
    that mind their context keep the whole drain within its budget. A context is the
    moment it is done; the closers act on a state and take their time as they like.
    Logging and the signal handling of [Wait] are left out. *)
From S2P Require Import Prelude.

Definition defaultBudget : Duration := (30 * second)%Z.
Definition minPerStepBudget : Duration := 100000000%Z.

(** Whether the context is done at a time. *)
Definition Context_ : Type := Time → bool.
Definition Background : Context_ := λ _, false.
Definition WithTimeout (parent : Context_) (now : Time) (d : Duration) : Context_ :=
  λ t, parent t || (now + d <=? t)%Z.

Inductive closed := Returned (err : option string) | Panicked (value : string).

Section orchestrator.
Context {S : Type}.

(** Called at a time with a context; comes back at a later one. *)
Definition Closer : Type := S → Time → Context_ → S * Time * closed.

Record step := mkStep { st_name : string; st_closer : Closer }.

Inductive State := StateReady | StateDraining | StateDone.

(** [drainErr] once [drainOnce] has run. *)
Record Orchestrator := mkOrchestrator {
  budget : Duration; steps : list step; state : State; drainErr : option (list string) }.

Definition New (b : Duration) : Orchestrator :=
  mkOrchestrator (if (b <=? 0)%Z then defaultBudget else b) [] StateReady None.

Inductive register_error := ErrNilCloser (name : string) | ErrDraining.

Definition Register (name : string) (closer : option Closer) (o : Orchestrator)
    : option register_error * Orchestrator :=
  match closer with
  | None => (Some (ErrNilCloser name), o)
  | Some c =>
      match state o with
      | StateReady => (None, mkOrchestrator (budget o) (steps o ++ [mkStep name c]) (state o) (drainErr o))
      | _ => (Some ErrDraining, o)
      end
  end.

Definition callCloser (c : Closer) (s : S) (now : Time) (ctx : Context_) : S * Time * option string :=
  match c s now ctx with
  | (s, t, Returned err) => (s, t, err)
  | (s, t, Panicked v) => (s, t, Some ("panic: " +:+ v))
  end.

Definition detachIfCanceled (ctx : Context_) (now : Time) : Context_ := if ctx now then Background else ctx.

Definition stepBudget (b : Duration) (elapsed : Duration) (remainingSteps : nat) : Duration :=
  let d := Z.quot (b - elapsed) (Z.of_nat remainingSteps) in
  if (d <? minPerStepBudget)%Z then minPerStepBudget else d.

(** What is known of one call: the closer's name, when it began, its budget, the context
    it was given, and its error. *)
Record call_log := mkCall {
  l_name : string; l_start : Time; l_budget : Duration; l_ctx : Context_; l_err : option string }.

(** The loop of [drain]; [todo] is what is left of the snapshot, last registered first. *)
Fixpoint drain_loop (ctx : Context_) (b : Duration) (start : Time) (todo : list step) (s : S) (now : Time)
    : S * Time * list call_log :=
  match todo with
  | [] => (s, now, [])
  | st :: todo =>
      let d := stepBudget b (now - start) (Datatypes.S (length todo)) in
      let stepCtx := WithTimeout (detachIfCanceled ctx now) now d in
      let '(s, t, err) := callCloser (st_closer st) s now stepCtx in
      let '(s, t, log) := drain_loop ctx b start todo s t in
      (s, t, mkCall (st_name st) now d stepCtx err :: log)
  end.

(** The joined errors; none at all is a clean drain. *)
Definition errors_of (log : list call_log) : list string :=
  omap (λ c, match l_err c with Some e => Some ("shutdown: " +:+ l_name c +:+ ": " +:+ e) | None => None end) log.

(** [drain] up to the unlock: the state flips and the steps are snapshotted. *)
Definition begin_drain (o : Orchestrator) : option (list step * Orchestrator) :=
  match state o with
  | StateReady => Some (rev (steps o), mkOrchestrator (budget o) (steps o) StateDraining (drainErr o))
  | _ => None
  end.

Definition finish_drain (log : list call_log) (o : Orchestrator) : Orchestrator :=
  mkOrchestrator (budget o) (steps o) StateDone (Some (errors_of log)).

(** [Drain]: the first caller drains; the others wait and get its answer. [meanwhile] are
    the registrations tried while the closers run. *)
Definition Drain (ctx : Context_) (meanwhile : list (string * option Closer)) (s : S) (now : Time) (o : Orchestrator)
    : S * Time * list call_log * option (list string) * Orchestrator :=
  match drainErr o with
  | Some errs => (s, now, [], Some errs, o)
  | None =>
      match begin_drain o with
      | None => (s, now, [], Some ["shutdown: already drained"], o)
      | Some (todo, o) =>
          let '(s, t, log) := drain_loop ctx (budget o) now todo s now in
          let o := foldl (λ o '(name, c), (Register name c o).2) o meanwhile in
          let o := finish_drain log o in
          (s, t, log, drainErr o, o)
      end
  end.

(** ** Every closer, once, in reverse *)

Lemma drain_loop_names ctx b start todo s now : l_name <$> (drain_loop ctx b start todo s now).2 = st_name <$> todo.
Proof.
  revert s now. induction todo as [|st todo IH]; intros s now; [done|]. cbn [drain_loop].
  destruct (callCloser _ _ _ _) as [[s' t] err]. specialize (IH s' t). destruct (drain_loop _ _ _ _ _ _) as [[s'' t'] log].
  cbn in *. by rewrite IH.
Qed.

(** ** Time *)

(** A closer that minds its context: it comes back, and at the latest when that is done. *)
Definition prompt (c : Closer) : Prop :=
  ∀ s now ctx s' t r, c s now ctx = (s', t, r) → (now ≤ t ∧ ∀ u, now ≤ u < t → ctx u = false)%Z.

Lemma prompt_step c parent s now d s' t err :
  prompt c → (0 ≤ d)%Z → callCloser c s now (WithTimeout parent now d) = (s', t, err) → (now ≤ t ≤ now + d)%Z.
Proof.
  intros Hc Hd. unfold callCloser. destruct (c s now _) as [[s1 t1] r] eqn:E. intros H.
  assert (t1 = t) as -> by (destruct r; congruence). destruct (Hc _ _ _ _ _ _ E) as [Hle Hctx]. split; [done|].
  destruct (Z.le_gt_cases t (now + d)) as [?|Hgt]; [done|]. specialize (Hctx (now + d)%Z ltac:(lia)).
  unfold WithTimeout in Hctx. apply orb_false_iff in Hctx as [_ H1]. lia.
Qed.

Lemma stepBudget_min b el k : (minPerStepBudget ≤ stepBudget b el k)%Z.
Proof. unfold stepBudget. destruct (Z.ltb_spec (Z.quot (b - el) (Z.of_nat k)) minPerStepBudget); lia. Qed.

(** The share of a step, when there is enough left for a minimum [m] each. *)
Lemma stepBudget_share b el k m :
  (minPerStepBudget ≤ m)%Z → (Z.of_nat (Datatypes.S k) * m ≤ b - el)%Z →
  (m ≤ stepBudget b el (Datatypes.S k) ∧ Z.of_nat k * m ≤ b - el - stepBudget b el (Datatypes.S k))%Z.
Proof.
  intros Hmin Hm. unfold stepBudget, minPerStepBudget in *. set (n := Z.of_nat (Datatypes.S k)) in *.
  assert (0 < n)%Z as Hn by lia. rewrite Z.quot_div_nonneg by nia.
  assert (m ≤ (b - el) / n)%Z as Hq by (apply Z.div_le_lower_bound; lia).
  destruct (Z.ltb_spec ((b - el) / n) 100000000); [lia|]. split; [done|].
  pose proof (Z.mul_div_le (b - el) n Hn). assert (Z.of_nat k = n - 1)%Z as -> by lia. nia.
Qed.

(** Never more than the budget and a minimum for each closer. *)
Lemma drain_loop_time ctx b start todo s now s' t log :
  Forall (λ st, prompt (st_closer st)) todo → (start ≤ now)%Z →
  drain_loop ctx b start todo s now = (s', t, log) →
  (now ≤ t ∧ t - start ≤ Z.max (now - start) b + Z.of_nat (length todo) * minPerStepBudget)%Z.
Proof.
  revert s now s' t log. induction todo as [|st todo IH]; intros s now s' t log Hp Hs; cbn [drain_loop].
  { intros [= <- <- <-]. cbn. lia. }
  apply Forall_cons in Hp as [Hst Hp]. set (d := stepBudget _ _ _). pose proof (stepBudget_min b (now - start) (Datatypes.S (length todo))) as Hd.
  fold d in Hd. destruct (callCloser _ _ _ _) as [[s1 t1] err] eqn:Hc.
  apply prompt_step in Hc as [H1 H2]; [|done|unfold minPerStepBudget in Hd; lia].
  destruct (drain_loop _ _ _ _ _ _) as [[s2 t2] log2] eqn:Hl. intros [= <- <- <-].
  apply IH in Hl as [H3 H4]; [|done|lia]. split; [lia|]. cbn [length].
  assert (d ≤ Z.max minPerStepBudget (b - (now - start)))%Z.
  { unfold d, stepBudget. destruct (Z.ltb_spec (Z.quot (b - (now - start)) (Z.of_nat (Datatypes.S (length todo)))) minPerStepBudget) as [?|Hq]; [lia|].
    destruct (Z.le_gt_cases 0 (b - (now - start))) as [Hpos|Hneg].
    - rewrite Z.quot_div_nonneg in * by lia. pose proof (Z.div_le_upper_bound (b - (now - start)) (Z.of_nat (Datatypes.S (length todo))) (b - (now - start)) ltac:(lia) ltac:(nia)). lia.
    - pose proof (Z.quot_le_mono (b - (now - start)) 0 (Z.of_nat (Datatypes.S (length todo))) ltac:(lia) ltac:(lia)) as Hz.
      rewrite Z.quot_0_l in Hz by lia. unfold minPerStepBudget in *. lia. }
  unfold minPerStepBudget in *. lia.
Qed.

(** The closer may go on for a time [d], or until the caller's context is done; and for
    the minimum if that was done before the closer was called. *)
Definition lasts (ctx : Context_) (d : Duration) (c : call_log) : Prop :=
  (∀ u, l_start c ≤ u < l_start c + d → ctx u = false → l_ctx c u = false)%Z ∧
  (ctx (l_start c) = true → ∀ u, l_start c ≤ u < l_start c + minPerStepBudget → l_ctx c u = false)%Z.

Lemma stepCtx_open ctx now d u :
  (u < now + d)%Z → (ctx now = true ∨ ctx u = false) → WithTimeout (detachIfCanceled ctx now) now d u = false.
Proof.
  intros Hu Hc. unfold WithTimeout, detachIfCanceled. apply orb_false_iff. split; [|by apply Z.leb_gt].
  destruct (ctx now); [done|]. by destruct Hc.
Qed.

Lemma stepCtx_lasts ctx name now d m err :
  (minPerStepBudget ≤ d)%Z → (m ≤ d)%Z → lasts ctx m (mkCall name now d (WithTimeout (detachIfCanceled ctx now) now d) err).
Proof.
  intros Hmin Hm. split; cbn [l_start l_ctx]; [intros u Hu Hc|intros Hc u Hu]; apply stepCtx_open; (lia || auto).
Qed.

Lemma drain_loop_lasts ctx b start todo s now s' t log :
  drain_loop ctx b start todo s now = (s', t, log) → Forall (lasts ctx minPerStepBudget) log.
Proof.
  revert s now s' t log. induction todo as [|st todo IH]; intros s now s' t log; cbn [drain_loop]; [by intros [= <- <- <-]|].
  destruct (callCloser _ _ _ _) as [[s1 t1] err]. destruct (drain_loop _ _ _ _ _ _) as [[s2 t2] log2] eqn:Hl.
  intros [= <- <- <-]. constructor; [|by eapply IH]. by apply stepCtx_lasts; apply stepBudget_min.
Qed.

(** With enough for a minimum each, the budget is kept, and no closer's context ends
    before its even share, whatever those before it took. *)
Lemma drain_loop_share ctx b start todo s now s' t log m :
  Forall (λ st, prompt (st_closer st)) todo → (start ≤ now)%Z → (minPerStepBudget ≤ m)%Z →
  (Z.of_nat (length todo) * m ≤ b - (now - start))%Z →
  drain_loop ctx b start todo s now = (s', t, log) →
  (t - start ≤ b)%Z ∧ Forall (lasts ctx m) log.
Proof.
  revert s now s' t log. induction todo as [|st todo IH]; intros s now s' t log Hp Hs Hmin Hm; cbn [drain_loop].
  { intros [= <- <- <-]. cbn in Hm. split; [lia|done]. }
  apply Forall_cons in Hp as [Hst Hp]. cbn [length] in Hm. set (d := stepBudget _ _ _).
  destruct (stepBudget_share b (now - start) (length todo) m Hmin Hm) as [Hd1 Hd2]. fold d in Hd1, Hd2.
  destruct (callCloser _ _ _ _) as [[s1 t1] err] eqn:Hc.
  apply prompt_step in Hc as [H1 H2]; [|done|unfold minPerStepBudget in *; lia].
  destruct (drain_loop _ _ _ _ _ _) as [[s2 t2] log2] eqn:Hl. intros [= <- <- <-].
  apply IH in Hl as [H3 H4]; [|done|lia|done|lia]. split; [lia|]. constructor; [|done]. apply stepCtx_lasts; [apply stepBudget_min|done].
Qed.

(** ** The orchestrator in use *)

Inductive request := RRegister (name : string) (c : option Closer) | RDrain (ctx : Context_) (at_ : Time) (meanwhile : list (string * option Closer)).

(** A call and what came of it: the names accepted, the closers called. *)
Definition serve (r : request) (so : S * Orchestrator) : S * Orchestrator * list string * list call_log :=
  let '(s, o) := so in
  match r with
  | RRegister name c => let '(e, o) := Register name c o in (s, o, match e with None => [name] | Some _ => [] end, [])
  | RDrain ctx now meanwhile => let '(s, _, log, _, o) := Drain ctx meanwhile s now o in (s, o, [], log)
  end.

Fixpoint serve_all (rs : list request) (so : S * Orchestrator) : S * Orchestrator * list string * list call_log :=
  match rs with
  | [] => (so.1, so.2, [], [])
  | r :: rs =>
      let '(s, o, names, log) := serve r so in
      let '(s, o, names', log') := serve_all rs (s, o) in
      (s, o, names ++ names', log ++ log')
  end.
End orchestrator.

(** ** What is promised *)

Section promised.
Context {S : Type}.
Abbreviation Orch := (Orchestrator (S := S)).

Definition is_drain (r : request (S := S)) : bool := match r with RDrain _ _ _ => true | RRegister _ _ => false end.

Lemma register_ready name c (o : Orch) :
  state o = StateReady →
  state (Register name c o).2 = StateReady ∧ drainErr (Register name c o).2 = drainErr o ∧
  st_name <$> steps (Register name c o).2 =
    (st_name <$> steps o) ++ match (Register name c o).1 with None => [name] | Some _ => [] end.
Proof.
  intros Ho. unfold Register. destruct c as [c|]; [|by rewrite app_nil_r]. rewrite Ho. cbn. by rewrite fmap_app.
Qed.

Lemma register_closed name c (o : Orch) : state o ≠ StateReady → (Register name c o).2 = o ∧ (Register name c o).1 ≠ None.
Proof. intros Ho. unfold Register. destruct c as [c|]; [|done]. by destruct (state o). Qed.

Lemma meanwhile_closed (l : list (string * option Closer)) (o : Orch) :
  state o ≠ StateReady → foldl (λ o '(name, c), (Register name c o).2) o l = o.
Proof.
  revert o. induction l as [|[name c] l IH]; intros o Ho; [done|]. cbn.
  destruct (register_closed name c o Ho) as [-> _]. by apply IH.
Qed.

(** A drain over: nothing more is accepted and nothing more is called. *)
Definition over (o : Orch) : Prop := state o = StateDone ∧ drainErr o ≠ None.

Lemma drain_over ctx meanwhile s now (o : Orch) :
  over o → Drain ctx meanwhile s now o = (s, now, [], drainErr o, o).
Proof. intros [Hs He]. unfold Drain. by destruct (drainErr o). Qed.

Lemma drain_ready ctx meanwhile s now (o : Orch) :
  state o = StateReady → drainErr o = None →
  let '(s', t, log) := drain_loop ctx (budget o) now (rev (steps o)) s now in
  Drain ctx meanwhile s now o =
    (s', t, log, Some (errors_of log), mkOrchestrator (budget o) (steps o) StateDone (Some (errors_of log))).
Proof.
  intros Ho He. unfold Drain, begin_drain. rewrite He, Ho. cbn [budget].
  destruct (drain_loop _ _ _ _ _ _) as [[s' t] log]. by rewrite meanwhile_closed.
Qed.

Lemma serve_over rs s (o : Orch) : over o → serve_all rs (s, o) = (s, o, [], []).
Proof.
  intros Ho. induction rs as [|r rs IH]; [done|]. cbn [serve_all].
  assert (serve r (s, o) = (s, o, [], [])) as ->; [|by rewrite IH].
  destruct r as [name c|ctx now meanwhile]; cbn [serve].
  - destruct (register_closed name c o) as [H1 H2]; [by destruct Ho as [-> _]|].
    destruct (Register name c o) as [[e|] o']; cbn in *; [by subst|done].
  - by rewrite drain_over.
Qed.

Lemma serve_ready rs s (o : Orch) s' o' names log :
  state o = StateReady → drainErr o = None → serve_all rs (s, o) = (s', o', names, log) →
  if existsb is_drain rs then l_name <$> log = rev ((st_name <$> steps o) ++ names) ∧ over o'
  else log = [] ∧ st_name <$> steps o' = (st_name <$> steps o) ++ names.
Proof.
  revert s o names log. induction rs as [|r rs IH]; intros s o names log Ho He.
  { cbn. intros [= <- <- <- <-]. by rewrite app_nil_r. }
  cbn [serve_all existsb]. destruct r as [name c|ctx now meanwhile]; cbn [serve is_drain orb].
  - destruct (register_ready name c o Ho) as (H1 & H2 & H3). destruct (Register name c o) as [e o1]. cbn in H1, H2, H3.
    destruct (serve_all rs (s, o1)) as [[[s2 o2] names2] log2] eqn:Hr. intros [= <- <- <- <-].
    apply IH in Hr; [|done|congruence]. rewrite H3, <-app_assoc in Hr. exact Hr.
  - pose proof (drain_ready ctx meanwhile s now o Ho He) as Hd. pose proof (drain_loop_names ctx (budget o) now (rev (steps o)) s now) as Hn.
    destruct (drain_loop _ _ _ _ _ _) as [[s1 t1] log1]. rewrite Hd. rewrite serve_over by done. intros [= <- <- <- <-].
    rewrite !app_nil_r. split; [|done]. cbn in Hn. rewrite Hn. by rewrite <-map_rev.
Qed.
End promised.

(** Whatever registrations and drains are called, and in whatever order: the closers
    called over the whole life of the orchestrator are those accepted, each once, the
    last first - as soon as there is a drain at all, however many there are, whether
    closers fail or panic, and whatever is registered meanwhile; without one, none. *)
Theorem closers_run_once {S : Type} (rs : list (request (S := S))) b s s' o' names log :
  serve_all rs (s, New b) = (s', o', names, log) →
  l_name <$> log = if existsb is_drain rs then rev names else [].
Proof.
  intros H. apply serve_ready in H; [|done|done]. destruct (existsb is_drain rs); [by destruct H|]. by destruct H as [-> _].
Qed.

(** C34. Closers that mind their context keep the drain within its budget plus 100ms for
    each of them, and within the budget itself when it has 100ms for each. In that case
    the context of every closer lasts at least its even share of the budget, however slow
    the others were, unless the caller's own context is done first; and in any case a
    closer called after that one was done still has a context of at least 100ms. *)
Theorem drain_within_budget {S : Type} ctx meanwhile s now (o : Orchestrator (S := S)) s' t log err o' :
  state o = StateReady → drainErr o = None → (0 ≤ budget o)%Z → Forall (λ st, prompt (st_closer st)) (steps o) →
  Drain ctx meanwhile s now o = (s', t, log, err, o') →
  let n := Z.of_nat (length (steps o)) in
  (now ≤ t ∧ t - now ≤ budget o + n * minPerStepBudget)%Z ∧
  Forall (λ c, ctx (l_start c) = true →
    ∀ u, (l_start c ≤ u < l_start c + minPerStepBudget)%Z → l_ctx c u = false) log ∧
  ((n * minPerStepBudget ≤ budget o)%Z →
     (t - now ≤ budget o)%Z ∧
     Forall (λ c, ∀ u, (l_start c ≤ u < l_start c + budget o / n)%Z → ctx u = false → l_ctx c u = false) log).
Proof.
  intros Ho He Hb Hp Hd n. pose proof (drain_ready ctx meanwhile s now o Ho He) as Hr.
  destruct (drain_loop _ _ _ _ _ _) as [[s1 t1] log1] eqn:Hl. rewrite Hr in Hd. simplify_eq.
  assert (Forall (λ st, prompt (st_closer st)) (rev (steps o))) as Hp' by by apply Forall_rev.
  assert (Z.of_nat (length (rev (steps o))) = n) as Hn by by rewrite length_rev. split; [|split].
  - apply drain_loop_time in Hl as [H1 H2]; [|done|lia]. rewrite Hn in H2. lia.
  - eapply Forall_impl; [exact (drain_loop_lasts _ _ _ _ _ _ _ _ _ Hl)|]. by intros c [_ ?].
  - intros Hroom. assert (∀ d, Forall (lasts ctx d) log →
      Forall (λ c, ∀ u, (l_start c ≤ u < l_start c + d)%Z → ctx u = false → l_ctx c u = false) log) as Hlasts.
    { intros d Hd. eapply Forall_impl; [exact Hd|]. by intros c [? _]. }
    destruct (decide (n = 0)%Z) as [E|E].
    + apply (drain_loop_share _ _ _ _ _ _ _ _ _ minPerStepBudget) in Hl as [H1 H2]; [|done|lia|lia|rewrite Hn; lia].
      split; [done|]. rewrite E, Z.div_0_r. eapply Forall_impl; [exact H2|]. intros c _ u Hu. lia.
    + pose proof (Z.mul_div_le (budget o) n ltac:(lia)).
      apply (drain_loop_share _ _ _ _ _ _ _ _ _ (budget o / n)%Z) in Hl as [H1 H2];
        [split; [done|by apply Hlasts]|done|lia| |rewrite Hn; lia].
      apply Z.div_le_lower_bound; lia.
Qed.

(** ** Runs *)

Module pod.
(** The state lists the closers called; each takes a time of its own, whatever its context. *)
Definition closer (name : string) (takes : Duration) (r : closed) : step (S := list string) :=
  mkStep name (λ s now ctx, (name :: s, (now + takes)%Z, r)).
Definition all : list step :=
  [closer "db" second (Returned None); closer "redis" second (Panicked "nil client"); closer "http" (2 * second) (Returned (Some "busy"))].
Definition register (st : step (S := list string)) : request := RRegister (st_name st) (Some (st_closer st)).
Definition life : list request :=
  (register <$> all) ++ [RDrain Background 0%Z [("late", Some (st_closer (closer "late" 0 (Returned None))))];
                         register (closer "later" 0 (Returned None)); RDrain Background 9%Z []].
Definition idle : Closer (S := list string) := λ s now _, ("idle" :: s, now, Returned None).
Definition quiet : Orchestrator := mkOrchestrator (3 * second) [mkStep "a" idle; mkStep "b" idle] StateReady None.
End pod.

Example life_order :
  let '(s, o, names, log) := serve_all pod.life ([], New 0) in
  s = ["db"; "redis"; "http"] ∧ names = ["db"; "redis"; "http"] ∧ (l_name <$> log) = ["http"; "redis"; "db"] ∧
  drainErr o = Some ["shutdown: http: busy"; "shutdown: redis: panic: nil client"] ∧
  (l_budget <$> log) = [10 * second; 14 * second; 27 * second]%Z.
Proof. by vm_compute. Qed.

(** A context that is done already does not shorten what the closers get. *)
Example canceled_keeps_budget :
  let '(_, _, log, _, _) := Drain (λ _, true) [] [] 0%Z pod.quiet in
  (l_budget <$> log) = [1500000000; 3000000000]%Z ∧ minPerStepBudget = 100000000%Z.
Proof. by vm_compute. Qed.

Lemma closers_run_once_witness :
  ∃ s' o' names log, serve_all pod.life ([], New 0) = (s', o', names, log) ∧
    l_name <$> log = rev names ∧ names = ["db"; "redis"; "http"].
Proof.
  destruct (serve_all pod.life ([], New 0)) as [[[s' o'] names] log] eqn:E. exists s', o', names, log.
  split; [reflexivity|]. split; [exact (closers_run_once pod.life 0 [] s' o' names log E)|].
  vm_compute in E. congruence.
Defined.

Lemma idle_prompt : prompt pod.idle.
Proof. intros s now ctx s' t r [= <- <- <-]. split; lia. Qed.

Lemma quiet_prompt : Forall (λ st, prompt (st_closer st)) (steps pod.quiet).
Proof. constructor; [exact idle_prompt|]. constructor; [exact idle_prompt|]. apply Forall_nil_2. Qed.

Lemma drain_within_budget_witness :
  ∃ s' t log err o', Drain Background [] [] 5 pod.quiet = (s', t, log, err, o') ∧
    (t - 5 ≤ 3 * second)%Z ∧ length log = 2 ∧
    Forall (λ c, ∀ u, (l_start c ≤ u < l_start c + 1500000000)%Z → Background u = false → l_ctx c u = false) log.
Proof.
  destruct (Drain Background [] [] 5 pod.quiet) as [[[[s' t] log] err] o'] eqn:E. exists s', t, log, err, o'.
  split; [reflexivity|].
  assert (length log = 2) as Hlen by (vm_compute in E; injection E as <- <- <- <- <-; reflexivity).
  destruct (drain_within_budget Background [] [] 5 pod.quiet s' t log err o' eq_refl eq_refl ltac:(by vm_compute)
    quiet_prompt E) as (_ & _ & H).
  destruct (H ltac:(by vm_compute)) as [Ht Hall]. split_and!; [exact Ht|exact Hlen|exact Hall].
Defined.

(** The context [Wait] hands to the drain, which ends with the budget. *)
Example Wait_context :
  let '(_, _, log, _, _) := Drain (WithTimeout Background 0 (3 * second)) [] [] 0%Z pod.quiet in
  (λ c, (l_ctx c 1499999999%Z, l_ctx c (3 * second)%Z)) <$> log = [(false, true); (false, true)].
Proof. by vm_compute. Qed.
