(* ===== verification/SafeHttp.v ===== *)
(** * Outbound requests (packages/go/safehttp)

    The address filter bit by bit, as prefixes of the address space; the host check; the
    allowlist; the client with its redirects and its body cap. The address parser of
    net/netip is an argument, the resolver and the transport are commands on a world of
    their own. Texts are ASCII. *)
From S2P Require Import Prelude GoStrings Segments.
From Stdlib Require Import Ascii.

(** ** net/netip *)

(** An address: the zero one, 32 bits, or 128 bits with a zone. *)
Inductive Addr := Addr0 | Addr4 (v : Z) | Addr6 (v : Z) (zone : string).

Definition bits_ok (a : Addr) : Prop :=
  match a with Addr0 => True | Addr4 v => (0 ≤ v < 2 ^ 32)%Z | Addr6 v _ => (0 ≤ v < 2 ^ 128)%Z end.

Module netip.
Local Open Scope Z_scope.
(** Byte [i] from the left of a [w]-bit value. *)
Definition byte_at (w i v : Z) : Z := Z.land (Z.shiftr v (w - 8 * (i + 1))) 255.
Definition v4 (i v : Z) : Z := byte_at 32 i v.
Definition v6 (i v : Z) : Z := byte_at 128 i v.
Definition v6u16 (v : Z) : Z := Z.lor (Z.shiftl (v6 0 v) 8) (v6 1 v).

Definition IsValid (a : Addr) : bool := match a with Addr0 => false | _ => true end.
Definition Is4 (a : Addr) : bool := match a with Addr4 _ => true | _ => false end.
Definition Is6 (a : Addr) : bool := match a with Addr6 _ _ => true | _ => false end.
Definition Is4In6 (a : Addr) : bool :=
  match a with Addr6 v _ => Z.shiftr v 64 =? 0 | _ => false end &&
  match a with Addr6 v _ => Z.shiftr (Z.land v (Z.ones 64)) 32 =? 65535 | _ => false end.
Definition Unmap (a : Addr) : Addr :=
  if Is4In6 a then match a with Addr6 v _ => Addr4 (Z.land v (Z.ones 32)) | a => a end else a.

Definition IsLoopback (a : Addr) : bool :=
  match Unmap a with Addr4 v => v4 0 v =? 127 | Addr6 v _ => v =? 1 | Addr0 => false end.
Definition IsPrivate (a : Addr) : bool :=
  match Unmap a with
  | Addr4 v => (v4 0 v =? 10) || (v4 0 v =? 172) && (Z.land (v4 1 v) 240 =? 16) || (v4 0 v =? 192) && (v4 1 v =? 168)
  | Addr6 v _ => Z.land (v6 0 v) 254 =? 252
  | Addr0 => false
  end.
Definition IsLinkLocalUnicast (a : Addr) : bool :=
  match Unmap a with
  | Addr4 v => (v4 0 v =? 169) && (v4 1 v =? 254)
  | Addr6 v _ => Z.land (v6u16 v) 65472 =? 65152
  | Addr0 => false
  end.
Definition IsLinkLocalMulticast (a : Addr) : bool :=
  match Unmap a with
  | Addr4 v => (v4 0 v =? 224) && (v4 1 v =? 0) && (v4 2 v =? 0)
  | Addr6 v _ => Z.land (v6u16 v) 65295 =? 65282
  | Addr0 => false
  end.
Definition IsInterfaceLocalMulticast (a : Addr) : bool :=
  match a with Addr6 v _ => if Is4In6 a then false else Z.land (v6u16 v) 65295 =? 65281 | _ => false end.
Definition IsMulticast (a : Addr) : bool :=
  match Unmap a with
  | Addr4 v => Z.land (v4 0 v) 240 =? 224
  | Addr6 v _ => v6 0 v =? 255
  | Addr0 => false
  end.
(** Compared as values: neither a mapped 0.0.0.0 nor a zoned :: is unspecified. *)
Definition IsUnspecified (a : Addr) : bool :=
  match a with Addr4 v => v =? 0 | Addr6 v z => (v =? 0) && bool_decide (z = ""%string) | Addr0 => false end.
End netip.

Definition isPublicAddr (ip : Addr) : bool :=
  if negb (netip.IsValid ip) then false
  else if netip.IsLoopback ip || netip.IsPrivate ip || netip.IsLinkLocalUnicast ip || netip.IsLinkLocalMulticast ip
          || netip.IsInterfaceLocalMulticast ip || netip.IsMulticast ip || netip.IsUnspecified ip then false
  else
    let denied4 :=
      match ip with
      | Addr4 v => let b0 := netip.v4 0 v in let b1 := netip.v4 1 v in
          ((b0 =? 169) && (b1 =? 254) || (b0 =? 100) && (Z.land b1 192 =? 64) || (b0 =? 0))%Z
      | _ => false
      end in
    if denied4 then false
    else
      match ip with
      | Addr6 v _ => negb (Z.land (netip.v6 0 v) 254 =? 252)%Z
      | _ => true
      end.

(** ** The filter as prefixes *)

(** [v] lies in the [w]-bit prefix [base/len]. *)
Definition in_prefix (w base len v : Z) : bool := (Z.shiftr v (w - len) =? Z.shiftr base (w - len))%Z.

Definition quad (a b c d : Z) : Z := (a * 2 ^ 24 + b * 2 ^ 16 + c * 2 ^ 8 + d)%Z.

(** What is refused of IPv4, plain and mapped alike; of plain IPv4 only; of IPv6. *)
Definition denied_v4 : list (Z * Z) :=
  [(quad 10 0 0 0, 8); (quad 172 16 0 0, 12); (quad 192 168 0 0, 16); (quad 127 0 0 0, 8); (quad 169 254 0 0, 16); (quad 224 0 0 0, 4)]%Z.
Definition denied_plain_v4 : list (Z * Z) := [(quad 100 64 0 0, 10); (quad 0 0 0 0, 8)]%Z.
Definition denied_v6 : list (Z * Z) :=
  [(1, 128); (252 * 2 ^ 120, 7); (65152 * 2 ^ 112, 10); (255 * 2 ^ 120, 8)]%Z.

Definition denied (w : Z) (l : list (Z * Z)) (v : Z) : bool := existsb (λ '(base, len), in_prefix w base len v) l.
Definition mapped (v : Z) : bool := in_prefix 128 (65535 * 2 ^ 32) 96 v.

(** The filter, said in prefixes. *)
Definition public_spec (a : Addr) : bool :=
  match a with
  | Addr0 => false
  | Addr4 v => negb (denied 32 denied_v4 v || denied 32 denied_plain_v4 v)
  | Addr6 v z =>
      if mapped v then negb (denied 32 denied_v4 (v mod 2 ^ 32)%Z)
      else negb (denied 128 denied_v6 v || (v =? 0)%Z && bool_decide (z = ""))
  end.

(** *** Bits *)

Section bits.
Local Open Scope Z_scope.

Lemma testbit_high n v i : 0 ≤ v < 2 ^ n → 0 ≤ n ≤ i → Z.testbit v i = false.
Proof.
  intros Hv Hi. destruct (Z.eq_dec v 0) as [->|Hne]; [apply Z.bits_0|]. apply Z.bits_above_log2; [lia|].
  apply Z.log2_lt_pow2; [lia|]. pose proof (Z.pow_le_mono_r 2 n i ltac:(lia) ltac:(lia)). lia.
Qed.

Lemma land_mask u n k :
  0 ≤ k ≤ n → 0 ≤ u < 2 ^ n → Z.land u (Z.shiftl (Z.ones (n - k)) k) = u / 2 ^ k * 2 ^ k.
Proof.
  intros Hk Hu. rewrite <-Z.shiftr_div_pow2, <-Z.shiftl_mul_pow2 by lia. apply Z.bits_inj'. intros i Hi.
  rewrite Z.land_spec, !Z.shiftl_spec by lia. destruct (Z.ltb_spec i k) as [Hlt|Hge].
  - rewrite !(Z.testbit_neg_r _ (i - k)) by lia. apply andb_false_r.
  - rewrite Z.shiftr_spec by lia. replace (i - k + k) with i by lia. destruct (Z.ltb_spec i n) as [Hin|Hout].
    + rewrite Z.ones_spec_low by lia. apply andb_true_r.
    + rewrite Z.ones_spec_high by lia. rewrite andb_false_r. symmetry. apply (testbit_high n); lia.
Qed.

Lemma byte_at_div w i v : 0 ≤ w - 8 * (i + 1) → netip.byte_at w i v = v / 2 ^ (w - 8 * (i + 1)) mod 256.
Proof. intros H. unfold netip.byte_at. rewrite Z.shiftr_div_pow2 by done. by rewrite (Z.land_ones _ 8). Qed.

Lemma byte_range w i v : 0 ≤ w - 8 * (i + 1) → 0 ≤ netip.byte_at w i v < 2 ^ 8.
Proof. intros H. rewrite byte_at_div by done. apply Z.mod_pos_bound. lia. Qed.

Lemma in_prefix_div w base len v : 0 ≤ w - len → in_prefix w base len v = (v / 2 ^ (w - len) =? base / 2 ^ (w - len)).
Proof. intros H. unfold in_prefix. by rewrite !Z.shiftr_div_pow2. Qed.

(** The first two bytes, as a masked number; [k] bits of the second are ignored. *)
Lemma two_bytes w v x m y k :
  16 ≤ w → 0 ≤ v < 2 ^ w → 0 ≤ k ≤ 8 → m = Z.shiftl (Z.ones (8 - k)) k → 0 ≤ x < 256 → 0 ≤ y < 256 → y mod 2 ^ k = 0 →
  (netip.byte_at w 0 v =? x) && (Z.land (netip.byte_at w 1 v) m =? y) =
  in_prefix w ((x * 256 + y) * 2 ^ (w - 16)) (16 - k) v.
Proof.
  intros Hw Hv Hk -> Hx Hy Hyk. rewrite (land_mask _ 8) by (lia || apply byte_range; lia).
  rewrite in_prefix_div, !byte_at_div by lia. replace (w - 8 * (0 + 1)) with (w - 8) by lia.
  replace (w - 8 * (1 + 1)) with (w - 16) by lia. replace (w - (16 - k)) with (w - 16 + k) by lia.
  assert (0 < 2 ^ (w - 16)) as Hp by (apply Z.pow_pos_nonneg; lia). assert (0 < 2 ^ k) as Hp2 by (apply Z.pow_pos_nonneg; lia).
  rewrite !Z.pow_add_r, <-!Z.div_div by lia. rewrite Z.div_mul by lia.
  replace (w - 8) with (w - 16 + 8) by lia. rewrite Z.pow_add_r, <-Z.div_div by lia.
  replace (2 ^ w) with (2 ^ (w - 16) * 65536) in Hv by (replace 65536 with (2 ^ 16) by done; rewrite <-Z.pow_add_r by lia; f_equal; lia).
  set (q := v / 2 ^ (w - 16)). assert (0 ≤ q < 65536) as Hq by (unfold q; split; [apply Z.div_pos; lia|apply Z.div_lt_upper_bound; lia]).
  change (2 ^ 8) with 256. rewrite (Z.mod_small (q / 256) 256) by (split; [apply Z.div_pos; lia|apply Z.div_lt_upper_bound; lia]).
  clear Hv. clearbody q. apply eq_true_iff_eq. rewrite andb_true_iff, !Z.eqb_eq.
  assert (k = 0 ∨ k = 1 ∨ k = 2 ∨ k = 3 ∨ k = 4 ∨ k = 5 ∨ k = 6 ∨ k = 7 ∨ k = 8) as Hcases by lia.
  destruct_or! Hcases; subst k;
    repeat match goal with |- context [2 ^ ?n] => let c := eval vm_compute in (2 ^ n) in change (2 ^ n) with c end;
    match type of Hyk with context [2 ^ ?n] => let c := eval vm_compute in (2 ^ n) in change (2 ^ n) with c in Hyk end;
    clear -Hq Hx Hy Hyk; Z.to_euclidean_division_equations; lia.
Qed.

(** The first byte alone. *)
Lemma one_byte w v m y k :
  8 ≤ w → 0 ≤ v < 2 ^ w → 0 ≤ k ≤ 8 → m = Z.shiftl (Z.ones (8 - k)) k → y mod 2 ^ k = 0 →
  (Z.land (netip.byte_at w 0 v) m =? y) = in_prefix w (y * 2 ^ (w - 8)) (8 - k) v.
Proof.
  intros Hw Hv Hk -> Hy. rewrite (land_mask _ 8) by (lia || apply byte_range; lia).
  rewrite in_prefix_div, byte_at_div by lia. replace (w - 8 * (0 + 1)) with (w - 8) by lia.
  replace (w - (8 - k)) with (w - 8 + k) by lia. assert (0 < 2 ^ (w - 8)) as Hp by (apply Z.pow_pos_nonneg; lia).
  assert (0 < 2 ^ k) as Hp2 by (apply Z.pow_pos_nonneg; lia).
  rewrite Z.pow_add_r, <-!Z.div_div by lia. rewrite Z.div_mul by lia.
  replace (2 ^ w) with (2 ^ (w - 8) * 256) in Hv by (replace 256 with (2 ^ 8) by done; rewrite <-Z.pow_add_r by lia; f_equal; lia).
  assert (0 ≤ v / 2 ^ (w - 8) < 256) as Hq by (split; [apply Z.div_pos; lia|apply Z.div_lt_upper_bound; lia]).
  rewrite (Z.mod_small _ 256) by done. apply eq_true_iff_eq. rewrite !Z.eqb_eq. apply Z.mod_divide in Hy as [z ->]; [|lia].
  rewrite Z.div_mul by lia. nia.
Qed.

Lemma byte_255 w i v : 0 ≤ w - 8 * (i + 1) → Z.land (netip.byte_at w i v) 255 = netip.byte_at w i v.
Proof. intros H. rewrite (Z.land_ones _ 8) by done. apply Z.mod_small, byte_range, H. Qed.

Lemma byte_is w v x : 8 ≤ w → 0 ≤ v < 2 ^ w → (netip.byte_at w 0 v =? x) = in_prefix w (x * 2 ^ (w - 8)) 8 v.
Proof.
  intros Hw Hv. rewrite <-(byte_255 w 0 v) by lia. apply (one_byte w v 255 x 0); [done|done|lia|done|apply Z.mod_1_r].
Qed.

Lemma u16_is v : 0 ≤ v < 2 ^ 128 → netip.v6u16 v = Z.shiftr v 112.
Proof.
  intros Hv. unfold netip.v6u16, netip.v6, netip.byte_at. change 255 with (Z.ones 8). apply Z.bits_inj'. intros i Hi.
  rewrite Z.lor_spec, Z.shiftl_spec, !Z.land_spec by lia. change (128 - 8 * (1 + 1)) with 112. rewrite (Z.shiftr_spec v 112) by lia.
  destruct (Z.ltb_spec i 8) as [Hlt|Hge].
  - rewrite (Z.testbit_neg_r _ (i - 8)) by lia. rewrite (Z.testbit_neg_r (Z.ones 8) (i - 8)) by lia.
    rewrite Z.ones_spec_low by lia. by rewrite andb_false_r, andb_true_r.
  - rewrite Z.shiftr_spec by lia. replace (i - 8 + (128 - 8 * (0 + 1))) with (i + 112) by lia.
    rewrite (Z.ones_spec_high 8 i) by lia. rewrite andb_false_r, orb_false_r.
    destruct (Z.ltb_spec i 16) as [?|?]; [rewrite Z.ones_spec_low by lia; by rewrite andb_true_r|].
    by rewrite (testbit_high 128 v (i + 112)) by lia.
Qed.

(** The first sixteen bits, [k] of them ignored. *)
Lemma u16_masked v m y k :
  0 ≤ v < 2 ^ 128 → 0 ≤ k ≤ 16 → m = Z.shiftl (Z.ones (16 - k)) k → y mod 2 ^ k = 0 →
  (Z.land (netip.v6u16 v) m =? y) = in_prefix 128 (y * 2 ^ 112) (16 - k) v.
Proof.
  intros Hv Hk -> Hy. rewrite u16_is, Z.shiftr_div_pow2 by done.
  assert (0 ≤ v / 2 ^ 112 < 2 ^ 16) as Hq by (split; [apply Z.div_pos; lia|apply Z.div_lt_upper_bound; lia]).
  rewrite (land_mask _ 16) by done. rewrite in_prefix_div by lia. replace (128 - (16 - k)) with (112 + k) by lia.
  assert (0 < 2 ^ k) as Hp2 by (apply Z.pow_pos_nonneg; lia). rewrite Z.pow_add_r, <-!Z.div_div by lia.
  rewrite Z.div_mul by lia. apply eq_true_iff_eq. rewrite !Z.eqb_eq. apply Z.mod_divide in Hy as [z ->]; [|lia].
  rewrite Z.div_mul by lia. nia.
Qed.

Lemma Is4In6_mapped v z : 0 ≤ v < 2 ^ 128 → netip.Is4In6 (Addr6 v z) = mapped v.
Proof.
  intros Hv. unfold netip.Is4In6, mapped, in_prefix. change (128 - 96) with 32.
  change (Z.shiftr (65535 * 2 ^ 32) 32) with 65535. rewrite !Z.shiftr_div_pow2, Z.land_ones by lia.
  apply eq_true_iff_eq. rewrite andb_true_iff, !Z.eqb_eq. split.
  - intros [H1 H2]. rewrite Z.mod_small in H2; [done|]. split; [lia|]. apply Z.div_small_iff in H1; lia.
  - intros H. assert (v / 2 ^ 64 = 0) as H1.
    { change (2 ^ 64) with (2 ^ 32 * 2 ^ 32). rewrite <-Z.div_div, H by lia. done. }
    split; [done|]. rewrite Z.mod_small; [done|]. apply Z.div_small_iff in H1; lia.
Qed.
End bits.

Section filter.
Local Open Scope Z_scope.

(** The classifiers of net/netip on 32 bits: six prefixes. *)
Lemma classes_v4 v : 0 ≤ v < 2 ^ 32 →
  netip.IsLoopback (Addr4 v) || netip.IsPrivate (Addr4 v) || netip.IsLinkLocalUnicast (Addr4 v)
    || netip.IsLinkLocalMulticast (Addr4 v) || netip.IsMulticast (Addr4 v) = denied 32 denied_v4 v.
Proof.
  intros Hv.
  pose proof (byte_is 32 v 127 ltac:(lia) Hv : (netip.v4 0 v =? 127) = in_prefix 32 (quad 127 0 0 0) 8 v) as E127.
  pose proof (byte_is 32 v 10 ltac:(lia) Hv : (netip.v4 0 v =? 10) = in_prefix 32 (quad 10 0 0 0) 8 v) as E10.
  pose proof (two_bytes 32 v 172 240 16 4 ltac:(lia) Hv ltac:(lia) eq_refl ltac:(lia) ltac:(lia) eq_refl
    : (netip.v4 0 v =? 172) && (Z.land (netip.v4 1 v) 240 =? 16) = in_prefix 32 (quad 172 16 0 0) 12 v) as E172.
  pose proof (two_bytes 32 v 192 255 168 0 ltac:(lia) Hv ltac:(lia) eq_refl ltac:(lia) ltac:(lia) eq_refl) as E192.
  pose proof (two_bytes 32 v 169 255 254 0 ltac:(lia) Hv ltac:(lia) eq_refl ltac:(lia) ltac:(lia) eq_refl) as E169.
  rewrite byte_255 in E192, E169 by lia.
  change ((netip.v4 0 v =? 192) && (netip.v4 1 v =? 168) = in_prefix 32 (quad 192 168 0 0) 16 v) in E192.
  change ((netip.v4 0 v =? 169) && (netip.v4 1 v =? 254) = in_prefix 32 (quad 169 254 0 0) 16 v) in E169.
  pose proof (one_byte 32 v 240 224 4 ltac:(lia) Hv ltac:(lia) eq_refl eq_refl
    : (Z.land (netip.v4 0 v) 240 =? 224) = in_prefix 32 (quad 224 0 0 0) 4 v) as E224.
  assert ((netip.v4 0 v =? 224) = true → in_prefix 32 (quad 224 0 0 0) 4 v = true) as Hsub.
  { intros E%Z.eqb_eq. rewrite <-E224, E. done. }
  unfold denied, denied_v4, netip.IsLoopback, netip.IsPrivate, netip.IsLinkLocalUnicast,
    netip.IsLinkLocalMulticast, netip.IsMulticast. cbn [netip.Unmap netip.Is4In6 andb existsb].
  rewrite E127, E10, E172, E192, E169, E224.
  destruct (in_prefix 32 (quad 224 0 0 0) 4 v), (netip.v4 0 v =? 224), (netip.v4 1 v =? 0), (netip.v4 2 v =? 0);
    try (by specialize (Hsub eq_refl)); by repeat (destruct (in_prefix _ _ _ _)).
Qed.

Lemma public_v4 v : 0 ≤ v < 2 ^ 32 → isPublicAddr (Addr4 v) = public_spec (Addr4 v).
Proof.
  intros Hv. pose proof (classes_v4 v Hv) as Hc.
  pose proof (byte_is 32 v 0 ltac:(lia) Hv : (netip.v4 0 v =? 0) = in_prefix 32 (quad 0 0 0 0) 8 v) as E0.
  pose proof (two_bytes 32 v 100 192 64 6 ltac:(lia) Hv ltac:(lia) eq_refl ltac:(lia) ltac:(lia) eq_refl
    : (netip.v4 0 v =? 100) && (Z.land (netip.v4 1 v) 192 =? 64) = in_prefix 32 (quad 100 64 0 0) 10 v) as E100.
  assert (netip.IsUnspecified (Addr4 v) = true → in_prefix 32 (quad 0 0 0 0) 8 v = true) as Hzero.
  { cbn. by intros ->%Z.eqb_eq. }
  assert ((netip.v4 0 v =? 169) && (netip.v4 1 v =? 254) = true → netip.IsLinkLocalUnicast (Addr4 v) = true) as H169 by done.
  unfold isPublicAddr, public_spec. cbn [netip.IsValid negb netip.IsInterfaceLocalMulticast orb]. rewrite <-Hc.
  unfold denied, denied_plain_v4. cbn [existsb]. rewrite <-E100, <-E0 in *.
  destruct (netip.IsUnspecified (Addr4 v)); [rewrite Hzero by done|clear Hzero];
    destruct ((netip.v4 0 v =? 169) && (netip.v4 1 v =? 254)); [rewrite H169 by done|clear H169|rewrite H169 by done|clear H169];
    destruct (netip.IsLoopback _), (netip.IsPrivate _), (netip.IsLinkLocalMulticast _), (netip.IsMulticast _); try done;
    destruct (netip.IsLinkLocalUnicast _); try done; by destruct (_ && _), (netip.v4 0 v =? 0).
Qed.

(** The mapped ones are classified as what they map, but only by net/netip. *)
Lemma public_mapped v z : 0 ≤ v < 2 ^ 128 → mapped v = true → isPublicAddr (Addr6 v z) = negb (denied 32 denied_v4 (v mod 2 ^ 32)).
Proof.
  intros Hv Hm. assert (0 ≤ v mod 2 ^ 32 < 2 ^ 32) as Hr by (apply Z.mod_pos_bound; lia). rewrite <-(classes_v4 _ Hr).
  assert (netip.Unmap (Addr6 v z) = Addr4 (v mod 2 ^ 32)) as Hu.
  { unfold netip.Unmap. rewrite Is4In6_mapped, Hm by done. by rewrite Z.land_ones. }
  assert (netip.IsInterfaceLocalMulticast (Addr6 v z) = false) as Hi.
  { unfold netip.IsInterfaceLocalMulticast. by rewrite Is4In6_mapped, Hm. }
  assert ((v =? 0) = false ∧ (Z.land (netip.v6 0 v) 254 =? 252) = false) as [H0 Hula].
  { unfold mapped, in_prefix in Hm. change (128 - 96) with 32 in Hm. change (Z.shiftr (65535 * 2 ^ 32) 32) with 65535 in Hm.
    rewrite Z.shiftr_div_pow2 in Hm by lia. apply Z.eqb_eq in Hm. split.
    - apply Z.eqb_neq. intros ->. done.
    - unfold netip.v6. rewrite (one_byte 128 v 254 252 1) by (done || lia). rewrite in_prefix_div by lia.
      apply Z.eqb_neq. change (252 * 2 ^ (128 - 8) / 2 ^ (128 - (8 - 1))) with 126. change (2 ^ (128 - (8 - 1))) with (2 ^ 32 * 2 ^ 89).
      rewrite <-Z.div_div, Hm by lia. done. }
  unfold isPublicAddr. cbn [netip.IsValid negb]. unfold netip.IsLoopback, netip.IsPrivate, netip.IsLinkLocalUnicast,
    netip.IsLinkLocalMulticast, netip.IsMulticast. rewrite Hu, Hi, Hula. unfold netip.IsUnspecified. rewrite H0.
  cbn [netip.Unmap netip.Is4In6 andb]. rewrite !orb_false_r. by destruct (_ || _).
Qed.

Lemma public_v6 v z : 0 ≤ v < 2 ^ 128 → mapped v = false →
  isPublicAddr (Addr6 v z) = negb (denied 128 denied_v6 v || (v =? 0) && bool_decide (z = ""%string)).
Proof.
  intros Hv Hm. assert (netip.Unmap (Addr6 v z) = Addr6 v z) as Hu by (unfold netip.Unmap; by rewrite Is4In6_mapped, Hm).
  pose proof (one_byte 128 v 254 252 1 ltac:(lia) Hv ltac:(lia) eq_refl eq_refl
    : (Z.land (netip.v6 0 v) 254 =? 252) = in_prefix 128 (252 * 2 ^ 120) 7 v) as Eula.
  pose proof (byte_is 128 v 255 ltac:(lia) Hv : (netip.v6 0 v =? 255) = in_prefix 128 (255 * 2 ^ 120) 8 v) as Emulti.
  pose proof (u16_masked v 65472 65152 6 Hv ltac:(lia) eq_refl eq_refl
    : (Z.land (netip.v6u16 v) 65472 =? 65152) = in_prefix 128 (65152 * 2 ^ 112) 10 v) as Elink.
  assert ((v =? 1) = in_prefix 128 1 128 v) as Eone by (unfold in_prefix; by rewrite !Z.shiftr_0_r).
  assert (∀ y, Z.shiftr y 8 = 255 → Z.land (netip.v6u16 v) 65295 = y → in_prefix 128 (255 * 2 ^ 120) 8 v = true) as Hsub.
  { intros y Hy E. unfold in_prefix. change (Z.shiftr (255 * 2 ^ 120) (128 - 8)) with 255. apply Z.eqb_eq.
    rewrite <-Hy, <-E, u16_is, Z.shiftr_land, Z.shiftr_shiftr by lia. change (Z.shiftr 65295 8) with (Z.ones 8).
    change (112 + 8) with (128 - 8). rewrite Z.land_ones by lia. rewrite Z.mod_small; [done|]. rewrite Z.shiftr_div_pow2 by lia.
    split; [apply Z.div_pos; lia|apply Z.div_lt_upper_bound; lia]. }
  assert ((Z.land (netip.v6u16 v) 65295 =? 65282) = true → in_prefix 128 (255 * 2 ^ 120) 8 v = true) as H2 by (intros E%Z.eqb_eq; by apply (Hsub 65282)).
  assert ((Z.land (netip.v6u16 v) 65295 =? 65281) = true → in_prefix 128 (255 * 2 ^ 120) 8 v = true) as H1 by (intros E%Z.eqb_eq; by apply (Hsub 65281)).
  unfold isPublicAddr, denied, denied_v6. cbn [netip.IsValid negb existsb]. unfold netip.IsLoopback, netip.IsPrivate, netip.IsLinkLocalUnicast,
    netip.IsLinkLocalMulticast, netip.IsMulticast, netip.IsInterfaceLocalMulticast, netip.IsUnspecified.
  rewrite Hu, Is4In6_mapped, Hm, Eula, Emulti, Elink, Eone by done.
  destruct (in_prefix 128 (255 * 2 ^ 120) 8 v), (Z.land (netip.v6u16 v) 65295 =? 65282), (Z.land (netip.v6u16 v) 65295 =? 65281);
    try (by specialize (H1 eq_refl)); try (by specialize (H2 eq_refl));
    destruct (in_prefix 128 (252 * 2 ^ 120) 7 v), (in_prefix 128 (65152 * 2 ^ 112) 10 v), (in_prefix 128 1 128 v); try done;
    by destruct ((v =? 0) && _).
Qed.
End filter.

(** C13. The bit tests of the address filter decide membership in prefixes: of the IPv4
    addresses it refuses exactly eight blocks, of the IPv6 addresses exactly loopback,
    the unspecified address, and the unique-local, link-local and multicast blocks, and
    of the IPv4-mapped ones six of the eight. *)
Theorem isPublicAddr_prefixes a : bits_ok a → isPublicAddr a = public_spec a.
Proof.
  destruct a as [|v|v z]; [done|apply public_v4|]. intros Hv. cbn [public_spec].
  destruct (mapped v) eqn:Hm; [by apply public_mapped|by apply public_v6].
Qed.

(** ** Hosts *)

Definition bracket (c : ascii) : bool := bool_decide (c = "["%char ∨ c = "]"%char).
Fixpoint trim_start (P : ascii → bool) (s : string) : string :=
  match s with String c s' => if P c then trim_start P s' else s | EmptyString => "" end.
Fixpoint trim_end (P : ascii → bool) (s : string) : string :=
  match s with
  | EmptyString => ""
  | String c s => match trim_end P s with
                  | EmptyString => if P c then "" else String c ""
                  | t => String c t
                  end
  end.
(** [strings.Trim(host, "[]")] *)
Definition TrimBrackets (s : string) : string := trim_end bracket (trim_start bracket s).

Definition HasSuffix (s suf : string) : bool :=
  (String.length suf <=? String.length s) && bool_decide (strings.drop (String.length s - String.length suf) s = suf).

(** What the client did with the world: names looked up, with the answers, and requests
    sent. Resolver and transport may answer by all that went before. *)
Record URL := mkURL { u_Scheme : string; u_Hostname : string; u_rest : string }.
Inductive event := ELookup (host : string) (answer : result string (list Addr)) | ESend (u : URL).
Inductive reply := Final (body : string) | RedirectTo (u : URL) | Failed (err : string).

Inductive http_error := ErrBlocked (why : string) | ErrRedirects (why : string) | ErrTransport (why : string).

(** ** The client *)

Record Client := mkClient {
  allowlist : list string; allowSubdomains : bool; maxRedirects : Z; maxResponseBytes : Z; allowedSchemes : list string }.

Inductive Option_ :=
| WithAllowlist (hosts : list string)
| WithAllowlistSubdomains
| WithMaxRedirects (n : Z)
| WithMaxResponseBytes (n : Z)
| WithSchemes (schemes : list string).

Definition clean_name (s : string) : string := strings.ToLower (strings.TrimSpace s).

Definition apply_option (c : Client) (o : Option_) : Client :=
  match o with
  | WithAllowlist hosts =>
      mkClient (filter (λ h, h ≠ "") (clean_name <$> hosts)) (allowSubdomains c) (maxRedirects c) (maxResponseBytes c) (allowedSchemes c)
  | WithAllowlistSubdomains => mkClient (allowlist c) true (maxRedirects c) (maxResponseBytes c) (allowedSchemes c)
  | WithMaxRedirects n => mkClient (allowlist c) (allowSubdomains c) n (maxResponseBytes c) (allowedSchemes c)
  | WithMaxResponseBytes n => mkClient (allowlist c) (allowSubdomains c) (maxRedirects c) n (allowedSchemes c)
  | WithSchemes schemes =>
      mkClient (allowlist c) (allowSubdomains c) (maxRedirects c) (maxResponseBytes c)
        (filter (λ s, s = "http" ∨ s = "https") (clean_name <$> schemes))
  end.

Definition DefaultMaxRedirects : Z := 3.
Definition DefaultMaxResponseBytes : Z := (10 * 1024 * 1024)%Z.

Definition New (opts : list Option_) : option Client :=
  let c := foldl apply_option (mkClient [] false DefaultMaxRedirects DefaultMaxResponseBytes ["https"]) opts in
  if decide (allowlist c = []) then None else Some c.

Definition allows (c : Client) (host : string) : bool :=
  let host := clean_name host in
  if decide (host = "") then false
  else bool_decide (host ∈ allowlist c) || allowSubdomains c && existsb (λ h, HasSuffix host ("." +:+ h)) (allowlist c).

Section requests.
Context (ParseAddr : string → option Addr).
Context (LookupNetIP : list event → string → result string (list Addr)) (RoundTrip : list event → URL → reply).

Definition assertHostPublic (host : string) (h : list event) : option http_error * list event :=
  let host := TrimBrackets host in
  if decide (host = "") then (Some (ErrBlocked "empty host"), h)
  else
    match ParseAddr host with
    | Some ip => (if isPublicAddr ip then None else Some (ErrBlocked "non-public"), h)
    | None =>
        let answer := LookupNetIP h host in
        let h := h ++ [ELookup host answer] in
        match answer with
        | Err e => (Some (ErrBlocked ("resolve " +:+ host +:+ ": " +:+ e)), h)
        | Ok [] => (Some (ErrBlocked ("resolve " +:+ host +:+ ": no addresses")), h)
        | Ok addrs => (if forallb isPublicAddr addrs then None else Some (ErrBlocked (host +:+ " resolves to non-public")), h)
        end
    end.

Definition preflight (c : Client) (u : option URL) (h : list event) : option http_error * list event :=
  match u with
  | None => (Some (ErrBlocked "nil URL"), h)
  | Some u =>
      if negb (bool_decide (strings.ToLower (u_Scheme u) ∈ allowedSchemes c)) then (Some (ErrBlocked "scheme not allowed"), h)
      else if negb (allows c (u_Hostname u)) then (Some (ErrBlocked "host not in allowlist"), h)
      else assertHostPublic (u_Hostname u) h
  end.

(** [via]: the requests sent so far. *)
Definition checkRedirect (c : Client) (u : URL) (via : nat) (h : list event) : option http_error * list event :=
  if (maxRedirects c =? 0)%Z then (Some (ErrRedirects "safehttp: redirects are disabled"), h)
  else if ((0 <? maxRedirects c) && (maxRedirects c <=? Z.of_nat via))%Z then (Some (ErrRedirects "safehttp: redirect cap exceeded"), h)
  else preflight c (Some u) h.

Definition wrapLimit (c : Client) (body : string) : string :=
  if (0 <? maxResponseBytes c)%Z then String.substring 0 (Z.to_nat (maxResponseBytes c)) body else body.

(** net/http's loop: send, and ask [checkRedirect] before following. *)
Fixpoint client_do (fuel : nat) (c : Client) (u : URL) (via : nat) (h : list event)
    : option (result http_error string * list event) :=
  match fuel with
  | 0 => None
  | S fuel =>
      let r := RoundTrip h u in
      let h := h ++ [ESend u] in
      match r with
      | Final body => Some (Ok body, h)
      | Failed e => Some (Err (ErrTransport e), h)
      | RedirectTo u' =>
          match checkRedirect c u' (S via) h with
          | (Some e, h) => Some (Err e, h)
          | (None, h) => client_do fuel c u' (S via) h
          end
      end
  end.

Definition Do (fuel : nat) (c : Client) (u : option URL) (h : list event) : option (result http_error string * list event) :=
  match preflight c u h, u with
  | (Some e, h), _ => Some (Err e, h)
  | (None, h), Some u =>
      match client_do fuel c u 0 h with
      | Some (Ok body, h) => Some (Ok (wrapLimit c body), h)
      | r => r
      end
  | (None, h), None => Some (Err (ErrBlocked "nil URL"), h)
  end.

(** ** Every request is vetted *)

Definition is_send (e : event) : bool := match e with ESend _ => true | ELookup _ _ => false end.
Definition sent (h : list event) : nat := length (filter (λ e, is_send e = true) h).

(** The check that stands right before a request to [host]: a public literal, or a name
    whose lookup, the last event so far, gave public addresses only. *)
Definition host_checked (host : string) (before : list event) : Prop :=
  let host := TrimBrackets host in
  match ParseAddr host with
  | Some ip => isPublicAddr ip = true
  | None => ∃ addrs, last before = Some (ELookup host (Ok addrs)) ∧ addrs ≠ [] ∧ Forall (λ a, isPublicAddr a = true) addrs
  end.

Definition vetted (c : Client) (u : URL) (before : list event) : Prop :=
  strings.ToLower (u_Scheme u) ∈ allowedSchemes c ∧ allows c (u_Hostname u) = true ∧ host_checked (u_Hostname u) before.

(** Every request of the new part of a history was vetted. *)
Definition all_vetted (c : Client) (h0 h : list event) : Prop :=
  ∀ h1 u h2, h = h1 ++ ESend u :: h2 → length h0 ≤ length h1 → vetted c u h1.

Lemma preflight_vetted c u h h' : preflight c (Some u) h = (None, h') →
  vetted c u h' ∧ ∃ k, h' = h ++ k ∧ sent k = 0.
Proof.
  unfold preflight, vetted, host_checked. destruct (bool_decide_reflect (strings.ToLower (u_Scheme u) ∈ allowedSchemes c)) as [Hs|]; [|done].
  destruct (allows c _) eqn:Ha; [|done]. cbn [negb]. unfold assertHostPublic. case_decide; [done|].
  destruct (ParseAddr _) as [ip|].
  - destruct (isPublicAddr ip); [|done]. intros [= <-]. split; [done|]. exists []. by rewrite app_nil_r.
  - destruct (LookupNetIP _ _) as [[|a l]|e] eqn:Hl; [done| |done]. destruct (forallb _ _) eqn:Hf; [|done].
    intros [= <-]. split.
    + split; [done|]. split; [done|]. exists (a :: l). rewrite last_snoc. split; [done|]. split; [done|].
      by apply Forall_forall; intros x Hx; eapply forallb_forall in Hf; [|apply list_elem_of_In].
    + by eexists.
Qed.

Lemma sent_app h k : sent (h ++ k) = sent h + sent k.
Proof. unfold sent. by rewrite filter_app, length_app. Qed.

Lemma vetted_quiet c h0 h k : all_vetted c h0 h → sent k = 0 → all_vetted c h0 (h ++ k).
Proof.
  intros Hv Hk h1 u h2 Heq Hlen. assert (∀ e, e ∈ k → is_send e = false) as Hq.
  { intros e He. destruct (is_send e) eqn:E; [|done]. unfold sent in Hk. apply nil_length_inv in Hk.
    assert (e ∈ filter (λ e, is_send e = true) k) as Hin by by apply list_elem_of_filter. rewrite Hk in Hin. by apply not_elem_of_nil in Hin. }
  apply app_eq_inv in Heq as [(l & -> & Hl)|(l & -> & Hl)].
  - destruct l as [|e l]; [|by injection Hl as <- ->; eapply Hv]. cbn in Hl. subst k.
    by specialize (Hq (ESend u) (list_elem_of_here _ _)).
  - subst k. by specialize (Hq (ESend u) ltac:(apply elem_of_app; right; apply list_elem_of_here)).
Qed.

Lemma vetted_send c h0 h u : all_vetted c h0 h → vetted c u h → all_vetted c h0 (h ++ [ESend u]).
Proof.
  intros Hv Hu h1 u' h2 Heq Hlen. destruct h2 as [|e h2 _] using rev_ind.
  - apply app_inj_tail in Heq as [-> [= ->]]. done.
  - rewrite app_comm_cons, app_assoc in Heq. apply app_inj_tail in Heq as [-> _]. by eapply Hv.
Qed.

Lemma checkRedirect_vetted c u via h h' : checkRedirect c u via h = (None, h') →
  vetted c u h' ∧ (∃ k, h' = h ++ k ∧ sent k = 0) ∧ (0 ≤ maxRedirects c → Z.of_nat via < maxRedirects c)%Z.
Proof.
  unfold checkRedirect. destruct (Z.eqb_spec (maxRedirects c) 0) as [|Hne]; [done|].
  destruct (_ && _) eqn:Hcap; [done|]. intros H. apply preflight_vetted in H as [Hv Hk]. split; [done|]. split; [done|]. lia.
Qed.

(** A check that fails sends nothing either. *)
Lemma preflight_quiet c u h e h' : preflight c u h = (e, h') → ∃ k, h' = h ++ k ∧ sent k = 0.
Proof.
  unfold preflight, assertHostPublic. destruct u as [u|]; [|intros [= _ <-]; exists []; by rewrite app_nil_r].
  repeat case_match; intros [= _ <-]; first [by exists []; rewrite app_nil_r|by eexists].
Qed.

Lemma client_do_vetted fuel c u via h0 h r h' :
  client_do fuel c u via h = Some (r, h') → vetted c u h → all_vetted c h0 h →
  all_vetted c h0 h' ∧ ∃ k, h' = h ++ k ∧ (0 ≤ maxRedirects c → Z.of_nat via < Z.max 1 (maxRedirects c) →
    Z.of_nat (via + sent k) ≤ Z.max 1 (maxRedirects c))%Z.
Proof.
  revert u via h. induction fuel as [|fuel IH]; intros u via h; [done|]. cbn [client_do]. intros H Hu Hv.
  pose proof (vetted_send c h0 h u Hv Hu) as Hv'. assert (sent [ESend u] = 1) as H1 by done.
  destruct (RoundTrip h u) as [body|u'|e].
  - injection H as <- <-. split; [done|]. exists [ESend u]. split; [done|]. lia.
  - destruct (checkRedirect c u' (S via) _) as [[e|] h2] eqn:Hc.
    + injection H as <- <-. assert (∃ k, h2 = (h ++ [ESend u]) ++ k ∧ sent k = 0) as (k & -> & Hk).
      { unfold checkRedirect in Hc. repeat case_match; simplify_eq; try (by exists []; rewrite app_nil_r). by eapply preflight_quiet. }
      split; [by apply vetted_quiet|]. exists (ESend u :: k). split; [by rewrite <-app_assoc|].
      change (ESend u :: k) with ([ESend u] ++ k). rewrite sent_app. lia.
    + apply checkRedirect_vetted in Hc as (Hu' & (k & -> & Hk) & Hcap).
      apply IH in H as (Hall & k' & -> & Hn); [|done|by apply vetted_quiet].
      split; [done|]. exists (ESend u :: k ++ k'). split; [by rewrite <-!app_assoc|].
      change (ESend u :: k ++ k') with ([ESend u] ++ (k ++ k')). rewrite !sent_app. lia.
  - injection H as <- <-. split; [done|]. exists [ESend u]. split; [done|]. lia.
Qed.

(** The loop comes to an end when redirects are capped. *)
Lemma client_do_total fuel c u via h :
  (0 ≤ maxRedirects c)%Z → (Z.max 1 (maxRedirects c) < Z.of_nat (via + fuel))%Z → (Z.of_nat via < Z.max 1 (maxRedirects c))%Z →
  is_Some (client_do fuel c u via h).
Proof.
  revert u via h. induction fuel as [|fuel IH]; intros u via h Hc Hf Hvia; [lia|]. cbn [client_do].
  destruct (RoundTrip h u) as [body|u'|e]; [done| |done]. destruct (checkRedirect _ _ _ _) as [[e|] h2] eqn:Hr; [done|].
  apply checkRedirect_vetted in Hr as (_ & _ & Hcap). apply IH; lia.
Qed.
End requests.

(** C30. Whatever resolver and servers answer, and by whatever they saw before: a call
    with capped redirects returns, sends no more requests than the cap (or one), and
    sends each, the redirected ones too, right after its own check - an allowed scheme,
    a host of the allowlist, and a public literal address or a lookup that gave public
    addresses only. *)
Theorem requests_vetted ParseAddr LookupNetIP RoundTrip c u h0 :
  (0 ≤ maxRedirects c)%Z →
  ∃ r h, Do ParseAddr LookupNetIP RoundTrip (S (S (Z.to_nat (maxRedirects c)))) c u h0 = Some (r, h) ∧
    all_vetted ParseAddr c h0 h ∧ ∃ k, h = h0 ++ k ∧ (Z.of_nat (sent k) ≤ Z.max 1 (maxRedirects c))%Z.
Proof.
  intros Hc. set (fuel := S (S _)).
  assert (all_vetted ParseAddr c h0 h0) as Hnil.
  { intros h1 u' h2 Heq Hlen. apply (f_equal length) in Heq. rewrite length_app in Heq. cbn in Heq. lia. }
  unfold Do. destruct (preflight _ _ _ _ _) as [[e|] h1] eqn:Hp.
  - apply preflight_quiet in Hp as (k & -> & Hk). exists (Err e), (h0 ++ k).
    split; [by destruct u|]. split; [by apply vetted_quiet|]. exists k. split; [done|lia].
  - destruct u as [u|]; [|done]. apply preflight_vetted in Hp as (Hu & k & -> & Hk).
    destruct (client_do_total ParseAddr LookupNetIP RoundTrip fuel c u 0 (h0 ++ k)) as [[r h] Hd]; [done|lia|lia|]. rewrite Hd.
    pose proof (client_do_vetted _ _ _ _ _ _ _ h0 _ _ _ Hd Hu (vetted_quiet _ _ _ _ _ Hnil Hk)) as (Hall & k' & -> & Hn).
    destruct r as [body|e]; (eexists _, _; split; [done|]; split; [done|]; exists (k ++ k');
      split; [by rewrite app_assoc|rewrite sent_app; lia]).
Qed.

(** ** Runs *)

Definition v6_mapped (a b c d : Z) : Addr := Addr6 (65535 * 2 ^ 32 + quad a b c d)%Z "".

(** Four addresses of this host or its network that the filter takes for public. *)
Example reserved_passes :
  isPublicAddr (v6_mapped 0 0 0 0) = true ∧ isPublicAddr (v6_mapped 100 64 0 1) = true ∧
  isPublicAddr (v6_mapped 0 1 2 3) = true ∧ isPublicAddr (Addr6 0 "eth0") = true.
Proof. by vm_compute. Qed.
Example reserved_refused :
  isPublicAddr (Addr4 (quad 0 0 0 0)) = false ∧ isPublicAddr (Addr4 (quad 100 64 0 1)) = false ∧
  isPublicAddr (v6_mapped 127 0 0 1) = false ∧ isPublicAddr (v6_mapped 169 254 169 254) = false ∧
  isPublicAddr (Addr4 (quad 100 128 0 1)) = true ∧ isPublicAddr (Addr4 (quad 172 32 0 1)) = true.
Proof. by vm_compute. Qed.

Module net.
Definition literal (s : string) : option Addr :=
  if decide (s = "127.0.0.1") then Some (Addr4 (quad 127 0 0 1)) else None.
(** A name that is public at first and not later. *)
Definition lookup (h : list event) (host : string) : result string (list Addr) :=
  Ok [Addr4 (if existsb is_send h then quad 10 0 0 1 else quad 93 184 216 34)].
Definition bounce (h : list event) (u : URL) : reply := RedirectTo (mkURL "https" "api.example.com" "/again").
Definition client (n : Z) : Client := mkClient ["example.com"] true n 5 ["https"].
Definition start : URL := mkURL "HTTPS" "Example.com" "/".
Definition public (_ : list event) (_ : string) : result string (list Addr) := Ok [Addr4 (quad 93 184 216 34)].
Definition requests (n : Z) : option nat := (λ rh, sent rh.2) <$> Do literal public bounce 9 (client n) (Some start) [].
End net.

(** The redirect target is looked up again and refused. *)
Example rebinding_redirect_refused :
  (λ rh, (rh.1, sent rh.2)) <$> Do net.literal net.lookup net.bounce 9 (net.client 3) (Some net.start) [] =
    Some (Err (ErrBlocked "api.example.com resolves to non-public"), 1).
Proof. by vm_compute. Qed.

(** A cap of [n] lets [n - 1] redirects be followed: one is as good as none. *)
Example cap_off_by_one : net.requests 3 = Some 3 ∧ net.requests 1 = Some 1 ∧ net.requests 0 = Some 1.
Proof. by vm_compute. Qed.

(** The suffix match stops at a dot. *)
Example suffix_match :
  allows (net.client 0) " API.example.com" = true ∧ allows (net.client 0) "evilexample.com" = false ∧
  New [WithAllowlist [" "]] = None ∧ New [WithAllowlist ["A.b"]; WithSchemes ["ftp"; "HTTP "]]
    = Some (mkClient ["a.b"] false 3 10485760 ["http"]).
Proof. by vm_compute. Qed.

Lemma isPublicAddr_prefixes_witness :
  bits_ok (Addr4 (quad 172 20 1 2)) ∧ isPublicAddr (Addr4 (quad 172 20 1 2)) = public_spec (Addr4 (quad 172 20 1 2)).
Proof. assert (bits_ok (Addr4 (quad 172 20 1 2))) as H by (cbn; unfold quad; lia). split; [exact H|]. exact (isPublicAddr_prefixes _ H). Defined.

Lemma requests_vetted_witness :
  ∃ r h, Do net.literal net.public net.bounce 5 (net.client 3) (Some net.start) [] = Some (r, h) ∧
    all_vetted net.literal (net.client 3) [] h ∧ ∃ k, h = [] ++ k ∧ (Z.of_nat (sent k) ≤ 3)%Z.
Proof. exact (requests_vetted net.literal net.public net.bounce (net.client 3) (Some net.start) [] ltac:(by vm_compute)). Defined.
