(* ===== verification/Templates.v ===== *)
(** * Theme templates (packages/go/theme/templates)

    The precedence list of a request, the resolver over one theme and over a theme with
    its parents; the chosen file is the first of the list any of them has. A theme's
    files are the names it has. *)
From S2P Require Import Prelude.

Inductive RequestType :=
| RequestTypeUnknown | RequestTypeSingular | RequestTypeArchive | RequestTypeTaxonomy | RequestTypeAuthor
| RequestTypeDate | RequestTypeSearch | RequestTypeHome | RequestTypeFrontPage | RequestTypeNotFound.

(** The fields of [Request] the resolver reads. *)
Record Request := mkRequest {
  Type_ : RequestType; PostType : string; PostSlug : string; PostID : string;
  TaxonomySlug : string; TermSlug : string; AuthorID : string }.

Definition ThemeFiles : Type := string → bool.
Inductive resolve_error := ErrNoIndex | ErrUnknownRequestType.

Definition extensions : list string := [".tsx"; ".html"].

(** One candidate, if the field it needs is there. *)
Definition given (field candidate : string) : list string := if decide (field = "") then [] else [candidate].

Definition singularCandidates (r : Request) : list string :=
  (if decide (PostType r = "") then [] else
     given (PostSlug r) ("single-" +:+ PostType r +:+ "-" +:+ PostSlug r) ++
     given (PostID r) ("single-" +:+ PostType r +:+ "-" +:+ PostID r) ++ ["single-" +:+ PostType r])
  ++ ["single"; "singular"; "index"].
Definition archiveCandidates (r : Request) : list string :=
  given (PostType r) ("archive-" +:+ PostType r) ++ ["archive"; "index"].
Definition taxonomyCandidates (r : Request) : list string :=
  (if decide (TaxonomySlug r = "") then [] else
     given (TermSlug r) ("taxonomy-" +:+ TaxonomySlug r +:+ "-" +:+ TermSlug r) ++ ["taxonomy-" +:+ TaxonomySlug r])
  ++ ["taxonomy"; "archive"; "index"].
Definition authorCandidates (r : Request) : list string :=
  given (AuthorID r) ("author-" +:+ AuthorID r) ++ given (PostSlug r) ("author-" +:+ PostSlug r)
  ++ ["author"; "archive"; "index"].

Definition buildCandidates (r : Request) : option (list string) :=
  match Type_ r with
  | RequestTypeSingular => Some (singularCandidates r)
  | RequestTypeArchive => Some (archiveCandidates r)
  | RequestTypeTaxonomy => Some (taxonomyCandidates r)
  | RequestTypeAuthor => Some (authorCandidates r)
  | RequestTypeDate => Some ["date"; "archive"; "index"]
  | RequestTypeSearch => Some ["search"; "index"]
  | RequestTypeHome => Some ["home"; "index"]
  | RequestTypeFrontPage => Some ["front-page"; "home"; "index"]
  | RequestTypeNotFound => Some ["404"; "index"]
  | RequestTypeUnknown => None
  end.

(** The loops over candidates and extensions, with the test as they share it. *)
Fixpoint try_extensions {A} (has : string → option A) (base : string) (exts : list string) : option (string * A) :=
  match exts with
  | [] => None
  | ext :: exts =>
      match has (base +:+ ext) with
      | Some a => Some (base +:+ ext, a)
      | None => try_extensions has base exts
      end
  end.
Fixpoint try_candidates {A} (has : string → option A) (bases : list string) : option (string * A) :=
  match bases with
  | [] => None
  | base :: bases =>
      if decide (base = "") then try_candidates has bases
      else match try_extensions has base extensions with
           | Some r => Some r
           | None => try_candidates has bases
           end
  end.

(** [files] is [None] for a nil theme. *)
Definition Resolve (r : Request) (files : option ThemeFiles) : result resolve_error string :=
  match files with
  | None => Err ErrNoIndex
  | Some has =>
      match buildCandidates r with
      | None => Err ErrUnknownRequestType
      | Some candidates =>
          match try_candidates (λ name, if has name then Some tt else None) candidates with
          | Some (name, _) => Ok name
          | None => Err ErrNoIndex
          end
      end
  end.

(** The first theme of the path that has the file; nil themes are passed over. *)
Fixpoint search_from (i : nat) (name : string) (search : list (option ThemeFiles)) : option nat :=
  match search with
  | [] => None
  | Some has :: search => if has name then Some i else search_from (S i) name search
  | None :: search => search_from (S i) name search
  end.
Definition ResolveTemplate (name : string) (search : list (option ThemeFiles)) : option nat :=
  if decide (name = "") then None else search_from 0 name search.

Definition ResolveWithChild (r : Request) (search : list (option ThemeFiles)) : result resolve_error (string * nat) :=
  match buildCandidates r with
  | None => Err ErrUnknownRequestType
  | Some candidates =>
      if decide (search = []) then Err ErrNoIndex
      else match try_candidates (λ name, ResolveTemplate name search) candidates with
           | Some r => Ok r
           | None => Err ErrNoIndex
           end
  end.

(** ** The choice *)

(** The file names of a precedence list, best first. *)
Definition names_of (candidates : list string) : list string :=
  concat ((λ base, (λ ext, base +:+ ext) <$> extensions) <$> filter (λ b, b ≠ "") candidates).

Definition first_of {A} (has : string → option A) (names : list string) : option (string * A) :=
  head (omap (λ n, a ← has n; Some (n, a)) names).

Lemma first_of_app {A} (has : string → option A) l k :
  first_of has (l ++ k) = match first_of has l with Some r => Some r | None => first_of has k end.
Proof. unfold first_of. rewrite omap_app. by destruct (omap _ l). Qed.

Lemma try_candidates_first {A} (has : string → option A) candidates :
  try_candidates has candidates = first_of has (names_of candidates).
Proof.
  induction candidates as [|base l IH]; [done|]. cbn [try_candidates]. unfold names_of. rewrite filter_cons.
  case_decide as Hb; [rewrite decide_False by auto; exact IH|]. rewrite decide_True by done.
  cbn [fmap list_fmap concat]. rewrite first_of_app. fold (names_of l). rewrite <-IH.
  unfold first_of. cbn. destruct (has (base +:+ ".tsx")); cbn; [done|]. by destruct (has (base +:+ ".html")).
Qed.

Lemma first_of_spec {A} (has : string → option A) names n a :
  first_of has names = Some (n, a) ↔
  ∃ l k, names = l ++ n :: k ∧ has n = Some a ∧ ∀ x, x ∈ l → has x = None.
Proof.
  induction names as [|m names IH].
  - split; [done|]. intros (l & k & H & _). by destruct l.
  - change (m :: names) with ([m] ++ names). rewrite first_of_app. unfold first_of at 1. cbn. destruct (has m) as [b|] eqn:Hm; cbn.
    + split.
      * intros [= <- <-]. exists [], names. split; [done|]. split; [done|]. by intros x H%not_elem_of_nil.
      * intros (l & k & H & Hn & Hl). destruct l as [|x l]; [by simplify_eq/=|].
        injection H as <- _. by rewrite (Hl m (list_elem_of_here _ _)) in Hm.
    + rewrite IH. split.
      * intros (l & k & -> & Hn & Hl). exists (m :: l), k. split; [done|]. split; [done|].
        intros x [->|Hx]%elem_of_cons; [done|by apply Hl].
      * intros (l & k & H & Hn & Hl). destruct l as [|x l]; [simplify_eq/=|]. injection H as <- ->.
        exists l, k. split; [done|]. split; [done|]. intros y Hy. apply Hl. by right.
Qed.

Lemma search_from_spec i name search j :
  search_from i name search = Some j ↔
  ∃ k, j = i + k ∧ (∃ has, search !! k = Some (Some has) ∧ has name = true) ∧
    ∀ k' has, k' < k → search !! k' = Some (Some has) → has name = false.
Proof.
  revert i. induction search as [|f search IH]; intros i; cbn [search_from].
  - split; [done|]. intros (k & _ & (has & H & _) & _). by rewrite lookup_nil in H.
  - assert ((f = None ∨ ∃ has, f = Some has ∧ has name = false) →
      search_from (S i) name search = Some j ↔ ∃ k, j = i + k ∧ (∃ has, (f :: search) !! k = Some (Some has) ∧ has name = true) ∧
        ∀ k' has, k' < k → (f :: search) !! k' = Some (Some has) → has name = false) as Hskip.
    { intros Hf. rewrite IH. split.
      - intros (k & -> & Hk & Hl). exists (S k). split; [lia|]. split; [done|]. intros [|k'] has Hlt Hx; [|by apply (Hl k'); [lia|]].
        cbn in Hx. destruct Hf as [->|(has' & -> & Hn)]; [done|]. by injection Hx as <-.
      - intros ([|k] & -> & (has & Hx & Hn) & Hl).
        + cbn in Hx. destruct Hf as [->|(has' & -> & Hn')]; [done|]. injection Hx as ->. congruence.
        + exists k. split; [lia|]. split; [by exists has|]. intros k' has' Hlt Hx'. by apply (Hl (S k') has'); [lia|]. }
    destruct f as [has|]; [|apply Hskip; by left]. destruct (has name) eqn:Hn; [|apply Hskip; right; by exists has].
    split.
    + intros [= <-]. exists 0. split; [lia|]. split; [by exists has|]. intros k' has' Hlt. lia.
    + intros ([|k] & -> & _ & Hl); [f_equal; lia|]. by rewrite (Hl 0 has) in Hn by (done || lia).
Qed.

Lemma search_from_none i name search :
  search_from i name search = None ↔ ∀ j has, search !! j = Some (Some has) → has name = false.
Proof.
  split.
  - intros Hs j has Hj. destruct (has name) eqn:Hn; [|done]. exfalso. revert i j Hs Hj.
    induction search as [|f search IH]; intros i [|j] Hs Hj; cbn in *; try done.
    + injection Hj as ->. by rewrite Hn in Hs.
    + destruct f as [g|]; [destruct (g name); [done|]|]; by eapply IH.
  - intros H. destruct (search_from i name search) as [j|] eqn:E; [|done].
    apply search_from_spec in E as (k & _ & (has & Hk & Hn) & _). by rewrite (H k has Hk) in Hn.
Qed.

Lemma index_last r candidates : buildCandidates r = Some candidates → last candidates = Some "index".
Proof.
  unfold buildCandidates, singularCandidates, archiveCandidates, taxonomyCandidates, authorCandidates, given.
  destruct (Type_ r); intros [= <-]; repeat case_decide; done.
Qed.

Lemma buildCandidates_known r : Type_ r ≠ RequestTypeUnknown → is_Some (buildCandidates r).
Proof. unfold buildCandidates. by destruct (Type_ r). Qed.

Definition has_file (f : option ThemeFiles) (name : string) : bool := match f with Some has => has name | None => false end.

Lemma ResolveTemplate_Some name search i :
  ResolveTemplate name search = Some i →
  (∃ f, search !! i = Some f ∧ has_file f name = true) ∧ ∀ j f, j < i → search !! j = Some f → has_file f name = false.
Proof.
  unfold ResolveTemplate. case_decide; [done|]. intros (k & -> & (has & Hk & Hn) & Hl)%search_from_spec. cbn. split.
  - by exists (Some has).
  - intros j [g|] Hj Hf; [|done]. by apply (Hl j g).
Qed.

Lemma ResolveTemplate_None name search :
  name ≠ "" → ResolveTemplate name search = None ↔ ∀ j f, search !! j = Some f → has_file f name = false.
Proof.
  intros Hne. unfold ResolveTemplate. rewrite decide_False, search_from_none by done. split.
  - intros Hs j [g|] Hj; [|done]. by apply (Hs j g).
  - intros Hs j has Hj. by apply (Hs j (Some has)).
Qed.

Lemma names_of_ne candidates name : name ∈ names_of candidates → name ≠ "".
Proof.
  unfold names_of. rewrite list_elem_of_In, in_concat. intros (l & Hl & Hx).
  apply list_elem_of_In, list_elem_of_fmap in Hl as (base & -> & Hb). apply list_elem_of_filter in Hb as [Hb _].
  apply list_elem_of_In, list_elem_of_fmap in Hx as (ext & -> & _). by destruct base.
Qed.

Lemma names_of_index candidates : last candidates = Some "index" → "index.tsx" ∈ names_of candidates ∧ "index.html" ∈ names_of candidates.
Proof.
  intros [l ->]%last_Some. unfold names_of. rewrite filter_app, fmap_app, concat_app, !elem_of_app.
  split; right; cbn; [by left|by right; left].
Qed.

(** A theme stack - child, parent, grandparent - answers a request of a known type
    with the first file name of its precedence list that any theme of the stack has,
    from the first theme that has it: a parent's more specific template goes before a
    child's general one. It fails only when no theme has an index. *)
Theorem ResolveWithChild_first r search :
  Type_ r ≠ RequestTypeUnknown →
  ∃ candidates, buildCandidates r = Some candidates ∧
  match ResolveWithChild r search with
  | Ok (name, i) =>
      (∃ l k, names_of candidates = l ++ name :: k ∧ ∀ x j f, x ∈ l → search !! j = Some f → has_file f x = false) ∧
      (∃ f, search !! i = Some f ∧ has_file f name = true) ∧ ∀ j f, j < i → search !! j = Some f → has_file f name = false
  | Err e => e = ErrNoIndex ∧ ∀ j f, search !! j = Some f → has_file f "index.tsx" = false ∧ has_file f "index.html" = false
  end.
Proof.
  intros [candidates Hc]%buildCandidates_known. exists candidates. split; [done|]. unfold ResolveWithChild. rewrite Hc.
  pose proof (names_of_index _ (index_last r candidates Hc)) as [Htsx Hhtml].
  assert (∀ x, x ∈ names_of candidates → ResolveTemplate x search = None →
    ∀ j f, search !! j = Some f → has_file f x = false) as Hnone.
  { intros x Hx. by apply ResolveTemplate_None, (names_of_ne candidates). }
  case_decide as Hs; [split; [done|]; subst search; intros j f; by rewrite lookup_nil|].
  rewrite try_candidates_first. destruct (first_of _ _) as [[name i]|] eqn:Hf.
  - apply first_of_spec in Hf as (l & k & Hl & Hn & Hx). apply ResolveTemplate_Some in Hn as [H1 H2]. split; [|by split].
    exists l, k. split; [done|]. intros x j f Hin. apply Hnone; [|by apply Hx]. rewrite Hl. apply elem_of_app. by left.
  - split; [done|]. assert (∀ x, x ∈ names_of candidates → ResolveTemplate x search = None) as Hall.
    { unfold first_of in Hf. revert Hf. generalize (names_of candidates). intros names Hf x Hx. destruct (ResolveTemplate x search) as [i|] eqn:E; [|done].
      assert ((x, i) ∈ omap (λ n, a ← ResolveTemplate n search; Some (n, a)) names) as Hin.
      { apply list_elem_of_omap. exists x. split; [done|]. by rewrite E. }
      destruct (omap _ names); [by apply not_elem_of_nil in Hin|done]. }
    intros j f Hj. split; (eapply Hnone; [|by apply Hall|exact Hj]); done.
Qed.

(** One theme alone is resolved as a stack of one. *)
Lemma Resolve_alone r has : Resolve r (Some has) = (match ResolveWithChild r [Some has] with Ok (n, _) => Ok n | Err e => Err e end).
Proof.
  unfold Resolve, ResolveWithChild. destruct (buildCandidates r) as [candidates|]; [|done].
  rewrite decide_False by done. rewrite !try_candidates_first. pose proof (names_of_ne candidates) as Hne. revert Hne.
  generalize (names_of candidates). intros names. induction names as [|n names IH]; intros Hne; [done|].
  change (n :: names) with ([n] ++ names). rewrite !first_of_app. unfold first_of at 1 3. cbn.
  unfold ResolveTemplate at 1. rewrite decide_False by (apply Hne; left). cbn. destruct (has n); cbn; [done|].
  apply IH. intros x Hx. apply Hne. by right.
Qed.

Module site.
Definition child : ThemeFiles := λ n, bool_decide (n ∈ ["single.tsx"; "index.html"]).
Definition parent : ThemeFiles := λ n, bool_decide (n ∈ ["single-book.html"; "archive.tsx"; "index.tsx"]).
Definition stack : list (option ThemeFiles) := [Some child; None; Some parent].
Definition req (t : RequestType) (pt slug : string) : Request := mkRequest t pt slug "7" "" "" "".
End site.

Example stack_choices :
  ResolveWithChild (site.req RequestTypeSingular "book" "dune") site.stack = Ok ("single-book.html", 2) ∧
  ResolveWithChild (site.req RequestTypeSingular "" "dune") site.stack = Ok ("single.tsx", 0) ∧
  ResolveWithChild (site.req RequestTypeSearch "" "") site.stack = Ok ("index.tsx", 2) ∧
  ResolveWithChild (site.req RequestTypeUnknown "" "") site.stack = Err ErrUnknownRequestType ∧
  Resolve (site.req RequestTypeNotFound "" "") (Some site.child) = Ok "index.html".
Proof. by vm_compute. Qed.

(** The id of one item and the slug of another give the same file name. *)
Example slug_is_an_id :
  names_of (singularCandidates (mkRequest RequestTypeSingular "book" "7" "" "" "" "")) !! 0 = Some "single-book-7.tsx" ∧
  names_of (singularCandidates (mkRequest RequestTypeSingular "book" "" "7" "" "" "")) !! 0 = Some "single-book-7.tsx".
Proof. by vm_compute. Qed.

Lemma ResolveWithChild_first_witness :
  ∃ l k, names_of (singularCandidates (site.req RequestTypeSingular "book" "dune")) = l ++ "single-book.html" :: k ∧
    ∀ x j f, x ∈ l → site.stack !! j = Some f → has_file f x = false.
Proof.
  destruct (ResolveWithChild_first (site.req RequestTypeSingular "book" "dune") site.stack ltac:(discriminate)) as (c & Hc & Hr).
  injection Hc as <-.
  assert (ResolveWithChild (site.req RequestTypeSingular "book" "dune") site.stack = Ok ("single-book.html", 2)) as E by (vm_compute; reflexivity).
  rewrite E in Hr. exact (proj1 Hr).
Defined.
