(* ===== verification/Posts.v ===== *)
(** * Posts over REST (apps/api/internal/rest/posts, apps/api/internal/rest/router,
    apps/api/internal/admin/posts (the restore), packages/go/jobs/scheduler (publisher.go,
    gc.go); the table of migration 000004)

    The handlers as programs of commands over the interface [Store]; both stores; the
    statements of the Postgres store on the table with its indexes and triggers, each
    one step; the restore of a revision, which writes through the same store; the publisher
    and the trash sweep that run beside them. The revisions store answers the restore as
    the environment says. SHA-256, the JSON readers, the parser of UUIDs, the texts Postgres keeps of a JSON document and of a UUID are arguments.
    Texts are ASCII. *)
From S2P Require Import Prelude Prog GoStrings Base64 Hex Html Redis Login Csrf Policy.
From Stdlib Require Import Ascii.

(** ** apps/api/internal/rest/router *)

Module router.
Abbreviation Header := (gmap string string) (only parsing).
Definition header_get (k : string) (h : Header) : string := default "" (h !! k).

Definition dquote : ascii := "034".
Definition TrimPrefix (s p : string) : string :=
  if strings.HasPrefix s p then strings.drop (String.length p) s else s.
Definition last_byte (s : string) : option ascii := String.get (String.length s - 1) s.

Definition FormatETag (value : string) : string :=
  if decide (value = "") then "" else String dquote (value +:+ String dquote "").

Definition ParseETag (etag : string) : string :=
  if decide (etag = "") then ""
  else
    let etag := TrimPrefix (strings.TrimSpace etag) "W/" in
    if (2 <=? String.length etag) && bool_decide (String.get 0 etag = Some dquote) && bool_decide (last_byte etag = Some dquote)
    then String.substring 1 (String.length etag - 2) etag
    else etag.

Definition HashETag (hash : string) : string :=
  if decide (hash = "") then "" else FormatETag (hex.EncodeToString hash).

Definition VersionETag (version : Z) : string := FormatETag (strconv.Itoa version).

(** The version, and whether the header is present. *)
Definition ParseIfMatchVersion (h : Header) : result string (option Z) :=
  let raw := header_get "If-Match" h in
  if decide (raw = "") then Ok None
  else
    let raw := strings.TrimSpace raw in
    if decide (raw = "*") then Ok (Some 0%Z)
    else
      let value := ParseETag raw in
      if decide (value = "") then Err "router: invalid If-Match header"
      else
        match strconv.Atoi value with
        | Some n => Ok (Some n)
        | None => Err "router: invalid If-Match header"
        end.

Definition candidate_matches (current candidate : string) : bool :=
  let candidate := strings.TrimSpace candidate in
  if decide (candidate = "") then false
  else bool_decide (candidate = current) ||
       (bool_decide (ParseETag candidate = ParseETag current) && negb (bool_decide (ParseETag current = ""))).

Definition MatchesIfNoneMatch (h : Header) (current : string) : bool :=
  if decide (current = "") then false
  else
    let raw := header_get "If-None-Match" h in
    if decide (raw = "") then false
    else
      let raw := strings.TrimSpace raw in
      if decide (raw = "*") then true
      else existsb (candidate_matches current) (strings.Split "," raw).

Definition SetETag (etag : string) (h : Header) : Header :=
  if decide (etag = "") then h else <["Etag" := etag]> h.

Definition bytes_of (s : string) : list Z := (λ c, Z.of_nat (nat_of_ascii c)) <$> String.list_ascii_of_string s.
Definition EncodeCursor (raw : string) : string :=
  if decide (raw = "") then "" else base64.EncodeToString (bytes_of raw).
Definition ParseCursor (cursor : string) : option string :=
  if decide (cursor = "") then Some "" else text_of <$> base64.DecodeString cursor.
End router.

(** ** model.go, deps.go *)

Definition PostTypePost : string := "post".
Definition PostTypePage : string := "page".

(** A row of the table; for the in-memory store a [memoryRow]. *)
Record Row := mkRow {
  r_ID : string; r_PostType : string; r_ParentID : option string; r_AuthorID : string; r_Status : string;
  r_Title : string; r_Slug : string; r_Excerpt : option string; r_ContentBlocks : string; r_Hash : string;
  r_Password : option string; r_CommentStatus : string; r_PingStatus : string; r_MenuOrder : Z; r_Meta : string;
  r_PublishedAt : option Time; r_ScheduledFor : option Time; r_CreatedAt : Time; r_UpdatedAt : Time; r_Version : Z }.

#[export] Instance Row_eq_dec : EqDecision Row.
Proof. solve_decision. Defined.

(** A [Post]: the columns, the hash and the password among them, and [Protected]. *)
Record Post := mkPost { p_row : Row; p_Protected : bool }.

(** The body of POST and PATCH; [UpdateInput] has the same fields. *)
Record CreateInput := mkInput {
  i_ParentID : option string; i_Status : option string; i_Title : option string; i_Slug : option string;
  i_Excerpt : option string; i_ContentBlocks : option string; i_Password : option string;
  i_CommentStatus : option string; i_PingStatus : option string; i_MenuOrder : option Z; i_Meta : option string;
  i_PublishedAt : option Time; i_ScheduledFor : option Time }.
Definition UpdateInput : Set := CreateInput.
Definition no_input : CreateInput := mkInput None None None None None None None None None None None None None.

Record ListFilter := mkFilter { f_Status : string; f_AuthorID : string; f_Search : string; f_After : string; f_Limit : Z }.
Definition MaxListLimit : Z := 100.
Definition DefaultListLimit : Z := 20.

Record capabilitySet := mkCaps {
  c_edit : Capability; c_editOthers : Capability; c_publish : Capability;
  c_deleteOwn : Capability; c_deleteOthers : Capability; c_readPrivate : Capability }.
Definition capsFor (postType : string) : capabilitySet :=
  if decide (postType = PostTypePage) then
    mkCaps CapEditPages CapEditOthersPages CapPublishPages CapDeletePages CapDeleteOthersPages CapReadPrivatePages
  else
    mkCaps CapEditPosts CapEditOthersPosts CapPublishPosts CapDeletePosts CapDeleteOthersPosts CapReadPrivatePosts.

(** ** validate.go *)

Record validation := mkValidation { v_Code : string; v_Detail : string }.

Definition validStatuses : list string := ["draft"; "pending"; "published"; "scheduled"; "private"; "trash"].
Definition validCommentStatuses : list string := ["open"; "closed"].
Definition titleMaxBytes : nat := Z.to_nat (4 * 1024).
Definition slugMaxBytes : nat := Z.to_nat 200.
Definition excerptMaxBytes : nat := Z.to_nat (32 * 1024).

Definition slug_byte (c : ascii) : bool :=
  (("a" <=? c) && (c <=? "z") || ("A" <=? c) && (c <=? "Z") || ("0" <=? c) && (c <=? "9"))%char
  || bool_decide (c = "-"%char) || bool_decide (c = "_"%char).

Definition validateSlug (slug : string) : option validation :=
  if decide (slug = "") then None
  else if slugMaxBytes <? String.length slug then Some (mkValidation "slug_too_long" "slug exceeds maximum length")
  else if all_chars slug_byte slug then None
  else Some (mkValidation "invalid_slug" "slug must contain only ASCII letters, digits, hyphens, or underscores").

(** The index of the first block without a type. *)
Fixpoint first_untyped (i : nat) (blocks : list (option string)) : option nat :=
  match blocks with
  | [] => None
  | Some t :: bs => if decide (t = "") then Some i else first_untyped (S i) bs
  | None :: _ => Some i
  end.

(** The first failing check. *)
Definition orelse {A} (x y : option A) : option A := match x with Some v => Some v | None => y end.
Definition check_field {A} (x : option A) (bad : A → bool) (v : validation) : option validation :=
  match x with Some a => if bad a then Some v else None | None => None end.

Section validate.
(** [json.Unmarshal] into a slice of objects: the text under type of each, if it is
    one; and into one object. *)
Context (unmarshalBlocks : string → option (list (option string))) (unmarshalObject : string → bool).

Definition validateContentBlocks (raw : string) : option validation :=
  match unmarshalBlocks raw with
  | None => Some (mkValidation "invalid_content_blocks" "content_blocks must be a JSON array of objects")
  | Some blocks =>
      match first_untyped 0 blocks with
      | Some i => Some (mkValidation "invalid_content_blocks"
                    ("block at index " +:+ strconv.Itoa (Z.of_nat i) +:+ " is missing a non-empty type field"))
      | None => None
      end
  end.

Definition validateJSONObject (raw field : string) : option validation :=
  if unmarshalObject raw then None else Some (mkValidation ("invalid_" +:+ field) (field +:+ " must be a JSON object")).

Definition bad_status (s : string) : bool := negb (bool_decide (s ∈ validStatuses)).
Definition bad_toggle (s : string) : bool := negb (bool_decide (s ∈ validCommentStatuses)).

Definition validateCreate (i : CreateInput) : option validation :=
  orelse (check_field (i_Status i) bad_status
            (mkValidation "invalid_status" ("unknown status " +:+ strconvq.Quote (default "" (i_Status i)))))
  (orelse (check_field (i_Title i) (λ t, titleMaxBytes <? String.length t) (mkValidation "title_too_long" "title exceeds maximum length"))
  (orelse (match i_Slug i with Some s => validateSlug s | None => None end)
  (orelse (check_field (i_Excerpt i) (λ t, excerptMaxBytes <? String.length t)
             (mkValidation "excerpt_too_long" "excerpt exceeds maximum length"))
  (orelse (check_field (i_CommentStatus i) bad_toggle
             (mkValidation "invalid_comment_status" "comment_status must be open or closed"))
  (orelse (check_field (i_PingStatus i) bad_toggle (mkValidation "invalid_ping_status" "ping_status must be open or closed"))
  (orelse (match i_ContentBlocks i with
           | Some raw => if decide (raw = "") then None else validateContentBlocks raw
           | None => None
           end)
          (match i_Meta i with
           | Some raw => if decide (raw = "") then None else validateJSONObject raw "meta"
           | None => None
           end))))))).
Definition validateUpdate (i : UpdateInput) : option validation := validateCreate i.
End validate.

(** ** What both stores do with a row *)

Definition or_keep {A} (x y : option A) : option A := match x with Some v => Some v | None => y end.

(** The fields that are present. *)
Definition applyCreate (r : Row) (i : CreateInput) : Row :=
  mkRow (r_ID r) (r_PostType r) (or_keep (i_ParentID i) (r_ParentID r)) (r_AuthorID r)
    (default (r_Status r) (i_Status i)) (default (r_Title r) (i_Title i)) (default (r_Slug r) (i_Slug i))
    (or_keep (i_Excerpt i) (r_Excerpt r)) (default (r_ContentBlocks r) (i_ContentBlocks i)) (r_Hash r)
    (or_keep (i_Password i) (r_Password r)) (default (r_CommentStatus r) (i_CommentStatus i))
    (default (r_PingStatus r) (i_PingStatus i)) (default (r_MenuOrder r) (i_MenuOrder i)) (default (r_Meta r) (i_Meta i))
    (or_keep (i_PublishedAt i) (r_PublishedAt r)) (or_keep (i_ScheduledFor i) (r_ScheduledFor r))
    (r_CreatedAt r) (r_UpdatedAt r) (r_Version r).
(** The same for an [UpdateInput]. *)
Definition applyUpdate (r : Row) (i : UpdateInput) : Row := applyCreate r i.

Definition set_hash (h : string) (r : Row) : Row :=
  mkRow (r_ID r) (r_PostType r) (r_ParentID r) (r_AuthorID r) (r_Status r) (r_Title r) (r_Slug r) (r_Excerpt r)
    (r_ContentBlocks r) h (r_Password r) (r_CommentStatus r) (r_PingStatus r) (r_MenuOrder r) (r_Meta r)
    (r_PublishedAt r) (r_ScheduledFor r) (r_CreatedAt r) (r_UpdatedAt r) (r_Version r).
Definition set_blocks (b : string) (r : Row) : Row :=
  mkRow (r_ID r) (r_PostType r) (r_ParentID r) (r_AuthorID r) (r_Status r) (r_Title r) (r_Slug r) (r_Excerpt r)
    b (r_Hash r) (r_Password r) (r_CommentStatus r) (r_PingStatus r) (r_MenuOrder r) (r_Meta r)
    (r_PublishedAt r) (r_ScheduledFor r) (r_CreatedAt r) (r_UpdatedAt r) (r_Version r).
Definition set_meta (m : string) (r : Row) : Row :=
  mkRow (r_ID r) (r_PostType r) (r_ParentID r) (r_AuthorID r) (r_Status r) (r_Title r) (r_Slug r) (r_Excerpt r)
    (r_ContentBlocks r) (r_Hash r) (r_Password r) (r_CommentStatus r) (r_PingStatus r) (r_MenuOrder r) m
    (r_PublishedAt r) (r_ScheduledFor r) (r_CreatedAt r) (r_UpdatedAt r) (r_Version r).
Definition set_status (s : string) (r : Row) : Row :=
  mkRow (r_ID r) (r_PostType r) (r_ParentID r) (r_AuthorID r) s (r_Title r) (r_Slug r) (r_Excerpt r)
    (r_ContentBlocks r) (r_Hash r) (r_Password r) (r_CommentStatus r) (r_PingStatus r) (r_MenuOrder r) (r_Meta r)
    (r_PublishedAt r) (r_ScheduledFor r) (r_CreatedAt r) (r_UpdatedAt r) (r_Version r).
(** What the two triggers of the table do on every UPDATE, and the in-memory store. *)
Definition bump (now : Time) (r : Row) : Row :=
  mkRow (r_ID r) (r_PostType r) (r_ParentID r) (r_AuthorID r) (r_Status r) (r_Title r) (r_Slug r) (r_Excerpt r)
    (r_ContentBlocks r) (r_Hash r) (r_Password r) (r_CommentStatus r) (r_PingStatus r) (r_MenuOrder r) (r_Meta r)
    (r_PublishedAt r) (r_ScheduledFor r) (r_CreatedAt r) now (r_Version r + 1)%Z.

Definition no_password (p : option string) : bool := match p with Some s => bool_decide (s = "") | None => true end.

(** [toPost], and what [scanPost] makes of a row. *)
Definition toPost (r : Row) : Post :=
  let r := if decide (r_ContentBlocks r = "") then set_blocks "[]" r else r in
  let r := if decide (r_Meta r = "") then set_meta "{}" r else r in
  mkPost r (negb (no_password (r_Password r))).

(** What stays of a row. *)
Lemma toPost_row r :
  r_AuthorID (p_row (toPost r)) = r_AuthorID r ∧ r_Status (p_row (toPost r)) = r_Status r ∧
  r_Version (p_row (toPost r)) = r_Version r ∧ r_ID (p_row (toPost r)) = r_ID r ∧ r_Slug (p_row (toPost r)) = r_Slug r.
Proof. unfold toPost. repeat case_decide; done. Qed.

Definition toPosts (rs : list Row) : list Post := toPost <$> rs.

(** The columns a new row has unless the request says otherwise. *)
Definition new_row (id postType authorID : string) (now : Time) : Row :=
  mkRow id postType None authorID "draft" "" "" None "[]" "" None "open" "closed" 0 "{}" None None now now 1.

Abbreviation table := (gmap string Row) (only parsing).
Definition rows_of (t : table) : list Row := (map_to_list t).*2.
Definition id_lt (a b : Row) : bool := String.ltb (r_ID a) (r_ID b).

Definition page_limit (n : Z) : Z :=
  let n := if (n <=? 0)%Z then DefaultListLimit else n in if (MaxListLimit <? n)%Z then MaxListLimit else n.

Inductive store_error := ErrNotFound | ErrVersionConflict | ErrDuplicateSlug | ErrInternal (e : string).

(** ** memory.go *)

Section memory.
Context (sha256 : string → string).

Definition recomputeHash (r : Row) : Row := set_hash (sha256 (r_ContentBlocks r)) r.

Definition same_parent (a b : Row) : bool :=
  match r_ParentID a, r_ParentID b with
  | None, None => true
  | Some p, Some q => bool_decide (p = q)
  | _, _ => false
  end.

Definition collides (target : Row) (selfID : string) (other : Row) : bool :=
  negb (bool_decide (r_ID other = selfID)) && bool_decide (r_PostType other = r_PostType target) &&
  negb (bool_decide (r_Status other = "trash")) &&
  bool_decide (strings.ToLower (r_Slug other) = strings.ToLower (r_Slug target)) && same_parent target other.
Definition checkSlugUniqueness (t : table) (target : Row) (selfID : string) : option store_error :=
  if decide (r_Slug target = "") then None
  else if decide (r_Status target = "trash") then None
  else if existsb (collides target selfID) (rows_of t) then Some ErrDuplicateSlug else None.

Definition list_matches (postType : string) (f : ListFilter) (r : Row) : bool :=
  bool_decide (r_PostType r = postType) &&
  (bool_decide (f_Status f = "") || bool_decide (r_Status r = f_Status f)) &&
  (bool_decide (f_AuthorID f = "") || bool_decide (r_AuthorID r = f_AuthorID f)) &&
  (bool_decide (f_Search f = "") || strings.Contains (strings.ToLower (r_Title r)) (strings.ToLower (f_Search f))) &&
  (bool_decide (f_After f = "") || String.ltb (f_After f) (r_ID r)).

Definition mem_List (t : table) (postType : string) (f : ListFilter) : list Post :=
  let matched := sort_by id_lt (filter (λ r, list_matches postType f r = true) (rows_of t)) in
  toPosts (take (Z.to_nat (page_limit (f_Limit f) + 1)) matched).

(** The row of this type. *)
Definition typed_row (t : table) (postType id : string) : option Row :=
  match t !! id with
  | Some r => if decide (r_PostType r = postType) then Some r else None
  | None => None
  end.

Definition mem_Get (t : table) (postType id : string) : result store_error Post :=
  match typed_row t postType id with Some r => Ok (toPost r) | None => Err ErrNotFound end.

Definition mem_Create (now : Time) (newID : string) (t : table) (postType authorID : string) (i : CreateInput)
    : table * result store_error Post :=
  let row := recomputeHash (applyCreate (new_row newID postType authorID now) i) in
  match checkSlugUniqueness t row "" with
  | Some e => (t, Err e)
  | None => (<[newID := row]> t, Ok (toPost row))
  end.

(** The row is changed in place before the slug is checked. *)
Definition mem_Update (now : Time) (t : table) (postType id : string) (expectedVersion : Z) (i : UpdateInput)
    : table * result store_error Post :=
  match typed_row t postType id with
  | None => (t, Err ErrNotFound)
  | Some r =>
      if negb (r_Version r =? expectedVersion)%Z then (t, Err ErrVersionConflict)
      else
        let row := bump now (recomputeHash (applyUpdate r i)) in
        let t := <[id := row]> t in
        match checkSlugUniqueness t row id with
        | Some e => (t, Err e)
        | None => (t, Ok (toPost row))
        end
  end.

Definition mem_Trash (now : Time) (t : table) (postType id : string) (expectedVersion : Z)
    : table * result store_error Post :=
  match typed_row t postType id with
  | None => (t, Err ErrNotFound)
  | Some r =>
      if negb (r_Version r =? expectedVersion)%Z then (t, Err ErrVersionConflict)
      else let row := bump now (set_status "trash" r) in (<[id := row]> t, Ok (toPost row))
  end.
End memory.

(** ** The table (migrations 000001 and 000004) *)

Inductive db_error := UniqueViolation | DbError (e : string).

(** One [column = value] of a statement. *)
Inductive assignment :=
| SetParentID (v : option string) | SetStatus (v : string) | SetTitle (v : string) | SetSlug (v : string)
| SetExcerpt (v : option string) | SetContentBlocks (v : string) | SetHash (v : string) | SetPassword (v : option string)
| SetCommentStatus (v : string) | SetPingStatus (v : string) | SetMenuOrder (v : Z) | SetMeta (v : string)
| SetPublishedAt (v : option Time) | SetScheduledFor (v : option Time)
| Touch.

(** A condition of the WHERE clause of [List]. *)
Inductive condition := StatusIs (v : string) | AuthorIs (v : string) | TitleILike (pattern : string) | IdAfter (v : string).

Definition post_status : list string := ["draft"; "pending"; "scheduled"; "published"; "private"; "trash"; "revision"].
Definition int32_min : Z := (- 2 ^ 31)%Z.
Definition int32_max : Z := (2 ^ 31 - 1)%Z.
Definition in_int32 (z : Z) : bool := ((int32_min <=? z) && (z <=? int32_max))%Z.

(** [s ILIKE pattern]: percent stands for any text, underscore for any byte, a
    backslash takes the next byte as it is. *)
Fixpoint ilike (pattern : string) : string → bool :=
  match pattern with
  | EmptyString => λ s, bool_decide (s = "")
  | String "%" p =>
      let rest := ilike p in
      fix any (s : string) : bool := rest s || match s with String _ s => any s | EmptyString => false end
  | String "_" p => λ s, match s with String _ s => ilike p s | EmptyString => false end
  | String "\" (String c p) =>
      λ s, match s with String d s => bool_decide (strings.lower c = strings.lower d) && ilike p s | EmptyString => false end
  | String c p =>
      λ s, match s with String d s => bool_decide (strings.lower c = strings.lower d) && ilike p s | EmptyString => false end
  end.

Section sql.
(** The text Postgres prints of a UUID and of a JSON document; [None] is a syntax error. *)
Context (uuid jsonb : string → option string).

(** The value, converted to the type of the column. *)
Definition assign (r : Row) (a : assignment) : option Row :=
  let '(mkRow id ty parent author status title slug excerpt blocks hash pw cs ps mo meta pub sch cr up v) := r in
  match a with
  | SetParentID (Some p) =>
      p ← uuid p; Some (mkRow id ty (Some p) author status title slug excerpt blocks hash pw cs ps mo meta pub sch cr up v)
  | SetParentID None => Some (mkRow id ty None author status title slug excerpt blocks hash pw cs ps mo meta pub sch cr up v)
  | SetStatus s =>
      if decide (s ∈ post_status)
      then Some (mkRow id ty parent author s title slug excerpt blocks hash pw cs ps mo meta pub sch cr up v) else None
  | SetTitle x => Some (mkRow id ty parent author status x slug excerpt blocks hash pw cs ps mo meta pub sch cr up v)
  | SetSlug x => Some (mkRow id ty parent author status title x excerpt blocks hash pw cs ps mo meta pub sch cr up v)
  | SetExcerpt x => Some (mkRow id ty parent author status title slug x blocks hash pw cs ps mo meta pub sch cr up v)
  | SetContentBlocks x =>
      x ← jsonb x; Some (mkRow id ty parent author status title slug excerpt x hash pw cs ps mo meta pub sch cr up v)
  | SetHash x => Some (mkRow id ty parent author status title slug excerpt blocks x pw cs ps mo meta pub sch cr up v)
  | SetPassword x => Some (mkRow id ty parent author status title slug excerpt blocks hash x cs ps mo meta pub sch cr up v)
  | SetCommentStatus x =>
      if decide (x ∈ validCommentStatuses)
      then Some (mkRow id ty parent author status title slug excerpt blocks hash pw x ps mo meta pub sch cr up v) else None
  | SetPingStatus x =>
      if decide (x ∈ validCommentStatuses)
      then Some (mkRow id ty parent author status title slug excerpt blocks hash pw cs x mo meta pub sch cr up v) else None
  | SetMenuOrder x =>
      if in_int32 x
      then Some (mkRow id ty parent author status title slug excerpt blocks hash pw cs ps x meta pub sch cr up v) else None
  | SetMeta x =>
      x ← jsonb x; Some (mkRow id ty parent author status title slug excerpt blocks hash pw cs ps mo x pub sch cr up v)
  | SetPublishedAt x => Some (mkRow id ty parent author status title slug excerpt blocks hash pw cs ps mo meta x sch cr up v)
  | SetScheduledFor x => Some (mkRow id ty parent author status title slug excerpt blocks hash pw cs ps mo meta pub x cr up v)
  | Touch => Some r
  end.
Fixpoint assign_all (r : Row) (sets : list assignment) : option Row :=
  match sets with [] => Some r | a :: sets => r ← assign r a; assign_all r sets end.

(** The two partial unique indexes on the slug, which is citext. *)
Definition conflicts (a b : Row) : bool :=
  bool_decide (r_PostType a = r_PostType b) && negb (bool_decide (r_Status a = "trash")) &&
  negb (bool_decide (r_Status b = "trash")) && same_parent a b &&
  bool_decide (strings.ToLower (r_Slug a) = strings.ToLower (r_Slug b)).
Definition slug_taken (t : table) (id : string) (r : Row) : bool :=
  existsb (λ o, negb (bool_decide (o.1 = id)) && conflicts r o.2) (map_to_list t).

(** Storing a row under its primary key: the indexes, then the foreign keys that
    changed. *)
Definition no_parent (t : table) (id : string) (old : option Row) (r : Row) : bool :=
  match r_ParentID r with
  | Some p =>
      negb (bool_decide (is_Some (<[id := r]> t !! p))) &&
      match old with Some o => negb (bool_decide (r_ParentID o = Some p)) | None => true end
  | None => false
  end.
Definition store_row (users : gset string) (t : table) (id : string) (old : option Row) (r : Row) : result db_error table :=
  if slug_taken t id r then Err UniqueViolation
  else if match old with None => negb (bool_decide (r_AuthorID r ∈ users)) | Some _ => false end
  then Err (DbError "posts_author_id_fkey")
  else if no_parent t id old r then Err (DbError "posts_parent_id_fkey")
  else Ok (<[id := r]> t).

(** INSERT ... RETURNING *)
Definition sql_insert (users : gset string) (now : Time) (newID : string) (t : table) (postType authorID : string)
    (sets : list assignment) : table * result db_error Row :=
  match author ← uuid authorID; assign_all (new_row newID postType author now) sets with
  | None => (t, Err (DbError "invalid input"))
  | Some r =>
      match t !! newID with
      | Some _ => (t, Err UniqueViolation)
      | None => match store_row users t newID None r with Ok t' => (t', Ok r) | Err e => (t, Err e) end
      end
  end.

(** UPDATE ... WHERE id AND post_type AND version RETURNING, with the triggers. *)
Definition sql_update (users : gset string) (now : Time) (t : table) (id postType : string) (version : Z)
    (sets : list assignment) : table * result db_error (option Row) :=
  match uuid id with
  | None => (t, Err (DbError "invalid input"))
  | Some id =>
      if negb (in_int32 version) then (t, Err (DbError "out of range"))
      else
        match typed_row t postType id with
        | None => (t, Ok None)
        | Some r =>
            if negb (r_Version r =? version)%Z then (t, Ok None)
            else
              match assign_all r sets with
              | None => (t, Err (DbError "invalid input"))
              | Some r' =>
                  if negb (in_int32 (r_Version r + 1)) then (t, Err (DbError "out of range"))
                  else
                    let r' := bump now r' in
                    match store_row users t id (Some r) r' with Ok t' => (t', Ok (Some r')) | Err e => (t, Err e) end
              end
        end
  end.

Definition sql_select (t : table) (id postType : string) : result db_error (option Row) :=
  match uuid id with None => Err (DbError "invalid input") | Some id => Ok (typed_row t postType id) end.

(** A condition with its argument converted. *)
Definition holds (c : condition) : option (Row → bool) :=
  match c with
  | StatusIs v => if decide (v ∈ post_status) then Some (λ r, bool_decide (r_Status r = v)) else None
  | AuthorIs v => u ← uuid v; Some (λ r, bool_decide (r_AuthorID r = u))
  | TitleILike p => Some (λ r, ilike p (r_Title r))
  | IdAfter v => u ← uuid v; Some (λ r, String.ltb u (r_ID r))
  end.

Definition sql_list (t : table) (postType : string) (conds : list condition) (limit : Z) : result db_error (list Row) :=
  match mapM holds conds with
  | None => Err (DbError "invalid input")
  | Some ps =>
      Ok (take (Z.to_nat limit)
        (sort_by id_lt (filter (λ r, bool_decide (r_PostType r = postType) && forallb (λ p, p r) ps = true) (rows_of t))))
  end.

(** *** packages/go/jobs/scheduler/publisher.go *)

Definition publish_row (now clock : Time) (r : Row) : Row :=
  bump clock (mkRow (r_ID r) (r_PostType r) (r_ParentID r) (r_AuthorID r) "published" (r_Title r) (r_Slug r) (r_Excerpt r)
    (r_ContentBlocks r) (r_Hash r) (r_Password r) (r_CommentStatus r) (r_PingStatus r) (r_MenuOrder r) (r_Meta r)
    (Some (default now (r_PublishedAt r))) (r_ScheduledFor r) (r_CreatedAt r) (r_UpdatedAt r) (r_Version r)).

Definition is_due (now : Time) (locked : gset string) (r : string * Row) : bool :=
  bool_decide (r_Status r.2 = "scheduled") &&
  match r_ScheduledFor r.2 with Some s => (s <=? now)%Z | None => false end && negb (bool_decide (r.1 ∈ locked)).
Definition scheduled_lt (a b : string * Row) : bool :=
  (default 0 (r_ScheduledFor a.2) <? default 0 (r_ScheduledFor b.2))%Z.

Record PublisherResult := mkPublisherResult { Scanned : nat; Published : nat; Errors : nat }.

(** [visit] is the order the rows are found in, [locked] the rows another
    transaction has locked; the clock of the trigger is that of the server. *)
Definition PublishScheduled (limit : Z) (now : Time) (visit : list (string * Row)) (locked : gset string) (clock : Time) (t : table)
    : table * result string PublisherResult :=
  if (limit <=? 0)%Z then (t, Err "scheduler: PublishScheduled: Limit must be positive")
  else if is_zero now then (t, Err "scheduler: PublishScheduled: Now is required")
  else
    let due := take (Z.to_nat limit) (sort_by scheduled_lt (filter (λ r, is_due now locked r = true) visit)) in
    if existsb (λ r, negb (in_int32 (r_Version r.2 + 1))) due then (t, Err "query: out of range")
    else
      (foldr (λ r t, <[r.1 := publish_row now clock r.2]> t) t due, Ok (mkPublisherResult (length due) (length due) 0)).
End sql.

(** *** packages/go/jobs/scheduler/gc.go *)

Definition is_expired (cutoff : Time) (locked : gset string) (r : string * Row) : bool :=
  bool_decide (r_Status r.2 = "trash") && (r_UpdatedAt r.2 <=? cutoff)%Z && negb (bool_decide (r.1 ∈ locked)).
Definition updated_lt (a b : string * Row) : bool := (r_UpdatedAt a.2 <? r_UpdatedAt b.2)%Z.

(** ON DELETE SET NULL of a child, an UPDATE with its triggers and indexes. *)
Definition clear_parent (clock : Time) (r : Row) : Row :=
  bump clock (mkRow (r_ID r) (r_PostType r) None (r_AuthorID r) (r_Status r) (r_Title r) (r_Slug r) (r_Excerpt r)
    (r_ContentBlocks r) (r_Hash r) (r_Password r) (r_CommentStatus r) (r_PingStatus r) (r_MenuOrder r) (r_Meta r)
    (r_PublishedAt r) (r_ScheduledFor r) (r_CreatedAt r) (r_UpdatedAt r) (r_Version r)).
Fixpoint orphan (clock : Time) (kids : list (string * Row)) (t : table) : option table :=
  match kids with
  | [] => Some t
  | (id, r) :: kids =>
      let r' := clear_parent clock r in
      if negb (in_int32 (r_Version r')) || slug_taken t id r' then None else orphan clock kids (<[id := r']> t)
  end.
Definition child_of (ids : list string) (r : Row) : bool :=
  match r_ParentID r with Some p => bool_decide (p ∈ ids) | None => false end.

(** The rows deleted and the children of them that stay; the rest of the cascade is in
    other tables. *)
Definition SweepTrash (retention : Duration) (limit : Z) (now : Time) (visit : list (string * Row)) (locked : gset string)
    (clock : Time) (t : table) : table * result string nat :=
  if (retention <=? 0)%Z then (t, Err "scheduler: SweepTrash: Retention must be positive")
  else if (limit <=? 0)%Z then (t, Err "scheduler: SweepTrash: Limit must be positive")
  else if is_zero now then (t, Err "scheduler: SweepTrash: Now is required")
  else
    let gone := take (Z.to_nat limit) (sort_by updated_lt (filter (λ r, is_expired (now - retention)%Z locked r = true) visit)) in
    let ids := gone.*1 in
    let kids := filter (λ r, (r.1 ∉ ids) ∧ child_of ids r.2 = true) visit in
    match orphan clock kids (filter (λ r, r.1 ∉ ids) t) with
    | None => (t, Err "query: constraint violation")
    | Some t' => (t', Ok (length gone))
    end.

(** ** Commands and stores (store.go) *)

(** What the restore reads of a revision, and the errors of the revisions store. *)
Record revision := mkRev { rv_PostID : string; rv_Title : string; rv_Excerpt : string }.
Inductive rev_error := RevNotFound | RevFailed.

Inductive pcmd : Type → Type :=
| PgSelect (id postType : string) : pcmd (result db_error (option Row))
| PgList (postType : string) (conds : list condition) (limit : Z) : pcmd (result db_error (list Row))
| PgInsert (postType authorID : string) (sets : list assignment) : pcmd (result db_error Row)
| PgUpdate (id postType : string) (version : Z) (sets : list assignment) : pcmd (result db_error (option Row))
| PgExists (id postType : string) : pcmd (result db_error bool)
(* the methods of the in-memory store, each under its lock *)
| MemList (postType : string) (f : ListFilter) : pcmd (list Post)
| MemGet (postType id : string) : pcmd (result store_error Post)
| MemCreate (postType authorID : string) (i : CreateInput) : pcmd (result store_error Post)
| MemUpdate (postType id : string) (version : Z) (i : UpdateInput) : pcmd (result store_error Post)
| MemTrash (postType id : string) (version : Z) : pcmd (result store_error Post)
| Emit (actor eventType target : string) (version : Z) (status : string) : pcmd unit
| NotifyMany (paths : list string) : pcmd unit
(* the revisions store *)
| RevGet (rev : string) : pcmd (result rev_error revision)
| RevMaterialize (rev : string) : pcmd (result rev_error string)
| RevSave (postID authorID : string) (from : revision) (blocks comment : string) : pcmd bool.

Record Store := mkStore {
  List_ : string → ListFilter → prog pcmd (result store_error (list Post));
  Get : string → string → prog pcmd (result store_error Post);
  Create : string → string → CreateInput → prog pcmd (result store_error Post);
  Update : string → string → Z → UpdateInput → prog pcmd (result store_error Post);
  Trash : string → string → Z → prog pcmd (result store_error Post) }.

Definition MemoryStore : Store := mkStore
  (λ ty f, rows <- MemList ty f ;; Ret (Ok rows))
  (λ ty id, Call (MemGet ty id) Ret)
  (λ ty author i, Call (MemCreate ty author i) Ret)
  (λ ty id v i, Call (MemUpdate ty id v i) Ret)
  (λ ty id v, Call (MemTrash ty id v) Ret).

(** *** pgx_store.go *)

Definition normalizeBlockTree (raw : option string) : string :=
  match raw with Some b => if decide (b = "") then "[]" else b | None => "[]" end.
Definition normalizeMetaObject (raw : option string) : string :=
  match raw with Some b => if decide (b = "") then "{}" else b | None => "{}" end.

Definition when (s : string) (c : condition) : list condition := if decide (s = "") then [] else [c].
Definition buildListSQL (f : ListFilter) : list condition * Z :=
  (when (f_Status f) (StatusIs (f_Status f)) ++ when (f_AuthorID f) (AuthorIs (f_AuthorID f)) ++
   when (f_Search f) (TitleILike ("%" +:+ f_Search f +:+ "%")) ++ when (f_After f) (IdAfter (f_After f)),
   (page_limit (f_Limit f) + 1)%Z).

Definition opt {A} (x : option A) (f : A → list assignment) : list assignment :=
  match x with Some a => f a | None => [] end.

Section pgx.
Context (sha256 : string → string).

Definition insert_values (i : CreateInput) : list assignment :=
  let contentBlocks := normalizeBlockTree (i_ContentBlocks i) in
  [SetParentID (i_ParentID i); SetStatus (default "draft" (i_Status i)); SetTitle (default "" (i_Title i));
   SetSlug (default "" (i_Slug i)); SetExcerpt (i_Excerpt i); SetContentBlocks contentBlocks; SetHash (sha256 contentBlocks);
   SetPassword (i_Password i); SetCommentStatus (default "open" (i_CommentStatus i));
   SetPingStatus (default "closed" (i_PingStatus i)); SetMenuOrder (default 0%Z (i_MenuOrder i));
   SetMeta (normalizeMetaObject (i_Meta i)); SetPublishedAt (i_PublishedAt i); SetScheduledFor (i_ScheduledFor i)].

Definition update_sets (i : UpdateInput) : list assignment :=
  let sets :=
    opt (i_ParentID i) (λ v, [SetParentID (Some v)]) ++ opt (i_Status i) (λ v, [SetStatus v]) ++
    opt (i_Title i) (λ v, [SetTitle v]) ++ opt (i_Slug i) (λ v, [SetSlug v]) ++
    opt (i_Excerpt i) (λ v, [SetExcerpt (Some v)]) ++
    opt (i_ContentBlocks i) (λ v, let b := normalizeBlockTree (Some v) in [SetContentBlocks b; SetHash (sha256 b)]) ++
    opt (i_Password i) (λ v, [SetPassword (Some v)]) ++ opt (i_CommentStatus i) (λ v, [SetCommentStatus v]) ++
    opt (i_PingStatus i) (λ v, [SetPingStatus v]) ++ opt (i_MenuOrder i) (λ v, [SetMenuOrder v]) ++
    opt (i_Meta i) (λ v, [SetMeta (normalizeMetaObject (Some v))]) ++
    opt (i_PublishedAt i) (λ v, [SetPublishedAt (Some v)]) ++ opt (i_ScheduledFor i) (λ v, [SetScheduledFor (Some v)]) in
  match sets with [] => [Touch] | _ => sets end.

Definition db_text (e : db_error) : string := match e with UniqueViolation => "23505" | DbError s => s end.

Definition classifyAbsence (postType id : string) : prog pcmd (result store_error Post) :=
  e <- PgExists id postType ;;
  match e with
  | Err e => Ret (Err (ErrInternal ("posts: classify absence: " +:+ db_text e)))
  | Ok true => Ret (Err ErrVersionConflict)
  | Ok false => Ret (Err ErrNotFound)
  end.

Definition pg_List (postType : string) (f : ListFilter) : prog pcmd (result store_error (list Post)) :=
  let '(conds, limit) := buildListSQL f in
  rs <- PgList postType conds limit ;;
  match rs with
  | Err e => Ret (Err (ErrInternal ("posts: list query: " +:+ db_text e)))
  | Ok rs => Ret (Ok (toPosts rs))
  end.

Definition pg_Get (postType id : string) : prog pcmd (result store_error Post) :=
  r <- PgSelect id postType ;;
  match r with
  | Err e => Ret (Err (ErrInternal ("posts: get: " +:+ db_text e)))
  | Ok None => Ret (Err ErrNotFound)
  | Ok (Some r) => Ret (Ok (toPost r))
  end.

Definition pg_Create (postType authorID : string) (i : CreateInput) : prog pcmd (result store_error Post) :=
  r <- PgInsert postType authorID (insert_values i) ;;
  match r with
  | Ok r => Ret (Ok (toPost r))
  | Err UniqueViolation => Ret (Err ErrDuplicateSlug)
  | Err (DbError e) => Ret (Err (ErrInternal ("posts: create: " +:+ e)))
  end.

Definition pg_Update (postType id : string) (expectedVersion : Z) (i : UpdateInput) : prog pcmd (result store_error Post) :=
  r <- PgUpdate id postType expectedVersion (update_sets i) ;;
  match r with
  | Ok (Some r) => Ret (Ok (toPost r))
  | Ok None => classifyAbsence postType id
  | Err UniqueViolation => Ret (Err ErrDuplicateSlug)
  | Err (DbError e) => Ret (Err (ErrInternal ("posts: update: " +:+ e)))
  end.

Definition pg_Trash (postType id : string) (expectedVersion : Z) : prog pcmd (result store_error Post) :=
  r <- PgUpdate id postType expectedVersion [SetStatus "trash"] ;;
  match r with
  | Ok (Some r) => Ret (Ok (toPost r))
  | Ok None => classifyAbsence postType id
  | Err e => Ret (Err (ErrInternal ("posts: trash: " +:+ db_text e)))
  end.

Definition PgxStore : Store := mkStore pg_List pg_Get pg_Create pg_Update pg_Trash.
End pgx.

(** ** Requests and answers (handlers.go) *)

Definition HeaderPostPassword : string := "X-Post-Password".
Definition HeaderVersion : string := "X-Version".
Definition maxBodyBytes : nat := Z.to_nat (2 ^ 20).

Inductive pbody :=
| BNone
| BProblem (code detail : string)
| BPost (p : Post)
| BPage (data : list Post) (next : string)
| BRestored (restored_from post_id : string).
Record response := mkResponse { rs_status : Z; rs_header : gmap string string; rs_body : pbody }.

(** What encoding/json writes of a post: the unexported fields are left out. *)
Definition exported (p : Post) : Post :=
  let r := p_row p in
  mkPost (mkRow (r_ID r) (r_PostType r) (r_ParentID r) (r_AuthorID r) (r_Status r) (r_Title r) (r_Slug r) (r_Excerpt r)
    (r_ContentBlocks r) "" None (r_CommentStatus r) (r_PingStatus r) (r_MenuOrder r) (r_Meta r)
    (r_PublishedAt r) (r_ScheduledFor r) (r_CreatedAt r) (r_UpdatedAt r) (r_Version r)) (p_Protected p).

Definition WriteError (status : Z) (code msg : string) : response :=
  mkResponse status {["Content-Type" := "application/problem+json; charset=utf-8"]} (BProblem code msg).
Definition WriteJSON (status : Z) (h : gmap string string) (b : pbody) : response :=
  mkResponse status (<["Content-Type" := "application/json; charset=utf-8"]> h) b.
Definition writeValidationError (v : validation) : response := WriteError 400 (v_Code v) (v_Detail v).
Definition writeStoreError (e : store_error) : response :=
  match e with
  | ErrNotFound => WriteError 404 "not_found" "resource not found"
  | ErrVersionConflict => WriteError 412 "version_mismatch" "If-Match version does not match current resource version"
  | ErrDuplicateSlug => WriteError 409 "duplicate_slug" "a post with this slug already exists"
  | ErrInternal _ => WriteError 500 "internal_error" "internal server error"
  end.

(** The outcome of [Decode]: end of input before any value or inside one, another
    error, or a value and the bytes after it. *)
Inductive decoded := DEnd | DInside | DError (e : string) | DValue (i : CreateInput) (rest : string).

Fixpoint skip_space (s : string) : string :=
  match s with String c s' => if json_space c then skip_space s' else s | EmptyString => "" end.
(** [dec.More] *)
Definition More (rest : string) : bool :=
  match skip_space rest with
  | String c _ => negb (bool_decide (c = "]"%char)) && negb (bool_decide (c = "}"%char))
  | EmptyString => false
  end.

Definition decodeBody (Decode : string → decoded) (raw : string) : result validation CreateInput :=
  let cut := maxBodyBytes <? String.length raw in
  let too_large := mkValidation "body_too_large" "request body exceeds maximum size" in
  match Decode (String.substring 0 maxBodyBytes raw) with
  | DValue i rest =>
      if More rest then Err (mkValidation "invalid_body" "request body must contain a single JSON value") else Ok i
  | DEnd => Err (if cut then too_large else mkValidation "missing_body" "request body is required")
  | DInside => Err (if cut then too_large else mkValidation "invalid_body" "request body could not be parsed: unexpected EOF")
  | DError e =>
      if strings.Contains e "too large" then Err too_large
      else Err (mkValidation "invalid_body" ("request body could not be parsed: " +:+ e))
  end.

(** [r.URL.Query]: the pairs that parse. *)
Definition Query (raw : string) : list (string * string) :=
  omap (λ kv, match url.ParsePair kv with Some p => p | None => None end) (strings.Split "&" raw).

Definition parseListQuery (rawQuery : string) : result validation ListFilter :=
  let q := Query rawQuery in
  let status := url.Values_Get q "status" in
  if negb (bool_decide (status = "")) && bad_status status
  then Err (mkValidation "invalid_status" ("unknown status " +:+ strconvq.Quote status))
  else
    let after := url.Values_Get q "after" in
    match (if decide (after = "") then Some "" else router.ParseCursor after) with
    | None => Err (mkValidation "invalid_cursor" "after must be a valid cursor")
    | Some decoded =>
        let f := mkFilter status (url.Values_Get q "author") (url.Values_Get q "search") decoded in
        let raw := url.Values_Get q "limit" in
        if decide (raw = "") then Ok (f DefaultListLimit)
        else
          let bad := mkValidation "invalid_limit" "limit must be a non-negative integer" in
          match strconv.Atoi raw with
          | None => Err bad
          | Some n =>
              if (n <? 0)%Z then Err bad
              else
                let n := if decide (n = 0%Z) then DefaultListLimit else n in
                Ok (f (if (MaxListLimit <? n)%Z then MaxListLimit else n))
          end
    end.

Definition passwordMatches (h : gmap string string) (p : Post) : bool :=
  match r_Password (p_row p) with
  | None => true
  | Some pw =>
      if decide (pw = "") then true
      else
        let supplied := router.header_get HeaderPostPassword h in
        if decide (supplied = "") then false else bool_decide (supplied = pw)
  end.

Section handlers.
Context (Decode : string → decoded).
Context (unmarshalBlocks : string → option (list (option string))) (unmarshalObject : string → bool).
Context (store : Store) (roleCaps : gmap string (gset string)).
(** The wiring of a mount. *)
Context (has_audit has_revalidate : bool) (postType : string).

Abbreviation caps := (capsFor postType) (only parsing).
Abbreviation valid_input := (validateCreate unmarshalBlocks unmarshalObject) (only parsing).

Definition emitAudit (pr : Principal) (p : Post) (verb : string) : prog pcmd unit :=
  if negb has_audit then Ret ()
  else Emit (UserID pr) (postType +:+ "." +:+ verb) (r_ID (p_row p)) (r_Version (p_row p)) (r_Status (p_row p)) ;;; Ret ().

Definition revalidate_paths (p : Post) : list string :=
  let slug := r_Slug (p_row p) in
  if decide (postType = PostTypePost) then (if decide (slug = "") then [] else ["/posts/" +:+ slug]) ++ ["/"]
  else if decide (postType = PostTypePage) then (if decide (slug = "") then [] else ["/" +:+ slug])
  else [].
Definition notifyRevalidate (p : Post) : prog pcmd unit :=
  if negb has_revalidate then Ret ()
  else match revalidate_paths p with [] => Ret () | paths => NotifyMany paths ;;; Ret () end.

(** The answer to a write. *)
Definition written (status : Z) (p : Post) : response :=
  WriteJSON status (router.SetETag (router.HashETag (r_Hash (p_row p))) {[HeaderVersion := strconv.Itoa (r_Version (p_row p))]})
    (BPost (exported p)).

Definition forbidden (d : PolicyDecision) : response := WriteError 403 "forbidden" (Reason d).
Definition missing_id : response := WriteError 400 "missing_id" "id is required".

Definition h_list (rawQuery : string) (pr : Principal) : prog pcmd response :=
  match parseListQuery rawQuery with
  | Err v => Ret (writeValidationError v)
  | Ok filter =>
      let d := Can roleCaps pr (c_readPrivate caps) in
      if bool_decide (f_Status filter = "private") && negb (Allowed d) then Ret (forbidden d)
      else
        run! rows := List_ store postType filter in
        match rows with
        | Err _ => Ret (WriteError 500 "internal_error" "failed to list posts")
        | Ok rows =>
            let pageSize := if (f_Limit filter <=? 0)%Z then DefaultListLimit else f_Limit filter in
            let '(rows, next) :=
              if (pageSize <? Z.of_nat (length rows))%Z
              then let rows := take (Z.to_nat pageSize) rows in
                   (rows, match last rows with Some p => router.EncodeCursor (r_ID (p_row p)) | None => "" end)
              else (rows, "") in
            Ret (WriteJSON 200 ∅ (BPage (exported <$> rows) next))
        end
  end.

Definition h_get (id : string) (h : gmap string string) (pr : Principal) : prog pcmd response :=
  if decide (id = "") then Ret missing_id
  else
    run! p := Get store postType id in
    match p with
    | Err e => Ret (writeStoreError e)
    | Ok p =>
        let d := Can roleCaps pr (c_readPrivate caps) in
        if bool_decide (r_Status (p_row p) = "private") && negb (Allowed d) then Ret (forbidden d)
        else
          let etag := router.HashETag (r_Hash (p_row p)) in
          let hd := <[HeaderVersion := strconv.Itoa (r_Version (p_row p))]> (router.SetETag etag ∅) in
          if router.MatchesIfNoneMatch h etag then Ret (mkResponse 304 hd BNone)
          else
            let p := if p_Protected p && negb (passwordMatches h p)
                     then mkPost (set_blocks "[]" (p_row p)) (p_Protected p) else p in
            Ret (WriteJSON 200 hd (BPost (exported p)))
    end.

Definition h_create (raw : string) (pr : Principal) : prog pcmd response :=
  let d := Can roleCaps pr (c_edit caps) in
  if negb (Allowed d) then Ret (forbidden d)
  else
    match decodeBody Decode raw with
    | Err v => Ret (writeValidationError v)
    | Ok i =>
        let d := Can roleCaps pr (c_publish caps) in
        if bool_decide (i_Status i = Some "published") && negb (Allowed d) then Ret (forbidden d)
        else
          match valid_input i with
          | Some v => Ret (writeValidationError v)
          | None =>
              run! p := Create store postType (UserID pr) i in
              match p with
              | Err e => Ret (writeStoreError e)
              | Ok p =>
                  run! _ := emitAudit pr p "created" in
                  run! _ := if decide (r_Status (p_row p) = "published") then notifyRevalidate p else Ret () in
                  Ret (written 201 p)
              end
          end
    end.

(** The capability a change of this post needs, and the version the client names. *)
Definition required (own others : Capability) (pr : Principal) (p : Post) : Capability :=
  if decide (r_AuthorID (p_row p) = UserID pr) then own else others.
Definition with_version (h : gmap string string) (k : Z → prog pcmd response) : prog pcmd response :=
  match router.ParseIfMatchVersion h with
  | Err _ => Ret (WriteError 400 "invalid_if_match" "If-Match header is malformed")
  | Ok None => Ret (WriteError 428 "if_match_required" "If-Match header is required")
  | Ok (Some version) => k version
  end.

Definition h_update (id : string) (h : gmap string string) (raw : string) (pr : Principal) : prog pcmd response :=
  if decide (id = "") then Ret missing_id
  else
    run! p := Get store postType id in
    match p with
    | Err e => Ret (writeStoreError e)
    | Ok existing =>
        let d := Can roleCaps pr (required (c_edit caps) (c_editOthers caps) pr existing) in
        if negb (Allowed d) then Ret (forbidden d)
        else with_version h (λ version,
          match decodeBody Decode raw with
          | Err v => Ret (writeValidationError v)
          | Ok i =>
              let d := Can roleCaps pr (c_publish caps) in
              if bool_decide (i_Status i = Some "published") && negb (bool_decide (r_Status (p_row existing) = "published"))
                 && negb (Allowed d)
              then Ret (forbidden d)
              else
                match validateUpdate unmarshalBlocks unmarshalObject i with
                | Some v => Ret (writeValidationError v)
                | None =>
                    run! p := Update store postType id version i in
                    match p with
                    | Err e => Ret (writeStoreError e)
                    | Ok p =>
                        run! _ := emitAudit pr p "updated" in
                        run! _ := if decide (r_Status (p_row p) = "published" ∨ r_Status (p_row existing) = "published")
                                  then notifyRevalidate p else Ret () in
                        Ret (written 200 p)
                    end
                end
          end)
    end.

Definition h_trash (id : string) (h : gmap string string) (pr : Principal) : prog pcmd response :=
  if decide (id = "") then Ret missing_id
  else
    run! p := Get store postType id in
    match p with
    | Err e => Ret (writeStoreError e)
    | Ok existing =>
        let d := Can roleCaps pr (required (c_deleteOwn caps) (c_deleteOthers caps) pr existing) in
        if negb (Allowed d) then Ret (forbidden d)
        else with_version h (λ version,
          run! p := Trash store postType id version in
          match p with
          | Err e => Ret (writeStoreError e)
          | Ok p =>
              run! _ := emitAudit pr p "trashed" in
              Ret (WriteJSON 200 {[HeaderVersion := strconv.Itoa (r_Version (p_row p))]} (BPost (exported p)))
          end)
    end.
End handlers.

(** ** Restoring a revision (apps/api/internal/admin/posts, cmd/server/main.go) *)

Section restore.
(** [uuid.Parse] and [String]: the canonical text. *)
Context (parseUUID : string → option string) (store : Store) (roleCaps : gmap string (gset string)).

Definition uuid_nil : string := "00000000-0000-0000-0000-000000000000".
Definition restore_input (raw : string) : UpdateInput :=
  mkInput None None None None None (Some raw) None None None None None None None.

(** The [PostUpdater] the server wires: the version is the one just read. *)
Definition updater_SetContentBlocks (postID raw : string) : prog pcmd (option store_error) :=
  run! p := Get store PostTypePost postID in
  match p with
  | Err e => Ret (Some e)
  | Ok current =>
      run! r := Update store PostTypePost postID (r_Version (p_row current)) (restore_input raw) in
      match r with Err e => Ret (Some e) | Ok _ => Ret None end
  end.

Definition invalid_id (what : string) : response := WriteError 400 "invalid_id" (what +:+ " is not a valid uuid").
Definition restore_failed (msg : string) : response := WriteError 500 "internal_error" msg.

Definition gate (pr : Principal) (next : prog pcmd response) : prog pcmd response :=
  let d := Can roleCaps pr CapEditPosts in
  if negb (Allowed d) then Ret (WriteError 403 "forbidden" (Reason d)) else next.

Definition restoreRevision (id rev : string) (pr : Principal) : prog pcmd response :=
  match parseUUID id, parseUUID rev with
  | None, _ => Ret (invalid_id "post id")
  | Some _, None => Ret (invalid_id "revision id")
  | Some postID, Some revID =>
      r <- RevGet revID ;;
      match r with
      | Err RevNotFound => Ret (WriteError 404 "not_found" "revision not found")
      | Err RevFailed => Ret (restore_failed "failed to load revision")
      | Ok from =>
          if negb (bool_decide (rv_PostID from = postID))
          then Ret (WriteError 404 "not_found" "revision not found on this post")
          else
            m <- RevMaterialize revID ;;
            match m with
            | Err _ => Ret (restore_failed "failed to materialize revision")
            | Ok materialized =>
                run! e := updater_SetContentBlocks postID materialized in
                match e with
                | Some _ => Ret (restore_failed "failed to restore post")
                | None =>
                    RevSave postID (default uuid_nil (parseUUID (UserID pr))) from materialized
                      ("Restored from revision " +:+ revID) ;;;
                    Ret (WriteJSON 200 ∅ (BRestored revID postID))
                end
            end
      end
  end.
End restore.

(** ** Requests to the mounts *)

(** [VRestore] is a request to the admin mount, the others are requests to the mount of
    [q_type]. *)
Inductive verb := VList (rawQuery : string) | VGet (id : string) | VCreate (body : string)
                | VUpdate (id body : string) | VTrash (id : string) | VRestore (id rev : string).
Record request := mkPostRequest {
  q_type : string; q_principal : option Principal; q_headers : gmap string string; q_verb : verb }.

Section mount.
Context (Decode : string → decoded).
Context (unmarshalBlocks : string → option (list (option string))) (unmarshalObject : string → bool).
Context (parseUUID : string → option string).
Context (store : Store) (roleCaps : gmap string (gset string)) (has_audit has_revalidate : bool).

(** [requireAuth] or [gate], then the handler of the route. *)
Definition serve (q : request) : prog pcmd response :=
  match q_principal q with
  | None => Ret (WriteError 401 "unauthenticated" "authentication required")
  | Some pr =>
      match q_verb q with
      | VList raw => h_list store roleCaps (q_type q) raw pr
      | VGet id => h_get store roleCaps (q_type q) id (q_headers q) pr
      | VCreate body => h_create Decode unmarshalBlocks unmarshalObject store roleCaps has_audit has_revalidate (q_type q) body pr
      | VUpdate id body =>
          h_update Decode unmarshalBlocks unmarshalObject store roleCaps has_audit has_revalidate (q_type q) id (q_headers q) body pr
      | VTrash id => h_trash store roleCaps has_audit (q_type q) id (q_headers q) pr
      | VRestore id rev => gate roleCaps pr (restoreRevision parseUUID store id rev pr)
      end
  end.
End mount.

(** ** Running them *)

(** The clock, the next id, how the call to the database goes, and what the revisions
    store says. *)
Record penv := mkPEnv {
  e_now : Time; e_newID : string; e_net : outcome;
  e_revision : string → result rev_error revision; e_content : string → result rev_error string; e_saved : bool }.
(** [posts] is the table, [retired] the ids of rows deleted from it, [memory] the rows
    of the in-memory store. *)
Record pworld := mkPWorld {
  posts : gmap string Row; retired : gset string; memory : gmap string Row; authors : gset string;
  notified : list (list string) }.

Section exec.
Context (sha256 : string → string) (uuid jsonb : string → option string).

Definition answered {X} (e : penv) (w : pworld) (act : gmap string Row * result db_error X) : pworld * result db_error X :=
  match e_net e with
  | Served => (mkPWorld act.1 (retired w) (memory w) (authors w) (notified w), act.2)
  | ReplyLost => (mkPWorld act.1 (retired w) (memory w) (authors w) (notified w), Err (DbError "conn closed"))
  | Refused => (w, Err (DbError "conn refused"))
  end.

Definition locked_do (w : pworld) (r : gmap string Row * result store_error Post) : pworld * result store_error Post :=
  (mkPWorld (posts w) (retired w) r.1 (authors w) (notified w), r.2).

Definition exec (X : Type) (e : penv) (w : pworld) (c : pcmd X) : pworld * X :=
  match c in pcmd X return pworld * X with
  | PgSelect id ty => answered e w (posts w, sql_select uuid (posts w) id ty)
  | PgList ty conds limit => answered e w (posts w, sql_list uuid (posts w) ty conds limit)
  | PgInsert ty author sets =>
      (* gen_uuid_v7 does not draw an id again *)
      if decide (e_newID e ∈ retired w) then (w, Err (DbError "id"))
      else answered e w (sql_insert uuid jsonb (authors w) (e_now e) (e_newID e) (posts w) ty author sets)
  | PgUpdate id ty v sets => answered e w (sql_update uuid jsonb (authors w) (e_now e) (posts w) id ty v sets)
  | PgExists id ty =>
      answered e w (posts w, match sql_select uuid (posts w) id ty with
                             | Ok r => Ok (bool_decide (is_Some r)) | Err er => Err er end)
  | MemList ty f => (w, mem_List (memory w) ty f)
  | MemGet ty id => (w, mem_Get (memory w) ty id)
  | MemCreate ty author i => locked_do w (mem_Create sha256 (e_now e) (e_newID e) (memory w) ty author i)
  | MemUpdate ty id v i => locked_do w (mem_Update sha256 (e_now e) (memory w) ty id v i)
  | MemTrash ty id v => locked_do w (mem_Trash (e_now e) (memory w) ty id v)
  | Emit _ _ _ _ _ => (w, ())
  | NotifyMany paths => (mkPWorld (posts w) (retired w) (memory w) (authors w) (notified w ++ [paths]), ())
  | RevGet rev => (w, e_revision e rev)
  | RevMaterialize rev => (w, e_content e rev)
  | RevSave _ _ _ _ _ => (w, e_saved e)
  end.

(** The publisher and the sweep run beside the requests. *)
Definition set_posts (t : gmap string Row) (w : pworld) : pworld :=
  mkPWorld t (retired w ∪ (dom (posts w) ∖ dom t)) (memory w) (authors w) (notified w).
Definition drift (w w' : pworld) : Prop :=
  ∃ limit now visit locked clock, visit ≡ₚ map_to_list (posts w) ∧
    (w' = set_posts (PublishScheduled limit now visit locked clock (posts w)).1 w ∨
     ∃ retention, w' = set_posts (SweepTrash retention limit now visit locked clock (posts w)).1 w).
End exec.
