(* ===== verification/PostsPages.v ===== *)
(** * Following the cursors of a list of posts

    A client that asks for a page, and for the next one while the answer names a cursor,
    sees every post that matches exactly once, in the order of the ids; the cursors it
    sends back are the ones it was given. *)
From S2P Require Import Prelude Prog GoStrings Segments Base64 Hex Html Redis Login Csrf Policy Posts.
From Stdlib Require Import Ascii.

(** ** Cursors *)

Lemma text_of_bytes_of s : text_of (router.bytes_of s) = s.
Proof.
  unfold text_of, router.bytes_of. rewrite <-list_fmap_compose.
  rewrite (list_fmap_ext _ id); [rewrite list_fmap_id; apply String.string_of_list_ascii_of_string|].
  intros i c _. cbn. by rewrite Nat2Z.id, ascii_nat_embedding.
Qed.

Lemma bytes_of_byte s : Forall base64.byte (router.bytes_of s).
Proof.
  unfold router.bytes_of. apply Forall_fmap, Forall_forall. intros c _. unfold base64.byte. cbn.
  pose proof (nat_ascii_bounded c). lia.
Qed.

Lemma EncodeCursor_ne raw : raw ≠ "" → router.EncodeCursor raw ≠ "".
Proof.
  intros Hr. unfold router.EncodeCursor. rewrite decide_False by done. intros He.
  pose proof (base64.DecodeString_EncodeToString _ (bytes_of_byte raw)) as Hd. rewrite He in Hd. cbn in Hd.
  injection Hd as Hd. apply Hr. by rewrite <-(text_of_bytes_of raw), <-Hd.
Qed.

Lemma ParseCursor_EncodeCursor raw : router.ParseCursor (router.EncodeCursor raw) = Some raw.
Proof.
  destruct (decide (raw = "")) as [->|Hr]; [done|]. unfold router.ParseCursor.
  rewrite decide_False by by apply EncodeCursor_ne. unfold router.EncodeCursor. rewrite decide_False by done.
  rewrite base64.DecodeString_EncodeToString by apply bytes_of_byte. cbn. by rewrite text_of_bytes_of.
Qed.

(** A cursor stands in a query as it is. *)
Definition cursor_char (c : ascii) : bool := match base64.value_of c with Some _ => true | None => false end.

Lemma EncodeCursor_chars raw : all_chars cursor_char (router.EncodeCursor raw) = true.
Proof.
  unfold router.EncodeCursor. case_decide; [done|]. unfold base64.EncodeToString.
  pose proof (base64.sextets_range _ (bytes_of_byte raw)) as Hv. induction Hv as [|v vs Hv _ IH]; [done|].
  cbn [fmap list_fmap String.string_of_list_ascii all_chars]. unfold cursor_char at 1. rewrite (proj1 (base64.char_value v Hv)). exact IH.
Qed.

Lemma cursor_unescaped c : all_chars cursor_char c = true → url.QueryUnescape c = Some c.
Proof.
  induction c as [|x c IH]; [done|]. cbn [all_chars]. intros [Hx Hc]%andb_true_iff. specialize (IH Hc).
  destruct x as [[] [] [] [] [] [] [] []]; try discriminate Hx; cbn; by rewrite IH.
Qed.

Lemma cursor_segment c : all_chars cursor_char c = true → all_chars (not_char "&") c = true.
Proof.
  induction c as [|x c IH]; [done|]. cbn [all_chars]. intros [Hx Hc]%andb_true_iff. rewrite IH, andb_true_r by done.
  unfold not_char. apply negb_true_iff, bool_decide_eq_false. intros ->. discriminate Hx.
Qed.

Lemma cursor_no_semicolon c : all_chars cursor_char c = true → strings.Contains c ";" = false.
Proof.
  induction c as [|x c IH]; [done|]. cbn [all_chars]. intros [Hx Hc]%andb_true_iff. cbn [strings.Contains].
  rewrite IH by done. rewrite orb_false_r. cbn. rewrite andb_false_iff. left. apply bool_decide_eq_false.
  intros <-. discriminate Hx.
Qed.

Lemma ParsePair_after c : all_chars cursor_char c = true → url.ParsePair ("after=" +:+ c) = Some (Some ("after", c)).
Proof.
  intros Hc. unfold url.ParsePair. change (strings.Contains ("after=" +:+ c) ";") with (strings.Contains c ";").
  rewrite cursor_no_semicolon by done. rewrite decide_False by done.
  assert (strings.Cut ("after=" +:+ c) "=" = Some ("after", c)) as -> by (by destruct c). cbn. by rewrite cursor_unescaped.
Qed.

(** ** The query of the next page *)

Definition page_query (base after : string) : string := if decide (after = "") then base else base +:+ "&after=" +:+ after.

Lemma Query_after base c : all_chars cursor_char c = true → Query (base +:+ "&after=" +:+ c) = Query base ++ [("after", c)].
Proof.
  intros Hc. unfold Query. change ("&after=" +:+ c) with (String "&" ("after=" +:+ c)).
  rewrite Split_app_sep, omap_app. f_equal. rewrite Split_segment.
  - cbn [omap list_omap]. by rewrite ParsePair_after.
  - unfold segment. exact (cursor_segment c Hc).
Qed.

Lemma Values_Get_app_ne l k k' c : k ≠ k' → url.Values_Get (l ++ [(k', c)]) k = url.Values_Get l k.
Proof.
  intros Hk. unfold url.Values_Get. rewrite filter_app, (filter_cons _ (k', c)), decide_False by (by cbn).
  by rewrite app_nil_r.
Qed.

Lemma Values_Get_app_eq l k c : filter (λ kv : string * string, kv.1 = k) l = [] → url.Values_Get (l ++ [(k, c)]) k = c.
Proof. intros Hl. unfold url.Values_Get. rewrite filter_app, Hl, filter_cons, decide_True by done. done. Qed.

Definition set_after (a : string) (f : ListFilter) : ListFilter :=
  mkFilter (f_Status f) (f_AuthorID f) (f_Search f) a (f_Limit f).

Lemma parseListQuery_after base raw f :
  filter (λ kv : string * string, kv.1 = "after") (Query base) = [] → raw ≠ "" →
  parseListQuery base = Ok f → parseListQuery (page_query base (router.EncodeCursor raw)) = Ok (set_after raw f).
Proof.
  intros Hbase Hraw. unfold page_query. rewrite decide_False by by apply EncodeCursor_ne.
  unfold parseListQuery. rewrite Query_after by apply EncodeCursor_chars.
  rewrite (Values_Get_app_ne _ "status"), (Values_Get_app_ne _ "author"), (Values_Get_app_ne _ "search"),
    (Values_Get_app_ne _ "limit"), Values_Get_app_eq by done.
  rewrite (decide_False (P := router.EncodeCursor raw = "")) by by apply EncodeCursor_ne. rewrite ParseCursor_EncodeCursor.
  assert (url.Values_Get (Query base) "after" = "") as -> by (unfold url.Values_Get; by rewrite Hbase).
  rewrite (decide_True (P := "" = "")) by done. destruct (_ && _); [done|]. case_decide; [by intros [= <-]|].
  destruct (strconv.Atoi _); [|done]. destruct (_ <? 0)%Z; [done|]. by intros [= <-].
Qed.

Lemma parseListQuery_first base f :
  filter (λ kv : string * string, kv.1 = "after") (Query base) = [] → parseListQuery base = Ok f → f_After f = "".
Proof.
  intros Hbase. unfold parseListQuery.
  assert (url.Values_Get (Query base) "after" = "") as -> by (unfold url.Values_Get; by rewrite Hbase).
  rewrite decide_True by done. destruct (_ && _); [done|]. case_decide; [by intros [= <-]|].
  destruct (strconv.Atoi _); [|done]. destruct (_ <? 0)%Z; [done|]. by intros [= <-].
Qed.

Lemma parseListQuery_limit q f : parseListQuery q = Ok f → (1 ≤ f_Limit f ≤ MaxListLimit)%Z.
Proof.
  unfold parseListQuery. destruct (_ && _); [done|]. destruct (if decide _ then _ else router.ParseCursor _) as [d|]; [|done].
  case_decide; [intros [= <-]; cbn; unfold DefaultListLimit, MaxListLimit; lia|].
  destruct (strconv.Atoi _) as [n|]; [|done]. destruct (n <? 0)%Z eqn:Hn; [done|]. apply Z.ltb_ge in Hn.
  intros [= <-]. cbn [f_Limit]. case_decide as H0; unfold DefaultListLimit, MaxListLimit in *; [cbn; lia|].
  destruct (100 <? n)%Z eqn:Hm; [lia|]. apply Z.ltb_ge in Hm. lia.
Qed.

(** ** Rows in the order of their ids *)

Abbreviation ordered := (StronglySorted (not_after id_lt)) (only parsing).

Lemma id_sorted l : ordered (sort_by id_lt l).
Proof. apply sort_by_sorted; intros r s *; [apply string_ltb_asym|apply string_ltb_cotrans]. Qed.

Lemma string_ltb_total s t : String.ltb s t = false → String.ltb t s = false → s = t.
Proof.
  revert t. induction s as [|c s IH]; intros [|d t]; try done. rewrite !string_ltb_cons.
  destruct (N.ltb_spec (N_of_ascii c) (N_of_ascii d)), (N.ltb_spec (N_of_ascii d) (N_of_ascii c)); try done.
  assert (N_of_ascii c = N_of_ascii d) as Hcd by lia. rewrite Hcd, N.eqb_refl. intros Hst Hts.
  rewrite <-(ascii_N_embedding c), Hcd, ascii_N_embedding. f_equal. by apply IH.
Qed.

Lemma string_ltb_irrefl s : String.ltb s s = false.
Proof. destruct (String.ltb s s) eqn:H; [|done]. by rewrite (string_ltb_asym _ _ H) in H. Qed.

Definition ids_unique (l : list Row) : Prop := ∀ r s, r ∈ l → s ∈ l → r_ID r = r_ID s → r = s.

Lemma ordered_unique l k : ids_unique l → l ≡ₚ k → ordered l → ordered k → l = k.
Proof.
  intros Hu Hp Hl Hk. eapply StronglySorted_unique_strong; [|exact Hl|exact Hk|exact Hp].
  intros r s Hr Hs H1 H2. apply Hu; [done|by rewrite Hp|].
  unfold not_after, id_lt in H1, H2. by apply string_ltb_total.
Qed.

Lemma ordered_filter (P : Row → Prop) `{∀ r, Decision (P r)} l : ordered l → ordered (filter P l).
Proof.
  induction 1 as [|r l Hl IH Hr]; [constructor|]. rewrite filter_cons. case_decide; [|done]. constructor; [done|].
  apply Forall_forall. intros s [_ Hs]%list_elem_of_filter. rewrite Forall_forall in Hr. by apply Hr.
Qed.

Lemma sort_filter (P : Row → Prop) `{∀ r, Decision (P r)} l :
  ids_unique l → sort_by id_lt (filter P l) = filter P (sort_by id_lt l).
Proof.
  intros Hu. apply ordered_unique; [|by rewrite !sort_by_Permutation|apply id_sorted|apply ordered_filter, id_sorted].
  intros r s Hr Hs. rewrite sort_by_Permutation in Hr, Hs.
  apply list_elem_of_filter in Hr as [_ Hr], Hs as [_ Hs]. by apply Hu.
Qed.

(** What lies after a row of an ordered list. *)
Lemma filter_beyond l1 x l2 :
  ordered (l1 ++ x :: l2) → NoDup (r_ID <$> l1 ++ x :: l2) →
  filter (λ r, String.ltb (r_ID x) (r_ID r) = true) (l1 ++ x :: l2) = l2.
Proof.
  intros Hs Hnd. rewrite fmap_app in Hnd. cbn in Hnd. apply NoDup_app in Hnd as (_ & Hdisj & [Hx _]%NoDup_cons).
  apply StronglySorted_app in Hs as (Hs12 & _ & Hs2). rewrite filter_app, filter_cons.
  rewrite decide_False by (by rewrite string_ltb_irrefl). apply StronglySorted_inv in Hs2 as [_ Hx2].
  rewrite (filter_none _ l1).
  2:{ intros r Hr Hlt. assert (id_lt x r = false) as Hn by (apply (Hs12 r x Hr); by left). unfold id_lt in Hn. congruence. }
  cbn. apply filter_all. intros r Hr. rewrite Forall_forall in Hx2. specialize (Hx2 r Hr). unfold not_after, id_lt in Hx2.
  destruct (String.ltb (r_ID x) (r_ID r)) eqn:Hlt; [done|]. exfalso. apply Hx.
  rewrite (string_ltb_total _ _ Hlt Hx2). by apply list_elem_of_fmap_2.
Qed.

(** ** The client *)

Section crawl.
Context (sha256 : string → string) (uuid jsonb : string → option string).
Context (roleCaps : gmap string (gset string)) (ty : string) (pr : Principal) (e : penv) (w : pworld).

(** One request on its own, in the world as it is. *)
Definition page (rawQuery : string) : response :=
  (run_alone (λ R _ w c, exec sha256 uuid jsonb R e w c) 0 w (h_list (PgxStore sha256) roleCaps ty rawQuery pr)).2.

Fixpoint crawl (fuel : nat) (base after : string) : option (list Post) :=
  match fuel with
  | O => None
  | S fuel =>
      match page (page_query base after) with
      | mkResponse 200 _ (BPage data next) =>
          if decide (next = "") then Some data else rest ← crawl fuel base next; Some (data ++ rest)
      | _ => None
      end
  end.

(** The rows that match, by their ids. *)
Definition matching (ps : list (Row → bool)) (r : Row) : bool :=
  bool_decide (r_PostType r = ty) && forallb (λ p, p r) ps.
Definition matches (ps : list (Row → bool)) : list Row :=
  sort_by id_lt (filter (λ r, matching ps r = true) (rows_of (posts w))).

Context (Hids : ∀ k r, posts w !! k = Some r → r_ID r = k ∧ k ≠ "" ∧ uuid k = Some k).
Context (Hnet : e_net e = Served).

Lemma rows_ids_unique : ids_unique (rows_of (posts w)).
Proof.
  intros r s [[k r'] [-> Hr]]%list_elem_of_fmap [[k' s'] [-> Hs]]%list_elem_of_fmap. cbn.
  apply elem_of_map_to_list in Hr, Hs. intros Heq.
  destruct (Hids _ _ Hr) as [<- _]. destruct (Hids _ _ Hs) as [<- _]. rewrite Heq in Hr. congruence.
Qed.

Lemma rows_ids_NoDup : NoDup (r_ID <$> rows_of (posts w)).
Proof.
  unfold rows_of. rewrite <-list_fmap_compose, (list_fmap_ext _ fst); [apply NoDup_fst_map_to_list|].
  intros i [k r] Hr%list_elem_of_lookup_2%elem_of_map_to_list. cbn. by destruct (Hids _ _ Hr) as [-> _].
Qed.

Lemma matches_In ps r : r ∈ matches ps → r_ID r ≠ "" ∧ uuid (r_ID r) = Some (r_ID r).
Proof.
  unfold matches. rewrite sort_by_Permutation. intros [_ [[k r'] [-> Hr]]%list_elem_of_fmap]%list_elem_of_filter.
  apply elem_of_map_to_list in Hr. cbn. by destruct (Hids _ _ Hr) as (-> & ? & ?).
Qed.

Lemma matches_NoDup ps : NoDup (r_ID <$> matches ps).
Proof.
  unfold matches. rewrite sort_by_Permutation. eapply sublist_NoDup; [apply rows_ids_NoDup|].
  apply fmap_sublist, sublist_filter.
Qed.

(** The rows behind the first part of the list. *)
Definition cursor_of (pre : list Row) : string :=
  match last pre with Some x => router.EncodeCursor (r_ID x) | None => "" end.
Definition behind (pre : list Row) (r : Row) : bool :=
  match last pre with Some x => String.ltb (r_ID x) (r_ID r) | None => true end.

Lemma filter_behind ps pre suf :
  matches ps = pre ++ suf → sort_by id_lt (filter (λ r, matching ps r && behind pre r = true) (rows_of (posts w))) = suf.
Proof.
  intros Hl. rewrite (filter_agree _ (λ r, behind pre r = true ∧ matching ps r = true)) by (intros r _; rewrite andb_true_iff; tauto).
  rewrite <-list_filter_filter. unfold behind. destruct (last pre) as [x|] eqn:Hx.
  - apply last_Some in Hx as [l1 ->].
    rewrite sort_filter by (intros r s [_ Hr]%list_elem_of_filter [_ Hs]%list_elem_of_filter; by apply rows_ids_unique).
    change (sort_by id_lt _) with (matches ps). pose proof (matches_NoDup ps) as Hnd.
    pose proof (id_sorted (filter (λ r, matching ps r = true) (rows_of (posts w))) : ordered (matches ps)) as Hs.
    rewrite Hl, <-(assoc_L (++)) in Hnd, Hs |- *. by apply filter_beyond.
  - apply last_None in Hx as ->. rewrite filter_all by done. exact Hl.
Qed.

(** One page: at most so many of the rows that are left, and a cursor while there are more. *)
Lemma page_behind base f ps pre suf :
  parseListQuery (page_query base (cursor_of pre)) = Ok f →
  (f_Status f = "private" → Allowed (Can roleCaps pr (c_readPrivate (capsFor ty))) = true) →
  mapM (holds uuid) (buildListSQL f).1 = Some (ps ++ match last pre with Some x => [λ r, String.ltb (r_ID x) (r_ID r)] | None => [] end) →
  matches ps = pre ++ suf →
  let n := Z.to_nat (f_Limit f) in
  ∃ h, page (page_query base (cursor_of pre)) = mkResponse 200 h
    (if decide (length suf ≤ n) then BPage (exported <$> toPosts suf) ""
     else BPage (exported <$> toPosts (take n suf)) (cursor_of (pre ++ take n suf))).
Proof.
  intros Hf Hpriv Hps Hl n. pose proof (parseListQuery_limit _ _ Hf) as Hlim.
  assert (Z.of_nat n = f_Limit f) as Hn by (subst n; lia). unfold page, h_list. rewrite Hf.
  destruct (bool_decide (f_Status f = "private") && _) eqn:Hp.
  { apply andb_true_iff in Hp as [Hp%bool_decide_eq_true Hno]. by rewrite Hpriv in Hno. }
  assert (sql_list uuid (posts w) ty (buildListSQL f).1 (buildListSQL f).2 = Ok (take (S n) suf)) as Hsql.
  { unfold sql_list. rewrite Hps. f_equal.
    rewrite (filter_agree _ (λ r, matching ps r && behind pre r = true)), (filter_behind ps pre suf) by
      (try done; intros r _; unfold matching; rewrite forallb_app, <-!andb_assoc; unfold behind;
       destruct (last pre); cbn; by rewrite ?andb_true_r).
    f_equal. unfold buildListSQL, page_limit. cbn [snd]. destruct (f_Limit f <=? 0)%Z eqn:H0; [lia|].
    destruct (MaxListLimit <? f_Limit f)%Z eqn:H1; lia. }
  cbn [List_ PgxStore bind]. unfold pg_List. destruct (buildListSQL f) as [conds limit]. cbn [fst snd] in Hsql.
  cbn [bind run_alone Posts.exec fst snd]. unfold answered. rewrite Hnet. cbn [fst snd]. rewrite Hsql.
  destruct (f_Limit f <=? 0)%Z eqn:H0; [lia|]. unfold toPosts. cbn [bind]. rewrite length_fmap, length_take.
  destruct (f_Limit f <? Z.of_nat (S n `min` length suf))%Z eqn:Hmore.
  - apply Z.ltb_lt in Hmore. rewrite decide_False by lia. cbn [run_alone snd]. eexists. unfold WriteJSON. f_equal.
    rewrite <-fmap_take, take_take, (Nat.min_l (Z.to_nat (f_Limit f))) by lia. fold n. f_equal.
    rewrite fmap_last. unfold cursor_of. rewrite last_app.
    destruct (last (take n suf)) as [x|] eqn:Hx.
    + change (router.EncodeCursor (r_ID (p_row (toPost x))) = router.EncodeCursor (r_ID x)).
      by destruct (toPost_row x) as (_ & _ & _ & -> & _).
    + apply last_None in Hx. apply (f_equal length) in Hx. rewrite length_take in Hx. cbn in Hx. lia.
  - apply Z.ltb_ge in Hmore. rewrite decide_True by lia. cbn [run_alone snd]. eexists. unfold WriteJSON. do 3 f_equal. rewrite take_ge; [done|lia].
Qed.

Lemma buildListSQL_after a f :
  f_After f = "" → a ≠ "" → (buildListSQL (set_after a f)).1 = (buildListSQL f).1 ++ [IdAfter a].
Proof.
  intros Hf Ha. unfold buildListSQL. cbn [f_Status f_AuthorID f_Search f_After set_after fst]. rewrite Hf.
  unfold when at 4. rewrite decide_False by done. unfold when at 7. rewrite decide_True by done.
  by rewrite app_nil_r, <-!(assoc_L (++)).
Qed.

Section walk.
Context (base : string) (f : ListFilter) (ps : list (Row → bool)).
Context (Hbase : filter (λ kv : string * string, kv.1 = "after") (Query base) = []) (Hf : parseListQuery base = Ok f).
(** What the package lets a client list: the published posts, or any with the
    capability for private ones. *)
Context (Hmay : f_Status f = "published" ∨ Allowed (Can roleCaps pr (c_readPrivate (capsFor ty))) = true).
Context (Hps : mapM (holds uuid) (buildListSQL f).1 = Some ps).

(** The request with the cursor of the part already seen. *)
Lemma next_request pre suf :
  matches ps = pre ++ suf →
  ∃ f', parseListQuery (page_query base (cursor_of pre)) = Ok f' ∧ f_Status f' = f_Status f ∧ f_Limit f' = f_Limit f ∧
    mapM (holds uuid) (buildListSQL f').1 =
      Some (ps ++ match last pre with Some x => [λ r, String.ltb (r_ID x) (r_ID r)] | None => [] end).
Proof.
  intros Hl. unfold cursor_of. destruct (last pre) as [x|] eqn:Hx; [|exists f; split_and!; [done..|by rewrite app_nil_r]].
  destruct (matches_In ps x) as [Hne Hu].
  { rewrite Hl. apply elem_of_app. left. by apply last_Some_elem_of. }
  exists (set_after (r_ID x) f). split_and!; [by apply parseListQuery_after|done..|].
  rewrite buildListSQL_after by (try done; by eapply parseListQuery_first).
  apply mapM_Some. apply Forall2_app; [by apply mapM_Some|]. constructor; [|done]. cbn. by rewrite Hu.
Qed.

Lemma crawl_from fuel pre suf :
  matches ps = pre ++ suf → length suf < fuel → crawl fuel base (cursor_of pre) = Some (exported <$> toPosts suf).
Proof.
  revert pre suf. induction fuel as [|fuel IH]; intros pre suf Hl Hfuel; [lia|]. cbn [crawl].
  destruct (next_request _ _ Hl) as (f' & Hf' & Hst & Hlim & Hps').
  destruct (page_behind base f' ps pre suf Hf' ltac:(rewrite Hst; by destruct Hmay as [->|]) Hps' Hl) as [h Hpage]. rewrite Hpage.
  pose proof (parseListQuery_limit _ _ Hf') as Hn. destruct (decide (length suf ≤ _)) as [Hlast|Hmore].
  - by rewrite decide_True.
  - set (n := Z.to_nat (f_Limit f')) in *. assert (1 ≤ n) by lia.
    rewrite decide_False.
    + rewrite (IH (pre ++ take n suf) (drop n suf)).
      * cbn. f_equal. unfold toPosts. by rewrite <-!fmap_app, take_drop.
      * by rewrite <-(assoc_L (++)), take_drop.
      * rewrite length_drop. lia.
    + unfold cursor_of. rewrite last_app. destruct (last (take n suf)) as [x|] eqn:Hx.
      * apply EncodeCursor_ne. apply (matches_In ps x). rewrite Hl. apply elem_of_app. right.
        apply last_Some_elem_of in Hx. by apply (subseteq_take n).
      * apply last_None, (f_equal length) in Hx. rewrite length_take in Hx. cbn in Hx. lia.
Qed.

(** C17. A client that asks for a list it may see (the published posts, or, with the
    capability to read private posts, those of any status), with any other filter and
    page size, and follows the cursors while nobody writes, ends and has received
    every post that matches, each once, in the order of the ids. *)
Theorem pages_complete fuel :
  size (posts w) < fuel → crawl fuel base "" = Some (exported <$> toPosts (matches ps)).
Proof.
  intros Hfuel. apply (crawl_from fuel [] (matches ps) eq_refl). unfold matches. rewrite sort_by_Permutation.
  eapply Nat.le_lt_trans; [apply length_filter|]. unfold rows_of. by rewrite length_fmap, length_map_to_list.
Qed.
End walk.
End crawl.

(** ** Three posts, two to a page *)

Definition three_posts : pworld := mkPWorld
  (list_to_map ((λ id, (id, new_row id "post" "ann" 1)) <$> ["a1"; "b2"; "c3"])) ∅ ∅ ∅ [].
Definition served_at (t : Time) : penv := mkPEnv t "" Served (λ _, Err RevNotFound) (λ _, Err RevNotFound) true.
Definition editor : Principal := mkPrincipal "ed" [RoleEditor].

Lemma three_posts_ids k r : posts three_posts !! k = Some r → r_ID r = k ∧ k ≠ "" ∧ Some k = Some k.
Proof.
  intros Hr. assert (map_Forall (λ k r, r_ID r = k ∧ k ≠ "") (posts three_posts)) as Hall
    by (apply (bool_decide_unpack _); vm_compute; exact I).
  by destruct (Hall k r Hr).
Qed.

Example pages_of_two :
  match crawl (λ s, s) Some Some DefaultRoleCapabilities "post" editor (served_at 1) three_posts 4 "limit=2&status=draft" "" with
  | Some l => (λ p, r_ID (p_row p)) <$> l
  | None => []
  end = ["a1"; "b2"; "c3"].
Proof. vm_compute. reflexivity. Qed.

Lemma pages_complete_witness :
  ∃ ps, crawl (λ s, s) Some Some DefaultRoleCapabilities "post" editor (served_at 1) three_posts 4 "limit=2&status=draft" "" =
    Some (exported <$> toPosts (matches "post" three_posts ps)).
Proof.
  eexists. apply (pages_complete (λ s, s) Some Some DefaultRoleCapabilities "post" editor (served_at 1) three_posts
    three_posts_ids eq_refl "limit=2&status=draft" (mkFilter "draft" "" "" "" 2)).
  - vm_compute. reflexivity.
  - vm_compute. reflexivity.
  - right. vm_compute. reflexivity.
  - vm_compute. reflexivity.
  - vm_compute. lia.
Defined.
