(* ===== verification/PostsProps.v ===== *)
(** * Posts over REST, proved

    With the Postgres store, for any number of requests side by side with the
    publisher: every version of a post is replaced at most once and by a request that
    named it; whoever changes the table may; a client that follows the cursors sees
    every matching post once. *)
From S2P Require Import Prelude Prog Calls GoStrings Segments Base64 Hex Html Redis Login Csrf Policy Posts.
From Stdlib Require Import Ascii.

Abbreviation ptrace := (list (event pcmd)) (only parsing).

(** ** How the table evolves *)

(** The parts of a row no statement changes. *)
Definition same_post (r r' : Row) : Prop :=
  r_ID r = r_ID r' ∧ r_PostType r = r_PostType r' ∧ r_AuthorID r = r_AuthorID r'.
(** A later state of a row: its version tells whether it has changed. *)
Definition later (r r' : Row) : Prop :=
  same_post r r' ∧ (r_Version r ≤ r_Version r')%Z ∧ (r_Version r = r_Version r' → r = r').
Definition evolves (t t' : gmap string Row) : Prop := ∀ k r, t !! k = Some r → ∃ r', t' !! k = Some r' ∧ later r r'.

#[export] Instance same_post_preorder : PreOrder same_post.
Proof. split; [by intros r|]. intros r1 r2 r3 (? & ? & ?) (? & ? & ?). split_and!; congruence. Qed.
#[export] Instance later_preorder : PreOrder later.
Proof.
  split; [intros r; split_and!; [reflexivity|lia|done]|]. intros r1 r2 r3 (Hs & Hle & Heq) (Hs' & Hle' & Heq').
  split_and!; [by etrans|lia|]. intros He. rewrite Heq, Heq' by lia. done.
Qed.
#[export] Instance evolves_preorder : PreOrder evolves.
Proof.
  split; [intros t k r Hr; exists r; by split|]. intros t1 t2 t3 H12 H23 k r (r2 & Hr2 & Hl2)%H12.
  destruct (H23 _ _ Hr2) as (r3 & Hr3 & Hl3). exists r3. split; [done|]. by etrans.
Qed.

Lemma later_bump now r r' : same_post r r' → r_Version r = r_Version r' → later r (bump now r').
Proof. intros Hs Hv. split_and!; [done| |]; cbn; lia. Qed.

Lemma evolves_insert t k r : (∀ r0, t !! k = Some r0 → later r0 r) → evolves t (<[k := r]> t).
Proof.
  intros Hr k' r0 H0. destruct (decide (k = k')) as [->|Hne].
  - exists r. rewrite lookup_insert_eq. auto.
  - exists r0. by rewrite lookup_insert_ne.
Qed.

Lemma typed_row_Some t ty id r : typed_row t ty id = Some r ↔ t !! id = Some r ∧ r_PostType r = ty.
Proof.
  unfold typed_row. destruct (t !! id) as [r'|]; [|naive_solver]. case_decide; naive_solver.
Qed.

(** The status after some assignments. *)
Definition status_after (sets : list assignment) (s : string) : string :=
  foldl (λ s a, match a with SetStatus v => v | _ => s end) s sets.

Lemma status_after_app l1 l2 s : status_after (l1 ++ l2) s = status_after l2 (status_after l1 s).
Proof. apply foldl_app. Qed.

Lemma status_after_opt {A} (x : option A) f s : (∀ a, status_after (f a) s = s) → status_after (opt x f) s = s.
Proof. intros Hf. by destruct x as [a|]; [apply (Hf a)|]. Qed.

Lemma status_after_update sha256 i s : status_after (update_sets sha256 i) s = default s (i_Status i).
Proof.
  unfold update_sets. set (sets := opt _ _ ++ _).
  assert (status_after sets s = default s (i_Status i)) as Hs.
  { subst sets. rewrite !status_after_app. rewrite (status_after_opt (i_ParentID i)) by done.
    set (s' := status_after (opt (i_Status i) _) s). assert (s' = default s (i_Status i)) as <- by (by destruct (i_Status i)).
    by rewrite !status_after_opt. }
  clearbody sets. destruct sets; [by rewrite <-Hs|done].
Qed.

Section tables.
Context (uuid jsonb : string → option string).

Lemma assign_same r a r' : assign uuid jsonb r a = Some r' → same_post r r' ∧ r_Version r' = r_Version r.
Proof.
  destruct r, a; cbn; repeat (case_match || case_decide); try discriminate;
    repeat match goal with |- (_ ← ?x; _) = _ → _ => destruct x; cbn; [|discriminate] end; by intros [= <-].
Qed.

Lemma assign_all_same r sets r' : assign_all uuid jsonb r sets = Some r' → same_post r r' ∧ r_Version r' = r_Version r.
Proof.
  revert r. induction sets as [|a sets IH]; intros r; cbn; [by intros [= <-]|].
  destruct (assign _ _ r a) as [r1|] eqn:H1; cbn; [|done]. intros [Hs Hv]%IH. apply assign_same in H1 as [Hs1 Hv1].
  split; [by etrans|congruence].
Qed.

Lemma store_row_ok users t id old r t' : store_row users t id old r = Ok t' → t' = <[id := r]> t ∧ slug_taken t id r = false.
Proof.
  unfold store_row. destruct (slug_taken t id r); [done|].
  destruct (match old with None => _ | Some _ => _ end); [done|]. destruct (no_parent _ _ _ _); [done|]. by intros [= <-].
Qed.

Lemma assign_status r a r' :
  assign uuid jsonb r a = Some r' → r_Status r' = status_after [a] (r_Status r).
Proof.
  destruct r, a; cbn; repeat (case_match || case_decide); try discriminate;
    repeat match goal with |- (_ ← ?x; _) = _ → _ => destruct x; cbn; [|discriminate] end; by intros [= <-].
Qed.

Lemma assign_all_status r sets r' :
  assign_all uuid jsonb r sets = Some r' → r_Status r' = status_after sets (r_Status r).
Proof.
  revert r. induction sets as [|a sets IH]; intros r; cbn; [by intros [= <-]|].
  destruct (assign _ _ r a) as [r1|] eqn:H1; cbn; [|done]. intros ->%IH. by rewrite (assign_status _ _ _ H1).
Qed.

(** What a statement that answers has done. *)
Lemma sql_insert_ok users now newID t ty author sets t' r :
  sql_insert uuid jsonb users now newID t ty author sets = (t', Ok r) →
  t !! newID = None ∧ t' = <[newID := r]> t ∧ slug_taken t newID r = false ∧
  ∃ u, uuid author = Some u ∧ assign_all uuid jsonb (new_row newID ty u now) sets = Some r.
Proof.
  unfold sql_insert. destruct (uuid author) as [u|] eqn:Hu; cbn; [|done].
  destruct (assign_all _ _ _ sets) as [r0|] eqn:Hr; [|done]. destruct (t !! newID) eqn:Hn; [done|].
  destruct (store_row _ _ _ _ _) as [t0|] eqn:Hs; [|done]. intros [= <- <-].
  apply store_row_ok in Hs as [-> Hs]. eauto 8.
Qed.

Lemma sql_update_ok users now t id ty v sets t' r' :
  sql_update uuid jsonb users now t id ty v sets = (t', Ok (Some r')) →
  ∃ key r r1, uuid id = Some key ∧ t !! key = Some r ∧ r_PostType r = ty ∧ r_Version r = v ∧
    assign_all uuid jsonb r sets = Some r1 ∧ r' = bump now r1 ∧ t' = <[key := r']> t ∧ slug_taken t key r' = false ∧
    (r_Version r' ≤ int32_max)%Z.
Proof.
  unfold sql_update. destruct (uuid id) as [key|]; [|done]. destruct (negb (in_int32 v)); [done|].
  destruct (typed_row t ty key) as [r|] eqn:Ht; [|done]. apply typed_row_Some in Ht as [Ht Hty].
  destruct (Z.eqb_spec (r_Version r) v) as [Hv|Hv]; cbn [negb]; [|done].
  destruct (assign_all _ _ r sets) as [r1|] eqn:Ha; [|done]. destruct (negb (in_int32 _)) eqn:Hi; [done|].
  destruct (store_row _ _ _ _ _) as [t0|] eqn:Hs; [|done]. intros [= <- <-].
  apply store_row_ok in Hs as [-> Hs]. exists key, r, r1. split_and!; auto.
  apply negb_false_iff, andb_true_iff in Hi as [_ Hi%Z.leb_le]. cbn. by apply assign_all_same in Ha as [_ ->].
Qed.

(** A statement that changes the table answers with a row. *)
Lemma sql_insert_changes users now newID t ty author sets :
  (sql_insert uuid jsonb users now newID t ty author sets).1 ≠ t →
  ∃ r, sql_insert uuid jsonb users now newID t ty author sets = (<[newID := r]> t, Ok r).
Proof.
  unfold sql_insert. destruct (_ ← uuid author; _) as [r|]; [|done]. destruct (t !! newID); [done|].
  destruct (store_row _ _ _ _ _) eqn:Hs; [|done]. intros _. apply store_row_ok in Hs as [-> _]. eauto.
Qed.

Lemma sql_update_changes users now t id ty v sets :
  (sql_update uuid jsonb users now t id ty v sets).1 ≠ t →
  ∃ t' r, sql_update uuid jsonb users now t id ty v sets = (t', Ok (Some r)).
Proof.
  unfold sql_update. destruct (uuid id); [|done]. destruct (negb _); [done|]. destruct (typed_row _ _ _); [|done].
  destruct (negb _); [done|]. destruct (assign_all _ _ _ _); [|done]. destruct (negb _); [done|].
  destruct (store_row _ _ _ _ _); [|done]. eauto.
Qed.

Lemma sql_insert_evolves users now newID t ty author sets :
  evolves t (sql_insert uuid jsonb users now newID t ty author sets).1.
Proof.
  destruct (decide ((sql_insert uuid jsonb users now newID t ty author sets).1 = t)) as [->|Hne]; [reflexivity|].
  apply sql_insert_changes in Hne as [r Hr]. rewrite Hr. apply sql_insert_ok in Hr as (Hn & _). cbn.
  apply evolves_insert. intros r0 H0. congruence.
Qed.

Lemma sql_update_evolves users now t id ty v sets : evolves t (sql_update uuid jsonb users now t id ty v sets).1.
Proof.
  destruct (decide ((sql_update uuid jsonb users now t id ty v sets).1 = t)) as [->|Hne]; [reflexivity|].
  apply sql_update_changes in Hne as (t' & r & Hr). rewrite Hr.
  apply sql_update_ok in Hr as (key & r0 & r1 & _ & H0 & _ & _ & Ha & -> & -> & _). cbn. apply evolves_insert.
  intros r0' H0'. rewrite H0 in H0'. injection H0' as <-. apply assign_all_same in Ha as [Hs Hv]. by apply later_bump.
Qed.
End tables.

(** What the publisher does to a row. *)
Definition publishes (r r' : Row) : Prop :=
  r_Status r = "scheduled" ∧ r_Status r' = "published" ∧ same_post r r' ∧ r_Version r' = (r_Version r + 1)%Z.

Lemma publish_due limit now visit locked clock t k r :
  visit ≡ₚ map_to_list t → t !! k = Some r →
  ∃ r', (PublishScheduled limit now visit locked clock t).1 !! k = Some r' ∧
    (r' = r ∨ r' = publish_row now clock r ∧ is_due now locked (k, r) = true).
Proof.
  intros Hv Hr. unfold PublishScheduled. destruct (limit <=? 0)%Z; [cbn; eauto|]. destruct (is_zero now); [cbn; eauto|].
  set (due := take _ _). destruct (existsb _ due); [cbn; eauto|]. cbn.
  assert (∀ x, x ∈ due → t !! x.1 = Some x.2 ∧ is_due now locked x = true) as Hdue.
  { intros [k' r'] Hx. apply elem_of_take in Hx as (i & Hx & _). apply list_elem_of_lookup_2 in Hx.
    rewrite sort_by_Permutation in Hx. apply list_elem_of_filter in Hx as [Hd Hx]. split; [|done].
    rewrite Hv in Hx. by apply elem_of_map_to_list in Hx. }
  clearbody due. induction due as [|[k' r1] due IH]; cbn; [eauto|].
  destruct (Hdue (k', r1) ltac:(by left)) as [H1 Hd1]. cbn in H1.
  destruct (decide (k' = k)) as [->|Hne].
  - rewrite lookup_insert_eq. replace r1 with r in * by congruence. eauto.
  - rewrite lookup_insert_ne by done. apply IH. intros x Hx. apply Hdue. by right.
Qed.

Lemma publish_none limit now visit locked clock t k :
  visit ≡ₚ map_to_list t → t !! k = None → (PublishScheduled limit now visit locked clock t).1 !! k = None.
Proof.
  intros Hv Hk. unfold PublishScheduled. destruct (limit <=? 0)%Z; [done|]. destruct (is_zero now); [done|].
  set (due := take _ _). destruct (existsb _ due); [done|]. cbn.
  assert (∀ x, x ∈ due → x.1 ≠ k) as Hdue.
  { intros [k' r'] Hx Heq. cbn in Heq. subst k'. apply elem_of_take in Hx as (i & Hx & _). apply list_elem_of_lookup_2 in Hx.
    rewrite sort_by_Permutation in Hx. apply list_elem_of_filter in Hx as [_ Hx].
    rewrite Hv in Hx. apply elem_of_map_to_list in Hx. congruence. }
  clearbody due. induction due as [|x due IH]; cbn; [done|].
  rewrite lookup_insert_ne by (apply Hdue; by left). apply IH. intros y Hy. apply Hdue. by right.
Qed.

Lemma publish_evolves limit now visit locked clock t :
  visit ≡ₚ map_to_list t → evolves t (PublishScheduled limit now visit locked clock t).1.
Proof.
  intros Hv k r Hr. destruct (publish_due limit now visit locked clock t k r Hv Hr) as (r' & Hr' & [->|[-> _]]).
  - exists r. by split.
  - eexists. split; [exact Hr'|]. by apply later_bump.
Qed.

Lemma publish_publishes now clock locked k r : is_due now locked (k, r) = true → publishes r (publish_row now clock r).
Proof.
  unfold is_due. cbn. intros [[Hs%bool_decide_eq_true _]%andb_true_iff _]%andb_true_iff. split_and!; done.
Qed.

(** What the sweep does: rows of the trash go, and their children lose the parent. *)
Definition orphaned (t t' : gmap string Row) (r r' : Row) : Prop :=
  ∃ p rp, r_ParentID r = Some p ∧ t !! p = Some rp ∧ r_Status rp = "trash" ∧ t' !! p = None ∧
    r_ParentID r' = None ∧ r_Status r' = r_Status r ∧ same_post r r' ∧ r_Version r' = (r_Version r + 1)%Z.

Lemma orphan_lookup clock kids t t' k r' :
  orphan clock kids t = Some t' → t' !! k = Some r' → t !! k = Some r' ∨ ∃ r, (k, r) ∈ kids ∧ r' = clear_parent clock r.
Proof.
  revert t. induction kids as [|[k0 r0] kids IH]; intros t; cbn; [intros [= ->]; by left|].
  destruct (_ || _); [done|]. intros Ho Hk. destruct (IH _ Ho Hk) as [[[<- <-]|[_ H]]%lookup_insert_Some|(r & Hr & ->)].
  - right. exists r0. split; [by left|done].
  - by left.
  - right. exists r. split; [by right|done].
Qed.

Lemma orphan_None clock kids t t' k : orphan clock kids t = Some t' → t' !! k = None → t !! k = None.
Proof.
  revert t. induction kids as [|[k0 r0] kids IH]; intros t; cbn; [by intros [= ->]|].
  destruct (_ || _); [done|]. intros Ho Hk. by apply (IH _ Ho), lookup_insert_None in Hk as [? _].
Qed.

(** A sweep that changes something: the ids it deletes are those of expired rows. *)
Lemma sweep_cases retention limit now visit locked clock t :
  visit ≡ₚ map_to_list t →
  let t' := (SweepTrash retention limit now visit locked clock t).1 in
  t' = t ∨ ∃ ids, (∀ k, k ∈ ids → (∃ r, t !! k = Some r ∧ r_Status r = "trash")) ∧
    orphan clock (filter (λ r, (r.1 ∉ ids) ∧ child_of ids r.2 = true) visit) (filter (λ r, r.1 ∉ ids) t) = Some t'.
Proof.
  intros Hv. unfold SweepTrash. destruct (retention <=? 0)%Z; [by left|]. destruct (limit <=? 0)%Z; [by left|].
  destruct (is_zero now); [by left|]. set (gone := take _ _). destruct (orphan _ _ _) as [t'|] eqn:Ho; [|by left].
  right. exists (gone.*1). split; [|exact Ho]. intros k ([k' r] & -> & Hx)%list_elem_of_fmap. exists r.
  apply elem_of_take in Hx as (i & Hx & _). apply list_elem_of_lookup_2 in Hx.
  rewrite sort_by_Permutation in Hx. apply list_elem_of_filter in Hx as [He Hx]. rewrite Hv in Hx.
  split; [by apply elem_of_map_to_list in Hx|].
  unfold is_expired in He. by apply andb_true_iff in He as [[He%bool_decide_eq_true _]%andb_true_iff _].
Qed.

Lemma sweep_lookup retention limit now visit locked clock t k r' :
  visit ≡ₚ map_to_list t →
  let t' := (SweepTrash retention limit now visit locked clock t).1 in
  t' !! k = Some r' → ∃ r, t !! k = Some r ∧ (r' = r ∨ r' = clear_parent clock r ∧ orphaned t t' r r').
Proof.
  intros Hv t' Hk. destruct (sweep_cases retention limit now visit locked clock t Hv) as [Ht|(ids & Hids & Ho)];
    [fold t' in Ht; rewrite Ht in Hk; eauto|fold t' in Ho].
  destruct (orphan_lookup _ _ _ _ _ _ Ho Hk) as [[Hr _]%map_lookup_filter_Some|(r & Hr & ->)]; [eauto|].
  apply list_elem_of_filter in Hr as [[_ Hc] Hr]. rewrite Hv in Hr. apply elem_of_map_to_list in Hr. cbn in Hc.
  exists r. split; [done|]. right. split; [done|]. unfold child_of in Hc. destruct (r_ParentID r) as [p|] eqn:Hp; [|done].
  apply bool_decide_eq_true in Hc. destruct (Hids _ Hc) as (rp & Hrp & Hst). exists p, rp. split_and!; try done.
  destruct (t' !! p) as [x|] eqn:Hx; [|done]. exfalso.
  destruct (orphan_lookup _ _ _ _ _ _ Ho Hx) as [[_ Hn]%map_lookup_filter_Some|(y & [[Hn _] _]%list_elem_of_filter & _)]; by cbn in Hn.
Qed.

Lemma sweep_deletes retention limit now visit locked clock t k r :
  visit ≡ₚ map_to_list t → t !! k = Some r →
  (SweepTrash retention limit now visit locked clock t).1 !! k = None → r_Status r = "trash".
Proof.
  intros Hv Hr Hk. destruct (sweep_cases retention limit now visit locked clock t Hv) as [Ht|(ids & Hids & Ho)]; [congruence|].
  pose proof (orphan_None _ _ _ _ _ Ho Hk) as Hn. apply map_lookup_filter_None in Hn as [Hn|Hn]; [congruence|].
  assert (k ∈ ids) as Hin by (apply dec_stable, (Hn r Hr)). destruct (Hids _ Hin) as (r' & Hr' & Hs). congruence.
Qed.

(** ** What a request has established when it sends a statement *)

Section requests.
Context (sha256 : string → string) (Decode : string → decoded).
Context (unmarshalBlocks : string → option (list (option string))) (unmarshalObject : string → bool).
Context (parseUUID : string → option string).
Context (roleCaps : gmap string (gset string)) (has_audit has_revalidate : bool).

Abbreviation serve :=
  (Posts.serve Decode unmarshalBlocks unmarshalObject parseUUID (PgxStore sha256) roleCaps has_audit has_revalidate) (only parsing).

Definition allowed (pr : Principal) (c : Capability) : Prop := Allowed (Can roleCaps pr c) = true.

(** The request asks to change the post it calls [id]. *)
Definition changes (q : request) (id : string) : Prop := (∃ raw, q_verb q = VUpdate id raw) ∨ q_verb q = VTrash id.

Definition may_insert (pr : Principal) (ty : string) (sets : list assignment) : Prop :=
  ∃ i, sets = insert_values sha256 i ∧ allowed pr (c_edit (capsFor ty)) ∧
    (i_Status i = Some "published" → allowed pr (c_publish (capsFor ty))).

(** Given the row [r] that was loaded. *)
Definition may_change (q : request) (pr : Principal) (id : string) (r : Row) (sets : list assignment) : Prop :=
  let caps := capsFor (q_type q) in
  (∃ raw i, q_verb q = VUpdate id raw ∧ sets = update_sets sha256 i ∧
     allowed pr (if decide (r_AuthorID r = UserID pr) then c_edit caps else c_editOthers caps) ∧
     (i_Status i = Some "published" → r_Status r = "published" ∨ allowed pr (c_publish caps))) ∨
  (q_verb q = VTrash id ∧ sets = [SetStatus "trash"] ∧
     allowed pr (if decide (r_AuthorID r = UserID pr) then c_deleteOwn caps else c_deleteOthers caps)).

(** The request restores the revision [rev] of post [id], whose content is [blocks]. *)
Definition restores (q : request) (l : ptrace) (id rev blocks : string) : Prop :=
  ∃ path rpath from, q_verb q = VRestore path rpath ∧ parseUUID path = Some id ∧ parseUUID rpath = Some rev ∧
    Ev (RevGet rev) (Ok from) ∈ l ∧ rv_PostID from = id ∧ Ev (RevMaterialize rev) (Ok blocks) ∈ l.

Definition needed (q : request) (l : ptrace) (R : Type) (c : pcmd R) : Prop :=
  match c with
  | PgInsert ty author sets =>
      ∃ pr, q_principal q = Some pr ∧ ty = q_type q ∧ author = UserID pr ∧ may_insert pr ty sets
  | PgUpdate id ty v sets =>
      ∃ pr r, q_principal q = Some pr ∧ Ev (PgSelect id ty) (Ok (Some r)) ∈ l ∧
        ((ty = q_type q ∧ router.ParseIfMatchVersion (q_headers q) = Ok (Some v) ∧ may_change q pr id r sets) ∨
         (ty = PostTypePost ∧ v = r_Version r ∧ allowed pr CapEditPosts ∧
            ∃ rev blocks, restores q l id rev blocks ∧ sets = update_sets sha256 (restore_input blocks)))
  | _ => True
  end.

(** A change that was answered with success has been made, and the answer shows it. *)
Definition reply (q : request) (l : ptrace) (rs : response) : Prop :=
  ∀ id, changes q id → rs_status rs = 200%Z →
    ∃ v sets r, router.ParseIfMatchVersion (q_headers q) = Ok (Some v) ∧
      Ev (PgUpdate id (q_type q) v sets) (Ok (Some r)) ∈ l ∧ rs_body rs = BPost (exported (toPost r)).

Abbreviation good q := (along (needed q) (reply q)) (only parsing).

Lemma good_error q l e : good q l (Ret (writeStoreError e)).
Proof. intros id _. by destruct e. Qed.

Lemma good_emit q l ty pr p verb (k : prog pcmd response) :
  (∀ l', l `prefix_of` l' → good q l' k) → good q l (bind (emitAudit has_audit ty pr p verb) (λ _, k)).
Proof. intros Hk. unfold emitAudit. destruct (negb _); [by apply Hk|]. split; [done|]. intros ?. apply Hk. by eexists. Qed.

Lemma good_notify q l ty p (P : Prop) `{Decision P} (k : prog pcmd response) :
  (∀ l', l `prefix_of` l' → good q l' k) →
  good q l (bind (if decide P then notifyRevalidate has_revalidate ty p else Ret ()) (λ _, k)).
Proof.
  intros Hk. case_decide; [|by apply Hk]. unfold notifyRevalidate. destruct (negb _); [by apply Hk|].
  destruct (revalidate_paths ty p); [by apply Hk|]. split; [done|]. intros ?. apply Hk. by eexists.
Qed.

(** The row is loaded, and the handler goes on with it. *)
Lemma good_load q l ty id k :
  (∀ r, good q (l ++ [Ev (PgSelect id ty) (Ok (Some r))]) (k (toPost r))) →
  good q l (bind (pg_Get ty id) (λ p, match p with Err e => Ret (writeStoreError e) | Ok p => k p end)).
Proof. intros Hk. split; [done|]. intros [[r|]|e]; [apply Hk|apply (good_error _ _ ErrNotFound)|by intros ? _]. Qed.

Lemma good_absence q l ty id (k : Post → prog pcmd response) :
  good q l (bind (classifyAbsence ty id) (λ p, match p with Err e => Ret (writeStoreError e) | Ok p => k p end)).
Proof. split; [done|]. intros [[]|e]; apply good_error. Qed.

Lemma good_version q l k :
  (∀ v, router.ParseIfMatchVersion (q_headers q) = Ok (Some v) → good q l (k v)) → good q l (with_version (q_headers q) k).
Proof. intros Hk. unfold with_version. destruct (router.ParseIfMatchVersion _) as [[v|]|e]; [by apply Hk|by intros ? _..]. Qed.

Lemma good_create q pr raw :
  q_principal q = Some pr → q_verb q = VCreate raw →
  good q [] (h_create Decode unmarshalBlocks unmarshalObject (PgxStore sha256) roleCaps has_audit has_revalidate (q_type q) raw pr).
Proof.
  intros Hp Hv. assert (∀ l rs, reply q l rs) as Hreply.
  { intros l rs id [[? H]|H]; congruence. }
  unfold h_create. destruct (Allowed (Can _ _ (c_edit _))) eqn:Hedit; [|apply Hreply]. cbn [negb].
  destruct (decodeBody _ _) as [i|v]; [|apply Hreply].
  destruct (bool_decide (i_Status i = Some "published") && _) eqn:Hpub; [apply Hreply|].
  destruct (validateCreate _ _ _); [apply Hreply|]. split.
  - exists pr. split_and!; try done. exists i. split_and!; [done|done|]. intros Hs.
    apply andb_false_iff in Hpub as [Hpub%bool_decide_eq_false|Hpub%negb_false_iff]; [done|exact Hpub].
  - intros [r|[|e]]; [|apply Hreply..]. cbn [bind]. apply good_emit. intros l' _.
    apply good_notify. intros. apply Hreply.
Qed.

Lemma good_update q pr id raw :
  q_principal q = Some pr → q_verb q = VUpdate id raw →
  good q [] (h_update Decode unmarshalBlocks unmarshalObject (PgxStore sha256) roleCaps has_audit has_revalidate
    (q_type q) id (q_headers q) raw pr).
Proof.
  intros Hp Hv. unfold h_update. case_decide; [by intros ? _|]. apply good_load. intros r.
  destruct (toPost_row r) as (Ha & Hs & _). unfold required. rewrite Ha.
  destruct (Allowed _) eqn:Hedit; cbn [negb]; [|by intros ? _]. apply good_version. intros v Hver.
  destruct (decodeBody _ _) as [i|?]; [|by intros ? _]. destruct (_ && _ && _) eqn:Hpub; [by intros ? _|].
  destruct (validateUpdate _ _ _); [by intros ? _|]. split.
  - exists pr, r. split_and!; [done|apply elem_of_app; right; by left|]. left. split_and!; [done..|].
    left. exists raw, i. split_and!; [done..|].
    intros Hi. rewrite Hs in Hpub. rewrite !andb_false_iff in Hpub.
    destruct Hpub as [[Hpub%bool_decide_eq_false|Hpub%negb_false_iff%bool_decide_eq_true]|Hpub%negb_false_iff]; [done|by left|by right].
  - intros [[r'|]|[|e]]; [|apply good_absence|by intros ? _..]. cbn [bind]. apply good_emit. intros l' Hl'.
    assert (∀ l0, l' `prefix_of` l0 → reply q l0 (written 200 (toPost r'))) as Hreply.
    { intros l0 Hl0 id' [[raw' Hid]|Hid] _; [|congruence]. rewrite Hv in Hid. injection Hid as <- _.
      eexists v, _, r'. split_and!; [done| |done]. eapply elem_of_prefix; [|exact (transitivity Hl' Hl0)].
      apply elem_of_app. right. by left. }
    apply good_notify. intros l0 Hl0. by apply Hreply.
Qed.

Lemma good_trash q pr id :
  q_principal q = Some pr → q_verb q = VTrash id →
  good q [] (h_trash (PgxStore sha256) roleCaps has_audit (q_type q) id (q_headers q) pr).
Proof.
  intros Hp Hv. unfold h_trash. case_decide; [by intros ? _|]. apply good_load. intros r.
  destruct (toPost_row r) as (Ha & Hs & _). unfold required. rewrite Ha.
  destruct (Allowed _) eqn:Hdel; cbn [negb]; [|by intros ? _]. apply good_version. intros v Hver. split.
  - exists pr, r. split_and!; [done|apply elem_of_app; right; by left|]. left. split_and!; [done..|]. by right.
  - intros [[r'|]|e]; [|apply good_absence|by intros ? _]. cbn [bind]. apply good_emit. intros l' Hl' id' [[raw' Hid]|Hid] _; [congruence|].
    rewrite Hv in Hid. injection Hid as <-. eexists v, _, r'. split_and!; [done| |done].
    eapply elem_of_prefix; [|done]. apply elem_of_app. right. by left.
Qed.

Lemma good_restore q pr path rpath :
  q_principal q = Some pr → q_verb q = VRestore path rpath →
  good q [] (gate roleCaps pr (restoreRevision parseUUID (PgxStore sha256) path rpath pr)).
Proof.
  intros Hp Hv. assert (∀ l rs, reply q l rs) as Hreply.
  { intros l rs id [[? H]|H]; congruence. }
  unfold gate, restoreRevision. destruct (Allowed _) eqn:Hedit; cbn [negb]; [|apply Hreply].
  destruct (parseUUID path) as [id|] eqn:Hid, (parseUUID rpath) as [rev|] eqn:Hrev; try apply Hreply.
  split; [done|]. intros [from|[]]; [|apply Hreply..]. destruct (negb _) eqn:Hof; [apply Hreply|].
  apply negb_false_iff, bool_decide_eq_true in Hof. split; [done|]. intros [blocks|e]; [|apply Hreply].
  split; [done|]. intros [[r|]|e]; [|apply Hreply..]. split.
  - exists pr, r. split_and!; [done|set_solver|]. right. split_and!; [done| |done|].
    { by destruct (toPost_row r) as (_ & _ & -> & _). }
    exists rev, blocks. split; [|done]. exists path, rpath, from. split_and!; try done; set_solver.
  - intros [[r'|]|[|e]]; [|split; [done|intros [[]|?]; apply Hreply]|apply Hreply..].
    split; [done|]. intros ?. apply Hreply.
Qed.

Lemma serve_good q : good q [] (serve q).
Proof.
  unfold Posts.serve. destruct (q_principal q) as [pr|] eqn:Hp; [|by intros ? _].
  destruct (q_verb q) as [raw|id|raw|id raw|id|path rpath] eqn:Hv;
    [| |by apply good_create|by apply good_update|by apply good_trash|by apply good_restore].
  - assert (∀ l rs, reply q l rs) as Hreply by (intros l rs id' [[? H]|H]; congruence).
    unfold h_list. destruct (parseListQuery raw); [|apply Hreply]. case_match; [apply Hreply|].
    cbn [List_ PgxStore pg_List]. unfold pg_List. destruct (buildListSQL _) as [conds limit].
    split; [done|]. intros [rows|e]; cbn; [|apply Hreply]. case_match; apply Hreply.
  - assert (∀ l rs, reply q l rs) as Hreply by (intros l rs id' [[? H]|H]; congruence).
    unfold h_get. case_decide; [apply Hreply|]. apply good_load. intros r.
    case_match; [apply Hreply|]. case_match; apply Hreply.
Qed.

(** A post is shown as it was loaded, private ones with the capability only, its blocks
    only to who knows the password if it has one. *)
Theorem get_redacts ty id h pr l rs :
  runs (h_get (PgxStore sha256) roleCaps ty id h pr) l rs → rs_status rs = 200%Z →
  ∃ r, Ev (PgSelect id ty) (Ok (Some r)) ∈ l ∧ (r_Status r = "private" → allowed pr (c_readPrivate (capsFor ty))) ∧
    ∃ p, rs_body rs = BPost (exported p) ∧
      p = (if negb (no_password (r_Password r)) && negb (passwordMatches h (toPost r))
           then mkPost (set_blocks "[]" (p_row (toPost r))) true else toPost r).
Proof.
  intros Hr. assert (along (λ _ _ _, True) (λ l rs, rs_status rs = 200%Z →
    ∃ r, Ev (PgSelect id ty) (Ok (Some r)) ∈ l ∧ (r_Status r = "private" → allowed pr (c_readPrivate (capsFor ty))) ∧
      ∃ p, rs_body rs = BPost (exported p) ∧
        p = (if negb (no_password (r_Password r)) && negb (passwordMatches h (toPost r))
             then mkPost (set_blocks "[]" (p_row (toPost r))) true else toPost r))
    [] (h_get (PgxStore sha256) roleCaps ty id h pr)) as Ha; [|exact (along_runs _ _ _ _ _ _ Ha Hr)].
  clear Hr. unfold h_get. case_decide; [done|]. split; [done|]. intros [[r|]|e]; [|done..].
  cbn [bind Get PgxStore pg_Get]. assert (p_Protected (toPost r) = negb (no_password (r_Password r))) as Hprot
    by (unfold toPost; repeat case_decide; done). destruct (toPost_row r) as (_ & Hst & _). rewrite Hst.
  destruct (bool_decide (r_Status r = "private") && _) eqn:Hp; [done|]. case_match; [done|]. intros _. exists r.
  split_and!; [by left| |].
  - intros Hs. rewrite bool_decide_true in Hp by done. by apply negb_false_iff in Hp.
  - rewrite Hprot. eexists. split; [done|]. by destruct (no_password _), (passwordMatches _ _).
Qed.
End requests.

(** ** Requests side by side, with the publisher *)

Section system.
Context (sha256 : string → string) (uuid jsonb : string → option string) (Decode : string → decoded).
Context (unmarshalBlocks : string → option (list (option string))) (unmarshalObject : string → bool).
Context (parseUUID : string → option string).
Context (roleCaps : gmap string (gset string)) (has_audit has_revalidate : bool).

Abbreviation serve :=
  (Posts.serve Decode unmarshalBlocks unmarshalObject parseUUID (PgxStore sha256) roleCaps has_audit has_revalidate) (only parsing).
Abbreviation exec := (Posts.exec sha256 uuid jsonb) (only parsing).
Abbreviation reachable := (Calls.reachable exec serve drift) (only parsing).
Abbreviation sstep := (Calls.sstep exec serve drift) (only parsing).
Abbreviation allowed := (PostsProps.allowed roleCaps) (only parsing).
Abbreviation needed := (PostsProps.needed sha256 parseUUID roleCaps) (only parsing).

(** The ids that are or were in use. A later world has no other rows under them than
    later states of the rows of now. *)
Definition seen (w : pworld) : gset string := dom (posts w) ∪ retired w.
Definition world_le (w w' : pworld) : Prop :=
  seen w ⊆ seen w' ∧ ∀ k r', k ∈ seen w → posts w' !! k = Some r' → ∃ r, posts w !! k = Some r ∧ later r r'.
#[local] Instance world_le_preorder : PreOrder world_le.
Proof.
  split; [intros w; split; [done|]; intros k r' _ Hr'; exists r'; by split|].
  intros w1 w2 w3 [Hs12 H12] [Hs23 H23]. split; [by etrans|]. intros k r3 Hk Hr3.
  destruct (H23 k r3) as (r2 & Hr2 & Hl2); [set_solver|done|]. destruct (H12 k r2 Hk Hr2) as (r1 & Hr1 & Hl1).
  exists r1. split; [done|]. by etrans.
Qed.

(** No deletion, and a new row under an id not used before. *)
Lemma world_le_grow w w' :
  retired w' = retired w → evolves (posts w) (posts w') →
  (∀ k r', posts w' !! k = Some r' → is_Some (posts w !! k) ∨ k ∉ retired w) → world_le w w'.
Proof.
  intros Hret Hev Hnew. split.
  - unfold seen. rewrite Hret. intros k [[r Hr]%elem_of_dom|Hk]%elem_of_union; apply elem_of_union; [left|by right].
    destruct (Hev _ _ Hr) as (r' & Hr' & _). apply elem_of_dom. by eexists.
  - intros k r' Hk Hr'. assert (is_Some (posts w !! k)) as [r Hr].
    { destruct (Hnew _ _ Hr') as [|Hn]; [done|]. apply elem_of_dom. unfold seen in Hk. set_solver. }
    destruct (Hev _ _ Hr) as (r2 & Hr2 & Hl). exists r. split; [done|]. congruence.
Qed.

Lemma answered_after {X} (P : gmap string Row → Prop) e w (act : gmap string Row * result db_error X) :
  P (posts w) → P act.1 → P (posts (answered e w act).1).
Proof. unfold answered. by destruct (e_net e). Qed.

Lemma answered_ok {X} e w (act : gmap string Row * result db_error X) x :
  (answered e w act).2 = Ok x → act.2 = Ok x ∧ posts (answered e w act).1 = act.1.
Proof. unfold answered. by destruct (e_net e). Qed.

Lemma answered_retired {X} e w (act : gmap string Row * result db_error X) : retired (answered e w act).1 = retired w.
Proof. unfold answered. by destruct (e_net e). Qed.

Lemma exec_le R e w (c : pcmd R) : world_le w (exec R e w c).1.
Proof.
  assert (∀ X (act : gmap string Row * result db_error X), evolves (posts w) act.1 →
    (∀ k r', act.1 !! k = Some r' → is_Some (posts w !! k) ∨ k ∉ retired w) → world_le w (answered e w act).1) as Hans.
  { intros X act Hev Hnew. apply world_le_grow; [apply answered_retired|..].
    - by apply (answered_after (evolves (posts w))).
    - apply (answered_after (λ t, ∀ k r', t !! k = Some r' → is_Some (posts w !! k) ∨ k ∉ retired w)); [|done].
      intros k r' Hr'. left. by eexists. }
  destruct c; cbn; try reflexivity; try (apply Hans; [cbn; reflexivity|by intros; left; eexists]);
    try (apply world_le_grow; [done|cbn; reflexivity|by intros; left; eexists]).
  - case_decide as Hid; [reflexivity|]. apply Hans; [apply sql_insert_evolves|]. intros k r'.
    destruct (decide ((sql_insert uuid jsonb (authors w) (e_now e) (e_newID e) (posts w) postType authorID sets).1 = posts w))
      as [->|(r & ->)%sql_insert_changes]; [by left; eexists|]. cbn.
    intros [[<- _]|[_ Hr']]%lookup_insert_Some; [by right|left; by eexists].
  - apply Hans; [apply sql_update_evolves|]. intros k r'.
    destruct (decide ((sql_update uuid jsonb (authors w) (e_now e) (posts w) id postType version sets).1 = posts w))
      as [->|(t' & r & Hr)%sql_update_changes]; [by left; eexists|]. rewrite Hr.
    apply sql_update_ok in Hr as (key & r0 & r1 & _ & Hr0 & _ & _ & _ & _ & -> & _). cbn.
    intros [[<- _]|[_ Hr']]%lookup_insert_Some; left; by eexists.
Qed.

Lemma later_clear_parent clock r : later r (clear_parent clock r).
Proof. by apply later_bump. Qed.

Lemma set_posts_seen w t : seen w ⊆ seen (set_posts t w).
Proof. intros k Hk. unfold seen in *. cbn. destruct (decide (k ∈ dom t)); set_solver. Qed.

Lemma drift_le w w' : drift w w' → world_le w w'.
Proof.
  intros (limit & now & visit & locked & clock & Hv & [->|[retention ->]]); (split; [apply set_posts_seen|]); intros k r' _ Hr'; cbn in Hr'.
  - destruct (posts w !! k) as [r|] eqn:Hr; [|by rewrite publish_none in Hr'].
    destruct (publish_evolves limit now visit locked clock _ Hv _ _ Hr) as (r2 & Hr2 & Hl). exists r. split; [done|]. congruence.
  - destruct (sweep_lookup retention limit now visit locked clock _ k r' Hv Hr') as (r & Hr & [->|[-> _]]); exists r; (split; [done|]);
      [done|apply later_clear_parent].
Qed.

(** An answer shows a row that the table held; what is under its id in a later world is
    a later state of it. *)
Definition held_before (w : pworld) (id : string) (r : Row) : Prop :=
  ∃ key, uuid id = Some key ∧ key ∈ seen w ∧ ∀ r', posts w !! key = Some r' → later r r'.
Definition shown (w : pworld) (ev : event pcmd) : Prop :=
  match ev with Ev c r =>
    match c in pcmd R return R → Prop with
    | PgSelect id ty => λ r, ∀ row, r = Ok (Some row) → held_before w id row
    | PgUpdate id ty v sets => λ r, ∀ row, r = Ok (Some row) → held_before w id row ∧ r_Version row = (v + 1)%Z
    | _ => λ _, True
    end r
  end.

Lemma held_before_le w w' id r : world_le w w' → held_before w id r → held_before w' id r.
Proof.
  intros [Hs Hle] (key & Hk & Hin & Hl). exists key. split_and!; [done|set_solver|]. intros r2 Hr2.
  destruct (Hle key r2 Hin Hr2) as (r1 & Hr1 & Hl12). etrans; [by apply Hl|done].
Qed.

Lemma shown_le w w' ev : world_le w w' → shown w ev → shown w' ev.
Proof.
  intros Hw. destruct ev as [R c r]. destruct c; try done; cbn.
  - intros H row Hr. eapply held_before_le; [done|by apply H].
  - intros H row Hr. destruct (H row Hr). split; [by eapply held_before_le|done].
Qed.

Lemma held_now w id key r : uuid id = Some key → posts w !! key = Some r → held_before w id r.
Proof.
  intros Hk Hr. exists key. split_and!; [done|apply elem_of_union; left; apply elem_of_dom; by eexists|].
  intros r' Hr'. replace r' with r by congruence. done.
Qed.

Lemma exec_update_ok e w id ty v sets r' :
  (exec _ e w (PgUpdate id ty v sets)).2 = Ok (Some r') →
  sql_update uuid jsonb (authors w) (e_now e) (posts w) id ty v sets = (posts (exec _ e w (PgUpdate id ty v sets)).1, Ok (Some r')).
Proof. cbn. intros [H1 ->]%answered_ok. by rewrite <-H1, <-surjective_pairing. Qed.

Lemma exec_shown R e w (c : pcmd R) : shown (exec R e w c).1 (Ev c (exec R e w c).2).
Proof.
  destruct c; try done; intros row Hrow.
  - apply answered_ok in Hrow as [Hrow Hp]. cbn in Hrow. unfold sql_select in Hrow.
    destruct (uuid id) as [key|] eqn:Hk; [|done]. injection Hrow as [Ht _]%typed_row_Some.
    eapply held_now; [done|]. cbn. by rewrite Hp.
  - apply exec_update_ok, sql_update_ok in Hrow as (key & r & r1 & Hk & Hr & _ & Hv & Ha & Hrow & Ht & _).
    apply assign_all_same in Ha as [_ Ha]. split.
    + eapply held_now; [done|]. by rewrite Ht, lookup_insert_eq.
    + rewrite Hrow. cbn. lia.
Qed.

Lemma happened_shown w0 s id a ev : reachable w0 s → happened s id a ev → shown (the_world s) ev.
Proof.
  intros Hr Hh. destruct (event_past exec serve drift world_le w0 s id a ev) as (R & e & w & c & -> & Hle);
    [apply exec_le|apply drift_le|done..|]. eapply shown_le; [exact Hle|]. apply exec_shown.
Qed.

(** Version [x.2] of post [x.1] is replaced. *)
Definition takes (ev : event pcmd) (x : string * Z) : Prop :=
  match ev with Ev c r =>
    match c in pcmd R return R → Prop with
    | PgUpdate id ty v sets => λ r, (∃ row, r = Ok (Some row)) ∧ uuid id = Some x.1 ∧ v = x.2
    | _ => λ _, False
    end r
  end.
Definition spent (w : pworld) (x : string * Z) : Prop :=
  x.1 ∈ seen w ∧ ∀ r, posts w !! x.1 = Some r → (x.2 < r_Version r)%Z.

Lemma replaces_version R e w (c : pcmd R) x :
  takes (Ev c (exec R e w c).2) x → ¬ spent w x ∧ spent (exec R e w c).1 x.
Proof.
  destruct c; try done. intros ([row Hrow] & Hid & Hv). destruct x as [key v]. cbn [fst snd] in *. subst version.
  apply exec_update_ok, sql_update_ok in Hrow as (key' & r & r1 & Hk & Hr & _ & Hv & Ha & Hrow & Ht & _).
  rewrite Hid in Hk. injection Hk as <-. unfold spent, seen. cbn [fst snd]. rewrite Ht. split.
  - intros [_ Hlt]. specialize (Hlt r Hr). lia.
  - split; [set_solver|]. intros r'. rewrite lookup_insert_eq. intros [= <-]. apply assign_all_same in Ha as [_ Ha].
    rewrite Hrow. cbn. lia.
Qed.

Lemma spent_le w w' x : world_le w w' → spent w x → spent w' x.
Proof.
  intros [Hs Hle] [Hin Hlt]. split; [set_solver|]. intros r' Hr'. destruct (Hle _ _ Hin Hr') as (r & Hr & _ & Hv & _).
  specialize (Hlt r Hr). lia.
Qed.

(** The request asks to replace version [v] of the post with this key. *)
Definition writes (q : request) (key : string) (v : Z) : Prop :=
  router.ParseIfMatchVersion (q_headers q) = Ok (Some v) ∧ ∃ id, changes q id ∧ uuid id = Some key.

Lemma changes_unique q id id' : changes q id → changes q id' → id = id'.
Proof. intros [[? H]|H] [[? H']|H']; congruence. Qed.

Lemma success_event w0 s id q l rs key v :
  reachable w0 s → attempts s !! id = Some (mkAttempt q l (Ret rs)) → writes q key v → rs_status rs = 200%Z →
  ∃ i sets r, Ev (PgUpdate i (q_type q) v sets) (Ok (Some r)) ∈ l ∧ uuid i = Some key ∧
    rs_body rs = BPost (exported (toPost r)).
Proof.
  intros Hr Ha (Hv & i & Hc & Hk) Hs.
  pose proof (reachable_along exec serve drift needed reply w0 s id _ (λ q', serve_good sha256 Decode unmarshalBlocks
    unmarshalObject parseUUID roleCaps has_audit has_revalidate q') Hr Ha) as Hgood.
  destruct (Hgood i Hc Hs) as (v' & sets & r & Hv' & Hev & Hbody). cbn in Hv'. rewrite Hv in Hv'. injection Hv' as <-.
  by exists i, sets, r.
Qed.

(** C6. Of the requests that name the same version of a post in If-Match, whatever their
    order and whatever fails between them, at most one PATCH or DELETE is answered with
    success; its answer is the next version, which the table holds until it is replaced
    in turn or, trashed, swept. *)
Theorem posts_no_lost_update w0 s :
  reachable w0 s →
  (∀ id1 q1 l1 rs1 id2 q2 l2 rs2 key v,
     attempts s !! id1 = Some (mkAttempt q1 l1 (Ret rs1)) → attempts s !! id2 = Some (mkAttempt q2 l2 (Ret rs2)) →
     writes q1 key v → writes q2 key v → rs_status rs1 = 200%Z → rs_status rs2 = 200%Z → id1 = id2) ∧
  (∀ id q l rs key v,
     attempts s !! id = Some (mkAttempt q l (Ret rs)) → writes q key v → rs_status rs = 200%Z →
     ∃ r, rs_body rs = BPost (exported (toPost r)) ∧ r_Version r = (v + 1)%Z ∧
       ∀ r', posts (the_world s) !! key = Some r' → later r r').
Proof.
  intros Hr. split.
  - intros id1 q1 l1 rs1 id2 q2 l2 rs2 key v H1 H2 Hw1 Hw2 Hs1 Hs2.
    destruct (success_event _ _ _ _ _ _ _ _ Hr H1 Hw1 Hs1) as (i1 & sets1 & r1 & Hev1 & Hk1 & _).
    destruct (success_event _ _ _ _ _ _ _ _ Hr H2 Hw2 Hs2) as (i2 & sets2 & r2 & Hev2 & Hk2 & _).
    apply list_elem_of_lookup in Hev1 as [n1 Hn1]. apply list_elem_of_lookup in Hev2 as [n2 Hn2].
    refine (proj1 (taken_once exec serve drift spent takes replaces_version (λ R e w c x, spent_le _ _ x (exec_le R e w c))
      (λ w w' x Hd, spent_le _ _ x (drift_le _ _ Hd)) w0 s id1 _ n1 _ id2 _ n2 _ (key, v) Hr H1 Hn1 _ H2 Hn2 _)).
    + cbn. split_and!; [by eexists|done..].
    + cbn. split_and!; [by eexists|done..].
  - intros id q l rs key v H Hw Hs.
    destruct (success_event _ _ _ _ _ _ _ _ Hr H Hw Hs) as (i & sets & r & Hev & Hk & Hb).
    pose proof (happened_shown _ _ id _ _ Hr (conj H Hev)) as Hshown.
    destruct (Hshown r eq_refl) as [(key' & Hk' & _ & Hl) Hv]. rewrite Hk in Hk'. injection Hk' as <-.
    exists r. by split_and!.
Qed.

(** ** Slugs stay unique *)

Definition slugs_unique (t : gmap string Row) : Prop :=
  ∀ k k' r r', t !! k = Some r → t !! k' = Some r' → conflicts r r' = true → k = k'.

Lemma conflicts_sym r r' : conflicts r r' = conflicts r' r.
Proof.
  unfold conflicts, same_parent.
  rewrite (bool_decide_ext (r_PostType r = r_PostType r') (r_PostType r' = r_PostType r)) by (split; congruence).
  rewrite (bool_decide_ext (strings.ToLower (r_Slug r) = strings.ToLower (r_Slug r'))
    (strings.ToLower (r_Slug r') = strings.ToLower (r_Slug r))) by (split; congruence).
  assert (match r_ParentID r, r_ParentID r' with None, None => true | Some p, Some q => bool_decide (p = q) | _, _ => false end =
    match r_ParentID r', r_ParentID r with None, None => true | Some p, Some q => bool_decide (p = q) | _, _ => false end) as ->.
  { destruct (r_ParentID r) as [p|], (r_ParentID r') as [q|]; try done. apply bool_decide_ext. split; congruence. }
  by destruct (bool_decide (r_Status r = "trash")), (bool_decide (r_Status r' = "trash")); cbn; rewrite ?andb_false_r.
Qed.

Lemma slug_free t k r k' o : slug_taken t k r = false → t !! k' = Some o → conflicts r o = true → k' = k.
Proof.
  unfold slug_taken. intros Hf Ho Hc. destruct (decide (k' = k)) as [|Hne]; [done|]. exfalso.
  apply not_true_iff_false in Hf. apply Hf, existsb_exists. exists (k', o).
  split; [by apply list_elem_of_In, elem_of_map_to_list|]. cbn. by rewrite Hc, bool_decide_false by done.
Qed.

Lemma slugs_insert t k r : slugs_unique t → slug_taken t k r = false → slugs_unique (<[k := r]> t).
Proof.
  intros Ht Hf k1 k2 r1 r2 [[<- <-]|[Hn1 H1]]%lookup_insert_Some [[<- <-]|[Hn2 H2]]%lookup_insert_Some Hc; [done|..].
  - symmetry. by eapply slug_free.
  - rewrite conflicts_sym in Hc. by eapply slug_free.
  - by eapply Ht.
Qed.

Lemma publish_conflicts now clock locked k r r' :
  is_due now locked (k, r) = true → conflicts (publish_row now clock r) r' = conflicts r r'.
Proof.
  unfold is_due. cbn. intros [[Hs%bool_decide_eq_true _]%andb_true_iff _]%andb_true_iff.
  unfold conflicts, same_parent. cbn. by rewrite Hs.
Qed.

Lemma publish_slugs limit now visit locked clock t :
  visit ≡ₚ map_to_list t → slugs_unique t → slugs_unique (PublishScheduled limit now visit locked clock t).1.
Proof.
  intros Hv Ht. assert (∀ k r1, (PublishScheduled limit now visit locked clock t).1 !! k = Some r1 →
    ∃ r, t !! k = Some r ∧ ∀ r', conflicts r1 r' = conflicts r r') as Hback.
  { intros k r1 H1. destruct (t !! k) as [r|] eqn:Hr; [|by rewrite publish_none in H1].
    destruct (publish_due limit now visit locked clock _ k r Hv Hr) as (r2 & Hr2 & Hcase). rewrite H1 in Hr2.
    injection Hr2 as <-. exists r. split; [done|]. intros r'. destruct Hcase as [->|[-> Hd]]; [done|].
    by eapply publish_conflicts. }
  intros k k' r1 r1' (r & Hr & Hc)%Hback (r' & Hr' & Hc')%Hback Hcf. apply (Ht k k' r r' Hr Hr').
  by rewrite <-Hc, conflicts_sym, <-Hc', conflicts_sym.
Qed.

Lemma orphan_slugs clock kids t t' : orphan clock kids t = Some t' → slugs_unique t → slugs_unique t'.
Proof.
  revert t. induction kids as [|[k r] kids IH]; intros t; cbn; [by intros [= ->]|].
  destruct (_ || slug_taken t k (clear_parent clock r)) eqn:Hb; [done|]. apply orb_false_iff in Hb as [_ Hf].
  intros Ho Ht. eapply IH; [exact Ho|]. by apply slugs_insert.
Qed.

Lemma sweep_slugs retention limit now visit locked clock t :
  visit ≡ₚ map_to_list t → slugs_unique t → slugs_unique (SweepTrash retention limit now visit locked clock t).1.
Proof.
  intros Hv Ht. destruct (sweep_cases retention limit now visit locked clock t Hv) as [->|(ids & _ & Ho)]; [done|].
  eapply orphan_slugs; [exact Ho|]. intros k k' r r' [Hr _]%map_lookup_filter_Some [Hr' _]%map_lookup_filter_Some. by apply Ht.
Qed.

Lemma drift_slugs w w' : drift w w' → slugs_unique (posts w) → slugs_unique (posts w').
Proof.
  intros (limit & now & visit & locked & clock & Hv & [->|[retention ->]]); [by apply publish_slugs|by apply sweep_slugs].
Qed.

Lemma exec_slugs R e w (c : pcmd R) : slugs_unique (posts w) → slugs_unique (posts (exec R e w c).1).
Proof.
  intros Ht. destruct c; cbn; try done; [| |case_decide; [done|]| |]; apply (answered_after slugs_unique); try done.
  - destruct (decide ((sql_insert uuid jsonb (authors w) (e_now e) (e_newID e) (posts w) postType authorID sets).1 = posts w))
      as [->|(r & Hr)%sql_insert_changes]; [done|]. rewrite Hr.
    apply sql_insert_ok in Hr as (_ & _ & Hf & _). by apply slugs_insert.
  - destruct (decide ((sql_update uuid jsonb (authors w) (e_now e) (posts w) id postType version sets).1 = posts w))
      as [->|(t' & r & Hr)%sql_update_changes]; [done|]. rewrite Hr.
    apply sql_update_ok in Hr as (key & r0 & r1 & _ & _ & _ & _ & _ & _ & -> & Hf & _). by apply slugs_insert.
Qed.

(** Whatever requests, publisher and sweep do, two posts outside the trash never have the same
    slug, up to case, under the same type and parent. *)
Theorem slugs_stay_unique w0 s : slugs_unique (posts w0) → reachable w0 s → slugs_unique (posts (the_world s)).
Proof.
  intros H0. induction 1 as [|s s' Hr IH Hstep]; [done|].
  destruct Hstep as [id q s Hid|R id q l c k e s Hid|w s Hd]; [done|by apply exec_slugs|by eapply drift_slugs].
Qed.

(** ** Who changes the table *)

Definition by_publisher (t t' : gmap string Row) : Prop :=
  ∀ k, t' !! k = t !! k ∨ ∃ r r', t !! k = Some r ∧ t' !! k = Some r' ∧ publishes r r'.

Definition by_sweep (t t' : gmap string Row) : Prop :=
  ∀ k, t' !! k = t !! k ∨
    (∃ r, t !! k = Some r ∧ r_Status r = "trash" ∧ t' !! k = None) ∨
    (∃ r r', t !! k = Some r ∧ t' !! k = Some r' ∧ orphaned t t' r r').

Definition inserted (q : request) (pr : Principal) (t t' : gmap string Row) : Prop :=
  let caps := capsFor (q_type q) in
  ∃ key r, t !! key = None ∧ t' = <[key := r]> t ∧ r_PostType r = q_type q ∧ uuid (UserID pr) = Some (r_AuthorID r) ∧
    allowed pr (c_edit caps) ∧ (r_Status r = "published" → allowed pr (c_publish caps)).

(** The request loaded the post as published before somebody else changed it. *)
Definition stale_published (q : request) (l : ptrace) (id : string) (r : Row) : Prop :=
  ∃ r0, Ev (PgSelect id (q_type q)) (Ok (Some r0)) ∈ l ∧ r_Status r0 = "published" ∧ (r_Version r0 < r_Version r)%Z.

(** A PATCH or DELETE of this version. *)
Definition edited (q : request) (l : ptrace) (pr : Principal) (id : string) (r r' : Row) : Prop :=
  let caps := capsFor (q_type q) in
  r_PostType r = q_type q ∧ router.ParseIfMatchVersion (q_headers q) = Ok (Some (r_Version r)) ∧
  ((∃ raw, q_verb q = VUpdate id raw ∧
      allowed pr (if decide (r_AuthorID r = UserID pr) then c_edit caps else c_editOthers caps) ∧
      (r_Status r' = "published" → r_Status r = "published" ∨ allowed pr (c_publish caps) ∨ stale_published q l id r)) ∨
   (q_verb q = VTrash id ∧ r_Status r' = "trash" ∧
      allowed pr (if decide (r_AuthorID r = UserID pr) then c_deleteOwn caps else c_deleteOthers caps))).

(** The content of a revision of this post, and nothing else, put into the version that the
    request has read. *)
Definition restored (q : request) (l : ptrace) (pr : Principal) (id : string) (r r' : Row) : Prop :=
  r_PostType r = PostTypePost ∧ allowed pr CapEditPosts ∧
  (∃ r0, Ev (PgSelect id PostTypePost) (Ok (Some r0)) ∈ l ∧ r_Version r0 = r_Version r) ∧
  ∃ rev blocks b now, restores parseUUID q l id rev blocks ∧ jsonb (normalizeBlockTree (Some blocks)) = Some b ∧
    r' = bump now (set_hash (sha256 (normalizeBlockTree (Some blocks))) (set_blocks b r)).

Definition updated (q : request) (l : ptrace) (pr : Principal) (t t' : gmap string Row) : Prop :=
  ∃ id key r r', uuid id = Some key ∧ t !! key = Some r ∧ t' = <[key := r']> t ∧ same_post r r' ∧
    r_Version r' = (r_Version r + 1)%Z ∧ (edited q l pr id r r' ∨ restored q l pr id r r').

Lemma answered_changes {X} e w (act : gmap string Row * result db_error X) :
  posts (answered e w act).1 ≠ posts w → posts (answered e w act).1 = act.1 ∧ act.1 ≠ posts w.
Proof. unfold answered. by destruct (e_net e). Qed.

Lemma drift_by w w' : drift w w' → by_publisher (posts w) (posts w') ∨ by_sweep (posts w) (posts w').
Proof.
  intros (limit & now & visit & locked & clock & Hv & [->|[retention ->]]); [left|right]; intros k; cbn.
  - destruct (posts w !! k) as [r|] eqn:Hr.
    + destruct (publish_due limit now visit locked clock _ k r Hv Hr) as (r' & Hr' & [->|[-> Hd]]); [by left|].
      right. exists r, (publish_row now clock r). split_and!; [done..|]. by eapply publish_publishes.
    + left. by apply publish_none.
  - destruct ((SweepTrash retention limit now visit locked clock (posts w)).1 !! k) as [r'|] eqn:Hk.
    + destruct (sweep_lookup retention limit now visit locked clock _ k r' Hv Hk) as (r & Hr & [->|[-> Ho]]); [by left|].
      right; right. by exists r, (clear_parent clock r).
    + destruct (posts w !! k) as [r|] eqn:Hr; [|by left]. right; left. exists r. split_and!; [done| |done].
      by eapply sweep_deletes.
Qed.

Lemma insert_inserted e w q pr ty author sets :
  q_principal q = Some pr → ty = q_type q → author = UserID pr → may_insert sha256 roleCaps pr ty sets →
  posts (exec _ e w (PgInsert ty author sets)).1 ≠ posts w →
  inserted q pr (posts w) (posts (exec _ e w (PgInsert ty author sets)).1).
Proof.
  intros Hp -> -> (i & -> & Hedit & Hpub) Hne. cbn in Hne |- *. case_decide; [done|]. apply answered_changes in Hne as [-> Hne].
  apply sql_insert_changes in Hne as [r Hr]. rewrite Hr. apply sql_insert_ok in Hr as (Hn & _ & _ & u & Hu & Ha).
  exists (e_newID e), r. pose proof (assign_all_same _ _ _ _ _ Ha) as [(_ & Hty & Hau) _]. cbn in Hty, Hau.
  split_and!; [done..|congruence|done|]. intros Hs. apply Hpub.
  apply assign_all_status in Ha. rewrite Ha in Hs. cbn in Hs. destruct (i_Status i); [by cbn in Hs; subst|done].
Qed.

Lemma restore_content r blocks r1 :
  assign_all uuid jsonb r (update_sets sha256 (restore_input blocks)) = Some r1 →
  ∃ b, jsonb (normalizeBlockTree (Some blocks)) = Some b ∧ r1 = set_hash (sha256 (normalizeBlockTree (Some blocks))) (set_blocks b r).
Proof. destruct r. cbn. destruct (jsonb _) as [b|]; [|done]. cbn. intros [= <-]. by exists b. Qed.

Lemma update_updated w0 s e id q l rest pr i ty v sets :
  reachable w0 s → attempts s !! id = Some (mkAttempt q l rest) → needed q l _ (PgUpdate i ty v sets) → q_principal q = Some pr →
  let w' := (exec _ e (the_world s) (PgUpdate i ty v sets)).1 in
  posts w' ≠ posts (the_world s) → updated q l pr (posts (the_world s)) (posts w').
Proof.
  intros Hr Hid (pr' & r0 & Hp' & Hload & Hmay) Hp w' Hne. rewrite Hp in Hp'. injection Hp' as <-.
  subst w'. cbn in Hne |- *. apply answered_changes in Hne as [-> Hne].
  apply sql_update_changes in Hne as (t' & r' & Hu). rewrite Hu.
  apply sql_update_ok in Hu as (key & r & r1 & Hk & Hrow & Hty & Hv & Ha & Hr' & -> & _). cbn [fst].
  destruct (happened_shown _ _ id _ _ Hr (conj Hid Hload) r0 eq_refl) as (key' & Hk' & _ & Hl).
  rewrite Hk in Hk'. injection Hk' as <-. destruct (Hl r Hrow) as ((_ & _ & Hau) & Hle & Heq).
  pose proof (assign_all_same _ _ _ _ _ Ha) as [Hs1 Hv1].
  exists i, key, r, r'. do 3 (split; [done|]). split; [by rewrite Hr'|]. split; [rewrite Hr'; cbn; lia|].
  destruct Hmay as [(-> & Hver & Hmay)|(-> & Hv0 & Hal & rev & blocks & Hres & ->)].
  - left. split; [done|]. split; [by rewrite Hv|]. apply assign_all_status in Ha.
    destruct Hmay as [(raw & inp & Hq & -> & Hal & Hpub)|(Hq & -> & Hal)]; rewrite Hau in Hal.
    + left. exists raw. split_and!; [done..|]. intros Hst. rewrite Hr' in Hst. cbn in Hst. rewrite Ha, status_after_update in Hst.
      destruct (i_Status inp) as [st|] eqn:Hi; cbn in Hst; [|by left]. subst st.
      destruct (Hpub eq_refl) as [H0|H0]; [|by auto].
      destruct (decide (r_Version r0 = r_Version r)) as [Hvv|Hvv]; [left; by rewrite <-(Heq Hvv)|].
      right; right. exists r0. split_and!; [done..|lia].
    + right. split_and!; [done| |done]. rewrite Hr'. cbn. by rewrite Ha.
  - right. split; [done|]. split; [done|]. split; [exists r0; split; [done|lia]|].
    apply restore_content in Ha as (b & Hb & ->). exists rev, blocks, b, (e_now e). by split_and!.
Qed.

(** C29. A step of the requests to the REST mounts, the restores of revisions, the
    publisher and the sweep that changes the table is the publisher's, which publishes
    scheduled posts only, or that of the sweep, which deletes trashed posts and takes them
    from their children; or the insertion of a post, by a principal who may edit, with that
    author, published only with the capability to publish; or a PATCH or DELETE of one
    post, of the version the request names, by a principal with at least the capability
    the handler asks for that author, a post becoming published only with the capability to
    publish, unless it was published when the request loaded it and has changed since; or
    the restore of one post, of the version the request has read, by a principal who may
    edit posts, which puts in the content of a revision of that post and changes nothing
    else. (What the handlers ask is less than docs/06 does: [published_caps_unused],
    [contributor_restores].) *)
Theorem changes_authorised w0 s s' :
  reachable w0 s → sstep s s' → posts (the_world s') ≠ posts (the_world s) →
  by_publisher (posts (the_world s)) (posts (the_world s')) ∨ by_sweep (posts (the_world s)) (posts (the_world s')) ∨
  ∃ id q l rest pr, attempts s !! id = Some (mkAttempt q l rest) ∧ q_principal q = Some pr ∧
    (inserted q pr (posts (the_world s)) (posts (the_world s')) ∨ updated q l pr (posts (the_world s)) (posts (the_world s'))).
Proof.
  intros Hr Hstep Hne. destruct Hstep as [id q s Hid|R id q l c k e s Hid|w s Hd]; cbn in *; [done| |].
  - right; right. exists id, q, l, (Call c k).
    pose proof (reachable_along exec serve drift needed reply w0 s id _ (λ q', serve_good sha256 Decode unmarshalBlocks
      unmarshalObject parseUUID roleCaps has_audit has_revalidate q') Hr Hid) as [Hn _].
    destruct c; try done; try (exfalso; apply Hne; cbn; by apply (answered_after (λ p, p = posts (the_world s)))).
    + destruct Hn as (pr & Hp & Hty & Hau & Hmay). exists pr. split_and!; [done..|]. left. by apply insert_inserted.
    + assert (∃ pr, q_principal q = Some pr) as [pr Hp] by (destruct Hn as (pr & r & Hp & _); by exists pr).
      exists pr. split_and!; [done..|]. right. by eapply update_updated.
  - destruct (drift_by _ _ Hd); auto.
Qed.
End system.

(** ** A concrete site *)

Module site.
(** Bodies are names of inputs here, a text is its own digest, UUID and JSON. *)
Definition input (status slug : option string) (blocks : option string) (at_ : option Time) : CreateInput :=
  mkInput None status None slug None blocks None None None None None None at_.
Definition Decode (s : string) : decoded :=
  if decide (s = "draft") then DValue no_input ""
  else if decide (s = "publish") then DValue (input (Some "published") None None None) ""
  else if decide (s = "unpublish") then DValue (input (Some "draft") None None None) ""
  else if decide (s = "schedule") then DValue (input (Some "scheduled") (Some "later") None (Some 5%Z)) ""
  else if decide (s = "trash") then DValue (input (Some "trash") None None None) ""
  else if decide (s = "rename") then DValue (input None (Some "renamed") None None) ""
  else if decide (s = "null") then DValue (input None (Some "blank") (Some "null") None) ""
  else DError "invalid character".
Definition unmarshalBlocks (s : string) : option (list (option string)) :=
  if decide (s = "null" ∨ s = "[]") then Some [] else None.
Definition own (s : string) : option string := if decide (s = "?") then None else Some s.
Definition roleCaps : gmap string (gset string) := <["writer" := {[CapEditPosts]}]> DefaultRoleCapabilities.
Definition exec := Posts.exec (λ s, s) own own.
Definition serve := Posts.serve Decode unmarshalBlocks (λ _, true) own (PgxStore (λ s, s)) roleCaps true true.

Definition ann : Principal := mkPrincipal "ann" [RoleAuthor].
Definition con : Principal := mkPrincipal "con" [RoleContributor].
Definition ed : Principal := mkPrincipal "ed" [RoleEditor].
Definition sub : Principal := mkPrincipal "sub" [RoleSubscriber].
Definition wri : Principal := mkPrincipal "wri" ["writer"].

Definition row (id author status slug : string) (password : option string) (v : Z) : Row :=
  mkRow id "post" None author status "T" slug None "[x]" "h" password "open" "closed" 0 "{}" None None 1 1 v.
Definition world0 : pworld := mkPWorld
  {["p1" := row "p1" "ann" "draft" "one" None 1; "p2" := row "p2" "con" "published" "two" None 1;
    "p3" := row "p3" "ed" "private" "three" (Some "secret") 1]} ∅ ∅ {["ann"; "con"; "ed"; "wri"]} [].
(** The revision r3 is one of p3, with the content old. *)
Definition at_ (t : Time) (id : string) : penv :=
  mkPEnv t id Served (λ rev, if decide (rev = "r3") then Ok (mkRev "p3" "T" "") else Err RevNotFound)
    (λ rev, if decide (rev = "r3") then Ok "[old]" else Err RevNotFound) true.
Definition req (pr : Principal) (v : string) (b : verb) : request :=
  mkPostRequest "post" (Some pr) (if decide (v = "") then ∅ else {["If-Match" := v]}) b.
Definition whole (id : nat) (q : request) (new : string) : list move := MArrive id q :: replicate 8 (MAdvance id (at_ 9 new)).
Definition outcome (ms : list move) := play exec serve ms world0.

(** What a call was answered: the status and, of a post, its columns. *)
Definition status_of (s : Calls.config (C := pcmd) (W := pworld) (Q := request) (A := response)) (id : nat) : Z :=
  match result_at s id with Some rs => rs_status rs | None => 0 end.
Definition row_of (s : Calls.config (C := pcmd) (W := pworld) (Q := request) (A := response)) (id : nat) : option Row :=
  match result_at s id with Some (mkResponse _ _ (BPost p)) => Some (p_row p) | _ => None end.
Definition stored (s : Calls.config (C := pcmd) (W := pworld) (Q := request) (A := response)) (key : string) : option (string * string * Z) :=
  (λ r, (r_Status r, r_Slug r, r_Version r)) <$> posts (the_world s) !! key.
End site.

(** Two editors save the same version; one of them is told to reload. *)
Definition two_saves : list move :=
  [MArrive 0 (site.req site.ann "1" (VUpdate "p1" "rename")); MArrive 1 (site.req site.ed "1" (VUpdate "p1" "publish"));
   MAdvance 0 (site.at_ 9 ""); MAdvance 1 (site.at_ 9 ""); MAdvance 1 (site.at_ 9 ""); MAdvance 0 (site.at_ 9 "")] ++
  replicate 4 (MAdvance 0 (site.at_ 9 "")) ++ replicate 4 (MAdvance 1 (site.at_ 9 "")).

Example second_save_refused :
  let s := site.outcome two_saves in
  site.status_of s 0 = 412%Z ∧ site.status_of s 1 = 200%Z ∧ site.stored s "p1" = Some ("published", "one", 2%Z).
Proof. vm_compute. auto. Qed.

(** ** What the examples show *)

(** The unique index does not leave out empty slugs: the second draft without a slug is
    refused as a duplicate. *)
Example second_draft_refused :
  let s := site.outcome (site.whole 0 (site.req site.ann "" (VCreate "draft")) "n1" ++
                         site.whole 1 (site.req site.ann "" (VCreate "draft")) "n2") in
  site.status_of s 0 = 201%Z ∧ site.status_of s 1 = 409%Z.
Proof. vm_compute. auto. Qed.

(** The in-memory store accepts it; but it has changed the row when it refuses a slug. *)
Example memory_store_differs :
  let create id slug t := mem_Create (λ s, s) 1 id t "post" "ann" (site.input None slug None None) in
  let t1 := (create "n1" None ∅).1 in
  let t2 := (create "n2" None t1).1 in
  let t3 := (create "n3" (Some "x") t2).1 in
  let u := mem_Update (λ s, s) 2 t3 "post" "n1" 1 (site.input None (Some "X") None None) in
  is_Some (t2 !! "n2") ∧ u.2 = Err ErrDuplicateSlug ∧ ((λ r, (r_Slug r, r_Version r)) <$> u.1 !! "n1") = Some ("X", 2%Z).
Proof. vm_compute. split_and!; eauto. Qed.

(** A contributor, who may not publish, schedules a post for a time that has passed. *)
Example contributor_publishes :
  let s := site.outcome (site.whole 0 (site.req site.con "" (VCreate "schedule")) "n1") in
  let t := posts (the_world s) in
  Allowed (Can site.roleCaps site.con CapPublishPosts) = false ∧ site.status_of s 0 = 201%Z ∧
  (r_Status <$> (PublishScheduled 500 60 (map_to_list t) ∅ 60 t).1 !! "n1") = Some "published".
Proof. vm_compute. auto. Qed.

(** The child of a swept page moves to the root, where its slug may be taken: the sweep
    fails, and will fail every night. *)
Example sweep_stuck :
  let page id parent status slug := mkRow id "page" parent "ed" status "T" slug None "[]" "h" None "open" "closed" 0 "{}" None None 1 1 1 in
  let t : gmap string Row := {["a" := page "a" None "trash" "old"; "b" := page "b" (Some "a") "published" "about";
    "c" := page "c" None "published" "about"; "d" := page "d" None "trash" "other"]} in
  let swept := SweepTrash 10 1000 100 (map_to_list t) ∅ 100 t in
  (r_Status <$> swept.1 !! "a") = Some "trash" ∧ (r_Status <$> swept.1 !! "d") = Some "trash" ∧
  swept.2 = Err "query: constraint violation".
Proof. vm_compute. auto. Qed.

(** Published when loaded, unpublished before the UPDATE: the change is not checked for
    the capability to publish. *)
Example contributor_republishes :
  let s := site.outcome ([MArrive 0 (site.req site.con "2" (VUpdate "p2" "publish")); MAdvance 0 (site.at_ 9 "")] ++
    site.whole 1 (site.req site.ed "1" (VUpdate "p2" "unpublish")) "" ++ replicate 6 (MAdvance 0 (site.at_ 9 ""))) in
  site.status_of s 1 = 200%Z ∧ site.status_of s 0 = 200%Z ∧ site.stored s "p2" = Some ("published", "two", 3%Z).
Proof. vm_compute. auto. Qed.

(** Without the capability to delete, PATCH moves a post to the trash. *)
Example patch_trashes :
  let s := site.outcome (site.whole 0 (site.req site.wri "" (VCreate "draft")) "n1" ++
    site.whole 1 (site.req site.wri "1" (VTrash "n1")) "" ++ site.whole 2 (site.req site.wri "1" (VUpdate "n1" "trash")) "") in
  site.status_of s 1 = 403%Z ∧ site.status_of s 2 = 200%Z ∧ site.stored s "n1" = Some ("trash", "", 2%Z).
Proof. vm_compute. auto. Qed.

(** A subscriber reads the draft of somebody else; a private post is refused as such. *)
Example subscriber_reads_draft :
  let s := site.outcome (site.whole 0 (site.req site.sub "" (VGet "p1")) "" ++ site.whole 1 (site.req site.sub "" (VGet "p3")) "") in
  (r_ContentBlocks <$> site.row_of s 0) = Some "[x]" ∧ site.status_of s 1 = 403%Z.
Proof. vm_compute. auto. Qed.

(** The list shows the subscriber the private post, with its blocks though they are
    protected by a password. *)
Example list_shows_protected :
  let s := site.outcome (site.whole 0 (site.req site.sub "" (VList "limit=10")) "") in
  match result_at s 0 with
  | Some (mkResponse 200 _ (BPage data _)) =>
      (λ p, (r_Status (p_row p), r_ContentBlocks (p_row p), p_Protected p)) <$> data
  | _ => []
  end = [("draft", "[x]", false); ("published", "[x]", false); ("private", "[x]", true)].
Proof. vm_compute. auto. Qed.

(** Trashing a published post and renaming one leave the old page as it is. *)
Example old_pages_stay :
  notified (the_world (site.outcome (site.whole 0 (site.req site.con "1" (VTrash "p2")) ""))) = [] ∧
  notified (the_world (site.outcome (site.whole 0 (site.req site.con "1" (VUpdate "p2" "rename")) ""))) = [["/posts/renamed"; "/"]].
Proof. vm_compute. auto. Qed.

(** A contributor changes and trashes a post of its own after publication, without
    the capabilities for published posts. *)
Example published_caps_unused :
  let caps := Can site.roleCaps site.con in
  let s := site.outcome (site.whole 0 (site.req site.con "1" (VUpdate "p2" "rename")) "" ++
                         site.whole 1 (site.req site.con "2" (VTrash "p2")) "") in
  Allowed (caps CapEditPublishedPosts) = false ∧ Allowed (caps CapDeletePublishedPosts) = false ∧
  site.status_of s 0 = 200%Z ∧ site.stored s "p2" = Some ("trash", "renamed", 3%Z).
Proof. vm_compute. auto. Qed.

(** A contributor, who may not edit posts of others or read private ones, puts an old
    revision into the private post of an editor; the request names no version. *)
Example contributor_restores :
  let s := site.outcome (site.whole 0 (site.req site.con "1" (VUpdate "p3" "rename")) "" ++
                         site.whole 1 (site.req site.con "" (VRestore "p3" "r3")) "") in
  Allowed (Can site.roleCaps site.con CapEditOthersPosts) = false ∧
  site.status_of s 0 = 403%Z ∧ site.status_of s 1 = 200%Z ∧
  ((λ r, (r_ContentBlocks r, r_Status r, r_Version r)) <$> posts (the_world s) !! "p3") = Some ("[old]", "private", 2%Z).
Proof. vm_compute. auto. Qed.

(** A revision of another post is refused, and a post that changes between the two
    statements of the restore is not overwritten. *)
Example restore_refused :
  let s := site.outcome (site.whole 0 (site.req site.ed "" (VRestore "p1" "r3")) "" ++
    [MArrive 1 (site.req site.ed "" (VRestore "p3" "r3")); MAdvance 1 (site.at_ 9 ""); MAdvance 1 (site.at_ 9 "");
     MAdvance 1 (site.at_ 9 "")] ++ site.whole 2 (site.req site.ed "1" (VUpdate "p3" "rename")) "" ++
    replicate 3 (MAdvance 1 (site.at_ 9 ""))) in
  site.status_of s 0 = 404%Z ∧ site.status_of s 2 = 200%Z ∧ site.status_of s 1 = 500%Z ∧
  (r_ContentBlocks <$> posts (the_world s) !! "p3") = Some "[x]".
Proof. vm_compute. auto. Qed.

(** null passes for a list of blocks. *)
Example null_blocks_stored :
  let s := site.outcome (site.whole 0 (site.req site.ann "" (VCreate "null")) "n1") in
  site.status_of s 0 = 201%Z ∧ (r_ContentBlocks <$> posts (the_world s) !! "n1") = Some "null".
Proof. vm_compute. auto. Qed.

(** An id or an author that is not a UUID is an internal error. *)
Example bad_uuid_is_500 :
  let s := site.outcome (site.whole 0 (site.req site.ann "" (VGet "?")) "" ++ site.whole 1 (site.req site.ann "" (VList "author=%3F")) "") in
  site.status_of s 0 = 500%Z ∧ site.status_of s 1 = 500%Z.
Proof. vm_compute. auto. Qed.

(** A brace after the body is let through. *)
Example brace_after_body : decodeBody (λ s, DValue no_input (strings.drop 2 s)) "{}}" = Ok no_input.
Proof. vm_compute. auto. Qed.

(** Percent and underscore in a search stand for any text. *)
Example search_wildcards : ilike "%_%" "Title" = true ∧ strings.Contains (strings.ToLower "Title") "_" = false.
Proof. vm_compute. auto. Qed.

(** ** Witnesses *)

(** The calls of a state that have ended, as booleans to be computed. *)
Definition ended (s : Calls.config (C := pcmd) (W := pworld) (Q := request) (A := response)) (id : nat)
    (P : request → response → bool) : bool :=
  match attempts s !! id with Some (mkAttempt q _ (Ret rs)) => P q rs | _ => false end.
Lemma ended_inv s id P :
  ended s id P = true → ∃ q l rs, attempts s !! id = Some (mkAttempt q l (Ret rs)) ∧ P q rs = true.
Proof. unfold ended. destruct (attempts s !! id) as [[q l [rs|]]|]; try done. eauto 6. Qed.

Definition saved_p1 (q : request) (rs : response) : bool :=
  (rs_status rs =? 200)%Z && bool_decide (q_headers q !! "If-Match" = Some "1") &&
  match q_verb q with VUpdate "p1" _ => true | _ => false end.
Lemma saved_p1_writes q rs : saved_p1 q rs = true → rs_status rs = 200%Z ∧ writes site.own q "p1" 1.
Proof.
  unfold saved_p1. intros [[Hs%Z.eqb_eq Hh%bool_decide_eq_true]%andb_true_iff Hv]%andb_true_iff. split; [done|]. split.
  - unfold router.ParseIfMatchVersion, router.header_get. rewrite Hh. vm_compute. reflexivity.
  - exists "p1". split; [left|done]. destruct (q_verb q) as [| | |id body| |]; try done. exists body.
    repeat (case_match; try done).
Qed.

Lemma posts_no_lost_update_witness :
  ∃ r, r_Version r = 2%Z ∧ ∀ r', posts (the_world (site.outcome two_saves)) !! "p1" = Some r' → later r r'.
Proof.
  destruct (ended_inv (site.outcome two_saves) 1 saved_p1) as (q & l & rs & Ha & [Hs Hw]%saved_p1_writes); [vm_compute; reflexivity|].
  destruct (posts_no_lost_update (λ s, s) site.own site.own site.Decode site.unmarshalBlocks (λ _, true) site.own site.roleCaps true true
    site.world0 (site.outcome two_saves)) as [_ Hlast]; [apply play_reachable|].
  destruct (Hlast 1 q l rs "p1" 1%Z Ha Hw Hs) as (r & _ & Hv & Hl). exists r. split; [exact Hv|exact Hl].
Defined.

Lemma play1_sends {C : Type → Type} {E W Q A} (exec : ∀ R, E → W → C R → W * R) body drift
    (s : Calls.config (C := C) (W := W) (Q := Q) (A := A)) id e :
  match attempts s !! id with Some (mkAttempt _ _ (Call _ _)) => true | _ => false end = true →
  Calls.sstep exec body drift s (play1 exec body s (MAdvance id e)).
Proof.
  intros H. cbn. destruct (attempts s !! id) as [[q l [a|R c k]]|] eqn:Ha; try done. exact (Advance _ _ _ id q l c k e s Ha).
Qed.

Lemma changes_authorised_witness :
  let s := site.outcome (take 3 two_saves ++ [MAdvance 1 (site.at_ 9 "")]) in
  let t := posts (the_world s) in
  let t' := posts (the_world (play1 site.exec site.serve s (MAdvance 1 (site.at_ 9 "")))) in
  by_publisher t t' ∨ by_sweep t t' ∨ ∃ id q l rest pr, attempts s !! id = Some (mkAttempt q l rest) ∧ q_principal q = Some pr ∧
    (inserted site.own site.roleCaps q pr t t' ∨ updated (λ s, s) site.own site.own site.own site.roleCaps q l pr t t').
Proof.
  intros s t t'. eapply (changes_authorised (λ s, s) site.own site.own site.Decode site.unmarshalBlocks (λ _, true) site.own site.roleCaps true true
    site.world0 s (play1 site.exec site.serve s (MAdvance 1 (site.at_ 9 "")))).
  - apply play_reachable.
  - apply play1_sends. vm_compute. reflexivity.
  - intros Heq. apply (f_equal (λ m, r_Version <$> (m !! "p1"))) in Heq. vm_compute in Heq. discriminate Heq.
Defined.
